(* ===== verification/_CoqProject ===== *)
-Q . S2P
Prelude.v
Text.v
PortRange.v
IpAddr.v
Hostname.v
Target.v
RateLimit.v
TokenBucket.v
RateScope.v
Failover.v
ClientHello.v
RouteTable.v
ProxyProtocol.v
Quota.v
CopyLoop.v
RuleStore.v
Rbac.v
Fingerprint.v
Identity.v
WebAuth.v
AuthLayer.v
PortGroups.v
Stats.v
Splice.v
Proxy.v
SniListener.v
UdpRegistry.v
Resolver.v
TrafficPeriod.v
TrafficQuota.v
ClientTokens.v
ClientSessions.v
RulePersist.v
RulePush.v
ClientControl.v
Slots.v
RuleRun.v
Standalone.v
UdpPath.v
UdpBatch.v
UdpSupervisor.v
Metrics.v
OwnerCaps.v
AppState.v
RuleHttp.v
AuditLog.v
TrafficSamples.v
QuotaHttp.v
Advertised.v
Enroll.v
