(* ===== verification/Prelude.v ===== *)
(** * Portunus: a verification development

    Portunus is a port forwarder in Rust with a control plane.  A server keeps
    rules, users, credentials, grants and traffic quotas; clients hold a gRPC
    session to it, receive rules and forward TCP and UDP for them; operators
    push rules through an HTTP interface.  This library models the parts whose
    correctness is a matter of logic, as functions and step relations that
    follow the source, and proves what they promise.

    ** How the parts interact

    An operator's request passes the gate of the HTTP interface ([AuthLayer]),
    which authenticates it by bearer token ([Identity], [Fingerprint]) or by
    session cookie ([WebAuth]), hands the operator to the authorization
    functions ([Rbac]) and leaves a trace ([AuditLog]).  A rule request
    ([RuleHttp]) is validated ([PortRange], [Target], [Hostname], [RateLimit])
    and entered into the rule store ([RuleStore]), which decides port
    conflicts; [RulePush] stores it on disk ([RulePersist]), sends it to the
    client's session and takes the client's answer.  A client enrols and
    authenticates with its own credentials ([ClientTokens]); its sessions are
    in the registry of [ClientSessions], and a reconnect replays its rules,
    owner caps ([OwnerCaps]) and quotas.

    On the client, [ClientControl] turns the server's messages into running
    rules and limits.  A rule that routes by server name enters a port group
    ([PortGroups]), whose table ([RouteTable]) the listener ([SniListener])
    consults after it has peeked the ClientHello ([ClientHello]); any other
    TCP rule runs its own accept loops ([RuleRun]).  An accepted connection
    passes the admission gate ([RateScope] over [TokenBucket], held by the
    guards of [Slots]), dials its target ([Resolver], [Failover]), announces
    the caller ([ProxyProtocol]) and is copied by one of the copy loops
    ([Proxy], [Splice], [CopyLoop], [Quota]), which leave counters ([Stats]).
    UDP rules receive, admit, forward and answer datagrams ([UdpPath],
    [UdpBatch]) over the flow table ([UdpRegistry]), under a supervisor
    ([UdpSupervisor]).  The standalone forwarder runs the same data plane from
    a file ([Standalone]).

    The client reports its counters; the server shows them ([Metrics]),
    bills them to monthly quotas ([TrafficQuota], [TrafficPeriod]) and keeps
    their history ([TrafficSamples]).  [QuotaHttp] sets quotas and tells the
    client what is left of them.  [AppState] is the server's whole state with the operations that span its
    parts.

    ** Which file models what

    Paths are below [crates/].  Definitions keep the names of the source.

    - [Prelude]: results, machine integers, sums over lists, tactics and hints;
      [Text]: Rust strings and UTF-8.
    - [PortRange] portunus-core/src/port_range.rs; [IpAddr] the standard
      library's address literals; [Hostname] hostname.rs; [Target] target.rs
      and rule_target.rs; [RateLimit] rate_limit.rs, all of portunus-core.
    - [TokenBucket] portunus-forwarder/src/forwarder/rate_limit/bucket.rs, as
      a function and as interleaved atomic actions of concurrent callers.
    - [RateScope] rate_limit/scope.rs: limiters and gauges are a heap with the
      sharing the [Arc]s have; hot reload replaces limiters and keeps gauges.
    - [CopyLoop] rate_limit/copy.rs, driven by a script of reads and wakeups.
    - [Quota] forwarder/quota/: the byte budget a client enforces, as
      functions and as interleaved actions.
    - [Failover] failover.rs and failover_path.rs: the health machine of a
      target and the walk over the targets of a rule.
    - [ClientHello] sni/client_hello.rs and sni/peek.rs; [RouteTable]
      sni/route_table.rs; [SniListener] sni/listener.rs; [PortGroups]
      portunus-client/src/port_groups.rs.
    - [ProxyProtocol] proxy_protocol.rs; [Proxy] proxy.rs; [Splice] splice.rs
      as a machine whose steps are system calls; [Stats] stats.rs and
      rate_limit/stats.rs.
    - [UdpRegistry] udp/registry.rs, udp/reaper.rs and the upstream cursor of
      udp/flow.rs, as functions and as interleaved actions.
    - [Resolver] portunus-forwarder/src/resolver/: the cache with its critical
      sections as functions and its tasks as interleaved steps.
    - [RuleStore] portunus-server/src/rules.rs; [Rbac] portunus-auth and
      operator/rbac.rs; [Fingerprint] portunus-core/src/fingerprint.rs;
      [Identity] store/operator_store.rs, operator/users.rs and grants.rs;
      [WebAuth] the login, session and throttle code of operator/; [AuthLayer]
      operator/auth_layer.rs and csrf.rs.
    - [TrafficPeriod] portunus-server/src/traffic_quotas/mod.rs over a class
      for chrono; [TrafficQuota] the rest of traffic_quotas/ and the quota
      replay of grpc/service.rs.
    - [ClientTokens] portunus-server/src/store/token_store.rs and
      enrollment_store.rs; [ClientSessions] clients.rs, grpc/interceptor.rs
      and the session of grpc/service.rs.
    - [RulePersist] store/rule_store.rs; [RulePush] the rule operations of
      operator/cli.rs with the replay and statuses of grpc/service.rs;
      [ClientControl] portunus-client/src/control.rs.
    - [Slots] the guards of rate_limit/scope.rs; [RuleRun] forwarder/range.rs,
      mod.rs, failover_path.rs and probe.rs: binding, accept loops, drain and
      probes of a rule as a machine.
    - [UdpPath], [UdpBatch] udp/listener.rs, demux.rs, flow.rs and error.rs;
      [UdpSupervisor] udp/runtime.rs and [run_udp].
    - [Standalone] portunus-standalone/src/: configuration, runtime and the
      statistics socket.
    - [Metrics] portunus-server/src/metrics.rs, operator/per_port_stats.rs and
      stats_stream.rs; [OwnerCaps] owner.rs, store/owner_cap_store.rs and
      operator/owner_cap.rs; [AppState] state.rs with the handlers and
      messages that cross components; [RuleHttp] the rule endpoints of
      operator/http.rs; [AuditLog] the audit ring, writer, queries, endpoint
      and retention.
    - [TrafficSamples] traffic_quotas/samples.rs and rollup.rs with the traffic
      endpoints of operator/quota_http.rs; [QuotaHttp] its quota endpoints, the
      messages of traffic_quotas/mod.rs and rollover.rs, and the task of
      serve.rs that relays exhaustion.

    ** What the theorems show

    - Rate limits: a bucket admits no more than its capacity and refill in any
      window under every interleaving of callers; the wait it reports is
      enough; the live-connection ceiling holds and gauges return to zero; hot
      reload carries state; no operation follows a dangling reference.
    - Quotas: concurrent draws never exceed the budget of a client; the capped
      copy stays within it; the server bills exactly what readings add, marks
      exhaustion once, and rolls periods over along the calendar; a quota used
      up blocks the client that is told so; the hourly history agrees with the
      minutes it was made from, whatever the order of readings and rollups.
    - Server names: the parser is total on every input, decides the same on
      every chunking, inverts the builder; the routing table implements the
      documented precedence; port groups refine a map of live rules; a
      connection is dispatched to the rule that map selects.
    - Connections: bytes of one connection never reach another through the
      shared pipes; what is booked is what was moved; failover walks targets
      as its health machine says; the PROXY v2 header decodes to its source.
    - Resolution: no waiter is stranded, a name is resolved by one task at a
      time, slots are conserved, the cache stays bounded, and only addresses
      the resolver gave are served.
    - UDP flows: the occupancy counter is exact in every interleaving, the cap
      holds while reservations keep their slots, the reaper evicts exactly the
      idle flows.
    - Control plane: the store's index is exact and a push is accepted exactly
      when its ports are free; authorization, authentication, login, logout
      and the throttle behave as specified, and revocation cascades remove
      exactly what is no longer covered.
    - Clients and sessions: a code is redeemed at most once, a client has at
      most one live session, a revocation ends its sessions; the disk mirrors
      the rules in memory and a restart restores them; the replay sends
      exactly the rules a client may run, and what is stored is what the
      client decodes and runs.
    - Rule life: a removed rule frees its ports, guards and statistics, its
      removal terminates, and the supervisor of a UDP rule stops its tasks in
      order; resources of UDP flows are accounted for and a batch sends,
      counts and bills exactly what the kernel took.
    - The server as a whole: interleaved reports are billed to the rule's
      owner exactly; removing a rule clears every part that knows it; an
      accepted request is fit to run and a refused one changes nothing; owner
      caps reach the client that enforces them; the audit writer loses,
      repeats and reorders nothing it accepted, and its pages are complete.

    Some theorems exhibit behaviour that differs from a comment or an intent
    of the source: an interleaving that exceeds a documented bound, a refused
    operation that leaves traces, a look-up by the wrong key.  Their doc
    comments say so.

    ** Conventions and bounds

    A [w]-bit integer is a [Z] with its wrap-around or saturation written out;
    bytes and characters are [Z]s.  A panic of a build with overflow checks is
    [Panics].  An operation that takes a lock is a function of the locked
    state; code on atomics is also given as a step relation over any number of
    callers.  A loop that is not structural has fuel, and a lemma or theorem
    that the fuel the definition uses is enough: the ClientHello parser has
    the length of its buffer plus one, eviction the size of the map, the
    period loops the 12000 periods and the rollup the 2161 hours the source
    bounds them by; a reader of
    audit pages is given more steps than there are rows.  Third-party
    code (chrono, tokio's timers, SQLite's statements, hashes, the kernel) is
    a class, an argument, or the answer an event carries.

    ** Not modelled

    Socket and file input/output, timers and logging, beyond the answers the
    models take as arguments; the older multi-target UDP listener; the gRPC
    framework and generated messages; the command-line programs, which parse
    arguments and call the operator interface; the settings of the advertised
    endpoint; backup, migrations and the data directory; TLS; configuration files of
    server and client; the terminal view and the web user interface.  These
    either only pass data between the modelled parts and the outside, or are
    separate components left for later. *)

From Stdlib Require Export ZArith Lia.
From stdpp Require Export prelude relations gmap sorting strings.

(** ** Results

    Rust's [Result<T, E>], with the [?] operator as a binding notation. *)

Inductive Result (T E : Type) : Type :=
| Ok (v : T)
| Err (e : E).

Arguments Ok {T E} _.
Arguments Err {T E} _.

Declare Scope portunus_scope.
Delimit Scope portunus_scope with portunus.

Notation "'let?' x ':=' c 'in' k" :=
  (match c with Ok x => k | Err er => Err er end)
  (at level 10, x pattern, c at level 100, k at level 200,
   format "'[v' 'let?'  x  ':='  c  'in'  '/' k ']'") : portunus_scope.

Open Scope portunus_scope.

Definition is_ok {T E} (r : Result T E) : bool :=
  match r with Ok _ => true | Err _ => false end.

Definition map_err {T E F} (f : E -> F) (r : Result T E) : Result T F :=
  match r with Ok v => Ok v | Err e => Err (f e) end.

(** A computation of a build with overflow checks: it returns, or panics. *)
Inductive Outcome (A : Type) : Type :=
| Returns (a : A)
| Panics.

Arguments Returns {A} _.
Arguments Panics {A}.

(** ** Machine integers

    A [w]-bit integer is a [Z]; the operations that can leave the range say
    what happens there. *)

Definition u8_max : Z := 255.
Definition u16_max : Z := 65535.
Definition u32_max : Z := 4294967295.
Definition u64_max : Z := 18446744073709551615.
Definition i64_max : Z := 9223372036854775807.
Definition i64_min : Z := -9223372036854775808.

Definition in_u8 (z : Z) : Prop := (0 <= z <= u8_max)%Z.
Definition in_u16 (z : Z) : Prop := (0 <= z <= u16_max)%Z.
Definition in_u32 (z : Z) : Prop := (0 <= z <= u32_max)%Z.
Definition in_u64 (z : Z) : Prop := (0 <= z <= u64_max)%Z.
Definition in_i64 (z : Z) : Prop := (i64_min <= z <= i64_max)%Z.

(** [saturating_add], [saturating_mul], [saturating_sub] on [u64] and [u32]. *)
Definition sat_add_u64 (a b : Z) : Z := Z.min (a + b) u64_max.
Definition sat_mul_u64 (a b : Z) : Z := Z.min (a * b) u64_max.
Definition sat_sub_u64 (a b : Z) : Z := Z.max (a - b) 0.
Definition sat_add_u32 (a b : Z) : Z := Z.min (a + b) u32_max.

(** [i64::saturating_sub], [i64::saturating_add]. *)
Definition clamp_i64 (z : Z) : Z := Z.max i64_min (Z.min z i64_max).

(** [fetch_add] and the other wrapping operations on [u64] and [u32]. *)
Definition wrap_u64 (z : Z) : Z := (z mod 18446744073709551616)%Z.
Definition wrap_u32 (z : Z) : Z := (z mod 4294967296)%Z.

(** [u64::try_from(n).unwrap_or(u64::MAX)] of a non-negative number, and the
    same for [i64]. *)
Definition to_u64_or_max (z : Z) : Z := Z.min z u64_max.
Definition to_i64_or_max (z : Z) : Z := Z.min z i64_max.

(** [a.div_ceil(b)]. *)
Definition div_ceil (a b : Z) : Z := ((a + b - 1) / b)%Z.

(** ** Automation *)

Create HintDb portunus discriminated.

Ltac unfold_ints :=
  unfold in_u8, in_u16, in_u32, in_u64, in_i64,
    u8_max, u16_max, u32_max, u64_max, i64_max, i64_min in *.

(** Boolean tests of the code, as hypotheses. *)
Ltac bool_prop :=
  repeat match goal with
  | H : (_ && _) = true |- _ => apply andb_prop in H; destruct H
  | H : (_ || _) = false |- _ => apply orb_false_elim in H; destruct H
  | H : (_ || _) = true |- _ => apply orb_prop in H
  | H : (_ && _) = false |- _ => apply andb_false_iff in H
  | H : negb _ = true |- _ => apply negb_true_iff in H
  | H : negb _ = false |- _ => apply negb_false_iff in H
  | H : Z.leb _ _ = true |- _ => apply Z.leb_le in H
  | H : Z.leb _ _ = false |- _ => apply Z.leb_gt in H
  | H : Z.ltb _ _ = true |- _ => apply Z.ltb_lt in H
  | H : Z.ltb _ _ = false |- _ => apply Z.ltb_ge in H
  | H : Z.eqb _ _ = true |- _ => apply Z.eqb_eq in H
  | H : Z.eqb _ _ = false |- _ => apply Z.eqb_neq in H
  | H : Nat.leb _ _ = true |- _ => apply Nat.leb_le in H
  | H : Nat.leb _ _ = false |- _ => apply Nat.leb_gt in H
  | H : Nat.ltb _ _ = true |- _ => apply Nat.ltb_lt in H
  | H : Nat.ltb _ _ = false |- _ => apply Nat.ltb_ge in H
  | H : Nat.eqb _ _ = true |- _ => apply Nat.eqb_eq in H
  | H : Nat.eqb _ _ = false |- _ => apply Nat.eqb_neq in H
  | H : bool_decide _ = true |- _ => apply bool_decide_eq_true in H
  | H : bool_decide _ = false |- _ => apply bool_decide_eq_false in H
  end.

(** Case analysis on the outermost test of the goal, keeping the equation. *)
Ltac case_test :=
  match goal with
  | |- context [if ?b then _ else _] => destruct b eqn:?
  | |- context [match ?b with _ => _ end] => destruct b eqn:?
  end.

Ltac case_test_in H :=
  match type of H with
  | context [if ?b then _ else _] => destruct b eqn:?
  | context [match ?b with _ => _ end] => destruct b eqn:?
  end.

(** Evaluate the tests of the goal that [lia] decides. *)
Ltac eval_if :=
  repeat match goal with
  | |- context [if ?b then _ else _] =>
    first [ assert (b = true) as -> by lia | assert (b = false) as -> by lia ]
  end.

(** ** Generic lemmas *)

Lemma div_ceil_mul_le (a b : Z) :
  (0 < b)%Z -> (a <= div_ceil a b * b)%Z.
Proof.
  intros Hb. unfold div_ceil.
  pose proof (Z.div_mod (a + b - 1) b ltac:(lia)).
  pose proof (Z.mod_pos_bound (a + b - 1) b Hb). lia.
Qed.

Lemma div_ceil_nonneg (a b : Z) :
  (0 <= a)%Z -> (0 < b)%Z -> (0 <= div_ceil a b)%Z.
Proof. intros. apply Z.div_pos; lia. Qed.

Lemma div_le_mono_pos (a b c : Z) :
  (0 < c)%Z -> (a <= b)%Z -> (a / c <= b / c)%Z.
Proof. intros. now apply Z.div_le_mono. Qed.

(** The sum of a measure over a list; updating one element changes it by the
    difference. *)
Definition sum_of {A} (f : A -> Z) (l : list A) : Z :=
  foldr (fun x s => (f x + s)%Z) 0%Z l.

Lemma sum_of_insert {A} (f : A -> Z) (l : list A) (i : nat) (x y : A) :
  l !! i = Some x -> sum_of f (<[i := y]> l) = (sum_of f l - f x + f y)%Z.
Proof.
  revert i. induction l as [|z l IH]; intros [|i] Hi; simplify_eq/=; [lia|].
  rewrite (IH _ Hi). lia.
Qed.

Lemma sum_of_app {A} (f : A -> Z) (l k : list A) :
  sum_of f (l ++ k) = (sum_of f l + sum_of f k)%Z.
Proof. induction l; simpl; lia. Qed.

Lemma sum_of_nonneg {A} (f : A -> Z) (l : list A) :
  (forall x, 0 <= f x)%Z -> (0 <= sum_of f l)%Z.
Proof. intros Hf. induction l as [|x l IH]; simpl; [lia|]. specialize (Hf x). lia. Qed.

Lemma sum_of_replicate {A} (f : A -> Z) (n : nat) (x : A) :
  f x = 0%Z -> sum_of f (replicate n x) = 0%Z.
Proof. intros Hx. induction n; simpl; lia. Qed.

Lemma sum_of_le {A} (f g : A -> Z) (l : list A) :
  (forall x, f x <= g x)%Z -> (sum_of f l <= sum_of g l)%Z.
Proof. intros Hf. induction l as [|x l IH]; simpl; [lia|]. specialize (Hf x). lia. Qed.

Lemma sum_of_le_length {A} (f : A -> Z) (l : list A) :
  (forall x, f x <= 1)%Z -> (sum_of f l <= Z.of_nat (length l))%Z.
Proof. intros Hf. induction l as [|x l IH]; simpl; [lia|]. specialize (Hf x). lia. Qed.

Lemma sum_of_ext {A} (f g : A -> Z) l : (forall x, f x = g x) -> sum_of f l = sum_of g l.
Proof. intros Hfg. induction l as [|x l IH]; simpl; [done|]. by rewrite Hfg, IH. Qed.

Lemma sum_of_add {A} (f g : A -> Z) l : sum_of (fun x => (f x + g x)%Z) l = (sum_of f l + sum_of g l)%Z.
Proof. induction l as [|x l IH]; simpl; [done|]. rewrite IH. lia. Qed.

Lemma sum_of_fmap {A B} (f : B -> Z) (g : A -> B) l : sum_of f (g <$> l) = sum_of (fun x => f (g x)) l.
Proof. induction l as [|x l IH]; [done|]. rewrite fmap_cons. simpl. by rewrite IH. Qed.

Lemma wrap_u64_id (z : Z) : in_u64 z -> wrap_u64 z = z.
Proof. unfold wrap_u64. unfold_ints. intros. apply Z.mod_small. lia. Qed.

Lemma wrap_u64_in (z : Z) : in_u64 (wrap_u64 z).
Proof.
  unfold wrap_u64. pose proof (Z.mod_pos_bound z 18446744073709551616). unfold_ints. lia.
Qed.

(** A wrapping increment is undone by a wrapping decrement. *)
Lemma wrap_u64_undo (z d : Z) : in_u64 z -> wrap_u64 (wrap_u64 (z + d) + - d) = z.
Proof.
  intros Hz. unfold wrap_u64. rewrite Zplus_mod_idemp_l. replace (z + d + - d)%Z with z by lia.
  by apply wrap_u64_id.
Qed.

Lemma wrap_u64_add (a b : Z) : wrap_u64 (wrap_u64 a + b) = wrap_u64 (a + b).
Proof. apply Zplus_mod_idemp_l. Qed.

Lemma wrap_u32_add (a b : Z) : wrap_u32 (wrap_u32 a + b) = wrap_u32 (a + b).
Proof. apply Zplus_mod_idemp_l. Qed.

#[export] Hint Resolve wrap_u64_in : portunus.
#[export] Hint Rewrite wrap_u64_add wrap_u32_add : portunus.

Lemma forallb_true_Forall {A} (f : A -> bool) (l : list A) :
  forallb f l = true <-> Forall (fun x => f x = true) l.
Proof.
  induction l as [|x l IH]; [by split|]. simpl. by rewrite andb_true_iff, IH, Forall_cons.
Qed.

(** An invariant of a step relation holds of every reachable state. *)
Lemma rtc_preserves {A} (R : relation A) (P : A -> Prop) (x y : A) :
  (forall u v, R u v -> P u -> P v) -> rtc R x y -> P x -> P y.
Proof. intros HR. induction 1; eauto. Qed.

Lemma StronglySorted_lookup {A} (R : relation A) (l : list A) i j x y :
  StronglySorted R l -> (i < j)%nat -> l !! i = Some x -> l !! j = Some y -> R x y.
Proof.
  intros Hs. revert i j. induction Hs as [|z l Hs IH Hz]; intros i j Hij Hi Hj; [done|].
  destruct j as [|j]; [lia|]. simpl in Hj. destruct i as [|i]; simplify_eq/=.
  - rewrite Forall_forall in Hz. apply Hz. by eapply list_elem_of_lookup_2.
  - eapply (IH i j); [lia|done|done].
Qed.

(** ** A stable sort

    Rust's [sort_by]: insertion sort by a boolean [<=], stable because an
    element stays before the later elements it is equal to. *)
Fixpoint insert_sorted {A} (le : A -> A -> bool) (x : A) (l : list A) : list A :=
  match l with
  | [] => [x]
  | y :: l' => if le x y then x :: l else y :: insert_sorted le x l'
  end.

Fixpoint stable_sort {A} (le : A -> A -> bool) (l : list A) : list A :=
  match l with
  | [] => []
  | x :: l => insert_sorted le x (stable_sort le l)
  end.

(** The first element that satisfies a test ([Iterator::find]). *)
Fixpoint list_find_fst {A} (p : A -> bool) (l : list A) : option A :=
  match l with
  | [] => None
  | x :: l => if p x then Some x else list_find_fst p l
  end.

Lemma insert_sorted_perm {A} (le : A -> A -> bool) (x : A) (l : list A) :
  insert_sorted le x l ≡ₚ x :: l.
Proof.
  induction l as [|y l IH]; simpl; [done|]. case_test; [done|]. rewrite IH. apply Permutation_swap.
Qed.

Lemma stable_sort_perm {A} (le : A -> A -> bool) (l : list A) : stable_sort le l ≡ₚ l.
Proof. induction l as [|x l IH]; simpl; [done|]. by rewrite insert_sorted_perm, IH. Qed.

Lemma sum_of_nonneg_Forall {A} (f : A -> Z) (l : list A) :
  Forall (fun x => (0 <= f x)%Z) l -> (0 <= sum_of f l)%Z.
Proof. induction 1; simpl; lia. Qed.

Lemma sum_of_perm {A} (f : A -> Z) (l k : list A) : l ≡ₚ k -> sum_of f l = sum_of f k.
Proof. induction 1; simpl; lia. Qed.

Lemma sum_of_Forall2 {A B} (f : A -> Z) (g : B -> Z) l k :
  Forall2 (fun x y => f x = g y) l k -> sum_of f l = sum_of g k.
Proof. induction 1; simpl; lia. Qed.

(** A sum regroups by any classification whose classes are listed. *)
Lemma sum_of_group {A B} `{EqDecision B} (f : A -> Z) (g : A -> B) (l : list A) (ks : list B) :
  NoDup ks -> (forall x, x ∈ l -> g x ∈ ks) ->
  sum_of (fun y => sum_of f (filter (fun x => g x = y) l)) ks = sum_of f l.
Proof.
  intros Hks. revert l. induction Hks as [|y ks Hy Hks IH]; intros l Hl; simpl.
  - destruct l as [|x l]; [done|]. specialize (Hl x). set_solver.
  - rewrite <- (sum_of_perm f (filter (fun x => g x = y) l ++ filter (fun x => ~ g x = y) l) l)
      by apply filter_app_complement.
    rewrite sum_of_app. f_equal. rewrite <- (IH (filter (fun x => ~ g x = y) l)).
    + clear IH Hl. induction ks as [|z ks IHz]; simpl; [done|]. apply not_elem_of_cons in Hy as [Hyz Hy].
      inversion Hks; subst. rewrite IHz by done. f_equal. rewrite list_filter_filter. f_equal.
      apply list_filter_iff. intros x. naive_solver.
    + intros x [Hx Hin]%list_elem_of_filter. specialize (Hl x Hin). set_solver.
Qed.

(** One element is at most the sum of a list of non-negative measures. *)
Lemma sum_of_elem_le {A} (f : A -> Z) (l : list A) (i : nat) (x : A) :
  Forall (fun x => (0 <= f x)%Z) l -> l !! i = Some x -> (f x <= sum_of f l)%Z.
Proof.
  intros Hf. revert i. induction Hf as [|y l Hy Hl IH]; intros [|i] Hi; simplify_eq/=.
  - pose proof (sum_of_nonneg_Forall f l Hl). lia.
  - specialize (IH _ Hi). lia.
Qed.
