(* ===== verification/Text.v ===== *)
(** * Text: Rust strings

    A [&str] is its sequence of Unicode scalar values; [str::len] counts the
    bytes of its UTF-8 encoding, and [std::str::from_utf8] decodes bytes.
    Only what the sources use of [char] and [str] is here. *)

From S2P Require Import Prelude.

Local Open Scope Z_scope.

Abbreviation str := (list Z) (only parsing).
Abbreviation bytes := (list Z) (only parsing).

(** A source literal, as a [&str]. *)
Definition lit (s : string) : list Z :=
  (fun a => Z.of_nat (Ascii.nat_of_ascii a)) <$> String.list_ascii_of_string s.

(** ** Characters *)

Definition is_scalar (c : Z) : bool :=
  ((0 <=? c) && (c <? 0xD800)) || ((0xE000 <=? c) && (c <=? 0x10FFFF)).

Definition is_ascii_digit (c : Z) : bool := (48 <=? c) && (c <=? 57).
Definition is_ascii_lowercase (c : Z) : bool := (97 <=? c) && (c <=? 122).
Definition is_ascii_uppercase (c : Z) : bool := (65 <=? c) && (c <=? 90).
Definition is_ascii_alphanumeric (c : Z) : bool :=
  is_ascii_digit c || is_ascii_lowercase c || is_ascii_uppercase c.

(** [u8::to_ascii_lowercase] and [char::to_ascii_lowercase]. *)
Definition to_lower (c : Z) : Z := if is_ascii_uppercase c then c + 32 else c.

(** The Unicode [White_Space] property, which [str::trim] uses. *)
Definition is_whitespace (c : Z) : bool :=
  ((9 <=? c) && (c <=? 13)) || (c =? 32) || (c =? 0x85) || (c =? 0xA0)
  || (c =? 0x1680) || ((0x2000 <=? c) && (c <=? 0x200A)) || (c =? 0x2028)
  || (c =? 0x2029) || (c =? 0x202F) || (c =? 0x205F) || (c =? 0x3000).

(** [char::is_control]: the general category [Cc]. *)
Definition is_control (c : Z) : bool :=
  ((0 <=? c) && (c <=? 31)) || ((127 <=? c) && (c <=? 159)).

(** ** UTF-8 *)

Definition utf8_len (c : Z) : nat :=
  if c <? 0x80 then 1 else if c <? 0x800 then 2
  else if c <? 0x10000 then 3 else 4.

(** [str::len]. *)
Definition str_len (s : list Z) : nat := sum_list (utf8_len <$> s).

Definition utf8_encode_char (c : Z) : list Z :=
  if c <? 0x80 then [c]
  else if c <? 0x800 then [0xC0 + c / 64; 0x80 + c mod 64]
  else if c <? 0x10000 then
    [0xE0 + c / 4096; 0x80 + (c / 64) mod 64; 0x80 + c mod 64]
  else
    [0xF0 + c / 262144; 0x80 + (c / 4096) mod 64; 0x80 + (c / 64) mod 64;
     0x80 + c mod 64].

(** [str::as_bytes]. *)
Definition as_bytes (s : list Z) : list Z := s ≫= utf8_encode_char.

Definition is_cont (b : Z) : bool := (0x80 <=? b) && (b <=? 0xBF).

(** [std::str::from_utf8]: overlong forms, surrogates and values above
    [0x10FFFF] are rejected. *)
Fixpoint from_utf8 (bs : list Z) : option (list Z) :=
  match bs with
  | [] => Some []
  | b0 :: r0 =>
    if (0 <=? b0) && (b0 <? 0x80) then cons b0 <$> from_utf8 r0
    else match r0 with
    | b1 :: r1 =>
      if (0xC0 <=? b0) && (b0 <=? 0xDF) then
        let c := (b0 - 0xC0) * 64 + (b1 - 0x80) in
        if is_cont b1 && (0x80 <=? c) then cons c <$> from_utf8 r1 else None
      else match r1 with
      | b2 :: r2 =>
        if (0xE0 <=? b0) && (b0 <=? 0xEF) then
          let c := (b0 - 0xE0) * 4096 + (b1 - 0x80) * 64 + (b2 - 0x80) in
          if is_cont b1 && is_cont b2 && (0x800 <=? c) && is_scalar c
          then cons c <$> from_utf8 r2 else None
        else match r2 with
        | b3 :: r3 =>
          if (0xF0 <=? b0) && (b0 <=? 0xF7) then
            let c := (b0 - 0xF0) * 262144 + (b1 - 0x80) * 4096
                     + (b2 - 0x80) * 64 + (b3 - 0x80) in
            if is_cont b1 && is_cont b2 && is_cont b3 && (0x10000 <=? c)
               && is_scalar c
            then cons c <$> from_utf8 r3 else None
          else None
        | [] => None
        end
      | [] => None
      end
    | [] => None
    end
  end.

(** ** String operations *)

(** [str::to_ascii_lowercase]. *)
Definition lower (s : list Z) : list Z := to_lower <$> s.

(** [str::eq_ignore_ascii_case]. *)
Definition eq_ignore_ascii_case (a b : list Z) : bool :=
  bool_decide (lower a = lower b).

Fixpoint trim_start (s : list Z) : list Z :=
  match s with
  | c :: r => if is_whitespace c then trim_start r else s
  | [] => []
  end.

(** Drop the longest suffix whose characters all satisfy [p]. *)
Fixpoint trim_end_by (p : Z -> bool) (s : list Z) : list Z :=
  match s with
  | [] => []
  | c :: r =>
    match trim_end_by p r with
    | [] => if p c then [] else [c]
    | r' => c :: r'
    end
  end.

Definition trim (s : list Z) : list Z := trim_end_by is_whitespace (trim_start s).

(** [str::trim_end_matches(c)]. *)
Definition trim_end_matches (c : Z) (s : list Z) : list Z :=
  trim_end_by (Z.eqb c) s.

(** [str::strip_prefix]. *)
Fixpoint strip_prefix (p s : list Z) : option (list Z) :=
  match p, s with
  | [], _ => Some s
  | x :: p', y :: s' => if x =? y then strip_prefix p' s' else None
  | _ :: _, [] => None
  end.

(** [str::strip_suffix]. *)
Definition strip_suffix (p s : list Z) : option (list Z) :=
  reverse <$> strip_prefix (reverse p) (reverse s).

Definition contains_char (c : Z) (s : list Z) : bool := existsb (Z.eqb c) s.

(** [str::split(c)]. *)
Fixpoint split_char (c : Z) (s : list Z) : list (list Z) :=
  match s with
  | [] => [[]]
  | x :: r =>
    if x =? c then [] :: split_char c r
    else match split_char c r with
         | h :: t => (x :: h) :: t
         | [] => [[x]]
         end
  end.

(** The inverse of [split_char]: the pieces with [c] between them. *)
Fixpoint join_char (c : Z) (ls : list (list Z)) : list Z :=
  match ls with
  | [] => []
  | [l] => l
  | l :: r => l ++ c :: join_char c r
  end.

Definition starts_with_char (c : Z) (s : list Z) : bool :=
  match s with x :: _ => x =? c | [] => false end.

Definition ends_with_char (c : Z) (s : list Z) : bool :=
  starts_with_char c (reverse s).

(** [str::split_once]. *)
Fixpoint split_once (c : Z) (s : list Z) : option (list Z * list Z) :=
  match s with
  | [] => None
  | x :: r => if x =? c then Some ([], r)
              else match split_once c r with Some (a, b) => Some (x :: a, b) | None => None end
  end.

(** [str::rsplit_once]: around the last occurrence. *)
Fixpoint rsplit_once (c : Z) (s : list Z) : option (list Z * list Z) :=
  match s with
  | [] => None
  | x :: r => match rsplit_once c r with
              | Some (a, b) => Some (x :: a, b)
              | None => if x =? c then Some ([], r) else None
              end
  end.

(** Decimal digits, most significant first. *)
Fixpoint dec_digits (s : list Z) (acc : Z) : option Z :=
  match s with
  | [] => Some acc
  | c :: s => if is_ascii_digit c then dec_digits s (acc * 10 + (c - 48)) else None
  end.

(** [str::parse] at an unsigned type of maximum [max]: an optional plus sign
    and at least one digit. *)
Definition parse_uint (max : Z) (s : list Z) : option Z :=
  let digits := match s with c :: r => if c =? 43 then r else s | [] => s end in
  match digits with
  | [] => None
  | _ => match dec_digits digits 0 with
         | Some n => if n <=? max then Some n else None
         | None => None
         end
  end.

(** [Display] of an unsigned integer. *)
Fixpoint dec_go (fuel : nat) (z : Z) (acc : list Z) : list Z :=
  match fuel with
  | O => acc
  | S fuel => let acc := (48 + z mod 10) :: acc in
              if z <? 10 then acc else dec_go fuel (z / 10) acc
  end.

Definition dec (z : Z) : list Z := dec_go (S (Z.to_nat (Z.log2 z))) z [].

(** ** Lemmas *)

Lemma to_lower_idem (c : Z) : to_lower (to_lower c) = to_lower c.
Proof.
  unfold to_lower, is_ascii_uppercase. repeat case_test; bool_prop; lia.
Qed.

Lemma lower_idem (s : list Z) : lower (lower s) = lower s.
Proof.
  unfold lower. rewrite <- list_fmap_compose. apply list_fmap_ext.
  intros ? c _. apply to_lower_idem.
Qed.

Lemma length_lower (s : list Z) : length (lower s) = length s.
Proof. apply length_fmap. Qed.

Lemma utf8_len_lower (c : Z) : utf8_len (to_lower c) = utf8_len c.
Proof.
  unfold utf8_len, to_lower, is_ascii_uppercase.
  destruct ((65 <=? c) && (c <=? 90)) eqn:E; [|done].
  repeat case_test; bool_prop; lia.
Qed.

Lemma str_len_lower (s : list Z) : str_len (lower s) = str_len s.
Proof.
  unfold str_len, lower. induction s as [|c s IH]; [done|].
  cbn [fmap list_fmap sum_list foldr] in *. cbn. rewrite utf8_len_lower.
  unfold str_len in IH. cbn in IH. lia.
Qed.

Lemma lower_nil_inv (s : list Z) : lower s = [] -> s = [].
Proof. by destruct s. Qed.

Lemma lower_app (a b : list Z) : lower (a ++ b) = lower a ++ lower b.
Proof. apply fmap_app. Qed.

Lemma as_bytes_app (a b : list Z) : as_bytes (a ++ b) = as_bytes a ++ as_bytes b.
Proof. apply bind_app. Qed.

Lemma length_as_bytes (s : list Z) : length (as_bytes s) = str_len s.
Proof.
  unfold as_bytes, str_len. induction s as [|c s IH]; [done|].
  cbn. rewrite length_app. cbn in IH. rewrite IH. f_equal.
  unfold utf8_encode_char, utf8_len. by repeat case_test.
Qed.

(** Decoding undoes encoding, one scalar value at a time. *)
Lemma utf8_encode_high (c : Z) :
  128 <= c -> Forall (fun b => 128 <= b) (utf8_encode_char c).
Proof.
  intros Hc. unfold utf8_encode_char. eval_if.
  repeat case_test; rewrite !Forall_cons; repeat split; try apply Forall_nil;
    try done; Z.div_mod_to_equations; lia.
Qed.

(** Bytes that all satisfy a predicate of ASCII bytes are their own text. *)
Lemma as_bytes_ascii (P : Z -> Prop) (s : list Z) :
  (forall b, P b -> b < 128) -> Forall P (as_bytes s) -> Forall P s /\ as_bytes s = s.
Proof.
  intros HP. unfold as_bytes. induction s as [|c s IH]; [done|]. cbn.
  rewrite Forall_app. intros [Hc Hs]. destruct (IH Hs) as [IH1 IH2]. rewrite IH2.
  destruct (Z.lt_ge_cases c 128) as [Hlt|Hge].
  - unfold utf8_encode_char in *. rewrite (proj2 (Z.ltb_lt c 0x80)) in * by lia.
    rewrite Forall_singleton in Hc. split; [by constructor|done].
  - pose proof (utf8_encode_high c Hge) as Hh. exfalso.
    assert (utf8_encode_char c <> []) as Hn
      by (unfold utf8_encode_char; by repeat case_test).
    destruct (utf8_encode_char c) as [|b l]; [done|].
    rewrite Forall_cons in Hc, Hh. destruct Hc as [Hd _], Hh as [Hb _]. specialize (HP b Hd). lia.
Qed.

Lemma from_utf8_encode_char (c : Z) (r : list Z) :
  is_scalar c = true ->
  from_utf8 (utf8_encode_char c ++ r) = cons c <$> from_utf8 r.
Proof.
  unfold is_scalar. intros Hc.
  assert (0 <= c <= 0x10FFFF /\ ~ (0xD800 <= c < 0xE000)) as [Hr Hs]
    by lia.
  pose proof (Z.div_mod c 64 ltac:(lia)). pose proof (Z.mod_pos_bound c 64 ltac:(lia)).
  pose proof (Z.div_mod (c / 64) 64 ltac:(lia)).
  pose proof (Z.mod_pos_bound (c / 64) 64 ltac:(lia)).
  pose proof (Z.div_mod (c / 4096) 64 ltac:(lia)).
  pose proof (Z.mod_pos_bound (c / 4096) 64 ltac:(lia)).
  assert (c / 64 / 64 = c / 4096) as E1 by (now rewrite Z.div_div by lia).
  assert (c / 4096 / 64 = c / 262144) as E2 by (now rewrite Z.div_div by lia).
  rewrite E1 in *. rewrite E2 in *.
  unfold utf8_encode_char.
  destruct (c <? 0x80) eqn:E; [|destruct (c <? 0x800) eqn:E';
    [|destruct (c <? 0x10000) eqn:E'']]; cbn [app from_utf8]; cbv zeta;
    unfold is_cont, is_scalar; eval_if; do 2 f_equal; lia.
Qed.

Lemma from_utf8_as_bytes (s : list Z) :
  Forall (fun c => is_scalar c = true) s -> from_utf8 (as_bytes s) = Some s.
Proof.
  induction 1 as [|c s Hc Hs IH]; [done|].
  unfold as_bytes. cbn [mbind list_bind].
  rewrite from_utf8_encode_char by done. fold (as_bytes s).
  change (mbind utf8_encode_char s) with (as_bytes s). by rewrite IH.
Qed.

Lemma split_char_nonnil (c : Z) (s : list Z) : split_char c s <> [].
Proof.
  destruct s as [|x s]; cbn; [done|].
  destruct (x =? c); [done|]. by destruct (split_char c s).
Qed.

Lemma join_split_char (c : Z) (s : list Z) : join_char c (split_char c s) = s.
Proof.
  induction s as [|x s IH]; [done|]. cbn.
  pose proof (split_char_nonnil c s) as Hn.
  destruct (x =? c) eqn:E; bool_prop.
  - subst. cbn. destruct (split_char c s); [done|]. by rewrite IH.
  - destruct (split_char c s) as [|h t]; [done|].
    destruct t; cbn in *; by rewrite <- IH.
Qed.

Lemma split_char_no_sep (c : Z) (s l : list Z) :
  l ∈ split_char c s -> c ∉ l.
Proof.
  revert l. induction s as [|x s IH]; cbn; intros l Hl.
  - apply list_elem_of_singleton in Hl. subst. apply not_elem_of_nil.
  - pose proof (split_char_nonnil c s) as Hn.
    destruct (x =? c) eqn:E; bool_prop.
    + apply elem_of_cons in Hl as [->|Hl]; [apply not_elem_of_nil|auto].
    + destruct (split_char c s) as [|h t]; [done|].
      apply elem_of_cons in Hl as [->|Hl].
      * rewrite elem_of_cons. intros [?|?]; [done|].
        eapply IH; [apply elem_of_cons; by left|done].
      * apply IH. apply elem_of_cons. by right.
Qed.

Lemma split_char_app c a b : c ∉ a -> split_char c (a ++ c :: b) = a :: split_char c b.
Proof.
  induction a as [|x a IH]; simpl; intros Hn; [by rewrite Z.eqb_refl|].
  apply not_elem_of_cons in Hn as [Hx Ha].
  replace (x =? c) with false by (symmetry; apply Z.eqb_neq; congruence). by rewrite IH.
Qed.

Lemma split_char_none c a : c ∉ a -> split_char c a = [a].
Proof.
  induction a as [|x a IH]; simpl; intros Hn; [done|].
  apply not_elem_of_cons in Hn as [Hx Ha].
  replace (x =? c) with false by (symmetry; apply Z.eqb_neq; congruence). by rewrite IH.
Qed.

Lemma strip_prefix_spec (p s r : list Z) :
  strip_prefix p s = Some r <-> s = p ++ r.
Proof.
  revert s. induction p as [|x p IH]; intros s; cbn; [naive_solver|].
  destruct s as [|y s]; cbn; [naive_solver|].
  destruct (x =? y) eqn:E; bool_prop; [rewrite IH|]; naive_solver.
Qed.

Lemma strip_suffix_spec (p s r : list Z) :
  strip_suffix p s = Some r <-> s = r ++ p.
Proof.
  unfold strip_suffix. rewrite fmap_Some. split.
  - intros (r' & H & ->). apply strip_prefix_spec in H.
    rewrite <- (reverse_involutive s), H, reverse_app, reverse_involutive. done.
  - intros ->. exists (reverse r). rewrite reverse_involutive. split; [|done].
    apply strip_prefix_spec. apply reverse_app.
Qed.

Lemma split_once_spec (c : Z) (s a b : list Z) :
  split_once c s = Some (a, b) <-> s = a ++ c :: b /\ c ∉ a.
Proof.
  revert a. induction s as [|x s IH]; intros a; cbn.
  - split; [done|]. intros [H _]. by destruct a.
  - destruct (x =? c) eqn:E; bool_prop.
    + subst. split; [intros [= <- <-]; split; [done|apply not_elem_of_nil]|].
      intros [H Ha]. destruct a as [|y a]; simplify_eq/=; [done|]. set_solver.
    + destruct (split_once c s) as [[a' b']|] eqn:Es; split.
      * intros [= <- <-]. destruct (proj1 (IH a') eq_refl) as [-> Hn].
        split; [done|]. rewrite not_elem_of_cons. auto.
      * intros [H Ha]. destruct a as [|y a]; simplify_eq/=.
        rewrite not_elem_of_cons in Ha. destruct Ha as [_ Ha].
        by pose proof (proj2 (IH a) (conj eq_refl Ha)) as [= -> ->].
      * done.
      * intros [H Ha]. destruct a as [|y a]; simplify_eq/=.
        rewrite not_elem_of_cons in Ha. destruct Ha as [_ Ha].
        by discriminate (proj2 (IH a) (conj eq_refl Ha)).
Qed.

Lemma split_once_none (c : Z) (s : list Z) : c ∉ s -> split_once c s = None.
Proof.
  intros H. destruct (split_once c s) as [[a b]|] eqn:E; [|done].
  apply split_once_spec in E as [-> _]. set_solver.
Qed.

Lemma rsplit_once_none (c : Z) (s : list Z) : c ∉ s -> rsplit_once c s = None.
Proof.
  induction s as [|x s IH]; [done|]. rewrite not_elem_of_cons. intros [Hx Hs]. cbn.
  rewrite IH by done. destruct (x =? c) eqn:E; bool_prop; congruence.
Qed.

Lemma rsplit_once_app (c : Z) (a b : list Z) : c ∉ b -> rsplit_once c (a ++ c :: b) = Some (a, b).
Proof.
  intros Hb. induction a as [|x a IH]; cbn; [|by rewrite IH].
  rewrite rsplit_once_none by done. by rewrite Z.eqb_refl.
Qed.

Lemma rsplit_once_Some (c : Z) (s a b : list Z) : rsplit_once c s = Some (a, b) -> s = a ++ c :: b.
Proof.
  revert a b. induction s as [|x s IH]; intros a b; cbn; [done|].
  destruct (rsplit_once c s) as [[a' b']|]; [intros [= <- <-]; cbn; f_equal; by apply IH|].
  destruct (x =? c) eqn:E; [|done]. bool_prop. intros [= <- <-]. by subst.
Qed.

Lemma dec_go_digits (fuel : nat) (z : Z) (acc : list Z) :
  Forall (fun c => is_ascii_digit c = true) acc ->
  Forall (fun c => is_ascii_digit c = true) (dec_go fuel z acc).
Proof.
  revert z acc. induction fuel as [|fuel IH]; intros z acc Ha; cbn; [done|].
  assert (Forall (fun c => is_ascii_digit c = true) ((48 + z mod 10) :: acc)).
  { constructor; [|done]. unfold is_ascii_digit. pose proof (Z.mod_pos_bound z 10). lia. }
  case_test; auto.
Qed.

Lemma dec_digit (z : Z) : Forall (fun c => is_ascii_digit c = true) (dec z).
Proof. by apply dec_go_digits. Qed.

Lemma dec_go_value (fuel : nat) (z : Z) (acc : list Z) :
  0 <= z < 10 ^ Z.of_nat fuel -> dec_digits (dec_go fuel z acc) 0 = dec_digits acc z.
Proof.
  revert z acc. induction fuel as [|fuel IH]; intros z acc Hz.
  { cbn in *. by replace z with 0 by lia. }
  cbn [dec_go]. pose proof (Z.mod_pos_bound z 10).
  assert (forall a, dec_digits ((48 + z mod 10) :: acc) a = dec_digits acc (a * 10 + z mod 10)) as Hs.
  { intros a. cbn. replace (is_ascii_digit _) with true by (unfold is_ascii_digit; lia).
    f_equal. lia. }
  destruct (z <? 10) eqn:E; bool_prop.
  - rewrite Hs. f_equal. rewrite Z.mod_small by lia. lia.
  - rewrite IH, Hs; [f_equal; rewrite (Z.div_mod z 10) at 3; lia|].
    rewrite Nat2Z.inj_succ, Z.pow_succ_r in Hz by lia.
    split; [apply Z.div_pos; lia|apply Z.div_lt_upper_bound; lia].
Qed.

Lemma dec_value (z : Z) : 0 <= z -> dec_digits (dec z) 0 = Some z.
Proof.
  intros Hz. unfold dec. rewrite dec_go_value; [done|]. split; [done|].
  rewrite Nat2Z.inj_succ, Z2Nat.id by apply Z.log2_nonneg.
  destruct (decide (z = 0)) as [->|]; [done|].
  eapply Z.lt_le_trans; [apply Z.log2_spec; lia|]. apply Z.pow_le_mono_l. lia.
Qed.

Lemma dec_nonnil (z : Z) : dec z <> [].
Proof.
  unfold dec. cbn [dec_go]. intros E.
  assert (forall fuel z c acc, dec_go fuel z (c :: acc) <> []) as H.
  { induction fuel as [|fuel IH]; intros; cbn; [done|]. case_test; [done|apply IH]. }
  case_test_in E; [done|]. by apply H in E.
Qed.

Lemma digit_not_whitespace (c : Z) : is_ascii_digit c = true -> is_whitespace c = false.
Proof. unfold is_ascii_digit, is_whitespace. intros. bool_prop. repeat case_test; lia. Qed.

(** Printing and parsing an unsigned integer are inverse. *)
Lemma parse_uint_dec (max z : Z) : 0 <= z <= max -> parse_uint max (dec z) = Some z.
Proof.
  intros Hz. unfold parse_uint. pose proof (dec_digit z) as Hd. pose proof (dec_nonnil z).
  destruct (dec z) as [|c s] eqn:E; [done|].
  assert (c =? 43 = false) as ->.
  { apply Forall_cons in Hd as [Hc _]. unfold is_ascii_digit in Hc. bool_prop. lia. }
  rewrite <- E, dec_value by lia. eval_if. done.
Qed.

Lemma parse_uint_in (max z : Z) (s : list Z) : parse_uint max s = Some z -> 0 <= z <= max.
Proof.
  unfold parse_uint.
  assert (forall s a n, 0 <= a -> dec_digits s a = Some n -> 0 <= n) as Hp.
  { clear. induction s as [|c s IH]; cbn; intros a n Ha; [intros [= <-]; done|].
    destruct (is_ascii_digit c) eqn:E; [|done]. unfold is_ascii_digit in E. bool_prop.
    apply IH. lia. }
  intros H. repeat case_test_in H; simplify_eq. bool_prop. split; [|done].
  by eapply (Hp _ 0).
Qed.

Lemma trim_start_id (s : list Z) :
  Forall (fun c => is_whitespace c = false) s -> trim_start s = s.
Proof. destruct s; [done|]. intros [H _]%Forall_cons. cbn. by rewrite H. Qed.

Lemma trim_end_id (p : Z -> bool) (s : list Z) :
  Forall (fun c => p c = false) s -> trim_end_by p s = s.
Proof.
  induction 1 as [|c s Hc Hs IH]; [done|]. cbn. rewrite IH.
  destruct s; [by rewrite Hc|done].
Qed.

Lemma trim_dec (z : Z) : trim (dec z) = dec z.
Proof.
  assert (Forall (fun c => is_whitespace c = false) (dec z)) as H.
  { eapply Forall_impl; [apply dec_digit|]. apply digit_not_whitespace. }
  unfold trim. by rewrite trim_start_id, trim_end_id.
Qed.

Lemma not_elem_of_dec (c z : Z) : is_ascii_digit c = false -> c ∉ dec z.
Proof.
  intros Hc Hin. pose proof (dec_digit z) as H. rewrite Forall_forall in H.
  rewrite (H c Hin) in Hc. done.
Qed.

#[export] Hint Resolve not_elem_of_dec : portunus.
