(* ===== verification/PortRange.v ===== *)
(** * PortRange: contiguous port ranges

    [crates/portunus-core/src/port_range.rs]: the validating constructor, the
    overlap test the server's conflict check uses, and the same-offset mapping
    the forwarder uses to pick an upstream port. *)

From S2P Require Import Prelude.

Local Open Scope Z_scope.

Module PortRange.

Record PortRange : Type := mkPortRange {
  start : Z;
  end_ : Z;
}.

Inductive PortRangeError : Type :=
| Inverted (start end_ : Z)
| OutOfBounds
| LengthMismatch (listen_len target_len : Z)
| ExceedsCap (requested cap : Z).

#[export] Instance PortRange_eq_dec : EqDecision PortRange.
Proof. solve_decision. Defined.

#[export] Instance PortRangeError_eq_dec : EqDecision PortRangeError.
Proof. solve_decision. Defined.

(** [PortRange::single]. *)
Definition single (port : Z) : PortRange := mkPortRange port port.

(** [PortRange::new]. *)
Definition new (start end_ : Z) : Result PortRange PortRangeError :=
  if start =? 0 then Err OutOfBounds
  else if end_ <? start then Err (Inverted start end_)
  else Ok (mkPortRange start end_).

(** [PortRange::len], a [u32]: the operands are widened before the
    subtraction. *)
Definition len (r : PortRange) : Z := end_ r - start r + 1.

(** [PortRange::pair]. *)
Definition pair (listen target : PortRange)
  : Result (PortRange * PortRange) PortRangeError :=
  if negb (len listen =? len target)
  then Err (LengthMismatch (len listen) (len target))
  else Ok (listen, target).

(** [PortRange::contains]. *)
Definition contains (r : PortRange) (port : Z) : bool :=
  (start r <=? port) && (port <=? end_ r).

(** [PortRange::overlaps]. *)
Definition overlaps (a b : PortRange) : bool :=
  (start a <=? end_ b) && (start b <=? end_ a).

(** [PortRange::iter]: [start..=end]. *)
Definition iter (r : PortRange) : list Z := seqZ (start r) (len r).

(** [PortRange::target_for]. The offset is taken in [u32], cast to [u16], and
    the sum [target.start + offset_u16] is a [u16] addition, which a build
    with overflow checks refuses past 65535. *)
Definition target_for (listen_port : Z) (listen target : PortRange)
  : Outcome (option Z) :=
  if negb (contains listen listen_port) then Returns None
  else
    let offset := listen_port - start listen in
    let offset_u16 := offset mod 65536 in
    let sum := start target + offset_u16 in
    if u16_max <? sum then Panics else Returns (Some sum).

(** What every constructor establishes: two [u16] bounds in order. *)
Definition wf (r : PortRange) : Prop :=
  0 <= start r /\ start r <= end_ r /\ end_ r <= u16_max.

(** ** Lemmas *)

Lemma wf_single (p : Z) : in_u16 p -> wf (single p).
Proof. unfold wf, single, in_u16. cbn. lia. Qed.

Lemma new_ok_inv (s e : Z) (r : PortRange) :
  new s e = Ok r -> r = mkPortRange s e /\ s <> 0 /\ s <= e.
Proof.
  unfold new. repeat case_test; intros [= <-]; bool_prop; auto.
Qed.

Lemma contains_spec (r : PortRange) (p : Z) :
  contains r p = true <-> start r <= p <= end_ r.
Proof. unfold contains. rewrite andb_true_iff, !Z.leb_le. lia. Qed.

Lemma len_single (p : Z) : len (single p) = 1.
Proof. unfold len, single. cbn. lia. Qed.

Lemma len_pos (r : PortRange) : wf r -> 1 <= len r <= 65536.
Proof. unfold wf, len, u16_max. lia. Qed.

Lemma len_1_inv (r : PortRange) : len r = 1 -> end_ r = start r.
Proof. unfold len. lia. Qed.

Lemma pair_ok_inv (l t l' t' : PortRange) :
  pair l t = Ok (l', t') -> l' = l /\ t' = t /\ len l = len t.
Proof.
  unfold pair. case_test; intros [= <- <-]. bool_prop. auto.
Qed.

Lemma elem_of_iter (r : PortRange) (p : Z) :
  p ∈ iter r <-> contains r p = true.
Proof.
  unfold iter. rewrite elem_of_seqZ, contains_spec. unfold len. lia.
Qed.

Lemma overlaps_sym (a b : PortRange) : overlaps a b = overlaps b a.
Proof. unfold overlaps. apply andb_comm. Qed.

Lemma overlaps_max (a b : PortRange) :
  wf a -> wf b -> overlaps a b = true ->
  contains a (Z.max (start a) (start b)) = true /\
  contains b (Z.max (start a) (start b)) = true.
Proof.
  unfold overlaps, wf. intros ??? . bool_prop. rewrite !contains_spec. lia.
Qed.

Lemma overlaps_singles (p q : Z) : overlaps (single p) (single q) = true <-> p = q.
Proof. unfold overlaps, single. cbn. rewrite andb_true_iff, !Z.leb_le. lia. Qed.

(** The same-offset mapping of a pair of equal length. *)
Lemma target_for_value (listen target : PortRange) (p : Z) :
  wf listen -> wf target -> len listen = len target -> contains listen p = true ->
  target_for p listen target = Returns (Some (start target + (p - start listen))) /\
  contains target (start target + (p - start listen)) = true.
Proof.
  intros Hl Ht Hlen Hp. pose proof (proj1 (contains_spec listen p) Hp).
  unfold wf, len, u16_max in *. split; [|rewrite contains_spec; lia].
  unfold target_for. rewrite Hp. cbn [negb]. rewrite Z.mod_small by lia.
  unfold u16_max. by eval_if.
Qed.

(** The overlap test is exact: two well-formed ranges overlap if and only
    if some port lies in both, and the maximum of the two starts is such a
    port. *)
Theorem overlaps_iff_common_port (a b : PortRange) :
  wf a -> wf b ->
  (overlaps a b = true <-> exists p, contains a p = true /\ contains b p = true).
Proof.
  intros Ha Hb. split.
  - intros H. eexists. by apply overlaps_max.
  - intros (p & Hp & Hq). rewrite contains_spec in Hp, Hq.
    unfold overlaps. rewrite andb_true_iff, !Z.leb_le. lia.
Qed.

Lemma overlaps_iff_common_port_witness :
  overlaps (mkPortRange 8000 8010) (mkPortRange 8010 8020) = true <->
  exists p, contains (mkPortRange 8000 8010) p = true /\
            contains (mkPortRange 8010 8020) p = true.
Proof.
  apply overlaps_iff_common_port; unfold wf, u16_max; cbn; lia.
Defined.

(** For a validated pair of ranges the same-offset mapping never panics,
    lands inside the target range, keeps the offset, and hits every target
    port exactly once. *)
Theorem target_for_bijection (listen target : PortRange) :
  wf listen -> wf target -> pair listen target = Ok (listen, target) ->
  (forall p, contains listen p = true ->
     exists q, target_for p listen target = Returns (Some q) /\
               contains target q = true /\
               q - start target = p - start listen) /\
  (forall q, contains target q = true ->
     exists p, contains listen p = true /\
               target_for p listen target = Returns (Some q) /\
               forall p', target_for p' listen target = Returns (Some q) -> p' = p).
Proof.
  intros Hl Ht Hp. apply pair_ok_inv in Hp as (_ & _ & Hlen). split.
  - intros p Hp. destruct (target_for_value listen target p) as [E Hc]; [done..|].
    eexists. split; [done|]. split; [done|]. lia.
  - intros q Hq. rewrite contains_spec in Hq.
    exists (q - start target + start listen). unfold wf, len, u16_max in *.
    assert (contains listen (q - start target + start listen) = true) as Hc
      by (rewrite contains_spec; lia).
    split; [done|]. split.
    { destruct (target_for_value listen target _ Hl Ht Hlen Hc) as [-> _].
      do 2 f_equal. lia. }
    intros p'. unfold target_for.
    destruct (contains listen p') eqn:Hc'; cbn [negb]; [|done].
    rewrite contains_spec in Hc, Hc'. rewrite Z.mod_small by lia.
    case_test; intros [=]. lia.
Qed.

Lemma target_for_bijection_witness :
  exists q, target_for 8005 (mkPortRange 8000 8010) (mkPortRange 9000 9010)
            = Returns (Some q) /\ q = 9005.
Proof.
  destruct (target_for_bijection (mkPortRange 8000 8010) (mkPortRange 9000 9010))
    as [H _]; [unfold wf, u16_max; cbn; lia..|reflexivity|].
  destruct (H 8005 eq_refl) as (q & E & _ & O). exists q.
  split; [exact E|]. cbn in O. lia.
Defined.

(** Without the pair check the mapping can overflow the port space: the
    16-bit addition refuses although the port is inside the listen range. *)
Theorem target_for_can_overflow :
  exists listen target p,
    new (start listen) (end_ listen) = Ok listen /\
    new (start target) (end_ target) = Ok target /\
    contains listen p = true /\
    target_for p listen target = Panics.
Proof.
  exists (mkPortRange 1 10), (mkPortRange 65535 65535), 10. vm_compute. auto.
Qed.

End PortRange.
