(* ===== verification/IpAddr.v ===== *)
(** * IpAddr: the standard library's IP literals

    [Target::parse] relies on [str::parse] for [Ipv4Addr] and [Ipv6Addr], and
    the PROXY-protocol v1 header on their [Display]; both follow the Rust
    standard library, which works on the bytes of the string. *)

From S2P Require Import Prelude Text.

Local Open Scope Z_scope.

Module IpAddr.

Record Ipv4Addr : Type := mkIpv4 { oct0 : Z; oct1 : Z; oct2 : Z; oct3 : Z }.

(** The eight 16-bit segments. *)
Record Ipv6Addr : Type := mkIpv6 { segments : list Z }.

Inductive IpAddr : Type :=
| V4 (a : Ipv4Addr)
| V6 (a : Ipv6Addr).

#[export] Instance Ipv4Addr_eq_dec : EqDecision Ipv4Addr.
Proof. solve_decision. Defined.
#[export] Instance Ipv6Addr_eq_dec : EqDecision Ipv6Addr.
Proof. solve_decision. Defined.
#[export] Instance IpAddr_eq_dec : EqDecision IpAddr.
Proof. solve_decision. Defined.

Definition wf4 (a : Ipv4Addr) : Prop :=
  in_u8 (oct0 a) /\ in_u8 (oct1 a) /\ in_u8 (oct2 a) /\ in_u8 (oct3 a).

Definition wf6 (a : Ipv6Addr) : Prop :=
  length (segments a) = 8%nat /\ Forall in_u16 (segments a).

(** ** Parsing *)

(** [char::to_digit] for radix 10 and 16. *)
Definition to_digit (radix c : Z) : option Z :=
  let d :=
    if is_ascii_digit c then c - 48
    else if (97 <=? c) && (c <=? 102) then c - 87
    else if (65 <=? c) && (c <=? 70) then c - 55
    else radix in
  if d <? radix then Some d else None.

Fixpoint read_digits (radix max : Z) (s : list Z) (acc count : Z)
  : option (Z * Z * list Z) :=
  match s with
  | c :: r =>
    match to_digit radix c with
    | Some d =>
      if max <? count + 1 then None
      else read_digits radix max r (acc * radix + d) (count + 1)
    | None => Some (acc, count, s)
    end
  | [] => Some (acc, count, [])
  end.

Definition read_number (radix max limit : Z) (allow_zero_prefix : bool)
    (s : list Z) : option (Z * list Z) :=
  match read_digits radix max s 0 0 with
  | Some (v, n, r) =>
    if n =? 0 then None
    else if negb allow_zero_prefix && starts_with_char 48 s && (1 <? n) then None
    else if limit <? v then None
    else Some (v, r)
  | None => None
  end.

Definition read_given_char (c : Z) (s : list Z) : option (list Z) :=
  match s with
  | x :: r => if x =? c then Some r else None
  | [] => None
  end.

(** [read_separator]: the first element has no separator before it. *)
Definition read_separator {A} (sep : Z) (first : bool)
    (inner : list Z -> option (A * list Z)) (s : list Z) : option (A * list Z) :=
  if first then inner s
  else match read_given_char sep s with Some r => inner r | None => None end.

Definition read_octet (first : bool) (s : list Z) : option (Z * list Z) :=
  read_separator 46 first (read_number 10 3 255 false) s.

Definition read_ipv4_addr (s : list Z) : option (Ipv4Addr * list Z) :=
  '(a, r) ← read_octet true s;
  '(b, r) ← read_octet false r;
  '(c, r) ← read_octet false r;
  '(d, r) ← read_octet false r;
  Some (mkIpv4 a b c d, r).

(** [read_groups] with [k] slots left: the groups read, whether they end in
    an embedded IPv4 address, and the rest of the input. *)
Fixpoint read_groups (first : bool) (k : nat) (s : list Z)
  : list Z * bool * list Z :=
  match k with
  | O => ([], false, s)
  | S k' =>
    let embedded :=
      match k' with
      | O => None
      | S _ => read_separator 58 first read_ipv4_addr s
      end in
    match embedded with
    | Some (a, r) => ([oct0 a * 256 + oct1 a; oct2 a * 256 + oct3 a], true, r)
    | None =>
      match read_separator 58 first (read_number 16 4 65535 true) s with
      | Some (g, r) =>
        let '(gs, v4, r') := read_groups false k' r in (g :: gs, v4, r')
      | None => ([], false, s)
      end
    end
  end.

Definition read_ipv6_addr (s : list Z) : option (Ipv6Addr * list Z) :=
  let '(head, head_ipv4, r) := read_groups true 8 s in
  if (length head =? 8)%nat then Some (mkIpv6 head, r)
  else if head_ipv4 then None
  else
    r ← read_given_char 58 r;
    r ← read_given_char 58 r;
    let '(tail, _, r) := read_groups true (8 - (length head + 1)) r in
    Some (mkIpv6 (head ++ replicate (8 - length head - length tail) 0 ++ tail), r).

Definition parse_with {A} (p : list Z -> option (A * list Z)) (s : list Z)
  : option A :=
  match p s with
  | Some (a, []) => Some a
  | _ => None
  end.

(** [str::parse::<Ipv4Addr>]: longer inputs than ["255.255.255.255"] are
    refused before parsing. *)
Definition parse_ipv4 (s : list Z) : option Ipv4Addr :=
  let b := as_bytes s in
  if (15 <? length b)%nat then None else parse_with read_ipv4_addr b.

(** [str::parse::<Ipv6Addr>]. *)
Definition parse_ipv6 (s : list Z) : option Ipv6Addr :=
  parse_with read_ipv6_addr (as_bytes s).

(** ** Display *)

Fixpoint digits_of (fuel : nat) (radix n : Z) (acc : list Z) : list Z :=
  match fuel with
  | O => acc
  | S f =>
    let d := n mod radix in
    let c := if d <? 10 then 48 + d else 87 + d in
    if n <? radix then c :: acc else digits_of f radix (n / radix) (c :: acc)
  end.

(** Decimal digits of an unsigned integer; a [u64] has at most 20. *)
Definition show_dec (n : Z) : list Z := digits_of 20 10 n [].

(** Lower-case hexadecimal digits of a [u16]. *)
Definition show_hex (n : Z) : list Z := digits_of 4 16 n [].

#[global] Arguments show_dec : simpl never.
#[global] Arguments show_hex : simpl never.

Definition show_ipv4 (a : Ipv4Addr) : list Z :=
  show_dec (oct0 a) ++ [46] ++ show_dec (oct1 a) ++ [46]
  ++ show_dec (oct2 a) ++ [46] ++ show_dec (oct3 a).

Definition fmt_subslice (gs : list Z) : list Z := join_char 58 (show_hex <$> gs).

(** The first longest run of zero segments, as [(start, length)]. *)
Fixpoint zero_span (i : nat) (gs : list Z) (cur longest : nat * nat) : nat * nat :=
  match gs with
  | [] => longest
  | g :: r =>
    if g =? 0 then
      let cur := if (cur.2 =? 0)%nat then (i, 1%nat) else (cur.1, S cur.2) in
      zero_span (S i) r cur (if (longest.2 <? cur.2)%nat then cur else longest)
    else zero_span (S i) r (0, 0)%nat longest
  end.

Definition to_ipv4_mapped (a : Ipv6Addr) : option Ipv4Addr :=
  match segments a with
  | [0; 0; 0; 0; 0; m; ab; cd] =>
    if m =? 0xFFFF
    then Some (mkIpv4 (ab / 256) (ab mod 256) (cd / 256) (cd mod 256))
    else None
  | _ => None
  end.

Definition show_ipv6 (a : Ipv6Addr) : list Z :=
  match to_ipv4_mapped a with
  | Some v4 => lit "::ffff:" ++ show_ipv4 v4
  | None =>
    let '(z, n) := zero_span 0 (segments a) (0, 0)%nat (0, 0)%nat in
    if (1 <? n)%nat
    then fmt_subslice (take z (segments a)) ++ lit "::"
         ++ fmt_subslice (drop (z + n) (segments a))
    else fmt_subslice (segments a)
  end.

Definition show_ip (a : IpAddr) : list Z :=
  match a with V4 a => show_ipv4 a | V6 a => show_ipv6 a end.

(** ** Lemmas *)

(** ** Lemmas: decimal numbers *)

Lemma starts_with_char_app (c : Z) (s r : list Z) :
  s <> [] -> starts_with_char c (s ++ r) = starts_with_char c s.
Proof. by destruct s. Qed.

(** The number a string of decimal digits continues [acc] to. *)
Definition dec_value (acc : Z) (s : list Z) : Z := foldl (fun a c => a * 10 + (c - 48)) acc s.

Lemma dec_value_snoc (acc : Z) (s : list Z) (c : Z) :
  dec_value acc (s ++ [c]) = dec_value acc s * 10 + (c - 48).
Proof. unfold dec_value. by rewrite foldl_app. Qed.

Lemma to_digit_dec (c : Z) : is_ascii_digit c = true -> to_digit 10 c = Some (c - 48).
Proof.
  intros H. unfold to_digit. rewrite H. unfold is_ascii_digit in H. bool_prop. by eval_if.
Qed.

Lemma read_digits_dec (max : Z) (s : list Z) (acc count : Z) :
  forallb is_ascii_digit s = true -> count + Z.of_nat (length s) <= max ->
  read_digits 10 max s acc count = Some (dec_value acc s, count + Z.of_nat (length s), []).
Proof.
  revert acc count. induction s as [|c s IH]; intros acc count Hd Hl;
    cbn [read_digits forallb length] in *.
  { by rewrite Z.add_0_r. }
  apply andb_prop in Hd as [Hc Hd]. rewrite to_digit_dec by done.
  replace (max <? count + 1) with false by lia. rewrite IH by (done || lia).
  by replace (count + 1 + Z.of_nat (length s)) with (count + Z.of_nat (S (length s))) by lia.
Qed.

(** What printing produces: decimal digits of the number, no leading zero. *)
Lemma digits_of_dec (f : nat) (n : Z) (acc : list Z) :
  0 <= n < 10 ^ Z.of_nat f ->
  f = O \/
  exists s, digits_of f 10 n acc = s ++ acc /\ forallb is_ascii_digit s = true /\
    (1 <= length s <= f)%nat /\ dec_value 0 s = n /\
    (starts_with_char 48 s = true -> length s = 1%nat).
Proof.
  revert n acc. induction f as [|f IH]; intros n acc Hn; [by left|]. right.
  set (c := 48 + n mod 10). pose proof (Z.mod_pos_bound n 10 eq_refl) as Hm.
  assert (Hc : is_ascii_digit c = true) by (unfold is_ascii_digit, c; lia).
  cbn [digits_of]. replace (n mod 10 <? 10) with true by lia. fold c.
  destruct (Z.ltb_spec n 10) as [Hlt|Hge].
  - exists [c]. cbn. rewrite Hc. split_and!; try solve [done|lia].
    unfold dec_value, c. cbn. rewrite Z.mod_small by lia. lia.
  - assert (Hq : 0 <= n / 10 < 10 ^ Z.of_nat f).
    { rewrite Nat2Z.inj_succ, Z.pow_succ_r in Hn by lia.
      split; [apply Z.div_pos; lia | apply Z.div_lt_upper_bound; lia]. }
    assert (Hq1 : 1 <= n / 10) by (apply Z.div_le_lower_bound; lia).
    destruct (IH (n / 10) (c :: acc) Hq) as [->|(s & E & Hd & Hl & Hv & Hz)]; [cbn in Hq; lia|].
    exists (s ++ [c]). rewrite E, <- app_assoc, forallb_app, Hd, dec_value_snoc, Hv, length_app.
    cbn. rewrite Hc. split_and!; try solve [done|lia]; [unfold c; pose proof (Z.div_mod n 10); lia|].
    rewrite starts_with_char_app by (by intros ->; cbn in Hl; lia). intros H0.
    specialize (Hz H0). destruct s as [|x [|]]; cbn in Hz; try lia. exfalso.
    unfold starts_with_char in H0. apply Z.eqb_eq in H0. unfold dec_value in Hv. cbn in Hv. lia.
Qed.

Lemma digits_of_fuel (f k : nat) (n : Z) (acc : list Z) :
  (1 <= k <= f)%nat -> 0 <= n < 10 ^ Z.of_nat k -> digits_of f 10 n acc = digits_of k 10 n acc.
Proof.
  revert k n acc. induction f as [|f IH]; intros k n acc Hk Hn; [lia|].
  destruct k as [|k]; [lia|]. cbn [digits_of]. destruct (Z.ltb_spec n 10); [done|].
  rewrite Nat2Z.inj_succ, Z.pow_succ_r in Hn by lia. apply IH.
  - destruct k; [cbn in Hn|]; lia.
  - split; [apply Z.div_pos; lia | apply Z.div_lt_upper_bound; lia].
Qed.

Lemma show_dec_spec (k : nat) (n : Z) :
  (1 <= k <= 20)%nat -> 0 <= n < 10 ^ Z.of_nat k ->
  forallb is_ascii_digit (show_dec n) = true /\ (1 <= length (show_dec n) <= k)%nat /\
  read_digits 10 (Z.of_nat k) (show_dec n) 0 0 =
    Some (n, Z.of_nat (length (show_dec n)), []) /\
  (starts_with_char 48 (show_dec n) = true -> length (show_dec n) = 1%nat).
Proof.
  intros Hk Hn. unfold show_dec. rewrite (digits_of_fuel 20 k) by done.
  destruct (digits_of_dec k n [] Hn) as [->|(s & -> & Hd & Hl & Hv & Hz)]; [lia|].
  rewrite app_nil_r. split; [done|]. split; [done|]. split; [|done].
  rewrite read_digits_dec by (done || lia). by rewrite Hv.
Qed.

(** Reading digits stops at the first character that is not one. *)
Lemma read_digits_app (radix max : Z) (s r : list Z) (acc count v n : Z) :
  read_digits radix max s acc count = Some (v, n, []) ->
  match r with c :: _ => to_digit radix c = None | [] => True end ->
  read_digits radix max (s ++ r) acc count = Some (v, n, r).
Proof.
  intros H Hr. revert acc count H. induction s as [|c s IH]; cbn; intros acc count H.
  - simplify_eq. destruct r as [|c r]; cbn; [done|]. by rewrite Hr.
  - destruct (to_digit radix c); [|done]. case_test; [done|]. by apply IH.
Qed.

(** A number of at most [k] digits, printed and read back with a following
    character that is not a digit. *)
Lemma read_number_show (k : nat) (limit n : Z) (r : list Z) :
  (1 <= k <= 20)%nat -> 0 <= n < 10 ^ Z.of_nat k -> n <= limit ->
  match r with c :: _ => to_digit 10 c = None | [] => True end ->
  read_number 10 (Z.of_nat k) limit false (show_dec n ++ r) = Some (n, r).
Proof.
  intros Hk Hn Hlim Hr. destruct (show_dec_spec k n Hk Hn) as (_ & Hl & Hrd & Hz).
  unfold read_number. erewrite read_digits_app; [|exact Hrd|done].
  rewrite starts_with_char_app by (intros E; rewrite E in Hl; cbn in Hl; lia).
  replace (Z.of_nat (length (show_dec n)) =? 0) with false by lia. cbn [negb andb].
  destruct (starts_with_char 48 (show_dec n)); cbn [andb].
  - rewrite Hz by done. cbn. by eval_if.
  - by eval_if.
Qed.

Lemma read_octet_show (n : Z) (r : list Z) :
  in_u8 n -> match r with c :: _ => to_digit 10 c = None | [] => True end ->
  read_number 10 3 255 false (show_dec n ++ r) = Some (n, r).
Proof. intros Hn. apply (read_number_show 3 255); unfold_ints; lia. Qed.

Lemma show_octet_spec (n : Z) :
  in_u8 n -> forallb is_ascii_digit (show_dec n) = true /\ (length (show_dec n) <= 3)%nat.
Proof.
  intros Hn. destruct (show_dec_spec 3 n) as (? & ? & _); [lia|unfold_ints; lia|]. split; [done|lia].
Qed.

Lemma digit_utf8 (c : Z) : is_ascii_digit c = true -> utf8_encode_char c = [c].
Proof. unfold is_ascii_digit, utf8_encode_char. intros. by eval_if. Qed.

Lemma as_bytes_digits (s : list Z) :
  forallb is_ascii_digit s = true -> as_bytes s = s.
Proof.
  intros H. unfold as_bytes. induction s as [|c s IH]; [done|].
  cbn in H. apply andb_prop in H as [Hc H]. cbn. rewrite digit_utf8 by done.
  cbn. f_equal. by apply IH.
Qed.

Lemma as_bytes_show_octet (n : Z) : in_u8 n -> as_bytes (show_dec n) = show_dec n.
Proof. intros Hn. apply as_bytes_digits. by apply show_octet_spec. Qed.

Lemma show_octet_short (n : Z) : in_u8 n -> (length (show_dec n) <= 3)%nat.
Proof. apply show_octet_spec. Qed.

Lemma read_octet_sep (n : Z) (r : list Z) :
  in_u8 n -> match r with c :: _ => to_digit 10 c = None | [] => True end ->
  read_octet false (46 :: show_dec n ++ r) = Some (n, r).
Proof. intros. cbn. by apply read_octet_show. Qed.

Lemma read_octet_first (n : Z) (r : list Z) :
  in_u8 n -> match r with c :: _ => to_digit 10 c = None | [] => True end ->
  read_octet true (show_dec n ++ r) = Some (n, r).
Proof. intros. by apply read_octet_show. Qed.

Lemma read_ipv4_show (a : Ipv4Addr) (r : list Z) :
  wf4 a -> match r with c :: _ => to_digit 10 c = None | [] => True end ->
  read_ipv4_addr (show_ipv4 a ++ r) = Some (a, r).
Proof.
  intros (H0 & H1 & H2 & H3) Hr.
  destruct a as [a b c d]; cbn [oct0 oct1 oct2 oct3] in *.
  unfold read_ipv4_addr, show_ipv4. cbn [oct0 oct1 oct2 oct3 app].
  repeat (rewrite <- app_assoc; cbn [app]).
  rewrite read_octet_first by done. cbn [mbind option_bind].
  repeat (rewrite read_octet_sep by done; cbn [mbind option_bind]). done.
Qed.

Lemma as_bytes_show_ipv4 (a : Ipv4Addr) : wf4 a -> as_bytes (show_ipv4 a) = show_ipv4 a.
Proof.
  intros (H0 & H1 & H2 & H3). unfold show_ipv4.
  by rewrite !as_bytes_app, !as_bytes_show_octet.
Qed.

(** Printing an IPv4 address and parsing it back is the identity. *)
Lemma parse_show_ipv4 (a : Ipv4Addr) : wf4 a -> parse_ipv4 (show_ipv4 a) = Some a.
Proof.
  intros Ha. unfold parse_ipv4. rewrite as_bytes_show_ipv4 by done.
  pose proof Ha as (H0 & H1 & H2 & H3).
  apply show_octet_short in H0, H1, H2, H3.
  replace (15 <? length (show_ipv4 a))%nat with false.
  2:{ symmetry. apply Nat.ltb_ge. unfold show_ipv4. rewrite !length_app. cbn. lia. }
  unfold parse_with. rewrite <- (app_nil_r (show_ipv4 a)).
  by rewrite read_ipv4_show.
Qed.

Example parse_ipv6_loopback :
  parse_ipv6 (lit "::1") = Some (mkIpv6 [0; 0; 0; 0; 0; 0; 0; 1]).
Proof. vm_compute. reflexivity. Qed.

Example parse_ipv6_embedded :
  parse_ipv6 (lit "64:ff9b::192.0.2.33")
  = Some (mkIpv6 [0x64; 0xff9b; 0; 0; 0; 0; 0xc000; 0x221]).
Proof. vm_compute. reflexivity. Qed.

Example parse_ipv6_bad : parse_ipv6 (lit "1:2:3:4:5:6:7::8:9") = None.
Proof. vm_compute. reflexivity. Qed.

Example show_ipv6_compress :
  show_ipv6 (mkIpv6 [0x2001; 0xdb8; 0; 0; 1; 0; 0; 1]) = lit "2001:db8::1:0:0:1".
Proof. vm_compute. reflexivity. Qed.

End IpAddr.
