(* ===== verification/Hostname.v ===== *)
(** * Hostname: RFC 1123 names

    [crates/portunus-core/src/hostname.rs]: the validator every push path
    shares, its normal form, and the case-insensitive equality and hash the
    resolver cache keys on. *)

From S2P Require Import Prelude Text.

Local Open Scope Z_scope.

Module Hostname.

Record Hostname : Type := mkHostname { as_str : list Z }.

Inductive HostnameError : Type :=
| Empty
| TotalTooLong (n : nat)
| LabelEmpty (position : nat)
| LabelTooLong (label : list Z) (len : nat)
| InvalidChar (label : list Z) (ch : Z)
| HyphenBoundary (label : list Z)
| AllNumeric (name : list Z).

#[export] Instance Hostname_eq_dec : EqDecision Hostname.
Proof. solve_decision. Defined.

#[export] Instance Hostname_countable : Countable Hostname.
Proof. by apply (inj_countable' as_str mkHostname); intros []. Defined.

Definition DOT : Z := 46.
Definition HYPHEN : Z := 45.

(** The inner loop over [label.chars()], threading [all_numeric]. *)
Fixpoint check_chars (label cs : list Z) (all_numeric : bool)
  : Result bool HostnameError :=
  match cs with
  | [] => Ok all_numeric
  | ch :: r =>
    if negb (is_ascii_alphanumeric ch) && negb (ch =? HYPHEN)
    then Err (InvalidChar label ch)
    else check_chars label r (if is_ascii_digit ch then all_numeric else false)
  end.

(** The body of the loop over the labels. *)
Definition check_label (position : nat) (label : list Z) (all_numeric : bool)
  : Result bool HostnameError :=
  if (str_len label =? 0)%nat then Err (LabelEmpty position)
  else if (63 <? str_len label)%nat then Err (LabelTooLong label (str_len label))
  else if starts_with_char HYPHEN label || ends_with_char HYPHEN label
  then Err (HyphenBoundary label)
  else check_chars label label all_numeric.

Fixpoint check_labels (position : nat) (labels : list (list Z)) (all_numeric : bool)
  : Result bool HostnameError :=
  match labels with
  | [] => Ok all_numeric
  | label :: r =>
    let? n := check_label position label all_numeric in
    check_labels (S position) r n
  end.

Definition strip_dot (input : list Z) : list Z :=
  match strip_suffix [DOT] input with Some s => s | None => input end.

(** [Hostname::new]. *)
Definition new (input : list Z) : Result Hostname HostnameError :=
  let trimmed := strip_dot input in
  if (str_len trimmed =? 0)%nat then Err Empty
  else if (253 <? str_len trimmed)%nat then Err (TotalTooLong (str_len trimmed))
  else
    let? all_numeric := check_labels 0 (split_char DOT trimmed) true in
    if all_numeric then Err (AllNumeric trimmed)
    else Ok (mkHostname (lower trimmed)).

(** [PartialEq for Hostname]. *)
Definition eqb (a b : Hostname) : bool :=
  eq_ignore_ascii_case (as_str a) (as_str b).

(** The bytes [Hash for Hostname] feeds to the hasher. *)
Definition hash_input (h : Hostname) : list Z := to_lower <$> as_bytes (as_str h).

(** ** What the validator accepts *)

Definition ldh (c : Z) : Prop := is_ascii_alphanumeric c = true \/ c = HYPHEN.

Record valid_label (l : list Z) : Prop := {
  label_nonempty : l <> [];
  label_short : (str_len l <= 63)%nat;
  label_first : starts_with_char HYPHEN l = false;
  label_last : ends_with_char HYPHEN l = false;
  label_ldh : Forall ldh l;
}.

Record valid_name (s : list Z) : Prop := {
  name_nonempty : s <> [];
  name_short : (str_len s <= 253)%nat;
  name_labels : Forall valid_label (split_char DOT s);
  name_not_numeric : Exists (fun c => is_ascii_digit c = false /\ c <> DOT) s;
}.

#[export] Instance Hostname_equiv : Equiv Hostname := fun a b => eqb a b = true.

(** ** Lemmas *)

Lemma str_len_nil_iff (s : list Z) : str_len s = 0%nat <-> s = [].
Proof.
  destruct s as [|c s]; cbn; [done|]. split; [|done].
  unfold utf8_len. repeat case_test; unfold str_len; cbn; lia.
Qed.

Lemma check_chars_ok (label cs : list Z) (n r : bool) :
  check_chars label cs n = Ok r <->
  Forall ldh cs /\ r = n && forallb is_ascii_digit cs.
Proof.
  revert n. induction cs as [|c cs IH]; intros n; cbn.
  - rewrite andb_true_r. split; [intros [= ->]; auto|intros [_ ->]; done].
  - unfold ldh. destruct (is_ascii_alphanumeric c) eqn:A; cbn [negb andb].
    + rewrite IH, Forall_cons. destruct (is_ascii_digit c); cbn;
        rewrite ?andb_false_r; firstorder.
    + destruct (c =? HYPHEN) eqn:H; cbn [negb].
      * bool_prop. rewrite IH, Forall_cons.
        assert (is_ascii_digit c = false) as ->
          by (subst; done). cbn. rewrite andb_false_r. firstorder.
      * bool_prop. split; [done|]. rewrite Forall_cons. intros [[[?|?] _] _]; congruence.
Qed.

Lemma check_label_ok (p : nat) (l : list Z) (n r : bool) :
  check_label p l n = Ok r <->
  valid_label l /\ r = n && forallb is_ascii_digit l.
Proof.
  unfold check_label.
  destruct (str_len l =? 0)%nat eqn:E1; bool_prop.
  { split; [done|]. intros [[]]. by apply str_len_nil_iff in E1. }
  destruct (63 <? str_len l)%nat eqn:E2; bool_prop.
  { split; [done|]. intros [[] _]. lia. }
  destruct (starts_with_char HYPHEN l || ends_with_char HYPHEN l) eqn:E3.
  { split; [done|]. intros [[] _]. bool_prop. destruct E3; congruence. }
  apply orb_false_elim in E3 as [E3 E4]. rewrite check_chars_ok. split.
  - intros [? ->]. split; [|done]. split; auto.
    intros ->. done.
  - intros [[] ->]. auto.
Qed.

Lemma check_labels_ok (ls : list (list Z)) (p : nat) (n r : bool) :
  check_labels p ls n = Ok r <->
  Forall valid_label ls /\ r = n && forallb (forallb is_ascii_digit) ls.
Proof.
  revert p n. induction ls as [|l ls IH]; intros p n; cbn.
  - rewrite andb_true_r. split; [intros [= ->]; auto|intros [_ ->]; done].
  - rewrite Forall_cons. destruct (check_label p l n) as [m|e] eqn:E.
    + apply check_label_ok in E as [Hl ->]. rewrite IH, andb_assoc. naive_solver.
    + split; [done|]. intros [[Hl _] _]. exfalso.
      assert (check_label p l n = Ok (n && forallb is_ascii_digit l)) as E'
        by (by apply check_label_ok). congruence.
Qed.

Lemma split_numeric (s : list Z) :
  forallb (forallb is_ascii_digit) (split_char DOT s) = false <->
  Exists (fun c => is_ascii_digit c = false /\ c <> DOT) s.
Proof.
  induction s as [|c s IH]; cbn.
  - split; [done|]. intros H. inversion H.
  - pose proof (split_char_nonnil DOT s) as Hn. rewrite Exists_cons, <- IH.
    destruct (c =? DOT) eqn:E; bool_prop.
    + subst. cbn. split; [by right|]. intros [[_ []]|?]; done.
    + destruct (split_char DOT s) as [|h t]; [done|]. cbn.
      destruct (is_ascii_digit c); cbn; naive_solver.
Qed.

Lemma to_lower_dot (c : Z) : to_lower c = DOT <-> c = DOT.
Proof. unfold to_lower, is_ascii_uppercase, DOT. case_test; bool_prop; lia. Qed.

Lemma split_lower (s : list Z) : split_char DOT (lower s) = lower <$> split_char DOT s.
Proof.
  unfold lower. induction s as [|c s IH]; [done|].
  cbn [fmap list_fmap split_char]. fold (lower s). unfold lower. rewrite IH.
  destruct (to_lower c =? DOT) eqn:E; bool_prop.
  - apply to_lower_dot in E as ->. done.
  - replace (c =? DOT) with false
      by (symmetry; apply Z.eqb_neq; by rewrite <- to_lower_dot).
    destruct (split_char DOT s); done.
Qed.

Lemma ldh_lower (c : Z) : ldh c -> ldh (to_lower c).
Proof.
  unfold ldh, HYPHEN, to_lower, is_ascii_alphanumeric, is_ascii_uppercase,
    is_ascii_digit, is_ascii_lowercase. intros. case_test; lia.
Qed.

Lemma starts_with_lower (s : list Z) :
  starts_with_char HYPHEN (lower s) = starts_with_char HYPHEN s.
Proof.
  destruct s as [|c s]; [done|]. cbn. unfold to_lower, is_ascii_uppercase, HYPHEN.
  case_test; lia.
Qed.

Lemma ends_with_lower (s : list Z) :
  ends_with_char HYPHEN (lower s) = ends_with_char HYPHEN s.
Proof.
  unfold ends_with_char, lower. rewrite <- fmap_reverse. apply starts_with_lower.
Qed.

Lemma valid_label_lower (l : list Z) : valid_label l -> valid_label (lower l).
Proof.
  intros []. split.
  - intros H%lower_nil_inv. done.
  - by rewrite str_len_lower.
  - by rewrite starts_with_lower.
  - by rewrite ends_with_lower.
  - unfold lower. rewrite Forall_fmap. eapply Forall_impl; [done|].
    intros c. apply ldh_lower.
Qed.

Lemma valid_name_lower (s : list Z) : valid_name s -> valid_name (lower s).
Proof.
  intros []. split.
  - by intros ?%lower_nil_inv.
  - by rewrite str_len_lower.
  - rewrite split_lower, Forall_fmap. eapply Forall_impl; [done|].
    apply valid_label_lower.
  - unfold lower. rewrite Exists_fmap. eapply Exists_impl; [done|].
    intros c [Hd Hc]. cbn. split; [|by rewrite to_lower_dot].
    unfold to_lower, is_ascii_uppercase, is_ascii_digit in *. case_test; lia.
Qed.

(** A valid name does not end in a dot, so its normal form is stripped. *)
Lemma split_char_snoc (c : Z) (s : list Z) :
  split_char c (s ++ [c]) = split_char c s ++ [[]].
Proof.
  induction s as [|x s IH]; cbn; [by rewrite Z.eqb_refl|].
  pose proof (split_char_nonnil c s) as Hn. rewrite IH.
  destruct (x =? c); [done|]. by destruct (split_char c s).
Qed.

Lemma strip_dot_valid (s : list Z) : valid_name s -> strip_dot s = s.
Proof.
  intros [_ _ Hl _]. unfold strip_dot.
  destruct (strip_suffix [DOT] s) as [r|] eqn:E; [|done].
  apply strip_suffix_spec in E. subst.
  rewrite split_char_snoc, Forall_app, Forall_singleton in Hl.
  by destruct Hl as [_ []].
Qed.

Lemma new_ok_iff (input : list Z) (h : Hostname) :
  new input = Ok h <->
  valid_name (strip_dot input) /\ as_str h = lower (strip_dot input).
Proof.
  unfold new. set (t := strip_dot input).
  destruct (str_len t =? 0)%nat eqn:E1; bool_prop.
  { split; [done|]. intros [[]]. by apply str_len_nil_iff in E1. }
  destruct (253 <? str_len t)%nat eqn:E2; bool_prop.
  { split; [done|]. intros [[] _]. lia. }
  destruct (check_labels 0 (split_char DOT t) true) as [n|e] eqn:E.
  - apply check_labels_ok in E as [Hl ->]. cbn [andb].
    destruct (forallb _ (split_char DOT t)) eqn:En.
    + split; [done|]. intros [[_ _ _ Hx] _]. apply split_numeric in Hx. congruence.
    + split.
      * intros [= <-]. split; [|done]. split; auto; [|by apply split_numeric].
        intros ->. done.
      * intros [_ Hs]. destruct h; cbn in *. by subst.
  - split; [done|]. intros [[_ _ Hl _] _]. exfalso.
    pose proof (proj2 (check_labels_ok (split_char DOT t) 0 true _) (conj Hl eq_refl)).
    congruence.
Qed.

#[export] Instance Hostname_equivalence : Equivalence (≡@{Hostname}).
Proof.
  unfold equiv, Hostname_equiv, eqb, eq_ignore_ascii_case.
  split; red; intros *; rewrite !bool_decide_eq_true; congruence.
Qed.

Lemma to_lower_utf8 (c : Z) :
  to_lower <$> utf8_encode_char c = utf8_encode_char (to_lower c).
Proof.
  destruct (Z.lt_ge_cases c 128) as [Hc|Hc].
  - unfold utf8_encode_char, to_lower at 2 3, is_ascii_uppercase.
    destruct ((65 <=? c) && (c <=? 90)) eqn:E; eval_if; cbn;
      unfold to_lower, is_ascii_uppercase; by rewrite E.
  - replace (to_lower c) with c
      by (unfold to_lower, is_ascii_uppercase; by eval_if).
    pose proof (utf8_encode_high c Hc) as H. induction H as [|b l Hb Hl IH]; [done|].
    cbn. f_equal; [|done]. unfold to_lower, is_ascii_uppercase. by eval_if.
Qed.

Lemma hash_input_lower (h : Hostname) : hash_input h = as_bytes (lower (as_str h)).
Proof.
  unfold hash_input, as_bytes, lower. induction (as_str h) as [|c s IH]; [done|].
  cbn. rewrite fmap_app, to_lower_utf8. cbn in IH. by rewrite IH.
Qed.

(** The validator accepts exactly the RFC 1123 names, after one trailing
    dot is dropped, and stores them in lower case. *)
Theorem hostname_new_spec (input : list Z) :
  (forall h, new input = Ok h <->
     valid_name (strip_dot input) /\ as_str h = lower (strip_dot input)) /\
  (is_ok (new input) = true <-> valid_name (strip_dot input)).
Proof.
  split; [intros h; apply new_ok_iff|].
  destruct (new input) as [h|e] eqn:E; cbn.
  - apply new_ok_iff in E as [? _]. done.
  - split; [done|]. intros Hv.
    assert (new input = Ok (mkHostname (lower (strip_dot input)))) as E'
      by (by apply new_ok_iff). congruence.
Qed.

(** A stored hostname is a fixed point of the validator: re-validating it
    on another path returns it unchanged. *)
Theorem hostname_new_idempotent (input : list Z) (h : Hostname) :
  new input = Ok h -> new (as_str h) = Ok h.
Proof.
  intros H. apply new_ok_iff in H as [Hv Hs]. apply new_ok_iff. rewrite Hs.
  pose proof (valid_name_lower _ Hv) as Hl.
  rewrite strip_dot_valid by done. split; [done|]. by rewrite lower_idem.
Qed.

Lemma hostname_new_idempotent_witness :
  new (lit "api.example.com") = Ok (mkHostname (lit "api.example.com")).
Proof.
  apply (hostname_new_idempotent (lit "API.Example.com.")
           (mkHostname (lit "api.example.com"))). vm_compute. reflexivity.
Defined.

(** Equality and hash of hostnames agree: equal names feed the hasher the
    same bytes, and on validated names the case-insensitive equality is
    equality of the stored strings. *)
Theorem hostname_eq_hash (a b : Hostname) :
  (a ≡ b -> hash_input a = hash_input b) /\
  (forall i j, new i = Ok a -> new j = Ok b -> (a ≡ b <-> a = b)).
Proof.
  assert (a ≡ b <-> lower (as_str a) = lower (as_str b)) as Heq.
  { unfold equiv, Hostname_equiv, eqb, eq_ignore_ascii_case. apply bool_decide_eq_true. }
  split.
  - intros H%Heq. by rewrite !hash_input_lower, H.
  - intros i j [_ Ha]%new_ok_iff [_ Hb]%new_ok_iff. rewrite Heq, Ha, Hb, !lower_idem.
    destruct a, b; cbn in *; subst. split; [by intros ->|congruence].
Qed.

#[export] Instance hash_input_proper : Proper ((≡) ==> (=)) hash_input.
Proof.
  intros a b H. rewrite !hash_input_lower. f_equal.
  unfold equiv, Hostname_equiv, eqb, eq_ignore_ascii_case in H. by bool_prop.
Qed.

End Hostname.
