(* ===== verification/Target.v ===== *)
(** * Target: classification and validation of upstreams

    [crates/portunus-core/src/target.rs] (IP literal or hostname) and
    [crates/portunus-core/src/rule_target.rs] (the targets list of a
    multi-target rule). *)

From S2P Require Import Prelude Text IpAddr Hostname.

Local Open Scope Z_scope.

Module Target.

Inductive Target : Type :=
| Ip (a : IpAddr.IpAddr)
| Dns (h : Hostname.Hostname).

Inductive TargetError : Type :=
| UnbracketedIpv6 (s : list Z)
| BracketedNotIpv6 (s : list Z)
| HostnameErr (e : Hostname.HostnameError).

Definition COLON : Z := 58.

(** [Target::parse]. *)
Definition parse (input : list Z) : Result Target TargetError :=
  match IpAddr.parse_ipv4 input with
  | Some v4 => Ok (Ip (IpAddr.V4 v4))
  | None =>
    match strip_prefix (lit "[") input ≫= strip_suffix (lit "]") with
    | Some inner =>
      match IpAddr.parse_ipv6 inner with
      | Some v6 => Ok (Ip (IpAddr.V6 v6))
      | None => Err (BracketedNotIpv6 input)
      end
    | None =>
      if contains_char COLON input then Err (UnbracketedIpv6 input)
      else match Hostname.new input with
           | Ok host => Ok (Dns host)
           | Err e => Err (HostnameErr e)
           end
    end
  end.

End Target.

Module RuleTarget.

Definition MAX_TARGETS_PER_RULE : nat := 8.

Inductive ProxyProtocolVersion : Type := V1 | V2.

#[export] Instance ProxyProtocolVersion_eq_dec : EqDecision ProxyProtocolVersion.
Proof. solve_decision. Defined.

Record RuleTarget : Type := mkRuleTarget {
  host : list Z;
  port : Z;
  priority : Z;
  proxy_protocol : option ProxyProtocolVersion;
}.

#[export] Instance RuleTarget_eq_dec : EqDecision RuleTarget.
Proof. solve_decision. Defined.

Inductive RuleTargetError : Type :=
| Empty
| TooMany (n : nat)
| EmptyHost (index : nat)
| InvalidHost (index : nat) (host : list Z) (source : Target.TargetError)
| InvalidPort (index : nat) (port : Z)
| Duplicate (first second : nat) (host : list Z) (port : Z).

(** The first loop of [validate]: each target on its own. *)
Fixpoint check_each (index : nat) (ts : list RuleTarget) : Result unit RuleTargetError :=
  match ts with
  | [] => Ok tt
  | t :: r =>
    if (str_len (host t) =? 0)%nat then Err (EmptyHost index)
    else if port t =? 0 then Err (InvalidPort index (port t))
    else match Target.parse (host t) with
         | Err source => Err (InvalidHost index (host t) source)
         | Ok _ => check_each (S index) r
         end
  end.

Definition same_endpoint (a b : RuleTarget) : bool :=
  bool_decide (host a = host b) && (port a =? port b).

(** The inner loop over [j in i+1..n]. *)
Fixpoint find_same (j : nat) (t : RuleTarget) (ts : list RuleTarget) : option nat :=
  match ts with
  | [] => None
  | u :: r => if same_endpoint t u then Some j else find_same (S j) t r
  end.

(** The outer loop over [i]. *)
Fixpoint find_dup (i : nat) (ts : list RuleTarget) : option (nat * nat * RuleTarget) :=
  match ts with
  | [] => None
  | t :: r =>
    match find_same (S i) t r with
    | Some j => Some (i, j, t)
    | None => find_dup (S i) r
    end
  end.

(** [rule_target::validate]. *)
Definition validate (targets : list RuleTarget) : Result unit RuleTargetError :=
  if (length targets =? 0)%nat then Err Empty
  else if (MAX_TARGETS_PER_RULE <? length targets)%nat
  then Err (TooMany (length targets))
  else
    let? _ := check_each 0 targets in
    match find_dup 0 targets with
    | Some (i, j, t) => Err (Duplicate i j (host t) (port t))
    | None => Ok tt
    end.

(** What a validated target satisfies. *)
Definition good_target (t : RuleTarget) : Prop :=
  host t <> [] /\ port t <> 0 /\ is_ok (Target.parse (host t)) = true.

Definition endpoint (t : RuleTarget) : list Z * Z := (host t, port t).

End RuleTarget.

(** ** Lemmas *)

Definition dotted (c : Z) : Prop := is_ascii_digit c = true \/ c = Hostname.DOT.

Lemma to_digit_10 (c d : Z) : IpAddr.to_digit 10 c = Some d -> is_ascii_digit c = true.
Proof.
  unfold IpAddr.to_digit. destruct (is_ascii_digit c) eqn:E; [done|]. intros H.
  repeat case_test_in H; bool_prop; try done; lia.
Qed.

Lemma read_digits_consumes (max : Z) (s r : list Z) (acc n v k : Z) :
  IpAddr.read_digits 10 max s acc n = Some (v, k, r) ->
  exists p, s = p ++ r /\ Forall dotted p.
Proof.
  revert acc n. induction s as [|c s IH]; cbn; intros acc n H.
  - simplify_eq. by exists [].
  - destruct (IpAddr.to_digit 10 c) eqn:E.
    + case_test_in H; [done|]. apply IH in H as (p & -> & Hp).
      exists (c :: p). split; [done|]. constructor; [left; by eapply to_digit_10|done].
    + simplify_eq. by exists [].
Qed.

Lemma read_octet_consumes (first : bool) (s r : list Z) (v : Z) :
  IpAddr.read_octet first s = Some (v, r) -> exists p, s = p ++ r /\ Forall dotted p.
Proof.
  unfold IpAddr.read_octet, IpAddr.read_separator.
  assert (forall s r v, IpAddr.read_number 10 3 255 false s = Some (v, r) ->
    exists p, s = p ++ r /\ Forall dotted p) as Hn.
  { clear. intros s r v. unfold IpAddr.read_number.
    destruct (IpAddr.read_digits 10 3 s 0 0) as [[[w n] r']|] eqn:E; [|done].
    intros H. repeat case_test_in H; simplify_eq. by eapply read_digits_consumes. }
  destruct first; [apply Hn|]. destruct s as [|c s]; [done|]. cbn.
  destruct (c =? 46) eqn:E; [|done]. bool_prop. subst.
  intros (p & -> & Hp)%Hn. exists (46 :: p). split; [done|].
  constructor; [by right|done].
Qed.

Lemma read_ipv4_consumes (s r : list Z) (a : IpAddr.Ipv4Addr) :
  IpAddr.read_ipv4_addr s = Some (a, r) -> exists p, s = p ++ r /\ Forall dotted p.
Proof.
  unfold IpAddr.read_ipv4_addr. intros H.
  repeat (apply bind_Some in H as ([? ?] & ?Hr & H)). simplify_eq.
  apply read_octet_consumes in Hr as (p0 & -> & ?).
  apply read_octet_consumes in Hr0 as (p1 & -> & ?).
  apply read_octet_consumes in Hr1 as (p2 & -> & ?).
  apply read_octet_consumes in Hr2 as (p3 & -> & ?).
  exists (p0 ++ p1 ++ p2 ++ p3). rewrite <- !app_assoc. split; [done|].
  by rewrite !Forall_app.
Qed.

Lemma as_bytes_dotted (s : list Z) : Forall dotted (as_bytes s) -> Forall dotted s.
Proof.
  apply as_bytes_ascii. intros b [Hd|Hd]; unfold is_ascii_digit, Hostname.DOT in *; lia.
Qed.

Lemma parse_ipv4_dotted (s : list Z) (a : IpAddr.Ipv4Addr) :
  IpAddr.parse_ipv4 s = Some a -> Forall dotted s.
Proof.
  unfold IpAddr.parse_ipv4, IpAddr.parse_with. case_test; [done|].
  destruct (IpAddr.read_ipv4_addr (as_bytes s)) as [[b [|]]|] eqn:E; [|done..].
  intros _. apply read_ipv4_consumes in E as (p & Hp & Hd).
  rewrite app_nil_r in Hp. apply as_bytes_dotted. by rewrite Hp.
Qed.

Lemma valid_name_chars (s : list Z) :
  Hostname.valid_name s -> Forall (fun c => Hostname.ldh c \/ c = Hostname.DOT) s.
Proof.
  intros [_ _ Hl _]. rewrite <- (join_split_char Hostname.DOT s).
  induction Hl as [|l ls Hv Hls IH]; [done|]. cbn.
  assert (Forall (fun c => Hostname.ldh c \/ c = Hostname.DOT) l).
  { eapply Forall_impl; [apply Hv|]. by left. }
  destruct ls; [done|]. apply Forall_app. split; [done|]. constructor; [by right|done].
Qed.

Lemma strip_dot_cases (s : list Z) :
  Hostname.strip_dot s = s \/ s = Hostname.strip_dot s ++ [Hostname.DOT].
Proof.
  unfold Hostname.strip_dot.
  destruct (strip_suffix [Hostname.DOT] s) eqn:E; [|by left].
  right. by apply strip_suffix_spec in E.
Qed.

Lemma strip_dot_incl (P : Z -> Prop) (s : list Z) :
  P Hostname.DOT -> Forall P (Hostname.strip_dot s) -> Forall P s.
Proof.
  intros Hd H. destruct (strip_dot_cases s) as [E|E]; [by rewrite E in H|rewrite E].
  apply Forall_app. split; [done|]. by constructor.
Qed.

Lemma valid_input_chars (s : list Z) :
  Hostname.valid_name (Hostname.strip_dot s) ->
  Forall (fun c => Hostname.ldh c \/ c = Hostname.DOT) s.
Proof. intros H%valid_name_chars. apply strip_dot_incl; [by right|done]. Qed.

Lemma valid_input_not_dotted (s : list Z) :
  Hostname.valid_name (Hostname.strip_dot s) -> ~ Forall dotted s.
Proof.
  intros [_ _ _ Hx] Hf. rewrite Exists_exists in Hx. destruct Hx as (c & Hc & Hd & Hn).
  rewrite Forall_forall in Hf. destruct (Hf c) as [?|?]; [|congruence..].
  destruct (strip_dot_cases s) as [E|E]; [by rewrite E in Hc|rewrite E].
  apply elem_of_app. by left.
Qed.

Lemma valid_input_no_char (c : Z) (s : list Z) :
  Hostname.valid_name (Hostname.strip_dot s) ->
  is_ascii_alphanumeric c = false -> c <> Hostname.HYPHEN -> c <> Hostname.DOT ->
  c ∉ s.
Proof.
  intros Hv%valid_input_chars Ha Hh Hd Hin. rewrite Forall_forall in Hv.
  destruct (Hv c Hin) as [[?|?]|?]; congruence.
Qed.

Lemma check_each_ok (i : nat) (ts : list RuleTarget.RuleTarget) :
  RuleTarget.check_each i ts = Ok tt <-> Forall RuleTarget.good_target ts.
Proof.
  revert i. induction ts as [|t ts IH]; intros i; cbn; [done|].
  rewrite Forall_cons. unfold RuleTarget.good_target at 1.
  destruct (str_len (RuleTarget.host t) =? 0)%nat eqn:E1; bool_prop.
  { split; [done|]. intros [(H & _) _]. by apply Hostname.str_len_nil_iff in E1. }
  destruct (RuleTarget.port t =? 0) eqn:E2; bool_prop.
  { split; [done|]. intros [(_ & H & _) _]. done. }
  destruct (Target.parse (RuleTarget.host t)) eqn:E3.
  - rewrite IH. split; [|tauto]. intros. repeat split; auto.
    intros E. by rewrite E in E1.
  - split; [done|]. intros [(_ & _ & H) _]. done.
Qed.

Lemma find_same_none (j : nat) (t : RuleTarget.RuleTarget) (ts : list RuleTarget.RuleTarget) :
  RuleTarget.find_same j t ts = None <->
  RuleTarget.endpoint t ∉ RuleTarget.endpoint <$> ts.
Proof.
  revert j. induction ts as [|u ts IH]; intros j; cbn.
  - split; [|done]. intros _. apply not_elem_of_nil.
  - rewrite not_elem_of_cons. unfold RuleTarget.same_endpoint, RuleTarget.endpoint at 1 2.
    destruct (bool_decide _ && _) eqn:E.
    + split; [done|]. bool_prop. intros [Hne _]. congruence.
    + rewrite IH. split; [|tauto]. intros Hts. split; [|done].
      intros [= Eh Ep]. rewrite bool_decide_true in E by done. cbn in E. lia.
Qed.

Lemma find_dup_none (i : nat) (ts : list RuleTarget.RuleTarget) :
  RuleTarget.find_dup i ts = None <-> NoDup (RuleTarget.endpoint <$> ts).
Proof.
  revert i. induction ts as [|t ts IH]; intros i; cbn.
  - split; [|done]. intros _. constructor.
  - rewrite NoDup_cons, <- (IH (S i)), <- (find_same_none (S i)).
    destruct (RuleTarget.find_same (S i) t ts); naive_solver.
Qed.

(** The classification of a target string is unambiguous: a string the
    hostname validator accepts is no IPv4 literal, is not bracketed and holds
    no colon, so it is classified as a DNS target whatever the order of the
    tests. *)
Theorem target_parse_unambiguous (s : list Z) (h : Hostname.Hostname) :
  Hostname.new s = Ok h ->
  IpAddr.parse_ipv4 s = None /\
  strip_prefix (lit "[") s = None /\
  contains_char Target.COLON s = false /\
  Target.parse s = Ok (Target.Dns h).
Proof.
  intros H. pose proof (proj1 (proj1 (Hostname.new_ok_iff s h) H)) as Hv.
  assert (IpAddr.parse_ipv4 s = None) as E1.
  { destruct (IpAddr.parse_ipv4 s) eqn:E; [|done]. apply parse_ipv4_dotted in E.
    by apply valid_input_not_dotted in Hv. }
  assert (strip_prefix (lit "[") s = None) as E2.
  { destruct (strip_prefix (lit "[") s) eqn:E; [|done].
    apply strip_prefix_spec in E.
    apply (valid_input_no_char 91) in Hv; [|done..]. subst. set_solver. }
  assert (contains_char Target.COLON s = false) as E3.
  { apply not_true_iff_false. unfold contains_char. rewrite existsb_exists.
    intros (c & Hin & Hc). bool_prop. subst c. apply list_elem_of_In in Hin.
    by apply (valid_input_no_char Target.COLON) in Hv. }
  repeat split; auto. unfold Target.parse. by rewrite E1, E2, E3, H.
Qed.

Lemma target_parse_unambiguous_witness :
  Target.parse (lit "db-1.example.com")
  = Ok (Target.Dns (Hostname.mkHostname (lit "db-1.example.com"))).
Proof.
  apply (target_parse_unambiguous (lit "db-1.example.com")). vm_compute. reflexivity.
Defined.

(** The targets of a rule pass validation if and only if there are one to
    eight of them, each with a non-empty parseable host and a non-zero port,
    and no two share host and port. *)
Theorem rule_target_validate_spec (ts : list RuleTarget.RuleTarget) :
  RuleTarget.validate ts = Ok tt <->
  (1 <= length ts <= 8)%nat /\
  Forall RuleTarget.good_target ts /\
  NoDup (RuleTarget.endpoint <$> ts).
Proof.
  unfold RuleTarget.validate, RuleTarget.MAX_TARGETS_PER_RULE.
  destruct (length ts =? 0)%nat eqn:E1; bool_prop.
  { split; [done|]. intros [? _]. lia. }
  destruct (8 <? length ts)%nat eqn:E2; bool_prop.
  { split; [done|]. intros [? _]. lia. }
  rewrite <- (check_each_ok 0), <- (find_dup_none 0).
  destruct (RuleTarget.check_each 0 ts) as [[]|]; [|naive_solver].
  destruct (RuleTarget.find_dup 0 ts) as [[[? ?] ?]|]; [naive_solver|].
  split; [|done]. intros _. repeat split; auto; lia.
Qed.
