(* ===== verification/RateLimit.v ===== *)
(** * RateLimit: the cap envelope

    [crates/portunus-core/src/rate_limit.rs]: four optional caps with burst
    overrides, their fail-fast validation, and the effective burst that sizes
    a token bucket. *)

From S2P Require Import Prelude.

Local Open Scope Z_scope.

Module RateLimit.

Definition BURST_RATE_RATIO_MAX_SECONDS : Z := 60.

Record RateLimit : Type := mkRateLimit {
  bandwidth_in_bps : option Z;
  bandwidth_out_bps : option Z;
  new_connections_per_sec : option Z;
  concurrent_connections : option Z;
  bandwidth_in_burst : option Z;
  bandwidth_out_burst : option Z;
  new_connections_burst : option Z;
}.

#[export] Instance RateLimit_eq_dec : EqDecision RateLimit.
Proof. solve_decision. Defined.

Inductive RejectReason : Type :=
| ConnConcurrent
| ConnRate
| UdpFlowRate
| OwnerConcurrent
| OwnerConnRate
| OwnerUdpFlowRate.

#[export] Instance RejectReason_eq_dec : EqDecision RejectReason.
Proof. solve_decision. Defined.

(** [RejectReason::as_metric_label]. *)
Definition as_metric_label (r : RejectReason) : string :=
  match r with
  | ConnConcurrent => "conn_concurrent"
  | ConnRate => "conn_rate"
  | UdpFlowRate => "udp_flow_rate"
  | OwnerConcurrent => "owner_concurrent"
  | OwnerConnRate => "owner_conn_rate"
  | OwnerUdpFlowRate => "owner_udp_flow_rate"
  end.

(** [RejectReason::is_owner_scope]. *)
Definition is_owner_scope (r : RejectReason) : bool :=
  match r with
  | OwnerConcurrent | OwnerConnRate | OwnerUdpFlowRate => true
  | _ => false
  end.

Inductive RateLimitError : Type :=
| CapZero (field : string)
| BurstWithoutRate (field : string)
| BurstRange (field : string) (rate burst lo hi : Z).

Definition check_nonzero_u64 (v : option Z) (field : string)
  : Result unit RateLimitError :=
  match v with
  | Some v => if v =? 0 then Err (CapZero field) else Ok tt
  | None => Ok tt
  end.

Definition check_nonzero_u32 (v : option Z) (field : string)
  : Result unit RateLimitError :=
  match v with
  | Some v => if v =? 0 then Err (CapZero field) else Ok tt
  | None => Ok tt
  end.

Definition burst_field_name_u64 (family : string) : string :=
  if String.eqb family "bandwidth_in" then "bandwidth_in_burst"
  else if String.eqb family "bandwidth_out" then "bandwidth_out_burst"
  else "burst".

Definition burst_field_name_u32 (family : string) : string :=
  if String.eqb family "new_connections" then "new_connections_burst" else "burst".

Definition check_burst_u64 (family : string) (rate burst : option Z)
  : Result unit RateLimitError :=
  match burst with
  | None => Ok tt
  | Some burst =>
    match rate with
    | None => Err (BurstWithoutRate (burst_field_name_u64 family))
    | Some rate =>
      let lo := rate / 100 in
      let hi := sat_mul_u64 rate BURST_RATE_RATIO_MAX_SECONDS in
      let lo_effective := Z.max lo 1 in
      if (burst <? lo_effective) || (hi <? burst)
      then Err (BurstRange (burst_field_name_u64 family) rate burst lo_effective hi)
      else Ok tt
    end
  end.

Definition check_burst_u32 (family : string) (rate burst : option Z)
  : Result unit RateLimitError :=
  match burst with
  | None => Ok tt
  | Some burst64 =>
    match rate with
    | None => Err (BurstWithoutRate (burst_field_name_u32 family))
    | Some rate64 =>
      let lo := rate64 / 100 in
      let hi := sat_mul_u64 rate64 BURST_RATE_RATIO_MAX_SECONDS in
      let lo_effective := Z.max lo 1 in
      if (burst64 <? lo_effective) || (hi <? burst64)
      then Err (BurstRange (burst_field_name_u32 family) rate64 burst64 lo_effective hi)
      else Ok tt
    end
  end.

(** [rate_limit::validate]. *)
Definition validate (rl : RateLimit) : Result unit RateLimitError :=
  let? _ := check_nonzero_u64 (bandwidth_in_bps rl) "bandwidth_in_bps" in
  let? _ := check_nonzero_u64 (bandwidth_out_bps rl) "bandwidth_out_bps" in
  let? _ := check_nonzero_u32 (new_connections_per_sec rl) "new_connections_per_sec" in
  let? _ := check_nonzero_u32 (concurrent_connections rl) "concurrent_connections" in
  let? _ := check_burst_u64 "bandwidth_in" (bandwidth_in_bps rl) (bandwidth_in_burst rl) in
  let? _ := check_burst_u64 "bandwidth_out" (bandwidth_out_bps rl) (bandwidth_out_burst rl) in
  let? _ := check_burst_u32 "new_connections" (new_connections_per_sec rl)
              (new_connections_burst rl) in
  Ok tt.

(** [effective_burst_u64] and [effective_burst_u32]. *)
Definition effective_burst_u64 (rate burst : option Z) : option Z :=
  match rate with
  | None => None
  | Some rate => Some (match burst with Some b => b | None => rate end)
  end.

Definition effective_burst_u32 (rate burst : option Z) : option Z :=
  match rate with
  | None => None
  | Some rate => Some (match burst with Some b => b | None => rate end)
  end.

(** The type invariant of the envelope: every field has its width. *)
Definition in_opt (P : Z -> Prop) (o : option Z) : Prop :=
  match o with Some z => P z | None => True end.

Record wf (rl : RateLimit) : Prop := {
  wf_in : in_opt in_u64 (bandwidth_in_bps rl);
  wf_out : in_opt in_u64 (bandwidth_out_bps rl);
  wf_new : in_opt in_u32 (new_connections_per_sec rl);
  wf_conc : in_opt in_u32 (concurrent_connections rl);
  wf_in_burst : in_opt in_u64 (bandwidth_in_burst rl);
  wf_out_burst : in_opt in_u64 (bandwidth_out_burst rl);
  wf_new_burst : in_opt in_u32 (new_connections_burst rl);
}.

(** What the validator asks of one cap and of its burst override. *)
Definition cap_ok (rate : option Z) : Prop := rate <> Some 0.

Definition burst_ok (rate burst : option Z) : Prop :=
  match burst with
  | None => True
  | Some b =>
    match rate with
    | None => False
    | Some r => Z.max (r / 100) 1 <= b <= Z.min (r * 60) u64_max
    end
  end.

(** ** Lemmas *)

Lemma check_nonzero_u64_ok (v : option Z) (f : string) :
  check_nonzero_u64 v f = Ok tt <-> cap_ok v.
Proof.
  unfold cap_ok. destruct v as [v|]; cbn; [|done].
  destruct (v =? 0) eqn:E; bool_prop; split; congruence.
Qed.

Lemma check_nonzero_u32_ok (v : option Z) (f : string) :
  check_nonzero_u32 v f = Ok tt <-> cap_ok v.
Proof. apply check_nonzero_u64_ok. Qed.

Lemma check_burst_u64_ok (f : string) (rate burst : option Z) :
  check_burst_u64 f rate burst = Ok tt <-> burst_ok rate burst.
Proof.
  unfold check_burst_u64, burst_ok, sat_mul_u64, BURST_RATE_RATIO_MAX_SECONDS.
  destruct burst as [b|]; [|done]. destruct rate as [r|]; [|done].
  destruct (_ || _) eqn:E; [split; [done|]|split; [|done]]; lia.
Qed.

Lemma check_burst_u32_ok (f : string) (rate burst : option Z) :
  check_burst_u32 f rate burst = Ok tt <-> burst_ok rate burst.
Proof.
  unfold check_burst_u32, burst_ok, sat_mul_u64, BURST_RATE_RATIO_MAX_SECONDS.
  destruct burst as [b|]; [|done]. destruct rate as [r|]; [|done].
  destruct (_ || _) eqn:E; [split; [done|]|split; [|done]]; lia.
Qed.

Lemma bind_ok_iff {A E} (c : Result unit E) (k : Result A E) (v : A) :
  match c with Ok _ => k | Err e => Err e end = Ok v <-> c = Ok tt /\ k = Ok v.
Proof. destruct c as [[]|e]; naive_solver. Qed.

Lemma validate_ok_iff (rl : RateLimit) :
  validate rl = Ok tt <->
  cap_ok (bandwidth_in_bps rl) /\ cap_ok (bandwidth_out_bps rl) /\
  cap_ok (new_connections_per_sec rl) /\ cap_ok (concurrent_connections rl) /\
  burst_ok (bandwidth_in_bps rl) (bandwidth_in_burst rl) /\
  burst_ok (bandwidth_out_bps rl) (bandwidth_out_burst rl) /\
  burst_ok (new_connections_per_sec rl) (new_connections_burst rl).
Proof.
  unfold validate.
  rewrite !bind_ok_iff, !check_nonzero_u64_ok, ?check_nonzero_u32_ok,
    !check_burst_u64_ok, ?check_burst_u32_ok. tauto.
Qed.

(** A validated rate with its effective burst sizes a legal bucket. *)
Lemma effective_burst_bounds (rate burst : option Z) (r b : Z) :
  in_opt in_u64 rate -> cap_ok rate -> burst_ok rate burst ->
  rate = Some r -> effective_burst_u64 rate burst = Some b ->
  0 < r /\ 0 < b <= 60 * r /\ b <= u64_max.
Proof.
  intros Hw Hc Hb -> [= <-]. cbn in *. unfold cap_ok in Hc. unfold_ints.
  assert (0 < r) by (destruct (Z.eq_dec r 0); [subst; done|lia]).
  destruct burst as [b|]; cbn in *; unfold_ints; lia.
Qed.

(** Validation accepts exactly the envelopes whose caps are non-zero and
    whose burst overrides come with a rate and lie between one hundredth of it
    (at least 1) and sixty times it, and every accepted cap then sizes a token
    bucket with positive rate and burst, the precondition of
    [TokenBucket::new]. *)
Theorem rate_limit_validate_spec (rl : RateLimit) :
  wf rl ->
  (validate rl = Ok tt <->
     cap_ok (bandwidth_in_bps rl) /\ cap_ok (bandwidth_out_bps rl) /\
     cap_ok (new_connections_per_sec rl) /\ cap_ok (concurrent_connections rl) /\
     burst_ok (bandwidth_in_bps rl) (bandwidth_in_burst rl) /\
     burst_ok (bandwidth_out_bps rl) (bandwidth_out_burst rl) /\
     burst_ok (new_connections_per_sec rl) (new_connections_burst rl)) /\
  (validate rl = Ok tt ->
   forall rate burst r b,
     (rate, burst) ∈ [ (bandwidth_in_bps rl, bandwidth_in_burst rl);
                       (bandwidth_out_bps rl, bandwidth_out_burst rl);
                       (new_connections_per_sec rl, new_connections_burst rl) ] ->
     rate = Some r -> effective_burst_u64 rate burst = Some b ->
     0 < r /\ 0 < b <= 60 * r).
Proof.
  intros Hw. split; [apply validate_ok_iff|]. intros Hv. apply validate_ok_iff in Hv.
  destruct Hv as (C1 & C2 & C3 & _ & B1 & B2 & B3). destruct Hw.
  intros rate burst r b Hin Hr Hb. rewrite !elem_of_cons in Hin.
  assert (in_opt in_u64 rate /\ cap_ok rate /\ burst_ok rate burst) as (Hw & Hc & Hbo).
  { destruct Hin as [[= -> ->]|[[= -> ->]|[[= -> ->]|[]%not_elem_of_nil]]]; auto.
    split; [|auto]. rewrite Hr in *. cbn in *. unfold_ints. lia. }
  destruct (effective_burst_bounds rate burst r b) as (? & ? & _); auto.
Qed.

Lemma rate_limit_validate_spec_witness :
  0 < 1000 /\ 0 < 60000 <= 60 * 1000.
Proof.
  pose (rl := mkRateLimit (Some 1000) None None (Some 5) (Some 60000) None None).
  destruct (rate_limit_validate_spec rl) as [_ H].
  { split; unfold_ints; cbn; lia. }
  apply (H eq_refl (Some 1000) (Some 60000)); [set_solver|done|done].
Defined.

End RateLimit.
