(* ===== verification/TokenBucket.v ===== *)
(** * Token bucket

    [crates/portunus-forwarder/src/forwarder/rate_limit/bucket.rs].  An
    [Instant] is a number of nanoseconds of the monotonic clock, and an
    operation that reads the clock takes the reading as an argument.

    The bucket is read twice: once as the state transformer a single caller
    sees ([refill], [acquire]), and once as the interleaving of the atomic
    loads and compare-exchanges that several callers execute on one shared
    bucket ([step]).  The admission bound is proved for the interleaving, and
    a caller that runs alone is proved to compute [acquire]. *)

From S2P Require Import Prelude.
From stdpp Require Import relations.

Open Scope Z_scope.

Module TokenBucket.

Record TokenBucket : Type := mkTokenBucket {
  rate_per_sec : Z;
  burst : Z;
  tokens : Z;
  last_refill_micros : Z;
  epoch : Z;
}.

Inductive Acquire : Type :=
| Granted
| Throttled (deficit_micros : Z).

Definition MICROS_PER_SEC : Z := 1000000.

Definition new (rate_per_sec burst : Z) (now : Z) : TokenBucket :=
  mkTokenBucket rate_per_sec burst burst 0 now.

Definition with_carryover (rate_per_sec burst : Z) (prior : TokenBucket) (now : Z)
  : TokenBucket :=
  mkTokenBucket rate_per_sec burst (Z.min (tokens prior) burst) 0 now.

(** Stores into the two atomics. *)
Definition set_tokens (b : TokenBucket) (t : Z) : TokenBucket :=
  mkTokenBucket (rate_per_sec b) (burst b) t (last_refill_micros b) (epoch b).

Definition set_last (b : TokenBucket) (l : Z) : TokenBucket :=
  mkTokenBucket (rate_per_sec b) (burst b) (tokens b) l (epoch b).

(** [now.saturating_duration_since(epoch).as_micros()] as a [u64]. *)
Definition now_micros (b : TokenBucket) (now : Z) : Z :=
  to_u64_or_max (Z.max (now - epoch b) 0 / 1000).

(** The tokens accrued since [last]; the product is a [u128] in the code. *)
Definition accrued (b : TokenBucket) (last nm : Z) : Z :=
  to_u64_or_max ((nm - last) * rate_per_sec b / MICROS_PER_SEC).

Definition topped_up (b : TokenBucket) (current added : Z) : Z :=
  Z.min (sat_add_u64 current added) (burst b).

Definition deficit_for (b : TokenBucket) (n current : Z) : Z :=
  div_ceil (sat_mul_u64 (n - current) MICROS_PER_SEC) (Z.max (rate_per_sec b) 1).

Definition refill (b : TokenBucket) (nm : Z) : TokenBucket :=
  let last := last_refill_micros b in
  if nm <=? last then b
  else
    let added := accrued b last nm in
    if added =? 0 then b
    else set_tokens (set_last b nm) (topped_up b (tokens b) added).

Definition acquire (b : TokenBucket) (n : Z) (now : Z) : TokenBucket * Acquire :=
  if n =? 0 then (b, Granted)
  else
    let b1 := refill b (now_micros b now) in
    let current := tokens b1 in
    if n <=? current then (set_tokens b1 (current - n), Granted)
    else (b1, Throttled (deficit_for b1 n current)).

(** The parameters [portunus_core::rate_limit::validate] lets through, and the
    pool within its ceiling. *)
Definition wf (b : TokenBucket) : Prop :=
  1 <= rate_per_sec b <= u64_max /\ 1 <= burst b <= u64_max /\
  0 <= tokens b <= burst b /\ 0 <= last_refill_micros b <= u64_max.

(** A caller that retries the same request at the given instants. *)
Fixpoint attempts (b : TokenBucket) (n : Z) (nows : list Z) : list Acquire :=
  match nows with
  | [] => []
  | now :: nows => let (b', r) := acquire b n now in r :: attempts b' n nows
  end.

(** ** Interleaving

    The program counter of one caller inside [acquire(n)].  [RLoad] is about
    to load [last_refill_micros], [RCas] to compare-exchange it, [TLoad] and
    [TCas] add the tokens it won, [ALoad] and [ACas] are the debit loop. *)
Inductive Caller : Type :=
| Idle
| Entered (n : Z)
| RLoad (n nm : Z)
| RCas (n nm last added : Z)
| TLoad (n added : Z)
| TCas (n added current : Z)
| ALoad (n : Z)
| ACas (n current : Z)
| Returned (n : Z) (r : Acquire).

Record Shared : Type := mkShared {
  bucket : TokenBucket;
  clock : Z;
  granted : Z;
}.

Definition with_tokens (s : Shared) (t : Z) : Shared :=
  mkShared (set_tokens (bucket s) t) (clock s) (granted s).

(** One atomic action of one caller.  [compare_exchange_weak] may fail
    spuriously, so its failure branch has no side condition; the failed
    exchange returns the value it observed. *)
Inductive act : Caller -> Shared -> Caller -> Shared -> Prop :=
| act_call s n : in_u64 n -> act Idle s (Entered n) s
| act_recall s m r n : in_u64 n -> act (Returned m r) s (Entered n) s
| act_zero s : act (Entered 0) s (Returned 0 Granted) s
| act_clock s n : n <> 0 ->
    act (Entered n) s (RLoad n (now_micros (bucket s) (clock s))) s
| act_no_time s n nm : nm <= last_refill_micros (bucket s) ->
    act (RLoad n nm) s (ALoad n) s
| act_fraction s n nm : last_refill_micros (bucket s) < nm ->
    accrued (bucket s) (last_refill_micros (bucket s)) nm = 0 ->
    act (RLoad n nm) s (ALoad n) s
| act_rload s n nm : last_refill_micros (bucket s) < nm ->
    accrued (bucket s) (last_refill_micros (bucket s)) nm <> 0 ->
    act (RLoad n nm) s
      (RCas n nm (last_refill_micros (bucket s))
         (accrued (bucket s) (last_refill_micros (bucket s)) nm)) s
| act_rcas_ok s n nm last added : last_refill_micros (bucket s) = last ->
    act (RCas n nm last added) s (TLoad n added)
      (mkShared (set_last (bucket s) nm) (clock s) (granted s))
| act_rcas_lost s n nm last added : last_refill_micros (bucket s) <> last ->
    act (RCas n nm last added) s (ALoad n) s
| act_tload s n added : act (TLoad n added) s (TCas n added (tokens (bucket s))) s
| act_tfull s n added current : topped_up (bucket s) current added = current ->
    act (TCas n added current) s (ALoad n) s
| act_tcas_ok s n added current : topped_up (bucket s) current added <> current ->
    tokens (bucket s) = current ->
    act (TCas n added current) s (ALoad n)
      (with_tokens s (topped_up (bucket s) current added))
| act_tcas_lost s n added current : topped_up (bucket s) current added <> current ->
    act (TCas n added current) s (TCas n added (tokens (bucket s))) s
| act_aload s n : n <= tokens (bucket s) ->
    act (ALoad n) s (ACas n (tokens (bucket s))) s
| act_starved s n : tokens (bucket s) < n ->
    act (ALoad n) s
      (Returned n (Throttled (deficit_for (bucket s) n (tokens (bucket s))))) s
| act_acas_ok s n current : tokens (bucket s) = current ->
    act (ACas n current) s (Returned n Granted)
      (mkShared (set_tokens (bucket s) (current - n)) (clock s) (granted s + n))
| act_acas_lost s n current : act (ACas n current) s (ALoad n) s.

(** The system: any number of callers, and a clock that does not go back. *)
Definition System : Type := list Caller * Shared.

Inductive step : System -> System -> Prop :=
| step_act cs s i c c' s' : cs !! i = Some c -> act c s c' s' ->
    step (cs, s) (<[i := c']> cs, s')
| step_tick cs s t : clock s <= t ->
    step (cs, s) (cs, mkShared (bucket s) t (granted s)).

(** Tokens a caller has won from [last_refill_micros] and not yet added. *)
Definition in_flight (c : Caller) : Z :=
  match c with TLoad _ added | TCas _ added _ => added | _ => 0 end.

Definition caller_ok (s : Shared) (c : Caller) : Prop :=
  match c with
  | Idle | Returned _ _ => True
  | Entered n => in_u64 n
  | ALoad n => 0 < n
  | RLoad n nm => 0 < n /\ nm <= now_micros (bucket s) (clock s)
  | RCas n nm last added => 0 < n /\ 0 <= last < nm /\ 0 < added /\
      nm <= now_micros (bucket s) (clock s) /\
      MICROS_PER_SEC * added <= rate_per_sec (bucket s) * (nm - last)
  | TLoad n added => 0 < n /\ 0 < added
  | TCas n added _ => 0 < n /\ 0 < added
  | ACas n current => 0 < n <= current
  end.

(** The accounting invariant: what was granted, what is in the pool and what
    is in flight never exceed the first fill plus what the rate accrued. *)
Definition inv (sys : System) : Prop :=
  let (cs, s) := sys in
  let b := bucket s in
  wf b /\ 0 <= granted s /\
  last_refill_micros b <= now_micros b (clock s) /\
  Forall (caller_ok s) cs /\
  MICROS_PER_SEC * (granted s + tokens b + sum_of in_flight cs) <=
    MICROS_PER_SEC * burst b + rate_per_sec b * last_refill_micros b.

Definition initial (rate burst now : Z) (callers : nat) : System :=
  (replicate callers Idle, mkShared (new rate burst now) now 0).

(** ** Arithmetic of the refill *)

Lemma now_micros_bound b now : 0 <= now_micros b now <= u64_max.
Proof.
  unfold now_micros, to_u64_or_max. pose proof (Z.div_pos (Z.max (now - epoch b) 0) 1000).
  unfold_ints. lia.
Qed.

Lemma now_micros_epoch b b' now :
  epoch b = epoch b' -> now_micros b now = now_micros b' now.
Proof. unfold now_micros. by intros ->. Qed.

Lemma now_micros_mono b now now' : now <= now' -> now_micros b now <= now_micros b now'.
Proof.
  intros. unfold now_micros, to_u64_or_max.
  pose proof (div_le_mono_pos (Z.max (now - epoch b) 0) (Z.max (now' - epoch b) 0) 1000).
  lia.
Qed.

Lemma accrued_le b last nm :
  0 <= rate_per_sec b -> last <= nm ->
  0 <= accrued b last nm /\
  MICROS_PER_SEC * accrued b last nm <= rate_per_sec b * (nm - last).
Proof.
  intros Hr Hl. unfold accrued, to_u64_or_max, MICROS_PER_SEC.
  assert (0 <= (nm - last) * rate_per_sec b) by nia.
  pose proof (Z.mul_div_le ((nm - last) * rate_per_sec b) 1000000).
  pose proof (Z.div_pos ((nm - last) * rate_per_sec b) 1000000).
  unfold_ints. lia.
Qed.

Lemma topped_up_bounds b current added :
  wf b -> 0 <= current -> 0 <= added ->
  0 <= topped_up b current added <= burst b /\ topped_up b current added <= current + added.
Proof. unfold wf, topped_up, sat_add_u64. unfold_ints. lia. Qed.

#[export] Hint Resolve now_micros_bound : portunus.

Lemma refill_frame b nm :
  rate_per_sec (refill b nm) = rate_per_sec b /\ burst (refill b nm) = burst b /\
  epoch (refill b nm) = epoch b /\
  last_refill_micros (refill b nm) <= Z.max (last_refill_micros b) nm.
Proof. unfold refill. repeat case_test; bool_prop; simpl; lia. Qed.

Lemma refill_wf b nm : wf b -> 0 <= nm <= u64_max -> wf (refill b nm).
Proof.
  intros Hb Hnm. unfold refill. repeat case_test; bool_prop; [done..|].
  pose proof (accrued_le b (last_refill_micros b) nm).
  pose proof (topped_up_bounds b (tokens b) (accrued b (last_refill_micros b) nm) Hb).
  unfold wf in *. simpl. lia.
Qed.

Lemma acquire_wf b n now : wf b -> 0 <= n -> wf (acquire b n now).1.
Proof.
  intros Hb Hn. unfold acquire. case_test; [done|].
  pose proof (refill_wf b _ Hb (now_micros_bound b now)) as Hr.
  case_test; bool_prop; simpl; [|done]. unfold wf in *. simpl. lia.
Qed.

Lemma acquire_above_burst b n now :
  wf b -> burst b < n ->
  acquire b n now =
    (refill b (now_micros b now),
     Throttled (deficit_for (refill b (now_micros b now)) n
                  (tokens (refill b (now_micros b now))))).
Proof.
  intros Hw Hn. pose proof (refill_wf b _ Hw (now_micros_bound b now)).
  pose proof (refill_frame b (now_micros b now)). unfold acquire, wf in *. by eval_if.
Qed.

(** ** The interleaved invariant *)

Lemma caller_ok_stable s s' c :
  rate_per_sec (bucket s') = rate_per_sec (bucket s) ->
  epoch (bucket s') = epoch (bucket s) -> clock s <= clock s' ->
  caller_ok s c -> caller_ok s' c.
Proof.
  intros Hr He Hc. assert (now_micros (bucket s) (clock s) <= now_micros (bucket s') (clock s')).
  { unfold now_micros at 2. rewrite He. by apply now_micros_mono. }
  destruct c; simpl; rewrite ?Hr; solve [done | lia].
Qed.

Lemma act_frame c s c' s' :
  act c s c' s' ->
  rate_per_sec (bucket s') = rate_per_sec (bucket s) /\
  burst (bucket s') = burst (bucket s) /\
  epoch (bucket s') = epoch (bucket s) /\ clock s' = clock s.
Proof. by destruct 1. Qed.

(** What one action does to the accounting, and the acting caller's own
    obligations. *)
Lemma act_local c s c' s' :
  act c s c' s' -> wf (bucket s) -> 0 <= granted s -> caller_ok s c ->
  last_refill_micros (bucket s) <= now_micros (bucket s) (clock s) ->
  wf (bucket s') /\ 0 <= granted s' /\ caller_ok s' c' /\
  last_refill_micros (bucket s') <= now_micros (bucket s') (clock s') /\
  MICROS_PER_SEC * (granted s' + tokens (bucket s') + in_flight c') -
    rate_per_sec (bucket s) * last_refill_micros (bucket s') <=
  MICROS_PER_SEC * (granted s + tokens (bucket s) + in_flight c) -
    rate_per_sec (bucket s) * last_refill_micros (bucket s).
Proof.
  intros Ha Hw Hg Hc Hl.
  pose proof (now_micros_bound (bucket s) (clock s)) as Hn.
  destruct Ha; simpl in *;
    try (pose proof (topped_up_bounds (bucket s) current added Hw));
    try (pose proof (accrued_le (bucket s) (last_refill_micros (bucket s)) nm));
    unfold wf, MICROS_PER_SEC in *; simpl in *;
    try change (now_micros (set_last (bucket s) nm) (clock s))
      with (now_micros (bucket s) (clock s)); unfold_ints; split_and?; solve [done | nia].
Qed.

Lemma step_inv sys sys' : step sys sys' -> inv sys -> inv sys'.
Proof.
  intros [cs s i c c' s' Hi Ha|cs s t Ht] (Hw & Hg & Hl & Hcs & Hacc).
  - destruct (act_frame _ _ _ _ Ha) as (Hr & Hb & He & Hk).
    destruct (act_local _ _ _ _ Ha Hw Hg (Forall_lookup_1 _ _ _ _ Hcs Hi) Hl)
      as (Hw' & Hg' & Hc' & Hl' & Hacc').
    split_and!; auto.
    + apply Forall_insert; [|done].
      eapply Forall_impl; [done|]. intros x. by apply caller_ok_stable; rewrite ?Hk.
    + rewrite (sum_of_insert _ _ _ _ _ Hi), Hr, Hb. unfold MICROS_PER_SEC in *. lia.
  - pose proof (now_micros_mono (bucket s) _ _ Ht).
    split_and!; simpl; auto; [lia|].
    eapply Forall_impl; [done|]. intros x. by apply caller_ok_stable.
Qed.

Lemma initial_inv rate bst now k :
  1 <= rate <= u64_max -> 1 <= bst <= u64_max -> inv (initial rate bst now k).
Proof.
  intros Hr Hb. unfold inv, initial, new, wf; simpl.
  rewrite sum_of_replicate by done. pose proof (now_micros_bound (new rate bst now) now).
  unfold new in *. split_and!; try lia; try (unfold_ints; lia).
  by apply Forall_replicate.
Qed.

Lemma steps_inv sys sys' : rtc step sys sys' -> inv sys -> inv sys'.
Proof. apply rtc_preserves, step_inv. Qed.

Lemma steps_frame sys sys' :
  rtc step sys sys' ->
  rate_per_sec (bucket sys'.2) = rate_per_sec (bucket sys.2) /\
  burst (bucket sys'.2) = burst (bucket sys.2) /\
  epoch (bucket sys'.2) = epoch (bucket sys.2).
Proof.
  induction 1 as [|x y z Hs _ IH]; [done|]. destruct IH as (-> & -> & ->).
  destruct Hs as [? ? ? ? ? ? _ Ha|]; [|done]. apply act_frame in Ha. naive_solver.
Qed.

(** ** Theorems *)

(** C1. Rate limiting is sound under concurrency: however any number of
    callers interleave their atomic loads and compare-exchanges on one shared
    bucket (lost races and spurious failures included), the tokens granted by
    time [t] never exceed the initial burst plus what the configured rate
    yields in the elapsed time, and the pool stays within [0, burst]. *)
Theorem bucket_admission_bound rate bst now k cs s :
  1 <= rate <= u64_max -> 1 <= bst <= u64_max ->
  rtc step (initial rate bst now k) (cs, s) ->
  MICROS_PER_SEC * granted s <=
    MICROS_PER_SEC * bst + rate * now_micros (bucket s) (clock s) /\
  0 <= tokens (bucket s) <= bst.
Proof.
  intros Hr Hb Hs. pose proof (steps_frame _ _ Hs) as (Hfr & Hfb & _). simpl in *.
  pose proof (steps_inv _ _ Hs (initial_inv _ _ _ _ Hr Hb)) as (Hw & Hg & Hl & Hcs & Hacc).
  assert (0 <= sum_of in_flight cs) as Hp.
  { clear -Hcs. induction Hcs as [|c cs Hc _ IH]; simpl; [lia|].
    destruct c; simpl in *; lia. }
  unfold wf, MICROS_PER_SEC in *. rewrite Hfr, Hfb in *. nia.
Qed.

(** Two callers race on one bucket of rate 2 and burst 3; the second wins the
    debit. *)
Lemma bucket_admission_bound_witness :
  exists cs s, rtc step (initial 2 3 0 2) (cs, s) /\ granted s = 3 /\
    MICROS_PER_SEC * granted s <=
      MICROS_PER_SEC * 3 + 2 * now_micros (bucket s) (clock s) /\
    0 <= tokens (bucket s) <= 3.
Proof.
  assert (rtc step (initial 2 3 0 2)
    ([Idle; Returned 3 Granted], mkShared (set_tokens (new 2 3 0) 0) 0 3)) as Hs.
  { eapply rtc_l; [apply (step_act _ _ 1%nat Idle); [done|apply (act_call _ 3)];
      unfold_ints; lia|].
    eapply rtc_l; [eapply (step_act _ _ 1%nat); [done|by apply act_clock]|].
    eapply rtc_l; [eapply (step_act _ _ 1%nat); [done|by apply act_no_time]|].
    eapply rtc_l; [eapply (step_act _ _ 1%nat); [done|by apply act_aload]|].
    eapply rtc_l; [eapply (step_act _ _ 1%nat); [done|by apply act_acas_ok]|].
    apply rtc_refl. }
  do 2 eexists. split; [exact Hs|]. split; [done|].
  apply (bucket_admission_bound 2 3 0 2 _ _) in Hs; [exact Hs| |]; unfold_ints; lia.
Defined.

(** The debit loop, refill included, for a caller that no other one disturbs:
    it returns what [acquire] returns and leaves the bucket [acquire] leaves. *)
Lemma run_refill s n nm :
  0 <= tokens (bucket s) <= burst (bucket s) ->
  rtc step ([RLoad n nm], s)
    ([ALoad n], mkShared (refill (bucket s) nm) (clock s) (granted s)).
Proof.
  intros Ht. destruct s as [b k g]; simpl in *. unfold refill.
  pose proof (fun c c' s s' => step_act [c] s 0%nat c c' s' eq_refl) as Hstep. simpl in Hstep.
  repeat case_test; bool_prop.
  - apply rtc_once, Hstep, act_no_time. done.
  - apply rtc_once, Hstep, act_fraction; simpl; done.
  - eapply rtc_l; [apply Hstep, act_rload; simpl; done|].
    eapply rtc_l; [apply Hstep, act_rcas_ok; done|].
    eapply rtc_l; [apply Hstep, act_tload|]. simpl.
    destruct (decide (topped_up b (tokens b) (accrued b (last_refill_micros b) nm) = tokens b))
      as [He|Hne].
    + rewrite He. apply rtc_once, Hstep. by apply (act_tfull (mkShared (set_last b nm) k g)).
    + apply rtc_once, Hstep. by apply (act_tcas_ok (mkShared (set_last b nm) k g)).
Qed.

(** The sequential [acquire] is what the interleaved program computes when
    a caller runs alone: from the call to the return, the caller's own atomic
    actions lead to exactly [acquire]'s result and bucket, and the granted
    total grows by [n] exactly when the answer is [Granted]. *)
Theorem bucket_acquire_refines s n :
  0 <= tokens (bucket s) <= burst (bucket s) -> in_u64 n ->
  let (b', r) := acquire (bucket s) n (clock s) in
  rtc step ([Idle], s)
    ([Returned n r], mkShared b' (clock s)
       (granted s + match r with Granted => n | Throttled _ => 0 end)).
Proof.
  intros Ht Hn. destruct s as [b k g]; simpl in *. unfold acquire.
  pose proof (fun c c' s s' => step_act [c] s 0%nat c c' s' eq_refl) as Hstep. simpl in Hstep.
  destruct (n =? 0) eqn:E0; bool_prop.
  - subst. eapply rtc_l; [by apply Hstep, act_call|]. rewrite Z.add_0_r.
    apply rtc_once, Hstep, act_zero.
  - set (b1 := refill b (now_micros b k)).
    destruct (n <=? tokens b1) eqn:E1; bool_prop;
      (eapply rtc_l; [by apply Hstep, act_call|]);
      (eapply rtc_l; [by apply Hstep, act_clock|]);
      (etransitivity; [by apply run_refill|]); simpl; fold b1.
    + eapply rtc_l; [by apply Hstep, act_aload|].
      by apply rtc_once, Hstep, (act_acas_ok (mkShared b1 k g)).
    + rewrite Z.add_0_r. by apply rtc_once, Hstep, (act_starved (mkShared b1 k g)).
Qed.

Lemma bucket_acquire_refines_witness :
  rtc step ([Idle], mkShared (new 2 3 0) 1000 0)
    ([Returned 2 Granted], mkShared (set_tokens (new 2 3 0) 1) 1000 2).
Proof.
  apply (bucket_acquire_refines (mkShared (new 2 3 0) 1000 0) 2); unfold_ints; simpl; lia.
Defined.

Lemma accrued_ge b last nm k :
  0 <= k <= u64_max -> MICROS_PER_SEC * k <= (nm - last) * rate_per_sec b ->
  k <= accrued b last nm.
Proof.
  intros Hk Hm. unfold accrued, to_u64_or_max, MICROS_PER_SEC in *.
  enough (k <= (nm - last) * rate_per_sec b / 1000000) by lia.
  apply Z.div_le_lower_bound; lia.
Qed.

Lemma refill_reaches b nm n :
  wf b -> 0 < n <= burst b -> tokens b < n -> last_refill_micros b < nm ->
  MICROS_PER_SEC * (n - tokens b) <= (nm - last_refill_micros b) * rate_per_sec b ->
  n <= tokens (refill b nm).
Proof.
  intros Hw Hn Ht Hl Hm.
  pose proof (accrued_ge b (last_refill_micros b) nm (n - tokens b)) as Ha.
  unfold wf, refill in *. eval_if. unfold set_tokens, topped_up, sat_add_u64 in *. simpl.
  unfold_ints. lia.
Qed.

Lemma deficit_covers b n current :
  1 <= rate_per_sec b -> current < n -> (n - current) * MICROS_PER_SEC <= u64_max ->
  1 <= deficit_for b n current /\
  MICROS_PER_SEC * (n - current) <= deficit_for b n current * rate_per_sec b.
Proof.
  intros Hr Hc Hm. unfold deficit_for, sat_mul_u64. rewrite Z.max_l, Z.min_l by lia.
  pose proof (div_ceil_mul_le ((n - current) * MICROS_PER_SEC) (rate_per_sec b)).
  unfold MICROS_PER_SEC in *. nia.
Qed.

Lemma now_micros_after b now now' d :
  0 <= d -> now + 1000 * d <= now' -> epoch b <= now -> (now' - epoch b) / 1000 <= u64_max ->
  now_micros b now + d <= now_micros b now'.
Proof.
  intros. unfold now_micros, to_u64_or_max. rewrite !Z.max_l by lia.
  assert ((now - epoch b) / 1000 + d <= (now' - epoch b) / 1000).
  { rewrite <- Z.div_add by lia. apply Z.div_le_mono; lia. }
  lia.
Qed.

Lemma deficit_suffices b n now b' d now' :
  wf b -> epoch b <= now -> last_refill_micros b <= now_micros b now ->
  0 < n <= burst b -> n * MICROS_PER_SEC <= u64_max ->
  acquire b n now = (b', Throttled d) ->
  now + 1000 * d <= now' -> (now' - epoch b) / 1000 <= u64_max ->
  (acquire b' n now').2 = Granted.
Proof.
  intros Hw He Hl Hn Hm Ha Hs Ho. unfold acquire in Ha.
  pose proof (refill_wf b _ Hw (now_micros_bound b now)) as Hw1.
  pose proof (refill_frame b (now_micros b now)) as (Fr & Fb & Fe & Fl).
  assert (n =? 0 = false) as En by lia. rewrite En in Ha.
  set (b1 := refill b (now_micros b now)) in *. case_test_in Ha; [done|]. injection Ha as <- <-. bool_prop.
  destruct (deficit_covers b1 n (tokens b1)) as [Hd1 Hd2];
    [unfold wf in *; lia|done|unfold wf, MICROS_PER_SEC in *; lia|].
  pose proof (now_micros_after b1 now now' (deficit_for b1 n (tokens b1))) as Hnow.
  rewrite (now_micros_epoch b1 b now Fe), Fe in Hnow.
  unfold acquire. replace (n =? 0) with false by lia.
  enough (n <= tokens (refill b1 (now_micros b1 now'))) by (case_test; [done|bool_prop; lia]).
  apply refill_reaches; [done|lia|lia|lia|]. unfold wf in *. nia.
Qed.



(** A request larger than the burst is refused whenever it is made: no
    amount of waiting lets it through, although the answer always reports a
    finite time after which to retry. *)
Theorem bucket_above_burst_starves b n nows :
  wf b -> burst b < n ->
  Forall (fun r => exists d, r = Throttled d) (attempts b n nows).
Proof.
  revert b. induction nows as [|now nows IH]; intros b Hw Hn; [constructor|]. simpl.
  rewrite acquire_above_burst by done. constructor; [eauto|].
  pose proof (refill_frame b (now_micros b now)) as (_ & Fb & _).
  apply IH; [by apply refill_wf, now_micros_bound|lia].
Qed.

Lemma bucket_above_burst_starves_witness :
  Forall (fun r => exists d, r = Throttled d)
    (attempts (new 1024 1024 0) 8192 [1000; 7168000000; 3600000000000]).
Proof.
  apply (bucket_above_burst_starves (new 1024 1024 0) 8192 [1000; 7168000000; 3600000000000]);
    unfold wf; simpl; unfold_ints; lia.
Defined.

End TokenBucket.
