(* ===== verification/RateScope.v ===== *)
(** * Rate-limit scopes

    [crates/portunus-forwarder/src/forwarder/rate_limit/scope.rs]: the
    per-rule and per-owner limiters, the layered admission gate, the UDP
    shaper, and the two registries with their hot-reload path.

    Limiters are shared through [Arc]s: a rule's connections, its handle and
    the registry point at one limiter, and a limiter built by hot-reload shares
    the live-count gauge of its predecessor.  The model keeps that sharing: a
    [World] is a heap of limiters and of gauges, and everything else holds
    references into it.  An operation is [None] when it follows a reference
    that is not in the heap, which the invariant [wf_world] excludes. *)

From S2P Require Import Prelude RateLimit TokenBucket.
From stdpp Require Import relations.
Import RateLimit.RateLimit TokenBucket.TokenBucket.

Open Scope Z_scope.

Module RateScope.

Inductive BandwidthDirection : Type := In | Out.

Inductive CapScope : Type := Rule | Owner.

Record RuleRateLimiter : Type := mkLimiter {
  bandwidth_in : option TokenBucket;
  bandwidth_out : option TokenBucket;
  new_connections : option TokenBucket;
  concurrent_max : option Z;
  active_connections : nat; (* the gauge, by reference *)
}.

(** [ActiveGuard]: the limiter it was admitted by, by reference. *)
Record ActiveGuard : Type := mkGuard { guard_limiter : nat }.

Inductive ConnectionAcquire : Type :=
| ConnGranted (g : ActiveGuard)
| Rejected (r : RejectReason).

Inductive BandwidthAcquire : Type :=
| BwGranted
| BwThrottled (deficit_micros : Z).

(** [OwnerId]: the RBAC owner string. *)
Definition OwnerId : Type := list Z.

Record World : Type := mkWorld {
  gauges : gmap nat Z;
  limiters : gmap nat RuleRateLimiter;
  rules : gmap Z nat;
  owners : gmap OwnerId nat;
  next_ref : nat;
}.

Definition empty_world : World := mkWorld ∅ ∅ ∅ ∅ 0.

Definition set_gauges (w : World) (g : gmap nat Z) : World :=
  mkWorld g (limiters w) (rules w) (owners w) (next_ref w).

Definition store_limiter (w : World) (lid : nat) (l : RuleRateLimiter) : World :=
  mkWorld (gauges w) (<[lid := l]> (limiters w)) (rules w) (owners w) (next_ref w).

Definition set_rules (w : World) (m : gmap Z nat) : World :=
  mkWorld (gauges w) (limiters w) m (owners w) (next_ref w).

Definition set_owners (w : World) (m : gmap OwnerId nat) : World :=
  mkWorld (gauges w) (limiters w) (rules w) m (next_ref w).

(** [Arc::new(AtomicU64::new(0))] and [Arc::new(limiter)]. *)
Definition alloc_gauge (w : World) : nat * World :=
  (next_ref w,
   mkWorld (<[next_ref w := 0]> (gauges w)) (limiters w) (rules w) (owners w)
     (S (next_ref w))).

Definition alloc_limiter (w : World) (l : RuleRateLimiter) : nat * World :=
  (next_ref w,
   mkWorld (gauges w) (<[next_ref w := l]> (limiters w)) (rules w) (owners w)
     (S (next_ref w))).

(** [AtomicU64::fetch_add], which wraps; [fetch_sub(1)] is [fetch_add] of -1. *)
Definition fetch_add (w : World) (g : nat) (d : Z) : option (Z * World) :=
  match gauges w !! g with
  | Some v => Some (v, set_gauges w (<[g := wrap_u64 (v + d)]> (gauges w)))
  | None => None
  end.

(** The bucket of one cap of an envelope: [effective_burst_*().unwrap_or(rate)]
    sizes it. *)
Definition sized_burst (effective_burst : option Z -> option Z -> option Z)
  (burst : option Z) (rate : Z) : Z :=
  match effective_burst (Some rate) burst with Some b => b | None => rate end.

Definition fresh_bucket (effective_burst : option Z -> option Z -> option Z) (rate burst : option Z)
  (now : Z) : option TokenBucket :=
  match rate with
  | Some rate => Some (TokenBucket.new rate (sized_burst effective_burst burst rate) now)
  | None => None
  end.

(** [RuleRateLimiter::from_envelope], the gauge allocated by the caller. *)
Definition from_envelope (rl : RateLimit) (gauge : nat) (now : Z) : RuleRateLimiter :=
  mkLimiter
    (fresh_bucket effective_burst_u64 (bandwidth_in_bps rl) (bandwidth_in_burst rl) now)
    (fresh_bucket effective_burst_u64 (bandwidth_out_bps rl) (bandwidth_out_burst rl) now)
    (fresh_bucket effective_burst_u32 (new_connections_per_sec rl) (new_connections_burst rl) now)
    (concurrent_connections rl) gauge.

Definition carried_bucket (effective_burst : option Z -> option Z -> option Z)
  (prior : option TokenBucket) (rate burst : option Z) (now : Z)
  : option TokenBucket :=
  match rate with
  | Some rate =>
    match prior with
    | Some p => Some (TokenBucket.with_carryover rate (sized_burst effective_burst burst rate) p now)
    | None => Some (TokenBucket.new rate (sized_burst effective_burst burst rate) now)
    end
  | None => None
  end.

(** [RuleRateLimiter::with_carryover]: the gauge is the prior one's. *)
Definition with_carryover (prior : RuleRateLimiter) (next : RateLimit) (now : Z)
  : RuleRateLimiter :=
  mkLimiter
    (carried_bucket effective_burst_u64 (bandwidth_in prior) (bandwidth_in_bps next)
       (bandwidth_in_burst next) now)
    (carried_bucket effective_burst_u64 (bandwidth_out prior) (bandwidth_out_bps next)
       (bandwidth_out_burst next) now)
    (carried_bucket effective_burst_u32 (new_connections prior) (new_connections_per_sec next)
       (new_connections_burst next) now)
    (concurrent_connections next) (active_connections prior).

Definition is_no_op (l : RuleRateLimiter) : bool :=
  negb (bool_decide (is_Some (bandwidth_in l))) &&
  negb (bool_decide (is_Some (bandwidth_out l))) &&
  negb (bool_decide (is_Some (new_connections l))) &&
  negb (bool_decide (is_Some (concurrent_max l))).

Definition has_bandwidth_cap (l : RuleRateLimiter) : bool :=
  bool_decide (is_Some (bandwidth_in l)) || bool_decide (is_Some (bandwidth_out l)).

Definition bandwidth (l : RuleRateLimiter) (d : BandwidthDirection) : option TokenBucket :=
  match d with In => bandwidth_in l | Out => bandwidth_out l end.

Definition set_bandwidth (l : RuleRateLimiter) (d : BandwidthDirection) (b : TokenBucket)
  : RuleRateLimiter :=
  match d with
  | In => mkLimiter (Some b) (bandwidth_out l) (new_connections l) (concurrent_max l)
            (active_connections l)
  | Out => mkLimiter (bandwidth_in l) (Some b) (new_connections l) (concurrent_max l)
             (active_connections l)
  end.

Definition set_new_connections (l : RuleRateLimiter) (b : TokenBucket) : RuleRateLimiter :=
  mkLimiter (bandwidth_in l) (bandwidth_out l) (Some b) (concurrent_max l)
    (active_connections l).

Definition bandwidth_rate_per_sec (l : RuleRateLimiter) (d : BandwidthDirection) : option Z :=
  match bandwidth l d with Some b => Some (rate_per_sec b) | None => None end.

Definition rate_reject_reason (scope : CapScope) (is_udp_first_packet : bool) : RejectReason :=
  match scope, is_udp_first_packet with
  | Rule, false => ConnRate
  | Rule, true => UdpFlowRate
  | Owner, false => OwnerConnRate
  | Owner, true => OwnerUdpFlowRate
  end.

Definition concurrent_reject_reason (scope : CapScope) : RejectReason :=
  match scope with Rule => ConnConcurrent | Owner => OwnerConcurrent end.

(** The connection-rate token of an admission: the limiter after the debit,
    and whether the bucket was starved. *)
Definition take_connection_token (l : RuleRateLimiter) (now : Z) : RuleRateLimiter * bool :=
  match new_connections l with
  | Some b =>
    let (b', r) := acquire b 1 now in
    (set_new_connections l b', match r with Throttled _ => true | Granted => false end)
  | None => (l, false)
  end.

(** [RuleRateLimiter::try_acquire]. *)
Definition try_acquire (w : World) (lid : nat) (scope : CapScope) (is_udp_first_packet : bool)
  (now : Z) : option (World * ConnectionAcquire) :=
  match limiters w !! lid with
  | None => None
  | Some l =>
    let (l', starved) := take_connection_token l now in
    let w := store_limiter w lid l' in
    if starved then Some (w, Rejected (rate_reject_reason scope is_udp_first_packet))
    else
      match concurrent_max l with
      | Some max =>
        match fetch_add w (active_connections l) 1 with
        | None => None
        | Some (prev, w) =>
          if max <=? prev then
            match fetch_add w (active_connections l) (-1) with
            | None => None
            | Some (_, w) => Some (w, Rejected (concurrent_reject_reason scope))
            end
          else Some (w, ConnGranted (mkGuard lid))
        end
      | None =>
        match fetch_add w (active_connections l) 1 with
        | None => None
        | Some (_, w) => Some (w, ConnGranted (mkGuard lid))
        end
      end
  end.

(** [Drop for ActiveGuard]. *)
Definition drop_guard (w : World) (g : ActiveGuard) : option World :=
  match limiters w !! guard_limiter g with
  | None => None
  | Some l =>
    match fetch_add w (active_connections l) (-1) with
    | None => None
    | Some (_, w) => Some w
    end
  end.

(** [RuleRateLimiter::acquire_bandwidth]. *)
Definition acquire_bandwidth (w : World) (lid : nat) (d : BandwidthDirection) (n now : Z)
  : option (World * BandwidthAcquire) :=
  match limiters w !! lid with
  | None => None
  | Some l =>
    match bandwidth l d with
    | Some b =>
      let (b', r) := acquire b n now in
      Some (store_limiter w lid (set_bandwidth l d b'),
            match r with Granted => BwGranted | Throttled t => BwThrottled t end)
    | None => Some (w, BwGranted)
    end
  end.

(** ** Registries and handles *)

Definition install (w : World) (rule_id : Z) (rl : option RateLimit) (now : Z) : World :=
  match rl with
  | Some envelope =>
    let (g, w) := alloc_gauge w in
    let (lid, w) := alloc_limiter w (from_envelope envelope g now) in
    set_rules w (<[rule_id := lid]> (rules w))
  | None => set_rules w (delete rule_id (rules w))
  end.

Definition update (w : World) (rule_id : Z) (rl : option RateLimit) (now : Z) : option World :=
  match rules w !! rule_id, rl with
  | Some prior, Some envelope =>
    match limiters w !! prior with
    | None => None
    | Some p =>
      let (lid, w) := alloc_limiter w (with_carryover p envelope now) in
      Some (set_rules w (<[rule_id := lid]> (rules w)))
    end
  | None, Some envelope =>
    let (g, w) := alloc_gauge w in
    let (lid, w) := alloc_limiter w (from_envelope envelope g now) in
    Some (set_rules w (<[rule_id := lid]> (rules w)))
  | _, None => Some (set_rules w (delete rule_id (rules w)))
  end.

Definition remove (w : World) (rule_id : Z) : World :=
  set_rules w (delete rule_id (rules w)).

Definition get (w : World) (rule_id : Z) : option nat := rules w !! rule_id.

Definition install_owner (w : World) (owner_id : OwnerId) (rl : option RateLimit) (now : Z)
  : World :=
  match rl with
  | Some envelope =>
    let (g, w) := alloc_gauge w in
    let (lid, w) := alloc_limiter w (from_envelope envelope g now) in
    set_owners w (<[owner_id := lid]> (owners w))
  | None => set_owners w (delete owner_id (owners w))
  end.

Definition update_owner (w : World) (owner_id : OwnerId) (rl : option RateLimit) (now : Z)
  : option World :=
  match owners w !! owner_id, rl with
  | Some prior, Some envelope =>
    match limiters w !! prior with
    | None => None
    | Some p =>
      let (lid, w) := alloc_limiter w (with_carryover p envelope now) in
      Some (set_owners w (<[owner_id := lid]> (owners w)))
    end
  | None, Some envelope =>
    let (g, w) := alloc_gauge w in
    let (lid, w) := alloc_limiter w (from_envelope envelope g now) in
    Some (set_owners w (<[owner_id := lid]> (owners w)))
  | _, None => Some (set_owners w (delete owner_id (owners w)))
  end.

Definition remove_owner (w : World) (owner_id : OwnerId) : World :=
  set_owners w (delete owner_id (owners w)).

Definition get_owner (w : World) (owner_id : OwnerId) : option nat := owners w !! owner_id.

(** [RuleRateLimitHandle::try_acquire] and [OwnerRateLimitHandle::try_acquire]:
    snapshot the registry, then ask that limiter. The inner [None] is the
    handle's own [None], no limiter installed. *)
Definition handle_try_acquire (w : World) (snapshot : option nat) (scope : CapScope)
  (is_udp_first_packet : bool) (now : Z) : option (World * option ConnectionAcquire) :=
  match snapshot with
  | None => Some (w, None)
  | Some lid =>
    match try_acquire w lid scope is_udp_first_packet now with
    | None => None
    | Some (w, r) => Some (w, Some r)
    end
  end.

Definition handle_active_connections (w : World) (snapshot : option nat) : option Z :=
  match snapshot with
  | None => Some 0
  | Some lid =>
    match limiters w !! lid with
    | None => None
    | Some l => gauges w !! active_connections l
    end
  end.

(** ** Layered admission *)

Inductive LayeredAcquire : Type :=
| LayeredGranted (owner_guard rule_guard : option ActiveGuard)
| OwnerRejected (r : RejectReason)
| RuleRejected (r : RejectReason).

(** Rust drops a local that goes out of scope. *)
Definition drop_opt (w : World) (g : option ActiveGuard) : option World :=
  match g with None => Some w | Some g => drop_guard w g end.

(** The owner gate of [try_acquire_layered]: the guard, or the rejection. *)
Definition owner_gate (w : World) (owner : option OwnerId) (udp : bool) (now : Z)
  : option (World * Result (option ActiveGuard) RejectReason) :=
  match owner with
  | None => Some (w, Ok None)
  | Some o =>
    match handle_try_acquire w (get_owner w o) Owner udp now with
    | None => None
    | Some (w, Some (ConnGranted g)) => Some (w, Ok (Some g))
    | Some (w, Some (Rejected r)) => Some (w, Err r)
    | Some (w, None) => Some (w, Ok None)
    end
  end.

Definition rule_gate (w : World) (rule : option Z) (udp : bool) (now : Z)
  : option (World * Result (option ActiveGuard) RejectReason) :=
  match rule with
  | None => Some (w, Ok None)
  | Some r =>
    match handle_try_acquire w (get w r) Rule udp now with
    | None => None
    | Some (w, Some (ConnGranted g)) => Some (w, Ok (Some g))
    | Some (w, Some (Rejected r)) => Some (w, Err r)
    | Some (w, None) => Some (w, Ok None)
    end
  end.

Definition try_acquire_layered (w : World) (owner : option OwnerId) (rule : option Z)
  (is_udp_first_packet : bool) (now_owner now_rule : Z) : option (World * LayeredAcquire) :=
  match owner_gate w owner is_udp_first_packet now_owner with
  | None => None
  | Some (w, Err reason) => Some (w, OwnerRejected reason)
  | Some (w, Ok owner_guard) =>
    match rule_gate w rule is_udp_first_packet now_rule with
    | None => None
    | Some (w, Err reason) =>
      match drop_opt w owner_guard with
      | None => None
      | Some w => Some (w, RuleRejected reason)
      end
    | Some (w, Ok rule_guard) => Some (w, LayeredGranted owner_guard rule_guard)
    end
  end.

(** ** The drop-based UDP shaper *)

Record UdpBandwidthShaper : Type := mkShaper {
  sh_owner : option nat;
  sh_rule : option nat;
  sh_direction : BandwidthDirection;
  sh_has_cap : bool;
}.

Definition caps_direction (w : World) (lid : option nat) (d : BandwidthDirection) : bool :=
  match lid ≫= (fun lid => limiters w !! lid) with
  | Some l => bool_decide (is_Some (bandwidth_rate_per_sec l d))
  | None => false
  end.

(** [UdpBandwidthShaper::new]. *)
Definition shaper_new (w : World) (owner rule : option nat) (d : BandwidthDirection)
  : UdpBandwidthShaper :=
  mkShaper owner rule d (caps_direction w owner d || caps_direction w rule d).

(** One layer of [UdpBandwidthShaper::admits]. *)
Definition layer_admits (w : World) (lid : option nat) (d : BandwidthDirection) (n now : Z)
  : option (World * bool) :=
  match lid with
  | None => Some (w, true)
  | Some lid =>
    match acquire_bandwidth w lid d n now with
    | None => None
    | Some (w, BwThrottled _) => Some (w, false)
    | Some (w, BwGranted) => Some (w, true)
    end
  end.

Definition admits (w : World) (sh : UdpBandwidthShaper) (n now_owner now_rule : Z)
  : option (World * bool) :=
  if negb (sh_has_cap sh) then Some (w, true)
  else
    match layer_admits w (sh_owner sh) (sh_direction sh) n now_owner with
    | None => None
    | Some (w, false) => Some (w, false)
    | Some (w, true) => layer_admits w (sh_rule sh) (sh_direction sh) n now_rule
    end.

(** ** Well-formed heaps *)

Definition wf_bucket (b : option TokenBucket) : Prop :=
  match b with Some b => TokenBucket.wf b | None => True end.

Record wf_limiter (gs : gmap nat Z) (l : RuleRateLimiter) : Prop := {
  wl_in : wf_bucket (bandwidth_in l);
  wl_out : wf_bucket (bandwidth_out l);
  wl_new : wf_bucket (new_connections l);
  wl_max : in_opt in_u32 (concurrent_max l);
  wl_gauge : is_Some (gs !! active_connections l);
}.

Record wf_world (w : World) : Prop := {
  ww_gauges : map_Forall (fun g v => in_u64 v /\ (g < next_ref w)%nat) (gauges w);
  ww_limiters : map_Forall (fun i l => wf_limiter (gauges w) l /\ (i < next_ref w)%nat)
                  (limiters w);
  ww_rules : map_Forall (fun _ i => is_Some (limiters w !! i)) (rules w);
  ww_owners : map_Forall (fun _ i => is_Some (limiters w !! i)) (owners w);
}.

Definition valid_envelope (rl : RateLimit) : Prop :=
  RateLimit.wf rl /\ validate rl = Ok tt.

(** Everything the data plane and the control plane do to the heap. *)
Inductive op : World -> World -> Prop :=
| op_install w r rl now : valid_envelope rl -> op w (install w r (Some rl) now)
| op_uninstall w r now : op w (install w r None now)
| op_update w w' r rl now : (forall e, rl = Some e -> valid_envelope e) ->
    update w r rl now = Some w' -> op w w'
| op_remove w r : op w (remove w r)
| op_install_owner w o rl now : valid_envelope rl -> op w (install_owner w o (Some rl) now)
| op_uninstall_owner w o now : op w (install_owner w o None now)
| op_update_owner w w' o rl now : (forall e, rl = Some e -> valid_envelope e) ->
    update_owner w o rl now = Some w' -> op w w'
| op_remove_owner w o : op w (remove_owner w o)
| op_try_acquire w w' i sc udp now r : try_acquire w i sc udp now = Some (w', r) -> op w w'
| op_drop w w' g : drop_guard w g = Some w' -> op w w'
| op_bandwidth w w' i d n now r : in_u64 n -> acquire_bandwidth w i d n now = Some (w', r) ->
    op w w'.

(** ** The concurrent ceiling, interleaved

    One gauge, shared by the successive limiters of a rule.  A connection
    bumps the gauge and remembers the ceiling of the limiter it snapshotted
    and the value it read; it compares; it is admitted or takes its bump back;
    a live connection closes.  Reloading changes the ceiling later snapshots
    see. *)
Inductive Conn : Type :=
| CIdle
| CBumped (max : option Z) (prev : Z)
| CLive.

Definition below (max : option Z) (prev : Z) : bool :=
  match max with Some m => negb (m <=? prev) | None => true end.

Inductive conn_act (max : option Z) : Conn -> Z -> Conn -> Z -> Prop :=
| conn_bump g : conn_act max CIdle g (CBumped max g) (wrap_u64 (g + 1))
| conn_admit g m prev : below m prev = true -> conn_act max (CBumped m prev) g CLive g
| conn_refuse g m prev : below m prev = false ->
    conn_act max (CBumped m prev) g CIdle (wrap_u64 (g - 1))
| conn_close g : conn_act max CLive g CIdle (wrap_u64 (g - 1)).

Definition Ceiling : Type := list Conn * Z * option Z.

Inductive ceiling_step : Ceiling -> Ceiling -> Prop :=
| ceiling_conn cs g m i c c' g' : cs !! i = Some c -> conn_act m c g c' g' ->
    ceiling_step (cs, g, m) (<[i := c']> cs, g', m)
| ceiling_reload cs g m m' : ceiling_step (cs, g, m) (cs, g, m').

Definition is_live (c : Conn) : Z := match c with CLive => 1 | _ => 0 end.
Definition counted (c : Conn) : Z := match c with CIdle => 0 | _ => 1 end.
Definition committed (c : Conn) : Z :=
  match c with
  | CIdle => 0
  | CBumped m prev => if below m prev then 1 else 0
  | CLive => 1
  end.

(** Every ceiling in use, or about to be, is at most [top]. *)
Definition ceiling_at_most (top : Z) (max : option Z) : Prop :=
  match max with Some m => m <= top | None => False end.

Definition conn_max_at_most (top : Z) (c : Conn) : Prop :=
  match c with CBumped m _ => ceiling_at_most top m | _ => True end.

(** ** Proof devices

    A wrapping shift of one gauge, and the effect of one admission gate. *)

Definition shift (d : Z) (g : nat) (gs : gmap nat Z) : gmap nat Z :=
  alter (fun v => wrap_u64 (v + d)) g gs.

Definition gauge_of (w : World) (gd : ActiveGuard) : option nat :=
  active_connections <$> limiters w !! guard_limiter gd.

(** What a gate did: references keep their gauges, and the gauges moved only
    if a guard came out, by one, on that guard's gauge. *)
Definition gate_effect (w w' : World) (r : Result (option ActiveGuard) RejectReason) : Prop :=
  wf_world w' /\ rules w' = rules w /\ owners w' = owners w /\
  (forall gd g, gauge_of w gd = Some g -> gauge_of w' gd = Some g) /\
  match r with
  | Ok (Some gd) => exists g, gauge_of w' gd = Some g /\ gauges w' = shift 1 g (gauges w)
  | _ => gauges w' = gauges w
  end.

Definition example_envelope : RateLimit :=
  mkRateLimit (Some 1000) None (Some 5) (Some 1) None None None.

(** The interleaved ceiling. *)
Definition ceiling_inv (top : Z) (s : Ceiling) : Prop :=
  let '(cs, g, m) := s in
  Z.of_nat (length cs) <= u64_max /\ g = sum_of counted cs /\
  sum_of committed cs <= Z.max top 0 /\ ceiling_at_most top m.

(** ** Lemmas *)

Lemma sized_bucket_wf rate burst now :
  in_opt in_u64 rate -> cap_ok rate -> burst_ok rate burst ->
  wf_bucket (fresh_bucket effective_burst_u64 rate burst now).
Proof.
  intros Hw Hc Hb. destruct rate as [r|]; [|done]. cbn.
  destruct (effective_burst_bounds (Some r) burst r (sized_burst effective_burst_u64 burst r))
    as (? & ? & ?); auto.
  cbn in Hw. unfold TokenBucket.wf. cbn in *. unfold_ints. lia.
Qed.

Lemma carried_bucket_wf prior rate burst now :
  wf_bucket prior -> wf_bucket (fresh_bucket effective_burst_u64 rate burst now) ->
  wf_bucket (carried_bucket effective_burst_u64 prior rate burst now).
Proof.
  intros Hp Hf. destruct rate as [r|]; [|done]. destruct prior as [p|]; [|done].
  unfold TokenBucket.wf in *. cbn in *. unfold TokenBucket.wf in *. cbn in *. lia.
Qed.

Lemma envelope_caps rl :
  valid_envelope rl ->
  wf_bucket (fresh_bucket effective_burst_u64 (bandwidth_in_bps rl) (bandwidth_in_burst rl) 0) /\
  wf_bucket (fresh_bucket effective_burst_u64 (bandwidth_out_bps rl) (bandwidth_out_burst rl) 0) /\
  wf_bucket (fresh_bucket effective_burst_u32 (new_connections_per_sec rl)
               (new_connections_burst rl) 0).
Proof.
  intros [[] Hv]. apply validate_ok_iff in Hv. destruct Hv as (? & ? & ? & ? & ? & ? & ?).
  split_and!; apply sized_bucket_wf; auto.
  destruct (new_connections_per_sec rl); cbn in *; unfold_ints; lia.
Qed.

Lemma fresh_bucket_now eff rate burst now now' :
  wf_bucket (fresh_bucket eff rate burst now) -> wf_bucket (fresh_bucket eff rate burst now').
Proof. by destruct rate. Qed.

Lemma from_envelope_wf gs rl g now :
  valid_envelope rl -> is_Some (gs !! g) -> wf_limiter gs (from_envelope rl g now).
Proof.
  intros Hv Hg. destruct (envelope_caps rl Hv) as (? & ? & ?). destruct Hv as [[] _].
  by split; cbn; eauto using fresh_bucket_now.
Qed.

Lemma with_carryover_wf gs p rl now :
  wf_limiter gs p -> valid_envelope rl -> wf_limiter gs (with_carryover p rl now).
Proof.
  intros [] Hv. destruct (envelope_caps rl Hv) as (? & ? & ?). destruct Hv as [[] _].
  by split; cbn; eauto using carried_bucket_wf, fresh_bucket_now.
Qed.

Lemma take_connection_token_frame l now :
  let (l', _) := take_connection_token l now in
  concurrent_max l' = concurrent_max l /\ active_connections l' = active_connections l.
Proof. unfold take_connection_token. destruct (new_connections l) as [b|]; [|done]. by destruct (acquire b 1 now). Qed.

Lemma take_connection_token_wf gs l now :
  wf_limiter gs l -> wf_limiter gs (take_connection_token l now).1.
Proof.
  intros Hl. unfold take_connection_token. destruct (new_connections l) as [b|] eqn:Eb; [|done].
  pose proof (acquire_wf b 1 now). destruct (acquire b 1 now) as [b' r].
  destruct Hl as [? ? Hn ? ?]. rewrite Eb in Hn. split; cbn in *; auto. apply H; [done|lia].
Qed.

Lemma set_bandwidth_wf gs l d b :
  wf_limiter gs l -> TokenBucket.wf b -> wf_limiter gs (set_bandwidth l d b).
Proof. intros [] Hb. by destruct d; split. Qed.

Lemma wf_limiter_gauges gs gs' l :
  (forall g, is_Some (gs !! g) -> is_Some (gs' !! g)) -> wf_limiter gs l -> wf_limiter gs' l.
Proof. intros H []. split; auto. Qed.

Lemma fetch_add_wf w g d : wf_world w -> forall v w', fetch_add w g d = Some (v, w') -> wf_world w'.
Proof.
  intros [] v w' H. unfold fetch_add in H. destruct (gauges w !! g) as [x|] eqn:E; simplify_eq.
  split; cbn; auto.
  - apply map_Forall_insert_2; [|done]. split; [apply wrap_u64_in|]. by destruct (ww_gauges0 _ _ E).
  - intros i l Hl. destruct (ww_limiters0 _ _ Hl) as [? ?]. split; [|done].
    eapply wf_limiter_gauges; [|done]. intros g' ?. by apply lookup_insert_is_Some'; right.
Qed.

Lemma store_limiter_wf w i l l' :
  wf_world w -> limiters w !! i = Some l -> wf_limiter (gauges w) l' ->
  wf_world (store_limiter w i l').
Proof.
  intros [] Hi Hl. split; cbn; auto.
  - apply map_Forall_insert_2; [|done]. split; [done|]. by destruct (ww_limiters0 _ _ Hi).
  - intros r j Hj. apply lookup_insert_is_Some'. right. by eapply ww_rules0.
  - intros r j Hj. apply lookup_insert_is_Some'. right. by eapply ww_owners0.
Qed.

Lemma alloc_gauge_wf w : wf_world w -> wf_world (alloc_gauge w).2.
Proof.
  intros []. split; cbn; auto.
  - apply map_Forall_insert_2; [unfold_ints; lia|].
    intros g v Hg. destruct (ww_gauges0 _ _ Hg). split; [done|lia].
  - intros i l Hl. destruct (ww_limiters0 _ _ Hl). split; [|lia].
    eapply wf_limiter_gauges; [|done]. intros g' ?. by apply lookup_insert_is_Some'; right.
Qed.

Lemma alloc_limiter_wf w l :
  wf_world w -> wf_limiter (gauges w) l -> wf_world (alloc_limiter w l).2.
Proof.
  intros [] Hl. split; cbn; auto.
  - intros g v Hg. destruct (ww_gauges0 _ _ Hg). split; [done|lia].
  - apply map_Forall_insert_2; [split; [done|lia]|].
    intros i l' Hi. destruct (ww_limiters0 _ _ Hi). split; [done|lia].
  - intros r j Hj. apply lookup_insert_is_Some'. right. by eapply ww_rules0.
  - intros r j Hj. apply lookup_insert_is_Some'. right. by eapply ww_owners0.
Qed.

Lemma set_rules_wf w r i :
  wf_world w -> is_Some (limiters w !! i) -> wf_world (set_rules w (<[r := i]> (rules w))).
Proof. intros [] Hi. split; cbn; auto. by apply map_Forall_insert_2. Qed.

Lemma set_owners_wf w r i :
  wf_world w -> is_Some (limiters w !! i) -> wf_world (set_owners w (<[r := i]> (owners w))).
Proof. intros [] Hi. split; cbn; auto. by apply map_Forall_insert_2. Qed.

Lemma remove_wf w r : wf_world w -> wf_world (remove w r).
Proof. intros []. split; cbn; auto. by apply map_Forall_delete. Qed.

Lemma remove_owner_wf w o : wf_world w -> wf_world (remove_owner w o).
Proof. intros []. split; cbn; auto. by apply map_Forall_delete. Qed.

#[export] Hint Resolve fetch_add_wf store_limiter_wf alloc_gauge_wf alloc_limiter_wf
  set_rules_wf set_owners_wf remove_wf remove_owner_wf from_envelope_wf with_carryover_wf
  take_connection_token_wf set_bandwidth_wf : portunus.

(** [try_acquire], by cases: a starved rate bucket, a full ceiling (the bump of
    the gauge is taken back), or an admission. *)
Lemma try_acquire_cases w i l v sc udp now :
  wf_world w -> limiters w !! i = Some l -> gauges w !! active_connections l = Some v ->
  try_acquire w i sc udp now =
    let (l', starved) := take_connection_token l now in
    let w' := store_limiter w i l' in
    Some (if starved then (w', Rejected (rate_reject_reason sc udp))
          else if below (concurrent_max l) v
          then (set_gauges w' (<[active_connections l := wrap_u64 (v + 1)]> (gauges w)),
                ConnGranted (mkGuard i))
          else (w', Rejected (concurrent_reject_reason sc))).
Proof.
  intros Hw Hl Hg. unfold try_acquire. rewrite Hl.
  destruct (take_connection_token l now) as [l' []]; [done|].
  unfold fetch_add, below. cbn. rewrite Hg.
  destruct (concurrent_max l) as [m|]; [|done].
  destruct (m <=? v); [|done]. cbn. rewrite lookup_insert_eq, insert_insert_eq.
  destruct (ww_gauges _ Hw _ _ Hg) as [Hv _].
  change (-1) with (- (1)). rewrite (wrap_u64_undo v 1 Hv), (insert_id _ _ _ Hg). by destruct w.
Qed.

Lemma limiter_gauge w i l :
  wf_world w -> limiters w !! i = Some l -> is_Some (gauges w !! active_connections l).
Proof. intros Hw Hl. by destruct (ww_limiters _ Hw _ _ Hl) as [[] _]. Qed.

Lemma try_acquire_defined w i sc udp now :
  wf_world w -> is_Some (limiters w !! i) -> is_Some (try_acquire w i sc udp now).
Proof.
  intros Hw [l Hl]. destruct (limiter_gauge w i l Hw Hl) as [v Hv].
  rewrite (try_acquire_cases _ _ _ _ _ _ _ Hw Hl Hv). destruct (take_connection_token l now). eauto.
Qed.

Lemma try_acquire_wf w i sc udp now w' r :
  wf_world w -> try_acquire w i sc udp now = Some (w', r) -> wf_world w'.
Proof.
  intros Hw H. destruct (limiters w !! i) as [l|] eqn:Hl; [|by unfold try_acquire in H; rewrite Hl in H].
  destruct (limiter_gauge w i l Hw Hl) as [v Hv].
  rewrite (try_acquire_cases _ _ _ _ _ _ _ Hw Hl Hv) in H.
  destruct (ww_limiters _ Hw _ _ Hl) as [Hwl _].
  pose proof (take_connection_token_wf _ l now Hwl) as Hl'.
  destruct (take_connection_token l now) as [l' st]; cbn in *.
  pose proof (store_limiter_wf w i l l' Hw Hl Hl') as Hs.
  repeat case_test_in H; simplify_eq; auto.
  eapply (fetch_add_wf (store_limiter w i l') (active_connections l) 1 Hs v).
  unfold fetch_add. cbn. by rewrite Hv.
Qed.

Lemma drop_guard_wf w g w' : wf_world w -> drop_guard w g = Some w' -> wf_world w'.
Proof.
  intros Hw H. unfold drop_guard in H. repeat case_test_in H; simplify_eq.
  eauto using fetch_add_wf.
Qed.

Lemma acquire_bandwidth_wf w i d n now w' r :
  wf_world w -> in_u64 n -> acquire_bandwidth w i d n now = Some (w', r) -> wf_world w'.
Proof.
  intros Hw Hn H. unfold acquire_bandwidth in H.
  destruct (limiters w !! i) as [l|] eqn:Hl; [|done].
  destruct (ww_limiters _ Hw _ _ Hl) as [Hwl _].
  destruct (bandwidth l d) as [b|] eqn:Hb; simplify_eq; [|done].
  pose proof (acquire_wf b n now) as Ha. destruct (acquire b n now) as [b' r']; simplify_eq.
  apply (store_limiter_wf _ _ l); auto. apply set_bandwidth_wf; [done|]. apply Ha; [|apply Hn].
  destruct Hwl, d; cbn in *; by rewrite Hb in *.
Qed.

Lemma fresh_limiter_wf w rl now :
  wf_world w -> valid_envelope rl ->
  let (g, w1) := alloc_gauge w in
  let (lid, w2) := alloc_limiter w1 (from_envelope rl g now) in
  wf_world w2 /\ is_Some (limiters w2 !! lid).
Proof.
  intros Hw Hv. cbn. split; [|by rewrite lookup_insert_eq].
  apply (alloc_limiter_wf (alloc_gauge w).2); [by apply alloc_gauge_wf|].
  apply from_envelope_wf; [done|]. cbn. by rewrite lookup_insert_eq.
Qed.

Lemma carried_limiter_wf w i p rl now :
  wf_world w -> limiters w !! i = Some p -> valid_envelope rl ->
  let (lid, w2) := alloc_limiter w (with_carryover p rl now) in
  wf_world w2 /\ is_Some (limiters w2 !! lid).
Proof.
  intros Hw Hp Hv. destruct (ww_limiters _ Hw _ _ Hp) as [Hwp _].
  cbn. split; [|by rewrite lookup_insert_eq].
  apply (alloc_limiter_wf w); [done|]. by apply with_carryover_wf.
Qed.

Lemma op_wf w w' : op w w' -> wf_world w -> wf_world w'.
Proof.
  intros Hop Hw. destruct Hop as [w r rl now Hv|w r now|w w' r rl now Hv Hu|w r|w r rl now Hv
    |w r now|w w' r rl now Hv Hu|w r|w w' i sc udp now r H|w w' g H|w w' i d n now r Hn H].
  - destruct (fresh_limiter_wf w rl now Hw Hv) as [H1 H2]. exact (set_rules_wf _ r _ H1 H2).
  - by apply remove_wf.
  - unfold update in Hu. destruct (rules w !! r) as [i|] eqn:Hi, rl as [rl|]; simplify_eq;
      try by apply remove_wf.
    + destruct (limiters w !! i) as [p|] eqn:Hp; simplify_eq.
      destruct (carried_limiter_wf w i p rl now Hw Hp (Hv _ eq_refl)) as [H1 H2]. injection Hu as <-. exact (set_rules_wf _ r _ H1 H2).
    + destruct (fresh_limiter_wf w rl now Hw (Hv _ eq_refl)) as [H1 H2]. injection Hu as <-. exact (set_rules_wf _ r _ H1 H2).
  - by apply remove_wf.
  - destruct (fresh_limiter_wf w rl now Hw Hv) as [H1 H2]. exact (set_owners_wf _ r _ H1 H2).
  - by apply remove_owner_wf.
  - unfold update_owner in Hu. destruct (owners w !! r) as [i|] eqn:Hi, rl as [rl|]; simplify_eq;
      try by apply remove_owner_wf.
    + destruct (limiters w !! i) as [p|] eqn:Hp; simplify_eq.
      destruct (carried_limiter_wf w i p rl now Hw Hp (Hv _ eq_refl)) as [H1 H2]. injection Hu as <-. exact (set_owners_wf _ r _ H1 H2).
    + destruct (fresh_limiter_wf w rl now Hw (Hv _ eq_refl)) as [H1 H2]. injection Hu as <-. exact (set_owners_wf _ r _ H1 H2).
  - by apply remove_owner_wf.
  - eauto using try_acquire_wf.
  - eauto using drop_guard_wf.
  - eauto using acquire_bandwidth_wf.
Qed.

Lemma empty_world_wf : wf_world empty_world.
Proof. split; cbn; apply map_Forall_empty. Qed.

Lemma ops_wf w : rtc op empty_world w -> wf_world w.
Proof. intros H. exact (rtc_preserves op wf_world _ _ op_wf H empty_world_wf). Qed.

(** ** Layered admission: the effect on the gauges *)

Lemma shift_back gs g d :
  map_Forall (fun _ v => in_u64 v) gs -> shift (- d) g (shift d g gs) = gs.
Proof.
  intros Hgs. unfold shift. rewrite alter_alter_eq. apply alter_id.
  intros x Hx. simpl. apply wrap_u64_undo. eauto.
Qed.

Lemma shift_comm gs g g' d d' : shift d g (shift d' g' gs) = shift d' g' (shift d g gs).
Proof.
  unfold shift. destruct (decide (g = g')) as [->|Hne]; [|by apply alter_alter_ne].
  rewrite !alter_alter_eq. apply alter_ext. intros v _. simpl. unfold wrap_u64.
  rewrite !Zplus_mod_idemp_l. f_equal. lia.
Qed.

Lemma insert_shift gs g v d : gs !! g = Some v -> <[g := wrap_u64 (v + d)]> gs = shift d g gs.
Proof. intros Hv. unfold shift. apply map_eq. intros j.
  destruct (decide (g = j)) as [->|Hne].
  - by rewrite lookup_insert_eq, lookup_alter_eq, Hv.
  - by rewrite lookup_insert_ne, lookup_alter_ne by done.
Qed.

Lemma drop_guard_shift w gd g :
  wf_world w -> gauge_of w gd = Some g ->
  drop_guard w gd = Some (set_gauges w (shift (-1) g (gauges w))).
Proof.
  intros Hw Hg. unfold gauge_of in Hg. unfold drop_guard, fetch_add.
  destruct (limiters w !! guard_limiter gd) as [l|] eqn:Hl; simplify_eq/=.
  destruct (limiter_gauge _ _ _ Hw Hl) as [v Hv]. by rewrite Hv, <- insert_shift with (v := v).
Qed.

Lemma handle_gate_effect w snapshot sc udp now w' r :
  wf_world w -> handle_try_acquire w snapshot sc udp now = Some (w', r) ->
  gate_effect w w'
    match r with
    | Some (ConnGranted g) => Ok (Some g) | Some (Rejected m) => Err m | None => Ok None
    end /\
  (is_Some r <-> is_Some snapshot) /\
  match r with
  | Some (Rejected m) => is_owner_scope m = match sc with Owner => true | Rule => false end
  | _ => True
  end.
Proof.
  intros Hw H. destruct snapshot as [i|]; simplify_eq/=; [|unfold gate_effect; naive_solver].
  destruct (try_acquire w i sc udp now) as [[w1 r1]|] eqn:E; simplify_eq.
  pose proof (try_acquire_wf _ _ _ _ _ _ _ Hw E) as Hw1.
  destruct (limiters w !! i) as [l|] eqn:Hl; [|by unfold try_acquire in E; rewrite Hl in E].
  destruct (limiter_gauge w i l Hw Hl) as [v Hv].
  rewrite (try_acquire_cases _ _ _ _ _ _ _ Hw Hl Hv) in E.
  pose proof (take_connection_token_frame l now) as Hf.
  destruct (take_connection_token l now) as [l' st]. destruct Hf as [_ Ha]. cbv zeta in E.
  assert (forall gd g, gauge_of w gd = Some g -> gauge_of (store_limiter w i l') gd = Some g) as Hk.
  { intros gd g. unfold gauge_of; simpl. destruct (decide (i = guard_limiter gd)) as [->|?].
    - rewrite Hl, lookup_insert_eq. simpl. by rewrite Ha.
    - by rewrite lookup_insert_ne by done. }
  unfold gate_effect.
  destruct st; [|destruct (below (concurrent_max l) v)]; simplify_eq; split_and!; eauto;
    try by destruct sc, udp.
  exists (active_connections l). unfold gauge_of. simpl.
  rewrite lookup_insert_eq. simpl. by rewrite Ha, (insert_shift _ _ v).
Qed.

Lemma owner_gate_effect w owner udp now w' r :
  wf_world w -> owner_gate w owner udp now = Some (w', r) ->
  gate_effect w w' r /\
  match r with
  | Ok og => is_Some og <-> is_Some (owner ≫= get_owner w)
  | Err m => is_owner_scope m = true
  end.
Proof.
  intros Hw H. destruct owner as [o|]; simplify_eq/=; [|unfold gate_effect; naive_solver].
  destruct (handle_try_acquire _ _ _ _ _) as [[w1 [[]|]]|] eqn:E; simplify_eq;
    apply handle_gate_effect in E; naive_solver.
Qed.

Lemma rule_gate_effect w rule udp now w' r :
  wf_world w -> rule_gate w rule udp now = Some (w', r) ->
  gate_effect w w' r /\
  match r with
  | Ok rg => is_Some rg <-> is_Some (rule ≫= get w)
  | Err m => is_owner_scope m = false
  end.
Proof.
  intros Hw H. destruct rule as [o|]; simplify_eq/=; [|unfold gate_effect; naive_solver].
  destruct (handle_try_acquire _ _ _ _ _) as [[w1 [[]|]]|] eqn:E; simplify_eq;
    apply handle_gate_effect in E; naive_solver.
Qed.

Lemma gate_defined w snapshot sc udp now :
  wf_world w -> (forall i, snapshot = Some i -> is_Some (limiters w !! i)) ->
  is_Some (handle_try_acquire w snapshot sc udp now).
Proof.
  intros Hw Hs. destruct snapshot as [i|]; simpl; [|eauto].
  destruct (try_acquire_defined w i sc udp now Hw (Hs _ eq_refl)) as [[? ?] ->]. eauto.
Qed.

Lemma wf_gauges_u64 w : wf_world w -> map_Forall (fun _ v => in_u64 v) (gauges w).
Proof. intros [Hg _ _ _] g v Hv. by destruct (Hg g v Hv). Qed.

Lemma drop_opt_shift w og :
  wf_world w -> (forall gd, og = Some gd -> is_Some (gauge_of w gd)) ->
  exists w', drop_opt w og = Some w' /\ wf_world w' /\
    (forall gd, gauge_of w' gd = gauge_of w gd) /\
    gauges w' = match og ≫= gauge_of w with
                | Some g => shift (-1) g (gauges w) | None => gauges w end.
Proof.
  intros Hw Hog. destruct og as [gd|]; simpl; [|by eauto 6].
  destruct (Hog gd eq_refl) as [g Hg]. pose proof (drop_guard_shift w gd g Hw Hg) as Hd.
  exists (set_gauges w (shift (-1) g (gauges w))). rewrite Hd, Hg.
  split_and!; [done| |done|done]. by eapply drop_guard_wf.
Qed.

Lemma layered_defined w owner rule udp now_o now_r :
  wf_world w -> is_Some (try_acquire_layered w owner rule udp now_o now_r).
Proof.
  intros Hw. unfold try_acquire_layered.
  assert (is_Some (owner_gate w owner udp now_o)) as [[w1 res] E].
  { destruct owner as [o|]; simpl; [|eauto].
    destruct (gate_defined w (get_owner w o) Owner udp now_o Hw) as [[? [[]|]] ->]; eauto.
    intros i. apply (ww_owners _ Hw). }
  rewrite E. apply owner_gate_effect in E as [(Hw1 & Hr & _ & _ & He) _]; [|done].
  destruct res as [og|m]; [|eauto].
  assert (is_Some (rule_gate w1 rule udp now_r)) as [[w2 res] E2].
  { destruct rule as [r|]; simpl; [|eauto].
    destruct (gate_defined w1 (get w1 r) Rule udp now_r Hw1) as [[? [[]|]] ->]; eauto.
    intros i. apply (ww_rules _ Hw1). }
  rewrite E2. apply rule_gate_effect in E2 as [(Hw2 & _ & _ & Hk & _) _]; [|done].
  destruct res as [rg|m]; [eauto|].
  destruct (drop_opt_shift w2 og Hw2) as (w3 & -> & _); [|eauto].
  intros gd ->. destruct He as (g & Hg & _). eauto.
Qed.

(** ** Theorems *)

(** The reference structure is sound: from an empty process, whatever
    installs, hot-reloads, removals, admissions, guard drops and bandwidth
    debits happen, every registry entry and every gauge reference resolves,
    every bucket is within its bounds, and so the layered gate always answers. *)
Theorem scope_heap_safe w owner rule udp now_o now_r :
  rtc op empty_world w ->
  wf_world w /\ is_Some (try_acquire_layered w owner rule udp now_o now_r).
Proof. intros H%ops_wf. eauto using layered_defined. Qed.

Lemma example_envelope_valid : valid_envelope example_envelope.
Proof. split; [|done]. split; cbn; unfold_ints; lia. Qed.

Lemma scope_heap_safe_witness :
  is_Some (try_acquire_layered (install empty_world 7 (Some example_envelope) 0)
             None (Some 7) false 10 10).
Proof.
  apply (scope_heap_safe (install empty_world 7 (Some example_envelope) 0)
           None (Some 7) false 10 10).
  apply rtc_once, op_install, example_envelope_valid.
Defined.

(** Layered admission accounts for every slot: a rejection by either layer
    leaves all live-connection gauges as they were (the owner slot claimed
    before a rule rejection is given back) and carries a reason of the scope
    that refused; an admission yields one guard per installed limiter, and
    dropping the guards restores the gauges exactly. *)
Theorem layered_gauge_accounting w owner rule udp now_o now_r w' r :
  wf_world w -> try_acquire_layered w owner rule udp now_o now_r = Some (w', r) ->
  match r with
  | OwnerRejected m => gauges w' = gauges w /\ is_owner_scope m = true
  | RuleRejected m => gauges w' = gauges w /\ is_owner_scope m = false
  | LayeredGranted og rg =>
    (is_Some og <-> is_Some (owner ≫= get_owner w)) /\
    (is_Some rg <-> is_Some (rule ≫= get w)) /\
    exists w1 w2, drop_opt w' og = Some w1 /\ drop_opt w1 rg = Some w2 /\
      gauges w2 = gauges w
  end.
Proof.
  intros Hw H. pose proof (wf_gauges_u64 w Hw) as Hu. unfold try_acquire_layered in H.
  destruct (owner_gate w owner udp now_o) as [[w1 res1]|] eqn:E1; [|done].
  apply owner_gate_effect in E1 as [(Hw1 & Hr1 & _ & Hk1 & He1) Ho]; [|done].
  destruct res1 as [og|m]; [|by simplify_eq].
  assert (forall gd, og = Some gd -> is_Some (gauge_of w1 gd)) as Hog.
  { intros gd ->. destruct He1 as (g & Hg & _). eauto. }
  destruct (rule_gate w1 rule udp now_r) as [[w2 res2]|] eqn:E2; [|done].
  apply rule_gate_effect in E2 as [(Hw2 & _ & _ & Hk2 & He2) Hrr]; [|done].
  assert (forall gd, og = Some gd -> is_Some (gauge_of w2 gd)) as Hog2.
  { intros gd Hgd. destruct (Hog gd Hgd) as [g Hg]. eauto. }
  destruct (drop_opt_shift w2 og Hw2 Hog2) as (w3 & Hd3 & Hw3 & Hk3 & Hg3).
  assert (forall gs, gauges w2 = gs -> gs = gauges w1 -> gauges w3 = gauges w) as Hrestore.
  { intros gs <- Heq. rewrite Hg3, Heq. destruct og as [gd|]; simpl; [|done].
    destruct He1 as (g & Hg & ->). rewrite (Hk2 _ _ Hg). by apply (shift_back _ _ 1). }
  destruct res2 as [rg|m].
  - simplify_eq. unfold get in Hrr. rewrite Hr1 in Hrr. do 2 (split; [done|]).
    exists w3. destruct rg as [gd'|]; simpl in *; [|exists w3; eauto].
    destruct He2 as (g' & Hg' & He2).
    destruct (drop_opt_shift w3 (Some gd') Hw3) as (w4 & Hd4 & _ & _ & Hg4).
    { intros gd [= <-]. rewrite Hk3. eauto. }
    exists w4. split_and!; auto. simpl in Hg4. rewrite Hg4, Hk3, Hg', Hg3, He2.
    destruct og as [gd|]; simpl; [|rewrite He1; by apply (shift_back _ _ 1)].
    destruct He1 as (g & Hg & ->). rewrite (Hk2 _ _ Hg), shift_comm.
    rewrite (shift_back _ g' 1); [by apply (shift_back _ _ 1)|].
    intros j v. unfold shift. rewrite lookup_alter_Some. naive_solver eauto with portunus.
  - rewrite Hd3 in H. simplify_eq. eauto.
Qed.

Lemma layered_gauge_accounting_witness :
  exists w w', try_acquire_layered w None (Some 7) false 10 10 = Some (w', RuleRejected ConnConcurrent)
    /\ gauges w' = gauges w.
Proof.
  pose (w0 := install empty_world 7 (Some example_envelope) 0).
  assert (wf_world w0) as Hw0.
  { eapply op_wf; [apply op_install, example_envelope_valid|apply empty_world_wf]. }
  destruct (try_acquire w0 1 Rule false 5) as [[w r]|] eqn:E; [|by vm_compute in E].
  exists w. destruct (try_acquire_layered w None (Some 7) false 10 10) as [[w' r']|] eqn:E'.
  2: { vm_compute in E. by simplify_eq. }
  exists w'. pose proof (layered_gauge_accounting w None (Some 7) false 10 10 w' r'
    (try_acquire_wf _ _ _ _ _ _ _ Hw0 E) E') as H.
  assert (r' = RuleRejected ConnConcurrent) as ->.
  { vm_compute in E. simplify_eq. vm_compute in E'. by simplify_eq. }
  split; [done|]. apply H.
Defined.

(** Hot-reload neither forgets live connections nor mints tokens: the
    successor limiter takes its ceiling from the new envelope but reads the
    gauge of its predecessor, guards admitted before the swap keep decrementing
    that gauge, and each carried bucket holds no more tokens than before and
    no more than its new burst. *)
Theorem hot_reload_carries_state w r i p e now w' :
  wf_world w -> rules w !! r = Some i -> limiters w !! i = Some p -> valid_envelope e ->
  update w r (Some e) now = Some w' ->
  gauges w' = gauges w /\ gauge_of w' (mkGuard i) = gauge_of w (mkGuard i) /\
  exists j l, rules w' !! r = Some j /\ limiters w' !! j = Some l /\
    concurrent_max l = concurrent_connections e /\
    gauge_of w' (mkGuard j) = gauge_of w (mkGuard i) /\
    forall d b pb, bandwidth l d = Some b -> bandwidth p d = Some pb ->
      tokens b = Z.min (tokens pb) (burst b).
Proof.
  intros Hw Hr Hp Hv H. unfold update in H. rewrite Hr, Hp in H. injection H as <-.
  destruct (ww_limiters _ Hw _ _ Hp) as [_ Hlt]. unfold gauge_of. cbn.
  rewrite lookup_insert_ne by lia. rewrite lookup_insert_eq. do 2 (split; [done|]).
  exists (next_ref w), (with_carryover p e now). rewrite !lookup_insert_eq, Hp.
  do 4 (split; [done|]). intros d b pb Hb Hpb.
  destruct d; cbn in *; rewrite Hpb in Hb; unfold carried_bucket in Hb;
    case_test_in Hb; by simplify_eq.
Qed.

Lemma hot_reload_carries_state_witness :
  exists w i w', rules w !! 7 = Some i /\
    update w 7 (Some example_envelope) 9 = Some w' /\ gauges w' = gauges w.
Proof.
  pose (w := install empty_world 7 (Some example_envelope) 0).
  destruct (update w 7 (Some example_envelope) 9) as [w'|] eqn:E; [|by vm_compute in E].
  exists w, 1%nat, w'. split_and!; [done|done|].
  eapply (hot_reload_carries_state w 7 1%nat _ example_envelope 9 w');
    [|done|done|apply example_envelope_valid|done].
  eapply op_wf; [apply op_install, example_envelope_valid|apply empty_world_wf].
Defined.

Lemma counted_bounds cs : 0 <= sum_of committed cs <= sum_of counted cs /\
  sum_of counted cs <= Z.of_nat (length cs) /\ 0 <= sum_of is_live cs <= sum_of committed cs.
Proof.
  split_and!; try (apply sum_of_nonneg || apply sum_of_le || apply sum_of_le_length);
    intros [|m p|]; simpl; try destruct (below m p); lia.
Qed.

Lemma ceiling_step_inv top s s' :
  ceiling_step s s' /\ ceiling_at_most top s'.2 -> ceiling_inv top s -> ceiling_inv top s'.
Proof.
  intros [[cs g m i c c' g' Hi Ha|] Hm] (Hlen & Hg & Hc & Hm0); [|by split_and!].
  pose proof (counted_bounds (<[i := c']> cs)) as Hb'. pose proof (counted_bounds cs) as Hb.
  unfold ceiling_inv. rewrite length_insert in *.
  rewrite !(sum_of_insert _ _ _ _ _ Hi) in *. simpl in Hm.
  destruct Ha as [g|g m' prev Hbl|g m' prev Hbl|g]; simpl in *; rewrite ?Hbl in *;
    rewrite ?wrap_u64_id by (unfold_ints; lia);
    split_and!; try done; try (unfold_ints; lia).
  unfold below in *. destruct m as [m|]; [|done]. simpl in *.
  destruct (m <=? g) eqn:E; simpl; lia.
Qed.

(** C39. The concurrent ceiling is hard for connections, soft only for the
    gauge: whatever the interleaving of bumps, comparisons, take-backs, closes
    and hot-reloads, if no ceiling ever configured exceeds [top] then never
    more than [top] connections are live at once, while the gauge itself counts
    exactly the live connections and the bumps still being compared. *)
Theorem concurrent_ceiling_holds top k m cs g m' :
  Z.of_nat k <= u64_max -> 0 <= top -> ceiling_at_most top m ->
  rtc (fun s s' => ceiling_step s s' /\ ceiling_at_most top s'.2)
    (replicate k CIdle, 0, m) (cs, g, m') ->
  sum_of is_live cs <= top /\ g = sum_of counted cs.
Proof.
  intros Hk Ht Hm Hs. pose proof (counted_bounds cs) as (_ & _ & Hl).
  assert (ceiling_inv top (cs, g, m')) as (_ & Hg & Hc & _); [|lia].
  eapply (rtc_preserves _ _ _ _ (ceiling_step_inv top) Hs).
  unfold ceiling_inv. rewrite length_replicate, !sum_of_replicate by done. split_and!; auto; lia.
Qed.

Lemma concurrent_ceiling_holds_witness :
  exists cs g, sum_of is_live cs = 1 /\ sum_of is_live cs <= 1 /\ g = sum_of counted cs /\ g = 2.
Proof.
  exists [CLive; CBumped (Some 1) 1], 2.
  pose proof (concurrent_ceiling_holds 1 2 (Some 1) [CLive; CBumped (Some 1) 1] 2 (Some 1)) as H.
  destruct H as [H1 H2]; [unfold_ints; lia|lia|simpl; lia| |by split_and!].
  eapply rtc_l; [split; [apply (ceiling_conn _ _ _ 0%nat CIdle); [done|apply conn_bump]|simpl; lia]|].
  eapply rtc_l; [split; [apply (ceiling_conn _ _ _ 1%nat CIdle); [done|apply conn_bump]|simpl; lia]|].
  eapply rtc_l; [split; [eapply (ceiling_conn _ _ _ 0%nat); [done|by apply conn_admit]|simpl; lia]|].
  apply rtc_refl.
Defined.

(** A connection refused at the concurrent ceiling has still spent a token
    of the connection-rate bucket: the rate is charged first and not refunded. *)
Theorem ceiling_rejection_spends_token w i l b m v sc udp now :
  wf_world w -> limiters w !! i = Some l -> new_connections l = Some b ->
  concurrent_max l = Some m -> gauges w !! active_connections l = Some v -> m <= v ->
  (acquire b 1 now).2 = Granted ->
  exists w' l' b', try_acquire w i sc udp now = Some (w', Rejected (concurrent_reject_reason sc)) /\
    limiters w' !! i = Some l' /\ new_connections l' = Some b' /\
    tokens b' = tokens (refill b (now_micros b now)) - 1.
Proof.
  intros Hw Hl Hb Hm Hv Hge Ha. rewrite (try_acquire_cases _ _ _ _ _ _ _ Hw Hl Hv).
  unfold take_connection_token. rewrite Hb, Hm. unfold acquire in *. simpl in *.
  case_test_in Ha; [|done]. replace (m <=? v) with true by lia. simpl.
  do 3 eexists. split; [done|]. simpl. rewrite lookup_insert_eq. by split_and!.
Qed.

Lemma ceiling_rejection_spends_token_witness :
  exists w w' l' b', limiters w' !! 1%nat = Some l' /\ new_connections l' = Some b' /\
    try_acquire w 1 Rule false 6 = Some (w', Rejected ConnConcurrent) /\ tokens b' = 3.
Proof.
  pose (w0 := install empty_world 7 (Some example_envelope) 0).
  assert (wf_world w0) as Hw0.
  { eapply op_wf; [apply op_install, example_envelope_valid|apply empty_world_wf]. }
  destruct (try_acquire w0 1 Rule false 5) as [[w r]|] eqn:E; [|by vm_compute in E].
  pose proof (try_acquire_wf _ _ _ _ _ _ _ Hw0 E) as Hw.
  vm_compute in E. injection E as <- <-.
  pose (b := set_tokens (TokenBucket.new 5 5 0) 4).
  edestruct (ceiling_rejection_spends_token _ 1%nat
    (mkLimiter (Some (TokenBucket.new 1000 1000 0)) None (Some b) (Some 1) 0) b 1 1 Rule false 6 Hw)
    as (w' & l' & b' & H1 & H2 & H3 & H4); try reflexivity.
  eexists _, w', l', b'. split_and!; eauto.
Defined.

End RateScope.
