(* ===== verification/Failover.v ===== *)
(** * Failover

    [crates/portunus-forwarder/src/forwarder/failover.rs] (the per-target
    health machine, selection and priority order) and [dial_with_failover] of
    [failover_path.rs] (the walk over a rule's targets).  An [Instant] is a
    number of nanoseconds, a [SystemTime] a number of milliseconds of the Unix
    epoch; both are arguments of the operations that receive them.  What a
    dial does is outside the repository's sources (sockets), so the walk takes
    the outcome of each attempt as an argument. *)

From S2P Require Import Prelude Target.
Import Target.RuleTarget.

Open Scope Z_scope.

Module Failover.

Definition PASSIVE_FAILURE_THRESHOLD : Z := 3.
Definition FAILURE_WINDOW : Z := 30 * 1000000000.
Definition PASSIVE_RECOVERY_THRESHOLD : Z := 2.

Inductive Health : Type := Healthy | Failed.

#[export] Instance Health_eq_dec : EqDecision Health.
Proof. solve_decision. Defined.

Definition as_wire (h : Health) : Z := match h with Healthy => 0 | Failed => 1 end.

Record HealthState : Type := mkHealthState {
  state : Health;
  consecutive_failures : Z;
  consecutive_successes : Z;
  failure_window_start : option Z;
  last_failure_at : option Z;
  last_success_at : option Z;
  bytes_in : Z;
  bytes_out : Z;
  connections_accepted : Z;
}.

Definition new : HealthState := mkHealthState Healthy 0 0 None None None 0 0 0.

(** The byte and connection counters, which wrap. *)
Definition add_bytes_in (s : HealthState) (n : Z) : HealthState :=
  mkHealthState (state s) (consecutive_failures s) (consecutive_successes s)
    (failure_window_start s) (last_failure_at s) (last_success_at s)
    (wrap_u64 (bytes_in s + n)) (bytes_out s) (connections_accepted s).

Definition add_bytes_out (s : HealthState) (n : Z) : HealthState :=
  mkHealthState (state s) (consecutive_failures s) (consecutive_successes s)
    (failure_window_start s) (last_failure_at s) (last_success_at s)
    (bytes_in s) (wrap_u64 (bytes_out s + n)) (connections_accepted s).

Definition increment_connections_accepted (s : HealthState) : HealthState :=
  mkHealthState (state s) (consecutive_failures s) (consecutive_successes s)
    (failure_window_start s) (last_failure_at s) (last_success_at s)
    (bytes_in s) (bytes_out s) (wrap_u64 (connections_accepted s + 1)).

(** [now.duration_since(start) <= FAILURE_WINDOW]; the difference saturates. *)
Definition in_window (start now : Z) : bool := Z.max (now - start) 0 <=? FAILURE_WINDOW.

Arguments in_window : simpl never.

(** [record_failure] and [record_success] thread the rule's
    [target_failovers_total]. *)
Definition record_failure (s : HealthState) (now wall total : Z) : HealthState * Z :=
  let window_open :=
    match failure_window_start s with Some start => in_window start now | None => false end in
  let failures := if window_open then sat_add_u32 (consecutive_failures s) 1 else 1 in
  let start := if window_open then failure_window_start s else Some now in
  let trips := bool_decide (state s = Healthy) && (PASSIVE_FAILURE_THRESHOLD <=? failures) in
  (mkHealthState (if trips then Failed else state s) failures 0 start (Some wall)
     (last_success_at s) (bytes_in s) (bytes_out s) (connections_accepted s),
   if trips then wrap_u64 (total + 1) else total).

Definition record_success (s : HealthState) (now wall total : Z) : HealthState * Z :=
  match state s with
  | Healthy =>
    (mkHealthState Healthy 0 0 None (last_failure_at s) (Some wall)
       (bytes_in s) (bytes_out s) (connections_accepted s), total)
  | Failed =>
    let successes := sat_add_u32 (consecutive_successes s) 1 in
    if PASSIVE_RECOVERY_THRESHOLD <=? successes
    then (mkHealthState Healthy 0 0 None (last_failure_at s) (Some wall)
            (bytes_in s) (bytes_out s) (connections_accepted s), wrap_u64 (total + 1))
    else (mkHealthState Failed (consecutive_failures s) successes (failure_window_start s)
            (last_failure_at s) (Some wall) (bytes_in s) (bytes_out s)
            (connections_accepted s), total)
  end.

(** [select]: the first healthy index, else 0. *)
Fixpoint first_healthy (i : nat) (hs : list Health) : option nat :=
  match hs with
  | [] => None
  | Healthy :: _ => Some i
  | Failed :: hs => first_healthy (S i) hs
  end.

Definition select (states : list HealthState) : nat :=
  default 0%nat (first_healthy 0 (state <$> states)).

(** [sort_priority]: Rust's [sort_by_key] on [(priority, index)]. *)
Definition key (targets : list RuleTarget) (i : nat) : Z * nat :=
  (match targets !! i with Some t => priority t | None => 0 end, i).

Definition key_le (targets : list RuleTarget) (i j : nat) : Prop :=
  let (p, i') := key targets i in
  let (q, j') := key targets j in
  p < q \/ (p = q /\ (i' <= j')%nat).

#[export] Instance key_le_dec targets i j : Decision (key_le targets i j).
Proof. unfold key_le. destruct (key targets i), (key targets j). apply _. Defined.

Definition sort_priority (targets : list RuleTarget) : option (list nat) :=
  match targets with
  | [] => None
  | _ => Some (merge_sort (key_le targets) (seq 0 (length targets)))
  end.

(** ** The dial walk *)

Inductive Dial : Type :=
| Connected
| PreludeFailed  (* connected, but the PROXY header could not be written *)
| DialFailed.

(** The outcome of one attempt with the two clock readings that follow it. *)
Record Attempt : Type := mkAttempt { outcome : Dial; at_now : Z; at_wall : Z }.

Definition dial_order (hs : list Health) (n : nat) : list nat :=
  let first := default 0%nat (first_healthy 0 hs) in
  let rest := filter (fun i => i <> first) (seq 0 n) in
  first :: merge_sort le rest.

Definition record (states : list HealthState) (i : nat)
  (f : HealthState -> HealthState * Z) (total : Z) : list HealthState * Z :=
  match states !! i with
  | Some s => let (s', total') := f s in (<[i := s']> states, total')
  | None => (states, total)
  end.

Fixpoint dial_walk (order : list nat) (attempt : nat -> Attempt) (states : list HealthState)
  (total : Z) : list HealthState * Z * option nat :=
  match order with
  | [] => (states, total, None)
  | idx :: order =>
    let a := attempt idx in
    match outcome a with
    | Connected =>
      let (states, total) :=
        record states idx (fun s => record_success s (at_now a) (at_wall a) total) total in
      (states, total, Some idx)
    | PreludeFailed | DialFailed =>
      let (states, total) :=
        record states idx (fun s => record_failure s (at_now a) (at_wall a) total) total in
      dial_walk order attempt states total
    end
  end.

Definition dial_with_failover (targets : list RuleTarget) (states : list HealthState)
  (total : Z) (attempt : nat -> Attempt) : list HealthState * Z * option nat :=
  dial_walk (dial_order (state <$> states) (length targets)) attempt states total.

(** ** The statistics snapshot *)

Record PerTargetStatsSnapshot : Type := mkSnapshot {
  snap_index : Z;
  snap_host : list Z;
  snap_port : Z;
  snap_priority : Z;
  snap_health : Health;
  snap_consecutive_failures : Z;
  snap_last_failure_at_unix_ms : Z;
  snap_last_success_at_unix_ms : Z;
  snap_bytes_in : Z;
  snap_bytes_out : Z;
  snap_connections_accepted : Z;
}.

(** Milliseconds since the Unix epoch, 0 when absent or before it. *)
Definition unix_ms (t : option Z) : Z :=
  match t with
  | Some ms => if ms <? 0 then 0 else to_u64_or_max ms
  | None => 0
  end.

Definition snapshot_one (idx : nat) (t : RuleTarget) (s : HealthState) : PerTargetStatsSnapshot :=
  mkSnapshot (Z.min (Z.of_nat idx) u32_max) (host t) (port t) (priority t) (state s)
    (consecutive_failures s) (unix_ms (last_failure_at s)) (unix_ms (last_success_at s))
    (bytes_in s) (bytes_out s) (connections_accepted s).

(** The loop of [snapshot_per_target]; [locked i] says that the record of
    target [i] is held by another task at this tick. *)
Fixpoint snapshot_from (idx : nat) (targets : list RuleTarget) (states : list HealthState)
  (locked : nat -> bool) : list PerTargetStatsSnapshot :=
  match targets with
  | [] => []
  | t :: targets =>
    match states !! idx with
    | None => []
    | Some s =>
      if locked idx then snapshot_from (S idx) targets states locked
      else snapshot_one idx t s :: snapshot_from (S idx) targets states locked
    end
  end.

Definition snapshot_per_target (targets : list RuleTarget) (states : list HealthState)
  (total : Z) (locked : nat -> bool) : Z * list PerTargetStatsSnapshot :=
  (total, snapshot_from 0 targets states locked).

(** ** Histories of one target *)

Inductive Event : Type :=
| Failure (now wall : Z)
| Success (now wall : Z).

Definition observe (st : HealthState * Z) (e : Event) : HealthState * Z :=
  match e with
  | Failure now wall => record_failure st.1 now wall st.2
  | Success now wall => record_success st.1 now wall st.2
  end.

Definition run (h : list Event) : HealthState * Z := fold_left observe h (new, 0).

(** The failures of the current window, and the successes of the current
    recovery, are the most recent events of the history. *)
Definition failure_at (start : Z) (e : Event) : Prop :=
  match e with Failure now _ => in_window start now = true | Success _ _ => False end.

Definition is_success (e : Event) : Prop :=
  match e with Success _ _ => True | Failure _ _ => False end.

Definition window_of (s : HealthState) (recent : list Event) : Prop :=
  match failure_window_start s with
  | None => recent = []
  | Some start => exists wall rest, recent = Failure start wall :: rest /\
      Forall (failure_at start) recent
  end.

Definition explains (h : list Event) (s : HealthState) : Prop :=
  match state s with
  | Healthy => consecutive_successes s = 0 /\ consecutive_failures s < 3 /\
      exists old recent, h = old ++ recent /\ window_of s recent /\
        Z.of_nat (length recent) = consecutive_failures s
  | Failed => consecutive_successes s < 2 /\
      exists old recent, h = old ++ recent /\ Forall is_success recent /\
        Z.of_nat (length recent) = consecutive_successes s
  end.

(** The number of health changes a history causes. *)
Fixpoint transitions (st : HealthState * Z) (h : list Event) : Z :=
  match h with
  | [] => 0
  | e :: h =>
    let st' := observe st e in
    (if decide (state st.1 = state st'.1) then 0 else 1) + transitions st' h
  end.

(** What the walk does to the record of one target. *)
Definition after_walk (attempt : nat -> Attempt) (tried : list nat) (chosen : option nat)
  (i : nat) (s : HealthState) : HealthState :=
  let a := attempt i in
  if decide (i ∈ tried) then (record_failure s (at_now a) (at_wall a) 0).1
  else if decide (chosen = Some i) then (record_success s (at_now a) (at_wall a) 0).1
  else s.

(** The walk tries a prefix of the order, all of it failing, and stops at the
    first target that connects. *)
Definition walk_ok (order : list nat) (attempt : nat -> Attempt) (states : list HealthState)
  (res : list HealthState * Z * option nat) : Prop :=
  let '(states', _, chosen) := res in
  exists tried rest, order = tried ++ rest /\
    Forall (fun i => outcome (attempt i) <> Connected) tried /\
    match chosen with
    | Some i => exists rest', rest = i :: rest' /\ outcome (attempt i) = Connected
    | None => rest = []
    end /\
    forall i s, states !! i = Some s ->
      states' !! i = Some (after_walk attempt tried chosen i s).

Definition two_targets : list RuleTarget :=
  [mkRuleTarget [97] 80 10 None; mkRuleTarget [98] 80 0 None].

(** ** Lemmas *)

Lemma run_snoc h e : run (h ++ [e]) = observe (run h) e.
Proof. unfold run. by rewrite fold_left_app. Qed.

Lemma in_window_refl t : in_window t t = true.
Proof. unfold in_window, FAILURE_WINDOW. lia. Qed.

Lemma first_healthy_spec i hs :
  match first_healthy i hs with
  | Some k => exists j, k = (i + j)%nat /\ hs !! j = Some Healthy /\
      (forall j', (j' < j)%nat -> hs !! j' = Some Failed)
  | None => Forall (fun h => h = Failed) hs
  end.
Proof.
  revert i. induction hs as [|[] hs IH]; intros i; simpl; [constructor| |].
  - exists 0%nat. split; [lia|]. split; [done|]. lia.
  - specialize (IH (S i)). destruct (first_healthy (S i) hs) as [k|]; [|by constructor].
    destruct IH as (j & -> & Hj & Hlt). exists (S j). split; [lia|]. split; [done|].
    intros [|j'] ?; [done|]. apply Hlt. lia.
Qed.

Lemma observe_failure_explains h s total now wall :
  explains h s -> explains (h ++ [Failure now wall]) (record_failure s now wall total).1.
Proof.
  unfold explains, record_failure. intros He. destruct (state s) eqn:Es; simpl.
  - destruct He as (_ & Hlt & old & recent & -> & Hw & Hlen).
    unfold window_of in Hw. destruct (failure_window_start s) as [t|].
    + destruct Hw as (w & rest & -> & Hall). unfold PASSIVE_FAILURE_THRESHOLD, sat_add_u32.
      destruct (in_window t now) eqn:Ew; simpl.
      * rewrite Z.min_l by (unfold_ints; simpl in *; lia).
        destruct (3 <=? consecutive_failures s + 1) eqn:E3; simpl.
        -- split; [lia|]. by exists ((old ++ Failure t w :: rest) ++ [Failure now wall]), [];
             rewrite app_nil_r.
        -- split; [done|]. split; [lia|].
           exists old, (Failure t w :: rest ++ [Failure now wall]). rewrite <- app_assoc.
           split; [done|]. split; [|rewrite app_comm_cons, length_app; simpl in *; lia].
           exists w, (rest ++ [Failure now wall]). split; [done|].
           by rewrite app_comm_cons, Forall_app, Forall_singleton.
      * split; [done|]. split; [lia|]. exists (old ++ Failure t w :: rest), [Failure now wall].
        split; [done|]. split; [|done]. exists wall, []. split; [done|].
        rewrite Forall_singleton. apply in_window_refl.
    + simpl. split; [done|]. split; [lia|]. exists (old ++ recent), [Failure now wall].
      split; [done|]. split; [|done]. exists wall, []. split; [done|].
      rewrite Forall_singleton. apply in_window_refl.
  - split; [lia|]. exists (h ++ [Failure now wall]), []. by rewrite app_nil_r.
Qed.

Lemma observe_success_explains h s total now wall :
  explains h s -> explains (h ++ [Success now wall]) (record_success s now wall total).1.
Proof.
  unfold explains, record_success. intros He. destruct (state s) eqn:Es; simpl.
  - do 2 (split; [lia|]). exists (h ++ [Success now wall]), []. by rewrite app_nil_r.
  - destruct He as (Hlt & old & recent & -> & Hall & Hlen).
    unfold PASSIVE_RECOVERY_THRESHOLD, sat_add_u32.
    rewrite Z.min_l by (unfold_ints; lia). destruct (2 <=? consecutive_successes s + 1) eqn:E2; simpl.
    + do 2 (split; [lia|]). by exists ((old ++ recent) ++ [Success now wall]), [];
        rewrite app_nil_r.
    + split; [lia|]. exists old, (recent ++ [Success now wall]). rewrite <- app_assoc.
      rewrite length_app, Forall_app, Forall_singleton. simpl. split_and!; [done..|lia].
Qed.

Lemma run_explains h : explains h (run h).1.
Proof.
  induction h as [|[] h IH] using rev_ind.
  - do 2 (split; [done|]). by exists [], [].
  - rewrite run_snoc. by apply observe_failure_explains.
  - rewrite run_snoc. by apply observe_success_explains.
Qed.

(** ** Theorems *)

(** C19. A target changes health only for the documented reason: it is failed by
    three failures in a row, all within thirty seconds of the first, and it is
    revived by two successes in a row. *)
Theorem failover_transitions_justified h e :
  (state (run h).1 = Healthy -> state (run (h ++ [e])).1 = Failed ->
     exists old t1 w1 t2 w2 t3 w3,
       h ++ [e] = old ++ [Failure t1 w1; Failure t2 w2; Failure t3 w3] /\
       in_window t1 t2 = true /\ in_window t1 t3 = true) /\
  (state (run h).1 = Failed -> state (run (h ++ [e])).1 = Healthy ->
     exists old t1 w1 t2 w2, h ++ [e] = old ++ [Success t1 w1; Success t2 w2]).
Proof.
  rewrite run_snoc. pose proof (run_explains h) as He. unfold explains in He.
  destruct (run h) as [s total]; simpl in *.
  split; intros Hs Hs'; rewrite Hs in He; destruct e as [t w|t w]; simpl in *.
  - destruct He as (_ & Hlt & old & recent & -> & Hw & Hlen).
    unfold record_failure, window_of in *. rewrite Hs in Hs'. simpl in *.
    destruct (failure_window_start s) as [t1|]; [|done].
    destruct (in_window t1 t) eqn:Ew; [|done]. destruct Hw as (w1 & rest & -> & Hall).
    unfold PASSIVE_FAILURE_THRESHOLD, sat_add_u32 in Hs'.
    destruct (_ <=? _) eqn:E3; [|done]. bool_prop.
    destruct rest as [|e2 [|]]; simpl in Hlen; [unfold_ints; lia| |lia].
    rewrite !Forall_cons in Hall. destruct Hall as (_ & He2 & _). destruct e2; [|done].
    do 7 eexists. by rewrite <- app_assoc.
  - unfold record_success in Hs'. by rewrite Hs in Hs'.
  - unfold record_failure in Hs'. by rewrite Hs in Hs'.
  - destruct He as (Hlt & old & recent & -> & Hall & Hlen).
    unfold record_success, PASSIVE_RECOVERY_THRESHOLD, sat_add_u32 in Hs'.
    rewrite Hs in Hs'. destruct (_ <=? _) eqn:E2; [|done]. bool_prop.
    destruct recent as [|e1 [|]]; simpl in Hlen; [unfold_ints; lia| |lia].
    rewrite Forall_singleton in Hall. destruct e1; [done|].
    do 5 eexists. by rewrite <- app_assoc.
Qed.

Lemma failover_transitions_counted_from st h :
  in_u64 st.2 -> (fold_left observe h st).2 = wrap_u64 (st.2 + transitions st h).
Proof.
  revert st. induction h as [|e h IH]; intros [s total] Hu; simpl in *.
  { rewrite wrap_u64_id; rewrite Z.add_0_r; done. }
  assert ((observe (s, total) e).2 =
    wrap_u64 (total + if decide (state s = state (observe (s, total) e).1) then 0 else 1)) as He.
  { destruct e as [t w|t w]; simpl; unfold record_failure, record_success; simpl.
    - destruct (state s); simpl; [|rewrite Z.add_0_r, wrap_u64_id; done].
      case_match; simpl; [done|]. rewrite Z.add_0_r, wrap_u64_id; done.
    - destruct (state s); simpl; [rewrite Z.add_0_r, wrap_u64_id; done|].
      case_match; simpl; [done|]. rewrite Z.add_0_r, wrap_u64_id; done. }
  rewrite IH, He; [|rewrite He; apply wrap_u64_in].
  unfold wrap_u64. rewrite Zplus_mod_idemp_l. f_equal. lia.
Qed.

(** [target_failovers_total] counts exactly the health changes, in both
    directions, of a target's history (modulo the counter's width). *)
Theorem failover_counter_exact h :
  (run h).2 = wrap_u64 (transitions (new, 0) h).
Proof. apply failover_transitions_counted_from. unfold_ints. simpl. lia. Qed.

(** Detection is complete from a clean record: a healthy target with no
    failure since its start or its last success is failed by three failures
    within thirty seconds of the first. *)
Theorem failover_trips_on_three h t1 w1 t2 w2 t3 w3 :
  (h = [] \/ exists h' t w, h = h' ++ [Success t w]) -> state (run h).1 = Healthy ->
  in_window t1 t2 = true -> in_window t1 t3 = true ->
  state (run (h ++ [Failure t1 w1; Failure t2 w2; Failure t3 w3])).1 = Failed.
Proof.
  intros Hh Hs H2 H3.
  assert (failure_window_start (run h).1 = None) as Hn.
  { pose proof (run_explains h) as He. unfold explains in He. rewrite Hs in He.
    destruct He as (_ & _ & old & recent & -> & Hw & _). unfold window_of in Hw.
    destruct (failure_window_start _) as [t|]; [|done]. destruct Hw as (w & rest & -> & Hall).
    destruct Hh as [Hh|(h' & t' & w' & Hh)]; [by destruct old|].
    destruct (exists_last (l := Failure t w :: rest)) as (l & x & Hl); [done|].
    rewrite Hl, app_assoc in Hh. apply app_inj_tail in Hh as [_ ->].
    rewrite Hl, Forall_app, Forall_singleton in Hall. by destruct Hall. }
  unfold run in *. rewrite fold_left_app. simpl. set (st := fold_left observe h (new, 0)) in *.
  clearbody st. destruct st as [s total]. simpl in *. unfold record_failure. rewrite Hs, Hn. simpl. rewrite H2. simpl. rewrite H3. done.
Qed.

Lemma failover_trips_on_three_witness :
  state (run [Failure 0 0; Success 1 1; Failure 2 2; Failure 30000000002 3; Failure 5 4]).1 = Failed.
Proof.
  apply (failover_trips_on_three [Failure 0 0; Success 1 1]); [|done..].
  right. by exists [Failure 0 0], 1, 1.
Defined.

(** The failure window does not slide: it is anchored at its first failure,
    so three failures in a row within thirty seconds can leave a target
    healthy when an older failure holds the window. *)
Theorem failover_window_tumbles :
  let sec := 1000000000 in
  let h := [Failure 0 0; Failure (29 * sec) 0; Failure (31 * sec) 0; Failure (32 * sec) 0] in
  in_window (29 * sec) (31 * sec) = true /\ in_window (29 * sec) (32 * sec) = true /\
  state (run h).1 = Healthy.
Proof. done. Qed.

(** ** The dial walk *)

Lemma record_lookup states i f total k s :
  states !! k = Some s ->
  (record states i f total).1 !! k = Some (if decide (i = k) then (f s).1 else s).
Proof.
  intros Hk. unfold record. destruct (states !! i) as [si|] eqn:Hi.
  - destruct (f si) as [s' total'] eqn:Hf. simpl. destruct (decide (i = k)) as [->|Hne].
    + simplify_eq. rewrite Hf. rewrite list_lookup_insert_eq; [done|by eapply lookup_lt_Some].
    + by rewrite list_lookup_insert_ne.
  - destruct (decide (i = k)); simplify_eq. done.
Qed.

Lemma record_length states i f total : length (record states i f total).1 = length states.
Proof. unfold record. repeat case_match; simpl; by rewrite ?length_insert. Qed.

Lemma record_failure_total s now wall total total' :
  (record_failure s now wall total).1 = (record_failure s now wall total').1.
Proof. done. Qed.

Lemma record_success_total s now wall total total' :
  (record_success s now wall total).1 = (record_success s now wall total').1.
Proof. unfold record_success. by repeat case_match. Qed.

Lemma after_walk_fresh attempt tried chosen i s :
  i ∉ tried -> chosen <> Some i -> after_walk attempt tried chosen i s = s.
Proof. intros. unfold after_walk. by rewrite !decide_False. Qed.

Lemma after_walk_cons attempt idx tried chosen i s :
  after_walk attempt (idx :: tried) chosen i s =
    if decide (idx = i)
    then (record_failure s (at_now (attempt idx)) (at_wall (attempt idx)) 0).1
    else after_walk attempt tried chosen i s.
Proof.
  unfold after_walk. destruct (decide (idx = i)) as [->|Hne].
  - by rewrite decide_True by constructor.
  - destruct (decide (i ∈ tried)); [by rewrite decide_True by (by constructor)|].
    rewrite decide_False; [done|]. rewrite elem_of_cons. naive_solver.
Qed.

Lemma walk_failure idx order attempt states total :
  idx ∉ order -> outcome (attempt idx) <> Connected ->
  (forall states total, walk_ok order attempt states (dial_walk order attempt states total)) ->
  walk_ok (idx :: order) attempt states
    (let (states, total) :=
       record states idx
         (fun s => record_failure s (at_now (attempt idx)) (at_wall (attempt idx)) total) total in
     dial_walk order attempt states total).
Proof.
  intros Hni Ho IH. destruct (record states idx _ total) as [states' total'] eqn:Er.
  specialize (IH states' total'). unfold walk_ok in *.
  destruct (dial_walk _ _ _ _) as [[states'' t''] chosen].
  destruct IH as (tried & rest & -> & Ht & Hc & Hl').
  exists (idx :: tried), rest. split_and!; [done|by constructor|done|].
  intros i s Hi. eapply record_lookup in Hi. rewrite Er in Hi. apply Hl' in Hi.
  rewrite Hi, after_walk_cons. destruct (decide (idx = i)) as [->|]; [|done].
  rewrite after_walk_fresh; [done|set_solver|]. destruct chosen; [|done].
  destruct Hc as (rest' & -> & _). set_solver.
Qed.

Lemma dial_walk_spec order attempt states total :
  NoDup order -> walk_ok order attempt states (dial_walk order attempt states total).
Proof.
  intros Hnd. revert states total. induction order as [|idx order IH]; intros states total; simpl.
  { unfold walk_ok. exists [], []. split_and!; [done..|]. intros i s ->. by rewrite after_walk_fresh by set_solver. }
  apply NoDup_cons in Hnd as [Hni Hnd].
  destruct (outcome (attempt idx)) eqn:Eo.
  - destruct (record states idx _ total) as [states' total'] eqn:Er. unfold walk_ok.
    exists [], (idx :: order). split_and!; [done..|by eexists|]. intros i s Hi.
    eapply record_lookup in Hi. rewrite Er in Hi. simpl in Hi. rewrite Hi. unfold after_walk. simpl.
    destruct (decide (idx = i)) as [->|].
    + rewrite decide_True by done. by rewrite (record_success_total _ _ _ total 0).
    + by rewrite decide_False by congruence.
  - apply walk_failure; [done|by rewrite Eo|auto].
  - apply walk_failure; [done|by rewrite Eo|auto].
Qed.

Lemma select_lt hs : hs <> [] -> (default 0%nat (first_healthy 0 hs) < length hs)%nat.
Proof.
  intros Hne. pose proof (first_healthy_spec 0 hs) as H.
  destruct (first_healthy 0 hs) as [k|]; simpl.
  - destruct H as (j & -> & Hj & _). by eapply lookup_lt_Some.
  - destruct hs; [done|simpl; lia].
Qed.

Lemma dial_order_perm hs : hs <> [] -> dial_order hs (length hs) ≡ₚ seq 0 (length hs).
Proof.
  intros Hne. pose proof (select_lt hs Hne). unfold dial_order.
  rewrite merge_sort_Permutation. apply NoDup_Permutation.
  - apply NoDup_cons. split; [rewrite list_elem_of_filter; naive_solver|].
    apply NoDup_filter, NoDup_seq.
  - apply NoDup_seq.
  - intros i. rewrite elem_of_cons, list_elem_of_filter, !elem_of_seq.
    destruct (decide (i = default 0%nat (first_healthy 0 hs))); naive_solver lia.
Qed.

(** A connection attempt exhausts every target before it gives up: the
    targets are tried in an order that starts with [select]'s choice and
    contains each of them once, the walk stops at the first that connects, no
    target is reported only when all of them failed, and each target's health
    record is updated by its own outcome and by nothing else. *)
Theorem dial_with_failover_spec targets states total attempt :
  length targets = length states -> targets <> [] ->
  exists order, order ≡ₚ seq 0 (length targets) /\ head order = Some (select states) /\
    walk_ok order attempt states (dial_with_failover targets states total attempt) /\
    ((dial_with_failover targets states total attempt).2 = None <->
     forall i, (i < length targets)%nat -> outcome (attempt i) <> Connected).
Proof.
  intros Hlen Hne. unfold dial_with_failover.
  assert (state <$> states <> []) as Hst by (destruct states, targets; done).
  pose proof (dial_order_perm _ Hst) as Hp. rewrite length_fmap, <- Hlen in Hp.
  exists (dial_order (state <$> states) (length targets)). split; [done|]. split; [done|].
  pose proof (dial_walk_spec (dial_order (state <$> states) (length targets)) attempt states total)
    as Hw. split; [apply Hw; rewrite Hp; apply NoDup_seq|].
  unfold walk_ok in Hw. destruct (dial_walk _ _ _ _) as [[st' t'] [i|]]; simpl.
  - split; [done|]. intros Hall. destruct Hw as (tried & rest & Ho & _ & (rest' & -> & Hc) & _).
    { rewrite Hp. apply NoDup_seq. }
    assert (i ∈ seq 0 (length targets)) as Hi by (rewrite <- Hp, Ho; set_solver).
    rewrite elem_of_seq in Hi. exfalso. apply (Hall i); [lia|done].
  - split; [|done]. intros _ i Hi. destruct Hw as (tried & rest & Ho & Ht & -> & _).
    { rewrite Hp. apply NoDup_seq. }
    rewrite app_nil_r in Ho. rewrite Forall_forall in Ht. apply Ht.
    rewrite <- Ho, Hp, elem_of_seq. lia.
Qed.

Lemma dial_with_failover_spec_witness :
  ((dial_with_failover two_targets [new; new] 0 (fun _ => mkAttempt DialFailed 0 0)).2 = None <->
   forall i, (i < 2)%nat -> outcome (mkAttempt DialFailed 0 0) <> Connected).
Proof.
  destruct (dial_with_failover_spec two_targets [new; new] 0 (fun _ => mkAttempt DialFailed 0 0))
    as (order & _ & _ & _ & H); [done|done|]. exact H.
Defined.

(** The dial walk does not consult priorities: with every target healthy
    it opens the connection to row 0, also when [sort_priority] puts another
    row first. *)
Theorem dial_ignores_priority :
  sort_priority two_targets = Some [1%nat; 0%nat] /\
  forall total attempt, outcome (attempt 0%nat) = Connected ->
    (dial_with_failover two_targets [new; new] total attempt).2 = Some 0%nat.
Proof.
  split; [reflexivity|]. intros total attempt H0.
  unfold dial_with_failover. simpl. by rewrite H0.
Qed.

Lemma key_le_total targets i j : key_le targets i j \/ key_le targets j i.
Proof. unfold key_le. destruct (key targets i), (key targets j). lia. Qed.

#[export] Instance key_le_trans targets : Transitive (key_le targets).
Proof.
  intros i j k. unfold key_le. destruct (key targets i), (key targets j), (key targets k). lia.
Qed.

#[export] Instance key_le_total_inst targets : Total (key_le targets).
Proof. intros i j. apply key_le_total. Qed.

(** What [sort_priority] and [select] give together: with the records laid
    out in [sort_priority]'s order, the selected row is healthy whenever some
    row is, and no healthy row precedes it in (priority, row) order; when all
    have failed the best row overall is selected. *)
Theorem sorted_select_is_best targets order (st : nat -> HealthState) :
  sort_priority targets = Some order ->
  order ≡ₚ seq 0 (length targets) /\
  exists r, order !! select (st <$> order) = Some r /\
    ((exists i, i ∈ order /\ state (st i) = Healthy) -> state (st r) = Healthy) /\
    forall i, i ∈ order -> state (st i) = Healthy \/ state (st r) = Failed ->
      key_le targets r i.
Proof.
  intros Ho. destruct targets as [|t0 ts]; [done|].
  set (targets := t0 :: ts) in *. unfold sort_priority, targets in Ho. fold targets in Ho.
  injection Ho as <-. set (order := merge_sort _ _).
  assert (order ≡ₚ seq 0 (length targets)) as Hp by apply merge_sort_Permutation.
  split; [done|].
  assert (StronglySorted (key_le targets) order) as Hs by (apply StronglySorted_merge_sort; apply _).
  pose proof (first_healthy_spec 0 (state <$> (st <$> order))) as Hf.
  unfold select. clearbody order.
  destruct (first_healthy 0 _) as [k|]; simpl.
  - destruct Hf as (j & -> & Hj & Hlt). simpl. rewrite <- list_fmap_compose, list_lookup_fmap in Hj.
    destruct (order !! j) as [r|] eqn:Er; simplify_eq/=. exists r. split; [done|].
    split; [done|]. intros i Hi [Hh|Hx]; [|congruence].
    apply list_elem_of_lookup in Hi as [m Hm]. destruct (decide (m < j)%nat) as [Hmj|Hmj].
    + specialize (Hlt m Hmj). rewrite <- list_fmap_compose, list_lookup_fmap, Hm in Hlt.
      simpl in Hlt. congruence.
    + destruct (decide (m = j)) as [->|]; [simplify_eq; by destruct (key_le_total targets r r)|].
      eapply StronglySorted_lookup; [done| |done|done]. lia.
  - assert (length order = S (length ts)) as Hl by (rewrite Hp, length_seq; done).
    destruct order as [|r order]; [done|]. exists r. split; [done|].
    assert (forall i, i ∈ r :: order -> state (st i) = Failed) as Hall.
    { intros i Hi. rewrite Forall_fmap in Hf. rewrite Forall_fmap in Hf.
      rewrite Forall_forall in Hf. by apply Hf. }
    split; [intros (i & Hi & Hh); apply Hall in Hi; congruence|].
    intros i Hi _. apply elem_of_cons in Hi as [->|Hi]; [by destruct (key_le_total targets r r)|].
    inversion_clear Hs as [|? ? _ Hfa]. rewrite Forall_forall in Hfa. auto.
Qed.

Lemma sorted_select_is_best_witness :
  exists r, [1%nat; 0%nat] !! select ((fun _ => new) <$> [1%nat; 0%nat]) = Some r /\
    key_le two_targets r 0.
Proof.
  destruct (sorted_select_is_best two_targets [1%nat; 0%nat] (fun _ => new) eq_refl)
    as (_ & r & Hr & _ & Hle).
  exists r. split; [exact Hr|]. apply Hle; [set_solver|by left].
Defined.

(** A statistics tick without contention reports every target of the rule
    once, at its own row and with its own record. *)
Theorem snapshot_reports_all targets states total :
  length targets = length states ->
  snapshot_per_target targets states total (fun _ => false) =
    (total, imap (fun i ts => snapshot_one i ts.1 ts.2) (zip targets states)).
Proof.
  intros Hlen. unfold snapshot_per_target. f_equal.
  enough (forall pre, snapshot_from (length pre) targets (pre ++ states) (fun _ => false) =
    imap (fun i ts => snapshot_one (length pre + i) ts.1 ts.2) (zip targets states)) as H
    by apply (H []).
  revert states Hlen. induction targets as [|t targets IH]; intros [|s states] Hlen pre; try done.
  simpl. rewrite list_lookup_middle by done. f_equal; [by rewrite Nat.add_0_r|].
  specialize (IH states ltac:(simpl in Hlen; lia) (pre ++ [s])).
  rewrite length_app, <- app_assoc in IH. simpl in IH. rewrite Nat.add_1_r in IH. rewrite IH.
  apply imap_ext. intros i x _. simpl. f_equal. lia.
Qed.

Lemma snapshot_reports_all_witness :
  (snapshot_per_target two_targets [new; new] 5 (fun _ => false)).1 = 5.
Proof. by rewrite (snapshot_reports_all two_targets [new; new] 5 eq_refl). Defined.

End Failover.
