(* ===== verification/ClientHello.v ===== *)
(** * TLS ClientHello

    [crates/portunus-forwarder/src/forwarder/sni/client_hello.rs] (the
    hand-rolled parser of the [server_name] extension and the builder of
    minimal hellos) and [peek.rs] (the loop that reads from an accepted stream
    until the parser decides).

    Bytes are [Z]s in [0, 255].  A slice or an index out of range is a panic in
    Rust, and is [Panics] here; so is a loop that runs out of its fuel, which
    is the length of the buffer it walks plus one. *)

From S2P Require Import Prelude Text.

Open Scope Z_scope.

Module ClientHello.

Inductive ParseOutcome : Type :=
| Truncated
| Parsed (sni : option (list Z)).

Inductive ParseError : Type := NotTls | Malformed.

#[export] Instance ParseOutcome_eq_dec : EqDecision ParseOutcome.
Proof. solve_decision. Defined.
#[export] Instance ParseError_eq_dec : EqDecision ParseError.
Proof. solve_decision. Defined.

Definition MAX_HANDSHAKE_BODY : nat := Z.to_nat 16384.
Definition RECORD_TYPE_HANDSHAKE : Z := 0x16.
Definition HS_MSG_CLIENT_HELLO : Z := 0x01.
Definition EXT_SERVER_NAME : Z := 0x0000.
Definition SNI_NAME_TYPE_HOST : Z := 0x00.

(** A fallible computation that may panic. *)
Abbreviation Run A := (Outcome (Result A ParseError)).

Notation "'let!' x ':=' c 'in' k" :=
  (match c with
   | Returns (Ok x) => k
   | Returns (Err e) => Returns (Err e)
   | Panics => Panics
   end)
  (at level 10, x pattern, c at level 100, k at level 200,
   format "'[v' 'let!'  x  ':='  c  'in'  '/' k ']'").

(** [buf[i]] and [&buf[a..b]]. *)
Definition index (buf : list Z) (i : nat) : Run Z :=
  match buf !! i with Some v => Returns (Ok v) | None => Panics end.

Definition slice (buf : list Z) (a b : nat) : Run (list Z) :=
  if (a <=? b)%nat && (b <=? length buf)%nat then Returns (Ok (take (b - a) (drop a buf)))
  else Panics.

Definition u16_from_be (a b : Z) : nat := Z.to_nat (a * 256 + b).

(** ** Cursor *)

Record Cursor : Type := mkCursor { buf : list Z; pos : nat }.

Definition cursor (b : list Z) : Cursor := mkCursor b 0.

Definition is_eof (c : Cursor) : bool := (length (buf c) <=? pos c)%nat.

Definition read_u8 (c : Cursor) : Run (Z * Cursor) :=
  if (length (buf c) <? pos c + 1)%nat then Returns (Err Malformed)
  else
    let! v := index (buf c) (pos c) in
    Returns (Ok (v, mkCursor (buf c) (pos c + 1))).

Definition read_u16 (c : Cursor) : Run (nat * Cursor) :=
  if (length (buf c) <? pos c + 2)%nat then Returns (Err Malformed)
  else
    let! a := index (buf c) (pos c) in
    let! b := index (buf c) (pos c + 1) in
    Returns (Ok (u16_from_be a b, mkCursor (buf c) (pos c + 2))).

Definition skip (n : nat) (c : Cursor) : Run Cursor :=
  if (length (buf c) <? pos c + n)%nat then Returns (Err Malformed)
  else Returns (Ok (mkCursor (buf c) (pos c + n))).

Definition take_n (n : nat) (c : Cursor) : Run (list Z * Cursor) :=
  if (length (buf c) <? pos c + n)%nat then Returns (Err Malformed)
  else
    let! s := slice (buf c) (pos c) (pos c + n) in
    Returns (Ok (s, mkCursor (buf c) (pos c + n))).

(** ** The parser *)

(** The host of one [host_name] entry: decoded, trimmed, its trailing dots
    dropped. *)
Definition host_of (name_bytes : list Z) : Run (list Z) :=
  match from_utf8 name_bytes with
  | Some s => Returns (Ok (trim_end_matches 46 (trim s)))
  | None => Returns (Err Malformed)
  end.

(** The [server_name_list] loop. *)
Fixpoint walk_names (fuel : nat) (lc : Cursor) : Run ParseOutcome :=
  match fuel with
  | O => Panics
  | S fuel =>
    if is_eof lc then Returns (Ok (Parsed None))
    else
      let! (name_type, lc) := read_u8 lc in
      let! (name_len, lc) := read_u16 lc in
      let! (name_bytes, lc) := take_n name_len lc in
      if (name_type =? SNI_NAME_TYPE_HOST) && negb (bool_decide (name_bytes = [])) then
        let! raw := host_of name_bytes in
        if bool_decide (raw = []) then walk_names fuel lc
        else Returns (Ok (Parsed (Some (lower raw))))
      else walk_names fuel lc
  end.

(** The body of a [server_name] extension. *)
Definition server_name (ext_data : list Z) : Run ParseOutcome :=
  let! (list_len, sc) := read_u16 (cursor ext_data) in
  let! (list_bytes, _) := take_n list_len sc in
  walk_names (S (length list_bytes)) (cursor list_bytes).

(** The extension loop. *)
Fixpoint walk_exts (fuel : nat) (ec : Cursor) : Run ParseOutcome :=
  match fuel with
  | O => Panics
  | S fuel =>
    if is_eof ec then Returns (Ok (Parsed None))
    else
      let! (ext_type, ec) := read_u16 ec in
      let! (ext_data_len, ec) := read_u16 ec in
      let! (ext_data, ec) := take_n ext_data_len ec in
      if negb (Z.of_nat ext_type =? EXT_SERVER_NAME) then walk_exts fuel ec
      else server_name ext_data
  end.

(** The ClientHello body, from [legacy_session_id] on. *)
Definition parse_body (body : list Z) : Run ParseOutcome :=
  if (length body <? 34)%nat then Returns (Err Malformed)
  else
    let! rest := slice body 34 (length body) in
    let! (sid_len, cur) := read_u8 (cursor rest) in
    let! cur := skip (Z.to_nat sid_len) cur in
    let! (cipher_suites_len, cur) := read_u16 cur in
    let! cur := skip cipher_suites_len cur in
    let! (compression_methods_len, cur) := read_u8 cur in
    let! cur := skip (Z.to_nat compression_methods_len) cur in
    if is_eof cur then Returns (Ok (Parsed None))
    else
      let! (ext_total, cur) := read_u16 cur in
      let! (ext_bytes, _) := take_n ext_total cur in
      walk_exts (S (length ext_bytes)) (cursor ext_bytes).

Definition parse_fragment (fragment : list Z) : Run ParseOutcome :=
  if (length fragment <? 4)%nat then Returns (Err Malformed)
  else
    let! msg_type := index fragment 0 in
    if negb (msg_type =? HS_MSG_CLIENT_HELLO) then Returns (Err Malformed)
    else
      let! l2 := index fragment 1 in
      let! l1 := index fragment 2 in
      let! l0 := index fragment 3 in
      let hs_len := Z.to_nat (Z.lor (Z.lor (Z.shiftl l2 16) (Z.shiftl l1 8)) l0) in
      if (length fragment - 4 <? hs_len)%nat then Returns (Err Malformed)
      else
        let! body := slice fragment 4 (4 + hs_len) in
        parse_body body.

Definition parse (bytes : list Z) : Run ParseOutcome :=
  if (length bytes <? 5)%nat then Returns (Ok Truncated)
  else
    let! b0 := index bytes 0 in
    if negb (b0 =? RECORD_TYPE_HANDSHAKE) then Returns (Err NotTls)
    else
      let! b1 := index bytes 1 in
      if negb (b1 =? 0x03) then Returns (Err NotTls)
      else
        let! b3 := index bytes 3 in
        let! b4 := index bytes 4 in
        let record_len := u16_from_be b3 b4 in
        if (record_len =? 0)%nat || (MAX_HANDSHAKE_BODY <? record_len)%nat
        then Returns (Err Malformed)
        else if (length bytes <? 5 + record_len)%nat then Returns (Ok Truncated)
        else
          let! fragment := slice bytes 5 (5 + record_len) in
          parse_fragment fragment.

(** ** The builder *)

(** [(n as u16).to_be_bytes()]. *)
Definition be16 (n : nat) : list Z :=
  [(Z.of_nat n / 256) mod 256; Z.of_nat n mod 256].

(** [u16::try_from(n).unwrap()]. *)
Definition unwrap_u16 (n : nat) : Outcome nat :=
  if (Z.of_nat n <=? u16_max) then Returns n else Panics.

Definition server_name_ext (host : list Z) : Outcome (list Z) :=
  match unwrap_u16 (str_len host) with
  | Panics => Panics
  | Returns n =>
    let sn_list := [0x00] ++ be16 n ++ as_bytes host in
    let sn_ext_data := be16 (length sn_list) ++ sn_list in
    Returns ([0x00; 0x00] ++ be16 (length sn_ext_data) ++ sn_ext_data)
  end.

Definition hello_prefix : list Z :=
  [0x03; 0x03] ++ replicate 32 0xab.

Definition wrap_hello (exts : list Z) : Outcome (list Z) :=
  match unwrap_u16 (length exts) with
  | Panics => Panics
  | Returns n =>
    let body := hello_prefix ++ [0x00] ++ [0x00; 0x02; 0x13; 0x01] ++ [0x01; 0x00]
                  ++ be16 n ++ exts in
    let hs_len := Z.of_nat (length body) in
    let hs := [0x01; Z.land (Z.shiftr hs_len 16) 0xff; Z.land (Z.shiftr hs_len 8) 0xff;
               Z.land hs_len 0xff] ++ body in
    Returns ([0x16] ++ [0x03; 0x01] ++ be16 (length hs) ++ hs)
  end.

Definition build_client_hello (sni : option (list Z)) : Outcome (list Z) :=
  match sni with
  | Some host =>
    match server_name_ext host with
    | Returns exts => wrap_hello exts
    | Panics => Panics
    end
  | None => wrap_hello []
  end.

(** ** The peek loop

    The stream is the bytes the peer sends.  The script is what the socket
    does at each read of the loop: the instant before it and its result. *)

Inductive PeekError : Type :=
| Timeout (bytes_read : nat)
| PeekNotTls
| PeekMalformed
| SizeCap
| Io.

Inductive ReadEvent : Type :=
| ReadSome (n : nat) (* the socket has n bytes ready, or is closed *)
| ReadFailed
| ReadElapsed.

Inductive Peek : Type :=
| Waiting (* the script ends: the read has not returned *)
| Done (r : Result (list Z * option (list Z)) PeekError) (rest : list Z)
| Crashed.

Definition PEEK_BYTE_CAP : nat := Z.to_nat (64 * 1024).
Definition CHUNK : nat := Z.to_nat (4 * 1024).

Fixpoint peek_loop (deadline : Z) (cap : nat) (stream buffered : list Z)
  (script : list (Z * ReadEvent)) : Peek :=
  match parse buffered with
  | Panics => Crashed
  | Returns (Ok (Parsed sni)) => Done (Ok (buffered, sni)) stream
  | Returns (Err NotTls) => Done (Err PeekNotTls) stream
  | Returns (Err Malformed) => Done (Err PeekMalformed) stream
  | Returns (Ok Truncated) =>
    if (cap <=? length buffered)%nat then Done (Err SizeCap) stream
    else
      match script with
      | [] => Waiting
      | (now, ev) :: script =>
        if deadline <=? now then Done (Err (Timeout (length buffered))) stream
        else
          let want := Nat.min CHUNK (cap - length buffered) in
          match ev with
          | ReadElapsed => Done (Err (Timeout (length buffered))) stream
          | ReadFailed => Done (Err Io) stream
          | ReadSome n =>
            let got := take (Nat.min n want) stream in
            if bool_decide (got = []) then Done (Err Io) stream
            else peek_loop deadline cap (drop (Nat.min n want) stream) (buffered ++ got) script
          end
      end
  end.

(** [read_client_hello_with], called at [start]. *)
Definition read_client_hello_with (start timeout : Z) (cap : nat) (stream : list Z)
  (script : list (Z * ReadEvent)) : Peek :=
  peek_loop (start + timeout) cap stream [] script.

(** ** Lemmas *)

(** What is left to read. *)
Definition rest (c : Cursor) : list Z := drop (pos c) (buf c).

Definition cursor_ok (c : Cursor) : Prop := (pos c <= length (buf c))%nat.

(** What the reads of the cursor give: an error, or progress within bounds. *)
Definition reads {A} (c : Cursor) (k : nat) (r : Run (A * Cursor)) : Prop :=
  match r with
  | Returns (Ok (_, c')) => buf c' = buf c /\ (pos c + k <= pos c' <= length (buf c))%nat
  | Returns (Err _) => True
  | Panics => False
  end.

Lemma index_lt (b : list Z) i : (i < length b)%nat -> exists v, index b i = Returns (Ok v).
Proof. intros Hi. unfold index. destruct (lookup_lt_is_Some_2 b i Hi) as [v ->]. eauto. Qed.

Lemma read_u8_reads c : reads c 1 (read_u8 c).
Proof.
  unfold read_u8. case_test; [done|]. bool_prop.
  destruct (index_lt (buf c) (pos c)) as [v ->]; [lia|]. simpl. split; [done|lia].
Qed.

Lemma read_u16_reads c : reads c 2 (read_u16 c).
Proof.
  unfold read_u16. case_test; [done|]. bool_prop.
  destruct (index_lt (buf c) (pos c)) as [v ->]; [lia|].
  destruct (index_lt (buf c) (pos c + 1)) as [v' ->]; [lia|]. simpl. split; [done|lia].
Qed.

Lemma take_n_reads n c : reads c n (take_n n c).
Proof.
  unfold take_n, slice. case_test; [done|]. bool_prop.
  replace ((pos c <=? pos c + n)%nat && (pos c + n <=? length (buf c))%nat) with true.
  2: { symmetry. rewrite andb_true_iff, !Nat.leb_le. lia. }
  simpl. split; [done|lia].
Qed.

Lemma skip_ok n c c' : skip n c = Returns (Ok c') ->
  buf c' = buf c /\ (pos c + n <= pos c' <= length (buf c))%nat.
Proof. unfold skip. intros H. case_test_in H; simplify_eq. bool_prop. simpl. split; [done|lia]. Qed.

Lemma skip_no_panic n c : skip n c <> Panics.
Proof. unfold skip. by case_test. Qed.

Lemma host_of_no_panic b : host_of b <> Panics.
Proof. unfold host_of. by case_test. Qed.

(** Run one cursor read of the goal: its error case is closed, its success
    leaves the bounds of the new cursor. *)
Ltac run_read :=
  match goal with
  | |- context [read_u8 ?c] =>
    let H := fresh in pose proof (read_u8_reads c) as H;
    destruct (read_u8 c) as [[[? ?]|?]|]; simpl in H; [|done|done]
  | |- context [read_u16 ?c] =>
    let H := fresh in pose proof (read_u16_reads c) as H;
    destruct (read_u16 c) as [[[? ?]|?]|]; simpl in H; [|done|done]
  | |- context [take_n ?n ?c] =>
    let H := fresh in pose proof (take_n_reads n c) as H;
    destruct (take_n n c) as [[[? ?]|?]|]; simpl in H; [|done|done]
  | |- context [skip ?n ?c] =>
    let H := fresh in let E := fresh in pose proof (skip_no_panic n c) as H;
    destruct (skip n c) as [[?|?]|] eqn:E; [apply skip_ok in E|done|done]
  end.

Ltac cursor_bounds := destruct_and?; first [congruence | lia].

Lemma walk_names_total fuel c :
  (length (buf c) - pos c < fuel)%nat -> walk_names fuel c <> Panics.
Proof.
  revert c. induction fuel as [|fuel IH]; intros c Hf; [lia|]. simpl.
  destruct (is_eof c); [done|]. do 3 run_read.
  assert (forall c', buf c' = buf c -> (pos c + 1 <= pos c')%nat -> walk_names fuel c' <> Panics)
    as Hrec by (intros c' Hb Hp; apply IH; rewrite Hb; lia).
  case_test; [|apply Hrec; cursor_bounds].
  pose proof (host_of_no_panic l). destruct (host_of l) as [[raw|]|]; [|done|done].
  case_test; [|done]. apply Hrec; cursor_bounds.
Qed.

Lemma server_name_total d : server_name d <> Panics.
Proof. unfold server_name. do 2 run_read. apply walk_names_total. simpl. lia. Qed.

Lemma walk_exts_total fuel c :
  (length (buf c) - pos c < fuel)%nat -> walk_exts fuel c <> Panics.
Proof.
  revert c. induction fuel as [|fuel IH]; intros c Hf; [lia|]. simpl.
  destruct (is_eof c); [done|]. do 3 run_read. case_test; [|apply server_name_total].
  apply IH. destruct H, H0, H1. replace (buf c2) with (buf c) by congruence. lia.
Qed.

Lemma slice_ok b i j : (i <= j <= length b)%nat ->
  slice b i j = Returns (Ok (take (j - i) (drop i b))).
Proof.
  intros. unfold slice.
  replace ((i <=? j)%nat && (j <=? length b)%nat) with true; [done|].
  symmetry. rewrite andb_true_iff, !Nat.leb_le. lia.
Qed.

Lemma parse_body_total b : parse_body b <> Panics.
Proof.
  unfold parse_body. case_test; [done|]. bool_prop. rewrite slice_ok by lia.
  do 6 run_read. case_test; [done|]. do 2 run_read. apply walk_exts_total. simpl. lia.
Qed.

Lemma parse_fragment_total b : parse_fragment b <> Panics.
Proof.
  unfold parse_fragment. case_test; [done|]. bool_prop.
  destruct (index_lt b 0) as [v ->]; [lia|]. case_test; [done|].
  destruct (index_lt b 1) as [v1 ->]; [lia|]. destruct (index_lt b 2) as [v2 ->]; [lia|].
  destruct (index_lt b 3) as [v3 ->]; [lia|]. cbv zeta. case_test; [done|]. bool_prop.
  rewrite slice_ok by lia. apply parse_body_total.
Qed.

(** The record header, read once. *)
Lemma parse_header b :
  (5 <= length b)%nat ->
  exists b0 b1 b3 b4, b !! 0%nat = Some b0 /\ b !! 1%nat = Some b1 /\
    b !! 3%nat = Some b3 /\ b !! 4%nat = Some b4 /\
    parse b =
      if negb (b0 =? RECORD_TYPE_HANDSHAKE) then Returns (Err NotTls)
      else if negb (b1 =? 0x03) then Returns (Err NotTls)
      else let rl := u16_from_be b3 b4 in
        if (rl =? 0)%nat || (MAX_HANDSHAKE_BODY <? rl)%nat then Returns (Err Malformed)
        else if (length b <? 5 + rl)%nat then Returns (Ok Truncated)
        else parse_fragment (take rl (drop 5 b)).
Proof.
  intros Hl. destruct (lookup_lt_is_Some_2 b 0) as [b0 H0]; [lia|].
  destruct (lookup_lt_is_Some_2 b 1) as [b1 H1]; [lia|].
  destruct (lookup_lt_is_Some_2 b 3) as [b3 H3]; [lia|].
  destruct (lookup_lt_is_Some_2 b 4) as [b4 H4]; [lia|].
  exists b0, b1, b3, b4. split_and!; [done..|]. unfold parse, index.
  destruct (length b <? 5)%nat eqn:E; bool_prop; [lia|]. rewrite H0, H1, H3, H4.
  case_test; [done|]. case_test; [done|]. cbv zeta. case_test; [done|]. case_test; [done|].
  bool_prop. rewrite slice_ok by lia. by replace (5 + u16_from_be b3 b4 - 5)%nat
    with (u16_from_be b3 b4) by lia.
Qed.

Lemma parse_no_panic b : parse b <> Panics.
Proof.
  destruct (decide (5 <= length b)%nat) as [Hl|Hl].
  - destruct (parse_header b Hl) as (b0 & b1 & b3 & b4 & _ & _ & _ & _ & ->). cbv zeta.
    repeat (case_test; [done|]). apply parse_fragment_total.
  - unfold parse. destruct (length b <? 5)%nat eqn:E; [done|]. bool_prop. lia.
Qed.

(** A buffer the parser calls truncated is shorter than one full record. *)
Lemma parse_truncated_short b :
  parse b = Returns (Ok Truncated) -> (length b < 5 + MAX_HANDSHAKE_BODY)%nat.
Proof.
  intros Hp. destruct (decide (5 <= length b)%nat) as [Hl|Hl]; [|lia].
  destruct (parse_header b Hl) as (b0 & b1 & b3 & b4 & _ & _ & _ & _ & Hh).
  rewrite Hh in Hp. cbv zeta in Hp.
  do 2 (case_test_in Hp; [done|]). case_test_in Hp; [done|]. bool_prop.
  case_test_in Hp; bool_prop; [lia|]. exfalso. revert Hp.
  generalize (take (u16_from_be b3 b4) (drop 5 b)) as f. intros f Hp.
  assert (forall k, parse_fragment k <> Returns (Ok Truncated)) as Hn; [|by eapply Hn].
  clear. intros k. unfold parse_fragment, parse_body.
  assert (forall fuel c, walk_names fuel c <> Returns (Ok Truncated)) as Hwn.
  { induction fuel as [|fuel IH]; intros c; simpl; [done|]. by repeat (case_match; try done). }
  assert (forall fuel c, walk_exts fuel c <> Returns (Ok Truncated)) as Hwe.
  { induction fuel as [|fuel IH]; intros c; simpl; [done|].
    repeat (case_match; try done). unfold server_name. by repeat (case_match; try done). }
  by repeat (case_match; try done).
Qed.

(** Once the parser has decided, bytes that follow do not matter. *)
Lemma parse_stable b more r :
  parse b = Returns r -> r <> Ok Truncated -> parse (b ++ more) = Returns r.
Proof.
  intros Hp Hr. destruct (decide (5 <= length b)%nat) as [Hl|Hl].
  2: { unfold parse in Hp. destruct (length b <? 5)%nat eqn:E; bool_prop; [congruence|lia]. }
  destruct (parse_header b Hl) as (b0 & b1 & b3 & b4 & H0 & H1 & H3 & H4 & Hh).
  destruct (parse_header (b ++ more)) as (c0 & c1 & c3 & c4 & K0 & K1 & K3 & K4 & Hh');
    [rewrite length_app; lia|].
  rewrite !lookup_app_l in * by lia. simplify_eq. rewrite Hh'. rewrite Hh in Hp. cbv zeta in *.
  do 2 (case_test_in Hp; [done|]). case_test_in Hp; [done|].
  case_test_in Hp; [congruence|]. bool_prop.
  destruct (length (b ++ more) <? 5 + u16_from_be b3 b4)%nat eqn:E; bool_prop;
    rewrite ?length_app in E; [lia|].
  rewrite <- Hp. f_equal. rewrite drop_app_le by lia. rewrite take_app_le; [done|].
  rewrite length_drop. lia.
Qed.

(** ** Theorems: the parser *)

(** C3. The parser is total: on every byte string it returns an outcome or an
    error, no index or slice is ever out of range, and its two loops end. *)
Theorem client_hello_parse_total b : exists r, parse b = Returns r.
Proof. pose proof (parse_no_panic b). destruct (parse b); [eauto|done]. Qed.


(** ** The builder *)

Lemma be16_inv n : Z.of_nat n <= u16_max ->
  exists a b, be16 n = [a; b] /\ u16_from_be a b = n.
Proof.
  intros Hn. unfold be16, u16_from_be. do 2 eexists. split; [done|]. unfold_ints.
  rewrite (Z.mod_small (Z.of_nat n / 256)).
  - rewrite Z.mul_comm, <- Z.div_mod by lia. lia.
  - split; [apply Z.div_pos; lia|apply Z.div_lt_upper_bound; lia].
Qed.

Lemma be24_inv n : 0 <= n < 65536 ->
  Z.lor (Z.lor (Z.shiftl (Z.land (Z.shiftr n 16) 0xff) 16)
           (Z.shiftl (Z.land (Z.shiftr n 8) 0xff) 8)) (Z.land n 0xff) = n.
Proof.
  intros Hn. rewrite (Z.shiftr_div_pow2 n 16), (Z.div_small n) by (simpl; lia).
  change 255 with (Z.ones 8). rewrite Z.land_0_l, Z.shiftl_0_l, Z.lor_0_l.
  assert (forall m, 16 <= m -> Z.testbit n m = false) as Hhi.
  { intros m Hm. rewrite <- (Z.mod_small n (2 ^ 16)) by (simpl; lia).
    apply Z.mod_pow2_bits_high. lia. }
  apply Z.bits_inj'. intros m Hm. rewrite Z.lor_spec, Z.shiftl_spec, !Z.land_spec by lia.
  rewrite (Z.testbit_ones_nonneg 8 m) by lia.
  destruct (decide (m < 8)) as [H8|H8].
  - rewrite (Z.testbit_neg_r _ (m - 8)) by lia. simpl. replace (m <? 8) with true by lia.
    by rewrite andb_true_r.
  - rewrite Z.shiftr_spec by lia. replace (m - 8 + 8) with m by lia.
    replace (m <? 8) with false by lia. rewrite andb_false_r, orb_false_r.
    rewrite Z.testbit_ones_nonneg by lia.
    destruct (decide (m < 16)); [replace (m - 8 <? 8) with true by lia; apply andb_true_r|].
    by rewrite Hhi by lia.
Qed.

Lemma rest_lookup c i : rest c !! i = buf c !! (pos c + i)%nat.
Proof. apply lookup_drop. Qed.

Lemma rest_length c l : rest c = l -> l <> [] -> length (buf c) = (pos c + length l)%nat.
Proof.
  intros <- Hne. unfold rest in *. rewrite length_drop. rewrite <- length_zero_iff_nil, length_drop in Hne. lia.
Qed.

Lemma is_eof_rest c : is_eof c = bool_decide (rest c = []).
Proof.
  unfold is_eof, rest. case_bool_decide as H.
  - apply Nat.leb_le. rewrite <- length_zero_iff_nil, length_drop in H. lia.
  - apply Nat.leb_gt. rewrite <- length_zero_iff_nil, length_drop in H. lia.
Qed.

Lemma read_u8_rest c a l : rest c = a :: l ->
  exists c', read_u8 c = Returns (Ok (a, c')) /\ rest c' = l.
Proof.
  intros Hr. pose proof (rest_length c _ Hr ltac:(done)) as Hl. simpl in Hl.
  pose proof (rest_lookup c 0) as H0. rewrite Hr, Nat.add_0_r in H0. simpl in H0.
  unfold read_u8, index. rewrite <- H0.
  replace (length (buf c) <? pos c + 1)%nat with false by (symmetry; apply Nat.ltb_ge; lia).
  eexists. split; [done|]. unfold rest in *; simpl. by rewrite <- drop_drop, Hr.
Qed.

Lemma read_u16_rest c a b l : rest c = a :: b :: l ->
  exists c', read_u16 c = Returns (Ok (u16_from_be a b, c')) /\ rest c' = l.
Proof.
  intros Hr. pose proof (rest_length c _ Hr ltac:(done)) as Hl. simpl in Hl.
  pose proof (rest_lookup c 0) as H0. pose proof (rest_lookup c 1) as H1.
  rewrite Hr, Nat.add_0_r in H0. rewrite Hr in H1. simpl in H0, H1.
  unfold read_u16, index. rewrite <- H0, <- H1.
  replace (length (buf c) <? pos c + 2)%nat with false by (symmetry; apply Nat.ltb_ge; lia).
  eexists. split; [done|]. unfold rest in *; simpl. by rewrite <- drop_drop, Hr.
Qed.

Lemma take_n_rest c k l : rest c = k ++ l -> k ++ l <> [] ->
  exists c', take_n (length k) c = Returns (Ok (k, c')) /\ rest c' = l.
Proof.
  intros Hr Hp. pose proof (rest_length c _ Hr Hp). assert (length (rest c) = length k + length l)%nat as Hl
    by (by rewrite Hr, length_app).
  unfold rest in Hl. rewrite length_drop in Hl. unfold take_n.
  replace (length (buf c) <? pos c + length k)%nat with false by (symmetry; apply Nat.ltb_ge; lia).
  rewrite slice_ok by lia. eexists. unfold rest in *. split.
  - rewrite Hr. replace (pos c + length k - pos c)%nat with (length k) by lia.
    by rewrite take_app_length.
  - simpl. by rewrite <- drop_drop, Hr, drop_app_length.
Qed.

Lemma skip_rest c k l : rest c = k ++ l -> k ++ l <> [] ->
  exists c', skip (length k) c = Returns (Ok c') /\ rest c' = l.
Proof.
  intros Hr Hp. pose proof (rest_length c _ Hr Hp). assert (length (rest c) = length k + length l)%nat as Hl
    by (by rewrite Hr, length_app).
  unfold rest in Hl. rewrite length_drop in Hl. unfold skip.
  replace (length (buf c) <? pos c + length k)%nat with false by (symmetry; apply Nat.ltb_ge; lia).
  eexists. split; [done|]. unfold rest in *; simpl. by rewrite <- drop_drop, Hr, drop_app_length.
Qed.

(** A [host_name] entry that the builder writes. *)
Definition name_entry (h : list Z) : list Z := [0x00] ++ be16 (length h) ++ h.

Definition name_list (h : list Z) : list Z := be16 (length (name_entry h)) ++ name_entry h.

Definition name_ext (h : list Z) : list Z :=
  [0x00; 0x00] ++ be16 (length (name_list h)) ++ name_list h.

Lemma length_name_entry h : length (name_entry h) = (3 + length h)%nat.
Proof. done. Qed.

Lemma walk_names_entry fuel c h s :
  rest c = name_entry h -> Z.of_nat (length h) <= 60000 -> h <> [] -> from_utf8 h = Some s ->
  trim_end_matches 46 (trim s) <> [] ->
  walk_names (S fuel) c = Returns (Ok (Parsed (Some (lower (trim_end_matches 46 (trim s)))))).
Proof.
  intros Hr Hl Hne Hu Ht. destruct (be16_inv (length h)) as (a & b & Hb & Hab); [unfold_ints; lia|].
  unfold name_entry in Hr. rewrite Hb in Hr. simpl in Hr. cbn [walk_names].
  rewrite is_eof_rest, Hr. rewrite bool_decide_false by done.
  destruct (read_u8_rest c _ _ Hr) as (c1 & -> & Hr1).
  destruct (read_u16_rest c1 _ _ _ Hr1) as (c2 & -> & Hr2). rewrite Hab.
  destruct (take_n_rest c2 h []) as (c3 & -> & _); [by rewrite app_nil_r|by rewrite app_nil_r|].
  rewrite bool_decide_false by done. unfold host_of. rewrite Hu. simpl.
  by rewrite bool_decide_false by done.
Qed.

Lemma server_name_list h s :
  Z.of_nat (length h) <= 60000 -> h <> [] -> from_utf8 h = Some s ->
  trim_end_matches 46 (trim s) <> [] ->
  server_name (name_list h) =
    Returns (Ok (Parsed (Some (lower (trim_end_matches 46 (trim s)))))).
Proof.
  intros Hl Hne Hu Ht. unfold server_name, name_list.
  destruct (be16_inv (length (name_entry h))) as (a & b & Hb & Hab);
    [rewrite length_name_entry; unfold_ints; lia|]. rewrite Hb.
  destruct (read_u16_rest (cursor ([a; b] ++ name_entry h)) a b (name_entry h)) as (c1 & -> & Hr1);
    [done|]. rewrite Hab.
  destruct (take_n_rest c1 (name_entry h) []) as (c2 & -> & _);
    [by rewrite app_nil_r|done|]. by apply (walk_names_entry _ _ h).
Qed.

Lemma walk_exts_name fuel c h :
  rest c = name_ext h -> Z.of_nat (length h) <= 60000 ->
  walk_exts (S fuel) c = server_name (name_list h).
Proof.
  intros Hr Hl. unfold name_ext in Hr.
  destruct (be16_inv (length (name_list h))) as (a & b & Hb & Hab);
    [simpl; unfold_ints; lia|]. rewrite Hb in Hr. simpl in Hr. cbn [walk_exts].
  rewrite is_eof_rest, Hr, bool_decide_false by done.
  destruct (read_u16_rest c _ _ _ Hr) as (c1 & -> & Hr1).
  destruct (read_u16_rest c1 _ _ _ Hr1) as (c2 & -> & Hr2). rewrite Hab.
  destruct (take_n_rest c2 (name_list h) []) as (c3 & -> & _); [by rewrite app_nil_r|done|].
  done.
Qed.

Definition hello_body (exts : list Z) : list Z :=
  hello_prefix ++ [0x00] ++ [0x00; 0x02; 0x13; 0x01] ++ [0x01; 0x00]
    ++ be16 (length exts) ++ exts.

Lemma parse_body_hello exts :
  exts <> [] -> Z.of_nat (length exts) <= 65535 ->
  exists c, rest c = exts /\ parse_body (hello_body exts) = walk_exts (S (length exts)) c.
Proof.
  intros Hne Hl. destruct (be16_inv (length exts)) as (a & b & Hb & Hab); [unfold_ints; lia|].
  unfold hello_body. rewrite Hb. unfold parse_body.
  replace (length _ <? 34)%nat with false
    by (symmetry; apply Nat.ltb_ge; rewrite !length_app; simpl; lia).
  rewrite slice_ok by (rewrite !length_app; simpl; lia).
  change 34%nat with (length hello_prefix) at 2. rewrite drop_app_length.
  rewrite take_ge by (rewrite !length_app; simpl; lia).
  destruct (read_u8_rest (cursor ([0] ++ [0; 2; 19; 1] ++ [1; 0] ++ [a; b] ++ exts)) 0 _ eq_refl)
    as (c1 & -> & Hr1).
  destruct (skip_rest c1 [] _ Hr1) as (c2 & E2 & Hr2); [done|].
  change (Z.to_nat 0) with (length (@nil Z)). rewrite E2.
  destruct (read_u16_rest c2 _ _ _ Hr2) as (c3 & -> & Hr3).
  destruct (skip_rest c3 [19; 1] _ Hr3) as (c4 & E4 & Hr4); [done|].
  change (u16_from_be 0 2) with (length [19; 1]). rewrite E4.
  destruct (read_u8_rest c4 _ _ Hr4) as (c5 & -> & Hr5).
  destruct (skip_rest c5 [0] _ Hr5) as (c6 & E6 & Hr6); [done|].
  change (Z.to_nat 1) with (length [0]). rewrite E6.
  rewrite is_eof_rest, Hr6, bool_decide_false by done.
  destruct (read_u16_rest c6 _ _ _ Hr6) as (c7 & -> & Hr7). rewrite Hab.
  destruct (take_n_rest c7 exts []) as (c8 & -> & Hr8); [by rewrite app_nil_r| |].
  { by destruct exts. }
  by exists (cursor exts).
Qed.

Definition hello_fragment (body : list Z) : list Z :=
  let n := Z.of_nat (length body) in
  [0x01; Z.land (Z.shiftr n 16) 0xff; Z.land (Z.shiftr n 8) 0xff; Z.land n 0xff] ++ body.

Lemma parse_fragment_hello body :
  Z.of_nat (length body) < 65536 -> parse_fragment (hello_fragment body) = parse_body body.
Proof.
  intros Hl. unfold parse_fragment, hello_fragment.
  replace (length _ <? 4)%nat with false by (symmetry; apply Nat.ltb_ge; simpl; lia).
  unfold index. cbn [lookup list_lookup app]. cbn -[Z.land Z.shiftr Z.shiftl Z.lor slice].
  rewrite be24_inv, Nat2Z.id by lia.
  replace (length body - 0 <? length body)%nat with false by (symmetry; apply Nat.ltb_ge; lia).
  rewrite slice_ok by (simpl; lia). cbn -[parse_body].
  rewrite Nat.sub_0_r, drop_0, take_ge by lia.
  destruct (length body) as [|m] eqn:E; [done|].
  by replace (S m <=? m)%nat with false by (symmetry; apply Nat.leb_gt; lia).
Qed.

Definition hello_record (frag : list Z) : list Z :=
  [0x16] ++ [0x03; 0x01] ++ be16 (length frag) ++ frag.

Lemma parse_hello_record frag :
  0 < Z.of_nat (length frag) <= 16384 -> parse (hello_record frag) = parse_fragment frag.
Proof.
  intros Hl. destruct (be16_inv (length frag)) as (a & b & Hb & Hab); [unfold_ints; lia|].
  unfold hello_record. rewrite Hb.
  destruct (parse_header ([22] ++ [3; 1] ++ [a; b] ++ frag))
    as (b0 & b1 & b3 & b4 & H0 & H1 & H3 & H4 & ->); [simpl; lia|].
  simpl in H0, H1, H3, H4. simplify_eq.
  change (negb (22 =? RECORD_TYPE_HANDSHAKE)) with false. change (negb (3 =? 3)) with false.
  cbv iota zeta. rewrite Hab.
  replace ((length frag =? 0)%nat || (MAX_HANDSHAKE_BODY <? length frag)%nat) with false.
  2: { symmetry. rewrite orb_false_iff, Nat.eqb_neq, Nat.ltb_ge. unfold MAX_HANDSHAKE_BODY. lia. }
  replace (length _ <? 5 + length frag)%nat with false
    by (symmetry; apply Nat.ltb_ge; simpl; lia).
  simpl. rewrite drop_0. by rewrite take_ge by lia.
Qed.

Lemma wrap_hello_eq exts :
  Z.of_nat (length exts) <= 65535 ->
  wrap_hello exts = Returns (hello_record (hello_fragment (hello_body exts))).
Proof.
  intros Hl. unfold wrap_hello, unwrap_u16. unfold_ints.
  by replace (Z.of_nat (length exts) <=? 65535) with true by lia.
Qed.

(** Building and parsing are inverse up to normalisation: the parser
    recovers from a built ClientHello exactly the host that was put in,
    trimmed, without trailing dots and in lower case, for every host of
    Unicode scalar values that fits in one record. *)
Theorem client_hello_roundtrip host :
  Forall (fun c => is_scalar c = true) host -> Z.of_nat (str_len host) <= 16328 ->
  trim_end_matches 46 (trim host) <> [] ->
  exists b, build_client_hello (Some host) = Returns b /\
    parse b = Returns (Ok (Parsed (Some (lower (trim_end_matches 46 (trim host)))))).
Proof.
  intros Hs Hl Ht. pose proof (from_utf8_as_bytes host Hs) as Hu.
  assert (as_bytes host <> []) as Hne.
  { intros Hn. rewrite Hn in Hu. injection Hu as <-. done. }
  assert (build_client_hello (Some host) = wrap_hello (name_ext (as_bytes host))) as ->.
  { unfold build_client_hello, server_name_ext, unwrap_u16. unfold_ints.
    replace (Z.of_nat (str_len host) <=? 65535) with true by lia.
    unfold name_ext, name_list, name_entry. by rewrite length_as_bytes. }
  assert (length (name_ext (as_bytes host)) = 9 + str_len host)%nat as Hlen
    by (rewrite <- length_as_bytes; done).
  rewrite wrap_hello_eq by (rewrite Hlen; lia). eexists. split; [done|].
  rewrite parse_hello_record.
  2: { unfold hello_fragment, hello_body. rewrite !length_app, Hlen. simpl. lia. }
  rewrite parse_fragment_hello.
  2: { unfold hello_body. rewrite !length_app, Hlen. simpl. lia. }
  destruct (parse_body_hello (name_ext (as_bytes host))) as (c & Hc & ->); [done|rewrite Hlen; lia|].
  rewrite (walk_exts_name _ c (as_bytes host)) by (done || rewrite length_as_bytes; lia).
  apply server_name_list; [rewrite length_as_bytes; lia|done..].
Qed.

Lemma client_hello_roundtrip_witness :
  exists b, build_client_hello (Some (lit "API.Example.com.")) = Returns b /\
    parse b = Returns (Ok (Parsed (Some (lit "api.example.com")))).
Proof.
  apply (client_hello_roundtrip (lit "API.Example.com."));
    [repeat constructor|vm_compute; congruence|vm_compute; congruence].
Defined.

(** ** Theorems: the peek loop *)

Lemma peek_loop_inv deadline cap stream buffered script r rest' :
  peek_loop deadline cap stream buffered script = Done r rest' ->
  exists got, stream = got ++ rest' /\
    match r with
    | Ok (captured, sni) => captured = buffered ++ got /\
        parse captured = Returns (Ok (Parsed sni))
    | Err PeekNotTls => parse (buffered ++ got) = Returns (Err NotTls)
    | Err PeekMalformed => parse (buffered ++ got) = Returns (Err Malformed)
    | Err SizeCap => parse (buffered ++ got) = Returns (Ok Truncated) /\
        (cap <= length (buffered ++ got))%nat
    | Err _ => True
    end.
Proof.
  revert stream buffered. induction script as [|[now ev] script IH]; intros stream buffered H;
    cbn [peek_loop] in H; destruct (parse buffered) as [[[|sni]|[]]|] eqn:Ep; simplify_eq;
    try (exists []; by rewrite app_nil_r).
  - case_test_in H; simplify_eq. bool_prop. exists []. by rewrite app_nil_r.
  - case_test_in H; [simplify_eq; bool_prop; exists []; by rewrite app_nil_r|].
    case_test_in H; [simplify_eq; by exists []|].
    destruct ev as [n| |]; simplify_eq; [|by exists []|by exists []].
    set (k := Nat.min n _) in H. case_bool_decide; [simplify_eq; by exists []|].
    apply IH in H as (got & Hs & Hr). exists (take k stream ++ got). split.
    + rewrite <- app_assoc, <- Hs. symmetry. apply take_drop.
    + by rewrite <- app_assoc in Hr.
Qed.

(** Peeking is transparent and independent of how the bytes arrive: the
    captured bytes are a prefix of the stream and the parsed name is the one
    they carry; two runs over the same stream, whatever the chunks and delays,
    agree on the name; and a stream that yields a name on one run is never
    called malformed or not TLS on another. *)
Theorem peek_chunking_independent stream t1 o1 cap1 s1 t2 o2 cap2 s2 captured sni rest1 r2 rest2 :
  read_client_hello_with t1 o1 cap1 stream s1 = Done (Ok (captured, sni)) rest1 ->
  read_client_hello_with t2 o2 cap2 stream s2 = Done r2 rest2 ->
  captured ++ rest1 = stream /\ parse captured = Returns (Ok (Parsed sni)) /\
  match r2 with
  | Ok (captured2, sni2) => sni2 = sni
  | Err PeekNotTls | Err PeekMalformed => False
  | Err _ => True
  end.
Proof.
  unfold read_client_hello_with. intros H1 H2.
  apply peek_loop_inv in H1 as (g1 & Hs1 & -> & Hp1). simpl in *.
  apply peek_loop_inv in H2 as (g2 & Hs2 & Hr2). simpl in Hr2.
  split; [done|]. split; [done|].
  pose proof (parse_stable g1 rest1 _ Hp1 ltac:(done)) as Hw1. rewrite <- Hs1 in Hw1.
  assert (forall r, parse g2 = Returns r -> r <> Ok Truncated -> r = Ok (Parsed sni)) as Hag.
  { intros r Hp Hr. apply (parse_stable _ rest2) in Hp; [|done]. rewrite <- Hs2, Hw1 in Hp.
    by simplify_eq. }
  destruct r2 as [[c2 sni2]|[]]; try done.
  - destruct Hr2 as [-> Hr2]. apply Hag in Hr2; [|done]. by simplify_eq.
  - by apply Hag in Hr2.
  - by apply Hag in Hr2.
Qed.

Lemma peek_chunking_independent_witness :
  exists b captured sni, build_client_hello (Some (lit "a.b")) = Returns b /\
    captured ++ [] = b /\ parse captured = Returns (Ok (Parsed sni)).
Proof.
  pose (b := match build_client_hello (Some (lit "a.b")) with Returns b => b | Panics => [] end).
  assert (read_client_hello_with 0 3000 PEEK_BYTE_CAP b [(1, ReadSome 7); (2, ReadSome 4096)] =
    Done (Ok (b, Some (lit "a.b"))) []) as H1 by (vm_compute; reflexivity).
  destruct (peek_chunking_independent b 0 3000 PEEK_BYTE_CAP _ 0 3000 PEEK_BYTE_CAP _ _ _ _ _ _
    H1 H1) as (H2 & H3 & _).
  exists b, b, (Some (lit "a.b")). split; [vm_compute; reflexivity|]. split; [exact H2|exact H3].
Defined.

(** The loop never gives up for lack of room: with the production cap the
    [SizeCap] answer is unreachable, because the parser has decided well before
    64 KiB are buffered. *)
Theorem peek_size_cap_unreachable deadline stream script rest' :
  peek_loop deadline PEEK_BYTE_CAP stream [] script <> Done (Err SizeCap) rest'.
Proof.
  intros H. apply peek_loop_inv in H as (got & _ & Hp & Hc).
  apply parse_truncated_short in Hp. unfold PEEK_BYTE_CAP, MAX_HANDSHAKE_BODY in *. lia.
Qed.

End ClientHello.
