(* ===== verification/RouteTable.v ===== *)
(** * SNI routing table

    [crates/portunus-forwarder/src/forwarder/sni/route_table.rs]: the table a
    shared listener routes by, built from the rules of one port, and its
    lookup.  [spec_lookup] states the documented precedence directly on the
    rules; the table is proved to implement it. *)

From S2P Require Import Prelude Text.

Open Scope Z_scope.

Module RouteTable.

Abbreviation RuleId := Z (only parsing).

Inductive SniMatchKind : Type := Exact | Wildcard | Fallback.

Inductive SniMatch : Type :=
| Hit (rule_id : RuleId) (kind : SniMatchKind)
| Miss.

Inductive BuildError : Type :=
| DuplicateExact (pattern : list Z)
| DuplicateWildcard (suffix : list Z)
| DuplicateFallback.

Record SniRoutingTable : Type := mkTable {
  exact : gmap (list Z) RuleId;
  wildcards : list (list Z * RuleId);
  fallback : option RuleId;
}.

Definition DOT : Z := 46.
Definition WILDCARD_PREFIX : list Z := [42; 46]. (* "*." *)

(** One iteration of the loop of [from_members]. *)
Definition add_member (t : SniRoutingTable) (m : option (list Z) * RuleId)
  : Result SniRoutingTable BuildError :=
  let (pat, id) := m in
  match pat with
  | None =>
    match fallback t with
    | Some _ => Err DuplicateFallback
    | None => Ok (mkTable (exact t) (wildcards t) (Some id))
    end
  | Some p =>
    let lowered := lower p in
    match strip_prefix WILDCARD_PREFIX lowered with
    | Some suffix =>
      let needle := DOT :: suffix in
      if existsb (fun n => bool_decide (n.1 = needle)) (wildcards t)
      then Err (DuplicateWildcard suffix)
      else Ok (mkTable (exact t) (wildcards t ++ [(needle, id)]) (fallback t))
    | None =>
      match exact t !! lowered with
      | Some _ => Err (DuplicateExact lowered)
      | None => Ok (mkTable (<[lowered := id]> (exact t)) (wildcards t) (fallback t))
      end
    end
  end.

Fixpoint add_members (t : SniRoutingTable) (ms : list (option (list Z) * RuleId))
  : Result SniRoutingTable BuildError :=
  match ms with
  | [] => Ok t
  | m :: ms =>
    let? t := add_member t m in
    add_members t ms
  end.

(** The stable sort by descending length of the needle ([str::len], bytes). *)
Definition longer (a b : list Z * RuleId) : bool := (str_len (b.1) <=? str_len (a.1))%nat.

Definition from_members (ms : list (option (list Z) * RuleId))
  : Result SniRoutingTable BuildError :=
  let? t := add_members (mkTable ∅ [] None) ms in
  Ok (mkTable (exact t) (stable_sort longer (wildcards t)) (fallback t)).

Definition wildcard_matches (host_lc needle : list Z) : bool :=
  match strip_suffix needle host_lc with
  | None => false
  | Some prefix =>
    if bool_decide (prefix = []) then false else negb (contains_char DOT prefix)
  end.

(** The wildcard walk of [lookup]. *)
Fixpoint walk_wildcards (host_lc : list Z) (ws : list (list Z * RuleId)) : option RuleId :=
  match ws with
  | [] => None
  | (needle, id) :: ws =>
    if wildcard_matches host_lc needle then Some id else walk_wildcards host_lc ws
  end.

Definition lookup_fallback (t : SniRoutingTable) : SniMatch :=
  match fallback t with Some id => Hit id Fallback | None => Miss end.

Definition lookup (t : SniRoutingTable) (sni : option (list Z)) : SniMatch :=
  match sni with
  | Some host =>
    let host_lc := if existsb is_ascii_uppercase host then lower host else host in
    match exact t !! host_lc with
    | Some id => Hit id Exact
    | None =>
      match walk_wildcards host_lc (wildcards t) with
      | Some id => Hit id Wildcard
      | None => lookup_fallback t
      end
    end
  | None => lookup_fallback t
  end.

(** ** The specification

    What a pattern names, and the documented precedence, stated on the rules
    themselves. *)

Inductive Pattern : Type :=
| PExact (host : list Z)
| PWildcard (suffix : list Z)
| PFallback.

#[export] Instance Pattern_eq_dec : EqDecision Pattern.
Proof. solve_decision. Defined.

Definition pattern_of (pat : option (list Z)) : Pattern :=
  match pat with
  | None => PFallback
  | Some p =>
    match strip_prefix WILDCARD_PREFIX (lower p) with
    | Some suffix => PWildcard suffix
    | None => PExact (lower p)
    end
  end.

(** [label.suffix] with a non-empty label that has no dot. *)
Definition one_label_above (host suffix : list Z) : Prop :=
  exists label, host = label ++ DOT :: suffix /\ label <> [] /\ DOT ∉ label.

(** Split a host at its first dot. *)
Fixpoint split_first_dot (host : list Z) : option (list Z * list Z) :=
  match host with
  | [] => None
  | c :: host =>
    if c =? DOT then Some ([], host)
    else match split_first_dot host with
         | Some (l, s) => Some (c :: l, s)
         | None => None
         end
  end.

Definition wildcard_for (host : list Z) : option Pattern :=
  match split_first_dot host with
  | Some (_ :: _, suffix) => Some (PWildcard suffix)
  | _ => None
  end.

Definition rule_for (ms : list (option (list Z) * RuleId)) (p : Pattern) : option RuleId :=
  snd <$> list_find_fst (fun m => bool_decide (pattern_of m.1 = p)) ms.

Definition spec_lookup (ms : list (option (list Z) * RuleId)) (sni : option (list Z))
  : SniMatch :=
  let fallback_hit := match rule_for ms PFallback with
                      | Some id => Hit id Fallback | None => Miss end in
  match sni with
  | None => fallback_hit
  | Some host =>
    match rule_for ms (PExact (lower host)) with
    | Some id => Hit id Exact
    | None =>
      match wildcard_for (lower host) ≫= rule_for ms with
      | Some id => Hit id Wildcard
      | None => fallback_hit
      end
    end
  end.

(** The table of a prefix of the rules, before the final sort. *)
Definition wildcard_entry (m : option (list Z) * RuleId) : option (list Z * RuleId) :=
  match pattern_of m.1 with
  | PWildcard s => Some (DOT :: s, m.2)
  | _ => None
  end.

Definition patterns (ms : list (option (list Z) * RuleId)) : list Pattern :=
  (fun m => pattern_of m.1) <$> ms.

Record represents (ms : list (option (list Z) * RuleId)) (t : SniRoutingTable) : Prop := {
  rep_exact : forall h, exact t !! h = rule_for ms (PExact h);
  rep_wild : wildcards t = omap wildcard_entry ms;
  rep_fallback : fallback t = rule_for ms PFallback;
  rep_nodup : NoDup (patterns ms);
}.

(** ** Lemmas *)

#[local] Arguments strip_prefix : simpl never.

Lemma rule_for_app ms ms' p :
  rule_for (ms ++ ms') p =
    match rule_for ms p with Some id => Some id | None => rule_for ms' p end.
Proof.
  unfold rule_for. induction ms as [|m ms IH]; simpl; [done|].
  by case_bool_decide.
Qed.

Lemma rule_for_single m p :
  rule_for [m] p = if decide (pattern_of m.1 = p) then Some m.2 else None.
Proof. unfold rule_for. simpl. by case_bool_decide; case_decide. Qed.

Lemma rule_for_None ms p : rule_for ms p = None <-> p ∉ patterns ms.
Proof.
  unfold rule_for, patterns. induction ms as [|m ms IH]; simpl; [set_solver|].
  rewrite not_elem_of_cons. case_bool_decide; naive_solver.
Qed.

Lemma rule_for_elem ms p id :
  rule_for ms p = Some id -> exists pat, (pat, id) ∈ ms /\ pattern_of pat = p.
Proof.
  unfold rule_for. induction ms as [|[pat id'] ms IH]; simpl; [done|].
  case_bool_decide; simpl; intros H'; simplify_eq; [set_solver|].
  destruct IH as (pat' & ? & ?); [done|]. set_solver.
Qed.

Lemma rule_for_complete ms pat id :
  NoDup (patterns ms) -> (pat, id) ∈ ms -> rule_for ms (pattern_of pat) = Some id.
Proof.
  induction ms as [|m ms IH]; [set_solver|]. unfold patterns; simpl. intros [Hn Hnd]%NoDup_cons.
  rewrite (rule_for_app [m] ms), rule_for_single.
  intros [<-|Hin]%elem_of_cons; [by rewrite decide_True|].
  rewrite decide_False; [by apply IH|]. intros Heq. apply Hn. rewrite Heq.
  apply list_elem_of_fmap. by exists (pat, id).
Qed.

Lemma wild_taken ms s :
  existsb (fun n => bool_decide (n.1 = DOT :: s)) (omap wildcard_entry ms) = true <->
  PWildcard s ∈ patterns ms.
Proof.
  rewrite existsb_exists. unfold patterns. rewrite list_elem_of_fmap. split.
  - intros ([n id] & Hin%list_elem_of_In & Hn). simpl in Hn. bool_prop. subst.
    apply list_elem_of_omap in Hin as (m & Hm & He). exists m. split; [|done].
    unfold wildcard_entry in He. by destruct (pattern_of m.1); simplify_eq.
  - intros (m & Hp & Hm). exists (DOT :: s, m.2). split; [|by rewrite bool_decide_true].
    apply list_elem_of_In, list_elem_of_omap. exists m. split; [done|].
    unfold wildcard_entry. by rewrite <- Hp.
Qed.

Lemma represents_snoc ms t m t' :
  represents ms t -> pattern_of m.1 ∉ patterns ms ->
  (forall h, exact t' !! h = rule_for (ms ++ [m]) (PExact h)) ->
  wildcards t' = omap wildcard_entry (ms ++ [m]) ->
  fallback t' = rule_for (ms ++ [m]) PFallback -> represents (ms ++ [m]) t'.
Proof.
  intros [_ _ _ Hnd] Hm He Hw Hf. split; [done..|].
  unfold patterns. rewrite fmap_app. apply NoDup_app. split; [done|]. simpl.
  split; [set_solver|]. apply NoDup_singleton.
Qed.

(** One rule is added exactly when its pattern is new. *)
Lemma add_member_spec ms t m :
  represents ms t ->
  match add_member t m with
  | Ok t' => pattern_of m.1 ∉ patterns ms /\ represents (ms ++ [m]) t'
  | Err _ => pattern_of m.1 ∈ patterns ms
  end.
Proof.
  intros Hrep. pose proof Hrep as [He Hw Hf _]. destruct m as [[p|] id]; simpl.
  - destruct (strip_prefix WILDCARD_PREFIX (lower p)) as [s|] eqn:Es.
    + rewrite Hw. destruct (existsb (fun n => bool_decide (n.1 = DOT :: s)) (omap wildcard_entry ms)) eqn:Ex; [by apply wild_taken|].
      apply not_true_iff_false in Ex. rewrite wild_taken in Ex. split; [done|].
      assert (wildcard_entry (Some p, id) = Some (DOT :: s, id)) as Hen
        by (unfold wildcard_entry; simpl; by rewrite Es).
      apply (represents_snoc ms t); auto; simpl; rewrite ?Es; auto.
      * intros h. rewrite rule_for_app, rule_for_single, <- He. simpl. rewrite Es.
        by destruct (exact t !! h).
      * by rewrite omap_app; simpl; rewrite Hen.
      * rewrite rule_for_app, rule_for_single, <- Hf. simpl. rewrite Es. by destruct (fallback t).
    + rewrite He. destruct (rule_for ms (PExact (lower p))) as [x|] eqn:Ex.
      * apply rule_for_elem in Ex as (pat & Hin & Hp). rewrite <- Hp.
        apply list_elem_of_fmap. by exists (pat, x).
      * apply rule_for_None in Ex as Hni. split; [done|].
        apply (represents_snoc ms t); auto; simpl; rewrite ?Es; auto.
        -- intros h. rewrite rule_for_app, rule_for_single. simpl. rewrite Es.
           destruct (decide (lower p = h)) as [<-|Hne].
           ++ by rewrite lookup_insert_eq, Ex, decide_True.
           ++ rewrite lookup_insert_ne, He, decide_False by congruence. by destruct (rule_for ms (PExact h)).
        -- assert (wildcard_entry (Some p, id) = None) as Hen
             by (unfold wildcard_entry; simpl; by rewrite Es).
           by rewrite omap_app, Hw; simpl; rewrite Hen, app_nil_r.
        -- rewrite rule_for_app, rule_for_single, <- Hf. simpl. rewrite Es. by destruct (fallback t).
  - destruct (fallback t) as [x|] eqn:Ef.
    + symmetry in Hf. apply rule_for_elem in Hf as (pat & Hin & Hp). rewrite <- Hp.
      apply list_elem_of_fmap. by exists (pat, x).
    + symmetry in Hf. apply rule_for_None in Hf as Hni. split; [done|].
      apply (represents_snoc ms t); auto; simpl.
      * intros h. rewrite rule_for_app, rule_for_single, <- He. simpl. by destruct (exact t !! h).
      * by rewrite omap_app, Hw; simpl; rewrite app_nil_r.
      * by rewrite rule_for_app, Hf.
Qed.

Lemma add_members_spec ms0 t ms :
  represents ms0 t ->
  match add_members t ms with
  | Ok t' => represents (ms0 ++ ms) t'
  | Err _ => ~ NoDup (patterns (ms0 ++ ms))
  end.
Proof.
  revert ms0 t. induction ms as [|m ms IH]; intros ms0 t Hrep; simpl; [by rewrite app_nil_r|].
  pose proof (add_member_spec ms0 t m Hrep) as Hm. destruct (add_member t m) as [t1|e].
  - destruct Hm as [_ Hrep1]. specialize (IH _ _ Hrep1). by rewrite <- app_assoc in IH.
  - unfold patterns. rewrite fmap_app. intros (_ & Hdis & _)%NoDup_app.
    apply (Hdis _ Hm). simpl. set_solver.
Qed.

Lemma represents_nil : represents [] (mkTable ∅ [] None).
Proof. split; try done. constructor. Qed.

Lemma split_first_dot_spec host l s :
  split_first_dot host = Some (l, s) <-> host = l ++ DOT :: s /\ DOT ∉ l.
Proof.
  revert l. induction host as [|c host IH]; intros l; simpl.
  { split; [done|]. intros [H _]. by destruct l. }
  destruct (c =? DOT) eqn:E; bool_prop.
  - subst. split; [intros [= <- <-]; set_solver|]. intros [H Hn].
    destruct l as [|x l]; simplify_eq/=; [done|]. set_solver.
  - destruct (split_first_dot host) as [[l' s']|].
    + split.
      * intros [= <- <-]. destruct (proj1 (IH l') eq_refl) as [-> Hn]. set_solver.
      * intros [H Hn]. destruct l as [|x l]; simplify_eq/=.
        by assert (Some (l', s') = Some (l, s)) as [= -> ->] by (apply IH; set_solver).
    + split; [done|]. intros [H Hn]. destruct l as [|x l]; simplify_eq/=.
      by assert (@None (list Z * list Z) = Some (l, s)) by (apply IH; set_solver).
Qed.

Lemma contains_char_spec c s : contains_char c s = true <-> c ∈ s.
Proof.
  unfold contains_char. rewrite existsb_exists. split.
  - intros (x & Hx%list_elem_of_In & ?). bool_prop. by subst.
  - intros Hc. exists c. split; [by apply list_elem_of_In|]. lia.
Qed.

(** A wildcard needle matches exactly the hosts one label above its suffix. *)
Lemma wildcard_matches_spec host s :
  wildcard_matches host (DOT :: s) = true <-> one_label_above host s.
Proof.
  unfold wildcard_matches, one_label_above.
  destruct (strip_suffix (DOT :: s) host) as [l|] eqn:E.
  - apply strip_suffix_spec in E. case_bool_decide as Hl.
    + split; [done|]. intros (l' & H & Hne & _). subst. by apply app_inv_tail in H.
    + rewrite negb_true_iff, <- not_true_iff_false, contains_char_spec. split.
      * intros Hn. by exists l.
      * intros (l' & H & _ & Hn). subst. by apply app_inv_tail in H as ->.
  - split; [done|]. intros (l & H & _). apply strip_suffix_spec in H. congruence.
Qed.

Lemma one_label_above_wildcard_for host s :
  one_label_above host s <-> wildcard_for host = Some (PWildcard s).
Proof.
  unfold one_label_above, wildcard_for. split.
  - intros (l & H & Hne & Hn). assert (split_first_dot host = Some (l, s)) as ->
      by (by apply split_first_dot_spec). by destruct l.
  - destruct (split_first_dot host) as [[[|c l] s']|] eqn:E; [done| |done].
    intros [= <-]. apply split_first_dot_spec in E as [-> Hn]. by exists (c :: l).
Qed.

(** The walk finds the rule of the only suffix that can match. *)
Lemma walk_wildcards_spec ms ws host :
  NoDup (patterns ms) -> ws ≡ₚ omap wildcard_entry ms ->
  walk_wildcards host ws = wildcard_for host ≫= rule_for ms.
Proof.
  intros Hnd Hp.
  assert (forall n id, (n, id) ∈ ws -> exists s, n = DOT :: s /\ rule_for ms (PWildcard s) = Some id)
    as Hin.
  { intros n id H. rewrite Hp in H. apply list_elem_of_omap in H as ([pat id'] & Hm & He).
    unfold wildcard_entry in He. destruct (pattern_of _) as [|s|] eqn:Ep; simplify_eq/=.
    exists s. split; [done|]. rewrite <- Ep. by apply rule_for_complete. }
  assert (forall s id, rule_for ms (PWildcard s) = Some id -> (DOT :: s, id) ∈ ws) as Hout.
  { intros s id H. apply rule_for_elem in H as (pat & Hm & Hpat). rewrite Hp.
    apply list_elem_of_omap. exists (pat, id). split; [done|]. unfold wildcard_entry. simpl.
    by rewrite Hpat. }
  destruct (walk_wildcards host ws) as [id|] eqn:Ew.
  - assert (exists n, (n, id) ∈ ws /\ wildcard_matches host n = true) as (n & Hn & Hm).
    { clear -Ew. induction ws as [|[n id'] ws IH]; simplify_eq/=.
      case_test_in Ew; simplify_eq; [exists n; set_solver|]. destruct IH as (n' & ? & ?); set_solver. }
    apply Hin in Hn as (s & -> & Hr). apply wildcard_matches_spec, one_label_above_wildcard_for in Hm.
    rewrite Hm. by symmetry.
  - destruct (wildcard_for host) as [p|] eqn:Ef; [|done]. simpl.
    destruct (rule_for ms p) as [id|] eqn:Er; [|done].
    assert (exists s, p = PWildcard s) as [s ->].
    { unfold wildcard_for in Ef. destruct (split_first_dot host) as [[[] ?]|]; simplify_eq. eauto. }
    apply one_label_above_wildcard_for, wildcard_matches_spec in Ef. apply Hout in Er.
    clear -Ew Ef Er. induction ws as [|[n id'] ws IH]; simplify_eq/=; [set_solver|].
    case_test_in Ew; [done|]. apply elem_of_cons in Er as [?|Er]; [simplify_eq; congruence|auto].
Qed.

Lemma lower_no_upper host : existsb is_ascii_uppercase host = false -> lower host = host.
Proof.
  induction host as [|c host IH]; simpl; [done|]. intros [Hc Hh]%orb_false_elim.
  unfold lower in *. simpl. rewrite IH by done. unfold to_lower. by rewrite Hc.
Qed.

Lemma from_members_represents ms t :
  from_members ms = Ok t ->
  NoDup (patterns ms) /\ (forall h, exact t !! h = rule_for ms (PExact h)) /\
  wildcards t ≡ₚ omap wildcard_entry ms /\ fallback t = rule_for ms PFallback.
Proof.
  unfold from_members. intros H. pose proof (add_members_spec [] _ ms represents_nil) as Hs.
  destruct (add_members _ ms) as [t0|e]; simplify_eq. simpl in Hs. destruct Hs as [He Hw Hf Hn].
  simpl. split_and!; auto. by rewrite stable_sort_perm, Hw.
Qed.

Lemma lookup_represents ms t sni :
  from_members ms = Ok t -> lookup t sni = spec_lookup ms sni.
Proof.
  intros (Hn & He & Hw & Hf)%from_members_represents. unfold lookup, spec_lookup, lookup_fallback.
  destruct sni as [host|]; [|by rewrite Hf].
  assert ((if existsb is_ascii_uppercase host then lower host else host) = lower host) as ->.
  { case_test; [done|]. by rewrite lower_no_upper. }
  by rewrite He, (walk_wildcards_spec ms), Hf.
Qed.

Lemma from_members_ok ms : NoDup (patterns ms) -> exists t, from_members ms = Ok t.
Proof.
  intros Hn. pose proof (add_members_spec [] _ ms represents_nil) as Hs. unfold from_members.
  destruct (add_members _ ms) as [t|e]; [eauto|done].
Qed.

(** ** Theorems *)

(** C5. The routing table implements the documented precedence: for every set
    of rules it was built from and every SNI value (or none), [lookup] answers
    the rule whose exact pattern is the host, else the rule whose wildcard is
    the host without its first label, else the fallback rule, else a miss. *)
Theorem route_lookup_spec ms t sni :
  from_members ms = Ok t -> lookup t sni = spec_lookup ms sni.
Proof. apply lookup_represents. Qed.

Lemma route_lookup_spec_witness :
  exists t, from_members [(Some (lit "*.Example.com"), 1); (Some (lit "api.example.com"), 2); (None, 3)]
      = Ok t /\
    lookup t (Some (lit "API.example.com")) = Hit 2 Exact /\
    lookup t (Some (lit "www.example.com")) = Hit 1 Wildcard /\
    lookup t (Some (lit "a.b.example.com")) = Hit 3 Fallback.
Proof.
  eexists. split; [reflexivity|].
  split_and!; rewrite (route_lookup_spec
    [(Some (lit "*.Example.com"), 1); (Some (lit "api.example.com"), 2); (None, 3)] _ _ eq_refl);
    reflexivity.
Defined.

(** A table is built exactly when no two rules of the port have the same
    pattern, compared without case, and at most one is a fallback. *)
Theorem route_build_iff_distinct ms :
  (exists t, from_members ms = Ok t) <-> NoDup (patterns ms).
Proof.
  split.
  - intros [t Ht]. by apply from_members_represents in Ht as [? _].
  - apply from_members_ok.
Qed.

(** The order in which rules reach the port does not matter: tables built
    from permutations of the same rules route every SNI value alike. *)
Theorem route_order_irrelevant ms ms' t t' sni :
  ms ≡ₚ ms' -> from_members ms = Ok t -> from_members ms' = Ok t' ->
  lookup t sni = lookup t' sni.
Proof.
  intros Hp Ht Ht'.
  assert (forall p, rule_for ms p = rule_for ms' p) as Hr.
  { intros p. apply from_members_represents in Ht as [Hn _], Ht' as [Hn' _].
    destruct (rule_for ms p) as [id|] eqn:E.
    - apply rule_for_elem in E as (pat & Hin & <-). rewrite Hp in Hin.
      symmetry. by apply rule_for_complete.
    - symmetry. apply rule_for_None. apply rule_for_None in E. unfold patterns in *.
      by rewrite <- Hp. }
  rewrite (lookup_represents _ _ _ Ht), (lookup_represents _ _ _ Ht'). unfold spec_lookup. rewrite !Hr.
  destruct sni as [host|]; [|done]. rewrite !Hr.
  destruct (wildcard_for (lower host)) as [p|]; [|done]. simpl. by rewrite Hr.
Qed.

Lemma route_order_irrelevant_witness :
  exists t t', from_members [(Some (lit "*.b"), 1); (None, 2)] = Ok t /\
    from_members [(None, 2); (Some (lit "*.b"), 1)] = Ok t' /\
    lookup t (Some (lit "a.b")) = lookup t' (Some (lit "a.b")).
Proof.
  do 2 eexists. split; [reflexivity|]. split; [reflexivity|].
  apply (route_order_irrelevant [(Some (lit "*.b"), 1); (None, 2)]
           [(None, 2); (Some (lit "*.b"), 1)]); [apply Permutation_swap|reflexivity|reflexivity].
Defined.

End RouteTable.
