(* ===== verification/ProxyProtocol.v ===== *)
(** * PROXY protocol preludes

    [crates/portunus-forwarder/src/forwarder/proxy_protocol.rs]: the v1 text
    line and the v2 binary header written to an upstream before the first
    payload byte.  [decode_v1] and [decode_v2] are receivers written from the
    protocol, against which the encoders are checked. *)

From S2P Require Import Prelude Text IpAddr Target.
Import IpAddr.IpAddr.

Open Scope Z_scope.

Module ProxyProtocol.

(** [std::net::SocketAddr]. *)
Inductive SocketAddr : Type :=
| SockV4 (ip : Ipv4Addr) (port : Z)
| SockV6 (ip : Ipv6Addr) (port : Z).

Definition wf_sock (s : SocketAddr) : Prop :=
  match s with
  | SockV4 ip port => wf4 ip /\ in_u16 port
  | SockV6 ip port => wf6 ip /\ in_u16 port
  end.

(** [io::Error] with kind [InvalidInput]. *)
Inductive EncodeError : Type := FamilyMismatch.

Definition SP : Z := 32.
Definition CRLF : list Z := [13; 10].

Definition v1_line (proto src dst : list Z) (sport dport : Z) : list Z :=
  lit "PROXY" ++ [SP] ++ proto ++ [SP] ++ src ++ [SP] ++ dst ++ [SP] ++ show_dec sport
    ++ [SP] ++ show_dec dport ++ CRLF.

Definition encode_v1 (source destination : SocketAddr) : Result (list Z) EncodeError :=
  match source, destination with
  | SockV4 src sport, SockV4 dst dport =>
    Ok (as_bytes (v1_line (lit "TCP4") (show_ipv4 src) (show_ipv4 dst) sport dport))
  | SockV6 src sport, SockV6 dst dport =>
    Ok (as_bytes (v1_line (lit "TCP6") (show_ipv6 src) (show_ipv6 dst) sport dport))
  | _, _ => Err FamilyMismatch
  end.

(** [u16::to_be_bytes], [Ipv4Addr::octets], [Ipv6Addr::octets]. *)
Definition be_bytes (n : Z) : list Z := [n / 256; n mod 256].
Definition octets4 (a : Ipv4Addr) : list Z := [oct0 a; oct1 a; oct2 a; oct3 a].
Definition octets6 (a : Ipv6Addr) : list Z := segments a ≫= be_bytes.

Definition SIG : list Z :=
  [0x0d; 0x0a; 0x0d; 0x0a; 0x00; 0x0d; 0x0a; 0x51; 0x55; 0x49; 0x54; 0x0a].

Definition encode_v2 (source destination : SocketAddr) : Result (list Z) EncodeError :=
  match source, destination with
  | SockV4 src sport, SockV4 dst dport =>
    Ok (SIG ++ [0x21] ++ [0x11] ++ be_bytes 12 ++ octets4 src ++ octets4 dst
          ++ be_bytes sport ++ be_bytes dport)
  | SockV6 src sport, SockV6 dst dport =>
    Ok (SIG ++ [0x21] ++ [0x21] ++ be_bytes 36 ++ octets6 src ++ octets6 dst
          ++ be_bytes sport ++ be_bytes dport)
  | _, _ => Err FamilyMismatch
  end.

Definition encode (version : RuleTarget.ProxyProtocolVersion) (source destination : SocketAddr)
  : Result (list Z) EncodeError :=
  match version with
  | RuleTarget.V1 => encode_v1 source destination
  | RuleTarget.V2 => encode_v2 source destination
  end.

(** ** Receivers *)

Definition be16_at (b : list Z) : option (Z * list Z) :=
  match b with x :: y :: r => Some (x * 256 + y, r) | _ => None end.

Definition addr4_at (b : list Z) : option (Ipv4Addr * list Z) :=
  match b with w :: x :: y :: z :: r => Some (mkIpv4 w x y z, r) | _ => None end.

Fixpoint segs_at (k : nat) (b : list Z) : option (list Z * list Z) :=
  match k with
  | O => Some ([], b)
  | S k =>
    '(g, b) ← be16_at b;
    '(gs, b) ← segs_at k b;
    Some (g :: gs, b)
  end.

Definition addr6_at (b : list Z) : option (Ipv6Addr * list Z) :=
  '(gs, b) ← segs_at 8 b; Some (mkIpv6 gs, b).

(** A v2 header with the PROXY command over TCP; what follows is payload. *)
Definition decode_v2 (b : list Z) : option (SocketAddr * SocketAddr * list Z) :=
  b ← strip_prefix (SIG ++ [0x21]) b;
  match b with
  | fam :: b =>
    '(len, b) ← be16_at b;
    if (fam =? 0x11) && (len =? 12) then
      '(src, b) ← addr4_at b; '(dst, b) ← addr4_at b;
      '(sp, b) ← be16_at b; '(dp, b) ← be16_at b;
      Some (SockV4 src sp, SockV4 dst dp, b)
    else if (fam =? 0x21) && (len =? 36) then
      '(src, b) ← addr6_at b; '(dst, b) ← addr6_at b;
      '(sp, b) ← be16_at b; '(dp, b) ← be16_at b;
      Some (SockV6 src sp, SockV6 dst dp, b)
    else None
  | [] => None
  end.

Definition read_port (s : list Z) : option Z := parse_with (read_number 10 5 65535 false) s.

(** A v1 TCP4 line. *)
Definition decode_v1_tcp4 (b : list Z) : option (SocketAddr * SocketAddr) :=
  line ← strip_suffix CRLF b;
  match split_char SP line with
  | [proxy; proto; src; dst; sport; dport] =>
    if bool_decide (proxy = lit "PROXY" /\ proto = lit "TCP4") then
      src ← parse_ipv4 src; dst ← parse_ipv4 dst;
      sport ← read_port sport; dport ← read_port dport;
      Some (SockV4 src sport, SockV4 dst dport)
    else None
  | _ => None
  end.

(** ** Lemmas *)

Lemma show_port_spec n :
  in_u16 n -> forallb is_ascii_digit (show_dec n) = true /\ (length (show_dec n) <= 5)%nat.
Proof.
  intros Hn. destruct (show_dec_spec 5 n) as (? & ? & _); [lia|unfold_ints; lia|]. split; [done|lia].
Qed.

Lemma read_port_show n : in_u16 n -> read_port (show_dec n) = Some n.
Proof.
  intros Hn. unfold read_port, parse_with. rewrite <- (app_nil_r (show_dec n)).
  pose proof (read_number_show 5 65535 n []) as H. change (Z.of_nat 5) with 5 in H.
  rewrite H; [done|lia|unfold_ints; lia|unfold_ints; lia|done].
Qed.

Lemma digits_no_sp s : forallb is_ascii_digit s = true -> SP ∉ s.
Proof.
  rewrite forallb_forall. intros H Hin%list_elem_of_In%H. by vm_compute in Hin.
Qed.

Lemma show_ipv4_no_sp a : wf4 a -> SP ∉ show_ipv4 a.
Proof.
  intros (H0 & H1 & H2 & H3). unfold show_ipv4.
  assert (forall n, in_u8 n -> SP ∉ show_dec n) as Hd.
  { intros n Hn. apply digits_no_sp. by apply show_octet_spec. }
  rewrite !not_elem_of_app, !list_elem_of_singleton. split_and!; auto; done.
Qed.

Lemma be_bytes_at n r : in_u16 n -> be16_at (be_bytes n ++ r) = Some (n, r).
Proof. intros _. simpl. do 2 f_equal. rewrite Z.mul_comm, <- Z.div_mod; lia. Qed.

Lemma octets4_at a r : addr4_at (octets4 a ++ r) = Some (a, r).
Proof. by destruct a. Qed.

Lemma segs_at_bytes gs r :
  Forall in_u16 gs -> segs_at (length gs) ((gs ≫= be_bytes) ++ r) = Some (gs, r).
Proof.
  induction 1 as [|g gs Hg _ IH]; [done|]. cbn [segs_at length mbind list_bind].
  rewrite <- app_assoc, be_bytes_at by done. cbn [mbind option_bind]. by rewrite IH.
Qed.

Lemma octets6_at a r : wf6 a -> addr6_at (octets6 a ++ r) = Some (a, r).
Proof.
  intros [Hl Hf]. unfold addr6_at, octets6. rewrite <- Hl, segs_at_bytes by done. by destruct a.
Qed.

Ltac flat_app := cbn; rewrite <- ?app_assoc; cbn; rewrite <- ?app_assoc; reflexivity.

(** ** Theorems *)

(** The v2 header tells the upstream exactly who is connected to whom: a
    receiver recovers both socket addresses, IPv4 or IPv6, and finds the
    payload right after the header. *)
Theorem proxy_v2_roundtrip source destination b payload :
  wf_sock source -> wf_sock destination -> encode_v2 source destination = Ok b ->
  decode_v2 (b ++ payload) = Some (source, destination, payload).
Proof.
  intros Hs Hd He. unfold decode_v2.
  destruct source as [src sp|src sp], destination as [dst dp|dst dp]; cbn [encode_v2] in He;
    simplify_eq; destruct Hs as [Hs Hsp], Hd as [Hd Hdp].
  - rewrite (proj2 (strip_prefix_spec (SIG ++ [0x21]) _ ([0x11] ++ be_bytes 12 ++ octets4 src
      ++ octets4 dst ++ be_bytes sp ++ be_bytes dp ++ payload))) by flat_app.
    cbn [mbind option_bind app]. rewrite be_bytes_at by (unfold_ints; lia). cbn [mbind option_bind].
    change ((17 =? 17) && (12 =? 12)) with true. cbv iota.
    rewrite !octets4_at. cbn [mbind option_bind]. rewrite !octets4_at. cbn [mbind option_bind].
    rewrite be_bytes_at by done. cbn [mbind option_bind]. by rewrite be_bytes_at by done.
  - rewrite (proj2 (strip_prefix_spec (SIG ++ [0x21]) _ ([0x21] ++ be_bytes 36 ++ octets6 src
      ++ octets6 dst ++ be_bytes sp ++ be_bytes dp ++ payload))) by flat_app.
    cbn [mbind option_bind app]. rewrite be_bytes_at by (unfold_ints; lia). cbn [mbind option_bind].
    change ((33 =? 17) && (36 =? 12)) with false. change ((33 =? 33) && (36 =? 36)) with true.
    cbv iota. rewrite octets6_at by done. cbn [mbind option_bind].
    rewrite octets6_at by done. cbn [mbind option_bind].
    rewrite be_bytes_at by done. cbn [mbind option_bind]. by rewrite be_bytes_at by done.
Qed.

Definition sock_a : SocketAddr := SockV4 (mkIpv4 203 0 113 45) 54321.
Definition sock_b : SocketAddr := SockV4 (mkIpv4 10 0 0 5) 443.

Lemma sock_a_wf : wf_sock sock_a.
Proof. unfold sock_a, wf_sock, wf4. simpl. unfold_ints. lia. Qed.

Lemma sock_b_wf : wf_sock sock_b.
Proof. unfold sock_b, wf_sock, wf4. simpl. unfold_ints. lia. Qed.

Lemma proxy_v2_roundtrip_witness :
  exists b, encode_v2 sock_a sock_b = Ok b /\ decode_v2 (b ++ [1; 2]) = Some (sock_a, sock_b, [1; 2]).
Proof.
  eexists. split; [reflexivity|].
  apply (proxy_v2_roundtrip sock_a sock_b _ [1; 2] sock_a_wf sock_b_wf). reflexivity.
Defined.

Lemma as_bytes_v1_line proto src dst sp dp :
  as_bytes proto = proto -> as_bytes src = src -> as_bytes dst = dst ->
  in_u16 sp -> in_u16 dp ->
  as_bytes (v1_line proto src dst sp dp) = v1_line proto src dst sp dp.
Proof.
  intros Hp Hs Hd [Hsp _]%show_port_spec [Hdp _]%show_port_spec. unfold v1_line.
  rewrite !as_bytes_app, Hp, Hs, Hd.
  by rewrite (as_bytes_digits (show_dec sp)), (as_bytes_digits (show_dec dp)).
Qed.

(** The v1 TCP4 line is read back by a receiver as the two addresses and
    ports it was made from. *)
Theorem proxy_v1_tcp4_roundtrip src sp dst dp b :
  wf4 src -> wf4 dst -> in_u16 sp -> in_u16 dp ->
  encode_v1 (SockV4 src sp) (SockV4 dst dp) = Ok b ->
  decode_v1_tcp4 b = Some (SockV4 src sp, SockV4 dst dp).
Proof.
  intros Hs Hd Hsp Hdp He. 
  assert (b = as_bytes (v1_line (lit "TCP4") (show_ipv4 src) (show_ipv4 dst) sp dp)) as ->
    by (unfold encode_v1 in He; congruence).
  rewrite as_bytes_v1_line by (done || by apply as_bytes_show_ipv4).
  pose proof (proj1 (show_port_spec sp Hsp)). pose proof (proj1 (show_port_spec dp Hdp)).
  unfold decode_v1_tcp4.
  set (line := lit "PROXY" ++ SP :: lit "TCP4" ++ SP :: show_ipv4 src ++ SP :: show_ipv4 dst
    ++ SP :: show_dec sp ++ SP :: show_dec dp).
  rewrite (proj2 (strip_suffix_spec CRLF _ line)).
  2: { unfold v1_line, line. simpl. rewrite <- ?app_assoc. simpl. rewrite <- ?app_assoc. simpl.
       by rewrite <- ?app_assoc. }
  cbn [mbind option_bind]. unfold line.
  rewrite !split_char_app, split_char_none by first [done | by apply show_ipv4_no_sp
    | by apply digits_no_sp | by apply (bool_decide_unpack _); vm_compute].
  rewrite bool_decide_true by done. rewrite !parse_show_ipv4 by done. cbn [mbind option_bind].
  rewrite (read_port_show sp), (read_port_show dp) by done. done.
Qed.

Lemma proxy_v1_tcp4_roundtrip_witness :
  exists b, encode_v1 sock_a sock_b = Ok b /\ decode_v1_tcp4 b = Some (sock_a, sock_b).
Proof.
  eexists. split; [reflexivity|].
  apply (proxy_v1_tcp4_roundtrip (mkIpv4 203 0 113 45) 54321 (mkIpv4 10 0 0 5) 443);
    [unfold wf4; simpl; unfold_ints; lia..|reflexivity].
Defined.

(** Only same-family pairs are encoded: a mixed IPv4/IPv6 pair is refused
    by both versions, every other pair gets a header, and a v2 header is never
    longer than 52 bytes. *)
Theorem proxy_encode_total version source destination :
  wf_sock source -> wf_sock destination ->
  match source, destination with
  | SockV4 _ _, SockV4 _ _ | SockV6 _ _, SockV6 _ _ =>
    exists b, encode version source destination = Ok b /\
      (version = RuleTarget.V2 -> (length b <= 52)%nat)
  | _, _ => encode version source destination = Err FamilyMismatch
  end.
Proof.
  intros Hs Hd. destruct source as [s sp|s sp], destination as [d dp|d dp], version; try done;
    eexists; (split; [reflexivity|]); intros Hv; try done.
  - simpl. lia.
  - destruct Hs as [[Hs _] _], Hd as [[Hd _] _]. unfold octets6.
    assert (forall gs : list Z, length (gs ≫= be_bytes) = (2 * length gs)%nat) as Hl.
    { induction gs as [|g gs IH]; [done|]. cbn. cbn in IH. rewrite IH. lia. }
    rewrite !length_app, !Hl, Hs, Hd. simpl. lia.
Qed.

Lemma proxy_encode_total_witness :
  exists b, encode RuleTarget.V2 sock_a sock_b = Ok b /\
    (RuleTarget.V2 = RuleTarget.V2 -> (length b <= 52)%nat).
Proof. apply (proxy_encode_total RuleTarget.V2 sock_a sock_b sock_a_wf sock_b_wf). Defined.

(** A v1 line can be longer than 52 bytes, already for IPv4. *)
Theorem proxy_v1_exceeds_52 :
  exists b, encode_v1 (SockV4 (mkIpv4 255 255 255 255) 65535) (SockV4 (mkIpv4 255 255 255 254) 65535)
    = Ok b /\ length b = 56%nat.
Proof. eexists. split; [reflexivity|]. reflexivity. Qed.

End ProxyProtocol.
