(* ===== verification/Quota.v ===== *)
(** * Traffic quota

    [crates/portunus-forwarder/src/forwarder/quota/mod.rs] (the shared byte
    budget of a user on a client), [quota/scope.rs] (its registry) and
    [quota/copy.rs] (the copy loop that debits it).

    [consume], [replace] and [restore] are given twice: as what one caller
    computes when nothing interferes, and as the interleaving of their atomic
    actions on one shared handle ([qstep]), with which the budget bound is
    proved and the races of [replace] are exhibited. *)

From S2P Require Import Prelude.

Open Scope Z_scope.

Module Quota.

Record QuotaHandle : Type := mkHandle {
  remaining : Z;
  exhausted : bool;
}.

Inductive ConsumeOutcome : Type := Granted | Exhausted.

#[export] Instance ConsumeOutcome_eq_dec : EqDecision ConsumeOutcome.
Proof. solve_decision. Defined.

Record QuotaState : Type := mkState {
  monthly_bytes : Z;
  budget_remaining_bytes : Z;
  st_exhausted : bool;
}.

Definition new (st : QuotaState) : QuotaHandle :=
  let init := Z.max (budget_remaining_bytes st) 0 in
  mkHandle init (st_exhausted st || (init =? 0)).

Definition replace (h : QuotaHandle) (st : QuotaState) : QuotaHandle :=
  let r := Z.max (budget_remaining_bytes st) 0 in
  mkHandle r (st_exhausted st || (r =? 0)).

Definition mark_exhausted (h : QuotaHandle) : QuotaHandle := mkHandle (remaining h) true.

(** [consume(n)], for [n >= 0] as the code asserts. *)
Definition consume (h : QuotaHandle) (n : Z) : QuotaHandle * ConsumeOutcome :=
  if exhausted h then (h, Exhausted)
  else
    let cur := remaining h in
    if cur <=? 0 then (mark_exhausted h, Exhausted)
    else
      let r := Z.max (cur - n) 0 in
      let h := mkHandle r (exhausted h) in
      let h := if r =? 0 then mark_exhausted h else h in
      (h, if cur - n <? 0 then Exhausted else Granted).

(** [fetch_add] on an [AtomicI64] wraps. *)
Definition wrap_i64 (z : Z) : Z :=
  (z + 9223372036854775808) mod 18446744073709551616 - 9223372036854775808.

Definition restore (h : QuotaHandle) (n : Z) : QuotaHandle :=
  if n =? 0 then h
  else
    let prev := remaining h in
    mkHandle (wrap_i64 (prev + n)) (if 0 <? clamp_i64 (prev + n) then false else exhausted h).

(** ** The registry

    Handles are shared: [install] on a known user updates the handle in place,
    so that connections that hold it see the new budget. *)

Record Registry : Type := mkRegistry {
  handles : gmap nat QuotaHandle;
  users : gmap (list Z) nat;
  next_ref : nat;
}.

Definition lookup (r : Registry) (user_id : list Z) : option nat := users r !! user_id.

Definition install (r : Registry) (user_id : list Z) (st : QuotaState)
  : option (nat * Registry) :=
  match users r !! user_id with
  | Some i =>
    match handles r !! i with
    | Some h => Some (i, mkRegistry (<[i := replace h st]> (handles r)) (users r) (next_ref r))
    | None => None
    end
  | None =>
    let i := next_ref r in
    Some (i, mkRegistry (<[i := new st]> (handles r)) (<[user_id := i]> (users r)) (S i))
  end.

Definition remove (r : Registry) (user_id : list Z) : option nat * Registry :=
  (users r !! user_id, mkRegistry (handles r) (delete user_id (users r)) (next_ref r)).

(** ** The copy loop

    One direction of [copy_bidirectional_with_quota]: what each [read] returns
    is an argument; the chunks written are the result. *)

Inductive ReadResult : Type :=
| Chunk (n : Z) (* n > 0 bytes *)
| Eof
| ReadError.

Inductive CopyEnd : Type :=
| Closed (total : Z) (* writer shut down, bytes delivered *)
| Broken             (* a read failed *)
| Reading (total : Z) (* the script ends: the read has not returned *).

Fixpoint copy_one_dir (h : QuotaHandle) (total : Z) (reads : list ReadResult)
  : QuotaHandle * list Z * CopyEnd :=
  if exhausted h then (h, [], Closed total)
  else
    match reads with
    | [] => (h, [], Reading total)
    | Eof :: _ => (h, [], Closed total)
    | ReadError :: _ => (h, [], Broken)
    | Chunk n :: reads =>
      match consume h (to_i64_or_max n) with
      | (h, Granted) =>
        let '(h, written, e) := copy_one_dir h (sat_add_u64 total n) reads in
        (h, n :: written, e)
      | (h, Exhausted) => (h, [], Closed total)
      end
    end.

(** ** Interleaving

    Program counters of the callers of one handle.  A caller that was granted
    [n] bytes may give part of them back ([restore]). *)

Inductive Caller : Type :=
| Idle
| CFlag (n : Z)            (* consume: load the flag *)
| CLoad (n : Z)            (* load remaining *)
| CCas (n cur : Z)         (* compare-exchange remaining *)
| CMark (held : Z)         (* mark exhausted, then return *)
| Holding (n : Z)          (* returned Granted for n *)
| RAdd (n : Z)             (* restore: fetch_add *)
| RClear (prev n : Z)      (* restore: clear the flag *)
| PStore (r : Z) (e : bool) (* replace: store remaining *)
| PFlag (e : bool).        (* replace: store the flag *)

Record Ghost : Type := mkGhost { granted : Z; restored : Z }.

Definition Shared : Type := QuotaHandle * Ghost.

Definition with_remaining (s : Shared) (r : Z) : Shared := (mkHandle r (exhausted s.1), s.2).
Definition with_flag (s : Shared) (e : bool) : Shared := (mkHandle (remaining s.1) e, s.2).

(** A straddling draw returns [Exhausted] and holds nothing. *)
Definition granted_of (n cur : Z) : Z := if cur - n <? 0 then 0 else n.

Inductive qact : Caller -> Shared -> Caller -> Shared -> Prop :=
| q_consume s n : 0 <= n <= i64_max -> qact Idle s (CFlag n) s
| q_fast s n : exhausted s.1 = true -> qact (CFlag n) s Idle s
| q_flag s n : exhausted s.1 = false -> qact (CFlag n) s (CLoad n) s
| q_load s n : qact (CLoad n) s (CCas n (remaining s.1)) s
| q_empty s n cur : cur <= 0 -> qact (CCas n cur) s (CMark 0) s
| q_cas_ok s n cur : 0 < cur -> remaining s.1 = cur ->
    qact (CCas n cur) s
      (if Z.max (cur - n) 0 =? 0 then CMark (granted_of n cur) else Holding (granted_of n cur))
      (mkHandle (Z.max (cur - n) 0) (exhausted s.1),
       mkGhost (granted s.2 + granted_of n cur) (restored s.2))
| q_cas_lost s n cur : 0 < cur -> qact (CCas n cur) s (CCas n (remaining s.1)) s
| q_mark s held : qact (CMark held) s (Holding held) (with_flag s true)
| q_keep s n : qact (Holding n) s Idle s
| q_restore s m n : 0 < n <= m -> qact (Holding m) s (RAdd n) s
| q_add s n : qact (RAdd n) s (RClear (remaining s.1) n)
    (mkHandle (wrap_i64 (remaining s.1 + n)) (exhausted s.1),
     mkGhost (granted s.2) (restored s.2 + n))
| q_clear s prev n : qact (RClear prev n) s Idle
    (if 0 <? clamp_i64 (prev + n) then with_flag s false else s).

(** The control plane's [replace], which the budget theorem leaves out. *)
Inductive qreplace : Caller -> Shared -> Caller -> Shared -> Prop :=
| q_replace s st : qreplace Idle s
    (PStore (Z.max (budget_remaining_bytes st) 0)
       (st_exhausted st || (Z.max (budget_remaining_bytes st) 0 =? 0))) s
| q_store s r e : qreplace (PStore r e) s (PFlag e) (with_remaining s r)
| q_store_flag s e : qreplace (PFlag e) s Idle (with_flag s e).

Definition System : Type := list Caller * Shared.

Inductive qstep (act : Caller -> Shared -> Caller -> Shared -> Prop) : System -> System -> Prop :=
| q_step cs s i c c' s' : cs !! i = Some c -> act c s c' s' -> qstep act (cs, s) (<[i := c']> cs, s').

(** What a caller may still give back. *)
Definition refundable (c : Caller) : Z :=
  match c with CMark n | Holding n | RAdd n => n | _ => 0 end.

Definition caller_ok (c : Caller) : Prop :=
  match c with
  | CFlag n | CLoad n | CCas n _ | RAdd n | CMark n | Holding n => 0 <= n
  | RClear prev n => 0 <= prev /\ 0 <= n
  | _ => True
  end.

(** What was granted and not returned, plus what is left, is within the
    budget; the callers can only return what was granted. *)
Definition inv (budget : Z) (sys : System) : Prop :=
  let (cs, s) := sys in
  let spent := granted s.2 - restored s.2 in
  0 <= remaining s.1 /\ remaining s.1 + spent <= budget /\
  Forall caller_ok cs /\ sum_of refundable cs <= spent.

Definition initial (budget : Z) (callers : nat) : System :=
  (replicate callers Idle, (new (mkState budget budget false), mkGhost 0 0)).

(** ** Lemmas *)

Lemma wrap_i64_id z : in_i64 z -> wrap_i64 z = z.
Proof. unfold wrap_i64. unfold_ints. intros. rewrite Z.mod_small; lia. Qed.

Lemma refundable_nonneg cs : Forall caller_ok cs -> Forall (fun c => 0 <= refundable c) cs.
Proof. intros H. eapply Forall_impl; [done|]. intros [] Hc; simpl in *; lia. Qed.

Lemma qact_inv budget cs s i c c' s' :
  budget <= i64_max -> cs !! i = Some c -> qact c s c' s' -> inv budget (cs, s) ->
  inv budget (<[i := c']> cs, s').
Proof.
  intros Hbud Hi Ha (Hr & Hb & Hcs & Hsum).
  pose proof (Forall_lookup_1 _ _ _ _ Hcs Hi) as Hc.
  pose proof (sum_of_elem_le refundable cs i c (refundable_nonneg _ Hcs) Hi) as Hle.
  assert (caller_ok c' -> Forall caller_ok (<[i := c']> cs)) as Hins
    by (intros; by apply Forall_insert).
  unfold inv. rewrite (sum_of_insert _ _ _ _ _ Hi).
  assert (remaining s.1 + refundable c <= i64_max) as Hov by lia.
  destruct Ha; simpl in *; unfold granted_of in *; repeat case_match; bool_prop; simpl in *;
    rewrite ?wrap_i64_id in * by (unfold_ints; lia);
    (split; [lia|]; split; [lia|]; split; [apply Hins; simpl; lia|lia]).
Qed.

Lemma qstep_inv budget sys sys' :
  budget <= i64_max -> qstep qact sys sys' -> inv budget sys -> inv budget sys'.
Proof. intros Hb [cs s i c c' s' Hi Ha]. by eapply qact_inv. Qed.

Lemma quota_initial_inv budget k : 0 <= budget -> inv budget (initial budget k).
Proof.
  intros Hb. unfold initial, inv, new. simpl. rewrite sum_of_replicate by done.
  split; [lia|]. split; [lia|]. split; [by apply Forall_replicate|lia].
Qed.

(** ** Theorems *)

(** C6. The budget is never overspent: however many connections interleave
    their atomic draws and refunds on one handle, the bytes granted and not
    given back never exceed the budget, and [remaining] never goes negative. *)
Theorem quota_never_overspent budget k cs h gh :
  0 <= budget <= i64_max -> rtc (qstep qact) (initial budget k) (cs, (h, gh)) ->
  granted gh - restored gh <= budget /\ 0 <= remaining h <= budget.
Proof.
  intros Hb Hs.
  assert (inv budget (cs, (h, gh))) as (Hr & Hsp & Hcs & Hsum).
  { eapply (rtc_preserves _ (inv budget) _ _); [|done|by apply quota_initial_inv, Hb].
    intros u v. apply qstep_inv. lia. }
  simpl in *. pose proof (sum_of_nonneg_Forall refundable cs (refundable_nonneg _ Hcs)). lia.
Qed.

Lemma quota_never_overspent_witness :
  exists cs h gh, rtc (qstep qact) (initial 10 2) (cs, (h, gh)) /\ granted gh = 10 /\
    granted gh - restored gh <= 10 /\ 0 <= remaining h <= 10.
Proof.
  assert (rtc (qstep qact) (initial 10 2)
    ([CMark 10; Idle], (mkHandle 0 false, mkGhost 10 0))) as Hs.
  { eapply rtc_l; [eapply (q_step _ _ _ 0%nat); [done|apply (q_consume _ 10); unfold_ints; lia]|].
    eapply rtc_l; [eapply (q_step _ _ _ 0%nat); [done|by apply q_flag]|].
    eapply rtc_l; [eapply (q_step _ _ _ 0%nat); [done|apply q_load]|].
    eapply rtc_l; [eapply (q_step _ _ _ 0%nat); [done|by apply q_cas_ok]|].
    apply rtc_refl. }
  do 3 eexists. split; [exact Hs|]. split; [done|].
  apply (quota_never_overspent 10 2 _ _ _) in Hs; [exact Hs|unfold_ints; lia].
Defined.

(** [consume] alone: it grants exactly when the whole draw fits in what is
    left of a live handle, a straddling draw empties the handle, a refused
    draw leaves it empty and flagged, and the flag is up whenever nothing is
    left. *)
Theorem quota_consume_spec h n :
  0 <= n -> 0 <= remaining h -> (exhausted h = false -> 0 < remaining h) ->
  let (h', r) := consume h n in
  (r = Granted <-> exhausted h = false /\ n <= remaining h) /\
  (r = Granted -> remaining h' = remaining h - n) /\
  (exhausted h = true -> h' = h) /\
  (exhausted h = false -> remaining h < n -> remaining h' = 0 /\ exhausted h' = true) /\
  (exhausted h' = false -> 0 < remaining h').
Proof.
  intros Hn Hr He. unfold consume, mark_exhausted. destruct (exhausted h) eqn:Ex.
  - rewrite Ex. naive_solver.
  - specialize (He eq_refl). replace (remaining h <=? 0) with false by lia.
    destruct (Z.max (remaining h - n) 0 =? 0) eqn:E0, (remaining h - n <? 0) eqn:E1; simpl;
      split_and!; intros; try done; try lia; try (split; [done|lia]);
      try (split; [intros; split; [done|lia]|done]); try (split; [done|intros []; lia]).
Qed.

Lemma quota_consume_spec_witness :
  let (h', r) := consume (mkHandle 64 false) 200 in
  (r = Granted <-> false = false /\ 200 <= 64) /\ remaining h' = 0 /\ exhausted h' = true.
Proof.
  pose proof (quota_consume_spec (mkHandle 64 false) 200) as H. simpl in H. simpl.
  destruct H as (H1 & _ & _ & H2 & _); [lia|lia|lia|].
  split; [exact H1|]. apply H2; [done|lia].
Defined.

(** [replace] is not atomic with a draw in flight: a connection that took
    the last bytes before the control plane refilled the handle raises the
    exhausted flag after the refill, leaving a full budget that every later
    draw refuses. *)
Theorem quota_replace_race :
  exists cs h gh,
    rtc (qstep (fun c s c' s' => qact c s c' s' \/ qreplace c s c' s'))
      (initial 10 2) (cs, (h, gh)) /\
    Forall (fun c => c = Idle) cs /\ remaining h = 100 /\ exhausted h = true /\
    forall n, consume h n = (h, Exhausted).
Proof.
  exists [Idle; Idle], (mkHandle 100 true), (mkGhost 10 0).
  split; [|split; [by repeat constructor|done]].
  eapply rtc_l; [eapply (q_step _ _ _ 0%nat); [done|left; apply (q_consume _ 10); unfold_ints; lia]|].
  eapply rtc_l; [eapply (q_step _ _ _ 0%nat); [done|left; by apply q_flag]|].
  eapply rtc_l; [eapply (q_step _ _ _ 0%nat); [done|left; apply q_load]|].
  eapply rtc_l; [eapply (q_step _ _ _ 0%nat); [done|left; by apply q_cas_ok]|].
  eapply rtc_l; [eapply (q_step _ _ _ 1%nat);
    [done|right; apply (q_replace _ (mkState 100 100 false))]|].
  eapply rtc_l; [eapply (q_step _ _ _ 1%nat); [done|right; apply q_store]|].
  eapply rtc_l; [eapply (q_step _ _ _ 1%nat); [done|right; apply q_store_flag]|].
  eapply rtc_l; [eapply (q_step _ _ _ 0%nat); [done|left; apply q_mark]|].
  eapply rtc_l; [eapply (q_step _ _ _ 0%nat); [done|left; apply q_keep]|].
  apply rtc_refl.
Qed.

(** ** The copy loop *)

Definition live (h : QuotaHandle) : Prop :=
  0 <= remaining h /\ (exhausted h = false -> 0 < remaining h).

Fixpoint chunks (reads : list ReadResult) : list Z :=
  match reads with Chunk n :: reads => n :: chunks reads | _ => [] end.

Definition good_reads (reads : list ReadResult) : Prop :=
  Forall (fun r => match r with Chunk n => 0 < n <= 65536 | _ => True end) reads.

Lemma consume_live h n :
  exhausted h = false -> 0 < remaining h -> 0 <= n ->
  consume h n =
    if n <=? remaining h then (mkHandle (remaining h - n) (remaining h - n =? 0), Granted)
    else (mkHandle 0 true, Exhausted).
Proof.
  intros Ex Hr Hn. unfold consume, mark_exhausted. rewrite Ex.
  replace (remaining h <=? 0) with false by lia. simpl.
  destruct (n <=? remaining h) eqn:E.
  - rewrite Z.max_l by lia. replace (remaining h - n <? 0) with false by lia.
    by destruct (remaining h - n =? 0).
  - rewrite Z.max_r by lia. by replace (remaining h - n <? 0) with true by lia.
Qed.

Lemma copy_one_dir_written h total reads :
  live h -> good_reads reads ->
  let '(h', written, e) := copy_one_dir h total reads in
  written `prefix_of` chunks reads /\ sum_of id written + remaining h' <= remaining h /\
  live h' /\ 0 <= sum_of id written /\
  (sum_of id (chunks reads) < remaining h -> exhausted h = false -> written = chunks reads).
Proof.
  intros Hl Hg. revert h total Hl. induction Hg as [|r reads Hr Hg IH]; intros h total Hl; simpl;
    (destruct (exhausted h) eqn:Ex; [split_and!; simpl; try apply prefix_nil; try done; lia|]).
  { split_and!; simpl; try done; lia. }
  destruct r as [n| |]; simpl; [|split_and!; simpl; try done; lia..].
  destruct Hl as [H0 Hl]. specialize (Hl Ex).
  unfold to_i64_or_max. rewrite Z.min_l by (unfold_ints; lia). rewrite consume_live by (done || lia).
  assert (0 <= sum_of id (chunks reads)) as Hnn.
  { clear -Hg. induction Hg as [|[] reads Hr Hg IH]; simpl; unfold id in *; lia. }
  destruct (n <=? remaining h) eqn:E.
  - set (h1 := mkHandle (remaining h - n) (remaining h - n =? 0)).
    specialize (IH h1 (sat_add_u64 total n)). destruct (copy_one_dir h1 _ reads) as [[h' written] e].
    assert (live h1) as Hl1 by (split; simpl; lia).
    destruct (IH Hl1) as (Hp & Hs & Hl' & Hw & Hall). simpl in *. unfold id in *.
    split_and!; [by apply prefix_cons|lia|done|lia|]. intros Hlt _. f_equal. apply Hall; lia.
  - split_and!; simpl; [apply prefix_nil|unfold id; lia|by split|lia|]. unfold id in *. lia.
Qed.

(** One copy direction under a quota delivers a prefix of what was read,
    never more than the budget left on the handle at its start, and everything
    when the reads stay below that budget. *)
Theorem quota_copy_within_budget h reads :
  live h -> good_reads reads ->
  let '(h', written, e) := copy_one_dir h 0 reads in
  written `prefix_of` chunks reads /\ sum_of id written <= remaining h /\
  (sum_of id (chunks reads) < remaining h -> exhausted h = false -> written = chunks reads).
Proof.
  intros Hl Hg. pose proof (copy_one_dir_written h 0 reads Hl Hg) as H.
  destruct (copy_one_dir h 0 reads) as [[h' written] e].
  destruct H as (Hp & Hs & [Hr _] & _ & Hall). split_and!; [done|lia|done].
Qed.

Lemma quota_copy_within_budget_witness :
  let '(h', written, e) := copy_one_dir (mkHandle 100 false) 0 [Chunk 60; Chunk 60; Eof] in
  written = [60] /\ written `prefix_of` chunks [Chunk 60; Chunk 60; Eof] /\
  sum_of id written <= 100.
Proof.
  pose proof (quota_copy_within_budget (mkHandle 100 false) [Chunk 60; Chunk 60; Eof]) as H.
  simpl in *. destruct H as (H1 & H2 & _); [by split|repeat constructor; lia|].
  split; [done|]. split; [exact H1|exact H2].
Defined.

(** Installing a budget for a known user reaches the connections that
    already hold the handle: it is the same handle, with the new state. *)
Theorem quota_install_in_place r user st i h :
  users r !! user = Some i -> handles r !! i = Some h ->
  exists r', install r user st = Some (i, r') /\ handles r' !! i = Some (new st) /\
    lookup r' user = Some i /\ forall j, j <> i -> handles r' !! j = handles r !! j.
Proof.
  intros Hu Hh. unfold install. rewrite Hu, Hh. eexists. split; [done|]. simpl.
  rewrite lookup_insert_eq. split; [done|]. split; [done|]. intros j Hj.
  by rewrite lookup_insert_ne.
Qed.

Lemma quota_install_in_place_witness :
  exists r r', install (mkRegistry ∅ ∅ 0) [97] (mkState 5 5 false) = Some (0%nat, r) /\
    install r [97] (mkState 9 9 false) = Some (0%nat, r') /\ lookup r' [97] = Some 0%nat.
Proof.
  eexists. destruct (quota_install_in_place
    (mkRegistry {[0%nat := new (mkState 5 5 false)]} {[[97] := 0%nat]} 1) [97]
    (mkState 9 9 false) 0 (new (mkState 5 5 false))) as (r' & H1 & _ & H2 & _); try done.
  exists r'. split; [done|]. split; [exact H1|exact H2].
Defined.

End Quota.
