(* ===== verification/CopyLoop.v ===== *)
(** * The throttled copy loop

    [crates/portunus-forwarder/src/forwarder/rate_limit/copy.rs]: one direction
    of a capped connection.  Each chunk is charged to the quota, then to the
    owner's bucket, then to the rule's; a throttled chunk sleeps the reported
    deficit and asks again.

    The loop runs on the heap of limiters of [RateScope] and is driven by a
    script: what each read returns and how long it takes, and how late each
    sleep wakes up.  It is modelled for a connection that runs alone. *)

From S2P Require Import Prelude RateLimit TokenBucket RateScope Quota.
Import RateLimit.RateLimit TokenBucket.TokenBucket RateScope.RateScope.

Open Scope Z_scope.

Module CopyLoop.

Definition MAX_CHUNK : Z := 64 * 1024.
Definition MIN_CHUNK : Z := 8 * 1024.
Definition PACING_TARGET_MS : Z := 100.
Definition SNAPSHOT_REFRESH_INTERVAL : Z := 100 * 1000000. (* ns *)

Definition tightest (a b : option Z) : option Z :=
  match a, b with
  | Some a, Some b => Some (Z.min a b)
  | Some a, None | None, Some a => Some a
  | None, None => None
  end.

Definition chunk_for_direction (d : BandwidthDirection) (rule owner : option RuleRateLimiter)
  : Z :=
  let rule_bps := rule ≫= fun r => bandwidth_rate_per_sec r d in
  let owner_bps := owner ≫= fun o => bandwidth_rate_per_sec o d in
  match tightest rule_bps owner_bps with
  | None => MAX_CHUNK
  | Some bps =>
    let target := sat_mul_u64 bps PACING_TARGET_MS / 1000 in
    Z.min (Z.max target MIN_CHUNK) MAX_CHUNK
  end.

(** The inner acquire loop; a sleep of [d] microseconds that ends [lag]
    nanoseconds late resumes at [now + 1000 d + lag]. *)
Inductive Park : Type :=
| Through (w : World) (now : Z)
| Parked (w : World) (now : Z) (* still asking when the script ends *)
| Dangling.

Fixpoint park (lags : list Z) (w : World) (lid : nat) (d : BandwidthDirection) (n now : Z)
  : Park :=
  match acquire_bandwidth w lid d n now with
  | None => Dangling
  | Some (w, BwGranted) => Through w now
  | Some (w, BwThrottled deficit) =>
    match lags with
    | [] => Parked w now
    | lag :: lags => park lags w lid d n (now + 1000 * deficit + lag)
    end
  end.

Definition park_opt (lags : list Z) (w : World) (lid : option nat) (d : BandwidthDirection)
  (n now : Z) : Park :=
  match lid with None => Through w now | Some lid => park lags w lid d n now end.

(** One iteration of the script. *)
Record Iteration : Type := mkIteration {
  data : Quota.ReadResult;
  read_ns : Z;
  owner_lags : list Z;
  rule_lags : list Z;
}.

Inductive CopyResult : Type :=
| Finished (total : Z)
| Failed                 (* a read failed *)
| InProgress (total : Z) (* the script ends *)
| Starving (total : Z)   (* parked on a bucket when the lags end *)
| BadReference.

Record Loop : Type := mkLoop {
  world : World;
  quota : option Quota.QuotaHandle;
  cached_rule : option nat;
  cached_owner : option nat;
  last_snapshot : Z;
  total : Z;
}.

Definition limiter_at (w : World) (lid : option nat) : option RuleRateLimiter :=
  lid ≫= fun i => limiters w !! i.

(** Refresh the cached snapshots when they are older than the interval. *)
Definition refresh (rule_id : Z) (owner : option OwnerId) (l : Loop) (now : Z) : Loop :=
  if SNAPSHOT_REFRESH_INTERVAL <=? now - last_snapshot l
  then mkLoop (world l) (quota l) (get (world l) rule_id) (owner ≫= get_owner (world l)) now
         (total l)
  else l.

(** The quota's pre-debit; no quota grants everything. *)
Definition pre_debit (q : option Quota.QuotaHandle) (n : Z)
  : option Quota.QuotaHandle * bool :=
  match q with
  | None => (None, true)
  | Some h =>
    match Quota.consume h (to_i64_or_max n) with
    | (h, Quota.Granted) => (Some h, true)
    | (h, Quota.Exhausted) => (Some h, false)
    end
  end.

Definition quota_exhausted (q : option Quota.QuotaHandle) : bool :=
  match q with Some h => Quota.exhausted h | None => false end.

Fixpoint copy_with_cap (script : list Iteration) (d : BandwidthDirection) (rule_id : Z)
  (owner : option OwnerId) (l : Loop) (now : Z) : Loop * CopyResult :=
  if quota_exhausted (quota l) then (l, Finished (total l))
  else
    let l := refresh rule_id owner l now in
    let chunk := chunk_for_direction d (limiter_at (world l) (cached_rule l))
                   (limiter_at (world l) (cached_owner l)) in
    match script with
    | [] => (l, InProgress (total l))
    | it :: script =>
      match data it with
      | Quota.ReadError => (l, Failed)
      | Quota.Eof => (l, Finished (total l))
      | Quota.Chunk avail =>
        let n := Z.min avail chunk in
        let now := now + read_ns it in
        match pre_debit (quota l) n with
        | (q, false) =>
          let l := mkLoop (world l) q (cached_rule l) (cached_owner l) (last_snapshot l) (total l) in
          (l, Finished (total l))
        | (q, true) =>
          let l := mkLoop (world l) q (cached_rule l) (cached_owner l) (last_snapshot l) (total l) in
          match park_opt (owner_lags it) (world l) (cached_owner l) d n now with
          | Dangling => (l, BadReference)
          | Parked w _ =>
            (mkLoop w q (cached_rule l) (cached_owner l) (last_snapshot l) (total l),
             Starving (total l))
          | Through w now =>
            match park_opt (rule_lags it) w (cached_rule l) d n now with
            | Dangling => (l, BadReference)
            | Parked w _ =>
              (mkLoop w q (cached_rule l) (cached_owner l) (last_snapshot l) (total l),
               Starving (total l))
            | Through w now =>
              copy_with_cap script d rule_id owner
                (mkLoop w q (cached_rule l) (cached_owner l) (last_snapshot l) (total l + n)) now
            end
          end
        end
      end
    end.

(** ** Lemmas *)

Lemma bandwidth_set l d b : bandwidth (set_bandwidth l d b) d = Some b.
Proof. by destruct d. Qed.

Lemma acquire_bandwidth_some w i l d b n now :
  limiters w !! i = Some l -> bandwidth l d = Some b ->
  acquire_bandwidth w i d n now =
    let (b', r) := acquire b n now in
    Some (store_limiter w i (set_bandwidth l d b'),
          match r with Granted => BwGranted | Throttled t => BwThrottled t end).
Proof. intros Hl Hb. unfold acquire_bandwidth. by rewrite Hl, Hb. Qed.

Lemma park_starves lags w i l d b n now :
  limiters w !! i = Some l -> bandwidth l d = Some b -> wf b -> burst b < n ->
  exists w' now', park lags w i d n now = Parked w' now'.
Proof.
  revert w l b now. induction lags as [|lag lags IH]; intros w l b now Hl Hb Hw Hn; simpl;
    rewrite (acquire_bandwidth_some w i l d b) by done;
    rewrite acquire_above_burst by done; simpl; [eauto|].
  pose proof (refill_frame b (now_micros b now)) as (_ & Fb & _).
  eapply (IH (store_limiter w i (set_bandwidth l d (refill b (now_micros b now))))).
  - simpl. apply lookup_insert_eq.
  - apply bandwidth_set.
  - apply refill_wf; [done|apply now_micros_bound].
  - lia.
Qed.

Lemma chunk_bounds d rule owner :
  MIN_CHUNK <= chunk_for_direction d rule owner <= MAX_CHUNK.
Proof.
  unfold chunk_for_direction, MIN_CHUNK, MAX_CHUNK. destruct (tightest _ _); lia.
Qed.

(** ** Theorems *)

(** A chunk larger than the burst of a bucket it must pass parks its
    connection for good: however often the loop sleeps and retries, and
    however late the sleeps wake, it never gets through. *)
Theorem copy_chunk_starves lags w i l d b n now :
  limiters w !! i = Some l -> bandwidth l d = Some b -> wf b -> burst b < n ->
  exists w' now', park lags w i d n now = Parked w' now'.
Proof. apply park_starves. Qed.

(** A rule capped at 64 KiB/s with the smallest burst the validator allows. *)
Definition tiny_burst : RateLimit :=
  mkRateLimit (Some 65536) None None None (Some 655) None None.

Definition tiny_loop : Loop :=
  mkLoop (install empty_world 1 (Some tiny_burst) 0) None (Some 1%nat) None 0 0.

Lemma copy_chunk_starves_witness :
  exists w' now',
    park (replicate 5 1000000) (world tiny_loop) 1 In 8192 1000 = Parked w' now'.
Proof.
  apply (copy_chunk_starves (replicate 5 1000000) (world tiny_loop) 1
    (from_envelope tiny_burst 0 0) In (TokenBucket.new 65536 655 0) 8192 1000);
    [reflexivity|reflexivity|unfold wf; simpl; unfold_ints; lia|reflexivity].
Defined.

(** The validator admits caps under which a busy connection stops for good:
    with 64 KiB/s and a burst of one hundredth of it the loop reads chunks of
    8 KiB, and the first full one is never written, however long the
    connection is kept. *)
Theorem copy_stalls_on_valid_envelope lags read :
  validate tiny_burst = Ok tt /\
  (8192 <= read ->
   (copy_with_cap [mkIteration (Quota.Chunk read) 0 [] lags] In 1 None tiny_loop 0).2
     = Starving 0).
Proof.
  split; [reflexivity|]. intros Hr. cbn [copy_with_cap].
  change (quota_exhausted (quota tiny_loop)) with false.
  change (refresh 1 None tiny_loop 0) with tiny_loop. cbn [data]. cbv iota zeta.
  replace (chunk_for_direction In (limiter_at (world tiny_loop) (cached_rule tiny_loop))
    (limiter_at (world tiny_loop) (cached_owner tiny_loop))) with 8192 by reflexivity.
  rewrite Z.min_r by lia. cbn [pre_debit quota tiny_loop cached_owner cached_rule
    park_opt owner_lags rule_lags last_snapshot total read_ns].
  match goal with |- context [park ?ls ?w ?i ?d ?n ?now] =>
    destruct (park_starves ls w i (from_envelope tiny_burst 0 0) d
      (TokenBucket.new 65536 655 0) n now) as (w' & now' & ->) end;
    [reflexivity|reflexivity|unfold wf; simpl; unfold_ints; lia|reflexivity|reflexivity].
Qed.

(** A chunk within the burst waits at most once: the loop gets through at
    the latest on the attempt after its first sleep, provided the clock has not
    run for 2^64 microseconds. *)
Theorem copy_chunk_waits_once w i l d b n now lag lags :
  limiters w !! i = Some l -> bandwidth l d = Some b -> wf b ->
  epoch b <= now -> last_refill_micros b <= now_micros b now ->
  0 < n <= burst b -> n * MICROS_PER_SEC <= u64_max -> 0 <= lag ->
  (forall t, (acquire b n now).2 = Throttled t ->
     (now + 1000 * t + lag - epoch b) / 1000 <= u64_max) ->
  exists w' now', park (lag :: lags) w i d n now = Through w' now'.
Proof.
  intros Hl Hb Hw He Hlast Hn Hm Hlag Hov. cbn [park].
  rewrite (acquire_bandwidth_some w i l d b) by done.
  destruct (acquire b n now) as [b1 [|t]] eqn:Ea; [eauto|].
  specialize (Hov t eq_refl).
  pose proof (deficit_suffices b n now b1 t (now + 1000 * t + lag)) as Hd.
  destruct lags as [|lag' lags]; cbn [park];
    rewrite (acquire_bandwidth_some _ i (set_bandwidth l d b1) d b1)
      by (apply lookup_insert_eq || apply bandwidth_set);
    (destruct (acquire b1 n (now + 1000 * t + lag)) as [b2 r]; simpl in Hd;
     rewrite Hd; [eauto|done..|lia|done]).
Qed.

Lemma copy_chunk_waits_once_witness :
  exists w' now', park [5] (world tiny_loop) 1 In 655 0 = Through w' now'.
Proof.
  apply (copy_chunk_waits_once (world tiny_loop) 1 (from_envelope tiny_burst 0 0) In
    (TokenBucket.new 65536 655 0) 655 0 5 []);
    [reflexivity|reflexivity|unfold wf; simpl; unfold_ints; lia|simpl; lia|
     vm_compute; congruence|simpl; lia|vm_compute; congruence|lia|].
  intros t Ht. vm_compute in Ht. discriminate Ht.
Defined.

(** Chunks are always between 8 and 64 KiB, whatever the caps, and with the
    default burst (one second's worth) of at least 8 KiB/s every chunk fits in
    the bucket, so that the loop cannot starve. *)
Theorem chunk_size_bounds d rule owner :
  MIN_CHUNK <= chunk_for_direction d rule owner <= MAX_CHUNK /\
  forall rate, MIN_CHUNK <= rate <= u64_max ->
    tightest (rule ≫= fun r => bandwidth_rate_per_sec r d)
             (owner ≫= fun o => bandwidth_rate_per_sec o d) = Some rate ->
    chunk_for_direction d rule owner <= rate.
Proof.
  split; [apply chunk_bounds|]. intros rate Hr Ht.
  unfold chunk_for_direction, MIN_CHUNK, MAX_CHUNK, PACING_TARGET_MS, sat_mul_u64 in *.
  rewrite Ht.
  assert (Z.min (rate * 100) u64_max / 1000 <= rate); [|lia].
  apply Z.div_le_upper_bound; lia.
Qed.

(** A capped direction never delivers more than its quota: the bytes
    written plus what is left of the budget never exceed the budget at the
    start, however the reads, sleeps and refreshes fall. *)
Theorem capped_copy_within_quota script d rule_id owner l now h :
  quota l = Some h -> Quota.live h ->
  Forall (fun it => match data it with Quota.Chunk n => 0 < n | _ => True end) script ->
  let (l', r) := copy_with_cap script d rule_id owner l now in
  exists h', quota l' = Some h' /\ Quota.live h' /\
    total l' - total l + Quota.remaining h' <= Quota.remaining h.
Proof.
  intros Hq Hl Hs. revert l now h Hq Hl. induction Hs as [|it script Hit Hs IH];
    intros l now h Hq Hl; cbn [copy_with_cap].
  - destruct (quota_exhausted (quota l)); [exists h; split_and!; done || lia|].
    cbv zeta. exists h. unfold refresh. case_test; simpl; split_and!; try done; lia.
  - destruct (quota_exhausted (quota l)) eqn:Eq; [exists h; split_and!; done || lia|].
    set (l1 := refresh rule_id owner l now).
    assert (quota l1 = Some h /\ total l1 = total l) as [Hq1 Ht1]
      by (unfold l1, refresh; by case_test).
    cbv zeta. clearbody l1. rewrite <- Ht1.
    destruct (data it) as [avail| |]; [|exists h; split_and!; done || lia..].
    rewrite Hq in Eq. simpl in Eq.
    pose proof (chunk_bounds d (limiter_at (world l1) (cached_rule l1))
      (limiter_at (world l1) (cached_owner l1))) as Hc.
    set (n := Z.min avail _) in *. 
    assert (0 < n <= MAX_CHUNK) as Hn by (unfold n, MIN_CHUNK in *; lia). clearbody n.
    rewrite Hq1. unfold pre_debit.
    unfold to_i64_or_max. rewrite Z.min_l by (unfold MAX_CHUNK in *; unfold_ints; lia).
    rewrite Quota.consume_live by (done || (destruct Hl as [? Hl]; specialize (Hl Eq); lia) || lia).
    destruct (n <=? Quota.remaining h) eqn:En; cbn [quota total].
    + set (h1 := Quota.mkHandle _ _).
      assert (Quota.live h1) as Hl1 by (split; simpl; lia).
      destruct (park_opt _ _ _ _ _ _) as [w1 now1|w1 now1|];
        [|exists h1; simpl; split_and!; done || lia..].
      destruct (park_opt _ _ _ _ _ _) as [w2 now2|w2 now2|];
        [|exists h1; simpl; split_and!; done || lia..].
      specialize (IH (mkLoop w2 (Some h1) (cached_rule l1) (cached_owner l1) (last_snapshot l1)
        (total l1 + n)) now2 h1 eq_refl Hl1).
      destruct (copy_with_cap _ _ _ _ _ _) as [l' r]. destruct IH as (h' & ? & ? & Hle).
      exists h'. simpl in *. split_and!; done || lia.
    + exists (Quota.mkHandle 0 true). simpl. destruct Hl as [H0 _]. split_and!; [done|by split|]. lia.
Qed.

Lemma capped_copy_within_quota_witness :
  let (l', r) := copy_with_cap
    [mkIteration (Quota.Chunk 600) 0 [] []; mkIteration (Quota.Chunk 600) 0 [] [0]] In 1 None
    (mkLoop (world tiny_loop) (Some (Quota.mkHandle 1000 false)) (Some 1%nat) None 0 0) 0 in
  r = Finished 600 /\ exists h', quota l' = Some h' /\ Quota.live h' /\
    total l' - 0 + Quota.remaining h' <= 1000.
Proof.
  pose proof (capped_copy_within_quota
    [mkIteration (Quota.Chunk 600) 0 [] []; mkIteration (Quota.Chunk 600) 0 [] [0]] In 1 None
    (mkLoop (world tiny_loop) (Some (Quota.mkHandle 1000 false)) (Some 1%nat) None 0 0) 0
    (Quota.mkHandle 1000 false) eq_refl) as H.
  destruct (copy_with_cap _ _ _ _ _ _) as [l' r] eqn:E.
  split; [by vm_compute in E; injection E as _ <-|].
  apply H; [by split|by repeat constructor].
Defined.

End CopyLoop.
