(* ===== verification/RuleStore.v ===== *)
(** * The server's rule store

    [crates/portunus-server/src/rules.rs]: the in-memory rules of all clients,
    the per-client index of listen ports they are looked up by, and the
    conflict check that decides whether a pushed rule may share its ports.

    A [ClientId] is an opaque number, names and user ids are strings, an
    instant is a number of the wall clock passed to the operations that read
    it.  The store's write lock makes each operation atomic, so an operation
    is a function of the store. *)

From S2P Require Import Prelude Text PortRange Target RateLimit.
Import PortRange.PortRange.

Open Scope Z_scope.

Module RuleStore.

Inductive Protocol : Type := Tcp | Udp.

#[export] Instance Protocol_eq_dec : EqDecision Protocol.
Proof. solve_decision. Defined.

Inductive RuleState : Type :=
| Pending
| Active
| Failed (reason : list Z)
| Removed.

Record Rule : Type := mkRule {
  id : Z;
  client_id : Z;
  client_name : list Z;
  listen_port : Z;
  listen_port_end : option Z;
  target_host : list Z;
  target_port : Z;
  target_port_end : option Z;
  prefer_ipv6 : option bool;
  protocol : Protocol;
  state : RuleState;
  created_at : Z;
  last_state_change_at : Z;
  owner_user_id : list Z;
  targets : list RuleTarget.RuleTarget;
  health_check_interval_secs : option Z;
  sni_pattern : option (list Z);
  rate_limit : option RateLimit.RateLimit;
}.

Definition range_of (start : Z) (end_opt : option Z) : PortRange :=
  match end_opt with
  | Some e =>
    if start <? e then match new start e with Ok r => r | Err _ => single start end
    else single start
  | None => single start
  end.

Definition listen_range (r : Rule) : PortRange := range_of (listen_port r) (listen_port_end r).
Definition target_range (r : Rule) : PortRange := range_of (target_port r) (target_port_end r).
Definition range_size (r : Rule) : Z := len (listen_range r).
Definition is_range (r : Rule) : bool := 1 <? range_size r.
Definition is_multi_target (r : Rule) : bool := negb (bool_decide (targets r = [])).

Definition targets_view (r : Rule) : list RuleTarget.RuleTarget :=
  if bool_decide (targets r = [])
  then [RuleTarget.mkRuleTarget (target_host r) (target_port r) 0 None]
  else targets r.

Inductive RuleStoreError : Type :=
| PortInUse (offending_port : Z)
| NotFound
| InvalidTransition
| ExceedsCap (requested cap : Z)
| RangeInvalid (e : PortRangeError)
| SniRouteDuplicate (client_name : list Z) (listen_port : Z) (sni_pattern : list Z)
| SniFallbackDuplicate (client_name : list Z) (listen_port : Z)
| LegacyToSniUnsupported (client_name : list Z) (listen_port : Z).

Abbreviation Index := (gmap Z (gmap Z (list Z))) (only parsing).

Record Store : Type := mkStore {
  rules : gmap Z Rule;
  by_client_listen_start : Index;
  next_id : Z;
}.

Definition empty_store : Store := mkStore ∅ ∅ 0.

(** ** The index *)

Definition ids_at (idx : Index) (c p : Z) : list Z :=
  default [] (idx !! c ≫= fun m => m !! p).

(** [entry(c).or_default().entry(p).or_default().push(id)]. *)
Definition index_push (idx : Index) (c p i : Z) : Index :=
  let m := default ∅ (idx !! c) in
  <[c := <[p := default [] (m !! p) ++ [i]]> m]> idx.

(** Drop [i] from its slot, and the slot and the client's map when empty. *)
Definition index_remove (idx : Index) (c p i : Z) : Index :=
  match idx !! c with
  | None => idx
  | Some m =>
    let m :=
      match m !! p with
      | None => m
      | Some ids =>
        let ids := filter (fun x => x <> i) ids in
        if bool_decide (ids = []) then delete p m else <[p := ids]> m
      end in
    if bool_decide (m = ∅) then delete c idx else <[c := m]> idx
  end.

(** [BTreeMap::range(..=e)]: the slots up to [e], in order of their port. *)
Definition range_le (m : gmap Z (list Z)) (e : Z) : list (Z * list Z) :=
  stable_sort (fun a b => a.1 <=? b.1) (filter (fun kv => kv.1 <= e) (map_to_list m)).

(** ** The conflict check *)

Definition blocking (s : RuleState) : bool :=
  match s with Active | Failed _ => true | _ => false end.

Definition single_tcp (r : Rule) : bool :=
  bool_decide (protocol r = Tcp) && bool_decide (listen_port_end r = None).

(** Does the port already have a fallback sibling, in any state? *)
Definition has_fallback (s : Store) (c p : Z) : bool :=
  existsb
    (fun sid =>
       match rules s !! sid with
       | Some sib => single_tcp sib && bool_decide (sni_pattern sib = None)
       | None => false
       end)
    (ids_at (by_client_listen_start s) c p).

(** The body of the loop: the error an existing rule raises, if any. *)
Definition check_existing (s : Store) (c : Z) (name : list Z) (listen : PortRange)
  (proto : Protocol) (sni : option (list Z)) (existing : Rule) : option RuleStoreError :=
  if negb (bool_decide (protocol existing = proto)) then None
  else if negb (blocking (state existing)) then None
  else
    let existing_range := listen_range existing in
    if negb (overlaps existing_range listen) then None
    else
      let port := start listen in
      let candidate_is_single_tcp := bool_decide (proto = Tcp) && (len listen =? 1) in
      let same_single_port :=
        candidate_is_single_tcp && single_tcp existing && (listen_port existing =? port) in
      if same_single_port then
        match sni_pattern existing, sni with
        | None, None => Some (PortInUse port)
        | None, Some _ => Some (LegacyToSniUnsupported name port)
        | Some _, None =>
          if has_fallback s c port then Some (SniFallbackDuplicate name port) else None
        | Some p, Some q =>
          if bool_decide (p = q) then Some (SniRouteDuplicate name port q) else None
        end
      else Some (PortInUse (Z.max (start listen) (start existing_range))).

Definition check_id (s : Store) (c : Z) (name : list Z) (listen : PortRange) (proto : Protocol)
  (sni : option (list Z)) (i : Z) : option RuleStoreError :=
  match rules s !! i with
  | None => None
  | Some existing => check_existing s c name listen proto sni existing
  end.

(** The first error of the walk. *)
Fixpoint first_error {A} (f : A -> option RuleStoreError) (l : list A) : option RuleStoreError :=
  match l with
  | [] => None
  | x :: l => match f x with Some e => Some e | None => first_error f l end
  end.

Definition find_conflict (s : Store) (c : Z) (name : list Z) (listen : PortRange)
  (proto : Protocol) (sni : option (list Z)) : option RuleStoreError :=
  match by_client_listen_start s !! c with
  | None => None
  | Some index =>
    first_error (fun slot => first_error (check_id s c name listen proto sni) slot.2)
      (range_le index (end_ listen))
  end.

(** ** Operations *)

Definition push_range_with_targets (s : Store) (c : Z) (name : list Z) (listen : PortRange)
  (host : list Z) (target : PortRange) (proto : Protocol) (ipv6 : option bool) (range_cap : Z)
  (owner : list Z) (tgts : list RuleTarget.RuleTarget) (health : option Z)
  (sni : option (list Z)) (rl : option RateLimit.RateLimit) (now : Z)
  : Result (Rule * Store) RuleStoreError :=
  match pair listen target with
  | Err e => Err (RangeInvalid e)
  | Ok (listen, target) =>
    if range_cap <? len listen then Err (ExceedsCap (len listen) range_cap)
    else
      match find_conflict s c name listen proto sni with
      | Some e => Err e
      | None =>
        let i := next_id s in
        let rule :=
          mkRule i c name (start listen) (if 1 <? len listen then Some (end_ listen) else None)
            host (start target) (if 1 <? len target then Some (end_ target) else None)
            ipv6 proto Pending now now owner tgts health sni rl in
        Ok (rule,
            mkStore (<[i := rule]> (rules s))
              (index_push (by_client_listen_start s) c (start listen) i)
              (wrap_u64 (i + 1)))
      end
  end.

Definition push_range (s : Store) (c : Z) (name : list Z) (listen : PortRange) (host : list Z)
  (target : PortRange) (proto : Protocol) (ipv6 : option bool) (range_cap : Z) (owner : list Z)
  (now : Z) : Result (Rule * Store) RuleStoreError :=
  push_range_with_targets s c name listen host target proto ipv6 range_cap owner [] None None None
    now.

(** [UserId::superadmin()]. *)
Definition superadmin : list Z := lit "_superadmin".

Definition push (s : Store) (c : Z) (name : list Z) (port : Z) (host : list Z) (tport : Z)
  (proto : Protocol) (ipv6 : option bool) (now : Z) : Result (Rule * Store) RuleStoreError :=
  push_range s c name (single port) host (single tport) proto ipv6 u32_max superadmin now.

Definition push_with_sni (s : Store) (c : Z) (name : list Z) (port : Z) (host : list Z)
  (tport : Z) (proto : Protocol) (sni : option (list Z)) (now : Z)
  : Result (Rule * Store) RuleStoreError :=
  push_range_with_targets s c name (single port) host (single tport) proto None u32_max superadmin
    [] None sni None now.

Definition set_state (st : RuleState) (now : Z) (r : Rule) : Rule :=
  mkRule (id r) (client_id r) (client_name r) (listen_port r) (listen_port_end r)
    (target_host r) (target_port r) (target_port_end r) (prefer_ipv6 r) (protocol r)
    st (created_at r) now (owner_user_id r) (targets r) (health_check_interval_secs r)
    (sni_pattern r) (rate_limit r).

Definition set_client_name (name : list Z) (r : Rule) : Rule :=
  mkRule (id r) (client_id r) name (listen_port r) (listen_port_end r)
    (target_host r) (target_port r) (target_port_end r) (prefer_ipv6 r) (protocol r)
    (state r) (created_at r) (last_state_change_at r) (owner_user_id r) (targets r)
    (health_check_interval_secs r) (sni_pattern r) (rate_limit r).

Definition set_rate_limit (rl : option RateLimit.RateLimit) (r : Rule) : Rule :=
  mkRule (id r) (client_id r) (client_name r) (listen_port r) (listen_port_end r)
    (target_host r) (target_port r) (target_port_end r) (prefer_ipv6 r) (protocol r)
    (state r) (created_at r) (last_state_change_at r) (owner_user_id r) (targets r)
    (health_check_interval_secs r) (sni_pattern r) rl.

Definition with_rules (s : Store) (m : gmap Z Rule) : Store :=
  mkStore m (by_client_listen_start s) (next_id s).

(** [mark_active], [mark_failed] and [mark_pending] share their body. *)
Definition mark (st : RuleState) (s : Store) (i : Z) (now : Z) : Result Store RuleStoreError :=
  match rules s !! i with
  | None => Err NotFound
  | Some r =>
    match state r with
    | Removed => Err InvalidTransition
    | _ => Ok (with_rules s (<[i := set_state st now r]> (rules s)))
    end
  end.

Definition mark_active (s : Store) (i now : Z) : Result Store RuleStoreError := mark Active s i now.
Definition mark_failed (s : Store) (i : Z) (reason : list Z) (now : Z)
  : Result Store RuleStoreError := mark (Failed reason) s i now.
Definition mark_pending (s : Store) (i now : Z) : Result Store RuleStoreError :=
  mark Pending s i now.

Definition drop_rule (s : Store) (i : Z) (r : Rule) : Store :=
  mkStore (delete i (rules s))
    (index_remove (by_client_listen_start s) (client_id r) (listen_port r) i) (next_id s).

Definition remove (s : Store) (i : Z) : Result (Rule * Store) RuleStoreError :=
  match rules s !! i with
  | None => Err NotFound
  | Some r => Ok (r, drop_rule s i r)
  end.

Definition get (s : Store) (i : Z) : option Rule := rules s !! i.

Definition update_rate_limit (s : Store) (i : Z) (rl : option RateLimit.RateLimit)
  : Result (Rule * Store) RuleStoreError :=
  match rules s !! i with
  | None => Err NotFound
  | Some r =>
    let r := set_rate_limit rl r in
    Ok (r, with_rules s (<[i := r]> (rules s)))
  end.

Definition hydrate_one (s : Store) (r : Rule) : Store :=
  mkStore (<[id r := r]> (rules s))
    (index_push (by_client_listen_start s) (client_id r) (listen_port r) (id r))
    (Z.max (next_id s) (sat_add_u64 (id r) 1)).

Definition hydrate (s : Store) (rs : list Rule) : Store := foldl hydrate_one s rs.

(** The values of the rule map; the order of a [HashMap] is not specified. *)
Definition values (s : Store) : list Rule := (map_to_list (rules s)).*2.

Definition list_owned_by (s : Store) (u : list Z) : list Rule :=
  filter (fun r => owner_user_id r = u) (values s).

Definition remove_step (acc : Store * list Z) (i : Z) : Store * list Z :=
  match rules acc.1 !! i with
  | None => acc
  | Some r => (drop_rule acc.1 i r, acc.2 ++ [i])
  end.

Definition remove_owned_by (s : Store) (u : list Z) : Store * list Z :=
  foldl remove_step (s, []) (id <$> list_owned_by s u).

Definition rename_client (s : Store) (c : Z) (name : list Z) : Store * nat :=
  (with_rules s
     ((fun r => if client_id r =? c then set_client_name name r else r) <$> rules s),
   length (filter (fun r => client_id r = c) (values s))).

(** [client_filter.is_none_or(|c| &r.client_id == c)]. *)
Definition passes (client_filter : option Z) (r : Rule) : bool :=
  match client_filter with None => true | Some c => client_id r =? c end.

Definition list_rules (s : Store) (client_filter : option Z) : list Rule :=
  stable_sort (fun a b => id a <=? id b)
    (filter (fun r => passes client_filter r = true) (values s)).

Definition count_with_sni (s : Store) : nat :=
  length (filter (fun r => sni_pattern r <> None) (values s)).

(** ** Sequences of operations *)

Inductive Op : Type :=
| OpPush (c : Z) (name : list Z) (listen : PortRange) (host : list Z) (target : PortRange)
    (proto : Protocol) (ipv6 : option bool) (range_cap : Z) (owner : list Z)
    (tgts : list RuleTarget.RuleTarget) (health : option Z) (sni : option (list Z))
    (rl : option RateLimit.RateLimit) (now : Z)
| OpMark (st : RuleState) (i now : Z)
| OpRemove (i : Z)
| OpUpdateRateLimit (i : Z) (rl : option RateLimit.RateLimit)
| OpRemoveOwnedBy (u : list Z)
| OpRenameClient (c : Z) (name : list Z).

(** The store after an operation; a refused operation leaves it alone. *)
Definition exec (s : Store) (op : Op) : Store :=
  match op with
  | OpPush c name listen host target proto ipv6 cap owner tgts health sni rl now =>
    match push_range_with_targets s c name listen host target proto ipv6 cap owner tgts health
            sni rl now with
    | Ok (_, s') => s' | Err _ => s
    end
  | OpMark st i now => match mark st s i now with Ok s' => s' | Err _ => s end
  | OpRemove i => match remove s i with Ok (_, s') => s' | Err _ => s end
  | OpUpdateRateLimit i rl =>
    match update_rate_limit s i rl with Ok (_, s') => s' | Err _ => s end
  | OpRemoveOwnedBy u => (remove_owned_by s u).1
  | OpRenameClient c name => (rename_client s c name).1
  end.

(** ** The invariant *)

(** No empty slot and no empty client map. *)
Definition tidy (idx : Index) : Prop :=
  forall c m, idx !! c = Some m -> m <> ∅ /\ forall p l, m !! p = Some l -> l <> [].

(** Every stored rule is under its own id, below the next one to be handed
    out, and the index lists exactly the stored rules, each once, at its
    client and first listen port, with no empty slot left behind. *)
Record wf (s : Store) : Prop := {
  wf_key : forall i r, rules s !! i = Some r -> id r = i /\ 0 <= i < next_id s;
  wf_index : forall c p i,
    i ∈ ids_at (by_client_listen_start s) c p <->
    exists r, rules s !! i = Some r /\ client_id r = c /\ listen_port r = p;
  wf_nodup : forall c p, NoDup (ids_at (by_client_listen_start s) c p);
  wf_tidy : tidy (by_client_listen_start s);
}.

(** ** Lemmas: the index *)

Lemma ids_at_push (idx : Index) (c p i c' p' : Z) :
  ids_at (index_push idx c p i) c' p' =
  if decide (c' = c /\ p' = p) then ids_at idx c p ++ [i] else ids_at idx c' p'.
Proof.
  unfold ids_at, index_push.
  destruct (decide (c' = c)) as [->|]; [|rewrite lookup_insert_ne by done; case_decide; naive_solver].
  rewrite lookup_insert_eq. simpl.
  destruct (decide (p' = p)) as [->|].
  - rewrite lookup_insert_eq, decide_True by done. simpl. by destruct (idx !! c).
  - rewrite lookup_insert_ne, decide_False by naive_solver. by destruct (idx !! c).
Qed.

Lemma ids_at_remove (idx : Index) (c p i c' p' : Z) :
  ids_at (index_remove idx c p i) c' p' =
  if decide (c' = c /\ p' = p) then filter (fun x => x <> i) (ids_at idx c p)
  else ids_at idx c' p'.
Proof.
  unfold ids_at, index_remove.
  destruct (decide (c' = c)) as [->|]; cycle 1.
  { rewrite decide_False by naive_solver. destruct (idx !! c); [|done].
    case_bool_decide; [by rewrite lookup_delete_ne | by rewrite lookup_insert_ne]. }
  destruct (idx !! c) as [m|] eqn:Hc; simpl; [|rewrite Hc; by case_decide].
  set (m' := match m !! p with Some _ => _ | None => _ end).
  transitivity (default [] (m' !! p')).
  { case_bool_decide as E; [rewrite lookup_delete_eq, E|rewrite lookup_insert_eq]; done. }
  subst m'. destruct (m !! p) as [l|] eqn:Hp; simpl.
  - destruct (decide (p' = p)) as [->|].
    + rewrite decide_True by done. simpl.
      case_bool_decide as E; [rewrite lookup_delete_eq, E|rewrite lookup_insert_eq]; done.
    + rewrite decide_False by naive_solver.
      case_bool_decide; [rewrite lookup_delete_ne | rewrite lookup_insert_ne]; done.
  - case_decide as E; [destruct E as [_ ->]; by rewrite Hp | done].
Qed.

Lemma tidy_push (idx : Index) (c p i : Z) : tidy idx -> tidy (index_push idx c p i).
Proof.
  intros H c' m. unfold index_push. rewrite lookup_insert_Some. intros [[<- <-]|[_ Hm]]; [|by apply (H c')].
  split; [apply insert_non_empty|]. intros p' l.
  rewrite lookup_insert_Some. intros [[<- <-]|[_ Hl]]; [by destruct (default _ _)|].
  destruct (idx !! c) as [m|] eqn:E; [|done]. by apply (proj2 (H c m E) p').
Qed.

Lemma tidy_remove (idx : Index) (c p i : Z) : tidy idx -> tidy (index_remove idx c p i).
Proof.
  intros H. unfold index_remove. destruct (idx !! c) as [m|] eqn:Hc; [|done].
  set (m' := match m !! p with Some _ => _ | None => _ end).
  assert (Hm' : forall p' l, m' !! p' = Some l -> l <> []).
  { subst m'. intros p' l. destruct (m !! p); [|by apply (proj2 (H c m Hc))].
    case_bool_decide; [rewrite lookup_delete_Some | rewrite lookup_insert_Some].
    - intros [_ ?]. by eapply (proj2 (H c m Hc)).
    - intros [[_ <-]|[_ ?]]; [done|]. by eapply (proj2 (H c m Hc)). }
  case_bool_decide; intros c' m''.
  - rewrite lookup_delete_Some. intros [_ ?]. by apply (H c').
  - rewrite lookup_insert_Some. intros [[<- <-]|[_ ?]]; [done|by apply (H c')].
Qed.

(** ** Lemmas: the walk *)

Lemma first_error_none {A} (f : A -> option RuleStoreError) (l : list A) :
  first_error f l = None <-> forall x, x ∈ l -> f x = None.
Proof.
  induction l as [|x l IH]; simpl; [split; [by intros _ ? ?%elem_of_nil|done]|].
  destruct (f x) eqn:E.
  - split; [done|]. intros H. rewrite <- E. apply H. constructor.
  - rewrite IH. setoid_rewrite elem_of_cons. naive_solver.
Qed.

Lemma first_error_some {A} (f : A -> option RuleStoreError) (l : list A) (e : RuleStoreError) :
  first_error f l = Some e -> exists x, x ∈ l /\ f x = Some e.
Proof.
  induction l as [|x l IH]; simpl; [done|]. destruct (f x) eqn:E.
  - intros [= <-]. exists x. split; [constructor|done].
  - intros (y & ? & ?)%IH. exists y. split; [by constructor|done].
Qed.

Lemma elem_of_range_le (m : gmap Z (list Z)) (e p : Z) (l : list Z) :
  (p, l) ∈ range_le m e <-> m !! p = Some l /\ p <= e.
Proof.
  unfold range_le. rewrite stable_sort_perm, list_elem_of_filter, elem_of_map_to_list.
  simpl. naive_solver.
Qed.

Lemma start_listen_range (r : Rule) : start (listen_range r) = listen_port r.
Proof.
  unfold listen_range, range_of. destruct (listen_port_end r); [|done].
  case_match; [|done]. destruct (new _ _) eqn:E; [|done].
  by apply new_ok_inv in E as [-> _].
Qed.

(** A rule past the end of the candidate raises nothing: what makes the
    bounded walk of the index enough. *)
Lemma check_existing_past (s : Store) (c : Z) (name : list Z) (listen : PortRange)
  (proto : Protocol) (sni : option (list Z)) (r : Rule) :
  end_ listen < listen_port r -> check_existing s c name listen proto sni r = None.
Proof.
  intros H. unfold check_existing. do 2 (case_match; [done|]).
  unfold overlaps. rewrite start_listen_range.
  by replace (listen_port r <=? end_ listen) with false by lia.
Qed.

Lemma find_conflict_none (s : Store) (c : Z) (name : list Z) (listen : PortRange)
  (proto : Protocol) (sni : option (list Z)) :
  wf s ->
  find_conflict s c name listen proto sni = None <->
  forall i r, rules s !! i = Some r -> client_id r = c ->
    check_existing s c name listen proto sni r = None.
Proof.
  intros Hwf. split.
  - intros H i r Hr Hc. destruct (Z_lt_le_dec (end_ listen) (listen_port r)) as [?|Hle];
      [by apply check_existing_past|].
    assert (Hi : i ∈ ids_at (by_client_listen_start s) c (listen_port r))
      by (apply (wf_index s Hwf); eauto).
    unfold find_conflict, ids_at in *. destruct (by_client_listen_start s !! c) as [m|]; simpl in Hi;
      [|by apply elem_of_nil in Hi].
    destruct (m !! listen_port r) as [l|] eqn:Hl; simpl in Hi; [|by apply elem_of_nil in Hi].
    rewrite first_error_none in H. specialize (H (listen_port r, l)).
    rewrite elem_of_range_le, first_error_none in H. specialize (H (conj Hl Hle) i Hi).
    unfold check_id in H. by rewrite Hr in H.
  - intros H. unfold find_conflict. destruct (by_client_listen_start s !! c) as [m|] eqn:Hm; [|done].
    apply first_error_none. intros [p l] [Hl _]%elem_of_range_le. apply first_error_none.
    intros i Hi. simpl in Hi. unfold check_id. destruct (rules s !! i) as [r|] eqn:Hr; [|done].
    assert (i ∈ ids_at (by_client_listen_start s) c p) as (r' & Hr' & Hc & _)%(wf_index s Hwf)
      by (unfold ids_at; by rewrite Hm; simpl; rewrite Hl).
    apply (H i); congruence.
Qed.

(** ** Lemmas: preservation *)

Lemma wf_empty : wf empty_store.
Proof.
  split; simpl; try done; intros; [|constructor].
  unfold ids_at. rewrite lookup_empty. simpl. rewrite elem_of_nil. naive_solver.
Qed.

(** A new rule under a fresh id: the common part of [push] and [hydrate]. *)
Lemma wf_insert (s : Store) (r : Rule) (n : Z) :
  wf s -> rules s !! id r = None -> 0 <= id r < n -> next_id s <= n ->
  wf (mkStore (<[id r := r]> (rules s))
        (index_push (by_client_listen_start s) (client_id r) (listen_port r) (id r)) n).
Proof.
  intros Hwf Hfresh Hid Hn. split; simpl.
  - intros i r'. rewrite lookup_insert_Some. intros [[<- <-]|[_ Hr]]; [done|].
    destruct (wf_key s Hwf i r' Hr). split; [done|lia].
  - intros c p i. rewrite ids_at_push. setoid_rewrite lookup_insert_Some.
    case_decide as E; [destruct E as [-> ->]|]; [rewrite elem_of_app, list_elem_of_singleton|];
      rewrite (wf_index s Hwf); split; naive_solver.
  - intros c p. rewrite ids_at_push. case_decide; [|apply (wf_nodup s Hwf)].
    apply NoDup_app. split; [apply (wf_nodup s Hwf)|]. split; [|apply NoDup_singleton].
    intros i Hi ->%list_elem_of_singleton. apply (wf_index s Hwf) in Hi as (? & ? & _). congruence.
  - apply tidy_push, (wf_tidy s Hwf).
Qed.

Definition same_place (r r' : Rule) : Prop :=
  id r' = id r /\ client_id r' = client_id r /\ listen_port r' = listen_port r.

(** Changing rules in place, as long as none of them moves. *)
Lemma wf_update (s : Store) (m : gmap Z Rule) :
  wf s -> (forall i, option_Forall2 same_place (rules s !! i) (m !! i)) -> wf (with_rules s m).
Proof.
  intros Hwf Hm. split; simpl; [| |apply (wf_nodup s Hwf)|apply (wf_tidy s Hwf)].
  - intros i r Hr. specialize (Hm i). rewrite Hr in Hm. inversion Hm as [r' ? HP Hr'|].
    destruct HP as (-> & _). by apply (wf_key s Hwf).
  - intros c p i. rewrite (wf_index s Hwf). specialize (Hm i). unfold same_place in Hm.
    destruct Hm as [r r' (? & ? & ?)|]; naive_solver.
Qed.

Lemma wf_update_one (s : Store) (i : Z) (r r' : Rule) :
  wf s -> rules s !! i = Some r -> same_place r r' -> wf (with_rules s (<[i := r']> (rules s))).
Proof.
  intros Hwf Hr HP. apply wf_update; [done|]. intros j.
  destruct (decide (i = j)) as [<-|]; [rewrite Hr, lookup_insert_eq; by constructor|].
  rewrite lookup_insert_ne by done. destruct (rules s !! j); constructor. done.
Qed.

Lemma wf_drop (s : Store) (i : Z) (r : Rule) :
  wf s -> rules s !! i = Some r -> wf (drop_rule s i r).
Proof.
  intros Hwf Hr. split; simpl.
  - intros j r' [_ Hj]%lookup_delete_Some. by apply (wf_key s Hwf).
  - intros c p j. rewrite ids_at_remove. setoid_rewrite lookup_delete_Some.
    case_decide as E; [destruct E as [-> ->]; rewrite list_elem_of_filter|];
      rewrite (wf_index s Hwf); split; naive_solver.
  - intros c p. rewrite ids_at_remove.
    case_decide; [apply NoDup_filter|]; apply (wf_nodup s Hwf).
  - apply tidy_remove, (wf_tidy s Hwf).
Qed.

Lemma remove_steps (s : Store) (acc l : list Z) :
  wf s -> NoDup l -> (forall i, i ∈ l -> is_Some (rules s !! i)) ->
  let '(s', out) := foldl remove_step (s, acc) l in
  wf s' /\ next_id s' = next_id s /\ out = acc ++ l /\
  forall j, rules s' !! j = if decide (j ∈ l) then None else rules s !! j.
Proof.
  revert s acc. induction l as [|i l IH]; intros s acc Hwf Hnd Hl; simpl.
  { by rewrite app_nil_r. }
  apply NoDup_cons in Hnd as [Hi Hnd].
  destruct (Hl i) as [r Hr]; [constructor|].
  unfold remove_step at 2. simpl. rewrite Hr.
  specialize (IH (drop_rule s i r) (acc ++ [i]) (wf_drop s i r Hwf Hr) Hnd).
  destruct (foldl remove_step _ l) as [s' out]. destruct IH as (H1 & H2 & -> & H4).
  { intros j Hj. simpl. rewrite lookup_delete_ne by set_solver. apply Hl. by constructor. }
  split; [done|]. split; [done|]. split; [by rewrite <- app_assoc|].
  intros j. rewrite H4. simpl. destruct (decide (j = i)) as [->|].
  - rewrite lookup_delete_eq, (decide_True (P := i ∈ i :: l)) by constructor. by case_decide.
  - rewrite lookup_delete_ne by done. repeat case_decide; set_solver.
Qed.

Lemma elem_of_values (s : Store) (r : Rule) :
  wf s -> r ∈ values s <-> rules s !! id r = Some r.
Proof.
  intros Hwf. unfold values. rewrite list_elem_of_fmap. split.
  - intros ([i r'] & -> & Hr%elem_of_map_to_list). simpl.
    by destruct (wf_key s Hwf i r' Hr) as [-> _].
  - intros Hr. exists (id r, r). by rewrite elem_of_map_to_list.
Qed.

Lemma values_ids (s : Store) : wf s -> id <$> values s = (map_to_list (rules s)).*1.
Proof.
  intros Hwf. unfold values. rewrite <- list_fmap_compose. apply list_fmap_ext.
  intros k [i r] Hk%list_elem_of_lookup_2%elem_of_map_to_list. simpl.
  by apply (wf_key s Hwf).
Qed.

Lemma sublist_fmap {A B} (f : A -> B) (l k : list A) :
  l `sublist_of` k -> f <$> l `sublist_of` f <$> k.
Proof. induction 1; simpl; by constructor. Qed.

Lemma owned_ids (s : Store) (u : list Z) :
  wf s ->
  NoDup (id <$> list_owned_by s u) /\
  forall i, i ∈ id <$> list_owned_by s u <-> exists r, rules s !! i = Some r /\ owner_user_id r = u.
Proof.
  intros Hwf. split.
  - assert (Hnd : NoDup (id <$> values s))
      by (rewrite (values_ids s Hwf); apply NoDup_fst_map_to_list).
    eapply sublist_NoDup; [exact Hnd|]. simpl. apply sublist_fmap. unfold list_owned_by. apply sublist_filter.
  - intros i. rewrite list_elem_of_fmap. unfold list_owned_by. split.
    + intros (r & -> & [<- Hr%elem_of_values]%list_elem_of_filter); eauto.
    + intros (r & Hr & <-). exists r. destruct (wf_key s Hwf i r Hr) as [<- _].
      rewrite list_elem_of_filter, elem_of_values; auto.
Qed.

Lemma fresh_next (s : Store) : wf s -> rules s !! next_id s = None.
Proof.
  intros Hwf. destruct (rules s !! next_id s) as [r|] eqn:E; [|done].
  apply (wf_key s Hwf) in E. lia.
Qed.

(** One operation keeps the invariant and hands out at most one id. *)
Lemma exec_wf (s : Store) (op : Op) :
  wf s -> 0 <= next_id s < u64_max ->
  wf (exec s op) /\ 0 <= next_id (exec s op) <= next_id s + 1.
Proof.
  intros Hwf Hn. destruct op as [c name listen host target proto ipv6 cap owner tgts health sni rl now
                                |st i now|i|i rl|u|c name]; simpl.
  - unfold push_range_with_targets.
    destruct (pair listen target) as [[l t]|]; simpl; [|split; [done|lia]].
    destruct (cap <? _); simpl; [split; [done|lia]|].
    destruct (find_conflict _ _ _ _ _ _); simpl; [split; [done|lia]|]. rewrite wrap_u64_id by (unfold in_u64, u64_max in *; lia). split; [|lia].
    set (r := mkRule _ _ _ _ _ _ _ _ _ _ _ _ _ _ _ _ _ _).
    apply (wf_insert s r); subst r; simpl; [done|by apply fresh_next|lia|lia].
  - unfold mark. destruct (rules s !! i) as [r|] eqn:Hr; [|split; [done|lia]].
    destruct (state r); simpl; (split; [|lia]); try done; by apply wf_update_one with r.
  - unfold remove. destruct (rules s !! i) as [r|] eqn:Hr; simpl; (split; [|lia]); [|done].
    by apply wf_drop.
  - unfold update_rate_limit. destruct (rules s !! i) as [r|] eqn:Hr; simpl; (split; [|lia]); [|done].
    by apply wf_update_one with r.
  - destruct (owned_ids s u Hwf) as [Hnd Hin].
    pose proof (remove_steps s [] _ Hwf Hnd) as H. unfold remove_owned_by.
    destruct (foldl remove_step _ _) as [s' out]. destruct H as (? & E & _);
      [intros i (r & Hr & _)%Hin; eauto|].
    simpl. rewrite E. split; [done|lia].
  - split; [|lia]. apply wf_update; [done|]. intros i. rewrite lookup_fmap.
    destruct (rules s !! i); simpl; constructor. by case_match.
Qed.

(** Rules that can be loaded at startup: distinct ids that leave room for a
    next one. *)
Definition hydratable (rs : list Rule) : Prop :=
  NoDup (id <$> rs) /\ Forall (fun r => 0 <= id r < u64_max) rs.

Lemma hydrate_wf (s : Store) (rs : list Rule) :
  wf s -> 0 <= next_id s <= u64_max -> hydratable rs ->
  (forall r, r ∈ rs -> rules s !! id r = None) ->
  wf (hydrate s rs) /\ 0 <= next_id (hydrate s rs) <= u64_max.
Proof.
  revert s. induction rs as [|r rs IH]; intros s Hwf Hn [Hnd Hb] Hfresh; [done|].
  apply NoDup_cons in Hnd as [Hr Hnd]. apply Forall_cons in Hb as [Hid Hb].
  unfold hydrate. simpl. apply IH; [| |done|].
  - unfold hydrate_one, sat_add_u64. apply wf_insert; [done| |lia|lia]. apply Hfresh. constructor.
  - unfold hydrate_one, sat_add_u64. simpl. unfold u64_max in *. lia.
  - intros r' Hr'. simpl. rewrite lookup_insert_ne; [apply Hfresh; by constructor|].
    intros E. apply Hr. rewrite E. by apply list_elem_of_fmap_2.
Qed.

Lemma run_wf (s : Store) (ops : list Op) :
  wf s -> 0 <= next_id s -> next_id s + Z.of_nat (length ops) <= u64_max ->
  wf (foldl exec s ops).
Proof.
  revert s. induction ops as [|op ops IH]; intros s Hwf H0 Hn; [done|]. simpl in *.
  destruct (exec_wf s op) as [? ?]; [done|lia|]. apply IH; [done|lia|lia].
Qed.

Lemma overlaps_range (r : Rule) (listen : PortRange) :
  start listen <= end_ listen ->
  overlaps (listen_range r) listen = true <->
  exists p, contains (listen_range r) p = true /\ contains listen p = true.
Proof.
  intros H. assert (start (listen_range r) <= end_ (listen_range r)).
  { unfold listen_range, range_of. destruct (listen_port_end r); [|simpl; lia].
    case_match; [|simpl; lia]. destruct (new _ _) eqn:E; [|simpl; lia].
    apply new_ok_inv in E as (-> & _ & ?). done. }
  unfold overlaps, contains. setoid_rewrite andb_true_iff. setoid_rewrite Z.leb_le. split.
  - intros []. exists (Z.max (start (listen_range r)) (start listen)). lia.
  - intros (p & ? & ?). lia.
Qed.

Lemma has_fallback_spec (s : Store) (c p : Z) :
  wf s ->
  has_fallback s c p = true <->
  exists i r, rules s !! i = Some r /\ client_id r = c /\ listen_port r = p /\
    single_tcp r = true /\ sni_pattern r = None.
Proof.
  intros Hwf. unfold has_fallback. rewrite existsb_exists. setoid_rewrite <- list_elem_of_In.
  setoid_rewrite (wf_index s Hwf). split.
  - intros (i & (r & Hr & Hc & Hp) & H). rewrite Hr in H.
    apply andb_true_iff in H as [? ?%bool_decide_eq_true]. eauto 10.
  - intros (i & r & Hr & Hc & Hp & Ht & Hs). exists i. split; [eauto|]. rewrite Hr, Ht, Hs. done.
Qed.

(** ** What a push promises *)

(** The rule [r] leaves room for a candidate: it speaks another protocol, is
    not in force, shares no port, or is one of several TLS routes of a shared
    TCP port, of which at most one is the fallback without a pattern. *)
Definition leaves_room (s : Store) (c : Z) (listen : PortRange) (proto : Protocol)
  (sni : option (list Z)) (r : Rule) : Prop :=
  protocol r <> proto \/
  blocking (state r) = false \/
  (~ exists p, contains (listen_range r) p = true /\ contains listen p = true) \/
  (proto = Tcp /\ single_tcp r = true /\ listen = single (listen_port r) /\
   exists pat, sni_pattern r = Some pat /\
     match sni with
     | Some q => q <> pat
     | None =>
       ~ exists i f, rules s !! i = Some f /\ client_id f = c /\ listen_port f = listen_port r /\
           single_tcp f = true /\ sni_pattern f = None
     end).

Lemma single_iff (listen : PortRange) (p : Z) :
  listen = single p <-> len listen =? 1 = true /\ p =? start listen = true.
Proof.
  destruct listen as [a b]. unfold single, len. simpl. rewrite !Z.eqb_eq.
  split; [intros [= -> ->]; lia | intros []; f_equal; lia].
Qed.

Lemma sni_matrix_room (s : Store) (c : Z) (name : list Z) (p : Z) (sni : option (list Z)) (r : Rule) :
  wf s ->
  match sni_pattern r, sni with
  | None, None => Some (PortInUse p)
  | None, Some _ => Some (LegacyToSniUnsupported name p)
  | Some _, None => if has_fallback s c p then Some (SniFallbackDuplicate name p) else None
  | Some pat, Some q => if bool_decide (pat = q) then Some (SniRouteDuplicate name p q) else None
  end = None <->
  exists pat, sni_pattern r = Some pat /\
    match sni with
    | Some q => q <> pat
    | None =>
      ~ exists i f, rules s !! i = Some f /\ client_id f = c /\ listen_port f = p /\
          single_tcp f = true /\ sni_pattern f = None
    end.
Proof.
  intros Hwf. pose proof (has_fallback_spec s c p Hwf) as Hf.
  destruct (sni_pattern r) as [pat|], sni as [q|].
  - case_bool_decide; naive_solver.
  - destruct (has_fallback s c p); naive_solver.
  - naive_solver.
  - naive_solver.
Qed.

Lemma check_existing_room (s : Store) (c : Z) (name : list Z) (listen : PortRange)
  (proto : Protocol) (sni : option (list Z)) (r : Rule) :
  wf s -> start listen <= end_ listen ->
  check_existing s c name listen proto sni r = None <-> leaves_room s c listen proto sni r.
Proof.
  intros Hwf Hle. unfold check_existing, leaves_room.
  rewrite <- (overlaps_range r listen Hle), single_iff.
  case_bool_decide as Hp; simpl; [|split; [by left|done]].
  destruct (blocking (state r)); simpl; [|split; [by right; left|done]].
  destruct (overlaps (listen_range r) listen) eqn:Ho; simpl; [|split; [by right; right; left|done]].
  destruct (bool_decide (proto = Tcp) && (len listen =? 1) && single_tcp r
              && (listen_port r =? start listen)) eqn:E.
  - repeat rewrite andb_true_iff in E. rewrite bool_decide_eq_true in E.
    destruct E as [[[Ht Hl] Hs] Hq]. rewrite (sni_matrix_room s c name _ sni r Hwf).
    apply Z.eqb_eq in Hq. rewrite <- Hq, Z.eqb_refl.
    split; [by intros H; right; right; right | by intros [?|[?|[?|(_ & _ & _ & ?)]]]].
  - split; [done|]. intros [?|[?|[?|(-> & Hs & [Hl Hq] & _)]]]; [done|done|naive_solver|].
    rewrite Hs, Hl, Hq in E. done.
Qed.

(** A store used by the witnesses: a TLS route and a fallback, both active on
    port 443 of client 1, the second owned by another user. *)
Definition ex_route (sni : option (list Z)) (owner : list Z) : Op :=
  OpPush 1 (lit "edge") (single 443) (lit "h") (single 80) Tcp None u32_max owner [] None sni None 100.

Definition ex_store : Store :=
  foldl exec empty_store
    [ex_route (Some (lit "a.example")) superadmin; OpMark Active 0 101;
     ex_route None (lit "bob"); OpMark Active 1 102].

Lemma ex_store_wf : wf ex_store.
Proof. apply run_wf; [apply wf_empty|simpl; lia|vm_compute; discriminate]. Qed.

(** ** Theorems *)

(** The index is exact in every store the server can reach: starting
    from the rules loaded at boot, after any sequence of pushes, state
    changes, removals, cascades, rate-limit updates and renames, a client's
    slot for a port lists exactly the rules stored for that client with that
    first port, each once, rules sit under their own ids below the next one,
    and no empty slot is left. *)
Theorem rule_store_index_exact (boot : list Rule) (ops : list Op) :
  hydratable boot ->
  next_id (hydrate empty_store boot) + Z.of_nat (length ops) <= u64_max ->
  wf (foldl exec (hydrate empty_store boot) ops).
Proof.
  intros Hb Hn. destruct (hydrate_wf empty_store boot wf_empty) as [? ?]; [done|done|done|].
  apply run_wf; [done|lia|done].
Qed.

Lemma rule_store_index_exact_witness :
  hydratable [] /\
  wf (foldl exec (hydrate empty_store []) [ex_route None superadmin; OpMark Active 0 7; OpRemove 0]).
Proof.
  assert (H : hydratable []) by (split; constructor).
  split; [exact H|]. apply rule_store_index_exact; [exact H|vm_compute; discriminate].
Defined.

(** A push is accepted exactly when the two ranges have the same length,
    the length is within the cap and every rule of the client leaves room for
    it; the accepted rule is stored as pending under the next id and no other
    rule is touched, and a refused push returns an error. *)
Theorem push_accept_iff (s : Store) (c : Z) (name : list Z) (listen : PortRange) (host : list Z)
  (target : PortRange) (proto : Protocol) (ipv6 : option bool) (range_cap : Z) (owner : list Z)
  (tgts : list RuleTarget.RuleTarget) (health : option Z) (sni : option (list Z))
  (rl : option RateLimit.RateLimit) (now : Z) :
  wf s -> start listen <= end_ listen ->
  let res := push_range_with_targets s c name listen host target proto ipv6 range_cap owner tgts
               health sni rl now in
  ((exists r s', res = Ok (r, s')) <->
   len listen = len target /\ len listen <= range_cap /\
   forall i r, rules s !! i = Some r -> client_id r = c -> leaves_room s c listen proto sni r) /\
  (forall r s', res = Ok (r, s') ->
     id r = next_id s /\ client_id r = c /\ state r = Pending /\ protocol r = proto /\
     sni_pattern r = sni /\ owner_user_id r = owner /\ listen_port r = start listen /\
     rules s' = <[next_id s := r]> (rules s)).
Proof.
  intros Hwf Hle. cbv zeta. unfold push_range_with_targets, pair. split.
  - destruct (len listen =? len target) eqn:E1; simpl; bool_prop; [|naive_solver].
    destruct (range_cap <? len listen) eqn:E2; bool_prop; [split; [naive_solver|lia]|].
    pose proof (find_conflict_none s c name listen proto sni Hwf) as Hf.
    setoid_rewrite <- (check_existing_room s c name listen proto sni _ Hwf Hle).
    rewrite <- Hf. destruct (find_conflict s c name listen proto sni); [naive_solver|].
    split; [intros _; split; [done|]; split; [lia|done] | eauto].
  - intros r s'. destruct (negb _); [done|]. destruct (_ <? _); [done|].
    destruct (find_conflict _ _ _ _ _ _); [done|]. by intros [= <- <-].
Qed.

Lemma push_accept_iff_witness :
  (exists r s', push_range_with_targets ex_store 1 (lit "edge") (mkPortRange 500 501) (lit "h")
                  (mkPortRange 80 81) Udp None 16 superadmin [] None None None 103 = Ok (r, s')) /\
  (len (mkPortRange 500 501) = len (mkPortRange 80 81) /\ len (mkPortRange 500 501) <= 16 /\
   forall i r, rules ex_store !! i = Some r -> client_id r = 1 ->
     leaves_room ex_store 1 (mkPortRange 500 501) Udp None r).
Proof.
  destruct (push_accept_iff ex_store 1 (lit "edge") (mkPortRange 500 501) (lit "h")
              (mkPortRange 80 81) Udp None 16 superadmin [] None None None 103) as [H _];
    [exact ex_store_wf|simpl; lia|].
  assert (E : exists r s', push_range_with_targets ex_store 1 (lit "edge") (mkPortRange 500 501)
                (lit "h") (mkPortRange 80 81) Udp None 16 superadmin [] None None None 103 = Ok (r, s'))
    by (eexists; eexists; vm_compute; reflexivity).
  split; [exact E|]. apply H. exact E.
Defined.

(** Removing a user's rules removes exactly those: the freed ids are the
    ids of the user's rules, each once, every other rule stays as it was, the
    index follows, and no id is reused. *)
Theorem remove_owned_by_exact (s : Store) (u : list Z) :
  wf s ->
  let '(s', out) := remove_owned_by s u in
  wf s' /\ next_id s' = next_id s /\ NoDup out /\
  (forall i, i ∈ out <-> exists r, rules s !! i = Some r /\ owner_user_id r = u) /\
  (forall i r, rules s' !! i = Some r <-> rules s !! i = Some r /\ owner_user_id r <> u).
Proof.
  intros Hwf. destruct (owned_ids s u Hwf) as [Hnd Hin]. unfold remove_owned_by.
  pose proof (remove_steps s [] _ Hwf Hnd) as H.
  destruct (foldl remove_step _ _) as [s' out]. destruct H as (? & ? & -> & Hr);
    [intros i (r & Hr & _)%Hin; eauto|].
  repeat (split; [done|]). intros i r. rewrite Hr. case_decide as E.
  - apply Hin in E as (r' & ? & ?). naive_solver.
  - split; [|by intros []]. intros Hi. split; [done|]. intros Ho. apply E, Hin. eauto.
Qed.

Lemma remove_owned_by_exact_witness :
  (remove_owned_by ex_store (lit "bob")).2 = [1] /\
  let '(s', out) := remove_owned_by ex_store (lit "bob") in
  wf s' /\ next_id s' = next_id ex_store /\ NoDup out /\
  (forall i, i ∈ out <-> exists r, rules ex_store !! i = Some r /\ owner_user_id r = lit "bob") /\
  (forall i r, rules s' !! i = Some r <-> rules ex_store !! i = Some r /\ owner_user_id r <> lit "bob").
Proof.
  split; [vm_compute; reflexivity|]. exact (remove_owned_by_exact ex_store (lit "bob") ex_store_wf).
Defined.

(** A fallback in force closes its port to further TLS routes: whatever
    routes the port already has, pushing a rule with a new pattern next to an
    active rule without one is refused. *)
Theorem fallback_closes_port (s : Store) (i : Z) (f : Rule) (name host pat : list Z)
  (tport now : Z) :
  wf s -> rules s !! i = Some f -> single_tcp f = true -> sni_pattern f = None ->
  state f = Active ->
  exists e, push_with_sni s (client_id f) name (listen_port f) host tport Tcp (Some pat) now = Err e.
Proof.
  intros Hwf Hi Hs Hn Ha. unfold push_with_sni, push_range_with_targets.
  destruct (pair _ _) as [[l t]|] eqn:Hp; [|eauto]. case_match; [eauto|].
  destruct (find_conflict _ _ _ _ _ _) eqn:E; [eauto|]. exfalso.
  unfold pair in Hp. case_match; simplify_eq.
  rewrite (find_conflict_none _ _ _ _ _ _ Hwf) in E. specialize (E i f Hi eq_refl).
  apply check_existing_room in E; [|done|simpl; lia].
  apply andb_true_iff in Hs as [Ht%bool_decide_eq_true He%bool_decide_eq_true].
  destruct E as [E|[E|[E|(_ & _ & _ & q & E & _)]]].
  - congruence.
  - by rewrite Ha in E.
  - apply E. exists (listen_port f). unfold listen_range, range_of. rewrite He.
    unfold single, contains. simpl. lia.
  - congruence.
Qed.

Lemma fallback_closes_port_witness :
  push_with_sni ex_store 1 (lit "edge") 443 (lit "h") 80 Tcp (Some (lit "b.example")) 103 =
    Err (LegacyToSniUnsupported (lit "edge") 443) /\
  exists f, rules ex_store !! 1 = Some f /\
    exists e, push_with_sni ex_store (client_id f) (lit "edge") (listen_port f) (lit "h") 80 Tcp
                (Some (lit "b.example")) 103 = Err e.
Proof.
  split; [vm_compute; reflexivity|].
  destruct (rules ex_store !! 1) as [f|] eqn:E; [|vm_compute in E; discriminate].
  exists f. split; [reflexivity|].
  assert (Hf : single_tcp f = true /\ sni_pattern f = None /\ state f = Active)
    by (vm_compute in E; injection E as <-; repeat split; reflexivity).
  destruct Hf as (H1 & H2 & H3).
  apply (fallback_closes_port ex_store 1 f); [exact ex_store_wf|exact E|exact H1|exact H2|exact H3].
Defined.

End RuleStore.
