(* ===== verification/Rbac.v ===== *)
(** * Operator identities and authorisation

    [crates/portunus-auth/src/lib.rs] (user ids, roles, grants) and
    [crates/portunus-server/src/operator/rbac.rs] (the pure authorisation
    functions every HTTP handler goes through). *)

From S2P Require Import Prelude Text RuleStore.

Open Scope Z_scope.

Module Rbac.

Inductive OperatorRole : Type := Superadmin | User.

#[export] Instance OperatorRole_eq_dec : EqDecision OperatorRole.
Proof. solve_decision. Defined.

Inductive RbacError : Type :=
| Unauthenticated | CredentialInvalid | UserDisabled
| ClientNotGranted | PortOutsideGrant | ProtocolNotGranted | NotOwner | RoleRequired
| BootstrapRequired | AlreadyBootstrapped
| InvalidUserId | InvalidDisplayName | ReservedUserId | InvalidPortRange | EmptyProtocolSet
| InvalidClient
| UserAlreadyExists | UserNotFound | CredentialNotFound | GrantNotFound | CannotRemoveSelf
| LastSuperadmin.

#[export] Instance RbacError_eq_dec : EqDecision RbacError.
Proof. solve_decision. Defined.

Definition code (e : RbacError) : list Z :=
  lit match e with
      | Unauthenticated => "unauthenticated"
      | CredentialInvalid => "credential_invalid"
      | UserDisabled => "user_disabled"
      | ClientNotGranted => "client_not_granted"
      | PortOutsideGrant => "port_outside_grant"
      | ProtocolNotGranted => "protocol_not_granted"
      | NotOwner => "not_owner"
      | RoleRequired => "role_required"
      | BootstrapRequired => "bootstrap_required"
      | AlreadyBootstrapped => "already_bootstrapped"
      | InvalidUserId => "invalid_user_id"
      | InvalidDisplayName => "invalid_display_name"
      | ReservedUserId => "reserved_user_id"
      | InvalidPortRange => "invalid_port_range"
      | EmptyProtocolSet => "empty_protocol_set"
      | InvalidClient => "invalid_client"
      | UserAlreadyExists => "user_already_exists"
      | UserNotFound => "user_not_found"
      | CredentialNotFound => "credential_not_found"
      | GrantNotFound => "grant_not_found"
      | CannotRemoveSelf => "cannot_remove_self"
      | LastSuperadmin => "last_superadmin"
      end.

(** ** User ids *)

(** A byte allowed after the first. *)
Definition user_id_tail (b : Z) : bool :=
  is_ascii_lowercase b || is_ascii_digit b || (b =? 45) || (b =? 95).

(** [UserId::from_str]; a [UserId] is its text. *)
Definition user_id_from_str (s : list Z) : Result (list Z) RbacError :=
  let bytes := as_bytes s in
  match bytes with
  | [] => Err InvalidUserId
  | b :: rest =>
    if (32 <? length bytes)%nat then Err InvalidUserId
    else if b =? 95 then Err ReservedUserId
    else if negb (is_ascii_lowercase b) then Err InvalidUserId
    else if forallb user_id_tail rest then Ok s else Err InvalidUserId
  end.

(** [UserId::is_reserved]. *)
Definition is_reserved (u : list Z) : bool := starts_with_char 95 u.

(** ** Grants *)

Inductive ClientScope : Type := Any | Named (name : list Z).

(** [ProtocolSet]: the bits of a [u8]. *)
Definition TCP : Z := 1.
Definition UDP : Z := 2.
Definition contains (self other : Z) : bool := Z.land self other =? other.
Definition non_empty (bits : Z) : Result Z RbacError :=
  if bits =? 0 then Err EmptyProtocolSet else Ok bits.

Record Grant : Type := mkGrant {
  id : Z;
  user_id : list Z;
  client : ClientScope;
  listen_port_start : Z;
  listen_port_end : Z;
  protocols : Z;
  note : option (list Z);
  created_at : Z;
}.

Record OperatorIdentity : Type := mkIdentity { who : list Z; role : OperatorRole }.

(** ** Authorisation *)

Record PushRequest : Type := mkPush {
  push_client : list Z;
  push_start : Z;
  push_end : Z;
  push_protocol : RuleStore.Protocol;
}.

Definition as_set (p : RuleStore.Protocol) : Z :=
  match p with RuleStore.Tcp => TCP | RuleStore.Udp => UDP end.

Definition matches_client (scope : ClientScope) (want : list Z) : bool :=
  match scope with Any => true | Named n => bool_decide (n = want) end.

Definition covers (g : Grant) (push : PushRequest) : bool :=
  (listen_port_start g <=? push_start push) && (push_end push <=? listen_port_end g).

Definition enforce_push (identity : OperatorIdentity) (push : PushRequest) (grants : list Grant)
  : Result unit RbacError :=
  if bool_decide (role identity = Superadmin) then Ok tt
  else
    let client_match := filter (fun g => matches_client (client g) (push_client push) = true) grants in
    if bool_decide (client_match = []) then Err ClientNotGranted
    else
      let proto_match :=
        filter (fun g => contains (protocols g) (as_set (push_protocol push)) = true) client_match in
      if bool_decide (proto_match = []) then Err ProtocolNotGranted
      else if negb (existsb (fun g => covers g push) proto_match) then Err PortOutsideGrant
      else Ok tt.

Definition enforce_read (identity : OperatorIdentity) (rule_owner : list Z)
  : Result unit RbacError :=
  if bool_decide (role identity = Superadmin) then Ok tt
  else if bool_decide (who identity = rule_owner) then Ok tt
  else Err NotOwner.

(** The trait [HasOwner], implemented for rules. *)
Class HasOwner (R : Type) : Type := owner : R -> list Z.
#[export] Instance rule_has_owner : HasOwner RuleStore.Rule := RuleStore.owner_user_id.

Definition filter_visible {R} `{HasOwner R} (identity : OperatorIdentity) (rules : list R) : list R :=
  if bool_decide (role identity = Superadmin) then rules
  else filter (fun r => owner r = who identity) rules.

Definition require_role (identity : OperatorIdentity) (required : OperatorRole)
  : Result unit RbacError :=
  match role identity with
  | Superadmin => Ok tt
  | r => if bool_decide (r = required) then Ok tt else Err RoleRequired
  end.

(** ** Specification *)

(** A single grant allows the whole request. *)
Definition allows (push : PushRequest) (g : Grant) : Prop :=
  matches_client (client g) (push_client push) = true /\
  contains (protocols g) (as_set (push_protocol push)) = true /\
  forall p, push_start push <= p <= push_end push ->
    listen_port_start g <= p <= listen_port_end g.

(** The names [[a-z][a-z0-9_-]*] of at most 32 bytes. *)
Definition valid_user_id (s : list Z) : Prop :=
  exists c r, s = c :: r /\ is_ascii_lowercase c = true /\ Forall (fun c => user_id_tail c = true) r /\
    (length s <= 32)%nat.

(** ** Lemmas *)

Lemma covers_spec (g : Grant) (push : PushRequest) :
  push_start push <= push_end push ->
  covers g push = true <->
  forall p, push_start push <= p <= push_end push -> listen_port_start g <= p <= listen_port_end g.
Proof.
  intros H. unfold covers. rewrite andb_true_iff, !Z.leb_le. split; [lia|].
  intros Hp. pose proof (Hp (push_start push)). pose proof (Hp (push_end push)). lia.
Qed.

Lemma filter_nil_iff {A} (P : A -> Prop) `{forall x, Decision (P x)} (l : list A) :
  filter P l = [] <-> forall x, x ∈ l -> ~ P x.
Proof.
  split.
  - intros E x Hx HP. assert (x ∈ filter P l) by (by apply list_elem_of_filter).
    rewrite E in *. by eapply elem_of_nil.
  - intros Hn. destruct (filter P l) as [|x k] eqn:E; [done|]. exfalso.
    assert (Hx : x ∈ filter P l) by (rewrite E; constructor).
    apply list_elem_of_filter in Hx as [? ?]. by eapply Hn.
Qed.

Lemma filter_nil_not_elem {A} (P : A -> Prop) `{forall x, Decision (P x)} (l : list A) :
  filter P l <> [] <-> exists x, x ∈ l /\ P x.
Proof.
  split.
  - destruct (filter P l) as [|x k] eqn:E; [done|]. intros _.
    assert (Hx : x ∈ filter P l) by (rewrite E; constructor).
    apply list_elem_of_filter in Hx as [? ?]. eauto.
  - intros (x & Hx & HP) E. by apply (proj1 (filter_nil_iff P l) E x).
Qed.

Lemma enforce_push_ok (identity : OperatorIdentity) (push : PushRequest) (grants : list Grant) :
  push_start push <= push_end push ->
  enforce_push identity push grants = Ok tt <->
  role identity = Superadmin \/ exists g, g ∈ grants /\ allows push g.
Proof.
  intros Hle. unfold enforce_push. case_bool_decide as Hr; [naive_solver|].
  set (cm := filter _ grants). set (pm := filter _ cm).
  assert (Hin : forall g, g ∈ pm <-> g ∈ grants /\ matches_client (client g) (push_client push) = true /\
            contains (protocols g) (as_set (push_protocol push)) = true).
  { intros g. unfold pm, cm. rewrite !list_elem_of_filter. tauto. }
  assert (Hex : existsb (fun g => covers g push) pm = true <-> exists g, g ∈ grants /\ allows push g).
  { rewrite existsb_exists. setoid_rewrite <- list_elem_of_In. unfold allows.
    setoid_rewrite <- covers_spec; [|done]. setoid_rewrite Hin. naive_solver. }
  case_bool_decide as Hc; [|case_bool_decide as Hp].
  - split; [done|]. intros [?|(g & Hg & Ha)]; [done|]. exfalso.
    destruct Ha as (Hm & _). by apply (proj1 (filter_nil_iff _ _) Hc g).
  - split; [done|]. intros [?|(g & Hg & Hm & Hq & _)]; [done|]. exfalso.
    assert (g ∈ pm) as Hgp by (by apply Hin). rewrite Hp in Hgp. by apply elem_of_nil in Hgp.
  - destruct (existsb _ pm); simpl; naive_solver.
Qed.

Lemma enforce_push_monotone (identity : OperatorIdentity) (push : PushRequest) (gs hs : list Grant) :
  push_start push <= push_end push -> gs ⊆ hs ->
  enforce_push identity push gs = Ok tt -> enforce_push identity push hs = Ok tt.
Proof. intros Hle Hs. rewrite !enforce_push_ok by done. set_solver. Qed.

(** ** Theorems *)

(** C29. Authorisation is closed-set and answers with the most specific
    reason: a push is allowed exactly when the caller is a superadmin or one
    single grant covers client, protocol and every port; otherwise the reason
    tells the first dimension no grant covers. *)
Theorem enforce_push_spec (identity : OperatorIdentity) (push : PushRequest) (grants : list Grant) :
  push_start push <= push_end push ->
  let on_client g := matches_client (client g) (push_client push) = true in
  let on_proto g := contains (protocols g) (as_set (push_protocol push)) = true in
  (enforce_push identity push grants = Ok tt <->
   role identity = Superadmin \/ exists g, g ∈ grants /\ allows push g) /\
  (enforce_push identity push grants = Err ClientNotGranted <->
   role identity = User /\ forall g, g ∈ grants -> ~ on_client g) /\
  (enforce_push identity push grants = Err ProtocolNotGranted <->
   role identity = User /\ (exists g, g ∈ grants /\ on_client g) /\
   forall g, g ∈ grants -> on_client g -> ~ on_proto g) /\
  (enforce_push identity push grants = Err PortOutsideGrant <->
   role identity = User /\ (exists g, g ∈ grants /\ on_client g /\ on_proto g) /\
   forall g, g ∈ grants -> ~ allows push g).
Proof.
  intros Hle on_client on_proto. split; [by apply enforce_push_ok|].
  pose proof (enforce_push_ok identity push grants Hle) as Hok. unfold enforce_push in *.
  destruct (role identity) eqn:Hr; [rewrite bool_decide_true in * by done; naive_solver|].
  rewrite bool_decide_false in * by done.
  set (cm := filter _ grants) in *. set (pm := filter _ cm) in *.
  assert (Hcm : cm = [] <-> forall g, g ∈ grants -> ~ on_client g) by apply filter_nil_iff.
  assert (Hpm : pm = [] <-> forall g, g ∈ grants -> on_client g -> ~ on_proto g).
  { unfold pm. rewrite filter_nil_iff. unfold cm. setoid_rewrite list_elem_of_filter.
    unfold on_client. naive_solver. }
  assert (Hcm' : cm <> [] <-> exists g, g ∈ grants /\ on_client g).
  { unfold cm. rewrite filter_nil_not_elem. done. }
  assert (Hpm' : pm <> [] <-> exists g, g ∈ grants /\ on_client g /\ on_proto g).
  { unfold pm. rewrite filter_nil_not_elem. unfold cm. setoid_rewrite list_elem_of_filter.
    unfold on_client, on_proto. naive_solver. }
  case_bool_decide as Hc; [|case_bool_decide as Hp; [|destruct (existsb _ pm) eqn:E; simpl in *]];
    naive_solver.
Qed.

(** A user with two adjacent TCP grants, and requests against them. *)
Definition bob : OperatorIdentity := mkIdentity (lit "bob") User.
Definition bob_grants : list Grant :=
  [mkGrant 1 (lit "bob") (Named (lit "edge")) 1000 1999 TCP None 0;
   mkGrant 2 (lit "bob") Any 2000 2999 TCP None 0].

Lemma enforce_push_spec_witness :
  1500 <= 2500 /\
  enforce_push bob (mkPush (lit "edge") 1500 1600 RuleStore.Tcp) bob_grants = Ok tt /\
  (enforce_push bob (mkPush (lit "edge") 1500 2500 RuleStore.Tcp) bob_grants = Err PortOutsideGrant <->
   role bob = User /\
   (exists g, g ∈ bob_grants /\ matches_client (client g) (lit "edge") = true /\
      contains (protocols g) TCP = true) /\
   forall g, g ∈ bob_grants -> ~ allows (mkPush (lit "edge") 1500 2500 RuleStore.Tcp) g).
Proof.
  split; [lia|]. split; [reflexivity|].
  apply (enforce_push_spec bob (mkPush (lit "edge") 1500 2500 RuleStore.Tcp) bob_grants).
  simpl. lia.
Defined.

(** What a list shows is what a read allows: an operator sees a rule in a
    listing exactly when reading that rule directly is permitted. *)
Theorem visible_iff_readable {R} `{HasOwner R} (identity : OperatorIdentity) (rules : list R) (r : R) :
  r ∈ filter_visible identity rules <->
  r ∈ rules /\ enforce_read identity (owner r) = Ok tt.
Proof.
  unfold filter_visible, enforce_read. case_bool_decide; [naive_solver|].
  rewrite list_elem_of_filter. case_bool_decide; naive_solver.
Qed.

Lemma user_id_tail_ascii (b : Z) : user_id_tail b = true -> b < 128.
Proof.
  unfold user_id_tail, is_ascii_lowercase, is_ascii_digit.
  rewrite !orb_true_iff, !andb_true_iff, !Z.leb_le, !Z.eqb_eq. lia.
Qed.

Lemma lowercase_tail (b : Z) : is_ascii_lowercase b = true -> user_id_tail b = true.
Proof. unfold user_id_tail. by intros ->. Qed.

Lemma valid_user_id_bytes (s : list Z) :
  Forall (fun c => user_id_tail c = true) s -> as_bytes s = s.
Proof.
  unfold as_bytes. induction 1 as [|c s Hc Hs IH]; [done|]. cbn. rewrite IH.
  apply user_id_tail_ascii in Hc. unfold utf8_encode_char.
  by rewrite (proj2 (Z.ltb_lt c 0x80)) by lia.
Qed.

(** User ids are validated exactly: the accepted texts are the names of a
    lower-case letter followed by lower-case letters, digits, hyphens and
    underscores, of at most 32 bytes; they are kept as they are and are never
    in the reserved namespace, so no operator can create or name a built-in
    account. *)
Theorem user_id_from_str_spec (s : list Z) :
  (forall u, user_id_from_str s = Ok u <-> u = s /\ valid_user_id s) /\
  (forall u, user_id_from_str s = Ok u -> is_reserved u = false) /\
  user_id_from_str (RuleStore.superadmin) = Err ReservedUserId.
Proof.
  assert (Hiff : forall u, user_id_from_str s = Ok u <-> u = s /\ valid_user_id s).
  { intros u. unfold user_id_from_str. split.
    - destruct (as_bytes s) as [|b rest] eqn:E; [done|].
      destruct (32 <? _)%nat eqn:Hl; [done|]. destruct (b =? 95); [done|].
      destruct (is_ascii_lowercase b) eqn:Hb; [|done]. simpl.
      destruct (forallb user_id_tail rest) eqn:Ht; [|done]. intros [= <-]. split; [done|].
      apply forallb_true_Forall in Ht.
      assert (Ha : Forall (fun c => user_id_tail c = true) (as_bytes s)).
      { rewrite E. constructor; [by apply lowercase_tail|done]. }
      apply as_bytes_ascii in Ha as [Hs Hsame]; [|apply user_id_tail_ascii].
      rewrite Hsame in E. subst s. exists b, rest. rewrite Forall_cons in Hs.
      apply Nat.ltb_ge in Hl. by destruct Hs.
    - intros (-> & c & r & -> & Hc & Hr & Hl).
      rewrite valid_user_id_bytes by (constructor; [by apply lowercase_tail|done]).
      rewrite (proj2 (Nat.ltb_ge 32 _)) by lia. rewrite Hc.
      replace (c =? 95) with false by (unfold is_ascii_lowercase in Hc; lia). simpl.
      by rewrite (proj2 (forallb_true_Forall _ _) Hr). }
  split; [done|]. split; [|reflexivity].
  intros u [-> (c & r & -> & Hc & _)]%Hiff. unfold is_reserved, starts_with_char.
  unfold is_ascii_lowercase in Hc. simpl. lia.
Qed.

End Rbac.
