(* ===== verification/Fingerprint.v ===== *)
(** * Fingerprints and stored hashes

    [crates/portunus-core/src/fingerprint.rs] (hex encoding, the shape test of
    a SHA-256 pin, constant-time comparison) and the [hash_hex] adapter of
    [crates/portunus-auth/src/lib.rs] that reads a stored token hash back. The
    hash functions themselves (sha2, blake3) are not part of the sources. *)

From S2P Require Import Prelude Text.

Local Open Scope Z_scope.

Module Fingerprint.

(** [TABLE]: the lower-case hexadecimal digits. *)
Definition TABLE : list Z := lit "0123456789abcdef".

(** [TABLE[i]]; an index past the table would panic, and a nibble is below
    16. *)
Definition digit (i : Z) : list Z := match TABLE !! Z.to_nat i with Some c => [c] | None => [] end.

Definition hex (bytes : list Z) : list Z :=
  bytes ≫= fun b => digit (Z.shiftr b 4) ++ digit (Z.land b 0xf).

Definition is_ascii_hexdigit (b : Z) : bool :=
  is_ascii_digit b || ((97 <=? b) && (b <=? 102)) || ((65 <=? b) && (b <=? 70)).

Definition is_valid_sha256_hex (s : list Z) : bool :=
  (str_len s =? 64)%nat && forallb is_ascii_hexdigit (as_bytes s).

(** The accumulator of the comparison, over the common length. *)
Fixpoint diff (acc : Z) (a b : list Z) : Z :=
  match a, b with
  | x :: a, y :: b => diff (Z.lor acc (Z.lxor x y)) a b
  | _, _ => acc
  end.

Definition ct_eq (a b : list Z) : bool :=
  if negb (length a =? length b)%nat then false else diff 0 a b =? 0.

(** [hash_hex::nibble]. *)
Definition nibble (b : Z) : option Z :=
  if (48 <=? b) && (b <=? 57) then Some (b - 48)
  else if (97 <=? b) && (b <=? 102) then Some (b - 97 + 10)
  else if (65 <=? b) && (b <=? 70) then Some (b - 65 + 10)
  else None.

Inductive HashHexError : Type := BadLength (len : nat) | BadHexChar.

(** The loop over [chunks_exact(2)]. *)
Fixpoint decode_pairs (s : list Z) : Result (list Z) HashHexError :=
  match s with
  | hi :: lo :: r =>
    match nibble hi, nibble lo with
    | Some hi, Some lo =>
      match decode_pairs r with
      | Ok out => Ok (Z.lor (Z.shiftl hi 4) lo :: out)
      | Err e => Err e
      end
    | _, _ => Err BadHexChar
    end
  | _ => Ok []
  end.

(** [hash_hex::deserialize]: 32 bytes from 64 hexadecimal characters. *)
Definition deserialize (s : list Z) : Result (list Z) HashHexError :=
  if negb (str_len s =? 64)%nat then Err (BadLength (str_len s)) else decode_pairs (as_bytes s).

(** ** Lemmas *)

(** A byte is printed as two hexadecimal digits that read back as it. *)
Definition byte_ok (b : Z) : bool :=
  match hex [b] with
  | [h; l] =>
    is_ascii_hexdigit h && is_ascii_hexdigit l &&
    match decode_pairs [h; l] with Ok [b'] => b' =? b | _ => false end
  | _ => false
  end.

Lemma byte_ok_all : forallb byte_ok (Z.of_nat <$> seq 0 256) = true.
Proof. vm_compute. reflexivity. Qed.

Lemma byte_ok_u8 (b : Z) : in_u8 b -> byte_ok b = true.
Proof.
  intros Hb. pose proof byte_ok_all as H. rewrite forallb_forall in H.
  apply H, list_elem_of_In, list_elem_of_fmap. exists (Z.to_nat b).
  unfold in_u8, u8_max in Hb. split; [lia|]. apply elem_of_seq. lia.
Qed.

Lemma hex_cons (b : Z) (bs : list Z) : hex (b :: bs) = hex [b] ++ hex bs.
Proof. unfold hex. simpl. by rewrite app_nil_r. Qed.

Lemma hex_spec (bs : list Z) :
  Forall in_u8 bs ->
  length (hex bs) = (2 * length bs)%nat /\ forallb is_ascii_hexdigit (hex bs) = true /\
  decode_pairs (hex bs) = Ok bs.
Proof.
  induction 1 as [|b bs Hb _ (IH1 & IH2 & IH3)]; [done|]. rewrite hex_cons.
  apply byte_ok_u8 in Hb. unfold byte_ok in Hb.
  destruct (hex [b]) as [|h [|l [|]]]; try done.
  apply andb_prop in Hb as [[Hh Hl]%andb_prop Hd]. cbn [app].
  split; [cbn; lia|]. split; [cbn; by rewrite Hh, Hl|].
  cbn [decode_pairs] in *. destruct (nibble h), (nibble l); try done. rewrite IH3.
  apply Z.eqb_eq in Hd. by rewrite Hd.
Qed.

Lemma hexdigit_ascii (b : Z) : is_ascii_hexdigit b = true -> b < 128.
Proof.
  unfold is_ascii_hexdigit, is_ascii_digit.
  rewrite !orb_true_iff, !andb_true_iff, !Z.leb_le. lia.
Qed.

Lemma as_bytes_hexdigits (s : list Z) : forallb is_ascii_hexdigit s = true -> as_bytes s = s.
Proof.
  rewrite forallb_true_Forall. unfold as_bytes. induction 1 as [|c s Hc Hs IH]; [done|]. cbn.
  rewrite IH. apply hexdigit_ascii in Hc. unfold utf8_encode_char.
  by rewrite (proj2 (Z.ltb_lt c 0x80)) by lia.
Qed.

Lemma nibble_iff (b : Z) : is_ascii_hexdigit b = true <-> is_Some (nibble b).
Proof.
  unfold is_ascii_hexdigit, is_ascii_digit, nibble.
  destruct ((48 <=? b) && (b <=? 57)), ((97 <=? b) && (b <=? 102)), ((65 <=? b) && (b <=? 70));
    simpl; (split; [intros ?|intros [? ?]]; try done; eauto).
Qed.

Lemma decode_pairs_ok (n : nat) (s : list Z) :
  length s = (2 * n)%nat ->
  (exists bs, decode_pairs s = Ok bs) <-> forallb is_ascii_hexdigit s = true.
Proof.
  revert s. induction n as [|n IH]; intros s Hl.
  { destruct s; [|done]. split; [done|]. by exists []. }
  destruct s as [|h [|l s]]; [done|cbn in Hl; lia|]. cbn [decode_pairs forallb].
  rewrite !andb_true_iff, !nibble_iff, <- (IH s) by (cbn in Hl; lia).
  destruct (nibble h) as [x|], (nibble l) as [y|];
    [|split; [by intros [? ?]|intros ([? ?] & [? ?] & _); done]..].
  destruct (decode_pairs s) as [bs|e]; (split; [intros [bs' ?]|intros (_ & _ & [bs' ?])]); try done;
    [split; [by eexists|split; [by eexists|by eexists]]|by eexists].
Qed.

Lemma diff_zero (acc : Z) (a b : list Z) :
  length a = length b -> diff acc a b = 0 <-> acc = 0 /\ a = b.
Proof.
  revert acc b. induction a as [|x a IH]; intros acc [|y b] Hl; try done; cbn.
  { naive_solver. }
  rewrite IH by (cbn in Hl; lia). rewrite Z.lor_eq_0_iff, Z.lxor_eq_0_iff. naive_solver.
Qed.

(** ** Theorems *)

(** Constant-time comparison decides equality of byte strings. *)
Theorem ct_eq_spec (a b : list Z) : ct_eq a b = true <-> a = b.
Proof.
  unfold ct_eq. destruct (length a =? length b)%nat eqn:E; simpl.
  - rewrite Z.eqb_eq, diff_zero by (by apply Nat.eqb_eq). naive_solver.
  - apply Nat.eqb_neq in E. split; [done|]. by intros ->.
Qed.

(** A stored hash reads back as it was written: 32 bytes print as a valid
    64-digit pin, the adapter returns the same bytes, and it accepts exactly
    the texts the pin test accepts. *)
Theorem hash_hex_roundtrip (bs : list Z) :
  length bs = 32%nat -> Forall in_u8 bs ->
  is_valid_sha256_hex (hex bs) = true /\ deserialize (hex bs) = Ok bs /\
  forall s, (exists out, deserialize s = Ok out) <-> is_valid_sha256_hex s = true.
Proof.
  intros Hl Hb. destruct (hex_spec bs Hb) as (H1 & H2 & H3). rewrite Hl in H1.
  assert (Hbytes := as_bytes_hexdigits _ H2).
  assert (Hlen : str_len (hex bs) = 64%nat) by (rewrite <- length_as_bytes, Hbytes; done).
  unfold is_valid_sha256_hex, deserialize. rewrite Hlen, Hbytes. simpl.
  split; [done|]. split; [done|]. intros s.
  destruct (str_len s =? 64)%nat eqn:E; simpl; [|split; [by intros [? ?]|done]].
  apply (decode_pairs_ok 32). rewrite length_as_bytes. by apply Nat.eqb_eq in E.
Qed.

Lemma hash_hex_roundtrip_witness :
  is_valid_sha256_hex (hex (replicate 32 171)) = true /\
  deserialize (hex (replicate 32 171)) = Ok (replicate 32 171).
Proof.
  destruct (hash_hex_roundtrip (replicate 32 171)) as (H1 & H2 & _).
  - reflexivity.
  - apply Forall_replicate. unfold in_u8, u8_max. lia.
  - split; [exact H1|exact H2].
Defined.

End Fingerprint.
