(* ===== verification/Identity.v ===== *)
(** * The operator identity store and its handlers

    [crates/portunus-server/src/store/operator_store.rs] (users, credentials
    and grants kept in SQLite) and the handlers that change them:
    [operator/grants.rs] and [operator/users.rs], with the cascades into the
    rule store.

    A table is a finite map from its primary key; a statement is the update it
    describes, a transaction is atomic and [ON DELETE CASCADE] is written out.
    A grant row may fail to decode (a bad timestamp, id or client name): the
    reads then answer with an empty list, as the code does.  The token hash
    (blake3) is a parameter. *)

From S2P Require Import Prelude Text PortRange RuleStore Rbac Fingerprint.
Import Rbac.Rbac.

Open Scope Z_scope.

Module Identity.

Record User : Type := mkUser {
  uid : list Z;
  display_name : list Z;
  urole : OperatorRole;
  ucreated_at : Z;
  disabled : bool;
}.

(** A row of [credentials]: owner, hexadecimal hash, whether the status is
    ["active"], time of last use. *)
Record Credential : Type := mkCredential {
  cuser : list Z;
  chash : list Z;
  cactive : bool;
  clast_used : option Z;
}.

(** A row of [grants]: its owner column and what [row_to_grant] makes of it. *)
Record GrantRow : Type := mkRow { gowner : list Z; decoded : option Grant }.

Record Tables : Type := mkTables {
  users : gmap (list Z) User;
  credentials : gmap Z Credential;
  grants : gmap Z GrantRow;
}.

Inductive IdentityStoreError : Type :=
| UserExists (u : list Z)
| NoUser (u : list Z)
| NoGrant (g : Z)
| BadPortRange (start end_ : Z)
| WriteFailed.

(** ** Reads *)

Definition get_user (t : Tables) (u : list Z) : option User := users t !! u.

Definition count_superadmins (t : Tables) : nat :=
  length (filter (fun kv => urole kv.2 = Superadmin /\ disabled kv.2 = false)
            (map_to_list (users t))).

(** The rows of a user, decoded one by one: the first failure loses them all. *)
Fixpoint decode_rows (rows : list GrantRow) : option (list Grant) :=
  match rows with
  | [] => Some []
  | r :: rows => match decoded r with
                 | Some g => (fun gs => g :: gs) <$> decode_rows rows
                 | None => None
                 end
  end.

Definition rows_of (t : Tables) (u : list Z) : list GrantRow :=
  filter (fun r => gowner r = u) (map_to_list (grants t)).*2.

Definition grants_for (t : Tables) (u : list Z) : list Grant :=
  stable_sort (fun a b => created_at a <=? created_at b) (default [] (decode_rows (rows_of t u))).

(** ** Writes *)

Definition user_exists (t : Tables) (u : list Z) : bool := bool_decide (is_Some (users t !! u)).

Definition add_user (t : Tables) (u : User) : Result Tables IdentityStoreError :=
  if user_exists t (uid u) then Err (UserExists (uid u))
  else Ok (mkTables (<[uid u := u]> (users t)) (credentials t) (grants t)).

Record UserRemoveSummary : Type := mkSummary {
  removed_credential_ids : list Z;
  revoked_grant_ids : list Z;
}.

Definition keys_of {A} (P : A -> Prop) `{forall x, Decision (P x)} (m : gmap Z A) : list Z :=
  (filter (fun kv => P kv.2) (map_to_list m)).*1.

Definition remove_user (t : Tables) (u : list Z)
  : Result (UserRemoveSummary * Tables) IdentityStoreError :=
  if negb (user_exists t u) then Err (NoUser u)
  else
    Ok (mkSummary (keys_of (fun c => cuser c = u) (credentials t))
          (keys_of (fun g => gowner g = u) (grants t)),
        mkTables (delete u (users t))
          (filter (fun kv => cuser kv.2 <> u) (credentials t))
          (filter (fun kv => gowner kv.2 <> u) (grants t))).

Definition add_grant (t : Tables) (g : Grant) : Result Tables IdentityStoreError :=
  if (listen_port_start g =? 0) || (listen_port_end g <? listen_port_start g)
  then Err (BadPortRange (listen_port_start g) (listen_port_end g))
  else if negb (user_exists t (user_id g)) then Err (NoUser (user_id g))
  else if bool_decide (is_Some (grants t !! id g)) || (protocols g <? 1) || (3 <? protocols g)
  then Err WriteFailed
  else Ok (mkTables (users t) (credentials t) (<[id g := mkRow (user_id g) (Some g)]> (grants t))).

Definition revoke_grant (t : Tables) (i : Z) : Result (Grant * Tables) IdentityStoreError :=
  match grants t !! i with
  | None => Err (NoGrant i)
  | Some r =>
    match decoded r with
    | None => Err WriteFailed
    | Some g => Ok (g, mkTables (users t) (credentials t) (delete i (grants t)))
    end
  end.

(** ** Authentication *)

(** The scan over all credentials: the last active match, if any. *)
Fixpoint scan (needle : list Z) (rows : list (Z * Credential)) (matched : option (Z * list Z))
  : option (Z * list Z) :=
  match rows with
  | [] => matched
  | (i, c) :: rows =>
    scan needle rows
      (if (length (chash c) =? length needle)%nat && Fingerprint.ct_eq (chash c) needle && cactive c
       then Some (i, cuser c) else matched)
  end.

Definition touch (now : Z) (c : Credential) : Credential :=
  mkCredential (cuser c) (chash c) (cactive c) (Some now).

Definition verify (hash_token : list Z -> list Z) (t : Tables) (token : list Z) (now : Z)
  : Result OperatorIdentity RbacError * Tables :=
  if (str_len token =? 0)%nat then (Err Unauthenticated, t)
  else if (256 <? str_len token)%nat then (Err CredentialInvalid, t)
  else
    match scan (Fingerprint.hex (hash_token token)) (map_to_list (credentials t)) None with
    | None => (Err CredentialInvalid, t)
    | Some (cred_id, owner_uid) =>
      match users t !! owner_uid with
      | None => (Err CredentialInvalid, t)
      | Some u =>
        if disabled u then (Err UserDisabled, t)
        else (Ok (mkIdentity (uid u) (urole u)),
              mkTables (users t) (alter (touch now) cred_id (credentials t)) (grants t))
      end
    end.

Definition has_any_superadmin (t : Tables) : bool := (0 <? count_superadmins t)%nat.

(** The trait [OperatorAuthenticator]: what the handlers may ask of an
    identity store, and what they rely on. *)
Class OperatorAuthenticator (St : Type) : Type := {
  st_ok : St -> Prop;
  st_verify : St -> list Z -> Z -> Result OperatorIdentity RbacError * St;
  st_grants_for : St -> list Z -> list Grant;
  st_has_any_superadmin : St -> bool;
  st_grants_owned : forall s u g, st_ok s -> g ∈ st_grants_for s u -> user_id g = u;
  st_verify_keeps : forall s tok now u,
    st_grants_for (st_verify s tok now).2 u = st_grants_for s u;
}.

(** ** Handlers *)

Record App (St : Type) : Type := mkApp {
  operator_store : St;
  rules : RuleStore.Store;
  rule_store : gmap Z (list Z);  (* the persisted rules, by id, with their owner *)
}.
Arguments mkApp {St}.
Arguments operator_store {St}.
Arguments rules {St}.
Arguments rule_store {St}.

Inductive ApiError : Type := Denied (e : RbacError) | Failed (e : IdentityStoreError).

Definition push_of (r : RuleStore.Rule) : PushRequest :=
  mkPush (RuleStore.client_name r) (RuleStore.listen_port r)
    (default (RuleStore.listen_port r) (RuleStore.listen_port_end r)) (RuleStore.protocol r).

(** [rules.remove(id)] with its result dropped. *)
Definition remove_rule (s : RuleStore.Store) (i : Z) : RuleStore.Store :=
  match RuleStore.remove s i with Ok (_, s') => s' | Err _ => s end.

Definition is_err {A E} (r : Result A E) : bool := match r with Ok _ => false | Err _ => true end.

(** One turn of the revocation cascade. *)
Definition cascade_step {St} (identity : OperatorIdentity) (remaining : list Grant)
  (acc : App St * list Z) (r : RuleStore.Rule) : App St * list Z :=
  if is_err (enforce_push identity (push_of r) remaining) then
    (mkApp (operator_store acc.1) (remove_rule (rules acc.1) (RuleStore.id r))
       (delete (RuleStore.id r) (rule_store acc.1)),
     acc.2 ++ [RuleStore.id r])
  else acc.

Section Cascade.
Context {St : Type} `{OperatorAuthenticator St}.

(** What [delete_grant] does once the grant is gone: re-evaluate the owner's
    rules, as a plain user, against what [grants_for] still returns. *)
Definition cascade (owner : list Z) (a : App St) : App St * list Z :=
  foldl (cascade_step (mkIdentity owner Rbac.User) (st_grants_for (operator_store a) owner)) (a, [])
    (RuleStore.list_owned_by (rules a) owner).

End Cascade.

Definition with_store {St St'} (a : App St) (s : St') : App St' := mkApp s (rules a) (rule_store a).

(** Rows hold what their columns say. *)
Definition rows_ok (t : Tables) : Prop :=
  (forall i r g, grants t !! i = Some r -> decoded r = Some g -> id g = i /\ user_id g = gowner r) /\
  (forall u r, users t !! u = Some r -> uid r = u).

Lemma decode_rows_elem (rows : list GrantRow) (gs : list Grant) :
  decode_rows rows = Some gs -> forall g, g ∈ gs <-> exists r, r ∈ rows /\ decoded r = Some g.
Proof.
  revert gs. induction rows as [|r rows IH]; intros gs E g; cbn in E.
  { simplify_eq. split; [by intros ?%elem_of_nil|by intros (? & ?%elem_of_nil & _)]. }
  destruct (decoded r) as [g0|] eqn:Er; [|done]. destruct (decode_rows rows) as [gs0|]; [|done].
  simplify_eq/=. rewrite elem_of_cons, (IH gs0 eq_refl). setoid_rewrite elem_of_cons. naive_solver.
Qed.

Lemma elem_of_rows_of (t : Tables) (u : list Z) (r : GrantRow) :
  r ∈ rows_of t u <-> gowner r = u /\ exists i, grants t !! i = Some r.
Proof.
  unfold rows_of. rewrite list_elem_of_filter, list_elem_of_fmap. split.
  - intros (? & [i r'] & -> & Hr%elem_of_map_to_list). eauto.
  - intros (? & i & Hr). split; [done|]. exists (i, r). by rewrite elem_of_map_to_list.
Qed.

Lemma grants_for_owned (t : Tables) (u : list Z) (g : Grant) :
  rows_ok t -> g ∈ grants_for t u -> user_id g = u.
Proof.
  intros [Hok _]. unfold grants_for. rewrite stable_sort_perm.
  destruct (decode_rows (rows_of t u)) as [gs|] eqn:E; simpl; [|by intros ?%elem_of_nil].
  rewrite (decode_rows_elem _ _ E). intros (r & (Hu & i & Hr)%elem_of_rows_of & Hd).
  destruct (Hok i r g Hr Hd). congruence.
Qed.

Lemma verify_grants (hash_token : list Z -> list Z) (t : Tables) (tok : list Z) (now : Z) :
  users (verify hash_token t tok now).2 = users t /\ grants (verify hash_token t tok now).2 = grants t.
Proof. unfold verify. repeat (case_match; simpl; try done). Qed.

Lemma grants_for_only (t t' : Tables) (u : list Z) :
  grants t' = grants t -> grants_for t' u = grants_for t u.
Proof. intros E. unfold grants_for, rows_of. by rewrite E. Qed.

Section Tables.
Variable hash_token : list Z -> list Z.

#[local] Instance tables_auth : OperatorAuthenticator Tables := {|
  st_ok := rows_ok;
  st_verify := verify hash_token;
  st_grants_for := grants_for;
  st_has_any_superadmin := has_any_superadmin;
  st_grants_owned := grants_for_owned;
  st_verify_keeps := fun t tok now u =>
    grants_for_only t _ u (proj2 (verify_grants hash_token t tok now));
|}.

(** [post_grants]: [client], [bits] and [user] are the parsed body, [i] the
    fresh grant id. *)
Definition post_grants (identity : OperatorIdentity) (user : list Z) (scope : ClientScope)
  (pstart pend bits : Z) (gnote : option (list Z)) (i now : Z) (a : App Tables)
  : Result (App Tables) ApiError :=
  match require_role identity Superadmin with
  | Err e => Err (Denied e)
  | Ok _ =>
    match user_id_from_str user with
    | Err e => Err (Denied e)
    | Ok user =>
      if (pstart =? 0) || (pend <? pstart) then Err (Denied InvalidPortRange)
      else
        match non_empty bits with
        | Err e => Err (Denied e)
        | Ok bits =>
          match add_grant (operator_store a) (mkGrant i user scope pstart pend bits gnote now) with
          | Err e => Err (Failed e)
          | Ok t => Ok (with_store a t)
          end
        end
    end
  end.

(** [delete_grant]; [gid] is the parsed path segment. *)
Definition delete_grant (identity : OperatorIdentity) (gid : option Z) (a : App Tables)
  : Result (list Z * App Tables) ApiError :=
  match require_role identity Superadmin with
  | Err e => Err (Denied e)
  | Ok _ =>
    match gid with
    | None => Err (Denied GrantNotFound)
    | Some gid =>
      match revoke_grant (operator_store a) gid with
      | Err e => Err (Failed e)
      | Ok (g, t) =>
        let '(a', removed) := cascade (user_id g) (with_store a t) in
        Ok (removed, a')
      end
    end
  end.

(** [user_ids.rs]. *)
Definition parse_stored_user_id (raw : list Z) : Result (list Z) RbacError :=
  if is_reserved raw then Ok raw else user_id_from_str raw.

(** The checks of [delete_user] and the id it goes on with, made before the write transaction. *)
Definition delete_user_check (identity : OperatorIdentity) (raw : list Z) (a : App Tables)
  : Result (list Z) ApiError :=
  match require_role identity Superadmin with
  | Err e => Err (Denied e)
  | Ok _ =>
    match parse_stored_user_id raw with
    | Err e => Err (Denied e)
    | Ok target =>
      if bool_decide (target = who identity) then Err (Denied CannotRemoveSelf)
      else
        match get_user (operator_store a) target with
        | Some u =>
          if bool_decide (urole u = Superadmin) && (count_superadmins (operator_store a) <=? 1)%nat
          then Err (Denied LastSuperadmin) else Ok target
        | None => Ok target
        end
    end
  end.

(** The rest of it: the identity first, then the rules. *)
Definition delete_user_commit (target : list Z) (a : App Tables)
  : Result (UserRemoveSummary * list Z * App Tables) ApiError :=
  match remove_user (operator_store a) target with
  | Err e => Err (Failed e)
  | Ok (summary, t) =>
    let '(rs, removed) := RuleStore.remove_owned_by (rules a) target in
    Ok (summary, removed, mkApp t rs (filter (fun kv => kv.2 <> target) (rule_store a)))
  end.

Definition delete_user (identity : OperatorIdentity) (raw : list Z) (a : App Tables)
  : Result (UserRemoveSummary * list Z * App Tables) ApiError :=
  match delete_user_check identity raw a with
  | Err e => Err e
  | Ok target => delete_user_commit target a
  end.

End Tables.

(** ** Lemmas: the cascade *)

Lemma remove_rule_stored (s : RuleStore.Store) (i : Z) (r : RuleStore.Rule) :
  RuleStore.rules s !! i = Some r -> remove_rule s i = RuleStore.drop_rule s i r.
Proof. intros H. unfold remove_rule, RuleStore.remove. by rewrite H. Qed.

Definition refused (identity : OperatorIdentity) (remaining : list Grant) (r : RuleStore.Rule) : Prop :=
  is_err (enforce_push identity (push_of r) remaining) = true.

#[local] Instance refused_dec (identity : OperatorIdentity) (remaining : list Grant) (r : RuleStore.Rule) :
  Decision (refused identity remaining r).
Proof. unfold refused. apply _. Defined.

Lemma cascade_fold {St} (identity : OperatorIdentity) (remaining : list Grant)
  (l : list RuleStore.Rule) (a : App St) (acc : list Z) :
  RuleStore.wf (rules a) -> NoDup (RuleStore.id <$> l) ->
  (forall r, r ∈ l -> RuleStore.rules (rules a) !! RuleStore.id r = Some r) ->
  let '(a', out) := foldl (cascade_step identity remaining) (a, acc) l in
  let gone := RuleStore.id <$> filter (refused identity remaining) l in
  RuleStore.wf (rules a') /\ operator_store a' = operator_store a /\ out = acc ++ gone /\
  (forall j, RuleStore.rules (rules a') !! j =
     if decide (j ∈ gone) then None else RuleStore.rules (rules a) !! j) /\
  (forall j, rule_store a' !! j = if decide (j ∈ gone) then None else rule_store a !! j).
Proof.
  revert a acc. induction l as [|r l IH]; intros a acc Hwf Hnd Hl; cbn [foldl].
  { cbv zeta. cbn [filter list_filter fmap list_fmap]. rewrite app_nil_r. split; [done|]. split; [done|]. split; [done|].
    split; intros j; (case_decide as Hj; [by apply elem_of_nil in Hj|done]). }
  apply NoDup_cons in Hnd as [Hr Hnd].
  assert (Hst : RuleStore.rules (rules a) !! RuleStore.id r = Some r) by (apply Hl; constructor).
  unfold cascade_step at 2. rewrite filter_cons. cbn [fst snd].
  destruct (is_err _) eqn:E.
  - rewrite decide_True by done. cbn [fmap list_fmap].
    set (a1 := mkApp _ _ _). specialize (IH a1 (acc ++ [RuleStore.id r])).
    destruct (foldl _ (a1, _) l) as [a' out]. cbv zeta in IH.
    assert (Hrules : rules a1 = RuleStore.drop_rule (rules a) (RuleStore.id r) r)
      by (by apply remove_rule_stored).
    destruct IH as (H1 & H2 & -> & H4 & H5).
    { rewrite Hrules. by apply RuleStore.wf_drop. }
    { done. }
    { intros r' Hr'. rewrite Hrules. simpl. rewrite lookup_delete_ne; [apply Hl; by constructor|].
      intros Eid. apply Hr. rewrite Eid. by apply list_elem_of_fmap_2. }
    split; [done|]. split; [done|]. split; [by rewrite <- app_assoc|]. split; intros j.
    + rewrite H4, Hrules. simpl. destruct (decide (j = RuleStore.id r)) as [->|].
      * rewrite lookup_delete_eq, (decide_True (P := _ ∈ _ :: _)) by constructor. by case_decide.
      * rewrite lookup_delete_ne by done. repeat case_decide; set_solver.
    + rewrite H5. simpl. destruct (decide (j = RuleStore.id r)) as [->|].
      * rewrite lookup_delete_eq, (decide_True (P := _ ∈ _ :: _)) by constructor. by case_decide.
      * rewrite lookup_delete_ne by done. repeat case_decide; set_solver.
  - rewrite decide_False by (unfold refused; by rewrite E). apply IH; [done|done|]. intros r' Hr'. apply Hl. by constructor.
Qed.

Lemma is_err_unit {E} (r : Result unit E) : is_err r = false <-> r = Ok tt.
Proof. destruct r as [[]|]; simpl; split; congruence. Qed.

(** The cascade against any identity store. *)
Lemma cascade_spec {St} `{OperatorAuthenticator St} (u : list Z) (a : App St) :
  RuleStore.wf (rules a) ->
  let '(a', removed) := cascade u a in
  RuleStore.wf (rules a') /\ operator_store a' = operator_store a /\
  (forall i r, RuleStore.rules (rules a') !! i = Some r <->
     RuleStore.rules (rules a) !! i = Some r /\
     (RuleStore.owner_user_id r <> u \/
      enforce_push (mkIdentity u Rbac.User) (push_of r) (st_grants_for (operator_store a) u) = Ok tt)) /\
  (forall i, i ∈ removed <->
     is_Some (RuleStore.rules (rules a) !! i) /\ RuleStore.rules (rules a') !! i = None) /\
  (forall i, rule_store a' !! i = if decide (i ∈ removed) then None else rule_store a !! i).
Proof.
  intros Hwf. destruct (RuleStore.owned_ids (rules a) u Hwf) as [Hnd Hown]. unfold cascade.
  set (identity := mkIdentity u Rbac.User). set (remaining := st_grants_for _ _).
  pose proof (cascade_fold identity remaining (RuleStore.list_owned_by (rules a) u) a [] Hwf Hnd) as HC.
  assert (Hin : forall r, r ∈ RuleStore.list_owned_by (rules a) u <->
            RuleStore.owner_user_id r = u /\ RuleStore.rules (rules a) !! RuleStore.id r = Some r).
  { intros r. unfold RuleStore.list_owned_by.
    by rewrite list_elem_of_filter, (RuleStore.elem_of_values _ _ Hwf). }
  destruct (foldl _ _ _) as [a' removed]. cbv zeta in HC.
  destruct HC as (H1 & H2 & -> & H4 & H5); [by intros r [_ Hr]%Hin|].
  assert (Hgone : forall i, i ∈ [] ++ (RuleStore.id <$> filter (refused identity remaining)
              (RuleStore.list_owned_by (rules a) u)) <->
            exists r, RuleStore.rules (rules a) !! i = Some r /\ RuleStore.owner_user_id r = u /\
              refused identity remaining r).
  { intros i. simpl. rewrite list_elem_of_fmap. split.
    - intros (r & -> & [? [? ?]%Hin]%list_elem_of_filter). eauto.
    - intros (r & Hr & Ho & Hx). destruct (RuleStore.wf_key _ Hwf i r Hr) as [<- _].
      exists r. rewrite list_elem_of_filter, Hin. auto. }
  simpl in Hgone. split; [done|]. split; [done|]. split; [|split; [|by apply H5]].
  - intros i r. rewrite H4. unfold refused in Hgone. rewrite <- is_err_unit. case_decide as E.
    + apply Hgone in E as (r' & Hr' & Ho & Hx). split; [done|]. intros [Hr Hor]. exfalso.
      assert (r' = r) as -> by congruence. destruct Hor as [?|Hy]; [done|]. congruence.
    + split; [|by intros []]. intros Hr. split; [done|].
      destruct (decide (RuleStore.owner_user_id r = u)) as [Ho|]; [|by left]. right.
      destruct (is_err _) eqn:Hx; [|done]. exfalso. apply E, Hgone. eauto.
  - intros i. simpl. rewrite H4. case_decide as E.
    + pose proof E as (r & Hr & _)%Hgone. split; [|by intros _]. intros _. by rewrite Hr.
    + split; [done|]. intros [[r Hr] Hn]. congruence.
Qed.

Lemma count_superadmins_pos (t : Tables) :
  (exists u r, users t !! u = Some r /\ urole r = Superadmin /\ disabled r = false) ->
  (1 <= count_superadmins t)%nat.
Proof.
  intros (u & r & Hr & Hs & Hd). unfold count_superadmins.
  assert (Hin : (u, r) ∈ filter (fun kv => urole kv.2 = Superadmin /\ disabled kv.2 = false)
            (map_to_list (users t))).
  { apply list_elem_of_filter. split; [done|]. by apply elem_of_map_to_list. }
  destruct (filter _ _); [by apply elem_of_nil in Hin|simpl; lia].
Qed.

Lemma remove_owned_rules (s : RuleStore.Store) (u : list Z) :
  RuleStore.wf s ->
  exists s' out, RuleStore.remove_owned_by s u = (s', out) /\
    forall i r, RuleStore.rules s' !! i = Some r <->
      RuleStore.rules s !! i = Some r /\ RuleStore.owner_user_id r <> u.
Proof.
  intros Hwf. destruct (RuleStore.owned_ids s u Hwf) as [Hnd Hin].
  pose proof (RuleStore.remove_steps s [] _ Hwf Hnd) as H. unfold RuleStore.remove_owned_by.
  destruct (foldl _ _ _) as [s' out]. destruct H as (_ & _ & _ & Hr);
    [intros i (r & Hr & _)%Hin; eauto|].
  exists s', out. split; [done|]. intros i r. rewrite Hr. case_decide as E.
  - apply Hin in E as (r' & ? & ?). naive_solver.
  - split; [|by intros []]. intros Hi. split; [done|]. intros Ho. apply E, Hin. eauto.
Qed.

Lemma parse_stored_same (raw u : list Z) : parse_stored_user_id raw = Ok u -> u = raw.
Proof.
  unfold parse_stored_user_id. destruct (is_reserved raw); [congruence|]. unfold user_id_from_str.
  destruct (as_bytes raw); [done|]. destruct (_ <? _)%nat; [done|]. destruct (_ =? _); [done|].
  destruct (negb _); [done|]. destruct (forallb _ _); congruence.
Qed.

(** ** Theorems *)

(** Revoking a grant leaves no rule without authority: the grant is gone,
    exactly those rules of its owner that the owner, as a plain user, could
    no longer push under the remaining grants are removed, in memory and from
    the persisted rules, the ids removed are reported, and the rules of
    everybody else stay. *)
Theorem revoke_cascade_sound (hash_token : list Z -> list Z) (identity : OperatorIdentity) (gid : Z)
  (a a' : App Tables) (removed : list Z) :
  RuleStore.wf (rules a) ->
  delete_grant hash_token identity (Some gid) a = Ok (removed, a') ->
  exists row g, grants (operator_store a) !! gid = Some row /\ decoded row = Some g /\
    grants (operator_store a') = delete gid (grants (operator_store a)) /\
    RuleStore.wf (rules a') /\
    (forall i r, RuleStore.rules (rules a') !! i = Some r <->
       RuleStore.rules (rules a) !! i = Some r /\
       (RuleStore.owner_user_id r <> user_id g \/
        enforce_push (mkIdentity (user_id g) Rbac.User) (push_of r)
          (grants_for (operator_store a') (user_id g)) = Ok tt)) /\
    (forall i, i ∈ removed <->
       is_Some (RuleStore.rules (rules a) !! i) /\ RuleStore.rules (rules a') !! i = None) /\
    (forall i, rule_store a' !! i = if decide (i ∈ removed) then None else rule_store a !! i).
Proof.
  intros Hwf. unfold delete_grant. destruct (require_role _ _); [|done].
  unfold revoke_grant. destruct (grants (operator_store a) !! gid) as [row|] eqn:Hrow; [|done].
  destruct (decoded row) as [g|] eqn:Hg; [|done].
  set (t := mkTables _ _ _).
  pose proof (@cascade_spec Tables (tables_auth hash_token) (user_id g) (with_store a t) Hwf) as HC.
  destruct (cascade _ _) as [a1 out]. intros [= -> ->].
  destruct HC as (H1 & H2 & H3 & H4 & H5). exists row, g. split; [done|]. split; [done|].
  rewrite H2. split; [done|]. split; [done|]. split; [exact H3|]. split; [exact H4|exact H5].
Qed.

(** Removing a user removes everything of that user and cannot empty the
    superadmins: the caller keeps their account, so an enabled superadmin
    remains, no credential, grant, rule or persisted rule of the removed user
    is left, and all other users and rules are untouched. *)
Theorem delete_user_complete (identity : OperatorIdentity) (raw : list Z) (caller : User)
  (a a' : App Tables) (summary : UserRemoveSummary) (removed : list Z) :
  RuleStore.wf (rules a) ->
  users (operator_store a) !! who identity = Some caller ->
  urole caller = Superadmin -> disabled caller = false ->
  delete_user identity raw a = Ok (summary, removed, a') ->
  let t := operator_store a' in
  users t = delete raw (users (operator_store a)) /\
  users t !! who identity = Some caller /\ (1 <= count_superadmins t)%nat /\
  (forall i c, credentials t !! i = Some c -> cuser c <> raw) /\
  (forall i g, grants t !! i = Some g -> gowner g <> raw) /\
  (forall i u, rule_store a' !! i = Some u -> u <> raw) /\
  (forall i r, RuleStore.rules (rules a') !! i = Some r <->
     RuleStore.rules (rules a) !! i = Some r /\ RuleStore.owner_user_id r <> raw).
Proof.
  intros Hwf Hc Hs Hd. unfold delete_user, delete_user_check.
  destruct (require_role _ _); [|done].
  destruct (parse_stored_user_id raw) as [target|] eqn:Ep; [|done].
  apply parse_stored_same in Ep as ->. case_bool_decide as Hself; [done|].
  intros H. assert (Hcom : delete_user_commit raw a = Ok (summary, removed, a')).
  { destruct (get_user _ _); [|done]. by destruct (_ && _). }
  revert Hcom. clear H. unfold delete_user_commit, remove_user. destruct (negb _); [done|].
  destruct (remove_owned_rules (rules a) raw Hwf) as (rs & out & -> & Hrs). intros [= <- <- <-]. simpl.
  assert (Hk : delete raw (users (operator_store a)) !! who identity = Some caller)
    by (by rewrite lookup_delete_ne).
  split; [done|]. split; [done|]. split.
  { apply count_superadmins_pos. exists (who identity), caller. done. }
  split; [|split; [|split]]; [intros i x [_ ?]%map_lookup_filter_Some; done..|done].
Qed.

(** ** Lemmas: authentication *)

Definition matches (needle : list Z) (c : Credential) : Prop := chash c = needle /\ cactive c = true.

Lemma scan_test (needle : list Z) (c : Credential) :
  (length (chash c) =? length needle)%nat && Fingerprint.ct_eq (chash c) needle && cactive c = true <->
  matches needle c.
Proof.
  unfold matches. rewrite !andb_true_iff, Fingerprint.ct_eq_spec, Nat.eqb_eq. naive_solver.
Qed.

(** The scan keeps what it had unless a row matches, and answers with a
    matching row otherwise. *)
Lemma scan_spec (needle : list Z) (rows : list (Z * Credential)) (m : option (Z * list Z)) :
  (scan needle rows m = m /\ forall kv, kv ∈ rows -> ~ matches needle kv.2) \/
  exists i c, (i, c) ∈ rows /\ matches needle c /\ scan needle rows m = Some (i, cuser c).
Proof.
  revert m. induction rows as [|[i c] rows IH]; intros m; cbn [scan].
  { left. split; [done|]. by intros ? ?%elem_of_nil. }
  destruct (_ && _ && _) eqn:E.
  - apply scan_test in E. right. destruct (IH (Some (i, cuser c))) as [[-> _]|(j & d & ? & ? & ?)].
    + exists i, c. split; [constructor|done].
    + exists j, d. split; [by constructor|done].
  - assert (~ matches needle c) by (rewrite <- scan_test; congruence).
    destruct (IH m) as [[-> Hn]|(j & d & ? & ? & ?)].
    + left. split; [done|]. intros kv [->|?]%elem_of_cons; [done|by apply Hn].
    + right. exists j, d. split; [by constructor|done].
Qed.

(** The [UNIQUE] constraint on the hash column. *)
Definition unique_hashes (t : Tables) : Prop :=
  forall i j c d, credentials t !! i = Some c -> credentials t !! j = Some d ->
    chash c = chash d -> i = j.

Lemma scan_unique (t : Tables) (needle : list Z) (i : Z) (c : Credential) :
  unique_hashes t -> credentials t !! i = Some c -> matches needle c ->
  scan needle (map_to_list (credentials t)) None = Some (i, cuser c).
Proof.
  intros Hu Hc Hm. destruct (scan_spec needle (map_to_list (credentials t)) None)
    as [[_ Hn]|(j & d & Hj%elem_of_map_to_list & Hd & ->)].
  - exfalso. apply (Hn (i, c)); [by apply elem_of_map_to_list|done].
  - destruct Hm, Hd. assert (i = j) as <- by (eapply Hu; [done|done|congruence]). congruence.
Qed.

(** Authentication is exact: a token is accepted, with the identity of a
    user, exactly when it has 1 to 256 bytes and an active credential of that
    user, who exists and is not disabled, stores its hash; nothing but the
    credential's last-use time changes. *)
Theorem verify_exact (hash_token : list Z -> list Z) (t : Tables) (token : list Z) (now : Z)
  (identity : OperatorIdentity) :
  unique_hashes t ->
  ((verify hash_token t token now).1 = Ok identity <->
   (1 <= str_len token <= 256)%nat /\
   exists i c u, credentials t !! i = Some c /\
     matches (Fingerprint.hex (hash_token token)) c /\
     users t !! cuser c = Some u /\ disabled u = false /\
     identity = mkIdentity (uid u) (urole u)) /\
  users (verify hash_token t token now).2 = users t /\
  grants (verify hash_token t token now).2 = grants t.
Proof.
  intros Hu. split; [|apply verify_grants]. unfold verify.
  destruct (str_len token =? 0)%nat eqn:E0; simpl.
  { apply Nat.eqb_eq in E0. split; [done|lia]. }
  destruct (256 <? str_len token)%nat eqn:E1; simpl.
  { apply Nat.ltb_lt in E1. split; [done|lia]. }
  apply Nat.eqb_neq in E0. apply Nat.ltb_ge in E1.
  set (needle := Fingerprint.hex (hash_token token)). split.
  - destruct (scan_spec needle (map_to_list (credentials t)) None)
      as [[-> _]|(i & c & Hi%elem_of_map_to_list & Hm & ->)]; [done|].
    destruct (users t !! cuser c) as [u|] eqn:Hc; [|done].
    destruct (disabled u) eqn:Hd; [done|]. intros [= <-]. split; [lia|]. exists i, c, u. done.
  - intros (_ & i & c & u & Hi & Hm & Hc & Hd & ->).
    rewrite (scan_unique t needle i c Hu Hi Hm), Hc, Hd. done.
Qed.

(** A server with two superadmins and a user [bob], who has two grants and a
    rule under each of them. *)
Definition root_id : OperatorIdentity := mkIdentity (lit "root") Superadmin.
Definition ann_id : OperatorIdentity := mkIdentity (lit "ann") Superadmin.

Definition ex_users : gmap (list Z) User :=
  {[ lit "root" := mkUser (lit "root") [] Superadmin 0 false;
     lit "ann" := mkUser (lit "ann") [] Superadmin 0 false;
     lit "bob" := mkUser (lit "bob") [] Rbac.User 0 false ]}.

Definition ex_rule (owner : list Z) (port : Z) : RuleStore.Op :=
  RuleStore.OpPush 1 (lit "edge") (PortRange.PortRange.single port) (lit "h") (PortRange.PortRange.single 80)
    RuleStore.Tcp None u32_max owner [] None None None 100.

Definition ex_rules (owner : list Z) : RuleStore.Store :=
  foldl RuleStore.exec RuleStore.empty_store [ex_rule owner 1500; ex_rule owner 2500].

Definition ex_grant (i : Z) (owner : list Z) (lo hi : Z) : Grant :=
  mkGrant i owner (Named (lit "edge")) lo hi TCP None i.

Definition ex_app (owner : list Z) (rows : gmap Z GrantRow) : App Tables :=
  mkApp (mkTables ex_users {[ 7 := mkCredential (lit "bob") (Fingerprint.hex [1]) true None ]} rows)
    (ex_rules owner) {[ 0 := owner; 1 := owner ]}.

Definition bob_app : App Tables :=
  ex_app (lit "bob")
    {[ 1 := mkRow (lit "bob") (Some (ex_grant 1 (lit "bob") 1000 1999));
       2 := mkRow (lit "bob") (Some (ex_grant 2 (lit "bob") 2000 2999)) ]}.

Lemma ex_rules_wf (owner : list Z) : RuleStore.wf (ex_rules owner).
Proof. apply RuleStore.run_wf; [apply RuleStore.wf_empty|simpl; lia|vm_compute; discriminate]. Qed.

Lemma revoke_cascade_sound_witness :
  exists a', delete_grant (fun b => b) root_id (Some 1) bob_app = Ok ([0], a') /\
    RuleStore.wf (rules a') /\ rule_store a' !! 0 = None /\ rule_store a' !! 1 = Some (lit "bob").
Proof.
  destruct (delete_grant (fun b => b) root_id (Some 1) bob_app) as [[removed a']|] eqn:E;
    [|vm_compute in E; discriminate].
  destruct (revoke_cascade_sound (fun b => b) root_id 1 bob_app a' removed (ex_rules_wf _) E)
    as (row & g & _ & _ & _ & H1 & _ & _ & H2).
  assert (Hr : removed = [0]) by (vm_compute in E; injection E as <- _; reflexivity).
  subst removed. exists a'. split; [reflexivity|]. split; [exact H1|].
  rewrite !H2. split; [reflexivity|reflexivity].
Defined.

Lemma delete_user_complete_witness :
  exists summary removed a', delete_user root_id (lit "bob") bob_app = Ok (summary, removed, a') /\
    length removed = 2%nat /\ (1 <= count_superadmins (operator_store a'))%nat.
Proof.
  destruct (delete_user root_id (lit "bob") bob_app) as [[[summary removed] a']|] eqn:E;
    [|vm_compute in E; discriminate].
  exists summary, removed, a'. split; [reflexivity|]. split.
  - vm_compute in E. injection E as _ <- _. reflexivity.
  - destruct (delete_user_complete root_id (lit "bob") (mkUser (lit "root") [] Superadmin 0 false)
                bob_app a' summary removed (ex_rules_wf _)) as (_ & _ & H & _);
      [reflexivity|reflexivity|reflexivity|exact E|exact H].
Defined.

Lemma verify_exact_witness :
  unique_hashes (operator_store bob_app) /\
  ((verify (fun _ => [1]) (operator_store bob_app) (lit "tok") 5).1 =
     Ok (mkIdentity (lit "bob") Rbac.User) <->
   (1 <= str_len (lit "tok") <= 256)%nat /\
   exists i c u, credentials (operator_store bob_app) !! i = Some c /\
     matches (Fingerprint.hex [1]) c /\ users (operator_store bob_app) !! cuser c = Some u /\
     disabled u = false /\ mkIdentity (lit "bob") Rbac.User = mkIdentity (uid u) (urole u)).
Proof.
  assert (Hu : unique_hashes (operator_store bob_app)).
  { intros i j c d Hi Hj _. simpl in Hi, Hj.
    apply lookup_singleton_Some in Hi as [<- _]. apply lookup_singleton_Some in Hj as [<- _].
    reflexivity. }
  split; [exact Hu|].
  apply (verify_exact (fun _ => [1]) (operator_store bob_app) (lit "tok") 5
           (mkIdentity (lit "bob") Rbac.User) Hu).
Defined.

(** ** What goes wrong *)

Lemma enforce_push_none (u : list Z) (push : PushRequest) :
  enforce_push (mkIdentity u Rbac.User) push [] = Err ClientNotGranted.
Proof. reflexivity. Qed.

Lemma undecodable_empty (t : Tables) (u : list Z) (j : Z) (row : GrantRow) :
  grants t !! j = Some row -> gowner row = u -> decoded row = None -> grants_for t u = [].
Proof.
  intros Hj Ho Hn. unfold grants_for.
  assert (Hin : row ∈ rows_of t u) by (apply elem_of_rows_of; eauto).
  enough (decode_rows (rows_of t u) = None) as -> by done.
  induction (rows_of t u) as [|r rows IH]; [by apply elem_of_nil in Hin|]. cbn.
  apply elem_of_cons in Hin as [<-|Hin]; [by rewrite Hn|]. rewrite (IH Hin). by destruct (decoded r).
Qed.

Lemma revoke_without_grants (hash_token : list Z -> list Z) (identity : OperatorIdentity) (gid : Z)
  (a a' : App Tables) (removed : list Z) (row : GrantRow) (g : Grant) :
  RuleStore.wf (rules a) ->
  grants (operator_store a) !! gid = Some row -> decoded row = Some g ->
  delete_grant hash_token identity (Some gid) a = Ok (removed, a') ->
  grants_for (mkTables (users (operator_store a)) (credentials (operator_store a))
                (delete gid (grants (operator_store a)))) (user_id g) = [] ->
  forall i r, RuleStore.rules (rules a') !! i = Some r -> RuleStore.owner_user_id r <> user_id g.
Proof.
  intros Hwf Hrow Hg. unfold delete_grant. destruct (require_role _ _); [|done].
  unfold revoke_grant. rewrite Hrow, Hg. set (t := mkTables _ _ _).
  pose proof (@cascade_spec Tables (tables_auth hash_token) (user_id g) (with_store a t) Hwf) as HC.
  destruct (cascade _ _) as [a1 out]. intros [= -> ->] Hnone i r Hr.
  destruct HC as (_ & _ & H3 & _). apply H3 in Hr as [_ [?|Hp]]; [done|].
  cbn [st_grants_for tables_auth with_store operator_store] in Hp. rewrite Hnone in Hp. done.
Qed.

(** One grant row that does not decode loses all grants of its owner: a
    revocation of any other grant of that user then removes every rule the
    user has, whatever the remaining grants allow. *)
Theorem undecodable_grant_wipes_rules (hash_token : list Z -> list Z) (identity : OperatorIdentity)
  (gid j : Z) (a a' : App Tables) (removed : list Z) (row bad : GrantRow) (g : Grant) :
  RuleStore.wf (rules a) ->
  grants (operator_store a) !! gid = Some row -> decoded row = Some g ->
  grants (operator_store a) !! j = Some bad -> j <> gid ->
  gowner bad = user_id g -> decoded bad = None ->
  delete_grant hash_token identity (Some gid) a = Ok (removed, a') ->
  forall i r, RuleStore.rules (rules a') !! i = Some r -> RuleStore.owner_user_id r <> user_id g.
Proof.
  intros Hwf Hrow Hg Hbad Hne Ho Hd Hdel.
  apply (revoke_without_grants hash_token identity gid a a' removed row g Hwf Hrow Hg Hdel).
  eapply (undecodable_empty _ _ j bad); [|done|done]. simpl. by rewrite lookup_delete_ne.
Qed.

Definition corrupt_app : App Tables :=
  ex_app (lit "bob")
    {[ 1 := mkRow (lit "bob") (Some (ex_grant 1 (lit "bob") 1000 1999)); 2 := mkRow (lit "bob") None ]}.

Lemma undecodable_grant_wipes_rules_witness :
  exists removed a', delete_grant (fun b => b) root_id (Some 1) corrupt_app = Ok (removed, a') /\
    forall i r, RuleStore.rules (rules a') !! i = Some r -> RuleStore.owner_user_id r <> lit "bob".
Proof.
  destruct (delete_grant (fun b => b) root_id (Some 1) corrupt_app) as [[removed a']|] eqn:E;
    [|vm_compute in E; discriminate].
  exists removed, a'. split; [reflexivity|].
  apply (undecodable_grant_wipes_rules (fun b => b) root_id 1 2 corrupt_app a' removed
           (mkRow (lit "bob") (Some (ex_grant 1 (lit "bob") 1000 1999))) (mkRow (lit "bob") None)
           (ex_grant 1 (lit "bob") 1000 1999));
    [exact (ex_rules_wf _)|reflexivity|reflexivity|reflexivity|discriminate|reflexivity|reflexivity
    |exact E].
Defined.

(** Revoking the only grant of a superadmin removes all rules of that
    superadmin, although every one of them may be pushed by its owner without
    any grant. *)
Theorem revoke_strips_superadmin (hash_token : list Z -> list Z) (identity : OperatorIdentity)
  (gid : Z) (a a' : App Tables) (removed : list Z) (row : GrantRow) (g : Grant) (u : User) :
  RuleStore.wf (rules a) ->
  grants (operator_store a) = {[ gid := row ]} -> decoded row = Some g ->
  users (operator_store a) !! user_id g = Some u -> urole u = Superadmin ->
  delete_grant hash_token identity (Some gid) a = Ok (removed, a') ->
  (forall i r, RuleStore.rules (rules a') !! i = Some r -> RuleStore.owner_user_id r <> user_id g) /\
  (forall r gs, enforce_push (mkIdentity (user_id g) (urole u)) (push_of r) gs = Ok tt).
Proof.
  intros Hwf Hgr Hg Hu Hs Hdel. split; [|intros r gs; by rewrite Hs].
  apply (revoke_without_grants hash_token identity gid a a' removed row g Hwf); [|done|done|].
  - rewrite Hgr. apply lookup_singleton_eq.
  - rewrite Hgr, delete_singleton_eq. done.
Qed.

Lemma revoke_strips_superadmin_witness :
  exists removed a',
    delete_grant (fun b => b) root_id (Some 1)
      (ex_app (lit "ann") {[ 1 := mkRow (lit "ann") (Some (ex_grant 1 (lit "ann") 1000 1999)) ]}) =
      Ok (removed, a') /\
    forall i r, RuleStore.rules (rules a') !! i = Some r -> RuleStore.owner_user_id r <> lit "ann".
Proof.
  set (a := ex_app _ _).
  destruct (delete_grant (fun b => b) root_id (Some 1) a) as [[removed a']|] eqn:E;
    [|vm_compute in E; discriminate].
  exists removed, a'. split; [reflexivity|].
  apply (revoke_strips_superadmin (fun b => b) root_id 1 a a' removed
           (mkRow (lit "ann") (Some (ex_grant 1 (lit "ann") 1000 1999)))
           (ex_grant 1 (lit "ann") 1000 1999) (mkUser (lit "ann") [] Superadmin 0 false));
    [exact (ex_rules_wf _)|reflexivity|reflexivity|reflexivity|reflexivity|exact E].
Defined.

(** The protection of the last superadmin is checked before, not in, the
    transaction that removes a user: two superadmins who remove each other at
    the same time both pass the check, and the server is left with none. *)
Theorem last_superadmin_race :
  exists (a a1 a2 : App Tables) (x y : OperatorIdentity) s1 s2 r1 r2,
    who x <> who y /\ (1 < count_superadmins (operator_store a))%nat /\
    delete_user_check x (who y) a = Ok (who y) /\ delete_user_check y (who x) a = Ok (who x) /\
    delete_user_commit (who y) a = Ok (s1, r1, a1) /\
    delete_user_commit (who x) a1 = Ok (s2, r2, a2) /\
    count_superadmins (operator_store a2) = O.
Proof.
  pose (a := bob_app).
  destruct (delete_user_commit (who ann_id) a) as [[[s1 r1] a1]|] eqn:E1; [|vm_compute in E1; discriminate].
  destruct (delete_user_commit (who root_id) a1) as [[[s2 r2] a2]|] eqn:E2.
  - exists a, a1, a2, root_id, ann_id, s1, s2, r1, r2.
    split; [discriminate|]. split; [vm_compute; lia|]. split; [reflexivity|]. split; [reflexivity|].
    split; [exact E1|]. split; [exact E2|].
    vm_compute in E1. injection E1 as _ _ <-. vm_compute in E2. injection E2 as _ _ <-. reflexivity.
  - vm_compute in E1. injection E1 as _ _ <-. vm_compute in E2. discriminate.
Qed.

End Identity.
