(* ===== verification/WebAuth.v ===== *)
(** * Password login, its throttle and web sessions

    [operator/throttle.rs], [operator/sessions.rs], the session, password and
    login-attempt statements of [store/operator_store.rs] and the login,
    logout and password handlers of [operator/web_auth.rs].

    Instants are nanoseconds.  Password hashing (argon2), the token hash
    (blake3) and the generated session secret are parameters. *)

From S2P Require Import Prelude Text RuleStore Rbac Fingerprint Identity.
Import Rbac.Rbac.
Import Identity.Identity.

Open Scope Z_scope.

Module WebAuth.

(** ** The throttle *)

Definition SECOND : Z := 1000000000.
Definition LOCK_AFTER_FAILURES : Z := 5.
Definition FAILURE_WINDOW : Z := 15 * 60 * SECOND.
Definition LOCKOUT_SECONDS : Z := 60.
Definition MAX_LOCKOUT_SECONDS : Z := 15 * 60.
Definition UNKNOWN_AUTH_SUBJECT : list Z := lit "_unknown".

Inductive AuthThrottleAction : Type := Login | Onboarding | PasswordReset.

#[export] Instance AuthThrottleAction_eq_dec : EqDecision AuthThrottleAction.
Proof. solve_decision. Defined.

(** [as_db_str]. *)
Definition as_db_str (a : AuthThrottleAction) : list Z :=
  lit match a with
      | Login => "login" | Onboarding => "onboarding" | PasswordReset => "password_reset"
      end.

Record ThrottleDecision : Type := mkDecision {
  failures : Z;
  first_failed_at : option Z;
  last_failed_at : option Z;
  locked_until : option Z;
}.

Definition default_decision : ThrottleDecision := mkDecision 0 None None None.

Definition lockout (failures : Z) : Z :=
  let shift := Z.min (failures - LOCK_AFTER_FAILURES) 10 in
  Z.min (clamp_i64 (LOCKOUT_SECONDS * Z.shiftl 1 shift)) MAX_LOCKOUT_SECONDS.

Definition lockout_expired (s : ThrottleDecision) (now : Z) : bool :=
  match locked_until s with Some l => l <=? now | None => false end.

Definition window_expired (s : ThrottleDecision) (now : Z) : bool :=
  match last_failed_at s with Some l => l + FAILURE_WINDOW <=? now | None => false end.

Definition record_failure (s : ThrottleDecision) (now : Z) : ThrottleDecision :=
  let s := if lockout_expired s now || window_expired s now then default_decision else s in
  let f := sat_add_u32 (failures s) 1 in
  let first := match first_failed_at s with Some t => Some t | None => Some now end in
  if f <? LOCK_AFTER_FAILURES then mkDecision f first (Some now) None
  else mkDecision f first (Some now) (Some (now + lockout f * SECOND)).

Definition is_locked (s : ThrottleDecision) (now : Z) : bool :=
  match locked_until s with Some l => now <? l | None => false end.

Definition effective_at (s : ThrottleDecision) (now : Z) : ThrottleDecision :=
  if is_locked s now then s
  else mkDecision (failures s) (first_failed_at s) (last_failed_at s) None.

(** ** The tables *)

Record WebSession : Type := mkSession {
  suser : list Z;
  screated : Z;
  slast_seen : Z;
  sabsolute : Z;
  srevoked : option Z;
  sremote : option (list Z);
  sagent : option (list Z);
}.

Record PasswordState : Type := mkPassword { phash : list Z; pchange_required : bool }.

(** [attempts] is keyed by subject, remote address and action; [passwords]
    holds the two password columns of a user whose hash is set. *)
Record Db : Type := mkDb {
  accounts : gmap (list Z) User;
  passwords : gmap (list Z) PasswordState;
  sessions : gmap (list Z) WebSession;
  attempts : gmap (list Z * list Z * list Z) ThrottleDecision;
}.

Definition with_sessions (d : Db) (m : gmap (list Z) WebSession) : Db :=
  mkDb (accounts d) (passwords d) m (attempts d).

Definition with_attempts (d : Db) (m : gmap (list Z * list Z * list Z) ThrottleDecision) : Db :=
  mkDb (accounts d) (passwords d) (sessions d) m.

Definition has_user (d : Db) (u : list Z) : bool := bool_decide (is_Some (accounts d !! u)).

(** ** Login attempts *)

Definition login_attempt_state (d : Db) (subject remote : list Z) (a : AuthThrottleAction) (now : Z)
  : ThrottleDecision :=
  effective_at (default default_decision (attempts d !! (subject, remote, as_db_str a))) now.

Definition record_login_attempt_failure (d : Db) (subject remote : list Z) (a : AuthThrottleAction)
  (now : Z) : Db :=
  let s := default default_decision (attempts d !! (subject, remote, as_db_str a)) in
  with_attempts d (<[(subject, remote, as_db_str a) := record_failure s now]> (attempts d)).

Definition clear_login_attempts (d : Db) (subject remote : list Z) (a : AuthThrottleAction) : Db :=
  with_attempts d (delete (subject, remote, as_db_str a) (attempts d)).

(** ** Sessions *)

Definition IDLE_TIMEOUT : Z := 8 * 3600 * SECOND.
Definition ABSOLUTE_TIMEOUT : Z := 7 * 24 * 3600 * SECOND.

Definition session_is_expired (last_seen absolute now : Z) : bool :=
  (absolute <? now) || (last_seen + IDLE_TIMEOUT <? now).

Definition create_web_session (d : Db) (h u : list Z) (created absolute : Z)
  (remote agent : option (list Z)) : Result Db IdentityStoreError :=
  if negb (has_user d u) then Err (NoUser u)
  else if bool_decide (is_Some (sessions d !! h)) then Err WriteFailed
  else Ok (with_sessions d
             (<[h := mkSession u created created absolute None remote agent]> (sessions d))).

Definition seen (now : Z) (s : WebSession) : WebSession :=
  mkSession (suser s) (screated s) now (sabsolute s) (srevoked s) (sremote s) (sagent s).

Definition verify_web_session (d : Db) (h : list Z) (now : Z) : option WebSession * Db :=
  match sessions d !! h with
  | None => (None, d)
  | Some s =>
    if bool_decide (is_Some (srevoked s)) || session_is_expired (slast_seen s) (sabsolute s) now
    then (None, d)
    else (Some (seen now s), with_sessions d (<[h := seen now s]> (sessions d)))
  end.

(** [SET revoked_at = COALESCE(revoked_at, now)]. *)
Definition revoke (now : Z) (s : WebSession) : WebSession :=
  mkSession (suser s) (screated s) (slast_seen s) (sabsolute s)
    (match srevoked s with Some t => Some t | None => Some now end) (sremote s) (sagent s).

Definition revoke_web_session (d : Db) (h : list Z) (now : Z) : Db :=
  with_sessions d (alter (revoke now) h (sessions d)).

Definition revoke_of (u : list Z) (now : Z) (s : WebSession) : WebSession :=
  if bool_decide (suser s = u) then revoke now s else s.

Definition revoke_web_sessions_for_user (d : Db) (u : list Z) (now : Z) : Result Db IdentityStoreError :=
  if negb (has_user d u) then Err (NoUser u)
  else Ok (with_sessions d (revoke_of u now <$> sessions d)).

(** The rows the [DELETE] of a prune keeps. *)
Definition pruned (now : Z) (s : WebSession) : bool :=
  bool_decide (is_Some (srevoked s)) || (sabsolute s <? now) || (slast_seen s <? now - IDLE_TIMEOUT).

Definition prune_expired_web_sessions (d : Db) (now : Z) : Db :=
  with_sessions d (filter (fun kv => pruned now kv.2 = false) (sessions d)).

(** ** Passwords *)

Definition password_state (d : Db) (u : list Z) : Result (option PasswordState) IdentityStoreError :=
  if negb (has_user d u) then Err (NoUser u) else Ok (passwords d !! u).

Definition set_password (d : Db) (u h : list Z) (change_required : bool) : Db :=
  mkDb (accounts d) (<[u := mkPassword h change_required]> (passwords d)) (sessions d) (attempts d).

Definition set_password_hash (d : Db) (u h : list Z) (change_required : bool)
  : Result Db IdentityStoreError :=
  if negb (has_user d u) then Err (NoUser u) else Ok (set_password d u h change_required).

(** The sessions the reset revokes are those not revoked yet. *)
Definition reset_password_state (d : Db) (u h : list Z) (change_required revoke_sessions : bool)
  (now : Z) : Result (nat * Db) IdentityStoreError :=
  if negb (has_user d u) then Err (NoUser u)
  else
    let d := set_password d u h change_required in
    if revoke_sessions then
      Ok (length (filter (fun kv => suser kv.2 = u /\ srevoked kv.2 = None) (map_to_list (sessions d))),
          with_sessions d (revoke_of u now <$> sessions d))
    else Ok (0%nat, d).

(** ** Handlers *)

Inductive LoginError : Type :=
| RateLimited | InvalidLogin | Internal | PasswordMismatch | BadPassword
| RoleDenied | NoSuchUser | BadUserId.

Section Handlers.
Variable verify_password : list Z -> list Z -> bool.        (* argon2: password, hash *)
Variable hash_password : list Z -> option (list Z).         (* refuses unsuitable passwords *)
Variable hash_token : list Z -> list Z.                     (* blake3 *)

Definition hash_session_secret (secret : list Z) : list Z := Fingerprint.hex (hash_token secret).

Definition login_throttle_subject (user : list Z) : list Z :=
  match user_id_from_str user with Ok u => u | Err _ => UNKNOWN_AUTH_SUBJECT end.

Definition reject_if_throttled (d : Db) (subject remote : list Z) (a : AuthThrottleAction) (now : Z)
  : bool := is_locked (login_attempt_state d subject remote a now) now.

(** [authenticate_login]; [secret] is the generated session secret. *)
Definition authenticate_login (d : Db) (user password : list Z) (now : Z) (remote : list Z)
  (agent : option (list Z)) (secret : list Z) : Result (bool * Db) LoginError :=
  match parse_stored_user_id user with
  | Err _ => Err InvalidLogin
  | Ok u =>
    match accounts d !! u with
    | None => Err InvalidLogin
    | Some acct =>
      if disabled acct then Err InvalidLogin
      else
        match password_state d u with
        | Err _ | Ok None => Err InvalidLogin
        | Ok (Some p) =>
          if negb (verify_password password (phash p)) then Err InvalidLogin
          else
            match create_web_session d (hash_session_secret secret) u now (now + ABSOLUTE_TIMEOUT)
                    (Some remote) agent with
            | Err _ => Err Internal
            | Ok d => Ok (pchange_required p, d)
            end
        end
    end
  end.

Definition post_auth_login (d : Db) (user password : list Z) (now : Z) (remote : list Z)
  (agent : option (list Z)) (secret : list Z) : Result bool LoginError * Db :=
  let subject := login_throttle_subject user in
  if reject_if_throttled d subject remote Login now then (Err RateLimited, d)
  else
    match authenticate_login d user password now remote agent secret with
    | Ok (change, d') => (Ok change, clear_login_attempts d' subject remote Login)
    | Err e => (Err e, record_login_attempt_failure d subject remote Login now)
    end.

Definition post_self_password (d : Db) (identity : OperatorIdentity) (current new confirm : list Z)
  (now : Z) : Result unit LoginError * Db :=
  if negb (bool_decide (new = confirm)) then (Err PasswordMismatch, d)
  else
    match password_state d (who identity) with
    | Err _ | Ok None => (Err InvalidLogin, d)
    | Ok (Some p) =>
      if negb (verify_password current (phash p)) then (Err InvalidLogin, d)
      else
        match hash_password new with
        | None => (Err BadPassword, d)
        | Some h =>
          match reset_password_state d (who identity) h false false now with
          | Err _ => (Err NoSuchUser, d)
          | Ok (_, d) => (Ok tt, d)
          end
        end
    end.

(** [reset_user_password]: a password that is not given is generated
    ([fresh]) and must be changed at the next login. *)
Definition reset_user_password (d : Db) (target : list Z) (given : option (list Z))
  (temporary : option bool) (fresh : list Z) (now : Z) : Result (nat * option (list Z) * Db) LoginError :=
  let new := default fresh given in
  let change := bool_decide (given = None) || default false temporary in
  match hash_password new with
  | None => Err BadPassword
  | Some h =>
    match reset_password_state d target h change true now with
    | Err _ => Err NoSuchUser
    | Ok (n, d) => Ok (n, (if bool_decide (given = None) then Some new else None), d)
    end
  end.

Definition post_user_password (d : Db) (identity : OperatorIdentity) (raw remote : list Z)
  (given : option (list Z)) (temporary : option bool) (fresh : list Z) (now : Z)
  : Result (nat * option (list Z)) LoginError * Db :=
  if negb (bool_decide (role identity = Superadmin)) then (Err RoleDenied, d)
  else
    match parse_stored_user_id raw with
    | Err _ => (Err BadUserId, d)
    | Ok target =>
      if reject_if_throttled d target remote PasswordReset now then (Err RateLimited, d)
      else
        match reset_user_password d target given temporary fresh now with
        | Ok (n, shown, d) => (Ok (n, shown), clear_login_attempts d target remote PasswordReset)
        | Err e => (Err e, record_login_attempt_failure d target remote PasswordReset now)
        end
    end.

(** [verify_session_secret] of the auth layer. *)
Definition verify_session_secret (d : Db) (secret : list Z) (now : Z)
  : Result OperatorIdentity RbacError * Db :=
  match verify_web_session d (hash_session_secret secret) now with
  | (None, d) => (Err CredentialInvalid, d)
  | (Some s, d) =>
    match accounts d !! suser s with
    | None => (Err CredentialInvalid, d)
    | Some u => if disabled u then (Err UserDisabled, d) else (Ok (mkIdentity (uid u) (urole u)), d)
    end
  end.

(** [post_auth_logout] once the cookie is read and the CSRF check passed. *)
Definition post_auth_logout (d : Db) (secret : list Z) (now : Z) : Result unit RbacError * Db :=
  match verify_session_secret d secret now with
  | (Err _, d) => (Err CredentialInvalid, d)
  | (Ok _, d) => (Ok tt, revoke_web_session d (hash_session_secret secret) now)
  end.

End Handlers.

(** ** Runs of attempts and of session operations *)

(** A guess against one throttle key: refused while locked, recorded as a
    failure otherwise. *)
Definition guess (s : ThrottleDecision) (now : Z) : option ThrottleDecision :=
  if is_locked (effective_at s now) now then None else Some (record_failure s now).

(** The times at which wrong guesses got through. *)
Fixpoint admitted (s : ThrottleDecision) (ts : list Z) : list Z :=
  match ts with
  | [] => []
  | t :: ts => match guess s t with
               | None => admitted s ts
               | Some s' => t :: admitted s' ts
               end
  end.

Inductive SessionOp : Type :=
| SCreate (h u : list Z) (created absolute : Z) (remote agent : option (list Z))
| SVerify (h : list Z) (now : Z)
| SRevoke (h : list Z) (now : Z)
| SRevokeUser (u : list Z) (now : Z)
| SPrune (now : Z)
| SReset (u h : list Z) (change rev : bool) (now : Z).

Definition session_exec (d : Db) (op : SessionOp) : Db :=
  match op with
  | SCreate h u created absolute remote agent =>
    match create_web_session d h u created absolute remote agent with Ok d => d | Err _ => d end
  | SVerify h now => (verify_web_session d h now).2
  | SRevoke h now => revoke_web_session d h now
  | SRevokeUser u now => match revoke_web_sessions_for_user d u now with Ok d => d | Err _ => d end
  | SPrune now => prune_expired_web_sessions d now
  | SReset u h change rev now =>
    match reset_password_state d u h change rev now with Ok (_, d) => d | Err _ => d end
  end.

(** What the guarded handlers can do to a key: wrong guesses at times that do
    not go back, and the clearing after a success. *)
Inductive guessed : ThrottleDecision -> Prop :=
| guessed_init : guessed default_decision
| guessed_step s t s' :
    guessed s -> (forall l, last_failed_at s = Some l -> l <= t) -> guess s t = Some s' ->
    guessed s'.

(** ** Lemmas: the throttle *)

Definition calm (s : ThrottleDecision) : Prop :=
  s = default_decision \/
  exists l, 1 <= failures s <= LOCK_AFTER_FAILURES /\ last_failed_at s = Some l /\
    (failures s < LOCK_AFTER_FAILURES -> locked_until s = None) /\
    (failures s = LOCK_AFTER_FAILURES -> locked_until s = Some (l + LOCKOUT_SECONDS * SECOND)).

Lemma lockout_first : lockout LOCK_AFTER_FAILURES = LOCKOUT_SECONDS.
Proof. reflexivity. Qed.

Lemma is_locked_effective (s : ThrottleDecision) (now : Z) :
  is_locked (effective_at s now) now = is_locked s now.
Proof. unfold effective_at. by destruct (is_locked s now) eqn:E. Qed.

(** One more wrong guess that gets through: it either continues the count or
    comes at least a lockout after the last one and starts a new count. *)
Lemma guess_calm (s s' : ThrottleDecision) (t : Z) :
  calm s -> guess s t = Some s' ->
  calm s' /\ last_failed_at s' = Some t /\
  ((failures s' = 1 /\ forall l, last_failed_at s = Some l -> l + LOCKOUT_SECONDS * SECOND <= t) \/
   failures s' = failures s + 1).
Proof.
  unfold guess. rewrite is_locked_effective. intros Hc.
  destruct (is_locked s t) eqn:Hk; [done|]. intros [= <-]. unfold record_failure.
  destruct (lockout_expired s t || window_expired s t) eqn:He.
  - split; [right; exists t; cbn; unfold LOCK_AFTER_FAILURES; repeat split; try done; lia|].
    split; [done|]. left. split; [done|]. intros l Hl.
    destruct Hc as [->|(l' & Hf & Hl' & H1 & H2)]; [done|]. assert (l' = l) as -> by congruence.
    unfold lockout_expired, window_expired, LOCK_AFTER_FAILURES, LOCKOUT_SECONDS, FAILURE_WINDOW, SECOND in *.
    rewrite Hl in He. destruct (Z.eq_dec (failures s) 5) as [E|E].
    + rewrite (H2 E) in He. lia.
    + rewrite (H1 ltac:(lia)) in He. lia.
  - apply orb_false_iff in He as [He1 He2].
    assert (Hf : 0 <= failures s < LOCK_AFTER_FAILURES).
    { destruct Hc as [->|(l & Hf & Hl & H1 & H2)]; [done|]. unfold LOCK_AFTER_FAILURES in *.
      destruct (Z.eq_dec (failures s) 5) as [E|]; [|lia]. exfalso.
      unfold is_locked, lockout_expired in *. rewrite (H2 E) in *. lia. }
    unfold LOCK_AFTER_FAILURES in *.
    replace (sat_add_u32 (failures s) 1) with (failures s + 1)
      by (unfold sat_add_u32, u32_max; lia).
    destruct (Z.ltb_spec (failures s + 1) 5); cbn.
    + split; [right; exists t; cbn; unfold LOCK_AFTER_FAILURES; repeat split; try done; lia|].
      split; [done|by right].
    + assert (failures s = 4) as E by lia. rewrite E. cbn.
      split; [right; exists t; cbn; unfold LOCK_AFTER_FAILURES; repeat split; try done; lia|].
      split; [done|]. right. lia.
Qed.

Lemma admitted_ge (s : ThrottleDecision) (ts : list Z) (t y : Z) :
  StronglySorted Z.le (t :: ts) -> y ∈ admitted s ts -> t <= y.
Proof.
  intros Hs. apply StronglySorted_inv in Hs as [_ Hall]. revert s Hall.
  induction ts as [|u ts IH]; intros s Hall Hy; cbn in Hy; [by apply elem_of_nil in Hy|].
  rewrite Forall_cons in Hall. destruct Hall as [Hu Hall].
  destruct (guess s u); [apply elem_of_cons in Hy as [->|Hy]|]; [done|by eapply IH|by eapply IH].
Qed.

(** From a state with [f] failures, the guess that makes the sixth waits. *)
Lemma admitted_waits (ts : list Z) (s : ThrottleDecision) (l y : Z) (n : nat) :
  calm s -> last_failed_at s = Some l -> StronglySorted Z.le (l :: ts) ->
  admitted s ts !! n = Some y -> LOCK_AFTER_FAILURES - failures s <= Z.of_nat n ->
  l + LOCKOUT_SECONDS * SECOND <= y.
Proof.
  revert s l n. induction ts as [|t ts IH]; intros s l n Hc Hl Hs Hy Hn; [done|].
  pose proof Hs as Hs'. apply StronglySorted_inv in Hs' as [Ht Hall].
  rewrite Forall_cons in Hall. destruct Hall as [Hlt Hall].
  cbn in Hy. destruct (guess s t) as [s'|] eqn:Eg.
  - destruct (guess_calm s s' t Hc Eg) as (Hc' & Hl' & [[_ Hreset]|Hf]).
    + specialize (Hreset l Hl). destruct n as [|n]; cbn in Hy; [congruence|].
      apply list_elem_of_lookup_2 in Hy. apply (admitted_ge _ _ t) in Hy; [lia|done].
    + assert (1 <= failures s) by (destruct Hc as [->|(? & ? & _)]; [done|lia]).
      assert (failures s' <= LOCK_AFTER_FAILURES) by (destruct Hc' as [->|(? & ? & _)]; [done|lia]).
      destruct n as [|n]; cbn in Hy; [lia|].
      enough (t + LOCKOUT_SECONDS * SECOND <= y) by lia. apply (IH s' t n); [done..|lia].
  - eapply IH; [done|done| |done|done]. apply StronglySorted_inv in Ht as [Ht _].
    by constructor.
Qed.

(** ** Theorems *)



(** The lockout never grows: under the guard every lock lasts exactly sixty
    seconds, although the computation would double it with each further
    failure up to fifteen minutes. *)
Theorem lockout_never_escalates (s : ThrottleDecision) :
  (guessed s -> forall l, locked_until s = Some l ->
     exists t, last_failed_at s = Some t /\ l = t + LOCKOUT_SECONDS * SECOND) /\
  lockout 6 = 2 * LOCKOUT_SECONDS /\ lockout 9 = MAX_LOCKOUT_SECONDS.
Proof.
  split; [|done]. intros Hg l Hl. assert (Hc : calm s).
  { clear Hl. induction Hg as [|s t s' _ IH _ Eg]; [by left|]. by apply (guess_calm s s' t). }
  destruct Hc as [->|(t & Hf & Ht & H1 & H2)]; [done|]. exists t. split; [done|].
  unfold LOCK_AFTER_FAILURES in *. destruct (Z.eq_dec (failures s) 5) as [E|]; [specialize (H2 E); congruence|].
  rewrite H1 in Hl by lia. done.
Qed.

(** ** Lemmas: sessions *)

Definition dead (d : Db) (h : list Z) : Prop :=
  forall s, sessions d !! h = Some s -> srevoked s <> None.

Lemma dead_refused (d : Db) (h : list Z) (now : Z) : dead d h -> verify_web_session d h now = (None, d).
Proof.
  unfold dead, verify_web_session. intros Hd. destruct (sessions d !! h) as [s|]; [|done].
  specialize (Hd s eq_refl). rewrite bool_decide_true; [done|]. by destruct (srevoked s).
Qed.

Lemma revoke_revoked (now : Z) (s : WebSession) : srevoked (revoke now s) <> None.
Proof. unfold revoke. simpl. by destruct (srevoked s). Qed.

Lemma revoke_of_keeps (u : list Z) (now : Z) (s : WebSession) :
  srevoked s <> None -> srevoked (revoke_of u now s) <> None.
Proof. unfold revoke_of. case_bool_decide; [|done]. intros _. apply revoke_revoked. Qed.

Lemma dead_fmap (d : Db) (h : list Z) (f : WebSession -> WebSession) :
  (forall s, srevoked s <> None -> srevoked (f s) <> None) -> dead d h ->
  dead (with_sessions d (f <$> sessions d)) h.
Proof.
  intros Hf Hd s. simpl. rewrite lookup_fmap. intros (s0 & Hs & ->)%fmap_Some. by apply Hf, Hd.
Qed.

(** Only a new session under the same hash brings a dead one back. *)
Lemma session_exec_dead (d : Db) (h : list Z) (op : SessionOp) :
  (forall u c a r g, op <> SCreate h u c a r g) -> dead d h -> dead (session_exec d op) h.
Proof.
  intros Hop Hd. destruct op as [h' u c a r g|h' now|h' now|u now|now|u hp c rev now]; simpl.
  - unfold create_web_session. destruct (negb _); [done|]. case_bool_decide; [done|].
    intros s. simpl. rewrite lookup_insert_ne; [apply Hd|]. intros ->. by eapply Hop.
  - unfold verify_web_session. destruct (sessions d !! h') as [s'|] eqn:E; [|done].
    destruct (_ || _) eqn:Et; [done|]. intros s. simpl.
    rewrite lookup_insert_Some. intros [[<- <-]|[_ Hs]]; [by apply Hd in E|by apply Hd].
  - intros s. simpl. rewrite lookup_alter_Some. intros [(-> & s0 & Hs & ->)|[_ Hs]]; [|by apply Hd].
    apply revoke_revoked.
  - unfold revoke_web_sessions_for_user. destruct (negb _); [done|].
    apply dead_fmap; [apply revoke_of_keeps|done].
  - intros s. simpl. rewrite map_lookup_filter_Some. intros [Hs _]. by apply Hd.
  - unfold reset_password_state. destruct (negb _); [done|]. destruct rev; [|done].
    apply (dead_fmap (set_password d u hp c)); [apply revoke_of_keeps|done].
Qed.

Lemma session_run_dead (d : Db) (h : list Z) (ops : list SessionOp) :
  Forall (fun op => forall u c a r g, op <> SCreate h u c a r g) ops -> dead d h ->
  dead (foldl session_exec d ops) h.
Proof.
  intros Hops. revert d. induction Hops as [|op ops Hop _ IH]; intros d Hd; [done|].
  by apply IH, session_exec_dead.
Qed.

(** Logging out is final: after a successful logout the session secret is
    refused for ever, whatever verifications, revocations, prunings, password
    changes and other logins follow, unless the same secret is issued again. *)
Theorem logout_is_final (hash_token : list Z -> list Z) (d d' : Db) (secret : list Z) (t now : Z)
  (ops : list SessionOp) :
  post_auth_logout hash_token d secret t = (Ok tt, d') ->
  Forall (fun op => forall u c a r g, op <> SCreate (hash_session_secret hash_token secret) u c a r g) ops ->
  (verify_session_secret hash_token (foldl session_exec d' ops) secret now).1 = Err CredentialInvalid.
Proof.
  unfold post_auth_logout. destruct (verify_session_secret hash_token d secret t) as [[id|] d0]; [|done].
  intros [= <-] Hops. set (h := hash_session_secret hash_token secret) in *.
  assert (Hd : dead (revoke_web_session d0 h t) h).
  { intros s. simpl. rewrite lookup_alter_eq. intros (s0 & _ & ->)%fmap_Some. apply revoke_revoked. }
  unfold verify_session_secret. fold h.
  by rewrite (dead_refused _ h now (session_run_dead _ h ops Hops Hd)).
Qed.

(** A server with one operator, whose password hash is the password. *)
Definition ex_db : Db :=
  mkDb {[ lit "ann" := mkUser (lit "ann") [] Superadmin 0 false ]}
    {[ lit "ann" := mkPassword (lit "secret-password") false ]} ∅ ∅.

Definition ex_check (pw h : list Z) : bool := bool_decide (pw = h).

Definition ex_login (pw : list Z) (now : Z) : Result bool LoginError * Db :=
  post_auth_login ex_check (fun b => b) ex_db (lit "ann") pw now (lit "192.0.2.1") None [7; 7].

Lemma logout_is_final_witness :
  (ex_login (lit "secret-password") 0).1 = Ok false /\
  exists d', post_auth_logout (fun b => b) (ex_login (lit "secret-password") 0).2 [7; 7] 5 = (Ok tt, d') /\
    (verify_session_secret (fun b => b) (foldl session_exec d' [SPrune 6]) [7; 7] 9).1 =
      Err CredentialInvalid.
Proof.
  split; [vm_compute; reflexivity|].
  destruct (post_auth_logout (fun b => b) (ex_login (lit "secret-password") 0).2 [7; 7] 5) as [r d'] eqn:E.
  assert (Hr : r = Ok tt) by (vm_compute in E; injection E as <- _; reflexivity). subst r.
  exists d'. split; [reflexivity|].
  apply (logout_is_final (fun b => b) (ex_login (lit "secret-password") 0).2 d' [7; 7] 5 9 [SPrune 6] E).
  constructor; [intros; discriminate|constructor].
Defined.

(** Pruning is invisible: removing revoked and expired rows at some time
    changes the answer of no later verification. *)
Theorem prune_invisible (d : Db) (h : list Z) (t now : Z) :
  t <= now ->
  (verify_web_session (prune_expired_web_sessions d t) h now).1 = (verify_web_session d h now).1.
Proof.
  intros Ht. unfold verify_web_session. simpl.
  destruct (sessions d !! h) as [s|] eqn:E.
  - destruct (pruned t s) eqn:Ep.
    + rewrite (proj2 (map_lookup_filter_None _ _ _)) by (right; intros ? ?; naive_solver congruence).
      unfold pruned, session_is_expired in *. simpl.
      destruct (bool_decide (is_Some (srevoked s))); [done|]. simpl in *.
      by replace ((sabsolute s <? now) || (slast_seen s + IDLE_TIMEOUT <? now)) with true by lia.
    + rewrite (proj2 (map_lookup_filter_Some _ _ _ _)) by done. by destruct (_ || _).
  - by rewrite (proj2 (map_lookup_filter_None _ _ _)) by (by left).
Qed.

Lemma prune_invisible_witness :
  (verify_web_session (prune_expired_web_sessions (ex_login (lit "secret-password") 0).2 3)
     (Fingerprint.hex [7; 7]) 5).1 =
  (verify_web_session (ex_login (lit "secret-password") 0).2 (Fingerprint.hex [7; 7]) 5).1.
Proof.
  apply (prune_invisible (ex_login (lit "secret-password") 0).2 (Fingerprint.hex [7; 7]) 3 5). lia.
Defined.

(** A session is accepted only within its lifetime: it was not revoked, was
    used in the last eight hours and is not past its absolute end, which no
    verification moves; the user exists and is not disabled. *)
Theorem session_accept_iff (hash_token : list Z -> list Z) (d : Db) (secret : list Z) (now : Z)
  (identity : OperatorIdentity) :
  ((verify_session_secret hash_token d secret now).1 = Ok identity <->
   exists s u, sessions d !! hash_session_secret hash_token secret = Some s /\
     srevoked s = None /\ now <= sabsolute s /\ now <= slast_seen s + IDLE_TIMEOUT /\
     accounts d !! suser s = Some u /\ disabled u = false /\
     identity = mkIdentity (uid u) (urole u)) /\
  (forall h s', sessions (verify_session_secret hash_token d secret now).2 !! h = Some s' ->
     exists s, sessions d !! h = Some s /\ sabsolute s' = sabsolute s /\ srevoked s' = srevoked s).
Proof.
  unfold verify_session_secret, verify_web_session.
  set (h0 := hash_session_secret hash_token secret).
  destruct (sessions d !! h0) as [s|] eqn:E; [|split; [split; [done|by intros (? & ? & ? & _)]|simpl; eauto]].
  destruct (bool_decide (is_Some (srevoked s)) || session_is_expired (slast_seen s) (sabsolute s) now) eqn:Et.
  { split; [|simpl; eauto]. simpl. split; [done|].
    intros (s1 & u & [= <-] & Hr & Ha & Hl & _). rewrite Hr in Et. simpl in Et.
    unfold session_is_expired in Et. lia. }
  apply orb_false_iff in Et as [Hr%bool_decide_eq_false Hx]. rewrite <- eq_None_not_Some in Hr.
  unfold session_is_expired in Hx. split.
  - simpl. destruct (accounts d !! suser s) as [u|] eqn:Hu; simpl;
      [|split; [done|intros (s1 & u & [= <-] & _ & _ & _ & Hu1 & _); congruence]].
    destruct (disabled u) eqn:Hd; simpl.
    { split; [done|]. intros (s1 & u1 & [= <-] & _ & _ & _ & Hu1 & Hd1 & _). congruence. }
    split.
    + intros [= <-]. exists s, u. repeat split; try done; lia.
    + intros (s1 & u1 & [= <-] & _ & _ & _ & Hu1 & _ & ->). congruence.
  - intros h s'. simpl. destruct (accounts d !! suser s) as [u|]; [destruct (disabled u)|]; simpl;
      rewrite lookup_insert_Some; (intros [[<- <-]|[_ ?]]; [exists s|]; eauto).
Qed.

(** The refused branches of a login. *)
Ltac login_refused :=
  split; [split; [by intros [? ?]|intros (? & ? & u' & a' & p' & Hu' & Ha' & Hd' & Hp' & Hv'); congruence]
         |split; [done|intros e' _; split; [done|intros ?; rewrite ?lookup_insert_eq; done]]].

(** Login is exact: it succeeds exactly when the key is not locked, the
    account exists and is enabled, its stored hash verifies the password and
    the session hash is unused; then the session runs for seven days from now
    and the failures of the key are forgotten.  A refused attempt creates no
    session, and unless it was throttled it is counted. *)
Theorem login_exact (verify_password : list Z -> list Z -> bool) (hash_token : list Z -> list Z)
  (d : Db) (user password : list Z) (now : Z) (remote : list Z) (agent : option (list Z))
  (secret : list Z) :
  let res := post_auth_login verify_password hash_token d user password now remote agent secret in
  let h := hash_session_secret hash_token secret in
  let key := (login_throttle_subject user, remote, as_db_str Login) in
  let throttled := reject_if_throttled d (login_throttle_subject user) remote Login now in
  ((exists change, res.1 = Ok change) <->
   throttled = false /\ sessions d !! h = None /\
   exists u acct p, parse_stored_user_id user = Ok u /\ accounts d !! u = Some acct /\
     disabled acct = false /\ passwords d !! u = Some p /\ verify_password password (phash p) = true) /\
  (forall change, res.1 = Ok change ->
     attempts res.2 !! key = None /\
     exists u, parse_stored_user_id user = Ok u /\
       sessions res.2 = <[h := mkSession u now now (now + ABSOLUTE_TIMEOUT) None (Some remote) agent]> (sessions d)) /\
  (forall e, res.1 = Err e ->
     sessions res.2 = sessions d /\
     (throttled = false ->
      attempts res.2 !! key =
        Some (record_failure (default default_decision (attempts d !! key)) now))).
Proof.
  cbv zeta. unfold post_auth_login.
  destruct (reject_if_throttled _ _ _ _ _) eqn:Et; [by login_refused|].
  unfold authenticate_login, password_state, create_web_session, has_user.
  destruct (parse_stored_user_id user) as [u|e] eqn:Ep; simpl; [|by login_refused].
  destruct (accounts d !! u) as [acct|] eqn:Ea; simpl; [|by login_refused].
  destruct (disabled acct) eqn:Ed; simpl; [by login_refused|].
  destruct (passwords d !! u) as [p|] eqn:Epw; simpl; [|by login_refused].
  destruct (verify_password password (phash p)) eqn:Ev; simpl; [|by login_refused].
  case_bool_decide as Hs; simpl; [destruct Hs as [s Hs]; by login_refused|].
  rewrite <- eq_None_not_Some in Hs. split; [|split; [|done]].
  - split; [|by eexists]. intros _. split; [done|]. split; [done|]. by exists u, acct, p.
  - intros change _. rewrite lookup_delete_eq. split; [done|]. by exists u.
Qed.

End WebAuth.
