(* ===== verification/AuthLayer.v ===== *)
(** * The operator API's gate

    [operator/auth_layer.rs] and [operator/csrf.rs]: the middleware every
    operator request passes before a handler sees it.  It asks for a
    superadmin to exist, authenticates by session cookie or bearer token,
    checks cookie requests for cross-site forgery and confines users who must
    change their password.  The metrics and audit rows it writes are not
    modelled; the decision is. *)

From S2P Require Import Prelude Text RuleStore Rbac Fingerprint Identity WebAuth.
Import Rbac.Rbac.

Open Scope Z_scope.

Module AuthLayer.

Inductive Method : Type := GET | HEAD | OPTIONS | POST | PUT | PATCH | DELETE.

#[export] Instance Method_eq_dec : EqDecision Method.
Proof. solve_decision. Defined.

(** A request: each header is its first value when that is text. *)
Record Request : Type := mkRequest {
  method : Method;
  path : list Z;
  origin : option (list Z);
  host : option (list Z);
  csrf_header : option (list Z);
  content_type : option (list Z);
  content_length : option (list Z);
  transfer_encoding : bool;
  authorization : option (list Z);
  cookie : option (list Z);
}.

(** ** CSRF *)

Inductive CsrfError : Type := MissingOrigin | OriginMismatch | MissingHeader | UnsupportedContentType.

Definition csrf_code (e : CsrfError) : list Z :=
  lit match e with
      | MissingOrigin => "csrf_origin_required"
      | OriginMismatch => "csrf_origin_mismatch"
      | MissingHeader => "csrf_header_required"
      | UnsupportedContentType => "csrf_content_type_required"
      end.

Definition requires_csrf (m : Method) : bool :=
  match m with POST | PUT | PATCH | DELETE => true | _ => false end.

Definition strip_scheme (o : list Z) : option (list Z) :=
  match strip_prefix (lit "http://") o with
  | Some a => Some a
  | None => strip_prefix (lit "https://") o
  end.

Definition same_origin (o : list Z) (r : Request) : bool :=
  match strip_scheme o with
  | None => false
  | Some authority => match host r with None => false | Some h => bool_decide (authority = h) end
  end.

Definition request_has_body (r : Request) : bool :=
  match content_length r ≫= parse_uint u64_max with Some n => 0 <? n | None => false end
  || transfer_encoding r.

(** The media type before any parameter. *)
Definition is_json (ct : list Z) : bool :=
  match split_char 59 ct with
  | media :: _ => eq_ignore_ascii_case (trim media) (lit "application/json")
  | [] => false
  end.

Definition csrf_verify (r : Request) (expected : option (list Z)) : Result unit CsrfError :=
  if negb (requires_csrf (method r)) then Ok tt
  else
    match origin r with
    | None => Err MissingOrigin
    | Some o =>
      let origin_ok :=
        match expected with Some e => bool_decide (o = e) | None => same_origin o r end in
      if negb origin_ok then Err OriginMismatch
      else
        match csrf_header r with
        | None => Err MissingHeader
        | Some v =>
          if negb (bool_decide (v = lit "1")) then Err MissingHeader
          else if request_has_body r then
            match content_type r with
            | None => Err UnsupportedContentType
            | Some ct => if is_json ct then Ok tt else Err UnsupportedContentType
            end
          else Ok tt
        end
    end.

(** ** Credentials of a request *)

Definition SESSION_COOKIE : list Z := lit "portunus_session".

Definition cookie_part (name part : list Z) : option (list Z) :=
  match split_once 61 (trim part) with
  | Some (k, v) => if bool_decide (k = name) then Some v else None
  | None => None
  end.

(** [Iterator::find_map]. *)
Fixpoint find_map {A B} (f : A -> option B) (l : list A) : option B :=
  match l with
  | [] => None
  | x :: l => match f x with Some b => Some b | None => find_map f l end
  end.

Definition cookie_value (r : Request) (name : list Z) : option (list Z) :=
  cookie r ≫= fun c => find_map (cookie_part name) (split_char 59 c).

Definition extract_bearer (r : Request) : Result (list Z) RbacError :=
  match authorization r with
  | None => Err Unauthenticated
  | Some v =>
    match strip_prefix (lit "Bearer ") v with
    | None => Err Unauthenticated
    | Some t => if bool_decide (trim t = []) then Err Unauthenticated else Ok (trim t)
    end
  end.

(** ** The middleware *)

Inductive AuthMethod : Type := Cookie | Bearer.

#[export] Instance AuthMethod_eq_dec : EqDecision AuthMethod.
Proof. solve_decision. Defined.

(** The identity tables and the login tables: two views of one database,
    which agree on the users. *)
Record State : Type := mkState { tables : Identity.Tables; db : WebAuth.Db }.

Definition agree (s : State) : Prop := WebAuth.accounts (db s) = Identity.users (tables s).

Inductive Deny : Type :=
| DenyBootstrap | DenyAuth (e : RbacError) | DenyCsrf (e : CsrfError)
| DenyPasswordChange | DenyPasswordState.

Definition http_status_for (e : RbacError) : Z :=
  match e with
  | Unauthenticated | CredentialInvalid | UserDisabled => 401
  | ClientNotGranted | PortOutsideGrant | ProtocolNotGranted | NotOwner | RoleRequired => 403
  | BootstrapRequired => 503
  | AlreadyBootstrapped | UserAlreadyExists | CannotRemoveSelf | LastSuperadmin => 409
  | UserNotFound | CredentialNotFound | GrantNotFound => 404
  | InvalidUserId | InvalidDisplayName | ReservedUserId | InvalidPortRange | EmptyProtocolSet
  | InvalidClient => 422
  end.

Definition deny_status (e : Deny) : Z :=
  match e with
  | DenyBootstrap => 503
  | DenyAuth e => http_status_for e
  | DenyCsrf _ | DenyPasswordChange => 403
  | DenyPasswordState => 500
  end.

Definition password_change_route_allowed (m : Method) (p : list Z) : bool :=
  (bool_decide (m = GET) && bool_decide (p = lit "/v1/users/me"))
  || (bool_decide (m = POST) && bool_decide (p = lit "/v1/users/me/password")).

Section Middleware.
Variable hash_token : list Z -> list Z.

Definition authenticate_request (s : State) (r : Request) (now : Z)
  : Result (OperatorIdentity * AuthMethod) RbacError * State :=
  match cookie_value r SESSION_COOKIE with
  | Some secret =>
    let '(res, d) := WebAuth.verify_session_secret hash_token (db s) secret now in
    (match res with Ok identity => Ok (identity, Cookie) | Err e => Err e end, mkState (tables s) d)
  | None =>
    match extract_bearer r with
    | Err e => (Err e, s)
    | Ok token =>
      let '(res, t) := Identity.verify hash_token (tables s) token now in
      (match res with Ok identity => Ok (identity, Bearer) | Err e => Err e end, mkState t (db s))
    end
  end.

Definition password_change_required (s : State) (identity : OperatorIdentity) : option bool :=
  match WebAuth.password_state (db s) (who identity) with
  | Err _ => None
  | Ok p => Some (match p with Some p => WebAuth.pchange_required p | None => false end)
  end.

(** [auth_middleware]: whom the request goes on as, or why it stops. *)
Definition auth_middleware (s : State) (public_origin : option (list Z)) (r : Request) (now : Z)
  : Result OperatorIdentity Deny * State :=
  if negb (Identity.has_any_superadmin (tables s)) then (Err DenyBootstrap, s)
  else
    match authenticate_request s r now with
    | (Err e, s) => (Err (DenyAuth e), s)
    | (Ok (identity, m), s) =>
      match (if bool_decide (m = Cookie) then csrf_verify r public_origin else Ok tt) with
      | Err e => (Err (DenyCsrf e), s)
      | Ok _ =>
        if bool_decide (m = Cookie) && negb (password_change_route_allowed (method r) (path r)) then
          match password_change_required s identity with
          | Some true => (Err DenyPasswordChange, s)
          | Some false => (Ok identity, s)
          | None => (Err DenyPasswordState, s)
          end
        else (Ok identity, s)
      end
    end.

End Middleware.

(** ** Specification *)

(** A cookie request cannot be forged by another site: it does not write, or
    it names an origin the server accepts, carries the custom header and, when
    it has a body, declares it to be JSON. *)
Definition forgery_safe (r : Request) (expected : option (list Z)) : Prop :=
  requires_csrf (method r) = false \/
  exists o, origin r = Some o /\
    match expected with
    | Some e => o = e
    | None => exists h, host r = Some h /\ (o = lit "http://" ++ h \/ o = lit "https://" ++ h)
    end /\
    csrf_header r = Some (lit "1") /\
    (request_has_body r = true -> exists ct, content_type r = Some ct /\ is_json ct = true).

(** ** Lemmas *)

Lemma strip_scheme_iff (o h : list Z) :
  strip_scheme o = Some h <-> o = lit "http://" ++ h \/ o = lit "https://" ++ h.
Proof.
  unfold strip_scheme. destruct (strip_prefix (lit "http://") o) as [a|] eqn:E.
  - apply strip_prefix_spec in E as ->. split.
    + intros [= ->]. by left.
    + intros [Eq|Eq]; [by apply app_inv_head in Eq as ->|by vm_compute in Eq].
  - rewrite strip_prefix_spec. split; [by right|]. intros [Eq|Eq]; [|done].
    apply strip_prefix_spec in Eq. congruence.
Qed.

Lemma same_origin_iff (o : list Z) (r : Request) :
  same_origin o r = true <->
  exists h, host r = Some h /\ (o = lit "http://" ++ h \/ o = lit "https://" ++ h).
Proof.
  unfold same_origin. setoid_rewrite <- strip_scheme_iff.
  destruct (strip_scheme o) as [a|], (host r) as [h|]; try (split; [done|]; intros (? & ? & ?); done).
  rewrite bool_decide_eq_true. naive_solver.
Qed.

Lemma csrf_verify_iff (r : Request) (expected : option (list Z)) :
  csrf_verify r expected = Ok tt <-> forgery_safe r expected.
Proof.
  unfold csrf_verify, forgery_safe. destruct (requires_csrf (method r)); simpl; [|naive_solver].
  destruct (origin r) as [o|]; [|split; [done|intros [?|(? & ? & _)]; done]].
  set (okb := match expected with Some e => bool_decide (o = e) | None => same_origin o r end).
  assert (Hok : okb = true <-> match expected with
            | Some e => o = e
            | None => exists h, host r = Some h /\ (o = lit "http://" ++ h \/ o = lit "https://" ++ h)
            end).
  { unfold okb. destruct expected; [apply bool_decide_eq_true|apply same_origin_iff]. }
  destruct okb; simpl.
  - assert (Hok' := proj1 Hok eq_refl). clear Hok. destruct (csrf_header r) as [v|]; simpl.
    2:{ split; [done|]. by intros [?|(? & _ & _ & ? & _)]. }
    case_bool_decide as Hv; simpl.
    2:{ split; [done|]. intros [?|(? & _ & _ & [= ?] & _)]; done. }
    subst v. destruct (request_has_body r).
    + destruct (content_type r) as [ct|]; [destruct (is_json ct) eqn:Ej|].
      * split; [|done]. intros _. right. exists o. eauto 10.
      * split; [done|]. intros [?|(? & _ & _ & _ & Hb)]; [done|].
        destruct (Hb eq_refl) as (? & [= <-] & ?). congruence.
      * split; [done|]. intros [?|(? & _ & _ & _ & Hb)]; [done|].
        by destruct (Hb eq_refl) as (? & ? & _).
    + split; [|done]. intros _. right. by exists o.
  - split; [done|]. intros [?|(o' & [= <-] & Ho & _)]; [done|]. by apply Hok in Ho.
Qed.

Lemma csrf_unit (r : Request) (expected : option (list Z)) (u : unit) :
  csrf_verify r expected = Ok u <-> forgery_safe r expected.
Proof. destruct u. apply csrf_verify_iff. Qed.

Lemma verify_session_keeps (hash_token : list Z -> list Z) (d : WebAuth.Db) (secret : list Z) (now : Z) :
  WebAuth.accounts (WebAuth.verify_session_secret hash_token d secret now).2 = WebAuth.accounts d /\
  WebAuth.passwords (WebAuth.verify_session_secret hash_token d secret now).2 = WebAuth.passwords d.
Proof.
  unfold WebAuth.verify_session_secret, WebAuth.verify_web_session.
  destruct (WebAuth.sessions d !! _) as [s|]; [|done].
  destruct (_ || _); [done|]. simpl. destruct (WebAuth.accounts d !! _) as [u|]; [|done].
  by destruct (Identity.disabled u).
Qed.

Lemma change_required_keeps (s : State) (d : WebAuth.Db) (identity : OperatorIdentity) :
  WebAuth.accounts d = WebAuth.accounts (db s) -> WebAuth.passwords d = WebAuth.passwords (db s) ->
  password_change_required (mkState (tables s) d) identity = password_change_required s identity.
Proof.
  intros H1 H2. unfold password_change_required, WebAuth.password_state, WebAuth.has_user. simpl.
  by rewrite H1, H2.
Qed.

Lemma session_live (hash_token : list Z -> list Z) (d : WebAuth.Db) (secret : list Z) (now : Z)
  (identity : OperatorIdentity) :
  (WebAuth.verify_session_secret hash_token d secret now).1 = Ok identity ->
  exists u name, WebAuth.accounts d !! name = Some u /\ Identity.disabled u = false /\
    identity = mkIdentity (Identity.uid u) (Identity.urole u).
Proof.
  unfold WebAuth.verify_session_secret, WebAuth.verify_web_session.
  destruct (WebAuth.sessions d !! _) as [s|]; [|done].
  destruct (_ || _); [done|]. simpl. destruct (WebAuth.accounts d !! _) as [u|] eqn:E; [|done].
  destruct (Identity.disabled u) eqn:Ed; simpl; [done|]. intros [= <-]. eauto.
Qed.

Lemma bearer_live (hash_token : list Z -> list Z) (t : Identity.Tables) (token : list Z) (now : Z)
  (identity : OperatorIdentity) :
  (Identity.verify hash_token t token now).1 = Ok identity ->
  exists u name, Identity.users t !! name = Some u /\ Identity.disabled u = false /\
    identity = mkIdentity (Identity.uid u) (Identity.urole u).
Proof.
  unfold Identity.verify. destruct (_ =? 0)%nat; [done|]. destruct (256 <? _)%nat; [done|].
  destruct (Identity.scan _ _ _) as [[i name]|]; [|done].
  destruct (Identity.users t !! name) as [u|] eqn:E; [|done].
  destruct (Identity.disabled u) eqn:Ed; simpl; [done|]. intros [= <-]. eauto.
Qed.

(** ** Theorems *)

(** The gate is exact: a request goes on to a handler, as some operator,
    exactly when a superadmin exists and either its session cookie is valid
    for that operator, it cannot have been forged by another site, and the
    operator need not change the password first or is at one of the two routes
    for doing so, or it has no session cookie and its bearer token is valid.
    A request with a bad cookie never falls back to a good token. *)
Theorem gate_exact (hash_token : list Z -> list Z) (s : State) (public_origin : option (list Z))
  (r : Request) (now : Z) (identity : OperatorIdentity) :
  (auth_middleware hash_token s public_origin r now).1 = Ok identity <->
  Identity.has_any_superadmin (tables s) = true /\
  ((exists secret, cookie_value r SESSION_COOKIE = Some secret /\
      (WebAuth.verify_session_secret hash_token (db s) secret now).1 = Ok identity /\
      forgery_safe r public_origin /\
      (password_change_route_allowed (method r) (path r) = true \/
       password_change_required s identity = Some false)) \/
   (cookie_value r SESSION_COOKIE = None /\
    exists token, extract_bearer r = Ok token /\
      (Identity.verify hash_token (tables s) token now).1 = Ok identity)).
Proof.
  unfold auth_middleware, authenticate_request.
  destruct (Identity.has_any_superadmin (tables s)); simpl; [|naive_solver].
  destruct (cookie_value r SESSION_COOKIE) as [secret|].
  - pose proof (verify_session_keeps hash_token (db s) secret now) as [K1 K2].
    destruct (WebAuth.verify_session_secret hash_token (db s) secret now) as [[id|e] d] eqn:E.
    2:{ split; [done|]. intros [_ [(? & [= <-] & Hv & _)|[? _]]]; [|done]. by rewrite E in Hv. }
    rewrite bool_decide_true by done. simpl in K1, K2. cbn [andb].
    pose proof (csrf_unit r public_origin) as Hc.
    destruct (csrf_verify r public_origin) as [[]|ce].
    2:{ split; [done|]. intros [_ [(? & _ & _ & Hf & _)|[? _]]]; [|done]. by apply (Hc tt) in Hf. }
    assert (Hf : forgery_safe r public_origin) by (by apply (Hc tt)). clear Hc.
    destruct (password_change_route_allowed (method r) (path r)); simpl.
    + split; [intros [= <-]; split; [done|]; left; exists secret; rewrite E; auto|].
      intros [_ [(? & [= <-] & Hv & _)|[? _]]]; [|done]. rewrite E in Hv. simpl in Hv. congruence.
    + rewrite change_required_keeps by done.
      split.
      * destruct (password_change_required s id) as [[]|] eqn:Ep; simpl; try done.
        intros [= <-]. split; [done|]. left. exists secret. rewrite E. auto.
      * intros [_ [(? & [= <-] & Hv & _ & [?|Hp])|[? _]]]; [done| |done].
        rewrite E in Hv. simpl in Hv. assert (id = identity) as -> by congruence. by rewrite Hp.
  - destruct (extract_bearer r) as [token|e].
    2:{ split; [done|]. intros [_ [(? & ? & _)|[_ (? & ? & _)]]]; done. }
    destruct (Identity.verify hash_token (tables s) token now) as [[id|e] t] eqn:E.
    2:{ split; [done|]. intros [_ [(? & ? & _)|[_ (? & [= <-] & Hv)]]]; [done|]. by rewrite E in Hv. }
    rewrite bool_decide_false by done. simpl. split.
    + intros [= <-]. split; [done|]. right. split; [done|]. exists token. by rewrite E.
    + intros [_ [(? & ? & _)|[_ (? & [= <-] & Hv)]]]; [done|].
      rewrite E in Hv. simpl in Hv. congruence.
Qed.

(** Whoever passes the gate is a live account: the identity a handler is
    given is a user of the identity store with that role, not disabled. *)
Theorem gate_identity_live (hash_token : list Z -> list Z) (s : State)
  (public_origin : option (list Z)) (r : Request) (now : Z) (identity : OperatorIdentity) :
  agree s -> Identity.rows_ok (tables s) ->
  (auth_middleware hash_token s public_origin r now).1 = Ok identity ->
  exists u, Identity.users (tables s) !! who identity = Some u /\
    Identity.disabled u = false /\ Identity.urole u = role identity.
Proof.
  intros Hag [_ Hrow]. unfold auth_middleware, authenticate_request.
  destruct (negb _); [done|]. destruct (cookie_value r SESSION_COOKIE) as [secret|].
  - destruct (WebAuth.verify_session_secret hash_token (db s) secret now) as [[id|e] d] eqn:E; [|done].
    intros H. assert (id = identity) as ->.
    { destruct (bool_decide (Cookie = Cookie)); [destruct (csrf_verify _ _); [|done]|];
        (destruct (_ && _); [|by simpl in H; congruence]);
        destruct (password_change_required _ _) as [[]|]; simpl in H; congruence. }
    apply (f_equal fst) in E. apply session_live in E as (u & name & Hu & Hd & ->).
    rewrite Hag in Hu. exists u. by rewrite (Hrow name u Hu).
  - destruct (extract_bearer r) as [token|e]; [|done].
    destruct (Identity.verify hash_token (tables s) token now) as [[id|e] t] eqn:E; [|done].
    rewrite bool_decide_false by done. simpl. intros [= ->].
    apply (f_equal fst) in E. apply bearer_live in E as (u & name & Hu & Hd & ->).
    exists u. by rewrite (Hrow name u Hu).
Qed.

(** An operator [ann] logged in by cookie, sending JSON from the same host. *)
Definition ex_state : State :=
  mkState (Identity.mkTables {[ lit "ann" := Identity.mkUser (lit "ann") [] Superadmin 0 false ]} ∅ ∅)
    (WebAuth.ex_login (lit "secret-password") 0).2.

Definition ex_request : Request :=
  mkRequest POST (lit "/v1/rules") (Some (lit "https://fw.example")) (Some (lit "fw.example"))
    (Some (lit "1")) (Some (lit "application/json; charset=utf-8")) (Some (lit "12")) false None
    (Some (lit "theme=dark; portunus_session=" ++ [7; 7])).

Lemma gate_identity_live_witness :
  (auth_middleware (fun b => b) ex_state None ex_request 5).1 = Ok (mkIdentity (lit "ann") Superadmin) /\
  exists u, Identity.users (tables ex_state) !! lit "ann" = Some u /\
    Identity.disabled u = false /\ Identity.urole u = Superadmin.
Proof.
  assert (E : (auth_middleware (fun b => b) ex_state None ex_request 5).1 =
              Ok (mkIdentity (lit "ann") Superadmin)) by (vm_compute; reflexivity).
  split; [exact E|].
  apply (gate_identity_live (fun b => b) ex_state None ex_request 5
           (mkIdentity (lit "ann") Superadmin)); [vm_compute; reflexivity| |exact E].
  split.
  - intros i row g H. simpl in H. rewrite lookup_empty in H. discriminate.
  - intros u row H. simpl in H. apply lookup_singleton_Some in H as [<- <-]. reflexivity.
Defined.

End AuthLayer.
