(* ===== verification/PortGroups.v ===== *)
(** * Port groups: the shared SNI listeners of a client

    [crates/portunus-client/src/port_groups.rs]: the rules that share a TCP
    port by server name, the listener of each port and the table and slots it
    publishes to the connections it accepts.

    Binding the port and spawning the tasks is the operating system's and
    tokio's; whether the bind succeeds is an argument.  Shared counters and
    limiters are the references the slot carries. *)

From S2P Require Import Prelude Text PortRange IpAddr Target RouteTable.

Open Scope Z_scope.

Module PortGroups.

Import RouteTable.RouteTable.

Inductive PortGroupError : Type :=
| ModeChangeUnsupported
| UnknownRuleId (id : Z)
| BindFailed
| DuplicateRuleId (id : Z).

(** The counters of a rule, each shared by reference. *)
Record RuleStats : Type := mkStats {
  stats_id : nat;
  route_exact : nat;
  route_wildcard : nat;
  route_fallback : nat;
}.

(** [ClientRule], the fields a group reads; limiter handles are the keys of
    their registries, accumulators and quotas references. *)
Record ClientRule : Type := mkRule {
  r_rule_id : Z;
  r_listen_range : PortRange.PortRange.PortRange;
  r_target : Target.Target.Target;
  r_target_range : PortRange.PortRange.PortRange;
  r_prefer_ipv6 : bool;
  r_targets : list RuleTarget.RuleTarget;
  r_sni_pattern : option (list Z);
  r_rate_limit : option Z;
  r_rate_limit_stats : option nat;
  r_owner_rate_limit : option (list Z);
  r_owner_rate_limit_stats : option nat;
  r_quota : option nat;
}.

Record GroupMember : Type := mkMember {
  rule_id : Z;
  sni_pattern : option (list Z);
  target : Target.Target.Target;
  target_port : Z;
  proxy_protocol : option RuleTarget.ProxyProtocolVersion;
  prefer_ipv6 : bool;
  listen_port : Z;
  stats : RuleStats;
  sni_route_exact_total : nat;
  sni_route_wildcard_total : nat;
  sni_route_fallback_total : nat;
  rate_limit : option Z;
  rate_limit_stats : option nat;
  owner_rate_limit : option (list Z);
  owner_rate_limit_stats : option nat;
  quota : option nat;
}.

Record SniRuleSlot : Type := mkSlot {
  slot_rule_id : Z;
  slot_target : Target.Target.Target;
  slot_target_port : Z;
  slot_proxy_protocol : option RuleTarget.ProxyProtocolVersion;
  slot_prefer_ipv6 : bool;
  slot_listen_port : Z;
  slot_stats : RuleStats;
  slot_exact_total : nat;
  slot_wildcard_total : nat;
  slot_fallback_total : nat;
  slot_rate_limit : option Z;
  slot_rate_limit_stats : option nat;
  slot_owner_rate_limit : option (list Z);
  slot_owner_rate_limit_stats : option nat;
  slot_quota : option nat;
}.

(** The member of a rule, with the counters allocated for it. *)
Definition member_of (r : ClientRule) (st : RuleStats) : GroupMember :=
  mkMember (r_rule_id r) (r_sni_pattern r) (r_target r) (PortRange.PortRange.start (r_target_range r))
    (match r_targets r with [] => None | t :: _ => RuleTarget.proxy_protocol t end)
    (r_prefer_ipv6 r) (PortRange.PortRange.start (r_listen_range r)) st
    (route_exact st) (route_wildcard st) (route_fallback st)
    (r_rate_limit r) (r_rate_limit_stats r) (r_owner_rate_limit r) (r_owner_rate_limit_stats r)
    (r_quota r).

Definition slot_of (m : GroupMember) : SniRuleSlot :=
  mkSlot (rule_id m) (target m) (target_port m) (proxy_protocol m) (prefer_ipv6 m) (listen_port m)
    (stats m) (sni_route_exact_total m) (sni_route_wildcard_total m) (sni_route_fallback_total m)
    (rate_limit m) (rate_limit_stats m) (owner_rate_limit m) (owner_rate_limit_stats m) (quota m).

(** [SniDispatchState]: the table and the slots, published together. *)
Record DispatchState : Type := mkDispatch {
  table : SniRoutingTable;
  slots : gmap Z SniRuleSlot;
}.

Definition default_dispatch : DispatchState := mkDispatch (mkTable ∅ [] None) ∅.

Record GroupState : Type := mkGroup {
  group_port : Z;
  members : gmap Z GroupMember;
  published : DispatchState;
}.

Record Manager : Type := mkManager {
  groups : gmap Z GroupState;
  rule_to_port : gmap Z Z;
}.

Definition new : Manager := mkManager ∅ ∅.

Definition is_sni_port (m : Manager) (port : Z) : bool := bool_decide (is_Some (groups m !! port)).

Definition has_any_listener (m : Manager) : bool := negb (bool_decide (groups m = ∅)).

(** The members as the table builder sees them. *)
Definition members_for_table (ms : gmap Z GroupMember) : list (option (list Z) * Z) :=
  (fun kv => (sni_pattern kv.2, rule_id kv.2)) <$> map_to_list ms.

Definition rebuild_watches (g : GroupState) : Result GroupState PortGroupError :=
  match from_members (members_for_table (members g)) with
  | Err _ => Err ModeChangeUnsupported
  | Ok t => Ok (mkGroup (group_port g) (members g) (mkDispatch t (slot_of <$> members g)))
  end.

(** [apply_push]: the manager changes even when the result is an error, as the
    mutations made before it stay. *)
Definition push_member (m : Manager) (r : GroupMember) (bind_ok : bool)
  : Result RuleStats PortGroupError * Manager :=
  match groups m !! listen_port r with
  | Some g =>
    if bool_decide (is_Some (members g !! rule_id r)) then (Err (DuplicateRuleId (rule_id r)), m)
    else
      let g := mkGroup (group_port g) (<[rule_id r := r]> (members g)) (published g) in
      let index := <[rule_id r := listen_port r]> (rule_to_port m) in
      match rebuild_watches g with
      | Err e => (Err e, mkManager (<[listen_port r := g]> (groups m)) index)
      | Ok g => (Ok (stats r), mkManager (<[listen_port r := g]> (groups m)) index)
      end
  | None =>
    if negb bind_ok then (Err BindFailed, m)
    else
      match rebuild_watches (mkGroup (listen_port r) {[ rule_id r := r ]} default_dispatch) with
      | Err e => (Err e, m)
      | Ok g => (Ok (stats r), mkManager (<[listen_port r := g]> (groups m))
                                 (<[rule_id r := listen_port r]> (rule_to_port m)))
      end
  end.

Definition apply_push (m : Manager) (r : ClientRule) (st : RuleStats) (bind_ok : bool)
  : Result RuleStats PortGroupError * Manager :=
  if bool_decide (is_Some (rule_to_port m !! r_rule_id r))
  then (Err (DuplicateRuleId (r_rule_id r)), m)
  else push_member m (member_of r st) bind_ok.

Definition apply_remove (m : Manager) (i : Z) : Result unit PortGroupError * Manager :=
  match rule_to_port m !! i with
  | None => (Err (UnknownRuleId i), m)
  | Some port =>
    let index := delete i (rule_to_port m) in
    match groups m !! port with
    | None => (Err (UnknownRuleId i), mkManager (groups m) index)
    | Some g =>
      let g := mkGroup (group_port g) (delete i (members g)) (published g) in
      if bool_decide (members g = ∅) then (Ok tt, mkManager (delete port (groups m)) index)
      else
        match rebuild_watches g with
        | Err e => (Err e, mkManager (<[port := g]> (groups m)) index)
        | Ok g => (Ok tt, mkManager (<[port := g]> (groups m)) index)
        end
    end
  end.

Definition shutdown (m : Manager) : Manager := new.

(** What a listener does with a name: look it up in the published table and
    take the slot of the rule. *)
Definition dispatch (m : Manager) (port : Z) (sni : option (list Z)) : option SniRuleSlot :=
  match groups m !! port with
  | None => None
  | Some g =>
    match lookup (table (published g)) sni with
    | Hit i _ => slots (published g) !! i
    | Miss => None
    end
  end.

(** ** Invariants *)

(** The reverse index and the groups describe the same rules, every group has
    a member, and members sit under their own id and port. *)
Record wf (m : Manager) : Prop := {
  wf_index : forall i p, rule_to_port m !! i = Some p <->
    exists g, groups m !! p = Some g /\ is_Some (members g !! i);
  wf_group : forall p g, groups m !! p = Some g -> group_port g = p /\ members g <> ∅;
  wf_member : forall p g i r, groups m !! p = Some g -> members g !! i = Some r ->
    rule_id r = i /\ listen_port r = p;
}.

(** What a group publishes is the table and slots of its members. *)
Definition fresh (g : GroupState) : Prop := rebuild_watches g = Ok g.

Definition all_fresh (m : Manager) : Prop := forall p g, groups m !! p = Some g -> fresh g.

(** ** Runs *)

Inductive Op : Type :=
| Push (r : ClientRule) (st : RuleStats) (bind_ok : bool)
| Remove (i : Z)
| Shutdown.

Definition void {A E} (r : Result A E) : Result unit E :=
  match r with Ok _ => Ok tt | Err e => Err e end.

Definition exec (m : Manager) (op : Op) : Result unit PortGroupError * Manager :=
  match op with
  | Push r st b => let (res, m') := apply_push m r st b in (void res, m')
  | Remove i => apply_remove m i
  | Shutdown => (Ok tt, shutdown m)
  end.

Fixpoint run (m : Manager) (ops : list Op) : list (Result unit PortGroupError) * Manager :=
  match ops with
  | [] => ([], m)
  | op :: ops =>
    let (res, m) := exec m op in
    let (rs, m) := run m ops in
    (res :: rs, m)
  end.

(** [routes_via_sni] of the control loop. *)
Definition routes_via_sni (m : Manager) (tcp : bool) (r : ClientRule) : bool :=
  tcp && (PortRange.PortRange.end_ (r_listen_range r) =? PortRange.PortRange.start (r_listen_range r)) &&
  (bool_decide (is_Some (r_sni_pattern r)) ||
   is_sni_port m (PortRange.PortRange.start (r_listen_range r))).

(** ** What a manager promises

    One map of live rules.  A push adds its rule unless the id is live or the
    port is new and cannot be bound, a removal takes it out, and a port answers
    a name with the slot of the rule the live rules of the port select. *)

Notation Live := (gmap Z GroupMember).

Definition on_port (live : Live) (p : Z) : Live :=
  filter (fun kv => listen_port kv.2 = p) live.

Definition spec_exec (live : Live) (op : Op) : Result unit PortGroupError * Live :=
  match op with
  | Push r st b =>
    let x := member_of r st in
    if bool_decide (is_Some (live !! rule_id x)) then (Err (DuplicateRuleId (rule_id x)), live)
    else if bool_decide (on_port live (listen_port x) = ∅) && negb b then (Err BindFailed, live)
    else (Ok tt, <[rule_id x := x]> live)
  | Remove i =>
    if bool_decide (is_Some (live !! i)) then (Ok tt, delete i live)
    else (Err (UnknownRuleId i), live)
  | Shutdown => (Ok tt, ∅)
  end.

Fixpoint spec_run (live : Live) (ops : list Op) : list (Result unit PortGroupError) * Live :=
  match ops with
  | [] => ([], live)
  | op :: ops =>
    let (res, live) := spec_exec live op in
    let (rs, live) := spec_run live ops in
    (res :: rs, live)
  end.

Definition spec_dispatch (live : Live) (p : Z) (sni : option (list Z)) : option SniRuleSlot :=
  match spec_lookup (members_for_table (on_port live p)) sni with
  | Hit i _ => slot_of <$> live !! i
  | Miss => None
  end.

(** The pushes respect the server's promise that two live rules of a port
    never have the same pattern. *)
Definition no_clash (live : Live) (op : Op) : Prop :=
  match op with
  | Push r st _ =>
    forall y, y ∈ (map_to_list (on_port live (listen_port (member_of r st)))).*2 ->
      pattern_of (sni_pattern y) <> pattern_of (r_sni_pattern r)
  | _ => True
  end.

Fixpoint clean (live : Live) (ops : list Op) : Prop :=
  match ops with
  | [] => True
  | op :: ops => no_clash live op /\ clean (spec_exec live op).2 ops
  end.

(** ** Lemmas *)

Lemma rebuild_members g g' : rebuild_watches g = Ok g' ->
  group_port g' = group_port g /\ members g' = members g /\ fresh g'.
Proof.
  unfold fresh, rebuild_watches. destruct (from_members _) eqn:E; [|done].
  intros [= <-]. simpl. by rewrite E.
Qed.

(** Putting a group with one more member into a well-formed manager. *)
Lemma wf_put m g r : wf m ->
  rule_to_port m !! rule_id r = None ->
  group_port g = listen_port r ->
  members g = <[rule_id r := r]> (from_option members ∅ (groups m !! listen_port r)) ->
  wf (mkManager (<[listen_port r := g]> (groups m)) (<[rule_id r := listen_port r]> (rule_to_port m))).
Proof.
  intros [Hi Hg Hm] Hnew Hp Hms. split; simpl.
  - intros i p. destruct (decide (i = rule_id r)) as [->|Hne].
    + rewrite lookup_insert_eq. split.
      * intros [= <-]. exists g. by rewrite lookup_insert_eq, Hms, lookup_insert_eq.
      * intros (g' & Hl & Hs). apply lookup_insert_Some in Hl as [[-> _]|[Hne Hl]]; [done|].
        assert (rule_to_port m !! rule_id r = Some p) by (apply Hi; eauto). congruence.
    + rewrite lookup_insert_ne by done. rewrite Hi. destruct (decide (p = listen_port r)) as [->|Hpne].
      * rewrite lookup_insert_eq. split.
        -- intros (g' & Hl & Hs). exists g. split; [done|].
           rewrite Hms, Hl, lookup_insert_ne by done. done.
        -- intros (g' & [= <-] & Hs). rewrite Hms, lookup_insert_ne in Hs by done.
           destruct (groups m !! listen_port r) as [g'|]; [eauto|]. simpl in Hs.
           rewrite lookup_empty in Hs. by destruct Hs.
      * by rewrite lookup_insert_ne by done.
  - intros p g' Hl. apply lookup_insert_Some in Hl as [[<- <-]|[_ Hl]]; [|by apply Hg].
    split; [done|]. rewrite Hms. apply insert_non_empty.
  - intros p g' i r' Hl Hr. apply lookup_insert_Some in Hl as [[<- <-]|[_ Hl]]; [|by eapply Hm].
    rewrite Hms in Hr. apply lookup_insert_Some in Hr as [[<- <-]|[_ Hr]]; [done|].
    destruct (groups m !! listen_port r) as [g'|] eqn:E; [by eapply Hm|].
    simpl in Hr. by rewrite lookup_empty in Hr.
Qed.

(** Taking one member out of a group. *)
Lemma wf_cut m g g' i p : wf m ->
  rule_to_port m !! i = Some p ->
  groups m !! p = Some g ->
  group_port g' = group_port g -> members g' = delete i (members g) ->
  wf (mkManager (if bool_decide (members g' = ∅) then delete p (groups m) else <[p := g']> (groups m))
        (delete i (rule_to_port m))).
Proof.
  intros [Hi Hg Hm] Hidx Hl Hp Hms.
  set (gs := if bool_decide _ then _ else _).
  assert (Hgs : forall q h, gs !! q = Some h <->
    (q = p /\ h = g' /\ members g' <> ∅) \/ (q <> p /\ groups m !! q = Some h)).
  { intros q h. subst gs. case_bool_decide as He.
    - rewrite lookup_delete_Some. naive_solver.
    - rewrite lookup_insert_Some. naive_solver. }
  clearbody gs. split; simpl.
  - intros j q. rewrite lookup_delete_Some. rewrite Hi. split.
    + intros (Hne & h & Hh & Hs). destruct (decide (q = p)) as [->|Hq].
      * assert (h = g) as -> by congruence. exists g'. rewrite Hgs, Hms, lookup_delete_ne by done.
        split; [|done]. left. split_and!; try done. intros He.
        rewrite <- (lookup_delete_ne _ i j), He, lookup_empty in Hs by done. by destruct Hs.
      * exists h. split; [|done]. apply Hgs. by right.
    + intros (h & Hh & Hs). apply Hgs in Hh as [(-> & -> & _)|[Hq Hh]].
      * rewrite Hms in Hs. destruct Hs as [r Hs]. apply lookup_delete_Some in Hs as [Hne Hs].
        split; [done|]. exists g. eauto.
      * split; [|by eauto]. intros <-. assert (rule_to_port m !! i = Some q) by (apply Hi; eauto).
        congruence.
  - intros q h Hh. apply Hgs in Hh as [(-> & -> & He)|[_ Hh]]; [|by apply Hg].
    split; [|done]. rewrite Hp. by apply Hg.
  - intros q h j r Hh Hr. apply Hgs in Hh as [(-> & -> & _)|[_ Hh]]; [|by eapply Hm].
    rewrite Hms in Hr. apply lookup_delete_Some in Hr as [_ Hr]. by eapply Hm.
Qed.

Lemma wf_new : wf new.
Proof.
  split; simpl; intros *; rewrite lookup_empty; try done.
  split; [done|]. intros (g & Hl & _). by rewrite lookup_empty in Hl.
Qed.

Lemma push_member_wf m x b : wf m -> rule_to_port m !! rule_id x = None -> wf (push_member m x b).2.
Proof.
  intros Hwf Hd. unfold push_member. destruct (groups m !! listen_port x) as [g|] eqn:Hl.
  - case_bool_decide; [done|]. destruct (rebuild_watches _) as [g'|e] eqn:Hr; simpl.
    + apply rebuild_members in Hr as (Hp & Hms & _). apply wf_put; try done.
      * rewrite Hp. simpl. by apply Hwf.
      * by rewrite Hms, Hl.
    + apply wf_put; try done; simpl; [by apply Hwf|by rewrite Hl].
  - destruct b; simpl; [|done]. destruct (rebuild_watches _) as [g'|e] eqn:Hr; simpl; [|done].
    apply rebuild_members in Hr as (Hp & Hms & _). apply wf_put; try done.
    rewrite Hms, Hl. simpl. by rewrite insert_empty.
Qed.

Lemma push_wf m r st b : wf m -> wf (apply_push m r st b).2.
Proof.
  intros Hwf. unfold apply_push. case_bool_decide as Hd; [done|].
  apply push_member_wf; [done|]. by apply eq_None_not_Some.
Qed.

Lemma pg_remove_wf m i : wf m -> wf (apply_remove m i).2.
Proof.
  intros Hwf. unfold apply_remove. destruct (rule_to_port m !! i) as [p|] eqn:Hi; [|done].
  assert (exists g, groups m !! p = Some g) as [g Hl] by (apply Hwf in Hi as (g & ? & _); eauto).
  rewrite Hl. simpl. pose proof (wf_cut m g) as Hcut.
  case_bool_decide as He; simpl.
  - specialize (Hcut (mkGroup (group_port g) ∅ (published g)) i p Hwf Hi Hl eq_refl (eq_sym He)).
    exact Hcut.
  - destruct (rebuild_watches _) as [g'|e] eqn:Hr; simpl.
    + apply rebuild_members in Hr as (Hp & Hms & _).
      specialize (Hcut g' i p Hwf Hi Hl Hp Hms).
      rewrite bool_decide_eq_false_2 in Hcut; [done|]. by rewrite Hms.
    + specialize (Hcut (mkGroup (group_port g) (delete i (members g)) (published g)) i p
                    Hwf Hi Hl eq_refl eq_refl).
      by rewrite bool_decide_eq_false_2 in Hcut.
Qed.

Lemma pg_exec_wf m op : wf m -> wf (exec m op).2.
Proof.
  intros Hwf. destruct op as [r st b|i|]; simpl; [|by apply pg_remove_wf|apply wf_new].
  pose proof (push_wf m r st b Hwf). by destruct (apply_push m r st b).
Qed.

Lemma pg_run_wf ops : forall m, wf m -> wf (run m ops).2.
Proof.
  induction ops as [|op ops IH]; intros m Hwf; simpl; [done|].
  pose proof (pg_exec_wf m op Hwf) as Hw. destruct (exec m op) as [res m']. simpl in Hw.
  specialize (IH m' Hw). by destruct (run m' ops).
Qed.

(** *** The table of a group *)

Definition group_patterns (ms : gmap Z GroupMember) : list Pattern :=
  patterns (members_for_table ms).

Lemma group_patterns_insert ms i x : ms !! i = None ->
  group_patterns (<[i := x]> ms) ≡ₚ pattern_of (sni_pattern x) :: group_patterns ms.
Proof.
  intros Hi. unfold group_patterns, patterns, members_for_table.
  by rewrite (map_to_list_insert _ _ _ Hi).
Qed.

Lemma group_patterns_delete ms i : NoDup (group_patterns ms) -> NoDup (group_patterns (delete i ms)).
Proof.
  intros Hn. destruct (ms !! i) as [x|] eqn:Hi; [|by rewrite delete_id].
  rewrite <- (insert_delete_id _ _ _ Hi) in Hn. rewrite group_patterns_insert in Hn.
  - by apply NoDup_cons in Hn as [_ Hn].
  - apply lookup_delete_eq.
Qed.

Lemma elem_of_group_patterns ms p :
  p ∈ group_patterns ms <-> exists y, pattern_of (sni_pattern y) = p /\ y ∈ (map_to_list ms).*2.
Proof.
  unfold group_patterns, patterns, members_for_table. rewrite <- list_fmap_compose, list_elem_of_fmap.
  setoid_rewrite list_elem_of_fmap. naive_solver.
Qed.

Lemma fresh_nodup g : fresh g -> NoDup (group_patterns (members g)).
Proof.
  unfold fresh, rebuild_watches. destruct (from_members _) eqn:E; [|done]. intros _.
  by apply from_members_represents in E as [? _].
Qed.

Lemma rebuild_ok g : NoDup (group_patterns (members g)) ->
  exists g', rebuild_watches g = Ok g' /\ group_port g' = group_port g /\
    members g' = members g /\ fresh g'.
Proof.
  intros Hn. destruct (from_members_ok _ Hn) as [t Ht].
  assert (exists g', rebuild_watches g = Ok g') as [g' Hg']
    by (unfold rebuild_watches; rewrite Ht; eauto).
  exists g'. split; [done|]. by apply rebuild_members.
Qed.

(** A published table answers with a member of the group. *)
Lemma spec_lookup_member ms sni i k : spec_lookup ms sni = Hit i k -> i ∈ ms.*2.
Proof.
  assert (forall p j, rule_for ms p = Some j -> j ∈ ms.*2) as Hr.
  { intros p j Hj. apply rule_for_elem in Hj as (pat & Hin & _).
    apply (list_elem_of_fmap_2 snd _ (pat, j)) in Hin. done. }
  unfold spec_lookup. destruct sni as [h|].
  - destruct (rule_for ms (PExact _)) eqn:?; [intros [= <- _]; eauto|].
    destruct (wildcard_for (lower h)) as [w|]; simpl; [destruct (rule_for ms w) eqn:?|].
    2, 3: destruct (rule_for ms PFallback) eqn:?; [|done].
    all: intros [= <- _]; eauto.
  - destruct (rule_for ms PFallback) eqn:?; [|done]. intros [= <- _]; eauto.
Qed.

(** *** The simulation *)

Record rel (m : Manager) (live : Live) : Prop := {
  rel_wf : wf m;
  rel_fresh : all_fresh m;
  rel_ports : forall p, on_port live p = from_option members ∅ (groups m !! p);
}.

Lemma on_port_Some live p i x : on_port live p !! i = Some x <-> live !! i = Some x /\ listen_port x = p.
Proof. unfold on_port. by rewrite map_lookup_filter_Some. Qed.

Lemma on_port_insert live i x p : live !! i = None ->
  on_port (<[i := x]> live) p =
  if bool_decide (listen_port x = p) then <[i := x]> (on_port live p) else on_port live p.
Proof.
  intros Hi. unfold on_port. case_bool_decide.
  - by rewrite map_filter_insert_True.
  - rewrite map_filter_insert_not'; [done|done|]. intros y. by rewrite Hi.
Qed.

Lemma on_port_delete live i p : on_port (delete i live) p = delete i (on_port live p).
Proof. apply map_filter_delete. Qed.

Lemma rel_index m live i : rel m live -> rule_to_port m !! i = listen_port <$> live !! i.
Proof.
  intros [Hwf _ Hp]. apply option_eq. intros p. rewrite (wf_index _ Hwf), fmap_Some.
  specialize (Hp p). split.
  - intros (g & Hl & [x Hx]). rewrite Hl in Hp. simpl in Hp. rewrite <- Hp in Hx.
    apply on_port_Some in Hx as [? ?]. eauto.
  - intros (x & Hx & ->). destruct (groups m !! listen_port x) as [g|]; simpl in Hp.
    + exists g. split; [done|]. rewrite <- Hp. exists x. by apply on_port_Some.
    + assert (on_port live (listen_port x) !! i = Some x) as Ho by by apply on_port_Some.
      by rewrite Hp, lookup_empty in Ho.
Qed.

Lemma rel_new : rel new ∅.
Proof.
  split; [apply wf_new|intros p g; simpl; by rewrite lookup_empty|].
  intros p. simpl. rewrite lookup_empty. apply map_filter_empty.
Qed.

(** Writing one group of the manager. *)
Lemma rel_put m live x g' : rel m live -> live !! rule_id x = None ->
  wf (mkManager (<[listen_port x := g']> (groups m)) (<[rule_id x := listen_port x]> (rule_to_port m))) ->
  fresh g' -> members g' = <[rule_id x := x]> (on_port live (listen_port x)) ->
  rel (mkManager (<[listen_port x := g']> (groups m)) (<[rule_id x := listen_port x]> (rule_to_port m)))
    (<[rule_id x := x]> live).
Proof.
  intros [_ Hf Hp] Hnew Hwf Hg Hms. split; [done| |].
  - intros p g. simpl. rewrite lookup_insert_Some. intros [[_ <-]|[_ Hl]]; [done|by eapply Hf].
  - intros p. simpl. rewrite on_port_insert by done. case_bool_decide as Hpx.
    + subst p. rewrite lookup_insert_eq. simpl. done.
    + rewrite lookup_insert_ne by done. apply Hp.
Qed.

Lemma sim_push_member m live x b : rel m live -> live !! rule_id x = None ->
  pattern_of (sni_pattern x) ∉ group_patterns (on_port live (listen_port x)) ->
  let (res, m') := push_member m x b in
  if bool_decide (on_port live (listen_port x) = ∅) && negb b
  then res = Err BindFailed /\ m' = m
  else res = Ok (stats x) /\ rel m' (<[rule_id x := x]> live).
Proof.
  intros Hrel Hnew Hno. pose proof Hrel as [Hwf Hf Hp].
  assert (Hidx : rule_to_port m !! rule_id x = None) by by rewrite (rel_index _ _ _ Hrel), Hnew.
  pose proof (push_member_wf m x b Hwf Hidx) as Hwf'.
  assert (Hmem : on_port live (listen_port x) !! rule_id x = None).
  { destruct (on_port live _ !! _) eqn:E; [|done]. apply on_port_Some in E as [? _]. congruence. }
  specialize (Hp (listen_port x)) as Hpx. unfold push_member in *.
  destruct (groups m !! listen_port x) as [g|] eqn:Hl; simpl in Hpx.
  - rewrite <- Hpx in *. rewrite bool_decide_eq_false_2 in * by (rewrite Hmem; apply is_Some_None).
    edestruct rebuild_ok as (g' & Hr & _ & Hms & Hg').
    2: { rewrite Hr in *. simpl in Hwf'. rewrite bool_decide_eq_false_2; simpl.
         - split; [done|]. by apply rel_put.
         - rewrite Hpx. by apply (wf_group _ Hwf (listen_port x)). }
    simpl. rewrite group_patterns_insert by done. apply NoDup_cons. split; [done|].
    rewrite Hpx. by apply fresh_nodup, (Hf (listen_port x)).
  - rewrite bool_decide_eq_true_2 by done. destruct b; simpl in *; [|done].
    edestruct rebuild_ok as (g' & Hr & _ & Hms & Hg').
    2: { rewrite Hr in *. simpl in Hwf'. split; [done|]. apply rel_put; try done.
         rewrite Hms, Hpx. simpl. by rewrite insert_empty. }
    simpl. rewrite <- insert_empty, group_patterns_insert by apply lookup_empty.
    unfold group_patterns, members_for_table. rewrite map_to_list_empty. apply NoDup_singleton.
Qed.

Lemma sim_remove m live i : rel m live ->
  (apply_remove m i).1 = (spec_exec live (Remove i)).1 /\
  rel (apply_remove m i).2 (spec_exec live (Remove i)).2.
Proof.
  intros Hrel. pose proof Hrel as [Hwf Hf Hp]. pose proof (pg_remove_wf m i Hwf) as Hwf'.
  pose proof (rel_index _ _ i Hrel) as Hi. simpl. unfold apply_remove in *.
  destruct (live !! i) as [x|] eqn:Hx; simpl in Hi; rewrite Hi in *; [|done].
  rewrite bool_decide_eq_true_2 by eauto. simpl.
  pose proof (Hp (listen_port x)) as Hpx.
  destruct (groups m !! listen_port x) as [g|] eqn:Hl; simpl in Hpx.
  2: { assert (on_port live (listen_port x) !! i = Some x) as Ho by by apply on_port_Some.
       by rewrite Hpx, lookup_empty in Ho. }
  assert (Hother : forall p, listen_port x <> p -> delete i (on_port live p) = on_port live p).
  { intros p Hne. apply delete_id. destruct (on_port live p !! i) eqn:E; [|done].
    apply on_port_Some in E as [? ?]. congruence. }
  simpl in *. case_bool_decide as He.
  - split; [done|]. split; [done| |].
    + intros p g'. simpl. rewrite lookup_delete_Some. intros [_ ?]. by eapply Hf.
    + intros p. simpl. rewrite on_port_delete. destruct (decide (listen_port x = p)) as [<-|Hne].
      * by rewrite lookup_delete_eq, Hpx, He.
      * rewrite lookup_delete_ne, Hother by done. apply Hp.
  - destruct (rebuild_ok (mkGroup (group_port g) (delete i (members g)) (published g)))
      as (g' & Hr & _ & Hms & Hg').
    { by apply group_patterns_delete, fresh_nodup, (Hf (listen_port x)). }
    rewrite Hr in *. split; [done|]. split; [done| |].
    + intros p h. simpl. rewrite lookup_insert_Some. intros [[_ <-]|[_ ?]]; [done|by eapply Hf].
    + intros p. simpl. rewrite on_port_delete. destruct (decide (listen_port x = p)) as [<-|Hne].
      * by rewrite lookup_insert_eq, Hpx.
      * rewrite lookup_insert_ne, Hother by done. apply Hp.
Qed.

Lemma sim_exec m live op : rel m live -> no_clash live op ->
  (exec m op).1 = (spec_exec live op).1 /\ rel (exec m op).2 (spec_exec live op).2.
Proof.
  intros Hrel Hno. destruct op as [r st b|i|].
  - simpl. unfold apply_push. rewrite (rel_index _ _ _ Hrel).
    destruct (live !! r_rule_id r) as [y|] eqn:Hl; simpl; [done|].
    assert (pattern_of (r_sni_pattern r) ∉ group_patterns (on_port live (listen_port (member_of r st))))
      as Hn by (intros (y & Heq & Hy)%elem_of_group_patterns; by apply (Hno y)).
    pose proof (sim_push_member m live (member_of r st) b Hrel Hl Hn) as Hs.
    destruct (push_member m _ b) as [res m'].
    simpl in *. by destruct (bool_decide _ && negb b), Hs as [-> Hs]; simplify_eq/=.
  - by apply sim_remove.
  - simpl. split; [done|apply rel_new].
Qed.

Lemma sim_run ops : forall m live, rel m live -> clean live ops ->
  (run m ops).1 = (spec_run live ops).1 /\ rel (run m ops).2 (spec_run live ops).2.
Proof.
  induction ops as [|op ops IH]; intros m live Hrel Hc; simpl; [done|].
  destruct Hc as [Hno Hc]. destruct (sim_exec m live op Hrel Hno) as [Hr Hrel'].
  destruct (exec m op) as [res m'], (spec_exec live op) as [res' live']. simpl in *. subst res'.
  destruct (IH m' live' Hrel' Hc) as [Hrs Hrel''].
  by destruct (run m' ops), (spec_run live' ops); simplify_eq/=.
Qed.

(** Every member the table can name has its slot. *)
Lemma dispatch_spec m live p sni : rel m live -> dispatch m p sni = spec_dispatch live p sni.
Proof.
  intros [Hwf Hf Hp]. specialize (Hp p). unfold dispatch, spec_dispatch.
  destruct (groups m !! p) as [g|] eqn:Hl; simpl in Hp; rewrite Hp.
  2: { unfold members_for_table. rewrite map_to_list_empty. by destruct sni as [h|]; simpl;
       [destruct (wildcard_for _)|]. }
  pose proof (Hf p g Hl) as Hg. unfold fresh, rebuild_watches in Hg.
  destruct (from_members _) as [t|e] eqn:Ht; [|done]. destruct g as [gp ms pub]. simpl in *.
  injection Hg as <-. simpl. rewrite (lookup_represents _ _ sni Ht).
  destruct (spec_lookup _ sni) as [i k|] eqn:Hs; [|done].
  apply spec_lookup_member in Hs. rewrite lookup_fmap.
  unfold members_for_table in Hs. rewrite <- list_fmap_compose in Hs.
  apply list_elem_of_fmap in Hs as ([j x] & -> & Hx). apply elem_of_map_to_list in Hx. simpl.
  destruct (wf_member _ Hwf _ _ _ _ Hl Hx) as [-> _]. rewrite Hx. simpl.
  rewrite <- Hp in Hx. apply on_port_Some in Hx as [-> _]. done.
Qed.

(** ** Examples *)

Definition ex_rule (i : Z) (pat : option (list Z)) : ClientRule :=
  mkRule i (PortRange.PortRange.mkPortRange 443 443) (Target.Target.Ip (IpAddr.V4 (IpAddr.mkIpv4 10 0 0 1)))
    (PortRange.PortRange.mkPortRange 8443 8443) false [] pat None None None None None.

Definition ex_stats : RuleStats := mkStats 0 1 2 3.

Definition ex_push (i : Z) (pat : string) : Op := Push (ex_rule i (Some (lit pat))) ex_stats true.

(** ** Theorems *)

(** The groups and the reverse index always agree: after any sequence of
    pushes, removals and shutdowns, failed ones included, a rule is indexed
    under a port exactly when it is a member of that port's group, no group is
    empty, and members carry their own id and port. *)
Theorem port_group_index ops : wf (run new ops).2.
Proof. apply pg_run_wf, wf_new. Qed.

(** C14. Port groups implement one map of live rules.  As long as no push
    repeats a pattern its port already has, every operation returns what the
    map would, no removal of a live rule fails, and each port answers every
    server name with the slot of exactly the live rule the routing rules
    select. *)
Theorem port_group_refines ops port sni : clean ∅ ops ->
  (run new ops).1 = (spec_run ∅ ops).1 /\
  dispatch (run new ops).2 port sni = spec_dispatch (spec_run ∅ ops).2 port sni.
Proof.
  intros Hc. destruct (sim_run ops _ _ rel_new Hc) as [Hr Hrel].
  split; [done|by apply dispatch_spec].
Qed.

Lemma port_group_refines_witness :
  let ops := [ex_push 1 "a.example"; ex_push 2 "*.example"; Remove 1] in
  clean ∅ ops /\
  dispatch (run new ops).2 443 (Some (lit "A.example")) =
    Some (slot_of (member_of (ex_rule 2 (Some (lit "*.example"))) ex_stats)).
Proof.
  intros ops. assert (Hc : clean ∅ ops).
  { split; [|split; [|done]]; intros y Hy; vm_compute in Hy.
    - by apply elem_of_nil in Hy.
    - apply list_elem_of_singleton in Hy as ->. vm_compute. discriminate. }
  split; [done|]. rewrite (proj2 (port_group_refines ops 443 (Some (lit "A.example")) Hc)).
  reflexivity.
Defined.

(** A refused push is not undone.  A rule refused because the port already
    has its pattern stays a member of the group.  While it is there no rule of
    the port can be removed: the removal fails and the port keeps sending the
    removed rule its traffic.  When the rule it clashed with goes, the refused
    rule starts to receive traffic. *)
Theorem refused_push_poisons_group :
  (let (rs, m) := run new [ex_push 1 "a.example"; ex_push 3 "b.example"; ex_push 2 "a.example";
                           Remove 3] in
   rs = [Ok tt; Ok tt; Err ModeChangeUnsupported; Err ModeChangeUnsupported] /\
   rule_to_port m !! 3 = None /\ rule_to_port m !! 2 = Some 443 /\
   slot_rule_id <$> dispatch m 443 (Some (lit "b.example")) = Some 3) /\
  (let (rs, m) := run new [ex_push 1 "a.example"; ex_push 2 "a.example"; Remove 1] in
   rs = [Ok tt; Err ModeChangeUnsupported; Ok tt] /\
   slot_rule_id <$> dispatch m 443 (Some (lit "a.example")) = Some 2).
Proof. vm_compute. done. Qed.

End PortGroups.
