(* ===== verification/Stats.v ===== *)
(** * Traffic counters

    [crates/portunus-forwarder/src/forwarder/stats.rs] (the counters of a rule
    and the live byte sink of a connection) and
    [crates/portunus-forwarder/src/forwarder/rate_limit/stats.rs] (the reject
    and throttle accumulator).

    Counters are atomics that wrap at their width.  Each method is a sequence
    of relaxed increments that commute, so a history of calls is a list in any
    order the increments took effect. *)

From S2P Require Import Prelude PortRange RateLimit RateScope.
Import RateLimit.RateLimit.

Local Open Scope Z_scope.

Module Stats.

Record PerPortCounters : Type := mkPort {
  p_bytes_in : Z;
  p_bytes_out : Z;
  p_active : Z;
  p_datagrams_in : Z;
  p_datagrams_out : Z;
}.

Definition port_zero : PerPortCounters := mkPort 0 0 0 0 0.

(** [RuleStats]; the error and SNI counters are separate atomics.  [per_port]
    is the [BTreeMap] as the list of its entries in key order. *)
Record RuleStats : Type := mkStats {
  bytes_in : Z;
  bytes_out : Z;
  active_connections : Z;
  connections_total : Z;
  dns_failures : Z;
  datagrams_in : Z;
  datagrams_out : Z;
  active_flows : Z;
  flows_dropped_overflow : Z;
  per_port : list (Z * PerPortCounters);
}.

Definition for_range (r : PortRange.PortRange) : RuleStats :=
  mkStats 0 0 0 0 0 0 0 0 0 ((fun p => (p, port_zero)) <$> PortRange.iter r).

(** [per_port.get(&port)] followed by updates of the slot. *)
Definition at_port (port : Z) (f : PerPortCounters -> PerPortCounters)
  (l : list (Z * PerPortCounters)) : list (Z * PerPortCounters) :=
  (fun kv => if kv.1 =? port then (kv.1, f kv.2) else kv) <$> l.

Definition port_add_in (n : Z) (c : PerPortCounters) : PerPortCounters :=
  mkPort (wrap_u64 (p_bytes_in c + n)) (p_bytes_out c) (p_active c) (p_datagrams_in c)
    (p_datagrams_out c).

Definition port_add_out (n : Z) (c : PerPortCounters) : PerPortCounters :=
  mkPort (p_bytes_in c) (wrap_u64 (p_bytes_out c + n)) (p_active c) (p_datagrams_in c)
    (p_datagrams_out c).

Definition port_add_active (n : Z) (c : PerPortCounters) : PerPortCounters :=
  mkPort (p_bytes_in c) (p_bytes_out c) (wrap_u32 (p_active c + n)) (p_datagrams_in c)
    (p_datagrams_out c).

Definition port_datagram_in (n : Z) (c : PerPortCounters) : PerPortCounters :=
  mkPort (wrap_u64 (p_bytes_in c + n)) (p_bytes_out c) (p_active c)
    (wrap_u64 (p_datagrams_in c + 1)) (p_datagrams_out c).

Definition port_datagram_out (n : Z) (c : PerPortCounters) : PerPortCounters :=
  mkPort (p_bytes_in c) (wrap_u64 (p_bytes_out c + n)) (p_active c) (p_datagrams_in c)
    (wrap_u64 (p_datagrams_out c + 1)).

Definition inc_datagram_in (s : RuleStats) (port n : Z) : RuleStats :=
  mkStats (wrap_u64 (bytes_in s + n)) (bytes_out s) (active_connections s) (connections_total s)
    (dns_failures s) (wrap_u64 (datagrams_in s + 1)) (datagrams_out s) (active_flows s)
    (flows_dropped_overflow s) (at_port port (port_datagram_in n) (per_port s)).

Definition inc_datagram_out (s : RuleStats) (port n : Z) : RuleStats :=
  mkStats (bytes_in s) (wrap_u64 (bytes_out s + n)) (active_connections s) (connections_total s)
    (dns_failures s) (datagrams_in s) (wrap_u64 (datagrams_out s + 1)) (active_flows s)
    (flows_dropped_overflow s) (at_port port (port_datagram_out n) (per_port s)).

Definition set_active_flows (s : RuleStats) (n : Z) : RuleStats :=
  mkStats (bytes_in s) (bytes_out s) (active_connections s) (connections_total s) (dns_failures s)
    (datagrams_in s) (datagrams_out s) n (flows_dropped_overflow s) (per_port s).

Definition inc_flow_dropped_overflow (s : RuleStats) : RuleStats :=
  mkStats (bytes_in s) (bytes_out s) (active_connections s) (connections_total s) (dns_failures s)
    (datagrams_in s) (datagrams_out s) (active_flows s) (wrap_u64 (flows_dropped_overflow s + 1))
    (per_port s).

Definition inc_connection (s : RuleStats) : RuleStats :=
  mkStats (bytes_in s) (bytes_out s) (active_connections s) (wrap_u64 (connections_total s + 1))
    (dns_failures s) (datagrams_in s) (datagrams_out s) (active_flows s) (flows_dropped_overflow s)
    (per_port s).

Definition inc_dns_failure (s : RuleStats) : RuleStats :=
  mkStats (bytes_in s) (bytes_out s) (active_connections s) (connections_total s)
    (wrap_u64 (dns_failures s + 1)) (datagrams_in s) (datagrams_out s) (active_flows s)
    (flows_dropped_overflow s) (per_port s).

Definition record_in (s : RuleStats) (port n : Z) : RuleStats :=
  mkStats (wrap_u64 (bytes_in s + n)) (bytes_out s) (active_connections s) (connections_total s)
    (dns_failures s) (datagrams_in s) (datagrams_out s) (active_flows s) (flows_dropped_overflow s)
    (at_port port (port_add_in n) (per_port s)).

Definition record_out (s : RuleStats) (port n : Z) : RuleStats :=
  mkStats (bytes_in s) (wrap_u64 (bytes_out s + n)) (active_connections s) (connections_total s)
    (dns_failures s) (datagrams_in s) (datagrams_out s) (active_flows s) (flows_dropped_overflow s)
    (at_port port (port_add_out n) (per_port s)).

Definition add_active (s : RuleStats) (port d : Z) : RuleStats :=
  mkStats (bytes_in s) (bytes_out s) (wrap_u32 (active_connections s + d)) (connections_total s)
    (dns_failures s) (datagrams_in s) (datagrams_out s) (active_flows s) (flows_dropped_overflow s)
    (at_port port (port_add_active d) (per_port s)).

Definition inc_active (s : RuleStats) (port : Z) : RuleStats := add_active s port 1.
Definition dec_active (s : RuleStats) (port : Z) : RuleStats := add_active s port (-1).

Definition snapshot (s : RuleStats) : Z * Z * Z := (bytes_in s, bytes_out s, active_connections s).

Definition snapshot_per_port_with_udp (s : RuleStats) : list (Z * Z * Z * Z * Z * Z) :=
  (fun kv => (kv.1, p_bytes_in kv.2, p_bytes_out kv.2, p_active kv.2, p_datagrams_in kv.2,
              p_datagrams_out kv.2)) <$> per_port s.

(** ** The live sink of a connection *)

Record LiveBytesSink : Type := mkSink {
  sink_port : Z;
  recorded_in : Z;
  recorded_out : Z;
}.

Definition sink_new (port : Z) : LiveBytesSink := mkSink port 0 0.

Definition sink_record_in (k : LiveBytesSink) (s : RuleStats) (n : Z) : LiveBytesSink * RuleStats :=
  (mkSink (sink_port k) (wrap_u64 (recorded_in k + n)) (recorded_out k), record_in s (sink_port k) n).

Definition sink_record_out (k : LiveBytesSink) (s : RuleStats) (n : Z) : LiveBytesSink * RuleStats :=
  (mkSink (sink_port k) (recorded_in k) (wrap_u64 (recorded_out k + n)), record_out s (sink_port k) n).

Definition record_remaining (k : LiveBytesSink) (s : RuleStats) (bin bout : Z) : RuleStats :=
  record_out (record_in s (sink_port k) (sat_sub_u64 bin (recorded_in k)))
    (sink_port k) (sat_sub_u64 bout (recorded_out k)).

(** ** Histories *)

Inductive Op : Type :=
| DatagramIn (port n : Z) | DatagramOut (port n : Z)
| SetFlows (n : Z) | DropFlow | Connection | DnsFailure
| RecordIn (port n : Z) | RecordOut (port n : Z)
| IncActive (port : Z) | DecActive (port : Z).

Definition exec (s : RuleStats) (op : Op) : RuleStats :=
  match op with
  | DatagramIn p n => inc_datagram_in s p n
  | DatagramOut p n => inc_datagram_out s p n
  | SetFlows n => set_active_flows s n
  | DropFlow => inc_flow_dropped_overflow s
  | Connection => inc_connection s
  | DnsFailure => inc_dns_failure s
  | RecordIn p n => record_in s p n
  | RecordOut p n => record_out s p n
  | IncActive p => inc_active s p
  | DecActive p => dec_active s p
  end.

Definition op_port (op : Op) : option Z :=
  match op with
  | DatagramIn p _ | DatagramOut p _ | RecordIn p _ | RecordOut p _ | IncActive p | DecActive p =>
    Some p
  | _ => None
  end.

Definition d_in (op : Op) : Z := match op with DatagramIn _ n | RecordIn _ n => n | _ => 0 end.
Definition d_out (op : Op) : Z := match op with DatagramOut _ n | RecordOut _ n => n | _ => 0 end.
Definition d_active (op : Op) : Z :=
  match op with IncActive _ => 1 | DecActive _ => -1 | _ => 0 end.
Definition d_dgin (op : Op) : Z := match op with DatagramIn _ _ => 1 | _ => 0 end.
Definition d_dgout (op : Op) : Z := match op with DatagramOut _ _ => 1 | _ => 0 end.

(** The part of a history that names a port. *)
Definition at_ops (port : Z) (ops : list Op) : list Op :=
  filter (fun op => op_port op = Some port) ops.

(** The slot a history leaves for a port. *)
Definition slot_of (ops : list Op) (port : Z) : PerPortCounters :=
  let l := at_ops port ops in
  mkPort (wrap_u64 (sum_of d_in l)) (wrap_u64 (sum_of d_out l)) (wrap_u32 (sum_of d_active l))
    (wrap_u64 (sum_of d_dgin l)) (wrap_u64 (sum_of d_dgout l)).

(** ** Lemmas *)

Lemma at_ops_snoc p ops op :
  at_ops p (ops ++ [op]) = at_ops p ops ++ (if decide (op_port op = Some p) then [op] else []).
Proof. unfold at_ops. by rewrite filter_app. Qed.

(** The slots of a range all follow their own part of the history. *)
Lemma per_port_at ps ops op port f : op_port op = Some port ->
  f (slot_of ops port) = slot_of (ops ++ [op]) port ->
  at_port port f ((fun p => (p, slot_of ops p)) <$> ps) =
  (fun p => (p, slot_of (ops ++ [op]) p)) <$> ps.
Proof.
  intros Ho Hf. unfold at_port. rewrite <- list_fmap_compose. apply list_fmap_ext. intros i p _.
  simpl. destruct (Z.eqb_spec p port) as [->|Hne]; [by rewrite Hf|].
  unfold slot_of. rewrite at_ops_snoc, decide_False, app_nil_r by congruence. done.
Qed.

Lemma per_port_other (ps : list Z) ops op : op_port op = None ->
  (fun p => (p, slot_of ops p)) <$> ps = (fun p => (p, slot_of (ops ++ [op]) p)) <$> ps.
Proof.
  intros Ho. apply list_fmap_ext. intros i p _. unfold slot_of.
  by rewrite at_ops_snoc, decide_False, app_nil_r by congruence.
Qed.

(** The counters a history leaves. *)
Record state_of (r : PortRange.PortRange) (ops : list Op) (s : RuleStats) : Prop := {
  st_in : bytes_in s = wrap_u64 (sum_of d_in ops);
  st_out : bytes_out s = wrap_u64 (sum_of d_out ops);
  st_active : active_connections s = wrap_u32 (sum_of d_active ops);
  st_dgin : datagrams_in s = wrap_u64 (sum_of d_dgin ops);
  st_dgout : datagrams_out s = wrap_u64 (sum_of d_dgout ops);
  st_ports : per_port s = (fun p => (p, slot_of ops p)) <$> PortRange.iter r;
}.

Ltac stats_arith :=
  rewrite ?sum_of_app, ?wrap_u64_add, ?wrap_u32_add; simpl; rewrite ?Z.add_0_r; done.

Lemma exec_state r ops op s : state_of r ops s -> state_of r (ops ++ [op]) (exec s op).
Proof.
  intros [Hi Ho Ha Hdi Hdo Hp]. destruct op as [p n|p n|n| | | |p n|p n|p|p]; split; simpl;
    rewrite ?Hi, ?Ho, ?Ha, ?Hdi, ?Hdo, ?Hp; try stats_arith.
  all: try by apply per_port_other.
  all: apply per_port_at; [done|]; unfold slot_of;
    rewrite at_ops_snoc, decide_True by done;
    unfold port_datagram_in, port_datagram_out, port_add_in, port_add_out, port_add_active;
    simpl; f_equal; stats_arith.
Qed.

Lemma run_state r ops : state_of r ops (foldl exec (for_range r) ops).
Proof.
  induction ops as [|op ops IH] using rev_ind; [by split|].
  rewrite foldl_app. simpl. by apply exec_state.
Qed.

(** Splitting a history by the ports of a range. *)
Lemma sum_of_point (q n : Z) ps : NoDup ps ->
  sum_of (fun p => if p =? q then n else 0) ps = if bool_decide (q ∈ ps) then n else 0.
Proof.
  induction 1 as [|p ps Hni _ IH]; simpl; [done|]. rewrite IH.
  destruct (Z.eqb_spec p q) as [->|Hne].
  - rewrite (bool_decide_eq_false_2 (q ∈ ps)) by done. rewrite bool_decide_eq_true_2 by set_solver. lia.
  - case_bool_decide; case_bool_decide; set_solver.
Qed.

Lemma sum_by_port (d : Op -> Z) ps ops : NoDup ps ->
  (forall op, op_port op = None -> d op = 0) ->
  Forall (fun op => from_option (fun p => p ∈ ps) True (op_port op)) ops ->
  sum_of d ops = sum_of (fun p => sum_of d (at_ops p ops)) ps.
Proof.
  intros Hn Hd. induction 1 as [|op ops Hop _ IH]; simpl.
  { by induction Hn; simpl. }
  rewrite IH, (sum_of_ext (fun p => sum_of d (at_ops p (op :: ops)))
    (fun p => (if p =? from_option id 0 (op_port op) then d op else 0) + sum_of d (at_ops p ops))).
  - rewrite sum_of_add, sum_of_point by done. destruct (op_port op) as [q|] eqn:Ho; simpl in *.
    + by rewrite bool_decide_eq_true_2.
    + rewrite (Hd op) by done. by destruct (bool_decide _).
  - intros p. unfold at_ops at 1. rewrite filter_cons.
    destruct (decide (op_port op = Some p)) as [Ho|Hno].
    + rewrite Ho. simpl. by rewrite Z.eqb_refl.
    + destruct (op_port op) as [q|] eqn:Ho; cbn [from_option id].
      * destruct (Z.eqb_spec p q) as [->|Hne]; done.
      * rewrite (Hd op) by done. by destruct (p =? 0).
Qed.

Lemma wrap_sum {A} w (f g : A -> Z) l : 0 < w -> (forall x, g x = f x mod w) ->
  sum_of g l mod w = sum_of f l mod w.
Proof.
  intros Hw Hfg. induction l as [|x l IH]; simpl; [done|].
  rewrite Hfg, Zplus_mod_idemp_l, <- Zplus_mod_idemp_r, IH, Zplus_mod_idemp_r. done.
Qed.

Lemma wrap_ports w (d : Op -> Z) (sel : PerPortCounters -> Z) r ops :
  0 < w -> (forall l p, sel (slot_of l p) = sum_of d (at_ops p l) mod w) ->
  (forall op, op_port op = None -> d op = 0) ->
  Forall (fun op => from_option (fun p => p ∈ PortRange.iter r) True (op_port op)) ops ->
  sum_of d ops mod w =
  sum_of (fun kv : Z * PerPortCounters => sel kv.2)
    ((fun p => (p, slot_of ops p)) <$> PortRange.iter r) mod w.
Proof.
  intros Hw Hsel Hd Hops. rewrite (sum_by_port d (PortRange.iter r) ops) by (auto; apply NoDup_seqZ).
  rewrite <- (wrap_sum w _ (fun p => sel (slot_of ops p))) by auto.
  by rewrite sum_of_fmap.
Qed.

(** ** The accumulator of rejects and throttling *)

Inductive RateLimitRejectReason : Type :=
| Unspecified | SConnConcurrent | SConnRate | SUdpFlowRate | SOwnerConcurrent | SOwnerConnRate
| SOwnerUdpFlowRate.

Definition reason_index (r : RejectReason) : nat :=
  match r with
  | ConnConcurrent => 0 | ConnRate => 1 | UdpFlowRate => 2
  | OwnerConcurrent => 3 | OwnerConnRate => 4 | OwnerUdpFlowRate => 5
  end.

(** [None] is the [unreachable!] arm. *)
Definition reason_from_index (i : nat) : option RejectReason :=
  match i with
  | 0%nat => Some ConnConcurrent | 1%nat => Some ConnRate | 2%nat => Some UdpFlowRate
  | 3%nat => Some OwnerConcurrent | 4%nat => Some OwnerConnRate | 5%nat => Some OwnerUdpFlowRate
  | _ => None
  end.

Definition reason_to_snapshot (r : RejectReason) : RateLimitRejectReason :=
  match r with
  | ConnConcurrent => SConnConcurrent | ConnRate => SConnRate | UdpFlowRate => SUdpFlowRate
  | OwnerConcurrent => SOwnerConcurrent | OwnerConnRate => SOwnerConnRate
  | OwnerUdpFlowRate => SOwnerUdpFlowRate
  end.

Definition as_index (r : RateLimitRejectReason) : Z :=
  match r with
  | Unspecified => 0 | SConnConcurrent => 1 | SConnRate => 2 | SUdpFlowRate => 3
  | SOwnerConcurrent => 4 | SOwnerConnRate => 5 | SOwnerUdpFlowRate => 6
  end.

Record Accumulator : Type := mkAcc {
  reject_total_by_reason : list Z;
  throttle_micros_in : Z;
  throttle_micros_out : Z;
  acc_active : Z;
}.

Definition acc_new : Accumulator := mkAcc (replicate 6 0) 0 0 0.

Definition record_reject (a : Accumulator) (r : RejectReason) : Accumulator :=
  mkAcc (alter (fun n => wrap_u64 (n + 1)) (reason_index r) (reject_total_by_reason a))
    (throttle_micros_in a) (throttle_micros_out a) (acc_active a).

Definition record_throttle (a : Accumulator) (d : RateScope.BandwidthDirection) (micros : Z) : Accumulator :=
  match d with
  | RateScope.In => mkAcc (reject_total_by_reason a) (wrap_u64 (throttle_micros_in a + micros))
            (throttle_micros_out a) (acc_active a)
  | RateScope.Out => mkAcc (reject_total_by_reason a) (throttle_micros_in a)
             (wrap_u64 (throttle_micros_out a + micros)) (acc_active a)
  end.

Definition set_active_connections (a : Accumulator) (n : Z) : Accumulator :=
  mkAcc (reject_total_by_reason a) (throttle_micros_in a) (throttle_micros_out a) n.

Record RateLimitStatsSnapshot : Type := mkSnap {
  reject_total : list (RateLimitRejectReason * Z);
  snap_throttle_in : Z;
  snap_throttle_out : Z;
  snap_active : Z;
}.

(** The loop of [drain] from slot [i]. *)
Fixpoint drain_slots (i : nat) (slots : list Z) : Outcome (list (RateLimitRejectReason * Z)) :=
  match slots with
  | [] => Returns []
  | total :: slots =>
    if total =? 0 then drain_slots (S i) slots
    else
      match reason_from_index i with
      | None => Panics
      | Some r =>
        match drain_slots (S i) slots with
        | Panics => Panics
        | Returns l => Returns ((reason_to_snapshot r, total) :: l)
        end
      end
  end.

Definition drain (a : Accumulator) : Outcome (option RateLimitStatsSnapshot) :=
  match drain_slots 0 (reject_total_by_reason a) with
  | Panics => Panics
  | Returns rejects =>
    if bool_decide (rejects = []) && (throttle_micros_in a =? 0) && (throttle_micros_out a =? 0) &&
       (acc_active a =? 0)
    then Returns None
    else Returns (Some (mkSnap rejects (throttle_micros_in a) (throttle_micros_out a)
                          (Z.min (acc_active a) u32_max)))
  end.

Inductive AccOp : Type :=
| Reject (r : RejectReason) | Throttle (d : RateScope.BandwidthDirection) (micros : Z) | SetActive (n : Z).

Definition acc_exec (a : Accumulator) (op : AccOp) : Accumulator :=
  match op with
  | Reject r => record_reject a r
  | Throttle d n => record_throttle a d n
  | SetActive n => set_active_connections a n
  end.

Definition all_reasons : list RejectReason :=
  [ConnConcurrent; ConnRate; UdpFlowRate; OwnerConcurrent; OwnerConnRate; OwnerUdpFlowRate].

Definition rejects_of (r : RejectReason) (op : AccOp) : Z :=
  match op with Reject r' => if bool_decide (r' = r) then 1 else 0 | _ => 0 end.

Definition throttle_of (dir : RateScope.BandwidthDirection) (op : AccOp) : Z :=
  match op, dir with
  | Throttle RateScope.In n, RateScope.In => n | Throttle RateScope.Out n, RateScope.Out => n | _, _ => 0
  end.

Definition last_active (ops : list AccOp) : Z :=
  foldl (fun a op => match op with SetActive n => n | _ => a end) 0 ops.

Lemma acc_run ops :
  let a := foldl acc_exec acc_new ops in
  reject_total_by_reason a = (fun r => wrap_u64 (sum_of (rejects_of r) ops)) <$> all_reasons /\
  throttle_micros_in a = wrap_u64 (sum_of (throttle_of RateScope.In) ops) /\
  throttle_micros_out a = wrap_u64 (sum_of (throttle_of RateScope.Out) ops) /\
  acc_active a = last_active ops.
Proof.
  unfold last_active. induction ops as [|op ops (Hr & Hi & Ho & Ha)] using rev_ind; [done|].
  rewrite !foldl_app. simpl. destruct op as [r|[] n|n]; simpl; rewrite ?Hr, ?Hi, ?Ho, ?Ha;
    split_and!; try stats_arith.
  destruct r; simpl; unfold alter, list_alter; simpl; rewrite !sum_of_app; simpl;
    rewrite ?wrap_u64_add, ?Z.add_0_r; done.
Qed.

(** ** The sink of a connection *)

Lemma wrap_u64_twice a : wrap_u64 (wrap_u64 a) = wrap_u64 a.
Proof. apply wrap_u64_id, wrap_u64_in. Qed.

(** One chunk the copy flushes into the sink. *)
Definition sink_step (ks : LiveBytesSink * RuleStats) (c : RateScope.BandwidthDirection * Z)
  : LiveBytesSink * RuleStats :=
  match c.1 with
  | RateScope.In => sink_record_in ks.1 ks.2 c.2
  | RateScope.Out => sink_record_out ks.1 ks.2 c.2
  end.

Definition flushed (d : RateScope.BandwidthDirection) (chunks : list (RateScope.BandwidthDirection * Z))
  : Z :=
  sum_of (fun c => match c.1, d with
                   | RateScope.In, RateScope.In | RateScope.Out, RateScope.Out => c.2
                   | _, _ => 0
                   end) chunks.

Lemma flushed_nonneg d chunks : Forall (fun c => 0 <= c.2) chunks -> 0 <= flushed d chunks.
Proof.
  intros H. apply sum_of_nonneg_Forall. eapply Forall_impl; [exact H|].
  intros [[] n] Hn; destruct d; simpl in *; lia.
Qed.

Lemma sink_run s port chunks :
  let (k, s') := foldl sink_step (sink_new port, s) chunks in
  recorded_in k = wrap_u64 (flushed RateScope.In chunks) /\
  recorded_out k = wrap_u64 (flushed RateScope.Out chunks) /\
  wrap_u64 (bytes_in s') = wrap_u64 (bytes_in s + flushed RateScope.In chunks) /\
  wrap_u64 (bytes_out s') = wrap_u64 (bytes_out s + flushed RateScope.Out chunks).
Proof.
  unfold flushed. induction chunks as [|c chunks IH] using rev_ind.
  { simpl. by rewrite !Z.add_0_r. }
  rewrite foldl_app. simpl. destruct (foldl _ _ _) as [k s'], IH as (Hki & Hko & Hsi & Hso).
  unfold sink_step. destruct c as [[] n]; simpl; rewrite ?sum_of_app; simpl;
    rewrite ?Hki, ?Hko, ?wrap_u64_add, ?Z.add_0_r, ?Z.add_assoc; split_and!; try done.
  - by rewrite wrap_u64_twice, <- (wrap_u64_add (bytes_in s')), Hsi, wrap_u64_add.
  - by rewrite wrap_u64_twice, <- (wrap_u64_add (bytes_out s')), Hso, wrap_u64_add.
Qed.

Lemma books_once s port chunks bin bout :
  Forall (fun c => 0 <= c.2) chunks ->
  flushed RateScope.In chunks <= bin <= u64_max -> flushed RateScope.Out chunks <= bout <= u64_max ->
  let (k, s') := foldl sink_step (sink_new port, s) chunks in
  bytes_in (record_remaining k s' bin bout) = wrap_u64 (bytes_in s + bin) /\
  bytes_out (record_remaining k s' bin bout) = wrap_u64 (bytes_out s + bout).
Proof.
  intros Hc Hin Hout. pose proof (sink_run s port chunks) as Hrun.
  destruct (foldl _ _ _) as [k s']. destruct Hrun as (Hki & Hko & Hsi & Hso).
  pose proof (flushed_nonneg RateScope.In chunks Hc). pose proof (flushed_nonneg RateScope.Out chunks Hc).
  unfold record_remaining. simpl. rewrite Hki, Hko.
  rewrite <- (wrap_u64_add (bytes_in s')), <- (wrap_u64_add (bytes_out s')), Hsi, Hso, !wrap_u64_add.
  rewrite !(wrap_u64_id (flushed _ _)) by (unfold_ints; lia). unfold sat_sub_u64.
  split; f_equal; lia.
Qed.

(** ** Examples *)

Definition ex_range : PortRange.PortRange := PortRange.mkPortRange 8000 8002.

Definition ex_ops : list Op :=
  [IncActive 8000; RecordIn 8000 10; DatagramOut 8002 5; RecordIn 8001 u64_max; DecActive 8000].

(** ** Theorems *)

(** The counters of a rule are exact: after any history of calls on the
    ports of its range, each aggregate is the total of the history modulo its
    width, and is the sum of the per-port slots, so the two views never
    disagree; the gauge of active connections is what the unmatched
    connections add. *)
Theorem rule_stats_exact r ops :
  Forall (fun op => from_option (fun p => p ∈ PortRange.iter r) True (op_port op)) ops ->
  let s := foldl exec (for_range r) ops in
  snapshot s = (wrap_u64 (sum_of d_in ops), wrap_u64 (sum_of d_out ops),
                wrap_u32 (sum_of d_active ops)) /\
  bytes_in s = wrap_u64 (sum_of (fun kv => p_bytes_in kv.2) (per_port s)) /\
  bytes_out s = wrap_u64 (sum_of (fun kv => p_bytes_out kv.2) (per_port s)) /\
  active_connections s = wrap_u32 (sum_of (fun kv => p_active kv.2) (per_port s)) /\
  datagrams_in s = wrap_u64 (sum_of (fun kv => p_datagrams_in kv.2) (per_port s)) /\
  datagrams_out s = wrap_u64 (sum_of (fun kv => p_datagrams_out kv.2) (per_port s)).
Proof.
  intros Hops s. pose proof (run_state r ops) as [Hi Ho Ha Hdi Hdo Hp]. fold s in Hi, Ho, Ha, Hdi, Hdo, Hp.
  unfold snapshot. rewrite Hi, Ho, Ha, Hdi, Hdo, Hp. split; [done|].
  unfold wrap_u64, wrap_u32. split_and!; (apply wrap_ports; [done|done| |done]); by intros [].
Qed.

Lemma rule_stats_exact_witness :
  Forall (fun op => from_option (fun p => p ∈ PortRange.iter ex_range) True (op_port op)) ex_ops /\
  snapshot (foldl exec (for_range ex_range) ex_ops) = (9, 5, 0).
Proof.
  assert (H : Forall (fun op => from_option (fun p => p ∈ PortRange.iter ex_range) True (op_port op))
                ex_ops).
  { repeat constructor; simpl; apply PortRange.elem_of_iter; vm_compute; split; congruence. }
  split; [exact H|]. rewrite (proj1 (rule_stats_exact ex_range ex_ops H)). reflexivity.
Defined.

(** The drain of an accumulator is faithful and never panics: it lists
    exactly the reasons recorded, in order, each with its count, with the
    throttle times and the last gauge, and is empty exactly when there is
    nothing to report. *)
Theorem drain_exact ops :
  let rejects := omap (fun r => let n := wrap_u64 (sum_of (rejects_of r) ops) in
                                if n =? 0 then None else Some (reason_to_snapshot r, n)) all_reasons in
  let tin := wrap_u64 (sum_of (throttle_of RateScope.In) ops) in
  let tout := wrap_u64 (sum_of (throttle_of RateScope.Out) ops) in
  drain (foldl acc_exec acc_new ops) =
  Returns (if bool_decide (rejects = []) && (tin =? 0) && (tout =? 0) && (last_active ops =? 0)
           then None
           else Some (mkSnap rejects tin tout (Z.min (last_active ops) u32_max))).
Proof.
  intros rejects tin tout. destruct (acc_run ops) as (Hr & Hi & Ho & Ha). unfold drain.
  rewrite Hr, Hi, Ho, Ha. fold tin tout.
  assert (drain_slots 0 ((fun r => wrap_u64 (sum_of (rejects_of r) ops)) <$> all_reasons) =
          Returns rejects) as ->.
  { unfold rejects, all_reasons. simpl.
    repeat match goal with |- context [?x =? 0] => destruct (x =? 0); simpl end; reflexivity. }
  by destruct (bool_decide _ && _ && _ && _).
Qed.

(** A connection's bytes are booked once: whatever chunks the live sink
    flushed while the copy ran, booking the remainder at the end leaves the
    rule's totals larger by exactly the connection's totals. *)
Theorem live_sink_books_once s port chunks bin bout :
  Forall (fun c => 0 <= c.2) chunks ->
  flushed RateScope.In chunks <= bin <= u64_max -> flushed RateScope.Out chunks <= bout <= u64_max ->
  let (k, s') := foldl sink_step (sink_new port, s) chunks in
  bytes_in (record_remaining k s' bin bout) = wrap_u64 (bytes_in s + bin) /\
  bytes_out (record_remaining k s' bin bout) = wrap_u64 (bytes_out s + bout).
Proof. apply books_once. Qed.

Lemma live_sink_books_once_witness :
  let (k, s') := foldl sink_step (sink_new 8000, for_range ex_range)
                   [(RateScope.In, 5); (RateScope.Out, 7); (RateScope.In, 3)] in
  bytes_in (record_remaining k s' 10 7) = 10 /\ bytes_out (record_remaining k s' 10 7) = 7.
Proof.
  apply (live_sink_books_once (for_range ex_range) 8000
    [(RateScope.In, 5); (RateScope.Out, 7); (RateScope.In, 3)] 10 7);
    [repeat constructor; simpl; lia|vm_compute; split; congruence|vm_compute; split; congruence].
Defined.

End Stats.
