(* ===== verification/Splice.v ===== *)
(** * The splice fast path

    [crates/portunus-forwarder/src/forwarder/splice.rs]: which connections take
    it, one direction of the loop [src -> pipe -> dst], the two directions of a
    connection, and the pool of pipes that connections of a worker thread share.

    A direction is a state machine whose steps are the system calls of the
    loop.  What the kernel answers is an argument of the step; a step is
    refused ([None]) when [splice(2)] cannot give that answer: it moves at most
    the bytes that are there and that were asked for, and returns zero on a
    source only at its end. *)

From S2P Require Import Prelude RateLimit RateScope Quota.

Local Open Scope Z_scope.

Module Splice.

(** ** Eligibility *)

Inductive Protocol : Type := Tcp | Udp.

Record CopyCtx : Type := mkCtx {
  protocol : Protocol;
  has_bandwidth_cap : bool;
  disable_splice : bool;
}.

(** [has_bandwidth_cap] of a limiter handle. *)
Definition handle_has_cap (w : RateScope.World) (snapshot : option nat) : bool :=
  match snapshot ≫= fun lid => RateScope.limiters w !! lid with
  | Some l => RateScope.has_bandwidth_cap l
  | None => false
  end.

Definition build (w : RateScope.World) (p : Protocol) (rule : option Z)
  (owner : option RateScope.OwnerId) (disable : bool) : CopyCtx :=
  mkCtx p
    (handle_has_cap w (rule ≫= RateScope.get w) || handle_has_cap w (owner ≫= RateScope.get_owner w))
    disable.

Definition eligible (ctx : CopyCtx) : bool :=
  match protocol ctx with Tcp => negb (disable_splice ctx) && negb (has_bandwidth_cap ctx) | Udp => false end.

(** ** Pipes *)

Record PipePair : Type := mkPipe {
  content : list Z;
  capacity_bytes : nat;
}.

Definition PIPE_POOL_MAX : nat := 16.

(** The pool is a [Vec]: the last pipe released is the first acquired.
    [fresh] is what [pipe2] gives when the pool is empty, or its failure. *)
Definition acquire (pool : list PipePair) (fresh : option nat) : option PipePair * list PipePair :=
  match last pool with
  | Some p => (Some p, removelast pool)
  | None => (mkPipe [] <$> fresh, pool)
  end.

Definition release (pool : list PipePair) (p : PipePair) : list PipePair :=
  if (length pool <? PIPE_POOL_MAX)%nat then pool ++ [p] else pool.

(** ** Errors *)

Inductive Errno : Type := ENOSYS | EINVAL | EPERM | EOPNOTSUPP | OtherErrno (e : Z).

Inductive SpliceError : Type := Unsupported (e : Errno) | Io.

Inductive DirOutcome : Type := Eof | QuotaCutoff.

Definition may_reuse_pipes (a b : DirOutcome) : bool :=
  match a, b with Eof, Eof => true | _, _ => false end.

Definition classify (e : Errno) (moved_any : bool) : SpliceError :=
  if moved_any then Io
  else match e with OtherErrno _ => Io | _ => Unsupported e end.

(** ** One direction *)

(** What a call of [splice_raw], or the wait for readiness after [EAGAIN],
    comes to. *)
Inductive SpliceRet : Type :=
| Moved (n : nat)
| Again (* EAGAIN and the socket became ready, or EINTR *)
| WaitFailed
| Failed (e : Errno).

Inductive PC : Type :=
| AtTop
| Draining (remaining : nat)
| Ended (r : Result DirOutcome SpliceError).

(** The bytes the peer has yet to be read from, the pipe, the bytes delivered,
    the shared counters [bytes_out] and the live sink's, and whether the
    destination is half-closed. *)
Record Dir : Type := mkDir {
  src : list Z;
  pipe : PipePair;
  dst : list Z;
  bytes_out : Z;
  live : Z;
  half_closed : bool;
  pc : PC;
}.

Definition dir_start (stream : list Z) (p : PipePair) : Dir := mkDir stream p [] 0 0 false AtTop.

Definition set_pc (d : Dir) (pc : PC) : Dir :=
  mkDir (src d) (pipe d) (dst d) (bytes_out d) (live d) (half_closed d) pc.

Definition close (d : Dir) (o : DirOutcome) : Dir :=
  mkDir (src d) (pipe d) (dst d) (bytes_out d) (live d) true (Ended (Ok o)).

(** The top of the loop of [splice_dir]: the quota check and the move
    [src -> pipe].  [moved] is the shared [moved_any]. *)
Definition top_step (exhausted moved : bool) (d : Dir) (ev : SpliceRet) : option (Dir * bool) :=
  if exhausted then Some (close d QuotaCutoff, moved)
  else
    match ev with
    | Moved O => if bool_decide (src d = []) then Some (close d Eof, moved) else None
    | Moved n =>
      if (n <=? length (src d))%nat && (n + length (content (pipe d)) <=? capacity_bytes (pipe d))%nat
      then Some (mkDir (drop n (src d))
                   (mkPipe (content (pipe d) ++ take n (src d)) (capacity_bytes (pipe d)))
                   (dst d) (bytes_out d) (live d) (half_closed d) (Draining n), true)
      else None
    | Again => Some (d, moved)
    | WaitFailed => Some (set_pc d (Ended (Err Io)), moved)
    | Failed e => Some (set_pc d (Ended (Err (classify e moved))), moved)
    end.

(** One turn of the loop of [drain_pipe_to], then back to [splice_dir]. *)
Definition drain_step (q : option Quota.QuotaHandle) (remaining : nat) (d : Dir) (ev : SpliceRet)
  : option (Dir * option Quota.QuotaHandle) :=
  match remaining with
  | O => Some (set_pc d AtTop, q)
  | _ =>
    match ev with
    | Moved O => Some (set_pc d (Ended (Err Io)), q)
    | Moved n =>
      if (n <=? remaining)%nat && (n <=? length (content (pipe d)))%nat then
        let d := mkDir (src d) (mkPipe (drop n (content (pipe d))) (capacity_bytes (pipe d)))
                   (dst d ++ take n (content (pipe d)))
                   (wrap_u64 (bytes_out d + Z.of_nat n)) (wrap_u64 (live d + Z.of_nat n))
                   (half_closed d) (Draining (remaining - n)) in
        match q with
        | None => Some (d, None)
        | Some h =>
          match Quota.consume h (to_i64_or_max (Z.of_nat n)) with
          | (h, Quota.Exhausted) => Some (close d QuotaCutoff, Some h)
          | (h, Quota.Granted) => Some (d, Some h)
          end
        end
      else None
    | Again => Some (d, q)
    | WaitFailed | Failed _ => Some (set_pc d (Ended (Err Io)), q)
    end
  end.

Definition dir_step (q : option Quota.QuotaHandle) (moved : bool) (d : Dir) (ev : SpliceRet)
  : option (Dir * bool * option Quota.QuotaHandle) :=
  match pc d with
  | AtTop =>
    match top_step (from_option Quota.exhausted false q) moved d ev with
    | None => None
    | Some (d, moved) => Some (d, moved, q)
    end
  | Draining r =>
    match drain_step q r d ev with
    | None => None
    | Some (d, q) => Some (d, moved, q)
    end
  | Ended _ => None
  end.

(** ** One connection: [copy_bidirectional] *)

Record Conn : Type := mkConn {
  dn_to_up : Dir;
  up_to_dn : Dir;
  moved_any : bool;
  quota : option nat;
  stream_dn : list Z; (* what each peer sends, for the statements *)
  stream_up : list Z;
}.

Definition transferred (c : Conn) : Z * Z := (bytes_out (dn_to_up c), bytes_out (up_to_dn c)).

(** [try_join!]: an error as soon as one direction has one, the outcomes when
    both have ended. *)
Definition joined (c : Conn) : option (Result (DirOutcome * DirOutcome) SpliceError) :=
  match pc (dn_to_up c), pc (up_to_dn c) with
  | Ended (Err e), _ => Some (Err e)
  | _, Ended (Err e) => Some (Err e)
  | Ended (Ok a), Ended (Ok b) => Some (Ok (a, b))
  | _, _ => None
  end.

(** ** The workers

    [pools] are the thread-local pools; a task may end on another worker than
    it began on.  [results] are what finished connections returned, with their
    last state. *)
Record Sys : Type := mkSys {
  pools : gmap nat (list PipePair);
  conns : gmap nat Conn;
  quotas : gmap nat Quota.QuotaHandle;
  results : gmap nat (Conn * Result (Z * Z) SpliceError);
}.

Inductive Ev : Type :=
| Open (c worker : nat) (dn up : list Z) (q : option nat) (fresh1 fresh2 : option nat)
| Step (c : nat) (down : bool) (ev : SpliceRet)
| Finish (c worker : nat)
| Cancel (c : nat)
| SetQuota (q : nat) (h : Quota.QuotaHandle).

Definition pool_of (s : Sys) (w : nat) : list PipePair := default [] (pools s !! w).

Definition open (s : Sys) (c w : nat) (dn up : list Z) (q : option nat) (f1 f2 : option nat) : Sys :=
  let (p1, pool) := acquire (pool_of s w) f1 in
  match p1 with
  | None => mkSys (<[w := pool]> (pools s)) (conns s) (quotas s) (results s)
  | Some p1 =>
    let (p2, pool) := acquire pool f2 in
    match p2 with
    | None => mkSys (<[w := pool]> (pools s)) (conns s) (quotas s) (results s)
    | Some p2 =>
      mkSys (<[w := pool]> (pools s))
        (<[c := mkConn (dir_start dn p1) (dir_start up p2) false q dn up]> (conns s))
        (quotas s) (results s)
    end
  end.

(** The task is polled only until [try_join!] has its result. *)
Definition conn_step (s : Sys) (i : nat) (c : Conn) (down : bool) (ev : SpliceRet) : option Sys :=
  if bool_decide (is_Some (joined c)) then None
  else
    let q := quota c ≫= fun k => quotas s !! k in
    match dir_step q (moved_any c) (if down then dn_to_up c else up_to_dn c) ev with
    | None => None
    | Some (d, moved, q') =>
      let c' := mkConn (if down then d else dn_to_up c) (if down then up_to_dn c else d) moved (quota c)
                  (stream_dn c) (stream_up c) in
      let qs := match quota c, q' with Some k, Some h => <[k := h]> (quotas s) | _, _ => quotas s end in
      Some (mkSys (pools s) (<[i := c']> (conns s)) qs (results s))
    end.

Definition finish (s : Sys) (i w : nat) (c : Conn) : option Sys :=
  match joined c with
  | None => None
  | Some (Err e) =>
    Some (mkSys (pools s) (delete i (conns s)) (quotas s) (<[i := (c, Err e)]> (results s)))
  | Some (Ok (a, b)) =>
    let pool := pool_of s w in
    let pool := if may_reuse_pipes a b
                then release (release pool (pipe (dn_to_up c))) (pipe (up_to_dn c)) else pool in
    Some (mkSys (<[w := pool]> (pools s)) (delete i (conns s)) (quotas s)
            (<[i := (c, Ok (transferred c))]> (results s)))
  end.

Definition step (s : Sys) (ev : Ev) : option Sys :=
  match ev with
  | Open c w dn up q f1 f2 =>
    if bool_decide (conns s !! c = None /\ results s !! c = None)
    then Some (open s c w dn up q f1 f2) else None
  | Step i down ev => conns s !! i ≫= fun c => conn_step s i c down ev
  | Finish i w => conns s !! i ≫= finish s i w
  | Cancel i => Some (mkSys (pools s) (delete i (conns s)) (quotas s) (results s))
  | SetQuota q h => Some (mkSys (pools s) (conns s) (<[q := h]> (quotas s)) (results s))
  end.

Fixpoint run (s : Sys) (evs : list Ev) : option Sys :=
  match evs with
  | [] => Some s
  | ev :: evs => step s ev ≫= fun s => run s evs
  end.

Definition init : Sys := mkSys ∅ ∅ ∅ ∅.

(** ** Invariants *)

(** A direction has its own stream in order: delivered, in the pipe, unread.
    Between reads the pipe is empty; what is being drained is what the pipe
    holds; the counters are the bytes delivered. *)
Record dir_ok (stream : list Z) (moved : bool) (d : Dir) : Prop := {
  ok_stream : dst d ++ content (pipe d) ++ src d = stream;
  ok_count : bytes_out d = wrap_u64 (Z.of_nat (length (dst d)));
  ok_live : live d = bytes_out d;
  ok_moved : moved = false -> src d = stream;
  ok_pc : match pc d with
          | AtTop => content (pipe d) = []
          | Draining r => length (content (pipe d)) = r
          | Ended (Ok Eof) => content (pipe d) = [] /\ src d = []
          | Ended (Err (Unsupported _)) => moved = false
          | Ended _ => True
          end;
}.

Definition conn_ok (c : Conn) : Prop :=
  dir_ok (stream_dn c) (moved_any c) (dn_to_up c) /\ dir_ok (stream_up c) (moved_any c) (up_to_dn c).

Definition pool_ok (pool : list PipePair) : Prop :=
  Forall (fun p => content p = []) pool /\ (length pool <= PIPE_POOL_MAX)%nat.

Record sys_ok (s : Sys) : Prop := {
  sys_pools : forall w pool, pools s !! w = Some pool -> pool_ok pool;
  sys_conns : forall i c, conns s !! i = Some c -> conn_ok c;
  sys_results : forall i c r, results s !! i = Some (c, r) -> conn_ok c /\
    match r with
    | Ok t => t = transferred c /\ exists ab, joined c = Some (Ok ab)
    | Err e => joined c = Some (Err e)
    end;
}.

(** ** Lemmas *)

Lemma dir_start_ok stream p : content p = [] -> dir_ok stream false (dir_start stream p).
Proof. intros Hp. split; simpl; rewrite ?Hp; done. Qed.

Lemma dir_ok_weaken stream d moved : dir_ok stream false d ->
  (forall e, pc d <> Ended (Err (Unsupported e))) -> dir_ok stream moved d.
Proof.
  intros [Hs Hc Hl Hm Hp] Hu. split; try done; [intros _; by apply Hm|].
  destruct (pc d) as [|r|[[]|[e|]]]; try done. by destruct (Hu e).
Qed.

Lemma top_step_ok stream exh moved d ev d' moved' : pc d = AtTop ->
  dir_ok stream moved d -> top_step exh moved d ev = Some (d', moved') ->
  dir_ok stream moved' d' /\ (moved' = moved \/ moved' = true).
Proof.
  intros Hpc [Hs Hc Hl Hm Hp] H. rewrite Hpc in Hp. unfold top_step in H.
  destruct exh; [simplify_eq; by split; [split|left]|].
  destruct ev as [[|n]| | |e]; simplify_eq.
  - case_bool_decide; simplify_eq. by split; [split|left].
  - set (k := S n) in *. case_test_in H; simplify_eq. bool_prop. split; [|by right].
    split; simpl; try done.
    + by rewrite <- (app_assoc (content (pipe d))), (take_drop k (src d)).
    + rewrite Hp. simpl. rewrite length_take. lia.
  - by split; [split; try rewrite Hpc|left].
  - by split; [split|left].
  - split; [|by left]. split; simpl; try done. unfold classify. by destruct moved', e.
Qed.

Lemma drain_step_ok stream moved q r d ev d' q' : pc d = Draining r ->
  dir_ok stream moved d -> drain_step q r d ev = Some (d', q') -> dir_ok stream moved d'.
Proof.
  intros Hpc Hok H. pose proof Hok as [Hs Hc Hl Hm Hp]. rewrite Hpc in Hp. unfold drain_step in H.
  destruct r as [|r]; [injection H as <- <-; split; try done; by apply nil_length_inv|].
  assert (Hsame : forall r, (forall o, r <> Ok o) -> (forall e, r <> Err (Unsupported e)) ->
    dir_ok stream moved (set_pc d (Ended r))).
  { intros [o|[e|]] Ho He; split; try done; [by destruct (Ho o)|by destruct (He e)]. }
  destruct ev as [[|n]| | |e]; try (injection H as <- <-; by (exact Hok || apply Hsame)).
  set (k := S n) in *. case_test_in H; [|done]. bool_prop.
  assert (Hcore : forall pc' hc, (match pc' with
      | Draining m => m = S r - k | Ended (Ok QuotaCutoff) => True | _ => False end)%nat ->
    dir_ok stream moved (mkDir (src d) (mkPipe (drop k (content (pipe d))) (capacity_bytes (pipe d)))
      (dst d ++ take k (content (pipe d))) (wrap_u64 (bytes_out d + Z.of_nat k))
      (wrap_u64 (live d + Z.of_nat k)) hc pc')).
  { intros pc' hc Hpc'. split; simpl; try done.
    - by rewrite <- app_assoc, (app_assoc (take _ _)), take_drop.
    - rewrite Hc, wrap_u64_add, length_app, length_take_le by lia. f_equal. lia.
    - by rewrite Hl.
    - destruct pc' as [|m|[[]|]]; try done. rewrite length_drop. lia. }
  destruct q as [h|]; [|injection H as <- <-; by apply Hcore].
  destruct (Quota.consume h _) as [h' []]; injection H as <- <-; by apply Hcore.
Qed.

Lemma dir_step_ok stream q moved d ev d' moved' q' :
  dir_ok stream moved d -> dir_step q moved d ev = Some (d', moved', q') ->
  dir_ok stream moved' d' /\ (moved' = moved \/ moved' = true).
Proof.
  intros Hok H. unfold dir_step in H. destruct (pc d) as [|r|] eqn:Hpc; [| |done].
  - destruct (top_step _ _ _ _) as [[d1 m1]|] eqn:Ht; simplify_eq. by eapply top_step_ok.
  - destruct (drain_step _ _ _ _) as [[d1 q1]|] eqn:Ht; simplify_eq. split; [|by left].
    by eapply drain_step_ok.
Qed.

(** The direction that did not move keeps its invariant when the other sets
    [moved_any]. *)
Lemma other_ok stream moved moved' d : dir_ok stream moved d -> moved' = moved \/ moved' = true ->
  (forall e, pc d <> Ended (Err e)) -> dir_ok stream moved' d.
Proof.
  intros [Hs Hc Hl Hm Hp] [->| ->] Hne; split; try done.
  destruct (pc d) as [|r|[[]|e]]; try done. by destruct (Hne e).
Qed.

Lemma joined_none c : joined c = None ->
  (forall e, pc (dn_to_up c) <> Ended (Err e)) /\ (forall e, pc (up_to_dn c) <> Ended (Err e)).
Proof.
  unfold joined. intros H. split; intros e He; rewrite He in H; [done|].
  by destruct (pc (dn_to_up c)) as [| |[]].
Qed.

Lemma conn_step_ok s i c down ev s' : sys_ok s -> conn_ok c ->
  conn_step s i c down ev = Some s' -> sys_ok s'.
Proof.
  intros [Hp Hc Hr] [Hdn Hup] H. unfold conn_step in H. case_bool_decide as Hj; [done|].
  apply eq_None_not_Some in Hj. apply joined_none in Hj as [Hj1 Hj2].
  destruct (dir_step _ _ _ _) as [[[d moved] q']|] eqn:Hd; simplify_eq. split; simpl; try done.
  intros j c'. rewrite lookup_insert_Some. intros [[_ <-]|[_ Hl]]; [|by eapply Hc].
  destruct down.
  - destruct (dir_step_ok _ _ _ _ _ _ _ _ Hdn Hd) as [Hd' Hm].
    split; [done|]. exact (other_ok _ _ _ _ Hup Hm Hj2).
  - destruct (dir_step_ok _ _ _ _ _ _ _ _ Hup Hd) as [Hd' Hm].
    split; [|done]. exact (other_ok _ _ _ _ Hdn Hm Hj1).
Qed.

Lemma acquire_ok pool fresh p pool' : pool_ok pool -> acquire pool fresh = (p, pool') ->
  pool_ok pool' /\ (forall x, p = Some x -> content x = []).
Proof.
  intros [Hf Hl] H. unfold acquire in H. destruct (last pool) as [x|] eqn:E; simplify_eq.
  - apply last_Some in E as [l ->]. rewrite removelast_last. rewrite length_app in Hl. simpl in Hl.
    apply Forall_app in Hf as [Hf Hx]. rewrite Forall_singleton in Hx.
    split; [split; [done|lia]|]. by intros y [= <-].
  - split; [done|]. intros x Hx. apply fmap_Some in Hx as (n & _ & ->). done.
Qed.

Lemma release_ok pool p : pool_ok pool -> content p = [] -> pool_ok (release pool p).
Proof.
  intros [Hf Hl] Hp. unfold release. case_test; [|done]. bool_prop. split.
  - apply Forall_app. by split; [|apply Forall_singleton].
  - rewrite length_app. simpl. lia.
Qed.

Lemma pool_of_ok s w : sys_ok s -> pool_ok (pool_of s w).
Proof.
  intros [Hp _ _]. unfold pool_of. destruct (pools s !! w) eqn:E; [by eapply Hp|].
  split; [by constructor|simpl; unfold PIPE_POOL_MAX; lia].
Qed.

Lemma sys_set_pool s w pool cs rs : sys_ok s -> pool_ok pool ->
  (forall i c, cs !! i = Some c -> conn_ok c) ->
  (forall i c r, rs !! i = Some (c, r) -> conn_ok c /\
    match r with
    | Ok t => t = transferred c /\ exists ab, joined c = Some (Ok ab)
    | Err e => joined c = Some (Err e)
    end) ->
  sys_ok (mkSys (<[w := pool]> (pools s)) cs (quotas s) rs).
Proof.
  intros [Hp Hc Hr] Hpool Hcs. split; simpl; try done.
  intros w' pool'. rewrite lookup_insert_Some. intros [[_ <-]|[_ ?]]; [done|by eapply Hp].
Qed.

Lemma open_ok s c w dn up q f1 f2 : sys_ok s -> sys_ok (open s c w dn up q f1 f2).
Proof.
  intros Hs. pose proof (pool_of_ok s w Hs) as Hpool. unfold open.
  destruct (acquire (pool_of s w) f1) as [p1 pool1] eqn:H1.
  destruct (acquire_ok _ _ _ _ Hpool H1) as [Hpool1 Hp1].
  destruct p1 as [p1|]; [|apply sys_set_pool; try done; apply Hs].
  destruct (acquire pool1 f2) as [p2 pool2] eqn:H2.
  destruct (acquire_ok _ _ _ _ Hpool1 H2) as [Hpool2 Hp2].
  destruct p2 as [p2|]; apply sys_set_pool; try done; try apply Hs.
  intros i c'. rewrite lookup_insert_Some. intros [[_ <-]|[_ ?]]; [|by eapply Hs].
  split; apply dir_start_ok; auto.
Qed.

Lemma finish_ok s i w c s' : sys_ok s -> conn_ok c -> finish s i w c = Some s' -> sys_ok s'.
Proof.
  intros Hs Hc H. unfold finish in H. destruct (joined c) as [[[a b]|e]|] eqn:Hj; simplify_eq.
  - apply sys_set_pool; [done| | |].
    + destruct (may_reuse_pipes a b) eqn:Hr; [|by apply pool_of_ok].
      destruct a, b; try done. unfold joined in Hj. destruct Hc as [Hdn Hup].
      pose proof (ok_pc _ _ _ Hdn) as H1. pose proof (ok_pc _ _ _ Hup) as H2.
      destruct (pc (dn_to_up c)) as [| |[[]|]], (pc (up_to_dn c)) as [| |[[]|]]; try done.
      apply release_ok; [apply release_ok; [by apply pool_of_ok|]|]; [apply H1|apply H2].
    + intros j c'. rewrite lookup_delete_Some. intros [_ ?]. by eapply Hs.
    + intros j c' r. rewrite lookup_insert_Some. intros [[_ [= <- <-]]|[_ ?]]; [|by eapply Hs].
      split; [done|]. split; [done|]. eauto.
  - destruct Hs as [Hp Hcs Hrs]. split; simpl; [done| |].
    + intros j c'. rewrite lookup_delete_Some. intros [_ ?]. by eapply Hcs.
    + intros j c' r. rewrite lookup_insert_Some. intros [[_ [= <- <-]]|[_ ?]]; [done|by eapply Hrs].
Qed.

Lemma step_ok s ev s' : sys_ok s -> step s ev = Some s' -> sys_ok s'.
Proof.
  intros Hs H. destruct ev as [c w dn up q f1 f2|i down ev|i w|i|q h]; simpl in H.
  - case_bool_decide; simplify_eq. by apply open_ok.
  - destruct (conns s !! i) as [c|] eqn:Hi; simplify_eq/=. eapply conn_step_ok; try done. by eapply Hs.
  - destruct (conns s !! i) as [c|] eqn:Hi; simplify_eq/=. eapply finish_ok; try done. by eapply Hs.
  - simplify_eq. destruct Hs as [Hp Hc Hr]. split; simpl; try done.
    intros j c. rewrite lookup_delete_Some. intros [_ ?]. by eapply Hc.
  - simplify_eq. destruct Hs as [Hp Hc Hr]. by split.
Qed.

Lemma run_ok evs : forall s s', sys_ok s -> run s evs = Some s' -> sys_ok s'.
Proof.
  induction evs as [|ev evs IH]; intros s s' Hs H; simpl in H; [by simplify_eq|].
  destruct (step s ev) as [s1|] eqn:E; simplify_eq/=. eapply IH; [|done]. by eapply step_ok.
Qed.

Lemma init_ok : sys_ok init.
Proof. by split. Qed.

Lemma dir_ok_prefix stream moved d : dir_ok stream moved d -> dst d `prefix_of` stream.
Proof. intros [Hs _ _ _ _]. exists (content (pipe d) ++ src d). done. Qed.

(** A direction that ended cleanly delivered its whole stream. *)
Lemma dir_ok_eof stream moved d : dir_ok stream moved d -> pc d = Ended (Ok Eof) -> dst d = stream.
Proof.
  intros [Hs _ _ _ Hp] Hpc. rewrite Hpc in Hp. destruct Hp as [Hp1 Hp2].
  by rewrite Hp1, Hp2, app_nil_r in Hs.
Qed.

(** A direction that never read has delivered nothing. *)
Lemma dir_ok_unread stream d : dir_ok stream false d -> src d = stream /\ dst d = [].
Proof.
  intros [Hs _ _ Hm _]. split; [by apply Hm|]. specialize (Hm eq_refl). rewrite Hm in Hs.
  apply (f_equal length) in Hs. rewrite !length_app in Hs. apply nil_length_inv. lia.
Qed.

(** ** Examples *)

(** Two connections of one worker; the second reuses the pipes of the first. *)
Definition ex_evs : list Ev :=
  [Open 1 0 [10; 11; 12] [20] None (Some 4%nat) (Some 4%nat);
   Step 1 true (Moved 3); Step 1 true (Moved 2); Step 1 true Again; Step 1 false (Moved 1);
   Step 1 true (Moved 1); Step 1 true Again; Step 1 true (Moved 0); Step 1 false (Moved 1);
   Step 1 false Again; Step 1 false (Moved 0); Finish 1 0;
   Open 2 0 [30; 31] [] None None None; Step 2 true (Moved 2); Step 2 true (Moved 1)].

Definition ex_final : Sys := default init (run init ex_evs).

(** ** Theorems *)

(** C2. Connections are isolated although they share pipes: whatever the
    kernel answers and however connections begin, end and are cancelled, every
    pooled pipe is empty and the pools stay bounded, and what each peer of a
    connection has been sent is a prefix of what its own other end sent. *)
Theorem splice_no_crosstalk evs s : run init evs = Some s ->
  (forall w pool, pools s !! w = Some pool ->
     Forall (fun p => content p = []) pool /\ (length pool <= PIPE_POOL_MAX)%nat) /\
  (forall i c, conns s !! i = Some c \/ (exists r, results s !! i = Some (c, r)) ->
     dst (dn_to_up c) `prefix_of` stream_dn c /\ dst (up_to_dn c) `prefix_of` stream_up c).
Proof.
  intros H. pose proof (run_ok _ _ _ init_ok H) as Hs. split; [apply Hs|].
  intros i c Hc. assert (conn_ok c) as [Hdn Hup].
  { destruct Hc as [Hc|[r Hc]]; [by eapply Hs|by eapply sys_results in Hc as [? _]]. }
  split; by eapply dir_ok_prefix.
Qed.

Lemma splice_no_crosstalk_witness :
  run init ex_evs = Some ex_final /\
  exists c, conns ex_final !! 2%nat = Some c /\ dst (dn_to_up c) = [30] /\
    dst (dn_to_up c) `prefix_of` stream_dn c.
Proof.
  assert (H : run init ex_evs = Some ex_final) by (vm_compute; reflexivity).
  split; [exact H|]. eexists. split; [vm_compute; reflexivity|]. split; [reflexivity|].
  apply (proj2 (splice_no_crosstalk _ _ H) 2%nat). left. vm_compute. reflexivity.
Defined.

(** What [copy_bidirectional] returns is right.  On success the totals are
    the bytes delivered, which the live sink has already been told; a
    direction that ended at the end of its source delivered the whole stream.
    It reports the splice path as unsupported only when not one byte was taken
    from either peer, so that starting over in user space loses nothing. *)
Theorem splice_result_exact evs s i c r : run init evs = Some s -> results s !! i = Some (c, r) ->
  match r with
  | Ok (bin, bout) =>
    bin = wrap_u64 (Z.of_nat (length (dst (dn_to_up c)))) /\ live (dn_to_up c) = bin /\
    bout = wrap_u64 (Z.of_nat (length (dst (up_to_dn c)))) /\ live (up_to_dn c) = bout /\
    (pc (dn_to_up c) = Ended (Ok Eof) -> dst (dn_to_up c) = stream_dn c) /\
    (pc (up_to_dn c) = Ended (Ok Eof) -> dst (up_to_dn c) = stream_up c)
  | Err (Unsupported _) =>
    src (dn_to_up c) = stream_dn c /\ dst (dn_to_up c) = [] /\
    src (up_to_dn c) = stream_up c /\ dst (up_to_dn c) = []
  | Err Io => joined c = Some (Err Io)
  end.
Proof.
  intros H Hr. pose proof (run_ok _ _ _ init_ok H) as Hs.
  destruct (sys_results _ Hs _ _ _ Hr) as [[Hdn Hup] Hj]. destruct r as [[bin bout]|[e|]]; [| |done].
  - destruct Hj as [Ht _]. injection Ht as -> ->.
    split_and!; try apply Hdn; try apply Hup; by eapply dir_ok_eof.
  - assert (moved_any c = false) as Hm.
    { unfold joined in Hj. pose proof (ok_pc _ _ _ Hdn) as H1. pose proof (ok_pc _ _ _ Hup) as H2.
      destruct (pc (dn_to_up c)) as [| |[|]], (pc (up_to_dn c)) as [| |[|]]; simplify_eq; done. }
    rewrite Hm in Hdn, Hup. apply dir_ok_unread in Hdn as [-> ->], Hup as [-> ->]. done.
Qed.

Lemma splice_result_exact_witness :
  exists c, results ex_final !! 1%nat = Some (c, Ok (3, 1)) /\ live (dn_to_up c) = 3.
Proof.
  eexists. split; [vm_compute; reflexivity|].
  refine (proj1 (proj2 (splice_result_exact ex_evs ex_final 1 _ (Ok (3, 1)) _ _)));
    vm_compute; reflexivity.
Defined.

End Splice.
