(* ===== verification/Proxy.v ===== *)
(** * One proxied connection

    [crates/portunus-forwarder/src/forwarder/proxy.rs]: connect, announce,
    replay the bytes read ahead, pick a copy loop, and book what was moved.

    The sockets are the environment.  What each copy loop moved, chunk by
    chunk, and how it ended are arguments for the loops modelled elsewhere
    (rate-limited, quota, splice); the user-space loop of this file is run on
    the events of its two sockets.  [upstream] is everything written to the
    target. *)

From S2P Require Import Prelude PortRange RateScope Target IpAddr ProxyProtocol Stats Splice.

Local Open Scope Z_scope.

Module Proxy.

Import Stats.Stats.

Notation In := RateScope.In.
Notation Out := RateScope.Out.

Inductive AnswerSource : Type := Fresh | Cached | Stale.

Inductive ConnectError : Type := Resolution | AllAddrsUnreachable | Dial.

Inductive IoError : Type := Connect (e : ConnectError) | Broken | ProxyCancelled.

(** What a copy loop did: the chunks it moved, and its result, or [None] when
    it was still running. *)
Record Ran : Type := mkRan {
  chunks : list (RateScope.BandwidthDirection * list Z);
  ended : option (Result (Z * Z) unit);
}.

Definition moved (d : RateScope.BandwidthDirection) (cs : list (RateScope.BandwidthDirection * list Z))
  : list Z :=
  cs ≫= fun c => match c.1, d with In, In | Out, Out => c.2 | _, _ => [] end.

Arguments moved : simpl never.

Definition size (l : list Z) : Z := Z.of_nat (length l).

(** ** The user-space loop *)

Inductive CopyEv : Type :=
| Read (d : RateScope.BandwidthDirection) (data : list Z) (write_ok : bool) (* no data: end of file *)
| ReadError (d : RateScope.BandwidthDirection).

Definition ev_dir (ev : CopyEv) : RateScope.BandwidthDirection :=
  match ev with Read d _ _ => d | ReadError d => d end.

(** [copy_bidirectional_userspace]: both directions of [copy_one_dir_live]
    under [try_join!].  [total_*] are the running totals of the directions,
    [open_*] says which still run. *)
Fixpoint copy_userspace (total_in total_out : Z) (open_in open_out : bool) (evs : list CopyEv) : Ran :=
  if negb open_in && negb open_out then mkRan [] (Some (Ok (total_in, total_out)))
  else
    match evs with
    | [] => mkRan [] None
    | ev :: evs =>
      if negb (match ev_dir ev with In => open_in | Out => open_out end)
      then copy_userspace total_in total_out open_in open_out evs
      else
        match ev with
        | ReadError _ => mkRan [] (Some (Err tt))
        | Read In [] _ => copy_userspace total_in total_out false open_out evs
        | Read Out [] _ => copy_userspace total_in total_out open_in false evs
        | Read _ _ false => mkRan [] (Some (Err tt))
        | Read In data true =>
          let r := copy_userspace (sat_add_u64 total_in (size data)) total_out open_in open_out evs in
          mkRan ((In, data) :: chunks r) (ended r)
        | Read Out data true =>
          let r := copy_userspace total_in (sat_add_u64 total_out (size data)) open_in open_out evs in
          mkRan ((Out, data) :: chunks r) (ended r)
        end
    end.

(** ** Choosing the loop

    The loops with a live sink flush each chunk as it moves; the rate-limited
    and the quota loops do not. *)

Record Loops : Type := mkLoops {
  capped_run : Ran;
  splice_run : Result Ran Splice.SpliceError; (* an error when it ends before it moves a byte *)
  quota_run : Ran;
  userspace_run : Ran;
}.

Definition copy_uncapped (eligible has_quota : bool) (ls : Loops) : Ran * bool :=
  let userspace := if has_quota then (quota_run ls, false) else (userspace_run ls, true) in
  if eligible then
    match splice_run ls with
    | Ok r => (r, true)
    | Err (Splice.Unsupported _) => userspace
    | Err Splice.Io => (mkRan [] (Some (Err tt)), true)
    end
  else userspace.

Definition copy (rule_has_bw owner_has_bw eligible has_quota : bool) (ls : Loops) : Ran * bool :=
  if rule_has_bw || owner_has_bw then (capped_run ls, false) else copy_uncapped eligible has_quota ls.

(** ** The connection *)

Record Env : Type := mkEnv {
  connect : Result AnswerSource ConnectError;
  prelude : option (RuleTarget.ProxyProtocolVersion * ProxyProtocol.SocketAddr * ProxyProtocol.SocketAddr);
  prelude_written : bool;
  preread : option (list Z);
  preread_written : bool;
  rule_bw : bool;
  owner_bw : bool;
  splice_eligible : bool;
  with_quota : bool;
  loops : Loops;
}.

(** [write_prelude]: the bytes written, or the error. *)
Definition write_prelude (env : Env) : Result (list Z) IoError :=
  match prelude env with
  | None => Ok []
  | Some (version, source, destination) =>
    match ProxyProtocol.encode version source destination with
    | Err _ => Err Broken
    | Ok b => if prelude_written env then Ok b else Err Broken
    end
  end.

Definition replay (env : Env) : Result (list Z) IoError :=
  match preread env with
  | None | Some [] => Ok []
  | Some buf => if preread_written env then Ok buf else Err Broken
  end.

(** The chunks a live loop flushed into the sink of the connection. *)
Definition flush (port : Z) (s : RuleStats) (cs : list (RateScope.BandwidthDirection * list Z))
  : LiveBytesSink * RuleStats :=
  foldl sink_step (sink_new port, s) ((fun c => (c.1, size c.2)) <$> cs).

(** From the copy on, once the target has the prelude and the replayed bytes. *)
Definition copy_and_book (s : option RuleStats) (port preread_in : Z) (env : Env)
  : Result (Z * Z) IoError * option RuleStats * list Z :=
  let (r, live) := copy (rule_bw env) (owner_bw env) (splice_eligible env) (with_quota env) (loops env) in
  let result := match ended r with
                | None => Err ProxyCancelled
                | Some (Err _) => Err Broken
                | Some (Ok t) => Ok t
                end in
  let s := (fun s =>
              let (k, s) := flush port s (if live then chunks r else []) in
              match result with
              | Ok (bin, bout) => record_remaining k s (bin + preread_in) bout
              | Err _ => s
              end) <$> s in
  (match result with Ok (bin, bout) => Ok (bin + preread_in, bout) | Err e => Err e end,
   s, moved In (chunks r)).

Definition proxy_with_preread_and_prelude (s : option RuleStats) (port : Z) (env : Env)
  : Result (Z * Z) IoError * option RuleStats * list Z :=
  match connect env with
  | Err e =>
    (Err (Connect e),
     match e with Dial => s | Resolution | AllAddrsUnreachable => inc_dns_failure <$> s end, [])
  | Ok source =>
    let s := match source with Stale => inc_dns_failure <$> s | Fresh | Cached => s end in
    let s := (fun s => inc_active s port) <$> s in (* ActiveGuard::new *)
    let drop_guard := fun s : option RuleStats => (fun s => dec_active s port) <$> s in
    match write_prelude env with
    | Err e => (Err e, drop_guard s, [])
    | Ok head =>
      match replay env with
      | Err e => (Err e, drop_guard s, head)
      | Ok hello =>
        let '(res, s, body) := copy_and_book s port (size hello) env in
        (res, drop_guard s, head ++ hello ++ body)
      end
    end
  end.

(** The loop a connection ran. *)
Definition ran (env : Env) : Ran :=
  (copy (rule_bw env) (owner_bw env) (splice_eligible env) (with_quota env) (loops env)).1.

(** A loop that ends well reports the bytes it moved. *)
Definition honest (r : Ran) : Prop :=
  forall t, ended r = Some (Ok t) -> t = (size (moved In (chunks r)), size (moved Out (chunks r))).

(** ** Lemmas *)

Lemma moved_cons d c cs :
  moved d (c :: cs) = match c.1, d with In, In | Out, Out => c.2 | _, _ => [] end ++ moved d cs.
Proof. done. Qed.

Lemma size_app a b : size (a ++ b) = size a + size b.
Proof. unfold size. rewrite length_app. lia. Qed.

Lemma flushed_size d cs : flushed d ((fun c => (c.1, size c.2)) <$> cs) = size (moved d cs).
Proof.
  unfold flushed. induction cs as [|[d' data] cs IH]; [done|].
  rewrite fmap_cons, moved_cons, size_app. simpl. rewrite IH. by destruct d', d.
Qed.

Lemma sizes_nonneg (cs : list (RateScope.BandwidthDirection * list Z)) :
  Forall (fun c => 0 <= c.2) ((fun c => (c.1, size c.2)) <$> cs).
Proof. apply Forall_fmap, Forall_true. intros c. unfold size. simpl. lia. Qed.

Lemma active_balanced s : in_u32 (active_connections s) ->
  wrap_u32 (wrap_u32 (active_connections s + 1) + -1) = active_connections s.
Proof.
  intros H. rewrite wrap_u32_add. replace (active_connections s + 1 + -1) with (active_connections s) by lia.
  unfold wrap_u32. apply Z.mod_small. unfold_ints. lia.
Qed.

Lemma sink_chunks_frame (f : RuleStats -> Z) cs :
  (forall s p n, f (record_in s p n) = f s) -> (forall s p n, f (record_out s p n) = f s) ->
  forall k s, f (foldl sink_step (k, s) cs).2 = f s.
Proof.
  intros Hi Ho. induction cs as [|c cs IH]; intros k s; [done|].
  cbn [foldl]. rewrite (surjective_pairing (sink_step (k, s) c)), IH. destruct c as [[] n]; simpl; auto.
Qed.

(** Counters the copy does not touch. *)
Lemma copy_and_book_frame (f : RuleStats -> Z) s port n env :
  (forall s p n, f (record_in s p n) = f s) -> (forall s p n, f (record_out s p n) = f s) ->
  f <$> (copy_and_book s port n env).1.2 = f <$> s.
Proof.
  intros Hi Ho. unfold copy_and_book. destruct (copy _ _ _ _ _) as [r live]. simpl.
  destruct s as [s|]; [|done]. simpl. unfold flush.
  pose proof (sink_chunks_frame f ((fun c => (c.1, size c.2)) <$> (if live then chunks r else []))
    Hi Ho (sink_new port) s) as Hf. destruct (foldl _ _ _) as [k s']. simpl in Hf.
  f_equal. unfold record_remaining.
  destruct (ended r) as [[[bin bout]|]|]; rewrite ?Ho, ?Hi; done.
Qed.

(** What the copy books when it ends well. *)
Lemma copy_and_book_ok s port n env bin bout s' body :
  0 <= n -> honest (ran env) ->
  copy_and_book (Some s) port n env = (Ok (bin, bout), Some s', body) ->
  bin <= u64_max -> bout <= u64_max ->
  bytes_in s' = wrap_u64 (bytes_in s + bin) /\ bytes_out s' = wrap_u64 (bytes_out s + bout) /\
  bin = n + size body /\ body = moved In (chunks (ran env)) /\
  bout = size (moved Out (chunks (ran env))).
Proof.
  intros Hn Hh H Hi Ho. unfold copy_and_book, ran in *. destruct (copy _ _ _ _ _) as [r live]. simpl in *.
  destruct (ended r) as [[[a b]|]|] eqn:He; simplify_eq/=.
  pose proof (Hh _ He) as Ht. injection Ht as -> ->.
  set (cs := if live then chunks r else []) in *.
  assert (forall d, 0 <= flushed d ((fun c => (c.1, size c.2)) <$> cs) <= size (moved d (chunks r))) as Hfl.
  { intros d. rewrite flushed_size. unfold cs, size. destruct live; simpl; lia. }
  pose proof (Hfl In). pose proof (Hfl Out).
  pose proof (books_once s port ((fun c => (c.1, size c.2)) <$> cs) (size (moved In (chunks r)) + n)
    (size (moved Out (chunks r))) (sizes_nonneg _)) as Hb.
  unfold flush. destruct (foldl _ _ _) as [k s1]. destruct Hb as [-> ->]; [lia|lia|].
  split_and!; try done. lia.
Qed.

(** What a peer sends on a direction, up to its end of file. *)
Fixpoint sent (d : RateScope.BandwidthDirection) (evs : list CopyEv) : list Z :=
  match evs with
  | [] => []
  | Read d' data _ :: evs =>
    match d', d with
    | In, In | Out, Out => match data with [] => [] | _ => data ++ sent d evs end
    | _, _ => sent d evs
    end
  | ReadError _ :: evs => sent d evs
  end.

Definition sent_if (open : bool) (d : RateScope.BandwidthDirection) (evs : list CopyEv) : list Z :=
  if open then sent d evs else [].

Lemma sat_add_size t a b : 0 <= t ->
  sat_add_u64 (sat_add_u64 t (size a)) (size b) = sat_add_u64 t (size (a ++ b)).
Proof. intros Ht. rewrite size_app. unfold sat_add_u64, size. lia. Qed.

Ltac sat_in_range := unfold sat_add_u64, size; unfold_ints; lia.

Lemma sat_add_nil t : t <= u64_max -> sat_add_u64 t (size []) = t.
Proof. unfold sat_add_u64, size. simpl. lia. Qed.

Lemma copy_userspace_spec evs : forall ti to oi oo, 0 <= ti <= u64_max -> 0 <= to <= u64_max ->
  let r := copy_userspace ti to oi oo evs in
  moved In (chunks r) `prefix_of` sent_if oi In evs /\
  moved Out (chunks r) `prefix_of` sent_if oo Out evs /\
  forall t, ended r = Some (Ok t) ->
    moved In (chunks r) = sent_if oi In evs /\ moved Out (chunks r) = sent_if oo Out evs /\
    t = (sat_add_u64 ti (size (moved In (chunks r))), sat_add_u64 to (size (moved Out (chunks r)))).
Proof.
  induction evs as [|ev evs IH]; intros ti to oi oo Hti Hto.
  { destruct oi, oo; simpl; split_and!; try apply prefix_nil; try done.
    intros t [= <-]. by rewrite !sat_add_nil by lia. }
  destruct oi eqn:Eoi, oo eqn:Eoo; simpl.
  4: { split_and!; try apply prefix_nil. intros t [= <-]. by rewrite !sat_add_nil by lia. }
  all: destruct ev as [[] [|x data] []|[]]; simpl; try (apply IH; done);
    try (split_and!; try apply prefix_nil; done).
  all: match goal with |- context [copy_userspace ?a ?b ?c ?d _] =>
         destruct (IH a b c d) as (Hp1 & Hp2 & He);
         [first [done|sat_in_range]|first [done|sat_in_range]|] end.
  all: rewrite !moved_cons; simpl in *;
    (split_and!; [try apply (prefix_app (x :: data)); done|try apply (prefix_app (x :: data)); done|]).
  all: intros t Ht; destruct (He t Ht) as (E1 & E2 & ->).
  all: rewrite <- ?E1, <- ?E2; split_and!; try done; f_equal; rewrite sat_add_size by lia; done.
Qed.

(** ** Examples *)

Definition ex_run (e : option (Result (Z * Z) unit)) : Ran :=
  mkRan [(In, [1; 2]); (Out, [9]); (In, [3])] e.

Definition ex_env (e : option (Result (Z * Z) unit)) (quota : bool) : Env :=
  mkEnv (Ok Stale) None true (Some [22; 3; 1]) true false false true quota
    (mkLoops (ex_run e) (Err (Splice.Unsupported Splice.ENOSYS)) (ex_run e) (ex_run e)).

Definition ex_stats : RuleStats := for_range (PortRange.mkPortRange 443 443).

(** ** Theorems *)



(** However a connection ends, the gauge of active connections returns to
    its value, and the DNS failure counter moves by one exactly when the name
    did not resolve, no address answered, or a stale answer was used. *)
Theorem proxy_gauges_balanced s port env res s' upstream :
  in_u32 (active_connections s) ->
  proxy_with_preread_and_prelude (Some s) port env = (res, Some s', upstream) ->
  active_connections s' = active_connections s /\
  dns_failures s' =
    match connect env with
    | Ok Stale | Err Resolution | Err AllAddrsUnreachable => wrap_u64 (dns_failures s + 1)
    | _ => dns_failures s
    end.
Proof.
  intros Ha H. unfold proxy_with_preread_and_prelude in H.
  destruct (connect env) as [source|[]]; simplify_eq/=; [|done|done|done].
  set (s0 := match source with Stale => inc_dns_failure s | _ => s end).
  assert (E : fmap (fun s => inc_active s port) (match source with Stale => inc_dns_failure <$> Some s
            | _ => Some s end) = Some (inc_active s0 port)) by by destruct source.
  simpl in E. rewrite E in H.
  assert (Hend : forall s1, active_connections s1 = active_connections (inc_active s0 port) ->
    dns_failures s1 = dns_failures s0 ->
    active_connections (dec_active s1 port) = active_connections s /\
    dns_failures (dec_active s1 port) =
      match source with Stale => wrap_u64 (dns_failures s + 1) | _ => dns_failures s end).
  { intros s1 H1 H2. simpl. rewrite H1, H2. simpl.
    replace (active_connections s0) with (active_connections s) by by destruct source.
    rewrite active_balanced by done. by destruct source. }
  destruct (write_prelude env) as [head|]; [|simplify_eq/=; by apply (Hend (inc_active s0 port))].
  destruct (replay env) as [hello|]; [|simplify_eq/=; by apply (Hend (inc_active s0 port))].
  pose proof (copy_and_book_frame active_connections (Some (inc_active s0 port)) port (size hello) env
    ltac:(done) ltac:(done)) as F1.
  pose proof (copy_and_book_frame dns_failures (Some (inc_active s0 port)) port (size hello) env
    ltac:(done) ltac:(done)) as F2.
  destruct (copy_and_book _ _ _ _) as [[res1 s1] body]. simplify_eq/=.
  destruct s1 as [s1|]; simplify_eq/=. by apply (Hend s1).
Qed.

Lemma proxy_gauges_balanced_witness :
  exists s', (proxy_with_preread_and_prelude (Some ex_stats) 443 (ex_env None false)).1.2 = Some s' /\
    active_connections s' = 0 /\ dns_failures s' = 1.
Proof.
  eexists. split; [vm_compute; reflexivity|].
  apply (proxy_gauges_balanced ex_stats 443 (ex_env None false) (Err ProxyCancelled) _ [22; 3; 1; 1; 2; 3]);
    [vm_compute; split; congruence|vm_compute; reflexivity].
Defined.

(** The user-space copy delivers each direction in order and completely:
    at any moment what it moved is a prefix of what the peer sent, and when it
    ends well it moved everything up to the end of file and reports exactly
    that many bytes. *)
Theorem userspace_copy_exact evs :
  let r := copy_userspace 0 0 true true evs in
  moved In (chunks r) `prefix_of` sent In evs /\ moved Out (chunks r) `prefix_of` sent Out evs /\
  forall t, ended r = Some (Ok t) ->
    moved In (chunks r) = sent In evs /\ moved Out (chunks r) = sent Out evs /\
    t = (Z.min (size (sent In evs)) u64_max, Z.min (size (sent Out evs)) u64_max).
Proof.
  destruct (copy_userspace_spec evs 0 0 true true) as (H1 & H2 & H3);
    [unfold_ints; lia|unfold_ints; lia|].
  split_and!; try done. intros t Ht. destruct (H3 t Ht) as (E1 & E2 & ->).
  rewrite E1, E2. done.
Qed.

(** A connection that is cancelled, or breaks, loses traffic from its
    rule's totals: the replayed bytes are never booked, and on the quota path
    nothing the copy had moved is. *)
Theorem cancelled_traffic_unbooked :
  (exists s', proxy_with_preread_and_prelude (Some ex_stats) 443 (ex_env None false) =
     (Err ProxyCancelled, Some s', [22; 3; 1; 1; 2; 3]) /\ bytes_in s' = 3) /\
  (exists s', proxy_with_preread_and_prelude (Some ex_stats) 443 (ex_env None true) =
     (Err ProxyCancelled, Some s', [22; 3; 1; 1; 2; 3]) /\ bytes_in s' = 0 /\ bytes_out s' = 0).
Proof. split; eexists; vm_compute; done. Qed.

End Proxy.
