(* ===== verification/SniListener.v ===== *)
(** * The SNI listener

    [crates/portunus-forwarder/src/forwarder/sni/listener.rs]: the accept loop
    with its bound on concurrent peeks, what happens to one accepted
    connection up to the proxy, and the counters it leaves; with the histogram
    of [crates/portunus-core/src/peek_histogram.rs].

    This is where the peek ([ClientHello]), the routing table a port publishes
    ([RouteTable], [PortGroups]) and admission ([RateScope]) meet. *)

From S2P Require Import Prelude Text RateLimit RateScope Target ClientHello RouteTable PortGroups Stats.

Local Open Scope Z_scope.

Module SniListener.

Import PortGroups.PortGroups.

(** ** The peek histogram

    Durations are nanoseconds.  The bounds of the buckets are decimal
    fractions of a second; [as_secs_f64] and the literals are correctly
    rounded, and nanoseconds below four seconds are far enough apart for the
    comparison of the roundings to be that of the numbers. *)

Definition PEEK_HISTOGRAM_BUCKETS : list Z :=
  [100000; 250000; 500000; 1000000; 2500000; 5000000; 10000000; 25000000; 50000000; 100000000;
   250000000; 500000000; 1000000000; 2000000000; 3000000000].

Fixpoint position (f : Z -> bool) (l : list Z) : option nat :=
  match l with
  | [] => None
  | x :: l => if f x then Some O else S <$> position f l
  end.

Definition bucket_index (elapsed : Z) : option nat :=
  position (fun upper => elapsed <=? upper) PEEK_HISTOGRAM_BUCKETS.

Record Histogram : Type := mkHistogram {
  buckets : list Z;
  sum_micros : Z;
  count : Z;
}.

Definition histogram_zero : Histogram :=
  mkHistogram (replicate (length PEEK_HISTOGRAM_BUCKETS) 0) 0 0.

Definition observe (h : Histogram) (elapsed : Z) : Histogram :=
  mkHistogram
    (match bucket_index elapsed with
     | Some i => take i (buckets h) ++ ((fun n => wrap_u64 (n + 1)) <$> drop i (buckets h))
     | None => buckets h
     end)
    (wrap_u64 (sum_micros h + to_u64_or_max (elapsed / 1000)))
    (wrap_u64 (count h + 1)).

(** ** Counters *)

Record Counters : Type := mkCounters {
  miss : Z;
  parse_failures : Z;
  peek_capacity_rejections : Z;
  peek_histogram : Histogram;
}.

Definition counters_zero : Counters := mkCounters 0 0 0 histogram_zero.

(** What a connection task touches: the listener's counters, the route
    counters and reject accumulators of rules by reference, the limiters. *)
Record Shared : Type := mkShared {
  counters : Counters;
  atoms : gmap nat Z;
  accs : gmap nat Stats.Accumulator;
  world : RateScope.World;
}.

Definition set_counters (s : Shared) (c : Counters) : Shared := mkShared c (atoms s) (accs s) (world s).

Definition add_miss (s : Shared) : Shared :=
  let c := counters s in
  set_counters s (mkCounters (wrap_u64 (miss c + 1)) (parse_failures c) (peek_capacity_rejections c)
                    (peek_histogram c)).

Definition add_parse_failure (s : Shared) : Shared :=
  let c := counters s in
  set_counters s (mkCounters (miss c) (wrap_u64 (parse_failures c + 1)) (peek_capacity_rejections c)
                    (peek_histogram c)).

Definition add_rejection (s : Shared) : Shared :=
  let c := counters s in
  set_counters s (mkCounters (miss c) (parse_failures c) (wrap_u64 (peek_capacity_rejections c + 1))
                    (peek_histogram c)).

Definition observe_peek (s : Shared) (elapsed : Z) : Shared :=
  let c := counters s in
  set_counters s (mkCounters (miss c) (parse_failures c) (peek_capacity_rejections c)
                    (observe (peek_histogram c) elapsed)).

Definition bump (s : Shared) (a : nat) : Shared :=
  mkShared (counters s) (alter (fun n => wrap_u64 (n + 1)) a (atoms s)) (accs s) (world s).

Definition reject (s : Shared) (acc : option nat) (r : RateLimit.RejectReason) : Shared :=
  match acc with
  | None => s
  | Some a => mkShared (counters s) (atoms s) (alter (fun x => Stats.record_reject x r) a (accs s)) (world s)
  end.

Definition set_world (s : Shared) (w : RateScope.World) : Shared :=
  mkShared (counters s) (atoms s) (accs s) w.

(** ** One connection *)

Inductive Fate : Type :=
| ParseFailed
| NoMatch
| SlotMissing (i : Z)
| LocalAddrFailed (slot : SniRuleSlot)
| OwnerReject (slot : SniRuleSlot) (r : RateLimit.RejectReason)
| RuleReject (slot : SniRuleSlot) (r : RateLimit.RejectReason)
| Dispatched (slot : SniRuleSlot) (preread : list Z)
    (owner_guard rule_guard : option RateScope.ActiveGuard).

Definition route_counter (slot : SniRuleSlot) (k : RouteTable.SniMatchKind) : nat :=
  match k with
  | RouteTable.Exact => slot_exact_total slot
  | RouteTable.Wildcard => slot_wildcard_total slot
  | RouteTable.Fallback => slot_fallback_total slot
  end.

(** After the route: the local address when a prelude is wanted, then the
    owner and rule limits.  [None]: a limiter reference is dangling. *)
Definition gate_slot (s : Shared) (slot : SniRuleSlot) (captured : list Z) (local_addr_ok : bool)
  (now_owner now_rule : Z) : option (Shared * Fate) :=
  if bool_decide (is_Some (slot_proxy_protocol slot)) && negb local_addr_ok
  then Some (s, LocalAddrFailed slot)
  else
    match RateScope.try_acquire_layered (world s) (slot_owner_rate_limit slot) (slot_rate_limit slot)
            false now_owner now_rule with
    | None => None
    | Some (w, RateScope.LayeredGranted go gr) => Some (set_world s w, Dispatched slot captured go gr)
    | Some (w, RateScope.OwnerRejected r) =>
      Some (reject (set_world s w) (slot_owner_rate_limit_stats slot) r, OwnerReject slot r)
    | Some (w, RateScope.RuleRejected r) =>
      Some (reject (set_world s w) (slot_rate_limit_stats slot) r, RuleReject slot r)
    end.

(** [handle_accept] from the end of the peek to the proxy. *)
Definition handle_accept (s : Shared) (d : DispatchState)
  (peek : Result (list Z * option (list Z)) ClientHello.PeekError) (elapsed : Z)
  (local_addr_ok : bool) (now_owner now_rule : Z) : option (Shared * Fate) :=
  let s := observe_peek s elapsed in
  match peek with
  | Err _ => Some (add_parse_failure s, ParseFailed)
  | Ok (captured, sni) =>
    match RouteTable.lookup (table d) sni with
    | RouteTable.Miss => Some (add_miss s, NoMatch)
    | RouteTable.Hit i k =>
      match slots d !! i with
      | None => Some (add_miss s, SlotMissing i)
      | Some slot => gate_slot (bump s (route_counter slot k)) slot captured local_addr_ok now_owner now_rule
      end
    end
  end.

(** ** The accept loop *)

Definition MAX_INFLIGHT_PEEKS : nat := 1024.

(** [peeking] are the tasks in their peek, each with the state it snapshotted
    when it was accepted. *)
Record Listener : Type := mkListener {
  permits : nat;
  peeking : gmap nat DispatchState;
  state_rx : DispatchState;
  shared : Shared;
  fates : gmap nat Fate;
  accepted : Z;
}.

Inductive Ev : Type :=
| Accept (c : nat)
| AcceptError
| Publish (d : DispatchState)
| PeekDone (c : nat) (peek : Result (list Z * option (list Z)) ClientHello.PeekError) (elapsed : Z)
    (local_addr_ok : bool) (now_owner now_rule : Z).

Definition start (cap : nat) (s : Shared) : Listener := mkListener cap ∅ default_dispatch s ∅ 0.

Definition accept (l : Listener) (c : nat) : Listener :=
  match permits l with
  | O => mkListener 0 (peeking l) (state_rx l) (add_rejection (shared l)) (fates l) (accepted l + 1)
  | S p => mkListener p (<[c := state_rx l]> (peeking l)) (state_rx l) (shared l) (fates l) (accepted l + 1)
  end.

Definition step (l : Listener) (ev : Ev) : option Listener :=
  match ev with
  | Accept c =>
    if bool_decide (peeking l !! c = None /\ fates l !! c = None) then Some (accept l c) else None
  | AcceptError => Some l
  | Publish d => Some (mkListener (permits l) (peeking l) d (shared l) (fates l) (accepted l))
  | PeekDone c peek elapsed local_ok no nr =>
    match peeking l !! c with
    | None => None
    | Some d =>
      match handle_accept (shared l) d peek elapsed local_ok no nr with
      | None => None
      | Some (s, fate) =>
        Some (mkListener (S (permits l)) (delete c (peeking l)) (state_rx l) s
                (<[c := fate]> (fates l)) (accepted l))
      end
    end
  end.

Fixpoint run (l : Listener) (evs : list Ev) : option Listener :=
  match evs with
  | [] => Some l
  | ev :: evs => step l ev ≫= fun l => run l evs
  end.

(** ** What the statements mention *)

Definition atom_sum (m : gmap nat Z) : Z := map_fold (fun _ n t => n + t) 0 m.

(** Every way a connection is counted. *)
Definition tally (s : Shared) : Z :=
  miss (counters s) + parse_failures (counters s) + peek_capacity_rejections (counters s) +
  atom_sum (atoms s).

(** The counters of a published state exist. *)
Definition counters_known (known : gset nat) (d : DispatchState) : Prop :=
  forall i slot k, slots d !! i = Some slot -> route_counter slot k ∈ known.

(** The slot a connection was routed to. *)
Definition fate_slot (f : Fate) : option SniRuleSlot :=
  match f with
  | ParseFailed | NoMatch | SlotMissing _ => None
  | LocalAddrFailed slot | OwnerReject slot _ | RuleReject slot _ | Dispatched slot _ _ _ => Some slot
  end.

(** A published pair names only rules it has slots for. *)
Definition pub_ok (d : DispatchState) : Prop :=
  forall sni i k, RouteTable.lookup (table d) sni = RouteTable.Hit i k -> is_Some (slots d !! i).

(** ** Lemmas *)

Lemma atom_sum_bump m a n : m !! a = Some n ->
  wrap_u64 (atom_sum (alter (fun n => wrap_u64 (n + 1)) a m)) = wrap_u64 (atom_sum m + 1).
Proof.
  intros Ha. unfold atom_sum.
  assert (Hd : forall (m : gmap nat Z) i x, m !! i = Some x ->
    map_fold (fun _ n t => n + t) 0 m = x + map_fold (fun _ n t => n + t) 0 (delete i m)).
  { intros m' i x Hx. apply (map_fold_delete_L (fun _ n t => n + t)); [intros; lia|done]. }
  rewrite (Hd m a n) by done.
  rewrite (Hd (alter _ a m) a (wrap_u64 (n + 1))) by by rewrite lookup_alter_eq, Ha.
  rewrite delete_alter_eq, wrap_u64_add. f_equal. lia.
Qed.

Lemma tally_wrap a b c : wrap_u64 a = wrap_u64 b -> wrap_u64 (a + c) = wrap_u64 (b + c).
Proof. intros H. by rewrite <- wrap_u64_add, H, wrap_u64_add. Qed.

Ltac tally_step :=
  unfold tally; simpl; rewrite ?(Z.add_comm _ (wrap_u64 _)), <- ?Z.add_assoc, ?wrap_u64_add;
  f_equal; lia.

Lemma tally_miss s : wrap_u64 (tally (add_miss s)) = wrap_u64 (tally s + 1).
Proof. tally_step. Qed.

Lemma tally_parse s : wrap_u64 (tally (add_parse_failure s)) = wrap_u64 (tally s + 1).
Proof. tally_step. Qed.

Lemma tally_rejection s : wrap_u64 (tally (add_rejection s)) = wrap_u64 (tally s + 1).
Proof. tally_step. Qed.

Lemma tally_bump s a : a ∈ dom (atoms s) -> wrap_u64 (tally (bump s a)) = wrap_u64 (tally s + 1).
Proof.
  intros [n Ha]%elem_of_dom. unfold tally. simpl. rewrite !(Z.add_comm _ (atom_sum _)).
  rewrite (tally_wrap _ _ _ (atom_sum_bump _ _ _ Ha)). f_equal. lia.
Qed.

Lemma gate_slot_frame s slot captured ok no nr s' f :
  gate_slot s slot captured ok no nr = Some (s', f) ->
  counters s' = counters s /\ atoms s' = atoms s /\ fate_slot f = Some slot /\
  (forall slot' pre go gr, f = Dispatched slot' pre go gr -> pre = captured).
Proof.
  unfold gate_slot. case_test; [intros; by simplify_eq|].
  destruct (RateScope.try_acquire_layered _ _ _ _ _ _) as [[w []]|]; intros; simplify_eq; [|unfold reject..].
  - split_and!; [done|done|done|]. intros; by simplify_eq.
  - by destruct (slot_owner_rate_limit_stats slot).
  - by destruct (slot_rate_limit_stats slot).
Qed.

(** Each connection whose peek ends is counted once. *)
Lemma handle_accept_counts s d peek el ok no nr s' f :
  counters_known (dom (atoms s)) d -> handle_accept s d peek el ok no nr = Some (s', f) ->
  wrap_u64 (tally s') = wrap_u64 (tally s + 1) /\ dom (atoms s') = dom (atoms s).
Proof.
  intros Hk H. unfold handle_accept in H. change (tally s) with (tally (observe_peek s el)).
  change (atoms s) with (atoms (observe_peek s el)) in *. set (s0 := observe_peek s el) in *.
  destruct peek as [[captured sni]|e].
  2: { simplify_eq. split; [apply tally_parse|done]. }
  destruct (RouteTable.lookup (table d) sni) as [i k|].
  2: { simplify_eq. split; [apply tally_miss|done]. }
  destruct (slots d !! i) as [slot|] eqn:Hs.
  2: { simplify_eq. split; [apply tally_miss|done]. }
  apply gate_slot_frame in H as (Hc & Ha & _). unfold tally at 1. rewrite Hc, Ha. split.
  - apply tally_bump. by eapply Hk.
  - simpl. by rewrite dom_alter_L.
Qed.

Lemma size_lookup {A} (m : gmap nat A) i x : m !! i = Some x -> size m <> 0%nat.
Proof. intros Hi Hs. apply map_size_empty_iff in Hs. by rewrite Hs, lookup_empty in Hi. Qed.

Definition publishes (ev : Ev) : list DispatchState := match ev with Publish d => [d] | _ => [] end.

Record listener_ok (known : gset nat) (t0 : Z) (l : Listener) : Prop := {
  lo_dom : dom (atoms (shared l)) = known;
  lo_rx : counters_known known (state_rx l);
  lo_peeking : forall c d, peeking l !! c = Some d -> counters_known known d;
  lo_tally : wrap_u64 (tally (shared l) + Z.of_nat (size (peeking l))) = wrap_u64 (t0 + accepted l);
}.

Lemma listener_step known t0 l ev l' : listener_ok known t0 l ->
  Forall (counters_known known) (publishes ev) -> step l ev = Some l' -> listener_ok known t0 l'.
Proof.
  intros [Hd Hr Hp Ht] Hev H. destruct ev as [c| |d|c peek el ok no nr]; simpl in H.
  - case_bool_decide as Hn; [|done]. destruct Hn as [Hn _]. injection H as <-. unfold accept.
    destruct (permits l) as [|p]; split; simpl; try done.
    + rewrite (tally_wrap _ _ _ (tally_rejection _)).
      replace (tally (shared l) + 1 + _) with (tally (shared l) + Z.of_nat (size (peeking l)) + 1) by lia.
      rewrite (tally_wrap _ _ _ Ht). f_equal. lia.
    + intros j d'. rewrite lookup_insert_Some. intros [[_ <-]|[_ ?]]; [done|by eapply Hp].
    + rewrite map_size_insert_None by done.
      replace (tally (shared l) + _) with (tally (shared l) + Z.of_nat (size (peeking l)) + 1) by lia.
      rewrite (tally_wrap _ _ _ Ht). f_equal. lia.
  - by simplify_eq.
  - injection H as <-. simpl in Hev. rewrite Forall_singleton in Hev. by split.
  - destruct (peeking l !! c) as [d|] eqn:Hc; [|done].
    destruct (handle_accept _ _ _ _ _ _ _) as [[s' f]|] eqn:Ha; [|done]. injection H as <-.
    apply handle_accept_counts in Ha as [Hs' Hdom]; [|rewrite Hd; by eapply Hp].
    split; simpl; [congruence|done| |].
    + intros j d'. rewrite lookup_delete_Some. intros [_ ?]. by eapply Hp.
    + rewrite (tally_wrap _ _ _ Hs'). rewrite <- Ht. f_equal.
      rewrite map_size_delete_Some by eauto.
      pose proof (size_lookup _ _ _ Hc).
      lia.
Qed.

Lemma listener_run known t0 evs : forall l l', listener_ok known t0 l ->
  Forall (counters_known known) (evs ≫= publishes) -> run l evs = Some l' -> listener_ok known t0 l'.
Proof.
  induction evs as [|ev evs IH]; intros l l' Hl Hp H; simpl in H; [by simplify_eq|].
  simpl in Hp. apply Forall_app in Hp as [Hp1 Hp2].
  destruct (step l ev) as [l1|] eqn:E; simplify_eq/=. eapply IH; [|done..]. by eapply listener_step.
Qed.

Lemma step_permits l ev l' : step l ev = Some l' ->
  (size (peeking l') + permits l' = size (peeking l) + permits l)%nat.
Proof.
  intros H. destruct ev as [c| |d|c peek el ok no nr]; simpl in H; try by simplify_eq.
  - case_bool_decide as Hn; [|done]. destruct Hn as [Hn _]. injection H as <-. unfold accept.
    destruct (permits l) as [|p]; simpl; [lia|]. rewrite map_size_insert_None by done. lia.
  - destruct (peeking l !! c) as [d|] eqn:Hc; [|done].
    destruct (handle_accept _ _ _ _ _ _ _) as [[s' f]|]; [|done]. injection H as <-. simpl.
    rewrite map_size_delete_Some by eauto.
    pose proof (size_lookup _ _ _ Hc).
    lia.
Qed.

Lemma run_permits evs : forall l l', run l evs = Some l' ->
  (size (peeking l') + permits l' = size (peeking l) + permits l)%nat.
Proof.
  induction evs as [|ev evs IH]; intros l l' H; simpl in H; [by simplify_eq|].
  destruct (step l ev) as [l1|] eqn:E; simplify_eq/=. rewrite (IH _ _ H). by eapply step_permits.
Qed.

(** *** What a port publishes *)

Lemma rebuild_pub_ok g g' : (forall i x, members g' !! i = Some x -> rule_id x = i) ->
  rebuild_watches g = Ok g' -> pub_ok (PortGroups.PortGroups.published g').
Proof.
  intros Hk H. unfold rebuild_watches in H.
  destruct (RouteTable.from_members _) as [t|] eqn:Ht; [|done]. injection H as <-. simpl in *.
  intros sni i k Hl. simpl in *. rewrite (RouteTable.lookup_represents _ _ sni Ht) in Hl.
  apply spec_lookup_member in Hl. unfold members_for_table in Hl.
  rewrite <- list_fmap_compose in Hl. apply list_elem_of_fmap in Hl as ([j x] & -> & Hx).
  apply elem_of_map_to_list in Hx. simpl. rewrite (Hk _ _ Hx), lookup_fmap, Hx. eauto.
Qed.

Lemma exec_groups m op p g' : groups (exec m op).2 !! p = Some g' ->
  (exists g, groups m !! p = Some g /\
     PortGroups.PortGroups.published g' = PortGroups.PortGroups.published g) \/
  (exists g, rebuild_watches g = Ok g').
Proof.
  assert (Hput : forall q h, <[q := h]> (groups m) !! p = Some g' ->
    (p = q /\ g' = h) \/ groups m !! p = Some g').
  { intros q h. rewrite lookup_insert_Some. intros [[-> ->]|[_ ?]]; auto. }
  destruct op as [r st b|i|]; simpl.
  - unfold apply_push. case_bool_decide; [simpl; eauto|]. unfold push_member.
    destruct (groups m !! listen_port (member_of r st)) as [g|] eqn:Hg.
    + case_bool_decide; [simpl; eauto|]. destruct (rebuild_watches _) as [h|] eqn:Hr; simpl;
        intros [[-> ->]|?]%Hput; eauto.
    + destruct b; simpl; [|eauto]. destruct (rebuild_watches _) as [h|] eqn:Hr; simpl; [|eauto].
      intros [[-> ->]|?]%Hput; eauto.
  - unfold apply_remove. destruct (rule_to_port m !! i) as [q|]; [|simpl; eauto].
    destruct (groups m !! q) as [g|] eqn:Hg; [|simpl; eauto]. simpl. case_bool_decide; simpl.
    + rewrite lookup_delete_Some. intros [_ ?]. eauto.
    + destruct (rebuild_watches _) as [h|] eqn:Hr; simpl; intros [[-> ->]|?]%Hput; eauto.
  - by rewrite lookup_empty.
Qed.

Lemma run_pub_ok ops : forall m, wf m ->
  (forall p g, groups m !! p = Some g -> pub_ok (PortGroups.PortGroups.published g)) ->
  forall p g, groups (PortGroups.PortGroups.run m ops).2 !! p = Some g ->
    pub_ok (PortGroups.PortGroups.published g).
Proof.
  induction ops as [|op ops IH]; intros m Hwf Hp p g; simpl; [by apply Hp|].
  pose proof (pg_exec_wf m op Hwf) as Hwf'. pose proof (exec_groups m op) as Hg.
  destruct (exec m op) as [res m']. simpl in *. specialize (IH m' Hwf').
  destruct (PortGroups.PortGroups.run m' ops) as [rs m'']. simpl in *. apply IH.
  intros q h Hh. destruct (Hg q h Hh) as [(h0 & Hh0 & ->)|(h0 & Hr)]; [by eapply Hp|].
  eapply rebuild_pub_ok; [|done]. intros i x Hx. by eapply Hwf'.
Qed.

Lemma handle_accept_slot s d captured sni el ok no nr s' f :
  handle_accept s d (Ok (captured, sni)) el ok no nr = Some (s', f) ->
  fate_slot f = match RouteTable.lookup (table d) sni with
                | RouteTable.Hit i _ => slots d !! i
                | RouteTable.Miss => None
                end /\
  (forall slot pre go gr, f = Dispatched slot pre go gr -> pre = captured) /\
  (forall i, f = SlotMissing i -> exists k, RouteTable.lookup (table d) sni = RouteTable.Hit i k /\
     slots d !! i = None).
Proof.
  unfold handle_accept. destruct (RouteTable.lookup (table d) sni) as [i k|] eqn:Hl.
  2: { intros; by simplify_eq. }
  destruct (slots d !! i) as [slot|] eqn:Hs.
  - intros (_ & _ & Hf & Hd)%gate_slot_frame. split_and!; [done|done|]. intros j ->. done.
  - intros; simplify_eq. split_and!; [done|done|]. intros j [= <-]. eauto.
Qed.

(** ** Examples *)

Definition ex_shared : Shared :=
  mkShared counters_zero {[ 1%nat := 0; 2%nat := 0; 3%nat := 0 ]} ∅ RateScope.empty_world.

Definition ex_ops : list Op := [ex_push 1 "a.example"; ex_push 2 "*.example"; Remove 1].

Definition ex_dispatch : DispatchState :=
  from_option PortGroups.PortGroups.published default_dispatch
    (groups (PortGroups.PortGroups.run new ex_ops).2 !! 443).

Definition ex_hello : list Z :=
  match ClientHello.build_client_hello (Some (lit "A.example")) with Returns b => b | Panics => [] end.

Definition ex_evs : list Ev :=
  [Publish ex_dispatch; Accept 1; Accept 2; Accept 3;
   PeekDone 1 (Ok (ex_hello, Some (lit "a.example"))) 1000000 true 0 0;
   PeekDone 2 (Err (ClientHello.Timeout 0)) 3000000001 true 0 0].

Definition ex_listener : Listener := default (start 2 ex_shared) (run (start 2 ex_shared) ex_evs).

(** ** Theorems *)

(** The listener never peeks at more connections than its cap: permits and
    peeks in flight always add up to it, whatever connections do and whatever
    is published meanwhile. *)
Theorem sni_peeks_bounded cap s evs l : run (start cap s) evs = Some l ->
  (size (peeking l) + permits l = cap)%nat.
Proof. intros H. by rewrite (run_permits _ _ _ H). Qed.

Lemma sni_peeks_bounded_witness :
  run (start 2 ex_shared) ex_evs = Some ex_listener /\
  (size (peeking ex_listener) + permits ex_listener = 2)%nat.
Proof.
  assert (H : run (start 2 ex_shared) ex_evs = Some ex_listener) by (vm_compute; reflexivity).
  split; [exact H|]. apply (sni_peeks_bounded 2 ex_shared ex_evs). exact H.
Defined.

(** Every accepted connection is counted exactly once: as refused for
    capacity, as a parse failure, as a miss, or on one route counter of the
    rule it matched, or it is still being peeked at. *)
Theorem sni_connections_accounted cap s evs l :
  Forall (counters_known (dom (atoms s))) (evs ≫= publishes) ->
  run (start cap s) evs = Some l ->
  wrap_u64 (tally (shared l) + Z.of_nat (size (peeking l))) = wrap_u64 (tally s + accepted l).
Proof.
  intros Hk H. eapply (listener_run (dom (atoms s)) (tally s)); [|done|done]. by split.
Qed.

Lemma sni_connections_accounted_witness :
  wrap_u64 (tally (shared ex_listener) + 0) = wrap_u64 (tally ex_shared + 3) /\
  miss (counters (shared ex_listener)) = 0 /\ parse_failures (counters (shared ex_listener)) = 1 /\
  peek_capacity_rejections (counters (shared ex_listener)) = 1.
Proof.
  split; [|vm_compute; done].
  assert (H : run (start 2 ex_shared) ex_evs = Some ex_listener) by (vm_compute; reflexivity).
  apply (sni_connections_accounted 2 ex_shared ex_evs ex_listener); [|exact H].
  apply Forall_singleton. intros i slot k Hs.
  assert (Hx : slots ex_dispatch = {[ 2 := slot_of (member_of (ex_rule 2 (Some (lit "*.example"))) ex_stats) ]})
    by (vm_compute; reflexivity).
  rewrite Hx in Hs. apply lookup_singleton_Some in Hs as [_ <-].
  apply elem_of_dom. destruct k; vm_compute; eauto.
Defined.

(** C4. From bytes to slot: on a port whose rules never clash, a connection
    whose hello was read, however the bytes arrived, is handled for exactly
    the slot of the live rule that its server name selects, or for none when
    no rule matches; and what the proxy will replay is what was taken from
    the stream. *)
Theorem sni_dispatch_end_to_end ops port g stream t0 cap script captured sni rest s el ok no nr s' f :
  clean ∅ ops -> groups (PortGroups.PortGroups.run new ops).2 !! port = Some g ->
  ClientHello.read_client_hello_with t0 3000 cap stream script =
    ClientHello.Done (Ok (captured, sni)) rest ->
  handle_accept s (PortGroups.PortGroups.published g) (Ok (captured, sni)) el ok no nr = Some (s', f) ->
  captured ++ rest = stream /\
  ClientHello.parse captured = Returns (Ok (ClientHello.Parsed sni)) /\
  fate_slot f = spec_dispatch (spec_run ∅ ops).2 port sni /\
  (forall slot pre go gr, f = Dispatched slot pre go gr -> pre = captured).
Proof.
  intros Hc Hg Hpeek Hh. unfold ClientHello.read_client_hello_with in Hpeek.
  apply ClientHello.peek_loop_inv in Hpeek as (got & -> & Hcap & Hparse). simpl in Hcap. subst got.
  destruct (handle_accept_slot _ _ _ _ _ _ _ _ _ _ Hh) as (Hslot & Hpre & _).
  destruct (sim_run ops _ _ rel_new Hc) as [_ Hrel].
  pose proof (dispatch_spec _ _ port sni Hrel) as Hd. unfold dispatch in Hd. rewrite Hg in Hd.
  split_and!; [done|done| |done]. congruence.
Qed.

Lemma sni_dispatch_end_to_end_witness :
  exists g s' f, groups (PortGroups.PortGroups.run new ex_ops).2 !! 443 = Some g /\
    handle_accept ex_shared (PortGroups.PortGroups.published g)
      (Ok (ex_hello, Some (lit "a.example"))) 1000 true 0 0 = Some (s', f) /\
    fate_slot f = Some (slot_of (member_of (ex_rule 2 (Some (lit "*.example"))) ex_stats)).
Proof.
  do 3 eexists. split; [vm_compute; reflexivity|]. split; [vm_compute; reflexivity|].
  set (g := mkGroup 443 {[ 2 := member_of (ex_rule 2 (Some (lit "*.example"))) ex_stats ]} ex_dispatch).
  assert (Hc : clean ∅ ex_ops).
  { split; [|split; [|done]]; intros y Hy; vm_compute in Hy.
    + by apply elem_of_nil in Hy.
    + apply list_elem_of_singleton in Hy as ->. vm_compute. discriminate. }
  assert (Hg : groups (PortGroups.PortGroups.run new ex_ops).2 !! 443 = Some g) by (vm_compute; reflexivity).
  assert (Hp : ClientHello.read_client_hello_with 0 3000 ClientHello.PEEK_BYTE_CAP ex_hello
    [(1, ClientHello.ReadSome 4096)] = ClientHello.Done (Ok (ex_hello, Some (lit "a.example"))) [])
    by (vm_compute; reflexivity).
  match goal with |- fate_slot ?f = _ =>
    assert (Hh : exists s', handle_accept ex_shared (PortGroups.PortGroups.published g)
      (Ok (ex_hello, Some (lit "a.example"))) 1000 true 0 0 = Some (s', f))
      by (eexists; vm_compute; reflexivity)
  end.
  destruct Hh as [s' Hh].
  destruct (sni_dispatch_end_to_end ex_ops 443 g _ _ _ _ _ _ _ _ _ _ _ _ _ _ Hc Hg Hp Hh)
    as (_ & _ & Hf & _).
  exact (eq_trans Hf ltac:(vm_compute; reflexivity)).
Defined.

(** The table and the slots a port publishes always belong together: after
    any sequence of pushes and removals, failed ones included, a connection is
    never routed to a rule the snapshot has no slot for. *)
Theorem published_pair_consistent ops port g s peek el ok no nr s' f i :
  groups (PortGroups.PortGroups.run new ops).2 !! port = Some g ->
  handle_accept s (PortGroups.PortGroups.published g) peek el ok no nr = Some (s', f) ->
  f <> SlotMissing i.
Proof.
  intros Hg Hh ->. destruct peek as [[captured sni]|e]; [|by simplify_eq/=].
  destruct (handle_accept_slot _ _ _ _ _ _ _ _ _ _ Hh) as (_ & _ & Hm).
  destruct (Hm i eq_refl) as (k & Hl & Hs).
  assert (pub_ok (PortGroups.PortGroups.published g)) as Hp.
  { eapply (run_pub_ok ops new wf_new); [|done]. intros p h. simpl. by rewrite lookup_empty. }
  destruct (Hp _ _ _ Hl) as [x Hx]. congruence.
Qed.

Lemma published_pair_consistent_witness :
  exists g s' f, groups (PortGroups.PortGroups.run new ex_ops).2 !! 443 = Some g /\
    handle_accept ex_shared (PortGroups.PortGroups.published g) (Ok ([], None)) 5 true 0 0 = Some (s', f) /\
    f <> SlotMissing 2.
Proof.
  set (g := mkGroup 443 {[ 2 := member_of (ex_rule 2 (Some (lit "*.example"))) ex_stats ]} ex_dispatch).
  assert (Hg : groups (PortGroups.PortGroups.run new ex_ops).2 !! 443 = Some g) by (vm_compute; reflexivity).
  assert (Hh : handle_accept ex_shared (PortGroups.PortGroups.published g) (Ok ([], None)) 5 true 0 0 =
    Some (add_miss (observe_peek ex_shared 5), NoMatch)) by (vm_compute; reflexivity).
  exists g, (add_miss (observe_peek ex_shared 5)), NoMatch. split; [exact Hg|]. split; [exact Hh|].
  exact (published_pair_consistent ex_ops 443 g _ _ _ _ _ _ _ _ 2 Hg Hh).
Defined.

End SniListener.
