(* ===== verification/UdpRegistry.v ===== *)
(** * UDP flows of a rule

    [crates/portunus-forwarder/src/forwarder/udp/registry.rs] (the flow
    registry with its rule-wide cap), [reaper.rs] (idle eviction), [error.rs]
    and the upstream cursor of [flow.rs].

    The registry is shared by the listener, the demux and the reaper.  Its
    operations are given twice: as functions, what one caller computes when
    nothing interferes, and as the interleaving of their atomic actions on the
    map and on the occupancy counter ([ustep]).  Keys are any countable type;
    a flow is a reference. *)

From S2P Require Import Prelude.
From stdpp Require Import relations.

Local Open Scope Z_scope.

Module UdpRegistry.

Inductive Slot : Type := Pending | Live (flow : nat).

#[export] Instance Slot_eq_dec : EqDecision Slot.
Proof. solve_decision. Defined.

Section Registry.
Context {FlowKey : Type} `{Countable FlowKey}.

(** [occupancy] is a [usize] of 64 bits; [cancelled] are the flows whose token
    was fired. *)
Record Registry : Type := mkRegistry {
  inner : gmap FlowKey Slot;
  occupancy : Z;
  dropped_overflow : Z;
  cancelled : gset nat;
}.

Definition new : Registry := mkRegistry ∅ 0 0 ∅.

Definition set_inner (r : Registry) (m : gmap FlowKey Slot) : Registry :=
  mkRegistry m (occupancy r) (dropped_overflow r) (cancelled r).

Definition fetch_add (r : Registry) (d : Z) : Registry :=
  mkRegistry (inner r) (wrap_u64 (occupancy r + d)) (dropped_overflow r) (cancelled r).

Definition count_drop (r : Registry) : Registry :=
  mkRegistry (inner r) (occupancy r) (wrap_u64 (dropped_overflow r + 1)) (cancelled r).

Definition cancel (r : Registry) (f : nat) : Registry :=
  mkRegistry (inner r) (occupancy r) (dropped_overflow r) ({[ f ]} ∪ cancelled r).

Definition len (r : Registry) : Z := occupancy r.

Definition get (r : Registry) (k : FlowKey) : option nat :=
  match inner r !! k with Some (Live f) => Some f | _ => None end.

Inductive TryGetOrReserve : Type :=
| Existing (f : nat)
| Reserved
| CapExhausted
| PendingCollision.

Definition try_get_or_reserve (cap : Z) (r : Registry) (k : FlowKey) : TryGetOrReserve * Registry :=
  match inner r !! k with
  | Some (Live f) => (Existing f, r)
  | Some Pending => (PendingCollision, r)
  | None =>
    let new_occ := wrap_u64 (occupancy r + 1) in
    let r := fetch_add r 1 in
    if cap <? new_occ then (CapExhausted, count_drop (fetch_add r (-1)))
    else
      match inner r !! k with
      | None => (Reserved, set_inner r (<[k := Pending]> (inner r)))
      | Some (Live f) => (Existing f, fetch_add r (-1))
      | Some Pending => (PendingCollision, fetch_add r (-1))
      end
  end.

Definition commit (r : Registry) (k : FlowKey) (f : nat) : Registry :=
  match inner r !! k with
  | Some _ => set_inner r (<[k := Live f]> (inner r))
  | None => fetch_add (set_inner r (<[k := Live f]> (inner r))) 1
  end.

(** [Drop for Reservation] of one that was not committed. *)
Definition drop_reservation (r : Registry) (k : FlowKey) : Registry :=
  match inner r !! k with
  | Some Pending => fetch_add (set_inner r (delete k (inner r))) (-1)
  | _ => r
  end.

Definition remove (r : Registry) (k : FlowKey) : option nat * Registry :=
  match inner r !! k with
  | Some (Live f) => (Some f, fetch_add (set_inner r (delete k (inner r))) (-1))
  | Some Pending => (None, fetch_add (set_inner r (delete k (inner r))) (-1))
  | None => (None, r)
  end.

Definition drain_one (r : Registry) (k : FlowKey) : Registry :=
  match inner r !! k with
  | Some s =>
    let r := set_inner r (delete k (inner r)) in
    let r := match s with Live f => cancel r f | Pending => r end in
    fetch_add r (-1)
  | None => r
  end.

Definition drain (r : Registry) : Registry := foldl drain_one r (map_to_list (inner r)).*1.

Definition snapshot_live (r : Registry) : list (FlowKey * nat) :=
  omap (fun kv => match kv.2 with Live f => Some (kv.1, f) | Pending => None end)
    (map_to_list (inner r)).

(** ** The reaper

    [last_seen] is what [last_seen_at] reads of each flow. *)

Definition sweep_step (now idle_window : Z) (last_seen : nat -> Z) (r : Registry)
  (entry : FlowKey * nat) : Registry :=
  let (k, f) := entry in
  if idle_window <? Z.max (now - last_seen f) 0 then
    match remove r k with
    | (Some _, r) => cancel r f
    | (None, r) => r
    end
  else r.

Definition sweep_list (now idle_window : Z) (last_seen : nat -> Z) (snap : list (FlowKey * nat))
  (r : Registry) : Registry :=
  foldl (sweep_step now idle_window last_seen) r snap.

Definition sweep_once (now idle_window : Z) (last_seen : nat -> Z) (r : Registry) : Registry :=
  sweep_list now idle_window last_seen (snapshot_live r) r.

(** ** Interleaving

    What each task is in the middle of. *)

Inductive Actor : Type :=
| Idle
| Reserving (k : FlowKey)            (* the fast path missed *)
| Bumped (k : FlowKey) (new_occ : Z) (* occupancy raised, the entry not yet taken *)
| Overflowed                         (* rolled back, the drop not yet counted *)
| Beaten                             (* lost the entry, not yet rolled back *)
| Holding (k : FlowKey)              (* a reservation *)
| Committing                         (* inserted a vacant entry, occupancy not yet raised *)
| Freed.                             (* removed an entry, occupancy not yet lowered *)

(** [foreign] says whether the slot of somebody's reservation may be removed by
    others: the demux and the reaper remove by key, and [drain] removes all. *)
Inductive uact (foreign : bool) (cap : Z) : Actor -> Registry -> Actor -> Registry -> Prop :=
| u_present r k s : inner r !! k = Some s -> uact foreign cap Idle r Idle r
| u_miss r k : inner r !! k = None -> uact foreign cap Idle r (Reserving k) r
| u_bump r k : uact foreign cap (Reserving k) r (Bumped k (wrap_u64 (occupancy r + 1))) (fetch_add r 1)
| u_overflow r k n : cap < n -> uact foreign cap (Bumped k n) r Overflowed (fetch_add r (-1))
| u_count r : uact foreign cap Overflowed r Idle (count_drop r)
| u_reserve r k n : n <= cap -> inner r !! k = None ->
    uact foreign cap (Bumped k n) r (Holding k) (set_inner r (<[k := Pending]> (inner r)))
| u_beaten r k n s : n <= cap -> inner r !! k = Some s -> uact foreign cap (Bumped k n) r Beaten r
| u_rollback r : uact foreign cap Beaten r Idle (fetch_add r (-1))
| u_commit r k f s : inner r !! k = Some s ->
    uact foreign cap (Holding k) r Idle (set_inner r (<[k := Live f]> (inner r)))
| u_commit_vacant r k f : inner r !! k = None ->
    uact foreign cap (Holding k) r Committing (set_inner r (<[k := Live f]> (inner r)))
| u_commit_add r : uact foreign cap Committing r Idle (fetch_add r 1)
| u_drop r k : inner r !! k = Some Pending ->
    uact foreign cap (Holding k) r Freed (set_inner r (delete k (inner r)))
| u_drop_gone r k : inner r !! k <> Some Pending -> uact foreign cap (Holding k) r Idle r
| u_free r : uact foreign cap Freed r Idle (fetch_add r (-1))
| u_remove r k f : inner r !! k = Some (Live f) ->
    uact foreign cap Idle r Freed (set_inner r (delete k (inner r)))
| u_remove_pending r k : foreign = true -> inner r !! k = Some Pending ->
    uact foreign cap Idle r Freed (set_inner r (delete k (inner r)))
| u_drain_live r k f : foreign = true -> inner r !! k = Some (Live f) ->
    uact foreign cap Idle r Freed (cancel (set_inner r (delete k (inner r))) f).

Definition System : Type := list Actor * Registry.

Inductive ustep (foreign : bool) (cap : Z) : System -> System -> Prop :=
| ustep_one actors r i a a' r' : actors !! i = Some a -> uact foreign cap a r a' r' ->
    ustep foreign cap (actors, r) (<[i := a']> actors, r').

Definition initial (n : nat) : System := (replicate n Idle, new).

(** What an actor's unfinished business adds to the counter beyond the
    entries of the map. *)
Definition debt (a : Actor) : Z :=
  match a with
  | Bumped _ _ | Beaten | Freed => 1
  | Committing => -1
  | _ => 0
  end.

(** An actor that will take an entry. *)
Definition granted (cap : Z) (a : Actor) : Z :=
  match a with Bumped _ n => if n <=? cap then 1 else 0 | _ => 0 end.

Definition size_of (r : Registry) : Z := Z.of_nat (size (inner r)).

(** ** Lemmas *)

Lemma size_insert_new (m : gmap FlowKey Slot) k s : m !! k = None ->
  Z.of_nat (size (<[k := s]> m)) = Z.of_nat (size m) + 1.
Proof. intros Hk. rewrite map_size_insert_None by done. lia. Qed.

Lemma size_insert_old (m : gmap FlowKey Slot) k s s' : m !! k = Some s ->
  Z.of_nat (size (<[k := s']> m)) = Z.of_nat (size m).
Proof. intros Hk. by rewrite map_size_insert_Some by eauto. Qed.

Lemma size_delete_old (m : gmap FlowKey Slot) k s : m !! k = Some s ->
  Z.of_nat (size (delete k m)) = Z.of_nat (size m) - 1.
Proof.
  intros Hk. rewrite map_size_delete_Some by eauto.
  assert (size m <> 0%nat) by (intros Hs; apply map_size_empty_iff in Hs; by rewrite Hs, lookup_empty in Hk).
  lia.
Qed.

(** Rewrites the size of an updated map into the size of the map. *)
Ltac sizes :=
  unfold size_of in *; simpl in *;
  repeat match goal with
  | Hk : ?m !! ?k = None |- context [size (<[?k := _]> ?m)] => rewrite (size_insert_new m k _ Hk)
  | Hk : ?m !! ?k = Some _ |- context [size (<[?k := _]> ?m)] => rewrite (size_insert_old m k _ _ Hk)
  | Hk : ?m !! ?k = Some _ |- context [size (delete ?k ?m)] => rewrite (size_delete_old m k _ Hk)
  end.

(** Every action keeps the counter equal to the entries and the debts. *)
Lemma uact_occupancy foreign cap a r a' r' rest : uact foreign cap a r a' r' ->
  occupancy r = wrap_u64 (size_of r + (rest + debt a)) ->
  occupancy r' = wrap_u64 (size_of r' + (rest + debt a')).
Proof.
  intros Ha Ho. destruct Ha; sizes; rewrite ?Ho, ?wrap_u64_add; try done; f_equal; lia.
Qed.

(** The counter is the number of entries and the debts of the actors. *)
Definition counted (sys : System) : Prop :=
  occupancy sys.2 = wrap_u64 (size_of sys.2 + sum_of debt sys.1).

Lemma ustep_counted foreign cap sys sys' : ustep foreign cap sys sys' -> counted sys -> counted sys'.
Proof.
  intros Hs Hc. destruct Hs as [cs r i a a' r' Hi Ha]. unfold counted in *. simpl in *.
  rewrite (sum_of_insert debt cs i a a' Hi).
  apply (uact_occupancy _ _ _ _ _ _ (sum_of debt cs - debt a) Ha).
  rewrite Hc. f_equal. lia.
Qed.

Lemma initial_counted n : counted (initial n).
Proof. unfold counted, initial. simpl. by rewrite sum_of_replicate. Qed.

Lemma usteps_counted foreign cap sys sys' : rtc (ustep foreign cap) sys sys' -> counted sys -> counted sys'.
Proof. induction 1; eauto using ustep_counted. Qed.

(** A reservation owns the pending slot of its key. *)
Definition holders_own (sys : System) : Prop :=
  (forall i k, sys.1 !! i = Some (Holding k) -> inner sys.2 !! k = Some Pending) /\
  (forall i j k, sys.1 !! i = Some (Holding k) -> sys.1 !! j = Some (Holding k) -> i = j) /\
  (forall i, sys.1 !! i <> Some Committing).

(** What an action does to the slot of a reservation held elsewhere, and which
    reservation it starts. *)
Lemma uact_slot cap a r a' r' k : uact false cap a r a' r' -> a <> Holding k ->
  inner r !! k = Some Pending -> inner r' !! k = Some Pending /\ a' <> Holding k.
Proof.
  intros Ha Hne Hk. destruct Ha; simpl in *; try done;
    try (split; [|congruence]);
    try (rewrite lookup_insert_ne by congruence; done);
    try (rewrite lookup_delete_ne by congruence; done); split; congruence.
Qed.

Lemma uact_starts cap a r a' r' k : uact false cap a r a' r' -> a' = Holding k ->
  inner r' !! k = Some Pending.
Proof. intros Ha ->. inversion Ha; subst; simpl. by rewrite lookup_insert_eq. Qed.

Lemma ustep_holders cap sys sys' : ustep false cap sys sys' -> holders_own sys -> holders_own sys'.
Proof.
  intros Hs (Hown & Huniq & Hnc). destruct Hs as [cs r i a a' r' Hi Ha]. simpl in *.
  assert (Hother : forall j k, j <> i -> cs !! j = Some (Holding k) ->
    inner r' !! k = Some Pending /\ a' <> Holding k).
  { intros j k Hj Hc. apply (uact_slot cap a r a' r' k Ha); [|by eapply Hown].
    intros ->. by apply Hj, (Huniq j i k). }
  assert (Hat : forall j x, <[i := a']> cs !! j = Some x -> (j = i /\ x = a') \/ (j <> i /\ cs !! j = Some x)).
  { intros j x Hx. apply list_lookup_insert_Some in Hx. naive_solver. }
  split_and!; simpl.
  - intros j k [[-> Hk]|[Hj Hc]]%Hat; [by eapply uact_starts|by eapply Hother].
  - intros j1 j2 k [[-> H1]|[Hj1 H1]]%Hat [[-> H2]|[Hj2 H2]]%Hat; [done| | |by eapply Huniq].
    + exfalso. by apply (Hother j2 k Hj2 H2).
    + exfalso. by apply (Hother j1 k Hj1 H1).
  - intros j [[-> Hj]|[Hj Hc]]%Hat; [|by apply (Hnc j)].
    inversion Ha; subst; try done. by rewrite (Hown i k) in *.
Qed.

(** Entries, and entries about to be taken, stay within the cap. *)
Definition within_cap (cap : Z) (sys : System) : Prop :=
  size_of sys.2 + sum_of (granted cap) sys.1 <= cap.

Lemma granted_le_debt cap a : a <> Committing -> granted cap a <= debt a.
Proof. destruct a; simpl; try done; try lia. intros _. destruct (_ <=? _); lia. Qed.

Lemma sum_granted_le_debt cap cs : (forall i, cs !! i <> Some Committing) ->
  sum_of (granted cap) cs <= sum_of debt cs.
Proof.
  induction cs as [|a cs IH]; [done|]. intros Hn. simpl.
  pose proof (granted_le_debt cap a ltac:(intros ->; by apply (Hn 0%nat))).
  specialize (IH (fun i => Hn (S i))). unfold sum_of in *. simpl in *. lia.
Qed.

Lemma sum_debt_nonneg (cs : list Actor) : (forall i, cs !! i <> Some Committing) -> 0 <= sum_of debt cs.
Proof.
  intros Hn. etransitivity; [|by apply (sum_granted_le_debt 0)].
  apply sum_of_nonneg. intros []; simpl; try done. by destruct (_ <=? _).
Qed.

Lemma sum_debt_le cs : sum_of debt cs <= Z.of_nat (length cs).
Proof. apply sum_of_le_length. intros []; simpl; lia. Qed.

Lemma uact_cap cap a r a' r' rest : uact false cap a r a' r' ->
  (forall k, a = Holding k -> inner r !! k = Some Pending) ->
  (forall k, a = Reserving k -> size_of r + rest + 1 <= wrap_u64 (occupancy r + 1)) ->
  size_of r + rest + granted cap a <= cap ->
  size_of r' + rest + granted cap a' <= cap.
Proof.
  intros Ha Hown Hres Hcap. destruct Ha; sizes; try done; try lia.
  - specialize (Hres k eq_refl). destruct (Z.leb_spec (wrap_u64 (occupancy r + 1)) cap); lia.
  - destruct (Z.leb_spec n cap); lia.
  - destruct (Z.leb_spec n cap); lia.
  - destruct (Z.leb_spec n cap); lia.
  - rewrite (Hown k) in *; done.
Qed.

Lemma ustep_cap cap sys sys' : ustep false cap sys sys' ->
  cap + Z.of_nat (length sys.1) < u64_max ->
  counted sys -> holders_own sys -> within_cap cap sys -> within_cap cap sys'.
Proof.
  intros Hs Hbig Hc (Hown & _ & Hnc) Hcap. destruct Hs as [cs r i a a' r' Hi Ha].
  unfold within_cap, counted in *. simpl in *.
  rewrite (sum_of_insert (granted cap) cs i a a' Hi).
  pose proof (uact_cap cap a r a' r' (sum_of (granted cap) cs - granted cap a) Ha) as Hu.
  enough (size_of r' + (sum_of (granted cap) cs - granted cap a) + granted cap a' <= cap) by lia.
  apply Hu; [by intros k ->; eapply Hown| |lia].
  intros k ->. rewrite Hc, wrap_u64_add.
  pose proof (sum_granted_le_debt cap cs Hnc). pose proof (sum_debt_nonneg cs Hnc).
  pose proof (sum_debt_le cs).
  assert (0 <= sum_of (granted cap) cs).
  { apply sum_of_nonneg. intros []; simpl; try done. by destruct (_ <=? _). }
  assert (0 <= size_of r) by (unfold size_of; lia).
  rewrite wrap_u64_id by (unfold in_u64; lia). simpl. lia.
Qed.

Lemma usteps_cap cap sys sys' : rtc (ustep false cap) sys sys' ->
  cap + Z.of_nat (length sys.1) < u64_max ->
  counted sys -> holders_own sys -> within_cap cap sys -> holders_own sys' /\ within_cap cap sys'.
Proof.
  induction 1 as [|sys1 sys2 sys3 Hs _ IH]; [done|]. intros Hbig Hc Hh Hcap. apply IH.
  - destruct Hs. simpl in *. by rewrite length_insert.
  - by eapply ustep_counted.
  - by eapply ustep_holders.
  - by eapply ustep_cap.
Qed.

Lemma initial_holders n : holders_own (initial n).
Proof. split_and!; simpl; intros *; rewrite ?lookup_replicate; naive_solver. Qed.

(** ** Sequential lemmas *)

(** The counter of a registry no task is in the middle of changing. *)
Definition balanced (r : Registry) : Prop := occupancy r = wrap_u64 (size_of r).

Definition idle_longer (now idle_window : Z) (last_seen : nat -> Z) (f : nat) : bool :=
  idle_window <? Z.max (now - last_seen f) 0.

Lemma drain_one_spec r k : balanced r ->
  balanced (drain_one r k) /\ inner (drain_one r k) = delete k (inner r) /\
  forall f, f ∈ cancelled (drain_one r k) <-> f ∈ cancelled r \/ inner r !! k = Some (Live f).
Proof.
  unfold drain_one. intros Hb. destruct (inner r !! k) as [s|] eqn:Hk.
  - destruct s; unfold balanced in *; sizes; rewrite Hb, wrap_u64_add; split_and!;
      try (f_equal; lia); try done; set_solver.
  - split_and!; [done|by rewrite delete_id|naive_solver].
Qed.

Lemma drain_list_spec ks r : balanced r ->
  balanced (foldl drain_one r ks) /\
  (forall k, inner (foldl drain_one r ks) !! k = if decide (k ∈ ks) then None else inner r !! k) /\
  forall f, f ∈ cancelled (foldl drain_one r ks) <->
    f ∈ cancelled r \/ exists k, k ∈ ks /\ inner r !! k = Some (Live f).
Proof.
  revert r. induction ks as [|k ks IH]; intros r Hb; simpl.
  { split_and!; [done|done|]. intros f. split; [by left|]. intros [?|(k & Hk & _)]; [done|].
    by apply elem_of_nil in Hk. }
  destruct (drain_one_spec r k Hb) as (Hb1 & Hi1 & Hc1). destruct (IH _ Hb1) as (Hb2 & Hi2 & Hc2).
  split_and!; [done| |].
  - intros k'. rewrite Hi2, Hi1. destruct (decide (k = k')) as [->|Hne].
    + rewrite lookup_delete_eq, (decide_True (P := k' ∈ k' :: ks)) by set_solver. by case_decide.
    + rewrite lookup_delete_ne by done. repeat case_decide; set_solver.
  - intros f. rewrite Hc2, Hc1, Hi1. split.
    + intros [[?|?]|(k' & Hin & [Hne Hl]%lookup_delete_Some)]; [by left| |];
        right; [exists k|exists k']; set_solver.
    + intros [?|(k' & [->|Hin]%elem_of_cons & Hl)]; [by left; left|by left; right|].
      destruct (decide (k = k')) as [->|Hne]; [by left; right|].
      right. exists k'. by rewrite lookup_delete_ne.
Qed.

Lemma elem_of_snapshot r k f : (k, f) ∈ snapshot_live r <-> inner r !! k = Some (Live f).
Proof.
  unfold snapshot_live. rewrite list_elem_of_omap. split.
  - intros ([k' s] & Hin%elem_of_map_to_list & Hs). simpl in Hs. destruct s; naive_solver.
  - intros Hk. exists (k, Live f). by rewrite elem_of_map_to_list.
Qed.

Lemma snapshot_NoDup r : NoDup (snapshot_live r).*1.
Proof.
  unfold snapshot_live. pose proof (NoDup_fst_map_to_list (inner r)) as Hn. revert Hn.
  induction (map_to_list (inner r)) as [|[k s] l IH]; simpl; [constructor|].
  intros [Hk Hn]%NoDup_cons. destruct s; simpl; [by apply IH|]. constructor; [|by apply IH].
  intros ([k' f] & -> & ([k2 s2] & Hin & Hs)%list_elem_of_omap)%list_elem_of_fmap. simpl in *.
  apply Hk, list_elem_of_fmap. exists (k2, s2). destruct s2; naive_solver.
Qed.

Lemma sweep_step_spec now w ls r k f : balanced r -> inner r !! k = Some (Live f) ->
  let r' := sweep_step now w ls r (k, f) in
  balanced r' /\
  inner r' = (if idle_longer now w ls f then delete k (inner r) else inner r) /\
  cancelled r' = if idle_longer now w ls f then {[ f ]} ∪ cancelled r else cancelled r.
Proof.
  intros Hb Hk. unfold sweep_step, idle_longer, remove. destruct (_ <? _); [|done].
  rewrite Hk. unfold balanced in *; sizes. rewrite Hb, wrap_u64_add. split_and!; [f_equal; lia|done..].
Qed.

#[local] Arguments sweep_step : simpl never.

Lemma sweep_list_spec now w ls snap r : balanced r -> NoDup snap.*1 ->
  (forall k f, (k, f) ∈ snap -> inner r !! k = Some (Live f)) ->
  let r' := sweep_list now w ls snap r in
  balanced r' /\
  (forall k s, inner r' !! k = Some s <-> inner r !! k = Some s /\
    forall f, (k, f) ∈ snap -> idle_longer now w ls f = false) /\
  forall f, f ∈ cancelled r' <-> f ∈ cancelled r \/
    idle_longer now w ls f = true /\ exists k, (k, f) ∈ snap.
Proof.
  unfold sweep_list. revert r. induction snap as [|[k f] snap IH]; intros r Hb Hn Hin; simpl.
  { split_and!; [done|intros k s; split; [intros Hk; split; [done|]; by intros f Hf%elem_of_nil|by intros [? _]]|].
    intros f. split; [by left|]. intros [?|(_ & k & Hk%elem_of_nil)]; done. }
  apply NoDup_cons in Hn as [Hk Hn]. simpl in Hk.
  assert (Hfresh : forall f', (k, f') ∉ snap).
  { intros f' Hf. apply Hk, list_elem_of_fmap. by exists (k, f'). }
  destruct (sweep_step_spec now w ls r k f Hb (Hin k f ltac:(left))) as (Hb1 & Hi1 & Hc1).
  set (r1 := sweep_step now w ls r (k, f)) in *.
  assert (Hin1 : forall k' f', (k', f') ∈ snap -> inner r1 !! k' = Some (Live f')).
  { intros k' f' Hs. rewrite Hi1. destruct (idle_longer _ _ _ _); [|by apply Hin; right].
    rewrite lookup_delete_ne; [by apply Hin; right|]. intros ->. by eapply Hfresh. }
  destruct (IH r1 Hb1 Hn Hin1) as (Hb2 & Hi2 & Hc2). split_and!; [done| |].
  - intros k' s. rewrite Hi2, Hi1. destruct (idle_longer now w ls f) eqn:Hf; rewrite ?lookup_delete_Some.
    + split; [intros [[Hne Hl] Ha]|intros [Hl Ha]].
      * split; [done|]. intros f' [|Hs]%elem_of_cons; [congruence|auto].
      * split; [split; [intros ->; rewrite (Ha f) in Hf by left; done|done]|].
        intros f' Hs. apply Ha. by right.
    + split; intros [Hl Ha]; (split; [done|]).
      * intros f' [?|Hs]%elem_of_cons; [congruence|auto].
      * intros f' Hs. apply Ha. by right.
  - intros f'. rewrite Hc2, Hc1. setoid_rewrite elem_of_cons.
    destruct (idle_longer now w ls f) eqn:Hf; rewrite ?elem_of_union, ?elem_of_singleton.
    + split; [intros [[->|?]|(? & k' & ?)]|intros [?|(? & k' & [[= -> ->]|?])]]; eauto 7.
    + split; [intros [?|(? & k' & ?)]|intros [?|(? & k' & [[= -> ->]|?])]]; eauto 7. congruence.
Qed.

(** ** One caller alone *)

Inductive solo (foreign : bool) (cap : Z) : Actor * Registry -> Actor * Registry -> Prop :=
| solo_one a r a' r' : uact foreign cap a r a' r' -> solo foreign cap (a, r) (a', r').

Definition after (o : TryGetOrReserve) (k : FlowKey) : Actor :=
  match o with Reserved => Holding k | _ => Idle end.

Lemma try_get_or_reserve_run foreign cap r k :
  rtc (solo foreign cap) (Idle, r) (after (try_get_or_reserve cap r k).1 k, (try_get_or_reserve cap r k).2).
Proof.
  unfold try_get_or_reserve. destruct (inner r !! k) as [[|f]|] eqn:Hk; simpl;
    [apply rtc_once; constructor; by eapply u_present..|].
  eapply rtc_l; [constructor; by apply u_miss|]. eapply rtc_l; [constructor; apply u_bump|].
  destruct (Z.ltb_spec cap (wrap_u64 (occupancy r + 1))); simpl.
  - eapply rtc_l; [constructor; by apply u_overflow|]. apply rtc_once. constructor. apply u_count.
  - rewrite Hk. simpl. apply rtc_once. constructor. by apply (u_reserve _ _ (fetch_add r 1)).
Qed.

Lemma commit_run foreign cap r k f : rtc (solo foreign cap) (Holding k, r) (Idle, commit r k f).
Proof.
  unfold commit. destruct (inner r !! k) eqn:Hk; [apply rtc_once; constructor; by eapply u_commit|].
  eapply rtc_l; [constructor; by eapply u_commit_vacant|]. apply rtc_once. constructor. apply u_commit_add.
Qed.

Lemma drop_run foreign cap r k : rtc (solo foreign cap) (Holding k, r) (Idle, drop_reservation r k).
Proof.
  unfold drop_reservation. destruct (inner r !! k) as [[|f]|] eqn:Hk.
  - eapply rtc_l; [constructor; by apply u_drop|]. apply rtc_once. constructor. apply u_free.
  - apply rtc_once. constructor. apply (u_drop_gone _ _ _ k). congruence.
  - apply rtc_once. constructor. apply (u_drop_gone _ _ _ k). congruence.
Qed.

Lemma remove_run cap r k : rtc (solo true cap) (Idle, r) (Idle, (remove r k).2).
Proof.
  unfold remove. destruct (inner r !! k) as [[|f]|] eqn:Hk; simpl; [| |done].
  - eapply rtc_l; [constructor; by eapply u_remove_pending|]. apply rtc_once. constructor. apply u_free.
  - eapply rtc_l; [constructor; by eapply u_remove|]. apply rtc_once. constructor. apply u_free.
Qed.

Lemma drain_one_run cap r k : rtc (solo true cap) (Idle, r) (Idle, drain_one r k).
Proof.
  unfold drain_one. destruct (inner r !! k) as [[|f]|] eqn:Hk; [| |done].
  - eapply rtc_l; [constructor; by eapply u_remove_pending|]. apply rtc_once. constructor. apply u_free.
  - eapply rtc_l; [constructor; by eapply u_drain_live|]. apply rtc_once. constructor. apply u_free.
Qed.

Lemma drain_list_run cap ks r : rtc (solo true cap) (Idle, r) (Idle, foldl drain_one r ks).
Proof.
  revert r. induction ks as [|k ks IH]; intros r; simpl; [done|].
  etransitivity; [apply drain_one_run|apply IH].
Qed.

(** ** Theorems *)

(** Occupancy is exact under every interleaving.  After any
    interleaving of the atomic actions of any number of tasks that look up,
    reserve, commit, abandon, remove and drain flows, the occupancy counter is
    the number of entries plus what the tasks in the middle of an operation
    have still to settle; so once no task is in the middle of one, [len] is
    the number of entries, pending ones included. *)
Theorem udp_occupancy_exact (foreign : bool) (cap : Z) (n : nat) (sys : System) :
  rtc (ustep foreign cap) (initial n) sys ->
  len sys.2 = wrap_u64 (size_of sys.2 + sum_of debt sys.1) /\
  (Forall (fun a => debt a = 0) sys.1 -> size_of sys.2 <= u64_max -> len sys.2 = size_of sys.2).
Proof.
  intros Hr. pose proof (usteps_counted _ _ _ _ Hr (initial_counted n)) as Hc.
  split; [exact Hc|]. intros Hz Hs. unfold len. rewrite Hc.
  assert (sum_of debt sys.1 = 0) as ->.
  { clear -Hz. induction Hz as [|a l Ha _ IH]; [done|]. unfold sum_of in *. simpl. lia. }
  rewrite Z.add_0_r. apply wrap_u64_id. unfold in_u64, size_of in *. lia.
Qed.

(** C30. The flow cap is never exceeded while reservations keep their slots.
    When a pending slot is only ever taken away by the task whose reservation
    it is, then however the tasks interleave, the number of flows and
    reservations of a rule never exceeds its cap, and every reservation still
    owns the pending slot of its key, which no other task holds. *)
Theorem udp_flow_cap (cap : Z) (n : nat) (sys : System) :
  0 <= cap -> cap + Z.of_nat n < u64_max ->
  rtc (ustep false cap) (initial n) sys ->
  size_of sys.2 <= cap /\ holders_own sys.
Proof.
  intros H0 Hbig Hr.
  destruct (usteps_cap cap _ _ Hr) as [Hh Hc]; [simpl; by rewrite length_replicate|..].
  - apply initial_counted.
  - apply initial_holders.
  - unfold within_cap, initial. simpl. by rewrite sum_of_replicate.
  - split; [|done]. unfold within_cap in Hc.
    assert (0 <= sum_of (granted cap) sys.1); [|lia].
    apply sum_of_nonneg. intros []; simpl; try done. by destruct (_ <=? _).
Qed.

(** The operations are runs of the interleaving.  What one caller of
    [try_get_or_reserve], [commit], [remove], [drain] or the drop of a
    reservation computes when nothing interferes is what its atomic actions do
    one after the other; a reservation is held exactly when
    [try_get_or_reserve] says so. *)
Theorem udp_operations_refine (cap : Z) (r : Registry) (k : FlowKey) (f : nat) :
  rtc (solo false cap) (Idle, r)
    (after (try_get_or_reserve cap r k).1 k, (try_get_or_reserve cap r k).2) /\
  rtc (solo false cap) (Holding k, r) (Idle, commit r k f) /\
  rtc (solo false cap) (Holding k, r) (Idle, drop_reservation r k) /\
  rtc (solo true cap) (Idle, r) (Idle, (remove r k).2) /\
  rtc (solo true cap) (Idle, r) (Idle, drain r).
Proof.
  eauto using try_get_or_reserve_run, commit_run, drop_run, remove_run, drain_list_run.
Qed.

(** Draining is complete.  [drain] leaves no entry and an occupancy of
    zero, and fires the token of exactly the live flows. *)
Theorem udp_drain_complete (r : Registry) : balanced r ->
  inner (drain r) = ∅ /\ len (drain r) = 0 /\
  forall f, f ∈ cancelled (drain r) <->
    f ∈ cancelled r \/ exists k, inner r !! k = Some (Live f).
Proof.
  intros Hb. destruct (drain_list_spec (map_to_list (inner r)).*1 r Hb) as (Hb' & Hi & Hc).
  assert (Hin : forall k s, inner r !! k = Some s -> k ∈ (map_to_list (inner r)).*1).
  { intros k s Hk. apply list_elem_of_fmap. exists (k, s). by rewrite elem_of_map_to_list. }
  fold (drain r) in *.
  assert (He : inner (drain r) = ∅).
  { apply map_eq. intros k. rewrite Hi, lookup_empty. case_decide as Hk; [done|].
    destruct (inner r !! k) eqn:Hl; [|done]. by apply Hin in Hl. }
  split_and!; [done| |].
  - unfold len. rewrite Hb'. unfold size_of. by rewrite He, map_size_empty.
  - intros f. rewrite Hc. naive_solver.
Qed.

(** The reaper evicts exactly the idle flows.  A sweep nothing
    interferes with removes a flow exactly when it has been idle for longer
    than the window, fires the token of exactly those, leaves pending slots
    and the other flows in place, and keeps the occupancy exact. *)
Theorem udp_sweep_exact (now idle_window : Z) (last_seen : nat -> Z) (r : Registry) : balanced r ->
  let r' := sweep_once now idle_window last_seen r in
  balanced r' /\
  (forall k, inner r' !! k =
    match inner r !! k with
    | Some (Live f) => if idle_longer now idle_window last_seen f then None else Some (Live f)
    | o => o
    end) /\
  forall f, f ∈ cancelled r' <-> f ∈ cancelled r \/
    idle_longer now idle_window last_seen f = true /\ exists k, inner r !! k = Some (Live f).
Proof.
  intros Hb. destruct (sweep_list_spec now idle_window last_seen (snapshot_live r) r Hb
    (snapshot_NoDup r) (fun k f => proj1 (elem_of_snapshot r k f))) as (Hb' & Hi & Hc).
  split_and!; [done| |].
  - intros k. apply option_eq. intros s. rewrite Hi. setoid_rewrite elem_of_snapshot.
    destruct (inner r !! k) as [[|f]|]; [naive_solver| |naive_solver].
    destruct (idle_longer _ _ _ f) eqn:Hf; [|naive_solver].
    split; [|done]. intros [_ Ha]. by rewrite (Ha f eq_refl) in Hf.
  - intros f. rewrite Hc. by setoid_rewrite elem_of_snapshot.
Qed.

End Registry.

Arguments Registry FlowKey {_ _}.
Arguments Actor : clear implicits.

(** A task reserves a key and commits a flow. *)
Lemma commits_one foreign :
  rtc (ustep (FlowKey := Z) foreign 1) (initial 2)
    ([Idle; Idle], mkRegistry {[ 7 := Live 1 ]} 1 0 ∅).
Proof.
  eapply rtc_l; [eapply (ustep_one _ _ _ _ 0); [done|by apply (u_miss _ _ _ 7)]|]. simpl.
  eapply rtc_l; [eapply (ustep_one _ _ _ _ 0); [done|apply u_bump]|]. simpl.
  eapply rtc_l; [eapply (ustep_one _ _ _ _ 0); [done|by apply u_reserve]|]. simpl.
  eapply rtc_l; [eapply (ustep_one _ _ _ _ 0); [done|by eapply (u_commit _ _ _ _ 1)]|]. simpl.
  apply rtc_refl.
Qed.

Lemma udp_occupancy_exact_witness :
  len (mkRegistry (FlowKey := Z) {[ 7 := Live 1 ]} 1 0 ∅) = 1.
Proof.
  pose proof (udp_occupancy_exact true 1 2 _ (commits_one true)) as [_ Hl].
  apply Hl; [by repeat constructor|by vm_compute].
Defined.

Lemma udp_flow_cap_witness : size_of (mkRegistry (FlowKey := Z) {[ 7 := Live 1 ]} 1 0 ∅) <= 1.
Proof.
  assert (H0 : 0 <= 1) by lia. assert (H1 : 1 + Z.of_nat 2 < u64_max) by done.
  exact (proj1 (udp_flow_cap 1 2 _ H0 H1 (commits_one false))).
Defined.

Lemma udp_drain_complete_witness : len (drain (mkRegistry (FlowKey := Z) {[ 7 := Live 1 ]} 1 0 ∅)) = 0.
Proof.
  assert (Hb : balanced (mkRegistry (FlowKey := Z) {[ 7 := Live 1 ]} 1 0 ∅)) by done.
  exact (proj1 (proj2 (udp_drain_complete _ Hb))).
Defined.

Lemma udp_sweep_exact_witness :
  balanced (sweep_once 100 60 (fun _ => 0) (mkRegistry (FlowKey := Z) {[ 7 := Live 1 ]} 1 0 ∅)).
Proof.
  assert (Hb : balanced (mkRegistry (FlowKey := Z) {[ 7 := Live 1 ]} 1 0 ∅)) by done.
  exact (proj1 (udp_sweep_exact 100 60 (fun _ => 0) _ Hb)).
Defined.

(** The cap can be exceeded.  With a cap of one: a task reserves a key, a
    drain takes its pending slot away, a second task reserves and commits
    another key within the cap, and the first task's commit inserts its flow
    into the now vacant entry without looking at the cap. *)
Theorem udp_cap_overshoot :
  exists sys, rtc (ustep (FlowKey := Z) true 1) (initial 3) sys /\
    sys.1 = replicate 3 Idle /\ 1 < size_of sys.2.
Proof.
  eexists (_, _). split.
  - eapply rtc_l; [eapply (ustep_one _ _ _ _ 0); [done|by apply (u_miss _ _ _ 7)]|]. simpl.
    eapply rtc_l; [eapply (ustep_one _ _ _ _ 0); [done|apply u_bump]|]. simpl.
    eapply rtc_l; [eapply (ustep_one _ _ _ _ 0); [done|by apply u_reserve]|]. simpl.
    eapply rtc_l; [eapply (ustep_one _ _ _ _ 1); [done|by apply (u_remove_pending _ _ _ 7)]|]. simpl.
    eapply rtc_l; [eapply (ustep_one _ _ _ _ 1); [done|apply u_free]|]. simpl.
    eapply rtc_l; [eapply (ustep_one _ _ _ _ 2); [done|by apply (u_miss _ _ _ 8)]|]. simpl.
    eapply rtc_l; [eapply (ustep_one _ _ _ _ 2); [done|apply u_bump]|]. simpl.
    eapply rtc_l; [eapply (ustep_one _ _ _ _ 2); [done|by apply u_reserve]|]. simpl.
    eapply rtc_l; [eapply (ustep_one _ _ _ _ 2); [done|by eapply (u_commit _ _ _ _ 2)]|]. simpl.
    eapply rtc_l; [eapply (ustep_one _ _ _ _ 0); [done|by apply (u_commit_vacant _ _ _ _ 1)]|]. simpl.
    eapply rtc_l; [eapply (ustep_one _ _ _ _ 0); [done|apply u_commit_add]|]. simpl.
    apply rtc_refl.
  - done.
Qed.

(** The reaper can evict the flow it did not look at.  The sweep decides
    on the flows it copied and removes by key: when flow 1 of a key goes away
    and flow 2 takes the key between the copy and the removal, the sweep takes
    the fresh flow 2 out of the registry and fires the token of flow 1. *)
Theorem udp_sweep_evicts_successor :
  exists (r0 r : Registry Z) (last_seen : nat -> Z),
    inner r0 !! 7 = Some (Live 1) /\
    r = commit (try_get_or_reserve 10 (remove r0 7).2 7).2 7 2 /\
    idle_longer 100 60 last_seen 2 = false /\
    let r' := sweep_list 100 60 last_seen (snapshot_live r0) r in
    inner r' !! 7 = None /\ 2%nat ∉ cancelled r' /\ 1%nat ∈ cancelled r'.
Proof.
  exists (commit (try_get_or_reserve 10 new 7).2 7 1). eexists.
  exists (fun f => if decide (f = 2%nat) then 100 else 0).
  split_and!; try done; vm_compute; set_solver.
Qed.

End UdpRegistry.

(** ** The upstream cursor of a flow *)

Module UdpFlow.

Section Cursor.
Context {SocketAddr : Type}.

Record UdpFlow : Type := mkFlow {
  upstream_addrs : list SocketAddr;
  current_addr_idx : Z;
}.

Definition addr_count (f : UdpFlow) : Z := Z.of_nat (length (upstream_addrs f)).

(** Indexing panics out of range, and so does [len() - 1] of an empty list. *)
Definition current_upstream (f : UdpFlow) : Outcome SocketAddr :=
  match upstream_addrs f !! Z.to_nat (Z.min (current_addr_idx f) (addr_count f - 1)) with
  | Some a => Returns a
  | None => Panics
  end.

Definition advance_upstream (f : UdpFlow) : Outcome (option SocketAddr) * UdpFlow :=
  let next := current_addr_idx f + 1 in
  if addr_count f <=? next then
    (Returns None, mkFlow (upstream_addrs f) (addr_count f - 1))
  else
    (match upstream_addrs f !! Z.to_nat next with
     | Some a => Returns (Some a)
     | None => Panics
     end, mkFlow (upstream_addrs f) next).

(** The flow after [n] calls. *)
Fixpoint advanced (n : nat) (f : UdpFlow) : UdpFlow :=
  match n with O => f | S n => (advance_upstream (advanced n f)).2 end.

Lemma advanced_index n a addrs :
  advanced n (mkFlow (a :: addrs) 0) =
  mkFlow (a :: addrs) (Z.min (Z.of_nat n) (Z.of_nat (length addrs))).
Proof.
  induction n as [|n IH]; [simpl; f_equal; lia|]. simpl. rewrite IH. unfold advance_upstream, addr_count.
  cbn [upstream_addrs current_addr_idx length]. destruct (Z.leb_spec (Z.of_nat (S (length addrs)))
    (Z.min (Z.of_nat n) (Z.of_nat (length addrs)) + 1)); simpl; f_equal; lia.
Qed.

(** A flow tries its upstream addresses in order, each once.  The n-th
    [advance_upstream] returns the n-th fallback address while there is one
    and [None] ever after; [current_upstream] then stays on the last address;
    neither panics. *)
Theorem udp_upstreams_in_order (a : SocketAddr) (addrs : list SocketAddr) (n : nat) :
  (advance_upstream (advanced n (mkFlow (a :: addrs) 0))).1 = Returns (addrs !! n) /\
  exists b, current_upstream (advanced n (mkFlow (a :: addrs) 0)) = Returns b /\
    (a :: addrs) !! Nat.min n (length addrs) = Some b.
Proof.
  rewrite advanced_index. unfold advance_upstream, current_upstream, addr_count. simpl length. split.
  - cbn [upstream_addrs current_addr_idx length]. destruct (Z.leb_spec (Z.of_nat (S (length addrs)))
      (Z.min (Z.of_nat n) (Z.of_nat (length addrs)) + 1)) as [Hle|Hle]; simpl.
    + f_equal. symmetry. apply lookup_ge_None. lia.
    + replace (Z.to_nat _) with (S n) by lia. simpl.
      destruct (lookup_lt_is_Some_2 addrs n) as [b Hb]; [lia|]. by rewrite Hb.
  - destruct (lookup_lt_is_Some_2 (a :: addrs) (Nat.min n (length addrs))) as [b Hb]; [simpl; lia|].
    exists b. split; [|done]. cbn [upstream_addrs current_addr_idx].
    replace (Z.to_nat _) with (Nat.min n (length addrs)) by lia. by rewrite Hb.
Qed.

End Cursor.
End UdpFlow.
