(* ===== verification/Resolver.v ===== *)
(** * Name resolution

    [crates/portunus-forwarder/src/resolver/cache.rs] (the cache of answers
    with its single flight, stale window and eviction) and the parts of
    [resolver/mod.rs] that order and dial the addresses.

    The cache is a map behind a mutex that is never held across a suspension:
    each critical section is one function ([get_locked], [apply_refresh]), and
    the tasks interleave between them ([step]).  The clock and the resolver's
    answers come with the events; [iter] is the iteration order of the hash
    map.  A [Notify] is a number, and [fired] are those whose waiters were
    woken: a waiter registers under the lock and a fresh one is made for every
    entry, so a wakeup is never missed and never repeated. *)

From S2P Require Import Prelude Text IpAddr.

Local Open Scope Z_scope.

Module Resolver.

Notation Hostname := (list Z).
Notation IpAddr := IpAddr.IpAddr.

Record ResolverConfig : Type := mkConfig {
  cache_floor : Z;
  cache_ceiling : Z;
  stale_while_error_grace : Z;
  attempt_timeout : Z;
  negative_cache_retry : Z;
  max_concurrent_resolves : nat;
  max_cache_entries : nat;
}.

Inductive ResolverError : Type :=
| EmptyAnswer
| Lookup (message : list Z)
| AttemptTimeout (after : Z)
| Overloaded (cap : nat).

Record ResolveAnswer : Type := mkAnswer { addrs : list IpAddr; ttl : Z }.

Inductive AnswerSource : Type := Fresh | Cached | Stale.

Record CacheResult : Type := mkResult { res_addrs : list IpAddr; source : AnswerSource }.

(** Times are nanoseconds. *)
Definition PENDING_ABANDON_MARGIN : Z := 1000000000.

Inductive CacheEntry : Type :=
| Pending (notify : nat) (started_at : Z)
| Resolved (entry_addrs : list IpAddr) (expiry last_access : Z)
| StaleAfterFailedRefresh (stale_addrs : list IpAddr) (fail_grace_until last_access : Z)
| Failed (retry_after : Z) (last_reason : ResolverError) (last_access : Z).

Record Cache : Type := mkCache {
  inner : gmap Hostname CacheEntry;
  resolve_slots : nat;
  fired : gset nat;
  next_notify : nat;
}.

Definition with_clock (max_concurrent : nat) : Cache := mkCache ∅ max_concurrent ∅ 0.

Definition set_inner (c : Cache) (m : gmap Hostname CacheEntry) : Cache :=
  mkCache m (resolve_slots c) (fired c) (next_notify c).

Definition set_entry (c : Cache) (name : Hostname) (e : CacheEntry) : Cache :=
  set_inner c (<[name := e]> (inner c)).

Definition notify_waiters (c : Cache) (ns : gset nat) : Cache :=
  mkCache (inner c) (resolve_slots c) (ns ∪ fired c) (next_notify c).

Definition try_reserve_slot (c : Cache) : option Cache :=
  match resolve_slots c with
  | O => None
  | S n => Some (mkCache (inner c) n (fired c) (next_notify c))
  end.

Definition release_slot (c : Cache) : Cache :=
  mkCache (inner c) (S (resolve_slots c)) (fired c) (next_notify c).

Definition install_pending (c : Cache) (name : Hostname) (now : Z) : Cache :=
  mkCache (<[name := Pending (next_notify c) now]> (inner c)) (resolve_slots c) (fired c)
    (S (next_notify c)).

Definition clamp_ttl (cfg : ResolverConfig) (t : Z) : Z :=
  Z.max (cache_floor cfg) (Z.min t (cache_ceiling cfg)).

Definition entry_deadline (e : CacheEntry) : option Z :=
  match e with
  | Pending _ _ => None
  | Resolved _ expiry _ => Some expiry
  | StaleAfterFailedRefresh _ until _ => Some until
  | Failed retry_after _ _ => Some retry_after
  end.

Definition entry_last_access (e : CacheEntry) : option Z :=
  match e with
  | Pending _ _ => None
  | Resolved _ _ a | StaleAfterFailedRefresh _ _ a | Failed _ _ a => Some a
  end.

Definition abandon_after (cfg : ResolverConfig) : Z := attempt_timeout cfg + PENDING_ABANDON_MARGIN.

Definition abandoned (now after started_at : Z) : bool := after <? Z.max (now - started_at) 0.

(** The predicate of the first pass. *)
Definition keep (now after : Z) (e : CacheEntry) : bool :=
  match e with
  | Pending _ started_at => negb (abandoned now after started_at)
  | _ => match entry_deadline e with None => true | Some d => now <? d end
  end.

Definition reaped (now after : Z) (m : gmap Hostname CacheEntry) : gset nat :=
  list_to_set (omap (fun kv : Hostname * CacheEntry =>
    match kv.2 with
    | Pending n started_at => if abandoned now after started_at then Some n else None
    | _ => None
    end) (map_to_list m)).

(** [Iterator::min_by_key]: the first of the smallest. *)
Fixpoint min_by_key (l : list (Hostname * Z)) : option (Hostname * Z) :=
  match l with
  | [] => None
  | x :: l => match min_by_key l with
              | Some y => Some (if y.2 <? x.2 then y else x)
              | None => Some x
              end
  end.

Section Eviction.
Variable iter : gmap Hostname CacheEntry -> list (Hostname * CacheEntry).

Definition victim (m : gmap Hostname CacheEntry) : option Hostname :=
  fst <$> min_by_key (omap (fun kv : Hostname * CacheEntry =>
    (fun a => (kv.1, a)) <$> entry_last_access kv.2) (iter m)).

(** The [while] loop; the size of the map is enough fuel. *)
Fixpoint evict_loop (fuel max_entries : nat) (m : gmap Hostname CacheEntry) :
  gmap Hostname CacheEntry :=
  if (size m <? max_entries)%nat then m
  else
    match fuel, victim m with
    | S fuel, Some k => evict_loop fuel max_entries (delete k m)
    | _, _ => m
    end.

Definition evict_locked (c : Cache) (now : Z) (max_entries : nat) (after : Z) : Cache :=
  if (size (inner c) <? max_entries)%nat then c
  else
    let kept := filter (fun kv => keep now after kv.2 = true) (inner c) in
    set_inner (notify_waiters c (reaped now after (inner c)))
      (evict_loop (size kept) max_entries kept).

(** What a critical section of [get_or_resolve] leads to. *)
Inductive Look : Type :=
| Answer (r : Result CacheResult ResolverError)
| WaitOn (notify : nat)
| Own (notify : nat) (stale : option (list IpAddr)).

(** Installs the caller's own pending entry, if a slot is free; [before] runs
    once the slot is reserved. *)
Definition own (cfg : ResolverConfig) (c : Cache) (name : Hostname) (now : Z)
  (stale : option (list IpAddr)) (before : Cache -> Cache) : Look * Cache :=
  match try_reserve_slot c with
  | None => (Answer (Err (Overloaded (max_concurrent_resolves cfg))), c)
  | Some c =>
    let c := before c in
    (Own (next_notify c) stale, install_pending c name now)
  end.

Definition get_locked (cfg : ResolverConfig) (c : Cache) (name : Hostname) (now : Z) : Look * Cache :=
  match inner c !! name with
  | Some (Resolved a expiry _) =>
    if now <? expiry then
      (Answer (Ok (mkResult a Cached)), set_entry c name (Resolved a expiry now))
    else own cfg c name now (Some a) id
  | Some (Pending notify started_at) =>
    if abandoned now (abandon_after cfg) started_at then
      own cfg c name now None (fun c => notify_waiters c {[ notify ]})
    else (WaitOn notify, c)
  | Some (StaleAfterFailedRefresh a until _) =>
    if now <? until then
      (Answer (Ok (mkResult a Stale)), set_entry c name (StaleAfterFailedRefresh a until now))
    else own cfg c name now None id
  | Some (Failed retry_after last_reason _) =>
    if now <? retry_after then (Answer (Err last_reason), c)
    else own cfg c name now None id
  | None =>
    own cfg c name now None
      (fun c => evict_locked c now (max_cache_entries cfg) (abandon_after cfg))
  end.

(** Stores the entry and wakes the waiters of the pending one it replaces. *)
Definition commit_entry (c : Cache) (name : Hostname) (e : CacheEntry) : Cache :=
  let c' := set_entry c name e in
  match inner c !! name with
  | Some (Pending notify _) => notify_waiters c' {[ notify ]}
  | _ => c'
  end.

Definition commit_failure (cfg : ResolverConfig) (c : Cache) (name : Hostname) (err : ResolverError)
  (stale : option (list IpAddr)) (now : Z) : Result CacheResult ResolverError * Cache :=
  match stale with
  | Some a =>
    (Ok (mkResult a Stale),
     commit_entry c name (StaleAfterFailedRefresh a (now + stale_while_error_grace cfg) now))
  | None =>
    (Err err, commit_entry c name (Failed (now + negative_cache_retry cfg) err now))
  end.

Definition apply_refresh (cfg : ResolverConfig) (c : Cache) (name : Hostname)
  (outcome : Result ResolveAnswer ResolverError) (stale : option (list IpAddr)) (now : Z) :
  Result CacheResult ResolverError * Cache :=
  match outcome with
  | Ok answer =>
    match addrs answer with
    | [] => commit_failure cfg c name EmptyAnswer stale now
    | _ =>
      (Ok (mkResult (addrs answer) Fresh),
       commit_entry c name (Resolved (addrs answer) (now + clamp_ttl cfg (ttl answer)) now))
    end
  | Err err => commit_failure cfg c name err stale now
  end.

(** ** The tasks *)

Inductive Task : Type :=
| Looking (name : Hostname) (rounds : nat)
| Waiting (name : Hostname) (notify : nat) (rounds : nat)
| Resolving (name : Hostname) (notify : nat) (started : Z) (stale : option (list IpAddr))
| Releasing (name : Hostname) (r : Result CacheResult ResolverError)
| Finished (name : Hostname) (r : Result CacheResult ResolverError)
| Dropped.

(** The answers the resolver gave, as [(name, when, answer)]. *)
Record Sys : Type := mkSys {
  cache : Cache;
  tasks : list Task;
  answers : list (Hostname * Z * ResolveAnswer);
}.

Inductive Action : Type :=
| Lock (now : Z)
| Wake
| Reply (now : Z) (outcome : Result ResolveAnswer ResolverError)
| Release
| Abort.

Inductive Event : Type :=
| Spawn (name : Hostname)
| Act (i : nat) (a : Action).

Definition oscillation : ResolverError := Lookup (lit "cache state oscillation").

Definition ROUNDS : nat := 4.

(** One step of a task in [get_or_resolve]; a task may be dropped wherever it
    awaits, and gives its slot back then. *)
Definition task_step (cfg : ResolverConfig) (c : Cache) (t : Task) (a : Action) :
  option (Task * Cache) :=
  match a, t with
  | Lock _, Looking name O => Some (Finished name (Err oscillation), c)
  | Lock now, Looking name (S rounds) =>
    let (l, c) := get_locked cfg c name now in
    Some (match l with
          | Answer r => Finished name r
          | WaitOn n => Waiting name n rounds
          | Own n stale => Resolving name n now stale
          end, c)
  | Wake, Waiting name n rounds =>
    if decide (n ∈ fired c) then Some (Looking name rounds, c) else None
  | Reply now outcome, Resolving name _ _ stale =>
    let (r, c) := apply_refresh cfg c name outcome stale now in Some (Releasing name r, c)
  | Release, Releasing name r => Some (Finished name r, release_slot c)
  | Abort, Looking _ _ | Abort, Waiting _ _ _ => Some (Dropped, c)
  | Abort, Resolving _ _ _ _ => Some (Dropped, release_slot c)
  | _, _ => None
  end.

(** What the resolver answered in a step. *)
Definition answered (t : Task) (a : Action) : list (Hostname * Z * ResolveAnswer) :=
  match a, t with
  | Reply now (Ok answer), Resolving name _ _ _ => [(name, now, answer)]
  | _, _ => []
  end.

Definition step (cfg : ResolverConfig) (s : Sys) (ev : Event) : option Sys :=
  match ev with
  | Spawn name => Some (mkSys (cache s) (tasks s ++ [Looking name ROUNDS]) (answers s))
  | Act i a =>
    t ← tasks s !! i;
    '(t', c) ← task_step cfg (cache s) t a;
    Some (mkSys c (<[i := t']> (tasks s)) (answered t a ++ answers s))
  end.

Definition start (cfg : ResolverConfig) : Sys :=
  mkSys (with_clock (max_concurrent_resolves cfg)) [] [].

(** The states a system reaches by events that [allowed] permits. *)
Inductive reach (allowed : Sys -> Event -> Prop) (cfg : ResolverConfig) : Sys -> Prop :=
| reach_start : reach allowed cfg (start cfg)
| reach_step s ev s' : reach allowed cfg s -> allowed s ev -> step cfg s ev = Some s' ->
    reach allowed cfg s'.

(** ** Eviction lemmas *)

Context (iter_perm : forall m, iter m ≡ₚ map_to_list m).

Lemma min_by_key_in l x : min_by_key l = Some x -> x ∈ l.
Proof.
  revert x. induction l as [|y l IH]; intros x; simpl; [done|].
  destruct (min_by_key l) as [z|]; intros [= <-]; [|left].
  destruct (_ <? _); [right; by apply IH|left].
Qed.

Lemma min_by_key_None l : min_by_key l = None -> l = [].
Proof. destruct l as [|x l]; [done|]. simpl. by destruct (min_by_key l). Qed.

Lemma victim_some m k : victim m = Some k -> exists e, m !! k = Some e /\ is_Some (entry_last_access e).
Proof.
  unfold victim. intros ([k' a] & Hm & ->)%fmap_Some. apply min_by_key_in in Hm.
  apply list_elem_of_omap in Hm as ([k2 e] & Hin & Ha). rewrite iter_perm in Hin.
  apply elem_of_map_to_list in Hin. simpl in Ha.
  destruct (entry_last_access e) eqn:He; simplify_eq/=. exists e. by rewrite He.
Qed.

Lemma victim_none m k e : victim m = None -> m !! k = Some e -> entry_last_access e = None.
Proof.
  unfold victim. intros Hv%fmap_None%min_by_key_None Hk. apply elem_of_map_to_list in Hk.
  rewrite <-iter_perm in Hk. destruct (entry_last_access e) as [a|] eqn:He; [|done].
  assert (Hin : (k, a) ∈ ([] : list (Hostname * Z))).
  { rewrite <-Hv. apply list_elem_of_omap. exists (k, e). split; [done|]. simpl. by rewrite He. }
  by apply elem_of_nil in Hin.
Qed.

Lemma evict_loop_sub fuel n m : evict_loop fuel n m ⊆ m.
Proof.
  revert m. induction fuel as [|fuel IH]; intros m; simpl; (case_match; [done|]); [done|].
  destruct (victim m); [|done]. etransitivity; [apply IH|apply delete_subseteq].
Qed.

Lemma evict_loop_pending fuel n m k w t : m !! k = Some (Pending w t) ->
  evict_loop fuel n m !! k = Some (Pending w t).
Proof.
  revert m. induction fuel as [|fuel IH]; intros m Hk; simpl; (case_match; [done|]); [done|].
  destruct (victim m) as [v|] eqn:Hv; [|done]. apply IH.
  destruct (victim_some m v Hv) as (e & He & [a Ha]).
  rewrite lookup_delete_ne; [done|]. intros ->. rewrite Hk in He. by simplify_eq/=.
Qed.

(** The loop ends below the bound or with pending entries only. *)
Lemma evict_loop_done fuel n m : (size m <= fuel)%nat ->
  (size (evict_loop fuel n m) < n)%nat \/
  forall k e, evict_loop fuel n m !! k = Some e -> entry_last_access e = None.
Proof.
  revert m. induction fuel as [|fuel IH]; intros m Hm; simpl.
  - right. assert (Hs : size m = 0%nat) by lia. apply map_size_empty_iff in Hs. subst.
    case_match; intros k e; by rewrite lookup_empty.
  - destruct (Nat.ltb_spec (size m) n); [by left|].
    destruct (victim m) as [v|] eqn:Hv; [|right; intros k e; by apply victim_none].
    apply IH. destruct (victim_some m v Hv) as (e & He & _).
    rewrite map_size_delete_Some by eauto. lia.
Qed.

Lemma evict_keeps c now n after k w t : inner c !! k = Some (Pending w t) ->
  abandoned now after t = false -> inner (evict_locked c now n after) !! k = Some (Pending w t).
Proof.
  intros Hk Ha. unfold evict_locked. case_match; [done|]. simpl. apply evict_loop_pending.
  apply map_lookup_filter_Some. split; [done|]. simpl. by rewrite Ha.
Qed.

Lemma evict_fires c now n after k w t : inner c !! k = Some (Pending w t) ->
  abandoned now after t = true -> inner (evict_locked c now n after) !! k = Some (Pending w t) \/
  w ∈ fired (evict_locked c now n after).
Proof.
  intros Hk Ha. unfold evict_locked. case_match; [by left|]. right. simpl.
  apply elem_of_union_l, elem_of_list_to_set, list_elem_of_omap.
  exists (k, Pending w t). rewrite elem_of_map_to_list. simpl. by rewrite Ha.
Qed.

Lemma evict_inner_sub c now n after : inner (evict_locked c now n after) ⊆ inner c.
Proof.
  unfold evict_locked. case_match; [done|]. simpl.
  etransitivity; [apply evict_loop_sub|apply map_filter_subseteq].
Qed.

Lemma evict_rest c now n after :
  resolve_slots (evict_locked c now n after) = resolve_slots c /\
  next_notify (evict_locked c now n after) = next_notify c /\
  fired c ⊆ fired (evict_locked c now n after).
Proof. unfold evict_locked. case_match; [done|]. simpl. set_solver. Qed.

Lemma evict_bound c now n after :
  (size (inner (evict_locked c now n after)) < n)%nat \/
  forall k e, inner (evict_locked c now n after) !! k = Some e -> entry_last_access e = None.
Proof.
  unfold evict_locked. destruct (Nat.ltb_spec (size (inner c)) n); [by left|]. simpl.
  by apply evict_loop_done.
Qed.

(** ** What a critical section does *)

(** No waiter of [c] is left on an entry that is gone in [c']. *)
Definition no_strand (c c' : Cache) : Prop :=
  fired c ⊆ fired c' /\
  forall name n t, inner c !! name = Some (Pending n t) ->
    n ∈ fired c' \/ inner c' !! name = Some (Pending n t).

Lemma no_strand_refl c : no_strand c c.
Proof. split; [done|]. by right. Qed.

Lemma set_entry_no_strand c name e e' : inner c !! name = Some e' -> entry_last_access e' <> None ->
  no_strand c (set_entry c name e).
Proof.
  intros Hn He. split; [done|]. intros k n t Hk. right. simpl.
  rewrite lookup_insert_ne; [done|]. intros ->. rewrite Hn in Hk. by simplify_eq.
Qed.

Lemma commit_entry_no_strand c name e : no_strand c (commit_entry c name e).
Proof.
  unfold commit_entry. split; [by destruct (inner c !! name) as [[]|]; simpl; set_solver|].
  intros k n t Hk. destruct (decide (k = name)) as [->|Hne].
  - left. rewrite Hk. simpl. set_solver.
  - right. destruct (inner c !! name) as [[]|]; simpl; by rewrite lookup_insert_ne.
Qed.

Lemma apply_refresh_commits cfg c name outcome stale now : exists e r,
  apply_refresh cfg c name outcome stale now = (r, commit_entry c name e) /\
  is_Some (entry_last_access e).
Proof.
  unfold apply_refresh, commit_failure. destruct outcome as [[[|a l] t]|err], stale; simpl; eauto 6.
Qed.

(** How the caller's own entry is installed. *)
Lemma own_cases cfg c name now stale before :
  (exists r, own cfg c name now stale before = (Answer r, c)) \/
  (exists c1, try_reserve_slot c = Some c1 /\
    own cfg c name now stale before =
      (Own (next_notify (before c1)) stale, install_pending (before c1) name now)).
Proof. unfold own. destruct (try_reserve_slot c); eauto. Qed.

Lemma reserve_spec c c1 : try_reserve_slot c = Some c1 ->
  inner c1 = inner c /\ fired c1 = fired c /\ next_notify c1 = next_notify c /\
  resolve_slots c = S (resolve_slots c1).
Proof. unfold try_reserve_slot. destruct (resolve_slots c); naive_solver. Qed.

(** What the cache [c1] looks like in which the caller installs its entry. *)
Record prepared (cfg : ResolverConfig) (c : Cache) (name : Hostname) (now : Z) (c1 : Cache) : Prop := {
  pre_notify : next_notify c1 = next_notify c;
  pre_slots : resolve_slots c = S (resolve_slots c1);
  pre_sub : inner c1 ⊆ inner c;
  pre_fired : fired c ⊆ fired c1;
  pre_wakes : forall k n t, inner c !! k = Some (Pending n t) ->
    n ∈ fired c1 \/ (inner c1 !! k = Some (Pending n t) /\ k <> name);
  pre_keeps : forall k n t, inner c !! k = Some (Pending n t) ->
    abandoned now (abandon_after cfg) t = false ->
    inner c1 !! k = Some (Pending n t) /\ k <> name;
  pre_size : (is_Some (inner c !! name) /\ inner c1 = inner c) \/
    (size (inner c1) < max_cache_entries cfg)%nat \/
    forall k e, inner c1 !! k = Some e -> entry_last_access e = None;
}.

Lemma prepared_id cfg c name now c1 e : try_reserve_slot c = Some c1 ->
  inner c !! name = Some e -> entry_last_access e <> None -> prepared cfg c name now (id c1).
Proof.
  intros (Hi & Hf & Hx & Hs)%reserve_spec He Hl. unfold id.
  assert (forall k n t, inner c !! k = Some (Pending n t) -> k <> name).
  { intros k n t Hk ->. rewrite He in Hk. by simplify_eq. }
  split; rewrite ?Hi, ?Hf; try done; eauto.
Qed.

Lemma prepared_wake cfg c name now c1 n t : try_reserve_slot c = Some c1 ->
  inner c !! name = Some (Pending n t) -> abandoned now (abandon_after cfg) t = true ->
  prepared cfg c name now (notify_waiters c1 {[ n ]}).
Proof.
  intros (Hi & Hf & Hx & Hs)%reserve_spec He Hl.
  split; simpl; rewrite ?Hi, ?Hf; try done; [set_solver| | |eauto].
  - intros k m u Hk. destruct (decide (k = name)) as [->|Hne]; [|by right].
    left. rewrite He in Hk. set_solver.
  - intros k m u Hk Ha. split; [done|]. intros ->. congruence.
Qed.

Lemma prepared_evict cfg c name now c1 : try_reserve_slot c = Some c1 -> inner c !! name = None ->
  prepared cfg c name now (evict_locked c1 now (max_cache_entries cfg) (abandon_after cfg)).
Proof.
  intros (Hi & Hf & Hx & Hs)%reserve_spec Hn.
  destruct (evict_rest c1 now (max_cache_entries cfg) (abandon_after cfg)) as (Hr1 & Hr2 & Hr3).
  assert (Hne : forall k n t, inner c !! k = Some (Pending n t) -> k <> name).
  { intros k n t Hk ->. by rewrite Hn in Hk. }
  split; rewrite <-?Hi, <-?Hf; try congruence;
    [apply evict_inner_sub|done| | |right; apply evict_bound].
  - intros k n t Hk. pose proof Hk as Hk'. rewrite Hi in Hk'.
    destruct (abandoned now (abandon_after cfg) t) eqn:Ha.
    + destruct (evict_fires _ _ (max_cache_entries cfg) _ _ _ _ Hk Ha); eauto.
    + right. split; [by apply evict_keeps|by eapply Hne].
  - intros k n t Hk Ha. split; [by apply evict_keeps|]. rewrite Hi in Hk. by eapply Hne.
Qed.

Definition looked (cfg : ResolverConfig) (c : Cache) (name : Hostname) (now : Z) (l : Look)
  (c' : Cache) : Prop :=
  match l with
  | Answer r => c' = c \/ exists e e', inner c !! name = Some e /\ entry_last_access e <> None /\
      entry_last_access e' <> None /\ c' = set_entry c name e'
  | WaitOn n => c' = c /\ exists t, inner c !! name = Some (Pending n t)
  | Own n stale => n = next_notify c /\ exists c1, prepared cfg c name now c1 /\
      c' = install_pending c1 name now
  end.

Lemma own_looked cfg c name now stale before :
  (forall c1, try_reserve_slot c = Some c1 -> prepared cfg c name now (before c1)) ->
  looked cfg c name now (own cfg c name now stale before).1 (own cfg c name now stale before).2.
Proof.
  intros Hb. destruct (own_cases cfg c name now stale before) as [[r ->]|(c1 & Hr & ->)]; simpl; [by left|].
  specialize (Hb c1 Hr). split; [apply Hb|]. eauto.
Qed.

Lemma get_locked_looked cfg c name now :
  looked cfg c name now (get_locked cfg c name now).1 (get_locked cfg c name now).2.
Proof.
  unfold get_locked. destruct (inner c !! name) as [[n t|a x la|a x la|x e la]|] eqn:Hn.
  - destruct (abandoned _ _ _) eqn:Ha; [|simpl; eauto].
    apply own_looked. intros c1 Hr. by eapply prepared_wake.
  - case_match; [simpl; right; eexists _, (Resolved a x now); by split_and!|].
    apply own_looked. intros c1 Hr. by eapply prepared_id.
  - case_match; [simpl; right; eexists _, (StaleAfterFailedRefresh a x now); by split_and!|].
    apply own_looked. intros c1 Hr. by eapply prepared_id.
  - case_match; [by left|]. apply own_looked. intros c1 Hr. by eapply prepared_id.
  - apply own_looked. intros c1 Hr. by apply prepared_evict.
Qed.

Lemma prepared_no_strand cfg c name now c1 : prepared cfg c name now c1 ->
  no_strand c (install_pending c1 name now).
Proof.
  intros Hp. split; [apply Hp|]. intros k n t Hk.
  destruct (pre_wakes _ _ _ _ _ Hp k n t Hk) as [?|[Hk' Hne]]; [by left|].
  right. simpl. by rewrite lookup_insert_ne.
Qed.

Lemma looked_no_strand cfg c name now l c' : looked cfg c name now l c' -> no_strand c c'.
Proof.
  destruct l; simpl.
  - intros [->|(e & e' & He & Hl & _ & ->)]; [apply no_strand_refl|by eapply set_entry_no_strand].
  - intros [-> _]. apply no_strand_refl.
  - intros (_ & c1 & Hp & ->). by eapply prepared_no_strand.
Qed.

Lemma step_act cfg s i a s' : step cfg s (Act i a) = Some s' -> exists t t' c,
  tasks s !! i = Some t /\ task_step cfg (cache s) t a = Some (t', c) /\
  s' = mkSys c (<[i := t']> (tasks s)) (answered t a ++ answers s).
Proof.
  simpl. intros (t & Ht & Hs)%bind_Some. apply bind_Some in Hs as ([t' c] & Hs & [= <-]). eauto 6.
Qed.

(** A task's step, by what it does to the cache. *)
Lemma task_step_cases cfg c t a t' c' : task_step cfg c t a = Some (t', c') ->
  (exists name now l rounds, t = Looking name (S rounds) /\ a = Lock now /\ looked cfg c name now l c' /\
    t' = match l with
         | Answer r => Finished name r
         | WaitOn n => Waiting name n rounds
         | Own n stale => Resolving name n now stale
         end) \/
  (exists name n u stale e r now outcome, t = Resolving name n u stale /\ a = Reply now outcome /\
    t' = Releasing name r /\ c' = commit_entry c name e /\ is_Some (entry_last_access e)) \/
  (c' = c /\ (forall name n u stale, t <> Resolving name n u stale /\ t' <> Resolving name n u stale) /\
    (forall name r, t <> Releasing name r /\ t' <> Releasing name r) /\
    (forall name n rounds, t' <> Waiting name n rounds)) \/
  (c' = release_slot c /\ ((exists name r, t = Releasing name r /\ t' = Finished name r) \/
    (exists name n u stale, t = Resolving name n u stale /\ a = Abort /\ t' = Dropped))).
Proof.
  intros Hs. destruct a as [now| |now outcome| |], t; simpl in Hs; try done.
  - destruct rounds as [|rounds]; [simplify_eq; right; right; left; by split_and!|].
    left. pose proof (get_locked_looked cfg c name now) as Hl.
    destruct (get_locked cfg c name now) as [l c1]. simplify_eq/=. eauto 9.
  - case_decide; simplify_eq. right; right; left; by split_and!.
  - right. left. destruct (apply_refresh_commits cfg c name outcome stale now) as (e & r & Hr & He).
    rewrite Hr in Hs. simplify_eq. by eexists _, _, _, _, _, _, _, _.
  - simplify_eq. right; right; right. eauto 6.
  - simplify_eq. right; right; left; by split_and!.
  - simplify_eq. right; right; left; by split_and!.
  - simplify_eq. right; right; right. split; [done|]. right. by eexists _, _, _, _.
Qed.

(** Invariants of the tasks against the cache, proved action by action. *)
Lemma tasks_invariant (allowed : Sys -> Event -> Prop) cfg (I : Cache -> Task -> Prop) s :
  (forall c name, I c (Looking name ROUNDS)) ->
  (forall c t a t' c', task_step cfg c t a = Some (t', c') -> I c t -> I c' t') ->
  (forall c t a t' c' u, task_step cfg c t a = Some (t', c') -> I c u -> I c' u) ->
  reach allowed cfg s -> Forall (I (cache s)) (tasks s).
Proof.
  intros Hnew Hself Hother. induction 1 as [|s ev s' _ IH _ Hs]; [by constructor|].
  destruct ev as [name|i a]; [simplify_eq/=; apply Forall_app; split; [done|by repeat constructor]|].
  apply step_act in Hs as (t & t' & c & Ht & Hs & ->). simpl.
  apply Forall_insert; [|eapply Hself; [done|by eapply Forall_lookup_1]].
  eapply Forall_impl; [exact IH|]. intros u. by eapply Hother.
Qed.

(** A waiter that was not woken waits on the entry that is in the cache. *)
Definition waiter_ok (c : Cache) (t : Task) : Prop :=
  match t with
  | Waiting name n _ => n ∈ fired c \/ exists u, inner c !! name = Some (Pending n u)
  | _ => True
  end.

Lemma task_step_no_strand cfg c t a t' c' : task_step cfg c t a = Some (t', c') -> no_strand c c'.
Proof.
  intros [(name & now & l & rounds & _ & _ & Hl & _)|[(name & n & u & stale & e & r & now & o & _ & _ & _ & -> & _)
    |[[-> _]|[-> _]]]]%task_step_cases; [by eapply looked_no_strand|apply commit_entry_no_strand|apply no_strand_refl|].
  split; [done|by right].
Qed.

Lemma waiter_ok_mono c c' t : no_strand c c' -> waiter_ok c t -> waiter_ok c' t.
Proof.
  intros [Hf Hk]. destruct t; simpl; try done. intros [Hn|[u Hu]]; [left; by apply Hf|].
  destruct (Hk _ _ _ Hu); eauto.
Qed.

Lemma waiter_ok_self cfg c t a t' c' : task_step cfg c t a = Some (t', c') -> waiter_ok c' t'.
Proof.
  intros [(name & now & l & rounds & _ & _ & Hl & ->)|[(name & n & u & stale & e & r & now & o & _ & _ & -> & _ & _)
    |[(-> & _ & _ & Hw)|(-> & [(name & r & _ & ->)|(name & n & u & stale & _ & _ & ->)])]]]%task_step_cases;
    try done.
  - destruct l; simpl in *; try done. destruct Hl as [-> [u Hu]]. eauto.
  - destruct t'; try done. by edestruct Hw.
Qed.

(** Slots are neither lost nor made. *)
Definition holds_slot (t : Task) : Z :=
  match t with Resolving _ _ _ _ | Releasing _ _ => 1 | _ => 0 end.

Lemma task_step_slots cfg c t a t' c' : task_step cfg c t a = Some (t', c') ->
  Z.of_nat (resolve_slots c') + holds_slot t' = Z.of_nat (resolve_slots c) + holds_slot t.
Proof.
  intros [(name & now & l & rounds & -> & _ & Hl & ->)|[(name & n & u & stale & e & r & now & o & -> & _ & -> & -> & _)
    |[(-> & Hr & Hw & _)|(-> & [(name & r & -> & ->)|(name & n & u & stale & -> & _ & ->)])]]]%task_step_cases;
    simpl; try lia.
  - destruct l; simpl in *.
    + destruct Hl as [->|(e & e' & _ & _ & _ & ->)]; done.
    + by destruct Hl as [-> _].
    + destruct Hl as (_ & c1 & Hp & ->). simpl. rewrite (pre_slots _ _ _ _ _ Hp). lia.
  - unfold commit_entry. destruct (inner c !! name) as [[]|]; done.
  - f_equal. destruct t, t'; try done; exfalso; naive_solver.
Qed.

Lemma reach_slots allowed cfg s : reach allowed cfg s ->
  Z.of_nat (resolve_slots (cache s)) + sum_of holds_slot (tasks s) =
  Z.of_nat (max_concurrent_resolves cfg).
Proof.
  induction 1 as [|s ev s' _ IH _ Hs]; [simpl; unfold sum_of; simpl; lia|]. destruct ev as [name|i a].
  - simplify_eq/=. rewrite sum_of_app. unfold sum_of at 2. simpl. lia.
  - apply step_act in Hs as (t & t' & c & Ht & Hs & ->). simpl.
    apply task_step_slots in Hs. rewrite (sum_of_insert _ _ _ _ _ Ht). lia.
Qed.

(** ** Single flight *)

(** No look-up runs while a resolve is older than the abandonment limit. *)
Definition timely (cfg : ResolverConfig) (s : Sys) (ev : Event) : Prop :=
  match ev with
  | Act _ (Lock now) => forall j name n u stale, tasks s !! j = Some (Resolving name n u stale) ->
      now - u <= abandon_after cfg
  | _ => True
  end.

Definition flight (s : Sys) : Prop :=
  (forall i name n u stale, tasks s !! i = Some (Resolving name n u stale) ->
    inner (cache s) !! name = Some (Pending n u) /\ (n < next_notify (cache s))%nat) /\
  (forall i j name name' n u u' stale stale', tasks s !! i = Some (Resolving name n u stale) ->
    tasks s !! j = Some (Resolving name' n u' stale') -> i = j).

Lemma flight_same_name s i j name n n' u u' stale stale' : flight s ->
  tasks s !! i = Some (Resolving name n u stale) -> tasks s !! j = Some (Resolving name n' u' stale') -> i = j.
Proof.
  intros [Hp Hu] Hi Hj. destruct (Hp _ _ _ _ _ Hi) as [H1 _]. destruct (Hp _ _ _ _ _ Hj) as [H2 _].
  rewrite H1 in H2. simplify_eq. by eapply Hu.
Qed.

(** A step keeps the entries of the resolves of the other tasks, and makes its
    own with a new number. *)
Lemma task_step_flight cfg s i a t t' c' : 0 <= attempt_timeout cfg -> flight s -> timely cfg s (Act i a) ->
  tasks s !! i = Some t -> task_step cfg (cache s) t a = Some (t', c') ->
  (next_notify (cache s) <= next_notify c')%nat /\
  (forall j name n u stale, j <> i -> tasks s !! j = Some (Resolving name n u stale) ->
    inner c' !! name = Some (Pending n u)) /\
  (forall name n u stale, t' = Resolving name n u stale ->
    inner c' !! name = Some (Pending n u) /\ n = next_notify (cache s) /\ (n < next_notify c')%nat).
Proof.
  intros H0 Hf Ht Hi Hs. pose proof Hf as [Hp _].
  apply task_step_cases in Hs as [(name & now & l & rounds & -> & -> & Hl & ->)|[(name & n & u & stale & e & r & now & o & -> & -> & -> & -> & He)
    |[(-> & Hr & Hw & _)|(-> & [(name & r & -> & ->)|(name & n & u & stale & -> & -> & ->)])]]];
    try (split_and!; [done|intros; by eapply Hp|done]).
  - destruct l; simpl in *.
    + destruct Hl as [->|(e & e' & He & Hla & _ & ->)]; (split_and!; [done| |done]).
      * intros. by eapply Hp.
      * intros j k n u stale _ Hj. destruct (Hp _ _ _ _ _ Hj) as [Hk _]. simpl.
        rewrite lookup_insert_ne; [done|]. intros ->. rewrite He in Hk. by simplify_eq.
    + destruct Hl as [-> _]. split_and!; [done|intros; by eapply Hp|done].
    + destruct Hl as (-> & c1 & Hpr & ->). simpl. rewrite (pre_notify _ _ _ _ _ Hpr).
      split_and!; [lia| |].
      * intros j k n u stale' _ Hj. destruct (Hp _ _ _ _ _ Hj) as [Hk _].
        destruct (pre_keeps _ _ _ _ _ Hpr _ _ _ Hk) as [Hk1 Hne].
        { unfold abandoned. pose proof (Ht _ _ _ _ _ Hj). apply Z.ltb_ge.
          unfold abandon_after, PENDING_ABANDON_MARGIN in *. lia. }
        by rewrite lookup_insert_ne.
      * intros k n u stale' [= -> <- <- <-]. rewrite lookup_insert_eq. split_and!; [done..|lia].
  - assert (Hc : next_notify (commit_entry (cache s) name e) = next_notify (cache s) /\
      inner (commit_entry (cache s) name e) = <[name := e]> (inner (cache s))).
    { unfold commit_entry. by destruct (inner (cache s) !! name) as [[]|]. }
    destruct Hc as [-> ->]. split_and!; [done| |done].
    intros j k m v stale' Hne Hj. destruct (Hp _ _ _ _ _ Hj) as [Hk _].
    rewrite lookup_insert_ne; [done|]. intros ->. by eapply Hne, flight_same_name.
  - split_and!; [done|intros; by eapply Hp|]. intros k n u stale ->. exfalso. by eapply (Hr k n u stale).
Qed.

Lemma insert_cases {A} (l : list A) i j (x y : A) : <[i := x]> l !! j = Some y ->
  (j = i /\ y = x) \/ (j <> i /\ l !! j = Some y).
Proof. intros Hx%list_lookup_insert_Some. naive_solver. Qed.

Lemma spawn_cases (s : Sys) name j t : (tasks s ++ [Looking name ROUNDS]) !! j = Some t ->
  tasks s !! j = Some t \/ t = Looking name ROUNDS.
Proof. intros [?|[_ [_ <-]%list_lookup_singleton_Some]]%lookup_app_Some; eauto. Qed.

Lemma reach_flight cfg s : 0 <= attempt_timeout cfg -> reach (timely cfg) cfg s -> flight s.
Proof.
  intros H0. induction 1 as [|s ev s' _ IH Ht Hs]; [by split; simpl; intros *; rewrite ?lookup_nil|].
  destruct ev as [name|i a].
  - destruct IH as [Hp Hu]. simplify_eq/=. split; simpl.
    + intros i k n u stale [Hi|?]%spawn_cases; [by eapply Hp|done].
    + intros i j k k' n u u' stale stale' [Hi|?]%spawn_cases [Hj|?]%spawn_cases; try done. by eapply Hu.
  - apply step_act in Hs as (t & t' & c & Hi & Hs & ->).
    destruct (task_step_flight cfg s i a t t' c H0 IH Ht Hi Hs) as (Hn & Hother & Hself).
    destruct IH as [Hp Hu]. split; simpl.
    + intros j k n u stale [[-> He]|[Hne Hj]]%insert_cases; [by destruct (Hself k n u stale (eq_sym He)) as (? & _ & ?)|].
      split; [by eapply Hother|]. destruct (Hp _ _ _ _ _ Hj). lia.
    + intros j1 j2 k k' n u u' stale stale' [[-> H1]|[Hn1 H1]]%insert_cases [[-> H2]|[Hn2 H2]]%insert_cases;
        [done| | |by eapply Hu].
      * destruct (Hself _ _ _ _ (eq_sym H1)) as (_ & -> & _). destruct (Hp _ _ _ _ _ H2). lia.
      * destruct (Hself _ _ _ _ (eq_sym H2)) as (_ & -> & _). destruct (Hp _ _ _ _ _ H1). lia.
Qed.

(** ** The size of the cache *)

Definition no_abort (s : Sys) (ev : Event) : Prop :=
  match ev with Act _ Abort => False | _ => True end.

Definition pending_owned (c : Cache) (ts : list Task) : Prop :=
  forall name n u, inner c !! name = Some (Pending n u) ->
    exists i stale, ts !! i = Some (Resolving name n u stale).

Definition resolving_name (t : Task) : option Hostname :=
  match t with Resolving name _ _ _ => Some name | _ => None end.

Lemma resolving_count ts : Z.of_nat (length (omap resolving_name ts)) <= sum_of holds_slot ts.
Proof.
  induction ts as [|t ts IH]; [done|]. unfold sum_of in *. csimpl.
  destruct t; csimpl; lia.
Qed.

(** A cache of pending entries is no larger than the number of slots in use. *)
Lemma pending_size (m : gmap Hostname CacheEntry) c ts : m ⊆ inner c -> pending_owned c ts ->
  (forall k e, m !! k = Some e -> entry_last_access e = None) ->
  Z.of_nat (size m) <= sum_of holds_slot ts.
Proof.
  intros Hsub Ho Hp. pose proof (resolving_count ts).
  enough (size m <= length (omap resolving_name ts))%nat by lia.
  rewrite <-length_map_to_list, <-(length_fmap fst). apply submseteq_length, NoDup_submseteq.
  { apply NoDup_fst_map_to_list. }
  intros k ([k' e] & -> & Hk%elem_of_map_to_list)%list_elem_of_fmap. simpl.
  pose proof (Hp _ _ Hk) as He. destruct e as [n u| | |]; try done.
  destruct (Ho k' n u) as (i & stale & Hi); [by eapply lookup_weaken|].
  apply list_elem_of_omap. exists (Resolving k' n u stale). split; [by eapply list_elem_of_lookup_2|done].
Qed.

Lemma pending_owned_step cfg s i a t t' c' : pending_owned (cache s) (tasks s) -> a <> Abort ->
  tasks s !! i = Some t -> task_step cfg (cache s) t a = Some (t', c') ->
  pending_owned c' (<[i := t']> (tasks s)).
Proof.
  intros Ho Ha Hi Hs.
  assert (Hkeep : forall name n u, inner (cache s) !! name = Some (Pending n u) ->
    (forall stale, t <> Resolving name n u stale) ->
    exists j stale, <[i := t']> (tasks s) !! j = Some (Resolving name n u stale)).
  { intros name n u Hn Hne. destruct (Ho _ _ _ Hn) as (j & stale & Hj).
    exists j, stale. rewrite list_lookup_insert_ne; [done|]. intros ->. rewrite Hi in Hj.
    simplify_eq. by eapply Hne. }
  apply task_step_cases in Hs as [(name & now & l & rounds & -> & -> & Hl & ->)|[(name & n & u & stale & e & r & now & o & -> & -> & -> & -> & [la He])
    |[(-> & Hr & Hw & _)|(-> & [(name & r & -> & ->)|(name & n & u & stale & -> & -> & ->)])]]].
  - intros k n u Hk. destruct l; simpl in *.
    + destruct Hl as [->|(e & e' & _ & _ & Hla & ->)]; [by apply Hkeep|]. simpl in Hk.
      apply lookup_insert_Some in Hk as [[-> ->]|[Hne Hk]]; [done|by apply Hkeep].
    + destruct Hl as [-> _]. by apply Hkeep.
    + destruct Hl as (-> & c1 & Hp & ->). simpl in Hk.
      apply lookup_insert_Some in Hk as [[-> [= <- <-]]|[Hne Hk]].
      * exists i, stale. rewrite (pre_notify _ _ _ _ _ Hp).
        apply list_lookup_insert_eq. by eapply lookup_lt_Some.
      * apply Hkeep; [|done]. eapply lookup_weaken; [exact Hk|apply Hp].
  - intros k m v Hk.
    assert (inner (commit_entry (cache s) name e) = <[name := e]> (inner (cache s))) as Hc.
    { unfold commit_entry. by destruct (inner (cache s) !! name) as [[]|]. }
    rewrite Hc in Hk. apply lookup_insert_Some in Hk as [[-> ->]|[Hne Hk]]; [done|].
    apply Hkeep; [done|]. intros stale' [= <-]. done.
  - intros k n u Hk. apply Hkeep; [done|]. intros stale ->. by destruct (Hr k n u stale).
  - intros k n u Hk. by apply Hkeep.
  - done.
Qed.

Definition size_limit (cfg : ResolverConfig) : nat :=
  Nat.max (max_cache_entries cfg) (max_concurrent_resolves cfg).

Lemma task_step_size allowed cfg s i t a t' c' : reach allowed cfg s -> flight s ->
  pending_owned (cache s) (tasks s) -> tasks s !! i = Some t ->
  (size (inner (cache s)) <= size_limit cfg)%nat ->
  task_step cfg (cache s) t a = Some (t', c') -> (size (inner c') <= size_limit cfg)%nat.
Proof.
  intros Hr Hf Ho Hi Hs Hst. pose proof (reach_slots _ _ _ Hr) as Hsl.
  apply task_step_cases in Hst as [(name & now & l & rounds & -> & -> & Hl & ->)|[(name & n & u & stale & e & r & now & o & -> & -> & -> & -> & _)
    |[(-> & _)|(-> & _)]]]; [|simpl..]; try done.
  - destruct l; simpl in *.
    + destruct Hl as [->|(e & e' & He & _ & _ & ->)]; [done|]. simpl.
      by rewrite map_size_insert_Some by eauto.
    + by destruct Hl as [-> _].
    + destruct Hl as (_ & c1 & Hp & ->). simpl.
      pose proof (pre_slots _ _ _ _ _ Hp). unfold size_limit in *.
      destruct (pre_size _ _ _ _ _ Hp) as [[Hn ->]|[Hlt|Hall]].
      * by rewrite map_size_insert_Some.
      * rewrite map_size_insert. case_match; unfold id; lia.
      * pose proof (pending_size (inner c1) (cache s) (tasks s) (pre_sub _ _ _ _ _ Hp) Ho Hall).
        rewrite map_size_insert. case_match; unfold id; lia.
  - destruct (proj1 Hf _ _ _ _ _ Hi) as [Hn _].
    unfold commit_entry. rewrite Hn. simpl. by rewrite map_size_insert_Some by eauto.
Qed.

Definition punctual (cfg : ResolverConfig) (s : Sys) (ev : Event) : Prop :=
  timely cfg s ev /\ no_abort s ev.

Lemma reach_mono (P Q : Sys -> Event -> Prop) cfg s : (forall s ev, P s ev -> Q s ev) ->
  reach P cfg s -> reach Q cfg s.
Proof. intros HPQ. induction 1; econstructor; eauto. Qed.

Lemma reach_size cfg s : 0 <= attempt_timeout cfg -> reach (punctual cfg) cfg s ->
  pending_owned (cache s) (tasks s) /\ (size (inner (cache s)) <= size_limit cfg)%nat.
Proof.
  intros H0. induction 1 as [|s ev s' Hr [Ho IH] [Ht Ha] Hs].
  { split; [by intros name n u; simpl; rewrite lookup_empty|simpl; rewrite map_size_empty; lia]. }
  destruct ev as [name|i a].
  - simplify_eq/=. split; [|done]. intros k n u Hk. destruct (Ho k n u Hk) as (i & stale & Hi).
    exists i, stale. by apply lookup_app_l_Some.
  - apply step_act in Hs as (t & t' & c & Hi & Hs & ->). simpl in *.
    assert (Hf : flight s).
    { apply (reach_flight cfg); [done|]. eapply reach_mono; [|exact Hr]. by intros ? ? []. }
    split; [eapply pending_owned_step; eauto; by intros ->|by eapply task_step_size].
Qed.

(** ** Where the addresses come from *)

Definition entry_genuine (cfg : ResolverConfig) (log : list (Hostname * Z * ResolveAnswer))
  (name : Hostname) (e : CacheEntry) : Prop :=
  match e with
  | Resolved a expiry _ => a <> [] /\ exists t ans, (name, t, ans) ∈ log /\ addrs ans = a /\
      expiry = t + clamp_ttl cfg (ttl ans)
  | StaleAfterFailedRefresh a _ _ => a <> [] /\ exists t ans, (name, t, ans) ∈ log /\ addrs ans = a
  | _ => True
  end.

Definition list_genuine (log : list (Hostname * Z * ResolveAnswer)) (name : Hostname)
  (a : list IpAddr) : Prop := a <> [] /\ exists t ans, (name, t, ans) ∈ log /\ addrs ans = a.

Definition task_genuine (log : list (Hostname * Z * ResolveAnswer)) (t : Task) : Prop :=
  match t with
  | Resolving name _ _ (Some a) => list_genuine log name a
  | Releasing name (Ok r) | Finished name (Ok r) => list_genuine log name (res_addrs r)
  | _ => True
  end.

Definition cache_genuine (cfg : ResolverConfig) (log : list (Hostname * Z * ResolveAnswer))
  (c : Cache) : Prop :=
  forall name e, inner c !! name = Some e -> entry_genuine cfg log name e.

Lemma list_genuine_mono log log' name a : log ⊆ log' -> list_genuine log name a -> list_genuine log' name a.
Proof. intros Hl (Hn & t & ans & Hin & Ha). split; [done|]. eauto 6. Qed.

Lemma task_genuine_mono log log' t : log ⊆ log' -> task_genuine log t -> task_genuine log' t.
Proof.
  intros Hl. destruct t as [| |? ? ? []|? []|? []|]; simpl; try done; by apply list_genuine_mono.
Qed.

Lemma cache_genuine_mono cfg log log' c : log ⊆ log' -> cache_genuine cfg log c -> cache_genuine cfg log' c.
Proof.
  intros Hl Hc name e He. specialize (Hc name e He). destruct e; simpl in *; try done;
    destruct Hc as (Hn & t & ans & Hin & Ha); split; try done; eauto 7.
Qed.

Lemma cache_genuine_insert cfg log c c' name e : cache_genuine cfg log c ->
  inner c' = <[name := e]> (inner c) -> entry_genuine cfg log name e -> cache_genuine cfg log c'.
Proof.
  intros Hc Hi He k e' Hk. rewrite Hi in Hk.
  apply lookup_insert_Some in Hk as [[-> ->]|[_ Hk]]; [done|by apply Hc].
Qed.

Lemma cache_genuine_sub cfg log c c' : cache_genuine cfg log c -> inner c' ⊆ inner c ->
  cache_genuine cfg log c'.
Proof. intros Hc Hs k e Hk. apply Hc. by eapply lookup_weaken. Qed.

Lemma own_genuine cfg log c name now stale before :
  cache_genuine cfg log c ->
  (forall c1, try_reserve_slot c = Some c1 -> inner (before c1) ⊆ inner c1) ->
  cache_genuine cfg log (own cfg c name now stale before).2.
Proof.
  intros Hc Hb. destruct (own_cases cfg c name now stale before) as [[r ->]|(c1 & Hr & ->)]; simpl; [done|].
  specialize (Hb c1 Hr). apply reserve_spec in Hr as (Hi & _). rewrite Hi in Hb.
  eapply cache_genuine_insert; [by eapply (cache_genuine_sub _ _ c (before c1))|done|done].
Qed.

Lemma get_locked_cache_genuine cfg log c name now : cache_genuine cfg log c ->
  cache_genuine cfg log (get_locked cfg c name now).2.
Proof.
  intros Hc. unfold get_locked. destruct (inner c !! name) as [[n t|a x la|a x la|x e la]|] eqn:Hn;
    try (case_match; simpl); try apply own_genuine; try done.
  - apply (cache_genuine_insert _ _ c _ name (Resolved a x now)); [done|done|exact (Hc _ _ Hn)].
  - apply (cache_genuine_insert _ _ c _ name (StaleAfterFailedRefresh a x now)); [done|done|exact (Hc _ _ Hn)].
  - intros. apply evict_inner_sub.
Qed.

Lemma get_locked_result_genuine cfg log c name now : cache_genuine cfg log c ->
  match (get_locked cfg c name now).1 with
  | Answer (Ok r) => list_genuine log name (res_addrs r)
  | Own _ (Some a) => list_genuine log name a
  | _ => True
  end.
Proof.
  intros Hc. unfold get_locked, own. destruct (inner c !! name) as [[n t|a x la|a x la|x e la]|] eqn:Hn;
    try (pose proof (Hc _ _ Hn) as He; simpl in He);
    repeat case_match; simplify_eq/=; try done; unfold list_genuine; naive_solver.
Qed.

Lemma commit_inner c name e : inner (commit_entry c name e) = <[name := e]> (inner c).
Proof. unfold commit_entry. by destruct (inner c !! name) as [[]|]. Qed.

Lemma apply_refresh_genuine cfg log c name n u stale outcome now : cache_genuine cfg log c ->
  task_genuine log (Resolving name n u stale) ->
  let log' := answered (Resolving name n u stale) (Reply now outcome) ++ log in
  let (r, c') := apply_refresh cfg c name outcome stale now in
  cache_genuine cfg log' c' /\ task_genuine log' (Releasing name r).
Proof.
  intros Hc Ht. set (log' := _ ++ log).
  assert (Hl : log ⊆ log') by (unfold log'; set_solver).
  pose proof (cache_genuine_mono _ _ _ _ Hl Hc) as Hc'.
  assert (Hf : forall err, let (r, c') := commit_failure cfg c name err stale now in
    cache_genuine cfg log' c' /\ task_genuine log' (Releasing name r)).
  { intros err. unfold commit_failure. destruct stale as [a|]; simpl in *.
    - apply (list_genuine_mono _ _ _ _ Hl) in Ht. split; [|done].
      by eapply cache_genuine_insert; [|apply commit_inner|].
    - split; [|done]. by eapply cache_genuine_insert; [|apply commit_inner|]. }
  unfold apply_refresh. destruct outcome as [ans|err]; [|apply Hf].
  destruct (addrs ans) as [|x l] eqn:Ha; [apply Hf|]. rewrite <-Ha.
  assert (Hin : (name, now, ans) ∈ log') by (unfold log'; simpl; left).
  split; [eapply cache_genuine_insert; [done|apply commit_inner|]|]; simpl;
    (split; [by rewrite Ha|]); eauto 6.
Qed.

Lemma task_step_genuine cfg log c t a t' c' : cache_genuine cfg log c -> task_genuine log t ->
  task_step cfg c t a = Some (t', c') ->
  cache_genuine cfg (answered t a ++ log) c' /\ task_genuine (answered t a ++ log) t'.
Proof.
  intros Hc Ht Hs. destruct a as [now| |now outcome| |], t; simpl in Hs; try done;
    try (repeat case_match; simplify_eq/=; done).
  - destruct rounds as [|rounds]; [simplify_eq/=; done|].
    pose proof (get_locked_cache_genuine cfg log c name now Hc) as Hg.
    pose proof (get_locked_result_genuine cfg log c name now Hc) as Hr.
    destruct (get_locked cfg c name now) as [l c1]. simplify_eq/=. split; [done|].
    by destruct l as [[]| |? []].
  - pose proof (apply_refresh_genuine cfg log c name notify started stale outcome now Hc Ht) as Hr.
    destruct (apply_refresh cfg c name outcome stale now) as [r c1]. by simplify_eq/=.
Qed.

Lemma reach_genuine allowed cfg s : reach allowed cfg s ->
  cache_genuine cfg (answers s) (cache s) /\ Forall (task_genuine (answers s)) (tasks s).
Proof.
  induction 1 as [|s ev s' _ [Hc Ht] _ Hs]; [by split; [intros name e; simpl; rewrite lookup_empty|constructor]|].
  destruct ev as [name|i a].
  - simplify_eq/=. split; [done|]. apply Forall_app. split; [done|by repeat constructor].
  - apply step_act in Hs as (t & t' & c & Hi & Hs & ->). simpl.
    destruct (task_step_genuine cfg (answers s) (cache s) t a t' c Hc) as [Hc' Ht']; [|done|].
    { by eapply Forall_lookup_1. }
    split; [done|]. apply Forall_insert; [|done]. eapply Forall_impl; [exact Ht|].
    intros u. apply task_genuine_mono. set_solver.
Qed.

(** ** Theorems *)

(** C18. No waiter is stranded.  However look-ups, answers, aborts, takeovers
    of abandoned resolves and evictions interleave, a task that waits for
    another's resolve and has not been woken waits on the entry that is in the
    cache for its name; so nothing can replace or remove that entry without
    waking it. *)
Theorem resolver_no_stranded_waiter (allowed : Sys -> Event -> Prop) (cfg : ResolverConfig) (s : Sys)
  (i : nat) (name : Hostname) (n rounds : nat) :
  reach allowed cfg s -> tasks s !! i = Some (Waiting name n rounds) ->
  n ∈ fired (cache s) \/ exists u, inner (cache s) !! name = Some (Pending n u).
Proof.
  intros Hr Hi.
  assert (HF : Forall (waiter_ok (cache s)) (tasks s)).
  { eapply (tasks_invariant allowed cfg waiter_ok); [done| | |done].
    - intros c t a t' c' Hs _. by eapply waiter_ok_self.
    - intros c t a t' c' u Hs. by eapply waiter_ok_mono, task_step_no_strand. }
  exact (Forall_lookup_1 _ _ _ _ HF Hi).
Qed.

(** Concurrent resolves are bounded and slots are conserved.  In every
    interleaving, aborts included, the free slots and the tasks that resolve or
    are about to give their slot back add up to [max_concurrent_resolves]: no
    slot leaks, and never more resolver calls are in flight. *)
Theorem resolver_slots_conserved (allowed : Sys -> Event -> Prop) (cfg : ResolverConfig) (s : Sys) :
  reach allowed cfg s ->
  Z.of_nat (resolve_slots (cache s)) + sum_of holds_slot (tasks s) =
    Z.of_nat (max_concurrent_resolves cfg) /\
  Z.of_nat (length (omap resolving_name (tasks s))) <= Z.of_nat (max_concurrent_resolves cfg).
Proof.
  intros Hr. pose proof (reach_slots _ _ _ Hr). split; [done|].
  pose proof (resolving_count (tasks s)). lia.
Qed.

(** Resolution is single flight.  As long as no look-up runs while a
    resolve is older than [attempt_timeout] plus the margin, a name is
    resolved by at most one task at a time, whatever is evicted or aborted. *)
Theorem resolver_single_flight (cfg : ResolverConfig) (s : Sys) (i j : nat) (name : Hostname)
  (n n' : nat) (u u' : Z) (stale stale' : option (list IpAddr)) :
  0 <= attempt_timeout cfg -> reach (timely cfg) cfg s ->
  tasks s !! i = Some (Resolving name n u stale) ->
  tasks s !! j = Some (Resolving name n' u' stale') -> i = j.
Proof. intros H0 Hr. eapply flight_same_name, (reach_flight cfg); done. Qed.

(** The cache is bounded.  While resolves finish in time and are not
    aborted, the cache never holds more entries than [max_cache_entries] or,
    if that is larger, [max_concurrent_resolves], and every pending entry has
    a task resolving it. *)
Theorem resolver_cache_bounded (cfg : ResolverConfig) (s : Sys) :
  0 <= attempt_timeout cfg -> reach (punctual cfg) cfg s ->
  (size (inner (cache s)) <= Nat.max (max_cache_entries cfg) (max_concurrent_resolves cfg))%nat /\
  pending_owned (cache s) (tasks s).
Proof. intros H0 Hr. by destruct (reach_size cfg s H0 Hr). Qed.

(** Only addresses the resolver gave are served, and cached ones only
    within their clamped lifetime.  Every successful result of
    [get_or_resolve] is the non-empty list of some answer the resolver gave
    for that very name; and when a look-up is answered from the cache as
    current, the answer's age is below its lifetime clamped between the floor
    and the ceiling. *)
Theorem resolver_answers_genuine (allowed : Sys -> Event -> Prop) (cfg : ResolverConfig) (s : Sys) :
  reach allowed cfg s ->
  (forall i name r, tasks s !! i = Some (Finished name (Ok r)) ->
    res_addrs r <> [] /\ exists t ans, (name, t, ans) ∈ answers s /\ addrs ans = res_addrs r) /\
  (forall name now a c, get_locked cfg (cache s) name now = (Answer (Ok (mkResult a Cached)), c) ->
    exists t ans, (name, t, ans) ∈ answers s /\ addrs ans = a /\ now < t + clamp_ttl cfg (ttl ans)).
Proof.
  intros [Hc Ht]%reach_genuine. split.
  - intros i name r Hi. exact (Forall_lookup_1 _ _ _ _ Ht Hi).
  - intros name now a c. unfold get_locked, own.
    destruct (inner (cache s) !! name) as [[n t|b x la|b x la|x e la]|] eqn:Hn; repeat case_match;
      intros [=]; subst. destruct (Hc _ _ Hn) as (_ & t & ans & Hin & Ha & Hx).
    exists t, ans. split_and!; [done|done|lia].
Qed.

End Eviction.

(** ** Examples *)

Definition sample_config : ResolverConfig := mkConfig 5 300 30 3 3 64 8192.
Definition sample_name : Hostname := lit "db.internal".
Definition sample_ip : IpAddr := IpAddr.V4 (IpAddr.mkIpv4 10 0 0 1).
Definition any_event (s : Sys) (ev : Event) : Prop := True.

Definition run (cfg : ResolverConfig) (evs : list Event) (s : Sys) : option Sys :=
  foldl (fun s ev => s ← s; step map_to_list cfg s ev) (Some s) evs.

Lemma run_none cfg evs : foldl (fun s ev => s ← s; step map_to_list cfg s ev) None evs = None.
Proof. by induction evs. Qed.

Lemma run_reach cfg evs s s' : run cfg evs s = Some s' ->
  reach map_to_list any_event cfg s -> reach map_to_list any_event cfg s'.
Proof.
  unfold run. revert s. induction evs as [|ev evs IH]; intros s; simpl; [by intros [= ->]|].
  destruct (step map_to_list cfg s ev) as [s1|] eqn:Hs; [|by rewrite run_none].
  intros Hr Hs1. eapply IH; [exact Hr|]. by econstructor.
Qed.

(** Two tasks look up the same name: the first resolves, the second waits. *)
Definition two_tasks : Sys :=
  mkSys (mkCache {[ sample_name := Pending 0 7 ]} 63 ∅ 1)
    [Resolving sample_name 0 7 None; Waiting sample_name 0 3] [].

Lemma two_tasks_reached : reach map_to_list any_event sample_config two_tasks.
Proof.
  apply (run_reach _ [Spawn sample_name; Spawn sample_name; Act 0 (Lock 7); Act 1 (Lock 8)] (start sample_config));
    [by vm_compute|constructor].
Qed.

(** One task that resolves, reached in time and without aborts. *)
Definition one_task : Sys :=
  mkSys (mkCache {[ sample_name := Pending 0 7 ]} 63 ∅ 1) [Resolving sample_name 0 7 None] [].

Lemma one_task_reached : reach map_to_list (punctual sample_config) sample_config one_task.
Proof.
  apply (reach_step _ _ _ (mkSys (with_clock 64) [Looking sample_name ROUNDS] []) (Act 0 (Lock 7)));
    [|split; [|done]|by vm_compute].
  - apply (reach_step _ _ _ (start sample_config) (Spawn sample_name)); [constructor|done|done].
  - intros [|j] name n u stale; simpl; [done|by rewrite lookup_nil].
Qed.

Lemma one_task_timely : reach map_to_list (timely sample_config) sample_config one_task.
Proof. eapply reach_mono; [|exact one_task_reached]. by intros ? ? []. Qed.

Lemma resolver_no_stranded_waiter_witness :
  0%nat ∈ fired (cache two_tasks) \/ exists u, inner (cache two_tasks) !! sample_name = Some (Pending 0 u).
Proof.
  exact (resolver_no_stranded_waiter map_to_list (fun m => reflexivity _) any_event sample_config
    two_tasks 1 sample_name 0 3 two_tasks_reached eq_refl).
Defined.

Lemma resolver_slots_conserved_witness :
  Z.of_nat (resolve_slots (cache two_tasks)) + sum_of holds_slot (tasks two_tasks) = 64.
Proof.
  exact (proj1 (resolver_slots_conserved map_to_list (fun m => reflexivity _) any_event sample_config
    two_tasks two_tasks_reached)).
Defined.

Lemma resolver_single_flight_witness : 0%nat = 0%nat.
Proof.
  assert (H0 : 0 <= attempt_timeout sample_config) by (simpl; lia).
  exact (resolver_single_flight map_to_list (fun m => reflexivity _) sample_config one_task 0 0
    sample_name 0 0 7 7 None None H0 one_task_timely eq_refl eq_refl).
Defined.

Lemma resolver_cache_bounded_witness : pending_owned (cache one_task) (tasks one_task).
Proof.
  assert (H0 : 0 <= attempt_timeout sample_config) by (simpl; lia).
  exact (proj2 (resolver_cache_bounded map_to_list (fun m => reflexivity _) sample_config one_task
    H0 one_task_reached)).
Defined.

(** A look-up is answered, a second one is served from the cache. *)
Definition served : Sys :=
  mkSys (mkCache {[ sample_name := Resolved [sample_ip] 67 9 ]} 64 {[ 0%nat ]} 1)
    [Finished sample_name (Ok (mkResult [sample_ip] Fresh));
     Finished sample_name (Ok (mkResult [sample_ip] Cached))]
    [(sample_name, 7, mkAnswer [sample_ip] 60)].

Lemma served_reached : reach map_to_list any_event sample_config served.
Proof.
  apply (run_reach _ [Spawn sample_name; Spawn sample_name; Act 0 (Lock 7);
    Act 0 (Reply 7 (Ok (mkAnswer [sample_ip] 60))); Act 0 Release; Act 1 (Lock 9)] (start sample_config));
    [by vm_compute|constructor].
Qed.

Lemma resolver_answers_genuine_witness :
  exists t ans, (sample_name, t, ans) ∈ answers served /\ addrs ans = [sample_ip].
Proof.
  pose proof (resolver_answers_genuine map_to_list (fun m => reflexivity _) any_event sample_config
    served served_reached) as [Hr _].
  exact (proj2 (Hr 1%nat sample_name (mkResult [sample_ip] Cached) eq_refl)).
Defined.

(** Stale answers are served long after lifetime and grace.  The grace
    window starts at the failed refresh, not at the end of the answer's
    lifetime: an answer given at time 7 with a lifetime of 60 is still served,
    as stale, at time 1000000, and would be until the grace of 30 has passed
    from there. *)
Theorem resolver_stale_beyond_grace : exists s,
  reach map_to_list any_event sample_config s /\
  answers s = [(sample_name, 7, mkAnswer [sample_ip] 60)] /\
  7 + clamp_ttl sample_config 60 + stale_while_error_grace sample_config < 1000000 /\
  tasks s !! 1%nat = Some (Releasing sample_name (Ok (mkResult [sample_ip] Stale))) /\
  inner (cache s) !! sample_name = Some (StaleAfterFailedRefresh [sample_ip] 1000030 1000000).
Proof.
  exists (mkSys (mkCache {[ sample_name := StaleAfterFailedRefresh [sample_ip] 1000030 1000000 ]} 63
    {[ 0%nat; 1%nat ]} 2)
    [Finished sample_name (Ok (mkResult [sample_ip] Fresh));
     Releasing sample_name (Ok (mkResult [sample_ip] Stale))] [(sample_name, 7, mkAnswer [sample_ip] 60)]).
  split; [|by split_and!].
  eapply (run_reach _ [Spawn sample_name; Spawn sample_name; Act 0 (Lock 7);
    Act 0 (Reply 7 (Ok (mkAnswer [sample_ip] 60))); Act 0 Release; Act 1 (Lock 1000000);
    Act 1 (Reply 1000000 (Err EmptyAnswer))] (start sample_config)); [vm_compute; reflexivity|constructor].
Qed.

(** ** Ordering and dialling the addresses *)

Definition is_ipv6 (a : IpAddr) : bool := match a with IpAddr.V6 _ => true | IpAddr.V4 _ => false end.

Definition order_by_family (l : list IpAddr) (prefer_ipv6 : bool) : list IpAddr :=
  let v6 := filter (fun a => is_ipv6 a = true) l in
  let v4 := filter (fun a => is_ipv6 a = false) l in
  if prefer_ipv6 then v6 ++ v4 else v4 ++ v6.

Inductive Target : Type := Ip (a : IpAddr) | Dns (name : Hostname).

Notation SocketAddr := (IpAddr * Z)%type.

(** Why a dial failed; [DialTimedOut] is the elapsed [attempt_timeout]. *)
Inductive DialError : Type := Io (code : Z) | DialTimedOut | NoAddresses.

Inductive ConnectError : Type :=
| Resolution (e : ResolverError)
| AllAddrsUnreachable (tried : Z) (last : DialError)
| Dial (e : DialError).

(** [found] is what [get_or_resolve] returned for a name. *)
Definition resolve_target (target : Target) (port : Z) (prefer_ipv6 : bool)
  (found : Result CacheResult ResolverError) : Result (list SocketAddr * AnswerSource) ConnectError :=
  match target with
  | Ip a => Ok ([(a, port)], Fresh)
  | Dns _ =>
    match found with
    | Err e => Err (Resolution e)
    | Ok r =>
      match res_addrs r with
      | [] => Err (Resolution EmptyAnswer)
      | l => Ok ((fun a => (a, port)) <$> order_by_family l prefer_ipv6, source r)
      end
    end
  end.

Section Dialling.
Context {Stream : Type} (dial : SocketAddr -> Result Stream DialError).

Fixpoint dial_each (l : list SocketAddr) (last : option DialError) : Result Stream (option DialError) :=
  match l with
  | [] => Err last
  | a :: l => match dial a with Ok s => Ok s | Err e => dial_each l (Some e) end
  end.

Definition connect_target (target : Target) (port : Z) (prefer_ipv6 : bool)
  (found : Result CacheResult ResolverError) : Result (Stream * AnswerSource) ConnectError :=
  let? (l, src) := resolve_target target port prefer_ipv6 found in
  match target with
  | Ip _ =>
    match l with
    | a :: _ => match dial a with Ok s => Ok (s, src) | Err e => Err (Dial e) end
    | [] => Err (Dial NoAddresses)
    end
  | Dns _ =>
    match dial_each l None with
    | Ok s => Ok (s, src)
    | Err last => Err (AllAddrsUnreachable (Z.of_nat (length l)) (default NoAddresses last))
    end
  end.

Lemma order_by_family_perm l prefer : order_by_family l prefer ≡ₚ l.
Proof.
  assert (Hp : filter (fun a => is_ipv6 a = true) l ++ filter (fun a => is_ipv6 a = false) l ≡ₚ l).
  { induction l as [|a l IH]; [done|]. rewrite !filter_cons. destruct (is_ipv6 a); simpl.
    - by rewrite IH.
    - by rewrite <-Permutation_middle, IH. }
  unfold order_by_family. destruct prefer; [done|]. by rewrite (Permutation_app_comm (filter _ _)).
Qed.

Lemma dial_each_ok l last s : dial_each l last = Ok s <->
  exists pre a post, l = pre ++ a :: post /\ dial a = Ok s /\ Forall (fun b => exists e, dial b = Err e) pre.
Proof.
  revert last. induction l as [|a l IH]; intros last; simpl.
  - split; [done|]. by intros ([|? ?] & ? & ? & ? & _).
  - destruct (dial a) as [s'|e] eqn:Ha.
    + split.
      * intros [= ->]. by exists [], a, l.
      * intros ([|b pre] & x & post & [= -> ->] & Hx & Hp); [congruence|].
        apply Forall_cons in Hp as [[e He] _]. congruence.
    + rewrite IH. split.
      * intros (pre & x & post & -> & Hx & Hp). exists (a :: pre), x, post. eauto.
      * intros ([|b pre] & x & post & [= -> ->] & Hx & Hp); [congruence|].
        apply Forall_cons in Hp as [_ Hp]. eauto 6.
Qed.

Lemma dial_each_err l last e : dial_each l last = Err e ->
  Forall (fun b => exists e, dial b = Err e) l /\ (e = None -> l = [] /\ last = None).
Proof.
  revert last. induction l as [|a l IH]; intros last; simpl; [by intros [= ->]|].
  destruct (dial a) as [s'|e'] eqn:Ha; [done|]. intros [Hf Hn]%IH. split; [eauto|].
  intros He. by destruct (Hn He).
Qed.

(** Every address is tried, the preferred family first.  For a name the
    connection is made to the first address that answers, in the order that
    puts the preferred family first and otherwise keeps the resolver's order
    (a rearrangement of exactly the resolved addresses); the dial fails as
    unreachable only after every address failed, and then reports how many
    there were. *)
Theorem connect_tries_all (name : Hostname) (port : Z) (prefer : bool) (r : CacheResult) :
  res_addrs r <> [] ->
  let l := (fun a => (a, port)) <$> order_by_family (res_addrs r) prefer in
  l ≡ₚ (fun a => (a, port)) <$> res_addrs r /\
  (forall s, connect_target (Dns name) port prefer (Ok r) = Ok (s, source r) <->
    exists pre a post, l = pre ++ a :: post /\ dial a = Ok s /\
      Forall (fun b => exists e, dial b = Err e) pre) /\
  ((exists s, connect_target (Dns name) port prefer (Ok r) = Ok (s, source r)) \/
   Forall (fun b => exists e, dial b = Err e) l /\
   exists e, connect_target (Dns name) port prefer (Ok r) =
     Err (AllAddrsUnreachable (Z.of_nat (length (res_addrs r))) e)).
Proof.
  intros Hne l.
  assert (Hc : connect_target (Dns name) port prefer (Ok r) =
    match dial_each l None with
    | Ok s => Ok (s, source r)
    | Err last => Err (AllAddrsUnreachable (Z.of_nat (length l)) (default NoAddresses last))
    end).
  { unfold connect_target, resolve_target, l. by destruct (res_addrs r). }
  assert (Hl : length l = length (res_addrs r)).
  { unfold l. by rewrite length_fmap, order_by_family_perm. }
  split_and!.
  - unfold l. by rewrite order_by_family_perm.
  - intros s. rewrite <-(dial_each_ok l None), Hc. destruct (dial_each l None); naive_solver.
  - rewrite Hc. destruct (dial_each l None) as [s|e] eqn:Hd; [by left; exists s|right].
    rewrite Hl. split; [by eapply dial_each_err|eauto].
Qed.

End Dialling.

Lemma connect_tries_all_witness :
  (fun a => (a, 80)) <$> order_by_family [sample_ip] false ≡ₚ (fun a => (a, 80)) <$> [sample_ip].
Proof.
  assert (Hne : res_addrs (mkResult [sample_ip] Fresh) <> []) by done.
  exact (proj1 (connect_tries_all (fun _ => Ok tt) sample_name 80 false (mkResult [sample_ip] Fresh) Hne)).
Defined.

End Resolver.
