(* ===== verification/TrafficPeriod.v ===== *)
(** * Billing periods

    The calendar arithmetic of [crates/portunus-server/src/traffic_quotas/mod.rs]:
    the start of the n-th billing period of an anchor, the end of a period and
    the advance of a period that is over.

    [chrono] is the class [Chrono]: its operations are what the code calls, its
    laws are the documented behaviour of the proleptic Gregorian calendar in
    UTC.  An [expect] that fails is [Panics]. *)

From S2P Require Import Prelude.

Local Open Scope Z_scope.

Module TrafficPeriod.

Definition leap (y : Z) : bool :=
  (y mod 4 =? 0) && (negb (y mod 100 =? 0) || (y mod 400 =? 0)).

Definition days_in (y m : Z) : Z :=
  if m =? 2 then (if leap y then 29 else 28)
  else if (m =? 4) || (m =? 6) || (m =? 9) || (m =? 11) then 30 else 31.

(** The years [chrono] represents. *)
Definition min_year : Z := -262143.
Definition max_year : Z := 262142.

Class Chrono := {
  DateTime : Type;
  year : DateTime -> Z;
  month : DateTime -> Z;
  day : DateTime -> Z;
  hour : DateTime -> Z;
  minute : DateTime -> Z;
  second : DateTime -> Z;
  (** Nanoseconds since the epoch; dates are compared by it. *)
  instant : DateTime -> Z;
  with_ymd_and_hms : Z -> Z -> Z -> Z -> Z -> Z -> option DateTime;
  (** The subtraction of [Duration::days(1)]. *)
  minus_one_day : DateTime -> DateTime;
  timestamp : DateTime -> Z;
  timestamp_opt : Z -> option DateTime;
}.

Definition valid_date (y m d : Z) : Prop :=
  min_year <= y <= max_year /\ 1 <= m <= 12 /\ 1 <= d <= days_in y m.

Definition valid_time (h mi s : Z) : Prop := 0 <= h < 24 /\ 0 <= mi < 60 /\ 0 <= s < 60.

Class ChronoLaws (C : Chrono) := {
  fields_valid : forall t, valid_date (year t) (month t) (day t) /\
    valid_time (hour t) (minute t) (second t);
  with_valid : forall y m d h mi s, valid_date y m d -> valid_time h mi s ->
    exists t, with_ymd_and_hms y m d h mi s = Some t /\
      year t = y /\ month t = m /\ day t = d /\ hour t = h /\ minute t = mi /\ second t = s;
  (** A later month is a later instant. *)
  instant_month : forall t u, year t * 12 + month t < year u * 12 + month u -> instant t < instant u;
  (** The day before the first of a month is the last of the month before. *)
  first_minus_one : forall t y m, min_year <= y -> 1 <= m <= 12 ->
    year t * 12 + month t = y * 12 + m + 1 -> day t = 1 -> day (minus_one_day t) = days_in y m;
}.

Section Periods.
Context `{Chrono}.

Definition expect {A} (o : option A) : Outcome A :=
  match o with Some a => Returns a | None => Panics end.

Definition obind {A B} (o : Outcome A) (f : A -> Outcome B) : Outcome B :=
  match o with Returns a => f a | Panics => Panics end.

Notation "'let!' x ':=' c 'in' k" := (obind c (fun x => k))
  (at level 10, x name, c at level 100, k at level 200).

Definition last_day_of_month (y m : Z) : Outcome Z :=
  let (ny, nm) := if m =? 12 then (y + 1, 1) else (y, m + 1) in
  let! first_of_next := expect (with_ymd_and_hms ny nm 1 0 0 0) in
  Returns (day (minus_one_day first_of_next)).

(** [/] and [%] of Rust round towards zero; a month below one does not fit
    [u32]. *)
Definition period_start_at (billing_anchor : DateTime) (n : Z) : Outcome DateTime :=
  let anchor_day := day billing_anchor in
  let total_months := year billing_anchor * 12 + month billing_anchor - 1 + n in
  let target_year := Z.quot total_months 12 in
  let target_month := Z.rem total_months 12 + 1 in
  if target_month <? 0 then Panics
  else
    let! max_day := last_day_of_month target_year target_month in
    expect (with_ymd_and_hms target_year target_month (Z.min anchor_day max_day)
      (hour billing_anchor) (minute billing_anchor) (second billing_anchor)).

Definition MAX_PERIODS : Z := 12000.

(** The [while] loop of [compute_period_end] from [n] on. *)
Fixpoint end_from (fuel : nat) (anchor start_dt : DateTime) (n : Z) : Outcome Z :=
  match fuel with
  | O => Returns i64_max
  | S fuel =>
    if n <? MAX_PERIODS then
      let! p := period_start_at anchor n in
      if instant p =? instant start_dt then
        let! q := period_start_at anchor (n + 1) in Returns (timestamp q)
      else end_from fuel anchor start_dt (n + 1)
    else Returns i64_max
  end.

Definition compute_period_end (billing_anchor started : Z) : Outcome Z :=
  match timestamp_opt billing_anchor, timestamp_opt started with
  | Some anchor, Some start_dt => end_from (Z.to_nat (MAX_PERIODS + 1)) anchor start_dt 0
  | _, _ => Returns i64_max
  end.

(** The first loop of [advance_period_if_due]: the period of [current]. *)
Fixpoint locate (fuel : nat) (anchor current : DateTime) (n : Z) : Outcome Z :=
  match fuel with
  | O => Returns n
  | S fuel =>
    let! p := period_start_at anchor n in
    if instant p =? instant current then Returns n
    else if instant current <? instant p then Returns (Z.max (n - 1) 0)
    else
      let n := n + 1 in
      if MAX_PERIODS <? n then Returns n else locate fuel anchor current n
  end.

(** Its second loop. *)
Fixpoint advance (fuel : nat) (anchor now : DateTime) (n : Z) (advanced : bool) :
  Outcome (Z * bool) :=
  match fuel with
  | O => Returns (n, advanced)
  | S fuel =>
    let! next := period_start_at anchor (n + 1) in
    if instant now <? instant next then Returns (n, advanced)
    else
      let n := n + 1 in
      if MAX_PERIODS <? n then Returns (n, true) else advance fuel anchor now n true
  end.

(** Each loop ends once [n] exceeds [MAX_PERIODS]. *)
Definition LOOP_FUEL : nat := Z.to_nat (MAX_PERIODS + 2).

Definition advance_period_if_due (billing_anchor current_period_started_at now : DateTime) :
  Outcome (option DateTime) :=
  let! n := locate LOOP_FUEL billing_anchor current_period_started_at 0 in
  let! r := advance LOOP_FUEL billing_anchor now n false in
  if r.2 then let! t := period_start_at billing_anchor r.1 in Returns (Some t)
  else Returns None.

(** ** Lemmas *)

Context {HL : ChronoLaws _}.

Lemma days_in_bounds y m : 28 <= days_in y m <= 31.
Proof. unfold days_in. repeat case_match; lia. Qed.

Lemma last_day_spec y m : min_year <= y < max_year -> 1 <= m <= 12 ->
  last_day_of_month y m = Returns (days_in y m).
Proof.
  intros Hy Hm. unfold last_day_of_month.
  assert (exists ny nm, (if m =? 12 then (y + 1, 1) else (y, m + 1)) = (ny, nm) /\
    ny * 12 + nm = y * 12 + m + 1 /\ 1 <= nm <= 12 /\ min_year <= ny <= max_year) as (ny & nm & -> & He & Hnm & Hny).
  { destruct (Z.eqb_spec m 12); eexists _, _; (split; [done|]); lia. }
  destruct (with_valid ny nm 1 0 0 0) as (t & -> & Hty & Htm & Htd & _).
  { pose proof (days_in_bounds ny nm). unfold valid_date. lia. }
  { unfold valid_time. lia. }
  simpl. f_equal. by apply (first_minus_one t y m); [lia|lia|congruence|..].
Qed.

Definition months (t : DateTime) : Z := year t * 12 + month t - 1.

(** [n] periods after the anchor stay within the calendar. *)
Definition in_calendar (a : DateTime) (n : Z) : Prop :=
  0 <= n /\ 0 <= year a /\ months a + n < max_year * 12.

(** What the n-th period start is. *)
Definition is_start (a : DateTime) (n : Z) (t : DateTime) : Prop :=
  months t = months a + n /\ day t = Z.min (day a) (days_in (year t) (month t)) /\
  hour t = hour a /\ minute t = minute a /\ second t = second a.

Lemma period_start_spec a n : in_calendar a n ->
  exists t, period_start_at a n = Returns t /\ is_start a n t.
Proof.
  intros (Hn & Hy & Hmax). unfold period_start_at, months in *.
  destruct (fields_valid a) as [(Hya & Hma & Hda) Ht].
  set (total := year a * 12 + month a - 1 + n) in *. assert (0 <= total) by lia.
  rewrite Z.quot_div_nonneg, Z.rem_mod_nonneg by lia.
  pose proof (Z.div_mod total 12 ltac:(lia)). pose proof (Z.mod_pos_bound total 12 ltac:(lia)).
  set (y := total / 12) in *. set (m := total mod 12 + 1) in *.
  assert (Hyr : min_year <= y < max_year) by (unfold min_year, max_year in *; lia).
  destruct (Z.ltb_spec m 0); [lia|]. rewrite last_day_spec by lia. simpl.
  destruct (with_valid y m (Z.min (day a) (days_in y m)) (hour a) (minute a) (second a))
    as (t & -> & Hty & Htm & Htd & Hth & Htmi & Hts); [|done|].
  { pose proof (days_in_bounds y m). unfold valid_date. lia. }
  simpl. exists t. split; [done|]. unfold is_start, months.
  rewrite Hty, Htm, Htd. split_and!; try done. lia.
Qed.

Lemma is_start_lt a n m t u : is_start a n t -> is_start a m u -> n < m -> instant t < instant u.
Proof. intros (Ht & _) (Hu & _) Hnm. apply instant_month. unfold months in *. lia. Qed.

Lemma in_calendar_le a n m : in_calendar a m -> 0 <= n <= m -> in_calendar a n.
Proof. unfold in_calendar. lia. Qed.

Lemma start_lt a n m t u : in_calendar a m -> 0 <= n < m ->
  period_start_at a n = Returns t -> period_start_at a m = Returns u -> instant t < instant u.
Proof.
  intros Hc Hn Ht Hu. destruct (period_start_spec a n) as (t' & Ht' & Hs).
  { apply (in_calendar_le a n m); [done|lia]. }
  destruct (period_start_spec a m Hc) as (u' & Hu' & Hs').
  rewrite Ht in Ht'. rewrite Hu in Hu'. simplify_eq. by eapply (is_start_lt a n m); [..|lia].
Qed.

(** [k] is the period [current] lies in; before the anchor it is the first. *)
Definition period_of (a current : DateTime) (k : Z) : Prop :=
  exists t u, period_start_at a k = Returns t /\ period_start_at a (k + 1) = Returns u /\
    (instant t <= instant current \/ k = 0) /\ instant current < instant u.

Lemma locate_spec a current k : in_calendar a (k + 1) -> 0 <= k < MAX_PERIODS -> period_of a current k ->
  forall fuel n, 0 <= n <= k -> k - n + 1 < Z.of_nat fuel -> locate fuel a current n = Returns k.
Proof.
  intros Hc Hk (t & u & Ht & Hu & Hle & Hlt) fuel.
  induction fuel as [|fuel IH]; intros n Hn Hf; [lia|]. simpl.
  destruct (period_start_spec a n) as (p & Hp & _); [apply (in_calendar_le a n (k + 1)); [done|lia]|].
  rewrite Hp. simpl. destruct (decide (n = k)) as [->|Hne].
  - rewrite Ht in Hp. injection Hp as <-.
    destruct (Z.eqb_spec (instant t) (instant current)); [done|].
    destruct (Z.ltb_spec (instant current) (instant t)); [f_equal; lia|].
    destruct (Z.ltb_spec MAX_PERIODS (k + 1)); [lia|].
    destruct fuel as [|fuel]; [lia|]. simpl. rewrite Hu. simpl.
    destruct (Z.eqb_spec (instant u) (instant current)); [lia|].
    destruct (Z.ltb_spec (instant current) (instant u)); [f_equal; lia|lia].
  - assert (instant p < instant t).
    { eapply (start_lt a n k); [apply (in_calendar_le a k (k + 1)); [done|lia]|lia|done|done]. }
    destruct Hle as [Hle|Hk0]; [|lia].
    destruct (Z.eqb_spec (instant p) (instant current)); [lia|].
    destruct (Z.ltb_spec (instant current) (instant p)); [lia|].
    destruct (Z.ltb_spec MAX_PERIODS (n + 1)); [lia|]. apply IH; lia.
Qed.

Lemma advance_spec a now m u : in_calendar a (m + 1) -> 0 <= m <= MAX_PERIODS ->
  period_start_at a (m + 1) = Returns u -> instant now < instant u ->
  forall fuel n adv, 0 <= n <= m -> m - n < Z.of_nat fuel ->
  (n < m -> exists t, period_start_at a m = Returns t /\ instant t <= instant now) ->
  advance fuel a now n adv = Returns (m, adv || (n <? m)).
Proof.
  intros Hc Hm Hu Hlt fuel. induction fuel as [|fuel IH]; intros n adv Hn Hf Hge; [lia|]. simpl.
  destruct (decide (n = m)) as [->|Hne].
  - rewrite Hu. simpl. destruct (Z.ltb_spec (instant now) (instant u)); [|lia].
    by rewrite Z.ltb_irrefl, orb_false_r.
  - destruct (period_start_spec a (n + 1)) as (p & Hp & _); [apply (in_calendar_le a (n + 1) (m + 1)); [done|lia]|].
    rewrite Hp. simpl. destruct (Hge ltac:(lia)) as (t & Ht & Htn).
    assert (instant p <= instant t).
    { destruct (decide (n + 1 = m)) as [<-|]; [rewrite Hp in Ht; simplify_eq; lia|].
      apply Z.lt_le_incl. eapply (start_lt a (n + 1) m); [|lia|done|done].
      apply (in_calendar_le a m (m + 1)); [done|lia]. }
    destruct (Z.ltb_spec (instant now) (instant p)); [lia|].
    destruct (Z.ltb_spec MAX_PERIODS (n + 1)); [lia|].
    rewrite IH by (try lia; eauto).
    f_equal. f_equal. destruct (Z.ltb_spec n m); [|lia]. by rewrite orb_true_r.
Qed.

Lemma end_from_spec a start_dt k u : in_calendar a (k + 1) -> 0 <= k < MAX_PERIODS ->
  period_start_at a k = Returns start_dt -> period_start_at a (k + 1) = Returns u ->
  forall fuel n, 0 <= n <= k -> k - n < Z.of_nat fuel ->
  end_from fuel a start_dt n = Returns (timestamp u).
Proof.
  intros Hc Hk Ht Hu fuel. induction fuel as [|fuel IH]; intros n Hn Hf; [lia|]. simpl.
  destruct (Z.ltb_spec n MAX_PERIODS); [|lia].
  destruct (period_start_spec a n) as (p & Hp & _); [apply (in_calendar_le a n (k + 1)); [done|lia]|].
  rewrite Hp. simpl. destruct (decide (n = k)) as [->|Hne].
  - rewrite Ht in Hp. injection Hp as <-. by rewrite Z.eqb_refl, Hu.
  - assert (instant p < instant start_dt).
    { eapply (start_lt a n k); [apply (in_calendar_le a k (k + 1)); [done|lia]|lia|done|done]. }
    destruct (Z.eqb_spec (instant p) (instant start_dt)); [lia|]. apply IH; lia.
Qed.

(** ** Theorems *)

(** Billing periods follow the calendar without drift.  The n-th period
    starts n months after the anchor, at the anchor's time of day and on the
    anchor's day of the month, or on the last day of a shorter month; it never
    panics within the calendar, and later periods start strictly later, so the
    periods partition time. *)
Theorem period_starts_calendar (a : DateTime) (n : Z) : in_calendar a (n + 1) -> 0 <= n ->
  exists t u, period_start_at a n = Returns t /\ period_start_at a (n + 1) = Returns u /\
    months t = months a + n /\ day t = Z.min (day a) (days_in (year t) (month t)) /\
    hour t = hour a /\ minute t = minute a /\ second t = second a /\ instant t < instant u.
Proof.
  intros Hc Hn. destruct (period_start_spec a n) as (t & Ht & Hs).
  { apply (in_calendar_le a n (n + 1)); [done|lia]. }
  destruct (period_start_spec a (n + 1) Hc) as (u & Hu & _).
  exists t, u. pose proof (start_lt a n (n + 1) t u Hc ltac:(lia) Ht Hu).
  destruct Hs as (? & ? & ? & ? & ?). by split_and!.
Qed.

(** A period is advanced exactly when it is over, to the period of the
    present.  Whatever period [current] lies in, also after the anchor was
    moved, and whatever later period [now] lies in, within the thousand years
    of the loops' bound: if the next period has not begun nothing changes, and
    otherwise the new start is that of the period [now] lies in, however many
    periods were missed. *)
Theorem advance_period_exact (a current now : DateTime) (k m : Z) :
  0 <= k <= m -> m < MAX_PERIODS -> in_calendar a (m + 1) ->
  period_of a current k -> period_of a now m ->
  advance_period_if_due a current now =
    if k <? m then (let! t := period_start_at a m in Returns (Some t)) else Returns None.
Proof.
  intros Hk Hm Hc Hcur (t & u & Ht & Hu & Hle & Hlt). unfold advance_period_if_due.
  assert (Hfuel : Z.of_nat LOOP_FUEL = MAX_PERIODS + 2) by (apply Z2Nat.id; unfold MAX_PERIODS; lia).
  rewrite (locate_spec a current k); [|apply (in_calendar_le a (k + 1) (m + 1)); [done|lia]|lia|done|lia..].
  cbn [obind]. rewrite (advance_spec a now m u); [|done|lia|done|done|lia|lia|].
  - cbn [obind fst snd orb]. by destruct (k <? m).
  - intros Hkm. exists t. split; [done|]. destruct Hle; [done|lia].
Qed.

(** The end of a period is the start of the next.  For a start that is
    the n-th of its anchor the period end sent to the client is the timestamp
    of the start [advance_period_if_due] moves to next. *)
Theorem period_end_is_next_start (anchor started : Z) (a t u : DateTime) (k : Z) :
  timestamp_opt anchor = Some a -> timestamp_opt started = Some t ->
  0 <= k < MAX_PERIODS -> in_calendar a (k + 1) ->
  period_start_at a k = Returns t -> period_start_at a (k + 1) = Returns u ->
  compute_period_end anchor started = Returns (timestamp u).
Proof.
  intros Ha Hs Hk Hc Ht Hu. unfold compute_period_end. rewrite Ha, Hs.
  assert (Hfuel : Z.of_nat (Z.to_nat (MAX_PERIODS + 1)) = MAX_PERIODS + 1)
    by (apply Z2Nat.id; unfold MAX_PERIODS; lia).
  apply (end_from_spec a t k u); [done|done|done|done|lia|lia].
Qed.

End Periods.

(** ** A calendar

    Dates as their six fields, the instant numbering every month with 31 days:
    enough for the laws, which say how instants are ordered and not how far
    they are apart. *)

Record Civil : Type := mkCivil { cy : Z; cm : Z; cd : Z; ch : Z; cmi : Z; cs : Z }.

Definition between (lo x hi : Z) : bool := (lo <=? x) && (x <=? hi).

Definition validb (c : Civil) : bool :=
  between min_year (cy c) max_year && between 1 (cm c) 12 && between 1 (cd c) (days_in (cy c) (cm c)) &&
  between 0 (ch c) 23 && between 0 (cmi c) 59 && between 0 (cs c) 59.

Definition secs (c : Civil) : Z :=
  ((((cy c * 12 + cm c - 1) * 31 + cd c - 1) * 24 + ch c) * 60 + cmi c) * 60 + cs c.

Definition of_secs (s : Z) : Civil :=
  mkCivil (s / 32140800) (s / 2678400 mod 12 + 1) (s / 86400 mod 31 + 1) (s / 3600 mod 24)
    (s / 60 mod 60) (s mod 60).

Definition Date : Type := { c : Civil | validb c = true }.

Definition mk_date (c : Civil) : option Date :=
  (if validb c as b return validb c = b -> option Date then fun Hc => Some (exist _ c Hc)
   else fun _ => None) eq_refl.

Definition day_before (c : Civil) : Civil :=
  if 1 <? cd c then mkCivil (cy c) (cm c) (cd c - 1) (ch c) (cmi c) (cs c)
  else
    let (y, m) := if cm c =? 1 then (cy c - 1, 12) else (cy c, cm c - 1) in
    mkCivil y m (days_in y m) (ch c) (cmi c) (cs c).

#[export] Instance civil : Chrono := {|
  DateTime := Date;
  year t := cy (`t); month t := cm (`t); day t := cd (`t);
  hour t := ch (`t); minute t := cmi (`t); second t := cs (`t);
  instant t := secs (`t) * 1000000000;
  with_ymd_and_hms y m d h mi s := mk_date (mkCivil y m d h mi s);
  minus_one_day t := default t (mk_date (day_before (`t)));
  timestamp t := secs (`t);
  timestamp_opt s := if secs (of_secs s) =? s then mk_date (of_secs s) else None;
|}.

Lemma validb_spec c : validb c = true <->
  valid_date (cy c) (cm c) (cd c) /\ valid_time (ch c) (cmi c) (cs c).
Proof.
  unfold validb, between, valid_date, valid_time. rewrite !andb_true_iff, !Z.leb_le. lia.
Qed.

Lemma mk_date_some c : validb c = true -> exists t, mk_date c = Some t /\ `t = c.
Proof.
  assert (Hb : forall b (Hb : validb c = b), b = true -> exists t,
    (if b as b return validb c = b -> option Date then fun Hc => Some (exist _ c Hc)
     else fun _ => None) Hb = Some t /\ `t = c) by (intros [] Hb; [by eexists|done]).
  intros Hc. by apply Hb.
Qed.

#[export] Instance civil_laws : ChronoLaws civil.
Proof.
  split; simpl.
  - intros [c Hc]. by apply validb_spec.
  - intros y m d h mi s Hd Ht. destruct (mk_date_some (mkCivil y m d h mi s)) as ([c Hc] & -> & He).
    { by apply validb_spec. }
    simpl in *. subst. eexists. by split_and!.
  - intros [c Hc] [c' Hc']. simpl. apply validb_spec in Hc as [(_ & _ & Hd) Ht], Hc' as [(_ & _ & Hd') Ht'].
    pose proof (days_in_bounds (cy c) (cm c)). pose proof (days_in_bounds (cy c') (cm c')).
    unfold secs, valid_time in *. lia.
  - intros [c Hc] y m Hy Hm Hmonths Hd. simpl in *. pose proof Hc as [(Hcy & Hcm & _) Ht]%validb_spec.
    assert (Hb : day_before c = mkCivil y m (days_in y m) (ch c) (cmi c) (cs c)).
    { unfold day_before. rewrite Hd. simpl. destruct (Z.eqb_spec (cm c) 1).
      - by replace (cy c - 1) with y by lia; replace m with 12 by lia.
      - by replace (cy c) with y by lia; replace (cm c - 1) with m by lia. }
    rewrite Hb. destruct (mk_date_some (mkCivil y m (days_in y m) (ch c) (cmi c) (cs c))) as (t & -> & He).
    { apply validb_spec. simpl. pose proof (days_in_bounds y m).
      split; [|done]. unfold valid_date. split_and!; try done; unfold min_year, max_year in *; lia. }
    simpl. by rewrite He.
Qed.

(** 31 January 2026, noon, and the following period starts. *)
Definition jan31 : DateTime := (exist _ (mkCivil 2026 1 31 12 0 0) eq_refl : Date).
Definition feb28 : DateTime := (exist _ (mkCivil 2026 2 28 12 0 0) eq_refl : Date).
Definition mar31 : DateTime := (exist _ (mkCivil 2026 3 31 12 0 0) eq_refl : Date).

Lemma jan31_calendar : in_calendar jan31 2.
Proof. unfold in_calendar, months, max_year. simpl. lia. Qed.

Lemma jan31_periods : period_start_at jan31 0 = Returns jan31 /\
  period_start_at jan31 1 = Returns feb28 /\ period_start_at jan31 2 = Returns mar31.
Proof. split_and!; reflexivity. Qed.

Lemma period_starts_calendar_witness : exists t u,
  period_start_at jan31 1 = Returns t /\ period_start_at jan31 (1 + 1) = Returns u.
Proof.
  destruct (period_starts_calendar jan31 1 jan31_calendar ltac:(lia)) as (t & u & Ht & Hu & _).
  by exists t, u.
Defined.

Lemma advance_period_exact_witness :
  advance_period_if_due jan31 jan31 feb28 = Returns (Some feb28).
Proof.
  destruct jan31_periods as (H0 & H1 & H2).
  assert (Hk : 0 <= 0 <= 1) by lia. assert (Hm : 1 < MAX_PERIODS) by done.
  assert (Hcur : period_of jan31 jan31 0) by (exists jan31, feb28; split_and!; [done|done|by right|done]).
  assert (Hnow : period_of jan31 feb28 1).
  { exists feb28, mar31. split_and!; [done|done|left; lia|done]. }
  rewrite (advance_period_exact jan31 jan31 feb28 0 1 Hk Hm jan31_calendar Hcur Hnow).
  rewrite H1. reflexivity.
Defined.

Lemma period_end_is_next_start_witness :
  compute_period_end (secs (`jan31)) (secs (`feb28)) = Returns (secs (`mar31)).
Proof.
  destruct jan31_periods as (H0 & H1 & H2).
  assert (Ha : timestamp_opt (secs (`jan31)) = Some jan31) by reflexivity.
  assert (Hs : timestamp_opt (secs (`feb28)) = Some feb28) by reflexivity.
  assert (Hk : 0 <= 1 < MAX_PERIODS) by (unfold MAX_PERIODS; lia).
  exact (period_end_is_next_start _ _ jan31 feb28 mar31 1 Ha Hs Hk jan31_calendar H1 H2).
Defined.

End TrafficPeriod.
