(* ===== verification/TrafficQuota.v ===== *)
(** * Monthly traffic quotas on the server

    [crates/portunus-server/src/traffic_quotas]: the quota table and its
    write-through cache ([store.rs], [cache.rs]), the aggregator that bills the
    readings of the clients ([aggregator.rs], [samples.rs]) and the rollover of
    finished periods ([rollover.rs]).

    The table is a map by (user, client); a column of SQLite that is added to
    beyond 64 bits becomes a real number, which can no longer be read as an
    integer.  The database itself answers: its input/output errors are not
    modelled.  Metrics, logs and the push to the client are left out; the
    exhaustion events are what the aggregator sends. *)

From S2P Require Import Prelude Text TrafficPeriod.

Import TrafficPeriod.TrafficPeriod.

Local Open Scope Z_scope.

Module TrafficQuota.

Notation Key := (list Z * list Z)%type.

Record TrafficQuotaRow : Type := mkRow {
  user_id : list Z;
  client_id : list Z;
  client_name : list Z;
  monthly_bytes : Z;
  billing_anchor : Z;
  current_period_started_at : Z;
  current_period_bytes_used : Z;
  exhausted_at : option Z;
  created_at : Z;
  updated_at : Z;
}.

Definition budget_remaining (r : TrafficQuotaRow) : Z :=
  clamp_i64 (monthly_bytes r - current_period_bytes_used r).

Definition is_exhausted (r : TrafficQuotaRow) : bool :=
  match exhausted_at r with Some _ => true | None => false end.

Definition key_of (r : TrafficQuotaRow) : Key := (user_id r, client_id r).

Definition set_usage (r : TrafficQuotaRow) (started used : Z) (ex : option Z) (now : Z) : TrafficQuotaRow :=
  mkRow (user_id r) (client_id r) (client_name r) (monthly_bytes r) (billing_anchor r) started used ex
    (created_at r) now.

(** ** The table *)

Inductive Column : Type := Integer (z : Z) | Real.

(** [column + delta] in SQL, for a [delta] that is not negative. *)
Definition sql_add (c : Column) (delta : Z) : Column :=
  match c with
  | Integer z => if i64_max <? z + delta then Real else Integer (z + delta)
  | Real => Real
  end.

(** [column >= n]: a real column exceeded every integer. *)
Definition sql_ge (c : Column) (n : Z) : bool :=
  match c with Integer z => n <=? z | Real => true end.

(** A stored row: the used bytes are the column [used]. *)
Record Stored : Type := mkStored { base : TrafficQuotaRow; used : Column }.

Notation Table := (gmap Key Stored).

Inductive StoreError : Type := Constraint | ColumnType.

Definition row_to_quota (s : Stored) : Result TrafficQuotaRow StoreError :=
  match used s with
  | Integer z =>
    Ok (set_usage (base s) (current_period_started_at (base s)) z (exhausted_at (base s)) (updated_at (base s)))
  | Real => Err ColumnType
  end.

(** The [CHECK] constraints of the table. *)
Definition insert_or_replace (t : Table) (r : TrafficQuotaRow) : Result Table StoreError :=
  if (monthly_bytes r <? 0) || (current_period_bytes_used r <? 0) then Err Constraint
  else Ok (<[key_of r := mkStored r (Integer (current_period_bytes_used r))]> t).

(** The row after an update, as the [SELECT] that follows returns it. *)
Definition select (t : Table) (k : Key) : Result (option TrafficQuotaRow) StoreError :=
  match t !! k with
  | None => Ok None
  | Some s => let? r := row_to_quota s in Ok (Some r)
  end.

Definition accumulate_bytes_used (t : Table) (k : Key) (delta now : Z) :
  Result (option TrafficQuotaRow) StoreError * Table :=
  match t !! k with
  | None => (Ok None, t)
  | Some s =>
    let u := sql_add (used s) delta in
    let ex := match exhausted_at (base s) with
              | Some at_ => Some at_
              | None => if sql_ge u (monthly_bytes (base s)) then Some now else None
              end in
    let b := set_usage (base s) (current_period_started_at (base s))
               (current_period_bytes_used (base s)) ex now in
    let t := <[k := mkStored b u]> t in
    (select t k, t)
  end.

Definition update_usage (t : Table) (k : Key) (started : TrafficQuotaRow -> Z) (now : Z) :
  Result (option TrafficQuotaRow) StoreError * Table :=
  let t := alter (fun s => mkStored (set_usage (base s) (started (base s)) 0 None now) (Integer 0)) k t in
  (select t k, t).

Definition store_reset_period (t : Table) (k : Key) (new_start now : Z) :
  Result (option TrafficQuotaRow) StoreError * Table :=
  update_usage t k (fun _ => new_start) now.

Definition store_clear_period_usage (t : Table) (k : Key) (now : Z) :
  Result (option TrafficQuotaRow) StoreError * Table :=
  update_usage t k current_period_started_at now.

(** ** The cache *)

Record Quotas : Type := mkQuotas { table : Table; cache : gmap Key TrafficQuotaRow }.

Definition put_cached (c : gmap Key TrafficQuotaRow) (r : TrafficQuotaRow) : gmap Key TrafficQuotaRow :=
  <[key_of r := r]> c.

(** Fails when some row cannot be read. *)
Definition load (t : Table) : Result Quotas StoreError :=
  if forallb (fun kv : Key * Stored => is_ok (row_to_quota kv.2)) (map_to_list t) then
    Ok (mkQuotas t (omap (fun s => match row_to_quota s with Ok r => Some r | Err _ => None end) t))
  else Err ColumnType.

Definition get (q : Quotas) (k : Key) : option TrafficQuotaRow := cache q !! k.

Definition upsert (q : Quotas) (r : TrafficQuotaRow) : Result TrafficQuotaRow StoreError * Quotas :=
  match insert_or_replace (table q) r with
  | Ok t => (Ok r, mkQuotas t (put_cached (cache q) r))
  | Err e => (Err e, q)
  end.

Definition delete_quota (q : Quotas) (k : Key) : Result bool StoreError * Quotas :=
  (Ok (bool_decide (is_Some (table q !! k))), mkQuotas (delete k (table q)) (delete k (cache q))).

Definition accumulate (q : Quotas) (k : Key) (delta now : Z) :
  Result (option (TrafficQuotaRow * bool)) StoreError * Quotas :=
  let pre_exhausted := is_exhausted <$> get q k in
  let (r, t) := accumulate_bytes_used (table q) k delta now in
  match r with
  | Err e => (Err e, mkQuotas t (cache q))
  | Ok None => (Ok None, mkQuotas t (cache q))
  | Ok (Some row) =>
    let just_exhausted := is_exhausted row && bool_decide (pre_exhausted = Some false) in
    (Ok (Some (row, just_exhausted)), mkQuotas t (put_cached (cache q) row))
  end.

(** [clear_period_usage] and [reset_period] share their shape. *)
Definition write_through (q : Quotas) (res : Result (option TrafficQuotaRow) StoreError * Table) :
  Result (option TrafficQuotaRow) StoreError * Quotas :=
  match res.1 with
  | Ok (Some row) => (Ok (Some row), mkQuotas res.2 (put_cached (cache q) row))
  | r => (r, mkQuotas res.2 (cache q))
  end.

Definition clear_period_usage (q : Quotas) (k : Key) (now : Z) :
  Result (option TrafficQuotaRow) StoreError * Quotas :=
  write_through q (store_clear_period_usage (table q) k now).

Definition reset_period (q : Quotas) (k : Key) (new_start now : Z) :
  Result (option TrafficQuotaRow) StoreError * Quotas :=
  write_through q (store_reset_period (table q) k new_start now).

(** ** The aggregator *)

(** [samples] are the one-minute rows, [events] the exhaustion events sent. *)
Record Aggregator : Type := mkAgg {
  prev : gmap Z (Z * Z);
  quotas : Quotas;
  samples : gmap (Key * Z) (Column * Column);
  events : list Key;
}.

(** [SampleBucket::M1.align]; [%] rounds towards zero. *)
Definition align_minute (ts : Z) : Z := ts - Z.rem ts 60.

Definition upsert_1m_delta (s : gmap (Key * Z) (Column * Column)) (k : Key) (ts delta_in delta_out : Z) :
  gmap (Key * Z) (Column * Column) :=
  let (i, o) := default (Integer 0, Integer 0) (s !! (k, ts)) in
  <[(k, ts) := (sql_add i delta_in, sql_add o delta_out)]> s.

(** What a reading adds: a counter that went back adds nothing. *)
Definition delta_of (snap : Z * Z) (cum_in cum_out : Z) : Z * Z :=
  (Z.max (cum_in - snap.1) 0, Z.max (cum_out - snap.2) 0).

Definition to_i64_or_max (z : Z) : Z := Z.min z i64_max.

Record Report : Type := mkReport {
  rep_client : list Z;
  rep_rule : Z;
  rep_owner : list Z;
  rep_in : Z;
  rep_out : Z;
  rep_now : Z;
}.

Definition rep_key (r : Report) : Key := (rep_owner r, rep_client r).

Definition unowned (owner : list Z) : bool :=
  bool_decide (owner = []) || bool_decide (owner = lit "_unknown").

Definition record (a : Aggregator) (r : Report) : Aggregator :=
  if unowned (rep_owner r) then a
  else
    let (din, dout) := delta_of (default (0, 0) (prev a !! rep_rule r)) (rep_in r) (rep_out r) in
    let p := <[rep_rule r := (rep_in r, rep_out r)]> (prev a) in
    if (din =? 0) && (dout =? 0) then mkAgg p (quotas a) (samples a) (events a)
    else
      let k := rep_key r in
      let s := upsert_1m_delta (samples a) k (align_minute (rep_now r))
                 (to_i64_or_max din) (to_i64_or_max dout) in
      match get (quotas a) k with
      | None => mkAgg p (quotas a) s (events a)
      | Some _ =>
        let delta_total := to_i64_or_max (sat_add_u64 din dout) in
        match accumulate (quotas a) k delta_total (rep_now r) with
        | (Ok (Some (row, true)), q) => mkAgg p q s (events a ++ [key_of row])
        | (_, q) => mkAgg p q s (events a)
        end
      end.

Definition drop_rule (a : Aggregator) (rule : Z) : Aggregator :=
  mkAgg (delete rule (prev a)) (quotas a) (samples a) (events a).

(** ** The rollover *)

Section Rollover.
Context `{Chrono}.

(** The new start of a row whose period is over. *)
Definition due (r : TrafficQuotaRow) (now : DateTime) : Outcome (option Z) :=
  match timestamp_opt (billing_anchor r), timestamp_opt (current_period_started_at r) with
  | Some anchor, Some start =>
    match advance_period_if_due anchor start now with
    | Returns (Some t) => Returns (Some (timestamp t))
    | Returns None => Returns None
    | Panics => Panics
    end
  | _, _ => Returns None
  end.

(** [run_once] over the rows [list_all] returned; the number of rows advanced. *)
Fixpoint run_rows (rows : list TrafficQuotaRow) (now : DateTime) (q : Quotas) (advanced : nat) :
  Outcome (Result nat StoreError) * Quotas :=
  match rows with
  | [] => (Returns (Ok advanced), q)
  | r :: rows =>
    match due r now with
    | Panics => (Panics, q)
    | Returns None => run_rows rows now q advanced
    | Returns (Some new_start) =>
      match reset_period q (key_of r) new_start (timestamp now) with
      | (Err e, q) => (Returns (Err e), q)
      | (Ok None, q) => run_rows rows now q advanced
      | (Ok (Some _), q) => run_rows rows now q (S advanced)
      end
    end
  end.

End Rollover.

(** ** The replay to a client that connects *)

Definition list_for_client (q : Quotas) (cid : list Z) : list TrafficQuotaRow :=
  filter (fun r => client_id r = cid) (map_to_list (cache q)).*2.

(** The identity of an authenticated client session. *)
Record ClientIdentity : Type := mkIdentity { ident_id : list Z; ident_name : list Z }.

(** The rows sent as [TrafficQuotaUpdate] before the rules; [capable] is the
    version gate, [version_at_least(_, 1, 4)]. *)
Definition replay_traffic_quotas_for_client (q : Quotas) (identity : ClientIdentity) (capable : bool) :
  list TrafficQuotaRow :=
  if negb capable then [] else list_for_client q (ident_name identity).

(** ** Coherence of table and cache *)

(** The cache holds the rows of the table, under their own keys; a row whose
    column overflowed keeps the last one that could be read. *)
Definition coherent (q : Quotas) : Prop :=
  forall k, match table q !! k with
    | Some s => key_of (base s) = k /\ exists r, cache q !! k = Some r /\ key_of r = k /\
        (row_to_quota s = Ok r \/ used s = Real)
    | None => cache q !! k = None
    end.

Inductive QuotaOp : Type :=
| OpUpsert (r : TrafficQuotaRow)
| OpDelete (k : Key)
| OpAccumulate (k : Key) (delta now : Z)
| OpClear (k : Key) (now : Z)
| OpReset (k : Key) (new_start now : Z).

Definition apply_op (q : Quotas) (op : QuotaOp) : Quotas :=
  match op with
  | OpUpsert r => (upsert q r).2
  | OpDelete k => (delete_quota q k).2
  | OpAccumulate k delta now => (accumulate q k delta now).2
  | OpClear k now => (clear_period_usage q k now).2
  | OpReset k start now => (reset_period q k start now).2
  end.

Lemma key_of_set_usage r st u ex now : key_of (set_usage r st u ex now) = key_of r.
Proof. done. Qed.

Lemma row_key s r : row_to_quota s = Ok r -> key_of r = key_of (base s).
Proof. unfold row_to_quota. destruct (used s); [|done]. by intros [= <-]. Qed.

(** Writing a row that was just selected keeps the two in step. *)
Lemma coherent_write q t k s r : coherent q -> table q !! k <> None ->
  t = <[k := s]> (table q) -> key_of (base s) = k -> row_to_quota s = Ok r ->
  coherent (mkQuotas t (put_cached (cache q) r)).
Proof.
  intros Hc Hk -> Hs Hr j. pose proof (row_key s r Hr) as Hkr. unfold put_cached. simpl.
  rewrite Hkr, Hs. destruct (decide (k = j)) as [->|Hne].
  - rewrite !lookup_insert_eq. simpl. split; [done|]. exists r. split_and!; [done|congruence|by left].
  - rewrite !lookup_insert_ne by done. apply Hc.
Qed.

Lemma coherent_write_real q t k s : coherent q -> table q !! k <> None ->
  t = <[k := s]> (table q) -> key_of (base s) = k -> used s = Real -> coherent (mkQuotas t (cache q)).
Proof.
  intros Hc Hk -> Hs Hr j. simpl. specialize (Hc j). destruct (decide (k = j)) as [->|Hne].
  - rewrite lookup_insert_eq. simpl. split; [done|]. destruct (table q !! j); [|done].
    destruct Hc as (_ & r & Hr' & Hk' & _). exists r. split_and!; [done|done|by right].
  - by rewrite lookup_insert_ne.
Qed.

Lemma select_insert t k s : select (<[k := s]> t) k = (let? r := row_to_quota s in Ok (Some r)).
Proof. unfold select. by rewrite lookup_insert_eq. Qed.

Lemma accumulate_coherent q k delta now : coherent q -> coherent (accumulate q k delta now).2.
Proof.
  intros Hc. unfold accumulate, accumulate_bytes_used. destruct (table q !! k) as [s|] eqn:Hk; [|by destruct q].
  pose proof (Hc k) as Hck. rewrite Hk in Hck. destruct Hck as [Hs _].
  rewrite select_insert. set (s' := mkStored _ _).
  destruct (row_to_quota s') as [row|e] eqn:Hr; simpl.
  - by eapply (coherent_write q _ k s'); [|rewrite Hk| | |].
  - eapply (coherent_write_real q _ k s'); [done|by rewrite Hk|done|done|].
    unfold row_to_quota in Hr. by destruct (used s').
Qed.

Lemma update_usage_coherent q k f now : coherent q ->
  coherent (write_through q (update_usage (table q) k f now)).2.
Proof.
  intros Hc. unfold write_through, update_usage. destruct (table q !! k) as [s|] eqn:Hk; simpl.
  - pose proof (Hc k) as Hck. rewrite Hk in Hck. destruct Hck as [Hs _].
    assert (Ha : forall g : Stored -> Stored, alter g k (table q) = <[k := g s]> (table q)).
    { intros g. apply map_eq. intros j. destruct (decide (k = j)) as [<-|Hne].
      - by rewrite lookup_alter_eq, lookup_insert_eq, Hk.
      - by rewrite lookup_alter_ne, lookup_insert_ne. }
    rewrite Ha, select_insert. simpl. by eapply coherent_write; [|rewrite Hk| | |].
  - rewrite alter_id by (intros s; congruence). unfold select. rewrite Hk. by destruct q.
Qed.

Lemma apply_op_coherent q op : coherent q -> coherent (apply_op q op).
Proof.
  intros Hc. destruct op as [r|k|k delta now|k now|k start now]; simpl.
  - unfold upsert, insert_or_replace. case_match; [|done]. simplify_eq/=.
    case_match; simplify_eq. intros j. simpl. unfold put_cached. destruct (decide (key_of r = j)) as [<-|Hne].
    + rewrite !lookup_insert_eq. simpl. split; [done|]. exists r. split_and!; [done|done|left].
      unfold row_to_quota. simpl. by destruct r.
    + rewrite !lookup_insert_ne by done. apply Hc.
  - intros j. simpl. destruct (decide (k = j)) as [<-|Hne].
    + by rewrite !lookup_delete_eq.
    + rewrite !lookup_delete_ne by done. apply Hc.
  - by apply accumulate_coherent.
  - by apply update_usage_coherent.
  - by apply update_usage_coherent.
Qed.

Lemma load_coherent t q : (forall k s, t !! k = Some s -> key_of (base s) = k) ->
  load t = Ok q -> coherent q.
Proof.
  intros Hk. unfold load. case_match eqn:Hf; [|done]. intros [= <-] k. simpl.
  rewrite lookup_omap. destruct (t !! k) as [s|] eqn:Hs; simpl; [|done].
  split; [by apply Hk|]. apply forallb_true_Forall in Hf. rewrite Forall_forall in Hf.
  specialize (Hf (k, s) ltac:(by apply elem_of_map_to_list)). simpl in Hf.
  destruct (row_to_quota s) as [r|] eqn:Hr; [|done]. exists r. split_and!; [done| |by left].
  rewrite (row_key _ _ Hr). by apply Hk.
Qed.

(** ** Accounting *)

(** The readings that add something, as the bytes they add and their time. *)
Fixpoint bills (p : gmap Z (Z * Z)) (reps : list Report) : list (Z * Z) :=
  match reps with
  | [] => []
  | r :: reps =>
    let (din, dout) := delta_of (default (0, 0) (p !! rep_rule r)) (rep_in r) (rep_out r) in
    let rest := bills (<[rep_rule r := (rep_in r, rep_out r)]> p) reps in
    if (din =? 0) && (dout =? 0) then rest else (din + dout, rep_now r) :: rest
  end.

(** When the used bytes first reach the limit. *)
Fixpoint first_crossing (u limit : Z) (bs : list (Z * Z)) : option Z :=
  match bs with
  | [] => None
  | (d, now) :: bs => if limit <=? u + d then Some now else first_crossing (u + d) limit bs
  end.

(** The pair [k] has a quota of [limit], of which [u] is used. *)
Definition quota_at (a : Aggregator) (k : Key) (u limit : Z) (ex : option Z) : Prop :=
  exists s r, table (quotas a) !! k = Some s /\ used s = Integer u /\ monthly_bytes (base s) = limit /\
    exhausted_at (base s) = ex /\ key_of (base s) = k /\
    cache (quotas a) !! k = Some r /\ row_to_quota s = Ok r.

Lemma accumulate_exact a k u limit ex d now p s : quota_at a k u limit ex -> 0 <= d -> u + d <= i64_max ->
  let ex' := match ex with Some _ => ex | None => if limit <=? u + d then Some now else None end in
  exists row q, accumulate (quotas a) k d now =
      (Ok (Some (row, bool_decide (ex = None) && (limit <=? u + d))), q) /\ key_of row = k /\
    forall ev, quota_at (mkAgg p q s ev) k (u + d) limit ex'.
Proof.
  intros (st & r & Ht & Hu & Hl & He & Hk & Hc & Hr) Hd Hmax ex'.
  unfold accumulate, accumulate_bytes_used. rewrite Ht, select_insert, Hu. simpl.
  destruct (Z.ltb_spec i64_max (u + d)); [lia|]. unfold row_to_quota at 1. simpl.
  eexists _, _. split; [|split].
  - f_equal. f_equal. f_equal. f_equal. unfold get. rewrite Hc. simpl.
    assert (Hre : exhausted_at r = ex) by (unfold row_to_quota in Hr; rewrite Hu in Hr; by simplify_eq).
    unfold is_exhausted. simpl. rewrite Hre, Hl, He. destruct ex; [done|].
    by destruct (limit <=? u + d).
  - done.
  - intros ev. eexists _, _. simpl. split; [apply lookup_insert_eq|]. simpl. split_and!; try done.
    + unfold ex'. rewrite Hl, He. by destruct ex.
    + unfold put_cached. rewrite !key_of_set_usage, Hk. apply lookup_insert_eq.
Qed.

(** One report of the pair. *)
Lemma record_exact a k r u limit ex : quota_at a k u limit ex -> rep_key r = k -> unowned (rep_owner r) = false ->
  let (din, dout) := delta_of (default (0, 0) (prev a !! rep_rule r)) (rep_in r) (rep_out r) in
  u + (din + dout) <= i64_max -> 0 <= u ->
  exists a', record a r = a' /\ prev a' = <[rep_rule r := (rep_in r, rep_out r)]> (prev a) /\
    if (din =? 0) && (dout =? 0) then quota_at a' k u limit ex /\ events a' = events a
    else quota_at a' k (u + (din + dout)) limit
           (match ex with Some _ => ex | None => if limit <=? u + (din + dout) then Some (rep_now r) else None end) /\
         events a' = events a ++ (if bool_decide (ex = None) && (limit <=? u + (din + dout)) then [k] else []).
Proof.
  intros Hq Hk Hown. unfold record. rewrite Hown.
  destruct (delta_of _ _ _) as [din dout] eqn:Hd. injection Hd as Hdin Hdout. intros Hmax Hu0.
  destruct ((din =? 0) && (dout =? 0)) eqn:Hz; [eexists; by split_and!|].
  pose proof Hq as (s & row & _ & _ & _ & _ & _ & Hc & _). unfold get. rewrite Hk, Hc.
  assert (Hb : to_i64_or_max (sat_add_u64 din dout) = din + dout).
  { unfold to_i64_or_max, sat_add_u64. unfold i64_max, u64_max in *. lia. }
  rewrite Hb.
  destruct (accumulate_exact a k u limit ex (din + dout) (rep_now r)
    (<[rep_rule r := (rep_in r, rep_out r)]> (prev a))
    (upsert_1m_delta (samples a) k (align_minute (rep_now r)) (to_i64_or_max din) (to_i64_or_max dout)) Hq)
    as (row' & q & -> & Hkr & Hq'); [lia|lia|].
  destruct (bool_decide (ex = None) && (limit <=? u + (din + dout))) eqn:Hj; eexists; split_and!; try done.
  - simpl. by rewrite Hkr.
  - simpl. by rewrite app_nil_r.
Qed.

Lemma bills_cons p r reps : bills p (r :: reps) =
  let (din, dout) := delta_of (default (0, 0) (p !! rep_rule r)) (rep_in r) (rep_out r) in
  let rest := bills (<[rep_rule r := (rep_in r, rep_out r)]> p) reps in
  if (din =? 0) && (dout =? 0) then rest else (din + dout, rep_now r) :: rest.
Proof. done. Qed.

Lemma sum_cons (b : Z * Z) bs : sum_of fst (b :: bs) = b.1 + sum_of fst bs.
Proof. done. Qed.

Lemma bills_nonneg p reps : Forall (fun b => 0 <= b.1) (bills p reps).
Proof.
  revert p. induction reps as [|r reps IH]; intros p; [constructor|]. rewrite bills_cons.
  destruct (delta_of _ _ _) as [din dout] eqn:Hd. injection Hd as Hdin Hdout.
  destruct (_ && _); [apply IH|]. constructor; [simpl; lia|apply IH].
Qed.

(** Billing a whole sequence, from any point of the period. *)
Lemma record_all_exact reps : forall a k u limit ex, quota_at a k u limit ex -> 0 <= u ->
  Forall (fun r => rep_key r = k /\ unowned (rep_owner r) = false) reps ->
  u + sum_of fst (bills (prev a) reps) <= i64_max ->
  let cross := first_crossing u limit (bills (prev a) reps) in
  quota_at (foldl record a reps) k (u + sum_of fst (bills (prev a) reps)) limit
    (match ex with Some _ => ex | None => cross end) /\
  events (foldl record a reps) = events a ++
    match ex, cross with None, Some _ => [k] | _, _ => [] end.
Proof.
  induction reps as [|r reps IH]; intros a k u limit ex Hq Hu Hall Hmax.
  { simpl. unfold sum_of. simpl. rewrite Z.add_0_r. by destruct ex; rewrite app_nil_r. }
  apply Forall_cons in Hall as [[Hk Hown] Hall]. rewrite bills_cons in *. cbn [foldl].
  pose proof (record_exact a k r u limit ex Hq Hk Hown) as Hr.
  pose proof (bills_nonneg (<[rep_rule r := (rep_in r, rep_out r)]> (prev a)) reps) as Hnn.
  apply (sum_of_nonneg_Forall fst) in Hnn.
  destruct (delta_of _ _ _) as [din dout] eqn:Hd. injection Hd as Hdin Hdout. cbv zeta in *.
  destruct ((din =? 0) && (dout =? 0)) eqn:Hz.
  - apply andb_true_iff in Hz as [Hz1%Z.eqb_eq Hz2%Z.eqb_eq].
    destruct Hr as (a' & -> & Hp & Hq' & He); [lia|done|]. rewrite <-Hp in *.
    rewrite <-He. by apply IH.
  - rewrite sum_cons in *. cbn [fst first_crossing] in *.
    destruct Hr as (a' & -> & Hp & Hq' & He); [lia|done|]. rewrite <-Hp in *.
    destruct (IH a' k _ limit _ Hq' ltac:(lia) Hall ltac:(lia)) as [IHq IHe].
    rewrite Z.add_assoc, IHe, He.
    destruct ex; simpl in *; [by rewrite !app_nil_r|].
    destruct (limit <=? u + (din + dout)); simpl in *; by rewrite !app_nil_r.
Qed.

(** What the readings of one rule add when its counters only grow. *)
Fixpoint growing (snap : Z * Z) (reps : list Report) : Prop :=
  match reps with
  | [] => True
  | r :: reps => snap.1 <= rep_in r /\ snap.2 <= rep_out r /\ growing (rep_in r, rep_out r) reps
  end.

Fixpoint last_reading (snap : Z * Z) (reps : list Report) : Z * Z :=
  match reps with [] => snap | r :: reps => last_reading (rep_in r, rep_out r) reps end.

Lemma bills_growing rule reps : forall p, Forall (fun r => rep_rule r = rule) reps ->
  growing (default (0, 0) (p !! rule)) reps ->
  sum_of fst (bills p reps) =
    (last_reading (default (0, 0) (p !! rule)) reps).1 - (default (0, 0) (p !! rule)).1 +
    ((last_reading (default (0, 0) (p !! rule)) reps).2 - (default (0, 0) (p !! rule)).2).
Proof.
  induction reps as [|r reps IH]; intros p Hall Hg; [simpl; unfold sum_of; simpl; lia|].
  apply Forall_cons in Hall as [Hr Hall]. simpl in Hg. destruct Hg as (Hi & Ho & Hg).
  rewrite bills_cons, Hr. cbn [last_reading].
  specialize (IH (<[rule := (rep_in r, rep_out r)]> p) Hall). rewrite lookup_insert_eq in IH.
  specialize (IH Hg). simpl in IH. unfold delta_of.
  destruct (_ && _) eqn:Hz; [|rewrite sum_cons; cbn [fst]; lia].
  apply andb_true_iff in Hz as [Hz1%Z.eqb_eq Hz2%Z.eqb_eq]. lia.
Qed.

(** ** Rollover lemmas *)

Lemma reset_period_present q k s t ts : coherent q -> table q !! k = Some s ->
  exists q', reset_period q k t ts = (Ok (Some (set_usage (base s) t 0 None ts)), q') /\
    cache q' = <[k := set_usage (base s) t 0 None ts]> (cache q) /\
    (forall j, j <> k -> table q' !! j = table q !! j).
Proof.
  intros Hc Hs. pose proof (Hc k) as Hk. rewrite Hs in Hk. destruct Hk as [Hk _].
  unfold reset_period, store_reset_period, update_usage, write_through, select. simpl.
  rewrite lookup_alter_eq, Hs. simpl. eexists. split_and!; [done| |].
  - simpl. unfold put_cached. by rewrite !key_of_set_usage, Hk.
  - intros j Hj. simpl. by rewrite lookup_alter_ne.
Qed.

Definition rolled `{Chrono} (now : DateTime) (r : TrafficQuotaRow) : TrafficQuotaRow :=
  match due r now with
  | Returns (Some t) => set_usage r t 0 None (timestamp now)
  | _ => r
  end.

Definition is_due `{Chrono} (now : DateTime) (r : TrafficQuotaRow) : bool :=
  match due r now with Returns (Some _) => true | _ => false end.

Definition readable (q : Quotas) (rows : list TrafficQuotaRow) : Prop :=
  Forall (fun r => cache q !! key_of r = Some r /\
    exists s, table q !! key_of r = Some s /\ row_to_quota s = Ok r) rows.

Lemma run_rows_spec `{Chrono} now rows : forall q n, coherent q -> NoDup (key_of <$> rows) -> readable q rows ->
  Forall (fun r => due r now <> Panics) rows ->
  exists q', run_rows rows now q n = (Returns (Ok (n + length (filter (fun r => is_due now r = true) rows))%nat), q') /\
    coherent q' /\
    forall k, cache q' !! k = if decide (k ∈ key_of <$> rows) then rolled now <$> cache q !! k else cache q !! k.
Proof.
  induction rows as [|r rows IH]; intros q n Hc Hn Hr Hp; simpl.
  { exists q. rewrite Nat.add_0_r. by split_and!. }
  apply NoDup_cons in Hn as [Hkr Hn]. apply Forall_cons in Hp as [Hp1 Hp].
  apply Forall_cons in Hr as [(Hcr & s & Hs & Hsr) Hr].
  assert (Hstay : forall j, j ∈ key_of <$> rows -> j <> key_of r) by (intros j Hj ->; done).
  assert (Hd : is_due now r = match due r now with Returns (Some _) => true | _ => false end) by done.
  rewrite filter_cons. destruct (due r now) as [[t|]|] eqn:Hdue; [| |done].
  - destruct (reset_period_present q (key_of r) s t (timestamp now) Hc Hs) as (q1 & Hq1 & Hc1 & Ht1).
    assert (Hcoh : coherent q1).
    { pose proof (apply_op_coherent q (OpReset (key_of r) t (timestamp now)) Hc) as Ho. simpl in Ho. by rewrite Hq1 in Ho. }
    rewrite Hq1. destruct (IH q1 (S n) Hcoh Hn) as (q' & -> & Hcoh' & Hc'); [|done|].
    { apply Forall_forall. intros r' Hr'. assert (Hj : key_of r' <> key_of r) by (apply Hstay, list_elem_of_fmap; eauto).
      rewrite Hc1, lookup_insert_ne, Ht1 by done. rewrite Forall_forall in Hr. by apply Hr. }
    exists q'. split_and!; [rewrite decide_True by done; simpl; repeat f_equal; lia|done|]. intros k. rewrite Hc', Hc1.
    assert (Hbase : set_usage (base s) t 0 None (timestamp now) = rolled now r).
    { unfold rolled. rewrite Hdue. unfold row_to_quota in Hsr. destruct (used s); [|done]. by simplify_eq. }
    destruct (decide (k = key_of r)) as [->|Hne].
    + rewrite decide_False by done. rewrite decide_True by left. by rewrite lookup_insert_eq, Hcr, Hbase.
    + rewrite lookup_insert_ne by done. repeat case_decide; set_solver.
  - destruct (IH q n Hc Hn Hr Hp) as (q' & -> & Hcoh' & Hc').
    exists q'. split_and!; [by rewrite decide_False by (by rewrite Hd)|done|].
    intros k. rewrite Hc'. destruct (decide (k = key_of r)) as [->|Hne].
    + rewrite decide_False by done. rewrite decide_True by left. rewrite Hcr. simpl. unfold rolled. by rewrite Hdue.
    + repeat case_decide; set_solver.
Qed.

Lemma ops_coherent q ops : coherent q -> coherent (foldl apply_op q ops).
Proof.
  revert q. induction ops as [|op ops IH]; intros q Hc; simpl; [done|]. by apply IH, apply_op_coherent.
Qed.

Lemma cached_key q k r : coherent q -> cache q !! k = Some r -> key_of r = k.
Proof.
  intros Hc Hr. specialize (Hc k). destruct (table q !! k); [|congruence].
  destruct Hc as (_ & r' & Hr' & Hk & _). congruence.
Qed.

Lemma cached_keys_NoDup q : coherent q -> NoDup (key_of <$> (map_to_list (cache q)).*2).
Proof.
  intros Hc. assert (Hf : key_of <$> (map_to_list (cache q)).*2 = (map_to_list (cache q)).*1).
  { rewrite <-list_fmap_compose. apply list_fmap_ext. intros i [k r] Hi. simpl.
    apply (cached_key q); [done|]. apply elem_of_map_to_list. by eapply list_elem_of_lookup_2. }
  rewrite Hf. apply NoDup_fst_map_to_list.
Qed.

Lemma cached_readable q : coherent q -> (forall k s, table q !! k = Some s -> used s <> Real) ->
  readable q (map_to_list (cache q)).*2.
Proof.
  intros Hc Hreal. apply Forall_forall. intros r ([k r'] & -> & Hr%elem_of_map_to_list)%list_elem_of_fmap.
  simpl. rewrite (cached_key q k r' Hc Hr). split; [done|]. pose proof (Hc k) as Hk.
  destruct (table q !! k) as [s|] eqn:Hs; [|congruence].
  destruct Hk as (_ & r2 & Hr2 & _ & [Hok|Hbad]); [|by destruct (Hreal k s)].
  exists s. split; [done|]. congruence.
Qed.

(** ** Theorems *)

(** C10. Traffic is billed exactly and exhaustion is announced once.  For a
    pair with a quota that is not exhausted, after any sequence of reports of
    its rules the used bytes are those before plus what every reading added
    over the one before it; the quota is marked exhausted at the first report
    that reaches the limit and keeps that time; and exactly one exhaustion
    event is sent for the pair if the limit was reached, none otherwise. *)
Theorem quota_billed_exactly (a : Aggregator) (k : Key) (u limit : Z) (reps : list Report) :
  quota_at a k u limit None -> 0 <= u ->
  Forall (fun r => rep_key r = k /\ unowned (rep_owner r) = false) reps ->
  u + sum_of fst (bills (prev a) reps) <= i64_max ->
  let cross := first_crossing u limit (bills (prev a) reps) in
  exists row, get (quotas (foldl record a reps)) k = Some row /\
    current_period_bytes_used row = u + sum_of fst (bills (prev a) reps) /\
    exhausted_at row = cross /\
    events (foldl record a reps) = events a ++ match cross with Some _ => [k] | None => [] end.
Proof.
  intros Hq Hu Hall Hmax cross.
  destruct (record_all_exact reps a k u limit None Hq Hu Hall Hmax) as [Hq' He].
  destruct Hq' as (s & r & _ & Hus & _ & Hex & _ & Hc & Hr). exists r.
  unfold row_to_quota in Hr. rewrite Hus in Hr. by simplify_eq/=.
Qed.

(** Growing counters are billed by their growth.  When the counters of a
    rule only grow, what its reports add in total is the last reading minus
    the reading the aggregator knew before, in and out together: nothing is
    billed twice and nothing is lost. *)
Theorem quota_bills_growth (p : gmap Z (Z * Z)) (rule : Z) (reps : list Report) :
  Forall (fun r => rep_rule r = rule) reps -> growing (default (0, 0) (p !! rule)) reps ->
  sum_of fst (bills p reps) =
    (last_reading (default (0, 0) (p !! rule)) reps).1 - (default (0, 0) (p !! rule)).1 +
    ((last_reading (default (0, 0) (p !! rule)) reps).2 - (default (0, 0) (p !! rule)).2).
Proof. apply bills_growing. Qed.

(** The first report after a reconnect is not billed in full.  A client
    that reconnects starts its rules, and their counters, anew; the aggregator
    still compares with the reading of the old session, so of the first
    reading [c] of the new one only what exceeds that is billed. *)
Theorem reconnect_underbilled (rule old c now : Z) (client owner : list Z) : 0 < old -> 0 < c ->
  sum_of fst (bills {[ rule := (old, 0) ]} [mkReport client rule owner c 0 now]) < c.
Proof.
  intros Ho Hc. rewrite bills_cons. simpl. rewrite lookup_singleton_eq. unfold delta_of, sum_of. simpl.
  destruct (_ && _); simpl; lia.
Qed.

(** Table and cache agree.  A cache loaded from the table stays coherent
    with it under any sequence of upserts, deletions, accumulations, clears
    and period resets, refused ones included: it has the rows of the table
    under their own keys, except that a row whose column overflowed keeps the
    last row that could be read. *)
Theorem quota_cache_coherent (t : Table) (q : Quotas) (ops : list QuotaOp) :
  (forall k s, t !! k = Some s -> key_of (base s) = k) -> load t = Ok q ->
  coherent (foldl apply_op q ops).
Proof.
  intros Hk Hl. apply ops_coherent. by apply (load_coherent t).
Qed.

(** The rollover resets exactly the rows whose period is over.  Over any
    order of the cached rows a run of the rollover gives every row whose
    period is over its new period start, no used bytes and no exhaustion mark,
    leaves every other row as it is, and returns the number of rows it
    advanced. *)
Theorem rollover_exact `{Chrono} (q : Quotas) (rows : list TrafficQuotaRow) (now : DateTime) :
  coherent q -> rows ≡ₚ (map_to_list (cache q)).*2 ->
  (forall k s, table q !! k = Some s -> used s <> Real) ->
  Forall (fun r => due r now <> Panics) rows ->
  exists q', run_rows rows now q 0%nat =
      (Returns (Ok (length (filter (fun r => is_due now r = true) rows))), q') /\
    coherent q' /\ forall k, cache q' !! k = rolled now <$> cache q !! k.
Proof.
  intros Hc Hp Hreal Hdue. pose proof (cached_readable q Hc Hreal) as Hr.
  destruct (run_rows_spec now rows q 0%nat Hc) as (q' & Hrun & Hc' & Hk'); [| |done|].
  - rewrite Hp. by apply cached_keys_NoDup.
  - unfold readable. by rewrite Hp.
  - exists q'. split_and!; [done|done|]. intros k. rewrite Hk'. case_decide as Hin; [done|].
    destruct (cache q !! k) as [r|] eqn:Hr'; [|done]. exfalso. apply Hin, list_elem_of_fmap.
    exists r. rewrite Hp. split; [symmetry; by apply (cached_key q k r)|].
    apply list_elem_of_fmap. exists (k, r). by rewrite elem_of_map_to_list.
Qed.

(** A rollover between the two halves of an accumulation leaves the cache
    stale.  [accumulate] updates the table and then the cache, each under its
    own lock: when a period reset runs in between, the cache ends with the
    exhausted row of the old period while the table has the fresh one. *)
Theorem rollover_race_stales_cache : exists (q : Quotas) (k : Key) (old : TrafficQuotaRow),
  coherent q /\
  let (r, t) := accumulate_bytes_used (table q) k 1000 50 in
  let q1 := (reset_period (mkQuotas t (cache q)) k 100 60).2 in
  r = Ok (Some old) /\
  let q2 := mkQuotas (table q1) (put_cached (cache q1) old) in
  is_exhausted <$> get q2 k = Some true /\
  select (table q2) k = Ok (Some (set_usage old 100 0 None 60)).
Proof.
  set (row := mkRow [1] [2] [3] 500 0 0 0 None 0 0).
  exists (mkQuotas {[ key_of row := mkStored row (Integer 0) ]} {[ key_of row := row ]}), (key_of row).
  exists (set_usage row 0 1000 (Some 50) 50). split; [|exact (conj eq_refl (conj eq_refl eq_refl))].
  intros k. simpl. destruct (decide (key_of row = k)) as [<-|Hne].
  - rewrite !lookup_singleton_eq. split; [done|]. exists row. by split_and!; [..|left].
  - by rewrite !lookup_singleton_ne.
Qed.

(** The quotas of a client are not replayed when it connects.  The replay
    looks the rows up by the client's display name where the cache compares
    with the client's id: as long as no client has that name for its id,
    nothing is sent, although the cache holds a quota of the very client, so a
    client that restarts forwards without its quotas. *)
Theorem quota_replay_misses (q : Quotas) (identity : ClientIdentity) (capable : bool) (k : Key)
  (row : TrafficQuotaRow) :
  cache q !! k = Some row -> client_id row = ident_id identity ->
  (forall k r, cache q !! k = Some r -> client_id r <> ident_name identity) ->
  replay_traffic_quotas_for_client q identity capable = [] /\
  row ∈ list_for_client q (ident_id identity).
Proof.
  intros Hrow Hid Hnone. unfold replay_traffic_quotas_for_client, list_for_client. split.
  - destruct capable; [|done]. simpl.
    destruct (filter _ _) as [|r l] eqn:Hf; [done|exfalso].
    assert (Hin : r ∈ filter (fun r => client_id r = ident_name identity) (map_to_list (cache q)).*2)
      by (rewrite Hf; left).
    apply list_elem_of_filter in Hin as [Hc ([k' r'] & -> & Hr%elem_of_map_to_list)%list_elem_of_fmap].
    by eapply Hnone.
  - apply list_elem_of_filter. split; [done|]. apply list_elem_of_fmap.
    exists (k, row). by rewrite elem_of_map_to_list.
Qed.

(** ** Examples *)

Definition jan31_secs : Z := secs (mkCivil 2026 1 31 12 0 0).

Definition sample_row : TrafficQuotaRow :=
  mkRow (lit "alice") (lit "c1") (lit "edge") 500 jan31_secs jan31_secs 100 None 0 0.

Definition sample_key : Key := (lit "alice", lit "c1").

Definition sample_quotas : Quotas :=
  mkQuotas {[ sample_key := mkStored sample_row (Integer 100) ]} {[ sample_key := sample_row ]}.

Definition sample_agg : Aggregator := mkAgg ∅ sample_quotas ∅ [].

Definition sample_report (i o now : Z) : Report := mkReport (lit "c1") 1 (lit "alice") i o now.

Lemma sample_coherent : coherent sample_quotas.
Proof.
  intros k. simpl. destruct (decide (sample_key = k)) as [<-|Hne].
  - rewrite !lookup_singleton_eq. split; [done|]. exists sample_row. by split_and!; [..|left].
  - by rewrite !lookup_singleton_ne.
Qed.

(** 250 and then 200 bytes reach the limit of 500. *)
Lemma quota_billed_exactly_witness : exists row,
  get (quotas (foldl record sample_agg [sample_report 200 50 7; sample_report 300 150 8])) sample_key = Some row /\
  current_period_bytes_used row = 550 /\ exhausted_at row = Some 8.
Proof.
  assert (Hq : quota_at sample_agg sample_key 100 500 None).
  { eexists _, sample_row. split; [by apply lookup_singleton_eq|]. split_and!; try done. }
  assert (Hu : 0 <= 100) by lia.
  assert (Hall : Forall (fun r => rep_key r = sample_key /\ unowned (rep_owner r) = false)
    [sample_report 200 50 7; sample_report 300 150 8]) by (repeat constructor).
  assert (Hmax : 100 + sum_of fst (bills (prev sample_agg) [sample_report 200 50 7; sample_report 300 150 8]) <= i64_max)
    by (vm_compute; discriminate).
  destruct (quota_billed_exactly sample_agg sample_key 100 500 _ Hq Hu Hall Hmax) as (row & Hg & Hb & He & _).
  exists row. exact (conj Hg (conj Hb He)).
Defined.

Lemma quota_bills_growth_witness :
  sum_of fst (bills ∅ [sample_report 200 50 7; sample_report 300 150 8]) = 450.
Proof.
  assert (Hall : Forall (fun r => rep_rule r = 1) [sample_report 200 50 7; sample_report 300 150 8])
    by (repeat constructor).
  assert (Hg : growing (default (0, 0) ((∅ : gmap Z (Z * Z)) !! 1))
    [sample_report 200 50 7; sample_report 300 150 8]) by (vm_compute; repeat split; discriminate).
  exact (quota_bills_growth ∅ 1 _ Hall Hg).
Defined.

Lemma reconnect_underbilled_witness :
  sum_of fst (bills {[ 1 := (10000, 0) ]} [sample_report 6000 0 7]) < 6000.
Proof.
  assert (H1 : 0 < 10000) by lia. assert (H2 : 0 < 6000) by lia.
  exact (reconnect_underbilled 1 10000 6000 7 (lit "c1") (lit "alice") H1 H2).
Defined.

Lemma quota_cache_coherent_witness : coherent (foldl apply_op sample_quotas [OpAccumulate sample_key 450 9]).
Proof.
  assert (Hk : forall k s, table sample_quotas !! k = Some s -> key_of (base s) = k).
  { intros k s Hs. pose proof (sample_coherent k) as Hc. rewrite Hs in Hc. exact (proj1 Hc). }
  assert (Hl : load (table sample_quotas) = Ok sample_quotas) by (vm_compute; reflexivity).
  exact (quota_cache_coherent (table sample_quotas) sample_quotas _ Hk Hl).
Defined.

Lemma quota_replay_misses_witness :
  replay_traffic_quotas_for_client sample_quotas (mkIdentity (lit "c1") (lit "edge")) true = [].
Proof.
  assert (Hrow : cache sample_quotas !! sample_key = Some sample_row) by apply lookup_singleton_eq.
  assert (Hid : client_id sample_row = ident_id (mkIdentity (lit "c1") (lit "edge"))) by reflexivity.
  assert (Hnone : forall k r, cache sample_quotas !! k = Some r ->
    client_id r <> ident_name (mkIdentity (lit "c1") (lit "edge"))).
  { intros k r Hr. simpl in Hr. apply lookup_singleton_Some in Hr as [_ <-]. discriminate. }
  exact (proj1 (quota_replay_misses sample_quotas _ true sample_key sample_row Hrow Hid Hnone)).
Defined.

(** The period that began on 31 January is over on 31 March. *)
Lemma rollover_exact_witness : exists q',
  run_rows [sample_row] mar31 sample_quotas 0%nat = (Returns (Ok 1%nat), q') /\
  cache q' !! sample_key = Some (set_usage sample_row (secs (mkCivil 2026 3 31 12 0 0)) 0 None (timestamp mar31)).
Proof.
  assert (Hd : due sample_row mar31 = Returns (Some (secs (mkCivil 2026 3 31 12 0 0)))) by reflexivity.
  assert (Hreal : forall k s, table sample_quotas !! k = Some s -> used s <> Real).
  { intros k s Hs. simpl in Hs. apply lookup_singleton_Some in Hs as [_ <-]. discriminate. }
  assert (Hp : [sample_row] ≡ₚ (map_to_list (cache sample_quotas)).*2).
  { unfold sample_quotas. simpl. by rewrite map_to_list_singleton. }
  assert (Hdue : Forall (fun r => due r mar31 <> Panics) [sample_row]).
  { constructor; [rewrite Hd; discriminate|constructor]. }
  destruct (rollover_exact sample_quotas [sample_row] mar31 sample_coherent Hp Hreal Hdue) as (q' & Hrun & _ & Hk).
  exists q'. split.
  - rewrite Hrun, filter_cons. unfold is_due at 1. rewrite decide_True by (unfold is_due; by rewrite Hd). reflexivity.
  - rewrite (Hk sample_key). unfold sample_quotas. simpl. rewrite lookup_singleton_eq. simpl. unfold rolled. by rewrite Hd.
Defined.

End TrafficQuota.
