(* ===== verification/ClientTokens.v ===== *)
(** * Client credentials and enrolment

    [crates/portunus-server/src/store/token_store.rs] (the bearer tokens of the
    clients), [store/enrollment_store.rs] (the one-time codes that issue or
    rotate them) and [ClientName] of [crates/portunus-core/src/id.rs].

    A table is a map by its primary key; the [UNIQUE] columns are checked on
    every write, and a write transaction that fails changes nothing.  A row is
    found by name in the order [map_to_list] gives, as SQL leaves it open.
    Ids, instants and the random codes and tokens are arguments; the hash
    (blake3) is a parameter.  Stored timestamps and ids are taken to be
    readable, as the code writes them; a stored hash is the ASCII bytes of its
    hexadecimal text. *)

From S2P Require Import Prelude Text Fingerprint.

Local Open Scope Z_scope.

Module ClientName.

Definition CLIENT_NAME_MAX_BYTES : nat := 255.

Inductive ClientNameError : Type := Empty | TooLong (len : nat) | ControlChar.

Definition new (s : list Z) : Result (list Z) ClientNameError :=
  if bool_decide (trim s = []) then Err Empty
  else if (CLIENT_NAME_MAX_BYTES <? str_len s)%nat then Err (TooLong (str_len s))
  else if existsb is_control s then Err ControlChar
  else Ok s.

Lemma new_same s n : new s = Ok n -> n = s.
Proof. unfold new. repeat case_match; congruence. Qed.

End ClientName.

Module ClientTokens.

Record TokenRow : Type := mkToken {
  client_name : list Z;
  token_hash : list Z;
  issued_at : Z;
  revoked_at : option Z;
  client_address : option (list Z);
}.

Record EnrollmentRow : Type := mkEnrollment {
  client_id : option Z;
  enrol_name : list Z;
  enrol_address : option (list Z);
  code_hash : list Z;
  enrol_issued : Z;
  expires_at : Z;
  consumed_at : option Z;
  advertised_endpoint : option (list Z);
}.

(** [rule_names] is the denormalised [client_name] column of the rules, by rule
    id with the client it belongs to. *)
Record Db : Type := mkDb {
  tokens : gmap Z TokenRow;
  enrollments : gmap Z EnrollmentRow;
  next_enrollment : Z;
  rule_names : gmap Z (Z * list Z);
}.

Inductive StoreError : Type := Constraint | Corruption.

Definition set_tokens (db : Db) (t : gmap Z TokenRow) : Db :=
  mkDb t (enrollments db) (next_enrollment db) (rule_names db).

Definition set_enrollments (db : Db) (e : gmap Z EnrollmentRow) : Db :=
  mkDb (tokens db) e (next_enrollment db) (rule_names db).

(** The [UNIQUE] constraint on [token_hash], for a write to the row [id]. *)
Definition hash_free (t : gmap Z TokenRow) (id : Z) (h : list Z) : Prop :=
  map_Forall (fun i r => token_hash r = h -> i = id) t.

#[export] Instance hash_free_dec t id h : Decision (hash_free t id h).
Proof. unfold hash_free. apply _. Defined.

Definition insert_token (db : Db) (id : Z) (r : TokenRow) : Result Db StoreError :=
  if bool_decide (is_Some (tokens db !! id)) then Err Constraint
  else if bool_decide (hash_free (tokens db) id (token_hash r))
  then Ok (set_tokens db (<[id := r]> (tokens db)))
  else Err Constraint.

(** [UPDATE ... SET token_hash, issued_at, revoked_at = NULL, client_address =
    COALESCE(?, client_address)] of one row. *)
Definition rotated (r : TokenRow) (h : list Z) (now : Z) (addr : option (list Z)) : TokenRow :=
  mkToken (client_name r) h now None (match addr with Some a => Some a | None => client_address r end).

Definition rotate_token (db : Db) (id : Z) (h : list Z) (now : Z) (addr : option (list Z)) :
  Result Db StoreError :=
  if bool_decide (hash_free (tokens db) id h)
  then Ok (set_tokens db (alter (fun r => rotated r h now addr) id (tokens db)))
  else Err Constraint.

Definition named (db : Db) (name : list Z) : list (Z * TokenRow) :=
  filter (fun kv => client_name kv.2 = name) (map_to_list (tokens db)).

Section Hashing.
Variable hash_token : list Z -> list Z.

Definition hash_hex (s : list Z) : list Z := Fingerprint.hex (hash_token s).

(** ** The token store *)

Inductive AuthError : Type := Missing | Malformed | NotFound | Revoked | StoreCorrupt.

(** The scan of [verify] and of [redeem]: the last row whose hash matches. *)
Fixpoint scan_hash {A} (hash_of : A -> list Z) (needle : list Z) (rows : list (Z * A))
  (matched : option (Z * A)) : option (Z * A) :=
  match rows with
  | [] => matched
  | row :: rows =>
    scan_hash hash_of needle rows
      (if (length (hash_of row.2) =? length needle)%nat && Fingerprint.ct_eq (hash_of row.2) needle
       then Some row else matched)
  end.

Definition verify (db : Db) (token : list Z) : Result (Z * list Z) AuthError :=
  if (str_len token =? 0)%nat then Err Missing
  else if (256 <? str_len token)%nat then Err Malformed
  else
    match scan_hash token_hash (hash_hex token) (map_to_list (tokens db)) None with
    | None => Err NotFound
    | Some (id, r) =>
      match revoked_at r with
      | Some _ => Err Revoked
      | None =>
        match ClientName.new (client_name r) with
        | Ok name => Ok (id, name)
        | Err _ => Err StoreCorrupt
        end
      end
    end.

(** [token] is the generated token, [id] the minted client id. *)
Definition issue (db : Db) (name : list Z) (addr : option (list Z)) (token : list Z) (id now : Z) :
  Result (list Z) StoreError * Db :=
  match insert_token db id (mkToken name (hash_hex token) now None addr) with
  | Ok db' => (Ok token, db')
  | Err e => (Err e, db)
  end.

Definition revoked (now : Z) (r : TokenRow) : TokenRow :=
  match revoked_at r with
  | Some _ => r
  | None => mkToken (client_name r) (token_hash r) (issued_at r) (Some now) (client_address r)
  end.

Definition revoke (db : Db) (name : list Z) (now : Z) : Db :=
  set_tokens db ((fun r => if bool_decide (client_name r = name) then revoked now r else r) <$> tokens db).

Definition revoke_by_id (db : Db) (id now : Z) : Z * Db :=
  (match tokens db !! id with
   | Some r => match revoked_at r with None => 1 | Some _ => 0 end
   | None => 0
   end, set_tokens db (alter (revoked now) id (tokens db))).

Inductive DeleteOutcome : Type := Deleted | DeleteNotFound | StillActive.

Inductive UpdateClientOutcome : Type := Updated | UpdateNotFound.

(** The row [SELECT] happens to find decides; [DELETE] takes all of the name. *)
Definition delete_revoked (db : Db) (name : list Z) : DeleteOutcome * Db :=
  match named db name with
  | [] => (DeleteNotFound, db)
  | (_, r) :: _ =>
    match revoked_at r with
    | None => (StillActive, db)
    | Some _ => (Deleted, set_tokens db (filter (fun kv => client_name kv.2 <> name) (tokens db)))
    end
  end.

Definition delete_revoked_by_id (db : Db) (id : Z) : DeleteOutcome * Db :=
  match tokens db !! id with
  | None => (DeleteNotFound, db)
  | Some r =>
    match revoked_at r with
    | None => (StillActive, db)
    | Some _ => (Deleted, set_tokens db (delete id (tokens db)))
    end
  end.

Definition renamed (name : list Z) (r : TokenRow) : TokenRow :=
  mkToken name (token_hash r) (issued_at r) (revoked_at r) (client_address r).

Definition rename (db : Db) (id : Z) (name : list Z) : UpdateClientOutcome * Db :=
  match tokens db !! id with
  | None => (UpdateNotFound, db)
  | Some r =>
    (Updated, mkDb (<[id := renamed name r]> (tokens db)) (enrollments db) (next_enrollment db)
       ((fun rn => if bool_decide (rn.1 = id) then (id, name) else rn) <$> rule_names db))
  end.

Definition readdressed (addr : option (list Z)) (r : TokenRow) : TokenRow :=
  mkToken (client_name r) (token_hash r) (issued_at r) (revoked_at r) addr.

Definition update_client_address_by_id (db : Db) (id : Z) (addr : option (list Z)) :
  UpdateClientOutcome * Db :=
  match tokens db !! id with
  | None => (UpdateNotFound, db)
  | Some r => (Updated, set_tokens db (<[id := readdressed addr r]> (tokens db)))
  end.

Definition update_client_address (db : Db) (name : list Z) (addr : option (list Z)) :
  UpdateClientOutcome * Db :=
  (if bool_decide (named db name = []) then UpdateNotFound else Updated,
   set_tokens db ((fun r => if bool_decide (client_name r = name) then readdressed addr r else r) <$> tokens db)).

(** What [list] and [get_by_id] show of a row. *)
Record ProvisionedClient : Type := mkProvisioned {
  p_client : Z;
  p_name : list Z;
  p_issued : Z;
  p_revoked : option Z;
  p_address : option (list Z);
}.

Definition provisioned (kv : Z * TokenRow) : Result ProvisionedClient StoreError :=
  match ClientName.new (client_name kv.2) with
  | Ok name =>
    Ok (mkProvisioned kv.1 name (issued_at kv.2) (revoked_at kv.2) (client_address kv.2))
  | Err _ => Err Corruption
  end.

Definition get_by_id (db : Db) (id : Z) : Result (option ProvisionedClient) StoreError :=
  match tokens db !! id with
  | None => Ok None
  | Some r => let? p := provisioned (id, r) in Ok (Some p)
  end.

(** ** The enrolment store *)

Inductive EnrollmentTarget : Type := New (addr : option (list Z)) | Existing.

(** [in_minted] is the id [unwrap_or_default] mints for a new client. *)
Record CreateEnrollment : Type := mkCreate {
  in_name : list Z;
  in_client : option Z;
  in_minted : Z;
  in_target : EnrollmentTarget;
  in_expires : Z;
  in_now : Z;
  in_endpoint : list Z;
}.

Inductive CreateEnrollmentError : Type := ClientNotFound | CreateStore (e : StoreError).

(** A day, in nanoseconds. *)
Definition DAY : Z := 86400 * 1000000000.

Definition stale (cutoff : Z) (e : EnrollmentRow) : bool :=
  match consumed_at e with Some t => t <=? cutoff | None => false end || (expires_at e <=? cutoff).

Definition prune_stale_enrollments (db : Db) (now : Z) : Db :=
  set_enrollments db (filter (fun kv => stale (now - DAY) kv.2 = false) (enrollments db)).

(** The client an enrolment will carry, with its address. *)
Definition resolve_client (db : Db) (i : CreateEnrollment) : option (Z * option (list Z)) :=
  match in_target i with
  | New addr => Some (default (in_minted i) (in_client i), addr)
  | Existing =>
    match in_client i with
    | Some id => (fun r => (id, client_address r)) <$> tokens db !! id
    | None => (fun kv => (kv.1, client_address kv.2)) <$> head (named db (in_name i))
    end
  end.

Definition consume (now : Z) (e : EnrollmentRow) : EnrollmentRow :=
  mkEnrollment (client_id e) (enrol_name e) (enrol_address e) (code_hash e) (enrol_issued e)
    (expires_at e) (Some now) (advertised_endpoint e).

(** Supersede the unconsumed codes of the client. *)
Definition supersede (now id : Z) (e : EnrollmentRow) : EnrollmentRow :=
  if bool_decide (client_id e = Some id) && bool_decide (consumed_at e = None) then consume now e else e.

Definition code_free (m : gmap Z EnrollmentRow) (h : list Z) : Prop :=
  map_Forall (fun _ e => code_hash e <> h) m.

#[export] Instance code_free_dec m h : Decision (code_free m h).
Proof. unfold code_free. apply _. Defined.

Definition create (db : Db) (i : CreateEnrollment) (code : list Z) :
  Result (option (list Z)) CreateEnrollmentError * Db :=
  let pruned := prune_stale_enrollments db (in_now i) in
  match resolve_client pruned i with
  | None => (Err ClientNotFound, pruned)
  | Some (id, addr) =>
    let m := supersede (in_now i) id <$> enrollments pruned in
    if bool_decide (code_free m (hash_hex code)) then
      (Ok addr,
       mkDb (tokens db)
         (<[next_enrollment db := mkEnrollment (Some id) (in_name i) addr (hash_hex code) (in_now i)
              (in_expires i) None (Some (in_endpoint i))]> m)
         (next_enrollment db + 1) (rule_names db))
    else (Err (CreateStore Constraint), db)
  end.

Inductive RedeemError : Type :=
| InvalidCode
| Expired
| AlreadyUsed
| AdvertisedEndpoint
| RedeemStore (e : StoreError).

Record IssuedClientCredential : Type := mkIssued {
  out_client : Z;
  out_name : list Z;
  out_token : list Z;
  rotated_existing : bool;
  out_endpoint : list Z;
}.

(** The token row of the client: rotated when it exists, made otherwise.
    [minted] is the id for a legacy row whose client does not exist. *)
Definition materialize (db : Db) (e : EnrollmentRow) (name h : list Z) (now minted : Z) :
  Result (Db * Z * list Z * bool) StoreError :=
  let fresh := mkToken name h now None (enrol_address e) in
  match client_id e with
  | Some id =>
    match tokens db !! id with
    | Some r =>
      let? db' := rotate_token db id h now (enrol_address e) in
      match ClientName.new (client_name r) with
      | Ok current => Ok (db', id, current, true)
      | Err _ => Err Corruption
      end
    | None => let? db' := insert_token db id fresh in Ok (db', id, name, false)
    end
  | None =>
    match named db name with
    | [] => let? db' := insert_token db minted fresh in Ok (db', minted, name, false)
    | [(id, _)] => let? db' := rotate_token db id h now (enrol_address e) in Ok (db', id, name, true)
    | _ => Err Constraint (* one hash for several rows *)
    end
  end.

(** [legacy] is what [resolve_legacy] answers for a row without an endpoint. *)
Definition redeem (db : Db) (code : list Z) (now : Z) (token : list Z) (minted : Z)
  (legacy : Result (list Z) RedeemError) : Result IssuedClientCredential RedeemError * Db :=
  if (str_len code =? 0)%nat || (256 <? str_len code)%nat then (Err InvalidCode, db)
  else
    match scan_hash code_hash (hash_hex code) (map_to_list (enrollments db)) None with
    | None => (Err InvalidCode, db)
    | Some (i, e) =>
      if bool_decide (is_Some (consumed_at e)) then (Err AlreadyUsed, db)
      else if expires_at e <=? now then (Err Expired, db)
      else
        match ClientName.new (enrol_name e) with
        | Err _ => (Err (RedeemStore Corruption), db)
        | Ok name =>
          match match advertised_endpoint e with Some ep => Ok ep | None => legacy end with
          | Err err => (Err err, db)
          | Ok ep =>
            match materialize db e name (hash_hex token) now minted with
            | Err err => (Err (RedeemStore err), db)
            | Ok (db', id, cname, existing) =>
              (Ok (mkIssued id cname token existing ep),
               set_enrollments db' (<[i := consume now e]> (enrollments db')))
            end
          end
        end
    end.

(** ** Any operation of the two stores *)

Inductive Op : Type :=
| OpIssue (name : list Z) (addr : option (list Z)) (token : list Z) (id now : Z)
| OpRevoke (name : list Z) (now : Z)
| OpRevokeById (id now : Z)
| OpDeleteRevoked (name : list Z)
| OpDeleteRevokedById (id : Z)
| OpRename (id : Z) (name : list Z)
| OpAddress (name : list Z) (addr : option (list Z))
| OpAddressById (id : Z) (addr : option (list Z))
| OpCreate (i : CreateEnrollment) (code : list Z)
| OpRedeem (code : list Z) (now : Z) (token : list Z) (minted : Z) (legacy : Result (list Z) RedeemError).

Definition apply (db : Db) (o : Op) : Db :=
  match o with
  | OpIssue name addr token id now => (issue db name addr token id now).2
  | OpRevoke name now => revoke db name now
  | OpRevokeById id now => (revoke_by_id db id now).2
  | OpDeleteRevoked name => (delete_revoked db name).2
  | OpDeleteRevokedById id => (delete_revoked_by_id db id).2
  | OpRename id name => (rename db id name).2
  | OpAddress name addr => (update_client_address db name addr).2
  | OpAddressById id addr => (update_client_address_by_id db id addr).2
  | OpCreate i code => (create db i code).2
  | OpRedeem code now token minted legacy => (redeem db code now token minted legacy).2
  end.

Definition apply_all (db : Db) (ops : list Op) : Db := foldl apply db ops.

(** ** Invariant *)

Definition unique_hashes (t : gmap Z TokenRow) : Prop :=
  forall i j r s, t !! i = Some r -> t !! j = Some s -> token_hash r = token_hash s -> i = j.

Definition unique_codes (m : gmap Z EnrollmentRow) : Prop :=
  forall i j e f, m !! i = Some e -> m !! j = Some f -> code_hash e = code_hash f -> i = j.

(** A client has at most one code that is not consumed. *)
Definition one_live (m : gmap Z EnrollmentRow) : Prop :=
  forall i j e f c, m !! i = Some e -> m !! j = Some f ->
  client_id e = Some c -> client_id f = Some c -> consumed_at e = None -> consumed_at f = None -> i = j.

Record wf (db : Db) : Prop := mkWf {
  wf_hashes : unique_hashes (tokens db);
  wf_codes : unique_codes (enrollments db);
  wf_live : one_live (enrollments db);
  wf_ids : forall i e, enrollments db !! i = Some e -> i < next_enrollment db;
}.

(** *** The scan *)

Lemma scan_hash_test {A} (hash_of : A -> list Z) (needle : list Z) (a : A) :
  (length (hash_of a) =? length needle)%nat && Fingerprint.ct_eq (hash_of a) needle = true <->
  hash_of a = needle.
Proof. rewrite andb_true_iff, Fingerprint.ct_eq_spec, Nat.eqb_eq. naive_solver. Qed.

Lemma scan_hash_spec {A} (hash_of : A -> list Z) (needle : list Z) (rows : list (Z * A)) m :
  (scan_hash hash_of needle rows m = m /\ forall kv, kv ∈ rows -> hash_of kv.2 <> needle) \/
  exists kv, kv ∈ rows /\ hash_of kv.2 = needle /\ scan_hash hash_of needle rows m = Some kv.
Proof.
  revert m. induction rows as [|[i a] rows IH]; intros m; cbn [scan_hash].
  { left. split; [done|]. intros kv H. by apply elem_of_nil in H. }
  destruct ((length (hash_of (i, a).2) =? _)%nat && _) eqn:E.
  - apply scan_hash_test in E. right. destruct (IH (Some (i, a))) as [[-> _]|(kv & ? & ? & ?)].
    + exists (i, a). split; [left|done].
    + exists kv. split; [by right|done].
  - assert (hash_of a <> needle) by (rewrite <- scan_hash_test; simpl in E; congruence).
    destruct (IH m) as [[-> Hn]|(kv & ? & ? & ?)].
    + left. split; [done|]. intros kv [->|?]%elem_of_cons; auto.
    + right. exists kv. split; [by right|done].
Qed.

(** Over a table with unique hashes the scan is a lookup by hash. *)
Lemma scan_hash_map {A} (hash_of : A -> list Z) (needle : list Z) (m : gmap Z A) i a :
  (forall i j a b, m !! i = Some a -> m !! j = Some b -> hash_of a = hash_of b -> i = j) ->
  scan_hash hash_of needle (map_to_list m) None = Some (i, a) <->
  m !! i = Some a /\ hash_of a = needle.
Proof.
  intros Hu. destruct (scan_hash_spec hash_of needle (map_to_list m) None)
    as [[-> Hn]|([j b] & Hj & Hb & ->)]; [split; [done|]|].
  - intros [Hi Ha]. apply elem_of_map_to_list in Hi. by destruct (Hn _ Hi).
  - apply elem_of_map_to_list in Hj. split; [intros [= <- <-]; done|].
    intros [Hi Ha]. simpl in Hb. assert (j = i) as -> by (eapply Hu; [done..|congruence]). congruence.
Qed.

Lemma scan_hash_none {A} (hash_of : A -> list Z) (needle : list Z) (m : gmap Z A) :
  scan_hash hash_of needle (map_to_list m) None = None <->
  map_Forall (fun _ a => hash_of a <> needle) m.
Proof.
  destruct (scan_hash_spec hash_of needle (map_to_list m) None)
    as [[-> Hn]|([j b] & Hj & Hb & ->)].
  - split; [|done]. intros _ i a Hi. apply elem_of_map_to_list in Hi. by apply (Hn (i, a)).
  - apply elem_of_map_to_list in Hj. split; [done|]. intros H. by destruct (H j b Hj).
Qed.

(** *** Tables derived from tables *)

(** Every row of [t'] is a row of [t] with the same hash. *)
Definition same_hashes (t t' : gmap Z TokenRow) : Prop :=
  forall i r', t' !! i = Some r' -> exists r, t !! i = Some r /\ token_hash r' = token_hash r.

(** Every row of [m'] is a row of [m], of the same client and code, and still
    consumed when it was. *)
Definition derived (m m' : gmap Z EnrollmentRow) : Prop :=
  forall i e', m' !! i = Some e' -> exists e, m !! i = Some e /\
    code_hash e' = code_hash e /\ client_id e' = client_id e /\
    (consumed_at e' = None -> consumed_at e = None).

Lemma unique_same t t' : unique_hashes t -> same_hashes t t' -> unique_hashes t'.
Proof.
  intros Hu Hs i j r s Hi Hj E.
  destruct (Hs _ _ Hi) as (r0 & ? & ?), (Hs _ _ Hj) as (s0 & ? & ?).
  eapply Hu; [done..|congruence].
Qed.

Lemma unique_insert t i r :
  unique_hashes t -> hash_free t i (token_hash r) -> unique_hashes (<[i := r]> t).
Proof.
  intros Hu Hf j k a b. rewrite !lookup_insert_Some.
  intros [[<- <-]|[? Ha]] [[<- <-]|[? Hb]] E; [done|..].
  - symmetry. eapply Hf; [done|congruence].
  - eapply Hf; [done|congruence].
  - eauto.
Qed.

Lemma same_alter t i f :
  (forall r, token_hash (f r) = token_hash r) -> same_hashes t (alter f i t).
Proof. intros Hf j r'. rewrite lookup_alter_Some. intros [(<- & r & ? & ->)|[? ?]]; eauto. Qed.

Lemma same_fmap t f :
  (forall r, token_hash (f r) = token_hash r) -> same_hashes t (f <$> t).
Proof. intros Hf j r'. rewrite lookup_fmap_Some. intros (r & <- & ?). eauto. Qed.

Lemma same_subseteq t t' : t' ⊆ t -> same_hashes t t'.
Proof. intros H i r Hi. exists r. split; [by eapply lookup_weaken|done]. Qed.

Lemma same_insert t i r r' :
  t !! i = Some r -> token_hash r' = token_hash r -> same_hashes t (<[i := r']> t).
Proof. intros Hi E j s. rewrite lookup_insert_Some. intros [[<- <-]|[? ?]]; eauto. Qed.

Lemma derived_subseteq m m' : m' ⊆ m -> derived m m'.
Proof. intros H i e Hi. exists e. split; [by eapply lookup_weaken|done]. Qed.

Lemma derived_trans m1 m2 m3 : derived m1 m2 -> derived m2 m3 -> derived m1 m3.
Proof.
  intros H1 H2 i e3 H. destruct (H2 _ _ H) as (e2 & H' & ? & ? & ?).
  destruct (H1 _ _ H') as (e1 & ? & ? & ? & ?). exists e1. intuition congruence.
Qed.

Lemma derived_supersede m now id : derived m (supersede now id <$> m).
Proof.
  intros i e'. rewrite lookup_fmap_Some. intros (e & <- & ?). exists e.
  unfold supersede. case_match; simpl; split_and!; auto; discriminate.
Qed.

Lemma derived_consume m now i e : m !! i = Some e -> derived m (<[i := consume now e]> m).
Proof.
  intros H j f. rewrite lookup_insert_Some. intros [[<- <-]|[? ?]]; [|eauto 10].
  exists e. by split_and!.
Qed.

Lemma derived_unique m m' : unique_codes m -> derived m m' -> unique_codes m'.
Proof.
  intros Hu Hd i j e f Hi Hj E. destruct (Hd _ _ Hi) as (e0 & ? & ? & _), (Hd _ _ Hj) as (f0 & ? & ? & _).
  eapply Hu; [done..|congruence].
Qed.

Lemma derived_live m m' : one_live m -> derived m m' -> one_live m'.
Proof.
  intros Hu Hd i j e f c Hi Hj ? ? ? ?.
  destruct (Hd _ _ Hi) as (e0 & ? & _ & ? & ?), (Hd _ _ Hj) as (f0 & ? & _ & ? & ?).
  eapply (Hu i j e0 f0 c); auto; congruence.
Qed.

Lemma derived_prune db now : derived (enrollments db) (enrollments (prune_stale_enrollments db now)).
Proof. apply derived_subseteq, map_filter_subseteq. Qed.

Definition pruned_superseded (db : Db) (now id : Z) : gmap Z EnrollmentRow :=
  supersede now id <$> enrollments (prune_stale_enrollments db now).

Lemma derived_pruned db now id : derived (enrollments db) (pruned_superseded db now id).
Proof. eapply derived_trans; [apply derived_prune|apply derived_supersede]. Qed.

Lemma superseded_consumed db now id i e :
  pruned_superseded db now id !! i = Some e -> client_id e = Some id -> consumed_at e <> None.
Proof.
  unfold pruned_superseded. rewrite lookup_fmap_Some. intros (e0 & <- & _). unfold supersede.
  case_match eqn:E; simpl; [done|]. intros Hc Hn. apply andb_false_iff in E.
  rewrite !bool_decide_eq_false in E. tauto.
Qed.

(** *** What a successful write does *)

Lemma insert_token_spec db id r db' :
  insert_token db id r = Ok db' <->
  tokens db !! id = None /\ hash_free (tokens db) id (token_hash r) /\
  db' = set_tokens db (<[id := r]> (tokens db)).
Proof.
  unfold insert_token. repeat case_bool_decide; split; try (intros [=]; subst); try naive_solver.
  - destruct H as [? H]. naive_solver.
  - split; [by apply eq_None_not_Some|done].
Qed.

Lemma rotate_token_spec db id h now addr db' :
  rotate_token db id h now addr = Ok db' <->
  hash_free (tokens db) id h /\
  db' = set_tokens db (alter (fun r => rotated r h now addr) id (tokens db)).
Proof. unfold rotate_token. case_bool_decide; naive_solver. Qed.

Lemma alter_present {A} (f : A -> A) (m : gmap Z A) i a :
  m !! i = Some a -> alter f i m = <[i := f a]> m.
Proof.
  intros Hi. apply map_eq. intros j. destruct (decide (i = j)) as [<-|].
  - by rewrite lookup_alter_eq, Hi, lookup_insert_eq.
  - by rewrite lookup_alter_ne, lookup_insert_ne.
Qed.

(** The client of the new token: its row holds the new hash and is active, the
    rows of the others are as they were. *)
Lemma materialize_spec db e name h now minted db' id cname existing :
  ClientName.new (enrol_name e) = Ok name ->
  materialize db e name h now minted = Ok (db', id, cname, existing) ->
  hash_free (tokens db) id h /\
  (exists r, db' = set_tokens db (<[id := r]> (tokens db)) /\
    token_hash r = h /\ revoked_at r = None /\ client_name r = cname /\
    ClientName.new cname = Ok cname) /\
  (existing = true <-> is_Some (tokens db !! id)) /\
  (forall c, client_id e = Some c -> id = c).
Proof.
  intros Hn. unfold materialize. pose proof (ClientName.new_same _ _ Hn) as ->.
  destruct (client_id e) as [c|] eqn:Ec.
  - destruct (tokens db !! c) as [r|] eqn:Er.
    + destruct (rotate_token _ _ _ _ _) as [d|] eqn:Et; simpl; [|done].
      apply rotate_token_spec in Et as [Hf ->]. rewrite (alter_present _ _ _ _ Er).
      destruct (ClientName.new (client_name r)) as [cur|] eqn:Enm; [|done].
      pose proof (ClientName.new_same _ _ Enm) as ->. intros [= <- <- <- <-]. rewrite Er.
      split_and!; [done|eexists; split_and!; done|done|congruence].
    + destruct (insert_token _ _ _) as [d|] eqn:Et; simpl; [|done].
      apply insert_token_spec in Et as (? & ? & ->). intros [= <- <- <- <-]. rewrite Er.
      split_and!; [done|eexists; split_and!; done| |congruence]. split; [done|by intros []].
  - destruct (named db (enrol_name e)) as [|[c r] [|]] eqn:En; [| |done].
    + destruct (insert_token _ _ _) as [d|] eqn:Et; simpl; [|done].
      apply insert_token_spec in Et as (? & ? & ->). intros [= <- <- <- <-].
      split_and!; [done|eexists; split_and!; done| |done]. rewrite H. split; [done|by intros []].
    + destruct (rotate_token _ _ _ _ _) as [d|] eqn:Et; simpl; [|done].
      apply rotate_token_spec in Et as [Hf ->].
      assert (Hr : (c, r) ∈ named db (enrol_name e)) by (rewrite En; left).
      apply list_elem_of_filter in Hr as [Hcn Hr%elem_of_map_to_list]. rewrite (alter_present _ _ _ _ Hr).
      intros [= <- <- <- <-]. rewrite Hr.
      split_and!; [done|eexists; split_and!; done|done|done].
Qed.

(** *** Redeeming *)

Lemma redeem_error_unchanged db code now token minted legacy err db' :
  redeem db code now token minted legacy = (Err err, db') -> db' = db.
Proof. unfold redeem. repeat case_match; congruence. Qed.

(** What a redeem that succeeded found and wrote. *)
Lemma redeem_ok_inv db code now token minted legacy out db' :
  wf db -> redeem db code now token minted legacy = (Ok out, db') ->
  exists i e name r,
    enrollments db !! i = Some e /\ code_hash e = hash_hex code /\
    consumed_at e = None /\ now < expires_at e /\ ClientName.new (enrol_name e) = Ok name /\
    (forall c, client_id e = Some c -> out_client out = c) /\
    hash_free (tokens db) (out_client out) (hash_hex token) /\
    token_hash r = hash_hex token /\ revoked_at r = None /\ client_name r = out_name out /\
    ClientName.new (out_name out) = Ok (out_name out) /\ out_token out = token /\
    (rotated_existing out = true <-> is_Some (tokens db !! out_client out)) /\
    db' = mkDb (<[out_client out := r]> (tokens db)) (<[i := consume now e]> (enrollments db))
            (next_enrollment db) (rule_names db).
Proof.
  intros Hwf. unfold redeem. case_match; [done|].
  destruct (scan_hash _ _ _ _) as [[i e]|] eqn:Es; [|done].
  apply scan_hash_map in Es as [Hi He]; [|apply (wf_codes db Hwf)].
  case_bool_decide as Hc; [done|]. apply eq_None_not_Some in Hc.
  destruct (expires_at e <=? now) eqn:Ex; [done|].
  destruct (ClientName.new (enrol_name e)) as [name|] eqn:En; [|done].
  destruct (match advertised_endpoint e with Some ep => Ok ep | None => legacy end) as [ep|]; [|done].
  destruct (materialize _ _ _ _ _ _) as [[[[d id] cname] existing]|] eqn:Em; [|done].
  destruct (materialize_spec _ _ _ _ _ _ _ _ _ _ En Em) as (Hf & (r & -> & ? & ? & ? & ?) & ? & ?).
  intros [= <- <-]. exists i, e, name, r. simpl. split_and!; auto; lia.
Qed.

Lemma apply_enrollments db o :
  wf db -> (forall i code, o <> OpCreate i code) ->
  derived (enrollments db) (enrollments (apply db o)) /\
  next_enrollment (apply db o) = next_enrollment db.
Proof.
  intros Hwf Ho. destruct o; simpl; try (by split; [apply derived_subseteq|]).
  - unfold issue. destruct (insert_token _ _ _) eqn:E; simpl; [|by split; [apply derived_subseteq|]].
    apply insert_token_spec in E as (_ & _ & ->). by split; [apply derived_subseteq|].
  - unfold delete_revoked. repeat case_match; by split; [apply derived_subseteq|].
  - unfold delete_revoked_by_id. repeat case_match; by split; [apply derived_subseteq|].
  - unfold rename. case_match; by split; [apply derived_subseteq|].
  - unfold update_client_address_by_id. case_match; by split; [apply derived_subseteq|].
  - by destruct (Ho i code).
  - destruct (redeem _ _ _ _ _ _) as [[out|err] db'] eqn:E; simpl.
    + apply redeem_ok_inv in E as (j & e & name & r & Hj & ? & ? & ? & ? & ? & ? & ? & ? & ? & ? & ? & ? & ->); [|done].
      simpl. split; [by apply derived_consume|done].
    + apply redeem_error_unchanged in E as ->. by split; [apply derived_subseteq|].
Qed.

Lemma create_tokens db i code : tokens (create db i code).2 = tokens db.
Proof. unfold create. repeat case_match; done. Qed.

(** [create] keeps the rows it does not prune, consuming those of the client,
    and may add one for a code no row has. *)
Lemma create_effect db i code :
  (derived (enrollments db) (enrollments (create db i code).2) /\
   next_enrollment (create db i code).2 = next_enrollment db) \/
  exists id addr e,
    resolve_client (prune_stale_enrollments db (in_now i)) i = Some (id, addr) /\
    client_id e = Some id /\ consumed_at e = None /\ code_hash e = hash_hex code /\
    code_free (pruned_superseded db (in_now i) id) (hash_hex code) /\
    create db i code =
      (Ok addr, mkDb (tokens db) (<[next_enrollment db := e]> (pruned_superseded db (in_now i) id))
                  (next_enrollment db + 1) (rule_names db)).
Proof.
  unfold create. destruct (resolve_client _ _) as [[id addr]|] eqn:Er.
  - case_bool_decide as Hf.
    + right. eexists id, addr, _. split_and!; try done. all: done.
    + left. by split; [apply derived_subseteq|].
  - left. split; [apply derived_prune|done].
Qed.

Lemma apply_unique db o : wf db -> unique_hashes (tokens (apply db o)).
Proof.
  intros Hwf. pose proof (wf_hashes db Hwf) as Hu. destruct o; simpl.
  - unfold issue. destruct (insert_token _ _ _) eqn:E; simpl; [|done].
    apply insert_token_spec in E as (_ & Hf & ->). by apply unique_insert.
  - eapply unique_same; [done|]. apply same_fmap. intros r. unfold revoked. repeat case_match; done.
  - eapply unique_same; [done|]. apply same_alter. intros r. unfold revoked. by case_match.
  - unfold delete_revoked. repeat case_match; simpl; try done.
    eapply unique_same; [done|]. apply same_subseteq, map_filter_subseteq.
  - unfold delete_revoked_by_id. repeat case_match; simpl; try done.
    eapply unique_same; [done|]. apply same_subseteq, delete_subseteq.
  - unfold rename. case_match; simpl; [|done]. by eapply unique_same; [done|eapply same_insert].
  - eapply unique_same; [done|]. apply same_fmap. intros r. by case_match.
  - unfold update_client_address_by_id. case_match; simpl; [|done].
    by eapply unique_same; [done|eapply same_insert].
  - by rewrite create_tokens.
  - destruct (redeem _ _ _ _ _ _) as [[out|err] db'] eqn:E; simpl.
    + apply redeem_ok_inv in E as (j & e & nm & r & _ & _ & _ & _ & _ & _ & Hf & Hh & _ & _ & _ & _ & _ & ->); [|done].
      simpl. apply unique_insert; [done|]. by rewrite Hh.
    + by apply redeem_error_unchanged in E as ->.
Qed.

Lemma wf_derived db db' :
  wf db -> unique_hashes (tokens db') -> derived (enrollments db) (enrollments db') ->
  next_enrollment db' = next_enrollment db -> wf db'.
Proof.
  intros [_ Hc Hl Hi] Hu Hd Hn. split; [done|by eapply derived_unique|by eapply derived_live|].
  intros i e' H. rewrite Hn. destruct (Hd _ _ H) as (e & ? & _). eauto.
Qed.

Lemma wf_create db i code : wf db -> wf (create db i code).2.
Proof.
  intros Hwf. pose proof (wf_hashes db Hwf) as Hu.
  destruct (create_effect db i code) as [[Hd Hn]|(id & addr & e & _ & Hid & He & Hh & Hf & ->)].
  { apply (wf_derived db); auto. by rewrite create_tokens. }
  pose proof (derived_pruned db (in_now i) id) as Hd.
  pose proof (derived_unique _ _ (wf_codes db Hwf) Hd) as Huc.
  pose proof (derived_live _ _ (wf_live db Hwf) Hd) as Hul.
  pose proof (superseded_consumed db (in_now i) id) as Hs.
  split; simpl; [done|..].
  - intros j k a b. rewrite !lookup_insert_Some.
    intros [[<- <-]|[? Ha]] [[<- <-]|[? Hb]] E; [done|..|eauto];
      edestruct Hf; [exact Hb|congruence|exact Ha|congruence].
  - intros j k a b c. rewrite !lookup_insert_Some.
    intros [[<- <-]|[? Ha]] [[<- <-]|[? Hb]] Ea Eb ? ?; [done|..|eauto].
    + destruct (Hs k b); congruence.
    + destruct (Hs j a); congruence.
  - intros j a. rewrite lookup_insert_Some. intros [[<- <-]|[? Ha]]; [lia|].
    destruct (Hd _ _ Ha) as (? & Hj & _). apply (wf_ids db Hwf) in Hj. lia.
Qed.

Lemma is_create o : (exists i code, o = OpCreate i code) \/ forall i code, o <> OpCreate i code.
Proof. destruct o; first [by left; eauto | by right]. Qed.

Lemma wf_apply db o : wf db -> wf (apply db o).
Proof.
  intros Hwf. destruct (is_create o) as [(i & code & ->)|Ho]; [by apply wf_create|].
  destruct (apply_enrollments db o Hwf Ho). by apply (wf_derived db); auto using apply_unique.
Qed.

Lemma wf_apply_all db ops : wf db -> wf (apply_all db ops).
Proof. revert db. induction ops as [|o ops IH]; intros db H; simpl; [done|]. apply IH, wf_apply, H. Qed.

(** ** Theorems *)

(** A code none of whose rows is still to be consumed. *)
Definition spent (h : list Z) (m : gmap Z EnrollmentRow) : Prop :=
  map_Forall (fun _ e => code_hash e = h -> consumed_at e <> None) m.

Lemma spent_derived h m m' : spent h m -> derived m m' -> spent h m'.
Proof. intros Hs Hd i e' Hi Hh Hn. destruct (Hd _ _ Hi) as (e & He & ? & _ & Hc). apply (Hs i e); auto; congruence. Qed.

(** An operation that does not create the code anew. *)
Definition other_code (h : list Z) (o : Op) : Prop :=
  match o with OpCreate _ code => hash_hex code <> h | _ => True end.

Lemma spent_apply h db o : wf db -> other_code h o -> spent h (enrollments db) -> spent h (enrollments (apply db o)).
Proof.
  intros Hwf Ho Hs. destruct (is_create o) as [(i & code & ->)|Hd].
  - simpl in *. destruct (create_effect db i code) as [[Hd _]|(id & addr & e & _ & _ & _ & Hh & _ & ->)];
      [by eapply spent_derived|]. simpl.
    pose proof (spent_derived _ _ _ Hs (derived_pruned db (in_now i) id)) as Hp.
    intros j a. rewrite lookup_insert_Some. intros [[<- <-]|[? Ha]]; [congruence|by apply (Hp j)].
  - destruct (apply_enrollments db o Hwf Hd). by eapply spent_derived.
Qed.

Lemma spent_apply_all h db ops :
  wf db -> Forall (other_code h) ops -> spent h (enrollments db) -> spent h (enrollments (apply_all db ops)).
Proof.
  revert db. induction ops as [|o ops IH]; intros db Hwf Ho Hs; simpl; [done|].
  apply Forall_cons in Ho as [? ?]. apply IH; auto using wf_apply, spent_apply.
Qed.

Lemma redeem_spends db code now token minted legacy out db' :
  wf db -> redeem db code now token minted legacy = (Ok out, db') ->
  spent (hash_hex code) (enrollments db').
Proof.
  intros Hwf H. apply redeem_ok_inv in H as (i & e & nm & r & Hi & He & _ & _ & _ & _ & _ & _ & _ & _ & _ & _ & _ & ->); [|done].
  simpl. intros j f. rewrite lookup_insert_Some. intros [[<- <-]|[Hne Hj]]; [done|].
  intros Hf. destruct Hne. eapply (wf_codes db Hwf); [done..|congruence].
Qed.

(** C15. A code is redeemed at most once: after a successful redeem, whatever
    other operations the two stores go through (as long as the random
    generator does not produce the very same code again), presenting the code
    again never yields another credential. *)
Theorem code_redeemed_once (db : Db) (code : list Z) (now : Z) (token : list Z) (minted : Z)
  (legacy : Result (list Z) RedeemError) (out : IssuedClientCredential) (db' : Db) (ops : list Op) :
  wf db -> redeem db code now token minted legacy = (Ok out, db') ->
  Forall (other_code (hash_hex code)) ops ->
  forall now2 token2 minted2 legacy2 out2,
  (redeem (apply_all db' ops) code now2 token2 minted2 legacy2).1 <> Ok out2.
Proof.
  intros Hwf H Ho now2 token2 minted2 legacy2 out2 E.
  pose proof (wf_apply db (OpRedeem code now token minted legacy) Hwf) as Hwf'.
  simpl in Hwf'. rewrite H in Hwf'. simpl in Hwf'.
  destruct (redeem (apply_all db' ops) code now2 token2 minted2 legacy2) as [res db2] eqn:E2. simpl in E. subst res.
  apply redeem_ok_inv in E2 as (i & e & nm & r & Hi & He & Hc & _); [|by apply wf_apply_all].
  by eapply (spent_apply_all _ db' ops); eauto using redeem_spends.
Qed.

Lemma verify_found db t i r :
  wf db -> (1 <= str_len t <= 256)%nat -> tokens db !! i = Some r -> token_hash r = hash_hex t ->
  verify db t =
    match revoked_at r with
    | Some _ => Err Revoked
    | None => match ClientName.new (client_name r) with Ok n => Ok (i, n) | Err _ => Err StoreCorrupt end
    end.
Proof.
  intros Hwf Hl Hi Hr. unfold verify.
  replace (str_len t =? 0)%nat with false by (symmetry; apply Nat.eqb_neq; lia).
  replace (256 <? str_len t)%nat with false by (symmetry; apply Nat.ltb_ge; lia).
  assert (scan_hash token_hash (hash_hex t) (map_to_list (tokens db)) None = Some (i, r)) as ->; [|done].
  apply scan_hash_map; [apply (wf_hashes db Hwf)|done].
Qed.

Lemma verify_same db db' t :
  wf db -> wf db' ->
  (forall i r, tokens db !! i = Some r /\ token_hash r = hash_hex t <->
               tokens db' !! i = Some r /\ token_hash r = hash_hex t) ->
  verify db' t = verify db t.
Proof.
  intros H H' E. unfold verify. repeat (case_match; [done|]).
  assert (scan_hash token_hash (hash_hex t) (map_to_list (tokens db')) None =
          scan_hash token_hash (hash_hex t) (map_to_list (tokens db)) None) as ->; [|done].
  apply option_eq. intros [i r]. rewrite !scan_hash_map by first [apply (wf_hashes _ H)|apply (wf_hashes _ H')].
  symmetry. apply E.
Qed.

Lemma redeem_new_token db code now token minted legacy out db' :
  wf db -> redeem db code now token minted legacy = (Ok out, db') -> (1 <= str_len token <= 256)%nat ->
  wf db' /\ verify db' token = Ok (out_client out, out_name out).
Proof.
  intros Hwf H Hl. pose proof (wf_apply db (OpRedeem code now token minted legacy) Hwf) as Hwf'.
  simpl in Hwf'. rewrite H in Hwf'. simpl in Hwf'. split; [done|].
  apply redeem_ok_inv in H as (i & e & nm & r & _ & _ & _ & _ & _ & _ & Hf & Hh & Hr & Hn & Hv & _ & _ & E); [|done].
  rewrite (verify_found db' token (out_client out) r); auto.
  - by rewrite Hr, Hn, Hv.
  - rewrite E. simpl. by rewrite lookup_insert_eq.
Qed.

(** The token the client had is not known any more. *)
Lemma redeem_forgets_old db code now token minted legacy out db' r t :
  wf db -> redeem db code now token minted legacy = (Ok out, db') ->
  tokens db !! out_client out = Some r -> token_hash r = hash_hex t -> hash_hex t <> hash_hex token ->
  scan_hash token_hash (hash_hex t) (map_to_list (tokens db')) None = None.
Proof.
  intros Hwf H Hr Ht Hne.
  apply redeem_ok_inv in H as (i & e & nm & r' & _ & _ & _ & _ & _ & _ & Hf & Hh & _ & _ & _ & _ & _ & ->); [|done].
  apply scan_hash_none. simpl. intros j a. rewrite lookup_insert_Some.
  intros [[<- <-]|[Hj Ha]]; [congruence|]. intros Hat. destruct Hj.
  eapply (wf_hashes db Hwf); [done..|congruence].
Qed.

Lemma verify_rotated_away db code now token minted legacy out db' r t :
  wf db -> redeem db code now token minted legacy = (Ok out, db') ->
  tokens db !! out_client out = Some r -> token_hash r = hash_hex t -> hash_hex t <> hash_hex token ->
  (1 <= str_len t <= 256)%nat -> verify db' t = Err NotFound.
Proof.
  intros Hwf H Hr Ht Hne Hl. unfold verify.
  rewrite (proj2 (Nat.eqb_neq _ _)) by lia. rewrite (proj2 (Nat.ltb_ge _ _)) by lia.
  by rewrite (redeem_forgets_old _ _ _ _ _ _ _ _ _ _ Hwf H Hr Ht Hne).
Qed.

(** A redeem moves the client to its new token: from then on the new
    token authenticates as that client under its current name, the token the
    client had before is unknown (also when the client was active with it),
    and every other token is answered exactly as before. *)
Theorem redeem_rotates_token (db : Db) (code : list Z) (now : Z) (token : list Z) (minted : Z)
  (legacy : Result (list Z) RedeemError) (out : IssuedClientCredential) (db' : Db) :
  wf db -> redeem db code now token minted legacy = (Ok out, db') ->
  (1 <= str_len token <= 256)%nat ->
  verify db' token = Ok (out_client out, out_name out) /\
  forall t, hash_hex t <> hash_hex token ->
    verify db' t =
      match tokens db !! out_client out with
      | Some r =>
        if bool_decide (token_hash r = hash_hex t)
        then (if (str_len t =? 0)%nat then Err Missing
              else if (256 <? str_len t)%nat then Err Malformed else Err NotFound)
        else verify db t
      | None => verify db t
      end.
Proof.
  intros Hwf H Hl. destruct (redeem_new_token _ _ _ _ _ _ _ _ Hwf H Hl) as [Hwf' Hv].
  split; [done|]. intros t Ht.
  assert (Hsame : (forall s, tokens db !! out_client out = Some s -> token_hash s <> hash_hex t) ->
    verify db' t = verify db t).
  { intros Hs. apply verify_same; [done..|].
    apply redeem_ok_inv in H as (i & e & nm & r & _ & _ & _ & _ & _ & _ & Hf & Hh & _ & _ & _ & _ & _ & ->); [|done].
    simpl. intros j s. rewrite lookup_insert_Some. naive_solver congruence. }
  destruct (tokens db !! out_client out) as [s|] eqn:Es; [|by apply Hsame].
  case_bool_decide as Hst; [|by apply Hsame; intros ? [= <-]].
  unfold verify. repeat (case_match; [done|]).
  by rewrite (redeem_forgets_old _ _ _ _ _ _ _ _ _ _ Hwf H Es Hst Ht).
Qed.

Lemma credentials_wf_empty rules : wf (mkDb ∅ ∅ 0 rules).
Proof.
  split; simpl.
  - intros i j r s. by rewrite lookup_empty.
  - intros i j r s. by rewrite lookup_empty.
  - intros i j r s c. by rewrite lookup_empty.
  - intros i e. by rewrite lookup_empty.
Qed.

(** From empty tables, through any sequence of operations of the token
    and enrolment stores: no two clients share a token hash, no two enrolments
    a code hash, and no client ever has two codes that can still be
    redeemed. *)
Theorem credentials_invariant (ops : list Op) (rules : gmap Z (Z * list Z)) :
  wf (apply_all (mkDb ∅ ∅ 0 rules) ops).
Proof. apply wf_apply_all, credentials_wf_empty. Qed.

(** The code [create] returned is the one code of its client that works:
    before its expiry it redeems to that client, with the endpoint that was
    pinned when it was created and the client's current name, and says whether
    the client existed; the client's earlier codes still in the table answer
    "already used". *)
Theorem create_then_redeem (db : Db) (i : CreateEnrollment) (code : list Z)
  (addr : option (list Z)) (db' : Db) (now : Z) (token : list Z) (minted id : Z)
  (legacy : Result (list Z) RedeemError) :
  wf db -> create db i code = (Ok addr, db') ->
  resolve_client db i = Some (id, addr) ->
  (1 <= str_len code <= 256)%nat -> now < in_expires i ->
  ClientName.new (in_name i) = Ok (in_name i) ->
  map_Forall (fun _ r => ClientName.new (client_name r) = Ok (client_name r)) (tokens db) ->
  map_Forall (fun _ r => token_hash r <> hash_hex token) (tokens db) ->
  (redeem db' code now token minted legacy).1 =
    Ok (mkIssued id (match tokens db !! id with Some r => client_name r | None => in_name i end)
          token (bool_decide (is_Some (tokens db !! id))) (in_endpoint i)) /\
  forall old j e, enrollments db' !! j = Some e -> client_id e = Some id ->
    code_hash e = hash_hex old -> hash_hex old <> hash_hex code -> (1 <= str_len old <= 256)%nat ->
    (redeem db' old now token minted legacy).1 = Err AlreadyUsed.
Proof.
  intros Hwf H Hres Hl Hx Hn Hnames Hfree.
  assert (Hwf' : wf db') by (pose proof (wf_create db i code Hwf) as Hw; by rewrite H in Hw).
  unfold create in H. assert (resolve_client (prune_stale_enrollments db (in_now i)) i = Some (id, addr)) as Hr'
    by exact Hres. rewrite Hr' in H. case_bool_decide as Hcf; [|done]. injection H as <-.
  match goal with |- context [<[_ := ?e]> _] => set (new := e) in * end.
  match type of Hwf' with wf ?d => set (D := d) in * end.
  assert (Hlens : forall c, (1 <= str_len c <= 256)%nat -> (str_len c =? 0)%nat || (256 <? str_len c)%nat = false).
  { intros c Hc. apply orb_false_iff. rewrite Nat.eqb_neq, Nat.ltb_ge. lia. }
  split.
  - unfold redeem. rewrite (Hlens _ Hl).
    assert (scan_hash code_hash (hash_hex code) (map_to_list (enrollments D)) None =
            Some (next_enrollment db, new)) as ->.
    { apply scan_hash_map; [apply (wf_codes _ Hwf')|]. simpl. by rewrite lookup_insert_eq. }
    simpl. replace (in_expires i <=? now) with false by (symmetry; apply Z.leb_gt; lia).
    rewrite Hn. assert (Hhf : forall k, hash_free (tokens db) k (hash_hex token)).
    { intros k j r Hj E. by destruct (Hfree j r Hj). }
    unfold materialize. simpl. destruct (tokens db !! id) as [r|] eqn:Er.
    + unfold rotate_token. simpl. rewrite bool_decide_true by apply Hhf. simpl.
      by rewrite (Hnames id r Er).
    + unfold insert_token. simpl. rewrite Er, bool_decide_false by (by intros []).
      by rewrite bool_decide_true by apply Hhf.
  - intros old j e Hj Hid Hold Hne Hlo. unfold redeem. rewrite (Hlens _ Hlo).
    assert (scan_hash code_hash (hash_hex old) (map_to_list (enrollments D)) None = Some (j, e)) as ->
      by (apply scan_hash_map; [apply (wf_codes _ Hwf')|done]).
    simpl in Hj. apply lookup_insert_Some in Hj as [[<- <-]|[_ Hj]]; [by destruct Hne|].
    rewrite bool_decide_true; [done|]. apply not_eq_None_Some.
    by apply (superseded_consumed db (in_now i) id j e Hj).
Qed.

(** *** Revocation *)

(** The client is unknown or revoked, and no code can bring it back. *)
Definition locked_out (id : Z) (db : Db) : Prop :=
  (forall r, tokens db !! id = Some r -> revoked_at r <> None) /\
  map_Forall (fun _ e => consumed_at e = None -> exists c, client_id e = Some c /\ c <> id) (enrollments db).

(** Operations that neither issue to the client nor create a code for it. *)
Definition leaves_out (id : Z) (o : Op) : Prop :=
  match o with
  | OpIssue _ _ _ minted _ => minted <> id
  | OpCreate i _ =>
    match in_target i with
    | New _ => default (in_minted i) (in_client i) <> id
    | Existing => exists c, in_client i = Some c /\ c <> id
    end
  | _ => True
  end.

Lemma no_code_derived id m m' :
  map_Forall (fun _ e => consumed_at e = None -> exists c, client_id e = Some c /\ c <> id) m ->
  derived m m' ->
  map_Forall (fun _ e => consumed_at e = None -> exists c, client_id e = Some c /\ c <> id) m'.
Proof.
  intros H Hd i e' Hi Hc. destruct (Hd _ _ Hi) as (e & He & _ & -> & Hn). by apply (H i e); auto.
Qed.

Lemma revoked_at_revoked now r : revoked_at (revoked now r) <> None.
Proof. unfold revoked. destruct (revoked_at r) eqn:E; simpl; congruence. Qed.

Lemma leaves_out_tokens id db o :
  wf db -> leaves_out id o -> locked_out id db ->
  forall r, tokens (apply db o) !! id = Some r -> revoked_at r <> None.
Proof.
  intros Hwf Ho [Ht Hm] r. destruct o; simpl in *.
  - unfold issue. destruct (insert_token _ _ _) eqn:E; simpl; [|auto].
    apply insert_token_spec in E as (_ & _ & ->). simpl. rewrite lookup_insert_ne by done. auto.
  - rewrite lookup_fmap_Some. intros (s & <- & Hs). case_match; [apply revoked_at_revoked|auto].
  - rewrite lookup_alter_Some. intros [(<- & s & Hs & ->)|[_ Hs]]; [apply revoked_at_revoked|auto].
  - unfold delete_revoked. repeat case_match; simpl; auto.
    rewrite map_lookup_filter_Some. intros [? _]. auto.
  - unfold delete_revoked_by_id. repeat case_match; simpl; auto.
    rewrite lookup_delete_Some. intros [_ ?]. auto.
  - unfold rename. case_match; simpl; auto.
    rewrite lookup_insert_Some. intros [[<- <-]|[_ ?]]; [simpl|]; eauto.
  - rewrite lookup_fmap_Some. intros (s & <- & Hs). apply Ht in Hs. by case_match.
  - unfold update_client_address_by_id. case_match; simpl; auto.
    rewrite lookup_insert_Some. intros [[<- <-]|[_ ?]]; [simpl|]; eauto.
  - rewrite create_tokens. auto.
  - destruct (redeem _ _ _ _ _ _) as [[out|err] db'] eqn:E; simpl.
    + apply redeem_ok_inv in E as (j & e & nm & r0 & Hj & _ & Hc & _ & _ & Hid & _ & _ & _ & _ & _ & _ & _ & ->); [|done].
      simpl. destruct (Hm j e Hj Hc) as (c & Hec & Hne). rewrite (Hid c Hec).
      rewrite lookup_insert_ne by done. auto.
    + apply redeem_error_unchanged in E as ->. auto.
Qed.

Lemma locked_out_apply id db o :
  wf db -> leaves_out id o -> locked_out id db -> locked_out id (apply db o).
Proof.
  intros Hwf Ho Hl. split; [by apply leaves_out_tokens|]. destruct Hl as [_ Hm].
  destruct (is_create o) as [(i & code & ->)|Hd].
  - simpl in *. destruct (create_effect db i code) as [[Hd _]|(c & addr & e & Hr & Hid & _ & _ & _ & ->)];
      [by eapply no_code_derived|]. simpl.
    pose proof (no_code_derived _ _ _ Hm (derived_pruned db (in_now i) c)) as Hp.
    intros j a. rewrite lookup_insert_Some. intros [[<- <-]|[_ Ha]]; [|by apply (Hp j)].
    intros _. exists c. split; [done|]. unfold resolve_client in Hr.
    destruct (in_target i); [congruence|]. destruct Ho as (k & Hk & Hne). rewrite Hk in Hr.
    apply fmap_Some in Hr as (? & _ & [= -> _]). done.
  - destruct (apply_enrollments db o Hwf Hd). by eapply no_code_derived.
Qed.

Lemma locked_out_apply_all id db ops :
  wf db -> Forall (leaves_out id) ops -> locked_out id db -> locked_out id (apply_all db ops).
Proof.
  revert db. induction ops as [|o ops IH]; intros db Hwf Ho Hs; simpl; [done|].
  apply Forall_cons in Ho as [? ?]. apply IH; auto using wf_apply, locked_out_apply.
Qed.

Lemma verify_ok_inv db t id n :
  wf db -> verify db t = Ok (id, n) ->
  exists r, tokens db !! id = Some r /\ token_hash r = hash_hex t /\ revoked_at r = None /\
    ClientName.new (client_name r) = Ok n.
Proof.
  intros Hwf. unfold verify. repeat (case_match; [done|]).
  destruct (scan_hash _ _ _ _) as [[j r]|] eqn:E; [|done].
  apply scan_hash_map in E as [Hj Hh]; [|apply (wf_hashes db Hwf)].
  repeat case_match; intros [=]; subst. eauto.
Qed.

(** A client that is revoked while no code for it is outstanding stays
    out: whatever the stores go through afterwards, except issuing to it or
    creating a code for it, no token ever authenticates as it. *)
Theorem revoked_stays_out (db : Db) (id now : Z) (ops : list Op) (t n : list Z) :
  wf db ->
  map_Forall (fun _ e => consumed_at e = None -> exists c, client_id e = Some c /\ c <> id) (enrollments db) ->
  Forall (leaves_out id) ops ->
  verify (apply_all (revoke_by_id db id now).2 ops) t <> Ok (id, n).
Proof.
  intros Hwf Hm Ho H. assert (Hwf' : wf (revoke_by_id db id now).2) by exact (wf_apply db (OpRevokeById id now) Hwf).
  apply verify_ok_inv in H as (r & Hr & _ & Hn & _); [|by apply wf_apply_all].
  destruct (locked_out_apply_all id (revoke_by_id db id now).2 ops) as [Hl _]; [done..| |by apply (Hl r)].
  split; [|done]. intros s. simpl. rewrite lookup_alter_Some.
  intros [(_ & a & Ha & ->)|[? _]]; [apply revoked_at_revoked|done].
Qed.

Lemma hash_free_same t t' id h :
  (forall i, token_hash <$> t !! i = token_hash <$> t' !! i) -> hash_free t id h <-> hash_free t' id h.
Proof.
  intros E. split; intros H i r Hi Hr; specialize (E i); rewrite Hi in E; simpl in E.
  - apply fmap_Some in E as (s & Hs & E). apply (H i s Hs). congruence.
  - symmetry in E. apply fmap_Some in E as (s & Hs & E). apply (H i s Hs). congruence.
Qed.

Lemma revoke_keeps_hash db id now i :
  token_hash <$> tokens db !! i = token_hash <$> tokens (revoke_by_id db id now).2 !! i.
Proof.
  simpl. destruct (decide (id = i)) as [<-|]; [rewrite lookup_alter_eq|by rewrite lookup_alter_ne].
  destruct (tokens db !! id) as [r|]; [|done]. simpl. unfold revoked. by case_match.
Qed.

(** [materialize] up to the table it returns. *)
Definition answer (q : Result (Db * Z * list Z * bool) StoreError) : Result (Z * list Z * bool) StoreError :=
  match q with Ok (_, id, n, b) => Ok (id, n, b) | Err e => Err e end.

Lemma materialize_revoked db e name h now minted id nowr :
  client_id e <> None ->
  answer (materialize (revoke_by_id db id nowr).2 e name h now minted) =
  answer (materialize db e name h now minted).
Proof.
  intros Hc. destruct (client_id e) as [c|] eqn:Ec; [|done]. unfold materialize. rewrite Ec.
  pose proof (revoke_keeps_hash db id nowr) as Hh.
  pose proof (hash_free_same _ _ c h (fun i => Hh i)) as Hf.
  unfold rotate_token, insert_token. cbn [token_hash].
  assert (Hr : (fun r => client_name r) <$> tokens (revoke_by_id db id nowr).2 !! c = client_name <$> tokens db !! c).
  { simpl. destruct (decide (id = c)) as [<-|]; [rewrite lookup_alter_eq|by rewrite lookup_alter_ne].
    destruct (tokens db !! id) as [r|]; [|done]. simpl. unfold revoked. by case_match. }
  rewrite <- (bool_decide_ext _ _ Hf).
  destruct (tokens db !! c) as [r|], (tokens (revoke_by_id db id nowr).2 !! c) as [r'|]; simpl in Hr; try done.
  - injection Hr as ->. repeat case_match; simplify_eq/=; done.
  - repeat case_match; simplify_eq/=; done.
Qed.

Lemma redeem_revoked_same db id nowr code now token minted legacy :
  map_Forall (fun _ e => client_id e <> None) (enrollments db) ->
  (redeem (revoke_by_id db id nowr).2 code now token minted legacy).1 =
  (redeem db code now token minted legacy).1.
Proof.
  intros Hm. unfold redeem. case_match; [done|]. cbn [enrollments revoke_by_id snd set_tokens].
  destruct (scan_hash_spec code_hash (hash_hex code) (map_to_list (enrollments db)) None)
    as [[-> _]|([i e] & Hi%elem_of_map_to_list & _ & ->)]; [done|].
  case_bool_decide; [done|]. destruct (expires_at e <=? now); [done|].
  destruct (ClientName.new (enrol_name e)) as [nm|]; [|done].
  destruct (match advertised_endpoint e with Some ep => Ok ep | None => legacy end); [|done].
  pose proof (materialize_revoked db e nm (hash_hex token) now minted id nowr (Hm i e Hi)) as E.
  cbn [revoke_by_id snd] in E |- *. unfold answer in E.
  destruct (materialize _ _ _ _ _ _) as [[[[? ?] ?] ?]|], (materialize db _ _ _ _ _) as [[[[? ?] ?] ?]|];
    simplify_eq; done.
Qed.

(** Revocation does not reach the codes that are outstanding: redeeming a
    code of the client (one created by id) answers the same whether or not the
    client has been revoked in between, and a success makes it active again
    with the new token. *)
Theorem redeem_ignores_revocation (db : Db) (id nowr : Z) (code : list Z) (now : Z) (token : list Z)
  (minted : Z) (legacy : Result (list Z) RedeemError) :
  wf db -> map_Forall (fun _ e => client_id e <> None) (enrollments db) ->
  (1 <= str_len token <= 256)%nat ->
  (redeem (revoke_by_id db id nowr).2 code now token minted legacy).1 =
  (redeem db code now token minted legacy).1 /\
  forall out, (redeem db code now token minted legacy).1 = Ok out ->
    verify (redeem (revoke_by_id db id nowr).2 code now token minted legacy).2 token =
    Ok (out_client out, out_name out).
Proof.
  intros Hwf Hm Hl.
  assert (E : (redeem (revoke_by_id db id nowr).2 code now token minted legacy).1 =
    (redeem db code now token minted legacy).1) by (by apply redeem_revoked_same).
  split; [done|]. intros out Hout. rewrite <- E in Hout.
  destruct (redeem (revoke_by_id db id nowr).2 code now token minted legacy) as [res db'] eqn:Er.
  simpl in Hout. subst res. eapply redeem_new_token; [|done..].
  exact (wf_apply db (OpRevokeById id nowr) Hwf).
Qed.

(** *** Deletion *)

(** Deleting by id never removes an active client, and removes no other:
    the row goes exactly when it is revoked. *)
Theorem delete_by_id_exact (db : Db) (id : Z) :
  (forall j, j <> id -> tokens (delete_revoked_by_id db id).2 !! j = tokens db !! j) /\
  (tokens (delete_revoked_by_id db id).2 !! id =
     match tokens db !! id with
     | Some r => if bool_decide (revoked_at r = None) then Some r else None
     | None => None
     end) /\
  ((delete_revoked_by_id db id).1 = Deleted <->
     exists r, tokens db !! id = Some r /\ revoked_at r <> None).
Proof.
  unfold delete_revoked_by_id. destruct (tokens db !! id) as [r|] eqn:E; simpl.
  2: { split_and!; [done..|]. split; [done|]. by intros (? & ? & _). }
  destruct (revoked_at r) eqn:Er; simpl.
  - split_and!; [intros j ?; by rewrite lookup_delete_ne| |naive_solver].
    by rewrite lookup_delete_eq.
  - split_and!; [done..|]. naive_solver.
Qed.

(** Deleting by name looks at one row and removes them all: when the row
    it finds is revoked, every client of that display name goes, the active
    ones included. *)
Theorem delete_by_name_takes_active (db : Db) (name : list Z) (i j : Z) (r s : TokenRow)
  (rest : list (Z * TokenRow)) :
  named db name = (i, r) :: rest -> revoked_at r <> None ->
  tokens db !! j = Some s -> client_name s = name -> revoked_at s = None ->
  (delete_revoked db name).1 = Deleted /\ tokens (delete_revoked db name).2 !! j = None.
Proof.
  intros Hn Hr Hj Hs _. unfold delete_revoked. rewrite Hn.
  destruct (revoked_at r); [|done]. simpl. split; [done|].
  apply map_lookup_filter_None. right. intros s'. rewrite Hj. intros [= <-]. simpl. auto.
Qed.

End Hashing.

(** ** Witnesses *)

Definition plain (s : list Z) : list Z := s.

(** A new client, id 7, whose code is created at 100 and redeemed at 200. *)
Definition demo_create : CreateEnrollment :=
  mkCreate (lit "edge") None 7 (New (Some (lit "10.0.0.1"))) 1000 100 (lit "srv:7443").

Definition demo_db : Db := apply_all plain (mkDb ∅ ∅ 0 ∅) [OpCreate demo_create (lit "c0de")].

Definition demo_redeem (db : Db) (code : list Z) : Result IssuedClientCredential RedeemError * Db :=
  redeem plain db code 200 (lit "t0ken") 9 (Err AdvertisedEndpoint).

Definition demo_issued : IssuedClientCredential := mkIssued 7 (lit "edge") (lit "t0ken") false (lit "srv:7443").

Lemma demo_db_wf : wf demo_db.
Proof. apply wf_apply_all, credentials_wf_empty. Qed.

Lemma code_redeemed_once_witness :
  demo_redeem demo_db (lit "c0de") = (Ok demo_issued, (demo_redeem demo_db (lit "c0de")).2) /\
  (demo_redeem (apply_all plain (demo_redeem demo_db (lit "c0de")).2 [OpRevokeById 7 300]) (lit "c0de")).1
    <> Ok demo_issued.
Proof.
  assert (H : demo_redeem demo_db (lit "c0de") = (Ok demo_issued, (demo_redeem demo_db (lit "c0de")).2))
    by reflexivity.
  split; [exact H|].
  apply (code_redeemed_once plain demo_db (lit "c0de") 200 (lit "t0ken") 9 (Err AdvertisedEndpoint) demo_issued
    (demo_redeem demo_db (lit "c0de")).2 [OpRevokeById 7 300] demo_db_wf H).
  repeat constructor.
Defined.

Lemma redeem_rotates_token_witness :
  demo_redeem demo_db (lit "c0de") = (Ok demo_issued, (demo_redeem demo_db (lit "c0de")).2) /\
  verify plain (demo_redeem demo_db (lit "c0de")).2 (lit "t0ken") = Ok (7, lit "edge").
Proof.
  assert (H : demo_redeem demo_db (lit "c0de") = (Ok demo_issued, (demo_redeem demo_db (lit "c0de")).2))
    by reflexivity.
  split; [exact H|].
  apply (redeem_rotates_token plain demo_db (lit "c0de") 200 (lit "t0ken") 9 (Err AdvertisedEndpoint) demo_issued
    (demo_redeem demo_db (lit "c0de")).2 demo_db_wf H). split; apply Nat.leb_le; reflexivity.
Defined.

Lemma create_then_redeem_witness :
  resolve_client (mkDb ∅ ∅ 0 ∅) demo_create = Some (7, Some (lit "10.0.0.1")) /\
  (demo_redeem demo_db (lit "c0de")).1 = Ok demo_issued.
Proof.
  split; [reflexivity|].
  refine (proj1 (create_then_redeem plain (mkDb ∅ ∅ 0 ∅) demo_create (lit "c0de") (Some (lit "10.0.0.1"))
    demo_db 200 (lit "t0ken") 9 7 (Err AdvertisedEndpoint) (credentials_wf_empty _) eq_refl eq_refl _ eq_refl eq_refl
    (map_Forall_empty _) (map_Forall_empty _))).
  split; apply Nat.leb_le; reflexivity.
Defined.

Lemma revoked_stays_out_witness :
  verify plain (demo_redeem demo_db (lit "c0de")).2 (lit "t0ken") = Ok (7, lit "edge") /\
  verify plain (apply_all plain (revoke_by_id (demo_redeem demo_db (lit "c0de")).2 7 300).2
     [OpRename 7 (lit "back")]) (lit "t0ken") <> Ok (7, lit "back").
Proof.
  split; [reflexivity|].
  apply (revoked_stays_out plain (demo_redeem demo_db (lit "c0de")).2 7 300 [OpRename 7 (lit "back")]).
  - apply (wf_apply plain demo_db (OpRedeem (lit "c0de") 200 (lit "t0ken") 9 (Err AdvertisedEndpoint))), demo_db_wf.
  - apply map_Forall_to_list. constructor; [|constructor]. intros [=].
  - repeat constructor.
Defined.

Lemma redeem_ignores_revocation_witness :
  verify plain (demo_redeem (revoke_by_id demo_db 7 150).2 (lit "c0de")).2 (lit "t0ken") = Ok (7, lit "edge").
Proof.
  apply (redeem_ignores_revocation plain demo_db 7 150 (lit "c0de") 200 (lit "t0ken") 9 (Err AdvertisedEndpoint))
    with (out := demo_issued).
  - exact demo_db_wf.
  - apply map_Forall_to_list. constructor; [|constructor]. intros [=].
  - split; apply Nat.leb_le; reflexivity.
  - reflexivity.
Defined.

(** Two clients of one name: one revoked, one active. *)
Definition demo_namesakes : Db :=
  mkDb {[2 := mkToken (lit "edge") [1] 0 (Some 5) None; 1 := mkToken (lit "edge") [2] 0 None None]} ∅ 0 ∅.

Lemma delete_by_name_takes_active_witness :
  (delete_revoked demo_namesakes (lit "edge")).1 = Deleted /\
  tokens (delete_revoked demo_namesakes (lit "edge")).2 !! 1 = None.
Proof.
  apply (delete_by_name_takes_active demo_namesakes (lit "edge") 2 1 (mkToken (lit "edge") [1] 0 (Some 5) None)
    (mkToken (lit "edge") [2] 0 None None) [(1, mkToken (lit "edge") [2] 0 None None)]); reflexivity || done.
Defined.

End ClientTokens.
