(* ===== verification/ClientSessions.v ===== *)
(** * Connected clients and their sessions

    [crates/portunus-server/src/clients.rs] (the registry of live sessions),
    the authentication interceptor ([grpc/interceptor.rs]), the life of a
    session in [channel] of [grpc/service.rs], and the operations that end one
    ([revoke_by_id] of [operator/cli.rs], [enroll] of [grpc/enrollment.rs]),
    over the credential tables of [ClientTokens].

    A cancellation token is a number and the registry's state holds the set of
    those that fired; the outbound channel and the waiters of a session carry
    the same number.  Requests run concurrently: one event below is one
    critical section (a transaction, a registry lock, an atomic), in any
    order. *)

From S2P Require Import Prelude Text ClientTokens.

Local Open Scope Z_scope.

Module Clients.

(** The wire enum [v1::Protocol]. *)
Inductive Protocol : Type := Unspecified | Tcp | Udp.

#[global] Instance Protocol_eq_dec : EqDecision Protocol.
Proof. solve_decision. Defined.

Record ConnectedClient : Type := mkConnected {
  client_name : list Z;
  cancel_token : Z;
  session_id : Z;
  supported_protocols : list Protocol;
  client_version : option (list Z);
}.

Record ConnectedClients : Type := mkClients {
  inner : gmap Z ConnectedClient;
  next_session : Z;
  cancelled : gset Z;
  session_root : bool;
}.

Definition empty : ConnectedClients := mkClients ∅ 0 ∅ false.

Definition client_supports (c : ConnectedClient) (p : Protocol) : bool :=
  match p with Unspecified => false | _ => bool_decide (p ∈ supported_protocols c) end.

Definition set_inner (s : ConnectedClients) (m : gmap Z ConnectedClient) : ConnectedClients :=
  mkClients m (next_session s) (cancelled s) (session_root s).

Definition cancel (s : ConnectedClients) (t : Z) : ConnectedClients :=
  mkClients (inner s) (next_session s) ({[t]} ∪ cancelled s) (session_root s).

(** [fetch_add] on the [u64] counter. *)
Definition next_session_id (s : ConnectedClients) : Z * ConnectedClients :=
  (next_session s, mkClients (inner s) (wrap_u64 (next_session s + 1)) (cancelled s) (session_root s)).

(** The rest of [register], under the write lock. *)
Definition register (s : ConnectedClients) (id : Z) (name : list Z) (token sid : Z) : ConnectedClients :=
  let entry := mkConnected name token sid [Tcp] None in
  let s' := set_inner s (<[id := entry]> (inner s)) in
  match inner s !! id with
  | Some prev => cancel s' (cancel_token prev)
  | None => s'
  end.

(** [get_mut] guarded by the session id. *)
Definition update_session (s : ConnectedClients) (id sid : Z) (f : ConnectedClient -> ConnectedClient) :
  bool * ConnectedClients :=
  match inner s !! id with
  | Some c =>
    if session_id c =? sid then (true, set_inner s (<[id := f c]> (inner s))) else (false, s)
  | None => (false, s)
  end.

Definition set_supported_protocols (s : ConnectedClients) (id sid : Z) (caps : list Protocol) :
  bool * ConnectedClients :=
  update_session s id sid (fun c =>
    mkConnected (client_name c) (cancel_token c) (session_id c) caps (client_version c)).

Definition set_client_version (s : ConnectedClients) (id sid : Z) (version : list Z) :
  bool * ConnectedClients :=
  update_session s id sid (fun c =>
    mkConnected (client_name c) (cancel_token c) (session_id c) (supported_protocols c) (Some version)).

Definition supports (s : ConnectedClients) (id : Z) (p : Protocol) : option bool :=
  (fun c => client_supports c p) <$> inner s !! id.

Definition client_version_of (s : ConnectedClients) (id : Z) : option (list Z) :=
  inner s !! id ≫= client_version.

(** The channel and waiters of the live session, by its token. *)
Definition handles (s : ConnectedClients) (id : Z) : option Z := cancel_token <$> inner s !! id.

Definition unregister (s : ConnectedClients) (id sid : Z) : ConnectedClients :=
  match inner s !! id with
  | Some c => if session_id c =? sid then set_inner s (delete id (inner s)) else s
  | None => s
  end.

Definition disconnect (s : ConnectedClients) (id : Z) : bool * ConnectedClients :=
  match inner s !! id with
  | Some c => (true, cancel s (cancel_token c))
  | None => (false, s)
  end.

(** The entries of a name, in the order the map happens to have. *)
Definition by_name (s : ConnectedClients) (name : list Z) : list (Z * ConnectedClient) :=
  filter (fun kv => client_name kv.2 = name) (map_to_list (inner s)).

Definition handles_by_name (s : ConnectedClients) (name : list Z) : option Z :=
  (fun kv => cancel_token kv.2) <$> head (by_name s name).

Definition client_id_by_name (s : ConnectedClients) (name : list Z) : option Z :=
  fst <$> head (by_name s name).

Definition client_version_by_name (s : ConnectedClients) (name : list Z) : option (list Z) :=
  head (by_name s name) ≫= fun kv => client_version kv.2.

Definition supports_by_name (s : ConnectedClients) (name : list Z) (p : Protocol) : option bool :=
  (fun kv => client_supports kv.2 p) <$> head (by_name s name).

Definition disconnect_by_name (s : ConnectedClients) (name : list Z) : bool * ConnectedClients :=
  (negb (bool_decide (by_name s name = [])),
   mkClients (inner s) (next_session s)
     (list_to_set ((fun kv => cancel_token kv.2) <$> by_name s name) ∪ cancelled s) (session_root s)).

Definition len (s : ConnectedClients) : nat := size (inner s).

Definition shutdown (s : ConnectedClients) : ConnectedClients :=
  mkClients (inner s) (next_session s) (cancelled s) true.

(** A child token has fired when it did or when the root did. *)
Definition is_cancelled (s : ConnectedClients) (t : Z) : Prop := t ∈ cancelled s \/ session_root s = true.

End Clients.

Module Interceptor.

Inductive Reject : Type := Reason (e : ClientTokens.AuthError) | TokenVerifyError.

(** The [authorization] metadata: absent, not text, or text. *)
Inductive Header : Type := NoHeader | NotText | Text (s : list Z).

Definition intercept (hash_token : list Z -> list Z) (db : ClientTokens.Db) (h : Header) :
  Result (Z * list Z) Reject :=
  match h with
  | NoHeader => Err (Reason ClientTokens.Missing)
  | NotText => Err (Reason ClientTokens.Malformed)
  | Text s =>
    match strip_prefix (lit "Bearer ") s with
    | None => Err (Reason ClientTokens.Malformed)
    | Some rest =>
      match ClientTokens.verify hash_token db (trim rest) with
      | Ok id => Ok id
      | Err ClientTokens.StoreCorrupt => Err TokenVerifyError
      | Err e => Err (Reason e)
      end
    end
  end.

End Interceptor.

Module Sessions.
Import Clients.

(** Where a [channel] call is: authenticated by the interceptor, holding its
    session id, registered (until its stream or its token ends it), over. *)
Inductive Phase : Type := Authenticated | Numbered (sid : Z) | Live (sid : Z) | Over.

Record Session : Type := mkSession { s_client : Z; s_name : list Z; s_phase : Phase }.

(** [sessions] is by cancellation token; [gauge] is [clients_connected]. *)
Record Server : Type := mkServer {
  db : ClientTokens.Db;
  clients : ConnectedClients;
  sessions : gmap Z Session;
  next_token : Z;
  gauge : Z;
}.

Inductive Event : Type :=
| Store (o : ClientTokens.Op)
| Connect (h : Interceptor.Header)
| Number (t : Z)
| Register (t : Z)
| Hello (t : Z) (caps : list Protocol) (version : list Z)
| Close (t : Z)
| Disconnect (id : Z)
| DisconnectByName (name : list Z)
| Shutdown.

Section Steps.
Variable hash_token : list Z -> list Z.

Definition set_clients (s : Server) (c : ConnectedClients) : Server :=
  mkServer (db s) c (sessions s) (next_token s) (gauge s).

Definition set_phase (s : Server) (t : Z) (p : Phase) : gmap Z Session :=
  alter (fun x => mkSession (s_client x) (s_name x) p) t (sessions s).

(** What a first [Hello] writes into the registry. *)
Definition hello (c : ConnectedClients) (id sid : Z) (caps : list Protocol) (version : list Z) :
  ConnectedClients :=
  let c := (set_supported_protocols c id sid caps).2 in
  if bool_decide (version = []) then c else (set_client_version c id sid version).2.

Definition step (s : Server) (e : Event) : Server :=
  match e with
  | Store o =>
    mkServer (ClientTokens.apply hash_token (db s) o) (clients s) (sessions s) (next_token s) (gauge s)
  | Connect h =>
    match Interceptor.intercept hash_token (db s) h with
    | Ok (id, name) =>
      mkServer (db s) (clients s) (<[next_token s := mkSession id name Authenticated]> (sessions s))
        (next_token s + 1) (gauge s)
    | Err _ => s
    end
  | Number t =>
    match sessions s !! t with
    | Some (mkSession _ _ Authenticated) =>
      let (sid, c) := next_session_id (clients s) in
      mkServer (db s) c (set_phase s t (Numbered sid)) (next_token s) (gauge s)
    | _ => s
    end
  | Register t =>
    match sessions s !! t with
    | Some (mkSession id name (Numbered sid)) =>
      mkServer (db s) (register (clients s) id name t sid) (set_phase s t (Live sid)) (next_token s)
        (gauge s + 1)
    | _ => s
    end
  | Hello t caps version =>
    match sessions s !! t with
    | Some (mkSession id _ (Live sid)) => set_clients s (hello (clients s) id sid caps version)
    | _ => s
    end
  | Close t =>
    match sessions s !! t with
    | Some (mkSession id _ (Live sid)) =>
      mkServer (db s) (unregister (clients s) id sid) (set_phase s t Over) (next_token s) (gauge s - 1)
    | _ => s
    end
  | Disconnect id => set_clients s (disconnect (clients s) id).2
  | DisconnectByName name => set_clients s (disconnect_by_name (clients s) name).2
  | Shutdown => set_clients s (shutdown (clients s))
  end.

Definition run (s : Server) (es : list Event) : Server := foldl step s es.

(** [revoke_by_id] of the operator: the transaction, then the disconnect. *)
Definition revoke_by_id (id now : Z) : list Event :=
  [Store (ClientTokens.OpRevokeById id now); Disconnect id].

Definition revoke_by_name (name : list Z) (now : Z) : list Event :=
  [Store (ClientTokens.OpRevoke name now); DisconnectByName name].

(** [enroll]: the redeem, and a disconnect when it rotated a credential. *)
Definition enroll (s : Server) (code : list Z) (now : Z) (token : list Z) (minted : Z)
  (legacy : Result (list Z) ClientTokens.RedeemError) : list Event :=
  Store (ClientTokens.OpRedeem code now token minted legacy) ::
  match (ClientTokens.redeem hash_token (db s) code now token minted legacy).1 with
  | Ok out => if ClientTokens.rotated_existing out then [Disconnect (ClientTokens.out_client out)] else []
  | Err _ => []
  end.

(** ** Invariant *)

Definition sid_of (x : Session) : option Z :=
  match s_phase x with Numbered sid | Live sid => Some sid | _ => None end.

Definition live (x : Session) : Prop := exists sid, s_phase x = Live sid.

#[export] Instance live_dec x : Decision (live x).
Proof.
  destruct (s_phase x) eqn:E; [right|right|left|right]; unfold live; rewrite E; [by intros []..|eauto|by intros []].
Defined.

Record wf (s : Server) : Prop := mkWf {
  wf_db : ClientTokens.wf (db s);
  wf_next : 0 <= next_session (clients s);
  wf_tokens : forall t x, sessions s !! t = Some x -> t < next_token s;
  wf_sids : forall t x sid, sessions s !! t = Some x -> sid_of x = Some sid -> sid < next_session (clients s);
  wf_sid_unique : forall t u x y sid, sessions s !! t = Some x -> sessions s !! u = Some y ->
    sid_of x = Some sid -> sid_of y = Some sid -> t = u;
  wf_entry : forall id c, inner (clients s) !! id = Some c ->
    sessions s !! cancel_token c = Some (mkSession id (client_name c) (Live (session_id c)));
  wf_live : forall t id n sid, sessions s !! t = Some (mkSession id n (Live sid)) ->
    t ∈ cancelled (clients s) \/ exists c, inner (clients s) !! id = Some c /\ cancel_token c = t;
  wf_cancelled : forall t, t ∈ cancelled (clients s) ->
    exists x, sessions s !! t = Some x /\ (live x \/ s_phase x = Over);
  wf_gauge : gauge s = Z.of_nat (size (filter (fun kv => live kv.2) (sessions s)));
}.

Definition init (d : ClientTokens.Db) : Server := mkServer d empty ∅ 0 0.

Lemma wf_init d : ClientTokens.wf d -> wf (init d).
Proof.
  intros H. split; simpl; [done|done|intros ? ?..|]; rewrite ?lookup_empty; try done.
Qed.

(** *** The registry operations on the two views *)

Lemma hello_inner c id sid caps version :
  inner (hello c id sid caps version) = inner c \/
  exists e e', inner c !! id = Some e /\ session_id e = sid /\
    inner (hello c id sid caps version) = <[id := e']> (inner c) /\
    cancel_token e' = cancel_token e /\ session_id e' = session_id e /\ client_name e' = client_name e.
Proof.
  unfold hello, set_supported_protocols, set_client_version, update_session.
  destruct (inner c !! id) as [e|] eqn:E; [|left; simpl; case_bool_decide; simpl; rewrite ?E; done].
  destruct (session_id e =? sid) eqn:Es.
  - right. simpl. case_bool_decide; simpl.
    + eexists e, _. split_and!; [done|lia|done|done..].
    + rewrite lookup_insert_eq. simpl. rewrite Es. simpl. rewrite insert_insert_eq.
      eexists e, _. split_and!; [done|lia|done|done..].
  - left. simpl. case_bool_decide; simpl; [done|]. by rewrite E, Es.
Qed.

Lemma hello_rest c id sid caps version :
  cancelled (hello c id sid caps version) = cancelled c /\
  next_session (hello c id sid caps version) = next_session c /\
  session_root (hello c id sid caps version) = session_root c.
Proof. unfold hello, set_supported_protocols, set_client_version, update_session. repeat (case_match; simpl); done. Qed.

(** Only the phases change under [set_phase]. *)
Lemma set_phase_lookup s t p u :
  set_phase s t p !! u =
    if decide (t = u) then (fun x => mkSession (s_client x) (s_name x) p) <$> sessions s !! u
    else sessions s !! u.
Proof. unfold set_phase. case_decide as E; [subst; by rewrite lookup_alter_eq|by rewrite lookup_alter_ne]. Qed.

Lemma set_phase_insert s t p x :
  sessions s !! t = Some x -> set_phase s t p = <[t := mkSession (s_client x) (s_name x) p]> (sessions s).
Proof. intros H. unfold set_phase. by rewrite (ClientTokens.alter_present _ _ _ _ H). Qed.

Lemma live_count (m : gmap Z Session) t x :
  (size (filter (fun kv => live kv.2) (<[t := x]> m)) =
   size (filter (fun kv => live kv.2) (delete t m)) + if decide (live x) then 1 else 0)%nat.
Proof.
  case_decide as H.
  - rewrite map_filter_insert_True by done. rewrite <- insert_delete_eq, <- map_filter_delete.
    rewrite map_size_insert_None; [lia|]. by rewrite map_filter_delete, lookup_delete_eq.
  - rewrite map_filter_insert_False by done. lia.
Qed.

Lemma live_count_change (m : gmap Z Session) t x y :
  m !! t = Some x ->
  Z.of_nat (size (filter (fun kv => live kv.2) (<[t := y]> m))) =
  Z.of_nat (size (filter (fun kv => live kv.2) m)) +
    (if decide (live y) then 1 else 0) - (if decide (live x) then 1 else 0).
Proof.
  intros H. rewrite live_count. rewrite <- (insert_id m t x H) at 2. rewrite live_count.
  repeat case_decide; lia.
Qed.

(** A change of the registry that keeps the sessions, and the entries up to
    capabilities, and cancels only registered sessions. *)
Lemma wf_clients s c :
  wf s -> next_session c = next_session (clients s) ->
  (forall id e, inner c !! id = Some e -> exists e0, inner (clients s) !! id = Some e0 /\
     cancel_token e = cancel_token e0 /\ session_id e = session_id e0 /\ client_name e = client_name e0) ->
  (forall id e0, inner (clients s) !! id = Some e0 -> exists e, inner c !! id = Some e /\
     cancel_token e = cancel_token e0) ->
  (forall t, t ∈ cancelled (clients s) -> t ∈ cancelled c) ->
  (forall t, t ∈ cancelled c -> t ∈ cancelled (clients s) \/
     exists id e, inner (clients s) !! id = Some e /\ cancel_token e = t) ->
  wf (set_clients s c).
Proof.
  intros [] Hn Hin Hin' Hc Hc'. split; simpl; auto.
  - by rewrite Hn.
  - intros t x sid. rewrite Hn. eauto.
  - intros id e (e0 & He & -> & -> & ->)%Hin. auto.
  - intros t id n sid [?|(e0 & (e & ? & ?)%Hin' & <-)]%wf_live0; [eauto|]. right. exists e. eauto.
  - intros t [?|(id & e & He & <-)]%Hc'; [eauto|]. eexists. split; [by apply wf_entry0|].
    left. eexists. done.
Qed.

Lemma wf_disconnect s id : wf s -> wf (set_clients s (disconnect (clients s) id).2).
Proof.
  intros H. unfold disconnect. destruct (inner (clients s) !! id) as [e|] eqn:E; simpl.
  - apply wf_clients; simpl; eauto; [set_solver|]. intros t. rewrite elem_of_union, elem_of_singleton.
    intros [->|?]; eauto.
  - apply wf_clients; simpl; eauto.
Qed.

Lemma wf_disconnect_by_name s name : wf s -> wf (set_clients s (disconnect_by_name (clients s) name).2).
Proof.
  intros H. apply wf_clients; simpl; eauto; [set_solver|]. intros t.
  rewrite elem_of_union, elem_of_list_to_set. intros [Ht|?]; [|eauto]. right.
  apply list_elem_of_fmap in Ht as ([id e] & -> & Hin%list_elem_of_filter).
  destruct Hin as [_ Hin%elem_of_map_to_list]. eauto.
Qed.

Lemma wf_hello s t id n sid caps version :
  wf s -> sessions s !! t = Some (mkSession id n (Live sid)) ->
  wf (set_clients s (hello (clients s) id sid caps version)).
Proof.
  intros H Ht. destruct (hello_rest (clients s) id sid caps version) as (Hc & Hn & _).
  apply wf_clients; rewrite ?Hc; eauto;
    destruct (hello_inner (clients s) id sid caps version) as [->|(e & e' & He & _ & -> & ? & ? & ?)]; eauto.
  - intros i a. rewrite lookup_insert_Some. intros [[<- <-]|[? ?]]; eauto 8.
  - intros i a Hi. destruct (decide (id = i)) as [<-|].
    + rewrite lookup_insert_eq. eexists. split; [done|]. congruence.
    + rewrite lookup_insert_ne by done. eauto.
Qed.

Lemma wf_store s o :
  wf s -> wf (mkServer (ClientTokens.apply hash_token (db s) o) (clients s) (sessions s) (next_token s) (gauge s)).
Proof. intros []. split; simpl; auto. by apply ClientTokens.wf_apply. Qed.

(** A session in its first phases is in no registry entry and not cancelled. *)
Lemma early_not_entry s t x id c :
  wf s -> sessions s !! t = Some x -> ~ live x -> inner (clients s) !! id = Some c -> cancel_token c <> t.
Proof.
  intros H Ht Hx Hc <-. pose proof (wf_entry s H id c Hc) as E. rewrite Ht in E. injection E as ->.
  apply Hx. by eexists.
Qed.

Lemma wf_connect s id name :
  wf s ->
  wf (mkServer (db s) (clients s) (<[next_token s := mkSession id name Authenticated]> (sessions s))
        (next_token s + 1) (gauge s)).
Proof.
  intros H. assert (Hn : sessions s !! next_token s = None).
  { apply eq_None_not_Some. intros [x Hx]. apply (wf_tokens s H) in Hx. lia. }
  assert (Hlive : ~ live (mkSession id name Authenticated)) by (by intros []).
  destruct H. split; simpl; auto.
  - intros t x. rewrite lookup_insert_Some. intros [[<- <-]|[? Hx]]; [lia|]. apply wf_tokens0 in Hx. lia.
  - intros t x sid. rewrite lookup_insert_Some. intros [[<- <-]|[? ?]]; [done|eauto].
  - intros t u x y sid. rewrite !lookup_insert_Some. intros [[<- <-]|[? ?]] [[<- <-]|[? ?]]; naive_solver.
  - intros i c Hc. rewrite lookup_insert_ne; [auto|]. intros E. apply wf_entry0 in Hc. congruence.
  - intros t i n sid. rewrite lookup_insert_Some. intros [[<- ?]|[? ?]]; [done|eauto].
  - intros t Ht. destruct (wf_cancelled0 t Ht) as (x & Hx & ?). exists x. split; [|done].
    rewrite lookup_insert_ne; [done|congruence].
  - rewrite live_count, decide_False by done. rewrite delete_id by done. rewrite wf_gauge0. lia.
Qed.

Lemma wf_number s t id name :
  wf s -> next_session (clients s) + 1 <= u64_max ->
  sessions s !! t = Some (mkSession id name Authenticated) ->
  wf (mkServer (db s) (next_session_id (clients s)).2 (set_phase s t (Numbered (next_session (clients s))))
        (next_token s) (gauge s)).
Proof.
  intros H Hmax Ht. pose proof (wf_next s H) as H0.
  assert (Hlive : ~ live (mkSession id name Authenticated)) by (by intros []).
  assert (Hlive' : ~ live (mkSession id name (Numbered (next_session (clients s))))) by (by intros []).
  rewrite (set_phase_insert _ _ _ _ Ht). simpl.
  assert (Hw : wrap_u64 (next_session (clients s) + 1) = next_session (clients s) + 1).
  { unfold wrap_u64, u64_max in *. apply Z.mod_small. lia. }
  pose proof H as []. split; simpl; auto.
  - lia.
  - intros u x. rewrite lookup_insert_Some. intros [[<- <-]|[? ?]]; eauto.
  - rewrite Hw. intros u x sid. rewrite lookup_insert_Some. intros [[<- <-]|[? Hu]].
    + intros [= <-]. lia.
    + intros E. specialize (wf_sids0 u x sid Hu E). lia.
  - intros u v x y sid. rewrite !lookup_insert_Some.
    intros [[<- <-]|[? Hu]] [[<- <-]|[? Hv]]; [done|..|eauto].
    + intros [= <-] E. specialize (wf_sids0 _ _ _ Hv E). lia.
    + intros E [= <-]. specialize (wf_sids0 _ _ _ Hu E). lia.
  - intros i c Hc. rewrite lookup_insert_ne; [auto|]. intros E. by apply (early_not_entry s t _ i c H Ht Hlive Hc).
  - intros u i n sid. rewrite lookup_insert_Some. intros [[<- ?]|[? ?]]; [done|eauto].
  - intros u Hu. destruct (wf_cancelled0 u Hu) as (x & Hx & Hd). exists x. split; [|done].
    rewrite lookup_insert_ne; [done|]. intros <-. rewrite Ht in Hx. injection Hx as <-.
    by destruct Hd as [[]|].
  - rewrite (live_count_change _ _ _ _ Ht), !decide_False by done. lia.
Qed.

Lemma register_inner c id name t sid :
  inner (register c id name t sid) = <[id := mkConnected name t sid [Tcp] None]> (inner c) /\
  next_session (register c id name t sid) = next_session c /\
  session_root (register c id name t sid) = session_root c /\
  cancelled (register c id name t sid) =
    match inner c !! id with Some prev => {[cancel_token prev]} | None => ∅ end ∪ cancelled c.
Proof. unfold register. destruct (inner c !! id); simpl; split_and!; auto. set_solver. Qed.

Lemma wf_register s t id name sid :
  wf s -> sessions s !! t = Some (mkSession id name (Numbered sid)) ->
  wf (mkServer (db s) (register (clients s) id name t sid) (set_phase s t (Live sid)) (next_token s)
        (gauge s + 1)).
Proof.
  intros H Ht. destruct (register_inner (clients s) id name t sid) as (Hi & Hn & _ & Hc).
  assert (Hlive : ~ live (mkSession id name (Numbered sid))) by (by intros []).
  assert (Hlive' : live (mkSession id name (Live sid))) by (by eexists).
  rewrite (set_phase_insert _ _ _ _ Ht). simpl.
  pose proof H as []. split; simpl; rewrite ?Hi, ?Hn, ?Hc; auto.
  - intros u x. rewrite lookup_insert_Some. intros [[<- <-]|[? ?]]; eauto.
  - intros u x k. rewrite lookup_insert_Some. intros [[<- <-]|[? ?]]; [|eauto].
    intros [= <-]. by apply (wf_sids0 t _ sid Ht).
  - intros u v x y k. rewrite !lookup_insert_Some.
    intros [[<- <-]|[? Hu]] [[<- <-]|[? Hv]]; [done|..|eauto].
    + intros [= <-] E. by apply (wf_sid_unique0 t v _ _ sid Ht Hv).
    + intros E [= <-]. by apply (wf_sid_unique0 u t _ _ sid Hu Ht).
  - intros i c. rewrite lookup_insert_Some. intros [[<- <-]|[? Hic]]; [by rewrite lookup_insert_eq|].
    rewrite lookup_insert_ne; [auto|]. intros E. by apply (early_not_entry s t _ i c H Ht Hlive Hic).
  - intros u i n k. rewrite lookup_insert_Some. intros [[<- [= <- <- <-]]|[? Hu]].
    + right. eexists. by rewrite lookup_insert_eq.
    + destruct (wf_live0 u i n k Hu) as [?|(c & Hic & Hcu)]; [left; set_solver|].
      destruct (decide (id = i)) as [<-|].
      * left. rewrite Hic, Hcu. set_solver.
      * right. exists c. by rewrite lookup_insert_ne.
  - intros u Hu. assert (Hd : u ∈ cancelled (clients s) \/ exists c, inner (clients s) !! id = Some c /\ cancel_token c = u).
    { destruct (inner (clients s) !! id) as [c|] eqn:E; set_solver. }
    destruct (decide (t = u)) as [<-|Hne].
    + rewrite lookup_insert_eq. eexists. split; [done|by left].
    + rewrite lookup_insert_ne by done. destruct Hd as [Hd|(c & Hic & <-)]; [by apply wf_cancelled0|].
      eexists. split; [by apply wf_entry0|]. left. by eexists.
  - rewrite (live_count_change _ _ _ _ Ht), decide_True, decide_False by done. lia.
Qed.

Lemma wf_close s t id name sid :
  wf s -> sessions s !! t = Some (mkSession id name (Live sid)) ->
  wf (mkServer (db s) (unregister (clients s) id sid) (set_phase s t Over) (next_token s) (gauge s - 1)).
Proof.
  intros H Ht.
  assert (Hlive : live (mkSession id name (Live sid))) by (by eexists).
  assert (Hlive' : ~ live (mkSession id name Over)) by (by intros []).
  assert (Hr : next_session (unregister (clients s) id sid) = next_session (clients s) /\
    cancelled (unregister (clients s) id sid) = cancelled (clients s)).
  { unfold unregister. by repeat case_match. }
  destruct Hr as [Hn Hc]. pose proof H as [].
  assert (Hi : forall i c, inner (unregister (clients s) id sid) !! i = Some c <->
    inner (clients s) !! i = Some c /\ cancel_token c <> t).
  { intros i c. unfold unregister. destruct (inner (clients s) !! id) as [e|] eqn:E.
    - destruct (session_id e =? sid) eqn:Es; simpl.
      + apply Z.eqb_eq in Es. rewrite lookup_delete_Some. split; intros [? Hic]; split; auto.
        * intros Hct. apply wf_entry0 in Hic. rewrite Hct, Ht in Hic. congruence.
        * intros <-. rewrite E in *. simplify_eq. apply wf_entry0 in E.
          by apply Hic, (wf_sid_unique0 _ _ _ _ (session_id c) E Ht).
      + apply Z.eqb_neq in Es. split; [|by intros [? _]]. intros Hic. split; [done|].
        intros Hct. apply wf_entry0 in Hic as Hx. rewrite Hct, Ht in Hx. congruence.
    - split; [|by intros [? _]]. intros Hic. split; [done|].
      intros Hct. apply wf_entry0 in Hic as Hx. rewrite Hct, Ht in Hx. congruence. }
  rewrite (set_phase_insert _ _ _ _ Ht). simpl. split; simpl; rewrite ?Hn, ?Hc; auto.
  - intros u x. rewrite lookup_insert_Some. intros [[<- <-]|[? ?]]; eauto.
  - intros u x k. rewrite lookup_insert_Some. intros [[<- <-]|[? ?]]; [done|eauto].
  - intros u v x y k. rewrite !lookup_insert_Some. intros [[<- <-]|[? ?]] [[<- <-]|[? ?]]; naive_solver.
  - intros i c [Hic Hne]%Hi. rewrite lookup_insert_ne by done. auto.
  - intros u i n k. rewrite lookup_insert_Some. intros [[? ?]|[Hne Hu]]; [done|].
    destruct (wf_live0 u i n k Hu) as [?|(c & Hic & <-)]; [by left|]. right. exists c. rewrite Hi. done.
  - intros u Hu. destruct (wf_cancelled0 u Hu) as (x & Hx & Hd). destruct (decide (t = u)) as [<-|].
    + rewrite lookup_insert_eq. eexists. split; [done|by right].
    + rewrite lookup_insert_ne by done. eauto.
  - rewrite (live_count_change _ _ _ _ Ht), decide_False, decide_True by done. lia.
Qed.

Lemma unregister_next c id sid : next_session (unregister c id sid) = next_session c.
Proof. unfold unregister. by repeat case_match. Qed.

Lemma wf_step s e : wf s -> next_session (clients s) + 1 <= u64_max -> wf (step s e).
Proof.
  intros H Hmax. destruct e; simpl.
  - by apply wf_store.
  - destruct (Interceptor.intercept _ _ _) as [[id name]|]; [by apply wf_connect|done].
  - destruct (sessions s !! t) as [[id name []]|] eqn:E; try done. by eapply (wf_number s t).
  - destruct (sessions s !! t) as [[id name []]|] eqn:E; try done. by eapply (wf_register s t).
  - destruct (sessions s !! t) as [[id name []]|] eqn:E; try done. by eapply (wf_hello s t).
  - destruct (sessions s !! t) as [[id name []]|] eqn:E; try done. by eapply (wf_close s t).
  - by apply wf_disconnect.
  - by apply wf_disconnect_by_name.
  - apply wf_clients; simpl; eauto.
Qed.

Lemma step_next s e : wf s -> next_session (clients s) + 1 <= u64_max ->
  next_session (clients (step s e)) <= next_session (clients s) + 1.
Proof.
  intros H Hmax. pose proof (wf_next s H) as H0. destruct e; simpl; try lia.
  - repeat case_match; simpl; lia.
  - destruct (sessions s !! t) as [[id name []]|]; simpl; try lia.
    unfold wrap_u64, u64_max in *. rewrite Z.mod_small; lia.
  - destruct (sessions s !! t) as [[id name []]|]; simpl; try lia.
    destruct (register_inner (clients s) id name t sid) as (_ & -> & _). lia.
  - destruct (sessions s !! t) as [[id name []]|]; simpl; try lia.
    destruct (hello_rest (clients s) id sid caps version) as (_ & -> & _). lia.
  - destruct (sessions s !! t) as [[id name []]|]; simpl; try lia. rewrite unregister_next. lia.
  - unfold disconnect. case_match; simpl; lia.
Qed.

(** Fewer than [2^64] events cannot make a session id come twice. *)
Definition fits (s : Server) (es : list Event) : Prop :=
  next_session (clients s) + Z.of_nat (length es) <= u64_max.

Lemma fits_step s e es : wf s -> fits s (e :: es) -> next_session (clients s) + 1 <= u64_max /\ fits (step s e) es.
Proof.
  unfold fits. intros H Hf. cbn [length] in Hf. rewrite Nat2Z.inj_succ in Hf.
  pose proof (step_next s e H). lia.
Qed.

Lemma wf_run s es : wf s -> fits s es -> wf (run s es).
Proof.
  revert s. induction es as [|e es IH]; intros s H Hf; [done|].
  destruct (fits_step s e es H Hf). by apply IH; [apply wf_step|].
Qed.

Lemma fits_app s es es' : wf s -> fits s (es ++ es') -> fits (run s es) es'.
Proof.
  revert s. induction es as [|e es IH]; intros s H Hf; [done|].
  destruct (fits_step s e (es ++ es') H Hf). by apply IH; [apply wf_step|].
Qed.

(** A property of the state that every step keeps. *)
Lemma run_inv (P : Server -> Prop) (Q : Event -> Prop) s es :
  (forall s e, wf s -> Q e -> P s -> P (step s e)) ->
  wf s -> fits s es -> Forall Q es -> P s -> P (run s es).
Proof.
  intros Hstep. revert s. induction es as [|e es IH]; intros s H Hf HQ HP; [done|].
  apply Forall_cons in HQ as [? ?]. destruct (fits_step s e es H Hf).
  apply IH; auto using wf_step.
Qed.

(** ** Theorems *)

(** C20. One live session per client: from an empty registry and whatever the
    interleaving of connections, hellos, disconnects and terminations, of two
    registered sessions of one client at least one has its cancellation token
    fired; the session the registry shows is registered under its own id and
    number; and [clients_connected] counts the registered sessions. *)
Theorem one_live_session (d : ClientTokens.Db) (es : list Event) :
  ClientTokens.wf d -> fits (init d) es ->
  let s := run (init d) es in
  (forall t u id n m sid sid', sessions s !! t = Some (mkSession id n (Live sid)) ->
     sessions s !! u = Some (mkSession id m (Live sid')) ->
     t = u \/ t ∈ cancelled (clients s) \/ u ∈ cancelled (clients s)) /\
  (forall id c, inner (clients s) !! id = Some c ->
     sessions s !! cancel_token c = Some (mkSession id (client_name c) (Live (session_id c)))) /\
  gauge s = Z.of_nat (size (filter (fun kv => live kv.2) (sessions s))).
Proof.
  intros Hd Hf s. assert (H : wf s) by (apply wf_run; auto using wf_init).
  split_and!; [|apply (wf_entry s H)|apply (wf_gauge s H)].
  intros t u id n m sid sid' Ht Hu.
  destruct (wf_live s H _ _ _ _ Ht) as [?|(c & Hc & <-)]; [auto|].
  destruct (wf_live s H _ _ _ _ Hu) as [?|(c' & Hc' & <-)]; [auto|].
  left. congruence.
Qed.

(** What a session writes about itself stays with it: a [Hello] (and the
    end) of a session changes no entry of the registry but its own, also when
    another session of the same client has replaced it. *)
Theorem session_writes_own_entry (s : Server) (t : Z) (caps : list Protocol) (version : list Z) (id : Z)
  (c : ConnectedClient) :
  wf s -> inner (clients s) !! id = Some c -> cancel_token c <> t ->
  inner (clients (step s (Hello t caps version))) !! id = Some c /\
  inner (clients (step s (Close t))) !! id = Some c.
Proof.
  intros H Hc Hne. simpl. destruct (sessions s !! t) as [[i n [| |sid|]]|] eqn:E; try done. simpl.
  assert (Hsid : forall e, inner (clients s) !! i = Some e -> session_id e = sid -> i <> id).
  { intros e He <- ->. rewrite Hc in He. injection He as <-. apply Hne.
    by apply (wf_sid_unique s H _ _ _ _ (session_id c) (wf_entry s H id c Hc) E). }
  split.
  - destruct (hello_inner (clients s) i sid caps version) as [->|(e & e' & He & Hs & -> & _)]; [done|].
    rewrite lookup_insert_ne; [done|]. eauto.
  - unfold unregister. destruct (inner (clients s) !! i) as [e|] eqn:He; [|done].
    destruct (session_id e =? sid) eqn:Hs; [|done]. simpl. apply Z.eqb_eq in Hs.
    rewrite lookup_delete_ne; [done|]. eauto.
Qed.

(** *** Revocation reaches the sessions *)

Definition quiet (id : Z) (e : Event) : Prop :=
  match e with Store o => ClientTokens.leaves_out id o | _ => True end.

(** No connection of the client is between its authentication and its
    registration. *)
Definition none_arriving (id : Z) (s : Server) : Prop :=
  forall t x, sessions s !! t = Some x -> s_client x = id -> live x \/ s_phase x = Over.

Definition shut_out (id : Z) (s : Server) : Prop :=
  ClientTokens.locked_out id (db s) /\ none_arriving id s.

Definition all_cancelled (id : Z) (s : Server) : Prop :=
  forall t n sid, sessions s !! t = Some (mkSession id n (Live sid)) -> t ∈ cancelled (clients s).

Lemma intercept_ok_inv d h id n :
  ClientTokens.wf d -> Interceptor.intercept hash_token d h = Ok (id, n) ->
  exists r, ClientTokens.tokens d !! id = Some r /\ ClientTokens.revoked_at r = None.
Proof.
  intros Hwf. unfold Interceptor.intercept. repeat case_match; try done. intros [= ->].
  match goal with H : ClientTokens.verify _ _ _ = Ok _ |- _ =>
    apply ClientTokens.verify_ok_inv in H as (r & ? & _ & ? & _); [eauto|done] end.
Qed.

Lemma shut_out_step id s e : wf s -> quiet id e -> shut_out id s -> shut_out id (step s e).
Proof.
  intros H Hq [Hl Hn]. destruct e; simpl in *; try done.
  - split; [|done]. apply ClientTokens.locked_out_apply; [apply (wf_db s H)|done..].
  - destruct (Interceptor.intercept _ _ _) as [[i n]|] eqn:E; [|done]. split; [done|].
    intros t x. simpl. rewrite lookup_insert_Some. intros [[<- <-]|[? ?]]; [|eauto]. simpl. intros ->.
    apply intercept_ok_inv in E as (r & Hr & Hrev); [|apply (wf_db s H)]. by destruct (proj1 Hl r Hr).
  - destruct (sessions s !! t) as [[i n []]|] eqn:E; try done. split; [done|]. intros u x. simpl.
    rewrite (set_phase_insert _ _ _ _ E), lookup_insert_Some. intros [[<- <-]|[? ?]]; [|eauto].
    simpl. intros ->. by destruct (Hn t _ E eq_refl) as [[]|].
  - destruct (sessions s !! t) as [[i n []]|] eqn:E; try done. split; [done|]. intros u x. simpl.
    rewrite (set_phase_insert _ _ _ _ E), lookup_insert_Some. intros [[<- <-]|[? ?]]; [|eauto].
    intros _. left. by eexists.
  - destruct (sessions s !! t) as [[i n []]|] eqn:E; done.
  - destruct (sessions s !! t) as [[i n []]|] eqn:E; try done. split; [done|]. intros u x. simpl.
    rewrite (set_phase_insert _ _ _ _ E), lookup_insert_Some. intros [[<- <-]|[? ?]]; [|eauto].
    intros _. by right.
Qed.

Lemma cancelled_mono s e t : t ∈ cancelled (clients s) -> t ∈ cancelled (clients (step s e)).
Proof.
  intros Ht. destruct e; simpl; try done.
  - by repeat case_match.
  - destruct (sessions s !! t0) as [[i n []]|]; done.
  - destruct (sessions s !! t0) as [[i n []]|]; try done. simpl.
    destruct (register_inner (clients s) i n t0 sid) as (_ & _ & _ & ->). set_solver.
  - destruct (sessions s !! t0) as [[i n []]|]; try done. simpl.
    by destruct (hello_rest (clients s) i sid caps version) as (-> & _).
  - destruct (sessions s !! t0) as [[i n []]|]; try done. simpl. unfold unregister. by repeat case_match.
  - unfold disconnect. case_match; simpl; set_solver.
  - set_solver.
Qed.

Lemma all_cancelled_step id s e :
  wf s -> quiet id e -> shut_out id s /\ all_cancelled id s -> shut_out id (step s e) /\ all_cancelled id (step s e).
Proof.
  intros H Hq [Hs Ha]. split; [by apply shut_out_step|]. intros t n sid Ht.
  apply cancelled_mono. destruct e; simpl in *; try by eapply Ha.
  - destruct (Interceptor.intercept _ _ _) as [[i m]|]; [|by eapply Ha]. simpl in Ht.
    apply lookup_insert_Some in Ht as [[_ ?]|[_ ?]]; [done|by eapply Ha].
  - destruct (sessions s !! t0) as [[i m []]|] eqn:E; simpl in Ht; try by eapply Ha.
    rewrite (set_phase_insert _ _ _ _ E) in Ht.
    apply lookup_insert_Some in Ht as [[_ ?]|[_ ?]]; [done|by eapply Ha].
  - destruct (sessions s !! t0) as [[i m []]|] eqn:E; simpl in Ht; try by eapply Ha.
    rewrite (set_phase_insert _ _ _ _ E) in Ht.
    apply lookup_insert_Some in Ht as [[<- [= <- <- <-]]|[_ ?]]; [|by eapply Ha].
    by destruct (proj2 Hs _ _ E eq_refl) as [[]|].
  - destruct (sessions s !! t0) as [[i m []]|] eqn:E; simpl in Ht; by eapply Ha.
  - destruct (sessions s !! t0) as [[i m []]|] eqn:E; simpl in Ht; try by eapply Ha.
    rewrite (set_phase_insert _ _ _ _ E) in Ht.
    apply lookup_insert_Some in Ht as [[_ ?]|[_ ?]]; [done|by eapply Ha].
Qed.

Lemma disconnect_cancels s id : wf s -> all_cancelled id (step s (Disconnect id)).
Proof.
  intros H t n sid Ht. simpl in *. destruct (wf_live s H _ _ _ _ Ht) as [?|(c & Hc & <-)].
  - by apply (cancelled_mono s (Disconnect id)).
  - unfold disconnect. rewrite Hc. simpl. set_solver.
Qed.

(** C16. Revoking a client by id ends its sessions for good: when no
    connection of it is just arriving and no enrolment code of it is
    outstanding, then after the revocation and its disconnect, whatever ran in
    between and whatever runs afterwards (other than issuing to the client or
    creating a code for it), every session of the client is over or has its
    cancellation token fired, and no connection of it is admitted. *)
Theorem revoke_ends_sessions (s : Server) (id now : Z) (es es' : list Event) :
  wf s -> none_arriving id s ->
  map_Forall (fun _ e => ClientTokens.consumed_at e = None ->
    exists c, ClientTokens.client_id e = Some c /\ c <> id) (ClientTokens.enrollments (db s)) ->
  Forall (quiet id) es -> Forall (quiet id) es' ->
  fits s (Store (ClientTokens.OpRevokeById id now) :: es ++ Disconnect id :: es') ->
  let s' := run s (Store (ClientTokens.OpRevokeById id now) :: es ++ Disconnect id :: es') in
  none_arriving id s' /\ all_cancelled id s'.
Proof.
  intros H Hn Hm He He' Hf s'. set (s1 := step s (Store (ClientTokens.OpRevokeById id now))).
  assert (H1 : wf s1) by by apply wf_store.
  assert (Hs1 : shut_out id s1).
  { split; [|done]. split; [|done]. intros r. simpl. rewrite lookup_alter_Some.
    intros [(_ & a & _ & ->)|[? _]]; [apply ClientTokens.revoked_at_revoked|done]. }
  apply fits_step in Hf as [_ Hf]; [|done]. fold s1 in Hf.
  assert (Hf1 : fits s1 es) by (unfold fits in *; rewrite length_app in Hf; lia).
  pose proof (wf_run s1 es H1 Hf1) as H2.
  pose proof (run_inv _ _ _ es (shut_out_step id) H1 Hf1 He Hs1) as Hs2.
  assert (Hf2 : fits (run s1 es) (Disconnect id :: es')) by (by apply fits_app).
  apply fits_step in Hf2 as [Hmax Hf3]; [|done].
  assert (Hr : s' = run (step (run s1 es) (Disconnect id)) es').
  { unfold s', run. simpl. by rewrite foldl_app. }
  rewrite Hr. destruct (run_inv _ _ _ es' (all_cancelled_step id) (wf_step _ (Disconnect id) H2 Hmax) Hf3 He')
    as [[_ ?] ?]; [|done].
  split; [by apply shut_out_step|by apply disconnect_cancels].
Qed.

(** The race the revocation leaves open: a connection that was
    authenticated before the revocation and registers after the disconnect is
    registered with a live cancellation token, although its client is
    revoked. *)
Theorem revoked_connection_slips_in (s : Server) (t id now : Z) (n : list Z) :
  wf s -> next_session (clients s) + 4 <= u64_max ->
  sessions s !! t = Some (mkSession id n Authenticated) -> session_root (clients s) = false ->
  let s' := run s (revoke_by_id id now ++ [Number t; Register t]) in
  (exists sid, sessions s' !! t = Some (mkSession id n (Live sid))) /\
  ~ is_cancelled (clients s') t /\
  forall r, ClientTokens.tokens (db s') !! id = Some r -> ClientTokens.revoked_at r <> None.
Proof.
  intros H Hmax Ht Hroot. unfold run, revoke_by_id. cbn [app foldl].
  set (s2 := step (step s (Store (ClientTokens.OpRevokeById id now))) (Disconnect id)).
  assert (Hs2 : sessions s2 !! t = Some (mkSession id n Authenticated)) by exact Ht.
  assert (Hn2 : next_session (clients s2) = next_session (clients s) /\ session_root (clients s2) = false).
  { unfold s2. simpl. unfold disconnect. by case_match. }
  assert (H2 : wf s2) by (apply wf_disconnect, (wf_store s (ClientTokens.OpRevokeById id now) H)).
  assert (Hdb2 : db s2 = (ClientTokens.revoke_by_id (db s) id now).2) by done.
  clearbody s2. set (s3 := step s2 (Number t)).
  assert (H3 : wf s3) by (apply wf_step; [done|lia]).
  assert (Hs3 : sessions s3 !! t = Some (mkSession id n (Numbered (next_session (clients s2))))).
  { unfold s3. simpl. rewrite Hs2. simpl. by rewrite (set_phase_insert _ _ _ _ Hs2), lookup_insert_eq. }
  assert (Hr3 : session_root (clients s3) = false /\ db s3 = (ClientTokens.revoke_by_id (db s) id now).2).
  { unfold s3. simpl. rewrite Hs2. by split; [apply Hn2|]. }
  clearbody s3. destruct Hr3 as [Hr3 Hdb]. cbn [step]. rewrite Hs3. simpl.
  destruct (register_inner (clients s3) id n t (next_session (clients s2))) as (_ & _ & Hroot' & Hc).
  split_and!.
  - exists (next_session (clients s2)). by rewrite (set_phase_insert _ _ _ _ Hs3), lookup_insert_eq.
  - unfold is_cancelled. rewrite Hroot', Hc, Hr3. intros [Hin|]; [|done].
    assert (Hlive : ~ live (mkSession id n (Numbered (next_session (clients s2))))) by (by intros []).
    apply elem_of_union in Hin as [Hin|Hin].
    + destruct (inner (clients s3) !! id) as [c|] eqn:E; [|set_solver].
      apply elem_of_singleton in Hin. by apply (early_not_entry s3 t _ id c H3 Hs3 Hlive E).
    + destruct (wf_cancelled s3 H3 t Hin) as (x & Hx & Hd). rewrite Hs3 in Hx. injection Hx as <-.
      by destruct Hd as [[]|].
  - rewrite Hdb. intros r. simpl. rewrite lookup_alter_Some.
    intros [(_ & a & _ & ->)|[? _]]; [apply ClientTokens.revoked_at_revoked|done].
Qed.

(** Enrolling a client that exists ends its present sessions: after
    [enroll] succeeded with a rotated credential, every registered session of
    the client has its cancellation token fired, and its next connection with
    the token it had is refused as unknown. *)
Theorem enroll_ends_sessions (s : Server) (code : list Z) (now : Z) (token : list Z) (minted : Z)
  (legacy : Result (list Z) ClientTokens.RedeemError) (out : ClientTokens.IssuedClientCredential)
  (r : ClientTokens.TokenRow) (old : list Z) :
  wf s ->
  (ClientTokens.redeem hash_token (db s) code now token minted legacy).1 = Ok out ->
  ClientTokens.rotated_existing out = true ->
  ClientTokens.tokens (db s) !! ClientTokens.out_client out = Some r ->
  ClientTokens.token_hash r = ClientTokens.hash_hex hash_token old ->
  ClientTokens.hash_hex hash_token old <> ClientTokens.hash_hex hash_token token ->
  (1 <= str_len old <= 256)%nat ->
  let s' := run s (enroll s code now token minted legacy) in
  all_cancelled (ClientTokens.out_client out) s' /\
  ClientTokens.verify hash_token (db s') old = Err ClientTokens.NotFound.
Proof.
  intros H Hout Hrot Hr Hh Hne Hl. unfold enroll. rewrite Hout, Hrot. unfold run. cbn [foldl].
  split; [apply disconnect_cancels, wf_store, H|].
  assert (db (step (step s (Store (ClientTokens.OpRedeem code now token minted legacy)))
    (Disconnect (ClientTokens.out_client out))) =
    (ClientTokens.redeem hash_token (db s) code now token minted legacy).2) as -> by done.
  destruct (ClientTokens.redeem hash_token (db s) code now token minted legacy) as [res d] eqn:E.
  simpl in *. subst res. eapply ClientTokens.verify_rotated_away; eauto using wf_db.
Qed.
End Steps.

(** ** Witnesses *)

(** The tables after client 7 redeemed its code for [t0ken]. *)
Definition demo_tables : ClientTokens.Db :=
  (ClientTokens.demo_redeem ClientTokens.demo_db (lit "c0de")).2.

Lemma demo_tables_wf : ClientTokens.wf demo_tables.
Proof.
  apply (ClientTokens.wf_apply ClientTokens.plain ClientTokens.demo_db
    (ClientTokens.OpRedeem (lit "c0de") 200 (lit "t0ken") 9 (Err ClientTokens.AdvertisedEndpoint))).
  apply ClientTokens.demo_db_wf.
Qed.

Definition demo_connect : Event := Connect (Interceptor.Text (lit "Bearer t0ken")).

(** The client connects twice; the second session replaces the first. *)
Definition demo_twice : list Event :=
  [demo_connect; Number 0; Register 0; demo_connect; Number 1; Register 1].

Definition demo_server (es : list Event) : Server := run ClientTokens.plain (init demo_tables) es.

Lemma demo_server_wf : wf (demo_server demo_twice).
Proof. apply wf_run; [apply wf_init, demo_tables_wf|]. apply Z.leb_le; reflexivity. Qed.

Lemma one_live_session_witness :
  gauge (demo_server demo_twice) = 2 /\
  (0 = 1 \/ 0 ∈ cancelled (clients (demo_server demo_twice)) \/ 1 ∈ cancelled (clients (demo_server demo_twice))).
Proof.
  split; [reflexivity|].
  refine (proj1 (one_live_session ClientTokens.plain demo_tables demo_twice demo_tables_wf _)
    0 1 7 (lit "edge") (lit "edge") 0 1 eq_refl eq_refl).
  apply Z.leb_le; reflexivity.
Defined.

Lemma session_writes_own_entry_witness :
  inner (clients (step ClientTokens.plain (demo_server demo_twice) (Hello 0 [Udp] (lit "1.0")))) !! 7 =
    Some (mkConnected (lit "edge") 1 1 [Tcp] None).
Proof.
  refine (proj1 (session_writes_own_entry ClientTokens.plain (demo_server demo_twice) 0 [Udp] (lit "1.0") 7
    (mkConnected (lit "edge") 1 1 [Tcp] None) demo_server_wf eq_refl _)).
  cbn. lia.
Defined.

Lemma revoke_ends_sessions_witness :
  all_cancelled 7 (run ClientTokens.plain (demo_server demo_twice)
    (Store (ClientTokens.OpRevokeById 7 300) :: [demo_connect] ++ Disconnect 7 :: [demo_connect; Number 2])).
Proof.
  apply (revoke_ends_sessions ClientTokens.plain (demo_server demo_twice) 7 300 [demo_connect]
    [demo_connect; Number 2]).
  - exact demo_server_wf.
  - assert (E : map_Forall (fun _ x => s_client x = 7 -> live x \/ s_phase x = Over)
      (sessions (demo_server demo_twice))).
    { apply map_Forall_to_list. constructor; [|constructor; [|constructor]]; intros _; left; by eexists. }
    exact E.
  - apply map_Forall_to_list. constructor; [|constructor]. intros [=].
  - repeat constructor.
  - repeat constructor.
  - apply Z.leb_le; reflexivity.
Defined.

Lemma revoked_connection_slips_in_witness :
  let s' := run ClientTokens.plain (demo_server [demo_connect]) (revoke_by_id 7 300 ++ [Number 0; Register 0]) in
  ~ is_cancelled (clients s') 0 /\ ClientTokens.verify ClientTokens.plain (db s') (lit "t0ken") = Err ClientTokens.Revoked.
Proof.
  split; [|reflexivity].
  apply (revoked_connection_slips_in ClientTokens.plain (demo_server [demo_connect]) 0 7 300 (lit "edge")).
  - apply wf_run; [apply wf_init, demo_tables_wf|]. apply Z.leb_le; reflexivity.
  - apply Z.leb_le; reflexivity.
  - reflexivity.
  - reflexivity.
Defined.

(** The client of [demo_tables] gets a second code and redeems it. *)
Definition demo_again : Server :=
  run ClientTokens.plain (init demo_tables)
    (demo_twice ++ [Store (ClientTokens.OpCreate
       (ClientTokens.mkCreate (lit "edge") (Some 7) 0 ClientTokens.Existing 1000 210 (lit "srv:7443")) (lit "c1"))]).

Lemma enroll_ends_sessions_witness :
  all_cancelled 7 (run ClientTokens.plain demo_again
    (enroll ClientTokens.plain demo_again (lit "c1") 220 (lit "t1") 9 (Err ClientTokens.AdvertisedEndpoint))).
Proof.
  apply (enroll_ends_sessions ClientTokens.plain demo_again (lit "c1") 220 (lit "t1") 9
    (Err ClientTokens.AdvertisedEndpoint)
    (ClientTokens.mkIssued 7 (lit "edge") (lit "t1") true (lit "srv:7443"))
    (ClientTokens.mkToken (lit "edge") (ClientTokens.hash_hex ClientTokens.plain (lit "t0ken")) 200 None
       (Some (lit "10.0.0.1"))) (lit "t0ken")).
  - apply wf_run; [apply wf_init, demo_tables_wf|]. apply Z.leb_le; reflexivity.
  - reflexivity.
  - reflexivity.
  - reflexivity.
  - reflexivity.
  - by vm_compute.
  - split; apply Nat.leb_le; reflexivity.
Defined.

End Sessions.
