(* ===== verification/RulePersist.v ===== *)
(** * The rules on disk

    [crates/portunus-server/src/store/rule_store.rs] over the tables [rules] and
    [rule_targets] of [store/migrations/].  A row keeps the columns as the
    statement binds them; the targets of a rule are the list its [idx] column
    numbers from 0.  A write that breaks a [CHECK], a [NOT NULL] or the
    reference to [users], or binds a [u64] beyond [i64::MAX], is refused and
    changes nothing. *)

From S2P Require Import Prelude Text PortRange RateLimit Target RuleStore Rbac ClientTokens.

Local Open Scope Z_scope.

Module RulePersist.
Import RuleStore.

Record TargetRow : Type := mkTargetRow {
  t_host : list Z;
  t_port : Z;
  t_priority : Z;
  t_proxy : option (list Z);
}.

Record RuleRow : Type := mkRow {
  c_client_id : option Z;
  c_client_name : option (list Z);
  c_listen_port : Z;
  c_listen_port_end : option Z;
  c_target_host : list Z;
  c_target_port : Z;
  c_target_port_end : option Z;
  c_prefer_ipv6 : option Z;
  c_protocol : list Z;
  c_state_kind : list Z;
  c_state_reason : option (list Z);
  c_owner_user_id : list Z;
  c_health : option Z;
  c_created_at : Z;
  c_updated_at : Z;
  c_sni_pattern : option (list Z);
  c_bandwidth_in_bps : option Z;
  c_bandwidth_out_bps : option Z;
  c_new_connections_per_sec : option Z;
  c_concurrent_connections : option Z;
  c_bandwidth_in_burst : option Z;
  c_bandwidth_out_burst : option Z;
  c_new_connections_burst : option Z;
}.

Record Disk : Type := mkDisk {
  rows : gmap Z RuleRow;
  target_rows : gmap Z (list TargetRow);
  users : gset (list Z);
}.

Inductive StoreError : Type := Refused | BadRow.

(** ** Writing *)

Definition protocol_str (p : Protocol) : list Z := match p with Tcp => lit "tcp" | Udp => lit "udp" end.

Definition state_columns (s : RuleState) : list Z * option (list Z) :=
  match s with
  | Pending => (lit "pending", None)
  | Active => (lit "active", None)
  | Failed reason => (lit "failed", Some reason)
  | Removed => (lit "removed", None)
  end.

Definition proxy_str (v : RuleTarget.ProxyProtocolVersion) : list Z :=
  match v with RuleTarget.V1 => lit "v1" | RuleTarget.V2 => lit "v2" end.

Definition target_row (t : RuleTarget.RuleTarget) : TargetRow :=
  mkTargetRow (RuleTarget.host t) (RuleTarget.port t) (RuleTarget.priority t)
    (proxy_str <$> RuleTarget.proxy_protocol t).

Definition row_of (r : Rule) (created : Z) : RuleRow :=
  let rl := rate_limit r in
  mkRow (Some (client_id r)) (Some (client_name r)) (listen_port r) (listen_port_end r) (target_host r)
    (target_port r) (target_port_end r) ((fun b : bool => if b then 1 else 0) <$> prefer_ipv6 r)
    (protocol_str (protocol r)) (state_columns (state r)).1 (state_columns (state r)).2
    (owner_user_id r) (health_check_interval_secs r) created (last_state_change_at r) (sni_pattern r)
    (rl ≫= RateLimit.bandwidth_in_bps) (rl ≫= RateLimit.bandwidth_out_bps)
    (rl ≫= RateLimit.new_connections_per_sec) (rl ≫= RateLimit.concurrent_connections)
    (rl ≫= RateLimit.bandwidth_in_burst) (rl ≫= RateLimit.bandwidth_out_burst)
    (rl ≫= RateLimit.new_connections_burst).

Definition opt_ok (p : Z -> bool) (o : option Z) : bool := match o with Some z => p z | None => true end.

(** A cap column: [CHECK (> 0)], and it fits a signed 64-bit integer. *)
Definition cap_ok : option Z -> bool := opt_ok (fun z => (0 <? z) && (z <=? i64_max)).

(** The constraints of the [rules] table. *)
Definition row_ok (us : gset (list Z)) (w : RuleRow) : bool :=
  (1 <=? c_listen_port w) && (c_listen_port w <=? 65535) &&
  opt_ok (fun e => (c_listen_port w <=? e) && (e <=? 65535)) (c_listen_port_end w) &&
  (1 <=? c_target_port w) && (c_target_port w <=? 65535) &&
  opt_ok (fun e => (c_target_port w <=? e) && (e <=? 65535)) (c_target_port_end w) &&
  bool_decide (c_owner_user_id w ∈ us) &&
  opt_ok (fun h => (1 <=? h) && (h <=? 3600)) (c_health w) &&
  cap_ok (c_bandwidth_in_bps w) && cap_ok (c_bandwidth_out_bps w) &&
  cap_ok (c_new_connections_per_sec w) && cap_ok (c_concurrent_connections w) &&
  cap_ok (c_bandwidth_in_burst w) && cap_ok (c_bandwidth_out_burst w) &&
  cap_ok (c_new_connections_burst w).

(** The constraints of [rule_targets], for the row at position [idx]. *)
Fixpoint targets_ok (idx : Z) (ts : list TargetRow) : bool :=
  match ts with
  | [] => true
  | t :: ts =>
    (idx <=? 7) && (1 <=? t_port t) && (t_port t <=? 65535) && (0 <=? t_priority t) &&
    (t_priority t <=? 99) && targets_ok (idx + 1) ts
  end.

(** On conflict the row keeps its [created_at]. *)
Definition upsert_rule (d : Disk) (r : Rule) : Result Disk StoreError :=
  let created := match rows d !! id r with Some w => c_created_at w | None => created_at r end in
  let w := row_of r created in
  let ts := target_row <$> targets r in
  if (id r <=? i64_max) && row_ok (users d) w && targets_ok 0 ts
  then Ok (mkDisk (<[id r := w]> (rows d)) (<[id r := ts]> (target_rows d)) (users d))
  else Err Refused.

(** [ON DELETE CASCADE] takes the targets along. *)
Definition delete_rule (d : Disk) (i : Z) : Disk :=
  mkDisk (delete i (rows d)) (delete i (target_rows d)) (users d).

Definition delete_rules_owned_by (d : Disk) (owner : list Z) : Disk :=
  mkDisk (filter (fun kv => c_owner_user_id kv.2 <> owner) (rows d))
    (filter (fun kv => (c_owner_user_id <$> rows d !! kv.1) <> Some owner) (target_rows d))
    (users d).

(** ** Reading *)

Definition protocol_of (s : list Z) : Protocol := if bool_decide (s = lit "udp") then Udp else Tcp.

Definition state_of (kind : list Z) (reason : option (list Z)) : RuleState :=
  if bool_decide (kind = lit "active") then Active
  else if bool_decide (kind = lit "failed") then Failed (default (lit "unspecified") reason)
  else if bool_decide (kind = lit "removed") then Removed
  else Pending.

Definition proxy_of (s : option (list Z)) : option RuleTarget.ProxyProtocolVersion :=
  match s with
  | Some v =>
    if bool_decide (v = lit "v2") then Some RuleTarget.V2
    else if bool_decide (v = lit "v1") then Some RuleTarget.V1 else None
  | None => None
  end.

Definition target_of (t : TargetRow) : RuleTarget.RuleTarget :=
  RuleTarget.mkRuleTarget (t_host t) (t_port t) (t_priority t) (proxy_of (t_proxy t)).

Definition build_rate_limit_from_row (w : RuleRow) : option RateLimit.RateLimit :=
  match c_bandwidth_in_bps w, c_bandwidth_out_bps w, c_new_connections_per_sec w,
    c_concurrent_connections w, c_bandwidth_in_burst w, c_bandwidth_out_burst w,
    c_new_connections_burst w with
  | None, None, None, None, None, None, None => None
  | a, b, c, d, e, f, g => Some (RateLimit.mkRateLimit a b c d e f g)
  end.

Definition load_targets (d : Disk) (i : Z) : list RuleTarget.RuleTarget :=
  target_of <$> default [] (target_rows d !! i).

(** A row with its name and id present. *)
Definition rule_of_row (d : Disk) (i : Z) (w : RuleRow) (cid : Z) (cname : list Z) : Result Rule StoreError :=
  match ClientName.new cname with
  | Err _ => Err BadRow
  | Ok name =>
    match (if starts_with_char 95 (c_owner_user_id w) then Ok (c_owner_user_id w)
           else Rbac.user_id_from_str (c_owner_user_id w)) with
    | Err _ => Err BadRow
    | Ok owner =>
      Ok (mkRule i cid name (c_listen_port w) (c_listen_port_end w) (c_target_host w) (c_target_port w)
            (c_target_port_end w) ((fun v => negb (v =? 0)) <$> c_prefer_ipv6 w) (protocol_of (c_protocol w))
            (state_of (c_state_kind w) (c_state_reason w)) (c_created_at w) (c_updated_at w) owner
            (load_targets d i) (c_health w) (c_sni_pattern w) (build_rate_limit_from_row w))
    end
  end.

Fixpoint load_all (d : Disk) (ws : list (Z * RuleRow)) : Result (list Rule) StoreError :=
  match ws with
  | [] => Ok []
  | (i, w) :: ws =>
    match c_client_id w, c_client_name w with
    | Some cid, Some cname =>
      let? r := rule_of_row d i w cid cname in
      let? rs := load_all d ws in
      Ok (r :: rs)
    | _, _ => load_all d ws
    end
  end.

(** [ORDER BY id ASC]; one unreadable row fails the whole call. *)
Definition list_rules (d : Disk) : Result (list Rule) StoreError :=
  load_all d (stable_sort (fun a b => a.1 <=? b.1) (map_to_list (rows d))).

Definition get_rule (d : Disk) (i : Z) : Result (option Rule) StoreError :=
  let? rs := list_rules d in Ok (list_find_fst (fun r => id r =? i) rs).

(** ** What the disk says of a rule *)

Definition load_one (d : Disk) (i : Z) : option (Result Rule StoreError) :=
  match rows d !! i with
  | Some w =>
    match c_client_id w, c_client_name w with
    | Some cid, Some cname => Some (rule_of_row d i w cid cname)
    | _, _ => None
    end
  | None => None
  end.

(** An envelope without any cap is read back as no envelope. *)
Definition norm_rate_limit (rl : option RateLimit.RateLimit) : option RateLimit.RateLimit :=
  match rl with
  | Some (RateLimit.mkRateLimit None None None None None None None) => None
  | _ => rl
  end.

Definition norm (r : Rule) : Rule := set_rate_limit (norm_rate_limit (rate_limit r)) r.

(** A rule the server can hold: its name and its owner are valid. *)
Record valid_rule (r : Rule) : Prop := mkValid {
  valid_name : ClientName.new (client_name r) = Ok (client_name r);
  valid_owner : starts_with_char 95 (owner_user_id r) = true \/
    Rbac.user_id_from_str (owner_user_id r) = Ok (owner_user_id r);
}.

Lemma state_roundtrip s : state_of (state_columns s).1 (state_columns s).2 = s.
Proof. by destruct s. Qed.

Lemma target_roundtrip t : target_of (target_row t) = t.
Proof. by destruct t as [? ? ? [[]|]]. Qed.

Lemma targets_roundtrip (ts : list RuleTarget.RuleTarget) : target_of <$> (target_row <$> ts) = ts.
Proof. induction ts as [|t ts IH]; [done|]. rewrite !fmap_cons, target_roundtrip. by f_equal. Qed.

Lemma rate_limit_roundtrip r created : build_rate_limit_from_row (row_of r created) = norm_rate_limit (rate_limit r).
Proof. unfold build_rate_limit_from_row, row_of. simpl. destruct (rate_limit r) as [[[] [] [] [] [] [] []]|]; done. Qed.

Lemma load_row d r created :
  valid_rule r -> target_rows d !! id r = Some (target_row <$> targets r) -> created = created_at r ->
  rule_of_row d (id r) (row_of r created) (client_id r) (client_name r) = Ok (norm r).
Proof.
  intros [Hn Ho] Ht ->. unfold rule_of_row. rewrite Hn, rate_limit_roundtrip. cbn [row_of c_owner_user_id].
  assert ((if starts_with_char 95 (owner_user_id r) then Ok (owner_user_id r)
    else Rbac.user_id_from_str (owner_user_id r)) = Ok (owner_user_id r)) as ->.
  { destruct Ho as [->|Ho]; [done|]. by case_match. }
  unfold load_targets. rewrite Ht. cbn [from_option Datatypes.id]. rewrite targets_roundtrip.
  assert (state_of (c_state_kind (row_of r (created_at r))) (c_state_reason (row_of r (created_at r))) = state r)
    as -> by apply state_roundtrip.
  assert (protocol_of (c_protocol (row_of r (created_at r))) = protocol r) as ->
    by (cbn [row_of c_protocol]; by destruct (protocol r)).
  assert ((fun v => negb (v =? 0)) <$> c_prefer_ipv6 (row_of r (created_at r)) = prefer_ipv6 r) as ->
    by (cbn [row_of c_prefer_ipv6]; by destruct (prefer_ipv6 r) as [[]|]).
  done.
Qed.

(** ** The disk mirrors the rules in memory *)

Definition mirror (m : gmap Z Rule) (d : Disk) : Prop :=
  forall i, load_one d i = (fun r => Ok (norm r)) <$> m !! i.

Lemma upsert_ok_inv d r d' :
  upsert_rule d r = Ok d' ->
  d' = mkDisk (<[id r := row_of r (match rows d !! id r with Some w => c_created_at w | None => created_at r end)]> (rows d))
         (<[id r := target_row <$> targets r]> (target_rows d)) (users d).
Proof. unfold upsert_rule. case_match; congruence. Qed.

Lemma load_one_created d i r :
  load_one d i = Some (Ok r) -> exists w, rows d !! i = Some w /\ c_created_at w = created_at r.
Proof.
  unfold load_one. destruct (rows d !! i) as [w|]; [|done]. repeat case_match; try done.
  unfold rule_of_row. repeat case_match; intros [= <-]; eauto.
Qed.

Lemma load_one_none d i : (forall w, rows d !! i = Some w -> is_Some (c_client_id w) /\ is_Some (c_client_name w)) ->
  load_one d i = None -> rows d !! i = None.
Proof.
  unfold load_one. destruct (rows d !! i) as [w|]; [|done]. intros H.
  destruct (H w eq_refl) as [[? ->] [? ->]]. done.
Qed.

(** Rows are whole: the code never writes a row without name or id. *)
Definition whole (d : Disk) : Prop :=
  forall i w, rows d !! i = Some w -> is_Some (c_client_id w) /\ is_Some (c_client_name w).

Lemma whole_upsert d r d' : whole d -> upsert_rule d r = Ok d' -> whole d'.
Proof.
  intros Hw ->%upsert_ok_inv i w. simpl. rewrite lookup_insert_Some.
  intros [[<- <-]|[_ ?]]; [simpl; eauto|eauto].
Qed.

Lemma load_one_other d r d' j : upsert_rule d r = Ok d' -> j <> id r -> load_one d' j = load_one d j.
Proof.
  intros ->%upsert_ok_inv Hj. unfold load_one, rule_of_row, load_targets. simpl.
  by rewrite !lookup_insert_ne by done.
Qed.

Lemma mirror_upsert m d r d' :
  whole d -> mirror m d -> valid_rule r -> (forall r0, m !! id r = Some r0 -> created_at r0 = created_at r) ->
  upsert_rule d r = Ok d' -> mirror (<[id r := r]> m) d'.
Proof.
  intros Hw Hm Hv Hc Hu j. destruct (decide (id r = j)) as [<-|Hj].
  2: { rewrite (load_one_other _ _ _ _ Hu), lookup_insert_ne by done. apply Hm. }
  rewrite lookup_insert_eq. pose proof (Hm (id r)) as Hold. apply upsert_ok_inv in Hu as ->.
  unfold load_one. simpl. rewrite lookup_insert_eq. cbn [row_of c_client_id c_client_name]. simpl. f_equal.
  apply load_row; [done|by simpl; rewrite lookup_insert_eq|].
  destruct (m !! id r) as [r0|] eqn:E; simpl in Hold.
  - apply load_one_created in Hold as (w & -> & ->). apply (Hc r0 eq_refl).
  - apply load_one_none in Hold; [|intros w; apply Hw]. by rewrite Hold.
Qed.

Lemma mirror_delete m d i : mirror m d -> mirror (delete i m) (delete_rule d i).
Proof.
  intros Hm j. unfold load_one, rule_of_row, load_targets. simpl. destruct (decide (i = j)) as [<-|Hj].
  - by rewrite !lookup_delete_eq.
  - rewrite !lookup_delete_ne by done. apply Hm.
Qed.

(** ** Theorems *)

Lemma load_all_mirror m d ws :
  mirror m d -> whole d -> (forall kv, kv ∈ ws -> rows d !! kv.1 = Some kv.2) ->
  load_all d ws = Ok (omap (fun kv => norm <$> m !! kv.1) ws).
Proof.
  intros Hm Hw. induction ws as [|[i w] ws IH]; intros Hin; [done|]. cbn [load_all].
  pose proof (Hin (i, w) ltac:(left)) as Hi. simpl in Hi. destruct (Hw i w Hi) as [[cid Hc] [cname Hn]].
  rewrite Hc, Hn. pose proof (Hm i) as Hl. unfold load_one in Hl. rewrite Hi, Hc, Hn in Hl.
  destruct (m !! i) as [r|] eqn:E; [|done]. simpl in Hl. injection Hl as Hl. rewrite Hl. simpl.
  rewrite IH by (intros kv ?; apply Hin; by right). simpl. csimpl. by rewrite E.
Qed.

Lemma list_find_fst_Some {A} (p : A -> bool) (l : list A) x :
  list_find_fst p l = Some x -> x ∈ l /\ p x = true.
Proof.
  induction l as [|y l IH]; simpl; [done|]. destruct (p y) eqn:E.
  - intros [= <-]. split; [left|done].
  - intros [? ?]%IH. split; [by right|done].
Qed.

Lemma hydrate_lookup s rs i :
  NoDup (id <$> rs) ->
  rules (hydrate s rs) !! i = match list_find_fst (fun r => id r =? i) rs with Some r => Some r | None => rules s !! i end.
Proof.
  revert s. induction rs as [|r rs IH]; intros s Hnd; [done|]. rewrite fmap_cons in Hnd.
  apply NoDup_cons in Hnd as [Hnin Hnd]. unfold hydrate. cbn [foldl]. fold (hydrate (hydrate_one s r) rs).
  rewrite IH by done. cbn [list_find_fst]. destruct (id r =? i) eqn:E.
  - apply Z.eqb_eq in E as <-. destruct (list_find_fst _ rs) as [r'|] eqn:Ef.
    + exfalso. apply list_find_fst_Some in Ef as [Hr Hid]. apply Hnin. apply list_elem_of_fmap.
      exists r'. split; [lia|done].
    + simpl. by rewrite lookup_insert_eq.
  - apply Z.eqb_neq in E. destruct (list_find_fst _ rs); [done|]. simpl. by rewrite lookup_insert_ne.
Qed.

Lemma list_find_fst_None {A} (p : A -> bool) (l : list A) x :
  list_find_fst p l = None -> x ∈ l -> p x = false.
Proof.
  induction l as [|y l IH]; simpl; [by intros _ ?%elem_of_nil|].
  destruct (p y) eqn:E; [done|]. intros H [->|?]%elem_of_cons; auto.
Qed.

(** The list a restart reads, when the disk mirrors [m]. *)
Lemma list_rules_mirror m d :
  mirror m d -> whole d -> (forall i r, m !! i = Some r -> id r = i) ->
  exists rs, list_rules d = Ok rs /\ NoDup (id <$> rs) /\
    forall r, r ∈ rs <-> exists r0, m !! id r = Some r0 /\ r = norm r0.
Proof.
  intros Hm Hw Hid. unfold list_rules. set (ws := stable_sort _ (map_to_list (rows d))).
  assert (Hin : forall kv, kv ∈ ws <-> rows d !! kv.1 = Some kv.2).
  { intros [i w]. unfold ws. rewrite stable_sort_perm. apply elem_of_map_to_list. }
  assert (Hnd : NoDup (fst <$> ws)) by (unfold ws; rewrite stable_sort_perm; apply NoDup_fst_map_to_list).
  eexists. split; [apply (load_all_mirror m); [done..|intros kv; apply Hin]|]. split.
  - clear Hin. induction ws as [|[i w] ws IH]; [constructor|]. csimpl in *.
    apply NoDup_cons in Hnd as [Hni Hnd]. destruct (m !! i) as [r|] eqn:E; csimpl; [|by apply IH].
    constructor; [|by apply IH]. intros Hin. apply Hni. rewrite (Hid i r E) in Hin. apply list_elem_of_fmap in Hin as (r' & Hr' & Hin).
    apply list_elem_of_omap in Hin as ([j v] & Hjv & Hj). apply fmap_Some in Hj as (r0 & Hr0 & ->).
    apply list_elem_of_fmap. exists (j, v). split; [|done]. simpl in *. rewrite Hr'. by apply Hid.
  - intros r. rewrite list_elem_of_omap. split.
    + intros ([j v] & _ & Hj). apply fmap_Some in Hj as (r0 & Hr0 & ->). exists r0. simpl in *.
      by rewrite (Hid j r0 Hr0).
    + intros (r0 & Hr0 & Hr). pose proof (Hm (id r)) as Hl. rewrite Hr0 in Hl. simpl in Hl.
      destruct (load_one_created _ _ _ Hl) as (w & Hwr & _).
      exists (id r, w). split; [by apply Hin|]. simpl. rewrite Hr0. simpl. by rewrite <- Hr.
Qed.

(** A restart loses nothing the disk mirrors: reading the table back
    succeeds and hydrating an empty store from it gives exactly the rules that
    were in memory, each with its state, targets and limits (an envelope
    without any cap being none). *)
Theorem restart_preserves_rules (s : Store) (d : Disk) :
  mirror (rules s) d -> whole d -> (forall i r, rules s !! i = Some r -> id r = i) ->
  exists rs, list_rules d = Ok rs /\ rules (hydrate empty_store rs) = norm <$> rules s.
Proof.
  intros Hm Hw Hid. destruct (list_rules_mirror _ _ Hm Hw Hid) as (rs & Hl & Hnd & Hin).
  exists rs. split; [done|]. apply map_eq. intros i. rewrite hydrate_lookup, lookup_fmap by done.
  destruct (list_find_fst _ rs) as [r|] eqn:E.
  - apply list_find_fst_Some in E as [(r0 & Hr0 & ->)%Hin Hi%Z.eqb_eq]. simpl in *. rewrite Hi in Hr0.
    by rewrite Hr0.
  - destruct (rules s !! i) as [r|] eqn:Er; [|done]. exfalso.
    assert (Hr : norm r ∈ rs) by (apply Hin; exists r; simpl; rewrite (Hid i r Er); done).
    apply (list_find_fst_None _ _ _ E) in Hr. simpl in Hr. rewrite (Hid i r Er), Z.eqb_refl in Hr. done.
Qed.

(** Writing a rule and reading the table: a write that is accepted is
    what [list_rules] then reports for that rule, in place of what it reported
    under that id before, and every other rule is reported as before. *)
Theorem upsert_then_list (m : gmap Z Rule) (d : Disk) (r : Rule) (d' : Disk) :
  mirror m d -> whole d -> (forall i r, m !! i = Some r -> id r = i) -> valid_rule r ->
  (forall r0, m !! id r = Some r0 -> created_at r0 = created_at r) ->
  upsert_rule d r = Ok d' ->
  exists rs, list_rules d' = Ok rs /\
    forall q, q ∈ rs <-> q = norm r \/ (id q <> id r /\ exists q0, m !! id q = Some q0 /\ q = norm q0).
Proof.
  intros Hm Hw Hid Hv Hc Hu.
  destruct (list_rules_mirror (<[id r := r]> m) d') as (rs & Hl & _ & Hin).
  - by eapply mirror_upsert.
  - by eapply whole_upsert.
  - intros i q. rewrite lookup_insert_Some. intros [[<- <-]|[_ ?]]; auto.
  - exists rs. split; [done|]. intros q. rewrite Hin. split.
    + intros (q0 & Hq0 & Hq). rewrite lookup_insert_Some in Hq0. destruct Hq0 as [[_ <-]|[? ?]]; eauto 8.
    + intros [->|(Hne & q0 & Hq0 & ->)].
      * exists r. by rewrite lookup_insert_eq.
      * exists q0. by rewrite lookup_insert_ne.
Qed.

(** ** Witnesses *)

Definition demo_disk : Disk := mkDisk ∅ ∅ {[lit "alice"]}.

Definition demo_row_rule : Rule :=
  mkRule 3 7 (lit "edge") 443 None (lit "10.0.0.1") 8443 None (Some true) Tcp (Failed (lit "port_in_use")) 10 20
    (lit "alice") [RuleTarget.mkRuleTarget (lit "10.0.0.1") 8443 0 (Some RuleTarget.V2)] (Some 30) None
    (Some (RateLimit.mkRateLimit (Some 1000) None None None None None None)).

Definition demo_written : Disk := match upsert_rule demo_disk demo_row_rule with Ok d => d | Err _ => demo_disk end.

Lemma demo_upsert : upsert_rule demo_disk demo_row_rule = Ok demo_written.
Proof. reflexivity. Qed.

Lemma demo_valid : valid_rule demo_row_rule.
Proof. split; [reflexivity|right; reflexivity]. Qed.

Lemma demo_disk_mirror : mirror ∅ demo_disk /\ whole demo_disk.
Proof.
  split.
  - intros i. unfold load_one. simpl. by rewrite !lookup_empty.
  - intros i w. simpl. by rewrite lookup_empty.
Qed.

Lemma upsert_then_list_witness : exists rs, list_rules demo_written = Ok rs /\ demo_row_rule ∈ rs.
Proof.
  destruct (upsert_then_list ∅ demo_disk demo_row_rule demo_written) as (rs & Hl & Hin).
  - apply demo_disk_mirror.
  - apply demo_disk_mirror.
  - intros i r. by rewrite lookup_empty.
  - exact demo_valid.
  - intros r0. by rewrite lookup_empty.
  - exact demo_upsert.
  - exists rs. split; [exact Hl|]. apply Hin. by left.
Defined.

Definition demo_memory : Store := hydrate empty_store [demo_row_rule].

Lemma restart_preserves_rules_witness :
  exists rs, list_rules demo_written = Ok rs /\ rules (hydrate empty_store rs) = norm <$> rules demo_memory.
Proof.
  apply (restart_preserves_rules demo_memory demo_written).
  - apply (mirror_upsert ∅ demo_disk demo_row_rule); [apply demo_disk_mirror..|exact demo_valid| |exact demo_upsert].
    intros r0. by rewrite lookup_empty.
  - apply (whole_upsert demo_disk demo_row_rule); [apply demo_disk_mirror|exact demo_upsert].
  - intros i r. simpl. rewrite lookup_insert_Some. intros [[<- <-]|[_ E]]; [done|by rewrite lookup_empty in E].
Defined.

End RulePersist.
