(* ===== verification/RulePush.v ===== *)
(** * Rules between the operator, the server and a client's session

    The rule paths of [crates/portunus-server/src/operator/cli.rs] ([push_rule],
    [push_rule_multi_target], [remove_rule], [update_rule_rate_limit]) and of
    [grpc/service.rs] (the replay on connect with its capability gates, and the
    handling of a client's [RuleStatus]), over the rule store in memory
    ([RuleStore]), on disk ([RulePersist]) and the registry ([Clients]).

    A push is two critical sections: up to the message on the session's channel,
    and what follows the client's answer, the loss of the session or the
    timeout; anything may run between them.  Request ids are numbers the caller
    makes; a session is named by its token. *)

From S2P Require Import Prelude Text PortRange RateLimit Target RuleStore Rbac ClientTokens ClientSessions RulePersist.

Local Open Scope Z_scope.

Module RulePush.
Import PortRange RuleStore.

(** ** The wire rule [v1::Rule] *)

Record WireTarget : Type := mkWireTarget {
  w_host : list Z;
  w_port : Z;
  w_priority : Z;
  w_proxy : option Z;
}.

Record WireRule : Type := mkWire {
  w_rule_id : Z;
  w_listen_port : Z;
  w_target_host : list Z;
  w_target_port : Z;
  w_protocol : Z;
  w_listen_port_end : Z;
  w_target_port_end : Z;
  w_prefer_ipv6 : option bool;
  w_targets : list WireTarget;
  w_health : Z;
  w_sni_pattern : option (list Z);
  w_rate_limit : option RateLimit.RateLimit;
  w_owner_id : option (list Z);
}.

Inductive RuleAction : Type := Push | Remove.

(** The enum values of the wire. *)
Definition proto_protocol (p : Protocol) : Z := match p with Tcp => 1 | Udp => 2 end.

Definition proto_proxy (v : RuleTarget.ProxyProtocolVersion) : Z :=
  match v with RuleTarget.V1 => 1 | RuleTarget.V2 => 2 end.

Definition proto_target (t : RuleTarget.RuleTarget) : WireTarget :=
  mkWireTarget (RuleTarget.host t) (RuleTarget.port t) (RuleTarget.priority t)
    (proto_proxy <$> RuleTarget.proxy_protocol t).

Definition rate_limit_to_proto (rl : RateLimit.RateLimit) : RateLimit.RateLimit :=
  RateLimit.mkRateLimit (RateLimit.bandwidth_in_bps rl) (RateLimit.bandwidth_out_bps rl)
    (RateLimit.new_connections_per_sec rl) (RateLimit.concurrent_connections rl)
    (RateLimit.bandwidth_in_burst rl) (RateLimit.bandwidth_out_burst rl)
    (RateLimit.new_connections_burst rl).

(** The message of the replay. *)
Definition proto_rule_from_rule (r : Rule) : WireRule :=
  mkWire (id r) (listen_port r) (target_host r) (target_port r) (proto_protocol (protocol r))
    (default 0 (listen_port_end r)) (default 0 (target_port_end r)) (prefer_ipv6 r)
    (proto_target <$> targets r) (default 0 (health_check_interval_secs r)) (sni_pattern r)
    (rate_limit_to_proto <$> rate_limit r) (Some (owner_user_id r)).

(** The message [push_rule] builds from its arguments. *)
Definition push_message (r : Rule) (listen : PortRange) (host : list Z) (target : PortRange) (proto : Protocol)
  (ipv6 : option bool) : WireRule :=
  mkWire (id r) (start listen) host (start target) (proto_protocol proto)
    (if 1 <? len listen then end_ listen else 0) (if 1 <? len target then end_ target else 0) ipv6
    [] 0 None None (Some (owner_user_id r)).

(** The message of [push_rule_multi_target]; [first] is its first target. *)
Definition push_multi_message (r : Rule) (listen : PortRange) (first : RuleTarget.RuleTarget)
  (tgts : list RuleTarget.RuleTarget) (health : option Z) (proto : Protocol) (ipv6 : option bool) : WireRule :=
  mkWire (id r) (start listen) (RuleTarget.host first) (RuleTarget.port first) (proto_protocol proto)
    (if 1 <? len listen then end_ listen else 0) 0 ipv6 (proto_target <$> tgts) (default 0 health)
    (sni_pattern r) (rate_limit_to_proto <$> rate_limit r) (Some (owner_user_id r)).

Definition remove_message (r : Rule) : WireRule :=
  mkWire (id r) (listen_port r) (target_host r) (target_port r) (proto_protocol Tcp)
    (default 0 (listen_port_end r)) (default 0 (target_port_end r)) (prefer_ipv6 r) [] 0 None None None.

(** The message of [update_rule_rate_limit]. *)
Definition update_message (r : Rule) (first : RuleTarget.RuleTarget) : WireRule :=
  let listen := listen_range r in
  mkWire (id r) (start listen) (target_host r) (RuleTarget.port first) (proto_protocol (protocol r))
    (if 1 <? len listen then end_ listen else 0) (default 0 (target_port_end r)) (prefer_ipv6 r)
    (proto_target <$> targets r) (default 0 (health_check_interval_secs r)) (sni_pattern r)
    (rate_limit_to_proto <$> rate_limit r) (Some (owner_user_id r)).

(** ** The server's state *)

(** [waiters]: by session and request id, whether the receiver still waits;
    [inbox]: the status a waiter was handed; [outbox]: what was sent, newest
    last; [closed]: sessions whose channel is gone. *)
Record Status : Type := mkStatus { st_request : Z; st_rule : Z; st_outcome : Z; st_reason : list Z }.

Record App : Type := mkApp {
  mem : Store;
  disk : RulePersist.Disk;
  clients : Clients.ConnectedClients;
  waiters : gmap (Z * Z) bool;
  inbox : gmap (Z * Z) Status;
  outbox : list (Z * (RuleAction * Z * WireRule));
  closed : gset Z;
}.

Definition set_rules (a : App) (m : Store) (d : RulePersist.Disk) : App :=
  mkApp m d (clients a) (waiters a) (inbox a) (outbox a) (closed a).

Definition set_waiters (a : App) (w : gmap (Z * Z) bool) : App :=
  mkApp (mem a) (disk a) (clients a) w (inbox a) (outbox a) (closed a).

(** [outbound.send]: refused once the channel is closed. *)
Definition send (a : App) (t : Z) (m : RuleAction * Z * WireRule) : option App :=
  if bool_decide (t ∈ closed a) then None
  else Some (mkApp (mem a) (disk a) (clients a) (waiters a) (inbox a) (outbox a ++ [(t, m)]) (closed a)).

Inductive OperatorError : Type :=
| InvalidClientName (e : ClientName.ClientNameError)
| InvalidProtocol
| Forbidden (e : Rbac.RbacError)
| InvalidTargetHost
| ClientNotConnected
| UnsupportedProtocol
| StoreRefused (e : RuleStoreError)
| ActivationFailed (reason : list Z)
| RuleNotFound
| AckTimeout.

Definition parse_protocol (s : list Z) : Result Protocol OperatorError :=
  if bool_decide (lower s = lit "tcp") then Ok Tcp
  else if bool_decide (lower s = lit "udp") then Ok Udp
  else Err InvalidProtocol.

Definition proto_of (p : Protocol) : Clients.Protocol := match p with Tcp => Clients.Tcp | Udp => Clients.Udp end.

(** [let _ = upsert_rule(..)]: a refused write is ignored. *)
Definition upsert_ignoring (a : App) (i : Z) : App :=
  match get (mem a) i with
  | Some r =>
    match RulePersist.upsert_rule (disk a) r with
    | Ok d => set_rules a (mem a) d
    | Err _ => a
    end
  | None => a
  end.

(** ** Pushing: up to the message *)

(** The part the two push helpers share: resolve the session, gate UDP, store
    the rule as pending in memory and on disk, register the waiter, send. *)
Definition push_stored (a : App) (name : list Z) (proto : Protocol) (req : Z)
  (put : Z -> Result (Rule * Store) RuleStoreError) (message : Rule -> WireRule) :
  Result (Z * Rule) OperatorError * App :=
  match Clients.handles_by_name (clients a) name with
  | None => (Err ClientNotConnected, a)
  | Some t =>
    match Clients.client_id_by_name (clients a) name with
    | None => (Err ClientNotConnected, a)
    | Some cid =>
      if bool_decide (proto = Udp) &&
         negb (default false (Clients.supports_by_name (clients a) name Clients.Udp))
      then (Err UnsupportedProtocol, a)
      else
        match put cid with
        | Err e => (Err (StoreRefused e), a)
        | Ok (r, m) =>
          match RulePersist.upsert_rule (disk a) r with
          | Err _ => (Err (ActivationFailed (lit "persist_rule")), set_rules a m (disk a))
          | Ok d =>
            let a' := set_waiters (set_rules a m d) (<[(t, req) := true]> (waiters a)) in
            match send a' t (Push, req, message r) with
            | Some a'' => (Ok (t, r), a'')
            | None =>
              let m' := match remove m (id r) with Ok (_, m') => m' | Err _ => m end in
              (Err ClientNotConnected,
               set_waiters (set_rules a m' (RulePersist.delete_rule d (id r))) (delete (t, req) (waiters a)))
            end
          end
        end
    end
  end.

Definition push_rule (a : App) (identity : Rbac.OperatorIdentity) (grants : list Rbac.Grant)
  (raw_client : list Z) (listen : PortRange) (host : list Z) (target : PortRange) (protocol : list Z)
  (ipv6 : option bool) (range_cap : Z) (req now : Z) : Result (Z * Rule) OperatorError * App :=
  match ClientName.new raw_client with
  | Err e => (Err (InvalidClientName e), a)
  | Ok name =>
    match parse_protocol protocol with
    | Err e => (Err e, a)
    | Ok proto =>
      match Rbac.enforce_push identity (Rbac.mkPush name (start listen) (end_ listen) proto) grants with
      | Err e => (Err (Forbidden e), a)
      | Ok _ =>
        match Target.parse host with
        | Err _ => (Err InvalidTargetHost, a)
        | Ok _ =>
          push_stored a name proto req
            (fun cid => push_range (mem a) cid name listen host target proto ipv6 range_cap (Rbac.who identity) now)
            (fun r => push_message r listen host target proto ipv6)
        end
      end
    end
  end.

(** [targets] is not empty; the first one is mirrored in the legacy fields. *)
Definition push_rule_multi_target (a : App) (identity : Rbac.OperatorIdentity) (name : list Z)
  (listen : PortRange) (first : RuleTarget.RuleTarget) (rest : list RuleTarget.RuleTarget) (health : option Z)
  (proto : Protocol) (ipv6 : option bool) (range_cap : Z) (sni : option (list Z))
  (rl : option RateLimit.RateLimit) (req now : Z) : Result (Z * Rule) OperatorError * App :=
  push_stored a name proto req
    (fun cid => push_range_with_targets (mem a) cid name listen (RuleTarget.host first)
       (single (RuleTarget.port first)) proto ipv6 range_cap (Rbac.who identity) (first :: rest) health sni rl now)
    (fun r => push_multi_message r listen first (first :: rest) health proto ipv6).

(** ** Pushing: after the message *)

Inductive Ack : Type := Received (s : Status) | Lost | Elapsed.

(** The values of [ActivationOutcome]. *)
Definition ACTIVATED : Z := 1.
Definition FAILED : Z := 2.
Definition REMOVED : Z := 3.

Definition reason_of (s : Status) : list Z :=
  if bool_decide (st_reason s = []) then lit "unspecified" else st_reason s.

(** [mark] then, as both callers do, write what the store holds. *)
Definition mark_and_store (a : App) (i : Z) (res : Result Store RuleStoreError) : App :=
  match res with
  | Ok m => upsert_ignoring (set_rules a m (disk a)) i
  | Err _ => upsert_ignoring a i
  end.

Definition push_finish (a : App) (t req i : Z) (ack : Ack) (now : Z) : Result Rule OperatorError * App :=
  match ack with
  | Received s =>
    if st_outcome s =? ACTIVATED then
      match mark_active (mem a) i now with
      | Err e => (Err (StoreRefused e), a)
      | Ok m =>
        let a' := upsert_ignoring (set_rules a m (disk a)) i in
        (match get (mem a') i with Some r => Ok r | None => Err RuleNotFound end, a')
      end
    else if st_outcome s =? FAILED then
      (Err (ActivationFailed (reason_of s)),
       mark_and_store a i (mark_failed (mem a) i (reason_of s) now))
    else (Err (ActivationFailed (lit "unexpected_outcome")), a)
  | Lost => (Err AckTimeout, a)
  | Elapsed => (Err AckTimeout, set_waiters a (delete (t, req) (waiters a)))
  end.

(** ** A client's [RuleStatus] *)

Definition apply_unsolicited_rule_status (a : App) (client : Z) (s : Status) (now : Z) : App :=
  match get (mem a) (st_rule s) with
  | None => a
  | Some r =>
    if negb (client_id r =? client) then a
    else if st_outcome s =? ACTIVATED then
      mark_and_store a (st_rule s) (mark_active (mem a) (st_rule s) now)
    else if st_outcome s =? FAILED then
      mark_and_store a (st_rule s) (mark_failed (mem a) (st_rule s) (reason_of s) now)
    else a
  end.

Definition handle_rule_status (a : App) (t client : Z) (s : Status) (now : Z) : App :=
  match (waiters a !! (t, st_request s) : option bool) with
  | Some waiting =>
    mkApp (mem a) (disk a) (clients a) (delete (t, st_request s) (waiters a))
      (if waiting then <[(t, st_request s) := s]> (inbox a) else inbox a) (outbox a) (closed a)
  | None => apply_unsolicited_rule_status a client s now
  end.

(** The timeout of a push drops the receiver before it takes the lock. *)
Definition timeout_elapses (a : App) (t req : Z) : App :=
  set_waiters a (alter (fun _ => false) (t, req) (waiters a)).

(** ** Versions and gates *)

Fixpoint before_suffix (s : list Z) : list Z :=
  match s with
  | [] => []
  | c :: s => if (c =? 45) || (c =? 43) then [] else c :: before_suffix s
  end.

Definition version_at_least (version : option (list Z)) (major_floor minor_floor : Z) : bool :=
  match version with
  | None => false
  | Some v =>
    let parts := split_char 46 (before_suffix v) in
    let major := default 0 (head parts ≫= parse_uint u32_max) in
    let minor := default 0 (parts !! 1%nat ≫= parse_uint u32_max) in
    (major_floor <? major) || ((major =? major_floor) && (minor_floor <=? minor))
  end.

Definition replay_gate_reason (r : Rule) (caps : list Clients.Protocol) (version : option (list Z)) :
  option (list Z) :=
  if bool_decide (protocol r = Udp) && negb (bool_decide (Clients.Udp ∈ caps))
  then Some (lit "unsupported_protocol")
  else if (2 <=? length (targets r))%nat && negb (version_at_least version 0 7)
  then Some (lit "multi_target_unsupported_by_client")
  else if bool_decide (is_Some (sni_pattern r)) && negb (version_at_least version 0 9)
  then Some (lit "sni_unsupported_by_client")
  else if existsb (fun t => bool_decide (is_Some (RuleTarget.proxy_protocol t))) (targets r) &&
          negb (version_at_least version 0 10)
  then Some (lit "proxy_protocol_unsupported_by_client")
  else if bool_decide (is_Some (rate_limit r)) && negb (version_at_least version 0 11)
  then Some (lit "rate_limit_unsupported_by_client")
  else None.

(** ** The replay on connect *)

(** [reqs] are the request ids made for the messages, [now] the clock. *)
Fixpoint replay_loop (a : App) (t : Z) (caps : list Clients.Protocol) (version : option (list Z)) (now : Z)
  (reqs : Z -> Z) (rs : list Rule) : App :=
  match rs with
  | [] => a
  | r :: rs =>
    match state r with
    | Active =>
      match replay_gate_reason r caps version with
      | Some reason =>
        replay_loop (mark_and_store a (id r) (mark_failed (mem a) (id r) reason now)) t caps version now reqs rs
      | None =>
        let a := mark_and_store a (id r) (mark_pending (mem a) (id r) now) in
        match get (mem a) (id r) with
        | Some u =>
          match send a t (Push, reqs (id r), proto_rule_from_rule u) with
          | Some a => replay_loop a t caps version now reqs rs
          | None => a
          end
        | None => replay_loop a t caps version now reqs rs
        end
      end
    | _ => replay_loop a t caps version now reqs rs
    end
  end.

Definition replay_rules_for_client (a : App) (client t now : Z) (reqs : Z -> Z) : App :=
  let caps := match Clients.inner (clients a) !! client with
              | Some c => Clients.supported_protocols c
              | None => []
              end in
  replay_loop a t caps (Clients.client_version_of (clients a) client) now reqs
    (list_rules (mem a) (Some client)).

(** ** Removing and updating *)

Definition remove_rule (a : App) (i req : Z) : Result Rule OperatorError * App :=
  match remove (mem a) i with
  | Err _ => (Err RuleNotFound, a)
  | Ok (r, m) =>
    let a := set_rules a m (RulePersist.delete_rule (disk a) i) in
    (Ok r,
     match Clients.handles_by_name (clients a) (client_name r) with
     | Some t => default a (send a t (Remove, req, remove_message r))
     | None => a
     end)
  end.

(** Up to the message; the answer only ends the wait. *)
Definition update_rule_rate_limit (a : App) (i : Z) (rl : option RateLimit.RateLimit) (req : Z) :
  Result Z OperatorError * App :=
  match get (mem a) i with
  | None => (Err RuleNotFound, a)
  | Some existing =>
    match Clients.handles_by_name (clients a) (client_name existing) with
    | None => (Err ClientNotConnected, a)
    | Some t =>
      match update_rate_limit (mem a) i rl with
      | Err e => (Err (StoreRefused e), a)
      | Ok (r, m) =>
        match RulePersist.upsert_rule (disk a) r with
        | Err _ => (Err (ActivationFailed (lit "persist_rule")), set_rules a m (disk a))
        | Ok d =>
          let a' := set_waiters (set_rules a m d) (<[(t, req) := true]> (waiters a)) in
          match head (targets_view r) with
          | None => (Err (ActivationFailed (lit "missing_target")), a')
          | Some first =>
            match send a' t (Push, req, update_message r first) with
            | Some a'' => (Ok t, a'')
            | None => (Err ClientNotConnected, set_waiters a' (delete (t, req) (waiters a')))
            end
          end
        end
      end
    end
  end.

(** [UPDATE rules SET client_name]. *)
Definition with_name (w : RulePersist.RuleRow) (name : list Z) : RulePersist.RuleRow :=
  RulePersist.mkRow (RulePersist.c_client_id w) (Some name) (RulePersist.c_listen_port w)
    (RulePersist.c_listen_port_end w) (RulePersist.c_target_host w) (RulePersist.c_target_port w)
    (RulePersist.c_target_port_end w) (RulePersist.c_prefer_ipv6 w) (RulePersist.c_protocol w)
    (RulePersist.c_state_kind w) (RulePersist.c_state_reason w) (RulePersist.c_owner_user_id w)
    (RulePersist.c_health w) (RulePersist.c_created_at w) (RulePersist.c_updated_at w)
    (RulePersist.c_sni_pattern w) (RulePersist.c_bandwidth_in_bps w) (RulePersist.c_bandwidth_out_bps w)
    (RulePersist.c_new_connections_per_sec w) (RulePersist.c_concurrent_connections w)
    (RulePersist.c_bandwidth_in_burst w) (RulePersist.c_bandwidth_out_burst w)
    (RulePersist.c_new_connections_burst w).

(** [patch_client_name]: the rename of the store and of the rules in memory;
    the registry keeps the name of the session. *)
Definition rename_rules (a : App) (client : Z) (name : list Z) : App :=
  set_rules a (rename_client (mem a) client name).1
    (RulePersist.mkDisk
       ((fun w => if bool_decide (RulePersist.c_client_id w = Some client) then with_name w name else w) <$>
          RulePersist.rows (disk a))
       (RulePersist.target_rows (disk a)) (RulePersist.users (disk a))).

(** ** Invariant: memory and disk agree *)

(** The constraints of the tables hold for the rule, whatever its state. *)
Definition storable (us : gset (list Z)) (r : Rule) : Prop :=
  (id r <=? i64_max) && RulePersist.row_ok us (RulePersist.row_of r 0) &&
  RulePersist.targets_ok 0 (RulePersist.target_row <$> targets r) = true.

Record wf (a : App) : Prop := mkWf {
  wf_mem : RuleStore.wf (mem a);
  wf_mirror : RulePersist.mirror (rules (mem a)) (disk a);
  wf_whole : RulePersist.whole (disk a);
  wf_rules : forall i r, rules (mem a) !! i = Some r ->
    RulePersist.valid_rule r /\ storable (RulePersist.users (disk a)) r;
}.

Lemma upsert_storable d r : storable (RulePersist.users d) r -> exists d', RulePersist.upsert_rule d r = Ok d'.
Proof.
  intros H. assert (E : forall c, RulePersist.row_ok (RulePersist.users d) (RulePersist.row_of r c) =
    RulePersist.row_ok (RulePersist.users d) (RulePersist.row_of r 0)) by done.
  unfold RulePersist.upsert_rule, storable in *. eexists. rewrite E. by rewrite H.
Qed.

Lemma upsert_users d r d' : RulePersist.upsert_rule d r = Ok d' -> RulePersist.users d' = RulePersist.users d.
Proof. by intros ->%RulePersist.upsert_ok_inv. Qed.

(** A stored rule replaced by one at the same place, with its write. *)
Lemma wf_replace a i r r' :
  wf a -> rules (mem a) !! i = Some r -> same_place r r' -> created_at r' = created_at r ->
  RulePersist.valid_rule r' -> storable (RulePersist.users (disk a)) r' ->
  exists d, RulePersist.upsert_rule (disk a) r' = Ok d /\
    wf (set_rules a (with_rules (mem a) (<[i := r']> (rules (mem a)))) d).
Proof.
  intros H Hi Hs Hc Hv Hst. destruct (upsert_storable _ _ Hst) as [d Hd]. exists d. split; [done|].
  assert (id r' = i) as <- by (destruct Hs as [-> _]; by apply (RuleStore.wf_key _ (wf_mem a H))).
  split; simpl.
  - by apply (wf_update_one _ _ r); [apply wf_mem| |].
  - eapply RulePersist.mirror_upsert; [apply (wf_whole a H)|apply (wf_mirror a H)|done| |done].
    intros r0. rewrite Hi. intros [= <-]. done.
  - by eapply RulePersist.whole_upsert; [apply (wf_whole a H)|].
  - intros j q. rewrite (upsert_users _ _ _ Hd), lookup_insert_Some.
    intros [[<- <-]|[_ ?]]; [done|by apply (wf_rules a H j)].
Qed.

Lemma with_rules_id s : with_rules s (rules s) = s.
Proof. by destruct s. Qed.

(** Writing what memory holds anyway changes nothing that can be read. *)
Lemma wf_upsert_ignoring a i : wf a -> wf (upsert_ignoring a i).
Proof.
  intros H. unfold upsert_ignoring, get. destruct (rules (mem a) !! i) as [r|] eqn:E; [|done].
  destruct (wf_rules a H i r E) as [Hv Hs].
  destruct (wf_replace a i r r H E) as (d & -> & Hw); [done..|].
  by rewrite insert_id, with_rules_id in Hw.
Qed.

Lemma set_state_storable us st now r : storable us r -> storable us (set_state st now r).
Proof. done. Qed.

Lemma set_state_valid st now r : RulePersist.valid_rule r -> RulePersist.valid_rule (set_state st now r).
Proof. by intros []. Qed.

(** A mark and its write: the state changes in memory and on disk together. *)
Lemma mark_and_store_spec a i st now :
  wf a -> wf (mark_and_store a i (mark st (mem a) i now)) /\
  rules (mem (mark_and_store a i (mark st (mem a) i now))) !! i =
    match rules (mem a) !! i with
    | Some r => Some (match state r with Removed => r | _ => set_state st now r end)
    | None => None
    end /\
  forall j, j <> i -> rules (mem (mark_and_store a i (mark st (mem a) i now))) !! j = rules (mem a) !! j.
Proof.
  intros H.
  assert (Hig : wf (upsert_ignoring a i) /\ mem (upsert_ignoring a i) = mem a).
  { split; [by apply wf_upsert_ignoring|]. unfold upsert_ignoring. by repeat case_match. }
  unfold mark. destruct (rules (mem a) !! i) as [r|] eqn:E.
  2: { simpl. destruct Hig as [? ->]. by rewrite E. }
  destruct (state r) eqn:Es; simpl; try (destruct Hig as [? ->]; by rewrite E).
  all: destruct (wf_rules a H i r E) as [Hv Hs];
    destruct (wf_replace a i r (set_state st now r) H E) as (d & Hd & Hw); [done|done|by apply set_state_valid|done|];
    unfold upsert_ignoring, get; simpl; rewrite lookup_insert_eq; simpl; rewrite Hd; simpl;
    split; [exact Hw|]; split; [by rewrite lookup_insert_eq|]; intros j ?; by rewrite lookup_insert_ne.
Qed.

Lemma upsert_ignoring_rest a i :
  closed (upsert_ignoring a i) = closed a /\ outbox (upsert_ignoring a i) = outbox a /\
  mem (upsert_ignoring a i) = mem a /\ clients (upsert_ignoring a i) = clients a.
Proof. unfold upsert_ignoring. by repeat case_match. Qed.

Lemma mark_and_store_rest a i res :
  closed (mark_and_store a i res) = closed a /\ outbox (mark_and_store a i res) = outbox a /\
  clients (mark_and_store a i res) = clients a.
Proof.
  destruct res as [m|]; simpl.
  - by destruct (upsert_ignoring_rest (set_rules a m (disk a)) i) as (-> & -> & _ & ->).
  - by destruct (upsert_ignoring_rest a i) as (-> & -> & _ & ->).
Qed.

Lemma mark_and_store_waiters a i res :
  waiters (mark_and_store a i res) = waiters a /\ inbox (mark_and_store a i res) = inbox a.
Proof. destruct res; simpl; unfold upsert_ignoring; by repeat case_match. Qed.

Lemma wf_set_waiters a w : wf a -> wf (set_waiters a w).
Proof. by intros []. Qed.

Lemma wf_send a t m a' : wf a -> send a t m = Some a' -> wf a' /\ mem a' = mem a /\ disk a' = disk a.
Proof. intros []. unfold send. case_bool_decide; [done|]. by intros [= <-]. Qed.

Lemma wf_remove a i r m :
  wf a -> remove (mem a) i = Ok (r, m) -> wf (set_rules a m (RulePersist.delete_rule (disk a) i)).
Proof.
  intros H. unfold remove. destruct (rules (mem a) !! i) as [r'|] eqn:E; [|done]. intros [= <- <-].
  split; simpl.
  - by apply wf_drop; [apply wf_mem|].
  - apply RulePersist.mirror_delete, (wf_mirror a H).
  - intros j w Hj. simpl in Hj. apply lookup_delete_Some in Hj as [_ ?]. by apply (wf_whole a H j).
  - intros j q [_ ?]%lookup_delete_Some. by apply (wf_rules a H j).
Qed.

Definition persist_failed {A} (res : Result A OperatorError) : Prop :=
  res = Err (ActivationFailed (lit "persist_rule")).

Definition valid_user (u : list Z) : Prop :=
  starts_with_char 95 u = true \/ Rbac.user_id_from_str u = Ok u.

Lemma put_spec s c name listen host target proto ipv6 cap owner tgts health sni rl now r m :
  RuleStore.wf s -> 0 <= next_id s < u64_max ->
  push_range_with_targets s c name listen host target proto ipv6 cap owner tgts health sni rl now = Ok (r, m) ->
  RuleStore.wf m /\ id r = next_id s /\ rules m = <[id r := r]> (rules s) /\ client_id r = c /\
  client_name r = name /\ owner_user_id r = owner /\ state r = Pending.
Proof.
  intros Hwf Hn H.
  destruct (exec_wf s (OpPush c name listen host target proto ipv6 cap owner tgts health sni rl now) Hwf Hn)
    as [Hw _]. simpl in Hw. rewrite H in Hw. split; [done|]. clear Hw.
  unfold push_range_with_targets in H. destruct (pair listen target) as [[l t]|]; [|done].
  destruct (cap <? len l); [done|]. destruct (find_conflict _ _ _ _ _ _); [done|].
  injection H as <- <-. by split_and!.
Qed.

(** The new rule in memory and on disk. *)
Lemma wf_stored a r m d :
  wf a -> RuleStore.wf m -> id r = next_id (mem a) -> rules m = <[id r := r]> (rules (mem a)) ->
  RulePersist.valid_rule r -> RulePersist.upsert_rule (disk a) r = Ok d -> wf (set_rules a m d).
Proof.
  intros H Hwm Hid Hrules Hv Hup.
  assert (Hfresh : rules (mem a) !! id r = None) by (rewrite Hid; apply fresh_next, (wf_mem a H)).
  split; simpl; [done|..].
  - rewrite Hrules. eapply RulePersist.mirror_upsert; [apply (wf_whole a H)|apply (wf_mirror a H)|done| |done].
    intros r0. by rewrite Hfresh.
  - by eapply RulePersist.whole_upsert; [apply (wf_whole a H)|].
  - intros j q. rewrite Hrules, (upsert_users _ _ _ Hup), lookup_insert_Some.
    intros [[<- <-]|[_ ?]]; [split; [done|]|by apply (wf_rules a H j)].
    unfold RulePersist.upsert_rule in Hup. unfold storable. case_match eqn:E; [|done]. exact E.
Qed.

Lemma wf_push_stored a name proto req put message :
  wf a ->
  (forall cid r m, put cid = Ok (r, m) -> RuleStore.wf m /\ id r = next_id (mem a) /\
     rules m = <[id r := r]> (rules (mem a)) /\ RulePersist.valid_rule r) ->
  ~ persist_failed (push_stored a name proto req put message).1 ->
  wf (push_stored a name proto req put message).2.
Proof.
  intros H Hput. unfold push_stored. destruct (Clients.handles_by_name _ _) as [t|]; [|done].
  destruct (Clients.client_id_by_name _ _) as [cid|]; [|done].
  destruct (bool_decide (proto = Udp) && _); [done|].
  destruct (put cid) as [[r m]|] eqn:Hp; [|done]. destruct (Hput _ _ _ Hp) as (Hwm & Hid & Hrules & Hv).
  destruct (RulePersist.upsert_rule (disk a) r) as [d|] eqn:Hup; [|by intros []].
  pose proof (wf_stored a r m d H Hwm Hid Hrules Hv Hup) as Hw. intros _.
  destruct (send _ _ _) as [a'|] eqn:Hs; simpl.
  - eapply wf_send; [|exact Hs]. by apply wf_set_waiters.
  - destruct (remove m (id r)) as [[q m']|] eqn:Hrm; apply wf_set_waiters.
    + by apply (wf_remove (set_rules a m d) (id r) q m').
    + unfold remove in Hrm. rewrite Hrules, lookup_insert_eq in Hrm. done.
Qed.

Lemma valid_pushed r name owner :
  ClientName.new name = Ok name -> valid_user owner -> client_name r = name -> owner_user_id r = owner ->
  RulePersist.valid_rule r.
Proof. intros Hn Ho <- <-. by split. Qed.

Lemma wf_push_rule a identity grants raw listen host target protocol ipv6 cap req now :
  wf a -> 0 <= next_id (mem a) < u64_max -> valid_user (Rbac.who identity) ->
  ~ persist_failed (push_rule a identity grants raw listen host target protocol ipv6 cap req now).1 ->
  wf (push_rule a identity grants raw listen host target protocol ipv6 cap req now).2.
Proof.
  intros H Hn Hu. unfold push_rule. destruct (ClientName.new raw) as [name|] eqn:En; [|done].
  pose proof (ClientName.new_same _ _ En) as ->.
  repeat (case_match; [|done]). apply wf_push_stored; [done|]. intros cid r m Hp.
  apply put_spec in Hp as (? & ? & ? & ? & ? & ? & _); [|apply (wf_mem a H)|done].
  split_and!; auto. by eapply valid_pushed.
Qed.

Lemma wf_push_multi a identity name listen first rest health proto ipv6 cap sni rl req now :
  wf a -> 0 <= next_id (mem a) < u64_max -> valid_user (Rbac.who identity) -> ClientName.new name = Ok name ->
  ~ persist_failed (push_rule_multi_target a identity name listen first rest health proto ipv6 cap sni rl req now).1 ->
  wf (push_rule_multi_target a identity name listen first rest health proto ipv6 cap sni rl req now).2.
Proof.
  intros H Hn Hu Hname. apply wf_push_stored; [done|]. intros cid r m Hp.
  apply put_spec in Hp as (? & ? & ? & ? & ? & ? & _); [|apply (wf_mem a H)|done].
  split_and!; auto. by eapply valid_pushed.
Qed.

Lemma wf_push_finish a t req i ack now : wf a -> wf (push_finish a t req i ack now).2.
Proof.
  intros H. unfold push_finish. destruct ack as [s| |]; [|done|by apply wf_set_waiters].
  destruct (st_outcome s =? ACTIVATED).
  - destruct (mark_active (mem a) i now) as [m|] eqn:E; [|done]. simpl.
    pose proof (proj1 (mark_and_store_spec a i Active now H)) as Hw.
    unfold mark_active in E. rewrite E in Hw. exact Hw.
  - destruct (st_outcome s =? FAILED); [|done]. by apply mark_and_store_spec.
Qed.

Lemma wf_status a t client s now : wf a -> wf (handle_rule_status a t client s now).
Proof.
  intros H. unfold handle_rule_status. destruct (waiters a !! _ : option bool); [by destruct H|].
  unfold apply_unsolicited_rule_status. destruct (get _ _) as [r|]; [|done].
  destruct (negb _); [done|]. destruct (_ =? ACTIVATED); [by apply mark_and_store_spec|].
  destruct (_ =? FAILED); [by apply mark_and_store_spec|done].
Qed.

Lemma wf_replay_loop t caps version now reqs rs a : wf a -> wf (replay_loop a t caps version now reqs rs).
Proof.
  revert a. induction rs as [|r rs IH]; intros a H; [done|]. cbn [replay_loop].
  destruct (state r); try by apply IH.
  destruct (replay_gate_reason r caps version); [by apply IH, mark_and_store_spec|].
  pose proof (proj1 (mark_and_store_spec a (id r) Pending now H)) as Hw.
  unfold mark_pending. destruct (get _ _) as [u|]; [|by apply IH].
  destruct (send _ _ _) as [a'|] eqn:E; [|done]. apply IH. by eapply wf_send.
Qed.

Lemma wf_remove_rule a i req : wf a -> wf (remove_rule a i req).2.
Proof.
  intros H. unfold remove_rule. destruct (remove (mem a) i) as [[r m]|] eqn:E; [|done]. simpl.
  pose proof (wf_remove a i r m H E) as Hw. destruct (Clients.handles_by_name _ _) as [t|]; [|done].
  destruct (send _ _ _) as [a'|] eqn:Es; [|done]. simpl. by eapply wf_send.
Qed.

Lemma wf_update_rate a i rl req :
  wf a -> ~ persist_failed (update_rule_rate_limit a i rl req).1 -> wf (update_rule_rate_limit a i rl req).2.
Proof.
  intros H. unfold update_rule_rate_limit, get, update_rate_limit.
  destruct (rules (mem a) !! i) as [r|] eqn:E; [|done].
  destruct (Clients.handles_by_name _ _) as [t|]; [|done].
  destruct (wf_rules a H i r E) as [Hv _].
  assert (Hid : id r = i) by apply (RuleStore.wf_key _ (wf_mem a H) i r E).
  destruct (RulePersist.upsert_rule (disk a) (set_rate_limit rl r)) as [d|] eqn:Hu; [|by intros []]. intros _.
  assert (Hw : wf (set_rules a (with_rules (mem a) (<[i := set_rate_limit rl r]> (rules (mem a)))) d)).
  { destruct (wf_replace a i r (set_rate_limit rl r) H E) as (d' & Hd' & Hw); [done|done|by destruct Hv| |].
    - unfold RulePersist.upsert_rule in Hu. unfold storable. case_match eqn:Eq; [|done]. exact Eq.
    - congruence. }
  destruct (head _) as [first|]; [|by apply wf_set_waiters].
  destruct (send _ _ _) as [a'|] eqn:Es; simpl; [|by apply wf_set_waiters, wf_set_waiters].
  eapply wf_send; [|exact Es]. by apply wf_set_waiters.
Qed.

Lemma row_client d i w cid cname r :
  RulePersist.rule_of_row d i w cid cname = Ok r -> client_id r = cid.
Proof. unfold RulePersist.rule_of_row. repeat case_match; try done; by intros [= <-]. Qed.

Lemma rename_row d d' i w cid cname name r :
  RulePersist.target_rows d' = RulePersist.target_rows d -> ClientName.new name = Ok name ->
  RulePersist.rule_of_row d i w cid cname = Ok r ->
  RulePersist.rule_of_row d' i (with_name w name) cid name = Ok (set_client_name name r).
Proof.
  intros Ht Hn. unfold RulePersist.rule_of_row, RulePersist.load_targets. rewrite Ht, Hn. simpl.
  destruct (ClientName.new cname); [|done]. destruct (if starts_with_char 95 _ then _ else _); [|done].
  by intros [= <-].
Qed.

Lemma wf_rename a client name : wf a -> ClientName.new name = Ok name -> wf (rename_rules a client name).
Proof.
  intros H Hn. split; simpl.
  - apply wf_update; [apply (wf_mem a H)|]. intros i. rewrite lookup_fmap.
    destruct (rules (mem a) !! i); simpl; constructor. by case_match.
  - intros i. rewrite lookup_fmap. pose proof (wf_mirror a H i) as Hm. unfold RulePersist.load_one in *. simpl.
    rewrite lookup_fmap. destruct (RulePersist.rows (disk a) !! i) as [w|] eqn:Ew.
    2: { simpl. by destruct (rules (mem a) !! i). }
    destruct (wf_whole a H i w Ew) as [[cid Hc] [cname Hcn]]. rewrite Hc, Hcn in Hm. simpl.
    destruct (rules (mem a) !! i) as [r|] eqn:Er; [|done]. simpl in Hm. injection Hm as Hm. simpl.
    pose proof (row_client _ _ _ _ _ _ Hm) as Hcl. simpl in Hcl. rewrite Hc.
    destruct (client_id r =? client) eqn:Ecl.
    + apply Z.eqb_eq in Ecl. rewrite bool_decide_true by congruence. cbn [with_name RulePersist.c_client_id RulePersist.c_client_name].
      rewrite Hc. f_equal. by apply (rename_row (disk a) _ i w cid cname name (RulePersist.norm r)).
    + apply Z.eqb_neq in Ecl. rewrite bool_decide_false by congruence. rewrite Hc, Hcn. by rewrite <- Hm.
  - intros i w. simpl. rewrite lookup_fmap_Some. intros (w0 & <- & Hw0). apply (wf_whole a H) in Hw0 as [? ?].
    case_bool_decide; simpl; eauto.
  - intros i r. rewrite lookup_fmap_Some. intros (r0 & <- & Hr0). apply (wf_rules a H) in Hr0 as [[] Hs].
    case_match; split; try done.
Qed.

(** ** Any operation on the rules *)

Inductive app_step : App -> App -> Prop :=
| step_push a identity grants raw listen host target protocol ipv6 cap req now :
    0 <= next_id (mem a) < u64_max -> valid_user (Rbac.who identity) ->
    ~ persist_failed (push_rule a identity grants raw listen host target protocol ipv6 cap req now).1 ->
    app_step a (push_rule a identity grants raw listen host target protocol ipv6 cap req now).2
| step_push_multi a identity name listen first rest health proto ipv6 cap sni rl req now :
    0 <= next_id (mem a) < u64_max -> valid_user (Rbac.who identity) -> ClientName.new name = Ok name ->
    ~ persist_failed (push_rule_multi_target a identity name listen first rest health proto ipv6 cap sni rl req now).1 ->
    app_step a (push_rule_multi_target a identity name listen first rest health proto ipv6 cap sni rl req now).2
| step_finish a t req i ack now : app_step a (push_finish a t req i ack now).2
| step_status a t client s now : app_step a (handle_rule_status a t client s now)
| step_elapses a t req : app_step a (timeout_elapses a t req)
| step_replay a client t now reqs : app_step a (replay_rules_for_client a client t now reqs)
| step_remove a i req : app_step a (remove_rule a i req).2
| step_update a i rl req :
    ~ persist_failed (update_rule_rate_limit a i rl req).1 ->
    app_step a (update_rule_rate_limit a i rl req).2
| step_rename a client name : ClientName.new name = Ok name -> app_step a (rename_rules a client name).

Lemma wf_app_step a a' : app_step a a' -> wf a -> wf a'.
Proof.
  intros Hs H. destruct Hs; auto using wf_push_rule, wf_push_multi, wf_push_finish, wf_status, wf_set_waiters,
    wf_remove_rule, wf_update_rate, wf_rename; [by apply wf_set_waiters|by apply wf_replay_loop].
Qed.


(** The refused write: when the table refuses the new rule (say a bandwidth
    above [i64::MAX], which the validation of limits lets pass), the push
    fails, but the pending rule stays in memory, where it keeps its port, and
    is not on disk. *)
Theorem refused_write_leaves_rule (a : App) (identity : Rbac.OperatorIdentity) (name : list Z)
  (listen : PortRange) (first : RuleTarget.RuleTarget) (rest : list RuleTarget.RuleTarget) (health : option Z)
  (proto : Protocol) (ipv6 : option bool) (cap : Z) (sni : option (list Z)) (rl : option RateLimit.RateLimit)
  (req now : Z) :
  wf a -> 0 <= next_id (mem a) < u64_max ->
  let res := push_rule_multi_target a identity name listen first rest health proto ipv6 cap sni rl req now in
  persist_failed res.1 ->
  (exists r, rules (mem res.2) !! next_id (mem a) = Some r /\ state r = Pending) /\
  RulePersist.load_one (disk res.2) (next_id (mem a)) = None.
Proof.
  intros H Hn. unfold push_rule_multi_target, push_stored, persist_failed.
  destruct (Clients.handles_by_name _ _) as [t|]; [|done].
  destruct (Clients.client_id_by_name _ _) as [cid|]; [|done].
  destruct (bool_decide (proto = Udp) && _); [done|].
  destruct (push_range_with_targets _ _ _ _ _ _ _ _ _ _ _ _ _ _ _) as [[r m]|] eqn:Hp; [|done].
  apply put_spec in Hp as (_ & Hid & Hrules & _ & _ & _ & Hst); [|apply (wf_mem a H)|done].
  destruct (RulePersist.upsert_rule (disk a) r) as [d|] eqn:Hup.
  - destruct (send _ _ _); done.
  - intros _. simpl. rewrite Hrules, <- Hid, lookup_insert_eq. split; [eauto|].
    rewrite (wf_mirror a H), Hid, (fresh_next _ (wf_mem a H)). done.
Qed.

(** *** The replay *)

(** What the replay makes of a rule, and whether it is sent. *)
Definition replayed (client : Z) (caps : list Clients.Protocol) (version : option (list Z)) (now : Z) (r : Rule) : Rule :=
  if negb (client_id r =? client) then r
  else match state r with
       | Active =>
         match replay_gate_reason r caps version with
         | Some reason => set_state (Failed reason) now r
         | None => set_state Pending now r
         end
       | _ => r
       end.

Definition is_sent (caps : list Clients.Protocol) (version : option (list Z)) (r : Rule) : bool :=
  match state r with
  | Active => bool_decide (replay_gate_reason r caps version = None)
  | _ => false
  end.

Definition replay_msg (t now : Z) (reqs : Z -> Z) (r : Rule) : Z * (RuleAction * Z * WireRule) :=
  (t, (Push, reqs (id r), proto_rule_from_rule (set_state Pending now r))).

Lemma replay_loop_spec t caps version now reqs rs a :
  wf a -> t ∉ closed a -> NoDup (id <$> rs) -> (forall r, r ∈ rs -> rules (mem a) !! id r = Some r) ->
  let a' := replay_loop a t caps version now reqs rs in
  outbox a' = outbox a ++ (replay_msg t now reqs <$> filter (fun r => is_sent caps version r = true) rs) /\
  (forall r, r ∈ rs -> rules (mem a') !! id r = Some (replayed (client_id r) caps version now r)) /\
  (forall i, i ∉ id <$> rs -> rules (mem a') !! i = rules (mem a) !! i).
Proof.
  revert a. induction rs as [|r rs IH]; intros a H Ht Hnd Hin.
  { simpl. rewrite app_nil_r. split_and!; [done|by intros ? ?%elem_of_nil|done]. }
  rewrite fmap_cons in Hnd. apply NoDup_cons in Hnd as [Hr Hnd].
  assert (Hne : forall q, q ∈ rs -> id q <> id r).
  { intros q Hq E. apply Hr. rewrite <- E. by apply list_elem_of_fmap_2. }
  pose proof (Hin r ltac:(left)) as Hcur.
  assert (Hold : forall q, q ∈ rs -> rules (mem a) !! id q = Some q) by (intros q ?; apply Hin; by right).
  cbn [replay_loop]. rewrite filter_cons.
  assert (Hskip : forall b, wf b -> closed b = closed a ->
    (forall j, j <> id r -> rules (mem b) !! j = rules (mem a) !! j) ->
    rules (mem b) !! id r = Some (replayed (client_id r) caps version now r) ->
    let a' := replay_loop b t caps version now reqs rs in
    outbox a' = outbox b ++ (replay_msg t now reqs <$> filter (fun r => is_sent caps version r = true) rs) /\
    (forall q, q ∈ r :: rs -> rules (mem a') !! id q = Some (replayed (client_id q) caps version now q)) /\
    (forall i, i ∉ id <$> r :: rs -> rules (mem a') !! i = rules (mem a) !! i)).
  { intros b Hb Hcl Hj Hri. destruct (IH b) as (Ho & Hs & Hrest); [done|congruence|done| |].
    - intros q Hq. rewrite Hj by auto. auto.
    - split; [done|]. split.
      + intros q [->|Hq]%elem_of_cons; [|auto]. by rewrite Hrest.
      + intros i Hi. rewrite fmap_cons, not_elem_of_cons in Hi. destruct Hi as [Hi1 Hi2].
        rewrite Hrest by done. by apply Hj. }
  assert (Hsame : forall st, state r = st -> st <> Active -> replayed (client_id r) caps version now r = r).
  { intros st <- Hna. unfold replayed. rewrite Z.eqb_refl. simpl. by destruct (state r). }
  assert (Hact : state r = Active \/ state r <> Active) by (destruct (state r); auto; by right).
  destruct Hact as [Est|Est].
  2: { rewrite decide_False by (unfold is_sent; by destruct (state r)).
       destruct (state r) eqn:Es; try done; apply Hskip; try done; by rewrite (Hsame _ eq_refl). }
  rewrite Est.
  assert (Hrep : replayed (client_id r) caps version now r =
    match replay_gate_reason r caps version with
    | Some reason => set_state (Failed reason) now r | None => set_state Pending now r end).
  { unfold replayed. rewrite Z.eqb_refl. simpl. by rewrite Est. }
  destruct (replay_gate_reason r caps version) as [reason|] eqn:Eg.
  - rewrite decide_False by (unfold is_sent; rewrite Est, bool_decide_false; congruence).
    destruct (mark_and_store_spec a (id r) (Failed reason) now H) as (Hw & Hi & Hj).
    rewrite Hcur, Est in Hi. destruct (Hskip _ Hw) as (Ho & Hs & Hrest);
      [apply mark_and_store_rest|done|by rewrite Hrep|].
    split; [|done]. unfold mark_failed. by rewrite Ho, (proj1 (proj2 (mark_and_store_rest a (id r) _))).
  - rewrite decide_True by (unfold is_sent; by rewrite Est, bool_decide_true).
    destruct (mark_and_store_spec a (id r) Pending now H) as (Hw & Hi & Hj).
    rewrite Hcur, Est in Hi. unfold mark_pending, get. rewrite Hi.
    assert (Hcl : closed (mark_and_store a (id r) (mark Pending (mem a) (id r) now)) = closed a)
      by apply mark_and_store_rest.
    unfold send. rewrite bool_decide_false by (by rewrite Hcl).
    match goal with |- context [replay_loop ?b _ _ _ _ _ _] => destruct (Hskip b) as (Ho & Hs & Hrest) end;
      [by destruct Hw|done|done|by rewrite Hrep|].
    split; [|done]. rewrite Ho. simpl. rewrite (proj1 (proj2 (mark_and_store_rest a (id r) _))), <- app_assoc. done.
Qed.

Lemma list_rules_spec s client :
  RuleStore.wf s ->
  NoDup (id <$> list_rules s (Some client)) /\
  forall r, r ∈ list_rules s (Some client) <-> rules s !! id r = Some r /\ client_id r = client.
Proof.
  intros Hwf. unfold list_rules. split.
  - rewrite stable_sort_perm. eapply sublist_NoDup; [|apply sublist_fmap, sublist_filter].
    rewrite (values_ids s Hwf). apply NoDup_fst_map_to_list.
  - intros r. rewrite stable_sort_perm, list_elem_of_filter, elem_of_values by done. simpl.
    rewrite Z.eqb_eq. tauto.
Qed.

(** The capabilities the replay reads from the registry. *)
Definition session_caps (a : App) (client : Z) : list Clients.Protocol :=
  match Clients.inner (clients a) !! client with Some c => Clients.supported_protocols c | None => [] end.

Lemma replay_spec a client t now reqs :
  wf a -> t ∉ closed a ->
  let caps := session_caps a client in
  let version := Clients.client_version_of (clients a) client in
  let a' := replay_rules_for_client a client t now reqs in
  outbox a' = outbox a ++
    (replay_msg t now reqs <$> filter (fun r => is_sent caps version r = true) (list_rules (mem a) (Some client))) /\
  rules (mem a') = replayed client caps version now <$> rules (mem a).
Proof.
  intros H Ht caps version a'. destruct (list_rules_spec (mem a) client (wf_mem a H)) as [Hnd Hin].
  destruct (replay_loop_spec t caps version now reqs (list_rules (mem a) (Some client)) a H Ht Hnd)
    as (Ho & Hs & Hrest); [by intros r [? _]%Hin|].
  split; [exact Ho|]. apply map_eq. intros i. rewrite lookup_fmap.
  destruct (rules (mem a) !! i) as [r|] eqn:E; simpl.
  - destruct (RuleStore.wf_key _ (wf_mem a H) i r E) as [<- _].
    destruct (decide (client_id r = client)) as [Hc|Hc].
    + specialize (Hs r). rewrite Hc in Hs. apply Hs. by apply Hin.
    + unfold a', replay_rules_for_client. fold (session_caps a client). rewrite Hrest.
      * rewrite E. unfold replayed. by rewrite (proj2 (Z.eqb_neq _ _)).
      * intros (q & Hq & [Hqm Hqc]%Hin)%list_elem_of_fmap. rewrite <- Hq, E in Hqm. congruence.
  - unfold a', replay_rules_for_client. fold (session_caps a client). rewrite Hrest; [done|].
    intros (q & -> & [Hqm _]%Hin)%list_elem_of_fmap. congruence.
Qed.

(** C31. The replay on connect, exactly: on an open session it sends, in the
    order of their ids, the active rules of the client that the session's
    declared protocols and version can take, each as a push of the stored
    rule; those rules become pending, the other active rules of the client
    fail with the gate's reason, and no other rule changes. *)
Theorem replay_exact (a : App) (client t now : Z) (reqs : Z -> Z) :
  wf a -> t ∉ closed a ->
  let caps := session_caps a client in
  let version := Clients.client_version_of (clients a) client in
  let a' := replay_rules_for_client a client t now reqs in
  outbox a' = outbox a ++
    (replay_msg t now reqs <$> filter (fun r => is_sent caps version r = true) (list_rules (mem a) (Some client))) /\
  rules (mem a') = replayed client caps version now <$> rules (mem a) /\
  RulePersist.mirror (rules (mem a')) (disk a').
Proof.
  intros H Ht caps version a'. destruct (replay_spec a client t now reqs H Ht) as [? ?].
  split_and!; [done..|]. by apply (wf_mirror a'), wf_replay_loop.
Qed.

(** A replayed rule is sent once: when the session ends before the client
    answered, the replay of the next session finds the rule pending and sends
    it no more, whatever that session declares. *)
Theorem replay_not_repeated (a a2 : App) (client t t2 now now2 : Z) (reqs reqs2 : Z -> Z) :
  wf a -> t ∉ closed a -> wf a2 -> t2 ∉ closed a2 ->
  mem a2 = mem (replay_rules_for_client a client t now reqs) ->
  outbox (replay_rules_for_client a2 client t2 now2 reqs2) = outbox a2 /\
  rules (mem (replay_rules_for_client a2 client t2 now2 reqs2)) = rules (mem a2).
Proof.
  intros H Ht H2 Ht2 Hm. destruct (replay_spec a client t now reqs H Ht) as [_ Hr].
  rewrite <- Hm in Hr. destruct (replay_spec a2 client t2 now2 reqs2 H2 Ht2) as [Ho2 Hr2].
  assert (Hna : forall i r, rules (mem a2) !! i = Some r -> client_id r = client -> state r <> Active).
  { intros i r. rewrite Hr, lookup_fmap_Some. intros (r0 & <- & _). unfold replayed.
    destruct (client_id r0 =? client) eqn:E; simpl.
    - destruct (state r0) eqn:Es; try congruence. by case_match.
    - intros Hc. apply Z.eqb_neq in E. done. }
  split.
  - rewrite Ho2. assert (filter (fun r => is_sent (session_caps a2 client)
      (Clients.client_version_of (clients a2) client) r = true) (list_rules (mem a2) (Some client)) = []) as ->.
    { apply elem_of_nil_inv. intros r [Hs Hin]%list_elem_of_filter.
      apply (list_rules_spec _ _ (wf_mem a2 H2)) in Hin as [Hin Hc]. specialize (Hna _ _ Hin Hc).
      unfold is_sent in Hs. by destruct (state r). }
    by rewrite app_nil_r.
  - rewrite Hr2. apply map_eq. intros i. rewrite lookup_fmap.
    destruct (rules (mem a2) !! i) as [r|] eqn:E; [|done]. simpl. f_equal. unfold replayed.
    destruct (client_id r =? client) eqn:Ec; [|done]. simpl. apply Z.eqb_eq in Ec.
    specialize (Hna _ _ E Ec). by destruct (state r).
Qed.

(** *** The push *)

Lemma push_stored_sent a name proto req put message t r a' :
  push_stored a name proto req put message = (Ok (t, r), a') ->
  exists cid m, Clients.client_id_by_name (clients a) name = Some cid /\
    Clients.handles_by_name (clients a) name = Some t /\ put cid = Ok (r, m) /\ rules (mem a') = rules m /\
    outbox a' = outbox a ++ [(t, (Push, req, message r))] /\ waiters a' = <[(t, req) := true]> (waiters a).
Proof.
  unfold push_stored. destruct (Clients.handles_by_name _ _) as [t'|] eqn:Ht; [|done].
  destruct (Clients.client_id_by_name _ _) as [cid|] eqn:Hc; [|done].
  destruct (bool_decide (proto = Udp) && _); [done|].
  destruct (put cid) as [[r' m]|] eqn:Hp; [|done].
  destruct (RulePersist.upsert_rule (disk a) r') as [d|]; [|done].
  unfold send. case_bool_decide; [done|]. intros [= <- <- <-]. exists cid, m. done.
Qed.

Lemma put_message s c name listen host target proto ipv6 cap owner tgts health sni rl now r m :
  push_range_with_targets s c name listen host target proto ipv6 cap owner tgts health sni rl now = Ok (r, m) ->
  len target = len listen /\
  proto_rule_from_rule r =
    mkWire (id r) (start listen) host (start target) (proto_protocol proto)
      (if 1 <? len listen then end_ listen else 0) (if 1 <? len target then end_ target else 0) ipv6
      (proto_target <$> tgts) (default 0 health) sni (rate_limit_to_proto <$> rl) (Some owner) /\
  owner_user_id r = owner /\ sni_pattern r = sni /\ rate_limit r = rl.
Proof.
  unfold push_range_with_targets. destruct (pair listen target) as [[l tg]|] eqn:Ep; [|done].
  apply pair_ok_inv in Ep as (-> & -> & El). destruct (cap <? len listen); [done|]. destruct (find_conflict _ _ _ _ _ _); [done|].
  intros [= <- <-]. unfold proto_rule_from_rule. simpl. rewrite <- El.
  destruct (1 <? len listen); done.
Qed.

(** The replay says what the push said: the message of a push, of either
    kind, is the message the replay would build from the rule it stored, so
    the client is given the same rule after a reconnect as at the push. *)
Theorem push_message_is_replay (a : App) (identity : Rbac.OperatorIdentity) (grants : list Rbac.Grant)
  (raw name host protocol : list Z) (listen target : PortRange) (ipv6 : option bool) (cap req now : Z)
  (first : RuleTarget.RuleTarget) (rest : list RuleTarget.RuleTarget) (health : option Z) (proto : Protocol)
  (sni : option (list Z)) (rl : option RateLimit.RateLimit) (t : Z) (r : Rule) (a' : App) :
  push_rule a identity grants raw listen host target protocol ipv6 cap req now = (Ok (t, r), a') \/
  push_rule_multi_target a identity name listen first rest health proto ipv6 cap sni rl req now = (Ok (t, r), a') ->
  outbox a' = outbox a ++ [(t, (Push, req, proto_rule_from_rule r))] /\
  rules (mem a') !! id r = Some r.
Proof.
  assert (Hl : forall s c n l h tg p i6 cp o ts he sn rl' nw q m,
    push_range_with_targets s c n l h tg p i6 cp o ts he sn rl' nw = Ok (q, m) -> rules m !! id q = Some q).
  { intros. unfold push_range_with_targets in *. destruct (pair _ _) as [[? ?]|]; [|done].
    destruct (cp <? _); [done|]. destruct (find_conflict _ _ _ _ _ _); [done|].
    simplify_eq. simpl. by rewrite lookup_insert_eq. }
  intros [H|H].
  - unfold push_rule in H. destruct (ClientName.new raw) as [n|]; [|done].
    destruct (parse_protocol protocol) as [p|]; [|done]. destruct (Rbac.enforce_push _ _ _); [|done].
    destruct (Target.parse host); [|done].
    apply push_stored_sent in H as (cid & m & _ & _ & Hp & Hm & Ho & _). unfold push_range in Hp.
    destruct (put_message _ _ _ _ _ _ _ _ _ _ _ _ _ _ _ _ _ Hp) as (_ & Hw & Ho' & _).
    rewrite Hm. split; [|by eapply Hl]. rewrite Ho, Hw. unfold push_message. by rewrite Ho'.
  - apply push_stored_sent in H as (cid & m & _ & _ & Hp & Hm & Ho & _).
    destruct (put_message _ _ _ _ _ _ _ _ _ _ _ _ _ _ _ _ _ Hp) as (_ & Hw & Ho' & Hsn & Hrl).
    rewrite Hm. split; [|by eapply Hl]. rewrite Ho, Hw. unfold push_multi_message.
    by rewrite Ho', Hsn, Hrl, len_single.
Qed.

(** *** The client's answer *)

Definition activated (t : Z) (req : Z) (r : Rule) : Status := mkStatus req (id r) ACTIVATED [].

(** The client's "activated" reaches the rule whichever way it comes: taken
    by the waiting push, or, after the push gave up and cleared its waiter, as
    an unsolicited status of the rule's client; either way the rule is active
    in memory and the disk agrees. *)
Theorem activation_reaches_rule (a : App) (t req now now2 : Z) (r : Rule) :
  wf a -> rules (mem a) !! id r = Some r -> state r = Pending -> waiters a !! (t, req) = Some true ->
  let s := activated t req r in
  let waited := push_finish (handle_rule_status a t (client_id r) s now) t req (id r) (Received s) now2 in
  let late := handle_rule_status (push_finish a t req (id r) Elapsed now).2 t (client_id r) s now2 in
  inbox (handle_rule_status a t (client_id r) s now) !! (t, req) = Some s /\
  waited.1 = Ok (set_state Active now2 r) /\
  rules (mem waited.2) !! id r = Some (set_state Active now2 r) /\
  rules (mem late) !! id r = Some (set_state Active now2 r) /\
  wf waited.2 /\ wf late.
Proof.
  intros H Hr Hst Hw s waited late. set (a1 := handle_rule_status a t (client_id r) s now).
  assert (Ha1 : mem a1 = mem a /\ inbox a1 !! (t, req) = Some s).
  { unfold a1, handle_rule_status. cbn [s activated st_request]. rewrite Hw. simpl. by rewrite lookup_insert_eq. }
  assert (Hwf1 : wf a1) by by apply wf_status.
  destruct Ha1 as [Hm1 Hin]. destruct (mark_and_store_spec a1 (id r) Active now2 Hwf1) as (Hmw & Hmi & _).
  rewrite Hm1, Hr, Hst in Hmi.
  assert (Hwaited : waited = (Ok (set_state Active now2 r), mark_and_store a1 (id r) (mark Active (mem a1) (id r) now2))).
  { unfold waited, push_finish. fold a1. cbn [s activated st_outcome]. unfold mark_active, mark in *. rewrite Hm1, Hr, Hst in *.
    simpl in *. unfold get. by rewrite Hmi. }
  set (a2 := (push_finish a t req (id r) Elapsed now).2).
  assert (Hwf2 : wf a2) by by apply wf_set_waiters.
  destruct (mark_and_store_spec a2 (id r) Active now2 Hwf2) as (Hlw & Hli & _).
  assert (Hlate : late = mark_and_store a2 (id r) (mark Active (mem a2) (id r) now2)).
  { unfold late, handle_rule_status. fold a2. cbn [s activated st_request st_rule].
    assert (waiters a2 !! (t, req) = None) as -> by (simpl; apply lookup_delete_eq).
    unfold apply_unsolicited_rule_status, get. cbn [s activated st_rule st_outcome].
    assert (rules (mem a2) !! id r = Some r) as -> by exact Hr. by rewrite Z.eqb_refl. }
  assert (Hr2 : rules (mem a2) !! id r = Some r) by exact Hr. rewrite Hr2, Hst in Hli.
  clearbody a2. rewrite Hwaited, Hlate. cbn [fst snd]. split_and!; try done. by rewrite Hm1.
Qed.

(** The answer that is lost: when the timeout of the push has elapsed but
    its waiter is still registered, the status takes the waiter, nobody
    receives it, and the rule stays pending although the client activated
    it. *)
Theorem activation_lost_in_timeout (a : App) (t req now now2 : Z) (r : Rule) :
  rules (mem a) !! id r = Some r -> state r = Pending -> waiters a !! (t, req) = Some true ->
  inbox a !! (t, req) = None ->
  let s := activated t req r in
  let a' := (push_finish (handle_rule_status (timeout_elapses a t req) t (client_id r) s now) t req (id r) Elapsed now2).2 in
  rules (mem a') !! id r = Some r /\ inbox a' !! (t, req) = None /\ waiters a' !! (t, req) = None.
Proof.
  intros Hr Hst Hw Hi s a'. unfold a', handle_rule_status. cbn [s activated st_request].
  assert (waiters (timeout_elapses a t req) !! (t, req) = Some false) as ->
    by (simpl; by rewrite lookup_alter_eq, Hw).
  simpl. split_and!; [done|done|by rewrite lookup_delete_eq].
Qed.

(** A status speaks only for the client's own rules: one that no push of
    the session waits for changes nothing when the rule belongs to another
    client, whatever it claims. *)
Theorem status_of_other_client (a : App) (t client now : Z) (s : Status) (r : Rule) :
  waiters a !! (t, st_request s) = None ->
  rules (mem a) !! st_rule s = Some r -> client_id r <> client ->
  handle_rule_status a t client s now = a.
Proof.
  intros Hw Hr Hc. unfold handle_rule_status. rewrite Hw. unfold apply_unsolicited_rule_status, get.
  rewrite Hr. by rewrite (proj2 (Z.eqb_neq _ _)).
Qed.

(** *** Names and sessions *)

(** A rename cuts a connected client off from the rules it runs: before
    it, removing a rule tells the session the registry has under the rule's
    client name; after it the rules carry the new name, the registry the old
    one, and the removal succeeds without any message to the client. *)
Theorem rename_hides_session (a : App) (client i req t : Z) (name : list Z) (r : Rule) :
  rules (mem a) !! i = Some r -> client_id r = client -> t ∉ closed a ->
  Clients.handles_by_name (clients a) (client_name r) = Some t ->
  Clients.by_name (clients a) name = [] ->
  outbox (remove_rule a i req).2 = outbox a ++ [(t, (Remove, req, remove_message r))] /\
  is_ok (remove_rule (rename_rules a client name) i req).1 = true /\
  outbox (remove_rule (rename_rules a client name) i req).2 = outbox a.
Proof.
  intros Hr Hc Ht Hh Hn. unfold remove_rule, remove. split_and!.
  - rewrite Hr. simpl. rewrite Hh. unfold send. by rewrite bool_decide_false.
  - simpl. by rewrite lookup_fmap, Hr.
  - simpl. rewrite lookup_fmap, Hr. simpl. rewrite Hc, Z.eqb_refl. simpl.
    unfold Clients.handles_by_name. by rewrite Hn.
Qed.

(** ** Witnesses *)

(** Client 7, [edge], is connected as session 0. *)
Definition demo_clients : Clients.ConnectedClients :=
  Clients.mkClients {[7 := Clients.mkConnected (lit "edge") 0 0 [Clients.Tcp] (Some (lit "1.4.0"))]} 1 ∅ false.

Definition demo_app : App :=
  mkApp empty_store (RulePersist.mkDisk ∅ ∅ {[superadmin]}) demo_clients ∅ ∅ [] ∅.

Lemma demo_app_wf : wf demo_app.
Proof.
  split; simpl.
  - apply RuleStore.wf_empty.
  - intros i. unfold RulePersist.load_one. simpl. by rewrite !lookup_empty.
  - intros i w. simpl. by rewrite lookup_empty.
  - intros i r. by rewrite lookup_empty.
Qed.

Definition demo_identity : Rbac.OperatorIdentity := Rbac.mkIdentity superadmin Rbac.Superadmin.

Definition demo_first : RuleTarget.RuleTarget := RuleTarget.mkRuleTarget (lit "10.0.0.1") 8443 0 None.

Definition demo_push (rl : option RateLimit.RateLimit) : Result (Z * Rule) OperatorError * App :=
  push_rule_multi_target demo_app demo_identity (lit "edge") (single 443) demo_first [] None Tcp None 16
    (Some (lit "a.example")) rl 50 1000.

Definition demo_rule : Rule :=
  mkRule 0 7 (lit "edge") 443 None (lit "10.0.0.1") 8443 None None Tcp Pending 1000 1000 superadmin [demo_first]
    None (Some (lit "a.example")) None.

Definition demo_pushed : App := (demo_push None).2.

Lemma demo_push_ok : demo_push None = (Ok (0, demo_rule), demo_pushed).
Proof. reflexivity. Qed.

Lemma demo_valid_user : valid_user (Rbac.who demo_identity).
Proof. by left. Qed.

Lemma demo_step : app_step demo_app demo_pushed.
Proof.
  apply (step_push_multi demo_app demo_identity (lit "edge") (single 443) demo_first [] None Tcp None 16
    (Some (lit "a.example")) None 50 1000); [by vm_compute|exact demo_valid_user|done|].
  unfold persist_failed. fold (demo_push None). by rewrite demo_push_ok.
Qed.

Lemma demo_pushed_wf : wf demo_pushed.
Proof. exact (wf_app_step _ _ demo_step demo_app_wf). Qed.


(** A bandwidth of [2^63] passes the validation and not the column. *)
Definition demo_cap : RateLimit.RateLimit :=
  RateLimit.mkRateLimit (Some 9223372036854775808) None None None None None None.

Lemma refused_write_leaves_rule_witness :
  RateLimit.validate demo_cap = Ok tt /\
  (exists r, rules (mem (demo_push (Some demo_cap)).2) !! 0 = Some r /\ state r = Pending) /\
  RulePersist.load_one (disk (demo_push (Some demo_cap)).2) 0 = None.
Proof.
  split; [reflexivity|].
  apply (refused_write_leaves_rule demo_app demo_identity (lit "edge") (single 443) demo_first [] None Tcp None 16
    (Some (lit "a.example")) (Some demo_cap) 50 1000 demo_app_wf); [by vm_compute|reflexivity].
Defined.

Lemma push_message_is_replay_witness :
  outbox demo_pushed = [(0, (Push, 50, proto_rule_from_rule demo_rule))].
Proof.
  apply (push_message_is_replay demo_app demo_identity [] [] (lit "edge") [] [] (single 443) (single 443) None 16 50 1000
    demo_first [] None Tcp (Some (lit "a.example")) None 0 demo_rule demo_pushed).
  right. exact demo_push_ok.
Defined.

Lemma activation_reaches_rule_witness :
  (push_finish (handle_rule_status demo_pushed 0 7 (activated 0 50 demo_rule) 1100) 0 50 0
     (Received (activated 0 50 demo_rule)) 1200).1 = Ok (set_state Active 1200 demo_rule).
Proof.
  apply (activation_reaches_rule demo_pushed 0 50 1100 1200 demo_rule demo_pushed_wf); reflexivity.
Defined.

Lemma activation_lost_in_timeout_witness :
  rules (mem (push_finish (handle_rule_status (timeout_elapses demo_pushed 0 50) 0 7 (activated 0 50 demo_rule) 1100)
    0 50 0 Elapsed 1200).2) !! 0 = Some demo_rule.
Proof. apply (activation_lost_in_timeout demo_pushed 0 50 1100 1200 demo_rule); reflexivity. Defined.

Lemma status_of_other_client_witness :
  handle_rule_status demo_pushed 0 8 (mkStatus 99 0 FAILED (lit "no")) 1100 = demo_pushed.
Proof. apply (status_of_other_client _ _ _ _ _ demo_rule); [reflexivity|reflexivity|by cbn]. Defined.

Definition demo_active : App :=
  (push_finish (handle_rule_status demo_pushed 0 7 (activated 0 50 demo_rule) 1100) 0 50 0
     (Received (activated 0 50 demo_rule)) 1200).2.

Lemma demo_active_wf : wf demo_active.
Proof. apply wf_push_finish, wf_status, demo_pushed_wf. Qed.

Lemma replay_exact_witness :
  outbox (replay_rules_for_client demo_active 7 0 1300 (fun i => i + 60)) =
  outbox demo_active ++ [replay_msg 0 1300 (fun i => i + 60) (set_state Active 1200 demo_rule)].
Proof.
  refine (proj1 (replay_exact demo_active 7 0 1300 (fun i => i + 60) demo_active_wf _)).
  by apply not_elem_of_empty.
Defined.

Lemma replay_not_repeated_witness :
  length (outbox (replay_rules_for_client demo_active 7 0 1300 (fun i => i + 60))) = 2%nat /\
  outbox (replay_rules_for_client (replay_rules_for_client demo_active 7 0 1300 (fun i => i + 60)) 7 1 1400
    (fun i => i + 70)) = outbox (replay_rules_for_client demo_active 7 0 1300 (fun i => i + 60)).
Proof.
  split; [reflexivity|].
  apply (replay_not_repeated demo_active (replay_rules_for_client demo_active 7 0 1300 (fun i => i + 60)) 7 0 1 1300 1400
    (fun i => i + 60) (fun i => i + 70) demo_active_wf).
  - by apply not_elem_of_empty.
  - apply wf_replay_loop, demo_active_wf.
  - assert (E : closed (replay_rules_for_client demo_active 7 0 1300 (fun i => i + 60)) = ∅) by reflexivity.
    rewrite E. apply not_elem_of_empty.
  - reflexivity.
Defined.

Lemma rename_hides_session_witness :
  outbox (remove_rule (rename_rules demo_active 7 (lit "core")) 0 80).2 = outbox demo_active.
Proof.
  apply (rename_hides_session demo_active 7 0 80 0 (lit "core") (set_state Active 1200 demo_rule));
    [reflexivity|reflexivity|by apply not_elem_of_empty|reflexivity|reflexivity].
Defined.

End RulePush.
