(* ===== verification/ClientControl.v ===== *)
(** * The client's side of the control stream

    [handle_server_message] and [relay_status] of
    [crates/portunus-client/src/control.rs]: how a client turns the server's
    messages into running rules, limits and quotas, and its forwarders' events
    into statuses; over the port groups ([PortGroups]), the limiters
    ([RateScope]) and the quotas ([Quota]) of the data plane, and the wire
    records of [RulePush].

    The process-wide registries outlive a session; the rule slots do not.  A
    request id is a number, the empty string [NO_REQUEST].  What a bind
    answers, the instant of a call and the fresh counters are arguments. *)

From S2P Require Import Prelude Text PortRange IpAddr RateLimit RateScope Target PortGroups Quota RuleStore.
From S2P Require Import ClientTokens ClientSessions RulePersist RulePush.

Local Open Scope Z_scope.

Module ClientControl.
Import PortRange RulePush.

Definition NO_REQUEST : Z := -1.

(** [forwarder::ClientRule]: the part a port group reads, and the rest. *)
Record ClientRule : Type := mkClientRule {
  base : PortGroups.ClientRule;
  c_target_host : list Z;
  c_protocol : RuleStore.Protocol;
  c_udp_max_flows : Z;
  c_udp_flow_idle_secs : Z;
  c_health : option Z;
}.

Record RuleSlot : Type := mkSlot {
  cancelled : bool;
  push_request_id : Z;
  remove_request_id : option Z;
  is_range : bool;
  slot_limiter : option Z;
  slot_limiter_stats : option nat;
}.

Inductive RuleStatusEvent : Type :=
| Activated (rule_id : Z)
| Failed (rule_id : Z) (reason : list Z)
| Removed (rule_id : Z).

(** [running]: the rules given to [forwarder::run], by id; [status]: the bounded
    channel to the pump; [sent]: the statuses sent to the server. *)
Record Client : Type := mkClient {
  slots : gmap Z RuleSlot;
  groups : PortGroups.Manager;
  limits : RateScope.World;
  owner_stats : gmap (list Z) nat;
  quotas : Quota.Registry;
  running : gmap Z ClientRule;
  status : list RuleStatusEvent;
  sent : list Status;
}.

Definition STATUS_QUEUE : nat := 64.

(** [try_send]: dropped when the channel is full. *)
Definition try_send (c : Client) (e : RuleStatusEvent) : Client :=
  if (length (status c) <? STATUS_QUEUE)%nat
  then mkClient (slots c) (groups c) (limits c) (owner_stats c) (quotas c) (running c) (status c ++ [e]) (sent c)
  else c.

Definition set_slots (c : Client) (m : gmap Z RuleSlot) : Client :=
  mkClient m (groups c) (limits c) (owner_stats c) (quotas c) (running c) (status c) (sent c).

Definition set_limits (c : Client) (w : RateScope.World) : Client :=
  mkClient (slots c) (groups c) w (owner_stats c) (quotas c) (running c) (status c) (sent c).

Definition set_groups (c : Client) (m : PortGroups.Manager) : Client :=
  mkClient (slots c) m (limits c) (owner_stats c) (quotas c) (running c) (status c) (sent c).

Definition set_quotas (c : Client) (q : Quota.Registry) : Client :=
  mkClient (slots c) (groups c) (limits c) (owner_stats c) q (running c) (status c) (sent c).

(** ** Decoding a pushed rule *)

Definition u16_or (z d : Z) : Z := if (0 <=? z) && (z <=? u16_max) then z else d.

(** An end of [0], or one that is no port, stands for a single port. *)
Definition end_or (e port : Z) : Z := if (1 <=? e) && (e <=? u16_max) then e else port.

Definition proxy_from_wire (v : option Z) : option RuleTarget.ProxyProtocolVersion :=
  match v with
  | Some 1 => Some RuleTarget.V1
  | Some 2 => Some RuleTarget.V2
  | _ => None
  end.

Inductive DecodeError : Type := RangeInvalid | InvalidTargetHost | InvalidTargetPort (idx : nat).

Definition reason_text (e : DecodeError) : list Z :=
  match e with
  | RangeInvalid => lit "range_invalid"
  | InvalidTargetHost => lit "invalid_target_host"
  | InvalidTargetPort idx => lit "target_invalid_port:" ++ IpAddr.show_dec (Z.of_nat idx)
  end.

Fixpoint decode_targets (idx : nat) (ts : list WireTarget) : Result (list RuleTarget.RuleTarget) DecodeError :=
  match ts with
  | [] => Ok []
  | t :: ts =>
    match Target.parse (w_host t) with
    | Err _ => Err InvalidTargetHost
    | Ok _ =>
      if (1 <=? w_port t) && (w_port t <=? u16_max) then
        let? rest := decode_targets (S idx) ts in
        Ok (RuleTarget.mkRuleTarget (w_host t) (w_port t) (w_priority t) (proxy_from_wire (w_proxy t)) :: rest)
      else Err (InvalidTargetPort idx)
    end
  end.

Record Decoded : Type := mkDecoded {
  d_listen : PortRange;
  d_target : PortRange;
  d_target_host : Target.Target;
  d_protocol : RuleStore.Protocol;
  d_targets : list RuleTarget.RuleTarget;
  d_health : option Z;
}.

Definition protocol_from_wire (p : Z) : RuleStore.Protocol :=
  if p =? 2 then RuleStore.Udp else RuleStore.Tcp.

Definition is_tcp (p : RuleStore.Protocol) : bool := match p with RuleStore.Tcp => true | RuleStore.Udp => false end.

Definition decode (w : WireRule) : Result Decoded DecodeError :=
  let listen_port := u16_or (w_listen_port w) 0 in
  let target_port := u16_or (w_target_port w) 0 in
  let listen_end := end_or (w_listen_port_end w) listen_port in
  let target_end := end_or (w_target_port_end w) target_port in
  match new listen_port listen_end with
  | Err _ => Err RangeInvalid
  | Ok listen =>
    match new target_port target_end with
    | Err _ => Err RangeInvalid
    | Ok target =>
      match Target.parse (w_target_host w) with
      | Err _ => Err InvalidTargetHost
      | Ok host =>
        let? ts := decode_targets 0 (w_targets w) in
        Ok (mkDecoded listen target host (protocol_from_wire (w_protocol w)) ts
              (if w_health w =? 0 then None else Some (w_health w)))
      end
    end
  end.

(** ** A push *)

(** [owner_id] when it is not the empty string. *)
Definition owner_of (w : WireRule) : option (list Z) :=
  match w_owner_id w with Some [] => None | o => o end.

(** [as_ref().map(|_| b)]. *)
Definition tag {A B} (b : B) (o : option A) : option B := (fun _ => b) <$> o.

Definition owner_stats_for (c : Client) (o : option (list Z)) (fresh : nat) : gmap (list Z) nat :=
  match o with
  | Some u => match owner_stats c !! u with Some _ => owner_stats c | None => <[u := fresh]> (owner_stats c) end
  | None => owner_stats c
  end.

Definition client_rule (c : Client) (w : WireRule) (d : Decoded) (udp_max udp_idle : Z) (fresh : nat) : ClientRule :=
  let o := owner_of w in
  mkClientRule
    (PortGroups.mkRule (w_rule_id w) (d_listen d) (d_target_host d) (d_target d) (default false (w_prefer_ipv6 w))
       (d_targets d) (w_sni_pattern w)
       (tag (w_rule_id w) (w_rate_limit w)) (tag fresh (w_rate_limit w))
       o (o ≫= fun u => owner_stats_for c o (S fresh) !! u) (o ≫= Quota.lookup (quotas c)))
    (w_target_host w) (d_protocol d) udp_max udp_idle (d_health d).

Definition port_group_reason (e : PortGroups.PortGroupError) : list Z :=
  match e with
  | PortGroups.BindFailed => lit "bind_failed"
  | PortGroups.ModeChangeUnsupported => lit "mode_change_unsupported"
  | PortGroups.DuplicateRuleId _ => lit "duplicate_rule_id"
  | PortGroups.UnknownRuleId _ => lit "unknown_rule_id"
  end.

(** A push of a rule that has a slot: only the limit changes. *)
Definition repush (c : Client) (w : WireRule) (req now : Z) (fresh : nat) (slot : RuleSlot) : Client :=
  let i := w_rule_id w in
  let limits' := default (limits c) (RateScope.update (limits c) i (w_rate_limit w) now) in
  let slot' := mkSlot (cancelled slot) req (remove_request_id slot) (is_range slot) (tag i (w_rate_limit w))
                 (match slot_limiter_stats slot with Some a => Some a | None => tag fresh (w_rate_limit w) end) in
  try_send (set_slots (set_limits c limits') (<[i := slot']> (slots c))) (Activated i).

(** A push of a new rule.  [fresh] starts the counters it may allocate. *)
Definition push_new (c : Client) (w : WireRule) (req now : Z) (fresh : nat) (stats : PortGroups.RuleStats)
  (bind_ok : bool) (udp_max udp_idle : Z) : Client :=
  let i := w_rule_id w in
  match decode w with
  | Err e => try_send c (Failed i (reason_text e))
  | Ok d =>
    let r := client_rule c w d udp_max udp_idle fresh in
    let c := mkClient (slots c) (groups c) (RateScope.install (limits c) i (w_rate_limit w) now)
               (owner_stats_for c (owner_of w) (S fresh)) (quotas c) (running c) (status c) (sent c) in
    let slot := mkSlot false req None (start (d_listen d) <? end_ (d_listen d)) (tag i (w_rate_limit w))
                  (tag fresh (w_rate_limit w)) in
    if PortGroups.routes_via_sni (groups c) (is_tcp (d_protocol d)) (base r) then
      match PortGroups.apply_push (groups c) (base r) stats bind_ok with
      | (Ok _, m) => try_send (set_slots (set_groups c m) (<[i := slot]> (slots c))) (Activated i)
      | (Err e, m) => try_send (set_groups c m) (Failed i (port_group_reason e))
      end
    else
      mkClient (<[i := slot]> (slots c)) (groups c) (limits c) (owner_stats c) (quotas c)
        (<[i := r]> (running c)) (status c) (sent c)
  end.

Definition handle_push (c : Client) (w : WireRule) (req now : Z) (fresh : nat) (stats : PortGroups.RuleStats)
  (bind_ok : bool) (udp_max udp_idle : Z) : Client :=
  match slots c !! w_rule_id w with
  | Some slot => repush c w req now fresh slot
  | None => push_new c w req now fresh stats bind_ok udp_max udp_idle
  end.

(** ** A removal *)

Definition handle_remove (c : Client) (w : WireRule) (req : Z) : Client :=
  let i := w_rule_id w in
  let c := set_limits (set_groups c (PortGroups.apply_remove (groups c) i).2) (RateScope.remove (limits c) i) in
  match slots c !! i with
  | Some slot =>
    try_send
      (set_slots c (<[i := mkSlot true (push_request_id slot) (Some req) (is_range slot) (slot_limiter slot)
                          (slot_limiter_stats slot)]> (slots c)))
      (Removed i)
  | None => c
  end.

(** ** Quotas and owner limits *)

Definition apply_traffic_quota_update (c : Client) (set : bool) (user : list Z) (st : option Quota.QuotaState) :
  Client :=
  if set then
    match st with
    | Some st =>
      match Quota.install (quotas c) user st with
      | Some (_, q) => set_quotas c q
      | None => c
      end
    | None => c
    end
  else set_quotas c (Quota.remove (quotas c) user).2.

Definition apply_owner_rate_limit_update (c : Client) (set : bool) (owner : list Z)
  (rl : option RateLimit.RateLimit) (now : Z) : Client :=
  if set then set_limits c (default (limits c) (RateScope.update_owner (limits c) owner rl now))
  else set_limits c (RateScope.remove_owner (limits c) owner).

(** ** Relaying an event *)

Definition relay_status (c : Client) (e : RuleStatusEvent) : Client :=
  let send m s := mkClient m (groups c) (limits c) (owner_stats c) (quotas c) (running c) (status c) (sent c ++ [s]) in
  match e with
  | Activated i =>
    let req := match slots c !! i with Some s => push_request_id s | None => NO_REQUEST end in
    send (slots c) (mkStatus req i ACTIVATED [])
  | Failed i reason =>
    let req := match slots c !! i with Some s => push_request_id s | None => NO_REQUEST end in
    send (delete i (slots c)) (mkStatus req i FAILED reason)
  | Removed i =>
    let req := match slots c !! i with
               | Some s => default (push_request_id s) (remove_request_id s)
               | None => NO_REQUEST
               end in
    send (delete i (slots c)) (mkStatus req i REMOVED [])
  end.

(** The pump takes the next event of the channel. *)
Definition relay_next (c : Client) : Client :=
  match status c with
  | [] => c
  | e :: rest =>
    relay_status (mkClient (slots c) (groups c) (limits c) (owner_stats c) (quotas c) (running c) rest (sent c)) e
  end.

(** ** Theorems *)

(** Which stored rules a client can decode: what the validation of a push
    leaves. *)
Record decodable (r : RuleStore.Rule) : Prop := mkDecodable {
  ok_listen : 1 <= RuleStore.listen_port r <= u16_max;
  ok_listen_end : forall e, RuleStore.listen_port_end r = Some e -> RuleStore.listen_port r < e <= u16_max;
  ok_target : 1 <= RuleStore.target_port r <= u16_max;
  ok_target_end : forall e, RuleStore.target_port_end r = Some e -> RuleStore.target_port r < e <= u16_max;
  ok_host : is_ok (Target.parse (RuleStore.target_host r)) = true;
  ok_targets : Forall (fun t => is_ok (Target.parse (RuleTarget.host t)) = true /\
    1 <= RuleTarget.port t <= u16_max) (RuleStore.targets r);
  ok_health : RuleStore.health_check_interval_secs r <> Some 0;
}.

Lemma decode_targets_proto ts idx :
  Forall (fun t => is_ok (Target.parse (RuleTarget.host t)) = true /\ 1 <= RuleTarget.port t <= u16_max) ts ->
  decode_targets idx (proto_target <$> ts) = Ok ts.
Proof.
  intros H. revert idx. induction H as [|t ts [Hp Hport] _ IH]; intros idx; [done|].
  rewrite fmap_cons. cbn [decode_targets]. destruct t as [host port prio proxy]. simpl in *.
  destruct (Target.parse host); [|done].
  replace ((1 <=? port) && (port <=? u16_max)) with true by (symmetry; apply andb_true_iff; rewrite !Z.leb_le; lia).
  rewrite IH. simpl. by destruct proxy as [[]|].
Qed.

Lemma decode_range p e :
  1 <= p <= u16_max -> (forall z, e = Some z -> p < z <= u16_max) ->
  new (u16_or p 0) (end_or (default 0 e) (u16_or p 0)) = Ok (RuleStore.range_of p e).
Proof.
  intros Hp He. unfold u16_or, end_or, RuleStore.range_of.
  replace ((0 <=? p) && (p <=? u16_max)) with true by (symmetry; apply andb_true_iff; rewrite !Z.leb_le; lia).
  destruct e as [z|]; simpl.
  - specialize (He z eq_refl).
    replace ((1 <=? z) && (z <=? u16_max)) with true by (symmetry; apply andb_true_iff; rewrite !Z.leb_le; lia).
    rewrite (proj2 (Z.ltb_lt p z)) by lia. unfold new.
    rewrite (proj2 (Z.eqb_neq p 0)), (proj2 (Z.ltb_ge z p)) by lia. done.
  - unfold new. rewrite (proj2 (Z.eqb_neq p 0)), (proj2 (Z.ltb_ge p p)) by lia. done.
Qed.

Lemma decode_proto r :
  decodable r -> exists host, Target.parse (RuleStore.target_host r) = Ok host /\
  decode (proto_rule_from_rule r) =
    Ok (mkDecoded (RuleStore.listen_range r) (RuleStore.target_range r) host (RuleStore.protocol r)
          (RuleStore.targets r) (RuleStore.health_check_interval_secs r)).
Proof.
  intros [Hl Hle Ht Hte Hh Hts Hhc]. unfold decode.
  cbn [proto_rule_from_rule w_listen_port w_target_port w_listen_port_end w_target_port_end w_target_host
    w_targets w_protocol w_health].
  rewrite (decode_range _ _ Hl Hle), (decode_range _ _ Ht Hte), (decode_targets_proto _ _ Hts).
  destruct (Target.parse (RuleStore.target_host r)) as [host|]; [|done]. exists host. split; [done|]. simpl.
  assert (protocol_from_wire (proto_protocol (RuleStore.protocol r)) = RuleStore.protocol r) as ->
    by (by destruct (RuleStore.protocol r)).
  destruct (RuleStore.health_check_interval_secs r) as [h|]; simpl; [|done].
  destruct (h =? 0) eqn:E; [|done]. apply Z.eqb_eq in E as ->. done.
Qed.

(** C32. What the server stores is what the client runs: the message of a
    stored rule (at the push and at every replay) decodes, at a client that
    does not have it, to a rule with the same listen and target ranges,
    protocol, target list, selector, health-check interval and owner, capped
    when it is; that rule is what is handed to the port's group or to its own
    forwarder. *)
Theorem stored_rule_reaches_client (r : RuleStore.Rule) (c : Client) (req now udp_max udp_idle : Z) (fresh : nat)
  (stats : PortGroups.RuleStats) (bind_ok : bool) :
  decodable r -> RuleStore.owner_user_id r <> [] -> slots c !! RuleStore.id r = None ->
  let c' := handle_push c (proto_rule_from_rule r) req now fresh stats bind_ok udp_max udp_idle in
  exists cr,
    (if PortGroups.routes_via_sni (groups c) (is_tcp (RuleStore.protocol r)) (base cr)
     then groups c' = (PortGroups.apply_push (groups c) (base cr) stats bind_ok).2
     else running c' !! RuleStore.id r = Some cr) /\
    PortGroups.r_rule_id (base cr) = RuleStore.id r /\
    PortGroups.r_listen_range (base cr) = RuleStore.listen_range r /\
    PortGroups.r_target_range (base cr) = RuleStore.target_range r /\
    PortGroups.r_targets (base cr) = RuleStore.targets r /\
    PortGroups.r_sni_pattern (base cr) = RuleStore.sni_pattern r /\
    PortGroups.r_prefer_ipv6 (base cr) = default false (RuleStore.prefer_ipv6 r) /\
    PortGroups.r_owner_rate_limit (base cr) = Some (RuleStore.owner_user_id r) /\
    c_protocol cr = RuleStore.protocol r /\ c_health cr = RuleStore.health_check_interval_secs r /\
    c_target_host cr = RuleStore.target_host r /\
    (is_Some (PortGroups.r_rate_limit (base cr)) <-> is_Some (RuleStore.rate_limit r)).
Proof.
  intros Hd Ho Hs. destruct (decode_proto r Hd) as (host & _ & Hdec). unfold handle_push.
  cbn [proto_rule_from_rule w_rule_id]. rewrite Hs. unfold push_new. rewrite Hdec.
  match goal with |- context [client_rule c ?w ?d udp_max udp_idle fresh] =>
    set (cr := client_rule c w d udp_max udp_idle fresh) end.
  exists cr. split.
  - cbn [groups d_protocol]. destruct (PortGroups.routes_via_sni _ _ _).
    + destruct (PortGroups.apply_push _ _ _ _) as [[|] m]; simpl; unfold try_send; by case_match.
    + simpl. by rewrite lookup_insert_eq.
  - unfold cr. simpl. split_and!; try done.
    + unfold owner_of. simpl. by destruct (RuleStore.owner_user_id r).
    + destruct (RuleStore.rate_limit r); simpl; split; intros []; eauto; done.
Qed.

(** A failure that never got a slot answers nobody: when a push is refused
    at decoding or by its port group, the status the client sends carries no
    request id; the server marks the rule failed, but the push that waits for
    its own id keeps waiting and ends with a timeout instead of the reason. *)
Theorem refused_push_answers_nobody (c : Client) (w : WireRule) (req now udp_max udp_idle : Z) (fresh : nat)
  (stats : PortGroups.RuleStats) (e : DecodeError) (a : App) (t client now2 : Z) (r : RuleStore.Rule) :
  slots c !! w_rule_id w = None -> status c = [] -> decode w = Err e ->
  let c' := relay_next (push_new c w req now fresh stats true udp_max udp_idle) in
  let s := mkStatus NO_REQUEST (w_rule_id w) FAILED (reason_text e) in
  sent c' = sent c ++ [s] /\
  (RulePush.wf a -> waiters a !! (t, req) = Some true -> waiters a !! (t, NO_REQUEST) = None ->
   RuleStore.rules (mem a) !! w_rule_id w = Some r -> RuleStore.client_id r = client ->
   RuleStore.state r = RuleStore.Pending ->
   let a' := handle_rule_status a t client s now2 in
   waiters a' !! (t, req) = Some true /\ inbox a' = inbox a /\
   RuleStore.rules (mem a') !! w_rule_id w =
     Some (RuleStore.set_state (RuleStore.Failed (reason_text e)) now2 r)).
Proof.
  intros Hs Hq Hd c' s. split.
  - unfold c', push_new. rewrite Hd. unfold try_send. rewrite Hq. simpl. unfold relay_next. simpl.
    by rewrite Hs.
  - intros Hwf Hw Hn Hr Hc Hst. unfold handle_rule_status. cbn [s st_request]. rewrite Hn.
    unfold apply_unsolicited_rule_status, RuleStore.get. cbn [s st_rule st_outcome]. rewrite Hr, Hc, Z.eqb_refl.
    simpl. assert (reason_of s = reason_text e) as -> by (by destruct e).
    destruct (mark_and_store_spec a (w_rule_id w) (RuleStore.Failed (reason_text e)) now2 Hwf) as (_ & Hm & _).
    rewrite Hr, Hst in Hm. destruct (mark_and_store_waiters a (w_rule_id w)
      (RuleStore.mark_failed (mem a) (w_rule_id w) (reason_text e) now2)) as [-> ->]. done.
Qed.

(** A limit set on a running rule that had none is not enforced: the new
    push installs the limiter and answers "activated", but the rule its
    forwarder runs was built without a limiter and stays so. *)
Theorem late_limit_not_enforced (c : Client) (w : WireRule) (req now udp_max udp_idle : Z) (fresh : nat)
  (stats : PortGroups.RuleStats) (bind_ok : bool) (slot : RuleSlot) (cr : ClientRule) (rl : RateLimit.RateLimit) :
  slots c !! w_rule_id w = Some slot -> running c !! w_rule_id w = Some cr ->
  PortGroups.r_rate_limit (base cr) = None -> RateScope.get (limits c) (w_rule_id w) = None ->
  w_rate_limit w = Some rl -> (length (status c) < STATUS_QUEUE)%nat ->
  let c' := handle_push c w req now fresh stats bind_ok udp_max udp_idle in
  is_Some (RateScope.get (limits c') (w_rule_id w)) /\
  status c' = status c ++ [Activated (w_rule_id w)] /\
  running c' !! w_rule_id w = Some cr.
Proof.
  intros Hs Hr Hn Hg Hw Hq. unfold handle_push. rewrite Hs. unfold repush. rewrite Hw.
  unfold RateScope.update. unfold RateScope.get in *. rewrite Hg. simpl.
  unfold try_send. cbn [status set_slots set_limits]. rewrite (proj2 (Nat.ltb_lt _ _)) by done. simpl.
  split_and!; [by rewrite lookup_insert_eq; eauto|done|done].
Qed.

(** A quota that is set after the rule does not bind it: the update installs
    the owner's budget at the client, but a rule of the owner that was pushed
    while there was none keeps running without a quota handle. *)
Theorem late_quota_not_enforced (c : Client) (user : list Z) (st : Quota.QuotaState) (i : Z) (cr : ClientRule) :
  Quota.lookup (quotas c) user = None -> running c !! i = Some cr ->
  PortGroups.r_owner_rate_limit (base cr) = Some user -> PortGroups.r_quota (base cr) = None ->
  let c' := apply_traffic_quota_update c true user (Some st) in
  is_Some (Quota.lookup (quotas c') user) /\
  exists cr', running c' !! i = Some cr' /\ PortGroups.r_quota (base cr') = None.
Proof.
  intros Hq Hr Ho Hn. unfold apply_traffic_quota_update, Quota.install. unfold Quota.lookup in *. rewrite Hq. simpl.
  split; [rewrite lookup_insert_eq; eauto|eauto].
Qed.

(** A removal is complete: after the message and its event, the rule has no
    slot, no limiter and no place in a port group, and the server is told with
    the removal's own request id. *)
Theorem removal_complete (c : Client) (w : WireRule) (req : Z) (slot : RuleSlot) :
  slots c !! w_rule_id w = Some slot -> status c = [] ->
  let c' := relay_next (handle_remove c w req) in
  slots c' !! w_rule_id w = None /\ RateScope.get (limits c') (w_rule_id w) = None /\
  PortGroups.rule_to_port (groups c') !! w_rule_id w = None /\
  sent c' = sent c ++ [mkStatus req (w_rule_id w) REMOVED []].
Proof.
  intros Hs Hq. unfold handle_remove. cbn [slots set_limits set_groups]. rewrite Hs. unfold try_send.
  cbn [status set_slots set_limits set_groups]. rewrite Hq. simpl. unfold relay_next. simpl.
  rewrite lookup_insert_eq. simpl. split_and!.
  - by rewrite lookup_delete_eq.
  - unfold RateScope.get, RateScope.remove. simpl. by rewrite lookup_delete_eq.
  - unfold PortGroups.apply_remove. destruct (PortGroups.rule_to_port (groups c) !! w_rule_id w) eqn:E; [|done].
    destruct (PortGroups.groups (groups c) !! z); [|simpl; by rewrite lookup_delete_eq].
    case_bool_decide; [|case_match]; simpl; by rewrite lookup_delete_eq.
  - done.
Qed.

(** ** Witnesses *)

Definition demo_client : Client :=
  mkClient ∅ PortGroups.new RateScope.empty_world ∅ (Quota.mkRegistry ∅ ∅ 0) ∅ [] [].

Definition demo_counters : PortGroups.RuleStats := PortGroups.mkStats 0 1 2 3.

(** An uncapped range rule of [alice], as the server stores it. *)
Definition demo_stored : RuleStore.Rule :=
  RuleStore.mkRule 4 7 (lit "edge") 30000 (Some 30001) (lit "10.0.0.1") 9000 (Some 9001) None RuleStore.Tcp
    RuleStore.Active 10 20 (lit "alice") [] None None None.

Definition demo_wire : WireRule := proto_rule_from_rule demo_stored.

Lemma demo_decodable : decodable demo_stored.
Proof.
  split.
  - by vm_compute.
  - intros e [= <-]. by vm_compute.
  - by vm_compute.
  - intros e [= <-]. by vm_compute.
  - reflexivity.
  - constructor.
  - done.
Qed.

Lemma stored_rule_reaches_client_witness :
  exists cr, running (handle_push demo_client demo_wire 60 0 0 demo_counters true 1024 60) !! 4 = Some cr /\
    PortGroups.r_listen_range (base cr) = mkPortRange 30000 30001.
Proof.
  destruct (stored_rule_reaches_client demo_stored demo_client 60 0 1024 60 0 demo_counters true demo_decodable)
    as (cr & Hrun & _ & Hl & _); [done|reflexivity|].
  exists cr. split; [|rewrite Hl; reflexivity].
  assert (E : PortGroups.routes_via_sni (groups demo_client) (is_tcp (RuleStore.protocol demo_stored)) (base cr) = false).
  { unfold PortGroups.routes_via_sni. rewrite Hl. reflexivity. }
  rewrite E in Hrun. exact Hrun.
Defined.

(** A wire rule whose host no client accepts. *)
Definition demo_bad : WireRule :=
  mkWire 0 443 (lit "bad host") 8443 1 0 0 None [] 0 None None (Some (lit "alice")).

Lemma refused_push_answers_nobody_witness :
  sent (relay_next (push_new demo_client demo_bad 50 0 0 demo_counters true 1024 60)) =
    [mkStatus NO_REQUEST 0 FAILED (lit "invalid_target_host")] /\
  waiters (handle_rule_status demo_pushed 0 7 (mkStatus NO_REQUEST 0 FAILED (lit "invalid_target_host")) 1100)
    !! (0, 50) = Some true.
Proof.
  destruct (refused_push_answers_nobody demo_client demo_bad 50 0 1024 60 0 demo_counters InvalidTargetHost
    demo_pushed 0 7 1100 demo_rule eq_refl eq_refl eq_refl) as [Hs Hw].
  split; [exact Hs|]. apply Hw; [exact demo_pushed_wf|reflexivity..].
Defined.

Definition demo_running : Client := handle_push demo_client demo_wire 60 0 0 demo_counters true 1024 60.

Definition demo_capped : WireRule :=
  proto_rule_from_rule (RuleStore.set_rate_limit
    (Some (RateLimit.mkRateLimit (Some 1000) None None None None None None)) demo_stored).

Definition demo_run_rule : ClientRule :=
  client_rule demo_client demo_wire
    (mkDecoded (mkPortRange 30000 30001) (mkPortRange 9000 9001) (Target.Ip (IpAddr.V4 (IpAddr.mkIpv4 10 0 0 1)))
       RuleStore.Tcp [] None) 1024 60 0.

Lemma late_limit_not_enforced_witness :
  running (handle_push demo_running demo_capped 61 5 10 demo_counters true 1024 60) !! 4 = Some demo_run_rule /\
  PortGroups.r_rate_limit (base demo_run_rule) = None.
Proof.
  split; [|reflexivity].
  apply (late_limit_not_enforced demo_running demo_capped 61 5 1024 60 10 demo_counters true
    (mkSlot false 60 None true None None) demo_run_rule (RateLimit.mkRateLimit (Some 1000) None None None None None None));
    [reflexivity..|apply Nat.ltb_lt; reflexivity].
Defined.

Lemma late_quota_not_enforced_witness :
  is_Some (Quota.lookup (quotas (apply_traffic_quota_update demo_running true (lit "alice")
    (Some (Quota.mkState 1000 1000 false)))) (lit "alice")).
Proof.
  apply (late_quota_not_enforced demo_running (lit "alice") (Quota.mkState 1000 1000 false) 4 demo_run_rule);
    reflexivity.
Defined.

Lemma removal_complete_witness :
  sent (relay_next (handle_remove demo_running demo_wire 70)) = [mkStatus 70 4 REMOVED []].
Proof.
  apply (removal_complete demo_running demo_wire 70 (mkSlot false 60 None true None None)); reflexivity.
Defined.

End ClientControl.
