(* ===== verification/Slots.v ===== *)
(** * Slots: the live-connection gauges and the guards that hold them

    A guard of [crates/portunus-forwarder/src/forwarder/rate_limit/scope.rs]
    counts in the gauge of its limiter until it is dropped.  [held] says that
    the gauges of a process are exactly those the guards still held account
    for, across admissions, drops and hot reloads of the limits; the rule
    runner and the UDP path both carry it as part of their invariants. *)

From S2P Require Import Prelude RateLimit TokenBucket RateScope.

Local Open Scope Z_scope.

Module Slots.

Import RateScope.

(** What other tasks do to the shared limiters meanwhile. *)
Inductive Reload : Type :=
| RInstall (r : Z) (rl : option RateLimit.RateLimit) (now : Z)
| RUpdate (r : Z) (rl : option RateLimit.RateLimit) (now : Z)
| RRemove (r : Z)
| OInstall (o : OwnerId) (rl : option RateLimit.RateLimit) (now : Z)
| OUpdate (o : OwnerId) (rl : option RateLimit.RateLimit) (now : Z)
| ORemove (o : OwnerId)
| Debit (i : nat) (d : BandwidthDirection) (n now : Z).

Definition reload (w : World) (e : Reload) : option World :=
  match e with
  | RInstall r rl now => Some (install w r rl now)
  | RUpdate r rl now => update w r rl now
  | RRemove r => Some (remove w r)
  | OInstall o rl now => Some (install_owner w o rl now)
  | OUpdate o rl now => update_owner w o rl now
  | ORemove o => Some (remove_owner w o)
  | Debit i d n now => fst <$> acquire_bandwidth w i d n now
  end.

Definition reload_valid (e : Reload) : Prop :=
  match e with
  | RInstall _ rl _ | RUpdate _ rl _ | OInstall _ rl _ | OUpdate _ rl _ =>
    forall env, rl = Some env -> valid_envelope env
  | Debit _ _ n _ => in_u64 n
  | RRemove _ | ORemove _ => True
  end.

(** The gauges [base], with one slot taken for each guard. *)
Definition with_guards (w : World) (gs : list ActiveGuard) (base : gmap nat Z) : gmap nat Z :=
  foldr (fun gd m => match gauge_of w gd with Some g => shift 1 g m | None => m end) base gs.

(** The gauges are the guards' that are held: they are some base values,
    those of the start for the gauges that existed then and zero for later
    ones, plus the guards. *)
Record held (g0 : gmap nat Z) (w : World) (gs : list ActiveGuard) : Prop := {
  held_wf : wf_world w;
  held_refs : Forall (fun gd => is_Some (gauge_of w gd)) gs;
  held_gauges : exists base, gauges w = with_guards w gs base /\
      map_Forall (fun _ v => in_u64 v) base /\
      g0 ⊆ base /\ forall g v, base !! g = Some v -> g0 !! g = None -> v = 0;
}.

(** ** Lemmas *)

Lemma with_guards_cons w gd gs base :
  with_guards w (gd :: gs) base =
  match gauge_of w gd with Some g => shift 1 g (with_guards w gs base) | None => with_guards w gs base end.
Proof. done. Qed.

Lemma with_guards_perm w gs gs' base : gs ≡ₚ gs' -> with_guards w gs base = with_guards w gs' base.
Proof.
  intros Hp. unfold with_guards. induction Hp as [|gd l l' _ IH|a b l|l1 l2 l3 _ IH1 _ IH2]; cbn.
  - done.
  - by rewrite IH.
  - destruct (gauge_of w a), (gauge_of w b); try done. apply shift_comm.
  - by rewrite IH1.
Qed.

Lemma with_guards_ext w w' gs base :
  (forall gd g, gauge_of w gd = Some g -> gauge_of w' gd = Some g) ->
  Forall (fun gd => is_Some (gauge_of w gd)) gs ->
  with_guards w' gs base = with_guards w gs base.
Proof.
  intros Hk Hf. unfold with_guards. induction Hf as [|gd gs [g Hg] _ IH]; cbn; [done|].
  by rewrite Hg, (Hk _ _ Hg), IH.
Qed.

Lemma guards_kept w w' gs :
  (forall gd g, gauge_of w gd = Some g -> gauge_of w' gd = Some g) ->
  Forall (fun gd => is_Some (gauge_of w gd)) gs -> Forall (fun gd => is_Some (gauge_of w' gd)) gs.
Proof. intros Hk Hf. eapply Forall_impl; [exact Hf|]. intros gd [g Hg]. cbn. eauto. Qed.

Lemma shift_insert_fresh d g gs n : gs !! n = None -> g <> n -> shift d g (<[n := 0]> gs) = <[n := 0]> (shift d g gs).
Proof. intros _ Hne. unfold shift. by rewrite alter_insert_ne. Qed.

Lemma with_guards_u64 w gs base :
  map_Forall (fun _ v => in_u64 v) base -> map_Forall (fun _ v => in_u64 v) (with_guards w gs base).
Proof.
  intros Hb. induction gs as [|gd gs IH]; cbn; [done|]. destruct (gauge_of w gd); [|done].
  intros j v. unfold shift. rewrite lookup_alter_Some. naive_solver eauto with portunus.
Qed.

Lemma lookup_with_guards_None w gs base g :
  with_guards w gs base !! g = None <-> base !! g = None.
Proof.
  induction gs as [|gd gs IH]; cbn; [done|]. destruct (gauge_of w gd) as [g'|]; [|done].
  rewrite <- IH. unfold shift. by rewrite lookup_alter_None.
Qed.

Lemma with_guards_insert w gs base n :
  base !! n = None -> Forall (fun gd => forall g, gauge_of w gd = Some g -> g <> n) gs ->
  with_guards w gs (<[n := 0]> base) = <[n := 0]> (with_guards w gs base).
Proof.
  intros Hn Hf. induction Hf as [|gd gs Hg Hf IH]; [done|]. rewrite !with_guards_cons, IH. destruct (gauge_of w gd) as [g|] eqn:E; [|done].
  apply shift_insert_fresh; [by apply lookup_with_guards_None|eauto].
Qed.

(** The gate's combined effect. *)
Lemma layered_effect w owner rule udp now_o now_r w' res :
  wf_world w -> try_acquire_layered w owner rule udp now_o now_r = Some (w', res) ->
  wf_world w' /\ (forall gd g, gauge_of w gd = Some g -> gauge_of w' gd = Some g) /\
  match res with
  | LayeredGranted og rg =>
    Forall (fun gd => is_Some (gauge_of w' gd)) (option_list og ++ option_list rg) /\
    gauges w' = with_guards w' (option_list og ++ option_list rg) (gauges w)
  | _ => gauges w' = gauges w
  end.
Proof.
  intros Hw H. pose proof (wf_gauges_u64 w Hw) as Hu. unfold try_acquire_layered in H.
  destruct (owner_gate w owner udp now_o) as [[w1 res1]|] eqn:E1; [|done].
  apply owner_gate_effect in E1 as [(Hw1 & _ & _ & Hk1 & He1) _]; [|done].
  destruct res1 as [og|m]; [|by simplify_eq].
  destruct (rule_gate w1 rule udp now_r) as [[w2 res2]|] eqn:E2; [|done].
  apply rule_gate_effect in E2 as [(Hw2 & _ & _ & Hk2 & He2) _]; [|done].
  assert (forall gd g, gauge_of w gd = Some g -> gauge_of w2 gd = Some g) as Hk by eauto.
  destruct res2 as [rg|m].
  - simplify_eq. split; [done|]. split; [done|].
    destruct og as [gd|], rg as [gd'|]; cbn in *.
    + destruct He1 as (g & Hg & E1), He2 as (g' & Hg' & E2). apply Hk2 in Hg.
      rewrite Hg, Hg', E2, E1. split; [repeat constructor; eauto|apply shift_comm].
    + destruct He1 as (g & Hg & E1). apply Hk2 in Hg. rewrite Hg, He2, E1.
      split; [repeat constructor; eauto|done].
    + destruct He2 as (g' & Hg' & E2). rewrite Hg', E2, He1. split; [repeat constructor; eauto|done].
    + split; [constructor|]. by rewrite He2, He1.
  - assert (forall gd, og = Some gd -> is_Some (gauge_of w2 gd)) as Hog.
    { intros gd ->. destruct He1 as (g & Hg & _). eauto. }
    destruct (drop_opt_shift w2 og Hw2 Hog) as (w3 & Hd3 & Hw3 & Hk3 & Hg3).
    rewrite Hd3 in H. simplify_eq. split; [done|]. split; [intros; rewrite Hk3; eauto|].
    rewrite Hg3, He2. destruct og as [gd|]; cbn; [|done].
    destruct He1 as (g & Hg & ->). rewrite (Hk2 _ _ Hg). by apply (shift_back _ _ 1).
Qed.

(** Dropping the guards of a connection gives its slots back. *)
Lemma drop_one w gd gs base :
  wf_world w -> is_Some (gauge_of w gd) -> map_Forall (fun _ v => in_u64 v) base ->
  gauges w = with_guards w (gd :: gs) base ->
  exists w', drop_guard w gd = Some w' /\ wf_world w' /\
    (forall gd, gauge_of w' gd = gauge_of w gd) /\ gauges w' = with_guards w' gs base.
Proof.
  intros Hw [g Hg] Hb E. pose proof (drop_guard_shift w gd g Hw Hg) as Hd.
  eexists. split; [exact Hd|]. split; [by eapply drop_guard_wf|]. split; [done|]. cbn.
  rewrite E, with_guards_cons, Hg, (shift_back _ g 1) by by apply with_guards_u64. done.
Qed.

Lemma drop_opt_one w og gs base :
  wf_world w -> Forall (fun gd => is_Some (gauge_of w gd)) (option_list og ++ gs) ->
  map_Forall (fun _ v => in_u64 v) base -> gauges w = with_guards w (option_list og ++ gs) base ->
  exists w', drop_opt w og = Some w' /\ wf_world w' /\
    (forall gd, gauge_of w' gd = gauge_of w gd) /\ gauges w' = with_guards w' gs base.
Proof.
  intros Hw Hf Hb E. destruct og as [gd|]; cbn in *; [|by exists w].
  apply Forall_cons in Hf as [Hg _]. by apply drop_one.
Qed.

Lemma gauge_of_lt w gd g : wf_world w -> gauge_of w gd = Some g -> is_Some (gauges w !! g) /\ (g < next_ref w)%nat.
Proof.
  intros Hw Hg. unfold gauge_of in Hg. destruct (limiters w !! guard_limiter gd) as [l|] eqn:El; [|done].
  injection Hg as <-. destruct (limiter_gauge _ _ _ Hw El) as [v Hv].
  split; [eauto|]. by destruct (ww_gauges _ Hw _ _ Hv).
Qed.

Lemma fresh_gauge w : wf_world w -> gauges w !! next_ref w = None.
Proof.
  intros Hw. destruct (gauges w !! next_ref w) as [v|] eqn:E; [|done].
  destruct (ww_gauges _ Hw _ _ E). lia.
Qed.

Lemma fresh_limiter w i : wf_world w -> (next_ref w <= i)%nat -> limiters w !! i = None.
Proof.
  intros Hw Hi. destruct (limiters w !! i) as [v|] eqn:E; [|done].
  destruct (ww_limiters _ Hw _ _ E). lia.
Qed.

(** A reload keeps the references and the gauges; it adds at most one gauge,
    at zero. *)
Lemma reload_effect w e w' :
  wf_world w -> reload_valid e -> reload w e = Some w' ->
  wf_world w' /\ (forall gd g, gauge_of w gd = Some g -> gauge_of w' gd = Some g) /\
  (gauges w' = gauges w \/ gauges w' = <[next_ref w := 0]> (gauges w)).
Proof.
  intros Hw Hv H. split.
  { eapply op_wf; [|exact Hw]. destruct e as [r [rl|] now|r rl now|r|o [rl|] now|o rl now|o|i d n now];
      cbn in *; simplify_eq; try by constructor; auto.
    - by apply op_update in H.
    - by apply op_update_owner in H.
    - apply fmap_Some in H as ([w1 res] & H & ->). by eapply op_bandwidth. }
  assert (forall gd g i l, gauge_of w gd = Some g -> (next_ref w <= i)%nat ->
    active_connections <$> <[i := l]> (limiters w) !! guard_limiter gd = Some g) as Hins.
  { intros gd g i l Hg Hi. unfold gauge_of in *. rewrite lookup_insert_ne; [done|].
    intros E. by rewrite <- E, (fresh_limiter w i Hw Hi) in Hg. }
  unfold gauge_of in *.
  destruct e as [r [rl|] now|r rl now|r|o [rl|] now|o rl now|o|i d n now]; cbn in H; simplify_eq; cbn.
  1,5: split; [intros gd g Hg; eapply Hins; [done|lia]|auto].
  all: try (split; [done|auto]; fail).
  - unfold update in H. destruct (rules w !! r) as [p|], rl as [env|]; [|by simplify_eq; cbn; auto| |by simplify_eq; cbn; auto].
    + destruct (limiters w !! p); [|done]. cbn in H. simplify_eq. cbn.
      split; [intros gd g Hg; eapply Hins; [done|lia]|auto].
    + cbn in H. simplify_eq. cbn. split; [intros gd g Hg; eapply Hins; [done|lia]|auto].
  - unfold update_owner in H. destruct (owners w !! o) as [p|], rl as [env|]; [|by simplify_eq; cbn; auto| |by simplify_eq; cbn; auto].
    + destruct (limiters w !! p); [|done]. cbn in H. simplify_eq. cbn.
      split; [intros gd g Hg; eapply Hins; [done|lia]|auto].
    + cbn in H. simplify_eq. cbn. split; [intros gd g Hg; eapply Hins; [done|lia]|auto].
  - apply fmap_Some in H as ([w1 res] & H & ->). unfold acquire_bandwidth in H.
    destruct (limiters w !! i) as [l|] eqn:El; [|done].
    destruct (bandwidth l d) as [b|]; [|by simplify_eq; auto].
    destruct (TokenBucket.acquire b n now) as [b' res']. simplify_eq. cbn. split; [|auto].
    intros gd g. destruct (decide (i = guard_limiter gd)) as [->|Hne].
    + rewrite El, lookup_insert_eq. cbn. by destruct d.
    + by rewrite lookup_insert_ne by done.
Qed.

Lemma with_guards_app w a b base : with_guards w (a ++ b) base = with_guards w a (with_guards w b base).
Proof. apply foldr_app. Qed.

(** ** The accounting is kept *)

Lemma held_start w : wf_world w -> held (gauges w) w [].
Proof.
  intros Hw. split; [done|constructor|]. exists (gauges w).
  split_and!; [done|by apply wf_gauges_u64|done|]. intros g v E1 E2. congruence.
Qed.

Lemma held_perm g0 w gs gs' : gs ≡ₚ gs' -> held g0 w gs -> held g0 w gs'.
Proof.
  intros Hp [Hw Hg (base & E & Hb)]. split; [done|by rewrite <- Hp|].
  exists base. by rewrite <- (with_guards_perm _ _ _ base Hp).
Qed.

Lemma held_released g0 w g v : held g0 w [] -> g0 !! g = Some v -> gauges w !! g = Some v.
Proof. intros [_ _ (base & -> & _ & Hsub & _)] Hv. by eapply lookup_weaken. Qed.

(** A gate that admits hands out guards that are held from then on. *)
Lemma held_grant g0 w gs owner rule udp now_o now_r w' res :
  held g0 w gs -> try_acquire_layered w owner rule udp now_o now_r = Some (w', res) ->
  held g0 w' (match res with
              | LayeredGranted og rg => (option_list og ++ option_list rg) ++ gs
              | _ => gs
              end).
Proof.
  intros [Hw Hg (base & E & Hb & Hsub & Hz)] Ha.
  destruct (layered_effect _ _ _ _ _ _ _ _ Hw Ha) as (Hw' & Hk & He).
  pose proof (guards_kept _ _ _ Hk Hg) as Hg'. pose proof (with_guards_ext _ _ _ base Hk Hg) as Hx.
  destruct res as [og rg|m|m].
  - destruct He as [Hnew He]. split; [done|by apply Forall_app|]. exists base.
    by rewrite with_guards_app, Hx, <- E.
  - split; [done..|]. exists base. by rewrite Hx, He, <- E.
  - split; [done..|]. exists base. by rewrite Hx, He, <- E.
Qed.

Lemma held_drop g0 w gd gs : held g0 w (gd :: gs) ->
  exists w', drop_guard w gd = Some w' /\ held g0 w' gs.
Proof.
  intros [Hw Hg (base & E & Hb & Hrest)]. apply Forall_cons in Hg as [Hgd Hg].
  destruct (drop_one _ _ _ _ Hw Hgd Hb E) as (w1 & D1 & Hw1 & Hk1 & E1).
  exists w1. split; [done|]. split; [done| |by exists base].
  eapply Forall_impl; [exact Hg|]. intros x. cbn. by rewrite Hk1.
Qed.

Lemma held_drop_opt g0 w og gs : held g0 w (option_list og ++ gs) ->
  exists w', drop_opt w og = Some w' /\ held g0 w' gs.
Proof. destruct og as [gd|]; cbn; [apply held_drop|by exists w]. Qed.

Lemma held_reload g0 w gs e w' :
  held g0 w gs -> reload_valid e -> reload w e = Some w' -> held g0 w' gs.
Proof.
  intros [Hw Hg (base & E & Hb & Hsub & Hz)] Hv H.
  destruct (reload_effect _ _ _ Hw Hv H) as (Hw' & Hk & Hgs).
  pose proof (with_guards_ext _ _ _ base Hk Hg) as Hx.
  split; [done|by eapply guards_kept|]. destruct Hgs as [->| ->].
  { exists base. by rewrite Hx. }
  pose proof (fresh_gauge _ Hw) as Hf. rewrite E in Hf. apply lookup_with_guards_None in Hf.
  exists (<[next_ref w := 0]> base). split_and!.
  - rewrite with_guards_insert; [by rewrite Hx, <- E|done|].
    eapply Forall_impl; [exact Hg|]. intros gd [g Hg1] g' Hg2.
    rewrite (Hk _ _ Hg1) in Hg2. injection Hg2 as <-. destruct (gauge_of_lt _ _ _ Hw Hg1). lia.
  - apply map_Forall_insert_2; [unfold_ints; lia|done].
  - etrans; [exact Hsub|]. by apply insert_subseteq.
  - intros g v. rewrite lookup_insert_Some. intros [[_ <-]|[_ Hv']]; [done|eauto].
Qed.

(** ** The shaper *)

(** No limiter disappears while somebody may refer to it. *)
Definition limiters_kept (w w' : World) : Prop :=
  forall i, is_Some (limiters w !! i) -> is_Some (limiters w' !! i).

#[global] Instance limiters_kept_preorder : PreOrder limiters_kept.
Proof. split; [by intros w i|]. intros w1 w2 w3 H1 H2 i Hi. by apply H2, H1. Qed.

Lemma drop_guard_kept w g w' : drop_guard w g = Some w' -> limiters_kept w w'.
Proof.
  unfold drop_guard, fetch_add. intros H. repeat case_match; simplify_eq. by intros i.
Qed.

Definition shaper_refs (w : World) (sh : UdpBandwidthShaper) : Prop :=
  forall i, sh_owner sh = Some i \/ sh_rule sh = Some i -> is_Some (limiters w !! i).

Lemma shaper_new_refs w owner rule d :
  wf_world w -> shaper_refs w (shaper_new w (owner ≫= get_owner w) (rule ≫= get w) d).
Proof.
  intros Hw i [Hi|Hi]; cbn in Hi.
  - apply bind_Some in Hi as (o & _ & Ho). by apply (ww_owners _ Hw o i).
  - apply bind_Some in Hi as (r & _ & Hr). by apply (ww_rules _ Hw r i).
Qed.

Lemma layer_held g0 w gs lid d n now :
  held g0 w gs -> in_u64 n -> (forall i, lid = Some i -> is_Some (limiters w !! i)) ->
  exists w' ok, layer_admits w lid d n now = Some (w', ok) /\ held g0 w' gs /\ limiters_kept w w'.
Proof.
  intros Hh Hn Hr. destruct lid as [i|]; [|by exists w, true].
  destruct (Hr i eq_refl) as [l Hl]. cbn.
  assert (exists w' r, acquire_bandwidth w i d n now = Some (w', r) /\ limiters_kept w w') as (w' & r & Ha & Hk).
  { unfold acquire_bandwidth. rewrite Hl. destruct (bandwidth l d) as [b|]; [|by exists w, BwGranted].
    destruct (TokenBucket.acquire b n now). do 2 eexists. split; [done|].
    intros j Hj. cbn. destruct (decide (j = i)) as [->|]; [by rewrite lookup_insert_eq|by rewrite lookup_insert_ne by done]. }
  rewrite Ha. assert (held g0 w' gs).
  { eapply (held_reload _ _ _ (Debit i d n now)); [done|done|]. cbn. by rewrite Ha. }
  destruct r; eauto.
Qed.

Lemma admits_held g0 w gs sh n a b :
  held g0 w gs -> in_u64 n -> shaper_refs w sh ->
  exists w' ok, admits w sh n a b = Some (w', ok) /\ held g0 w' gs /\ limiters_kept w w'.
Proof.
  intros Hh Hn Hr. unfold admits. destruct (sh_has_cap sh); cbn [negb]; [|by exists w, true].
  destruct (layer_held g0 w gs (sh_owner sh) (sh_direction sh) n a Hh Hn) as (w1 & ok1 & -> & Hh1 & Hk1); [naive_solver|].
  destruct ok1; [|by exists w1, false].
  destruct (layer_held g0 w1 gs (sh_rule sh) (sh_direction sh) n b Hh1 Hn) as (w2 & ok2 & -> & Hh2 & Hk2).
  { intros i Hi. apply Hk1, Hr. by right. }
  exists w2, ok2. split_and!; [done..|]. by etrans.
Qed.

End Slots.
