(* ===== verification/RuleRun.v ===== *)
(** * RuleRun: the life of one TCP rule on a client

    [crates/portunus-forwarder/src/forwarder/]: atomic binding ([range.rs]),
    the accept loops, the drain and the status reports of a rule ([mod.rs]),
    the connection handler of a multi-target rule ([failover_path.rs]) and the
    active prober ([probe.rs]).

    The sockets of the process are a table; the kernel's answer to a bind is
    an argument.  The loops of a rule run as a machine whose events are the
    branches their [select!]s take, so any interleaving of the loops, their
    connections and hot reloads is an event list. *)

From S2P Require Import Prelude Text PortRange RateLimit TokenBucket RateScope Target Failover Stats Splice Proxy Slots.

Local Open Scope Z_scope.

(** ** Binding *)

Module Range.

Inductive Family : Type := V6 | V4.

Inductive ErrorKind : Type := AddrInUse | PermissionDenied | AddrNotAvailable | Unsupported | OtherKind.

Record Net : Type := mkNet {
  open : gmap nat (Family * Z);
  fresh : nat;
}.

Record BindFailure : Type := mkFailure { offending_port : Z; reason : list Z }.

Definition classify_bind_error (e : ErrorKind) : list Z :=
  match e with
  | AddrInUse => lit "port_in_use"
  | PermissionDenied => lit "permission_denied"
  | _ => lit "bind_failed"
  end.

Definition should_fallback_to_ipv4 (e : ErrorKind) : bool :=
  match e with AddrNotAvailable | Unsupported => true | _ => false end.

(** Dropping listeners closes their sockets. *)
Definition close (net : Net) (ids : list nat) : Net :=
  mkNet (foldr (fun i m => delete i m) (open net) ids) (fresh net).

Section Kernel.
(** Whether the kernel lets this process listen on the unspecified address of
    a family, given what the process holds. *)
Context (os : gmap nat (Family * Z) -> Family -> Z -> option ErrorKind).

Definition bind (fam : Family) (net : Net) (port : Z) : Result nat ErrorKind * Net :=
  match os (open net) fam port with
  | Some e => (Err e, net)
  | None => (Ok (fresh net), mkNet (<[fresh net := (fam, port)]> (open net)) (S (fresh net)))
  end.

Definition bind_port (net : Net) (port : Z) : Result (list nat) ErrorKind * Net :=
  match bind V6 net port with
  | (Ok l6, net) =>
    match bind V4 net port with
    | (Ok l4, net) => (Ok [l6; l4], net)
    | (Err e, net) => (Err e, close net [l6])
    end
  | (Err e, net) =>
    if should_fallback_to_ipv4 e then
      match bind V4 net port with
      | (Ok l4, net) => (Ok [l4], net)
      | (Err e, net) => (Err e, net)
      end
    else (Err e, net)
  end.

Fixpoint bind_ports (net : Net) (bound : list (Z * nat)) (ports : list Z)
  : Result (list (Z * nat)) BindFailure * Net :=
  match ports with
  | [] => (Ok bound, net)
  | port :: ports =>
    match bind_port net port with
    | (Ok listeners, net) => bind_ports net (bound ++ ((fun l => (port, l)) <$> listeners)) ports
    | (Err e, net) => (Err (mkFailure port (classify_bind_error e)), close net bound.*2)
    end
  end.

(** [bind_all]. *)
Definition bind_all (net : Net) (listen : PortRange.PortRange)
  : Result (list (Z * nat)) BindFailure * Net :=
  bind_ports net [] (PortRange.iter listen).

End Kernel.

Definition wf_net (net : Net) : Prop := forall i, is_Some (open net !! i) -> (i < fresh net)%nat.

(** [net'] is [net] with the sockets [ids] opened. *)
Record extends (net : Net) (ids : list nat) (net' : Net) : Prop := {
  ext_wf : wf_net net';
  ext_fresh : (fresh net <= fresh net')%nat;
  ext_dup : NoDup ids;
  ext_ids : Forall (fun i => (fresh net <= i < fresh net')%nat) ids;
  ext_open : forall i, i ∈ ids -> is_Some (open net' !! i);
  ext_rest : forall i, i ∉ ids -> open net' !! i = open net !! i;
}.

Lemma lookup_close (net : Net) (ids : list nat) i :
  open (close net ids) !! i = if bool_decide (i ∈ ids) then None else open net !! i.
Proof.
  unfold close. cbn. induction ids as [|x ids IH]; cbn.
  - rewrite bool_decide_false by apply not_elem_of_nil. done.
  - destruct (decide (i = x)) as [->|Hne].
    + rewrite lookup_delete_eq, bool_decide_true by by left. done.
    + rewrite lookup_delete_ne by done. rewrite IH. apply (f_equal (fun b : bool => if b then None else _)).
      apply bool_decide_ext. rewrite elem_of_cons. naive_solver.
Qed.

Lemma extends_refl (net : Net) : wf_net net -> extends net [] net.
Proof. intros H. split; [done|done|constructor|done| |done]. intros i Hi. by apply elem_of_nil in Hi. Qed.

Lemma extends_trans n0 a n1 b n2 : extends n0 a n1 -> extends n1 b n2 -> extends n0 (a ++ b) n2.
Proof.
  intros [Hw1 Hf1 Hd1 Hi1 Ho1 Hr1] [Hw2 Hf2 Hd2 Hi2 Ho2 Hr2].
  assert (forall i, i ∈ a -> i ∉ b) as Hdis.
  { intros i Ha Hb. rewrite Forall_forall in Hi1, Hi2. specialize (Hi1 i Ha). specialize (Hi2 i Hb). lia. }
  split; [done|lia|by apply NoDup_app| | |].
  - apply Forall_app. split; [eapply Forall_impl; [exact Hi1|]|eapply Forall_impl; [exact Hi2|]]; cbn; lia.
  - intros i. rewrite elem_of_app. intros [Hi|Hi]; [|by apply Ho2].
    rewrite Hr2; [by apply Ho1|]. by apply Hdis.
  - intros i. rewrite not_elem_of_app. intros [Ha Hb]. by rewrite Hr2, Hr1.
Qed.

(** Closing what was opened restores the table. *)
Lemma close_extends net ids net' :
  wf_net net -> extends net ids net' -> open (close net' ids) = open net /\ wf_net (close net' ids).
Proof.
  intros Hw [Hw' Hf Hd Hi Ho Hr]. assert (open (close net' ids) = open net) as E.
  { apply map_eq. intros i. rewrite lookup_close. case_bool_decide as Hin; [|by apply Hr].
    symmetry. apply eq_None_not_Some. intros Hs%Hw. rewrite Forall_forall in Hi.
    specialize (Hi i Hin). lia. }
  split; [done|]. intros i. rewrite E. intros Hs%Hw. cbn. lia.
Qed.

Lemma bind_extends os fam net port : wf_net net ->
  match bind os fam net port with
  | (Ok i, net') => extends net [i] net' /\ open net' !! i = Some (fam, port)
  | (Err _, net') => net' = net
  end.
Proof.
  intros Hw. unfold bind. destruct (os (open net) fam port); [done|]. cbn.
  split; [|by rewrite lookup_insert_eq]. split; cbn; [|lia|apply NoDup_singleton| | |].
  - intros i Hi. cbn in *. destruct (decide (i = fresh net)) as [->|]; [lia|].
    rewrite lookup_insert_ne in Hi by done. apply Hw in Hi. lia.
  - constructor; [lia|done].
  - intros i ->%list_elem_of_singleton. rewrite lookup_insert_eq. eauto.
  - intros i Hi. rewrite not_elem_of_cons in Hi. by rewrite lookup_insert_ne by naive_solver.
Qed.

Lemma bind_port_extends os net port : wf_net net ->
  match bind_port os net port with
  | (Ok ls, net') => extends net ls net' /\ ls <> [] /\
                     Forall (fun l => exists fam, open net' !! l = Some (fam, port)) ls
  | (Err _, net') => open net' = open net /\ wf_net net'
  end.
Proof.
  intros Hw. unfold bind_port.
  pose proof (bind_extends os V6 net port Hw) as H6. destruct (bind os V6 net port) as [[l6|e] n6].
  - destruct H6 as [H6 E6]. pose proof (bind_extends os V4 n6 port (ext_wf _ _ _ H6)) as H4.
    destruct (bind os V4 n6 port) as [[l4|e] n4].
    + destruct H4 as [H4 E4]. split; [by apply (extends_trans _ [l6] n6 [l4])|]. split; [done|].
      constructor; [|constructor; [eauto|done]]. exists V6. rewrite (ext_rest _ _ _ H4); [done|].
      rewrite not_elem_of_cons. split; [|apply not_elem_of_nil]. intros <-.
      pose proof (ext_wf _ _ _ H6 l6) as Hl.
      rewrite E6 in Hl. specialize (Hl (ex_intro _ _ eq_refl)).
      pose proof (ext_ids _ _ _ H4) as Hi. inversion Hi. lia.
    + subst n4. by apply close_extends.
  - subst n6. destruct (should_fallback_to_ipv4 e); [|done].
    pose proof (bind_extends os V4 net port Hw) as H4. destruct (bind os V4 net port) as [[l4|e4] n4].
    + destruct H4 as [H4 E4]. split; [done|]. split; [done|]. constructor; [eauto|done].
    + by subst.
Qed.

(** What the loop has bound so far, and what it returns. *)
Lemma bind_ports_extends os net0 net bound ports :
  wf_net net0 -> extends net0 bound.*2 net ->
  (forall p l, (p, l) ∈ bound -> exists fam, open net !! l = Some (fam, p)) ->
  match bind_ports os net bound ports with
  | (Ok ls, net') =>
    extends net0 ls.*2 net' /\
    (forall p l, (p, l) ∈ ls -> exists fam, open net' !! l = Some (fam, p)) /\
    (forall p, p ∈ ls.*1 <-> p ∈ bound.*1 ++ ports)
  | (Err f, net') => open net' = open net0 /\ offending_port f ∈ ports
  end.
Proof.
  intros Hw0. revert net bound. induction ports as [|port ports IH]; intros net bound Hext Hb; cbn.
  { split; [done|]. split; [done|]. intros p. by rewrite app_nil_r. }
  pose proof (bind_port_extends os net port (ext_wf _ _ _ Hext)) as Hp.
  destruct (bind_port os net port) as [[ls|e] n1].
  - destruct Hp as (He & Hne & Hf).
    assert (((fun l => (port, l)) <$> ls).*2 = ls) as E2.
    { rewrite <- list_fmap_compose. apply list_fmap_id. }
    specialize (IH n1 (bound ++ ((fun l => (port, l)) <$> ls))).
    rewrite fmap_app, E2 in IH. specialize (IH (extends_trans _ _ _ _ _ Hext He)).
    assert (forall p l, (p, l) ∈ bound ++ ((fun l => (port, l)) <$> ls) ->
              exists fam, open n1 !! l = Some (fam, p)) as Hb'.
    { intros p l. rewrite elem_of_app, list_elem_of_fmap. intros [Hin|(l' & [= -> ->] & Hin)].
      - destruct (Hb p l Hin) as [fam Hl]. exists fam. rewrite (ext_rest _ _ _ He); [done|].
        intros Hin'. pose proof (ext_ids _ _ _ He) as Hi. rewrite Forall_forall in Hi.
        specialize (Hi l Hin'). pose proof (ext_wf _ _ _ Hext l) as Hl'. rewrite Hl in Hl'.
        specialize (Hl' (ex_intro _ _ eq_refl)). lia.
      - rewrite Forall_forall in Hf. by apply Hf. }
    specialize (IH Hb'). destruct (bind_ports os n1 _ ports) as [[ls'|f] n2].
    + destruct IH as (H1 & H2 & H3). split; [done|]. split; [done|]. intros p.
      assert (p ∈ ((fun l => (port, l)) <$> ls).*1 <-> p = port) as Hport.
      { rewrite <- list_fmap_compose, list_elem_of_fmap. cbn. destruct ls as [|l0 ls]; [done|].
        split; [by intros (l & -> & _)|]. intros ->. exists l0. split; [done|]. by left. }
      rewrite H3, fmap_app, !elem_of_app, Hport, elem_of_cons. tauto.
    + destruct IH as [? ?]. split; [done|]. by right.
  - destruct Hp as [Ho Hw1]. split; [|by left].
    destruct (close_extends net0 bound.*2 net Hw0 Hext) as [<- _].
    unfold close. cbn. by rewrite Ho.
Qed.

(** Binding a range is all or nothing, whatever the kernel answers: on
    success the sockets opened are exactly the listeners returned, each on
    its port, and every port of the range has one; on failure the table of
    sockets is what it was before, and the port blamed is in the range. *)
Theorem bind_all_atomic os net listen :
  wf_net net ->
  match bind_all os net listen with
  | (Ok ls, net') =>
    open (close net' ls.*2) = open net /\
    (forall i, i ∉ ls.*2 -> open net' !! i = open net !! i) /\
    (forall p l, (p, l) ∈ ls -> exists fam, open net' !! l = Some (fam, p)) /\
    (forall p, PortRange.contains listen p = true <-> p ∈ ls.*1)
  | (Err f, net') => open net' = open net /\ PortRange.contains listen (offending_port f) = true
  end.
Proof.
  intros Hw. unfold bind_all.
  pose proof (bind_ports_extends os net net [] (PortRange.iter listen) Hw (extends_refl net Hw)) as H.
  destruct (bind_ports os net [] (PortRange.iter listen)) as [[ls|f] net'].
  - destruct H as (He & Hl & Hp). { intros ? ? Hin. by apply elem_of_nil in Hin. }
    split; [by apply close_extends|]. split; [apply He|]. split; [done|]. intros p.
    rewrite Hp, <- PortRange.elem_of_iter. done.
  - destruct H as [? Hf]. { intros ? ? Hin. by apply elem_of_nil in Hin. }
    by rewrite <- PortRange.elem_of_iter.
Qed.

(** A kernel without IPv6 on which one port is taken. *)
Definition demo_os (taken : Z) (held : gmap nat (Family * Z)) (fam : Family) (port : Z) : option ErrorKind :=
  match fam with V6 => Some Unsupported | V4 => if port =? taken then Some AddrInUse else None end.

Lemma bind_all_atomic_witness :
  (bind_all (demo_os 8002) (mkNet ∅ 0) (PortRange.mkPortRange 8000 8003)).1
    = Err (mkFailure 8002 (lit "port_in_use")) /\
  open (bind_all (demo_os 8002) (mkNet ∅ 0) (PortRange.mkPortRange 8000 8003)).2 = ∅.
Proof.
  pose proof (bind_all_atomic (demo_os 8002) (mkNet ∅ 0) (PortRange.mkPortRange 8000 8003)) as H.
  split; [reflexivity|]. apply H. intros i [x Hx]. by apply (lookup_empty_Some (M := gmap nat) i x) in Hx.
Defined.

End Range.

(** ** The loops of a rule *)

Module RuleRun.

Import RateScope Slots.

Inductive RuleStatusEvent : Type :=
| Activated (rule_id : Z)
| Failed (rule_id : Z) (reason : list Z)
| Removed (rule_id : Z).

#[global] Instance RuleStatusEvent_eq_dec : EqDecision RuleStatusEvent.
Proof. solve_decision. Defined.

(** The fields of [ClientRule] the run reads; the limiter handles are the
    keys they look up. *)
Record ClientRule : Type := mkClientRule {
  rule_id : Z;
  listen_range : PortRange.PortRange;
  target_range : PortRange.PortRange;
  rate_limit : option Z;
  owner_rate_limit : option OwnerId;
}.

(** The reason string of a bind failure: the port is named for ranges. *)
Definition failure_reason (r : ClientRule) (f : Range.BindFailure) : list Z :=
  if PortRange.len (listen_range r) =? 1 then Range.reason f
  else Range.reason f ++ 58 :: dec (Range.offending_port f).

Inductive Phase : Type := Accepting | Closed | Joined.

Record Loop : Type := mkLoop {
  socket : nat;
  listen_port : Z;
  target_port : Z;
  phase : Phase;
}.

(** An admitted connection: its loop and the guards it holds. *)
Record Conn : Type := mkConn {
  conn_loop : nat;
  owner_guard : option ActiveGuard;
  rule_guard : option ActiveGuard;
}.

Record Run : Type := mkRun {
  net : Range.Net;
  world : World;
  stats : Stats.RuleStats;
  port_in_use : Z;
  owner_acc : option Stats.Accumulator;
  rule_acc : option Stats.Accumulator;
  loops : list Loop;
  conns : gmap nat Conn;
  next_conn : nat;
  cancelled : bool;
  proxy_cancel : bool;
  status : list RuleStatusEvent;
}.

Definition set_loops (r : Run) (net : Range.Net) (ls : list Loop) : Run :=
  mkRun net (world r) (stats r) (port_in_use r) (owner_acc r) (rule_acc r) ls (conns r) (next_conn r)
    (cancelled r) (proxy_cancel r) (status r).

Definition set_world (r : Run) (w : World) : Run :=
  mkRun (net r) w (stats r) (port_in_use r) (owner_acc r) (rule_acc r) (loops r) (conns r) (next_conn r)
    (cancelled r) (proxy_cancel r) (status r).

Definition set_flags (r : Run) (cancelled proxy_cancel : bool) (st : list RuleStatusEvent) : Run :=
  mkRun (net r) (world r) (stats r) (port_in_use r) (owner_acc r) (rule_acc r) (loops r) (conns r)
    (next_conn r) cancelled proxy_cancel st.

Definition set_phase (l : Loop) (p : Phase) : Loop :=
  mkLoop (socket l) (listen_port l) (target_port l) p.

(** [run_accept_loops]: one loop per listener whose port maps to an upstream
    port; a listener without one is dropped. *)
Fixpoint run_accept_loops (rule : ClientRule) (n : Range.Net) (listeners : list (Z * nat))
  : Outcome (Range.Net * list Loop) :=
  match listeners with
  | [] => Returns (n, [])
  | (port, sock) :: listeners =>
    match PortRange.target_for port (listen_range rule) (target_range rule) with
    | Panics => Panics
    | Returns None => run_accept_loops rule (Range.close n [sock]) listeners
    | Returns (Some target) =>
      match run_accept_loops rule n listeners with
      | Panics => Panics
      | Returns (n, ls) => Returns (n, mkLoop sock port target Accepting :: ls)
      end
    end
  end.

(** [run] up to [cancel.cancelled().await]: bind, report, start the loops.
    [sent] says whether the control loop still receives.  The result is the
    machine, or [None] when the run returned. *)
Definition activate (os : gmap nat (Range.Family * Z) -> Range.Family -> Z -> option Range.ErrorKind)
  (rule : ClientRule) (sent : bool) (r : Run) : Outcome (Run * bool) :=
  match Range.bind_all os (net r) (listen_range rule) with
  | (Err f, n) =>
    Returns (mkRun n (world r) (stats r) (wrap_u64 (port_in_use r + 1)) (owner_acc r) (rule_acc r) (loops r)
               (conns r) (next_conn r) (cancelled r) (proxy_cancel r)
               (status r ++ if sent then [Failed (rule_id rule) (failure_reason rule f)] else []), false)
  | (Ok listeners, n) =>
    if sent then
      match run_accept_loops rule n listeners with
      | Panics => Panics
      | Returns (n, ls) =>
        Returns (mkRun n (world r) (stats r) (port_in_use r) (owner_acc r) (rule_acc r) ls (conns r)
                   (next_conn r) (cancelled r) (proxy_cancel r)
                   (status r ++ [Activated (rule_id rule)]), true)
      end
    else Returns (set_loops r (Range.close n listeners.*2) (loops r), false)
  end.

Inductive Ev : Type :=
| Accept (i : nat) (now_owner now_rule : Z)
| AcceptError (i : nat)
| Finish (c : nat)
| Cancel
| Close (i : nat)
| Join (i : nat)
| Deadline
| Report
| Other (e : Reload).

(** One accepted socket: the layered gate, then a connection task or a
    dropped socket. *)
Definition accept (rule : ClientRule) (r : Run) (i : nat) (now_owner now_rule : Z) : option Run :=
  match try_acquire_layered (world r) (owner_rate_limit rule) (rate_limit rule) false now_owner now_rule with
  | None => None
  | Some (w, LayeredGranted og rg) =>
    Some (mkRun (net r) w (Stats.inc_connection (stats r)) (port_in_use r) (owner_acc r) (rule_acc r)
            (loops r) (<[next_conn r := mkConn i og rg]> (conns r)) (S (next_conn r))
            (cancelled r) (proxy_cancel r) (status r))
  | Some (w, OwnerRejected m) =>
    Some (mkRun (net r) w (stats r) (port_in_use r) ((fun a => Stats.record_reject a m) <$> owner_acc r)
            (rule_acc r) (loops r) (conns r) (next_conn r) (cancelled r) (proxy_cancel r) (status r))
  | Some (w, RuleRejected m) =>
    Some (mkRun (net r) w (stats r) (port_in_use r) (owner_acc r)
            ((fun a => Stats.record_reject a m) <$> rule_acc r) (loops r) (conns r) (next_conn r)
            (cancelled r) (proxy_cancel r) (status r))
  end.

(** The end of a connection task drops its guards. *)
Definition finish (r : Run) (c : nat) : option Run :=
  match conns r !! c with
  | None => None
  | Some k =>
    match drop_opt (world r) (owner_guard k) with
    | None => None
    | Some w =>
      match drop_opt w (rule_guard k) with
      | None => None
      | Some w =>
        Some (mkRun (net r) w (stats r) (port_in_use r) (owner_acc r) (rule_acc r) (loops r)
                (delete c (conns r)) (next_conn r) (cancelled r) (proxy_cancel r) (status r))
      end
    end
  end.

Definition is_joined (l : Loop) : bool := match phase l with Joined => true | _ => false end.

Definition no_conn_of (i : nat) (m : gmap nat Conn) : bool :=
  forallb (fun kv => negb (conn_loop kv.2 =? i)%nat) (map_to_list m).

Definition step (rule : ClientRule) (r : Run) (ev : Ev) : option Run :=
  match ev with
  | Accept i now_owner now_rule =>
    match phase <$> loops r !! i with
    | Some Accepting => accept rule r i now_owner now_rule
    | _ => None
    end
  | AcceptError i =>
    match phase <$> loops r !! i with Some Accepting => Some r | _ => None end
  | Finish c => finish r c
  | Cancel => Some (set_flags r true (proxy_cancel r) (status r))
  | Close i =>
    match loops r !! i with
    | Some l =>
      match phase l with
      | Accepting =>
        if cancelled r then
          Some (set_loops r (Range.close (net r) [socket l]) (<[i := set_phase l Closed]> (loops r)))
        else None
      | _ => None
      end
    | None => None
    end
  | Join i =>
    match loops r !! i with
    | Some l =>
      match phase l with
      | Closed =>
        if no_conn_of i (conns r) then Some (set_loops r (net r) (<[i := set_phase l Joined]> (loops r)))
        else None
      | _ => None
      end
    | None => None
    end
  | Deadline =>
    if cancelled r && negb (proxy_cancel r) then Some (set_flags r true true (status r)) else None
  | Report =>
    if cancelled r && forallb is_joined (loops r) && negb (bool_decide (Removed (rule_id rule) ∈ status r))
    then Some (set_flags r (cancelled r) (proxy_cancel r) (status r ++ [Removed (rule_id rule)]))
    else None
  | Other e =>
    match reload (world r) e with None => None | Some w => Some (set_world r w) end
  end.

Fixpoint exec (rule : ClientRule) (r : Run) (evs : list Ev) : option Run :=
  match evs with
  | [] => Some r
  | ev :: evs => match step rule r ev with None => None | Some r => exec rule r evs end
  end.

(** Reloads carry envelopes the server validated. *)
Definition ev_valid (ev : Ev) : Prop := match ev with Other e => reload_valid e | _ => True end.

(** ** The slots of the live connections *)

Definition guards_of (k : Conn) : list ActiveGuard :=
  option_list (owner_guard k) ++ option_list (rule_guard k).

Definition guards (m : gmap nat Conn) : list ActiveGuard := map_to_list m ≫= fun kv => guards_of kv.2.

(** The slots are those of the live connections. *)
Record slots_ok (g0 : gmap nat Z) (r : Run) : Prop := {
  so_held : held g0 (world r) (guards (conns r));
  so_next : forall c, is_Some (conns r !! c) -> (c < next_conn r)%nat;
}.

(** The sockets of the rule are those of the loops that still accept. *)
Record sockets_ok (n0 : gmap nat (Range.Family * Z)) (r : Run) : Prop := {
  sk_dup : NoDup (socket <$> loops r);
  sk_new : forall l, l ∈ loops r -> n0 !! socket l = None;
  sk_rest : forall i, i ∉ socket <$> loops r -> Range.open (net r) !! i = n0 !! i;
  sk_closed : forall l, l ∈ loops r -> phase l <> Accepting -> Range.open (net r) !! socket l = None;
}.

(** ** Lemmas *)

Lemma guards_insert m c k : m !! c = None -> guards (<[c := k]> m) ≡ₚ guards_of k ++ guards m.
Proof. intros Hc. unfold guards. by rewrite map_to_list_insert. Qed.

Lemma guards_delete m c k : m !! c = Some k -> guards m ≡ₚ guards_of k ++ guards (delete c m).
Proof.
  intros Hc. rewrite <- (guards_insert (delete c m) c k) by apply lookup_delete_eq.
  by rewrite insert_delete_id.
Qed.

Lemma accept_slots g0 rule r i now_o now_r r' :
  slots_ok g0 r -> accept rule r i now_o now_r = Some r' -> slots_ok g0 r'.
Proof.
  intros [Hh Hn] H. unfold accept in H.
  destruct (try_acquire_layered _ _ _ _ _ _) as [[w' res]|] eqn:Ea; [|done].
  pose proof (held_grant _ _ _ _ _ _ _ _ _ _ Hh Ea) as Hh'.
  destruct res as [og rg|m|m]; simplify_eq; try by split.
  assert (conns r !! next_conn r = None) as Hc.
  { apply eq_None_not_Some. intros Hs%Hn. lia. }
  split; cbn.
  - eapply held_perm; [|exact Hh']. by rewrite (guards_insert _ _ (mkConn i og rg) Hc).
  - intros c Hs. destruct (decide (c = next_conn r)) as [->|]; [lia|].
    rewrite lookup_insert_ne in Hs by done. apply Hn in Hs. lia.
Qed.

Lemma finish_slots g0 r c k :
  slots_ok g0 r -> conns r !! c = Some k ->
  exists r', finish r c = Some r' /\ slots_ok g0 r' /\ conns r' = delete c (conns r) /\
    net r' = net r /\ loops r' = loops r /\ cancelled r' = cancelled r /\
    proxy_cancel r' = proxy_cancel r /\ status r' = status r.
Proof.
  intros [Hh Hn] Hc. pose proof (guards_delete _ _ _ Hc) as Hp.
  unfold guards_of in Hp. rewrite <- app_assoc in Hp. apply (held_perm _ _ _ _ Hp) in Hh.
  destruct (held_drop_opt _ _ _ _ Hh) as (w1 & D1 & Hh1).
  destruct (held_drop_opt _ _ _ _ Hh1) as (w2 & D2 & Hh2).
  unfold finish. rewrite Hc, D1, D2. eexists. split; [done|]. split; [|done]. split; cbn; [done|].
  intros j Hj. apply Hn. destruct (decide (j = c)) as [->|]; [eauto|].
  by rewrite lookup_delete_ne in Hj by done.
Qed.

Lemma other_slots g0 r e w' :
  slots_ok g0 r -> reload_valid e -> reload (world r) e = Some w' -> slots_ok g0 (set_world r w').
Proof. intros [Hh Hn] Hv H. split; [by eapply held_reload|done]. Qed.

(** ** The invariant of the machine *)

Record inv (g0 : gmap nat Z) (n0 : gmap nat (Range.Family * Z)) (st0 : list RuleStatusEvent)
  (rule : ClientRule) (r : Run) : Prop := {
  inv_slots : slots_ok g0 r;
  inv_sockets : sockets_ok n0 r;
  inv_conns : forall c k, conns r !! c = Some k ->
    exists l, loops r !! conn_loop k = Some l /\ phase l <> Joined;
  inv_status : Removed (rule_id rule) ∉ st0 /\
    (status r = st0 \/
     status r = st0 ++ [Removed (rule_id rule)] /\ forallb is_joined (loops r) = true);
}.

Lemma no_conn_of_spec i m : no_conn_of i m = true <-> forall c k, m !! c = Some k -> conn_loop k <> i.
Proof.
  unfold no_conn_of. rewrite forallb_true_Forall, Forall_forall. split.
  - intros H c k Hc E. specialize (H (c, k)). rewrite elem_of_map_to_list in H. specialize (H Hc).
    cbn in H. bool_prop. done.
  - intros H [c k]. rewrite elem_of_map_to_list. intros Hc. specialize (H c k Hc). cbn.
    apply negb_true_iff, Nat.eqb_neq. done.
Qed.

Lemma all_joined_lookup ls i l : forallb is_joined ls = true -> ls !! i = Some l -> phase l = Joined.
Proof.
  rewrite forallb_true_Forall, Forall_lookup. intros H Hl. specialize (H i l Hl).
  unfold is_joined in H. by destruct (phase l).
Qed.

(** Changing the phase of a loop keeps the sockets accounted for. *)
Lemma phase_sockets n0 r i l n' p :
  sockets_ok n0 r -> loops r !! i = Some l ->
  (forall j, j <> socket l -> Range.open n' !! j = Range.open (net r) !! j) ->
  (p <> Accepting -> Range.open n' !! socket l = None) ->
  sockets_ok n0 (set_loops r n' (<[i := set_phase l p]> (loops r))).
Proof.
  intros [Hd Hn Hr Hc] Hl Ho Hp.
  assert (socket <$> <[i := set_phase l p]> (loops r) = socket <$> loops r) as Es.
  { rewrite list_fmap_insert. apply list_insert_id. by rewrite list_lookup_fmap, Hl. }
  assert (forall l', l' ∈ <[i := set_phase l p]> (loops r) -> l' = set_phase l p \/ l' ∈ loops r /\ socket l' <> socket l) as Hin.
  { intros l' (j & Hj)%list_elem_of_lookup. destruct (decide (i = j)) as [<-|Hne].
    - rewrite list_lookup_insert_eq in Hj by (by eapply lookup_lt_Some). left. congruence.
    - rewrite list_lookup_insert_ne in Hj by done. right. split; [by eapply list_elem_of_lookup_2|].
      intros E. apply Hne. eapply NoDup_lookup; [exact Hd| |].
      + by rewrite list_lookup_fmap, Hl.
      + rewrite list_lookup_fmap, Hj. cbn. by rewrite E. }
  assert (l ∈ loops r) as Hlin by by eapply list_elem_of_lookup_2.
  split; cbn; rewrite ?Es; [done| | |].
  - intros l' [->|[? _]]%Hin; [by apply (Hn l)|by apply Hn].
  - intros j Hj. rewrite Ho; [by apply Hr|]. intros ->. apply Hj. by apply list_elem_of_fmap_2.
  - intros l' [->|[Hl' Hne]]%Hin Hph; [by apply Hp|]. rewrite Ho by done. by apply Hc.
Qed.

Lemma open_close_other n j k : j <> k -> Range.open (Range.close n [k]) !! j = Range.open n !! j.
Proof. intros H. rewrite Range.lookup_close, bool_decide_false; [done|]. by rewrite list_elem_of_singleton. Qed.

Lemma open_close_same n k : Range.open (Range.close n [k]) !! k = None.
Proof. rewrite Range.lookup_close, bool_decide_true; [done|]. by apply list_elem_of_singleton. Qed.

(** The parts of the state the invariant reads. *)
Lemma inv_frame g0 n0 st0 rule r r' :
  inv g0 n0 st0 rule r -> slots_ok g0 r' -> net r' = net r -> loops r' = loops r -> status r' = status r ->
  (forall c k, conns r' !! c = Some k -> conns r !! c = Some k \/
     exists l, loops r !! conn_loop k = Some l /\ phase l = Accepting) ->
  inv g0 n0 st0 rule r'.
Proof.
  intros [_ [Hd Hn Hr Hcl] Hc Hst] Hs En El Est Hk. split; [done| | |].
  - split; rewrite ?El, ?En; done.
  - intros c k Hc'. rewrite El. destruct (Hk c k Hc') as [H|(l & Hl & Hp)]; [by eapply Hc|].
    exists l. split; [done|]. by rewrite Hp.
  - by rewrite Est, El.
Qed.

Lemma slots_frame g0 r r' :
  slots_ok g0 r -> world r' = world r -> conns r' = conns r -> next_conn r' = next_conn r -> slots_ok g0 r'.
Proof. intros [? ?] Ew Ec En. split; rewrite ?Ew, ?Ec, ?En; done. Qed.

Lemma phase_conns (r : Run) i l p :
  loops r !! i = Some l ->
  (forall c k, conns r !! c = Some k -> exists l, loops r !! conn_loop k = Some l /\ phase l <> Joined) ->
  (p = Joined -> forall c k, conns r !! c = Some k -> conn_loop k <> i) ->
  forall c k, conns r !! c = Some k ->
    exists l', <[i := set_phase l p]> (loops r) !! conn_loop k = Some l' /\ phase l' <> Joined.
Proof.
  intros Hl Hc Hp c k Hk. destruct (decide (conn_loop k = i)) as [E|Hne].
  - rewrite E, list_lookup_insert_eq by by eapply lookup_lt_Some. eexists. split; [done|]. cbn.
    intros Hj. by apply (Hp Hj c k Hk).
  - rewrite list_lookup_insert_ne by done. eauto.
Qed.

Lemma run_step_inv g0 n0 st0 rule r ev r' :
  ev_valid ev -> inv g0 n0 st0 rule r -> step rule r ev = Some r' -> inv g0 n0 st0 rule r'.
Proof.
  intros Hv Hi H. pose proof Hi as [Hs Hk Hc [Hst0 Hst]]. destruct ev as [i no nr|i|c| |i|i| | |e]; cbn in H.
  - destruct (phase <$> loops r !! i) as [[]|] eqn:Ep; try done.
    pose proof (accept_slots _ _ _ _ _ _ _ Hs H) as Hs'. unfold accept in H.
    apply fmap_Some in Ep as (l & Hl & Hp).
    destruct (try_acquire_layered _ _ _ _ _ _) as [[w' [og rg|m|m]]|]; simplify_eq;
      (eapply inv_frame; [exact Hi|exact Hs'|done..|]); cbn; [|by auto..].
    intros c k. rewrite lookup_insert_Some. intros [[_ <-]|[_ ?]]; [|by auto]. cbn. eauto.
  - destruct (phase <$> loops r !! i) as [[]|]; by simplify_eq.
  - destruct (conns r !! c) as [k|] eqn:Ec; [|by unfold finish in H; rewrite Ec in H].
    destruct (finish_slots g0 r c k Hs Ec) as (r1 & E & Hs1 & Ec1 & En & El & _ & _ & Est).
    rewrite E in H. injection H as <-. eapply inv_frame; [exact Hi|done..|].
    intros c' k'. rewrite Ec1, lookup_delete_Some. naive_solver.
  - simplify_eq. eapply inv_frame; [exact Hi|by eapply slots_frame|done..|]. auto.
  - destruct (loops r !! i) as [l|] eqn:El; [|done]. destruct (phase l) eqn:Ep; [|done..].
    destruct (cancelled r); [|done]. simplify_eq. split.
    + eapply slots_frame; [exact Hs|done..].
    + apply phase_sockets; [done..| |]; [intros; by apply open_close_other|intros; apply open_close_same].
    + intros c k Hck. eapply (phase_conns r i l Closed); done.
    + split; [done|]. destruct Hst as [?|[_ Hj]]; [by left|].
      by rewrite (all_joined_lookup _ _ _ Hj El) in Ep.
  - destruct (loops r !! i) as [l|] eqn:El; [|done]. destruct (phase l) eqn:Ep; [done| |done].
    destruct (no_conn_of i (conns r)) eqn:En; [|done]. simplify_eq. split.
    + eapply slots_frame; [exact Hs|done..].
    + apply phase_sockets; [done..|]. intros _. eapply (sk_closed _ _ Hk); [by eapply list_elem_of_lookup_2|].
      by rewrite Ep.
    + cbn. apply phase_conns; [done..|]. intros _. by apply no_conn_of_spec.
    + split; [done|]. destruct Hst as [?|[_ Hj]]; [by left|].
      by rewrite (all_joined_lookup _ _ _ Hj El) in Ep.
  - case_test_in H; [|done]. simplify_eq. eapply inv_frame; [exact Hi|by eapply slots_frame|done..|]. auto.
  - destruct (cancelled r && forallb is_joined (loops r)) eqn:E1; [|done].
    case_bool_decide as Hin; [done|]. cbn in H. simplify_eq. bool_prop. split.
    + eapply slots_frame; [exact Hs|done..].
    + by destruct Hk.
    + done.
    + split; [done|]. right. destruct Hst as [->|[Est _]]; [done|].
      destruct Hin. rewrite Est. apply elem_of_app. right. by apply list_elem_of_singleton.
  - destruct (reload (world r) e) as [w|] eqn:Er; [|done]. simplify_eq.
    eapply inv_frame; [exact Hi|by eapply other_slots|done..|]. auto.
Qed.

Lemma exec_inv g0 n0 st0 rule evs r r' :
  Forall ev_valid evs -> inv g0 n0 st0 rule r -> exec rule r evs = Some r' -> inv g0 n0 st0 rule r'.
Proof.
  intros Hv. revert r. induction Hv as [|ev evs Hev Hv IH]; cbn; intros r Hi H; [by simplify_eq|].
  destruct (step rule r ev) as [r1|] eqn:E; [|done]. eapply IH; [|exact H]. by eapply run_step_inv.
Qed.

(** What has been removed holds nothing. *)
Lemma removed_clean g0 n0 st0 rule r :
  inv g0 n0 st0 rule r -> Removed (rule_id rule) ∈ status r ->
  conns r = ∅ /\ Range.open (net r) = n0 /\
  (forall g v, g0 !! g = Some v -> gauges (world r) !! g = Some v) /\
  status r = st0 ++ [Removed (rule_id rule)].
Proof.
  intros [Hs [Hd Hn Hr Hcl] Hc [Hst0 Hst]] Hin.
  destruct Hst as [E|[E Hj]]; [by rewrite E in Hin|].
  assert (conns r = ∅) as Ec.
  { apply map_eq. intros c. rewrite lookup_empty. destruct (conns r !! c) as [k|] eqn:Ek; [|done].
    destruct (Hc c k Ek) as (l & Hl & Hp). by rewrite (all_joined_lookup _ _ _ Hj Hl) in Hp. }
  split; [done|]. split; [|split; [|done]].
  - apply map_eq. intros i. destruct (decide (i ∈ socket <$> loops r)) as [Hi|Hi]; [|by apply Hr].
    apply list_elem_of_fmap in Hi as (l & -> & Hl). rewrite (Hn l Hl). apply Hcl; [done|].
    apply list_elem_of_lookup in Hl as [j Hl]. by rewrite (all_joined_lookup _ _ _ Hj Hl).
  - destruct Hs as [Hh _]. rewrite Ec in Hh. intros g v Hg. by eapply held_released.
Qed.

(** ** Starting the loops *)

(** The loops that [run_accept_loops] starts on listeners whose ports map. *)
Lemma run_accept_loops_spec rule n ls :
  PortRange.wf (listen_range rule) -> PortRange.wf (target_range rule) ->
  PortRange.len (listen_range rule) = PortRange.len (target_range rule) ->
  (forall p s, (p, s) ∈ ls -> PortRange.contains (listen_range rule) p = true) ->
  run_accept_loops rule n ls =
  Returns (n, (fun ps => mkLoop ps.2 ps.1
    (PortRange.start (target_range rule) + (ps.1 - PortRange.start (listen_range rule))) Accepting) <$> ls).
Proof.
  intros Hl Ht Hlen. induction ls as [|[p s] ls IH]; intros Hin; cbn; [done|].
  destruct (PortRange.target_for_value (listen_range rule) (target_range rule) p) as [-> _]; [done..| |].
  - eapply Hin. by left.
  - rewrite IH; [done|]. intros p' s' Hp. eapply Hin. by right.
Qed.

Definition start (w : World) (n : Range.Net) (st : Stats.RuleStats) (oa ra : option Stats.Accumulator) : Run :=
  mkRun n w st 0 oa ra [] ∅ 0 false false [].

(** A rule whose ranges pair and whose sockets bind starts with the invariant. *)
Lemma activate_inv os rule w n st oa ra r :
  wf_world w -> Range.wf_net n ->
  PortRange.wf (listen_range rule) -> PortRange.wf (target_range rule) ->
  PortRange.len (listen_range rule) = PortRange.len (target_range rule) ->
  activate os rule true (start w n st oa ra) = Returns (r, true) ->
  inv (gauges w) (Range.open n) [Activated (rule_id rule)] rule r /\
  (forall p, PortRange.contains (listen_range rule) p = true ->
     exists l, l ∈ loops r /\ listen_port l = p /\ phase l = Accepting /\
       target_port l = PortRange.start (target_range rule) + (p - PortRange.start (listen_range rule))).
Proof.
  intros Hw Hn Hl Ht Hlen H. unfold activate, Range.bind_all in H. cbn [net start] in H.
  pose proof (Range.bind_ports_extends os n n [] (PortRange.iter (listen_range rule)) Hn (Range.extends_refl n Hn)) as Hb.
  destruct (Range.bind_ports os n [] _) as [[ls|f] n'] eqn:Eb; [|done].
  destruct Hb as (He & Hls & Hp). { intros ? ? Hin. by apply elem_of_nil in Hin. }
  rewrite run_accept_loops_spec in H; [|done..|].
  2:{ intros p s Hin. apply PortRange.elem_of_iter, (proj1 (Hp p)), list_elem_of_fmap. by exists (p, s). }
  simplify_eq. split; [split|].
  - split; cbn; [by apply held_start|]. intros c [k Hk]. by rewrite lookup_empty in Hk.
  - assert (socket <$> ((fun ps : Z * nat => mkLoop ps.2 ps.1
      (PortRange.start (target_range rule) + (ps.1 - PortRange.start (listen_range rule))) Accepting) <$> ls) = ls.*2) as Es.
    { rewrite <- list_fmap_compose. done. }
    split; cbn; rewrite ?Es.
    + apply He.
    + intros l (ps & -> & Hps)%list_elem_of_fmap. cbn. pose proof (Range.ext_ids _ _ _ He) as Hi.
      rewrite Forall_forall in Hi. specialize (Hi ps.2 ltac:(by apply list_elem_of_fmap_2)).
      apply eq_None_not_Some. intros Hs%Hn. lia.
    + apply He.
    + intros l (ps & -> & Hps)%list_elem_of_fmap. done.
  - intros c k Hk. cbn in Hk. by rewrite lookup_empty in Hk.
  - split; [|by left]. rewrite list_elem_of_singleton. done.
  - intros p Hpc%PortRange.elem_of_iter. apply (proj2 (Hp p)) in Hpc.
    apply list_elem_of_fmap in Hpc as (ps & -> & Hps). eexists.
    split; [by apply list_elem_of_fmap_2|done].
Qed.


(** C11. The life of a TCP rule leaves nothing behind.  A rule with paired
    ranges that binds starts one accept loop per listener, with the upstream
    port at the same offset.  Whatever connections are admitted, refused and
    closed by its loops, in any interleaving with hot reloads of the caps,
    once it reports its removal it has reported exactly its activation and
    its removal, no connection is live, the sockets of the process are those
    it had before, and every live-connection gauge has its value of before. *)
Theorem rule_lifecycle_clean os rule w n st oa ra r evs r' :
  wf_world w -> Range.wf_net n ->
  PortRange.wf (listen_range rule) -> PortRange.wf (target_range rule) ->
  PortRange.len (listen_range rule) = PortRange.len (target_range rule) ->
  activate os rule true (start w n st oa ra) = Returns (r, true) ->
  Forall ev_valid evs -> exec rule r evs = Some r' ->
  (forall p, PortRange.contains (listen_range rule) p = true ->
     exists l, l ∈ loops r /\ listen_port l = p /\ phase l = Accepting /\
       target_port l = PortRange.start (target_range rule) + (p - PortRange.start (listen_range rule))) /\
  (Removed (rule_id rule) ∈ status r' ->
   status r' = [Activated (rule_id rule); Removed (rule_id rule)] /\
   conns r' = ∅ /\ Range.open (net r') = Range.open n /\
   forall g v, gauges w !! g = Some v -> gauges (world r') !! g = Some v).
Proof.
  intros Hw Hn Hl Ht Hlen Ha Hv He.
  destruct (activate_inv _ _ _ _ _ _ _ _ Hw Hn Hl Ht Hlen Ha) as [Hi Hloops]. split; [done|].
  intros Hrem. pose proof (exec_inv _ _ _ _ _ _ _ Hv Hi He) as Hi'.
  destruct (removed_clean _ _ _ _ _ Hi' Hrem) as (? & ? & ? & ->). done.
Qed.

(** ** The drain *)

(** The events of the rule's own tasks once cancelled. *)
Definition own (ev : Ev) : Prop := match ev with Other _ | Cancel => False | _ => True end.

Definition not_joined (l : Loop) : bool := negb (is_joined l).

(** How far the drain has to go. *)
Definition remaining (rule : ClientRule) (r : Run) : nat :=
  size (conns r) + length (filter (fun l => not_joined l = true) (loops r)) +
  (if proxy_cancel r then 0 else 1) +
  (if bool_decide (Removed (rule_id rule) ∈ status r) then 0 else 1).

Definition draining (r : Run) : Prop :=
  cancelled r = true /\ Forall (fun l => phase l <> Accepting) (loops r).

Lemma filter_join ls i l :
  ls !! i = Some l -> not_joined l = true ->
  length (filter (fun l => not_joined l = true) ls)
  = S (length (filter (fun l => not_joined l = true) (<[i := set_phase l Joined]> ls))).
Proof.
  revert i. induction ls as [|x ls IH]; intros [|i] Hl Hn; simplify_eq/=.
  - rewrite !filter_cons. rewrite decide_True by done. by rewrite decide_False.
  - rewrite !filter_cons. destruct (decide (not_joined x = true)); cbn; by rewrite (IH i).
Qed.

Lemma own_step g0 n0 st0 rule r ev r' :
  inv g0 n0 st0 rule r -> draining r -> own ev -> step rule r ev = Some r' ->
  draining r' /\ (S (remaining rule r') <= remaining rule r)%nat.
Proof.
  intros Hi [Hc Hd] Ho H. rewrite Forall_lookup in Hd.
  assert (forall i, phase <$> loops r !! i <> Some Accepting) as Hna.
  { intros i (l & Hl & Hp)%fmap_Some. by apply (Hd i l Hl). }
  destruct ev as [i no nr|i|c| |i|i| | |e]; cbn in H; try done.
  - destruct (phase <$> loops r !! i) as [[]|] eqn:E; try done. by apply Hna in E.
  - destruct (phase <$> loops r !! i) as [[]|] eqn:E; try done. by apply Hna in E.
  - destruct (conns r !! c) as [k|] eqn:Ec; [|by unfold finish in H; rewrite Ec in H].
    destruct (finish_slots g0 r c k (inv_slots _ _ _ _ _ Hi) Ec) as (r1 & E & _ & Ec1 & _ & El & Ecan & Ep & Est).
    rewrite E in H. injection H as <-. split; [by split; [rewrite Ecan|rewrite El, Forall_lookup]|].
    unfold remaining. rewrite Ec1, El, Ep, Est. rewrite map_size_delete_Some by eauto.
    assert (size (conns r) <> 0%nat); [|lia]. intros Hz%map_size_empty_iff. by rewrite Hz, lookup_empty in Ec.
  - destruct (loops r !! i) as [l|] eqn:El; [|done]. destruct (phase l) eqn:Ep; [|done..].
    by apply (Hd i l El) in Ep.
  - destruct (loops r !! i) as [l|] eqn:El; [|done]. destruct (phase l) eqn:Ep; [done| |done].
    destruct (no_conn_of i (conns r)); [|done]. simplify_eq. split.
    + split; [done|]. cbn. apply Forall_insert; [by apply Forall_lookup|done].
    + unfold remaining. cbn. rewrite (filter_join _ _ _ El); [lia|].
      unfold not_joined, is_joined. by rewrite Ep.
  - rewrite Hc in H. destruct (proxy_cancel r) eqn:Ep; [done|]. cbn in H. simplify_eq.
    split; [by split; [|by apply Forall_lookup]|]. unfold remaining. cbn. rewrite Ep. lia.
  - rewrite Hc in H. destruct (forallb is_joined (loops r)); [|done]. cbn in H.
    case_bool_decide as Hin; [done|]. cbn in H. simplify_eq.
    split; [by split; [|by apply Forall_lookup]|]. unfold remaining. cbn.
    rewrite (bool_decide_false (Removed _ ∈ status r)) by done. rewrite bool_decide_true; [lia|].
    apply elem_of_app. right. by apply list_elem_of_singleton.
Qed.

Lemma own_valid ev : own ev -> ev_valid ev.
Proof. by destruct ev. Qed.

(** Until the removal is reported some task of the rule can move. *)
Lemma drain_progress g0 n0 st0 rule r :
  inv g0 n0 st0 rule r -> draining r -> Removed (rule_id rule) ∉ status r ->
  exists ev, own ev /\ is_Some (step rule r ev).
Proof.
  intros Hi [Hc Hd] Hr. destruct (decide (conns r = ∅)) as [Ec|Ec].
  - destruct (forallb is_joined (loops r)) eqn:Ej.
    + exists Report. split; [done|]. cbn. rewrite Hc, Ej, bool_decide_false by done. cbn. eauto.
    + apply not_true_iff_false in Ej. rewrite forallb_true_Forall in Ej.
      apply not_Forall_Exists in Ej; [|intros l; apply _].
      apply Exists_exists in Ej as (l & Hl & Hnj). apply list_elem_of_lookup in Hl as [i Hl].
      exists (Join i). split; [done|]. cbn. rewrite Hl. rewrite Forall_lookup in Hd. specialize (Hd i l Hl).
      unfold is_joined in Hnj. cbn in Hnj. destruct (phase l); [done| |congruence]. rewrite Ec. cbn. eauto.
  - apply map_choose in Ec as (c & k & Ec). exists (Finish c). split; [done|]. cbn.
    destruct (finish_slots g0 r c k (inv_slots _ _ _ _ _ Hi) Ec) as (r1 & -> & _). eauto.
Qed.


(** ** Examples *)

Definition demo_rule : ClientRule :=
  mkClientRule 7 (PortRange.mkPortRange 8000 8001) (PortRange.mkPortRange 9000 9001) (Some 7) None.

Definition demo_world : World := install empty_world 7 (Some example_envelope) 0.

Definition demo_start : Run :=
  start demo_world (Range.mkNet ∅ 0) (Stats.for_range (listen_range demo_rule)) None (Some Stats.acc_new).

Definition demo_active : Run :=
  match activate (Range.demo_os 0) demo_rule true demo_start with Returns (r, _) => r | Panics => demo_start end.

Definition demo_served : list Ev := [Accept 0 5 5; Accept 1 10 10; Cancel; Close 0; Close 1].

Definition demo_drained : list Ev := [Join 1; Finish 0; Join 0; Report].

Definition demo_draining : Run := default demo_active (exec demo_rule demo_active demo_served).

Definition demo_end : Run := default demo_draining (exec demo_rule demo_draining demo_drained).

Lemma demo_world_wf : wf_world demo_world.
Proof. eapply op_wf; [apply op_install, example_envelope_valid|apply empty_world_wf]. Qed.

Lemma demo_net_wf : Range.wf_net (Range.mkNet ∅ 0).
Proof. intros i [x Hx]. by apply (lookup_empty_Some (M := gmap nat) i x) in Hx. Qed.

Lemma demo_ranges_wf : PortRange.wf (listen_range demo_rule) /\ PortRange.wf (target_range demo_rule).
Proof. unfold PortRange.wf, u16_max. cbn. lia. Qed.

Lemma demo_evs_valid : Forall ev_valid (demo_served ++ demo_drained).
Proof. repeat constructor. Qed.

Lemma demo_activates : activate (Range.demo_os 0) demo_rule true demo_start = Returns (demo_active, true).
Proof. vm_compute. reflexivity. Qed.

Lemma demo_runs : exec demo_rule demo_active (demo_served ++ demo_drained) = Some demo_end.
Proof. vm_compute. reflexivity. Qed.

Lemma demo_serves : exec demo_rule demo_active demo_served = Some demo_draining.
Proof. vm_compute. reflexivity. Qed.

Lemma demo_drains : exec demo_rule demo_draining demo_drained = Some demo_end.
Proof. vm_compute. reflexivity. Qed.

Lemma rule_lifecycle_clean_witness :
  exec demo_rule demo_active (demo_served ++ demo_drained) = Some demo_end /\
  status demo_end = [Activated 7; Removed 7] /\ Range.open (net demo_end) = ∅.
Proof.
  split; [exact demo_runs|].
  destruct (rule_lifecycle_clean (Range.demo_os 0) demo_rule demo_world (Range.mkNet ∅ 0)
    (Stats.for_range (listen_range demo_rule)) None (Some Stats.acc_new) demo_active
    (demo_served ++ demo_drained) demo_end demo_world_wf demo_net_wf (proj1 demo_ranges_wf) (proj2 demo_ranges_wf)
    eq_refl demo_activates demo_evs_valid demo_runs) as [_ H].
  destruct H as (H1 & _ & H2 & _); [|split; [exact H1|exact H2]].
  apply (bool_decide_eq_true_1 (Removed 7 ∈ status demo_end)). vm_compute. reflexivity.
Defined.

Lemma demo_draining_inv :
  inv (gauges demo_world) ∅ [Activated 7] demo_rule demo_draining /\ draining demo_draining.
Proof.
  split.
  - destruct (activate_inv _ _ _ _ _ _ _ _ demo_world_wf demo_net_wf (proj1 demo_ranges_wf)
      (proj2 demo_ranges_wf) eq_refl demo_activates) as [Hi _].
    eapply exec_inv; [|exact Hi|exact demo_serves]. repeat constructor.
  - split; [vm_compute; reflexivity|]. vm_compute. repeat constructor; discriminate.
Qed.


End RuleRun.

(** ** A connection of a multi-target rule *)

Module FailoverConn.

Import Failover.

(** How the copy of one connection is run: the branch conditions and what the
    loops do. *)
Record CopyEnv : Type := mkCopyEnv {
  local_addr_ok : bool;
  rule_has_bw : bool;
  owner_has_bw : bool;
  splice_ok : bool;
  has_quota : bool;
  copy_loops : Proxy.Loops;
}.

Definition copied (env : CopyEnv) : Proxy.Ran * bool :=
  Proxy.copy (rule_has_bw env) (owner_has_bw env) (splice_ok env) (has_quota env) (copy_loops env).

(** [states[idx]] of the source panics out of range. *)
Definition at_target (states : list HealthState) (idx : nat) (f : HealthState -> HealthState)
  : option (list HealthState) :=
  match states !! idx with Some s => Some (<[idx := f s]> states) | None => None end.

Definition add_bytes (bin bout : Z) (s : HealthState) : HealthState :=
  add_bytes_out (add_bytes_in s bin) bout.

(** From the copy on: what is booked on the chosen target and on the rule. *)
Definition copy_and_book (states : list HealthState) (idx : nat) (stats : Stats.RuleStats) (port : Z)
  (r : Proxy.Ran) (live : bool) : option (list HealthState * Stats.RuleStats) :=
  let (sink, stats) := Proxy.flush port stats (if live then Proxy.chunks r else []) in
  match Proxy.ended r with
  | Some (Ok (bin, bout)) =>
    match at_target states idx (add_bytes bin bout) with
    | None => None
    | Some states => Some (states, Stats.record_remaining sink stats bin bout)
    end
  | Some (Err _) | None => (* an I/O error, or cancelled by [shutdown] *)
    if (0 <? Stats.recorded_in sink) || (0 <? Stats.recorded_out sink) then
      match at_target states idx (add_bytes (Stats.recorded_in sink) (Stats.recorded_out sink)) with
      | None => None
      | Some states => Some (states, stats)
      end
    else Some (states, stats)
  end.

(** [handle_connection]: the health records, the failover counter and the
    rule's counters after the connection. *)
Definition handle_connection (targets : list RuleTarget.RuleTarget) (states : list HealthState) (total : Z)
  (stats : Stats.RuleStats) (port : Z) (attempt : nat -> Attempt) (env : CopyEnv)
  : Outcome (list HealthState * Z * Stats.RuleStats) :=
  if negb (local_addr_ok env) then Returns (states, total, stats)
  else
    match dial_with_failover targets states total attempt with
    | (states, total, None) => Returns (states, total, stats)
    | (states, total, Some idx) =>
      match at_target states idx increment_connections_accepted with
      | None => Panics
      | Some states =>
        let stats := Stats.inc_active stats port in (* ActiveGuard::new *)
        match copy_and_book states idx stats port (copied env).1 (copied env).2 with
        | None => Panics
        | Some (states, stats) => Returns (states, total, Stats.dec_active stats port)
        end
      end
    end.

(** ** Lemmas *)

Definition sum_in (states : list HealthState) : Z := sum_of bytes_in states.
Definition sum_out (states : list HealthState) : Z := sum_of bytes_out states.

Lemma record_bytes (sel : HealthState -> Z) states i f total :
  (forall s, sel (f s).1 = sel s) -> sum_of sel (record states i f total).1 = sum_of sel states.
Proof.
  intros Hf. unfold record. destruct (states !! i) as [s|] eqn:E; [|done].
  specialize (Hf s). destruct (f s) as [s' t']. cbn [fst] in *.
  rewrite (sum_of_insert sel _ _ _ _ E). lia.
Qed.

Lemma dial_bytes (sel : HealthState -> Z) order attempt states total :
  (forall s now wall t, sel (record_failure s now wall t).1 = sel s) ->
  (forall s now wall t, sel (record_success s now wall t).1 = sel s) ->
  let '(states', _, _) := dial_walk order attempt states total in
  sum_of sel states' = sum_of sel states /\ length states' = length states.
Proof.
  intros Hf Hs. revert states total. induction order as [|idx order IH]; intros states total; cbn; [done|].
  destruct (outcome (attempt idx)).
  - pose proof (record_bytes sel states idx (fun s => record_success s (at_now (attempt idx)) (at_wall (attempt idx)) total) total
      (fun s => Hs _ _ _ _)) as H.
    pose proof (record_length states idx (fun s => record_success s (at_now (attempt idx)) (at_wall (attempt idx)) total) total) as Hl.
    destruct (record states idx _ total). done.
  - pose proof (record_bytes sel states idx (fun s => record_failure s (at_now (attempt idx)) (at_wall (attempt idx)) total) total
      (fun s => Hf _ _ _ _)) as H.
    pose proof (record_length states idx (fun s => record_failure s (at_now (attempt idx)) (at_wall (attempt idx)) total) total) as Hl.
    destruct (record states idx _ total) as [st t]. cbn [fst] in H, Hl. rewrite <- H, <- Hl. apply IH.
  - pose proof (record_bytes sel states idx (fun s => record_failure s (at_now (attempt idx)) (at_wall (attempt idx)) total) total
      (fun s => Hf _ _ _ _)) as H.
    pose proof (record_length states idx (fun s => record_failure s (at_now (attempt idx)) (at_wall (attempt idx)) total) total) as Hl.
    destruct (record states idx _ total) as [st t]. cbn [fst] in H, Hl. rewrite <- H, <- Hl. apply IH.
Qed.

Lemma at_target_add states idx s bin bout :
  states !! idx = Some s ->
  exists states', at_target states idx (add_bytes bin bout) = Some states' /\
    wrap_u64 (sum_in states') = wrap_u64 (sum_in states + bin) /\
    wrap_u64 (sum_out states') = wrap_u64 (sum_out states + bout).
Proof.
  intros Hs. unfold at_target. rewrite Hs. eexists. split; [done|].
  unfold sum_in, sum_out. rewrite !(sum_of_insert _ _ _ _ _ Hs). cbn.
  split; rewrite Z.add_comm, wrap_u64_add; f_equal; lia.
Qed.

Lemma at_target_count states idx s :
  states !! idx = Some s ->
  exists states', at_target states idx increment_connections_accepted = Some states' /\
    sum_in states' = sum_in states /\ sum_out states' = sum_out states /\ is_Some (states' !! idx).
Proof.
  intros Hs. unfold at_target. rewrite Hs. eexists. split; [done|].
  unfold sum_in, sum_out. rewrite !(sum_of_insert _ _ _ _ _ Hs). cbn. split; [lia|]. split; [lia|].
  rewrite list_lookup_insert_eq by by eapply lookup_lt_Some. eauto.
Qed.

(** The rule's totals and the per-target totals moved by the same amount. *)
Definition same_growth (stats stats' : Stats.RuleStats) (states states' : list HealthState) : Prop :=
  wrap_u64 (Stats.bytes_in stats' + sum_in states) = wrap_u64 (Stats.bytes_in stats + sum_in states') /\
  wrap_u64 (Stats.bytes_out stats' + sum_out states) = wrap_u64 (Stats.bytes_out stats + sum_out states').

Lemma growth_by (a a' b b' n : Z) :
  wrap_u64 a' = wrap_u64 (a + n) -> wrap_u64 b' = wrap_u64 (b + n) -> wrap_u64 (a' + b) = wrap_u64 (a + b').
Proof.
  intros Ha Hb. rewrite <- (wrap_u64_add a' b), Ha, wrap_u64_add, (Z.add_comm a b'), <- (wrap_u64_add b' a), Hb, wrap_u64_add.
  f_equal. lia.
Qed.

Lemma dial_chooses targets states total attempt st t idx :
  length targets = length states -> targets <> [] ->
  dial_with_failover targets states total attempt = (st, t, Some idx) -> is_Some (states !! idx).
Proof.
  intros Hlen Hne H. unfold dial_with_failover in H.
  assert (state <$> states <> []) as Hst by (destruct states, targets; done).
  pose proof (dial_order_perm _ Hst) as Hp. rewrite length_fmap, <- Hlen in Hp.
  pose proof (dial_walk_spec (dial_order (state <$> states) (length targets)) attempt states total) as Hw.
  rewrite H in Hw. destruct Hw as (tried & rest & Ho & _ & (rest' & -> & _) & _).
  { rewrite Hp. apply NoDup_seq. }
  apply lookup_lt_is_Some. assert (idx ∈ seq 0 (length targets)) as Hi.
  { rewrite <- Hp, Ho. apply elem_of_app. right. by left. }
  apply elem_of_seq in Hi. lia.
Qed.

Lemma copy_and_book_growth states idx stats port r live :
  is_Some (states !! idx) -> Proxy.honest r ->
  (forall bin bout, Proxy.ended r = Some (Ok (bin, bout)) -> bin <= u64_max /\ bout <= u64_max) ->
  exists states' stats', copy_and_book states idx stats port r live = Some (states', stats') /\
    same_growth stats stats' states states' /\
    Stats.active_connections stats' = Stats.active_connections stats.
Proof.
  intros [s Hs] Hh Hb. unfold copy_and_book, Proxy.flush. set (cs := if live then Proxy.chunks r else []).
  pose proof (Stats.sink_run stats port ((fun c => (c.1, Proxy.size c.2)) <$> cs)) as Hk.
  pose proof (Stats.books_once stats port ((fun c => (c.1, Proxy.size c.2)) <$> cs)) as Hbk.
  pose proof (Proxy.sink_chunks_frame Stats.active_connections ((fun c => (c.1, Proxy.size c.2)) <$> cs)
    (fun _ _ _ => eq_refl) (fun _ _ _ => eq_refl) (Stats.sink_new port) stats) as Hact.
  assert (forall d, Stats.flushed d ((fun c => (c.1, Proxy.size c.2)) <$> cs)
                    <= Proxy.size (Proxy.moved d (Proxy.chunks r))) as Hfl.
  { intros d. rewrite Proxy.flushed_size. unfold cs. destruct live; [lia|].
    change (Proxy.moved d []) with (@nil Z). unfold Proxy.size. cbn. lia. }
  destruct (foldl Stats.sink_step _ _) as [sink stats1]. cbn [snd] in Hact.
  destruct Hk as (Ki & Ko & Si & So).
  assert (exists states' stats',
    (if (0 <? Stats.recorded_in sink) || (0 <? Stats.recorded_out sink) then
       match at_target states idx (add_bytes (Stats.recorded_in sink) (Stats.recorded_out sink)) with
       | None => None | Some states => Some (states, stats1) end
     else Some (states, stats1)) = Some (states', stats') /\
    same_growth stats stats' states states' /\
    Stats.active_connections stats' = Stats.active_connections stats) as Herr.
  { assert (wrap_u64 (Stats.bytes_in stats1) = wrap_u64 (Stats.bytes_in stats + Stats.recorded_in sink)) as Ri.
    { rewrite Si, Ki, (Z.add_comm _ (wrap_u64 _)), wrap_u64_add. f_equal. lia. }
    assert (wrap_u64 (Stats.bytes_out stats1) = wrap_u64 (Stats.bytes_out stats + Stats.recorded_out sink)) as Ro.
    { rewrite So, Ko, (Z.add_comm _ (wrap_u64 _)), wrap_u64_add. f_equal. lia. }
    destruct ((0 <? Stats.recorded_in sink) || _) eqn:Ez.
    - destruct (at_target_add states idx s (Stats.recorded_in sink) (Stats.recorded_out sink) Hs) as (st & -> & Gi & Go).
      eexists _, _. split; [done|]. split; [|done]. split; by eapply growth_by.
    - eexists _, _. split; [done|]. split; [|done]. bool_prop.
      pose proof (wrap_u64_in (Stats.flushed RateScope.In ((fun c => (c.1, Proxy.size c.2)) <$> cs))) as [? _].
      pose proof (wrap_u64_in (Stats.flushed RateScope.Out ((fun c => (c.1, Proxy.size c.2)) <$> cs))) as [? _].
      split; (eapply growth_by; [done|]); f_equal; lia. }
  destruct (Proxy.ended r) as [[[bin bout]|]|] eqn:Ee; [|done..].
  destruct (at_target_add states idx s bin bout Hs) as (st & -> & Gi & Go).
  eexists _, _. split; [done|]. destruct (Hb bin bout eq_refl). pose proof (Hh _ Ee) as [= -> ->].
  destruct (Hbk (Proxy.size (Proxy.moved RateScope.In (Proxy.chunks r)))
                (Proxy.size (Proxy.moved RateScope.Out (Proxy.chunks r)))) as [Bi Bo];
    [apply Proxy.sizes_nonneg|split; [apply Hfl|done]..|].
  split; [|done]. unfold same_growth. rewrite Bi, Bo.
  split; (eapply growth_by; [apply Stats.wrap_u64_twice|done]).
Qed.

(** The per-target counters of a multi-target rule account for the
    rule's own: whatever target answers and however the connection ends
    (completed, failed in transit or cancelled, on the capped, spliced,
    metered or plain path), the handler does not panic, the rule's byte
    totals grow by exactly what the totals of the targets grow, in both
    directions, and the gauge of active connections is back at its value. *)
Theorem failover_bytes_consistent targets states total stats port attempt env :
  length targets = length states -> targets <> [] ->
  Proxy.honest (copied env).1 ->
  (forall bin bout, Proxy.ended (copied env).1 = Some (Ok (bin, bout)) -> bin <= u64_max /\ bout <= u64_max) ->
  in_u32 (Stats.active_connections stats) ->
  exists states' total' stats',
    handle_connection targets states total stats port attempt env = Returns (states', total', stats') /\
    same_growth stats stats' states states' /\
    Stats.active_connections stats' = Stats.active_connections stats.
Proof.
  intros Hlen Hne Hh Hb Ha. unfold handle_connection.
  destruct (local_addr_ok env); cbn [negb]; [|by eexists _, _, _].
  pose proof (dial_bytes bytes_in (dial_order (state <$> states) (length targets)) attempt states total) as Di.
  pose proof (dial_bytes bytes_out (dial_order (state <$> states) (length targets)) attempt states total) as Do.
  destruct (dial_with_failover targets states total attempt) as [[st t] chosen] eqn:Ed.
  unfold dial_with_failover in Ed. rewrite Ed in Di, Do.
  destruct Di as [Di Dl]; [done|intros; unfold record_success; by repeat case_match|].
  destruct Do as [Do _]; [done|intros; unfold record_success; by repeat case_match|].
  fold (sum_in st) (sum_in states) in Di. fold (sum_out st) (sum_out states) in Do.
  destruct chosen as [idx|].
  2:{ eexists _, _, _. split; [done|]. unfold same_growth. rewrite Di, Do. done. }
  assert (is_Some (st !! idx)) as [s Hs].
  { apply lookup_lt_is_Some. rewrite Dl. apply lookup_lt_is_Some. eapply dial_chooses; done. }
  destruct (at_target_count st idx s Hs) as (st1 & -> & S1 & S2 & [s1 Hs1]).
  destruct (copy_and_book_growth st1 idx (Stats.inc_active stats port) port (copied env).1 (copied env).2)
    as (st2 & stats2 & -> & [Gi Go] & Ga); [eauto|done..|].
  eexists _, _, _. split; [done|]. rewrite S1, Di in Gi. rewrite S2, Do in Go. split; [done|].
  cbn. rewrite Ga. by apply Proxy.active_balanced.
Qed.

(** A connection that breaks after three bytes of the client were flushed. *)
Definition demo_env : CopyEnv :=
  mkCopyEnv true false false true false
    (Proxy.mkLoops (Proxy.mkRan [] None)
       (Ok (Proxy.mkRan [(RateScope.In, [1; 2; 3])] (Some (Err tt)))) (Proxy.mkRan [] None) (Proxy.mkRan [] None)).

Lemma failover_bytes_consistent_witness :
  exists states' total' stats',
    handle_connection two_targets [new; new] 0 (Stats.for_range (PortRange.single 80)) 80
      (fun i => mkAttempt (if (i =? 0)%nat then DialFailed else Connected) 5 5) demo_env
      = Returns (states', total', stats') /\
    (bytes_in <$> states') = [0; 3] /\
    same_growth (Stats.for_range (PortRange.single 80)) stats' [new; new] states'.
Proof.
  destruct (failover_bytes_consistent two_targets [new; new] 0 (Stats.for_range (PortRange.single 80)) 80
    (fun i => mkAttempt (if (i =? 0)%nat then DialFailed else Connected) 5 5) demo_env)
    as (st & t & stats & E & H & _); [done|done| | | |].
  - intros x Hx. discriminate Hx.
  - intros ? ? Hx. discriminate Hx.
  - split; apply Z.leb_le; reflexivity.
  - exists st, t, stats. split; [exact E|]. split; [|exact H].
    vm_compute in E. injection E as <- _ _. reflexivity.
Defined.

End FailoverConn.

(** ** The active prober *)

Module Probe.

Import Failover.

(** What one dial under the five second timeout gives. *)
Inductive ProbeDial : Type := ProbeConnected | ProbeRefused | ProbeElapsed.

Record Tick : Type := mkTick { dial : ProbeDial; tick_now : Z; tick_wall : Z }.

(** [spawn] clamps the interval to at least a second. *)
Definition interval_secs (n : Z) : Z := Z.max n 1.

(** [probe_one]. *)
Definition probe_one (states : list HealthState) (idx : nat) (t : Tick) (total : Z) : list HealthState * Z :=
  record states idx
    (fun s => match dial t with
              | ProbeConnected => record_success s (tick_now t) (tick_wall t) total
              | ProbeRefused | ProbeElapsed => record_failure s (tick_now t) (tick_wall t) total
              end) total.

(** One tick of [run]; [next_idx] is a 64-bit [usize]. *)
Definition tick (next_idx : Z) (states : list HealthState) (total : Z) (t : Tick)
  : Z * list HealthState * Z :=
  match states with
  | [] => (next_idx, states, total)
  | _ =>
    let idx := Z.to_nat (next_idx mod Z.of_nat (length states)) in
    let (states, total) := probe_one states idx t total in
    (wrap_u64 (next_idx + 1), states, total)
  end.

Fixpoint run (next_idx : Z) (states : list HealthState) (total : Z) (ts : list Tick)
  : Z * list HealthState * Z :=
  match ts with
  | [] => (next_idx, states, total)
  | t :: ts => let '(next_idx, states, total) := tick next_idx states total t in run next_idx states total ts
  end.

(** The outcome of a probe as an event of the target's history. *)
Definition probe_event (t : Tick) : Event :=
  match dial t with
  | ProbeConnected => Success (tick_now t) (tick_wall t)
  | ProbeRefused | ProbeElapsed => Failure (tick_now t) (tick_wall t)
  end.

(** The ticks that fall on target [i] of [n], the first tick being number [j]. *)
Fixpoint every (n : Z) (i : nat) (j : Z) (ts : list Tick) : list Tick :=
  match ts with
  | [] => []
  | t :: ts => if j mod n =? Z.of_nat i then t :: every n i (j + 1) ts else every n i (j + 1) ts
  end.

Definition probed (s : HealthState) (t : Tick) : HealthState := (observe (s, 0) (probe_event t)).1.

Lemma probe_one_lookup states idx t total i s :
  states !! i = Some s ->
  (probe_one states idx t total).1 !! i = Some (if decide (idx = i) then probed s t else s) /\
  length (probe_one states idx t total).1 = length states.
Proof.
  intros Hs. split; [|apply record_length]. unfold probe_one.
  erewrite record_lookup by exact Hs. destruct (decide (idx = i)); [|done].
  unfold probed, probe_event. destruct (dial t); cbn; f_equal;
    solve [apply record_success_total|apply record_failure_total].
Qed.

(** The prober is fair and exact: it probes the targets in turn, one
    per tick, and after any number of ticks the health record of each target
    is its record before, updated by the outcomes of its own probes in order,
    each probe of target [i] of [n] being [n] ticks after the one before. *)
Theorem probe_round_robin j states total ts i s :
  0 <= j -> j + Z.of_nat (length ts) <= u64_max -> states !! i = Some s ->
  let '(j', states', _) := run j states total ts in
  j' = j + Z.of_nat (length ts) /\
  states' !! i = Some (foldl probed s (every (Z.of_nat (length states)) i j ts)).
Proof.
  revert j states total s. induction ts as [|t ts IH]; intros j states total s Hj Hmax Hs.
  { cbn. split; [lia|done]. }
  rewrite length_cons in Hmax. cbn [run]. unfold tick.
  destruct states as [|s0 states0] eqn:Est; [done|]. rewrite <- Est in *.
  pose proof (probe_one_lookup states (Z.to_nat (j mod Z.of_nat (length states))) t total i s Hs) as [Hl Hlen].
  destruct (probe_one _ _ _ _) as [st1 t1]. cbn [fst] in Hl, Hlen.
  rewrite wrap_u64_id by (unfold_ints; lia).
  specialize (IH (j + 1) st1 t1 _ ltac:(lia) ltac:(lia) Hl). rewrite Hlen in IH.
  destruct (run (j + 1) st1 t1 ts) as [[j' st'] t']. destruct IH as [-> ->].
  split; [rewrite length_cons; lia|]. cbn [every].
  assert (0 <= j mod Z.of_nat (length states)) as Hm.
  { apply Z.mod_pos_bound. rewrite Est. cbn. lia. }
  destruct (j mod Z.of_nat (length states) =? Z.of_nat i) eqn:E; bool_prop.
  - by rewrite decide_True by lia.
  - by rewrite decide_False by lia.
Qed.

Lemma probe_round_robin_witness :
  exists s, (run 0 [new; new] 0
    [mkTick ProbeRefused 1 1; mkTick ProbeConnected 2 2; mkTick ProbeElapsed 3 3; mkTick ProbeConnected 4 4;
     mkTick ProbeElapsed 5 5]).1.2 !! 0%nat = Some s /\ state s = Failed.
Proof.
  pose proof (probe_round_robin 0 [new; new] 0
    [mkTick ProbeRefused 1 1; mkTick ProbeConnected 2 2; mkTick ProbeElapsed 3 3; mkTick ProbeConnected 4 4;
     mkTick ProbeElapsed 5 5] 0 new (Z.le_refl 0) ltac:(unfold u64_max; cbn; lia) eq_refl) as H.
  destruct (run 0 _ 0 _) as [[j' st'] t']. destruct H as [_ H]. eexists. split; [exact H|reflexivity].
Defined.

End Probe.
