(* ===== verification/Standalone.v ===== *)
(** * Standalone: configuration and runtime of the standalone forwarder

    [crates/portunus-standalone/src/]: the validation of a configuration file
    and its conversion to rules ([config.rs]), the start-up gate, the exit
    code and the stats socket ([main.rs], [runtime.rs], [stats/]).

    The TOML reader gives a [Config] value; BLAKE3 is an argument.  Error
    messages are the values they are formatted from. *)

From S2P Require Import Prelude Text PortRange IpAddr Hostname Target RuleStore RuleRun.

Local Open Scope Z_scope.

Module Standalone.

(** ** Schema *)

Record StatsConfig : Type := mkStatsConfig {
  enabled : bool;
  socket_path : list Z;
  refresh_ms : Z;
}.

Record GlobalConfig : Type := mkGlobal {
  label : option (list Z);
  log_level : list Z;
  log_format : list Z;
  shutdown_drain_secs : Z;
}.

Record DefaultsConfig : Type := mkDefaults {
  defaults_protocol : option (list Z);
  defaults_udp_max_flows : Z;
  defaults_udp_flow_idle_secs : Z;
  defaults_prefer_ipv6 : bool;
}.

Record RawTarget : Type := mkRawTarget {
  raw_host : list Z;
  raw_port : Z;
  raw_priority : Z;
  raw_proxy_protocol : option (list Z);
}.

Record RawRule : Type := mkRawRule {
  name : list Z;
  protocol : option (list Z);
  listen_port : option Z;
  listen_ports : option (list Z);
  target : option (list Z);
  targets : option (list RawTarget);
  prefer_ipv6 : option bool;
  udp_max_flows : option Z;
  udp_flow_idle_secs : option Z;
}.

Record Config : Type := mkConfig {
  global : GlobalConfig;
  defaults : DefaultsConfig;
  stats : StatsConfig;
  rules : list RawRule;
}.

(** Bounds the types of the source give: [listen_port] and the target ports
    are [u16]. *)
Definition raw_typed (r : RawRule) : Prop :=
  (forall p, listen_port r = Some p -> in_u16 p) /\
  (forall ts, targets r = Some ts -> Forall (fun t => in_u16 (raw_port t)) ts).

Definition typed (c : Config) : Prop := Forall raw_typed (rules c).

(** What the messages of [ConfigError] are formatted from. *)
Inductive Msg : Type :=
| InvalidStart (lo_s : list Z)
| InvalidEnd (hi_s : list Z)
| InvalidPort (s : list Z)
| RangeErr (e : PortRange.PortRangeError)
| NotHostPort (s : list Z)
| HostErr (e : Target.TargetError)
| UnknownProtocol (s : list Z)
| UnknownProxyProtocol (s : list Z).

Inductive ConfigError : Type :=
| NoRules
| DuplicateName (n : list Z)
| ListenExclusivity
| TargetExclusivity
| RangeSizeMismatch (listen_len target_len : Z)
| TargetParse (rule : list Z) (msg : Msg)
| PortRangeParse (rule : list Z) (msg : Msg)
| EmptyTargets (rule : list Z)
| RangeMultiTargetUnsupported (rule : list Z)
| RuleIdCollision (a b : list Z)
| RefreshOutOfRange (refresh : Z).

(** ** Parsing *)

Definition HYPHEN : Z := 45.
Definition COLON : Z := 58.
Definition LBRACKET : Z := 91.
Definition RBRACKET : Z := 93.

(** [parse_port_range]. *)
Definition parse_port_range (s : list Z) : Result PortRange.PortRange Msg :=
  match split_once HYPHEN s with
  | Some (lo_s, hi_s) =>
    match parse_uint u16_max (trim lo_s) with
    | None => Err (InvalidStart lo_s)
    | Some lo =>
      match parse_uint u16_max (trim hi_s) with
      | None => Err (InvalidEnd hi_s)
      | Some hi => map_err RangeErr (PortRange.new lo hi)
      end
    end
  | None =>
    match parse_uint u16_max (trim s) with
    | None => Err (InvalidPort s)
    | Some port => Ok (PortRange.single port)
    end
  end.

(** [last_colon_pos], as the two slices around the colon it finds. *)
Definition split_port (s : list Z) : option (list Z * list Z) :=
  if starts_with_char LBRACKET s then
    match split_once RBRACKET s with
    | Some (inner, c :: port) => if c =? COLON then Some (inner ++ [RBRACKET], port) else None
    | _ => None
    end
  else rsplit_once COLON s.

(** [extract_port_part]. *)
Definition extract_port_part (s : list Z) : Result (list Z) Msg :=
  match split_port s with Some (_, port) => Ok port | None => Err (NotHostPort s) end.

(** [parse_target_range_part]. *)
Definition parse_target_range_part (s : list Z) : Result PortRange.PortRange Msg :=
  let? port_part := extract_port_part s in
  parse_port_range port_part.

(** [parse_target_string]. *)
Definition parse_target_string (s rule : list Z)
  : Result (list Z * PortRange.PortRange) ConfigError :=
  let? port_part := map_err (TargetParse rule) (extract_port_part s) in
  match split_port s with
  | None => Err (TargetParse rule (NotHostPort s))
  | Some (host, _) =>
    let? range := map_err (TargetParse rule) (parse_port_range port_part) in
    Ok (host, range)
  end.

(** [classify_target]. *)
Definition classify_target (host rule : list Z) : Result Target.Target ConfigError :=
  map_err (fun e => TargetParse rule (HostErr e)) (Target.parse host).

(** [Protocol::from_str] and [parse_protocol]. *)
Definition parse_protocol (s rule : list Z) : Result RuleStore.Protocol ConfigError :=
  if bool_decide (s = lit "tcp") then Ok RuleStore.Tcp
  else if bool_decide (s = lit "udp") then Ok RuleStore.Udp
  else Err (TargetParse rule (UnknownProtocol s)).

(** [parse_proxy_protocol]. *)
Definition parse_proxy_protocol (s : option (list Z)) (rule : list Z)
  : Result (option RuleTarget.ProxyProtocolVersion) ConfigError :=
  match s with
  | None => Ok None
  | Some v =>
    if bool_decide (v = lit "v1") then Ok (Some RuleTarget.V1)
    else if bool_decide (v = lit "v2") then Ok (Some RuleTarget.V2)
    else Err (TargetParse rule (UnknownProxyProtocol v))
  end.

(** ** Validation *)

Section Hash.
Context (blake3 : list Z -> list Z).

(** [u64::from_le_bytes]. *)
Definition from_le_bytes (bs : list Z) : Z := foldr (fun b acc => b + 256 * acc) 0 bs.

(** [derive_rule_id]. *)
Definition derive_rule_id (n : list Z) : Z := from_le_bytes (take 8 (blake3 (as_bytes n))).

(** The first loop of [validate]: the [HashSet] of names seen. *)
Fixpoint check_names (seen : list (list Z)) (rs : list RawRule) : Result unit ConfigError :=
  match rs with
  | [] => Ok tt
  | r :: rs =>
    if bool_decide (name r ∈ seen) then Err (DuplicateName (name r))
    else check_names (name r :: seen) rs
  end.

(** The body of the second loop: exclusivity and arity of one rule. *)
Definition check_rule (r : RawRule) : Result unit ConfigError :=
  let? listen_len :=
    match listen_port r, listen_ports r with
    | None, None | Some _, Some _ => Err ListenExclusivity
    | Some _, None =>
      match target r, targets r with
      | None, None | Some _, Some _ => Err TargetExclusivity
      | _, _ => Ok 1
      end
    | None, Some s =>
      match target r, targets r with
      | None, None | Some _, Some _ => Err TargetExclusivity
      | _, _ =>
        let? range := map_err (PortRangeParse (name r)) (parse_port_range s) in
        Ok (PortRange.len range)
      end
    end in
  match target r, targets r with
  | Some target_str, _ =>
    let? range := map_err (TargetParse (name r)) (parse_target_range_part target_str) in
    let target_len := PortRange.len range in
    if listen_len =? target_len then Ok tt else Err (RangeSizeMismatch listen_len target_len)
  | None, Some ts =>
    if bool_decide (ts = []) then Err (EmptyTargets (name r))
    else if listen_len =? 1 then Ok tt
    else Err (RangeMultiTargetUnsupported (name r))
  | None, None => Ok tt
  end.

Fixpoint check_rules (rs : list RawRule) : Result unit ConfigError :=
  match rs with
  | [] => Ok tt
  | r :: rs => let? _ := check_rule r in check_rules rs
  end.

(** The third loop: the [HashMap] from derived id to name. *)
Fixpoint check_ids (seen : gmap Z (list Z)) (rs : list RawRule) : Result unit ConfigError :=
  match rs with
  | [] => Ok tt
  | r :: rs =>
    let rid := derive_rule_id (name r) in
    match (seen !! rid : option (list Z)) with
    | Some prev => Err (RuleIdCollision prev (name r))
    | None => check_ids (<[rid := name r]> seen) rs
    end
  end.

(** [Config::validate]. *)
Definition validate (c : Config) : Result unit ConfigError :=
  if bool_decide (rules c = []) then Err NoRules
  else
    let? _ := check_names [] (rules c) in
    let? _ := check_rules (rules c) in
    let? _ := check_ids ∅ (rules c) in
    if enabled (stats c) && negb ((250 <=? refresh_ms (stats c)) && (refresh_ms (stats c) <=? 5000))
    then Err (RefreshOutOfRange (refresh_ms (stats c)))
    else Ok tt.

(** ** Conversion to rules *)

Record MultiTarget : Type := mkMulti {
  spec : RuleTarget.RuleTarget;
  classified : Target.Target;
}.

Record ParsedRule : Type := mkParsed {
  rule_id : Z;
  p_name : list Z;
  p_protocol : RuleStore.Protocol;
  listen_range : PortRange.PortRange;
  target_host : list Z;
  p_target : Target.Target;
  target_range : PortRange.PortRange;
  p_targets : list MultiTarget;
  p_prefer_ipv6 : bool;
  p_udp_max_flows : Z;
  p_udp_flow_idle_secs : Z;
}.

(** The inner loop over the entries of a [targets] list. *)
Fixpoint parse_targets (rule : list Z) (ts : list RawTarget) : Result (list MultiTarget) ConfigError :=
  match ts with
  | [] => Ok []
  | rt :: ts =>
    let? pp := parse_proxy_protocol (raw_proxy_protocol rt) rule in
    let? t := classify_target (raw_host rt) rule in
    let? rest := parse_targets rule ts in
    Ok (mkMulti (RuleTarget.mkRuleTarget (raw_host rt) (raw_port rt) (raw_priority rt) pp) t :: rest)
  end.

(** The body of the loop of [into_iter_rules].  The two [expect]s are
    [Panics]. *)
Definition parse_rule (d : DefaultsConfig) (raw : RawRule)
  : Outcome (Result ParsedRule ConfigError) :=
  let proto := default (default (lit "tcp") (defaults_protocol d)) (protocol raw) in
  match parse_protocol proto (name raw) with
  | Err e => Returns (Err e)
  | Ok p =>
    let listen : Outcome (Result PortRange.PortRange ConfigError) :=
      match listen_port raw with
      | Some port => Returns (Ok (PortRange.single port))
      | None =>
        match listen_ports raw with
        | None => Panics
        | Some s => Returns (map_err (PortRangeParse (name raw)) (parse_port_range s))
        end
      end in
    match listen with
    | Panics => Panics
    | Returns (Err e) => Returns (Err e)
    | Returns (Ok lr) =>
      let build host t tr ts :=
        mkParsed (derive_rule_id (name raw)) (name raw) p lr host t tr ts
          (default (defaults_prefer_ipv6 d) (prefer_ipv6 raw))
          (default (defaults_udp_max_flows d) (udp_max_flows raw))
          (default (defaults_udp_flow_idle_secs d) (udp_flow_idle_secs raw)) in
      match target raw with
      | Some target_str =>
        Returns
          (let? (host, tr) := parse_target_string target_str (name raw) in
           let? t := classify_target host (name raw) in
           Ok (build host t tr []))
      | None =>
        match targets raw with
        | None => Panics
        | Some [] => Returns (Err (EmptyTargets (name raw)))
        | Some ((first :: _) as raw_targets) =>
          Returns
            (let? first_target := classify_target (raw_host first) (name raw) in
             let? multi := parse_targets (name raw) raw_targets in
             Ok (build (raw_host first) first_target (PortRange.single (raw_port first)) multi))
        end
      end
    end
  end.

Fixpoint parse_rules (d : DefaultsConfig) (rs : list RawRule)
  : Outcome (Result (list ParsedRule) ConfigError) :=
  match rs with
  | [] => Returns (Ok [])
  | r :: rs =>
    match parse_rule d r with
    | Panics => Panics
    | Returns (Err e) => Returns (Err e)
    | Returns (Ok p) =>
      match parse_rules d rs with
      | Panics => Panics
      | Returns (Err e) => Returns (Err e)
      | Returns (Ok ps) => Returns (Ok (p :: ps))
      end
    end
  end.

(** [Config::into_iter_rules]. *)
Definition into_iter_rules (c : Config) : Outcome (Result (list ParsedRule) ConfigError) :=
  parse_rules (defaults c) (rules c).

End Hash.

(** ** Start-up *)

Inductive Startup : Type :=
| Exit (code : Z)
| RunDaemon (c : Config) (registry : gmap Z (list Z)).

(** The overrides of the command line, applied before validation. *)
Definition override (no_stats : bool) (stats_socket : option (list Z)) (c : Config) : Config :=
  let st := stats c in
  mkConfig (global c) (defaults c)
    (mkStatsConfig (if no_stats then false else enabled st) (default (socket_path st) stats_socket) (refresh_ms st))
    (rules c).

(** [main] without the [stats] subcommand; [loaded] is the TOML reader's
    answer. *)
Definition main (b3 : list Z -> list Z) (no_stats : bool) (stats_socket : option (list Z)) (check : bool)
  (loaded : Result Config ConfigError) : Startup :=
  match loaded with
  | Err _ => Exit 2
  | Ok c =>
    let c := override no_stats stats_socket c in
    match validate b3 c with
    | Err _ => Exit 2
    | Ok _ =>
      let registry := list_to_map (reverse ((fun r => (derive_rule_id b3 (name r), name r)) <$> rules c)) in
      if check then Exit 0 else RunDaemon c registry
    end
  end.

(** The first steps of [runtime::run]: a configuration that does not convert
    ends the daemon with code 1. *)
Definition run_rules (b3 : list Z -> list Z) (c : Config) : Outcome (Result (list ParsedRule) Z) :=
  match into_iter_rules b3 c with
  | Panics => Panics
  | Returns (Err _) => Returns (Err 1)
  | Returns (Ok ps) => Returns (Ok ps)
  end.

(** ** What validation establishes *)

(** The listen side of a rule, and the number of its ports. *)
Inductive listens (r : RawRule) : Z -> Prop :=
| listens_port p : listen_port r = Some p -> listen_ports r = None -> listens r 1
| listens_range s lr :
    listen_port r = None -> listen_ports r = Some s -> parse_port_range s = Ok lr ->
    listens r (PortRange.len lr).

(** The target side of a rule that listens on [n] ports. *)
Inductive targets_fit (r : RawRule) (n : Z) : Prop :=
| fit_string s tr :
    target r = Some s -> targets r = None -> parse_target_range_part s = Ok tr ->
    PortRange.len tr = n -> targets_fit r n
| fit_list t ts : target r = None -> targets r = Some (t :: ts) -> n = 1 -> targets_fit r n.

Definition rule_ok (r : RawRule) : Prop := exists n, listens r n /\ targets_fit r n.

(** Every port the rule listens on has an upstream port. *)
Record routable (p : ParsedRule) : Prop := {
  routable_listen : PortRange.wf (listen_range p);
  routable_target : PortRange.wf (target_range p);
  routable_map : forall port, PortRange.contains (listen_range p) port = true ->
    exists q, PortRange.target_for port (listen_range p) (target_range p) = Returns (Some q) /\
              PortRange.contains (target_range p) q = true;
  routable_multi : p_targets p <> [] -> PortRange.len (listen_range p) = 1;
}.

(** ** Lemmas *)

Lemma check_rule_ok (r : RawRule) : check_rule r = Ok tt <-> rule_ok r.
Proof.
  unfold check_rule, rule_ok. split.
  - intros H.
    destruct (listen_port r) eqn:El, (listen_ports r) eqn:Els; try done;
    destruct (target r) eqn:Et, (targets r) as [ts|] eqn:Ets; try done.
    + exists 1. destruct (parse_target_range_part l) eqn:Ep; [|done]. cbn [map_err] in H.
      case_test_in H; bool_prop; [|done]. split; [by eapply listens_port|eapply fit_string; eauto; lia].
    + exists 1. destruct ts; [done|]. split; [by eapply listens_port|eapply fit_list; eauto; lia].
    + destruct (parse_port_range l) eqn:Ep; [|done]. cbn [map_err] in H.
      destruct (parse_target_range_part l0) eqn:Eq; [|done]. cbn [map_err] in H.
      case_test_in H; bool_prop; [|done]. eexists. split; [by eapply listens_range|eapply fit_string; eauto; lia].
    + destruct (parse_port_range l) eqn:Ep; [|done]. cbn [map_err] in H. destruct ts; [done|]. rewrite bool_decide_false in H by done.
      case_test_in H; bool_prop; [|done]. eexists. split; [by eapply listens_range|eapply fit_list; eauto; lia].
  - intros (n & [p Hp Hs|s lr Hp Hs Hr] & [t tr Ht Hts Htr Hn|t ts Ht Hts Hn]);
      rewrite Hp, Hs, Ht, Hts; try rewrite Hr; try rewrite Htr; cbn; rewrite ?Hn; try done;
      by rewrite Z.eqb_refl.
Qed.

Lemma check_rules_ok (rs : list RawRule) : check_rules rs = Ok tt <-> Forall rule_ok rs.
Proof.
  induction rs as [|r rs IH]; [done|]. cbn. rewrite Forall_cons, <- check_rule_ok, <- IH.
  destruct (check_rule r) as [[]|]; naive_solver.
Qed.

Lemma check_names_ok (seen : list (list Z)) (rs : list RawRule) :
  check_names seen rs = Ok tt <->
  NoDup (name <$> rs) /\ Forall (fun r => name r ∉ seen) rs.
Proof.
  revert seen. induction rs as [|r rs IH]; intros seen; cbn.
  { split; [|done]. split; constructor. }
  case_bool_decide as Hin.
  { split; [done|]. intros [_ Hf]. apply Forall_cons in Hf. naive_solver. }
  rewrite IH, NoDup_cons, Forall_cons, !Forall_forall, list_elem_of_fmap.
  setoid_rewrite not_elem_of_cons. split.
  - intros [Hn Hf]. split_and!; [|done..|]; [|naive_solver].
    intros (r' & E & Hr'). destruct (Hf r' Hr') as [Hne _]. congruence.
  - intros ((Hn & Hd) & _ & Hf). split; [done|]. intros r' Hr'. split; [|auto].
    intros E. apply Hn. by exists r'.
Qed.

Lemma check_ids_ok b3 (seen : gmap Z (list Z)) (rs : list RawRule) :
  check_ids b3 seen rs = Ok tt <->
  NoDup (derive_rule_id b3 ∘ name <$> rs) /\
  Forall (fun r => seen !! derive_rule_id b3 (name r) = None) rs.
Proof.
  revert seen. induction rs as [|r rs IH]; intros seen; cbn.
  { split; [|done]. split; constructor. }
  destruct (seen !! derive_rule_id b3 (name r)) eqn:E.
  { split; [done|]. intros [_ Hf]. apply Forall_cons in Hf. naive_solver. }
  rewrite IH, NoDup_cons, Forall_cons, !Forall_forall, list_elem_of_fmap.
  setoid_rewrite lookup_insert_None. split.
  - intros [Hn Hf]. split_and!; [|done..|]; [|naive_solver].
    intros (r' & E' & Hr'). destruct (Hf r' Hr') as [_ Hne]. by apply Hne.
  - intros ((Hn & Hd) & _ & Hf). split; [done|]. intros r' Hr'. split; [auto|].
    intros E'. apply Hn. by exists r'.
Qed.

Lemma parse_port_range_wf (s : list Z) (r : PortRange.PortRange) :
  parse_port_range s = Ok r -> PortRange.wf r.
Proof.
  unfold parse_port_range. intros H. destruct (split_once HYPHEN s) as [[lo_s hi_s]|].
  - destruct (parse_uint u16_max (trim lo_s)) eqn:Elo; [|done].
    destruct (parse_uint u16_max (trim hi_s)) eqn:Ehi; [|done].
    destruct (PortRange.new z z0) eqn:En; [|done]. cbn in H. simplify_eq.
    apply PortRange.new_ok_inv in En as (-> & ? & ?).
    apply parse_uint_in in Elo, Ehi. unfold PortRange.wf. cbn. lia.
  - destruct (parse_uint u16_max (trim s)) eqn:Ep; [|done]. simplify_eq.
    by eapply PortRange.wf_single, parse_uint_in.
Qed.

Lemma parse_target_string_spec (s rule : list Z) (tr : PortRange.PortRange) :
  parse_target_range_part s = Ok tr ->
  exists host, parse_target_string s rule = Ok (host, tr).
Proof.
  unfold parse_target_range_part, parse_target_string, extract_port_part.
  destruct (split_port s) as [[host port]|]; [|done]. cbn. intros ->. by eexists.
Qed.

Lemma routable_len (p : ParsedRule) :
  PortRange.wf (listen_range p) -> PortRange.wf (target_range p) ->
  PortRange.len (listen_range p) = PortRange.len (target_range p) ->
  (p_targets p <> [] -> PortRange.len (listen_range p) = 1) -> routable p.
Proof.
  intros Hl Ht Hlen Hm. split; [done..| |done]. intros port Hp.
  eexists. by apply PortRange.target_for_value.
Qed.

(** The entries of the list and the classification can only be refused with a
    target error of the rule. *)
Definition only_target_error {A} (rule : list Z) (r : Result A ConfigError) : Prop :=
  forall e, r = Err e -> exists msg, e = TargetParse rule msg.

Lemma parse_protocol_error (s rule : list Z) : only_target_error rule (parse_protocol s rule).
Proof. unfold parse_protocol. intros e. repeat case_test; intros [=]; eauto. Qed.

Lemma classify_error (host rule : list Z) : only_target_error rule (classify_target host rule).
Proof. unfold classify_target. intros e. destruct (Target.parse host); intros [=]; eauto. Qed.

Lemma proxy_protocol_error (s : option (list Z)) (rule : list Z) :
  only_target_error rule (parse_proxy_protocol s rule).
Proof. unfold parse_proxy_protocol. intros e. repeat case_test; intros [=]; eauto. Qed.

Lemma parse_targets_error (rule : list Z) (ts : list RawTarget) :
  only_target_error rule (parse_targets rule ts).
Proof.
  induction ts as [|t ts IH]; intros e; cbn; [done|].
  destruct (parse_proxy_protocol _ rule) eqn:Ep; [|intros [= <-]; by eapply proxy_protocol_error].
  destruct (classify_target _ rule) eqn:Ec; [|intros [= <-]; by eapply classify_error].
  destruct (parse_targets rule ts); [done|]. intros [= <-]. by apply IH.
Qed.

Lemma listens_range_of (r : RawRule) (n : Z) :
  raw_typed r -> listens r n ->
  exists lr, PortRange.wf lr /\ PortRange.len lr = n /\
    match listen_port r with
    | Some port => Returns (Ok (PortRange.single port))
    | None => match listen_ports r with
              | None => Panics
              | Some s => Returns (map_err (PortRangeParse (name r)) (parse_port_range s))
              end
    end = Returns (Ok lr).
Proof.
  intros [Hp _] [p Ep Es|s lr Ep Es Er]; rewrite Ep.
  - exists (PortRange.single p). split; [by apply PortRange.wf_single, Hp|].
    by rewrite PortRange.len_single.
  - exists lr. rewrite Es, Er. split; [by eapply parse_port_range_wf|done].
Qed.

(** One rule that passed the check converts, or is refused for its protocol,
    a host or a PROXY version. *)
Lemma parse_rule_ok b3 (d : DefaultsConfig) (r : RawRule) :
  raw_typed r -> rule_ok r ->
  exists res, parse_rule b3 d r = Returns res /\
    match res with
    | Err e => exists msg, e = TargetParse (name r) msg
    | Ok p => p_name p = name r /\ rule_id p = derive_rule_id b3 (name r) /\ routable p
    end.
Proof.
  intros Hty (n & Hl & Ht). destruct (listens_range_of r n Hty Hl) as (lr & Hwf & Hn & El).
  unfold parse_rule. destruct (parse_protocol _ (name r)) eqn:Ep.
  2:{ eexists. split; [done|]. by eapply parse_protocol_error. }
  rewrite El. destruct Ht as [s tr Es Ets Etr Hlen|t ts Es Ets Hone]; rewrite Es, ?Ets.
  - destruct (parse_target_string_spec s (name r) tr Etr) as [host ->].
    eexists. split; [done|]. destruct (classify_target host (name r)) eqn:Ec; [|by eapply classify_error].
    split; [done|]. split; [done|]. apply routable_len; cbn; [done| |lia|done].
    unfold parse_target_range_part in Etr. destruct (extract_port_part s); [|done].
    by eapply parse_port_range_wf.
  - eexists. split; [done|].
    destruct (classify_target (raw_host t) (name r)) eqn:Ec; [|by eapply classify_error].
    destruct (parse_targets (name r) (t :: ts)) eqn:Em; [|by eapply parse_targets_error].
    split; [done|]. split; [done|]. destruct Hty as [_ Hty]. specialize (Hty _ Ets).
    apply Forall_cons in Hty as [Hport _].
    apply routable_len; cbn; rewrite ?PortRange.len_single; [done|by apply PortRange.wf_single|lia..].
Qed.

Lemma parse_rules_ok b3 (d : DefaultsConfig) (rs : list RawRule) :
  Forall raw_typed rs -> Forall rule_ok rs ->
  exists res, parse_rules b3 d rs = Returns res /\
    match res with
    | Err e => exists r msg, r ∈ rs /\ e = TargetParse (name r) msg
    | Ok ps => p_name <$> ps = name <$> rs /\
               rule_id <$> ps = derive_rule_id b3 ∘ name <$> rs /\ Forall routable ps
    end.
Proof.
  intros Hty. induction Hty as [|r rs Hr Hrs IH]; intros Hok; cbn; [by eexists|].
  apply Forall_cons in Hok as [Hr' Hok].
  destruct (parse_rule_ok b3 d r Hr Hr') as (res & -> & H).
  destruct res as [p|e].
  2:{ eexists. split; [done|]. destruct H as [msg ->]. exists r, msg. split; [|done]. by left. }
  destruct (IH Hok) as (res & -> & H'). destruct res as [ps|e]; eexists; (split; [done|]).
  - destruct H as (E1 & E2 & ?), H' as (E3 & E4 & ?).
    rewrite !fmap_cons, E1, E2, E3, E4. split; [done|]. split; [done|]. by constructor.
  - destruct H' as (r' & msg & ? & ->). exists r', msg. split; [|done]. by right.
Qed.

Lemma validate_inv b3 (c : Config) :
  validate b3 c = Ok tt -> Forall rule_ok (rules c) /\ NoDup (derive_rule_id b3 ∘ name <$> rules c).
Proof.
  unfold validate. case_bool_decide; [done|].
  destruct (check_names [] (rules c)); [|done].
  destruct (check_rules (rules c)) as [[]|] eqn:E1; [|done].
  destruct (check_ids b3 ∅ (rules c)) as [[]|] eqn:E2; [|done]. intros _.
  apply check_rules_ok in E1. by apply check_ids_ok in E2 as [? _].
Qed.

(** ** Theorems on the configuration *)

(** A configuration passes validation exactly when it has a rule, the
    names are pairwise different and so are the ids derived from them, every
    rule listens on one port or one parseable range and has either one target
    string with as many ports or a non-empty list of targets for a single
    port, and the stats refresh interval, where the socket is enabled, is
    between 250 and 5000 milliseconds. *)
Theorem standalone_validate_spec (b3 : list Z -> list Z) (c : Config) :
  validate b3 c = Ok tt <->
  rules c <> [] /\ NoDup (name <$> rules c) /\ Forall rule_ok (rules c) /\
  NoDup (derive_rule_id b3 ∘ name <$> rules c) /\
  (enabled (stats c) = true -> 250 <= refresh_ms (stats c) <= 5000).
Proof.
  unfold validate. rewrite <- check_rules_ok.
  assert (check_names [] (rules c) = Ok tt <-> NoDup (name <$> rules c)) as Hn.
  { rewrite check_names_ok. split; [by intros [? _]|]. intros. split; [done|].
    apply Forall_true. intros. apply not_elem_of_nil. }
  assert (check_ids b3 ∅ (rules c) = Ok tt <-> NoDup (derive_rule_id b3 ∘ name <$> rules c)) as Hi.
  { rewrite check_ids_ok. split; [by intros [? _]|]. intros. split; [done|].
    apply Forall_true. intros. apply lookup_empty. }
  rewrite <- Hn, <- Hi. case_bool_decide; [naive_solver|].
  destruct (check_names [] (rules c)) as [[]|]; [|naive_solver].
  destruct (check_rules (rules c)) as [[]|]; [|naive_solver].
  destruct (check_ids b3 ∅ (rules c)) as [[]|]; [|naive_solver].
  destruct (enabled (stats c)); cbn; [|naive_solver].
  destruct ((250 <=? _) && _) eqn:E; cbn; bool_prop.
  - split; [|done]. intros _. split_and!; try done; intros _; lia.
  - split; [done|]. intros (_ & _ & _ & _ & Hr). specialize (Hr eq_refl). lia.
Qed.

(** The [expect]s of the conversion are safe after validation: a
    validated configuration converts without panic, either to one rule per
    entry, in order, with pairwise different ids and with an upstream port
    inside the target range for every port it listens on, or it is refused
    with a target error that names one of its rules. *)
Theorem validated_config_converts (b3 : list Z -> list Z) (c : Config) :
  typed c -> validate b3 c = Ok tt ->
  exists res, into_iter_rules b3 c = Returns res /\
    match res with
    | Ok ps => p_name <$> ps = name <$> rules c /\ NoDup (rule_id <$> ps) /\ Forall routable ps
    | Err e => exists r msg, r ∈ rules c /\ e = TargetParse (name r) msg
    end.
Proof.
  intros Hty Hv. apply validate_inv in Hv as [Hok Hd].
  destruct (parse_rules_ok b3 (defaults c) (rules c) Hty Hok) as (res & E & H).
  exists res. split; [done|]. destruct res as [ps|e]; [|done].
  destruct H as (? & Hid & ?). by rewrite Hid.
Qed.

Definition demo_rule (n listen tgt : list Z) : RawRule :=
  mkRawRule n None None (Some listen) (Some tgt) None None None None.

Definition demo_config (rs : list RawRule) : Config :=
  mkConfig (mkGlobal None (lit "warn") (lit "json") 30) (mkDefaults None 1024 60 false)
    (mkStatsConfig true (lit "/run/portunus/standalone.sock") 1000) rs.

(** A stand-in for the hash on short names: the bytes themselves. *)
Definition demo_hash (bs : list Z) : list Z := bs.

Lemma validated_config_converts_witness :
  exists ps, into_iter_rules demo_hash
    (demo_config [demo_rule (lit "web") (lit "8000-8009") (lit "10.0.0.5:9000-9009")]) = Returns (Ok ps) /\
    Forall routable ps.
Proof.
  destruct (validated_config_converts demo_hash
    (demo_config [demo_rule (lit "web") (lit "8000-8009") (lit "10.0.0.5:9000-9009")]))
    as (res & E & H).
  - constructor; [|constructor]. split; intros ? [=].
  - vm_compute. reflexivity.
  - vm_compute in E. injection E as <-. eexists. split; [vm_compute; reflexivity|]. apply H.
Defined.

(** The hosts a target string can carry. *)
Definition plain_host (h : list Z) : Prop := COLON ∉ h /\ starts_with_char LBRACKET h = false.

Definition bracketed_host (h : list Z) : Prop :=
  exists inner, RBRACKET ∉ inner /\ h = LBRACKET :: inner ++ [RBRACKET].

Lemma split_port_host (h port : list Z) :
  h <> [] -> plain_host h \/ bracketed_host h -> COLON ∉ port ->
  split_port (h ++ COLON :: port) = Some (h, port).
Proof.
  intros Hh [[Hc Hb]|(inner & Hi & ->)] Hp; unfold split_port.
  - replace (starts_with_char LBRACKET (h ++ COLON :: port)) with false by by destruct h.
    by apply rsplit_once_app.
  - cbn [starts_with_char app]. rewrite Z.eqb_refl.
    assert (split_once RBRACKET (LBRACKET :: (inner ++ [RBRACKET]) ++ COLON :: port)
            = Some (LBRACKET :: inner, COLON :: port)) as ->.
    { apply split_once_spec. split; [by rewrite <- app_assoc|].
      rewrite not_elem_of_cons. split; [done|done]. }
    by rewrite Z.eqb_refl.
Qed.

Lemma parse_port_range_dec (lo hi : Z) :
  1 <= lo -> lo <= hi -> hi <= u16_max ->
  parse_port_range (dec lo ++ HYPHEN :: dec hi) = Ok (PortRange.mkPortRange lo hi) /\
  parse_port_range (dec lo) = Ok (PortRange.single lo).
Proof.
  intros H1 H2 H3. unfold parse_port_range. split.
  - assert (split_once HYPHEN (dec lo ++ HYPHEN :: dec hi) = Some (dec lo, dec hi)) as ->.
    { apply split_once_spec. split; [done|]. by apply not_elem_of_dec. }
    rewrite !trim_dec, !parse_uint_dec by lia. unfold PortRange.new. by eval_if.
  - rewrite split_once_none by by apply not_elem_of_dec.
    by rewrite trim_dec, parse_uint_dec by lia.
Qed.

(** Printing a target and reading it back are inverse: the string made
    of a host without colon, or of a bracketed literal, a colon and a port
    range is read as that host and that range. *)
Theorem target_string_roundtrip (h rule : list Z) (lo hi : Z) :
  h <> [] -> plain_host h \/ bracketed_host h ->
  1 <= lo -> lo <= hi -> hi <= u16_max ->
  parse_target_string (h ++ COLON :: dec lo ++ HYPHEN :: dec hi) rule
    = Ok (h, PortRange.mkPortRange lo hi) /\
  parse_target_string (h ++ COLON :: dec lo) rule = Ok (h, PortRange.single lo).
Proof.
  intros Hh Hb H1 H2 H3. destruct (parse_port_range_dec lo hi H1 H2 H3) as [Hr Hs].
  unfold parse_target_string, extract_port_part. split.
  - rewrite split_port_host; [cbn [map_err]; by rewrite Hr|done..|].
    rewrite not_elem_of_app, not_elem_of_cons. split_and!; [by apply not_elem_of_dec|done|by apply not_elem_of_dec].
  - rewrite split_port_host; [cbn [map_err]; by rewrite Hs|done..|]. by apply not_elem_of_dec.
Qed.

Lemma target_string_roundtrip_witness :
  parse_target_string (lit "[::1]:9000-9009") (lit "r") = Ok (lit "[::1]", PortRange.mkPortRange 9000 9009).
Proof.
  refine (proj1 (target_string_roundtrip (lit "[::1]") (lit "r") 9000 9009 _ _ _ _ _)); try (unfold u16_max; lia).
  - discriminate.
  - right. exists (lit "::1"). split; [|reflexivity]. intros H. vm_compute in H.
    repeat (apply elem_of_cons in H as [H|H]; [discriminate|]). by apply elem_of_nil in H.
Defined.

(** [--check] accepts a configuration the daemon refuses to run: a
    target host outside the host name grammar passes validation, so [--check]
    exits with code 0, and the daemon started with the same file exits with
    code 1. *)
Theorem check_accepts_unstartable (b3 : list Z -> list Z) :
  let c := demo_config [demo_rule (lit "web") (lit "8000") (lit "bad_host:80")] in
  main b3 false None true (Ok c) = Exit 0 /\
  exists reg, main b3 false None false (Ok c) = RunDaemon (override false None c) reg /\
    run_rules b3 (override false None c) = Returns (Err 1).
Proof. cbn zeta. split; [reflexivity|]. eexists. split; [reflexivity|]. vm_compute. reflexivity. Qed.

(** The daemon waits for exactly its rules: the registry it is started
    with has one entry per rule of the file, the ids it expects are the ids
    of the forwarders it starts, and each is registered under its own name. *)
Theorem registry_matches_rules (b3 : list Z -> list Z) (no_stats check : bool) (sock : option (list Z))
  (loaded : Result Config ConfigError) (c : Config) (reg : gmap Z (list Z)) (ps : list ParsedRule) :
  main b3 no_stats sock check loaded = RunDaemon c reg -> typed c ->
  run_rules b3 c = Returns (Ok ps) ->
  size reg = length (rules c) /\ dom reg = list_to_set (rule_id <$> ps) /\
  forall p, p ∈ ps -> reg !! rule_id p = Some (p_name p).
Proof.
  unfold main, run_rules. intros Hm Hty Hp. destruct loaded as [c0|]; [|done].
  destruct (validate b3 (override no_stats sock c0)) as [[]|] eqn:Hv; [|done].
  destruct check; [done|]. simplify_eq. apply validate_inv in Hv as [Hok Hd].
  set (c := override no_stats sock c0) in *.
  destruct (parse_rules_ok b3 (defaults c) (rules c) Hty Hok) as (res & E & H).
  unfold into_iter_rules in Hp. rewrite E in Hp. destruct res as [ps'|]; simplify_eq.
  destruct H as (Hn & Hid & _).
  set (l := (fun r => (derive_rule_id b3 (name r), name r)) <$> rules c) in *.
  assert (l.*1 = rule_id <$> ps) as E1.
  { rewrite Hid. unfold l. rewrite <- list_fmap_compose. done. }
  assert (NoDup (reverse l).*1) as Hnd.
  { by rewrite fmap_reverse, reverse_Permutation, E1, Hid. }
  split_and!.
  - rewrite map_size_list_to_map by done. rewrite length_reverse. unfold l. apply length_fmap.
  - rewrite dom_list_to_map_L. apply set_eq. intros x.
    rewrite !elem_of_list_to_set, <- E1. by rewrite fmap_reverse, elem_of_reverse.
  - intros p (i & Hi)%list_elem_of_lookup. apply elem_of_list_to_map; [done|].
    apply elem_of_reverse. unfold l. apply list_elem_of_fmap.
    assert ((rule_id <$> ps) !! i = Some (rule_id p)) as L1 by (by rewrite list_lookup_fmap, Hi).
    assert ((p_name <$> ps) !! i = Some (p_name p)) as L2 by (by rewrite list_lookup_fmap, Hi).
    rewrite Hid, list_lookup_fmap in L1. rewrite Hn, list_lookup_fmap in L2.
    destruct (rules c !! i) as [r|] eqn:Er; [|done]. cbn in L1, L2. simplify_eq.
    exists r. split; [congruence|]. by eapply list_elem_of_lookup_2.
Qed.

Lemma registry_matches_rules_witness :
  exists reg ps, main demo_hash false None false
      (Ok (demo_config [demo_rule (lit "web") (lit "8000") (lit "10.0.0.5:80")])) = RunDaemon
      (override false None (demo_config [demo_rule (lit "web") (lit "8000") (lit "10.0.0.5:80")])) reg /\
    run_rules demo_hash (override false None (demo_config [demo_rule (lit "web") (lit "8000") (lit "10.0.0.5:80")]))
      = Returns (Ok ps) /\
    size reg = 1%nat.
Proof.
  eexists _, _. split; [reflexivity|]. split; [vm_compute; reflexivity|].
  edestruct (registry_matches_rules demo_hash false false None
    (Ok (demo_config [demo_rule (lit "web") (lit "8000") (lit "10.0.0.5:80")]))
    (override false None (demo_config [demo_rule (lit "web") (lit "8000") (lit "10.0.0.5:80")]))) as (H & _);
    [reflexivity| |vm_compute; reflexivity|exact H].
  constructor; [|constructor]. split; intros ? [=].
Defined.

End Standalone.

(** ** Runtime *)

Module StandaloneRuntime.

Import RuleRun.RuleRun.

Notation Event := RuleRun.RuleStatusEvent.

(** The start-up gate of [run]: [None] is the closed channel. *)
Inductive Gate : Type :=
| Passed (failures : list (Z * list Z)) (rest : list (option Event))
| Waiting (pending : gset Z) (failures : list (Z * list Z)).

Fixpoint startup_gate (pending : gset Z) (failures : list (Z * list Z)) (evs : list (option Event)) : Gate :=
  if bool_decide (pending = ∅) then Passed failures evs
  else
    match evs with
    | [] => Waiting pending failures
    | None :: evs => Passed failures evs
    | Some (RuleRun.Activated i) :: evs => startup_gate (pending ∖ {[i]}) failures evs
    | Some (RuleRun.Failed i why) :: evs => startup_gate (pending ∖ {[i]}) (failures ++ [(i, why)]) evs
    | Some (RuleRun.Removed i) :: evs => startup_gate (pending ∖ {[i]}) failures evs
    end.

(** ** The main loop

    The forwarders, the task that forwards run-time failures over the
    one-slot fatal channel, and the [select!] of [run]. *)

Record Main : Type := mkMain {
  queue : list Event;      (* sent, not yet received by the forwarding task *)
  slot : bool;             (* the fatal channel *)
  running : gset nat;
  finished : list bool;    (* ended, not yet joined; [true] is a panic *)
  fatal_flag : bool;
  cancelled : bool;
  exit_code : option Z;
  reported : bool;         (* history: a failure was put into the channel, or a panic joined *)
}.

Inductive MEv : Type :=
| Send (ev : Event)
| End (t : nat) (panicked : bool)
| Forward
| Poll.

Definition forward (m : Main) : option Main :=
  match queue m with
  | [] => None
  | ev :: q =>
    let failed := match ev with RuleRun.Failed _ _ => true | _ => false end in
    Some (mkMain q (slot m || failed) (running m) (finished m) (fatal_flag m) (cancelled m) (exit_code m)
            (reported m || failed))
  end.

(** One turn of the loop: the fatal branch is polled first. *)
Definition poll (m : Main) : option Main :=
  match exit_code m with
  | Some _ => None
  | None =>
    if slot m then
      Some (mkMain (queue m) false (running m) (finished m) true true None (reported m))
    else
      match finished m with
      | true :: fs => Some (mkMain (queue m) false (running m) fs true true None true)
      | false :: fs => Some (mkMain (queue m) false (running m) fs (fatal_flag m) (cancelled m) None (reported m))
      | [] =>
        if bool_decide (running m = ∅) then
          Some (mkMain (queue m) false (running m) [] (fatal_flag m) true
                  (Some (if fatal_flag m then 1 else 0)) (reported m))
        else None
      end
  end.

Definition mstep (m : Main) (ev : MEv) : option Main :=
  match ev with
  | Send e => Some (mkMain (queue m ++ [e]) (slot m) (running m) (finished m) (fatal_flag m) (cancelled m)
                      (exit_code m) (reported m))
  | End t p =>
    if bool_decide (t ∈ running m) then
      Some (mkMain (queue m) (slot m) (running m ∖ {[t]}) (finished m ++ [p]) (fatal_flag m) (cancelled m)
              (exit_code m) (reported m))
    else None
  | Forward => forward m
  | Poll => poll m
  end.

Fixpoint mexec (m : Main) (evs : list MEv) : option Main :=
  match evs with
  | [] => Some m
  | ev :: evs => match mstep m ev with None => None | Some m => mexec m evs end
  end.

Definition mstart (tasks : gset nat) : Main := mkMain [] false tasks [] false false None false.

(** ** Stats clients *)

Definition MAX_STATS_CLIENTS : nat := 16.

Inductive SEv : Type := SAccept | SAcceptError | SDisconnect (c : nat).

(** The accept loop of the stats server: connected clients hold a permit. *)
Definition serve (st : gset nat * nat) (ev : SEv) : gset nat * nat :=
  let (clients, next) := st in
  match ev with
  | SAccept => if (size clients <? MAX_STATS_CLIENTS)%nat then ({[next]} ∪ clients, S next) else (clients, S next)
  | SAcceptError => st
  | SDisconnect c => (clients ∖ {[c]}, next)
  end.

(** What one client is sent: a greeting, then a snapshot per tick until a
    write fails. *)
Inductive Frame : Type := HelloFrame | SnapshotFrame (seq : Z).

Fixpoint snapshots (seq : Z) (writes : list bool) : list Frame :=
  match writes with
  | [] => []
  | ok :: writes =>
    let seq := wrap_u64 (seq + 1) in
    if ok then SnapshotFrame seq :: snapshots seq writes else []
  end.

Definition handle_client (hello_ok : bool) (writes : list bool) : list Frame :=
  if hello_ok then HelloFrame :: snapshots 0 writes else [].

(** ** The ring of the stats client *)

Definition RING_WINDOW_MS : Z := 60000.
Definition MIN_REFRESH_MS : Z := 50.
Definition MAX_RING_CAPACITY : Z := 4096.

(** [Client::connect]: the quotient is rounded up.  The source divides as
    [f64]; the exact quotient is at least [1/60000] away from any integer it
    is not equal to, so rounding does not change the result. *)
Definition ring_capacity (refresh : Z) : Z :=
  Z.min (div_ceil RING_WINDOW_MS (Z.max refresh MIN_REFRESH_MS) + 1) MAX_RING_CAPACITY.

Section Ring.
Context {A : Type}.

(** [Client::push]: append, then drop from the front while too long. *)
Fixpoint pop_front (n : nat) (l : list A) (cap : nat) : list A :=
  match n with
  | O => l
  | S n => if (cap <? length l)%nat then pop_front n (tail l) cap else l
  end.

Definition push (cap : nat) (ring : list A) (x : A) : list A :=
  let ring := ring ++ [x] in pop_front (length ring) ring cap.

End Ring.

(** [field_rate] of the last two samples [(uptime, value)]. *)
Definition field_rate (ring : list (Z * Z)) : Z :=
  match reverse ring with
  | last :: prev :: _ =>
    let dt := sat_sub_u64 last.1 prev.1 in
    if dt =? 0 then 0 else sat_mul_u64 (sat_sub_u64 last.2 prev.2) 1000 / dt
  | _ => 0
  end.

(** ** Lemmas *)

Definition rule_of (ev : Event) : Z :=
  match ev with RuleRun.Activated i | RuleRun.Failed i _ | RuleRun.Removed i => i end.

Definition failures_of (evs : list Event) : list (Z * list Z) :=
  omap (fun ev => match ev with RuleRun.Failed i why => Some (i, why) | _ => None end) evs.

Lemma gate_spec pending failures evs :
  match startup_gate pending failures (Some <$> evs) with
  | Passed fs rest =>
    exists seen left, evs = seen ++ left /\ rest = Some <$> left /\ fs = failures ++ failures_of seen /\
      (forall i, i ∈ pending -> i ∈ rule_of <$> seen)
  | Waiting p fs => exists i, i ∈ pending /\ i ∉ rule_of <$> evs
  end.
Proof.
  revert pending failures. induction evs as [|ev evs IH]; intros pending failures; cbn.
  - case_bool_decide as Hp.
    + exists [], []. split_and!; [done|done|by rewrite app_nil_r|]. set_solver.
    + apply set_choose_L in Hp as [i Hi]. exists i. split; [done|apply not_elem_of_nil].
  - case_bool_decide as Hp.
    { exists [], (ev :: evs). split_and!; [done|done|by rewrite app_nil_r|]. set_solver. }
    assert (forall fs', match startup_gate (pending ∖ {[rule_of ev]}) fs' (Some <$> evs) with
      | Passed fs rest =>
        exists seen left, ev :: evs = seen ++ left /\ rest = Some <$> left /\
          fs = fs' ++ failures_of (tail seen) /\ (exists r, seen = ev :: r) /\
          (forall i, i ∈ pending -> i ∈ rule_of <$> seen)
      | Waiting p fs => exists i, i ∈ pending /\ i ∉ rule_of ev :: (rule_of <$> evs)
      end) as Hgo.
    { intros fs'. specialize (IH (pending ∖ {[rule_of ev]}) fs').
      destruct (startup_gate _ fs' _) as [fs rest|p fs].
      - destruct IH as (seen & left & -> & -> & -> & Hs). exists (ev :: seen), left.
        split_and!; [done|done|done|eauto|]. intros i Hi. rewrite fmap_cons, elem_of_cons.
        destruct (decide (i = rule_of ev)); [by left|right]. apply Hs. set_solver.
      - destruct IH as (i & Hi & Hn). exists i. rewrite not_elem_of_cons. set_solver. }
    destruct ev as [i|i why|i]; cbn in Hgo |- *.
    + specialize (Hgo failures). destruct (startup_gate _ failures _) as [fs rest|p fs]; [|done].
      destruct Hgo as (seen & left & E & -> & -> & (r & ->) & Hs). by exists (RuleRun.Activated i :: r), left.
    + specialize (Hgo (failures ++ [(i, why)])). destruct (startup_gate _ _ _) as [fs rest|p fs]; [|done].
      destruct Hgo as (seen & left & E & -> & -> & (r & ->) & Hs). exists (RuleRun.Failed i why :: r), left.
      split_and!; [done|done|by rewrite <- app_assoc|done].
    + specialize (Hgo failures). destruct (startup_gate _ failures _) as [fs rest|p fs]; [|done].
      destruct Hgo as (seen & left & E & -> & -> & (r & ->) & Hs). by exists (RuleRun.Removed i :: r), left.
Qed.

(** The start-up gate is complete: once every configured rule has
    reported, the gate passes, having heard from each of them, and the list
    of failures it acts on is exactly the failures reported until then, in
    order; so a rule that could not bind is never overlooked and the daemon
    does not wait longer than for the last report. *)
Theorem startup_gate_complete (expected : gset Z) (evs : list Event) :
  (forall i, i ∈ expected -> i ∈ rule_of <$> evs) ->
  exists seen left, evs = seen ++ left /\
    startup_gate expected [] (Some <$> evs) = Passed (failures_of seen) (Some <$> left) /\
    forall i, i ∈ expected -> i ∈ rule_of <$> seen.
Proof.
  intros H. pose proof (gate_spec expected [] evs) as Hg.
  destruct (startup_gate expected [] (Some <$> evs)) as [fs rest|p fs].
  - destruct Hg as (seen & left & -> & -> & -> & Hs). by exists seen, left.
  - destruct Hg as (i & Hi & Hn). by apply H in Hi.
Qed.

Lemma startup_gate_complete_witness :
  exists seen left, [RuleRun.Activated 1; RuleRun.Failed 2 (lit "port_in_use"); RuleRun.Removed 1] = seen ++ left /\
    startup_gate {[1; 2]} [] (Some <$> [RuleRun.Activated 1; RuleRun.Failed 2 (lit "port_in_use"); RuleRun.Removed 1])
      = Passed (failures_of seen) (Some <$> left) /\
    forall i, i ∈ ({[1; 2]} : gset Z) -> i ∈ rule_of <$> seen.
Proof.
  apply (startup_gate_complete {[1; 2]} [RuleRun.Activated 1; RuleRun.Failed 2 (lit "port_in_use"); RuleRun.Removed 1]).
  intros i. rewrite elem_of_union, !elem_of_singleton. intros [->| ->]; cbn; [by left|right; by left].
Defined.

(** What the loop remembers. *)
Record minv (m : Main) : Prop := {
  mi_flag : fatal_flag m = true -> reported m = true;
  mi_slot : slot m = true -> reported m = true;
  mi_live : exit_code m = None -> reported m = true -> slot m = true \/ fatal_flag m = true;
}.

Lemma mstep_inv m ev m' : minv m -> mstep m ev = Some m' -> minv m'.
Proof.
  intros [Hf Hs Hl] H. destruct ev as [e|t p| |]; cbn in H.
  - by simplify_eq.
  - case_bool_decide; by simplify_eq.
  - unfold forward in H. destruct (queue m) as [|e q]; [done|]. simplify_eq. split; cbn.
    + intros ->%Hf. done.
    + intros [Hx| ->]%orb_prop; [by rewrite (Hs Hx)|apply orb_true_r].
    + intros Hx Hr. destruct (reported m) eqn:Er; [|cbn in Hr; rewrite Hr; left; by rewrite orb_true_r].
      destruct (Hl Hx eq_refl) as [->|?]; [by left|by right].
  - unfold poll in H. destruct (exit_code m) eqn:Ex; [done|]. destruct (slot m) eqn:Es.
    { simplify_eq. split; cbn; [auto|done|auto]. }
    destruct (finished m) as [|[] fs]; [case_bool_decide; [|done]|..]; simplify_eq; split; cbn; auto.
Qed.

Lemma mexec_inv m evs m' : minv m -> mexec m evs = Some m' -> minv m'.
Proof.
  revert m. induction evs as [|ev evs IH]; intros m Hi H; cbn in H; [by simplify_eq|].
  destruct (mstep m ev) as [m1|] eqn:E; [|done]. eapply IH; [|exact H]. by eapply mstep_inv.
Qed.

(** The exit code is faithful to what the daemon has been told: in
    every interleaving of the forwarders, the task that passes failures on and
    the main loop, the loop exits with code 1 exactly when a failure had been
    put into the fatal channel or a forwarder's panic joined, and with 0
    otherwise; the preference for the fatal branch loses neither. *)
Theorem exit_code_faithful (tasks : gset nat) (evs : list MEv) (m m' : Main) :
  mexec (mstart tasks) evs = Some m -> exit_code m = None -> mstep m Poll = Some m' ->
  forall c, exit_code m' = Some c -> (c = 1 <-> reported m = true) /\ (c = 0 <-> reported m = false).
Proof.
  intros He Hx Hp c Hc. assert (minv m) as [Hf Hs Hl].
  { eapply mexec_inv; [|exact He]. by split. }
  cbn in Hp. unfold poll in Hp. rewrite Hx in Hp. destruct (slot m) eqn:Es; [by simplify_eq|].
  destruct (finished m) as [|[] fs]; [|by simplify_eq..]. case_bool_decide; [|done]. simplify_eq.
  cbn in Hc. simplify_eq. destruct (reported m) eqn:Er.
  - destruct (Hl Hx eq_refl) as [?|E]; [done|]. rewrite E. done.
  - destruct (fatal_flag m) eqn:Ef; [by discriminate (Hf eq_refl)|]. done.
Qed.

Lemma exit_code_faithful_witness :
  exists m m', mexec (mstart {[0%nat]}) [Send (RuleRun.Failed 1 (lit "x")); Forward; Poll; End 0 false; Poll] = Some m /\
    mstep m Poll = Some m' /\ exit_code m' = Some 1 /\ (1 = 1 <-> reported m = true).
Proof.
  eexists _, _. split; [reflexivity|]. split; [reflexivity|]. split; [reflexivity|].
  refine (proj1 (exit_code_faithful {[0%nat]}
    [Send (RuleRun.Failed 1 (lit "x")); Forward; Poll; End 0 false; Poll] _ _ eq_refl eq_refl eq_refl 1 eq_refl)).
Defined.

(** A run-time failure can be lost in the exit code: when the last rule
    fails and its task ends, the main loop may join it before the forwarding
    task has passed the failure on, and the daemon exits with code 0. *)
Theorem runtime_failure_exits_zero :
  exists evs m, mexec (mstart {[0%nat]}) (Send (RuleRun.Failed 1 (lit "udp task exited")) :: evs) = Some m /\
    exit_code m = Some 0.
Proof. exists [End 0 false; Poll; Poll]. eexists. split; reflexivity. Qed.

(** ** Theorems on the stats socket *)

(** At most sixteen stats clients are served at any time, whatever the
    order of connections, accept errors and disconnections, and the next
    connection after a disconnection is served again. *)
Theorem stats_clients_bounded (evs : list SEv) :
  let st := foldl serve (∅, 0%nat) evs in
  (size st.1 <= MAX_STATS_CLIENTS)%nat /\
  ((size st.1 < MAX_STATS_CLIENTS)%nat -> st.2 ∈ (serve st SAccept).1).
Proof.
  cbn zeta. split.
  - assert (forall st : gset nat * nat, (size st.1 <= MAX_STATS_CLIENTS)%nat ->
      (size (foldl serve st evs).1 <= MAX_STATS_CLIENTS)%nat) as H.
    { induction evs as [|ev evs IH]; intros [cl n] Hst; [done|]. cbn [foldl]. apply IH.
      cbn [fst] in Hst. destruct ev; cbn [serve]; [|done|].
      - case_test; bool_prop; cbn [fst]; [|done]. rewrite size_union_alt, size_singleton.
        pose proof (subseteq_size (cl ∖ {[n]}) cl ltac:(set_solver)). lia.
      - pose proof (subseteq_size (cl ∖ {[c]}) cl ltac:(set_solver)). cbn [fst]. lia. }
    apply H. cbn [fst]. rewrite size_empty. lia.
  - destruct (foldl serve (∅, 0%nat) evs) as [cl n]. cbn [fst snd serve]. intros H.
    assert ((size cl <? MAX_STATS_CLIENTS)%nat = true) as -> by (by apply Nat.ltb_lt). set_solver.
Qed.

Lemma pop_front_drop {A} n (l : list A) cap :
  (length l - cap <= n)%nat -> pop_front n l cap = drop (length l - cap) l.
Proof.
  revert l. induction n as [|n IH]; intros l Hn; cbn [pop_front].
  - by replace (length l - cap)%nat with 0%nat by lia.
  - case_test; bool_prop.
    + destruct l as [|x l]; [cbn [length] in *; lia|]. cbn [tail length] in *. rewrite IH by lia.
      by replace (S (length l) - cap)%nat with (S (length l - cap)) by lia.
    + by replace (length l - cap)%nat with 0%nat by lia.
Qed.

(** The ring of the stats client holds the most recent samples: after
    any number of pushes it is the last [cap] of them in order, and for every
    refresh interval a peer may announce, zero included, the capacity lies
    between 2 and 1201, so the rate of the last two samples is always
    available and the ceiling of 4096 never cuts the window. *)
Theorem stats_ring_window {A} (cap : nat) (xs : list A) (refresh : Z) :
  (0 < cap)%nat -> 0 <= refresh ->
  foldl (push cap) [] xs = drop (length xs - cap) xs /\
  2 <= ring_capacity refresh <= 1201.
Proof.
  intros Hc Hr. split.
  - induction xs as [|x xs IH] using rev_ind; [done|]. rewrite foldl_app. cbn. rewrite IH. unfold push.
    rewrite pop_front_drop by lia. rewrite !length_app, length_drop. cbn.
    destruct (decide (length xs < cap)%nat) as [Hlt|Hge].
    + replace (length xs - cap)%nat with 0%nat by lia. cbn. by replace (length xs - 0 + 1 - cap)%nat with (length xs + 1 - cap)%nat by lia.
    + replace (length xs - (length xs - cap) + 1 - cap)%nat with 1%nat by lia.
      rewrite <- drop_app_le by lia. rewrite drop_drop. f_equal. lia.
  - unfold ring_capacity, RING_WINDOW_MS, MIN_REFRESH_MS, MAX_RING_CAPACITY.
    pose proof (div_ceil_mul_le 60000 (Z.max refresh 50)) as H1.
    assert (div_ceil 60000 (Z.max refresh 50) <= 1200).
    { unfold div_ceil. apply Z.lt_succ_r, Z.div_lt_upper_bound; lia. }
    assert (1 <= div_ceil 60000 (Z.max refresh 50)).
    { unfold div_ceil. apply Z.div_le_lower_bound; lia. }
    lia.
Qed.

Lemma stats_ring_window_witness :
  foldl (push 2) [] [1; 2; 3] = [2; 3] /\ 2 <= ring_capacity 0 <= 1201.
Proof. exact (stats_ring_window 2 [1; 2; 3] 0 ltac:(lia) ltac:(lia)). Defined.

End StandaloneRuntime.
