(* ===== verification/UdpPath.v ===== *)
(** * UdpPath: the datagrams of a UDP rule

    [crates/portunus-forwarder/src/forwarder/udp/]: the classification of
    socket errors ([error.rs]), the accounting of a flow ([flow.rs]), the
    receive loop with its batches, the admission of new flows and their
    set-up task ([listener.rs]), and the demultiplexer of the replies
    ([demux.rs]), over the flow registry of [UdpRegistry], the limits of
    [RateScope] and the quota handle of [Quota].

    Sockets, the resolver and the clock answer through arguments.  What a
    handler does to the rule's shared state is one function; the events of
    the listener, the set-up tasks, the demultiplexer, the reaper, hot
    reloads and the shutdown interleave freely.  [Core] is the state that
    holds resources; [Tally] what is counted, billed and put on the wire.  A
    flow is a reference, alive while the registry, the demultiplexer's
    channel or one of its waits holds it. *)

From S2P Require Import Prelude PortRange RateLimit TokenBucket RateScope Quota Stats Slots UdpRegistry.

Local Open Scope Z_scope.

(** ** Socket errors *)

Module UdpError.

Inductive ErrorKind : Type :=
| WouldBlock | ConnectionRefused | ConnectionAborted | ConnectionReset
| HostUnreachable | NetworkUnreachable | Interrupted | OtherKind.

#[global] Instance ErrorKind_eq_dec : EqDecision ErrorKind.
Proof. solve_decision. Defined.

Record IoError : Type := mkIoError { kind : ErrorKind; raw_os_error : option Z }.

(** The numbers of Linux. *)
Definition EMSGSIZE : Z := 90.
Definition ENETUNREACH : Z := 101.
Definition ECONNREFUSED : Z := 111.
Definition EHOSTUNREACH : Z := 113.

Inductive UdpAction : Type := AWouldBlock | MessageTooLarge | Evict | Transient.

#[global] Instance UdpAction_eq_dec : EqDecision UdpAction.
Proof. solve_decision. Defined.

Definition classify_udp_error (e : IoError) : UdpAction :=
  match kind e with
  | WouldBlock => AWouldBlock
  | ConnectionRefused | ConnectionAborted | ConnectionReset | HostUnreachable | NetworkUnreachable => Evict
  | Interrupted => Transient
  | OtherKind =>
    match raw_os_error e with
    | Some raw =>
      if raw =? EMSGSIZE then MessageTooLarge
      else if (raw =? EHOSTUNREACH) || (raw =? ENETUNREACH) || (raw =? ECONNREFUSED) then Evict
      else Transient
    | None => Transient
    end
  end.

End UdpError.

Module UdpPath.

Import RateScope Slots UdpError.

(** [ErrorCounters], the counters the UDP path raises. *)
Record ErrorCounters : Type := mkErrors {
  upstream_connect_failed : Z;
  icmp_evict : Z;
  emsgsize : Z;
  wouldblock : Z;
  addflow_dropped : Z;
  flows_pending_drops : Z;
  bandwidth_dropped_in : Z;
  bandwidth_dropped_out : Z;
  send_dropped : Z;
}.

Inductive Counter : Type :=
| CConnectFailed | CIcmpEvict | CEmsgsize | CWouldblock | CAddflowDropped | CPendingDrops
| CBandwidthIn | CBandwidthOut | CSendDropped.

#[global] Instance Counter_eq_dec : EqDecision Counter.
Proof. solve_decision. Defined.

(** [fetch_add(n)] on one of them. *)
Definition count (c : Counter) (n : Z) (e : ErrorCounters) : ErrorCounters :=
  let add c' v := if decide (c = c') then wrap_u64 (v + n) else v in
  mkErrors (add CConnectFailed (upstream_connect_failed e)) (add CIcmpEvict (icmp_evict e))
    (add CEmsgsize (emsgsize e)) (add CWouldblock (wouldblock e)) (add CAddflowDropped (addflow_dropped e))
    (add CPendingDrops (flows_pending_drops e)) (add CBandwidthIn (bandwidth_dropped_in e))
    (add CBandwidthOut (bandwidth_dropped_out e)) (add CSendDropped (send_dropped e)).

Definition BATCH_SIZE : nat := 32.
Definition DEMUX_FAIRNESS_BUDGET : nat := 32.
Definition DEMUX_CHANNEL : nat := 1024.

Definition payload_len (p : list Z) : Z := Z.of_nat (length p).

Section Path.
Context {Addr : Type} `{Countable Addr}.

Notation FlowKey := (Z * Addr)%type.
Notation Registry := (@UdpRegistry.Registry (Z * Addr) _ _).

Record UdpFlow : Type := mkFlow {
  source_addr : Addr;
  upstream_addr : Addr;
  last_seen : Z;
  f_bytes_in : Z;
  f_bytes_out : Z;
  f_datagrams_in : Z;
  f_datagrams_out : Z;
  admit_guards : list ActiveGuard;
}.

(** A spawned [complete_cold_flow] that has not run yet. *)
Record ColdTask : Type := mkTask { t_key : FlowKey; t_src : Addr; t_payload : list Z }.

(** [queue] is the demultiplexer's channel, [armed] its waits. *)
Record Core : Type := mkCore {
  registry : Registry;
  flows : gmap nat UdpFlow;
  next_flow : nat;
  limits : World;
  cold : list ColdTask;
  queue : list (FlowKey * nat);
  armed : list (FlowKey * nat);
  demux_open : bool;
}.

(** [quota] is the handle of the rule's user; every flow of the rule carries
    it.  [upstream] and [replies] are the datagrams the kernel took, oldest
    first. *)
Record Tally : Type := mkTally {
  quota : option Quota.QuotaHandle;
  stats : Stats.RuleStats;
  errors : ErrorCounters;
  owner_acc : option Stats.Accumulator;
  rule_acc : option Stats.Accumulator;
  upstream : list (nat * list Z);
  replies : list (FlowKey * list Z);
}.

Record Udp : Type := mkUdp { core : Core; tally : Tally }.

(** One listener of the rule. *)
Record ListenerConfig : Type := mkCfg {
  listen_port : Z;
  rule_cap : Z;
  rate_limit : option Z;
  owner_rate_limit : option OwnerId;
  listener_sockets : list Z;
}.

Definition set_registry (c : Core) (r : Registry) : Core :=
  mkCore r (flows c) (next_flow c) (limits c) (cold c) (queue c) (armed c) (demux_open c).

Definition set_flows (c : Core) (m : gmap nat UdpFlow) : Core :=
  mkCore (registry c) m (next_flow c) (limits c) (cold c) (queue c) (armed c) (demux_open c).

Definition set_limits (c : Core) (w : World) : Core :=
  mkCore (registry c) (flows c) (next_flow c) w (cold c) (queue c) (armed c) (demux_open c).

Definition set_cold (c : Core) (ts : list ColdTask) : Core :=
  mkCore (registry c) (flows c) (next_flow c) (limits c) ts (queue c) (armed c) (demux_open c).

Definition set_waits (c : Core) (q a : list (FlowKey * nat)) : Core :=
  mkCore (registry c) (flows c) (next_flow c) (limits c) (cold c) q a (demux_open c).

Definition set_quota (t : Tally) (q : option Quota.QuotaHandle) : Tally :=
  mkTally q (stats t) (errors t) (owner_acc t) (rule_acc t) (upstream t) (replies t).

Definition set_stats (t : Tally) (s : Stats.RuleStats) : Tally :=
  mkTally (quota t) s (errors t) (owner_acc t) (rule_acc t) (upstream t) (replies t).

Definition set_accs (t : Tally) (o r : option Stats.Accumulator) : Tally :=
  mkTally (quota t) (stats t) (errors t) o r (upstream t) (replies t).

Definition on_core (f : Core -> Core) (u : Udp) : Udp := mkUdp (f (core u)) (tally u).
Definition on_tally (f : Tally -> Tally) (u : Udp) : Udp := mkUdp (core u) (f (tally u)).

Definition inc (c : Counter) (n : Z) (u : Udp) : Udp :=
  on_tally (fun t => mkTally (quota t) (stats t) (count c n (errors t)) (owner_acc t) (rule_acc t)
                       (upstream t) (replies t)) u.

Definition to_upstream (f : nat) (p : list Z) (u : Udp) : Udp :=
  on_tally (fun t => mkTally (quota t) (stats t) (errors t) (owner_acc t) (rule_acc t)
                       (upstream t ++ [(f, p)]) (replies t)) u.

Definition to_client (k : FlowKey) (p : list Z) (u : Udp) : Udp :=
  on_tally (fun t => mkTally (quota t) (stats t) (errors t) (owner_acc t) (rule_acc t)
                       (upstream t) (replies t ++ [(k, p)])) u.

(** ** A flow's accounting *)

Definition quota_allows (u : Udp) : bool :=
  match quota (tally u) with None => true | Some q => negb (Quota.exhausted q) end.

Definition quota_try_consume (u : Udp) (n : Z) : bool * Udp :=
  match quota (tally u) with
  | None => (true, u)
  | Some q =>
    let (q, o) := Quota.consume q (to_i64_or_max n) in
    (match o with Quota.Granted => true | Quota.Exhausted => false end, on_tally (fun t => set_quota t (Some q)) u)
  end.

(** [quota_consume_after_send], whose answer every caller discards. *)
Definition quota_consume_after_send (u : Udp) (n : Z) : Udp := (quota_try_consume u n).2.

Definition quota_restore (u : Udp) (n : Z) : Udp :=
  match quota (tally u) with
  | None => u
  | Some q => on_tally (fun t => set_quota t (Some (Quota.restore q (to_i64_or_max n)))) u
  end.

Definition bump_inbound (n now : Z) (f : UdpFlow) : UdpFlow :=
  mkFlow (source_addr f) (upstream_addr f) now (wrap_u64 (f_bytes_in f + n)) (f_bytes_out f)
    (wrap_u64 (f_datagrams_in f + 1)) (f_datagrams_out f) (admit_guards f).

Definition bump_outbound (n now : Z) (f : UdpFlow) : UdpFlow :=
  mkFlow (source_addr f) (upstream_addr f) now (f_bytes_in f) (wrap_u64 (f_bytes_out f + n))
    (f_datagrams_in f) (wrap_u64 (f_datagrams_out f + 1)) (admit_guards f).

(** What follows an accepted send in either direction. *)
Definition book_in (cfg : ListenerConfig) (now : Z) (f : nat) (p : list Z) (u : Udp) : Udp :=
  let n := payload_len p in
  let u := on_core (fun c => set_flows c (alter (bump_inbound n now) f (flows c))) (to_upstream f p u) in
  on_tally (fun t => set_stats t (Stats.inc_datagram_in (stats t) (listen_port cfg) n)) u.

Definition book_out (now : Z) (k : FlowKey) (f : nat) (p : list Z) (u : Udp) : Udp :=
  let n := payload_len p in
  let u := on_core (fun c => set_flows c (alter (bump_outbound n now) f (flows c))) (to_client k p u) in
  on_tally (fun t => set_stats t (Stats.inc_datagram_out (stats t) k.1 n)) u.

(** The shapers are built from snapshots of the registered limiters. *)
Definition shaper (cfg : ListenerConfig) (w : World) (d : BandwidthDirection) : UdpBandwidthShaper :=
  shaper_new w (owner_rate_limit cfg ≫= get_owner w) (rate_limit cfg ≫= get w) d.

(** [has_cap() && !admits(n)], negated. *)
Definition shape (sh : UdpBandwidthShaper) (n : Z) (nows : Z * Z) (u : Udp) : option (Udp * bool) :=
  '(w, ok) ← admits (limits (core u)) sh n nows.1 nows.2;
  Some (on_core (fun c => set_limits c w) u, ok).

(** ** References

    The last reference to a flow drops its guards. *)

Definition referenced (c : Core) (f : nat) : bool :=
  bool_decide (f ∈ (UdpRegistry.snapshot_live (registry c)).*2 ++ (queue c ++ armed c).*2).

Fixpoint drop_guards (w : World) (gs : list ActiveGuard) : option World :=
  match gs with
  | [] => Some w
  | g :: gs => w ← drop_guard w g; drop_guards w gs
  end.

Definition release (c : Core) (f : nat) : option Core :=
  if referenced c f then Some c
  else
    match flows c !! f with
    | None => Some c
    | Some fl =>
      w ← drop_guards (limits c) (admit_guards fl);
      Some (set_flows (set_limits c w) (delete f (flows c)))
    end.

Definition release_opt (c : Core) (f : option nat) : option Core :=
  match f with Some f => release c f | None => Some c end.

(** [registry.remove(key)] and [flow.cancel.cancel()], in that order. *)
Definition remove_and_cancel (c : Core) (k : FlowKey) (f : nat) : option Core :=
  let (old, r) := UdpRegistry.remove (registry c) k in
  c ← release_opt (set_registry c (UdpRegistry.cancel r f)) old;
  release c f.

Definition evict (u : Udp) (k : FlowKey) (f : nat) : option Udp :=
  c ← remove_and_cancel (core u) k f;
  Some (inc CIcmpEvict 1 (mkUdp c (tally u))).

(** ** Sending a run *)

(** The datagrams of one flow waiting for a [sendmmsg]: slots and sizes. *)
Record PendingRun : Type := mkRun { run_flow : nat; entries : list (nat * Z) }.

(** Writing past the arrays of [BATCH_SIZE] would panic. *)
Definition run_push (r : PendingRun) (i : nat) (n : Z) : option PendingRun :=
  if (length (entries r) <? BATCH_SIZE)%nat then Some (mkRun (run_flow r) (entries r ++ [(i, n)])) else None.

(** The kernel's answers: how many of the batch it took, what a single send
    says ([None] is success). *)
Record FlushEnv : Type := mkFlush {
  send_batch : Result nat IoError;
  probe : option IoError;
  singles : nat -> option IoError;
  flush_now : Z;
}.

Definition Bufs : Type := list (list Z * Addr).

Definition send_single (cfg : ListenerConfig) (now : Z) (answer : option IoError) (f : nat)
  (p : list Z) (n : Z) (u : Udp) : Udp :=
  match answer with
  | None => quota_consume_after_send (book_in cfg now f p u) n
  | Some _ => inc CSendDropped 1 u
  end.

Fixpoint send_singles (cfg : ListenerConfig) (env : FlushEnv) (f : nat) (j : nat)
  (ds : list (list Z * Addr * Z)) (u : Udp) : Udp :=
  match ds with
  | [] => u
  | (p, _, n) :: ds => send_singles cfg env f (S j) ds (send_single cfg (flush_now env) (singles env j) f p n u)
  end.

Definition restore_all (ds : list (list Z * Addr * Z)) (u : Udp) : Udp :=
  foldl (fun u d => quota_restore u d.2) u ds.

(** The one send after a partial batch, to learn why it stopped. *)
Definition send_probe (cfg : ListenerConfig) (env : FlushEnv) (f : nat) (p : list Z) (src : Addr) (n : Z)
  (u : Udp) : option Udp :=
  match probe env with
  | None => Some (quota_try_consume (book_in cfg (flush_now env) f p u) n).2
  | Some e =>
    match classify_udp_error e with
    | Evict => evict u (listen_port cfg, src) f
    | MessageTooLarge => Some (inc CEmsgsize 1 u)
    | AWouldBlock | Transient => Some (inc CSendDropped 1 u)
    end
  end.

Definition run_datagrams (bufs : Bufs) (es : list (nat * Z)) : option (list (list Z * Addr * Z)) :=
  mapM (fun e => d ← bufs !! e.1; Some (d, e.2)) es.

Definition flush_run (cfg : ListenerConfig) (env : FlushEnv) (bufs : Bufs) (u : Udp) (run : PendingRun)
  : option Udp :=
  let f := run_flow run in
  ds ← run_datagrams bufs (entries run);
  let len := length ds in
  match send_batch env with
  | Ok sent =>
    let u := foldl (fun u d => book_in cfg (flush_now env) f d.1.1 u) u (take sent ds) in
    if (sent <? len)%nat then
      let u := restore_all (drop sent ds) u in
      '(p, src, n) ← ds !! sent;
      u ← send_probe cfg env f p src n u;
      Some (inc CSendDropped (Z.of_nat (len - sent - 1)) u)
    else Some u
  | Err e =>
    let u := restore_all ds u in
    if decide (kind e = WouldBlock) then Some (send_singles cfg env f 0 ds u)
    else
      match classify_udp_error e with
      | Evict => '(p, src, n) ← ds !! 0%nat; evict u (listen_port cfg, src) f
      | MessageTooLarge => Some (inc CEmsgsize 1 u)
      | AWouldBlock | Transient => Some u
      end
  end.

Definition flush_pending (cfg : ListenerConfig) (env : FlushEnv) (bufs : Bufs) (u : Udp)
  (pending : option PendingRun) : option Udp :=
  match pending with None => Some u | Some run => flush_run cfg env bufs u run end.

(** ** One datagram *)

Record DatagramEnv : Type := mkDgram {
  shape_nows : Z * Z;
  send_answer : option IoError;
  dgram_now : Z;
}.

(** The steps after the quota check that the existing flow and the one that
    appeared meanwhile share. *)
Definition forward_existing (cfg : ListenerConfig) (env : DatagramEnv) (f : nat) (p : list Z)
  (sh : UdpBandwidthShaper) (on_error : IoError -> Udp -> option Udp) (u : Udp) : option Udp :=
  if negb (quota_allows u) then Some u
  else
    '(u, ok) ← shape sh (payload_len p) (shape_nows env) u;
    if negb ok then Some (inc CBandwidthIn 1 u)
    else
      match send_answer env with
      | None => Some (quota_consume_after_send (book_in cfg (dgram_now env) f p u) (payload_len p))
      | Some e => on_error e u
      end.

(** Admission of a datagram of an unknown source: quota, then a slot. *)
Definition cold_admission (cfg : ListenerConfig) (env : DatagramEnv) (sh : UdpBandwidthShaper)
  (p : list Z) (src : Addr) (u : Udp) : option Udp :=
  let key := (listen_port cfg, src) in
  if negb (quota_allows u) then Some u
  else
    match UdpRegistry.try_get_or_reserve (rule_cap cfg) (registry (core u)) key with
    | (UdpRegistry.Existing f, r) =>
      forward_existing cfg env f p sh (fun _ u => Some u) (on_core (fun c => set_registry c r) u)
    | (UdpRegistry.Reserved, r) =>
      Some (on_core (fun c => set_cold (set_registry c r) (cold c ++ [mkTask key src p])) u)
    | (UdpRegistry.CapExhausted, r) =>
      Some (on_tally (fun t => set_stats t (Stats.inc_flow_dropped_overflow (stats t)))
              (on_core (fun c => set_registry c r) u))
    | (UdpRegistry.PendingCollision, r) =>
      Some (inc CPendingDrops 1 (on_core (fun c => set_registry c r) u))
    end.

Definition is_cancelled (u : Udp) (f : nat) : bool :=
  bool_decide (f ∈ UdpRegistry.cancelled (registry (core u))).

Definition handle_datagram (cfg : ListenerConfig) (env : DatagramEnv) (u : Udp) (p : list Z) (src : Addr)
  : option Udp :=
  let key := (listen_port cfg, src) in
  let sh := shaper cfg (limits (core u)) In in
  match UdpRegistry.get (registry (core u)) key with
  | Some f =>
    if is_cancelled u f then cold_admission cfg env sh p src u
    else
      forward_existing cfg env f p sh
        (fun e u => match classify_udp_error e with
                    | Evict => evict u key f
                    | MessageTooLarge => Some (inc CEmsgsize 1 u)
                    | AWouldBlock | Transient => Some u
                    end) u
  | None => cold_admission cfg env sh p src u
  end.

(** ** A batch *)

Record SlotEnv : Type := mkSlotEnv { s_flush : FlushEnv; s_dgram : DatagramEnv; s_nows : Z * Z }.

Fixpoint process_slots (cfg : ListenerConfig) (env : nat -> SlotEnv) (sh : UdpBandwidthShaper) (bufs : Bufs)
  (u : Udp) (pending : option PendingRun) (i : nat) (slots : Bufs) : option Udp :=
  match slots with
  | [] => flush_pending cfg (s_flush (env i)) bufs u pending
  | (p, src) :: slots =>
    let n := payload_len p in
    let cold_path :=
      u ← flush_pending cfg (s_flush (env i)) bufs u pending;
      u ← handle_datagram cfg (s_dgram (env i)) u p src;
      process_slots cfg env sh bufs u None (S i) slots in
    match UdpRegistry.get (registry (core u)) (listen_port cfg, src) with
    | None => cold_path
    | Some f =>
      if is_cancelled u f then cold_path
      else
        match quota_try_consume u n with
        | (false, u) => process_slots cfg env sh bufs u pending (S i) slots
        | (true, u) =>
          '(u, ok) ← shape sh n (s_nows (env i)) u;
          if negb ok then
            process_slots cfg env sh bufs (inc CBandwidthIn 1 (quota_restore u n)) pending (S i) slots
          else
            match pending with
            | Some run =>
              if decide (run_flow run = f) then
                run ← run_push run i n;
                process_slots cfg env sh bufs u (Some run) (S i) slots
              else
                u ← flush_run cfg (s_flush (env i)) bufs u run;
                process_slots cfg env sh bufs u (Some (mkRun f [(i, n)])) (S i) slots
            | None => process_slots cfg env sh bufs u (Some (mkRun f [(i, n)])) (S i) slots
            end
        end
    end
  end.

(** The inbound shaper is built once for the batch. *)
Definition process_batch (cfg : ListenerConfig) (env : nat -> SlotEnv) (u : Udp) (bufs : Bufs) : option Udp :=
  process_slots cfg env (shaper cfg (limits (core u)) In) bufs u None 0 bufs.

(** ** Setting a flow up *)

Inductive Connect : Type := BindFailed | ConnectFailed | Connected.

Record ColdEnv : Type := mkCold {
  admit_nows : Z * Z;
  resolved : option (list Addr);        (* [None] is a resolver error *)
  connect : Addr -> Connect;
  first_nows : Z * Z;
  first_send : option IoError;
  cold_now : Z;
}.

(** The first address that binds and connects; the failed connects counted. *)
Fixpoint walk (env : ColdEnv) (addrs : list Addr) (u : Udp) : option Addr * Udp :=
  match addrs with
  | [] => (None, u)
  | a :: addrs =>
    match connect env a with
    | Connected => (Some a, u)
    | BindFailed => walk env addrs u
    | ConnectFailed => walk env addrs (inc CConnectFailed 1 u)
    end
  end.

Definition drop_reservation (k : FlowKey) (u : Udp) : Udp :=
  on_core (fun c => set_registry c (UdpRegistry.drop_reservation (registry c) k)) u.

Definition inc_dns_failure (u : Udp) : Udp :=
  on_tally (fun t => set_stats t (Stats.inc_dns_failure (stats t))) u.

(** The early returns once the gate admitted: guards and reservation drop. *)
Definition give_up_flow (k : FlowKey) (gs : list ActiveGuard) (u : Udp) : option Udp :=
  w ← drop_guards (limits (core u)) gs;
  Some (drop_reservation k (on_core (fun c => set_limits c w) u)).

(** [acquire_first_packet]: the guards, or a rejection that is counted. *)
Definition acquire_first_packet (cfg : ListenerConfig) (nows : Z * Z) (u : Udp)
  : option (Udp * option (list ActiveGuard)) :=
  '(w, r) ← try_acquire_layered (limits (core u)) (owner_rate_limit cfg) (rate_limit cfg) true nows.1 nows.2;
  let u := on_core (fun c => set_limits c w) u in
  Some (match r with
        | LayeredGranted og rg => (u, Some (option_list og ++ option_list rg))
        | OwnerRejected m =>
          (on_tally (fun t => set_accs t ((fun a => Stats.record_reject a m) <$> owner_acc t) (rule_acc t)) u, None)
        | RuleRejected m =>
          (on_tally (fun t => set_accs t (owner_acc t) ((fun a => Stats.record_reject a m) <$> rule_acc t)) u, None)
        end).

(** Steps 7 and 8: build the flow, commit it over the reservation and hand it
    to the demultiplexer; [false] when that was rolled back. *)
Definition install_flow (k : FlowKey) (src target : Addr) (gs : list ActiveGuard) (now : Z) (u : Udp)
  : option (Udp * bool) :=
  let c := core u in
  let f := next_flow c in
  let fl := mkFlow src target now 0 0 0 0 gs in
  let old := match UdpRegistry.inner (registry c) !! k with Some (UdpRegistry.Live g) => Some g | _ => None end in
  let c := mkCore (UdpRegistry.commit (registry c) k f) (<[f := fl]> (flows c)) (S f) (limits c) (cold c)
             (queue c) (armed c) (demux_open c) in
  if demux_open c && (length (queue c) <? DEMUX_CHANNEL)%nat then
    c ← release_opt (set_waits c (queue c ++ [(k, f)]) (armed c)) old;
    Some (mkUdp c (tally u), true)
  else
    c ← remove_and_cancel c k f;
    c ← release_opt c old;
    Some (inc CAddflowDropped 1 (mkUdp c (tally u)), false).

(** Step 9: the first datagram. *)
Definition send_first (cfg : ListenerConfig) (env : ColdEnv) (k : FlowKey) (f : nat) (p : list Z) (u : Udp)
  : option Udp :=
  '(u, ok) ← shape (shaper cfg (limits (core u)) In) (payload_len p) (first_nows env) u;
  if negb ok then Some (inc CBandwidthIn 1 u)
  else
    match first_send env with
    | None => Some (quota_consume_after_send (book_in cfg (cold_now env) f p u) (payload_len p))
    | Some e =>
      match classify_udp_error e with
      | Evict => evict u k f
      | AWouldBlock | MessageTooLarge | Transient => Some u
      end
    end.

Definition complete_cold_flow (cfg : ListenerConfig) (env : ColdEnv) (t : ColdTask) (u : Udp) : option Udp :=
  let k := t_key t in
  '(u, admitted) ← acquire_first_packet cfg (admit_nows env) u;
  match admitted with
  | None => Some (drop_reservation k u)
  | Some gs =>
    match resolved env with
    | None | Some [] => give_up_flow k gs (inc_dns_failure u)
    | Some addrs =>
      match walk env addrs u with
      | (None, u) => give_up_flow k gs (inc_dns_failure u)
      | (Some target, u) =>
        let f := next_flow (core u) in
        '(u, kept) ← install_flow k (t_src t) target gs (cold_now env) u;
        if negb kept then Some u else send_first cfg env k f (t_payload t) u
      end
    end
  end.

(** ** Replies *)

Record DrainEnv : Type := mkDrain {
  recv_batch : Result (list (list Z)) IoError;
  reply_batch : Result nat IoError;
  recvs : list (Result (list Z) IoError);
  reply_one : nat -> option IoError;
  out_nows : nat -> Z * Z;
  drain_now : Z;
}.

(** Debits each reply before it enters the batch. *)
Fixpoint admit_replies (env : DrainEnv) (sh : UdpBandwidthShaper) (i : nat) (ps : list (list Z)) (u : Udp)
  : option (Udp * list (list Z)) :=
  match ps with
  | [] => Some (u, [])
  | p :: ps =>
    '(u, ok) ← shape sh (payload_len p) (out_nows env i) u;
    if negb ok then admit_replies env sh (S i) ps (inc CBandwidthOut 1 u)
    else
      '(u, kept) ← admit_replies env sh (S i) ps u;
      Some (u, p :: kept)
  end.

Definition book_reply (env : DrainEnv) (k : FlowKey) (f : nat) (u : Udp) (p : list Z) : Udp :=
  quota_consume_after_send (book_out (drain_now env) k f p u) (payload_len p).

Definition forward_reply_batch (env : DrainEnv) (k : FlowKey) (f : nat) (sh : UdpBandwidthShaper)
  (ps : list (list Z)) (u : Udp) : option Udp :=
  '(u, kept) ← admit_replies env sh 0 ps u;
  match kept with
  | [] => Some u
  | _ =>
    match reply_batch env with
    | Ok sent =>
      let u := foldl (book_reply env k f) u (take sent kept) in
      Some (if (sent <? length kept)%nat then inc CWouldblock 1 u else u)
    | Err e => Some (if decide (kind e = WouldBlock) then inc CWouldblock 1 u else u)
    end
  end.

(** What an error of the upstream socket does; [false] asks for the
    per-packet loop. *)
Definition recv_failed (k : FlowKey) (f : nat) (e : IoError) (u : Udp) : option (Udp * bool) :=
  match classify_udp_error e with
  | AWouldBlock => Some (u, false)
  | Evict => u ← evict u k f; Some (u, true)
  | MessageTooLarge => Some (inc CEmsgsize 1 u, true)
  | Transient => Some (u, true)
  end.

Definition drain_one_flow_batched (cfg : ListenerConfig) (env : DrainEnv) (k : FlowKey) (f : nat)
  (sh : UdpBandwidthShaper) (u : Udp) : option (Udp * bool) :=
  if negb (bool_decide (k.1 ∈ listener_sockets cfg)) then Some (u, true)
  else
    match recv_batch env with
    | Ok [] => Some (u, true)
    | Ok ps => u ← forward_reply_batch env k f sh ps u; Some (u, true)
    | Err e => recv_failed k f e u
    end.

(** The per-packet loop; a script that ends is a socket that would block. *)
Fixpoint drain_loop (env : DrainEnv) (k : FlowKey) (f : nat) (sh : UdpBandwidthShaper) (budget i j : nat)
  (rs : list (Result (list Z) IoError)) (u : Udp) : option Udp :=
  match budget, rs with
  | O, _ | _, [] => Some u
  | S budget, Err e :: _ => '(u, _) ← recv_failed k f e u; Some u
  | S budget, Ok p :: rs =>
    '(u, ok) ← shape sh (payload_len p) (out_nows env i) u;
    if negb ok then drain_loop env k f sh budget (S i) j rs (inc CBandwidthOut 1 u)
    else
      let u :=
        match reply_one env j with
        | None => book_reply env k f u p
        | Some e => if decide (kind e = WouldBlock) then inc CWouldblock 1 u else u
        end in
      drain_loop env k f sh budget (S i) (S j) rs u
  end.

Definition drain_one_flow (cfg : ListenerConfig) (env : DrainEnv) (k : FlowKey) (f : nat)
  (sh : UdpBandwidthShaper) (u : Udp) : option Udp :=
  if negb (bool_decide (k.1 ∈ listener_sockets cfg)) then Some u
  else drain_loop env k f sh DEMUX_FAIRNESS_BUDGET 0 0 (recvs env) u.

(** [ReadOutcome::Ready]: drain, then wait again unless cancelled. *)
Definition demux_ready (cfg : ListenerConfig) (env : DrainEnv) (i : nat) (u : Udp) : option Udp :=
  '(k, f) ← armed (core u) !! i;
  let sh := shaper cfg (limits (core u)) Out in
  '(u, handled) ← drain_one_flow_batched cfg env k f sh u;
  u ← (if negb handled then drain_one_flow cfg env k f sh u else Some u);
  if is_cancelled u f then
    c ← release (set_waits (core u) (queue (core u)) (delete i (armed (core u)))) f;
    Some (mkUdp c (tally u))
  else Some u.

(** ** The reaper and the end *)

Definition sweep_one (now idle_window : Z) (c : Core) (kf : FlowKey * nat) : option Core :=
  let (k, f) := kf in
  match flows c !! f with
  | None => Some c
  | Some fl =>
    if idle_window <? Z.max (now - last_seen fl) 0 then
      match UdpRegistry.remove (registry c) k with
      | (Some g, r) =>
        c ← release (set_registry c (UdpRegistry.cancel r f)) g;
        release c f
      | (None, r) => Some (set_registry c r)
      end
    else Some c
  end.

Fixpoint fold_core {A} (step : Core -> A -> option Core) (c : Core) (l : list A) : option Core :=
  match l with [] => Some c | x :: l => c ← step c x; fold_core step c l end.

Definition sweep_once (now idle_window : Z) (c : Core) : option Core :=
  fold_core (sweep_one now idle_window) c (UdpRegistry.snapshot_live (registry c)).

Inductive Event : Type :=
| Batch (env : nat -> SlotEnv) (bufs : Bufs)             (* the listener's [recvmmsg] *)
| Datagram (env : DatagramEnv) (p : list Z) (src : Addr) (* its per-packet fallback *)
| Cold (i : nat) (env : ColdEnv)                         (* a set-up task runs *)
| AddFlow                                                (* the demultiplexer takes a command *)
| Ready (i : nat) (env : DrainEnv)                       (* a wait ends readable *)
| WaitCancelled (i : nat)                                (* a wait ends cancelled *)
| Sweep (now idle_window : Z)
| Other (e : Reload)
| DrainRegistry                                          (* the supervisor, step (c) *)
| DemuxExit                                              (* step (d) *)
| DropRegistry.                                          (* its last holder ends *)

Definition step (cfg : ListenerConfig) (u : Udp) (ev : Event) : option Udp :=
  let c := core u in
  match ev with
  | Batch env bufs => process_batch cfg env u bufs
  | Datagram env p src => handle_datagram cfg env u p src
  | Cold i env =>
    t ← cold c !! i;
    complete_cold_flow cfg env t (on_core (fun c => set_cold c (delete i (cold c))) u)
  | AddFlow =>
    match queue c with
    | kf :: q => Some (on_core (fun c => set_waits c q (armed c ++ [kf])) u)
    | [] => None
    end
  | Ready i env => demux_ready cfg env i u
  | WaitCancelled i =>
    '(k, f) ← armed c !! i;
    if is_cancelled u f then
      c ← release (set_waits c (queue c) (delete i (armed c))) f;
      Some (mkUdp c (tally u))
    else None
  | Sweep now idle_window => c ← sweep_once now idle_window c; Some (mkUdp c (tally u))
  | Other e => w ← reload (limits c) e; Some (on_core (fun c => set_limits c w) u)
  | DrainRegistry =>
    let live := (UdpRegistry.snapshot_live (registry c)).*2 in
    c ← fold_core release (set_registry c (UdpRegistry.drain (registry c))) live;
    Some (on_tally (fun t => set_stats t (Stats.set_active_flows (stats t) 0)) (mkUdp c (tally u)))
  | DemuxExit =>
    let held := (queue c ++ armed c).*2 in
    c ← fold_core release
      (mkCore (registry c) (flows c) (next_flow c) (limits c) (cold c) [] [] false) held;
    Some (mkUdp c (tally u))
  | DropRegistry =>
    if demux_open c || negb (length (cold c) =? 0)%nat then None
    else
      let live := (UdpRegistry.snapshot_live (registry c)).*2 in
      let r := UdpRegistry.mkRegistry ∅ 0 (UdpRegistry.dropped_overflow (registry c))
                 (UdpRegistry.cancelled (registry c)) in
      c ← fold_core release (set_registry c r) live;
      Some (mkUdp c (tally u))
  end.

Fixpoint exec (cfg : ListenerConfig) (u : Udp) (evs : list Event) : option Udp :=
  match evs with
  | [] => Some u
  | ev :: evs => u ← step cfg u ev; exec cfg u evs
  end.

(** ** What the registry's operations keep *)

Notation balanced := UdpRegistry.balanced.
Notation inner := UdpRegistry.inner.
Notation cancelled := UdpRegistry.cancelled.
Notation Live := UdpRegistry.Live.

Ltac registry_sizes :=
  unfold balanced, UdpRegistry.size_of in *; cbn in *;
  repeat match goal with
  | Hb : UdpRegistry.occupancy _ = _ |- context [UdpRegistry.occupancy _] => rewrite Hb
  | Hk : ?m !! ?k = None |- context [size (<[?k := _]> ?m)] => rewrite (UdpRegistry.size_insert_new m k _ Hk)
  | Hk : ?m !! ?k = Some _ |- context [size (<[?k := _]> ?m)] => rewrite (UdpRegistry.size_insert_old m k _ _ Hk)
  | Hk : ?m !! ?k = Some _ |- context [size (delete ?k ?m)] => rewrite (UdpRegistry.size_delete_old m k _ Hk)
  end; rewrite ?wrap_u64_add, <- ?Z.add_assoc, ?wrap_u64_add; try done; try (f_equal; lia).

Lemma remove_spec (r : Registry) k : balanced r ->
  let r' := (UdpRegistry.remove r k).2 in
  balanced r' /\ inner r' = delete k (inner r) /\ cancelled r' = cancelled r /\
  forall f, (UdpRegistry.remove r k).1 = Some f <-> inner r !! k = Some (Live f).
Proof.
  intros Hb. unfold UdpRegistry.remove. destruct (inner r !! k) as [[|f]|] eqn:Hk; cbn zeta.
  - split_and!; [registry_sizes|done|done|intros; split; done].
  - split_and!; [registry_sizes|done|done|intros; cbn; naive_solver].
  - split_and!; [done|by rewrite delete_id|done|intros; split; done].
Qed.

Lemma commit_spec (r : Registry) k f : balanced r ->
  let r' := UdpRegistry.commit r k f in
  balanced r' /\ inner r' = <[k := Live f]> (inner r) /\ cancelled r' = cancelled r.
Proof.
  intros Hb. unfold UdpRegistry.commit. destruct (inner r !! k) as [s|] eqn:Hk; cbn zeta;
    (split_and!; [registry_sizes|done..]).
Qed.

(** A slot that holds no flow may come and go. *)
Definition pending_change (r r' : Registry) : Prop :=
  balanced r' /\ cancelled r' = cancelled r /\
  forall k f, inner r' !! k = Some (Live f) <-> inner r !! k = Some (Live f).

Lemma drop_reservation_spec (r : Registry) k : balanced r ->
  pending_change r (UdpRegistry.drop_reservation r k).
Proof.
  intros Hb. unfold UdpRegistry.drop_reservation, pending_change.
  destruct (inner r !! k) as [[|g]|] eqn:Hk; [|done..].
  split_and!; [registry_sizes|done|]. intros k' f. cbn. destruct (decide (k' = k)) as [->|Hne].
  - rewrite lookup_delete_eq, Hk. split; done.
  - by rewrite lookup_delete_ne.
Qed.

Lemma flow_reserve_spec (cap : Z) (r : Registry) k : balanced r ->
  let (o, r') := UdpRegistry.try_get_or_reserve cap r k in
  pending_change r r' /\ forall f, o = UdpRegistry.Existing f <-> inner r !! k = Some (Live f).
Proof.
  intros Hb. unfold UdpRegistry.try_get_or_reserve, pending_change.
  destruct (inner r !! k) as [[|g]|] eqn:Hk; [by split; [split_and!|naive_solver]..|].
  cbn zeta. destruct (cap <? _) eqn:Ec.
  - split; [|naive_solver]. split_and!; [registry_sizes|done..].
  - cbn. rewrite Hk. split; [|naive_solver]. split_and!; [registry_sizes|done|]. intros k' f. cbn.
    destruct (decide (k' = k)) as [->|Hne].
    + rewrite lookup_insert_eq, Hk. split; done.
    + by rewrite lookup_insert_ne.
Qed.

(** ** The invariant *)

(** [UDP_BUFFER_BYTES]: what a receive can yield. *)
Definition payload_ok (p : list Z) : Prop := payload_len p <= 65535.

Definition guards (m : gmap nat UdpFlow) : list ActiveGuard := map_to_list m ≫= fun kv => admit_guards kv.2.

(** The resources of a rule are accounted for: the registry's counter is its
    size, a registered flow is not cancelled and the demultiplexer has it, the
    flows alive are those somebody refers to (and those of [x], whose last
    reference is about to go), and the slots taken are their guards. *)
Record inv_but (x : nat -> Prop) (g0 : gmap nat Z) (c : Core) : Prop := {
  iv_bal : balanced (registry c);
  iv_inj : forall k k' f, inner (registry c) !! k = Some (Live f) ->
    inner (registry c) !! k' = Some (Live f) -> k = k';
  iv_live : forall k f, inner (registry c) !! k = Some (Live f) ->
    f ∉ cancelled (registry c) /\ (demux_open c = true -> (k, f) ∈ queue c ++ armed c);
  iv_waits : NoDup (queue c ++ armed c).*2;
  iv_alive : forall f, referenced c f = true -> is_Some (flows c !! f);
  iv_held_by : forall f, is_Some (flows c !! f) -> referenced c f = true \/ x f;
  iv_next : forall f, is_Some (flows c !! f) \/ f ∈ cancelled (registry c) -> (f < next_flow c)%nat;
  iv_slots : held g0 (limits c) (guards (flows c));
  iv_closed : demux_open c = false -> queue c ++ armed c = [];
  iv_cold : Forall (fun t => payload_ok (t_payload t)) (cold c);
}.

Definition inv : gmap nat Z -> Core -> Prop := inv_but (fun _ => False).

(** What a handler that registers no flow does besides. *)
Record step_ok (g0 : gmap nat Z) (c c' : Core) : Prop := {
  so_inv : inv g0 c';
  so_kept : limiters_kept (limits c) (limits c');
  so_live : forall k f, inner (registry c') !! k = Some (Live f) -> inner (registry c) !! k = Some (Live f);
  so_next : next_flow c' = next_flow c;
  so_waits : queue c' = queue c /\ armed c' = armed c;
}.

Definition safe {A} (o : option A) (P : A -> Prop) : Prop := exists a, o = Some a /\ P a.

Lemma safe_ret {A} (a : A) (P : A -> Prop) : P a -> safe (Some a) P.
Proof. by exists a. Qed.

Lemma safe_bind {A B} (o : option A) (k : A -> option B) (P : A -> Prop) (Q : B -> Prop) :
  safe o P -> (forall a, P a -> safe (k a) Q) -> safe (o ≫= k) Q.
Proof. intros (a & -> & Ha) Hk. cbn. by apply Hk. Qed.

Lemma safe_mono {A} (o : option A) (P Q : A -> Prop) : safe o P -> (forall a, P a -> Q a) -> safe o Q.
Proof. intros (a & -> & Ha) HPQ. exists a. auto. Qed.

Lemma step_ok_refl g0 c : inv g0 c -> step_ok g0 c c.
Proof. intros Hi. split; [done|reflexivity|done..]. Qed.

Lemma step_ok_trans g0 c1 c2 c3 : step_ok g0 c1 c2 -> step_ok g0 c2 c3 -> step_ok g0 c1 c3.
Proof. intros [] []. split; [done|by etrans|auto|congruence|intuition congruence]. Qed.

Lemma referenced_spec c f :
  referenced c f = true <->
  (exists k, inner (registry c) !! k = Some (Live f)) \/ f ∈ (queue c ++ armed c).*2.
Proof.
  unfold referenced. rewrite bool_decide_eq_true, elem_of_app. apply or_iff_compat_r. rewrite list_elem_of_fmap. split.
  - intros ([k g] & -> & Hin%UdpRegistry.elem_of_snapshot). by exists k.
  - intros [k Hk]. exists (k, f). by rewrite UdpRegistry.elem_of_snapshot.
Qed.

Lemma referenced_ext c c' f :
  (forall k, inner (registry c) !! k = Some (Live f) <-> inner (registry c') !! k = Some (Live f)) ->
  queue c ++ armed c ≡ₚ queue c' ++ armed c' -> referenced c f = referenced c' f.
Proof.
  intros Hr Hw.
  destruct (referenced c f) eqn:E; symmetry.
  - apply referenced_spec. apply referenced_spec in E. rewrite <- Hw. setoid_rewrite <- Hr. done.
  - apply not_true_is_false. intros E'%referenced_spec. rewrite <- Hw in E'. setoid_rewrite <- Hr in E'.
    by rewrite (proj2 (referenced_spec c f) E') in E.
Qed.

Lemma guards_ext m m' : admit_guards <$> m = admit_guards <$> m' -> guards m = guards m'.
Proof.
  intros E. assert (forall m, guards m = (map_to_list (admit_guards <$> m)) ≫= snd) as Hg.
  { intros m1. unfold guards. rewrite map_to_list_fmap. induction (map_to_list m1) as [|[i x] l IH]; cbn; [done|].
    by rewrite IH. }
  by rewrite !Hg, E.
Qed.

Lemma flow_guards_insert m f fl : m !! f = None -> guards (<[f := fl]> m) ≡ₚ admit_guards fl ++ guards m.
Proof. intros Hf. unfold guards. by rewrite map_to_list_insert. Qed.

Lemma flow_guards_delete m f fl : m !! f = Some fl -> guards m ≡ₚ admit_guards fl ++ guards (delete f m).
Proof.
  intros Hf. rewrite <- (flow_guards_insert (delete f m) f fl) by apply lookup_delete_eq.
  by rewrite insert_delete_id.
Qed.

Lemma held_drop_guards g0 w gs rest : held g0 w (gs ++ rest) ->
  safe (drop_guards w gs) (fun w' => held g0 w' rest /\ limiters_kept w w').
Proof.
  revert w. induction gs as [|gd gs IH]; cbn; intros w Hh; [by exists w|].
  destruct (held_drop _ _ _ _ Hh) as (w1 & E & Hh1). rewrite E. cbn.
  destruct (IH w1 Hh1) as (w2 & -> & Hh2 & Hk). exists w2. split_and!; [done..|].
  etrans; [by eapply drop_guard_kept|done].
Qed.

(** A handler that touches no reference keeps the invariant. *)
Lemma path_inv_frame x g0 c c' :
  inv_but x g0 c -> pending_change (registry c) (registry c') ->
  queue c' ++ armed c' ≡ₚ queue c ++ armed c -> demux_open c' = demux_open c -> next_flow c' = next_flow c ->
  admit_guards <$> flows c' = admit_guards <$> flows c -> held g0 (limits c') (guards (flows c)) ->
  (Forall (fun t => payload_ok (t_payload t)) (cold c) -> Forall (fun t => payload_ok (t_payload t)) (cold c')) ->
  inv_but x g0 c'.
Proof.
  intros [] (Hb & Hc & Hl) Ew Eo En Ef Hh Hcold.
  assert (forall f, is_Some (flows c' !! f) <-> is_Some (flows c !! f)) as Hs.
  { intros f. rewrite <- !(fmap_is_Some admit_guards), <- !lookup_fmap. by rewrite Ef. }
  assert (forall f, referenced c' f = referenced c f) as Hr by (intros; by apply referenced_ext).
  split; rewrite ?Ew, ?Eo, ?En, ?Hc; try done.
  - intros k k' f. rewrite !Hl. apply iv_inj0.
  - intros k f. rewrite Hl, Ew. apply iv_live0.
  - intros f. rewrite Hr, Hs. apply iv_alive0.
  - intros f. rewrite Hr, Hs. apply iv_held_by0.
  - intros f. rewrite Hs. apply iv_next0.
  - by rewrite (guards_ext _ _ Ef).
  - intros E. rewrite (iv_closed0 E) in Ew. by apply Permutation_nil_r in Ew.
  - by apply Hcold.
Qed.

Lemma pending_change_refl (r : Registry) : balanced r -> pending_change r r.
Proof. done. Qed.

Lemma core_step_frame g0 c c' :
  inv g0 c -> pending_change (registry c) (registry c') ->
  queue c' = queue c -> armed c' = armed c -> demux_open c' = demux_open c -> next_flow c' = next_flow c ->
  admit_guards <$> flows c' = admit_guards <$> flows c -> held g0 (limits c') (guards (flows c)) ->
  limiters_kept (limits c) (limits c') ->
  (Forall (fun t => payload_ok (t_payload t)) (cold c) -> Forall (fun t => payload_ok (t_payload t)) (cold c')) ->
  step_ok g0 c c'.
Proof.
  intros Hi Hp Eq Ea ? ? ? ? ? ?. split; [|done| |done|done]; [|intros k f; apply Hp].
  eapply path_inv_frame; try done. by rewrite Eq, Ea.
Qed.

(** The last reference goes: the guards are dropped with the flow. *)
Lemma flow_release_ok x g0 c f :
  inv_but (fun g => g = f \/ x g) g0 c ->
  safe (release c f) (fun c' => inv_but x g0 c' /\ limiters_kept (limits c) (limits c') /\
    registry c' = registry c /\ queue c' = queue c /\ armed c' = armed c /\ demux_open c' = demux_open c /\
    next_flow c' = next_flow c /\ (forall g, is_Some (flows c' !! g) -> is_Some (flows c !! g))).
Proof.
  intros Hi. unfold release. destruct (referenced c f) eqn:Er.
  { exists c. split_and!; try done. destruct Hi. split; try done.
    intros g Hg. destruct (iv_held_by0 g Hg) as [?|[->|?]]; auto. }
  destruct (flows c !! f) as [fl|] eqn:Ef.
  2:{ exists c. split_and!; try done. destruct Hi. split; try done.
    intros g Hg. destruct (iv_held_by0 g Hg) as [?|[->|?]]; auto. by destruct Hg; congruence. }
  assert (held g0 (limits c) (admit_guards fl ++ guards (delete f (flows c)))) as Hh.
  { eapply held_perm; [by apply flow_guards_delete|apply Hi]. }
  destruct (held_drop_guards _ _ _ _ Hh) as (w & -> & Hh' & Hk). cbn.
  eexists. split; [done|]. split; [|split_and!; cbn; try done; intros g [y Hy]; apply lookup_delete_Some in Hy as [_ Hy]; eauto].
  assert (forall g, referenced (set_flows (set_limits c w) (delete f (flows c))) g = referenced c g) as Hr.
  { intros g. by apply referenced_ext. }
  destruct Hi. split; cbn; try done.
  - intros g Hg. rewrite Hr in Hg. destruct (decide (g = f)) as [->|]; [congruence|].
    rewrite lookup_delete_ne by done. auto.
  - intros g Hg. rewrite Hr. destruct (decide (g = f)) as [->|]; [by rewrite lookup_delete_eq in Hg; destruct Hg|].
    rewrite lookup_delete_ne in Hg by done. destruct (iv_held_by0 g Hg) as [?|[?|?]]; auto; done.
  - intros g [[y [_ Hy]%lookup_delete_Some]|Hg]; apply iv_next0; eauto.
Qed.

Lemma inv_weaken x y g0 c : (forall f, x f -> y f) -> inv_but x g0 c -> inv_but y g0 c.
Proof. intros Hxy []. split; try done. intros f Hf. destruct (iv_held_by0 f Hf); auto. Qed.

Lemma release_opt_ok x g0 c o :
  inv_but (fun g => o = Some g \/ x g) g0 c ->
  safe (release_opt c o) (fun c' => inv_but x g0 c' /\ limiters_kept (limits c) (limits c') /\
    registry c' = registry c /\ queue c' = queue c /\ armed c' = armed c /\ demux_open c' = demux_open c /\
    next_flow c' = next_flow c /\ (forall g, is_Some (flows c' !! g) -> is_Some (flows c !! g))).
Proof.
  intros Hi. destruct o as [f|]; cbn.
  - apply flow_release_ok. eapply inv_weaken; [|exact Hi]. intros g [[= ->]|?]; auto.
  - exists c. split_and!; try done. eapply inv_weaken; [|exact Hi]. by intros g [?|?].
Qed.

Lemma fold_release_ok x g0 fs c :
  inv_but (fun g => g ∈ fs \/ x g) g0 c ->
  safe (fold_core release c fs) (fun c' => inv_but x g0 c' /\ limiters_kept (limits c) (limits c') /\
    registry c' = registry c /\ queue c' = queue c /\ armed c' = armed c /\ demux_open c' = demux_open c).
Proof.
  revert c. induction fs as [|f fs IH]; cbn; intros c Hi.
  { exists c. split_and!; try done. eapply inv_weaken; [|exact Hi]. intros g [Hg%elem_of_nil|?]; done. }
  eapply safe_bind.
  { apply (flow_release_ok (fun g => g ∈ fs \/ x g)). eapply inv_weaken; [|exact Hi].
    intros g [[->|?]%elem_of_cons|?]; auto. }
  intros c1 (Hi1 & Hk1 & Er & Eq & Ea & Eo & _). eapply safe_mono; [by apply IH|].
  intros c2 (Hi2 & Hk2 & -> & -> & -> & ->). split_and!; try done. by etrans.
Qed.


(** After a removal by key and a cancellation only the removed flow and the
    cancelled one may have lost their last reference. *)
Lemma removed_inv g0 c k f :
  inv g0 c -> (forall k', inner (registry c) !! k' = Some (Live f) -> k' = k) -> (f < next_flow c)%nat ->
  let r := UdpRegistry.remove (registry c) k in
  inv_but (fun g => r.1 = Some g \/ g = f) g0 (set_registry c (UdpRegistry.cancel r.2 f)).
Proof.
  intros [] Hk Hlt r. destruct (remove_spec (registry c) k iv_bal0) as (Hb & Hin & Hc & Hold).
  fold r in Hb, Hin, Hc, Hold. split; cbn; rewrite ?Hin, ?Hc; try done.
  - intros k1 k2 g [_ H1]%lookup_delete_Some [_ H2]%lookup_delete_Some. by eapply iv_inj0.
  - intros k' g [Hne Hg]%lookup_delete_Some. destruct (iv_live0 _ _ Hg). split; [|done].
    intros [->%elem_of_singleton|?]%elem_of_union; [|done]. by rewrite (Hk k' Hg) in Hne.
  - intros g Hg. apply iv_alive0. apply referenced_spec in Hg. apply referenced_spec. cbn in Hg.
    destruct Hg as [[k' Hk']|?]; [left|by right]. rewrite Hin in Hk'. apply lookup_delete_Some in Hk' as [_ ?]. eauto.
  - intros g Hg. destruct (iv_held_by0 g Hg) as [Hr|[]]. apply referenced_spec in Hr as [[k' Hk']|Hw].
    + destruct (decide (k' = k)) as [->|Hne]; [right; left; by apply Hold|].
      left. apply referenced_spec. left. exists k'. cbn. rewrite Hin. by apply lookup_delete_Some.
    + left. apply referenced_spec. by right.
  - intros g [Hg|[->%elem_of_singleton|Hg]%elem_of_union]; [apply iv_next0; eauto|done|apply iv_next0; eauto].
Qed.

Lemma remove_and_cancel_tail x g0 c k f :
  let r := UdpRegistry.remove (registry c) k in
  inv_but (fun g => r.1 = Some g \/ g = f \/ x g) g0 (set_registry c (UdpRegistry.cancel r.2 f)) ->
  safe (remove_and_cancel c k f) (fun c' => inv_but x g0 c' /\ limiters_kept (limits c) (limits c') /\
    registry c' = UdpRegistry.cancel r.2 f /\ queue c' = queue c /\ armed c' = armed c /\
    demux_open c' = demux_open c /\ next_flow c' = next_flow c).
Proof.
  intros r Hi. unfold remove_and_cancel. fold r. destruct r as [old r']. cbn in Hi. eapply safe_bind.
  { apply (release_opt_ok (fun g => g = f \/ x g)). exact Hi. }
  intros c1 (Hi1 & Hk1 & Er & Eq & Ea & Eo & En & _). eapply safe_mono; [by apply flow_release_ok|].
  intros c2 (Hi2 & Hk2 & -> & -> & -> & -> & -> & _). split_and!; try done. by etrans.
Qed.

Lemma remove_and_cancel_ok g0 c k f :
  inv g0 c -> (forall k', inner (registry c) !! k' = Some (Live f) -> k' = k) -> (f < next_flow c)%nat ->
  safe (remove_and_cancel c k f) (fun c' => step_ok g0 c c' /\ queue c' = queue c /\ armed c' = armed c).
Proof.
  intros Hi Hk Hlt. eapply safe_mono.
  { apply (remove_and_cancel_tail (fun _ => False)). eapply inv_weaken; [|by apply removed_inv]. intros g [?|?]; auto. }
  cbn. intros c' (Hi' & Hkept & Er & Eq & Ea & _ & En). split; [|done]. split; [done|done| |done|done].
  intros k' g. rewrite Er. cbn. destruct (remove_spec (registry c) k (iv_bal _ _ _ Hi)) as (_ & -> & _).
  by intros [_ ?]%lookup_delete_Some.
Qed.

(** Handlers, on the whole state. *)
Definition sound (g0 : gmap nat Z) (u : Udp) (o : option Udp) : Prop :=
  safe o (fun u' => step_ok g0 (core u) (core u')).

Lemma sound_trans g0 u u1 o : step_ok g0 (core u) (core u1) -> sound g0 u1 o -> sound g0 u o.
Proof. intros H1 (u' & -> & H2). exists u'. split; [done|]. by eapply step_ok_trans. Qed.

Lemma sound_same g0 u u' : inv g0 (core u) -> core u' = core u -> sound g0 u (Some u').
Proof. intros Hi E. exists u'. split; [done|]. rewrite E. by apply step_ok_refl. Qed.

(** What is known of a flow a handler works on. *)
Definition at_key (c : Core) (k : FlowKey) (f : nat) : Prop :=
  (forall k', inner (registry c) !! k' = Some (Live f) -> k' = k) /\ (f < next_flow c)%nat.

Lemma evict_sound g0 u k f : inv g0 (core u) -> at_key (core u) k f -> sound g0 u (evict u k f).
Proof.
  intros Hi [Hk Hlt]. unfold sound, evict. eapply safe_bind; [by apply remove_and_cancel_ok|].
  intros c [Hs _]. by apply safe_ret.
Qed.

Lemma alter_guards (g : UdpFlow -> UdpFlow) f (m : gmap nat UdpFlow) :
  (forall fl, admit_guards (g fl) = admit_guards fl) -> admit_guards <$> alter g f m = admit_guards <$> m.
Proof.
  intros Hg. apply map_eq. intros i. rewrite !lookup_fmap. destruct (decide (i = f)) as [->|].
  - rewrite lookup_alter_eq. destruct (m !! f); cbn; [|done]. by rewrite Hg.
  - by rewrite lookup_alter_ne.
Qed.

Lemma book_in_ok g0 cfg now f p u : inv g0 (core u) -> step_ok g0 (core u) (core (book_in cfg now f p u)).
Proof.
  intros Hi. apply core_step_frame; cbn; try done;
    [apply pending_change_refl, (iv_bal _ _ _ Hi)|by apply alter_guards|apply (iv_slots _ _ _ Hi)].
Qed.

Lemma book_out_ok g0 now k f p u : inv g0 (core u) -> step_ok g0 (core u) (core (book_out now k f p u)).
Proof.
  intros Hi. apply core_step_frame; cbn; try done;
    [apply pending_change_refl, (iv_bal _ _ _ Hi)|by apply alter_guards|apply (iv_slots _ _ _ Hi)].
Qed.

Lemma core_inc c n u : core (inc c n u) = core u. Proof. done. Qed.

Lemma core_try_consume u n : core (quota_try_consume u n).2 = core u.
Proof. unfold quota_try_consume. by repeat case_match. Qed.

Lemma core_after_send u n : core (quota_consume_after_send u n) = core u.
Proof. apply core_try_consume. Qed.

Lemma core_restore u n : core (quota_restore u n) = core u.
Proof. unfold quota_restore. by case_match. Qed.

Lemma core_restore_all ds u : core (restore_all ds u) = core u.
Proof.
  unfold restore_all. revert u. induction ds as [|d ds IH]; cbn; intros u; [done|]. by rewrite IH, core_restore.
Qed.

Lemma at_key_ok g0 c c' k f : step_ok g0 c c' -> (next_flow c <= next_flow c')%nat -> at_key c k f -> at_key c' k f.
Proof. intros Hs Hn [Hk Hlt]. split; [|lia]. intros k' Hk'. by apply Hk, Hs. Qed.

Lemma payload_u64 p : payload_ok p -> in_u64 (payload_len p).
Proof. unfold payload_ok, payload_len. unfold_ints. lia. Qed.

Lemma shape_ok g0 sh p nows u :
  inv g0 (core u) -> payload_ok p -> shaper_refs (limits (core u)) sh ->
  safe (shape sh (payload_len p) nows u) (fun '(u', _) =>
    tally u' = tally u /\ step_ok g0 (core u) (core u') /\ exists w, core u' = set_limits (core u) w).
Proof.
  intros Hi Hp Hr. unfold shape.
  destruct (admits_held g0 (limits (core u)) _ sh (payload_len p) nows.1 nows.2 (iv_slots _ _ _ Hi) (payload_u64 p Hp) Hr)
    as (w & ok & -> & Hh & Hk). cbn.
  eexists. split; [done|]. cbn. split_and!; [done| |by eexists].
  apply core_step_frame; cbn; try done. apply pending_change_refl, (iv_bal _ _ _ Hi).
Qed.


(** *** The listener *)

Lemma fold_book_ok g0 cfg now f (ds : list (list Z * Addr * Z)) u : inv g0 (core u) ->
  step_ok g0 (core u) (core (foldl (fun u d => book_in cfg now f d.1.1 u) u ds)).
Proof.
  revert u. induction ds as [|d ds IH]; intros u Hi; [by apply step_ok_refl|]. cbn [foldl].
  pose proof (book_in_ok g0 cfg now f d.1.1 u Hi) as Hs. eapply step_ok_trans; [exact Hs|]. apply IH, Hs.
Qed.

Lemma send_single_ok g0 cfg now a f p n u : inv g0 (core u) ->
  step_ok g0 (core u) (core (send_single cfg now a f p n u)).
Proof.
  intros Hi. unfold send_single. destruct a; [by apply step_ok_refl|]. rewrite core_after_send. by apply book_in_ok.
Qed.

Lemma send_singles_ok g0 cfg env f j ds u : inv g0 (core u) ->
  step_ok g0 (core u) (core (send_singles cfg env f j ds u)).
Proof.
  revert j u. induction ds as [|[[p s] n] ds IH]; cbn [send_singles]; intros j u Hi; [by apply step_ok_refl|].
  pose proof (send_single_ok g0 cfg (flush_now env) (singles env j) f p n u Hi) as Hs.
  eapply step_ok_trans; [exact Hs|]. apply IH, Hs.
Qed.

(** The runs [process_batch] builds. *)
Definition run_ok (cfg : ListenerConfig) (bufs : Bufs) (c : Core) (run : PendingRun) : Prop :=
  entries run <> [] /\
  exists src, at_key c (listen_port cfg, src) (run_flow run) /\
    Forall (fun e => exists p, bufs !! e.1 = Some (p, src) /\ e.2 = payload_len p /\ payload_ok p) (entries run).

Lemma run_datagrams_spec (bufs : Bufs) src es :
  Forall (fun e : nat * Z => exists p, bufs !! e.1 = Some (p, src) /\ e.2 = payload_len p /\ payload_ok p) es ->
  exists ds, run_datagrams bufs es = Some ds /\
    Forall2 (fun e d => bufs !! e.1 = Some d.1 /\ d.2 = e.2) es ds /\
    Forall (fun d => d.1.2 = src /\ d.2 = payload_len d.1.1 /\ payload_ok d.1.1) ds.
Proof.
  unfold run_datagrams. induction 1 as [|[i n] es (p & Hb & Hn & Hp) _ (ds & E & Hf & Hd)].
  { exists []. split_and!; constructor. }
  exists ((p, src, n) :: ds). cbn in *. rewrite Hb. cbn. rewrite E. split_and!; [done| |]; constructor; try done.
Qed.

Lemma send_probe_sound g0 cfg env f p src n u :
  inv g0 (core u) -> at_key (core u) (listen_port cfg, src) f -> sound g0 u (send_probe cfg env f p src n u).
Proof.
  intros Hi Hk. unfold send_probe. destruct (probe env) as [e|].
  - destruct (classify_udp_error e); [by apply sound_same..|by apply evict_sound|by apply sound_same].
  - apply safe_ret. rewrite core_try_consume. by apply book_in_ok.
Qed.

Lemma flush_run_sound g0 cfg env bufs u run :
  inv g0 (core u) -> run_ok cfg bufs (core u) run -> sound g0 u (flush_run cfg env bufs u run).
Proof.
  intros Hi (Hne & src & Hk & Hes). unfold flush_run.
  destruct (run_datagrams_spec _ _ _ Hes) as (ds & -> & Hf & Hds). cbn [mbind option_bind].
  assert (ds <> []) as Hnil by (intros ->; by apply Forall2_nil_inv_r in Hf).
  assert (forall i d, ds !! i = Some d -> d.1.2 = src) as Hsrc.
  { intros i d Hd. by eapply (Forall_lookup_1 _ _ _ _ Hds). }
  destruct (send_batch env) as [sent|e].
  - set (u1 := foldl _ u (take sent ds)). assert (step_ok g0 (core u) (core u1)) as Hs by by apply fold_book_ok.
    destruct (Nat.ltb_spec sent (length ds)) as [Hlt|]; [|by exists u1].
    destruct (lookup_lt_is_Some_2 ds sent Hlt) as [[[p s] n] Hd]. rewrite Hd. cbn [mbind option_bind].
    specialize (Hsrc _ _ Hd). cbn in Hsrc. subst s.
    eapply (sound_trans _ _ (restore_all (drop sent ds) u1)); [by rewrite core_restore_all|].
    eapply safe_bind; [apply send_probe_sound|]; rewrite ?core_restore_all; [apply Hs| |].
    + eapply at_key_ok; [exact Hs| |done]. by rewrite (so_next _ _ _ Hs).
    + intros u2 Hu2. by apply safe_ret.
  - eapply (sound_trans _ _ (restore_all ds u)); [rewrite core_restore_all; by apply step_ok_refl|].
    case_decide.
    { apply safe_ret. apply send_singles_ok. by rewrite core_restore_all. }
    destruct (classify_udp_error e).
    1,2,4: apply sound_same; [by rewrite core_restore_all|done].
    destruct (lookup_lt_is_Some_2 ds 0) as [[[p s] n] Hd]; [destruct ds; [done|cbn; lia]|].
    rewrite Hd. cbn [mbind option_bind]. specialize (Hsrc _ _ Hd). cbn in Hsrc. subst s.
    apply evict_sound; by rewrite core_restore_all.
Qed.

Lemma flush_pending_sound g0 cfg env bufs u pending :
  inv g0 (core u) -> (forall run, pending = Some run -> run_ok cfg bufs (core u) run) ->
  sound g0 u (flush_pending cfg env bufs u pending).
Proof.
  intros Hi Hr. destruct pending as [run|]; [by apply flush_run_sound, Hr|]. by apply sound_same.
Qed.

Lemma shaper_ok_refs g0 cfg c d : inv g0 c -> shaper_refs (limits c) (shaper cfg (limits c) d).
Proof. intros Hi. apply shaper_new_refs, (held_wf _ _ _ (iv_slots _ _ _ Hi)). Qed.

Lemma refs_kept w w' sh : limiters_kept w w' -> shaper_refs w sh -> shaper_refs w' sh.
Proof. intros Hk Hr i Hi. by apply Hk, Hr. Qed.

Lemma forward_existing_sound g0 cfg env f p sh on_error u :
  inv g0 (core u) -> payload_ok p -> shaper_refs (limits (core u)) sh ->
  (forall e u', inv g0 (core u') -> registry (core u') = registry (core u) -> next_flow (core u') = next_flow (core u) ->
     sound g0 u' (on_error e u')) ->
  sound g0 u (forward_existing cfg env f p sh on_error u).
Proof.
  intros Hi Hp Hr He. unfold forward_existing. destruct (quota_allows u); cbn [negb]; [|by apply sound_same].
  destruct (shape_ok g0 sh p (shape_nows env) u Hi Hp Hr) as ([u1 ok] & E & Ht & Hs & w & Hw). rewrite E. cbn.
  eapply sound_trans; [exact Hs|]. destruct ok; cbn; [|by apply sound_same; [apply Hs|]].
  destruct (send_answer env) as [e|].
  - apply He; [apply Hs|by rewrite Hw|by rewrite Hw].
  - apply safe_ret. rewrite core_after_send. apply book_in_ok, Hs.
Qed.

Lemma cold_admission_sound g0 cfg env sh p src u :
  inv g0 (core u) -> payload_ok p -> shaper_refs (limits (core u)) sh ->
  sound g0 u (cold_admission cfg env sh p src u).
Proof.
  intros Hi Hp Hr. unfold cold_admission. destruct (quota_allows u) eqn:Eq; cbn [negb]; [|by apply sound_same].
  pose proof (flow_reserve_spec (rule_cap cfg) (registry (core u)) (listen_port cfg, src) (iv_bal _ _ _ Hi)) as Hsp.
  destruct (UdpRegistry.try_get_or_reserve _ _ _) as [o r]. destruct Hsp as [Hpc _].
  assert (step_ok g0 (core u) (set_registry (core u) r)) as Hs.
  { apply core_step_frame; cbn; try done. apply (iv_slots _ _ _ Hi). }
  destruct o as [f| | |].
  - eapply (sound_trans _ _ (on_core (fun c => set_registry c r) u)); [exact Hs|].
    apply forward_existing_sound; [apply Hs|done|done|]. intros e u' Hi' _ _. by apply sound_same.
  - apply safe_ret. cbn. apply core_step_frame; cbn; try done; [apply (iv_slots _ _ _ Hi)|].
    intros Hc. apply Forall_app. split; [done|]. by constructor.
  - by apply safe_ret.
  - by apply safe_ret.
Qed.

Lemma get_at_key g0 c k f : inv g0 c -> UdpRegistry.get (registry c) k = Some f -> at_key c k f.
Proof.
  intros Hi Hg. unfold UdpRegistry.get in Hg. destruct (inner (registry c) !! k) as [[|g]|] eqn:E; simplify_eq.
  split; [intros k' Hk'; by eapply (iv_inj _ _ _ Hi)|]. apply (iv_next _ _ _ Hi). left.
  apply (iv_alive _ _ _ Hi), referenced_spec. eauto.
Qed.

Lemma handle_datagram_sound g0 cfg env u p src :
  inv g0 (core u) -> payload_ok p -> sound g0 u (handle_datagram cfg env u p src).
Proof.
  intros Hi Hp. pose proof (shaper_ok_refs g0 cfg _ In Hi) as Hr. unfold handle_datagram.
  destruct (UdpRegistry.get _ _) as [f|] eqn:Eg; [|by apply cold_admission_sound].
  destruct (is_cancelled u f); [by apply cold_admission_sound|].
  apply forward_existing_sound; [done..|]. intros e u' Hi' Er En.
  destruct (classify_udp_error e); [by apply sound_same..| |by apply sound_same].
  apply evict_sound; [done|]. destruct (get_at_key _ _ _ _ Hi Eg) as [Hk Hlt]. split; [by rewrite Er|by rewrite En].
Qed.

Lemma run_ok_kept g0 cfg bufs c c' run : step_ok g0 c c' -> run_ok cfg bufs c run -> run_ok cfg bufs c' run.
Proof.
  intros Hs (Hne & src & Hk & Hes). split; [done|]. exists src. split; [|done].
  eapply at_key_ok; [exact Hs| |done]. by rewrite (so_next _ _ _ Hs).
Qed.


Definition pending_ok (cfg : ListenerConfig) (bufs : Bufs) (c : Core) (i : nat) (pending : option PendingRun) : Prop :=
  forall run, pending = Some run -> run_ok cfg bufs c run /\ (length (entries run) <= i)%nat.

Lemma pending_ok_kept g0 cfg bufs c c' i pending :
  step_ok g0 c c' -> pending_ok cfg bufs c i pending -> pending_ok cfg bufs c' (S i) pending.
Proof. intros Hs Hp run ->. destruct (Hp run eq_refl). split; [by eapply run_ok_kept|lia]. Qed.

Lemma new_run_ok g0 cfg bufs c i p src f :
  inv g0 c -> UdpRegistry.get (registry c) (listen_port cfg, src) = Some f ->
  bufs !! i = Some (p, src) -> payload_ok p ->
  run_ok cfg bufs c (mkRun f [(i, payload_len p)]).
Proof.
  intros Hi Hg Hb Hp. split; [done|]. exists src. split; [by eapply get_at_key|].
  constructor; [|constructor]. by exists p.
Qed.

Lemma push_run_ok cfg bufs c i p src f run :
  run_ok cfg bufs c run -> run_flow run = f -> inner (registry c) !! (listen_port cfg, src) = Some (Live f) ->
  bufs !! i = Some (p, src) -> payload_ok p ->
  run_ok cfg bufs c (mkRun f (entries run ++ [(i, payload_len p)])).
Proof.
  intros (Hne & s & [Hk Hlt] & Hes) <- Hg Hb Hp. pose proof (Hk _ Hg) as [= <-].
  split; [by destruct (entries run)|]. exists src. split; [done|]. cbn.
  apply Forall_app. split; [done|]. constructor; [|constructor]. by exists p.
Qed.

Lemma get_live (r : Registry) k f : UdpRegistry.get r k = Some f <-> inner r !! k = Some (Live f).
Proof. unfold UdpRegistry.get. destruct (inner r !! k) as [[]|]; naive_solver. Qed.

Lemma slot_of_drop (bufs slots : Bufs) i d : d :: slots = drop i bufs ->
  bufs !! i = Some d /\ slots = drop (S i) bufs.
Proof.
  intros Hs. split.
  - pose proof (lookup_drop bufs i 0) as E. rewrite <- Hs, Nat.add_0_r in E. by symmetry.
  - replace (S i) with (i + 1)%nat by lia. rewrite <- drop_drop, <- Hs. done.
Qed.

Lemma process_slots_sound g0 cfg env sh bufs slots : forall u pending i,
  inv g0 (core u) -> shaper_refs (limits (core u)) sh -> Forall (fun d => payload_ok d.1) bufs ->
  slots = drop i bufs -> (length bufs <= BATCH_SIZE)%nat -> pending_ok cfg bufs (core u) i pending ->
  sound g0 u (process_slots cfg env sh bufs u pending i slots).
Proof.
  induction slots as [|[p src] slots IH]; intros u pending i Hi Hr Hb Hs Hlen Hp; cbn [process_slots].
  { apply flush_pending_sound; [done|]. intros run E. by apply Hp. }
  destruct (slot_of_drop _ _ _ _ Hs) as [Hd Hs'].
  assert (payload_ok p) as Hpl by by apply (Forall_lookup_1 _ _ _ _ Hb Hd).
  assert (forall u1 pending', step_ok g0 (core u) (core u1) -> pending_ok cfg bufs (core u1) (S i) pending' ->
    sound g0 u (process_slots cfg env sh bufs u1 pending' (S i) slots)) as Hnext.
  { intros u1 pending' H1 Hp1. eapply sound_trans; [exact H1|].
    apply IH; try done; [apply H1|]. eapply refs_kept; [apply H1|done]. }
  match goal with |- context [match ?g with Some _ => _ | None => ?c end] => set (cold_path := c) end.
  assert (sound g0 u cold_path) as Hcold.
  { subst cold_path. eapply safe_bind; [apply flush_pending_sound; [done|]; intros run E; by apply Hp|].
    intros u1 H1. eapply (sound_trans _ _ u1); [exact H1|].
    eapply safe_bind; [apply handle_datagram_sound; [apply H1|done]|].
    intros u2 H2. pose proof (step_ok_trans _ _ _ _ H1 H2) as H12. eapply sound_trans; [exact H2|].
    apply IH; try done; [apply H2|]. eapply refs_kept; [apply H12|done]. }
  destruct (UdpRegistry.get _ _) as [f|] eqn:Eg; [|done]. destruct (is_cancelled u f); [done|].
  pose proof (core_try_consume u (payload_len p)) as Ec.
  destruct (quota_try_consume u (payload_len p)) as [[] u1]; cbn in Ec.
  2:{ apply Hnext; [rewrite Ec; by apply step_ok_refl|]. rewrite Ec. intros run E. destruct (Hp run E). auto with lia. }
  destruct (shape_ok g0 sh p (s_nows (env i)) u1) as ([u2 ok] & -> & _ & H2 & w & Hw); [by rewrite Ec|done|by rewrite Ec|].
  cbn [mbind option_bind]. rewrite Ec in H2, Hw.
  destruct ok; cbn [negb].
  2:{ apply Hnext; cbn; rewrite core_restore; [done|]. by eapply pending_ok_kept. }
  destruct pending as [run|].
  2:{ apply Hnext; [done|]. intros run [= <-]. split; [|cbn; lia]. eapply run_ok_kept; [exact H2|].
      by eapply new_run_ok. }
  destruct (Hp run eq_refl) as [Hrun Hl]. case_decide as Ef.
  - unfold run_push. pose proof (lookup_lt_Some _ _ _ Hd).
    destruct (Nat.ltb_spec (length (entries run)) BATCH_SIZE); [|lia]. cbn [mbind option_bind].
    apply Hnext; [done|]. intros run' [= <-]. cbn. rewrite length_app. cbn. split; [|lia].
    rewrite Ef. eapply push_run_ok; try done; [by eapply run_ok_kept|]. rewrite Hw. cbn. by apply get_live.
  - eapply safe_bind.
    { apply (flush_run_sound g0); [apply H2|]. by eapply run_ok_kept. }
    intros u3 H3. pose proof (step_ok_trans _ _ _ _ H2 H3) as H23. apply Hnext; [done|].
    intros run' [= <-]. split; [|cbn; lia]. eapply run_ok_kept; [exact H23|]. by eapply new_run_ok.
Qed.

Lemma process_batch_sound g0 cfg env u bufs :
  inv g0 (core u) -> Forall (fun d => payload_ok d.1) bufs -> (length bufs <= BATCH_SIZE)%nat ->
  sound g0 u (process_batch cfg env u bufs).
Proof.
  intros Hi Hb Hl. apply process_slots_sound; try done. by eapply shaper_ok_refs.
Qed.


(** *** Setting a flow up *)

(** Between the gate and the flow: guards [gs] belong to nobody yet. *)
Definition admitted (gs : list ActiveGuard) (g0 : gmap nat Z) (c : Core) : Prop :=
  held g0 (limits c) (gs ++ guards (flows c)) /\ exists w, inv g0 (set_limits c w).

Lemma acquire_first_packet_ok g0 cfg nows u : inv g0 (core u) ->
  safe (acquire_first_packet cfg nows u) (fun '(u', r) =>
    match r with None => inv g0 (core u') | Some gs => admitted gs g0 (core u') end).
Proof.
  intros Hi. pose proof (iv_slots _ _ _ Hi) as Hh. unfold acquire_first_packet.
  destruct (layered_defined (limits (core u)) (owner_rate_limit cfg) (rate_limit cfg) true nows.1 nows.2 (held_wf _ _ _ Hh))
    as [[w r] E]. rewrite E. cbn [mbind option_bind].
  pose proof (held_grant _ _ _ _ _ _ _ _ _ _ Hh E) as Hh'. apply safe_ret.
  assert (held g0 w (guards (flows (core u))) -> inv g0 (set_limits (core u) w)) as Hset.
  { intros Hw. apply (path_inv_frame _ _ _ (set_limits (core u) w) Hi); try done.
    apply pending_change_refl, (iv_bal _ _ _ Hi). }
  destruct r as [og rg|m|m]; cbn; [|by apply Hset..].
  split; [done|]. exists (limits (core u)). by destruct u as [[] ?].
Qed.

Lemma give_up_flow_ok g0 k gs u : admitted gs g0 (core u) ->
  safe (give_up_flow k gs u) (fun u' => inv g0 (core u')).
Proof.
  intros [Hh [w0 Hi]]. unfold give_up_flow.
  eapply safe_bind; [by apply held_drop_guards|]. intros w [Hw _]. apply safe_ret. cbn.
  apply (path_inv_frame _ _ _ _ Hi); try done. cbn. apply drop_reservation_spec, (iv_bal _ _ _ Hi).
Qed.

Lemma admitted_core gs g0 u u' : core u' = core u -> admitted gs g0 (core u) -> admitted gs g0 (core u').
Proof. by intros ->. Qed.

Lemma core_walk env addrs u : core (walk env addrs u).2 = core u.
Proof. revert u. induction addrs as [|a addrs IH]; cbn; intros u; [done|]. destruct (connect env a); by rewrite ?IH. Qed.

(** The flow just built is the next reference, held by nobody else. *)
Lemma fresh_flow g0 c : inv g0 c ->
  flows c !! next_flow c = None /\ next_flow c ∉ cancelled (registry c) /\
  next_flow c ∉ (queue c ++ armed c).*2 /\ forall k, inner (registry c) !! k <> Some (Live (next_flow c)).
Proof.
  intros Hi. assert (forall f, is_Some (flows c !! f) \/ f ∈ cancelled (registry c) -> f <> next_flow c) as Hne.
  { intros f Hf ->. apply (iv_next _ _ _ Hi) in Hf. lia. }
  split_and!.
  - apply eq_None_not_Some. intros Hs. by eapply Hne; [left|].
  - intros Hc. by eapply Hne; [right|].
  - intros Hw. eapply Hne; [|done]. left. apply (iv_alive _ _ _ Hi), referenced_spec. by right.
  - intros k Hk. eapply Hne; [|done]. left. apply (iv_alive _ _ _ Hi), referenced_spec. eauto.
Qed.

Definition with_flow (c : Core) (r : Registry) (fl : UdpFlow) (q : list (FlowKey * nat)) : Core :=
  mkCore r (<[next_flow c := fl]> (flows c)) (S (next_flow c)) (limits c) (cold c) q (armed c) (demux_open c).

Definition replaced (c : Core) (k : FlowKey) : option nat :=
  match inner (registry c) !! k with Some (UdpRegistry.Live g) => Some g | _ => None end.

Lemma with_flow_held gs g0 c fl r q : admitted gs g0 c -> admit_guards fl = gs ->
  held g0 (limits c) (guards (flows (with_flow c r fl q))).
Proof.
  intros [Hh [w Hi]] <-. eapply held_perm; [|exact Hh]. cbn. symmetry. apply flow_guards_insert.
  apply (fresh_flow _ _ Hi).
Qed.

(** Committed and handed over. *)
Lemma installed_inv g0 c k fl : admitted (admit_guards fl) g0 c -> demux_open c = true ->
  inv_but (fun g => replaced c k = Some g) g0
    (with_flow c (UdpRegistry.commit (registry c) k (next_flow c)) fl (queue c ++ [(k, next_flow c)])).
Proof.
  intros Ha Ho. pose proof (with_flow_held _ _ _ fl (UdpRegistry.commit (registry c) k (next_flow c))
    (queue c ++ [(k, next_flow c)]) Ha eq_refl) as Hg. destruct Ha as [_ [w Hi]].
  destruct (fresh_flow _ _ Hi) as (Hn1 & Hn2 & Hn3 & Hn4). cbn in Hn1, Hn2, Hn3, Hn4.
  destruct (commit_spec (registry c) k (next_flow c) (iv_bal _ _ _ Hi)) as (Hb & Hin & Hc). destruct Hi. cbn in *.
  assert ((queue c ++ [(k, next_flow c)]) ++ armed c ≡ₚ (k, next_flow c) :: queue c ++ armed c) as Hperm.
  { rewrite <- app_assoc. symmetry. apply Permutation_middle. }
  split; cbn; rewrite ?Hin, ?Hc; try done.
  - intros k1 k2 f. rewrite !lookup_insert_Some. intros [[<- E1]|[? H1]] [[<- E2]|[? H2]]; [done| | |by eapply iv_inj0];
      simplify_eq; by edestruct Hn4.
  - intros k' f [[<- [= <-]]|[? Hk]]%lookup_insert_Some.
    + split; [done|]. intros _. rewrite Hperm. by left.
    + destruct (iv_live0 _ _ Hk) as [? Hw]. split; [done|]. intros _. rewrite Hperm. right. by apply Hw.
  - rewrite Hperm. cbn. by constructor.
  - intros f Hf%referenced_spec. cbn in Hf. rewrite Hin, Hperm in Hf. cbn in Hf. rewrite elem_of_cons in Hf.
    destruct (decide (f = next_flow c)) as [->|Hne]; [rewrite lookup_insert_eq; eauto|].
    rewrite lookup_insert_ne by done. apply iv_alive0, referenced_spec. cbn.
    destruct Hf as [[k' [[<- [= E]]|[? Hk]]%lookup_insert_Some]|[?|?]]; [done|eauto|done|by right].
  - intros f Hf. destruct (decide (f = next_flow c)) as [->|Hne].
    { left. apply referenced_spec. right. cbn. rewrite Hperm. by left. }
    rewrite lookup_insert_ne in Hf by done. destruct (iv_held_by0 f Hf) as [Hr|[]].
    apply referenced_spec in Hr. cbn in Hr. destruct Hr as [[k' Hk]|Hw].
    + destruct (decide (k' = k)) as [->|]; [right; unfold replaced; by rewrite Hk|].
      left. apply referenced_spec. left. exists k'. cbn. by rewrite Hin, lookup_insert_ne.
    + left. apply referenced_spec. right. cbn. rewrite Hperm. by right.
  - intros f [Hf|Hf]; [|specialize (iv_next0 f (or_intror Hf)); lia].
    destruct (decide (f = next_flow c)) as [->|Hne]; [lia|]. rewrite lookup_insert_ne in Hf by done.
    specialize (iv_next0 f (or_introl Hf)). lia.
  - intros E. congruence.
Qed.

(** Committed and rolled back. *)
Lemma rolled_back_inv g0 c k fl : admitted (admit_guards fl) g0 c ->
  let c1 := with_flow c (UdpRegistry.commit (registry c) k (next_flow c)) fl (queue c) in
  let r := UdpRegistry.remove (registry c1) k in
  inv_but (fun g => r.1 = Some g \/ g = next_flow c \/ replaced c k = Some g) g0
    (set_registry c1 (UdpRegistry.cancel r.2 (next_flow c))).
Proof.
  intros Ha c1 r. pose proof (with_flow_held _ _ _ fl (UdpRegistry.commit (registry c) k (next_flow c))
    (queue c) Ha eq_refl) as Hg. destruct Ha as [_ [w Hi]].
  destruct (fresh_flow _ _ Hi) as (Hn1 & Hn2 & Hn3 & Hn4). cbn in Hn1, Hn2, Hn3, Hn4.
  destruct (commit_spec (registry c) k (next_flow c) (iv_bal _ _ _ Hi)) as (Hb1 & Hin1 & Hc1).
  destruct (remove_spec (registry c1) k Hb1) as (Hb & Hin & Hc & _). fold r in Hb, Hin, Hc.
  change (registry c1) with (UdpRegistry.commit (registry c) k (next_flow c)) in Hin, Hc.
  rewrite Hin1, delete_insert_eq in Hin. rewrite Hc1 in Hc. destruct Hi. cbn in *.
  split; cbn; rewrite ?Hin, ?Hc; try done.
  - intros k1 k2 f [_ H1]%lookup_delete_Some [_ H2]%lookup_delete_Some. by eapply iv_inj0.
  - intros k' f [Hne Hk]%lookup_delete_Some. destruct (iv_live0 _ _ Hk) as [? Hw]. split; [|done].
    intros [->%elem_of_singleton|?]%elem_of_union; [by edestruct Hn4|done].
  - intros f Hf%referenced_spec. cbn in Hf. rewrite Hin in Hf.
    assert (is_Some (flows c !! f)) as [y Hy].
    { apply iv_alive0, referenced_spec. destruct Hf as [[k' [_ Hk]%lookup_delete_Some]|?]; [eauto|by right]. }
    rewrite lookup_insert_ne by congruence. eauto.
  - intros f Hf. destruct (decide (f = next_flow c)) as [->|Hne]; [tauto|].
    rewrite lookup_insert_ne in Hf by done. destruct (iv_held_by0 f Hf) as [Hr|[]].
    apply referenced_spec in Hr. cbn in Hr. destruct Hr as [[k' Hk]|Hw].
    + destruct (decide (k' = k)) as [->|]; [right; right; right; unfold replaced; by rewrite Hk|].
      left. apply referenced_spec. left. exists k'. cbn. by rewrite Hin, lookup_delete_ne.
    + left. apply referenced_spec. by right.
  - intros f [Hf|[->%elem_of_singleton|Hf]%elem_of_union];
      [|lia|specialize (iv_next0 f (or_intror Hf)); lia].
    destruct (decide (f = next_flow c)) as [->|Hne]; [lia|]. rewrite lookup_insert_ne in Hf by done.
    specialize (iv_next0 f (or_introl Hf)). lia.
Qed.

Lemma install_flow_ok g0 k src target gs now u : admitted gs g0 (core u) ->
  safe (install_flow k src target gs now u) (fun '(u', kept) =>
    inv g0 (core u') /\ (kept = true -> at_key (core u') k (next_flow (core u)))).
Proof.
  intros Ha. unfold install_flow. set (fl := mkFlow src target now 0 0 0 0 gs). cbn zeta.
  cbn [demux_open queue armed]. destruct (demux_open (core u) && _) eqn:Eo.
  - apply andb_true_iff in Eo as [Eo _].
    pose proof (installed_inv g0 (core u) k fl Ha Eo) as Hinst.
    eapply safe_bind; [apply (release_opt_ok (fun _ => False) g0); eapply inv_weaken; [|exact Hinst]; by left|].
    intros c (Hi & _ & Er & _ & _ & _ & En & _). apply safe_ret. split; [done|]. intros _.
    eapply get_at_key; [done|]. apply get_live. cbn [core]. rewrite Er. cbn.
    destruct Ha as [_ [w Hw]]. destruct (commit_spec (registry (core u)) k (next_flow (core u)) (iv_bal _ _ _ Hw)) as (_ & -> & _).
    apply lookup_insert_eq.
  - pose proof (rolled_back_inv g0 (core u) k fl Ha) as Hback. eapply safe_bind.
    { apply (remove_and_cancel_tail (fun g => replaced (core u) k = Some g) g0). exact Hback. }
    intros c (Hi & _). eapply safe_bind; [apply (release_opt_ok (fun _ => False) g0); eapply inv_weaken; [|exact Hi]; by left|].
    intros c' (Hi' & _). by apply safe_ret.
Qed.

Lemma send_first_ok g0 cfg env k f p u : inv g0 (core u) -> payload_ok p -> at_key (core u) k f ->
  safe (send_first cfg env k f p u) (fun u' => inv g0 (core u')).
Proof.
  intros Hi Hp Hk. unfold send_first.
  destruct (shape_ok g0 (shaper cfg (limits (core u)) In) p (first_nows env) u Hi Hp) as ([u1 ok] & -> & _ & Hs & w & Hw);
    [by eapply shaper_ok_refs|]. cbn [mbind option_bind].
  destruct ok; cbn [negb]; [|apply safe_ret; apply Hs]. destruct (first_send env) as [e|].
  - destruct (classify_udp_error e); [by apply safe_ret, Hs..| |by apply safe_ret, Hs].
    eapply safe_mono; [apply (evict_sound g0); [apply Hs|]|intros u' Hu; apply Hu].
    eapply at_key_ok; [exact Hs| |done]. by rewrite (so_next _ _ _ Hs).
  - apply safe_ret. rewrite core_after_send. apply (book_in_ok g0), Hs.
Qed.

Lemma complete_cold_flow_ok g0 cfg env t u : inv g0 (core u) -> payload_ok (t_payload t) ->
  safe (complete_cold_flow cfg env t u) (fun u' => inv g0 (core u')).
Proof.
  intros Hi Hp. unfold complete_cold_flow. eapply safe_bind; [by apply acquire_first_packet_ok|].
  intros [u1 [gs|]] H1; cbn in H1.
  2:{ apply safe_ret. cbn. apply (path_inv_frame _ _ _ _ H1); try done; [|apply (iv_slots _ _ _ H1)].
      apply drop_reservation_spec, (iv_bal _ _ _ H1). }
  destruct (resolved env) as [[|a addrs]|]; [by apply give_up_flow_ok| |by apply give_up_flow_ok].
  pose proof (core_walk env (a :: addrs) u1) as Ew. destruct (walk env (a :: addrs) u1) as [[target|] u2]; cbn in Ew.
  2:{ apply give_up_flow_ok. cbn. by rewrite Ew. }
  eapply safe_bind; [apply (install_flow_ok g0); by rewrite Ew|].
  intros [u3 kept] [H3 Hk]. destruct kept; cbn [negb]; [|by apply safe_ret].
  apply send_first_ok; [done|done|]. by apply Hk.
Qed.


(** *** The demultiplexer *)

Lemma armed_at_key g0 c k f : inv g0 c -> (k, f) ∈ armed c -> at_key c k f.
Proof.
  intros Hi Hin. assert ((k, f) ∈ queue c ++ armed c) as Hw by (apply elem_of_app; by right).
  assert (demux_open c = true) as Ho.
  { destruct (demux_open c) eqn:E; [done|]. rewrite (iv_closed _ _ _ Hi E) in Hw. by apply elem_of_nil in Hw. }
  split.
  - intros k' Hk'. destruct (iv_live _ _ _ Hi _ _ Hk') as [_ Hw']. specialize (Hw' Ho).
    apply list_elem_of_lookup in Hw as [i Hw], Hw' as [j Hw'].
    assert (i = j) as ->; [|congruence].
    eapply (NoDup_lookup _ i j f (iv_waits _ _ _ Hi)); by rewrite list_lookup_fmap, ?Hw, ?Hw'.
  - apply (iv_next _ _ _ Hi). left. apply (iv_alive _ _ _ Hi), referenced_spec. right.
    apply list_elem_of_fmap. by exists (k, f).
Qed.

Lemma book_reply_ok g0 env k f u p : inv g0 (core u) -> step_ok g0 (core u) (core (book_reply env k f u p)).
Proof. intros Hi. unfold book_reply. rewrite core_after_send. by apply book_out_ok. Qed.

Lemma fold_reply_ok g0 env k f ps u : inv g0 (core u) ->
  step_ok g0 (core u) (core (foldl (book_reply env k f) u ps)).
Proof.
  revert u. induction ps as [|p ps IH]; intros u Hi; [by apply step_ok_refl|]. cbn [foldl].
  pose proof (book_reply_ok g0 env k f u p Hi) as Hs. eapply step_ok_trans; [exact Hs|]. apply IH, Hs.
Qed.

Lemma admit_replies_ok g0 env sh i ps u :
  inv g0 (core u) -> shaper_refs (limits (core u)) sh -> Forall payload_ok ps ->
  safe (admit_replies env sh i ps u) (fun '(u', _) => step_ok g0 (core u) (core u')).
Proof.
  revert i u. induction ps as [|p ps IH]; intros i u Hi Hr Hp; cbn [admit_replies].
  { apply safe_ret. by apply step_ok_refl. }
  apply Forall_cons in Hp as [Hp Hps]. destruct (shape_ok g0 sh p (out_nows env i) u Hi Hp Hr) as ([u1 ok] & -> & _ & H1 & _).
  cbn [mbind option_bind]. pose proof (refs_kept _ _ _ (so_kept _ _ _ H1) Hr) as Hr1. destruct ok; cbn [negb].
  - eapply safe_bind; [by apply (IH (S i) u1); [apply H1| |]|]. intros [u2 kept] H2. apply safe_ret.
    by eapply step_ok_trans.
  - eapply safe_mono; [by apply (IH (S i) (inc CBandwidthOut 1 u1)); [apply H1| |]|].
    intros [u2 kept] H2. by eapply step_ok_trans.
Qed.

Lemma forward_reply_batch_sound g0 env k f sh ps u :
  inv g0 (core u) -> shaper_refs (limits (core u)) sh -> Forall payload_ok ps ->
  sound g0 u (forward_reply_batch env k f sh ps u).
Proof.
  intros Hi Hr Hp. unfold forward_reply_batch. eapply safe_bind; [by apply admit_replies_ok|].
  intros [u1 kept] H1. destruct kept as [|p kept]; [by apply safe_ret|].
  destruct (reply_batch env) as [sent|e].
  - apply safe_ret. eapply step_ok_trans; [exact H1|].
    destruct (sent <? length (p :: kept))%nat; cbn [core inc on_tally]; apply fold_reply_ok, H1.
  - apply safe_ret. by destruct (decide _).
Qed.

Lemma recv_failed_ok g0 k f e u : inv g0 (core u) -> at_key (core u) k f ->
  safe (recv_failed k f e u) (fun '(u', _) => step_ok g0 (core u) (core u')).
Proof.
  intros Hi Hk. unfold recv_failed. destruct (classify_udp_error e).
  1,2,4: apply safe_ret; by apply step_ok_refl.
  eapply safe_bind; [by apply evict_sound|]. intros u' Hu. by apply safe_ret.
Qed.

Definition result_ok (r : Result (list Z) IoError) : Prop := forall p, r = Ok p -> payload_ok p.

Record drain_env_ok (env : DrainEnv) : Prop := {
  de_batch : forall ps, recv_batch env = Ok ps -> Forall payload_ok ps;
  de_recvs : Forall result_ok (recvs env);
}.

Lemma drain_batched_sound g0 cfg env k f sh u :
  inv g0 (core u) -> at_key (core u) k f -> shaper_refs (limits (core u)) sh -> drain_env_ok env ->
  safe (drain_one_flow_batched cfg env k f sh u) (fun '(u', _) => step_ok g0 (core u) (core u')).
Proof.
  intros Hi Hk Hr [He _]. unfold drain_one_flow_batched. destruct (bool_decide _); cbn [negb].
  2:{ apply safe_ret. by apply step_ok_refl. }
  destruct (recv_batch env) as [ps|e] eqn:E; [|by apply recv_failed_ok].
  destruct ps as [|p ps]; [apply safe_ret; by apply step_ok_refl|].
  eapply safe_bind; [apply (forward_reply_batch_sound g0); auto|]. intros u1 H1. by apply safe_ret.
Qed.

Lemma drain_loop_sound g0 env k f sh budget i j rs u :
  inv g0 (core u) -> at_key (core u) k f -> shaper_refs (limits (core u)) sh -> Forall result_ok rs ->
  sound g0 u (drain_loop env k f sh budget i j rs u).
Proof.
  revert i j rs u. induction budget as [|budget IH]; intros i j rs u Hi Hk Hr Hrs;
    destruct rs as [|[p|e] rs]; cbn [drain_loop]; try by apply sound_same.
  2:{ eapply safe_bind; [by apply recv_failed_ok|]. intros [u1 b] H1. by apply safe_ret. }
  apply Forall_cons in Hrs as [Hp Hrs]. destruct (shape_ok g0 sh p (out_nows env i) u Hi (Hp p eq_refl) Hr) as ([u1 ok] & -> & _ & H1 & _).
  cbn [mbind option_bind].
  assert (forall u2 i j, step_ok g0 (core u) (core u2) -> sound g0 u (drain_loop env k f sh budget i j rs u2)) as Hnext.
  { intros u2 i' j' H2. eapply sound_trans; [exact H2|]. apply IH; [apply H2| | |done].
    - eapply at_key_ok; [exact H2| |done]. by rewrite (so_next _ _ _ H2).
    - eapply refs_kept; [apply H2|done]. }
  destruct ok; cbn [negb]; [|by apply Hnext]. apply Hnext. eapply step_ok_trans; [exact H1|].
  destruct (reply_one env j) as [e|]; [|apply book_reply_ok, H1]. destruct (decide _); apply step_ok_refl, H1.
Qed.

(** A wait that ends takes its reference along. *)
Lemma unarm_inv g0 c i k f : inv g0 c -> armed c !! i = Some (k, f) -> f ∈ cancelled (registry c) ->
  inv_but (fun g => g = f \/ False) g0 (set_waits c (queue c) (delete i (armed c))).
Proof.
  intros Hi Hl Hc. pose proof (delete_Permutation _ _ _ Hl) as Hp.
  assert (queue c ++ armed c ≡ₚ (k, f) :: queue c ++ delete i (armed c)) as Hw.
  { rewrite Hp at 1. symmetry. apply Permutation_middle. }
  destruct Hi. split; cbn; try done.
  - intros k' g Hg. destruct (iv_live0 _ _ Hg) as [Hn Hin]. split; [done|]. intros Ho.
    specialize (Hin Ho). rewrite Hw in Hin. apply elem_of_cons in Hin as [[= -> ->]|]; done.
  - rewrite Hw in iv_waits0. by apply NoDup_cons in iv_waits0 as [_ ?].
  - intros g Hg%referenced_spec. apply iv_alive0, referenced_spec. cbn in Hg.
    destruct Hg as [?|Hg]; [by left|right]. rewrite Hw. by right.
  - intros g Hg. destruct (iv_held_by0 g Hg) as [Hr|[]]. apply referenced_spec in Hr as [?|Hin].
    + left. apply referenced_spec. by left.
    + rewrite Hw in Hin. cbn in Hin. apply elem_of_cons in Hin as [->|Hin]; [by right; left|].
      left. apply referenced_spec. by right.
  - intros Ho. rewrite (iv_closed0 Ho) in Hw. by apply Permutation_nil_cons in Hw.
Qed.

Lemma end_wait_ok g0 u i k f : inv g0 (core u) -> armed (core u) !! i = Some (k, f) ->
  f ∈ cancelled (registry (core u)) ->
  safe (release (set_waits (core u) (queue (core u)) (delete i (armed (core u)))) f) (fun c => inv g0 c).
Proof.
  intros Hi Ha Hc. eapply safe_mono; [apply (flow_release_ok (fun _ => False) g0); by eapply unarm_inv|].
  by intros c (? & _).
Qed.

Lemma demux_ready_ok g0 cfg env i u k f : inv g0 (core u) -> drain_env_ok env ->
  armed (core u) !! i = Some (k, f) -> safe (demux_ready cfg env i u) (fun u' => inv g0 (core u')).
Proof.
  intros Hi He Ha. pose proof (shaper_ok_refs g0 cfg _ Out Hi) as Hr.
  pose proof (armed_at_key g0 _ k f Hi (list_elem_of_lookup_2 _ _ _ Ha)) as Hk.
  unfold demux_ready. rewrite Ha. cbn [mbind option_bind].
  eapply safe_bind; [by apply drain_batched_sound|]. intros [u1 handled] H1.
  eapply (safe_bind _ _ (fun u2 => step_ok g0 (core u) (core u2))).
  { destruct handled; cbn [negb]; [by apply safe_ret|]. unfold drain_one_flow. destruct (bool_decide _); [|by apply safe_ret].
    eapply (sound_trans _ u u1); [done|]. apply drain_loop_sound; [apply H1| | |apply He].
    - eapply at_key_ok; [exact H1| |done]. by rewrite (so_next _ _ _ H1).
    - eapply refs_kept; [apply H1|done]. }
  intros u2 H2. destruct (is_cancelled u2 f) eqn:Ec; [|by apply safe_ret, H2].
  unfold is_cancelled in Ec. apply bool_decide_eq_true in Ec. destruct (so_waits _ _ _ H2) as [_ Ea].
  eapply safe_bind; [eapply (end_wait_ok g0 u2); [apply H2|by rewrite Ea|done]|]. intros c Hc. by apply safe_ret.
Qed.

(** *** The reaper and the end *)

Lemma sweep_one_ok g0 now win c k f : inv g0 c -> at_key c k f ->
  safe (sweep_one now win c (k, f)) (fun c' => step_ok g0 c c').
Proof.
  intros Hi [Hk Hlt]. unfold sweep_one. destruct (flows c !! f) as [fl|]; [|apply safe_ret; by apply step_ok_refl].
  destruct (win <? _); [|apply safe_ret; by apply step_ok_refl].
  pose proof (remove_and_cancel_ok g0 c k f Hi Hk Hlt) as Hrc. unfold remove_and_cancel in Hrc.
  destruct (remove_spec (registry c) k (iv_bal _ _ _ Hi)) as (Hb & Hin & Hc & Hold).
  destruct (UdpRegistry.remove (registry c) k) as [[g|] r]; cbn in *.
  - eapply safe_mono; [exact Hrc|]. by intros c' [? _].
  - apply safe_ret. apply core_step_frame; cbn; try done; [|apply (iv_slots _ _ _ Hi)]. split_and!; [done..|].
    intros k' f'. rewrite Hin, lookup_delete_Some. split; [by intros [_ ?]|]. intros Hk'. split; [|done].
    intros <-. apply Hold in Hk'. done.
Qed.

Lemma sweep_list_ok g0 now win l c : inv g0 c -> Forall (fun kf => at_key c kf.1 kf.2) l ->
  safe (fold_core (sweep_one now win) c l) (fun c' => step_ok g0 c c').
Proof.
  revert c. induction l as [|[k f] l IH]; intros c Hi Hl; cbn [fold_core].
  { apply safe_ret. by apply step_ok_refl. }
  apply Forall_cons in Hl as [Hk Hl]. eapply safe_bind; [by apply sweep_one_ok|].
  intros c1 H1. eapply safe_mono; [apply (IH c1); [apply H1|]|].
  - eapply Forall_impl; [exact Hl|]. intros kf Hkf. eapply at_key_ok; [exact H1| |done]. by rewrite (so_next _ _ _ H1).
  - intros c2 H2. by eapply step_ok_trans.
Qed.

Lemma sweep_once_ok g0 now win c : inv g0 c -> safe (sweep_once now win c) (fun c' => step_ok g0 c c').
Proof.
  intros Hi. apply sweep_list_ok; [done|]. apply Forall_forall. intros [k f] Hin%UdpRegistry.elem_of_snapshot.
  eapply get_at_key; [done|]. by apply get_live.
Qed.

(** Emptying the registry leaves its flows to the demultiplexer. *)
Lemma emptied_inv g0 c r : inv g0 c -> balanced r -> inner r = ∅ ->
  (forall f, f ∈ cancelled r -> f ∈ cancelled (registry c) \/ exists k, inner (registry c) !! k = Some (Live f)) ->
  inv_but (fun g => g ∈ (UdpRegistry.snapshot_live (registry c)).*2 \/ False) g0 (set_registry c r).
Proof.
  intros [] Hb He Hc. split; cbn; rewrite ?He; try done.
  - intros g Hg%referenced_spec. cbn in Hg. rewrite He in Hg. setoid_rewrite lookup_empty in Hg.
    apply iv_alive0, referenced_spec. destruct Hg as [[? ?]|?]; [done|by right].
  - intros g Hg. destruct (iv_held_by0 g Hg) as [Hr|[]]. unfold referenced in Hr.
    apply bool_decide_eq_true, elem_of_app in Hr as [Hr|Hr]; [by right; left|].
    left. apply referenced_spec. by right.
  - intros f [?|Hf]; [auto|]. destruct (Hc f Hf) as [?|[k Hk]]; [auto|].
    apply iv_next0. left. apply iv_alive0, referenced_spec. eauto.
Qed.

Lemma closed_inv g0 c : inv g0 c ->
  inv_but (fun g => g ∈ (queue c ++ armed c).*2 \/ False) g0
    (mkCore (registry c) (flows c) (next_flow c) (limits c) (cold c) [] [] false).
Proof.
  intros []. split; cbn; try done.
  - intros k f Hk. destruct (iv_live0 _ _ Hk). done.
  - constructor.
  - intros g Hg%referenced_spec. apply iv_alive0, referenced_spec. destruct Hg as [?|Hg]; [by left|by apply elem_of_nil in Hg].
  - intros g Hg. destruct (iv_held_by0 g Hg) as [Hr|[]]. apply referenced_spec in Hr as [?|?]; [|by right; left].
    left. apply referenced_spec. by left.
Qed.


(** *** The machine *)

Definition ev_ok (ev : Event) : Prop :=
  match ev with
  | Batch _ bufs => Forall (fun d => payload_ok d.1) bufs /\ (length bufs <= BATCH_SIZE)%nat
  | Datagram _ p _ => payload_ok p
  | Ready _ env => drain_env_ok env
  | Other e => reload_valid e
  | _ => True
  end.

(** An event that can happen: the waits, tasks and commands it is about exist,
    and the limiters a reload refers to. *)
Definition enabled (u : Udp) (ev : Event) : Prop :=
  let c := core u in
  match ev with
  | Cold i _ => is_Some (cold c !! i)
  | AddFlow => queue c <> []
  | Ready i _ => is_Some (armed c !! i)
  | WaitCancelled i => exists k f, armed c !! i = Some (k, f) /\ f ∈ cancelled (registry c)
  | Other e => is_Some (reload (limits c) e)
  | DropRegistry => demux_open c = false /\ cold c = []
  | _ => True
  end.

Lemma drained_registry (r : Registry) : balanced r ->
  balanced (UdpRegistry.drain r) /\ inner (UdpRegistry.drain r) = ∅ /\
  forall f, f ∈ cancelled (UdpRegistry.drain r) -> f ∈ cancelled r \/ exists k, inner r !! k = Some (Live f).
Proof.
  intros Hb. destruct (UdpRegistry.drain_list_spec (map_to_list (inner r)).*1 r Hb) as (Hb' & Hin & Hc).
  split_and!; [done| |].
  - apply map_eq. intros k. unfold UdpRegistry.drain. rewrite Hin, lookup_empty. case_decide as Hk; [done|].
    destruct (inner r !! k) as [s|] eqn:E; [|done]. exfalso. apply Hk, list_elem_of_fmap.
    exists (k, s). by rewrite elem_of_map_to_list.
  - intros f Hf. apply Hc in Hf as [?|(k & _ & Hk)]; eauto.
Qed.

Lemma path_step_inv g0 cfg u ev : inv g0 (core u) -> ev_ok ev -> enabled u ev ->
  safe (step cfg u ev) (fun u' => inv g0 (core u')).
Proof.
  intros Hi Hv He. destruct ev as [env bufs|env p src|i env| |i env|i|now win|e| | |]; cbn [step enabled ev_ok] in *.
  - eapply safe_mono; [by apply (process_batch_sound g0); [|apply Hv..]|]. intros u' Hu. apply Hu.
  - eapply safe_mono; [by apply (handle_datagram_sound g0)|]. intros u' Hu. apply Hu.
  - destruct He as [t Ht]. rewrite Ht. cbn [mbind option_bind]. pose proof (iv_cold _ _ _ Hi) as Hc.
    apply complete_cold_flow_ok.
    + cbn. apply (path_inv_frame _ _ _ _ Hi); try done; [apply pending_change_refl, (iv_bal _ _ _ Hi)|apply (iv_slots _ _ _ Hi)|].
      intros _. cbn. by apply Forall_delete.
    + by apply (Forall_lookup_1 _ _ _ _ Hc Ht).
  - destruct (queue (core u)) as [|kf q] eqn:Eq; [done|]. apply safe_ret. cbn.
    apply (path_inv_frame _ _ _ _ Hi); try done; [apply pending_change_refl, (iv_bal _ _ _ Hi)| |apply (iv_slots _ _ _ Hi)].
    cbn. rewrite Eq, app_assoc, Permutation_app_comm. done.
  - destruct He as [[k f] Ha]. by eapply demux_ready_ok.
  - destruct He as (k & f & Ha & Hc). rewrite Ha. cbn [mbind option_bind]. unfold is_cancelled.
    rewrite (bool_decide_eq_true_2 _ Hc). eapply safe_bind; [by eapply end_wait_ok|]. intros c Hc'. by apply safe_ret.
  - eapply safe_bind; [by apply sweep_once_ok|]. intros c Hc. by apply safe_ret, Hc.
  - destruct He as [w Hw]. rewrite Hw. apply safe_ret. cbn.
    apply (path_inv_frame _ _ _ _ Hi); try done; [apply pending_change_refl, (iv_bal _ _ _ Hi)|].
    eapply held_reload; [apply (iv_slots _ _ _ Hi)|done|done].
  - destruct (drained_registry (registry (core u)) (iv_bal _ _ _ Hi)) as (Hb & Hin & Hc).
    eapply safe_bind; [apply (fold_release_ok (fun _ => False) g0); by apply emptied_inv|].
    intros c (Hc' & _). by apply safe_ret.
  - eapply safe_bind; [apply (fold_release_ok (fun _ => False) g0); by apply closed_inv|].
    intros c (Hc & _). by apply safe_ret.
  - destruct He as [-> ->]. cbn [orb negb length Nat.eqb].
    eapply safe_bind; [apply (fold_release_ok (fun _ => False) g0); apply emptied_inv; [done|done|done|]|].
    + cbn. auto.
    + intros c (Hc & _). by apply safe_ret.
Qed.

Lemma step_enabled cfg u ev u' : step cfg u ev = Some u' -> enabled u ev.
Proof.
  destruct ev as [env bufs|env p src|i env| |i env|i|now win|e| | |]; cbn; try done.
  - intros (t & Ht & _)%bind_Some. eauto.
  - by destruct (queue (core u)).
  - unfold demux_ready. intros (kf & Ha & _)%bind_Some. eauto.
  - intros ([k f] & Ha & Hs)%bind_Some. unfold is_cancelled in Hs. case_bool_decide; [|done]. eauto.
  - intros (w & Hw & _)%bind_Some. eauto.
  - destruct (demux_open (core u)); [done|]. by destruct (cold (core u)).
Qed.

Lemma path_exec_inv g0 cfg u evs u' : inv g0 (core u) -> Forall ev_ok evs -> exec cfg u evs = Some u' -> inv g0 (core u').
Proof.
  intros Hi Hv. revert u Hi. induction Hv as [|ev evs Hev Hv IH]; intros u Hi; cbn [exec]; [by intros [= <-]|].
  intros (u1 & Hs & He)%bind_Some. eapply IH; [|exact He].
  destruct (path_step_inv g0 cfg u ev Hi Hev (step_enabled _ _ _ _ Hs)) as (u1' & E & Hi'). congruence.
Qed.

(** A rule that starts: nothing registered, the limits as they are. *)
Definition start_core (w : World) : Core := mkCore UdpRegistry.new ∅ 0 w [] [] [] true.

Lemma start_inv w : wf_world w -> inv (gauges w) (start_core w).
Proof.
  intros Hw. split; cbn; try done.
  - constructor.
  - intros f [? Hf]. by rewrite lookup_empty in Hf.
  - intros f [[? Hf]|Hf]; [by rewrite lookup_empty in Hf|set_solver].
  - by apply held_start.
Qed.

(** What an ended rule holds. *)
Lemma ended_clean g0 c : inv g0 c -> demux_open c = false -> inner (registry c) = ∅ ->
  flows c = ∅ /\ forall g v, g0 !! g = Some v -> gauges (limits c) !! g = Some v.
Proof.
  intros Hi Ho He. assert (flows c = ∅) as Ef.
  { apply map_eq. intros f. rewrite lookup_empty. apply eq_None_not_Some. intros Hf.
    destruct (iv_held_by _ _ _ Hi f Hf) as [Hr|[]]. apply referenced_spec in Hr as [[k Hk]|Hw].
    - by rewrite He, lookup_empty in Hk.
    - rewrite (iv_closed _ _ _ Hi Ho) in Hw. by apply elem_of_nil in Hw. }
  split; [done|]. intros g v Hg. pose proof (iv_slots _ _ _ Hi) as Hh. rewrite Ef in Hh. by eapply held_released.
Qed.

(** ** Theorems *)

(** C25. The flows of a UDP rule and the connection slots they hold are
    accounted for.  After any sequence of receive batches, single datagrams,
    flow set-ups, demultiplexer turns, sweeps, hot reloads and the steps of
    the shutdown, in any order and with any answers of sockets, resolver and
    clock: every event that can happen succeeds (no index out of range, no
    dangling reference); the occupancy counter is the number of registered
    slots; a registered flow is alive, not cancelled and, while the
    demultiplexer runs, known to it; and once the demultiplexer has ended and
    the registry is empty no flow is left and every connection gauge has its
    value of before. *)
Theorem udp_resources_accounted cfg w t evs u :
  wf_world w -> Forall ev_ok evs -> exec cfg (mkUdp (start_core w) t) evs = Some u ->
  (forall ev, ev_ok ev -> enabled u ev -> is_Some (step cfg u ev)) /\
  UdpRegistry.len (registry (core u)) = wrap_u64 (Z.of_nat (size (inner (registry (core u))))) /\
  (forall k f, UdpRegistry.get (registry (core u)) k = Some f ->
     is_Some (flows (core u) !! f) /\ is_cancelled u f = false /\
     (demux_open (core u) = true -> (k, f) ∈ queue (core u) ++ armed (core u))) /\
  (demux_open (core u) = false -> inner (registry (core u)) = ∅ ->
     flows (core u) = ∅ /\ forall g v, gauges w !! g = Some v -> gauges (limits (core u)) !! g = Some v).
Proof.
  intros Hw Hv He. pose proof (path_exec_inv (gauges w) cfg _ _ _ (start_inv w Hw : inv _ (core (mkUdp (start_core w) t))) Hv He) as Hi. split_and!.
  - intros ev Hev Hen. destruct (path_step_inv _ cfg u ev Hi Hev Hen) as (u' & E & _). eauto.
  - apply (iv_bal _ _ _ Hi).
  - intros k f Hg%get_live. destruct (iv_live _ _ _ Hi k f Hg) as [Hc Hq]. split_and!.
    + apply (iv_alive _ _ _ Hi), referenced_spec. eauto.
    + by apply bool_decide_eq_false.
    + done.
  - by apply ended_clean.
Qed.

End Path.

(** ** Concrete runs *)

Definition demo_cfg : ListenerConfig := mkCfg 7000 4 (Some 7) None [7000].

Definition demo_envelope : RateLimit.RateLimit := RateLimit.mkRateLimit None None None (Some 2) None None None.

Definition demo_limits : World := install empty_world 7 (Some demo_envelope) 0.

Definition demo_tally : @Tally Z :=
  mkTally (Some (Quota.mkHandle 10 false)) (Stats.for_range (PortRange.mkPortRange 7000 7000))
    (mkErrors 0 0 0 0 0 0 0 0 0) None None [] [].

Definition demo_udp : @Udp Z _ _ := mkUdp (start_core demo_limits) demo_tally.

Definition refused : IoError := mkIoError ConnectionRefused (Some ECONNREFUSED).

Definition demo_datagram (answer : option IoError) : @Event Z :=
  Datagram (mkDgram (0, 0) answer 1) [1; 2; 3] 1.

Definition demo_setup : @Event Z :=
  Cold 0 (mkCold (1, 1) (Some [9]) (fun _ => Connected) (1, 1) None 1).

Definition demo_reply (r : Result (list (list Z)) IoError) : @Event Z :=
  Ready 0 (mkDrain r (Ok 2%nat) [] (fun _ => None) (fun _ => (2, 2)) 2).

Definition demo_whole : list (@Event Z) :=
  [demo_datagram None; demo_setup; AddFlow; demo_datagram None; demo_reply (Ok [[4]; [5; 6]]); Sweep 5 60;
   DrainRegistry; WaitCancelled 0; DemuxExit; DropRegistry].

Lemma demo_limits_wf : wf_world demo_limits.
Proof. eapply op_wf; [apply op_install|apply empty_world_wf]. by vm_compute. Qed.

Lemma demo_reply_ok r : (forall ps, r = Ok ps -> Forall payload_ok ps) -> ev_ok (demo_reply r).
Proof. intros Hr. split; cbn; [done|constructor]. Qed.

Lemma demo_whole_ok : Forall ev_ok demo_whole.
Proof.
  unfold demo_whole. rewrite !Forall_cons. split_and!; try done.
  apply demo_reply_ok. intros ps [= <-]. repeat constructor; by vm_compute.
Qed.

Definition demo_ended : @Udp Z _ _ := default demo_udp (exec demo_cfg demo_udp demo_whole).

Lemma demo_whole_runs : exec demo_cfg demo_udp demo_whole = Some demo_ended.
Proof. vm_compute. reflexivity. Qed.

Lemma udp_resources_accounted_witness :
  exec demo_cfg demo_udp demo_whole = Some demo_ended /\
  length (upstream (tally demo_ended)) = 2%nat /\ length (replies (tally demo_ended)) = 2%nat /\
  flows (core demo_ended) = ∅.
Proof.
  destruct (udp_resources_accounted demo_cfg demo_limits demo_tally demo_whole demo_ended demo_limits_wf
    demo_whole_ok demo_whole_runs) as (_ & _ & _ & H).
  split; [exact demo_whole_runs|]. do 2 (split; [vm_compute; reflexivity|]). apply H; vm_compute; reflexivity.
Defined.

(** The evicted flow's wait is still armed when its successor is set up, and
    ends readable instead of cancelled. *)
Definition demo_stale : list (@Event Z) :=
  [demo_datagram None; demo_setup; AddFlow; demo_datagram (Some refused); demo_datagram None; demo_setup;
   demo_reply (Err refused); AddFlow].

Definition demo_orphaned : @Udp Z _ _ := default demo_udp (exec demo_cfg demo_udp demo_stale).

(** A stale wait evicts the flow that replaced its own.  The listener
    evicts a flow on a send error, the next datagram of the source sets up a
    new one under the same key, and the wait of the old flow, cancelled but
    also readable, is drained: its receive error removes the entry of the
    key, which is the new flow's.  The new flow is not cancelled, the
    demultiplexer keeps waiting on it, its connection slot stays taken, and no
    sweep will find it: only the end of the rule frees it. *)
Theorem stale_wait_orphans_flow :
  Forall ev_ok demo_stale /\ exec demo_cfg demo_udp demo_stale = Some demo_orphaned /\
  UdpRegistry.get (registry (core demo_orphaned)) (7000, 1) = None /\
  armed (core demo_orphaned) = [((7000, 1), 1%nat)] /\ is_cancelled demo_orphaned 1 = false /\
  (exists fl gd g, flows (core demo_orphaned) !! 1%nat = Some fl /\ admit_guards fl = [gd] /\
     gauge_of (limits (core demo_orphaned)) gd = Some g /\ gauges (limits (core demo_orphaned)) !! g = Some 1) /\
  forall now idle_window, sweep_once now idle_window (core demo_orphaned) = Some (core demo_orphaned).
Proof.
  split_and!.
  - unfold demo_stale. rewrite !Forall_cons. split_and!; done.
  - vm_compute. reflexivity.
  - vm_compute. reflexivity.
  - vm_compute. reflexivity.
  - vm_compute. reflexivity.
  - eexists (mkFlow 1 9 1 3 0 1 0 [mkGuard 1]), (mkGuard 1), 0%nat. split_and!; vm_compute; reflexivity.
  - intros now win. assert (UdpRegistry.snapshot_live (registry (core demo_orphaned)) = []) as E by (vm_compute; reflexivity).
    unfold sweep_once. by rewrite E.
Qed.

End UdpPath.
