(* ===== verification/UdpBatch.v ===== *)
(** * UdpBatch: what the UDP path sends, counts and bills

    The effect of the handlers of [UdpPath] on the wire, the traffic counters
    and the quota: a batch of received datagrams keeps its order and pays for
    exactly what the kernel took, and the two ways the demultiplexer drains a
    flow do the same. *)

From S2P Require Import Prelude RateLimit TokenBucket RateScope Quota Stats Slots UdpRegistry UdpPath.

Local Open Scope Z_scope.

Module UdpBatch.

Import RateScope Slots UdpError UdpPath.

Section Batch.
Context {Addr : Type} `{Countable Addr}.

Notation FlowKey := (Z * Addr)%type.
Notation Udp := (@UdpPath.Udp Addr _ _).
Notation Tally := (@UdpPath.Tally Addr).
Notation ListenerConfig := UdpPath.ListenerConfig.
Notation Core := (@UdpPath.Core Addr _ _).
Notation Bufs := (@UdpPath.Bufs Addr).
Notation inner := UdpRegistry.inner.
Notation Live := UdpRegistry.Live.

(** ** What a batch sends, counts and bills *)

(** A handle whose flag says what its counter says. *)
Definition q_ok (h : Quota.QuotaHandle) : Prop :=
  0 <= Quota.remaining h <= i64_max /\ (Quota.exhausted h = true -> Quota.remaining h = 0).

(** What is left of the budget, if there is one. *)
Definition budget (t : Tally) (r : Z) : Prop :=
  match quota t with None => True | Some h => q_ok h /\ Quota.remaining h = r end.

Definition metered (t : Tally) : Prop := quota t <> None.

Lemma budget_nonneg t r : budget t r -> metered t -> 0 <= r.
Proof. unfold budget, metered. destruct (quota t); [|done]. intros [[? _] <-] _. lia. Qed.

(** The datagrams [ds] of the flows were sent and counted. *)
Record booked (ds : list (nat * list Z)) (t t' : Tally) : Prop := {
  bk_sent : upstream t' = upstream t ++ ds;
  bk_bytes : Stats.bytes_in (stats t') = wrap_u64 (Stats.bytes_in (stats t) + sum_of (fun d => payload_len d.2) ds);
  bk_count : Stats.datagrams_in (stats t') = wrap_u64 (Stats.datagrams_in (stats t) + Z.of_nat (length ds));
}.

Definition counters_u64 (t : Tally) : Prop :=
  in_u64 (Stats.bytes_in (stats t)) /\ in_u64 (Stats.datagrams_in (stats t)).

Lemma booked_nil t t' : counters_u64 t -> upstream t' = upstream t ->
  Stats.bytes_in (stats t') = Stats.bytes_in (stats t) ->
  Stats.datagrams_in (stats t') = Stats.datagrams_in (stats t) -> booked [] t t'.
Proof.
  intros [H1 H2] E1 E2 E3. split; rewrite ?E1, ?E2, ?E3, ?app_nil_r; [done| |];
    cbn; rewrite Z.add_0_r, wrap_u64_id; done.
Qed.

Lemma booked_app ds ds' t1 t2 t3 : booked ds t1 t2 -> booked ds' t2 t3 -> booked (ds ++ ds') t1 t3.
Proof.
  intros [A1 A2 A3] [B1 B2 B3]. split; rewrite ?B1, ?B2, ?B3, ?A1, ?A2, ?A3.
  - by rewrite app_assoc.
  - rewrite wrap_u64_add, sum_of_app. f_equal. lia.
  - rewrite wrap_u64_add, length_app. f_equal. lia.
Qed.

Lemma booked_u64 ds t t' : booked ds t t' -> counters_u64 t'.
Proof. intros []. split; [rewrite bk_bytes0|rewrite bk_count0]; apply wrap_u64_in. Qed.

(** Changes that are neither traffic nor billing. *)
Record quiet (t t' : Tally) : Prop := {
  qt_sent : upstream t' = upstream t;
  qt_bytes : Stats.bytes_in (stats t') = Stats.bytes_in (stats t);
  qt_count : Stats.datagrams_in (stats t') = Stats.datagrams_in (stats t);
}.

Lemma quiet_booked t t' : counters_u64 t -> quiet t t' -> booked [] t t'.
Proof. intros Hu []. by apply booked_nil. Qed.

Lemma booked_quiet ds t t1 t2 : booked ds t t1 -> quiet t1 t2 -> booked ds t t2.
Proof. intros [] []. split; congruence. Qed.

Lemma quiet_then ds t t1 t2 : quiet t t1 -> booked ds t1 t2 -> booked ds t t2.
Proof. intros [] []. split; congruence. Qed.

Lemma quiet_refl t : quiet t t. Proof. done. Qed.

Lemma inc_quiet c n u : quiet (tally u) (tally (inc c n u)). Proof. done. Qed.

Lemma budget_inc c n u r : budget (tally u) r -> budget (tally (inc c n u)) r. Proof. done. Qed.

Lemma book_in_booked cfg now f p u :
  booked [(f, p)] (tally u) (tally (book_in cfg now f p u)) /\
  quota (tally (book_in cfg now f p u)) = quota (tally u).
Proof. split; [|done]. split; cbn; [done| |done]. by rewrite Z.add_0_r. Qed.

Lemma try_consume_quiet u n : quiet (tally u) (tally (quota_try_consume u n).2).
Proof. unfold quota_try_consume. by repeat case_match. Qed.

Lemma restore_quiet u n : quiet (tally u) (tally (quota_restore u n)).
Proof. unfold quota_restore. by case_match. Qed.

Lemma consume_cases h n : q_ok h -> 0 <= n <= 65535 ->
  let (h', o) := Quota.consume h n in
  q_ok h' /\
  match o with
  | Quota.Granted => Quota.remaining h' = Quota.remaining h - n /\ n <= Quota.remaining h
  | Quota.Exhausted => Quota.remaining h' <= Quota.remaining h /\ (n <= Quota.remaining h -> n = 0 /\ Quota.remaining h' = Quota.remaining h)
  end.
Proof.
  intros [Hr He] Hn. unfold Quota.consume, q_ok, Quota.mark_exhausted. destruct (Quota.exhausted h) eqn:Ex.
  { specialize (He eq_refl). rewrite Ex. split; [tauto|lia]. }
  destruct (Z.leb_spec (Quota.remaining h) 0); cbn [Quota.remaining Quota.exhausted]; [split; lia|].
  destruct (Z.ltb_spec (Quota.remaining h - n) 0), (Z.eqb_spec (Z.max (Quota.remaining h - n) 0) 0);
    cbn [Quota.remaining Quota.exhausted]; rewrite ?Ex; (split; [split; [lia|try done; intros; lia]|lia]).
Qed.

Lemma small_i64 n : 0 <= n <= 65535 -> to_i64_or_max n = n.
Proof. unfold to_i64_or_max. unfold_ints. lia. Qed.

Lemma try_consume_budget u n r b u' : budget (tally u) r -> 0 <= n <= 65535 ->
  quota_try_consume u n = (b, u') ->
  exists r', budget (tally u') r' /\
    (if b then r' = r - n /\ (quota (tally u) <> None -> n <= r)
     else r' <= r /\ (n <= r -> n = 0 /\ r' = r)).
Proof.
  intros Hb Hn. unfold quota_try_consume, budget in *. rewrite small_i64 by done.
  destruct (quota (tally u)) as [h|] eqn:Eq.
  2:{ intros [= <- <-]. exists (r - n). rewrite Eq. done. }
  destruct Hb as [Hq <-]. pose proof (consume_cases h n Hq Hn) as Hc. destruct (Quota.consume h n) as [h' o].
  destruct Hc as [Hq' Hc]. intros [= <- <-]. cbn. exists (Quota.remaining h'). split; [done|].
  destruct o; [split; [lia|intros _; lia]|done].
Qed.

(** A debit within what is left is exact, refused or not. *)
Lemma after_send_budget u n r : budget (tally u) r -> 0 <= n <= 65535 -> (quota (tally u) <> None -> n <= r) ->
  budget (tally (quota_try_consume u n).2) (r - n).
Proof.
  intros Hb Hn Hle. destruct (quota_try_consume u n) as [b u'] eqn:E.
  destruct (try_consume_budget _ _ _ _ _ Hb Hn E) as (r' & Hb' & Hr). cbn.
  unfold quota_try_consume in E. destruct (quota (tally u)) as [h|] eqn:Eq.
  - specialize (Hle ltac:(done)). destruct b; [by destruct Hr as [<- _]|].
    destruct Hr as [_ Hr]. destruct (Hr Hle) as [-> ->]. by rewrite Z.sub_0_r.
  - injection E as <- <-. unfold budget. by rewrite Eq.
Qed.

Lemma restore_budget u n r : budget (tally u) r -> 0 <= n <= 65535 -> (quota (tally u) <> None -> r + n <= i64_max) ->
  budget (tally (quota_restore u n)) (r + n).
Proof.
  intros Hb Hn Hle. unfold quota_restore, budget in *. rewrite small_i64 by done.
  destruct (quota (tally u)) as [h|] eqn:Eq; [|by rewrite Eq]. cbn. destruct Hb as [[Hr He] <-].
  specialize (Hle ltac:(done)). unfold Quota.restore, q_ok. destruct (Z.eqb_spec n 0) as [->|Hne].
  { rewrite Z.add_0_r. done. }
  cbn. assert (Quota.wrap_i64 (Quota.remaining h + n) = Quota.remaining h + n) as ->.
  { unfold Quota.wrap_i64. unfold_ints. rewrite Z.mod_small; lia. }
  unfold clamp_i64. unfold_ints. split; [|done]. split; [lia|].
  destruct (Z.ltb_spec 0 (Z.max (-9223372036854775808) (Z.min (Quota.remaining h + n) 9223372036854775807))); [done|lia].
Qed.



(** *** A run *)

Notation Tagged := (nat * list Z)%type.

Definition bytes_of (ts : list Tagged) : Z := sum_of (fun d => payload_len d.2) ts.
Definition of_flow (f : nat) (ts : list Tagged) : list (nat * list Z) := (fun d => (f, d.2)) <$> ts.

Lemma of_flow_app f a b : of_flow f (a ++ b) = of_flow f a ++ of_flow f b.
Proof. apply fmap_app. Qed.

Lemma bytes_of_nonneg ts : 0 <= bytes_of ts.
Proof. apply sum_of_nonneg. intros x. unfold payload_len. lia. Qed.

Lemma bytes_of_cons t ts : bytes_of (t :: ts) = payload_len t.2 + bytes_of ts.
Proof. done. Qed.

Lemma bytes_of_app a b : bytes_of (a ++ b) = bytes_of a + bytes_of b.
Proof. apply sum_of_app. Qed.

Lemma bytes_of_sublist a b : a `sublist_of` b -> bytes_of a <= bytes_of b.
Proof.
  induction 1 as [|x l1 l2 _ IH|x l1 l2 _ IH]; [done|..]; rewrite ?bytes_of_cons; [lia|].
  unfold payload_len in *. lia.
Qed.

Definition small (ts : list Tagged) : Prop := Forall (fun d => payload_ok d.2) ts.

Lemma small_bound ts p i : small ts -> ts !! i = Some p -> 0 <= payload_len p.2 <= 65535.
Proof. intros Hs Hi. pose proof (Forall_lookup_1 _ _ _ _ Hs Hi) as Hp. unfold payload_ok, payload_len in *. lia. Qed.

Lemma payload_bound p : payload_ok p -> 0 <= payload_len p <= 65535.
Proof. unfold payload_ok, payload_len. lia. Qed.

Definition as_datagrams (src : Addr) (ts : list Tagged) : list (list Z * Addr * Z) :=
  (fun d => (d.2, src, payload_len d.2)) <$> ts.

Lemma fold_book_effect cfg now f src ts u : counters_u64 (tally u) ->
  let u' := foldl (fun u d => book_in cfg now f d.1.1 u) u (as_datagrams src ts) in
  booked (of_flow f ts) (tally u) (tally u') /\ quota (tally u') = quota (tally u).
Proof.
  revert u. induction ts as [|t ts IH]; intros u Hu; cbn zeta; [split; [by apply booked_nil|done]|].
  cbn [as_datagrams fmap list_fmap foldl]. fold (as_datagrams src ts).
  destruct (book_in_booked cfg now f t.2 u) as [Hb Hq]. cbn [fst].
  destruct (IH (book_in cfg now f t.2 u)) as [Hb' Hq']; [by eapply booked_u64|].
  split; [|congruence]. by apply (booked_app [(f, t.2)]  (of_flow f ts)) with (t2 := tally (book_in cfg now f t.2 u)).
Qed.

Lemma restore_metered u n : metered (tally (quota_restore u n)) <-> metered (tally u).
Proof. unfold metered, quota_restore. destruct (quota (tally u)) eqn:E; cbn; [done|by rewrite E]. Qed.

Lemma consume_metered u n : metered (tally (quota_try_consume u n).2) <-> metered (tally u).
Proof.
  unfold metered, quota_try_consume. destruct (quota (tally u)) eqn:E; cbn; [|by rewrite E].
  by destruct (Quota.consume _ _).
Qed.

Lemma restore_all_effect src ts u r : small ts -> budget (tally u) r ->
  (metered (tally u) -> r + bytes_of ts <= i64_max) ->
  let u' := restore_all (as_datagrams src ts) u in
  quiet (tally u) (tally u') /\ (metered (tally u') <-> metered (tally u)) /\ budget (tally u') (r + bytes_of ts).
Proof.
  revert u r. induction ts as [|t ts IH]; intros u r Hs Hb Hm; cbn zeta.
  { split_and!; [done..|]. unfold restore_all, bytes_of. cbn. by rewrite Z.add_0_r. }
  apply Forall_cons in Hs as [Ht Hs]. rewrite bytes_of_cons in *. pose proof (bytes_of_nonneg ts).
  unfold restore_all. cbn [as_datagrams fmap list_fmap foldl]. fold (as_datagrams src ts).
  pose proof (payload_bound _ Ht). cbn [fst snd].
  destruct (IH (quota_restore u (payload_len t.2)) (r + payload_len t.2)) as (Hq & Hme & Hbu).
  - done.
  - apply restore_budget; [done|done|]. unfold metered in Hm. intros Hx. specialize (Hm Hx). lia.
  - rewrite restore_metered. intros Hx. specialize (Hm Hx). lia.
  - unfold restore_all in *. split_and!.
    + destruct (restore_quiet u (payload_len t.2)), Hq. split; congruence.
    + by rewrite Hme, restore_metered.
    + by rewrite Z.add_assoc.
Qed.

(** One accepted send and its debit. *)
Lemma sent_effect cfg now f p u r : counters_u64 (tally u) -> payload_ok p -> budget (tally u) r ->
  (metered (tally u) -> payload_len p <= r) ->
  let u' := (quota_try_consume (book_in cfg now f p u) (payload_len p)).2 in
  booked [(f, p)] (tally u) (tally u') /\ (metered (tally u') <-> metered (tally u)) /\
  budget (tally u') (r - payload_len p).
Proof.
  intros Hu Hp Hb Hm. destruct (book_in_booked cfg now f p u) as [Hbk Hq]. cbn zeta. split_and!.
  - eapply booked_quiet; [exact Hbk|apply try_consume_quiet].
  - rewrite consume_metered. unfold metered. by rewrite Hq.
  - apply after_send_budget; [unfold budget; by rewrite Hq|by apply payload_bound|]. unfold metered in Hm. by rewrite Hq.
Qed.

Lemma send_singles_effect cfg env f src j ts u r : counters_u64 (tally u) -> small ts -> budget (tally u) r ->
  (metered (tally u) -> bytes_of ts <= r) ->
  let u' := send_singles cfg env f j (as_datagrams src ts) u in
  exists del, del `sublist_of` ts /\ booked (of_flow f del) (tally u) (tally u') /\
    (metered (tally u') <-> metered (tally u)) /\ budget (tally u') (r - bytes_of del).
Proof.
  revert j u r. induction ts as [|t ts IH]; intros j u r Hu Hs Hb Hm; cbn zeta.
  { exists []. split_and!; [done|by apply booked_nil|done|]. by rewrite Z.sub_0_r. }
  apply Forall_cons in Hs as [Ht Hs]. rewrite bytes_of_cons in *. pose proof (payload_bound _ Ht).
  cbn [as_datagrams fmap list_fmap send_singles]. fold (as_datagrams src ts). cbn [fst snd].
  unfold send_single, quota_consume_after_send. destruct (singles env j).
  - destruct (IH (S j) (inc CSendDropped 1 u) r) as (del & Hd & Hbk & Hme & Hbu); [done..| |].
    { intros Hx. specialize (Hm Hx). lia. }
    exists del. split_and!; [by apply sublist_cons|by eapply quiet_then; [apply inc_quiet|]|done|done].
  - pose proof (bytes_of_nonneg ts). destruct (sent_effect cfg (flush_now env) f t.2 u r Hu Ht Hb) as (Hbk & Hme & Hbu).
    { intros Hx. specialize (Hm Hx). lia. }
    destruct (IH (S j) _ _ (booked_u64 _ _ _ Hbk) Hs Hbu) as (del & Hd & Hbk' & Hme' & Hbu').
    { rewrite Hme. intros Hx. specialize (Hm Hx). lia. }
    exists (t :: del). split_and!.
    + by apply sublist_skip.
    + by apply (booked_app [(f, t.2)] (of_flow f del) _ _ _ Hbk).
    + by rewrite Hme'.
    + rewrite bytes_of_cons. by rewrite Z.sub_add_distr.
Qed.

Lemma evict_effect (u : Udp) k f u' : evict u k f = Some u' ->
  upstream (tally u') = upstream (tally u) /\ stats (tally u') = stats (tally u) /\ quota (tally u') = quota (tally u).
Proof. unfold evict. intros H1. apply bind_Some in H1 as (c & _ & [= <-]). done. Qed.


Lemma evict_quiet (u : Udp) k f u' r : evict u k f = Some u' ->
  quiet (tally u) (tally u') /\ (metered (tally u') <-> metered (tally u)) /\
  (budget (tally u) r -> budget (tally u') r).
Proof.
  intros E. destruct (evict_effect u k f u' E) as (E1 & E2 & E3). split; [split; congruence|].
  unfold metered, budget. by rewrite E3.
Qed.

Lemma as_datagrams_take src ts n : take n (as_datagrams src ts) = as_datagrams src (take n ts).
Proof. symmetry. apply fmap_take. Qed.

Lemma as_datagrams_drop src ts n : drop n (as_datagrams src ts) = as_datagrams src (drop n ts).
Proof. symmetry. apply fmap_drop. Qed.

Lemma bytes_take_drop n ts : bytes_of ts = bytes_of (take n ts) + bytes_of (drop n ts).
Proof. by rewrite <- bytes_of_app, take_drop. Qed.

(** What a flush does: some of the run is sent, in order, and the debit that
    stands is what was sent. *)
Definition flushed (f : nat) (ts : list Tagged) (r : Z) (u u' : Udp) : Prop :=
  exists del, del `sublist_of` ts /\ booked (of_flow f del) (tally u) (tally u') /\
    (metered (tally u') <-> metered (tally u)) /\ budget (tally u') (r + bytes_of ts - bytes_of del).

(** A flush that sends nothing. *)
Lemma flushed_nothing f src ts r (u u' : Udp) :
  counters_u64 (tally u) -> small ts -> budget (tally u) r -> (metered (tally u) -> r + bytes_of ts <= i64_max) ->
  let u1 := restore_all (as_datagrams src ts) u in
  quiet (tally u1) (tally u') /\ (metered (tally u') <-> metered (tally u1)) /\
  (budget (tally u1) (r + bytes_of ts) -> budget (tally u') (r + bytes_of ts)) ->
  flushed f ts r u u'.
Proof.
  intros Hu Hs Hb Hm u1 (Hq & Hme & Hbu). destruct (restore_all_effect src ts u r Hs Hb Hm) as (Hq1 & Hme1 & Hb1).
  exists []. split_and!.
  - apply sublist_nil_l.
  - eapply booked_quiet; [|exact Hq]. by apply quiet_booked.
  - by rewrite Hme.
  - rewrite Z.sub_0_r. by apply Hbu.
Qed.

Lemma flush_partial cfg env f src ts r sent (u u' : Udp) :
  counters_u64 (tally u) -> small ts -> budget (tally u) r -> (metered (tally u) -> r + bytes_of ts <= i64_max) ->
  (sent < length ts)%nat ->
  (let u1 := foldl (fun u d => book_in cfg (flush_now env) f d.1.1 u) u (as_datagrams src (take sent ts)) in
   let u2 := restore_all (as_datagrams src (drop sent ts)) u1 in
   '(p, s, n) ← as_datagrams src ts !! sent;
   u3 ← send_probe cfg env f p s n u2;
   Some (inc CSendDropped (Z.of_nat (length (as_datagrams src ts) - sent - 1)) u3)) = Some u' ->
  flushed f ts r u u'.
Proof.
  intros Hu Hs Hb Hm Hlt. cbn zeta. destruct (lookup_lt_is_Some_2 ts sent Hlt) as [t Ht].
  assert (as_datagrams src ts !! sent = Some (t.2, src, payload_len t.2)) as ->.
  { unfold as_datagrams. by rewrite list_lookup_fmap, Ht. }
  cbn [mbind option_bind].
  pose proof (bytes_take_drop sent ts) as Hsum. pose proof (bytes_of_nonneg (take sent ts)).
  pose proof (bytes_of_nonneg (drop sent ts)).
  assert (drop sent ts = t :: drop (S sent) ts) as Hdrop by by apply drop_S.
  pose proof (bytes_of_nonneg (drop (S sent) ts)).
  assert (small (drop sent ts)) as Hsd by by apply Forall_drop.
  destruct (fold_book_effect cfg (flush_now env) f src (take sent ts) u Hu) as [Hbk Hq].
  set (u1 := foldl _ u _) in *.
  assert (budget (tally u1) r) as Hb1 by (unfold budget; by rewrite Hq).
  destruct (restore_all_effect src (drop sent ts) u1 r Hsd Hb1) as (Hq2 & Hme2 & Hb2).
  { unfold metered. rewrite Hq. intros Hx. specialize (Hm Hx). lia. }
  set (u2 := restore_all _ u1) in *. assert (metered (tally u2) <-> metered (tally u)) as Hme.
  { rewrite Hme2. unfold metered. by rewrite Hq. }
  pose proof (booked_quiet _ _ _ _ Hbk Hq2) as Hbk2.
  intros (u3 & Hp & [= <-])%bind_Some. rewrite Hdrop, bytes_of_cons in Hsum, Hb2.
  assert (take sent ts `sublist_of` ts) as Htake by apply sublist_take.
  unfold send_probe in Hp. destruct (probe env) as [e|].
  - exists (take sent ts). split; [done|].
    assert (quiet (tally u2) (tally u3) /\ (metered (tally u3) <-> metered (tally u2)) /\
      forall r, budget (tally u2) r -> budget (tally u3) r) as (Hq3 & Hme3 & Hb3).
    { destruct (classify_udp_error e); simplify_eq; try done.
      destruct (evict_quiet _ _ _ _ 0 Hp) as (? & ? & _). split_and!; [done..|]. intros r'. by eapply evict_quiet. }
    split_and!; [|by rewrite <- Hme, <- Hme3|].
    { eapply booked_quiet; [|apply inc_quiet]. by eapply booked_quiet. }
    apply budget_inc, Hb3.
    replace (r + bytes_of ts - bytes_of (take sent ts)) with (r + (payload_len t.2 + bytes_of (drop (S sent) ts))) by lia.
    done.
  - injection Hp as <-. exists (take (S sent) ts). rewrite (take_S_r _ _ _ Ht).
    destruct (sent_effect cfg (flush_now env) f t.2 u2 _ (booked_u64 _ _ _ Hbk2) (Forall_lookup_1 _ _ _ _ Hs Ht) Hb2)
      as (Hbk3 & Hme3 & Hb3).
    { rewrite Hme. intros Hx%(budget_nonneg _ _ Hb). lia. }
    split_and!.
    + rewrite <- (take_S_r _ _ _ Ht). apply sublist_take.
    + eapply booked_quiet; [|apply inc_quiet]. rewrite of_flow_app. by eapply (booked_app _ _ _ _ _ Hbk2).
    + by rewrite <- Hme, <- Hme3.
    + rewrite bytes_of_app, bytes_of_cons. cbn [bytes_of sum_of foldr].
      replace (r + bytes_of ts - _) with (r + (payload_len t.2 + bytes_of (drop (S sent) ts)) - payload_len t.2).
      * by apply budget_inc.
      * cbn. lia.
Qed.


Lemma tagged_datagrams (bufs : Bufs) src ts :
  Forall (fun d => bufs !! d.1 = Some (d.2, src)) ts ->
  run_datagrams bufs ((fun d => (d.1, payload_len d.2)) <$> ts) = Some (as_datagrams src ts).
Proof.
  intros Hf. apply mapM_Some_2, Forall2_fmap_2, Forall_Forall2_diag. eapply Forall_impl; [exact Hf|].
  intros [i p] Hb. cbn [fst snd] in *. by rewrite Hb.
Qed.

Lemma flush_run_effect cfg env (bufs : Bufs) run src ts r (u u' : Udp) :
  entries run = (fun d => (d.1, payload_len d.2)) <$> ts -> Forall (fun d => bufs !! d.1 = Some (d.2, src)) ts ->
  counters_u64 (tally u) -> small ts -> budget (tally u) r -> (metered (tally u) -> r + bytes_of ts <= i64_max) ->
  flush_run cfg env bufs u run = Some u' -> flushed (run_flow run) ts r u u'.
Proof.
  intros E Hf Hu Hs Hb Hm. unfold flush_run. rewrite E, (tagged_datagrams _ _ _ Hf). cbn [mbind option_bind].
  destruct (send_batch env) as [sent|e].
  - rewrite as_datagrams_take, as_datagrams_drop.
    destruct (Nat.ltb_spec sent (length (as_datagrams src ts))) as [Hlt|Hge].
    + unfold as_datagrams in Hlt. rewrite length_fmap in Hlt. by apply flush_partial.
    + unfold as_datagrams in Hge. rewrite length_fmap in Hge. intros [= <-]. rewrite take_ge by done.
      destruct (fold_book_effect cfg (flush_now env) (run_flow run) src ts u Hu) as [Hbk Hq].
      exists ts. unfold metered, budget. rewrite Hq. split_and!; [done|done|done|].
      replace (r + bytes_of ts - bytes_of ts) with r by lia. done.
  - destruct (restore_all_effect src ts u r Hs Hb Hm) as (Hq1 & Hme1 & Hb1). case_decide.
    + intros [= <-]. destruct (send_singles_effect cfg env (run_flow run) src 0 ts (restore_all (as_datagrams src ts) u) (r + bytes_of ts))
        as (del & Hd & Hbk & Hme & Hbu); [by eapply booked_u64, quiet_booked|done|done| |].
      { rewrite Hme1. intros Hx%(budget_nonneg _ _ Hb). lia. }
      exists del. split_and!; [done|by eapply quiet_then|by rewrite Hme|done].
    + intros Hr. apply (flushed_nothing _ src _ _ _ _ Hu Hs Hb Hm). destruct (classify_udp_error e); simplify_eq; try done.
      apply bind_Some in Hr as ([[p s] n] & _ & Hr). by apply (evict_quiet _ _ _ _ (r + bytes_of ts)) in Hr.
Qed.

(** *** A batch *)

Notation Sent := (nat * nat * list Z)%type.   (* slot, flow, payload *)

Definition on_wire (ds : list Sent) : list (nat * list Z) := (fun d => (d.1.2, d.2)) <$> ds.
Definition sent_bytes (ds : list Sent) : Z := sum_of (fun d => payload_len d.2) ds.
Definition slot_bytes (slots : Bufs) : Z := sum_of (fun d => payload_len d.1) slots.

(** The datagram of a slot, to the flow registered for its source in [c]. *)
Definition genuine (cfg : ListenerConfig) (c : Core) (bufs : Bufs) (d : Sent) : Prop :=
  exists src, bufs !! d.1.1 = Some (d.2, src) /\ UdpRegistry.get (registry c) (listen_port cfg, src) = Some d.1.2.

(** The datagrams [ts] of the pending run. *)
Definition pend (cfg : ListenerConfig) (c : Core) (bufs : Bufs) (pending : option PendingRun)
  (ts : list Tagged) : Prop :=
  match pending with
  | None => ts = []
  | Some run => exists src, entries run = (fun d => (d.1, payload_len d.2)) <$> ts /\ small ts /\
      Forall (fun d => bufs !! d.1 = Some (d.2, src)) ts /\
      UdpRegistry.get (registry c) (listen_port cfg, src) = Some (run_flow run)
  end.

Record delivers (cfg : ListenerConfig) (c : Core) (bufs : Bufs) (idx : list nat) (ds : list Sent)
  (u u' : Udp) : Prop := {
  dl_order : (fun d => d.1.1) <$> ds `sublist_of` idx;
  dl_genuine : Forall (genuine cfg c bufs) ds;
  dl_booked : booked (on_wire ds) (tally u) (tally u');
  dl_metered : metered (tally u') <-> metered (tally u);
}.

Lemma delivers_app cfg c bufs i1 i2 ds1 ds2 (u1 u2 u3 : Udp) :
  delivers cfg c bufs i1 ds1 u1 u2 -> delivers cfg c bufs i2 ds2 u2 u3 ->
  delivers cfg c bufs (i1 ++ i2) (ds1 ++ ds2) u1 u3.
Proof.
  intros [] []. split.
  - rewrite fmap_app. by apply sublist_app.
  - by apply Forall_app.
  - unfold on_wire. rewrite fmap_app. by eapply booked_app.
  - by etrans.
Qed.

Lemma delivers_mono cfg c bufs i1 i2 ds (u u' : Udp) : i1 `sublist_of` i2 ->
  delivers cfg c bufs i1 ds u u' -> delivers cfg c bufs i2 ds u u'.
Proof. intros Hs []. split; try done. by etrans. Qed.

Lemma delivers_quiet cfg c bufs idx ds (u u1 u' : Udp) : quiet (tally u) (tally u1) ->
  (metered (tally u1) <-> metered (tally u)) ->
  delivers cfg c bufs idx ds u1 u' -> delivers cfg c bufs idx ds u u'.
Proof. intros Hq Hm []. split; try done; [by eapply quiet_then|by etrans]. Qed.

Lemma sent_bytes_app a b : sent_bytes (a ++ b) = sent_bytes a + sent_bytes b.
Proof. apply sum_of_app. Qed.

Lemma flush_pending_effect cfg env c0 (bufs : Bufs) pending ts r (u u' : Udp) :
  pend cfg c0 bufs pending ts -> counters_u64 (tally u) -> budget (tally u) r ->
  (metered (tally u) -> r + bytes_of ts <= i64_max) ->
  flush_pending cfg env bufs u pending = Some u' ->
  exists ds, delivers cfg c0 bufs ts.*1 ds u u' /\ budget (tally u') (r + bytes_of ts - sent_bytes ds) /\
    0 <= sent_bytes ds <= bytes_of ts.
Proof.
  intros Hp Hu Hb Hm. destruct pending as [run|]; cbn.
  - destruct Hp as (src & E & Hs & Hf & Hg). intros Hfl.
    destruct (flush_run_effect cfg env bufs run src ts r u u' E Hf Hu Hs Hb Hm Hfl) as (del & Hd & Hbk & Hme & Hbu).
    exists ((fun d => (d.1, run_flow run, d.2)) <$> del).
    assert (sent_bytes ((fun d => (d.1, run_flow run, d.2)) <$> del) = bytes_of del) as Es.
    { unfold sent_bytes, bytes_of. by rewrite sum_of_fmap. }
    rewrite Es. pose proof (bytes_of_sublist _ _ Hd). pose proof (bytes_of_nonneg del). split_and!; [|done|done|done].
    split.
    + rewrite <- list_fmap_compose. cbn. by apply fmap_sublist.
    + apply Forall_fmap. apply Forall_forall. intros d Hin. rewrite Forall_forall in Hf.
      exists src. split; [|done]. apply Hf. by eapply elem_of_sublist.
    + unfold on_wire. rewrite <- list_fmap_compose. exact Hbk.
    + done.
  - cbn in Hp. subst ts. intros [= <-]. exists []. cbn. split_and!; [|by replace (r + 0 - 0) with r by lia|done|done].
    split; [done|constructor|by apply booked_nil|done].
Qed.

(** A datagram of no registered flow sends and bills nothing yet. *)
Lemma cold_quiet g0 cfg env (u u' : Udp) p src : inv g0 (core u) ->
  UdpRegistry.get (registry (core u)) (listen_port cfg, src) = None ->
  handle_datagram cfg env u p src = Some u' ->
  quiet (tally u) (tally u') /\ quota (tally u') = quota (tally u).
Proof.
  intros Hi Hg. unfold handle_datagram, cold_admission. rewrite Hg.
  destruct (quota_allows u); cbn [negb]; [|by intros [= <-]].
  pose proof (flow_reserve_spec (rule_cap cfg) (registry (core u)) (listen_port cfg, src) (iv_bal _ _ _ Hi)) as Hsp.
  destruct (UdpRegistry.try_get_or_reserve _ _ _) as [o r]. destruct Hsp as [_ Hex].
  destruct o as [f| | |]; [|by intros [= <-]..].
  exfalso. pose proof (proj1 (Hex f) eq_refl) as Hl. apply get_live in Hl. congruence.
Qed.


(** What the slots from some point on come to: some datagrams of [idx] are
    sent, what is left of the budget and what was sent stay within [total],
    and are all of it when the slots fit the budget. *)
Definition outcome (cfg : ListenerConfig) (c0 : Core) (bufs : Bufs) (idx : list nat) (total : Z) (fits : Prop)
  (u u' : Udp) : Prop :=
  exists ds r, delivers cfg c0 bufs idx ds u u' /\ budget (tally u') r /\
    r + sent_bytes ds <= total /\ (fits -> r + sent_bytes ds = total).

Lemma outcome_after cfg c0 (bufs : Bufs) idx1 idx total1 total (fits1 fits : Prop) (u u1 u' : Udp) :
  quiet (tally u) (tally u1) -> (metered (tally u1) <-> metered (tally u)) ->
  idx1 `sublist_of` idx -> total1 <= total -> (fits -> fits1 /\ total1 = total) ->
  outcome cfg c0 bufs idx1 total1 fits1 u1 u' -> outcome cfg c0 bufs idx total fits u u'.
Proof.
  intros Hq Hm Hs Hle Hfit (ds & r & Hd & Hb & Hr & He). exists ds, r. split_and!; [|done|lia|].
  - eapply delivers_mono; [exact Hs|]. by eapply delivers_quiet.
  - intros [Hf <-]%Hfit. by apply He.
Qed.

Lemma outcome_flushed cfg c0 (bufs : Bufs) idx1 idx2 ds1 total2 total (fits2 fits : Prop) (u u1 u' : Udp) :
  delivers cfg c0 bufs idx1 ds1 u u1 -> total2 + sent_bytes ds1 <= total ->
  (fits -> fits2 /\ total2 + sent_bytes ds1 = total) ->
  outcome cfg c0 bufs idx2 total2 fits2 u1 u' -> outcome cfg c0 bufs (idx1 ++ idx2) total fits u u'.
Proof.
  intros Hd1 Hle Hfit (ds & r & Hd & Hb & Hr & He). exists (ds1 ++ ds), r. rewrite sent_bytes_app.
  split_and!; [by eapply delivers_app|done|lia|]. intros [Hf <-]%Hfit. specialize (He Hf). lia.
Qed.

(** The state before slot [i], with the datagrams [ts] pending and [r] left. *)
Record ready (g0 : gmap nat Z) (cfg : ListenerConfig) (sh : UdpBandwidthShaper) (c0 : Core) (bufs : Bufs) (i : nat)
  (pending : option PendingRun) (ts : list Tagged) (r : Z) (u : Udp) : Prop := {
  rd_inv : inv g0 (core u);
  rd_refs : shaper_refs (limits (core u)) sh;
  rd_pending : pending_ok cfg bufs (core u) i pending;
  rd_live : forall k f, inner (registry (core u)) !! k = Some (Live f) -> inner (registry c0) !! k = Some (Live f);
  rd_pend : pend cfg c0 bufs pending ts;
  rd_counters : counters_u64 (tally u);
  rd_budget : budget (tally u) r;
  rd_bound : metered (tally u) -> r + bytes_of ts <= i64_max;
}.

Section Slots.
Context (g0 : gmap nat Z) (cfg : ListenerConfig) (env : nat -> SlotEnv) (sh : UdpBandwidthShaper) (c0 : Core) (bufs : Bufs).
Context (Hbufs : Forall (fun d => payload_ok d.1) bufs) (Hlen : (length bufs <= BATCH_SIZE)%nat) (Hc0 : inv g0 c0).

Notation ready := (ready g0 cfg sh c0 bufs).
Notation outcome := (outcome cfg c0 bufs).

Lemma ready_step i pending pending1 ts ts1 r r1 (u u1 : Udp) :
  ready i pending ts r u -> step_ok g0 (core u) (core u1) -> counters_u64 (tally u1) ->
  (metered (tally u1) <-> metered (tally u)) -> budget (tally u1) r1 ->
  pending_ok cfg bufs (core u1) (S i) pending1 -> pend cfg c0 bufs pending1 ts1 ->
  r1 + bytes_of ts1 <= r + bytes_of ts -> ready (S i) pending1 ts1 r1 u1.
Proof.
  intros [] H1 Hu Hm Hb Hpo Hp Hle. split; try done.
  - apply H1.
  - eapply refs_kept; [apply H1|done].
  - intros k f Hk. by apply rd_live0, H1.
  - rewrite Hm. intros Hx. specialize (rd_bound0 Hx). lia.
Qed.

(** The rest of the batch, from slot [S i] on. *)
Definition rest_ok (i : nat) (slots : Bufs) (u' : Udp) : Prop :=
  forall (u1 : Udp) pending1 ts1 r1, ready (S i) pending1 ts1 r1 u1 ->
    process_slots cfg env sh bufs u1 pending1 (S i) slots = Some u' ->
    outcome (ts1.*1 ++ seq (S i) (length slots)) (r1 + bytes_of ts1) (slot_bytes slots <= r1) u1 u'.

(** Nothing is sent before the rest. *)
Lemma slot_kept i p src slots pending pending1 ts ts1 r r1 (u u1 u' : Udp) :
  rest_ok i slots u' -> ready i pending ts r u -> step_ok g0 (core u) (core u1) ->
  quiet (tally u) (tally u1) -> (metered (tally u1) <-> metered (tally u)) -> budget (tally u1) r1 ->
  pending_ok cfg bufs (core u1) (S i) pending1 -> pend cfg c0 bufs pending1 ts1 ->
  r1 + bytes_of ts1 <= r + bytes_of ts ->
  (payload_len p + slot_bytes slots <= r -> slot_bytes slots <= r1 /\ r1 + bytes_of ts1 = r + bytes_of ts) ->
  ts1.*1 `sublist_of` ts.*1 ++ [i] ->
  process_slots cfg env sh bufs u1 pending1 (S i) slots = Some u' ->
  outcome (ts.*1 ++ i :: seq (S i) (length slots)) (r + bytes_of ts) (slot_bytes ((p, src) :: slots) <= r) u u'.
Proof.
  intros Hrest Hrd H1 Hq Hm Hb Hpo Hp Hle Hfit Hsub Hrun.
  assert (ready (S i) pending1 ts1 r1 u1) as Hrd1.
  { eapply ready_step; try done. eapply booked_u64, quiet_booked; [apply Hrd|exact Hq]. }
  eapply outcome_after; [exact Hq|exact Hm| |exact Hle|exact Hfit|exact (Hrest _ _ _ _ Hrd1 Hrun)].
  rewrite cons_middle, app_assoc. by apply sublist_app.
Qed.

(** The pending run is flushed before the rest; [n] is what the slot took from
    the budget for a run of its own. *)
Lemma slot_flushed i p src slots pending pending1 ts ts1 r n (u u1 u2 u3 u' : Udp) :
  rest_ok i slots u' -> ready i pending ts r u -> step_ok g0 (core u) (core u1) ->
  quiet (tally u) (tally u1) -> (metered (tally u1) <-> metered (tally u)) -> budget (tally u1) (r - n) ->
  0 <= n <= payload_len p -> bytes_of ts1 = n ->
  flush_pending cfg (s_flush (env i)) bufs u1 pending = Some u2 ->
  step_ok g0 (core u1) (core u3) -> quiet (tally u2) (tally u3) -> quota (tally u3) = quota (tally u2) ->
  pending_ok cfg bufs (core u3) (S i) pending1 -> pend cfg c0 bufs pending1 ts1 -> ts1.*1 `sublist_of` [i] ->
  process_slots cfg env sh bufs u3 pending1 (S i) slots = Some u' ->
  outcome (ts.*1 ++ i :: seq (S i) (length slots)) (r + bytes_of ts) (slot_bytes ((p, src) :: slots) <= r) u u'.
Proof.
  intros Hrest Hrd H1 Hq1 Hm1 Hb1 Hn Hts1 Hf H3 Hq3 Hquota Hpo Hp Hsub Hrun.
  assert (counters_u64 (tally u1)) as Hu1 by (eapply booked_u64, quiet_booked; [apply Hrd|exact Hq1]).
  destruct (flush_pending_effect cfg (s_flush (env i)) c0 bufs pending ts (r - n) u1 u2 (rd_pend _ _ _ _ _ _ _ _ _ _ Hrd) Hu1 Hb1) as (ds & Hd & Hb2 & Hsb);
    [|exact Hf|].
  { rewrite Hm1. intros Hx. apply (rd_bound _ _ _ _ _ _ _ _ _ _ Hrd) in Hx. lia. }
  assert (metered (tally u3) <-> metered (tally u2)) as Hm3 by (unfold metered; by rewrite Hquota).
  pose proof (delivers_quiet _ _ _ _ _ _ _ _ Hq1 Hm1 Hd) as Hd'.
  assert (ready (S i) pending1 ts1 (r - n + bytes_of ts - sent_bytes ds) u3) as Hrd3.
  { eapply (ready_step i pending pending1 ts ts1 r _ u u3); try done.
    - by eapply step_ok_trans.
    - eapply booked_u64, quiet_booked; [eapply booked_u64, (dl_booked _ _ _ _ _ _ _ Hd)|exact Hq3].
    - by rewrite Hm3, (dl_metered _ _ _ _ _ _ _ Hd').
    - unfold budget. by rewrite Hquota.
    - lia. }
  change (slot_bytes ((p, src) :: slots)) with (payload_len p + slot_bytes slots).
  eapply (outcome_flushed _ _ _ _ _ _ _ _ (slot_bytes slots <= r - n + bytes_of ts - sent_bytes ds)); [exact Hd'| | |].
  3:{ eapply outcome_after; [exact Hq3|exact Hm3| |reflexivity|intros Hx; exact (conj Hx eq_refl)|exact (Hrest _ _ _ _ Hrd3 Hrun)].
      by apply (sublist_app _ [i] _ _). }
  - lia.
  - intros Hx. split; lia.
Qed.

(** *** The branches of the loop *)

Lemma cold_slot i p src slots pending ts r (u u' : Udp) :
  rest_ok i slots u' -> ready i pending ts r u -> payload_ok p ->
  UdpRegistry.get (registry (core u)) (listen_port cfg, src) = None ->
  (u1 ← flush_pending cfg (s_flush (env i)) bufs u pending;
   u2 ← handle_datagram cfg (s_dgram (env i)) u1 p src;
   process_slots cfg env sh bufs u2 None (S i) slots) = Some u' ->
  outcome (ts.*1 ++ i :: seq (S i) (length slots)) (r + bytes_of ts) (slot_bytes ((p, src) :: slots) <= r) u u'.
Proof.
  intros Hrest Hrd Hpl Eg (u1 & Hf & (u2 & Hh & Hrun)%bind_Some)%bind_Some.
  pose proof (rd_inv _ _ _ _ _ _ _ _ _ _ Hrd) as Hi.
  destruct (flush_pending_sound g0 cfg (s_flush (env i)) bufs u pending Hi) as (u1' & E1 & H1);
    [intros run E; by apply Hrd|].
  assert (u1' = u1) as -> by congruence.
  destruct (handle_datagram_sound g0 cfg (s_dgram (env i)) u1 p src (so_inv _ _ _ H1) Hpl) as (u2' & E2 & H2).
  assert (u2' = u2) as -> by congruence.
  destruct (cold_quiet g0 cfg (s_dgram (env i)) u1 u2 p src (so_inv _ _ _ H1)) as [Hq Hq']; [|done|].
  { destruct (UdpRegistry.get (registry (core u1)) _) as [f|] eqn:E; [|done].
    apply get_live, H1, get_live in E. congruence. }
  eapply (slot_flushed i p src slots pending None ts [] r 0 u u u1 u2); try done.
  - replace (r - 0) with r by lia. apply Hrd.
  - unfold payload_len. lia.
  - by eapply step_ok_trans.
  - apply sublist_nil_l.
Qed.

Lemma new_pend i p src f (u : Udp) pending ts r :
  ready i pending ts r u -> payload_ok p -> bufs !! i = Some (p, src) ->
  UdpRegistry.get (registry (core u)) (listen_port cfg, src) = Some f ->
  pend cfg c0 bufs (Some (mkRun f [(i, payload_len p)])) [(i, p)].
Proof.
  intros Hrd Hp Hd Hg. exists src. split_and!; [done|by constructor|by constructor|].
  apply get_live, (rd_live _ _ _ _ _ _ _ _ _ _ Hrd). by apply get_live.
Qed.

Lemma bytes_of_one i p : bytes_of [(i, p)] = payload_len p.
Proof. unfold bytes_of. cbn. lia. Qed.

Lemma push_pend i p src run ts : inv g0 c0 -> pend cfg c0 bufs (Some run) ts ->
  UdpRegistry.get (registry c0) (listen_port cfg, src) = Some (run_flow run) ->
  bufs !! i = Some (p, src) -> payload_ok p ->
  pend cfg c0 bufs (Some (mkRun (run_flow run) (entries run ++ [(i, payload_len p)]))) (ts ++ [(i, p)]).
Proof.
  intros Hi (s & E & Hsm & Hf & Hg) Hg' Hd Hp. apply get_live in Hg, Hg'.
  pose proof (iv_inj _ _ _ Hi _ _ _ Hg Hg') as [= ->]. exists src. cbn. rewrite E, fmap_app. split_and!.
  - done.
  - apply Forall_app. split; [done|by constructor].
  - apply Forall_app. split; [done|by constructor].
  - by apply get_live.
Qed.

(** The datagram passed the quota and the shaper: it extends the run, or
    starts one. *)
Lemma admitted_slot i p src f slots pending ts r (u u2 u' : Udp) w :
  rest_ok i slots u' -> ready i pending ts r u -> payload_ok p -> bufs !! i = Some (p, src) ->
  UdpRegistry.get (registry (core u)) (listen_port cfg, src) = Some f ->
  step_ok g0 (core u) (core u2) -> core u2 = set_limits (core u) w ->
  quiet (tally u) (tally u2) -> (metered (tally u2) <-> metered (tally u)) -> budget (tally u2) (r - payload_len p) ->
  match pending with
  | Some run =>
    if decide (run_flow run = f) then
      run ← run_push run i (payload_len p); process_slots cfg env sh bufs u2 (Some run) (S i) slots
    else
      u3 ← flush_run cfg (s_flush (env i)) bufs u2 run;
      process_slots cfg env sh bufs u3 (Some (mkRun f [(i, payload_len p)])) (S i) slots
  | None => process_slots cfg env sh bufs u2 (Some (mkRun f [(i, payload_len p)])) (S i) slots
  end = Some u' ->
  outcome (ts.*1 ++ i :: seq (S i) (length slots)) (r + bytes_of ts) (slot_bytes ((p, src) :: slots) <= r) u u'.
Proof.
  intros Hrest Hrd Hpl Hd Eg H2 Hw Hq2 Hm2 Hb2. pose proof (payload_bound p Hpl) as Hpb.
  pose proof (rd_inv _ _ _ _ _ _ _ _ _ _ Hrd) as Hi. pose proof (new_pend _ _ _ _ _ _ _ _ Hrd Hpl Hd Eg) as Hpn.
  assert (forall u3, step_ok g0 (core u) (core u3) ->
    pending_ok cfg bufs (core u3) (S i) (Some (mkRun f [(i, payload_len p)]))) as Hpo.
  { intros u3 H3 run [= <-]. split; [|cbn; lia]. eapply run_ok_kept; [exact H3|]. by eapply new_run_ok. }
  destruct pending as [run|].
  2:{ pose proof (rd_pend _ _ _ _ _ _ _ _ _ _ Hrd) as Hp. cbn in Hp. subst ts.
      eapply slot_kept; try done; [by apply Hpo|..]; rewrite bytes_of_one; cbn; lia. }
  destruct (rd_pending _ _ _ _ _ _ _ _ _ _ Hrd run eq_refl) as [Hrun Hlr]. case_decide as Ef.
  - unfold run_push. pose proof (lookup_lt_Some _ _ _ Hd).
    destruct (Nat.ltb_spec (length (entries run)) BATCH_SIZE); [|lia]. cbn [mbind option_bind].
    eapply (slot_kept i p src slots _ _ ts (ts ++ [(i, p)]) r (r - payload_len p)); try done; rewrite ?bytes_of_app, ?bytes_of_one; try lia.
    + intros run' [= <-]. cbn. rewrite length_app. cbn. split; [|lia].
      rewrite Ef. eapply push_run_ok; try done; [by eapply run_ok_kept|]. rewrite Hw. cbn. by apply get_live.
    + apply (push_pend i p src); [done|apply Hrd| |done|done].
      apply get_live, (rd_live _ _ _ _ _ _ _ _ _ _ Hrd), get_live. congruence.
    + by rewrite fmap_app.
  - intros (u3 & Hf & Hrun')%bind_Some.
    destruct (flush_run_sound g0 cfg (s_flush (env i)) bufs u2 run (so_inv _ _ _ H2)) as (u3' & E3 & H3); [by eapply run_ok_kept|].
    assert (u3' = u3) as -> by congruence.
    eapply (slot_flushed i p src slots (Some run) _ ts [(i, p)] r (payload_len p) u u2 u3 u3); try done.
    + lia.
    + apply bytes_of_one.
    + apply Hpo. by eapply step_ok_trans.
Qed.

Lemma process_slots_effect slots : forall (u u' : Udp) pending ts i r,
  slots = drop i bufs -> ready i pending ts r u ->
  process_slots cfg env sh bufs u pending i slots = Some u' ->
  outcome (ts.*1 ++ seq i (length slots)) (r + bytes_of ts) (slot_bytes slots <= r) u u'.
Proof.
  induction slots as [|[p src] slots IH]; intros u u' pending ts i r Hs Hrd; cbn [process_slots].
  { intros Hf. destruct Hrd. destruct (flush_pending_effect cfg (s_flush (env i)) c0 bufs pending ts r u u') as (ds & Hd & Hb & Hsb); [done..|].
    exists ds, (r + bytes_of ts - sent_bytes ds). cbn. rewrite app_nil_r. split_and!; [done|done|lia|lia]. }
  destruct (slot_of_drop _ _ _ _ Hs) as [Hd Hs'].
  assert (payload_ok p) as Hpl by by apply (Forall_lookup_1 _ _ _ _ Hbufs Hd). pose proof (payload_bound p Hpl) as Hpb.
  assert (rest_ok i slots u') as Hrest by (intros u1 pending1 ts1 r1 H1 Hrun; by eapply IH).
  pose proof (rd_inv _ _ _ _ _ _ _ _ _ _ Hrd) as Hi.
  destruct (UdpRegistry.get _ _) as [f|] eqn:Eg; [|by apply cold_slot].
  assert (is_cancelled u f = false) as ->.
  { apply bool_decide_eq_false. apply get_live in Eg. by destruct (iv_live _ _ _ Hi _ _ Eg). }
  pose proof (core_try_consume u (payload_len p)) as Ec. pose proof (try_consume_quiet u (payload_len p)) as Hq1.
  pose proof (consume_metered u (payload_len p)) as Hm1.
  destruct (quota_try_consume u (payload_len p)) as [b u1] eqn:Eq. cbn [snd] in Ec, Hq1, Hm1.
  destruct (try_consume_budget _ _ _ _ _ (rd_budget _ _ _ _ _ _ _ _ _ _ Hrd) Hpb Eq) as (r1 & Hb1 & Hcase).
  assert (step_ok g0 (core u) (core u1)) as H1 by (rewrite Ec; by apply step_ok_refl). destruct b.
  2:{ destruct Hcase as [Hle Hex]. eapply slot_kept; try done; [|apply Hrd|lia| |by apply sublist_inserts_r].
      - eapply pending_ok_kept; [exact H1|apply Hrd].
      - intros Hx. assert (0 <= slot_bytes slots) by (apply sum_of_nonneg; intros x; unfold payload_len; lia).
        destruct Hex as [_ ->]; [lia|]. split; lia. }
  destruct Hcase as [-> _].
  destruct (shape_ok g0 sh p (s_nows (env i)) u1) as ([u2 ok] & -> & Ht & H2 & w & Hw);
    [rewrite Ec; apply Hrd|done|rewrite Ec; apply Hrd|].
  cbn [mbind option_bind]. rewrite Ec in H2, Hw. rewrite <- Ht in Hq1, Hm1, Hb1.
  destruct ok; cbn [negb]; [by eapply admitted_slot|].
  eapply (slot_kept i p src slots pending pending ts ts r); try done.
  - cbn. by rewrite core_restore.
  - destruct (restore_quiet u2 (payload_len p)), Hq1. split; cbn; congruence.
  - etrans; [apply (restore_metered u2)|exact Hm1].
  - apply budget_inc. replace r with (r - payload_len p + payload_len p) by lia.
    apply restore_budget; [done|done|]. intros Hx.
    apply Hm1, (rd_bound _ _ _ _ _ _ _ _ _ _ Hrd) in Hx. pose proof (bytes_of_nonneg ts). lia.
  - cbn. rewrite core_restore. eapply pending_ok_kept; [exact H2|apply Hrd].
  - apply Hrd.
  - lia.
  - by apply sublist_inserts_r.
Qed.
End Slots.


(** What a whole batch does. *)
Lemma batch_effect g0 cfg env (bufs : Bufs) (u u' : Udp) r :
  inv g0 (core u) -> Forall (fun d => payload_ok d.1) bufs -> (length bufs <= BATCH_SIZE)%nat ->
  counters_u64 (tally u) -> budget (tally u) r ->
  process_batch cfg env u bufs = Some u' ->
  outcome cfg (core u) bufs (seq 0 (length bufs)) r (slot_bytes bufs <= r) u u'.
Proof.
  intros Hi Hb Hl Hu Hbu Hrun.
  pose proof (process_slots_effect g0 cfg env (shaper cfg (limits (core u)) In) (core u) bufs Hb Hl Hi bufs u u' None [] 0 r) as He.
  cbn in He. rewrite Z.add_0_r in He. apply He; [done| |done]. split; try done.
  - by eapply shaper_ok_refs.
  - cbn. unfold metered, budget in *. destruct (quota (tally u)); [|done]. destruct Hbu as [[? _] <-]. lia.
Qed.

(** C12. A batch of received datagrams is forwarded in order, counted once and
    billed exactly.  Whatever the kernel answers (a full, partial or refused
    batch, single sends, evictions), the datagrams that reach the upstream
    sockets are datagrams of the batch in the order of arrival, each on the
    flow registered for its source; the rule's byte and datagram counters grow
    by exactly those; and with a quota handle whose flag and counter agree,
    what was sent never exceeds what was left, what was sent and what remains
    never exceed it together, and they are all of it when the batch fits the
    budget: nothing debited ahead of a send is lost. *)
Theorem udp_batch_exact g0 cfg env (bufs : Bufs) (u : Udp) h :
  inv g0 (core u) -> Forall (fun d => payload_ok d.1) bufs -> (length bufs <= BATCH_SIZE)%nat ->
  counters_u64 (tally u) -> quota (tally u) = Some h -> q_ok h ->
  exists u' ds h', process_batch cfg env u bufs = Some u' /\
    (fun d => d.1.1) <$> ds `sublist_of` seq 0 (length bufs) /\
    (forall i f p, (i, f, p) ∈ ds -> exists src, bufs !! i = Some (p, src) /\
       UdpRegistry.get (registry (core u)) (listen_port cfg, src) = Some f) /\
    upstream (tally u') = upstream (tally u) ++ ((fun d => (d.1.2, d.2)) <$> ds) /\
    Stats.bytes_in (stats (tally u')) = wrap_u64 (Stats.bytes_in (stats (tally u)) + sent_bytes ds) /\
    Stats.datagrams_in (stats (tally u')) = wrap_u64 (Stats.datagrams_in (stats (tally u)) + Z.of_nat (length ds)) /\
    quota (tally u') = Some h' /\ q_ok h' /\
    Quota.remaining h' + sent_bytes ds <= Quota.remaining h /\
    (slot_bytes bufs <= Quota.remaining h -> Quota.remaining h' + sent_bytes ds = Quota.remaining h).
Proof.
  intros Hi Hb Hl Hu Hq Hok. destruct (process_batch_sound g0 cfg env u bufs Hi Hb Hl) as (u' & Hrun & _).
  destruct (batch_effect g0 cfg env bufs u u' (Quota.remaining h) Hi Hb Hl Hu) as (ds & r & [Ho Hg [] Hm] & Hbu & Hle & Heq);
    [unfold budget; by rewrite Hq|done|].
  assert (exists h', quota (tally u') = Some h' /\ q_ok h' /\ Quota.remaining h' = r) as (h' & Hq' & Hok' & <-).
  { unfold metered, budget in *. destruct (quota (tally u')) as [h'|]; [eauto|]. exfalso. apply Hm; [by rewrite Hq|done]. }
  exists u', ds, h'. unfold on_wire in *. rewrite sum_of_fmap in bk_bytes0. rewrite length_fmap in bk_count0.
  split_and!; try done. intros i f p Hin. rewrite Forall_forall in Hg. exact (Hg _ Hin).
Qed.


(** ** The two drains of a flow *)

(** What one reply's send does, in the per-packet loop. *)
Definition reply_act (env : DrainEnv) (k : FlowKey) (f j : nat) (p : list Z) (u : Udp) : Udp :=
  match reply_one env j with
  | None => book_reply env k f u p
  | Some e => if decide (kind e = WouldBlock) then inc CWouldblock 1 u else u
  end.

Fixpoint send_each (env : DrainEnv) (k : FlowKey) (f j : nat) (ps : list (list Z)) (u : Udp) : Udp :=
  match ps with [] => u | p :: ps => send_each env k f (S j) ps (reply_act env k f j p u) end.

Lemma reply_act_inc env k f j p n (u : Udp) :
  reply_act env k f j p (inc CBandwidthOut n u) = inc CBandwidthOut n (reply_act env k f j p u).
Proof.
  unfold reply_act. destruct (reply_one env j) as [e|].
  - by destruct (decide _).
  - unfold book_reply, quota_consume_after_send, quota_try_consume. cbn.
    destruct (quota (tally u)) as [h|]; [|done]. by destruct (Quota.consume _ _).
Qed.

Lemma reply_act_shape env k f j p sh n nows (u : Udp) :
  shape sh n nows (reply_act env k f j p u) =
  '(u', ok) ← shape sh n nows u; Some (reply_act env k f j p u', ok).
Proof.
  unfold shape. assert (limits (core (reply_act env k f j p u)) = limits (core u)) as ->.
  { unfold reply_act, book_reply. destruct (reply_one env j); [by destruct (decide _)|]. by rewrite core_after_send. }
  destruct (admits _ _ _ _ _) as [[w ok]|]; [|done]. cbn. do 2 f_equal.
  unfold reply_act. destruct (reply_one env j) as [e|]; [by destruct (decide _)|].
  unfold book_reply, quota_consume_after_send, quota_try_consume. cbn.
  destruct (quota (tally u)) as [h|]; [|done]. by destruct (Quota.consume _ _).
Qed.

Lemma admit_after env k f j p sh i ps (u : Udp) :
  admit_replies env sh i ps (reply_act env k f j p u) =
  '(u', kept) ← admit_replies env sh i ps u; Some (reply_act env k f j p u', kept).
Proof.
  revert i u. induction ps as [|q ps IH]; intros i u; cbn [admit_replies]; [done|].
  rewrite reply_act_shape. destruct (shape sh (payload_len q) (out_nows env i) u) as [[u1 ok]|]; [|done].
  cbn [mbind option_bind]. destruct ok; cbn [negb].
  - rewrite IH. by destruct (admit_replies env sh (S i) ps u1) as [[]|].
  - by rewrite <- reply_act_inc, IH.
Qed.

(** Admitting all replies first and then sending is the loop that does both
    for each. *)
Lemma loop_is_batch env k f sh budget i j ps (u u1 : Udp) kept :
  (length ps <= budget)%nat -> admit_replies env sh i ps u = Some (u1, kept) ->
  drain_loop env k f sh budget i j (Ok <$> ps) u = Some (send_each env k f j kept u1).
Proof.
  revert budget i j u u1 kept. induction ps as [|p ps IH]; intros budget i j u u1 kept Hlen Ha.
  { cbn in Ha. simplify_eq. by destruct budget. }
  destruct budget as [|budget]; [cbn in Hlen; lia|]. cbn in Hlen. cbn [fmap list_fmap drain_loop admit_replies] in *.
  destruct (shape sh (payload_len p) (out_nows env i) u) as [[u2 ok]|]; [|done]. cbn [mbind option_bind] in *.
  destruct ok; cbn [negb] in *.
  - apply bind_Some in Ha as ([u3 kept'] & Ha & [= <- <-]). cbn [send_each].
    apply (IH budget (S i) (S j)); [lia|]. change (match reply_one env j with None => book_reply env k f u2 p
      | Some e => if decide (kind e = WouldBlock) then inc CWouldblock 1 u2 else u2 end) with (reply_act env k f j p u2).
    by rewrite admit_after, Ha.
  - apply (IH budget (S i) j); [lia|done].
Qed.

(** A kernel that takes [sent] replies and then has no room. *)
Lemma send_each_prefix env k f sent j ps (u : Udp) :
  (forall i, reply_one env i = if (i <? sent)%nat then None else Some (mkIoError WouldBlock None)) ->
  send_each env k f j ps u =
  Nat.iter (length (drop (sent - j) ps)) (inc CWouldblock 1) (foldl (book_reply env k f) u (take (sent - j) ps)).
Proof.
  intros Hone. revert j u. induction ps as [|p ps IH]; intros j u; [by rewrite drop_nil, take_nil|].
  cbn [send_each]. rewrite IH. unfold reply_act. rewrite Hone.
  destruct (Nat.ltb_spec j sent) as [Hlt|Hge].
  - replace (sent - j)%nat with (S (sent - S j)) by lia. done.
  - replace (sent - S j)%nat with 0%nat by lia. replace (sent - j)%nat with 0%nat by lia.
    rewrite (decide_True (P := kind _ = _)) by done. cbn [take drop foldl length]. by rewrite Nat.iter_succ_r.
Qed.

(** All but the counter of replies that found no room. *)
Definition but_wouldblock (u : Udp) : Udp :=
  on_tally (fun t => mkTally (quota t) (stats t)
    (let e := errors t in mkErrors (upstream_connect_failed e) (icmp_evict e) (emsgsize e) 0 (addflow_dropped e)
       (flows_pending_drops e) (bandwidth_dropped_in e) (bandwidth_dropped_out e) (send_dropped e))
    (owner_acc t) (rule_acc t) (upstream t) (replies t)) u.

Lemma iter_wouldblock n (u : Udp) :
  but_wouldblock (Nat.iter n (inc CWouldblock 1) u) = but_wouldblock u /\
  (in_u64 (wouldblock (errors (tally u))) ->
   wouldblock (errors (tally (Nat.iter n (inc CWouldblock 1) u))) = wrap_u64 (wouldblock (errors (tally u)) + Z.of_nat n)).
Proof.
  induction n as [|n [IH1 IH2]]; [split; [done|]; intros Hu; by rewrite Z.add_0_r, wrap_u64_id|].
  rewrite Nat.iter_succ. split; [by rewrite <- IH1|]. intros Hu. cbn.
  rewrite IH2, wrap_u64_add by done. f_equal. lia.
Qed.

Lemma book_replies_wouldblock env k f ps (u : Udp) :
  errors (tally (foldl (book_reply env k f) u ps)) = errors (tally u).
Proof.
  revert u. induction ps as [|p ps IH]; intros u; [done|]. cbn [foldl]. rewrite IH.
  unfold book_reply, quota_consume_after_send, quota_try_consume. cbn. by repeat case_match.
Qed.

Lemma admit_wouldblock env sh i ps (u u' : Udp) kept : admit_replies env sh i ps u = Some (u', kept) ->
  wouldblock (errors (tally u')) = wouldblock (errors (tally u)).
Proof.
  revert i u kept. induction ps as [|p ps IH]; intros i u kept; cbn [admit_replies]; [by intros [= <- _]|].
  intros ([u1 ok] & Hs & Ha)%bind_Some. assert (tally u1 = tally u) as <-.
  { unfold shape in Hs. by apply bind_Some in Hs as ([w ok'] & _ & [= <- _]). }
  destruct ok; cbn [negb] in Ha; [|by rewrite (IH _ _ _ Ha)].
  apply bind_Some in Ha as ([u2 kept'] & Ha & [= <- _]). by eapply IH.
Qed.

(** The batched drain of a flow does what the per-packet loop does.  For
    the same waiting replies, the same clock readings of the shaper and a
    kernel that takes the first [sent] of what it is given, both ways admit
    the same replies, send the same prefix to the client, count and bill the
    same bytes and leave the same flows and limits; they differ in one
    counter alone: a short batch counts one dropped reply, the loop counts
    each. *)
Theorem reply_drains_equivalent g0 cfg env (k : FlowKey) f sh ps sent (u : Udp) :
  inv g0 (core u) -> shaper_refs (limits (core u)) sh -> Forall payload_ok ps ->
  ps <> [] -> (length ps <= DEMUX_FAIRNESS_BUDGET)%nat -> k.1 ∈ listener_sockets cfg ->
  in_u64 (wouldblock (errors (tally u))) ->
  recv_batch env = Ok ps -> recvs env = Ok <$> ps -> reply_batch env = Ok sent ->
  (forall j, reply_one env j = if (j <? sent)%nat then None else Some (mkIoError WouldBlock None)) ->
  exists u0 u1 u2 kept, admit_replies env sh 0 ps u = Some (u0, kept) /\
    drain_one_flow_batched cfg env k f sh u = Some (u1, true) /\ drain_one_flow cfg env k f sh u = Some u2 /\
    but_wouldblock u1 = but_wouldblock u2 /\
    wouldblock (errors (tally u1)) =
      wrap_u64 (wouldblock (errors (tally u)) + (if (sent <? length kept)%nat then 1 else 0)) /\
    wouldblock (errors (tally u2)) = wrap_u64 (wouldblock (errors (tally u)) + Z.of_nat (length kept - sent)).
Proof.
  intros Hi Hr Hp Hne Hlen Hport Hu Hrb Hrs Hsb Hone.
  destruct (admit_replies_ok g0 env sh 0 ps u Hi Hr Hp) as ([u0 kept] & Ha & _).
  assert (wouldblock (errors (tally u0)) = wouldblock (errors (tally u))) as Ew by by eapply admit_wouldblock.
  unfold drain_one_flow_batched, drain_one_flow, forward_reply_batch.
  rewrite (bool_decide_eq_true_2 _ Hport), Hrb, Hrs, Ha, Hsb. cbn [negb mbind option_bind].
  rewrite (loop_is_batch env k f sh _ 0 0 ps u u0 kept Hlen Ha), (send_each_prefix env k f sent 0 kept u0 Hone), Nat.sub_0_r.
  set (ub := foldl (book_reply env k f) u0 (take sent kept)).
  assert (errors (tally ub) = errors (tally u0)) as Eb by apply book_replies_wouldblock.
  destruct (iter_wouldblock (length (drop sent kept)) ub) as [I1 I2]. rewrite Eb, Ew in I2.
  rewrite length_drop in *. destruct ps as [|p ps]; [done|].
  exists u0, (match kept with [] => u0 | _ => if (sent <? length kept)%nat then inc CWouldblock 1 ub else ub end).
  eexists _, kept. split; [done|]. split; [by destruct kept|]. split; [done|]. rewrite I1, I2 by done.
  destruct kept as [|q kept']; [subst ub; rewrite take_nil; cbn; split_and!; try done; by rewrite Ew, Z.add_0_r, wrap_u64_id|].
  destruct (Nat.ltb_spec sent (length (q :: kept'))) as [Hlt|Hge]; split_and!; try done; cbn [errors tally inc on_tally count wouldblock].
  - by rewrite Eb, Ew.
  - by rewrite Eb, Ew, Z.add_0_r, wrap_u64_id.
Qed.

(** ** Where the path drops or forwards more than it says *)

(** A datagram too large for the path, at the head of a run, takes the run
    with it: [sendmmsg] fails on the first datagram, so the whole run is
    dropped although the others were not tried, one oversized datagram is
    counted, and the others are in no counter. *)
Theorem oversized_head_drops_run cfg env (bufs : Bufs) c run (u : Udp) e :
  run_ok cfg bufs c run -> send_batch env = Err e -> classify_udp_error e = MessageTooLarge ->
  exists u', flush_run cfg env bufs u run = Some u' /\
    upstream (tally u') = upstream (tally u) /\ stats (tally u') = stats (tally u) /\
    errors (tally u') = count CEmsgsize 1 (errors (tally u)).
Proof.
  intros (_ & src & _ & Hes) Hs He. destruct (run_datagrams_spec _ _ _ Hes) as (ds & E & _).
  unfold flush_run. rewrite E, Hs. cbn [mbind option_bind]. rewrite decide_False by (intros Hk; unfold classify_udp_error in He; by rewrite Hk in He).
  rewrite He. assert (forall ds (u : Udp), upstream (tally (restore_all ds u)) = upstream (tally u) /\
    stats (tally (restore_all ds u)) = stats (tally u) /\ errors (tally (restore_all ds u)) = errors (tally u)) as Hr.
  { clear. induction ds as [|d ds IH]; intros u; [done|]. unfold restore_all in *. cbn [foldl].
    destruct (IH (quota_restore u d.2)) as (-> & -> & ->). unfold quota_restore. by destruct (quota (tally u)). }
  destruct (Hr ds u) as (E1 & E2 & E3). eexists. split; [done|]. cbn. by rewrite E1, E2, E3.
Qed.

Lemma book_replies_sent env k f ps (u : Udp) :
  replies (tally (foldl (book_reply env k f) u ps)) = replies (tally u) ++ ((fun p => (k, p)) <$> ps).
Proof.
  revert u. induction ps as [|p ps IH]; intros u; cbn [foldl fmap list_fmap]; [by rewrite app_nil_r|].
  rewrite IH. unfold book_reply, quota_consume_after_send, quota_try_consume. cbn.
  destruct (quota (tally u)) as [h|]; [destruct (Quota.consume _ _)|]; cbn; by rewrite <- app_assoc.
Qed.

Lemma admit_uncapped env sh i ps (u : Udp) : sh_has_cap sh = false -> admit_replies env sh i ps u = Some (u, ps).
Proof.
  intros Hc. revert i. induction ps as [|p ps IH]; intros i; cbn [admit_replies]; [done|].
  unfold shape, admits. rewrite Hc. cbn. assert (on_core (fun c => set_limits c (limits (core u))) u = u) as ->.
  { by destruct u as [[] ?]. }
  by rewrite IH.
Qed.

(** An exhausted quota does not stop the replies.  With the budget spent
    the listener drops every datagram of an established flow, but the
    demultiplexer never asks: it forwards all the replies of the flow and
    counts them, and the spent handle stays as it is. *)
Theorem exhausted_quota_still_replies g0 cfg denv env p src (u : Udp) (k : FlowKey) f h sh ps :
  inv g0 (core u) -> quota (tally u) = Some h -> Quota.exhausted h = true ->
  UdpRegistry.get (registry (core u)) (listen_port cfg, src) = Some f ->
  sh_has_cap sh = false -> ps <> [] -> reply_batch env = Ok (length ps) ->
  handle_datagram cfg denv u p src = Some u /\
  exists u', forward_reply_batch env k f sh ps u = Some u' /\
    replies (tally u') = replies (tally u) ++ ((fun p => (k, p)) <$> ps) /\ quota (tally u') = Some h.
Proof.
  intros Hi Hq Hex Hg Hc Hne Hb. split.
  - unfold handle_datagram. rewrite Hg. assert (is_cancelled u f = false) as ->.
    { apply bool_decide_eq_false. apply get_live in Hg. by destruct (iv_live _ _ _ Hi _ _ Hg). }
    unfold forward_existing, quota_allows. by rewrite Hq, Hex.
  - unfold forward_reply_batch. rewrite (admit_uncapped _ _ _ _ _ Hc). cbn [mbind option_bind]. rewrite Hb.
    destruct ps as [|q ps]; [done|]. rewrite Nat.ltb_irrefl, firstn_all. eexists. split; [done|].
    split; [apply book_replies_sent|]. generalize (q :: ps). intros l. revert u Hi Hq Hg.
    assert (forall l (u : Udp), quota (tally u) = Some h -> quota (tally (foldl (book_reply env k f) u l)) = Some h) as Hkeep; [|eauto].
    clear -Hex. induction l as [|x l IH]; intros u Hq; [done|]. cbn [foldl]. apply IH.
    unfold book_reply, quota_consume_after_send, quota_try_consume. cbn. rewrite Hq.
    unfold Quota.consume. by rewrite Hex.
Qed.

End Batch.

(** ** Concrete runs *)

(** One registered flow, its wait armed. *)
Definition demo_before : list (@Event Z) := [demo_datagram None; demo_setup; AddFlow].

Definition demo_flow : @Udp Z _ _ := default demo_udp (exec demo_cfg demo_udp demo_before).

Lemma demo_flow_runs : exec demo_cfg demo_udp demo_before = Some demo_flow.
Proof. vm_compute. reflexivity. Qed.

Lemma demo_flow_inv : inv (gauges demo_limits) (core demo_flow).
Proof.
  apply (path_exec_inv (gauges demo_limits) demo_cfg demo_udp demo_before); [apply start_inv, demo_limits_wf| |exact demo_flow_runs].
  unfold demo_before. rewrite !Forall_cons. split_and!; done.
Qed.

(** Seven bytes are left; the kernel takes one datagram of the batch and has
    no room for the next. *)
Definition demo_batch : @Bufs Z := [([1; 2], 1); ([3; 4], 1); ([5], 2)].

Definition demo_slot (i : nat) : SlotEnv :=
  mkSlotEnv (mkFlush (Ok 1%nat) (Some (mkIoError WouldBlock None)) (fun _ => None) 2)
    (mkDgram (0, 0) None 2) (0, 0).

Lemma udp_batch_exact_witness :
  slot_bytes demo_batch = 5 /\
  exists u' ds h', process_batch demo_cfg demo_slot demo_flow demo_batch = Some u' /\
    quota (tally u') = Some h' /\ Quota.remaining h' + sent_bytes ds = 7.
Proof.
  split; [reflexivity|].
  destruct (udp_batch_exact (gauges demo_limits) demo_cfg demo_slot demo_batch demo_flow (Quota.mkHandle 7 false) demo_flow_inv)
    as (u' & ds & h' & H1 & _ & _ & _ & _ & _ & H7 & _ & _ & H10).
  - repeat constructor; by vm_compute.
  - apply Nat.leb_le. reflexivity.
  - split; split; apply Z.leb_le; vm_compute; reflexivity.
  - vm_compute. reflexivity.
  - split; [split; apply Z.leb_le; reflexivity|done].
  - exists u', ds, h'. split; [exact H1|]. split; [exact H7|]. apply H10. apply Z.leb_le. reflexivity.
Defined.

(** Three replies, of which the kernel takes one. *)
Definition demo_replies : list (list Z) := [[1]; [2]; [3]].

Definition demo_drain_env : DrainEnv :=
  mkDrain (Ok demo_replies) (Ok 1%nat) (Ok <$> demo_replies)
    (fun j => if (j <? 1)%nat then None else Some (mkIoError WouldBlock None)) (fun _ => (0, 0)) 3.

Lemma reply_drains_equivalent_witness :
  exists u1 u2, drain_one_flow_batched demo_cfg demo_drain_env (7000, 1) 0 (shaper demo_cfg (limits (core demo_flow)) Out)
      demo_flow = Some (u1, true) /\
    drain_one_flow demo_cfg demo_drain_env (7000, 1) 0 (shaper demo_cfg (limits (core demo_flow)) Out) demo_flow = Some u2 /\
    but_wouldblock u1 = but_wouldblock u2.
Proof.
  destruct (reply_drains_equivalent (gauges demo_limits) demo_cfg demo_drain_env (7000, 1) 0
    (shaper demo_cfg (limits (core demo_flow)) Out) demo_replies 1 demo_flow demo_flow_inv)
    as (u0 & u1 & u2 & kept & _ & H1 & H2 & H3 & _).
  - apply (shaper_ok_refs (gauges demo_limits)), demo_flow_inv.
  - repeat constructor; by vm_compute.
  - done.
  - vm_compute. lia.
  - left.
  - split; apply Z.leb_le; vm_compute; reflexivity.
  - done.
  - done.
  - done.
  - done.
  - by exists u1, u2.
Defined.

Definition too_large : IoError := mkIoError OtherKind (Some EMSGSIZE).

Definition demo_run : PendingRun := mkRun 0 [(0%nat, 2); (1%nat, 2)].

Lemma demo_run_ok : run_ok demo_cfg demo_batch (core demo_flow) demo_run.
Proof.
  split; [done|]. exists 1. split.
  - apply (get_at_key (gauges demo_limits)); [apply demo_flow_inv|]. vm_compute. reflexivity.
  - repeat constructor; eexists; (split; [reflexivity|]); (split; [reflexivity|]); apply Z.leb_le; reflexivity.
Qed.

Lemma oversized_head_drops_run_witness :
  length (entries demo_run) = 2%nat /\
  exists u', flush_run demo_cfg (mkFlush (Err too_large) None (fun _ => None) 2) demo_batch demo_flow demo_run = Some u' /\
    errors (tally u') = count CEmsgsize 1 (errors (tally demo_flow)).
Proof.
  split; [done|].
  destruct (oversized_head_drops_run demo_cfg (mkFlush (Err too_large) None (fun _ => None) 2) demo_batch (core demo_flow)
    demo_run demo_flow too_large demo_run_ok eq_refl eq_refl) as (u' & H1 & _ & _ & H2).
  by exists u'.
Defined.

Definition demo_spent : @Udp Z _ _ := on_tally (fun t => set_quota t (Some (Quota.mkHandle 0 true))) demo_flow.

Lemma exhausted_quota_still_replies_witness :
  exists u', forward_reply_batch (mkDrain (Ok demo_replies) (Ok 3%nat) [] (fun _ => None) (fun _ => (0, 0)) 3)
      (7000, 1) 0 (mkShaper None None Out false) demo_replies demo_spent = Some u' /\
    replies (tally u') = replies (tally demo_spent) ++ ((fun p => ((7000, 1), p)) <$> demo_replies).
Proof.
  destruct (exhausted_quota_still_replies (gauges demo_limits) demo_cfg (mkDgram (0, 0) None 2)
    (mkDrain (Ok demo_replies) (Ok 3%nat) [] (fun _ => None) (fun _ => (0, 0)) 3) [1] 1 demo_spent (7000, 1) 0
    (Quota.mkHandle 0 true) (mkShaper None None Out false) demo_replies demo_flow_inv eq_refl eq_refl)
    as [_ (u' & H1 & H2 & _)].
  - vm_compute. reflexivity.
  - done.
  - done.
  - done.
  - by exists u'.
Defined.

End UdpBatch.
