(* ===== verification/UdpSupervisor.v ===== *)
(** * UdpSupervisor: starting and stopping the tasks of a UDP rule

    [crates/portunus-forwarder/src/forwarder/]: the supervisor of a rule's
    tasks ([udp/runtime.rs]) and the run around it that binds, reports and
    waits ([run_udp] of [mod.rs]).

    The listeners, the reaper, the stats pump and the demultiplexer are tasks
    of a [JoinSet]; what they do to flows and counters is the machine of
    [UdpPath].  An event is one step of one party: a task returning or
    panicking, the supervisor joining one or moving on, the run taking a branch
    of its [select!], or an event of the data path. *)

From S2P Require Import Prelude Text PortRange RateLimit TokenBucket RateScope Quota Stats Slots.
From S2P Require Import UdpRegistry RuleRun UdpPath.

Local Open Scope Z_scope.

Module UdpSupervisor.

Import RateScope Slots UdpError UdpPath.

(** ** Parameters of a rule *)

Definition UDP_MAX_FLOWS_DEFAULT : Z := 1024.
Definition UDP_FLOW_IDLE_SECS_DEFAULT : Z := 60.

Definition resolve_udp_cap (welcome_value : Z) : Z :=
  if welcome_value =? 0 then UDP_MAX_FLOWS_DEFAULT else welcome_value.

(** In seconds. *)
Definition resolve_udp_idle_window (welcome_value : Z) : Z :=
  if welcome_value =? 0 then UDP_FLOW_IDLE_SECS_DEFAULT else welcome_value.

Definition port_map (port : Z) (listen target : PortRange.PortRange) : option Z :=
  let offset := port - PortRange.start listen in
  if offset <? 0 then None
  else
    let target_port := PortRange.start target + offset in
    if u16_max <? target_port then None
    else if target_port <=? PortRange.end_ target then Some target_port else None.

(** ** Tasks *)

Inductive State : Type := Running | ShuttingDownIntentional | ShuttingDownAfterFailure.

Inductive Role : Type := Listener (port : Z) | Demux | Reaper | StatsPump.

#[global] Instance State_eq_dec : EqDecision State.
Proof. solve_decision. Defined.

#[global] Instance Role_eq_dec : EqDecision Role.
Proof. solve_decision. Defined.

Definition label (r : Role) : list Z :=
  match r with
  | Listener p => lit "Listener(" ++ dec p ++ lit ")"
  | Demux => lit "Demux"
  | Reaper => lit "Reaper"
  | StatsPump => lit "StatsPump"
  end.

Inductive ShutdownOutcome : Type :=
| OutcomeOk
| UnexpectedExitsDuringDrain (roles : list (list Z)) (count : nat).

Record RoleMarkers : Type := mkMarkers {
  listener_cancelled : bool;
  reaper_cancelled : bool;
  demux_shutdown_sent : bool;
  stats_pump_cancelled : bool;
}.

Definition is_role_cancelled (m : RoleMarkers) (r : Role) : bool :=
  match r with
  | Listener _ => listener_cancelled m
  | Reaper => reaper_cancelled m
  | Demux => demux_shutdown_sent m
  | StatsPump => stats_pump_cancelled m
  end.

(** The per-role counters of tasks not joined yet. *)
Record Pending : Type := mkPending {
  listener_pending : nat;
  demux_pending : bool;
  reaper_pending : bool;
  stats_pump_pending : bool;
}.

(** What [join_next] yields: the role of a task that returned, or the text of
    the [JoinError] of one that panicked. *)
Definition Joined : Type := Result Role (list Z).

Definition decrement_pending (p : Pending) (res : Joined) : Pending :=
  match res with
  | Ok (Listener _) => mkPending (listener_pending p - 1) (demux_pending p) (reaper_pending p) (stats_pump_pending p)
  | Ok Demux => mkPending (listener_pending p) false (reaper_pending p) (stats_pump_pending p)
  | Ok Reaper => mkPending (listener_pending p) (demux_pending p) false (stats_pump_pending p)
  | Ok StatsPump => mkPending (listener_pending p) (demux_pending p) (reaper_pending p) false
  | Err _ => p
  end.

Definition classify_drain_result (m : RoleMarkers) (res : Joined) (unexpected : list (list Z)) : list (list Z) :=
  match res with
  | Ok role => if is_role_cancelled m role then unexpected else unexpected ++ [label role]
  | Err _ => unexpected ++ [lit "Unknown"]
  end.

(** Where [Supervisor::run] is: the [select!] of phase A, one of the loops that
    join tasks, the send of the shutdown command, or past the end. *)
Inductive Stage : Type := DrainPump | DrainListeners | DrainReaper | DrainDemux | Leftovers.

Inductive Phase : Type := Selecting | Draining (st : Stage) | Sending | Finished.

Record Supervisor : Type := mkSupervisor {
  state : State;
  phase : Phase;
  rule_cancel : bool;
  listener_token : bool;
  reaper_token : bool;
  stats_pump_token : bool;
  markers : RoleMarkers;
  pending : Pending;
  unexpected_during_drain : list (list Z);
}.

Inductive TaskState : Type := Alive | Returned | Panicked (join_error : list Z).

(** Why the run left its [select!]: the token, a supervisor failure, or no
    receiver for its status. *)
Inductive Reason : Type := ByCancel | ByFailure (reason : list Z) | ReceiverGone.

Inductive RunUdp : Type := Waiting | Closing (r : Reason) | Ended.

#[global] Instance TaskState_eq_dec : EqDecision TaskState.
Proof. solve_decision. Defined.

#[global] Instance RunUdp_eq_dec : EqDecision RunUdp.
Proof. unfold EqDecision, Decision. decide equality. decide equality. apply list_eq_dec. Defined.

Section System.
Context {Addr : Type} `{Countable Addr}.

Notation Udp := (@UdpPath.Udp Addr _ _).
Notation Event := (@UdpPath.Event Addr).
Notation Core := (@UdpPath.Core Addr _ _).

(** [shutdown_ahead]: [DemuxCommand::Shutdown] is in the demultiplexer's
    channel, behind that many commands (the place it takes in the channel is
    not counted against later ones).  [failed_rx] is the channel the callback
    fills, [callbacks] all its calls. *)
Record Sys : Type := mkSys {
  sup : Supervisor;
  tasks : list (Role * TaskState);
  path : Udp;
  shutdown_ahead : option nat;
  shutdown_rx : bool;
  completion : option ShutdownOutcome;
  failed_rx : option (list Z);
  callbacks : list (list Z);
  run : RunUdp;
  status : list RuleRun.RuleStatusEvent;
}.

Definition with_sup (s : Sys) (p : Supervisor) : Sys :=
  mkSys p (tasks s) (path s) (shutdown_ahead s) (shutdown_rx s) (completion s) (failed_rx s) (callbacks s) (run s) (status s).

Definition with_tasks (s : Sys) (ts : list (Role * TaskState)) : Sys :=
  mkSys (sup s) ts (path s) (shutdown_ahead s) (shutdown_rx s) (completion s) (failed_rx s) (callbacks s) (run s) (status s).

Definition with_path (s : Sys) (u : Udp) (ahead : option nat) : Sys :=
  mkSys (sup s) (tasks s) u ahead (shutdown_rx s) (completion s) (failed_rx s) (callbacks s) (run s) (status s).

Definition with_run (s : Sys) (r : RunUdp) (rx : bool) (st : list RuleRun.RuleStatusEvent) : Sys :=
  mkSys (sup s) (tasks s) (path s) (shutdown_ahead s) rx (completion s) (failed_rx s) (callbacks s) r st.

(** ** The supervisor *)

Definition set_phase (p : Supervisor) (ph : Phase) : Supervisor :=
  mkSupervisor (state p) ph (rule_cancel p) (listener_token p) (reaper_token p) (stats_pump_token p) (markers p)
    (pending p) (unexpected_during_drain p).

(** Leaving phase A: the pump's token and its marker. *)
Definition begin_drain (p : Supervisor) (st : State) (rule_cancel : bool) (pend : Pending) : Supervisor :=
  mkSupervisor st (Draining DrainPump) rule_cancel (listener_token p) (reaper_token p) true
    (mkMarkers (listener_cancelled (markers p)) (reaper_cancelled (markers p)) (demux_shutdown_sent (markers p)) true)
    pend (unexpected_during_drain p).

Definition cancel_listeners (p : Supervisor) : Supervisor :=
  mkSupervisor (state p) (Draining DrainListeners) (rule_cancel p) true (reaper_token p) (stats_pump_token p)
    (mkMarkers true (reaper_cancelled (markers p)) (demux_shutdown_sent (markers p)) (stats_pump_cancelled (markers p)))
    (pending p) (unexpected_during_drain p).

Definition cancel_reaper (p : Supervisor) : Supervisor :=
  mkSupervisor (state p) (Draining DrainReaper) (rule_cancel p) (listener_token p) true (stats_pump_token p)
    (mkMarkers (listener_cancelled (markers p)) true (demux_shutdown_sent (markers p)) (stats_pump_cancelled (markers p)))
    (pending p) (unexpected_during_drain p).

Definition mark_shutdown_sent (p : Supervisor) : Supervisor :=
  mkSupervisor (state p) (Draining DrainDemux) (rule_cancel p) (listener_token p) (reaper_token p) (stats_pump_token p)
    (mkMarkers (listener_cancelled (markers p)) (reaper_cancelled (markers p)) true (stats_pump_cancelled (markers p)))
    (pending p) (unexpected_during_drain p).

(** One turn of a drain loop. *)
Definition drain_result (p : Supervisor) (res : Joined) : Supervisor :=
  mkSupervisor (state p) (phase p) (rule_cancel p) (listener_token p) (reaper_token p) (stats_pump_token p) (markers p)
    (decrement_pending (pending p) res) (classify_drain_result (markers p) res (unexpected_during_drain p)).

Definition joined (t : Role * TaskState) : option Joined :=
  match t.2 with Alive => None | Returned => Some (Ok t.1) | Panicked je => Some (Err je) end.

(** The condition of the loop that drains a stage. *)
Definition waits_for (p : Pending) (st : Stage) : bool :=
  match st with
  | DrainPump => stats_pump_pending p
  | DrainListeners => (0 <? listener_pending p)%nat
  | DrainReaper => reaper_pending p
  | DrainDemux => demux_pending p
  | Leftovers => true
  end.

Definition role_label (res : Joined) : list Z :=
  match res with Ok role => label role | Err je => lit "JoinError:" ++ je end.

(** The first exit, seen in [Running]: fail the rule. *)
Definition fail_rule (s : Sys) (res : Joined) : Sys :=
  let reason := lit "unexpected_task_exit:" ++ role_label res in
  mkSys (begin_drain (sup s) ShuttingDownAfterFailure true (decrement_pending (pending (sup s)) res)) (tasks s) (path s)
    (shutdown_ahead s) (shutdown_rx s) (completion s)
    (match failed_rx s with None => Some reason | Some r => Some r end) (callbacks s ++ [reason]) (run s) (status s).

(** [join_next] yields task [i]; the biased [select!] of phase A looks at the
    shutdown signal first. *)
Definition join (s : Sys) (i : nat) : option Sys :=
  t ← tasks s !! i;
  res ← joined t;
  let s := with_tasks s (delete i (tasks s)) in
  match phase (sup s) with
  | Selecting => if shutdown_rx s then None else Some (fail_rule s res)
  | Draining st => if waits_for (pending (sup s)) st then Some (with_sup s (drain_result (sup s) res)) else None
  | Sending | Finished => None
  end.

Definition publish (s : Sys) : Sys :=
  let un := unexpected_during_drain (sup s) in
  mkSys (set_phase (sup s) Finished) (tasks s) (path s) (shutdown_ahead s) (shutdown_rx s)
    (Some (match un with [] => OutcomeOk | _ => UnexpectedExitsDuringDrain un (length un) end))
    (failed_rx s) (callbacks s) (run s) (status s).

(** A drain loop ends: nothing left to wait for, or an empty set. *)
Definition advance (cfg : ListenerConfig) (s : Sys) : option Sys :=
  match phase (sup s) with
  | Draining st =>
    if waits_for (pending (sup s)) st && negb (length (tasks s) =? 0)%nat then None
    else
      match st with
      | DrainPump => Some (with_sup s (cancel_listeners (sup s)))
      | DrainListeners => Some (with_sup s (cancel_reaper (sup s)))
      | DrainReaper =>
        u ← step cfg (path s) DrainRegistry;
        Some (with_path (with_sup s (set_phase (sup s) Sending)) u (shutdown_ahead s))
      | DrainDemux => Some (with_sup s (set_phase (sup s) (Draining Leftovers)))
      | Leftovers => Some (publish s)
      end
  | _ => None
  end.

(** [send(Shutdown).await]: waits for room, fails on a closed channel. *)
Definition send_shutdown (s : Sys) : option Sys :=
  match phase (sup s) with
  | Sending =>
    let c := core (path s) in
    let s' := with_sup s (mark_shutdown_sent (sup s)) in
    if negb (demux_open c) then Some s'
    else if (length (queue c) <? DEMUX_CHANNEL)%nat then Some (with_path s' (path s) (Some (length (queue c))))
    else None
  | _ => None
  end.

(** ** The tasks *)

Definition stop_requested (s : Sys) (r : Role) : bool :=
  let p := sup s in
  match r with
  | Listener _ => rule_cancel p || listener_token p
  | Reaper => rule_cancel p || reaper_token p
  | StatsPump => rule_cancel p || stats_pump_token p
  | Demux => bool_decide (shutdown_ahead s = Some 0%nat)
  end.

(** The end of the demultiplexer drops its waits and closes its channel. *)
Definition end_task (cfg : ListenerConfig) (s : Sys) (i : nat) (r : Role) (t : TaskState) : option Sys :=
  let s := with_tasks s (<[i := (r, t)]> (tasks s)) in
  match r with
  | Demux => u ← step cfg (path s) DemuxExit; Some (with_path s u None)
  | _ => Some s
  end.

Definition alive (s : Sys) (r : Role) : bool := bool_decide ((r, Alive) ∈ tasks s).

(** ** The run *)

(** [select! { cancel.cancelled(), failed_rx.recv() }], then [shutdown()]. *)
Definition take (s : Sys) (r : Reason) : Sys := with_run s (Closing r) true (status s).

Definition report (rule : RuleRun.ClientRule) (s : Sys) : option Sys :=
  match run s, completion s with
  | Closing r, Some _ =>
    Some (with_run s Ended (shutdown_rx s)
      (status s ++ match r with
                   | ByCancel => [RuleRun.Removed (RuleRun.rule_id rule)]
                   | ByFailure reason => [RuleRun.Failed (RuleRun.rule_id rule) reason]
                   | ReceiverGone => []
                   end))
  | _, _ => None
  end.

Inductive Ev : Type :=
| Cancel                               (* the control loop cancels the rule *)
| Exit (i : nat)                       (* a task returns *)
| Panic (i : nat) (join_error : list Z)
| Signal                               (* the supervisor sees the shutdown signal *)
| Join (i : nat)
| Advance
| SendShutdown
| TakeCancel
| TakeFailure
| Report
| PumpTick
| Data (port : Z) (e : Event).

Definition listener_cfg (rule : RuleRun.ClientRule) (cap port : Z) : ListenerConfig :=
  mkCfg port cap (RuleRun.rate_limit rule) (RuleRun.owner_rate_limit rule) (PortRange.iter (RuleRun.listen_range rule)).

(** Who runs an event of the data path. *)
Definition data_allowed (s : Sys) (port : Z) (e : Event) : bool :=
  match e with
  | Batch _ _ | Datagram _ _ _ => alive s (Listener port)
  | Cold _ _ | Other _ => true
  | AddFlow => alive s Demux && bool_decide (shutdown_ahead s <> Some 0%nat)
  | Ready _ _ | WaitCancelled _ => alive s Demux
  | Sweep _ _ => alive s Reaper
  | DropRegistry => bool_decide (run s = Ended)
  | DrainRegistry | DemuxExit => false
  end.

Definition sys_step (rule : RuleRun.ClientRule) (cap : Z) (s : Sys) (ev : Ev) : option Sys :=
  let cfg := listener_cfg rule cap in
  let any := cfg (PortRange.start (RuleRun.listen_range rule)) in
  let p := sup s in
  match ev with
  | Cancel =>
    if rule_cancel p then None
    else
      Some (with_sup s (mkSupervisor (state p) (phase p) true (listener_token p) (reaper_token p) (stats_pump_token p)
                          (markers p) (pending p) (unexpected_during_drain p)))
  | Exit i =>
    '(r, t) ← tasks s !! i;
    match t with Alive => if stop_requested s r then end_task any s i r Returned else None | _ => None end
  | Panic i je =>
    '(r, t) ← tasks s !! i;
    match t with Alive => end_task any s i r (Panicked je) | _ => None end
  | Signal =>
    match phase p with
    | Selecting =>
      if shutdown_rx s then
        Some (with_sup s (begin_drain p ShuttingDownIntentional (rule_cancel p) (pending p)))
      else None
    | _ => None
    end
  | Join i => join s i
  | Advance => advance any s
  | SendShutdown => send_shutdown s
  | TakeCancel => match run s with Waiting => if rule_cancel p then Some (take s ByCancel) else None | _ => None end
  | TakeFailure =>
    match run s, failed_rx s with Waiting, Some reason => Some (take s (ByFailure reason)) | _, _ => None end
  | Report => report rule s
  | PumpTick =>
    if alive s StatsPump then
      let n := Z.min (UdpRegistry.len (registry (core (path s)))) u32_max in
      Some (with_path s (on_tally (fun t => set_stats t (Stats.set_active_flows (stats t) n)) (path s)) (shutdown_ahead s))
    else None
  | Data port e =>
    if data_allowed s port e then
      u ← step (cfg port) (path s) e;
      Some (with_path s u (match e with AddFlow => Nat.pred <$> shutdown_ahead s | _ => shutdown_ahead s end))
    else None
  end.

Fixpoint sys_exec (rule : RuleRun.ClientRule) (cap : Z) (s : Sys) (evs : list Ev) : option Sys :=
  match evs with
  | [] => Some s
  | ev :: evs => s ← sys_step rule cap s ev; sys_exec rule cap s evs
  end.

(** ** Starting *)

(** The probe binds of [start]: one IPv4 socket per port. *)
Fixpoint bind_sockets (os : gmap nat (Range.Family * Z) -> Range.Family -> Z -> option Range.ErrorKind)
  (net : Range.Net) (bound : list (Z * nat)) (ports : list Z) : Result (list (Z * nat)) Z * Range.Net :=
  match ports with
  | [] => (Ok bound, net)
  | port :: ports =>
    match Range.bind os Range.V4 net port with
    | (Ok sock, net) => bind_sockets os net (bound ++ [(port, sock)]) ports
    | (Err _, net) => (Err port, Range.close net bound.*2)
    end
  end.

(** The ports that get a listener. *)
Definition listeners (rule : RuleRun.ClientRule) (ports : list Z) : list Z :=
  filter (fun p => is_Some (port_map p (RuleRun.listen_range rule) (RuleRun.target_range rule))) ports.

Definition start (rule : RuleRun.ClientRule) (u : Udp) (ports : list Z) : Sys :=
  let ls := listeners rule ports in
  mkSys
    (mkSupervisor Running Selecting false false false false (mkMarkers false false false false)
       (mkPending (length ls) true true true) [])
    ((Demux, Alive) :: (Reaper, Alive) :: (StatsPump, Alive) :: ((fun p => (Listener p, Alive)) <$> ls))
    u None false None None [] Waiting [].

(** [run_udp] of a single-target rule up to its [select!]; [received] says
    whether the control loop still takes the status.  Without a bound range the
    run ends here. *)
Definition run_udp (os : gmap nat (Range.Family * Z) -> Range.Family -> Z -> option Range.ErrorKind)
  (rule : RuleRun.ClientRule) (received : bool) (port_in_use : Z) (net : Range.Net) (u : Udp)
  : (Range.Net * Z * list RuleRun.RuleStatusEvent) + (Range.Net * Sys) :=
  match bind_sockets os net [] (PortRange.iter (RuleRun.listen_range rule)) with
  | (Err port, net) =>
    let reason := if PortRange.len (RuleRun.listen_range rule) =? 1 then lit "port_in_use"
                  else lit "port_in_use:" ++ dec port in
    inl (net, wrap_u64 (port_in_use + 1), if received then [RuleRun.Failed (RuleRun.rule_id rule) reason] else [])
  | (Ok socks, net) =>
    let s := start rule u socks.*1 in
    inr (net, if received then with_run s Waiting false [RuleRun.Activated (RuleRun.rule_id rule)]
              else take s ReceiverGone)
  end.

(** ** What the data path leaves alone

    Only the pump and the supervisor write the flow gauge, only the
    demultiplexer's end closes its channel, and only it takes commands out. *)

Record frame (u u' : Udp) : Prop := {
  fr_gauge : Stats.active_flows (stats (tally u')) = Stats.active_flows (stats (tally u));
  fr_open : demux_open (core u') = demux_open (core u);
  fr_queue : (length (queue (core u)) <= length (queue (core u')))%nat;
}.

Lemma frame_refl u : frame u u.
Proof. by split. Qed.

Lemma frame_trans u1 u2 u3 : frame u1 u2 -> frame u2 u3 -> frame u1 u3.
Proof. intros [] []. split; [congruence..|lia]. Qed.

(** Of the core alone, where the queue stays. *)
Definition cframe (c c' : Core) : Prop := demux_open c' = demux_open c /\ queue c' = queue c.

Lemma cframe_frame c' (u : Udp) : cframe (core u) c' -> frame u (mkUdp c' (tally u)).
Proof. intros [H1 H2]. split; cbn; [done..|by rewrite H2]. Qed.

Lemma release_frame c f c' : release c f = Some c' -> cframe c c'.
Proof.
  unfold release. destruct (referenced c f); [by intros [= <-]|]. destruct (flows c !! f); [|by intros [= <-]].
  by intros (w & _ & [= <-])%bind_Some.
Qed.

Lemma release_opt_frame c f c' : release_opt c f = Some c' -> cframe c c'.
Proof. destruct f; [apply release_frame|by intros [= <-]]. Qed.

Lemma remove_frame c k f c' : remove_and_cancel c k f = Some c' -> cframe c c'.
Proof.
  unfold remove_and_cancel. destruct (UdpRegistry.remove _ _) as [old r].
  intros (c1 & [E1 E2]%release_opt_frame & [E3 E4]%release_frame)%bind_Some. split; [by rewrite E3, E1|by rewrite E4, E2].
Qed.

Lemma fold_frame {A} (g : Core -> A -> option Core) l c c' :
  (forall c x c', g c x = Some c' -> cframe c c') -> fold_core g c l = Some c' -> cframe c c'.
Proof.
  intros Hg. revert c. induction l as [|x l IH]; intros c; cbn [fold_core]; [by intros [= <-]|].
  intros (c1 & [E1 E2]%Hg & [E3 E4]%IH)%bind_Some. split; congruence.
Qed.

Lemma evict_frame u k f u' : evict u k f = Some u' -> frame u u'.
Proof.
  intros (c & Hc%remove_frame & [= <-])%bind_Some. destruct Hc as [H1 H2]. split; cbn; [done..|by rewrite H2].
Qed.

Lemma quota_frame u n : frame u (quota_try_consume u n).2.
Proof.
  unfold quota_try_consume. destruct (quota (tally u)); [|apply frame_refl]. destruct (Quota.consume _ _). by split.
Qed.

Lemma restore_frame u n : frame u (quota_restore u n).
Proof. unfold quota_restore. destruct (quota (tally u)); by split. Qed.

Lemma foldl_frame {A} (g : Udp -> A -> Udp) l u : (forall u x, frame u (g u x)) -> frame u (foldl g u l).
Proof.
  intros Hg. revert u. induction l as [|x l IH]; intros u; cbn [foldl]; [apply frame_refl|].
  eapply frame_trans; [apply Hg|apply IH].
Qed.

Lemma shape_frame sh n nows u u' ok : shape sh n nows u = Some (u', ok) -> frame u u'.
Proof. unfold shape. intros ([w b] & _ & [= <- <-])%bind_Some. by split. Qed.

Lemma book_in_frame cfg now f p u : frame u (book_in cfg now f p u).
Proof. by split. Qed.

Lemma book_reply_frame env k f u p : frame u (book_reply env k f u p).
Proof. unfold book_reply, quota_consume_after_send. eapply frame_trans; [|apply quota_frame]. by split. Qed.

Lemma sent_frame cfg now f p n u : frame u (quota_consume_after_send (book_in cfg now f p u) n).
Proof. eapply frame_trans; [apply book_in_frame|apply quota_frame]. Qed.

Lemma flush_run_frame cfg env bufs u r u' : flush_run cfg env bufs u r = Some u' -> frame u u'.
Proof.
  assert (forall ds u, frame u (restore_all ds u)) as Hr by (intros; apply foldl_frame; intros; apply restore_frame).
  unfold flush_run. intros (ds & _ & He)%bind_Some. destruct (send_batch env) as [sent|e].
  - set (u1 := foldl _ u _) in *. assert (frame u u1) as H1 by (apply foldl_frame; intros; apply book_in_frame).
    destruct (sent <? length ds)%nat; [|by injection He as <-].
    apply bind_Some in He as ([[p src] n] & _ & He). apply bind_Some in He as (u2 & Hp & [= <-]).
    eapply frame_trans; [exact H1|]. eapply frame_trans; [apply (Hr (drop sent ds))|].
    eapply (frame_trans _ u2); [|by split]. unfold send_probe in Hp. destruct (probe env) as [e|].
    + destruct (classify_udp_error e); first [by apply evict_frame in Hp|injection Hp as <-; by split].
    + injection Hp as <-. apply sent_frame.
  - eapply frame_trans; [apply (Hr ds)|]. destruct (decide _).
    + injection He as <-. clear. generalize 0%nat. generalize (restore_all ds u).
      induction ds as [|[[p src] n] ds IH]; intros v j; cbn [send_singles]; [apply frame_refl|].
      eapply frame_trans; [|apply IH]. unfold send_single. destruct (singles env j); [by split|apply sent_frame].
    + destruct (classify_udp_error e); try (injection He as <-; by split).
      apply bind_Some in He as ([[q src] m] & _ & He). by apply evict_frame in He.
Qed.

Lemma flush_pending_frame cfg env bufs u r u' : flush_pending cfg env bufs u r = Some u' -> frame u u'.
Proof. destruct r; [apply flush_run_frame|]. intros [= <-]. apply frame_refl. Qed.

Lemma forward_existing_frame cfg env f p sh on_error u u' :
  (forall e u u', on_error e u = Some u' -> frame u u') ->
  forward_existing cfg env f p sh on_error u = Some u' -> frame u u'.
Proof.
  intros Ho. unfold forward_existing. destruct (negb (quota_allows u)); [intros [= <-]; apply frame_refl|].
  intros ([u1 ok] & Hs%shape_frame & He)%bind_Some. eapply frame_trans; [exact Hs|].
  destruct (negb ok); [injection He as <-; by split|]. destruct (send_answer env); [by eapply Ho|].
  injection He as <-. apply sent_frame.
Qed.

Lemma handle_datagram_frame cfg env u p src u' : handle_datagram cfg env u p src = Some u' -> frame u u'.
Proof.
  assert (forall sh u u', cold_admission cfg env sh p src u = Some u' -> frame u u') as Hc.
  { clear. intros sh u u'. unfold cold_admission. destruct (negb (quota_allows u)); [intros [= <-]; apply frame_refl|].
    destruct (UdpRegistry.try_get_or_reserve _ _ _) as [[f| | |] r]; [|intros [= <-]; by split..].
    intros Hf. eapply frame_trans; [|eapply forward_existing_frame; [|exact Hf]]; [by split|].
    intros e v v' [= <-]. apply frame_refl. }
  unfold handle_datagram. destruct (UdpRegistry.get _ _) as [f|]; [|apply Hc]. destruct (is_cancelled u f); [apply Hc|].
  apply forward_existing_frame. intros e v v'. destruct (classify_udp_error e);
    first [apply evict_frame|intros [= <-]; by split].
Qed.

Lemma process_slots_frame cfg env sh bufs slots u r i u' :
  process_slots cfg env sh bufs u r i slots = Some u' -> frame u u'.
Proof.
  revert u r i u'. induction slots as [|[p src] slots IH]; intros u r i u'; cbn [process_slots]; [apply flush_pending_frame|].
  assert (forall u u', (u ← flush_pending cfg (s_flush (env i)) bufs u r; u ← handle_datagram cfg (s_dgram (env i)) u p src;
    process_slots cfg env sh bufs u None (S i) slots) = Some u' -> frame u u') as Hc.
  { intros v v' (v1 & H1%flush_pending_frame & (v2 & H2%handle_datagram_frame & H3%IH)%bind_Some)%bind_Some.
    eauto using frame_trans. }
  destruct (UdpRegistry.get _ _) as [f|]; [|apply Hc]. destruct (is_cancelled u f); [apply Hc|].
  pose proof (quota_frame u (payload_len p)) as Hq. destruct (quota_try_consume u (payload_len p)) as [[] u1]; cbn in Hq;
    [|intros; eauto using frame_trans].
  intros ([u2 ok] & Hs%shape_frame & He)%bind_Some. eapply frame_trans; [exact Hq|]. eapply frame_trans; [exact Hs|].
  destruct (negb ok); [eapply frame_trans; [|by eapply IH]; eapply frame_trans; [apply restore_frame|by split]|].
  destruct r as [r|]; [|by eapply IH]. destruct (decide _).
  - apply bind_Some in He as (r' & _ & He). by eapply IH.
  - apply bind_Some in He as (u3 & H3%flush_run_frame & He). eauto using frame_trans.
Qed.

Lemma complete_cold_frame cfg env t u u' : complete_cold_flow cfg env t u = Some u' -> frame u u'.
Proof.
  assert (forall k gs (u u' : Udp), give_up_flow k gs (inc_dns_failure u) = Some u' -> frame u u') as Hg.
  { intros k gs v v' (w & _ & [= <-])%bind_Some. by split. }
  unfold complete_cold_flow. intros ([u1 ad] & Ha & He)%bind_Some. assert (frame u u1) as H1.
  { unfold acquire_first_packet in Ha. apply bind_Some in Ha as ([w r] & _ & [= Ha]). destruct r; injection Ha as <- _; by split. }
  eapply frame_trans; [exact H1|]. clear Ha H1. destruct ad as [gs|]; [|injection He as <-; by split].
  destruct (resolved env) as [[|a addrs]|]; [by eapply Hg| |by eapply Hg].
  assert (forall l u, frame u (walk env l u).2) as Hw.
  { clear. induction l as [|x l IH]; intros u; cbn [walk]; [apply frame_refl|]. destruct (connect env x); [apply IH| |apply frame_refl].
    eapply frame_trans; [|apply IH]. by split. }
  specialize (Hw (a :: addrs) u1). destruct (walk env (a :: addrs) u1) as [[target|] u2]; cbn [snd] in Hw;
    (eapply frame_trans; [exact Hw|]); [|by eapply Hg].
  apply bind_Some in He as ([u3 kept] & Hi & He). assert (frame u2 u3) as H3.
  { unfold install_flow in Hi. cbn [demux_open queue] in Hi. destruct (_ && _).
    - apply bind_Some in Hi as (c & [E1 E2]%release_opt_frame & [= <- _]). split; cbn; [done|by rewrite E1|rewrite E2; cbn; rewrite length_app; lia].
    - apply bind_Some in Hi as (c & [E1 E2]%remove_frame & Hi). apply bind_Some in Hi as (c' & [E3 E4]%release_opt_frame & [= <- _]).
      split; cbn; [done|by rewrite E3, E1|by rewrite E4, E2]. }
  eapply frame_trans; [exact H3|]. destruct (negb kept); [injection He as <-; apply frame_refl|].
  unfold send_first in He. apply bind_Some in He as ([u4 ok] & Hs%shape_frame & He). eapply frame_trans; [exact Hs|].
  destruct (negb ok); [injection He as <-; by split|]. destruct (first_send env) as [e|]; [|injection He as <-; apply sent_frame].
  destruct (classify_udp_error e); first [by apply evict_frame in He|injection He as <-; apply frame_refl].
Qed.

Lemma recv_failed_frame k f e u u' b : recv_failed k f e u = Some (u', b) -> frame u u'.
Proof.
  unfold recv_failed. destruct (classify_udp_error e); try (intros [= <- _]; by split).
  by intros (v & Hv%evict_frame & [= <- _])%bind_Some.
Qed.

Lemma drain_loop_frame env k f sh budget i j rs u u' : drain_loop env k f sh budget i j rs u = Some u' -> frame u u'.
Proof.
  revert i j rs u. induction budget as [|budget IH]; intros i j rs u; cbn [drain_loop]; [by intros [= <-]|].
  destruct rs as [|[p|e] rs]; [by intros [= <-]| |].
  - intros ([u1 ok] & Hs%shape_frame & He)%bind_Some. eapply frame_trans; [exact Hs|].
    destruct (negb ok); (eapply frame_trans; [|by eapply IH]); [by split|].
    destruct (reply_one env j); [destruct (decide _); by split|apply book_reply_frame].
  - by intros ([u1 b] & Hr%recv_failed_frame & [= <-])%bind_Some.
Qed.

Lemma forward_replies_frame env k f sh ps u u' : forward_reply_batch env k f sh ps u = Some u' -> frame u u'.
Proof.
  assert (forall ps i u u' kept, admit_replies env sh i ps u = Some (u', kept) -> frame u u') as Ha.
  { clear. induction ps as [|p ps IH]; intros i u u' kept; cbn [admit_replies]; [by intros [= <- _]|].
    intros ([u1 ok] & Hs%shape_frame & He)%bind_Some. eapply frame_trans; [exact Hs|].
    destruct (negb ok); [eapply frame_trans; [|by eapply IH]; by split|].
    apply bind_Some in He as ([u2 kept'] & He & [= <- _]). by eapply IH. }
  unfold forward_reply_batch. intros ([u1 kept] & Hk%Ha & He)%bind_Some. eapply frame_trans; [exact Hk|].
  destruct kept as [|q kept]; [by injection He as <-|]. destruct (reply_batch env) as [sent|e].
  - injection He as <-. set (u2 := foldl _ _ _). assert (frame u1 u2) as H2 by (apply foldl_frame; intros; apply book_reply_frame).
    destruct (_ <? _)%nat; [|done]. eapply frame_trans; [exact H2|by split].
  - injection He as <-. destruct (decide _); by split.
Qed.

Lemma demux_ready_frame cfg env i u u' : demux_ready cfg env i u = Some u' -> frame u u'.
Proof.
  unfold demux_ready. intros ([k f] & _ & He)%bind_Some. apply bind_Some in He as ([u1 h] & Hb & He).
  apply bind_Some in He as (u2 & Hl & He). assert (frame u u1) as H1.
  { unfold drain_one_flow_batched in Hb. destruct (negb _); [by injection Hb as <- _|].
    destruct (recv_batch env) as [[|p ps]|e]; [by injection Hb as <- _| |by eapply recv_failed_frame].
    by apply bind_Some in Hb as (v & Hv%forward_replies_frame & [= <- _]). }
  assert (frame u1 u2) as H2.
  { destruct (negb h); [|by injection Hl as <-]. unfold drain_one_flow in Hl. destruct (negb _); [by injection Hl as <-|].
    by eapply drain_loop_frame. }
  eapply frame_trans; [exact H1|]. eapply frame_trans; [exact H2|]. destruct (is_cancelled u2 f); [|by injection He as <-].
  apply bind_Some in He as (c & [E1 E2]%release_frame & [= <-]). by apply cframe_frame.
Qed.

Lemma sweep_one_frame now win c kf c' : sweep_one now win c kf = Some c' -> cframe c c'.
Proof.
  unfold sweep_one. destruct kf as [k f]. destruct (flows c !! f); [|by intros [= <-]]. destruct (_ <? _); [|by intros [= <-]].
  destruct (UdpRegistry.remove _ _) as [[g|] r]; [|by intros [= <-]].
  intros (c1 & [E1 E2]%release_frame & [E3 E4]%release_frame)%bind_Some. split; [by rewrite E3, E1|by rewrite E4, E2].
Qed.

(** Every event of the data path but a command taken by the demultiplexer. *)
Lemma data_step_frame cfg u ev u' :
  step cfg u ev = Some u' -> match ev with AddFlow | DrainRegistry | DemuxExit => False | _ => True end -> frame u u'.
Proof.
  destruct ev as [env bufs|env p src|i env| |i env|i|now win|e| | |]; cbn [step]; intros Hs Hev; try done.
  - by eapply process_slots_frame.
  - by eapply handle_datagram_frame.
  - apply bind_Some in Hs as (t & _ & Hs). eapply frame_trans; [|by eapply complete_cold_frame]. by split.
  - by eapply demux_ready_frame.
  - apply bind_Some in Hs as ([k f] & _ & Hs). destruct (is_cancelled u f); [|done].
    apply bind_Some in Hs as (c & Hc%release_frame & [= <-]). by apply cframe_frame.
  - apply bind_Some in Hs as (c & Hc & [= <-]). apply cframe_frame. eapply fold_frame; [|exact Hc]. apply sweep_one_frame.
  - apply bind_Some in Hs as (w & _ & [= <-]). by split.
  - destruct (_ || _); [done|]. apply bind_Some in Hs as (c & Hc & [= <-]). apply cframe_frame.
    eapply fold_frame in Hc; [|apply release_frame]. done.
Qed.

(** ** The order of the shutdown *)

Definition rank (ph : Phase) : nat :=
  match ph with
  | Selecting => 0
  | Draining DrainPump => 1
  | Draining DrainListeners => 2
  | Draining DrainReaper => 3
  | Sending => 4
  | Draining DrainDemux => 5
  | Draining Leftovers => 6
  | Finished => 7
  end.

(** The loop that waits for a role. *)
Definition stage_of (r : Role) : Stage :=
  match r with StatsPump => DrainPump | Listener _ => DrainListeners | Reaper => DrainReaper | Demux => DrainDemux end.

Definition is_listener (t : Role * TaskState) : Prop := match t.1 with Listener _ => True | _ => False end.

#[local] Instance is_listener_dec t : Decision (is_listener t).
Proof. unfold is_listener. destruct t.1; apply _. Defined.

(** A set of tasks against the supervisor's counters: a task in the set is
    still waited for. *)
Record tasks_ok (ts : list (Role * TaskState)) (ph : Phase) (p : Pending) (open : bool) : Prop := {
  to_dup : NoDup ts.*1;
  to_rank : forall r t, (r, t) ∈ ts -> (rank ph <= rank (Draining (stage_of r)))%nat;
  to_count : (length (filter is_listener ts) <= listener_pending p)%nat;
  to_pending : forall r t, (r, t) ∈ ts -> waits_for p (stage_of r) = true;
  to_open : open = true <-> (Demux, Alive) ∈ ts;
}.

Lemma listener_waited ts p port t :
  (length (filter is_listener ts) <= listener_pending p)%nat -> (Listener port, t) ∈ ts ->
  waits_for p DrainListeners = true.
Proof.
  intros Hc Hin. apply Nat.ltb_lt. assert ((Listener port, t) ∈ filter is_listener ts) as Hf.
  { by apply list_elem_of_filter. }
  destruct (filter is_listener ts); [by apply elem_of_nil in Hf|]. cbn in Hc. lia.
Qed.

Lemma middle_roles (ts ts' : list (Role * TaskState)) r t : NoDup (ts ++ (r, t) :: ts').*1 ->
  forall r' t', (r', t') ∈ ts ++ ts' -> r' <> r.
Proof.
  rewrite fmap_app, fmap_cons. intros Hd r' t' Hin ->. cbn in Hd.
  apply (NoDup_app ts.*1 _) in Hd as (_ & Hn & Hd). apply NoDup_cons in Hd as [Hr _]. apply elem_of_app in Hin as [Hin|Hin].
  - apply (Hn r); [by apply (list_elem_of_fmap_2 fst _ (r, t'))|by left].
  - apply Hr. by apply (list_elem_of_fmap_2 fst _ (r, t')).
Qed.

Lemma tasks_ok_join ts ts' x res ph p o :
  tasks_ok (ts ++ x :: ts') ph p o -> joined x = Some res -> tasks_ok (ts ++ ts') ph (decrement_pending p res) o.
Proof.
  intros [Hd Hr Hc Hp Ho] Hj. destruct x as [r t]. pose proof (middle_roles _ _ _ _ Hd) as Hne.
  assert (forall y, y ∈ ts ++ ts' -> y ∈ ts ++ (r, t) :: ts') as Hsub.
  { intros y. rewrite !elem_of_app, elem_of_cons. tauto. }
  assert (res = Ok r \/ exists je, res = Err je) as Hres.
  { unfold joined in Hj. destruct t; inversion Hj; eauto. }
  assert (length (filter is_listener (ts ++ ts')) <= listener_pending (decrement_pending p res))%nat as Hc'.
  { rewrite filter_app in *. rewrite filter_cons in Hc. rewrite length_app in *. destruct Hres as [->|[je ->]].
    - destruct r; cbn in *; rewrite ?decide_True, ?decide_False in Hc by (unfold is_listener; cbn; tauto); cbn in Hc; lia.
    - cbn [decrement_pending]. destruct (decide _); cbn in Hc; lia. }
  split.
  - rewrite fmap_app in *. eapply sublist_NoDup; [exact Hd|]. apply sublist_app; [done|]. by constructor.
  - intros r' t' Hin. eauto.
  - done.
  - intros r' t' Hin. specialize (Hp _ _ (Hsub _ Hin)). specialize (Hne _ _ Hin).
    destruct r' as [port| | |]; [by eapply listener_waited|..];
      (destruct Hres as [->|[je ->]]; [|done]); by destruct r.
  - rewrite Ho, !elem_of_app, elem_of_cons. split; [|tauto]. intros [?|[[= <- <-]|?]]; [tauto| |tauto]. by cbn in Hj.
Qed.

Lemma tasks_ok_end ts ts' r t ph p o : t <> Alive ->
  tasks_ok (ts ++ (r, Alive) :: ts') ph p o ->
  tasks_ok (ts ++ (r, t) :: ts') ph p (match r with Demux => false | _ => o end).
Proof.
  intros Ht [Hd Hr Hc Hp Ho]. pose proof (middle_roles _ _ _ _ Hd) as Hne.
  assert (forall r' t', (r', t') ∈ ts ++ (r, t) :: ts' -> exists t'', (r', t'') ∈ ts ++ (r, Alive) :: ts') as Hsub.
  { intros r' t'. rewrite !elem_of_app, !elem_of_cons. intros [?|[[= -> ->]|?]].
    - exists t'. rewrite elem_of_app. tauto.
    - exists Alive. rewrite elem_of_app, elem_of_cons. tauto.
    - exists t'. rewrite elem_of_app, elem_of_cons. tauto. }
  split.
  - by rewrite fmap_app in *.
  - intros r' t' (t'' & Hin)%Hsub. eauto.
  - rewrite filter_app, filter_cons in *. rewrite length_app in *.
    by destruct (decide (is_listener (r, Alive))), (decide (is_listener (r, t))).
  - intros r' t' (t'' & Hin)%Hsub. eauto.
  - destruct (decide (r = Demux)) as [->|Hrd].
    + split; [done|]. rewrite elem_of_app, elem_of_cons. intros [Hin|[[= <-]|Hin]]; [|done|];
        exfalso; eapply (Hne Demux Alive); rewrite ?elem_of_app; tauto.
    + assert ((match r with Demux => false | _ => o end) = o) as -> by by destruct r.
      rewrite Ho, !elem_of_app, !elem_of_cons. split; intros [?|[?|?]]; try tauto; congruence.
Qed.

(** A loop that ended leaves no task of its role. *)
Lemma tasks_ok_advance ts st ph p o : tasks_ok ts (Draining st) p o ->
  waits_for p st && negb (length ts =? 0)%nat = false -> rank ph = S (rank (Draining st)) -> tasks_ok ts ph p o.
Proof.
  intros [Hd Hr Hc Hp Ho] Hw Hk. split; try done. intros r t Hin. pose proof (Hr _ _ Hin) as Hle. rewrite Hk.
  assert (stage_of r <> st) as Hne.
  { intros <-. rewrite (Hp _ _ Hin) in Hw. by destruct ts; [apply elem_of_nil in Hin|]. }
  destruct st, r; cbn in *; try lia; done.
Qed.

Lemma tasks_ok_skip ts ph ph' p o : tasks_ok ts ph p o -> rank ph' = S (rank ph) -> (rank ph = 0 \/ rank ph = 4)%nat ->
  tasks_ok ts ph' p o.
Proof.
  intros [Hd Hr Hc Hp Ho] Hk He. split; try done. intros r t Hin. pose proof (Hr _ _ Hin) as Hle. rewrite Hk.
  destruct He as [He|He]; rewrite He in *; destruct r; cbn in *; lia.
Qed.

Definition outcome_of (un : list (list Z)) : ShutdownOutcome :=
  match un with [] => OutcomeOk | _ => UnexpectedExitsDuringDrain un (length un) end.

Definition gauge (s : Sys) : Z := Stats.active_flows (stats (tally (path s))).

(** What the phase says of the supervisor's tokens and of its channel to the
    demultiplexer. *)
Record ctl_ok (p : Supervisor) (ahead : option nat) (u : Udp) : Prop := {
  co_early : rank (phase p) = 0%nat ->
    listener_token p = false /\ reaper_token p = false /\ stats_pump_token p = false;
  co_pump : (1 <= rank (phase p))%nat -> stats_pump_token p = true;
  co_listeners : (2 <= rank (phase p))%nat -> listener_token p = true;
  co_reaper : (3 <= rank (phase p))%nat -> reaper_token p = true;
  co_gauge : (4 <= rank (phase p))%nat -> Stats.active_flows (stats (tally u)) = 0;
  co_ahead : forall n, ahead = Some n -> (n <= length (queue (core u)))%nat /\ (5 <= rank (phase p))%nat;
  co_sent : (5 <= rank (phase p))%nat -> demux_open (core u) = true -> ahead <> None;
}.

(** What the supervisor's state says of the callback and the run. *)
Record run_ok (s : Sys) : Prop := {
  ro_state : match state (sup s) with
             | Running => rank (phase (sup s)) = 0%nat /\ callbacks s = []
             | ShuttingDownIntentional => (1 <= rank (phase (sup s)))%nat /\ callbacks s = [] /\ shutdown_rx s = true
             | ShuttingDownAfterFailure =>
               (1 <= rank (phase (sup s)))%nat /\ length (callbacks s) = 1%nat /\ rule_cancel (sup s) = true
             end;
  ro_failed : failed_rx s = head (callbacks s);
  ro_done : completion s = match phase (sup s) with Finished => Some (outcome_of (unexpected_during_drain (sup s))) | _ => None end;
  ro_run : match run s with
           | Waiting => shutdown_rx s = false
           | Closing r => shutdown_rx s = true /\ match r with ByFailure reason => callbacks s = [reason] | _ => True end
           | Ended => shutdown_rx s = true /\ phase (sup s) = Finished
           end;
}.

Record sys_inv (g0 : gmap nat Z) (s : Sys) : Prop := {
  si_path : inv g0 (core (path s));
  si_tasks : tasks_ok (tasks s) (phase (sup s)) (pending (sup s)) (demux_open (core (path s)));
  si_ctl : ctl_ok (sup s) (shutdown_ahead s) (path s);
  si_run : run_ok s;
}.

Definition sys_ev_ok (ev : Ev) : Prop := match ev with Data _ e => ev_ok e | _ => True end.

Lemma path_step g0 cfg (u u' : Udp) e : inv g0 (core u) -> ev_ok e -> step cfg u e = Some u' -> inv g0 (core u').
Proof.
  intros Hi Hv Hs. destruct (path_step_inv g0 cfg u e Hi Hv (step_enabled _ _ _ _ Hs)) as (v & Hs' & Hv'). congruence.
Qed.

Lemma drain_registry_ends cfg (u u' : Udp) : step cfg u DrainRegistry = Some u' ->
  Stats.active_flows (stats (tally u')) = 0 /\ demux_open (core u') = demux_open (core u) /\ queue (core u') = queue (core u).
Proof.
  cbn [step]. intros (c & Hc & [= <-])%bind_Some. by apply (fold_frame release) in Hc as [H1 H2]; [|apply release_frame].
Qed.

Lemma demux_exit_ends cfg (u u' : Udp) : step cfg u DemuxExit = Some u' ->
  demux_open (core u') = false /\ tally u' = tally u.
Proof.
  cbn [step]. intros (c & Hc & [= <-])%bind_Some. by apply (fold_frame release) in Hc as [H1 _]; [|apply release_frame].
Qed.

(** The cases of [ctl_ok] and [run_ok] at the phase after the present one. *)
Ltac by_phase :=
  split; cbn in *;
  repeat match goal with |- context [match state ?p with _ => _ end] => destruct (state p) end;
  intros; try done; try lia;
  repeat match goal with H : forall n, _ = Some n -> (5 <= _)%nat, E : _ = Some _ |- _ => specialize (H _ E) end;
  try lia;
  try match goal with H : forall n, _ = Some n -> _ /\ _, E : _ = Some _ |- _ => destruct (H _ E); split; [done|lia] end;
  try match goal with H : _ -> ?P |- ?P => apply H; lia end;
  try match goal with H : _ -> _ -> ?P |- ?P => apply H; [lia|done] end;
  try match goal with |- context [run ?s] => by destruct (run s) as [|[]|] end;
  naive_solver lia.

Lemma end_task_inv g0 cfg s i r t s' :
  sys_inv g0 s -> tasks s !! i = Some (r, Alive) -> t <> Alive -> end_task cfg s i r t = Some s' -> sys_inv g0 s'.
Proof.
  intros [Hp Ht Hc Hr] Hi Hne He. destruct (list_elem_of_split_length _ _ _ Hi) as (l1 & l2 & El & ->).
  rewrite El in Ht. apply (tasks_ok_end _ _ _ t _ _ _ Hne) in Ht. unfold end_task in He.
  rewrite El, insert_app_r_alt, Nat.sub_diag in He by done. cbn [insert list_insert] in He.
  destruct r; try by (injection He as <-; destruct Hr; split; [..|split]).
  apply bind_Some in He as (u & Hu & [= <-]). cbn [path with_tasks] in Hu. destruct (demux_exit_ends _ _ _ Hu) as [Ho Et].
  split; cbn.
  - exact (path_step g0 cfg _ _ DemuxExit Hp I Hu).
  - by rewrite Ho.
  - destruct Hc. split; cbn; try done; [by rewrite Et|by rewrite Ho].
  - destruct Hr. by split.
Qed.

Lemma advance_inv g0 cfg s s' : sys_inv g0 s -> advance cfg s = Some s' -> sys_inv g0 s'.
Proof.
  intros [Hp Ht Hc [Hs Hf Hd Hr]] Ha. unfold advance in Ha. destruct (phase (sup s)) as [|st| |] eqn:Eph; try done.
  destruct (waits_for _ _ && _) eqn:Ew; [done|].
  assert (run s <> Ended) as Hne by (intros E; rewrite E in Hr; destruct Hr; congruence).
  pose proof (fun ph => tasks_ok_advance _ _ ph _ _ Ht Ew) as Hta.
  destruct Hc as [C1 C2 C3 C4 C5 C6 C7]. rewrite Eph in *.
  assert (forall n, shutdown_ahead s = Some n -> (5 <= rank (Draining st))%nat) as Hah by (intros n En; apply (C6 n En)).
  assert (match state (sup s) with Running => False | _ => True end) as Hst.
  { destruct (state (sup s)); [|done..]. destruct Hs as [Hs _]. by destruct st. }
  destruct st; try (injection Ha as <-); cbn [rank] in *.
  3: { apply bind_Some in Ha as (u & Hu & [= <-]). destruct (drain_registry_ends _ _ _ Hu) as (Eg & Eo & Eq).
       split; cbn; [exact (path_step g0 cfg _ _ DrainRegistry Hp I Hu)|rewrite Eo; by apply Hta|by_phase|by_phase]. }
  all: split; cbn; [done|by apply Hta|by_phase|by_phase].
Qed.

Lemma begin_drain_inv g0 s s' st rc pend :
  sys_inv g0 s -> phase (sup s) = Selecting -> sup s' = begin_drain (sup s) st rc pend -> path s' = path s ->
  shutdown_ahead s' = shutdown_ahead s -> tasks_ok (tasks s') Selecting pend (demux_open (core (path s))) ->
  run_ok s' -> sys_inv g0 s'.
Proof.
  intros [Hp _ [C1 C2 C3 C4 C5 C6 C7] _] Eph Es Ep Ea Ht Hr. rewrite Eph in *. cbn [rank] in *. split; [by rewrite Ep| | |done].
  - rewrite Es, Ep. eapply (tasks_ok_skip _ Selecting); [exact Ht|done|by left].
  - rewrite Es, Ep, Ea. split; cbn; try done; try lia. intros n En. destruct (C6 n En). lia.
Qed.

Lemma join_inv g0 s i s' : sys_inv g0 s -> join s i = Some s' -> sys_inv g0 s'.
Proof.
  intros Hinv (x & Hx & (res & Hj & He)%bind_Some)%bind_Some. pose proof Hinv as [Hp Ht Hc Hr].
  destruct (list_elem_of_split_length _ _ _ Hx) as (l1 & l2 & El & ->). rewrite El, delete_middle in He. rewrite El in Ht.
  cbn [sup with_tasks] in He. destruct (phase (sup s)) as [|st| |] eqn:Eph; try done.
  - cbn [shutdown_rx with_tasks] in He. destruct (shutdown_rx s) eqn:Erx; [done|]. injection He as <-.
    eapply (begin_drain_inv g0 s); [done|done|done|done|done|by eapply tasks_ok_join|].
    destruct Hr as [Rs Rf Rd Rr]. rewrite Eph in *. assert (callbacks s = []) as Ecb.
    { destruct (state (sup s)); [apply Rs|..]; cbn in Rs; lia. }
    rewrite Ecb in *. split; cbn; rewrite ?Ecb; [split; [lia|done]|by rewrite Rf|done|].
    destruct (run s) as [|r|]; [done|..]; destruct Rr as [Rr _]; congruence.
  - destruct (waits_for _ _); [|done]. injection He as <-. cbn. split; cbn; [done|by rewrite Eph; eapply tasks_ok_join| |].
    + destruct Hc. by split.
    + destruct Hr as [Rs Rf Rd Rr]. split; cbn; try done. by rewrite Eph in *.
Qed.

Lemma send_shutdown_inv g0 s s' : sys_inv g0 s -> send_shutdown s = Some s' -> sys_inv g0 s'.
Proof.
  intros [Hp Ht [C1 C2 C3 C4 C5 C6 C7] [Rs Rf Rd Rr]] Hs. unfold send_shutdown in Hs.
  destruct (phase (sup s)) eqn:Eph; try done. cbn [rank] in *.
  assert (forall open, tasks_ok (tasks s) Sending (pending (sup s)) open -> tasks_ok (tasks s) (Draining DrainDemux) (pending (sup s)) open) as Hta.
  { intros o Ho. eapply (tasks_ok_skip _ Sending); [done|done|by right]. }
  assert (match state (sup s) with Running => False | _ => True end) as Hst by (destruct (state (sup s)); [lia|done..]).
  assert (run s <> Ended) as Hne by (intros E; rewrite E in Rr; destruct Rr; congruence).
  destruct (demux_open (core (path s))) eqn:Eo; cbn [negb] in Hs.
  - destruct (_ <? _)%nat; [|done]. injection Hs as <-. split; cbn; [done|rewrite Eo; by apply Hta| |by_phase].
    split; cbn; intros; first [done|lia|by apply C2; lia|by apply C3; lia|by apply C4; lia|by apply C5; lia|simplify_eq; lia].
  - injection Hs as <-. split; cbn; [done|rewrite Eo; by apply Hta| |by_phase].
    split; cbn; intros; first [done|lia|by apply C2; lia|by apply C3; lia|by apply C4; lia|by apply C5; lia|congruence|idtac].
    edestruct C6; [done|]. lia.
Qed.

Lemma data_inv g0 rule cap s port e s' : sys_inv g0 s -> ev_ok e -> sys_step rule cap s (Data port e) = Some s' ->
  sys_inv g0 s'.
Proof.
  intros [Hp Ht [C1 C2 C3 C4 C5 C6 C7] [Rs Rf Rd Rr]] Hv Hs. cbn [sys_step] in Hs. destruct (data_allowed s port e) eqn:Ed; [|done].
  apply bind_Some in Hs as (u & Hu & [= <-]). assert (demux_open (core u) = demux_open (core (path s)) /\ gauge s = gauge (with_path s u None)
    /\ (e <> AddFlow -> (length (queue (core (path s))) <= length (queue (core u)))%nat)) as (Eo & Eg & Hq).
  { assert (e = AddFlow \/ e <> AddFlow) as [->|Hne] by (destruct e; first [by left|by right]).
    - cbn [step] in Hu. destruct (queue (core (path s))); [done|]. by injection Hu as <-.
    - assert (frame (path s) u) as [] by (eapply data_step_frame; [exact Hu|]; by destruct e). unfold gauge. by split_and!. }
  split; cbn; [by eapply path_step|by rewrite Eo| |].
  - split; cbn; try done; [intros; unfold gauge in Eg; cbn in Eg; rewrite <- Eg; by apply C5| |].
    + intros n En. destruct e; try (destruct (C6 n En); split; [etrans; [|by apply Hq]; done|done]).
      destruct (shutdown_ahead s) as [m|]; [|done]. destruct (C6 m eq_refl) as [Hm ?]. split; [|done]. injection En as <-.
      cbn [step] in Hu. destruct (queue (core (path s))); [done|]. injection Hu as <-. cbn in *. lia.
    + rewrite Eo. intros Hk Ho. specialize (C7 Hk Ho). destruct e; try done. by destruct (shutdown_ahead s).
  - by split.
Qed.

Lemma sys_step_inv g0 rule cap s ev s' :
  sys_inv g0 s -> sys_ev_ok ev -> sys_step rule cap s ev = Some s' -> sys_inv g0 s'.
Proof.
  intros Hinv Hv Hs. pose proof Hinv as [Hp Ht [C1 C2 C3 C4 C5 C6 C7] [Rs Rf Rd Rr]].
  destruct ev as [|i|i je| |i| | | | | | |port e]; [..|exact (data_inv _ _ _ _ _ _ _ Hinv Hv Hs)]; cbn [sys_step] in Hs.
  - destruct (rule_cancel (sup s)) eqn:Ec; [done|]. injection Hs as <-. split; cbn; [done|done|by split|split; cbn; try done].
    destruct (state (sup s)); [done..|]. by split_and!; [apply Rs|apply Rs|].
  - apply bind_Some in Hs as ([r []] & Hi & He); [|done..]. destruct (stop_requested s r); [|done]. by eapply (end_task_inv _ _ _ _ _ _ _ Hinv Hi); [|exact He].
  - apply bind_Some in Hs as ([r []] & Hi & He); [|done..]. by eapply (end_task_inv _ _ _ _ _ _ _ Hinv Hi); [|exact He].
  - destruct (phase (sup s)) eqn:Eph; try done. destruct (shutdown_rx s) eqn:Erx; [|done]. injection Hs as <-.
    eapply begin_drain_inv; try done. split; cbn; try done; [|rewrite Erx; destruct (run s) as [|r|]; [done|done|by destruct Rr]].
    split_and!; [lia| |done]. destruct (state (sup s)); [apply Rs|..]; cbn in Rs; lia.
  - by eapply join_inv.
  - by eapply advance_inv.
  - by eapply send_shutdown_inv.
  - destruct (run s) eqn:Er; [|done..]. destruct (rule_cancel (sup s)) eqn:Ec; [|done]. injection Hs as <-. split; cbn; [done|done|by split|].
    split; cbn; try done. destruct (state (sup s)); [done|..]; destruct Rs as (? & ? & ?); [congruence|by split_and!].
  - destruct (run s) eqn:Er; [|done..]. destruct (failed_rx s) as [reason|] eqn:Ef; [|done]. injection Hs as <-.
    split; cbn; [done|done|by split|]. split; cbn; try done; [|by rewrite Ef|].
    + destruct (state (sup s)); [done| |done]. destruct Rs as (? & ? & ?). congruence.
    + split; [done|]. destruct (state (sup s)); [by destruct Rs as [_ Rs]; rewrite Rs in Rf|by destruct Rs as [_ [Rs _]]; rewrite Rs in Rf|].
      destruct (callbacks s) as [|x [|]]; cbn in *; [lia| |lia]. by injection Rf as ->.
  - unfold report in Hs. destruct (run s) as [|r|]; [done| |done]. destruct (completion s) eqn:Ec; [|done]. injection Hs as <-.
    split; cbn; [done|done|by split|]. split; cbn; try done; [by rewrite Ec|]. split; [apply Rr|]. by destruct (phase (sup s)).
  - destruct (alive s StatsPump) eqn:Ea; [|done]. injection Hs as <-. split; cbn; [done|done| |by split].
    split; cbn; try done. intros Hk. apply bool_decide_eq_true in Ea. apply (to_rank _ _ _ _ Ht) in Ea. cbn in Ea. lia.
Qed.

Lemma sys_exec_inv g0 rule cap s evs s' :
  sys_inv g0 s -> Forall sys_ev_ok evs -> sys_exec rule cap s evs = Some s' -> sys_inv g0 s'.
Proof.
  intros Hi Hv. revert s Hi. induction Hv as [|ev evs Hev Hv IH]; intros s Hi; cbn [sys_exec]; [by intros [= <-]|].
  intros (s1 & Hs & He)%bind_Some. eapply IH; [|exact He]. by eapply sys_step_inv.
Qed.

(** ** The start *)

Lemma bind_sockets_extends os net0 net bound ports :
  Range.wf_net net0 -> Range.extends net0 bound.*2 net ->
  (forall p i, (p, i) ∈ bound -> Range.open net !! i = Some (Range.V4, p)) ->
  match bind_sockets os net bound ports with
  | (Ok socks, net') => Range.extends net0 socks.*2 net' /\ socks.*1 = bound.*1 ++ ports /\
      forall p i, (p, i) ∈ socks -> Range.open net' !! i = Some (Range.V4, p)
  | (Err port, net') => Range.open net' = Range.open net0 /\ port ∈ ports
  end.
Proof.
  intros Hw0. revert net bound. induction ports as [|port ports IH]; intros net bound Hext Hb; cbn.
  { by rewrite app_nil_r. }
  pose proof (Range.bind_extends os Range.V4 net port (Range.ext_wf _ _ _ Hext)) as Hbi.
  destruct (Range.bind os Range.V4 net port) as [[i|e] n1].
  - destruct Hbi as [He Ho]. specialize (IH n1 (bound ++ [(port, i)])). rewrite !fmap_app in IH. cbn in IH.
    specialize (IH (Range.extends_trans _ _ _ _ _ Hext He)).
    assert (forall p j, (p, j) ∈ bound ++ [(port, i)] -> Range.open n1 !! j = Some (Range.V4, p)) as Hb'.
    { intros p j. rewrite elem_of_app, list_elem_of_singleton. intros [Hin|[= -> ->]]; [|done].
      rewrite (Range.ext_rest _ _ _ He); [by apply Hb|]. intros ->%list_elem_of_singleton.
      specialize (Hb _ _ Hin). pose proof (Range.ext_wf _ _ _ Hext i) as Hl. rewrite Hb in Hl.
      specialize (Hl (ex_intro _ _ eq_refl)). pose proof (Range.ext_ids _ _ _ He) as Hi. inversion Hi. lia. }
    specialize (IH Hb'). destruct (bind_sockets os n1 _ ports) as [[socks|p] n2].
    + by rewrite <- app_assoc in IH.
    + destruct IH as [? ?]. split; [done|by right].
  - subst n1. split; [|by left]. by apply Range.close_extends.
Qed.

Lemma listeners_only (ls : list Z) : filter is_listener ((fun p => (Listener p, Alive)) <$> ls) = (fun p => (Listener p, Alive)) <$> ls.
Proof. induction ls as [|p ls IH]; [done|]. cbn [fmap list_fmap]. rewrite filter_cons_True by done. by f_equal. Qed.

(** The tasks of a fresh runtime. *)
Lemma start_tasks rule (u : Udp) ports : NoDup ports ->
  tasks_ok (tasks (start rule u ports)) Selecting (pending (sup (start rule u ports))) true.
Proof.
  intros Hd. cbn [tasks sup pending start]. apply (NoDup_filter (fun p => is_Some (port_map p (RuleRun.listen_range rule) (RuleRun.target_range rule)))) in Hd.
  fold (listeners rule ports) in Hd. set (ls := listeners rule ports) in *. set (lt := (fun p => (Listener p, Alive)) <$> ls).
  assert (forall r x, (r, x) ∈ lt -> exists p, r = Listener p /\ p ∈ ls) as Hl.
  { intros r x (p & [= -> ->] & Hp)%list_elem_of_fmap. eauto. }
  assert (forall r, r ∈ lt.*1 -> exists p, r = Listener p) as Hr.
  { intros r ([r' x] & -> & (p & -> & _)%Hl)%list_elem_of_fmap. by exists p. }
  split.
  - cbn. assert (forall r, (forall p, r <> Listener p) -> r ∉ lt.*1) as H3 by (intros r Hn [p ->]%Hr; by eapply Hn).
    rewrite !NoDup_cons, !not_elem_of_cons. split_and!; try done; try by apply H3.
    subst lt. rewrite <- list_fmap_compose. apply NoDup_fmap; [by intros ? ? [= ?]|done].
  - intros r x Hin. cbn. lia.
  - rewrite !filter_cons_False by (cbn; tauto). unfold lt. rewrite listeners_only, length_fmap. done.
  - intros r x. rewrite !elem_of_cons. intros [[= -> ->]|[[= -> ->]|[[= -> ->]|(p & -> & Hp)%Hl]]]; try done.
    cbn [stage_of waits_for listener_pending]. apply Nat.ltb_lt. destruct ls; [by apply elem_of_nil in Hp|cbn; lia].
  - split; [by left|done].
Qed.

Lemma started os rule received n net (u : Udp) net' s :
  Range.wf_net net -> run_udp os rule received n net u = inr (net', s) ->
  exists ports, NoDup ports /\ sup s = sup (start rule u ports) /\ tasks s = tasks (start rule u ports) /\ path s = u /\
    shutdown_ahead s = None /\ callbacks s = [] /\ run_ok s /\
    status s = if received then [RuleRun.Activated (RuleRun.rule_id rule)] else [].
Proof.
  intros Hn Hs. unfold run_udp in Hs.
  pose proof (bind_sockets_extends os net net [] (PortRange.iter (RuleRun.listen_range rule)) Hn (Range.extends_refl net Hn)) as Hb.
  destruct (bind_sockets _ _ _ _) as [[socks|p] n1]; [|done]. destruct Hb as (_ & Ep & _); [by intros ? ? ?%elem_of_nil|].
  cbn in Ep. injection Hs as <- Es. exists socks.*1. split; [rewrite Ep; apply NoDup_seqZ|].
  destruct received; subst s; split_and!; try done; by split.
Qed.

Lemma start_sys_inv os rule received n net w t net' s :
  wf_world w -> Range.wf_net net -> run_udp os rule received n net (mkUdp (start_core w) t) = inr (net', s) ->
  sys_inv (gauges w) s.
Proof.
  intros Hw Hn Hs. destruct (started _ _ _ _ _ _ _ _ Hn Hs) as (ports & Hd & E1 & E2 & E3 & E4 & _ & Hr & _).
  split; [rewrite E3; by apply start_inv|rewrite E1, E2, E3; by apply start_tasks| |done].
  rewrite E1, E3, E4. split; cbn; try done; lia.
Qed.

(** ** Without panics *)

Definition no_panic (ev : Ev) : Prop := match ev with Panic _ _ => False | _ => True end.

Record calm (ts : list (Role * TaskState)) (p : Pending) : Prop := {
  ca_tasks : forall r je, (r, Panicked je) ∉ ts;
  ca_listeners : listener_pending p = length (filter is_listener ts);
  ca_pending : forall r, (forall port, r <> Listener port) -> waits_for p (stage_of r) = true -> r ∈ ts.*1;
}.

(** Who a drain loop waits for is there. *)
Lemma calm_waits ts p st : calm ts p -> st <> Leftovers -> waits_for p st = true ->
  exists r t, (r, t) ∈ ts /\ stage_of r = st /\ t <> Alive \/ (r, Alive) ∈ ts /\ stage_of r = st.
Proof.
  intros [_ Hl Hp] Hst Hw. assert (exists r t, (r, t) ∈ ts /\ stage_of r = st) as (r & t & Hin & Es).
  { assert (forall r, (forall port, r <> Listener port) -> stage_of r = st -> exists r t, (r, t) ∈ ts /\ stage_of r = st) as Hone.
    { intros r Hr <-. specialize (Hp r Hr Hw). apply list_elem_of_fmap in Hp as ([r' t] & -> & Hin). by exists r', t. }
    destruct st; [by apply (Hone StatsPump)| |by apply (Hone Reaper)|by apply (Hone Demux)|done].
    cbn [waits_for] in Hw. apply Nat.ltb_lt in Hw. rewrite Hl in Hw.
    destruct (filter is_listener ts) as [|[r t] fl] eqn:Ef; [cbn in Hw; lia|].
    assert ((r, t) ∈ filter is_listener ts) as Hin by (rewrite Ef; by left).
    apply list_elem_of_filter in Hin as [Hil Hin]. exists r, t. split; [done|]. by destruct r. }
  exists r, t. destruct t; [by right|by left..].
Qed.

Lemma calm_join ts ts' r ph p o : tasks_ok (ts ++ (r, Returned) :: ts') ph p o -> calm (ts ++ (r, Returned) :: ts') p ->
  calm (ts ++ ts') (decrement_pending p (Ok r)).
Proof.
  intros [Hd _ _ _ _] [Ht Hl Hp]. pose proof (middle_roles _ _ _ _ Hd) as Hne. split.
  - intros r' je Hin. apply (Ht r' je). rewrite elem_of_app, elem_of_cons. apply elem_of_app in Hin. tauto.
  - rewrite filter_app, filter_cons, length_app in *. destruct r; cbn in *;
      rewrite ?decide_True, ?decide_False in Hl by (unfold is_listener; cbn; tauto); cbn in Hl; lia.
  - intros r' Hr' Hw. assert (r' <> r /\ waits_for p (stage_of r') = true) as [Hrr Hw'].
    { destruct r' as [q| | |]; [by destruct (Hr' q)|..]; by destruct r. }
    specialize (Hp r' Hr' Hw'). rewrite fmap_app, elem_of_app in *. cbn in Hp. rewrite elem_of_cons in Hp. tauto.
Qed.

Lemma calm_exit ts ts' r p : calm (ts ++ (r, Alive) :: ts') p -> calm (ts ++ (r, Returned) :: ts') p.
Proof.
  intros [Ht Hl Hp]. split.
  - intros r' je. rewrite elem_of_app, elem_of_cons. intros [Hin|[Hin|Hin]]; [|done|];
      apply (Ht r' je); rewrite elem_of_app, elem_of_cons; tauto.
  - rewrite Hl, !filter_app, !length_app, !filter_cons. by destruct (decide (is_listener (r, Alive))), (decide (is_listener (r, Returned))).
  - intros r' Hr' Hw. specialize (Hp r' Hr' Hw). by rewrite fmap_app in *.
Qed.

Lemma end_task_tasks cfg s i r t s' : end_task cfg s i r t = Some s' ->
  tasks s' = <[i := (r, t)]> (tasks s) /\ sup s' = sup s /\ callbacks s' = callbacks s /\ run s' = run s.
Proof. unfold end_task. destruct r; [by intros [= <-]| |by intros [= <-]..]. by intros (u & _ & [= <-])%bind_Some. Qed.

Lemma sys_step_calm g0 rule cap s ev s' : sys_inv g0 s -> calm (tasks s) (pending (sup s)) -> no_panic ev ->
  sys_step rule cap s ev = Some s' -> calm (tasks s') (pending (sup s')).
Proof.
  intros Hinv Hc Hn Hs. destruct ev as [|i|i je| |i| | | | | | |port e]; try done; cbn [sys_step] in Hs.
  - destruct (rule_cancel _); [done|]. by injection Hs as <-.
  - apply bind_Some in Hs as ([r []] & Hi & He); [|done..]. destruct (stop_requested s r); [|done].
    destruct (end_task_tasks _ _ _ _ _ _ He) as (-> & -> & _). destruct (list_elem_of_split_length _ _ _ Hi) as (l1 & l2 & El & ->).
    rewrite El, insert_app_r_alt, Nat.sub_diag by done. rewrite El in Hc. by apply calm_exit.
  - destruct (phase (sup s)); try done. destruct (shutdown_rx s); [|done]. by injection Hs as <-.
  - apply bind_Some in Hs as ([r t] & Hi & (res & Hj & He)%bind_Some).
    destruct (list_elem_of_split_length _ _ _ Hi) as (l1 & l2 & El & ->). rewrite El, delete_middle in He. rewrite El in Hc.
    pose proof (si_tasks _ _ Hinv) as Ht. rewrite El in Ht. unfold joined in Hj. destruct t as [| |je]; [done| |].
    + injection Hj as <-. pose proof (calm_join _ _ _ _ _ _ Ht Hc) as Hc'. cbn [sup with_tasks] in He.
      destruct (phase (sup s)); [destruct (shutdown_rx _); [done|]|destruct (waits_for _ _); [|done]|done..]; by injection He as <-.
    + exfalso. apply (ca_tasks _ _ Hc r je). rewrite elem_of_app, elem_of_cons. tauto.
  - unfold advance in Hs. destruct (phase (sup s)) as [|st| |]; try done. destruct (waits_for _ _ && _); [done|].
    destruct st; try by injection Hs as <-. by apply bind_Some in Hs as (u & _ & [= <-]).
  - unfold send_shutdown in Hs. destruct (phase (sup s)); try done. destruct (negb _); [by injection Hs as <-|].
    destruct (_ <? _)%nat; [|done]. by injection Hs as <-.
  - destruct (run s); [|done..]. destruct (rule_cancel _); [|done]. by injection Hs as <-.
  - destruct (run s); [|done..]. destruct (failed_rx s); [|done]. by injection Hs as <-.
  - unfold report in Hs. destruct (run s); [done| |done]. destruct (completion s); [|done]. by injection Hs as <-.
  - destruct (alive s StatsPump); [|done]. by injection Hs as <-.
  - destruct (data_allowed s port e); [|done]. by apply bind_Some in Hs as (u & _ & [= <-]).
Qed.

(** ** Termination *)

Definition task_weight (t : Role * TaskState) : Z := match t.2 with Alive => 2 | _ => 1 end.

(** What is left to do for the tasks, the supervisor and the run. *)
Definition left_to_do (s : Sys) : Z :=
  sum_of task_weight (tasks s) + (7 - Z.of_nat (rank (phase (sup s)))) +
  (match run s with Waiting => 2 | Closing _ => 1 | Ended => 0 end) + (if rule_cancel (sup s) then 0 else 1).

(** Traffic: the data path and the pump's ticks. *)
Definition traffic (ev : Ev) : bool := match ev with Data _ _ | PumpTick => true | _ => false end.

Lemma weight_join ts ts' x : joined x <> None ->
  sum_of task_weight (ts ++ x :: ts') = sum_of task_weight (ts ++ ts') + 1.
Proof. intros Hj. rewrite !sum_of_app. unfold sum_of at 2. cbn. fold (sum_of task_weight ts'). destruct x as [r []]; cbn in *; [done|lia..]. Qed.

Lemma step_decreases rule cap s ev s' : sys_step rule cap s ev = Some s' ->
  if traffic ev then left_to_do s' = left_to_do s else left_to_do s' < left_to_do s.
Proof.
  intros Hs. unfold left_to_do. destruct ev as [|i|i je| |i| | | | | | |port e]; cbn [sys_step traffic] in *.
  - destruct (rule_cancel _) eqn:E; [done|]. injection Hs as <-. cbn -[sum_of]. lia.
  - apply bind_Some in Hs as ([r []] & Hi & He); [|done..]. destruct (stop_requested s r); [|done].
    destruct (end_task_tasks _ _ _ _ _ _ He) as (-> & -> & _ & ->). rewrite (sum_of_insert _ _ _ _ _ Hi). cbn -[sum_of]. lia.
  - apply bind_Some in Hs as ([r []] & Hi & He); [|done..].
    destruct (end_task_tasks _ _ _ _ _ _ He) as (-> & -> & _ & ->). rewrite (sum_of_insert _ _ _ _ _ Hi). cbn -[sum_of]. lia.
  - destruct (phase (sup s)); try done. destruct (shutdown_rx s); [|done]. injection Hs as <-. cbn -[sum_of]. lia.
  - apply bind_Some in Hs as (x & Hi & (res & Hj & He)%bind_Some).
    destruct (list_elem_of_split_length _ _ _ Hi) as (l1 & l2 & El & ->). rewrite El, delete_middle in He. rewrite El, weight_join by congruence.
    cbn [sup with_tasks] in He. destruct (phase (sup s)) as [|st| |] eqn:Eph; [destruct (shutdown_rx _); [done|]|destruct (waits_for _ _); [|done]|done..];
      injection He as <-; cbn -[sum_of]; rewrite ?Eph; destruct (rule_cancel (sup s)); cbn -[sum_of]; lia.
  - unfold advance in Hs. destruct (phase (sup s)) as [|st| |]; try done. destruct (waits_for _ _ && _); [done|].
    destruct st; try (injection Hs as <-; cbn -[sum_of]; lia). apply bind_Some in Hs as (u & _ & [= <-]). cbn -[sum_of]. lia.
  - unfold send_shutdown in Hs. destruct (phase (sup s)); try done. destruct (negb _); [injection Hs as <-; cbn -[sum_of]; lia|].
    destruct (_ <? _)%nat; [|done]. injection Hs as <-. cbn -[sum_of]. lia.
  - destruct (run s); [|done..]. destruct (rule_cancel _) eqn:E; [|done]. injection Hs as <-. cbn -[sum_of]. rewrite E. lia.
  - destruct (run s); [|done..]. destruct (failed_rx s); [|done]. injection Hs as <-. cbn -[sum_of]. lia.
  - unfold report in Hs. destruct (run s); [done| |done]. destruct (completion s); [|done]. injection Hs as <-. cbn -[sum_of]. lia.
  - destruct (alive s StatsPump); [|done]. injection Hs as <-. done.
  - destruct (data_allowed s port e); [|done]. by apply bind_Some in Hs as (u & _ & [= <-]).
Qed.

(** The run has been asked to stop. *)
Definition stopping (s : Sys) : Prop := rule_cancel (sup s) = true \/ shutdown_rx s = true.

(** The branches of one event, with the state after it. *)
Ltac invert_step Hs :=
  repeat match type of Hs with
  | None = Some _ => discriminate Hs
  | Some _ = Some _ => injection Hs as <-
  | mbind _ _ = Some _ => apply bind_Some in Hs as (? & ? & Hs)
  | context [match ?x with _ => _ end] => destruct x eqn:?
  end.

Lemma stopping_kept rule cap s ev s' : sys_step rule cap s ev = Some s' -> stopping s -> stopping s'.
Proof.
  unfold stopping. intros Hs Hst. destruct ev; cbn [sys_step] in Hs;
    unfold end_task, join, advance, send_shutdown, report in Hs; cbn [sup with_tasks phase] in Hs; invert_step Hs; cbn; auto.
Qed.

(** An event that brings the end nearer: one of the parties moves, or the
    demultiplexer's channel gets shorter. *)
Definition advances (rule : RuleRun.ClientRule) (cap : Z) (s : Sys) : Prop :=
  exists ev s', no_panic ev /\ sys_ev_ok ev /\ sys_step rule cap s ev = Some s' /\
    (traffic ev = false \/
     traffic ev = true /\ (length (queue (core (path s'))) < length (queue (core (path s))))%nat).

Lemma path_can g0 cfg (u : Udp) e : inv g0 (core u) -> ev_ok e -> enabled u e -> exists u', step cfg u e = Some u'.
Proof. intros Hi Hv He. destruct (path_step_inv g0 cfg u e Hi Hv He) as (u' & E & _). eauto. Qed.

(** The demultiplexer can take the next command. *)
Lemma advances_add g0 rule cap s : sys_inv g0 s -> demux_open (core (path s)) = true -> queue (core (path s)) <> [] ->
  shutdown_ahead s <> Some 0%nat -> advances rule cap s.
Proof.
  intros [Hp Ht _ _] Ho Hq Ha. apply (to_open _ _ _ _ Ht) in Ho. exists (Data 0 AddFlow). cbn [sys_step data_allowed].
  unfold alive. rewrite !bool_decide_true by done. cbn [andb step].
  destruct (queue (core (path s))) as [|kf q] eqn:Eq; [done|]. eexists. split_and!; [done|done|done|right]. cbn. by split; [|lia].
Qed.

Lemma exit_can g0 rule cap s i r : sys_inv g0 s -> tasks s !! i = Some (r, Alive) -> stop_requested s r = true ->
  advances rule cap s.
Proof.
  intros Hi Ht Hs. exists (Exit i). cbn [sys_step]. rewrite Ht. cbn [mbind option_bind]. rewrite Hs. unfold end_task.
  destruct r; try (eexists; split_and!; [done|done|done|by left]).
  destruct (path_can g0 (listener_cfg rule cap (PortRange.start (RuleRun.listen_range rule)))
    (path (with_tasks s (<[i := (Demux, Returned)]> (tasks s)))) DemuxExit (si_path _ _ Hi) I I) as [u ->].
  eexists. split_and!; [done|done|done|by left].
Qed.

Lemma advance_can g0 rule cap s st : sys_inv g0 s -> phase (sup s) = Draining st ->
  waits_for (pending (sup s)) st && negb (length (tasks s) =? 0)%nat = false -> advances rule cap s.
Proof.
  intros Hi Eph Ew. exists Advance. cbn [sys_step]. unfold advance. rewrite Eph, Ew.
  destruct st; try (eexists; split_and!; [done|done|done|by left]).
  destruct (path_can g0 (listener_cfg rule cap (PortRange.start (RuleRun.listen_range rule))) (path s) DrainRegistry (si_path _ _ Hi) I I) as [u ->].
  eexists. split_and!; [done|done|done|by left].
Qed.

Lemma sup_drain_progress g0 rule cap s st : sys_inv g0 s -> calm (tasks s) (pending (sup s)) -> phase (sup s) = Draining st ->
  advances rule cap s.
Proof.
  intros Hinv Hcalm Eph. pose proof Hinv as [Hp Ht [C1 C2 C3 C4 C5 C6 C7] _]. rewrite Eph in *.
  destruct (waits_for (pending (sup s)) st) eqn:Ew; [|eapply advance_can; [done..|by rewrite Ew]].
  assert (st = Leftovers \/ st <> Leftovers) as [->|Hst] by (destruct st; first [by left|by right]).
  { eapply advance_can; [done..|]. destruct (tasks s) as [|[r t] ts]; [done|]. exfalso.
    pose proof (to_rank _ _ _ _ Ht r t ltac:(by left)) as Hr. destruct r; cbn in Hr; lia. }
  destruct (calm_waits _ _ _ Hcalm Hst Ew) as (r & t & [(Hin & Es & Hne)|(Hin & Es)]);
    apply list_elem_of_lookup in Hin as [i Hi].
  - exists (Join i). cbn [sys_step]. unfold join. rewrite Hi. cbn [mbind option_bind].
    assert (exists res, joined (r, t) = Some res) as [res ->] by (destruct t; [done|cbn; eauto..]). cbn [mbind option_bind sup with_tasks].
    rewrite Eph, Ew. eexists. split_and!; [done|done|done|by left].
  - destruct (decide (r = Demux)) as [->|Hr].
    + subst st. cbn in Eph. assert (demux_open (core (path s)) = true) as Ho.
      { apply (to_open _ _ _ _ Ht). by eapply list_elem_of_lookup_2. }
      specialize (C7 ltac:(cbn; lia) Ho). destruct (shutdown_ahead s) as [[|n]|] eqn:Ea; [..|done].
      * eapply exit_can; [done|exact Hi|]. cbn. by rewrite Ea.
      * destruct (C6 _ eq_refl) as [Hl _]. eapply advances_add; [done|done| |by rewrite Ea].
        intros E. rewrite E in Hl. cbn in Hl. lia.
    + eapply exit_can; [done|exact Hi|]. subst st. destruct r; [| done| |]; apply orb_true_iff; right; cbn in *;
        [apply C3|apply C4|apply C2]; lia.
Qed.

Lemma progress g0 rule cap s : sys_inv g0 s -> calm (tasks s) (pending (sup s)) -> run s <> Ended -> stopping s ->
  advances rule cap s.
Proof.
  intros Hinv Hcalm Hne Hst. pose proof Hinv as [Hp Ht _ [Rs Rf Rd Rr]].
  assert (run s = Waiting -> rule_cancel (sup s) = true -> advances rule cap s) as Htake.
  { intros Er Ec. exists TakeCancel. cbn [sys_step]. rewrite Er, Ec. eexists. split_and!; [done|done|done|by left]. }
  destruct (phase (sup s)) as [|st| |] eqn:Eph.
  - destruct (shutdown_rx s) eqn:Erx.
    + exists Signal. cbn [sys_step]. rewrite Eph, Erx. eexists. split_and!; [done|done|done|by left].
    + destruct Hst as [Hst|Hst]; [|congruence]. apply Htake; [|done]. destruct (run s); [done|by destruct Rr..].
  - by eapply sup_drain_progress.
  - destruct (demux_open (core (path s))) eqn:Ho.
    + destruct (length (queue (core (path s))) <? DEMUX_CHANNEL)%nat eqn:El.
      * exists SendShutdown. cbn [sys_step]. unfold send_shutdown. rewrite Eph, Ho, El. eexists. split_and!; [done|done|done|by left].
      * eapply advances_add; [done|done| |].
        -- intros E. by rewrite E in El.
        -- intros E. destruct (co_ahead _ _ _ (si_ctl _ _ Hinv) _ E) as [_ Hk]. rewrite Eph in Hk. cbn in Hk. lia.
    + exists SendShutdown. cbn [sys_step]. unfold send_shutdown. rewrite Eph, Ho. eexists. split_and!; [done|done|done|by left].
  - destruct (run s) as [|r|] eqn:Er; [|exists Report; cbn [sys_step]; unfold report; rewrite Er, Rd; eexists; split_and!; [done|done|done|by left]|done].
    apply Htake; [done|]. destruct (state (sup s)); [destruct Rs as [Rs _]; cbn in Rs; lia|destruct Rs as (_ & _ & Rs); congruence|apply Rs].
Qed.

Lemma left_nonneg s : 0 <= left_to_do s.
Proof.
  unfold left_to_do. pose proof (sum_of_nonneg task_weight (tasks s)) as Hs.
  assert (0 <= sum_of task_weight (tasks s)) by (apply Hs; intros [r []]; cbn; lia).
  assert (rank (phase (sup s)) <= 7)%nat by (destruct (phase (sup s)) as [|[]| |]; cbn; lia).
  destruct (run s), (rule_cancel (sup s)); lia.
Qed.

Lemma completes g0 rule cap s : sys_inv g0 s -> calm (tasks s) (pending (sup s)) -> stopping s ->
  exists evs s', Forall (fun ev => no_panic ev /\ sys_ev_ok ev) evs /\ sys_exec rule cap s evs = Some s' /\ run s' = Ended.
Proof.
  remember (Z.to_nat (left_to_do s)) as m eqn:Em. revert s Em. induction m as [m IHm] using lt_wf_ind. intros s Em.
  remember (length (queue (core (path s)))) as q eqn:Eq. revert s Em Eq. induction q as [q IHq] using lt_wf_ind.
  intros s Em Eq Hi Hc Hst. destruct (decide (run s = Ended)) as [Hr|Hr]; [by exists [], s|].
  destruct (progress g0 rule cap s Hi Hc Hr Hst) as (ev & s1 & Hn & Hv & Hs & Hd).
  pose proof (sys_step_inv _ _ _ _ _ _ Hi Hv Hs) as Hi1. pose proof (sys_step_calm _ _ _ _ _ _ Hi Hc Hn Hs) as Hc1.
  pose proof (stopping_kept _ _ _ _ _ Hs Hst) as Hst1. pose proof (step_decreases _ _ _ _ _ Hs) as Hm.
  pose proof (left_nonneg s1) as Hp1. pose proof (left_nonneg s) as Hp0.
  assert (exists evs s', Forall (fun ev => no_panic ev /\ sys_ev_ok ev) evs /\ sys_exec rule cap s1 evs = Some s' /\ run s' = Ended)
    as (evs & s' & Hevs & He & Hend).
  { destruct Hd as [Ht|[Ht Hlt]]; rewrite Ht in Hm.
    - apply (IHm (Z.to_nat (left_to_do s1))); [lia|done..].
    - apply (IHq (length (queue (core (path s1))))); [lia|congruence|done..]. }
  exists (ev :: evs), s'. split; [by constructor|]. cbn [sys_exec]. by rewrite Hs.
Qed.

(** ** The report *)

Definition final_report (rule : RuleRun.ClientRule) (r : Reason) : list RuleRun.RuleStatusEvent :=
  match r with
  | ByCancel => [RuleRun.Removed (RuleRun.rule_id rule)]
  | ByFailure reason => [RuleRun.Failed (RuleRun.rule_id rule) reason]
  | ReceiverGone => []
  end.

(** At most one report follows those of the start, and a failure is one the
    callback was called with. *)
Definition reported (rule : RuleRun.ClientRule) (st0 : list RuleRun.RuleStatusEvent) (s : Sys) : Prop :=
  match run s with
  | Ended => exists r, status s = st0 ++ final_report rule r /\
      match r with ByFailure reason => callbacks s = [reason] | _ => True end
  | _ => status s = st0
  end.

Lemma reported_step g0 rule cap st0 s ev s' : sys_inv g0 s -> reported rule st0 s -> sys_step rule cap s ev = Some s' ->
  reported rule st0 s'.
Proof.
  unfold reported. intros Hi Hr Hs. pose proof (ro_run _ (si_run _ _ Hi)) as Hrr.
  destruct ev; cbn [sys_step] in Hs; unfold end_task, join, advance, send_shutdown, report in Hs;
    cbn [sup with_tasks phase] in Hs; invert_step Hs; cbn; try done.
  - destruct (run s); [done|done|]. destruct Hrr. congruence.
  - eexists. rewrite Hr. split; [done|apply Hrr].
Qed.

Lemma reported_exec g0 rule cap st0 s evs s' : sys_inv g0 s -> reported rule st0 s -> Forall sys_ev_ok evs ->
  sys_exec rule cap s evs = Some s' -> reported rule st0 s'.
Proof.
  intros Hi Hr Hv. revert s Hi Hr. induction Hv as [|ev evs Hev Hv IH]; intros s Hi Hr; cbn [sys_exec]; [by intros [= <-]|].
  intros (s1 & Hs & He)%bind_Some. eapply IH; [by eapply sys_step_inv|by eapply reported_step|done].
Qed.

Lemma calm_exec g0 rule cap s evs s' : sys_inv g0 s -> calm (tasks s) (pending (sup s)) -> Forall sys_ev_ok evs ->
  Forall no_panic evs -> sys_exec rule cap s evs = Some s' -> calm (tasks s') (pending (sup s')).
Proof.
  intros Hi Hc Hv Hn. revert s Hi Hc. induction evs as [|ev evs IH]; intros s Hi Hc; cbn [sys_exec]; [by intros [= <-]|].
  apply Forall_cons in Hv as [? Hv], Hn as [? Hn]. intros (s1 & Hs & He)%bind_Some.
  eapply IH; [done|done|by eapply sys_step_inv|by eapply sys_step_calm|done].
Qed.

Lemma start_calm rule (u : Udp) ports : calm (tasks (start rule u ports)) (pending (sup (start rule u ports))).
Proof.
  cbn [tasks sup pending start]. split.
  - intros r je. rewrite !elem_of_cons. intros [?|[?|[?|(p & ? & _)%list_elem_of_fmap]]]; done.
  - rewrite !filter_cons_False by (cbn; tauto). by rewrite listeners_only, length_fmap.
  - intros [port| | |] Hr _; [by destruct (Hr port)|..]; cbn; rewrite !elem_of_cons; tauto.
Qed.

(** ** Who makes the rule fail *)

(** Nothing cancelled, no callback, and no task over before the drain. *)
Record untouched (s : Sys) : Prop := {
  un_cancel : rule_cancel (sup s) = false;
  un_calls : callbacks s = [];
  un_alive : phase (sup s) = Selecting -> Forall (fun t => t.2 = Alive) (tasks s);
}.

Definition no_cancel (ev : Ev) : Prop := match ev with Cancel => False | _ => True end.

Lemma untouched_step g0 rule cap s ev s' : sys_inv g0 s -> untouched s -> no_panic ev -> no_cancel ev ->
  sys_step rule cap s ev = Some s' -> untouched s'.
Proof.
  intros Hi [Hc Hb Ha] Hn Hn' Hs. destruct (si_ctl _ _ Hi) as [C1 _ _ _ _ C6 _].
  destruct ev as [|i|i je| |i| | | | | | |port e]; try done; cbn [sys_step] in Hs.
  - apply bind_Some in Hs as ([r []] & Hl & He); [|done..]. destruct (stop_requested s r) eqn:Er; [|done].
    destruct (end_task_tasks _ _ _ _ _ _ He) as (_ & E1 & E2 & _). split; [congruence..|]. rewrite E1. intros Eph. exfalso.
    rewrite Eph in *. destruct (C1 eq_refl) as (T1 & T2 & T3). unfold stop_requested in Er. rewrite Hc, T1, T2, T3 in Er.
    destruct r; try done. apply bool_decide_eq_true in Er. apply C6 in Er. cbn in Er. lia.
  - invert_step Hs. by split.
  - apply bind_Some in Hs as ([r t] & Hl & (res & Hj & He)%bind_Some). cbn [sup with_tasks] in He.
    destruct (phase (sup s)) as [|st| |] eqn:Eph; try done.
    + specialize (Ha eq_refl). rewrite Forall_forall in Ha. apply list_elem_of_lookup_2, Ha in Hl. cbn in Hl. by subst t.
    + destruct (waits_for _ _); [|done]. injection He as <-. split; cbn; [done..|]. by rewrite Eph.
  - unfold advance in Hs. invert_step Hs; by split.
  - unfold send_shutdown in Hs. invert_step Hs; by split.
  - invert_step Hs; by split.
  - invert_step Hs; by split.
  - unfold report in Hs. invert_step Hs; by split.
  - invert_step Hs; by split.
  - invert_step Hs; by split.
Qed.

Lemma untouched_exec g0 rule cap s evs s' : sys_inv g0 s -> untouched s -> Forall sys_ev_ok evs ->
  Forall no_panic evs -> Forall no_cancel evs -> sys_exec rule cap s evs = Some s' -> untouched s'.
Proof.
  intros Hi Hu Hv Hn Hc. revert s Hi Hu. induction evs as [|ev evs IH]; intros s Hi Hu; cbn [sys_exec]; [by intros [= <-]|].
  apply Forall_cons in Hv as [? Hv], Hn as [? Hn], Hc as [? Hc]. intros (s1 & Hs & He)%bind_Some.
  eapply IH; [done..|by eapply sys_step_inv|by eapply untouched_step|done].
Qed.

(** ** A task that panicked *)

(** The supervisor waits for more listeners than there are, and the
    demultiplexer is not going to end. *)
Record stuck (s : Sys) : Prop := {
  st_phase : phase (sup s) = Draining DrainListeners;
  st_more : (length (filter is_listener (tasks s)) < listener_pending (pending (sup s)))%nat;
  st_demux : (Demux, Alive) ∈ tasks s;
  st_ahead : shutdown_ahead s = None;
  st_done : completion s = None;
  st_run : run s <> Ended;
}.

Lemma stuck_step rule cap s ev s' : stuck s -> no_panic ev -> sys_step rule cap s ev = Some s' -> stuck s'.
Proof.
  intros [Hp Hm Hd Ha Hc Hr] Hn Hs. destruct ev as [|i|i je| |i| | | | | | |port e]; try done; cbn [sys_step] in Hs.
  - invert_step Hs; by split.
  - apply bind_Some in Hs as ([r []] & Hl & He); [|done..]. destruct (stop_requested s r) eqn:Er; [|done].
    assert (r <> Demux) as Hrd by (intros ->; cbn in Er; by rewrite Ha in Er).
    destruct (list_elem_of_split_length _ _ _ Hl) as (l1 & l2 & El & ->). unfold end_task in He.
    rewrite El, insert_app_r_alt, Nat.sub_diag in He by done. rewrite El in Hm, Hd.
    destruct r; try done; injection He as <-; (split; cbn -[filter]; [done| | |done..]).
    all: rewrite filter_app, filter_cons, length_app in *.
    all: try (rewrite elem_of_app, elem_of_cons in *; destruct Hd as [?|[?|?]]; [by left|done|by right; right]).
    all: rewrite ?decide_True, ?decide_False in * by (unfold is_listener; cbn; tauto); done.
  - by rewrite Hp in Hs.
  - apply bind_Some in Hs as (x & Hl & (res & Hj & He)%bind_Some). cbn [sup with_tasks] in He. rewrite Hp in He.
    destruct (waits_for _ _); [|done]. injection He as <-.
    destruct (list_elem_of_split_length _ _ _ Hl) as (l1 & l2 & El & ->). rewrite El in Hm, Hd.
    split; cbn -[filter]; [done| | |done..]; rewrite El, delete_middle.
    + rewrite filter_app, length_app in *. rewrite filter_cons in Hm. destruct x as [r t].
      assert (res = Ok r \/ exists je, res = Err je) as [->|[je ->]] by (unfold joined in Hj; destruct t; inversion Hj; eauto).
      * destruct r; cbn -[filter] in *; rewrite ?decide_True, ?decide_False in Hm by (unfold is_listener; cbn; tauto); cbn -[filter] in Hm; lia.
      * cbn -[filter]. destruct (decide _); cbn -[filter] in Hm; lia.
    + rewrite elem_of_app, elem_of_cons in *. destruct Hd as [?|[<-|?]]; [tauto|done|tauto].
  - unfold advance in Hs. rewrite Hp in Hs. assert (waits_for (pending (sup s)) DrainListeners = true) as Ew.
    { apply Nat.ltb_lt. lia. }
    rewrite Ew in Hs. by destruct (tasks s); [apply elem_of_nil in Hd|].
  - unfold send_shutdown in Hs. by rewrite Hp in Hs.
  - invert_step Hs; by split.
  - invert_step Hs; by split.
  - unfold report in Hs. rewrite Hc in Hs. by destruct (run s).
  - invert_step Hs; by split.
  - destruct (data_allowed s port e); [|done]. apply bind_Some in Hs as (u & _ & [= <-]). split; try done. cbn. rewrite Ha. by destruct e.
Qed.

Lemma stuck_exec rule cap s evs s' : stuck s -> Forall no_panic evs -> sys_exec rule cap s evs = Some s' -> stuck s'.
Proof.
  intros Hst Hn. revert s Hst. induction Hn as [|ev evs He Hn IH]; intros s Hst; cbn [sys_exec]; [by intros [= <-]|].
  intros (s1 & Hs & Hx)%bind_Some. eapply IH; [by eapply stuck_step|done].
Qed.

(** ** Theorems *)


(** The shutdown of a UDP rule terminates.  Unless a task panics, a rule
    that has been asked to stop can always be driven to the end of its run
    whatever it was doing, also with the demultiplexer's channel full; and each
    step on the way other than traffic is one of a finite number: every such
    step, panics included, lowers the same measure, which traffic leaves
    alone. *)
Theorem udp_shutdown_completes os rule received n net w t net' s0 cap evs s :
  wf_world w -> Range.wf_net net -> run_udp os rule received n net (mkUdp (start_core w) t) = inr (net', s0) ->
  Forall sys_ev_ok evs -> Forall no_panic evs -> sys_exec rule cap s0 evs = Some s -> stopping s ->
  (exists evs' s', Forall (fun ev => no_panic ev /\ sys_ev_ok ev) evs' /\ sys_exec rule cap s evs' = Some s' /\ run s' = Ended) /\
  0 <= left_to_do s /\
  (forall ev s', sys_step rule cap s ev = Some s' ->
     if traffic ev then left_to_do s' = left_to_do s else left_to_do s' < left_to_do s).
Proof.
  intros Hw Hn Hs Hv Hc He Hst. pose proof (start_sys_inv _ _ _ _ _ _ _ _ _ Hw Hn Hs) as Hi0.
  destruct (started _ _ _ _ _ _ _ _ Hn Hs) as (ports & _ & E1 & E2 & _).
  assert (calm (tasks s0) (pending (sup s0))) as Hc0 by (rewrite E1, E2; apply start_calm).
  split_and!; [|apply left_nonneg|intros ev s'; apply step_decreases].
  apply (completes (gauges w)); [by eapply sys_exec_inv|by eapply calm_exec|done].
Qed.

End System.
(** ** A concrete rule *)

Definition demo_rule : RuleRun.ClientRule :=
  RuleRun.mkClientRule 7 (PortRange.mkPortRange 7000 7000) (PortRange.mkPortRange 9000 9000) None None.

Definition demo_net : Range.Net := Range.mkNet ∅ 0.

Definition demo_sys : @Sys Z _ _ :=
  with_run (start demo_rule demo_udp [7000]) Waiting false [RuleRun.Activated 7].

Definition free_os (held : gmap nat (Range.Family * Z)) (fam : Range.Family) (port : Z) : option Range.ErrorKind := None.

Definition demo_bound : Range.Net := Range.mkNet (<[0%nat := (Range.V4, 7000)]> ∅) 1.

Lemma demo_starts : run_udp free_os demo_rule true 0 demo_net demo_udp = inr (demo_bound, demo_sys).
Proof. vm_compute. reflexivity. Qed.

Lemma demo_udp_net_wf : Range.wf_net demo_net.
Proof. intros i [x Hx]. by apply (lookup_empty_Some (M := gmap nat) i x) in Hx. Qed.

Lemma demo_sys_inv : sys_inv (gauges demo_limits) demo_sys.
Proof.
  exact (start_sys_inv _ _ _ _ _ _ _ _ _ demo_limits_wf demo_udp_net_wf demo_starts).
Qed.

(** The tasks are, in order, the demultiplexer, the reaper, the pump and the
    listener.  A removal in which the supervisor sees the pump end before the
    run has sent its signal, and the run takes the failure. *)
Definition demo_raced : list (@Ev Z) :=
  [Cancel; Exit 2; Join 2; TakeFailure; Advance; Exit 1; Join 1; Exit 1; Join 1; Advance; Advance; SendShutdown;
   Exit 0; Join 0; Advance; Advance; Report].

Definition demo_raced_end : @Sys Z _ _ := default demo_sys (sys_exec demo_rule 4 demo_sys demo_raced).

(** A removal in which it sees the signal first. *)
Definition demo_removed : list (@Ev Z) :=
  [Cancel; TakeCancel; Signal; Exit 2; Join 2; Advance; Exit 2; Join 2; Advance; Exit 1; Join 1; Advance; SendShutdown;
   Exit 0; Join 0; Advance; Advance; Report].

Definition demo_removed_end : @Sys Z _ _ := default demo_sys (sys_exec demo_rule 4 demo_sys demo_removed).


(** Asked to stop with one command of the channel not taken. *)
Definition demo_busy : list (@Ev Z) :=
  [Data 7000 (demo_datagram None); Data 7000 demo_setup; Cancel].

Definition demo_busy_sys : @Sys Z _ _ := default demo_sys (sys_exec demo_rule 4 demo_sys demo_busy).

Lemma udp_shutdown_completes_witness :
  length (queue (core (path demo_busy_sys))) = 1%nat /\
  exists evs' s', Forall (fun ev => no_panic ev /\ sys_ev_ok ev) evs' /\
    sys_exec demo_rule 4 demo_busy_sys evs' = Some s' /\ run s' = Ended.
Proof.
  split; [vm_compute; reflexivity|].
  apply (udp_shutdown_completes free_os demo_rule true 0 demo_net demo_limits demo_tally demo_bound demo_sys 4 demo_busy
    demo_busy_sys demo_limits_wf demo_udp_net_wf demo_starts).
  - unfold demo_busy. rewrite !Forall_cons. split_and!; try done.
  - unfold demo_busy. rewrite !Forall_cons. split_and!; done.
  - vm_compute. reflexivity.
  - left. vm_compute. reflexivity.
Defined.

(** Without panics every failure the supervisor reports is a removal.
    Unless the rule is cancelled the callback is never called; and a removal
    can be reported as a failure, because the token the run waits on is the
    parent of those of the tasks: a task may end, and the supervisor call the
    callback, before the run asks for the shutdown. *)
Theorem removal_reported_as_failure :
  (forall evs s, Forall sys_ev_ok evs -> Forall no_panic evs -> Forall no_cancel evs ->
     sys_exec demo_rule 4 demo_sys evs = Some s -> callbacks s = []) /\
  Forall no_panic demo_raced /\ sys_exec demo_rule 4 demo_sys demo_raced = Some demo_raced_end /\
  status demo_raced_end = [RuleRun.Activated 7; RuleRun.Failed 7 (lit "unexpected_task_exit:StatsPump")] /\
  completion demo_raced_end = Some (UnexpectedExitsDuringDrain [lit "Reaper"] 1).
Proof.
  split_and!.
  - intros evs s Hv Hn Hc He. refine (un_calls _ (untouched_exec _ _ _ _ _ _ demo_sys_inv _ Hv Hn Hc He)).
    split; [done|done|]. intros _.
    assert (tasks demo_sys = [(Demux, Alive); (Reaper, Alive); (StatsPump, Alive); (Listener 7000, Alive)]) as ->
      by (vm_compute; reflexivity).
    by repeat constructor.
  - unfold demo_raced. rewrite !Forall_cons. split_and!; done.
  - vm_compute. reflexivity.
  - vm_compute. reflexivity.
  - vm_compute. reflexivity.
Qed.

(** A listener panics; the supervisor joins it, the rule is cancelled, and the
    pump and the reaper end. *)
Definition demo_panicked : list (@Ev Z) :=
  [Panic 3 (lit "panic"); Join 3; TakeCancel; Exit 2; Join 2; Advance; Exit 1; Join 1].

Definition demo_panicked_sys : @Sys Z _ _ := default demo_sys (sys_exec demo_rule 4 demo_sys demo_panicked).

(** A panic of a listener leaves the shutdown hanging.  The exit of a
    task that panicked is taken off no counter, so the loop that drains the
    listeners waits for the only task left, the demultiplexer, which is told to
    stop later: the run never ends, whatever follows without a second panic. *)
Theorem listener_panic_hangs :
  sys_exec demo_rule 4 demo_sys demo_panicked = Some demo_panicked_sys /\
  tasks demo_panicked_sys = [(Demux, Alive)] /\ run demo_panicked_sys = Closing ByCancel /\
  forall evs s, Forall no_panic evs -> sys_exec demo_rule 4 demo_panicked_sys evs = Some s ->
    completion s = None /\ run s <> Ended.
Proof.
  do 3 (split; [vm_compute; reflexivity|]). intros evs s Hn He.
  assert (stuck demo_panicked_sys) as Hst.
  { assert (tasks demo_panicked_sys = [(Demux, Alive)]) as Et by (vm_compute; reflexivity).
    split; try (vm_compute; reflexivity); [by rewrite Et; left|vm_compute; discriminate]. }
  by destruct (stuck_exec _ _ _ _ _ Hst Hn He).
Qed.

End UdpSupervisor.
