(* ===== verification/Metrics.v ===== *)
(** * Metrics: what the server counts of its clients' reports

    [crates/portunus-server/src/metrics.rs] with the per-port cache
    ([operator/per_port_stats.rs]) and the live stream of one rule
    ([operator/stats_stream.rs]).

    The Prometheus registry is a table of rows, a row being the name of a
    collector with its label values.  Counters of integers wrap as [u64];
    those of doubles add the way doubles do, which is exact up to [2^53]; a
    counter of seconds is the sequence of increments, in microseconds, that
    were added to it. *)

From S2P Require Import Prelude Text SniListener.

Local Open Scope Z_scope.

Module Metrics.

(** ** Rows *)

Notation Labels := (list (list Z)).
Notation Row := (list Z * list (list Z))%type.

Record Metrics : Type := mkMetrics {
  counters : gmap (list Z * list (list Z)) Z;
  gauges : gmap (list Z * list (list Z)) Z;
  seconds : gmap (list Z * list (list Z)) (list Z);
}.

Definition no_metrics : Metrics := mkMetrics ∅ ∅ ∅.

(** Nearest double of a non-negative integer, ties to even. *)
Definition round_f64 (n : Z) : Z :=
  if n <=? 2 ^ 53 then n
  else
    let u := 2 ^ (Z.log2 n - 52) in
    let q := n / u in
    let r := n mod u in
    if (2 * r <? u) || (2 * r =? u) && Z.even q then q * u else (q + 1) * u.

Definition precise_f64 (n : Z) : Z := round_f64 n.

Definition counter_add (float : bool) (v d : Z) : Z :=
  if float then round_f64 (v + precise_f64 d) else wrap_u64 (v + d).

Definition value (m : Metrics) (r : Row) : Z := default 0 (counters m !! r).

(** [with_label_values(..).inc_by(..)] *)
Definition inc_by (float : bool) (r : Row) (d : Z) (m : Metrics) : Metrics :=
  mkMetrics (<[r := counter_add float (value m r) d]> (counters m)) (gauges m) (seconds m).

(** The pattern of every counter: the growth since the last reading, if any. *)
Definition bump (float : bool) (r : Row) (prev next : Z) (m : Metrics) : Metrics :=
  let delta := sat_sub_u64 next prev in
  if 0 <? delta then inc_by float r delta m else m.

Definition bump_seconds (r : Row) (prev next : Z) (m : Metrics) : Metrics :=
  let delta := sat_sub_u64 next prev in
  if 0 <? delta then
    mkMetrics (counters m) (gauges m) (<[r := default [] (seconds m !! r) ++ [delta]]> (seconds m))
  else m.

Definition set_gauge (r : Row) (v : Z) (m : Metrics) : Metrics :=
  mkMetrics (counters m) (<[r := v]> (gauges m)) (seconds m).

Definition remove_label_values (r : Row) (m : Metrics) : Metrics :=
  mkMetrics (delete r (counters m)) (delete r (gauges m)) (delete r (seconds m)).

(** ** Reports *)

Record PerTargetSnapshot : Type := mkTarget {
  pt_index : Z;
  pt_host : list Z;
  pt_port : Z;
  pt_priority : Z;
  pt_health : Z;
  pt_consecutive_failures : Z;
  pt_last_failure_at_unix_ms : Z;
  pt_last_success_at_unix_ms : Z;
  pt_bytes_in : Z;
  pt_bytes_out : Z;
  pt_connections_accepted : Z;
}.

(** The readings of one rule in one report. *)
Record Reading : Type := mkReading {
  bytes_in : Z;
  bytes_out : Z;
  active_connections : Z;
  dns_failures : Z;
  datagrams_in : Z;
  datagrams_out : Z;
  active_flows : Z;
  flows_dropped_overflow : Z;
  target_failovers_total : Z;
  per_target : list PerTargetSnapshot;
}.

Record RuleStatsSnapshot : Type := mkSnapshot {
  client_name : list Z;
  reading : Reading;
  updated_at : Z;
}.

(** The seven cumulative readings that feed counters. *)
Inductive Series : Type :=
| BytesIn | BytesOut | DnsFailures | DatagramsIn | DatagramsOut | FlowsDropped | TargetFailovers.

#[global] Instance Series_eq_dec : EqDecision Series.
Proof. solve_decision. Defined.

Definition collector (s : Series) : list Z :=
  match s with
  | BytesIn => lit "portunus_rule_bytes_in_total"
  | BytesOut => lit "portunus_rule_bytes_out_total"
  | DnsFailures => lit "portunus_rule_dns_failures_total"
  | DatagramsIn => lit "portunus_rule_udp_datagrams_in_total"
  | DatagramsOut => lit "portunus_rule_udp_datagrams_out_total"
  | FlowsDropped => lit "portunus_rule_flows_dropped_overflow_total"
  | TargetFailovers => lit "portunus_rule_target_failovers_total"
  end.

Definition is_float (s : Series) : bool := match s with BytesIn | BytesOut => true | _ => false end.

Definition cumulative (s : Series) (r : Reading) : Z :=
  match s with
  | BytesIn => bytes_in r
  | BytesOut => bytes_out r
  | DnsFailures => dns_failures r
  | DatagramsIn => datagrams_in r
  | DatagramsOut => datagrams_out r
  | FlowsDropped => flows_dropped_overflow r
  | TargetFailovers => target_failovers_total r
  end.

Definition all_series : list Series :=
  [BytesIn; BytesOut; DnsFailures; DatagramsIn; DatagramsOut; FlowsDropped; TargetFailovers].

Definition ACTIVE_CONNECTIONS : list Z := lit "portunus_rule_active_connections".
Definition ACTIVE_FLOWS : list Z := lit "portunus_rule_active_flows".
Definition SNI_ROUTE : list Z := lit "portunus_tls_sni_route_total".
Definition SNI_MISS : list Z := lit "portunus_tls_sni_listener_miss_total".
Definition SNI_PARSE_FAILURES : list Z := lit "portunus_tls_sni_listener_parse_failures_total".
Definition PEEK_BUCKET : list Z := lit "portunus_tls_client_hello_peek_duration_seconds_bucket".
Definition PEEK_SUM : list Z := lit "portunus_tls_client_hello_peek_duration_seconds_sum".
Definition PEEK_COUNT : list Z := lit "portunus_tls_client_hello_peek_duration_seconds_count".
Definition REJECT : list Z := lit "portunus_rate_limit_reject_total".
Definition THROTTLE : list Z := lit "portunus_rate_limit_throttle_seconds_total".
Definition RL_ACTIVE : list Z := lit "portunus_rate_limit_active_connections".

Definition REASON_LABELS : list (list Z) :=
  [lit "conn_concurrent"; lit "conn_rate"; lit "udp_flow_rate";
   lit "owner_concurrent"; lit "owner_conn_rate"; lit "owner_udp_flow_rate"].

Definition DIRECTIONS : list (list Z) := [lit "in"; lit "out"].

(** [RateLimitStats], the reject totals in the order of the reasons. *)
Record RateReading : Type := mkRate {
  reject_totals : list Z;
  throttle_micros_in : Z;
  throttle_micros_out : Z;
  rl_active_connections : Z;
}.

(** ** The cache *)

Record CachedEntry : Type := mkEntry {
  snapshot : RuleStatsSnapshot;
  prev : Series -> Z;
  prev_sni : Z * Z * Z;
  prev_rate : list Z * Z * Z;
}.

Record SniListenerPrevEntry : Type := mkSniPrev {
  miss_total : Z;
  parse_failures_total : Z;
  peek_bucket_counts : list Z;
  peek_sum_micros : Z;
  peek_count : Z;
}.

Record OwnerRateLimitPrevEntry : Type := mkOwnerPrev {
  reject_by_reason : list Z;
  o_micros_in : Z;
  o_micros_out : Z;
}.

(** A broadcast sender is what it has sent so far; subscribers hold the
    position they started from. *)
Record RuleStatsCache : Type := mkCache {
  inner : gmap Z CachedEntry;
  broadcasts : gmap Z (list RuleStatsSnapshot);
  sni_listener_prev : gmap (Z * Z) SniListenerPrevEntry;
  owner_rate_limit_prev : gmap (Z * list Z) OwnerRateLimitPrevEntry;
}.

Definition no_cache : RuleStatsCache := mkCache ∅ ∅ ∅ ∅.

Definition set_inner (c : RuleStatsCache) (m : gmap Z CachedEntry) : RuleStatsCache :=
  mkCache m (broadcasts c) (sni_listener_prev c) (owner_rate_limit_prev c).

Definition no_reading : Reading := mkReading 0 0 0 0 0 0 0 0 0 [].

Definition fresh_entry (client : list Z) (now : Z) : CachedEntry :=
  mkEntry (mkSnapshot client no_reading now) (fun _ => 0) (0, 0, 0) (replicate 6 0, 0, 0).

Definition rule_labels (client owner : list Z) (rule : Z) : Labels := [client; dec rule; owner].

Definition bump_series (labels : Labels) (p : Series -> Z) (r : Reading) (m : Metrics) (s : Series) : Metrics :=
  bump (is_float s) (collector s, labels) (p s) (cumulative s r) m.

Definition observe_with_targets (c : RuleStatsCache) (m : Metrics) (client : list Z) (rule : Z) (owner : list Z)
  (r : Reading) (now : Z) : RuleStatsCache * Metrics :=
  let entry := default (fresh_entry client now) (inner c !! rule) in
  let labels := rule_labels client owner rule in
  let m := foldl (bump_series labels (prev entry) r) m all_series in
  let m := set_gauge (ACTIVE_FLOWS, labels) (active_flows r)
             (set_gauge (ACTIVE_CONNECTIONS, labels) (active_connections r) m) in
  let snap := mkSnapshot client r now in
  let entry := mkEntry snap (fun s => cumulative s r) (prev_sni entry) (prev_rate entry) in
  (mkCache (<[rule := entry]> (inner c)) (alter (fun sent => sent ++ [snap]) rule (broadcasts c))
     (sni_listener_prev c) (owner_rate_limit_prev c), m).

(** [observe]: a report without targets. *)
Definition observe (c : RuleStatsCache) (m : Metrics) (client : list Z) (rule : Z) (owner : list Z)
  (r : Reading) (now : Z) : RuleStatsCache * Metrics :=
  observe_with_targets c m client rule owner
    (mkReading (bytes_in r) (bytes_out r) (active_connections r) (dns_failures r) (datagrams_in r) (datagrams_out r)
       (active_flows r) (flows_dropped_overflow r) 0 []) now.

Definition observe_sni_per_rule (c : RuleStatsCache) (m : Metrics) (client : list Z) (rule : Z) (owner : list Z)
  (exact wildcard fallback : Z) : RuleStatsCache * Metrics :=
  match inner c !! rule with
  | None => (c, m)
  | Some e =>
    let '(pe, pw, pf) := prev_sni e in
    let row result := (SNI_ROUTE, rule_labels client owner rule ++ [result]) in
    (set_inner c (<[rule := mkEntry (snapshot e) (prev e) (exact, wildcard, fallback) (prev_rate e)]> (inner c)),
     bump false (row (lit "fallback")) pf fallback
       (bump false (row (lit "wildcard")) pw wildcard (bump false (row (lit "exact")) pe exact m)))
  end.

(** The reject counters of a rule or an owner, the throttle times and the
    gauge. *)
Definition fold_rate (labels : Labels) (before : list Z * Z * Z) (r : RateReading) (m : Metrics) : Metrics :=
  let '(rejects, micros_in, micros_out) := before in
  let m := foldl (fun m x => let '(reason, p, n) := x in bump false (REJECT, labels ++ [reason]) p n m) m
             (zip (zip REASON_LABELS rejects) (reject_totals r)) in
  let m := bump_seconds (THROTTLE, labels ++ [lit "in"]) micros_in (throttle_micros_in r) m in
  let m := bump_seconds (THROTTLE, labels ++ [lit "out"]) micros_out (throttle_micros_out r) m in
  set_gauge (RL_ACTIVE, labels) (rl_active_connections r) m.

Definition observe_rate_limit_per_rule (c : RuleStatsCache) (m : Metrics) (client : list Z) (rule : Z)
  (owner : list Z) (r : RateReading) : RuleStatsCache * Metrics :=
  match inner c !! rule with
  | None => (c, m)
  | Some e =>
    (set_inner c (<[rule := mkEntry (snapshot e) (prev e) (prev_sni e)
                              (reject_totals r, throttle_micros_in r, throttle_micros_out r)]> (inner c)),
     fold_rate (rule_labels client owner rule) (prev_rate e) r m)
  end.

Definition observe_rate_limit_per_owner (c : RuleStatsCache) (m : Metrics) (client_id : Z) (client owner : list Z)
  (r : RateReading) : RuleStatsCache * Metrics :=
  let e := default (mkOwnerPrev (replicate 6 0) 0 0) (owner_rate_limit_prev c !! (client_id, owner)) in
  (mkCache (inner c) (broadcasts c) (sni_listener_prev c)
     (<[(client_id, owner) := mkOwnerPrev (reject_totals r) (throttle_micros_in r) (throttle_micros_out r)]>
        (owner_rate_limit_prev c)),
   fold_rate [client; []; owner] (reject_by_reason e, o_micros_in e, o_micros_out e) r m).

(** The texts of the bucket bounds. *)
Definition BUCKET_LABELS : list (list Z) :=
  [lit "0.0001"; lit "0.00025"; lit "0.0005"; lit "0.001"; lit "0.0025"; lit "0.005"; lit "0.01"; lit "0.025";
   lit "0.05"; lit "0.1"; lit "0.25"; lit "0.5"; lit "1"; lit "2"; lit "3"].

Record ListenerReading : Type := mkListener {
  l_port : Z;
  l_miss : Z;
  l_parse_failures : Z;
  l_buckets : list Z;
  l_sum_micros : Z;
  l_count : Z;
}.

Definition bump_bucket (labels : Labels) (before after : list Z) (m : Metrics) (x : nat * list Z) : Metrics :=
  bump false (PEEK_BUCKET, labels ++ [x.2]) (nth x.1 before 0) (nth x.1 after 0) m.

Definition observe_sni_listener (c : RuleStatsCache) (m : Metrics) (client_id : Z) (client : list Z)
  (r : ListenerReading) : RuleStatsCache * Metrics :=
  let k := (client_id, l_port r) in
  let p := default (mkSniPrev 0 0 (replicate (length BUCKET_LABELS) 0) 0 0) (sni_listener_prev c !! k) in
  let labels := [client; dec (l_port r)] in
  let m := bump false (SNI_MISS, labels) (miss_total p) (l_miss r) m in
  let m := bump false (SNI_PARSE_FAILURES, labels) (parse_failures_total p) (l_parse_failures r) m in
  let m := foldl (bump_bucket labels (peek_bucket_counts p) (l_buckets r)) m (imap pair BUCKET_LABELS) in
  let m := bump_seconds (PEEK_SUM, labels) (peek_sum_micros p) (l_sum_micros r) m in
  let m := bump false (PEEK_BUCKET, labels ++ [lit "+Inf"]) (peek_count p) (l_count r) m in
  let m := bump false (PEEK_COUNT, labels) (peek_count p) (l_count r) m in
  (mkCache (inner c) (broadcasts c)
     (<[k := mkSniPrev (l_miss r) (l_parse_failures r) (l_buckets r) (l_sum_micros r) (l_count r)]>
        (sni_listener_prev c))
     (owner_rate_limit_prev c), m).

Definition get (c : RuleStatsCache) (rule : Z) : option RuleStatsSnapshot := snapshot <$> inner c !! rule.

Definition subscribe (c : RuleStatsCache) (rule : Z) : RuleStatsCache * nat :=
  let sent := default [] (broadcasts c !! rule) in
  (mkCache (inner c) (<[rule := sent]> (broadcasts c)) (sni_listener_prev c) (owner_rate_limit_prev c), length sent).

Definition drop_rule_broadcasts (c : RuleStatsCache) (rule : Z) : RuleStatsCache :=
  mkCache (inner c) (delete rule (broadcasts c)) (sni_listener_prev c) (owner_rate_limit_prev c).

(** The rows [drop_rule] strips, in its order. *)
Definition stripped_rows (labels : Labels) : list Row :=
  [(ACTIVE_CONNECTIONS, labels); (collector DnsFailures, labels); (ACTIVE_FLOWS, labels);
   (collector DatagramsIn, labels); (collector DatagramsOut, labels); (collector FlowsDropped, labels);
   (collector TargetFailovers, labels); (RL_ACTIVE, labels)] ++
  ((fun d => (THROTTLE, labels ++ [d])) <$> DIRECTIONS) ++ ((fun r => (REJECT, labels ++ [r])) <$> REASON_LABELS).

Definition drop_rule (c : RuleStatsCache) (m : Metrics) (rule : Z) (client owner : list Z)
  : RuleStatsCache * Metrics :=
  let c := drop_rule_broadcasts c rule in
  match inner c !! rule with
  | None => (c, m)
  | Some _ =>
    (set_inner c (delete rule (inner c)),
     foldl (fun m r => remove_label_values r m) m (stripped_rows (rule_labels client owner rule)))
  end.

(** ** The per-port cache *)

Record PerPortSnapshot : Type := mkPort {
  p_listen_port : Z;
  p_bytes_in : Z;
  p_bytes_out : Z;
  p_active_connections : Z;
  p_datagrams_in : Z;
  p_datagrams_out : Z;
  p_updated_at : Z;
}.

Notation PerPortStatsCache := (gmap Z (gmap Z PerPortSnapshot)).

Definition per_port_update (c : PerPortStatsCache) (rule : Z) (snapshots : list PerPortSnapshot) : PerPortStatsCache :=
  let map : gmap Z PerPortSnapshot := foldl (fun m s => <[p_listen_port s := s]> m) ∅ snapshots in
  if decide (map = ∅) then delete rule c else <[rule := map]> c.

(** Ordered by port, the order of a [BTreeMap]. *)
Definition per_port_get (c : PerPortStatsCache) (rule : Z) : option (list PerPortSnapshot) :=
  (fun m => snd <$> stable_sort (fun a b => a.1 <=? b.1) (map_to_list m)) <$> (c !! rule : option (gmap Z PerPortSnapshot)).

Definition per_port_drop_rule (c : PerPortStatsCache) (rule : Z) : PerPortStatsCache := delete rule c.

(** ** The live stream of a rule *)

Definition strip_targets (per_target_requested : bool) (s : RuleStatsSnapshot) : RuleStatsSnapshot :=
  if per_target_requested then s
  else
    let r := reading s in
    mkSnapshot (client_name s)
      (mkReading (bytes_in r) (bytes_out r) (active_connections r) (dns_failures r) (datagrams_in r) (datagrams_out r)
         (active_flows r) (flows_dropped_overflow r) (target_failovers_total r) [])
      (updated_at s).

(** [get_rule_stats_stream]: what the handler holds after connecting, the
    current snapshot and the position it listens from; reports that arrive
    between its two reads of the cache are [between]. *)
Definition get_rule_stats_stream (c : RuleStatsCache) (between : RuleStatsCache -> RuleStatsCache) (rule : Z)
  : RuleStatsCache * (option RuleStatsSnapshot * nat) :=
  let initial := get c rule in
  let (c, pos) := subscribe (between c) rule in
  (c, (initial, pos)).

(** The events of the stream so far. *)
Definition stream_events (c : RuleStatsCache) (rule : Z) (per_target : bool) (st : option RuleStatsSnapshot * nat)
  : list RuleStatsSnapshot :=
  strip_targets per_target <$> (option_list st.1 ++ drop st.2 (default [] (broadcasts c !! rule))).

(** ** Sequences of reports *)

Inductive Ev : Type :=
| Observe (client owner : list Z) (rule : Z) (r : Reading) (now : Z)
| ObserveSni (client owner : list Z) (rule exact wildcard fallback : Z)
| ObserveRate (client owner : list Z) (rule : Z) (r : RateReading)
| ObserveOwner (client_id : Z) (client owner : list Z) (r : RateReading)
| ObserveListener (client_id : Z) (client : list Z) (r : ListenerReading)
| Subscribe (rule : Z)
| Drop (client owner : list Z) (rule : Z).

Definition step (cm : RuleStatsCache * Metrics) (ev : Ev) : RuleStatsCache * Metrics :=
  let (c, m) := cm in
  match ev with
  | Observe client owner rule r now => observe_with_targets c m client rule owner r now
  | ObserveSni client owner rule e w f => observe_sni_per_rule c m client rule owner e w f
  | ObserveRate client owner rule r => observe_rate_limit_per_rule c m client rule owner r
  | ObserveOwner cid client owner r => observe_rate_limit_per_owner c m cid client owner r
  | ObserveListener cid client r => observe_sni_listener c m cid client r
  | Subscribe rule => ((subscribe c rule).1, m)
  | Drop client owner rule => drop_rule c m rule client owner
  end.

Definition exec (cm : RuleStatsCache * Metrics) (evs : list Ev) : RuleStatsCache * Metrics := foldl step cm evs.

(** The rule an event is about. *)
Definition rule_of (ev : Ev) : option Z :=
  match ev with
  | Observe _ _ i _ _ | ObserveSni _ _ i _ _ _ | ObserveRate _ _ i _ | Drop _ _ i => Some i
  | _ => None
  end.

(** ** Doubles *)

Lemma round_f64_exact n : n <= 2 ^ 53 -> round_f64 n = n.
Proof. intros Hn. unfold round_f64. by destruct (Z.leb_spec n (2 ^ 53)); [|lia]. Qed.

Definition limit (float : bool) : Z := if float then 2 ^ 53 else u64_max.

Lemma counter_add_exact float v d : 0 <= v -> 0 <= d -> v + d <= limit float -> counter_add float v d = v + d.
Proof.
  intros Hv Hd Hl. unfold counter_add, precise_f64. destruct float; cbn [limit] in Hl.
  - rewrite (round_f64_exact d), round_f64_exact by lia. done.
  - apply wrap_u64_id. unfold in_u64. lia.
Qed.

(** ** The value of a row *)

Lemma dec_inj a b : 0 <= a -> 0 <= b -> dec a = dec b -> a = b.
Proof. intros Ha Hb E. pose proof (dec_value a Ha) as H1. rewrite E, (dec_value b Hb) in H1. by injection H1. Qed.

Lemma value_bump float r p n m r' :
  value (bump float r p n m) r' =
  if decide (r = r') then
    if 0 <? sat_sub_u64 n p then counter_add float (value m r) (sat_sub_u64 n p) else value m r
  else value m r'.
Proof.
  unfold bump. destruct (0 <? sat_sub_u64 n p); [|by destruct (decide (r = r')) as [->|]].
  unfold value at 1. cbn. destruct (decide (r = r')) as [->|Hne]; [by rewrite lookup_insert_eq|by rewrite lookup_insert_ne].
Qed.

Lemma value_bump_ne float r p n m r' : r <> r' -> value (bump float r p n m) r' = value m r'.
Proof. intros Hne. rewrite value_bump. by rewrite decide_False. Qed.

Lemma value_bump_seconds r p n m r' : value (bump_seconds r p n m) r' = value m r'.
Proof. unfold bump_seconds. by destruct (0 <? _). Qed.

Lemma value_remove r m r' : r <> r' -> value (remove_label_values r m) r' = value m r'.
Proof. intros Hne. unfold value. cbn. by rewrite lookup_delete_ne. Qed.

Lemma value_foldl {A} (f : Metrics -> A -> Metrics) l m r :
  (forall m x, x ∈ l -> value (f m x) r = value m r) -> value (foldl f m l) r = value m r.
Proof.
  revert m. induction l as [|x l IH]; intros m Hf; cbn [foldl]; [done|]. rewrite IH; [by apply Hf; left|].
  intros m' y Hy. apply Hf. by right.
Qed.

Lemma collector_names s : collector s <> SNI_ROUTE /\ collector s <> REJECT /\ collector s <> SNI_MISS /\
  collector s <> SNI_PARSE_FAILURES /\ collector s <> PEEK_BUCKET /\ collector s <> PEEK_COUNT.
Proof. destruct s; vm_compute; split_and!; congruence. Qed.

(** Only the collector of a series counts it. *)
Lemma value_series labels labels' p r m s :
  value (foldl (bump_series labels p r) m all_series) (collector s, labels') =
  if decide (labels = labels') then
    if 0 <? sat_sub_u64 (cumulative s r) (p s)
    then counter_add (is_float s) (value m (collector s, labels)) (sat_sub_u64 (cumulative s r) (p s))
    else value m (collector s, labels)
  else value m (collector s, labels').
Proof.
  destruct (decide (labels = labels')) as [<-|Hne].
  - unfold all_series. cbn [foldl]. unfold bump_series. destruct s;
      repeat (rewrite value_bump_ne by (intros [= E]; vm_compute in E; congruence));
      rewrite value_bump, decide_True by done;
      repeat (rewrite value_bump_ne by (intros [= E]; vm_compute in E; congruence)); done.
  - apply value_foldl. intros m' x _. apply value_bump_ne. congruence.
Qed.

(** ** Growth *)

(** The readings of a series that arrive for a rule, and the one before. *)
Definition readings (i : Z) (s : Series) (evs : list Ev) : list Z :=
  omap (fun ev => match ev with Observe _ _ j r _ => if j =? i then Some (cumulative s r) else None | _ => None end) evs.

Definition prev_reading (c : RuleStatsCache) (i : Z) (s : Series) : Z :=
  match inner c !! i with Some e => prev e s | None => 0 end.

(** What successive readings add up to when a smaller one starts afresh. *)
Fixpoint growth (p : Z) (vs : list Z) : Z :=
  match vs with [] => 0 | v :: vs => sat_sub_u64 v p + growth v vs end.

Lemma growth_nonneg p vs : 0 <= growth p vs.
Proof. revert p. induction vs as [|v vs IH]; intros p; cbn [growth]; [lia|]. specialize (IH v). unfold sat_sub_u64. lia. Qed.

Lemma last_default (x a b : Z) (vs : list Z) : List.last (x :: vs) a = List.last (x :: vs) b.
Proof. revert x. induction vs as [|y vs IH]; intros x; [done|]. exact (IH y). Qed.

Lemma last_cons (v p : Z) (vs : list Z) : List.last (v :: vs) p = List.last vs v.
Proof. destruct vs as [|x vs]; [done|]. exact (last_default x p v vs). Qed.

Lemma labels_inj cl ow j client owner i : 0 <= j -> 0 <= i -> rule_labels cl ow j = rule_labels client owner i -> j = i.
Proof. intros Hj Hi [= _ E _]. by apply dec_inj. Qed.

Lemma growth_rising p vs : StronglySorted Z.le (p :: vs) -> growth p vs = List.last vs p - p.
Proof.
  revert p. induction vs as [|v vs IH]; intros p Hs; cbn [growth]; [cbn; lia|].
  apply StronglySorted_inv in Hs as [Hs Hp]. rewrite (IH v Hs). apply Forall_cons in Hp as [Hp _].
  rewrite last_cons. unfold sat_sub_u64. lia.
Qed.

(** The rule is reported under one pair of labels and stays. *)
Definition of_rule (i : Z) (client owner : list Z) (ev : Ev) : Prop :=
  match ev with
  | Observe cl ow j _ _ => 0 <= j /\ (j = i -> cl = client /\ ow = owner)
  | Drop _ _ j => 0 <= j /\ j <> i
  | _ => True
  end.

Lemma fold_rate_value labels b r m s ls : value (fold_rate labels b r m) (collector s, ls) = value m (collector s, ls).
Proof.
  destruct b as [[rejects mi] mo]. unfold fold_rate. destruct (collector_names s) as (_ & Hr & _).
  assert (forall row v m', value (set_gauge row v m') (collector s, ls) = value m' (collector s, ls)) as -> by done.
  rewrite !value_bump_seconds. apply value_foldl. intros m' [[reason p] n] _. apply value_bump_ne. congruence.
Qed.

Lemma step_value c m ev i client owner s : 0 <= i -> of_rule i client owner ev ->
  let row := (collector s, rule_labels client owner i) in
  let '(c', m') := step (c, m) ev in
  match ev with
  | Observe _ _ j r _ =>
    if j =? i then
      value m' row = (let d := sat_sub_u64 (cumulative s r) (prev_reading c i s) in
                      if 0 <? d then counter_add (is_float s) (value m row) d else value m row) /\
      prev_reading c' i s = cumulative s r
    else value m' row = value m row /\ prev_reading c' i s = prev_reading c i s
  | _ => value m' row = value m row /\ prev_reading c' i s = prev_reading c i s
  end.
Proof.
  intros Hi Hof row. destruct (collector_names s) as (N1 & N2 & N3 & N4 & N5 & N6). unfold prev_reading.
  destruct ev as [cl ow j r now|cl ow j e w f|cl ow j r|cid cl ow r|cid cl r|j|cl ow j]; cbn [step of_rule] in *.
  - unfold observe_with_targets. cbn [inner]. destruct Hof as [Hj Hof].
    assert (forall row' v m', value (set_gauge row' v m') row = value m' row) as Hg by done. rewrite !Hg. clear Hg.
    unfold row. rewrite value_series. destruct (Z.eqb_spec j i) as [->|Hne].
    + destruct (Hof eq_refl) as [-> ->]. rewrite decide_True, lookup_insert_eq by done. cbn.
      destruct (inner c !! i) as [e|]; done.
    + rewrite decide_False, lookup_insert_ne by (try done; by intros ?%labels_inj). done.
  - unfold observe_sni_per_rule. destruct (inner c !! j) as [e0|] eqn:Ej; [|done]. destruct (prev_sni e0) as [[pe pw] pf].
    unfold row. rewrite !value_bump_ne by congruence. split; [done|]. cbn. destruct (decide (j = i)) as [->|];
      [rewrite lookup_insert_eq, Ej; done|by rewrite lookup_insert_ne].
  - unfold observe_rate_limit_per_rule. destruct (inner c !! j) as [e0|] eqn:Ej; [|done]. unfold row. rewrite fold_rate_value.
    split; [done|]. cbn. destruct (decide (j = i)) as [->|]; [rewrite lookup_insert_eq, Ej; done|by rewrite lookup_insert_ne].
  - unfold observe_rate_limit_per_owner. unfold row. by rewrite fold_rate_value.
  - unfold observe_sni_listener, row. rewrite !value_bump_ne, value_bump_seconds by congruence. rewrite value_foldl.
    + by rewrite !value_bump_ne by congruence.
    + intros m' x _. apply value_bump_ne. congruence.
  - done.
  - unfold drop_rule. cbn [inner drop_rule_broadcasts]. destruct (inner c !! j) as [e0|] eqn:Ej; [|done]. destruct Hof as [Hj Hne]. split.
    + apply value_foldl. intros m' x Hx. apply value_remove. intros ->. unfold row, stripped_rows in Hx.
      assert (dec j <> dec i) as Hd by (intros E%dec_inj; [congruence|done|done]).
      rewrite elem_of_app, !elem_of_cons, elem_of_nil, elem_of_app, !list_elem_of_fmap in Hx. unfold rule_labels in Hx. naive_solver.
    + cbn. by rewrite lookup_delete_ne.
Qed.

Lemma exec_growth c m evs i client owner s : 0 <= i -> Forall (of_rule i client owner) evs ->
  let row := (collector s, rule_labels client owner i) in
  let '(c', m') := exec (c, m) evs in
  0 <= value m row -> value m row + growth (prev_reading c i s) (readings i s evs) <= limit (is_float s) ->
  value m' row = value m row + growth (prev_reading c i s) (readings i s evs) /\
  prev_reading c' i s = List.last (readings i s evs) (prev_reading c i s).
Proof.
  intros Hi Hof row. revert c m. induction Hof as [|ev evs Hev Hof IH]; intros c m; cbn [exec foldl readings omap list_omap].
  { cbn. lia. }
  pose proof (step_value c m ev i client owner s Hi Hev) as Hst. fold row in Hst. change (foldl step (step (c, m) ev) evs) with (exec (step (c, m) ev) evs).
  destruct (step (c, m) ev) as [c1 m1]. specialize (IH c1 m1). destruct (exec (c1, m1) evs) as [c' m'].
  intros Hv Hl. destruct ev as [cl ow j r now|cl ow j e w f|cl ow j r|cid cl ow r|cid cl r|j|cl ow j];
    try (destruct Hst as [E1 E2]; rewrite E1, E2 in IH; by apply IH).
  destruct (j =? i); [|destruct Hst as [E1 E2]; rewrite E1, E2 in IH; by apply IH].
  destruct Hst as [E1 E2]. change (omap _ evs) with (readings i s evs) in *. rewrite E1, E2 in IH. cbn [growth] in *.
  pose proof (growth_nonneg (cumulative s r) (readings i s evs)) as Hg.
  assert (0 <= sat_sub_u64 (cumulative s r) (prev_reading c i s)) as Hd by (unfold sat_sub_u64; lia).
  cbn zeta in IH. destruct (Z.ltb_spec 0 (sat_sub_u64 (cumulative s r) (prev_reading c i s))) as [Hpos|Hz].
  - rewrite counter_add_exact in IH by lia. destruct IH as [I1 I2]; [lia|lia|]. split; [lia|]. by rewrite I2, last_cons.
  - destruct IH as [I1 I2]; [lia|lia|]. split; [lia|]. by rewrite I2, last_cons.
Qed.

(** ** Rows of live rules *)

Definition has_row (m : Metrics) (r : Row) : Prop :=
  is_Some (counters m !! r) \/ is_Some (gauges m !! r) \/ is_Some (seconds m !! r).

Definition stripped_names : list (list Z) := (stripped_rows []).*1.

(** A row [drop_rule] would strip belongs to a rule of the cache, or it is
    the row of an owner, whose rule label is empty. *)
Definition rows_live (L : Z -> list Z * list Z) (c : RuleStatsCache) (m : Metrics) : Prop :=
  forall r, has_row m r -> r.1 ∈ stripped_names ->
    r.2 !! 1%nat = Some [] \/
    exists i, 0 <= i /\ is_Some (inner c !! i) /\ r ∈ stripped_rows (rule_labels (L i).1 (L i).2 i).

(** Every event of a rule uses the rule's labels. *)
Definition labelled (L : Z -> list Z * list Z) (ev : Ev) : Prop :=
  match ev with
  | Observe cl ow i _ _ | ObserveSni cl ow i _ _ _ | ObserveRate cl ow i _ | Drop cl ow i => 0 <= i /\ L i = (cl, ow)
  | _ => True
  end.

Definition adds (m m' : Metrics) (P : Row -> Prop) : Prop := forall r, has_row m' r -> has_row m r \/ P r.

Lemma adds_refl m (P : Row -> Prop) : adds m m P.
Proof. intros r. by left. Qed.

Lemma adds_trans m1 m2 m3 P : adds m1 m2 P -> adds m2 m3 P -> adds m1 m3 P.
Proof. intros H1 H2 r [Hr|Hr]%H2; [by apply H1|by right]. Qed.

Lemma bump_adds float r p n m (P : Row -> Prop) : P r -> adds m (bump float r p n m) P.
Proof.
  intros HP r'. unfold bump. destruct (0 <? _); [|by left]. unfold has_row. cbn.
  destruct (decide (r = r')) as [<-|Hne]; [by right|rewrite lookup_insert_ne by done; by left].
Qed.

Lemma bump_seconds_adds r p n m (P : Row -> Prop) : P r -> adds m (bump_seconds r p n m) P.
Proof.
  intros HP r'. unfold bump_seconds. destruct (0 <? _); [|by left]. unfold has_row. cbn.
  destruct (decide (r = r')) as [<-|Hne]; [by right|rewrite lookup_insert_ne by done; by left].
Qed.

Lemma set_gauge_adds r v m (P : Row -> Prop) : P r -> adds m (set_gauge r v m) P.
Proof.
  intros HP r'. unfold has_row. cbn.
  destruct (decide (r = r')) as [<-|Hne]; [by right|rewrite lookup_insert_ne by done; by left].
Qed.

Lemma foldl_adds {A} (f : Metrics -> A -> Metrics) l m P :
  (forall m x, x ∈ l -> adds m (f m x) P) -> adds m (foldl f m l) P.
Proof.
  revert m. induction l as [|x l IH]; intros m Hf; cbn [foldl]; [apply adds_refl|].
  eapply adds_trans; [apply Hf; by left|]. apply IH. intros m' y Hy. apply Hf. by right.
Qed.

Lemma fold_rate_adds labels b r m (P : Row -> Prop) :
  (forall reason, reason ∈ REASON_LABELS -> P (REJECT, labels ++ [reason])) ->
  (forall d, d ∈ DIRECTIONS -> P (THROTTLE, labels ++ [d])) -> P (RL_ACTIVE, labels) -> adds m (fold_rate labels b r m) P.
Proof.
  intros H1 H2 H3. destruct b as [[rejects mi] mo]. unfold fold_rate.
  eapply adds_trans; [|by apply set_gauge_adds]. eapply adds_trans; [|apply bump_seconds_adds, H2; by right; left].
  eapply adds_trans; [|apply bump_seconds_adds, H2; by left]. apply foldl_adds. intros m' [[reason p] n] Hx.
  apply bump_adds, H1. apply elem_of_zip_l in Hx. by apply elem_of_zip_l in Hx.
Qed.

Lemma rows_live_adds L c c' m m' P : rows_live L c m -> adds m m' P ->
  (forall i, is_Some (inner c !! i) -> is_Some (inner c' !! i)) ->
  (forall r, P r -> r.1 ∈ stripped_names -> r.2 !! 1%nat = Some [] \/
     exists i, 0 <= i /\ is_Some (inner c' !! i) /\ r ∈ stripped_rows (rule_labels (L i).1 (L i).2 i)) ->
  rows_live L c' m'.
Proof.
  intros Hl Ha Hc HP r [Hr|Hr]%Ha Hn; [|by apply HP]. destruct (Hl r Hr Hn) as [?|(i & ? & ? & ?)]; [by left|].
  right. eauto 6.
Qed.

(** The rows of the reject and throttle counters and of the gauges. *)
Lemma in_stripped labels : (ACTIVE_CONNECTIONS, labels) ∈ stripped_rows labels /\ (ACTIVE_FLOWS, labels) ∈ stripped_rows labels /\
  (RL_ACTIVE, labels) ∈ stripped_rows labels /\
  (forall s, is_float s = false -> (collector s, labels) ∈ stripped_rows labels) /\
  (forall d, d ∈ DIRECTIONS -> (THROTTLE, labels ++ [d]) ∈ stripped_rows labels) /\
  (forall r, r ∈ REASON_LABELS -> (REJECT, labels ++ [r]) ∈ stripped_rows labels).
Proof.
  unfold stripped_rows. split_and!.
  1-3: rewrite elem_of_app, !elem_of_cons; tauto.
  - intros s Hs. rewrite elem_of_app, !elem_of_cons. destruct s; try done; tauto.
  - intros d Hd. rewrite !elem_of_app. right. left. apply list_elem_of_fmap. eauto.
  - intros r Hr. rewrite !elem_of_app. right. right. apply list_elem_of_fmap. eauto.
Qed.

Lemma kept_names : collector BytesIn ∉ stripped_names /\ collector BytesOut ∉ stripped_names /\ SNI_ROUTE ∉ stripped_names /\
  SNI_MISS ∉ stripped_names /\ SNI_PARSE_FAILURES ∉ stripped_names /\ PEEK_BUCKET ∉ stripped_names /\
  PEEK_SUM ∉ stripped_names /\ PEEK_COUNT ∉ stripped_names.
Proof. split_and!; apply (bool_decide_unpack _); vm_compute; exact I. Qed.

Lemma remove_rows l m r : has_row (foldl (fun m r => remove_label_values r m) m l) r -> has_row m r /\ r ∉ l.
Proof.
  revert m. induction l as [|x l IH]; intros m; cbn [foldl]; [intros H; split; [done|apply not_elem_of_nil]|].
  intros [Hr Hn]%IH. unfold has_row in Hr. cbn in Hr. rewrite not_elem_of_cons.
  destruct (decide (x = r)) as [->|Hne]; [rewrite !lookup_delete_eq in Hr; by destruct Hr as [[]|[[]|[]]]|].
  rewrite !lookup_delete_ne in Hr by done. by split_and!.
Qed.

Lemma rows_live_step L c m ev : rows_live L c m -> labelled L ev ->
  let '(c', m') := step (c, m) ev in rows_live L c' m'.
Proof.
  destruct kept_names as (K1 & K2 & K3 & K4 & K5 & K6 & K7 & K8).
  intros Hl Hev. destruct ev as [cl ow j r now|cl ow j e w f|cl ow j r|cid cl ow r|cid cl r|j|cl ow j]; cbn [step labelled] in *.
  - destruct Hev as [Hj HL]. unfold observe_with_targets. set (labels := rule_labels cl ow j).
    destruct (in_stripped labels) as (I1 & I2 & _ & I4 & _).
    apply (rows_live_adds _ c _ m _ (fun r => r.1 ∈ stripped_names -> r ∈ stripped_rows labels)); [done| | |].
    + eapply adds_trans; [|by apply set_gauge_adds]. eapply adds_trans; [|by apply set_gauge_adds].
      apply foldl_adds. intros m' s _. apply bump_adds. cbn. destruct s; try done; intros _; by apply I4.
    + intros i Hi. cbn. destruct (decide (j = i)) as [->|]; [rewrite lookup_insert_eq; eauto|by rewrite lookup_insert_ne].
    + intros row HP Hn. right. exists j. cbn. rewrite lookup_insert_eq, HL. split_and!; [done|eauto|by apply HP].
  - unfold observe_sni_per_rule. destruct (inner c !! j) as [e0|] eqn:Ej; [|done]. destruct (prev_sni e0) as [[pe pw] pf].
    apply (rows_live_adds _ c _ m _ (fun r => r.1 = SNI_ROUTE)); [done| | |].
    + eapply adds_trans; [|by apply bump_adds]. eapply adds_trans; [|by apply bump_adds]. by apply bump_adds.
    + intros i Hi. cbn. destruct (decide (j = i)) as [->|]; [rewrite lookup_insert_eq; eauto|by rewrite lookup_insert_ne].
    + intros row -> ?. done.
  - unfold observe_rate_limit_per_rule. destruct (inner c !! j) as [e0|] eqn:Ej; [|done]. destruct Hev as [Hj HL].
    destruct (in_stripped (rule_labels cl ow j)) as (_ & _ & I3 & _ & I5 & I6).
    apply (rows_live_adds _ c _ m _ (fun r => r ∈ stripped_rows (rule_labels cl ow j))); [done|by apply fold_rate_adds| |].
    + intros i Hi. cbn. destruct (decide (j = i)) as [->|]; [rewrite lookup_insert_eq; eauto|by rewrite lookup_insert_ne].
    + intros row HP Hn. right. exists j. cbn. rewrite lookup_insert_eq, HL. split_and!; [done|eauto|done].
  - unfold observe_rate_limit_per_owner. apply (rows_live_adds _ c _ m _ (fun r => r.2 !! 1%nat = Some [])); [done| |done|by left].
    by apply fold_rate_adds.
  - unfold observe_sni_listener. apply (rows_live_adds _ c _ m _ (fun r => r.1 ∉ stripped_names)); [done| |done|done].
    do 3 (eapply adds_trans; [|first [by apply bump_adds|by apply bump_seconds_adds]]).
    eapply adds_trans; [|apply foldl_adds; intros m' x _; by apply bump_adds].
    eapply adds_trans; by apply bump_adds.
  - exact Hl.
  - unfold drop_rule. cbn [inner drop_rule_broadcasts]. destruct (inner c !! j) as [e0|] eqn:Ej; [|exact Hl]. destruct Hev as [Hj HL].
    intros row [Hr Hn]%remove_rows Hs. destruct (Hl row Hr Hs) as [?|(i & Hi & Hin & Hrow)]; [by left|]. right. exists i. cbn.
    assert (i <> j) as Hne by (intros ->; by rewrite HL in Hrow). by rewrite lookup_delete_ne.
Qed.

Lemma rows_live_exec L c m evs : rows_live L c m -> Forall (labelled L) evs ->
  let '(c', m') := exec (c, m) evs in rows_live L c' m'.
Proof.
  intros Hl Hev. revert c m Hl. induction Hev as [|ev evs He Hev IH]; intros c m Hl; cbn [exec foldl]; [done|].
  pose proof (rows_live_step L c m ev Hl He) as Hs. change (foldl step (step (c, m) ev) evs) with (exec (step (c, m) ev) evs).
  destruct (step (c, m) ev) as [c1 m1]. by apply IH.
Qed.

(** Rows of two rules differ. *)
Lemma stripped_rule cl ow i r : r ∈ stripped_rows (rule_labels cl ow i) -> r.1 ∈ stripped_names /\ r.2 !! 1%nat = Some (dec i).
Proof.
  assert (stripped_names = [ACTIVE_CONNECTIONS; collector DnsFailures; ACTIVE_FLOWS; collector DatagramsIn;
    collector DatagramsOut; collector FlowsDropped; collector TargetFailovers; RL_ACTIVE] ++
    replicate 2 THROTTLE ++ replicate 6 REJECT) as -> by reflexivity.
  unfold stripped_rows. rewrite !elem_of_app, !elem_of_replicate, !elem_of_cons, elem_of_nil, !list_elem_of_fmap.
  intros [Hr|[(d & -> & Hd)|(d & -> & Hd)]]; [|split; [by right; left|done]|split; [by right; right|done]].
  repeat destruct Hr as [->|Hr]; [..|done]; (split; [|done]); cbn [fst]; tauto.
Qed.

(** ** Theorems *)

(** A counter of a rule shows the growth of the rule's readings.  While
    the rule is reported under one pair of labels, and whatever is reported of
    other rules, listeners and owners in between, its row has gained exactly
    the sum of the increases between successive readings, each compared with
    the one before (the last report of an earlier session included) and counted
    as nothing when it fell; with readings that never fall that is the last
    reading less the first baseline.  The double-valued byte counters are exact
    while they stay below [2^53], the others below [2^64]. *)
Theorem metrics_count_growth c m evs i client owner s :
  let row := (collector s, rule_labels client owner i) in
  let vs := readings i s evs in
  0 <= i -> Forall (of_rule i client owner) evs -> 0 <= value m row ->
  value m row + growth (prev_reading c i s) vs <= limit (is_float s) ->
  value (exec (c, m) evs).2 row = value m row + growth (prev_reading c i s) vs /\
  (StronglySorted Z.le (prev_reading c i s :: vs) ->
     value (exec (c, m) evs).2 row = value m row + (List.last vs (prev_reading c i s) - prev_reading c i s)).
Proof.
  intros row vs Hi Hof Hv Hl. pose proof (exec_growth c m evs i client owner s Hi Hof) as He. cbn zeta in He.
  destruct (exec (c, m) evs) as [c' m']. destruct (He Hv Hl) as [E _]. cbn [snd]. split; [done|].
  intros Hs. unfold row. rewrite E. fold vs. by rewrite (growth_rising _ _ Hs).
Qed.

(** The rows of removed rules are gone.  From an empty registry, as long
    as every report and the removal of a rule name the same client and owner:
    each row of the collectors that [drop_rule] cleans is that of an owner or
    of a rule still in the cache, and a rule that is not in the cache has none
    of them. *)
Theorem metrics_rows_live_rules L evs :
  Forall (labelled L) evs ->
  let '(c, m) := exec (no_cache, no_metrics) evs in
  rows_live L c m /\
  forall i r, 0 <= i -> inner c !! i = None -> r ∈ stripped_rows (rule_labels (L i).1 (L i).2 i) -> ~ has_row m r.
Proof.
  intros Hev. pose proof (rows_live_exec L no_cache no_metrics evs) as Hl.
  destruct (exec _ evs) as [c m]. assert (rows_live L c m) as Hlive.
  { apply Hl; [|done]. intros r [[]|[[]|[]]]; done. }
  split; [done|]. intros i r Hi Hc Hr Hrow. destruct (stripped_rule _ _ _ _ Hr) as [Hn Hd].
  destruct (Hlive r Hrow Hn) as [He|(j & Hj & Hin & Hrj)].
  - rewrite Hd in He. injection He as He. by apply dec_nonnil in He.
  - destruct (stripped_rule _ _ _ _ Hrj) as [_ Hdj]. rewrite Hd in Hdj. injection Hdj as Hdj.
    apply dec_inj in Hdj; [|done..]. subst j. rewrite Hc in Hin. by destruct Hin.
Qed.

(** ** What the counters miss and what they keep *)

Definition bytes (n : Z) : Reading := mkReading n 0 1 0 0 0 0 0 0 [].

(** The traffic between a client's restart and its first report is not
    counted.  A reading below the last one is taken as a new baseline and adds
    nothing, although all of it is new. *)
Theorem restart_traffic_uncounted client owner (i before after now now' : Z) :
  0 <= i -> 0 <= after <= before -> before <= 2 ^ 53 ->
  value (exec (no_cache, no_metrics) [Observe client owner i (bytes before) now; Observe client owner i (bytes after) now']).2
    (collector BytesIn, rule_labels client owner i) = before.
Proof.
  intros Hi Ha Hb. set (evs := [_; _]).
  assert (readings i BytesIn evs = [before; after]) as Er.
  { unfold evs, readings. cbn [omap list_omap]. by rewrite Z.eqb_refl. }
  assert (growth (prev_reading no_cache i BytesIn) [before; after] = before) as Eg.
  { change (prev_reading no_cache i BytesIn) with 0. cbn [growth]. unfold sat_sub_u64. lia. }
  pose proof (exec_growth no_cache no_metrics evs i client owner BytesIn Hi) as He.
  cbn zeta in He. destruct (exec _ evs) as [c' m']. rewrite Er, Eg in He. change (value no_metrics _) with 0 in He.
  cbn [snd]. apply He; [by repeat constructor|done|cbn [is_float limit]; lia].
Qed.

Lemma restart_traffic_uncounted_witness :
  value (exec (no_cache, no_metrics)
    [Observe (lit "edge") (lit "alice") 7 (bytes 1000) 0; Observe (lit "edge") (lit "alice") 7 (bytes 400) 5]).2
    (collector BytesIn, rule_labels (lit "edge") (lit "alice") 7) = 1000.
Proof. apply (restart_traffic_uncounted (lit "edge") (lit "alice") 7 1000 400 0 5); lia. Defined.

Definition demo_reports : list Ev :=
  [Observe (lit "edge") (lit "alice") 7 (bytes 10) 0; Observe (lit "edge") (lit "bob") 8 (bytes 5) 0;
   ObserveSni (lit "edge") (lit "alice") 7 3 0 0; Observe (lit "edge") (lit "alice") 7 (bytes 40) 5].

Lemma metrics_count_growth_witness :
  readings 7 BytesIn demo_reports = [10; 40] /\
  value (exec (no_cache, no_metrics) demo_reports).2 (collector BytesIn, rule_labels (lit "edge") (lit "alice") 7) = 0 + (40 - 0).
Proof.
  split; [reflexivity|].
  apply (metrics_count_growth no_cache no_metrics demo_reports 7 (lit "edge") (lit "alice") BytesIn).
  - lia.
  - unfold demo_reports. repeat constructor; cbn; try done; lia.
  - vm_compute. discriminate.
  - vm_compute. discriminate.
  - vm_compute. repeat constructor; vm_compute; discriminate.
Defined.

Definition demo_owner (i : Z) : list Z * list Z := (lit "edge", if i =? 7 then lit "alice" else lit "bob").

Definition demo_removal : list Ev := demo_reports ++ [Drop (lit "edge") (lit "alice") 7].

Lemma metrics_rows_live_rules_witness :
  is_Some (gauges (exec (no_cache, no_metrics) demo_reports).2 !! (ACTIVE_CONNECTIONS, rule_labels (lit "edge") (lit "alice") 7)) /\
  ~ has_row (exec (no_cache, no_metrics) demo_removal).2 (ACTIVE_CONNECTIONS, rule_labels (lit "edge") (lit "alice") 7).
Proof.
  split; [vm_compute; eauto|].
  assert (inner (exec (no_cache, no_metrics) demo_removal).1 !! 7 = None) as Hi by (vm_compute; reflexivity).
  pose proof (metrics_rows_live_rules demo_owner demo_removal) as H.
  destruct (exec (no_cache, no_metrics) demo_removal) as [c m]. destruct H as [_ H].
  - unfold demo_removal, demo_reports, demo_owner. repeat constructor; cbn; try done; lia.
  - apply (H 7); [lia|exact Hi|]. by left.
Defined.

(** Rows outlive their rules.  The rows of the TLS routes of a removed
    rule stay; after a rename of the client the rows under the old name stay,
    with the last values reported under it, and the removal strips only those
    under the new one; and a report that arrives after the removal puts the
    rule's gauges back, under the owner [_unknown], where nothing removes
    them. *)
Theorem metric_rows_leak :
  (let evs := [Observe (lit "edge") (lit "alice") 7 (bytes 10) 0; ObserveSni (lit "edge") (lit "alice") 7 3 0 0;
               Drop (lit "edge") (lit "alice") 7] in
   value (exec (no_cache, no_metrics) evs).2 (SNI_ROUTE, rule_labels (lit "edge") (lit "alice") 7 ++ [lit "exact"]) = 3) /\
  (let evs := [Observe (lit "edge") (lit "alice") 7 (bytes 10) 0; Observe (lit "edge-2") (lit "alice") 7 (bytes 20) 5;
               Drop (lit "edge-2") (lit "alice") 7] in
   inner (exec (no_cache, no_metrics) evs).1 !! 7 = None /\
   gauges (exec (no_cache, no_metrics) evs).2 !! (ACTIVE_CONNECTIONS, rule_labels (lit "edge") (lit "alice") 7) = Some 1) /\
  (let evs := [Observe (lit "edge") (lit "alice") 7 (bytes 10) 0; Drop (lit "edge") (lit "alice") 7;
               Observe (lit "edge") (lit "_unknown") 7 (bytes 20) 5] in
   is_Some (inner (exec (no_cache, no_metrics) evs).1 !! 7) /\
   gauges (exec (no_cache, no_metrics) evs).2 !! (ACTIVE_CONNECTIONS, rule_labels (lit "edge") (lit "_unknown") 7) = Some 1).
Proof. split_and!; vm_compute; eauto. Qed.

(** Peek durations of one listener: all of ten within a millisecond, or all
    slower than that and within a second. *)
Definition fast : ListenerReading := mkListener 443 0 0 (replicate 3 0 ++ replicate 12 10) 5000 10.
Definition slow : ListenerReading := mkListener 443 0 0 (replicate 12 0 ++ replicate 3 10) 9000000 10.

Definition bucket (m : Metrics) (le : list Z) : Z := value m (PEEK_BUCKET, [lit "edge"; dec 443; le]).

(** Restarts of a client make the peek histogram inconsistent.  The
    buckets are cumulative, so a wider one never counts less than a narrower
    one; but each bucket is compared with its own last reading, and reports of
    restarted clients with other distributions raise a narrow bucket above the
    wider ones and above the total. *)
Theorem restarts_break_histogram :
  let m := (exec (no_cache, no_metrics)
    [ObserveListener 1 (lit "edge") slow; ObserveListener 1 (lit "edge") fast;
     ObserveListener 1 (lit "edge") slow; ObserveListener 1 (lit "edge") fast]).2 in
  bucket m (lit "0.001") = 20 /\ bucket m (lit "1") = 10 /\ bucket m (lit "+Inf") = 10.
Proof. vm_compute. done. Qed.

(** A live stream can miss the report that arrives while it connects.
    The handler reads the snapshot before it subscribes: of a rule nobody
    listens to, a report between the two is neither the first event nor one of
    the later ones. *)
Theorem stream_misses_report c m (i now : Z) client owner r :
  broadcasts c !! i = None ->
  let between c := (observe_with_targets c m client i owner r now).1 in
  let '(c', st) := get_rule_stats_stream c between i in
  get c' i = Some (mkSnapshot client r now) /\ stream_events c' i true st = option_list (get c i).
Proof.
  intros Hb. unfold get_rule_stats_stream, subscribe, get, stream_events. cbn. rewrite lookup_alter_eq, Hb. cbn.
  rewrite !lookup_insert_eq. split; [done|]. cbn. rewrite app_nil_r. by destruct (inner c !! i).
Qed.

Lemma stream_misses_report_witness :
  broadcasts no_cache !! 7 = None /\
  let between c := (observe_with_targets c no_metrics (lit "edge") 7 (lit "alice") (bytes 10) 5).1 in
  let '(c', st) := get_rule_stats_stream no_cache between 7 in stream_events c' 7 true st = [].
Proof.
  split; [reflexivity|].
  exact (proj2 (stream_misses_report no_cache no_metrics 7 5 (lit "edge") (lit "alice") (bytes 10) eq_refl)).
Defined.

End Metrics.
