(* ===== verification/OwnerCaps.v ===== *)
(** * Rate caps of an owner on a client

    The envelope an operator sets for all rules of one owner on one client:
    its table ([crates/portunus-server/src/store/owner_cap_store.rs]), the
    service with its cache ([owner.rs]), the handlers of the operator's
    interface ([operator/owner_cap.rs]), the replay when a client connects
    ([grpc/service.rs]), and what the client makes of the frames
    ([ClientControl], over the limiters of [RateScope]).

    A client id is a number; a malformed one in a path is [None].  A session is
    named by its token and has a queue of frames; [closed] are the sessions
    whose channel is gone. *)

From S2P Require Import Prelude Text RateLimit TokenBucket RateScope Rbac RuleStore.
From S2P Require Import ClientTokens ClientSessions RulePersist RulePush ClientControl Slots.

Local Open Scope Z_scope.

Module OwnerCaps.

(** ** The table *)

Record OwnerRateLimitRow : Type := mkOwnerRow {
  row_client : Z;
  row_owner : list Z;
  row_limit : RateLimit.RateLimit;
  updated_at_unix_ms : Z;
}.

(** [rate_limit_owner], by its primary key; the time is a signed column. *)
Notation Table := (gmap (Z * list Z) (RateLimit.RateLimit * Z)).

(** The [CHECK]s, and that a cap fits a signed 64-bit integer. *)
Definition columns_ok (rl : RateLimit.RateLimit) : bool :=
  RulePersist.cap_ok (RateLimit.bandwidth_in_bps rl) && RulePersist.cap_ok (RateLimit.bandwidth_out_bps rl) &&
  RulePersist.cap_ok (RateLimit.new_connections_per_sec rl) &&
  RulePersist.cap_ok (RateLimit.concurrent_connections rl) &&
  RulePersist.cap_ok (RateLimit.bandwidth_in_burst rl) && RulePersist.cap_ok (RateLimit.bandwidth_out_burst rl) &&
  RulePersist.cap_ok (RateLimit.new_connections_burst rl).

Definition store_upsert (d : Table) (client : Z) (owner : list Z) (rl : RateLimit.RateLimit) (updated : Z) :
  Result Table RulePersist.StoreError :=
  if columns_ok rl then Ok (<[(client, owner) := (rl, to_i64_or_max updated)]> d) else Err RulePersist.Refused.

Definition store_delete (d : Table) (client : Z) (owner : list Z) : bool * Table :=
  (bool_decide (is_Some (d !! (client, owner))), delete (client, owner) d).

Definition row_to_envelope (k : Z * list Z) (v : RateLimit.RateLimit * Z) : OwnerRateLimitRow :=
  mkOwnerRow k.1 k.2 v.1 (if v.2 <? 0 then 0 else v.2).

Definition store_get (d : Table) (client : Z) (owner : list Z) : option OwnerRateLimitRow :=
  row_to_envelope (client, owner) <$> d !! (client, owner).

(** The byte order of two texts. *)
Fixpoint str_compare (a b : list Z) : comparison :=
  match a, b with
  | [], [] => Eq
  | [], _ :: _ => Lt
  | _ :: _, [] => Gt
  | x :: a, y :: b => match Z.compare x y with Eq => str_compare a b | c => c end
  end.

Definition str_leb (a b : list Z) : bool := match str_compare a b with Gt => false | _ => true end.

(** [ORDER BY client_id ASC, owner_id ASC]. *)
Definition row_leb (a b : OwnerRateLimitRow) : bool :=
  (row_client a <? row_client b) || ((row_client a =? row_client b) && str_leb (row_owner a) (row_owner b)).

Definition rows (d : Table) : list OwnerRateLimitRow := (fun kv => row_to_envelope kv.1 kv.2) <$> map_to_list d.

Definition store_list_all (d : Table) : list OwnerRateLimitRow := stable_sort row_leb (rows d).

Definition store_list_for_client (d : Table) (client : Z) : list OwnerRateLimitRow :=
  stable_sort row_leb (filter (fun r => row_client r = client) (rows d)).

(** ** The service *)

Notation Snapshot := (gmap Z (gmap (list Z) OwnerRateLimitRow)).

Record Service : Type := mkService { store : Table; cache : Snapshot }.

Inductive OwnerCapError : Type :=
| InvalidEnvelope (e : RateLimit.RateLimitError)
| UnsupportedByClient
| StoreFailed (e : RulePersist.StoreError).

(** [entry(client).or_default().insert(owner, row)]. *)
Definition cache_insert (c : Snapshot) (r : OwnerRateLimitRow) : Snapshot :=
  <[row_client r := <[row_owner r := r]> (default ∅ (c !! row_client r))]> c.

Definition cache_remove (c : Snapshot) (client : Z) (owner : list Z) : Snapshot :=
  match c !! client with
  | Some per_client =>
    let per_client := delete owner per_client in
    if bool_decide (per_client = ∅) then delete client c else <[client := per_client]> c
  | None => c
  end.

Definition open (d : Table) : Service := mkService d (foldl cache_insert ∅ (store_list_all d)).

(** [upsert] up to its first await: the row is validated and on disk. *)
Definition upsert_write (s : Service) (client : Z) (owner : list Z) (rl : RateLimit.RateLimit) (now : Z) :
  Result (OwnerRateLimitRow * Service) OwnerCapError :=
  match RateLimit.validate rl with
  | Err e => Err (InvalidEnvelope e)
  | Ok _ =>
    match store_upsert (store s) client owner rl now with
    | Err e => Err (StoreFailed e)
    | Ok d => Ok (mkOwnerRow client owner rl now, mkService d (cache s))
    end
  end.

(** Once it holds the lock of the cache. *)
Definition upsert_publish (s : Service) (r : OwnerRateLimitRow) : Service :=
  mkService (store s) (cache_insert (cache s) r).

Definition upsert (s : Service) (client : Z) (owner : list Z) (rl : RateLimit.RateLimit) (now : Z) :
  Result OwnerRateLimitRow OwnerCapError * Service :=
  match upsert_write s client owner rl now with
  | Err e => (Err e, s)
  | Ok (r, s) => (Ok r, upsert_publish s r)
  end.

Definition delete_write (s : Service) (client : Z) (owner : list Z) : bool * Service :=
  let (removed, d) := store_delete (store s) client owner in (removed, mkService d (cache s)).

Definition delete_publish (s : Service) (removed : bool) (client : Z) (owner : list Z) : Service :=
  if removed then mkService (store s) (cache_remove (cache s) client owner) else s.

Definition delete_cap (s : Service) (client : Z) (owner : list Z) : bool * Service :=
  let (removed, s) := delete_write s client owner in (removed, delete_publish s removed client owner).

Definition get (s : Service) (client : Z) (owner : list Z) : option OwnerRateLimitRow :=
  cache s !! client ≫= fun per_client : gmap (list Z) OwnerRateLimitRow => per_client !! owner.

(** The values of a hash map, in whatever order it has. *)
Definition list_for_client (s : Service) (client : Z) : list OwnerRateLimitRow :=
  match cache s !! client with
  | Some per_client => (map_to_list per_client).*2
  | None => []
  end.

Definition gc_after_rule_removed (s : Service) (client : Z) (owner : list Z) (rules_remaining : nat) : bool * Service :=
  if (0 <? rules_remaining)%nat then (false, s) else delete_cap s client owner.

Definition known_owners (s : Service) : gset (list Z) :=
  map_fold (fun _ (per_client : gmap (list Z) OwnerRateLimitRow) (out : gset (list Z)) => dom per_client ∪ out)
    (∅ : gset (list Z)) (cache s).

(** ** Frames and sessions *)

Inductive OwnerRateLimitAction : Type := Unspecified | SetCap | RemoveCap.

Record OwnerRateLimitUpdate : Type := mkUpdate {
  u_client_name : list Z;
  u_owner_id : list Z;
  u_rate_limit : option RateLimit.RateLimit;
  u_action : OwnerRateLimitAction;
  u_client_id : Z;
}.

Record Server : Type := mkServer {
  caps : Service;
  tokens : ClientTokens.Db;
  clients : Clients.ConnectedClients;
  queues : gmap Z (list OwnerRateLimitUpdate);
  closed : gset Z;
}.

Definition set_caps (s : Server) (c : Service) : Server :=
  mkServer c (tokens s) (clients s) (queues s) (closed s).

Definition queue (s : Server) (t : Z) : list OwnerRateLimitUpdate := default [] (queues s !! t).

Definition set_queue (s : Server) (t : Z) (q : list OwnerRateLimitUpdate) : Server :=
  mkServer (caps s) (tokens s) (clients s) (<[t := q]> (queues s)) (closed s).

(** [outbound.send]: [None] once the channel is closed. *)
Definition send (s : Server) (t : Z) (u : OwnerRateLimitUpdate) : option Server :=
  if bool_decide (t ∈ closed s) then None else Some (set_queue s t (queue s t ++ [u])).

(** ** The handlers *)

Inductive ApiError : Type :=
| Denied (e : Rbac.RbacError)
| ClientNotFound
| OwnerRateLimitNotFound
| RateLimitValidation (code : list Z)
| RateLimitUnsupportedByClient (version : list Z)
| Internal.

Record OwnerRateLimitPutBody : Type := mkBody {
  b_limit : RateLimit.RateLimit;
  concurrent_connections_burst : option Z;
}.

Record OwnerRateLimitView : Type := mkView {
  v_client_name : list Z;
  v_owner_id : list Z;
  v_rate_limit : RateLimit.RateLimit;
  v_updated_at : Z;
}.

Definition parse_client_id (raw : option Z) : Result Z ApiError :=
  match raw with Some cid => Ok cid | None => Err ClientNotFound end.

Definition resolve_client_name (s : Server) (cid : Z) : Result (list Z) ApiError :=
  match ClientTokens.get_by_id (tokens s) cid with
  | Ok (Some p) => Ok (ClientTokens.p_name p)
  | Ok None => Err ClientNotFound
  | Err _ => Err Internal
  end.

Definition map_cap_error (e : OwnerCapError) : ApiError :=
  match e with
  | InvalidEnvelope (RateLimit.CapZero _) => RateLimitValidation (lit "validation.rate_limit_cap_zero")
  | InvalidEnvelope (RateLimit.BurstWithoutRate _) =>
    RateLimitValidation (lit "validation.rate_limit_burst_without_rate")
  | InvalidEnvelope (RateLimit.BurstRange _ _ _ _ _) => RateLimitValidation (lit "validation.rate_limit_burst_range")
  | UnsupportedByClient => RateLimitUnsupportedByClient []
  | StoreFailed _ => Internal
  end.

Definition envelope_to_view (r : OwnerRateLimitRow) (name : list Z) : OwnerRateLimitView :=
  mkView name (row_owner r) (row_limit r) (updated_at_unix_ms r).

Definition get_owner_rate_limit (s : Server) (identity : Rbac.OperatorIdentity) (raw : option Z) (owner : list Z) :
  Result OwnerRateLimitView ApiError :=
  match Rbac.require_role identity Rbac.Superadmin with
  | Err e => Err (Denied e)
  | Ok _ =>
    let? cid := parse_client_id raw in
    let? name := resolve_client_name s cid in
    match get (caps s) cid owner with
    | Some r => Ok (envelope_to_view r name)
    | None => Err OwnerRateLimitNotFound
    end
  end.

(** What [put_owner_rate_limit] checks before the store: the id and name of the
    client. *)
Definition put_checks (s : Server) (identity : Rbac.OperatorIdentity) (raw : option Z) (body : OwnerRateLimitPutBody) :
  Result (Z * list Z) ApiError :=
  match Rbac.require_role identity Rbac.Superadmin with
  | Err e => Err (Denied e)
  | Ok _ =>
    let? cid := parse_client_id raw in
    let? name := resolve_client_name s cid in
    match ClientName.new name with
    | Err _ => Err Internal
    | Ok _ =>
      if bool_decide (is_Some (concurrent_connections_burst body))
      then Err (RateLimitValidation (lit "validation.rate_limit_burst_unsupported"))
      else
        match Clients.client_version_of (clients s) cid with
        | None => Err (RateLimitUnsupportedByClient (lit "unknown"))
        | Some v =>
          if RulePush.version_at_least (Some v) 0 11 then Ok (cid, name)
          else Err (RateLimitUnsupportedByClient v)
        end
    end
  end.

(** [if let Some((outbound, _)) = handles(..)], a refused send ignored. *)
Definition push_update (s : Server) (cid : Z) (u : OwnerRateLimitUpdate) : Server :=
  match Clients.handles (clients s) cid with
  | Some t => default s (send s t u)
  | None => s
  end.

Definition set_message (name : list Z) (r : OwnerRateLimitRow) : OwnerRateLimitUpdate :=
  mkUpdate name (row_owner r) (Some (RulePush.rate_limit_to_proto (row_limit r))) SetCap (row_client r).

Definition remove_cap_message (name : list Z) (cid : Z) (owner : list Z) : OwnerRateLimitUpdate :=
  mkUpdate name owner None RemoveCap cid.

Definition put_owner_rate_limit (s : Server) (identity : Rbac.OperatorIdentity) (raw : option Z) (owner : list Z)
  (body : OwnerRateLimitPutBody) (now : Z) : Result OwnerRateLimitView ApiError * Server :=
  match put_checks s identity raw body with
  | Err e => (Err e, s)
  | Ok (cid, name) =>
    match upsert (caps s) cid owner (b_limit body) now with
    | (Err e, _) => (Err (map_cap_error e), s)
    | (Ok r, c) =>
      (Ok (envelope_to_view r name), push_update (set_caps s c) cid (set_message name r))
    end
  end.

(** [cid_text] renders a client id for the name of a client that is gone. *)
Definition delete_owner_rate_limit (cid_text : Z -> list Z) (s : Server) (identity : Rbac.OperatorIdentity)
  (raw : option Z) (owner : list Z) : Result unit ApiError * Server :=
  match Rbac.require_role identity Rbac.Superadmin with
  | Err e => (Err (Denied e), s)
  | Ok _ =>
    match parse_client_id raw with
    | Err e => (Err e, s)
    | Ok cid =>
      let name := match resolve_client_name s cid with Ok n => n | Err _ => cid_text cid end in
      let (_, c) := delete_cap (caps s) cid owner in
      (Ok tt, push_update (set_caps s c) cid (remove_cap_message name cid owner))
    end
  end.

(** ** The listing *)

Record OwnerListEntry : Type := mkEntry { e_owner_id : list Z; has_rate_limit : bool; rule_count : nat }.

(** A [BTreeMap] as its entries in key order; [entry(k).or_insert(0)], then
    [f] on the count. *)
Fixpoint entry_or_zero (k : list Z) (f : nat -> nat) (m : list (list Z * nat)) : list (list Z * nat) :=
  match m with
  | [] => [(k, f 0%nat)]
  | (k', n) :: m' =>
    match str_compare k k' with
    | Lt => (k, f 0%nat) :: m
    | Eq => (k', f n) :: m'
    | Gt => (k', n) :: entry_or_zero k f m'
    end
  end.

Definition count_rule (m : list (list Z * nat)) (r : RuleStore.Rule) : list (list Z * nat) :=
  entry_or_zero (RuleStore.owner_user_id r) S m.

Definition count_cap (m : list (list Z * nat)) (r : OwnerRateLimitRow) : list (list Z * nat) :=
  entry_or_zero (row_owner r) (fun n => n) m.

Definition get_owners_under_client (s : Server) (mem : RuleStore.Store) (identity : Rbac.OperatorIdentity) (raw : option Z) :
  Result (list OwnerListEntry) ApiError :=
  match Rbac.require_role identity Rbac.Superadmin with
  | Err e => Err (Denied e)
  | Ok _ =>
    let? cid := parse_client_id raw in
    let? _ := resolve_client_name s cid in
    let cap_rows := list_for_client (caps s) cid in
    let counts := foldl count_cap (foldl count_rule [] (RuleStore.list_rules mem (Some cid))) cap_rows in
    let capped : gset (list Z) := list_to_set (row_owner <$> cap_rows) in
    Ok (stable_sort (fun a b => str_leb (e_owner_id a) (e_owner_id b))
          ((fun kv => mkEntry kv.1 (bool_decide (kv.1 ∈ capped)) kv.2) <$> counts))
  end.

(** ** The replay *)

Fixpoint replay_caps (s : Server) (t : Z) (name : list Z) (rs : list OwnerRateLimitRow) : Server :=
  match rs with
  | [] => s
  | r :: rs =>
    match send s t (set_message name r) with
    | Some s => replay_caps s t name rs
    | None => s
    end
  end.

Definition replay_owner_caps_for_client (s : Server) (client : Z) (name : list Z) (t : Z) : Server :=
  if RulePush.version_at_least (Clients.client_version_of (clients s) client) 0 11
  then replay_caps s t name (list_for_client (caps s) client)
  else s.

(** ** The client *)

Definition consume (c : ClientControl.Client) (u : OwnerRateLimitUpdate) (now : Z) : ClientControl.Client :=
  match u_action u with
  | SetCap => ClientControl.apply_owner_rate_limit_update c true (u_owner_id u) (u_rate_limit u) now
  | RemoveCap => ClientControl.apply_owner_rate_limit_update c false (u_owner_id u) None now
  | Unspecified => c
  end.

(** ** The cache and the table *)

Definition look (c : Snapshot) (client : Z) (owner : list Z) : option OwnerRateLimitRow :=
  c !! client ≫= fun per_client : gmap (list Z) OwnerRateLimitRow => per_client !! owner.

Lemma look_insert c r client owner :
  look (cache_insert c r) client owner =
  if decide (client = row_client r /\ owner = row_owner r) then Some r else look c client owner.
Proof.
  unfold look, cache_insert. destruct (decide (client = row_client r)) as [->|Hc].
  - rewrite lookup_insert_eq. cbn. destruct (decide (owner = row_owner r)) as [->|Ho].
    + rewrite lookup_insert_eq. by rewrite decide_True.
    + rewrite lookup_insert_ne by done. rewrite decide_False by naive_solver.
      by destruct (c !! row_client r); cbn; [|rewrite lookup_empty].
  - rewrite lookup_insert_ne by done. by rewrite decide_False by naive_solver.
Qed.

Lemma look_remove c client owner client' owner' :
  look (cache_remove c client owner) client' owner' =
  if decide (client' = client /\ owner' = owner) then None else look c client' owner'.
Proof.
  unfold look, cache_remove. destruct (c !! client) as [m|] eqn:E.
  - destruct (decide (client' = client)) as [->|Hc].
    + rewrite E. cbn. destruct (decide (owner' = owner)) as [->|Ho].
      * rewrite decide_True by done. case_bool_decide; [by rewrite lookup_delete_eq|].
        rewrite lookup_insert_eq. cbn. by rewrite lookup_delete_eq.
      * rewrite decide_False by naive_solver. case_bool_decide as Hm.
        -- rewrite lookup_delete_eq. cbn. symmetry. rewrite <- (lookup_delete_ne m owner) by done.
           by rewrite Hm, lookup_empty.
        -- rewrite lookup_insert_eq. cbn. by rewrite lookup_delete_ne.
    + rewrite decide_False by naive_solver.
      case_bool_decide; [by rewrite lookup_delete_ne|by rewrite lookup_insert_ne].
  - case_decide as Hd; [|done]. destruct Hd as [-> ->]. by rewrite E.
Qed.

(** Every client in the cache has a row, which is filed under its own key. *)
Record tidy (c : Snapshot) : Prop := mkTidy {
  tidy_some : forall client (m : gmap (list Z) OwnerRateLimitRow), c !! client = Some m -> m <> ∅;
  tidy_keys : forall client owner r, look c client owner = Some r -> row_client r = client /\ row_owner r = owner;
}.

Lemma tidy_empty : tidy ∅.
Proof. split; [by intros ? ? ?%lookup_empty_Some|]. intros ? ? ?. unfold look. by rewrite lookup_empty. Qed.

Lemma tidy_insert c r : tidy c -> tidy (cache_insert c r).
Proof.
  intros [Hs Hk]. split.
  - intros client m. unfold cache_insert. intros [[<- <-]|[? ?]]%lookup_insert_Some; [|by eapply Hs].
    intros Hm. by apply insert_non_empty in Hm.
  - intros client owner r'. rewrite look_insert. case_decide as Hd; [|by apply Hk].
    destruct Hd as [-> ->]. by intros [= <-].
Qed.

Lemma tidy_cache_remove c client owner : tidy c -> tidy (cache_remove c client owner).
Proof.
  intros [Hs Hk]. split.
  - intros client' m. unfold cache_remove. destruct (c !! client) as [m0|] eqn:E; [|by apply Hs].
    case_bool_decide as Hm.
    + intros [? ?]%lookup_delete_Some. by eapply Hs.
    + intros [[<- <-]|[? ?]]%lookup_insert_Some; [done|by eapply Hs].
  - intros client' owner' r. rewrite look_remove. case_decide; [done|apply Hk].
Qed.

Lemma tidy_ext c c' : tidy c -> tidy c' -> (forall client owner, look c client owner = look c' client owner) -> c = c'.
Proof.
  intros [Hs _] [Hs' _] He. apply map_eq. intros client.
  assert (forall d d' : Snapshot, (forall o, look d client o = look d' client o) ->
    (forall m : gmap (list Z) OwnerRateLimitRow, d !! client = Some m -> m <> ∅) ->
    d !! client = None -> d' !! client = None \/ exists m, d' !! client = Some m /\ m = ∅) as Hnone.
  { intros d d' Ho _ Hd. destruct (d' !! client) as [m|] eqn:E; [|by left]. right. exists m. split; [done|].
    apply map_empty. intros o. specialize (Ho o). unfold look in Ho. rewrite Hd, E in Ho. cbn in Ho. done. }
  destruct (c !! client) as [m|] eqn:E1, (c' !! client) as [m'|] eqn:E2; [|exfalso..|done].
  - f_equal. apply map_eq. intros o. specialize (He client o). unfold look in He. by rewrite E1, E2 in He.
  - destruct (Hnone c' c) as [?|(m0 & Hm & ->)]; [by intros|naive_solver|done|congruence|]. by eapply Hs.
  - destruct (Hnone c c') as [?|(m0 & Hm & ->)]; [by intros|naive_solver|done|congruence|]. by eapply Hs'.
Qed.

(** The cache holds what the table holds. *)
Definition coherent (s : Service) : Prop :=
  tidy (cache s) /\ forall client owner, get s client owner = store_get (store s) client owner.

Definition key (r : OwnerRateLimitRow) : Z * list Z := (row_client r, row_owner r).

Lemma look_outside l c client owner :
  (client, owner) ∉ key <$> l -> look (foldl cache_insert c l) client owner = look c client owner.
Proof.
  revert c. induction l as [|x l IH]; intros c Hn; [done|]. cbn [fmap list_fmap foldl] in *.
  rewrite elem_of_cons in Hn. rewrite IH by naive_solver. rewrite look_insert, decide_False; [done|].
  intros [-> ->]. apply Hn. by left.
Qed.

Lemma look_inside l c r :
  NoDup (key <$> l) -> r ∈ l -> look (foldl cache_insert c l) (row_client r) (row_owner r) = Some r.
Proof.
  revert c. induction l as [|x l IH]; intros c; cbn [fmap list_fmap foldl]; [by intros _ ?%elem_of_nil|].
  intros [Hx Hl]%NoDup_cons [->|Hr]%elem_of_cons; [|by apply IH].
  rewrite look_outside by done. by rewrite look_insert, decide_True.
Qed.

Lemma tidy_all l c : tidy c -> tidy (foldl cache_insert c l).
Proof. revert c. induction l as [|r l IH]; intros c Hc; [done|]. by apply IH, tidy_insert. Qed.

Lemma rows_keys d : key <$> rows d = (map_to_list d).*1.
Proof.
  unfold rows. rewrite <- list_fmap_compose. apply list_fmap_ext. by intros ? [[? ?] ?] ?.
Qed.

Lemma open_coherent d : coherent (open d).
Proof.
  split; [apply tidy_all, tidy_empty|]. intros client owner. unfold get, open, store_get. cbn.
  change (look (foldl cache_insert ∅ (store_list_all d)) client owner =
          row_to_envelope (client, owner) <$> d !! (client, owner)).
  assert (Hp : store_list_all d ≡ₚ rows d) by apply stable_sort_perm.
  assert (Hk : key <$> store_list_all d ≡ₚ (map_to_list d).*1) by (rewrite Hp; by rewrite rows_keys).
  assert (Hnd : NoDup (key <$> store_list_all d)) by (rewrite Hk; apply NoDup_fst_map_to_list).
  destruct (d !! (client, owner)) as [v|] eqn:E; cbn.
  - apply (look_inside _ ∅ (row_to_envelope (client, owner) v) Hnd). rewrite Hp. unfold rows.
    apply list_elem_of_fmap. exists ((client, owner), v). split; [done|]. by apply elem_of_map_to_list.
  - rewrite look_outside; [unfold look; by rewrite lookup_empty|]. rewrite Hk.
    intros ([k v] & Hkv & Hin)%list_elem_of_fmap. cbn in Hkv. subst k.
    apply elem_of_map_to_list in Hin. congruence.
Qed.

Lemma upsert_coherent s client owner rl now :
  0 <= now <= i64_max -> coherent s -> coherent (upsert s client owner rl now).2.
Proof.
  intros Hn [Ht Hg]. unfold upsert, upsert_write, store_upsert.
  destruct (RateLimit.validate rl); [|by split]. destruct (columns_ok rl); [|by split].
  split; [by apply tidy_insert|]. intros c o. unfold get, store_get. cbn.
  change (look (cache_insert (cache s) (mkOwnerRow client owner rl now)) c o =
    row_to_envelope (c, o) <$> <[(client, owner) := (rl, to_i64_or_max now)]> (store s) !! (c, o)).
  rewrite look_insert. cbn. case_decide as Hd.
  - destruct Hd as [-> ->]. rewrite lookup_insert_eq. unfold row_to_envelope, to_i64_or_max. cbn.
    rewrite Z.min_l by lia. by destruct (Z.ltb_spec now 0); [lia|].
  - rewrite lookup_insert_ne by naive_solver. apply Hg.
Qed.

Lemma delete_get s client owner c o :
  coherent s -> get (delete_cap s client owner).2 c o = if decide (c = client /\ o = owner) then None else get s c o.
Proof.
  intros [Ht Hg]. unfold delete_cap, delete_write, store_delete, delete_publish. cbn.
  case_bool_decide as Hs; [exact (look_remove (cache s) client owner c o)|].
  case_decide as Hd; [|done]. destruct Hd as [-> ->]. change (get s client owner = None). rewrite Hg. unfold store_get.
  destruct (store s !! (client, owner)); [by exfalso; apply Hs|done].
Qed.

Lemma delete_coherent s client owner : coherent s -> coherent (delete_cap s client owner).2.
Proof.
  intros Hc. split.
  - unfold delete_cap, delete_write, delete_publish. cbn. case_bool_decide; [apply tidy_cache_remove|]; apply Hc.
  - intros c o. rewrite delete_get by done.
    assert (store (delete_cap s client owner).2 = delete (client, owner) (store s)) as ->.
    { unfold delete_cap, delete_write, delete_publish. cbn. by case_bool_decide. }
    unfold store_get. case_decide as Hd.
    + destruct Hd as [-> ->]. by rewrite lookup_delete_eq.
    + rewrite lookup_delete_ne by naive_solver. apply Hc.
Qed.

Inductive CapOp : Type :=
| OpUpsert (client : Z) (owner : list Z) (rl : RateLimit.RateLimit) (now : Z)
| OpDelete (client : Z) (owner : list Z)
| OpGc (client : Z) (owner : list Z) (rules_remaining : nat)
| OpRestart.

Definition cap_op (s : Service) (o : CapOp) : Service :=
  match o with
  | OpUpsert client owner rl now => (upsert s client owner rl now).2
  | OpDelete client owner => (delete_cap s client owner).2
  | OpGc client owner n => (gc_after_rule_removed s client owner n).2
  | OpRestart => open (store s)
  end.

(** The clock is after 1970 and before the signed column runs out. *)
Definition cap_op_timely (o : CapOp) : Prop :=
  match o with OpUpsert _ _ _ now => 0 <= now <= i64_max | _ => True end.

Lemma cap_op_coherent s o : cap_op_timely o -> coherent s -> coherent (cap_op s o).
Proof.
  destruct o as [client owner rl now|client owner|client owner n|]; cbn; intros Ht Hc.
  - by apply upsert_coherent.
  - by apply delete_coherent.
  - unfold gc_after_rule_removed. destruct (0 <? n)%nat; [done|by apply delete_coherent].
  - apply open_coherent.
Qed.

Lemma cap_ops_coherent s ops : Forall cap_op_timely ops -> coherent s -> coherent (foldl cap_op s ops).
Proof.
  revert s. induction ops as [|o ops IH]; intros s; [done|]. intros [Ho Hops]%Forall_cons Hs.
  apply IH; [done|]. by apply cap_op_coherent.
Qed.

(** Whatever completed sequence of sets, deletions, sweeps and restarts
    runs over a table, the cache answers every look-up with the row of the
    table, and a restart rebuilds exactly the cache there is: no cap is lost or
    revived by it. *)
Theorem owner_caps_durable (d : Table) (ops : list CapOp) :
  Forall cap_op_timely ops ->
  let s := foldl cap_op (open d) ops in
  (forall client owner, get s client owner = store_get (store s) client owner) /\
  cache (open (store s)) = cache s.
Proof.
  intros Ho s. assert (coherent s) as [Ht Hg] by (apply cap_ops_coherent; [done|apply open_coherent]).
  split; [done|]. destruct (open_coherent (store s)) as [Ht' Hg'].
  apply tidy_ext; [done..|]. intros client owner. exact (eq_trans (Hg' client owner) (eq_sym (Hg client owner))).
Qed.

(** The writes of the table and of the cache are two steps: a set and a
    deletion of one cap that overlap can leave the cache with a cap that is not
    in the table; it is served and replayed until the next restart. *)
Theorem interleaved_cap_writes_diverge (s : Service) (client : Z) (owner : list Z) (rl : RateLimit.RateLimit) (now : Z)
  (r : OwnerRateLimitRow) (s1 : Service) :
  coherent s -> upsert_write s client owner rl now = Ok (r, s1) ->
  let (removed, s2) := delete_write s1 client owner in
  let s3 := upsert_publish (delete_publish s2 removed client owner) r in
  removed = true /\ get s3 client owner = Some r /\ store_get (store s3) client owner = None /\
  get (open (store s3)) client owner = None.
Proof.
  intros Hc Hw. unfold upsert_write, store_upsert in Hw. destruct (RateLimit.validate rl); [|done].
  destruct (columns_ok rl); [|done]. simplify_eq. unfold delete_write, store_delete. cbn [store].
  assert (bool_decide (is_Some (<[(client, owner) := (rl, to_i64_or_max now)]> (store s) !! (client, owner))) = true) as ->
    by (apply bool_decide_eq_true; rewrite lookup_insert_eq; by eexists).
  cbn [delete_publish upsert_publish store cache]. assert (forall m : Table, store_get (delete (client, owner) m) client owner = None) as Hn
    by (intros m; unfold store_get; by rewrite lookup_delete_eq).
  split_and!; [done| |apply Hn|].
  - unfold get. cbn. etransitivity; [apply (look_insert _ (mkOwnerRow client owner rl now) client owner)|].
    by rewrite decide_True.
  - destruct (open_coherent (delete (client, owner) (<[(client, owner) := (rl, to_i64_or_max now)]> (store s)))) as [_ ->].
    apply Hn.
Qed.

(** ** The limiters of the client *)

Definition sized (b : TokenBucket.TokenBucket) : Z * Z := (TokenBucket.rate_per_sec b, TokenBucket.burst b).

(** What a limiter enforces: the rate and burst of its buckets, and its ceiling. *)
Definition caps_of (l : RateScope.RuleRateLimiter) : option (Z * Z) * option (Z * Z) * option (Z * Z) * option Z :=
  (sized <$> RateScope.bandwidth_in l, sized <$> RateScope.bandwidth_out l, sized <$> RateScope.new_connections l,
   RateScope.concurrent_max l).

(** The registry has a limiter with the caps of the envelope for the owner. *)
Definition enforces (w : RateScope.World) (owner : list Z) (rl : RateLimit.RateLimit) : Prop :=
  exists lid l, RateScope.get_owner w owner = Some lid /\ RateScope.limiters w !! lid = Some l /\
    caps_of l = caps_of (RateScope.from_envelope rl 0 0).

(** What connections, datagrams and the updates of single rules do to the
    limiters. *)
Inductive traffic : RateScope.World -> RateScope.World -> Prop :=
| tr_install w r rl now : (forall e, rl = Some e -> RateScope.valid_envelope e) ->
    traffic w (RateScope.install w r rl now)
| tr_update w w' r rl now : (forall e, rl = Some e -> RateScope.valid_envelope e) ->
    RateScope.update w r rl now = Some w' -> traffic w w'
| tr_remove w r : traffic w (RateScope.remove w r)
| tr_acquire w w' i sc udp now r : RateScope.try_acquire w i sc udp now = Some (w', r) -> traffic w w'
| tr_drop w w' g : RateScope.drop_guard w g = Some w' -> traffic w w'
| tr_bandwidth w w' i d n now r : in_u64 n -> RateScope.acquire_bandwidth w i d n now = Some (w', r) -> traffic w w'.

Lemma traffic_op w w' : traffic w w' -> RateScope.op w w'.
Proof.
  intros [? r rl now H|? ? r rl now H Hu|? r|? ? i sc udp now r H|? ? g H|? ? i d n now r Hn H].
  - destruct rl as [rl|]; [by apply RateScope.op_install, H|apply RateScope.op_uninstall].
  - exact (RateScope.op_update _ _ r rl now H Hu).
  - apply RateScope.op_remove.
  - exact (RateScope.op_try_acquire _ _ i sc udp now r H).
  - exact (RateScope.op_drop _ _ g H).
  - exact (RateScope.op_bandwidth _ _ i d n now r Hn H).
Qed.

(** No owner's limiter is replaced, and none changes its caps. *)
Definition same_caps (w w' : RateScope.World) : Prop :=
  RateScope.owners w' = RateScope.owners w /\
  forall i l, RateScope.limiters w !! i = Some l ->
    exists l', RateScope.limiters w' !! i = Some l' /\ caps_of l' = caps_of l.

#[global] Instance same_caps_preorder : PreOrder same_caps.
Proof.
  split; [by intros w; split; eauto|]. intros w1 w2 w3 [Ho H1] [Ho' H2]. split; [congruence|].
  intros i l (l' & Hl' & E)%H1. destruct (H2 _ _ Hl') as (l'' & ? & ?). exists l''. split; [done|congruence].
Qed.

Lemma same_caps_enforces w w' owner rl : same_caps w w' -> enforces w owner rl -> enforces w' owner rl.
Proof.
  intros [Ho Hl] (lid & l & Hg & Hli & Hc). destruct (Hl _ _ Hli) as (l' & Hl' & E).
  exists lid, l'. unfold RateScope.get_owner in *. rewrite Ho. split_and!; [done..|congruence].
Qed.

Lemma same_caps_frame w w' :
  RateScope.owners w' = RateScope.owners w -> RateScope.limiters w' = RateScope.limiters w -> same_caps w w'.
Proof. intros Ho Hl. split; [done|]. rewrite Hl. eauto. Qed.

Lemma same_caps_store w i l l' :
  RateScope.limiters w !! i = Some l -> caps_of l' = caps_of l -> same_caps w (RateScope.store_limiter w i l').
Proof.
  intros Hi Hc. split; [done|]. intros j k Hj. cbn. destruct (decide (i = j)) as [->|].
  - rewrite lookup_insert_eq. eexists; split; [done|]. congruence.
  - rewrite lookup_insert_ne by done. eauto.
Qed.

Lemma same_caps_alloc w l : RateScope.wf_world w -> same_caps w (RateScope.alloc_limiter w l).2.
Proof.
  intros Hw. split; [done|]. intros i k Hi. cbn. rewrite lookup_insert_ne; [eauto|].
  intros <-. by rewrite (Slots.fresh_limiter w _ Hw) in Hi.
Qed.

Lemma same_caps_fresh w rl now :
  RateScope.wf_world w -> same_caps w (RateScope.alloc_limiter (RateScope.alloc_gauge w).2 (RateScope.from_envelope rl (RateScope.alloc_gauge w).1 now)).2.
Proof.
  intros Hw. etransitivity; [|apply same_caps_alloc; by apply RateScope.alloc_gauge_wf]. by apply same_caps_frame.
Qed.

Lemma acquire_sized b n now : sized (TokenBucket.acquire b n now).1 = sized b.
Proof.
  unfold TokenBucket.acquire, TokenBucket.refill. repeat (case_match; cbn); done.
Qed.

Lemma token_caps l now : caps_of (RateScope.take_connection_token l now).1 = caps_of l.
Proof.
  unfold RateScope.take_connection_token. destruct (RateScope.new_connections l) as [b|] eqn:E; [|done].
  destruct (TokenBucket.acquire b 1 now) as [b' r] eqn:Ea. cbn. unfold caps_of. cbn. rewrite E. cbn.
  rewrite <- (acquire_sized b 1 now), Ea. done.
Qed.

Lemma bandwidth_caps l d b n now : RateScope.bandwidth l d = Some b ->
  caps_of (RateScope.set_bandwidth l d (TokenBucket.acquire b n now).1) = caps_of l.
Proof.
  intros E. unfold caps_of. destruct d; cbn in *; rewrite E; cbn; by rewrite acquire_sized.
Qed.

Lemma fetch_add_same w g d v w' : RateScope.fetch_add w g d = Some (v, w') -> same_caps w w'.
Proof. unfold RateScope.fetch_add. intros H. case_match; simplify_eq. by apply same_caps_frame. Qed.

Lemma acquire_same w w' i sc udp now r : RateScope.try_acquire w i sc udp now = Some (w', r) -> same_caps w w'.
Proof.
  unfold RateScope.try_acquire. destruct (RateScope.limiters w !! i) as [l|] eqn:El; [|done].
  pose proof (token_caps l now) as Ht. destruct (RateScope.take_connection_token l now) as [l' starved]. cbn in Ht.
  assert (same_caps w (RateScope.store_limiter w i l')) as Hs by by apply (same_caps_store w i l l').
  intros H. repeat case_match; simplify_eq; (etransitivity; [exact Hs|]); try reflexivity;
    repeat match goal with H : RateScope.fetch_add _ _ _ = Some (_, _) |- _ => apply fetch_add_same in H end;
    first [done|by etransitivity].
Qed.

Lemma traffic_same w w' : traffic w w' -> RateScope.wf_world w -> same_caps w w'.
Proof.
  intros [? r rl now H|? ? r rl now H Hu|? r|? ? i sc udp now r H|? ? g H|? ? i d n now r Hn H] Hw.
  - destruct rl as [rl|]; [|by apply same_caps_frame]. exact (same_caps_fresh _ rl now Hw).
  - unfold RateScope.update in Hu. destruct (RateScope.rules _ !! r) as [i|], rl as [rl|];
      [destruct (RateScope.limiters _ !! i) as [p|]; [|done]|..]; injection Hu as <-; try by apply same_caps_frame.
    + exact (same_caps_alloc _ _ Hw).
    + exact (same_caps_fresh _ _ now Hw).
  - by apply same_caps_frame.
  - by eapply acquire_same.
  - unfold RateScope.drop_guard in H. repeat case_match; simplify_eq. by eapply fetch_add_same.
  - unfold RateScope.acquire_bandwidth in H. destruct (RateScope.limiters _ !! i) as [l|] eqn:El; [|done].
    destruct (RateScope.bandwidth l d) as [b|] eqn:Eb; [|by simplify_eq].
    pose proof (bandwidth_caps l d b n now Eb) as Hc. destruct (TokenBucket.acquire b n now) as [b' r']. injection H as <- _.
    exact (same_caps_store _ i l _ El Hc).
Qed.

Lemma carried_sized eff p rate burst now :
  sized <$> RateScope.carried_bucket eff p rate burst now = sized <$> RateScope.fresh_bucket eff rate burst 0.
Proof. by destruct rate, p. Qed.

Lemma carryover_caps p rl now : caps_of (RateScope.with_carryover p rl now) = caps_of (RateScope.from_envelope rl 0 0).
Proof. unfold caps_of. cbn. by rewrite !carried_sized. Qed.

Lemma fresh_sized eff rate burst now :
  sized <$> RateScope.fresh_bucket eff rate burst now = sized <$> RateScope.fresh_bucket eff rate burst 0.
Proof. by destruct rate. Qed.

Lemma envelope_caps_of rl g now : caps_of (RateScope.from_envelope rl g now) = caps_of (RateScope.from_envelope rl 0 0).
Proof. unfold caps_of. cbn. by rewrite !(fresh_sized _ _ _ now). Qed.

(** *** One frame *)

Lemma set_owner_enforces w owner rl now w' :
  RateScope.update_owner w owner (Some rl) now = Some w' -> enforces w' owner rl.
Proof.
  unfold RateScope.update_owner. intros H. destruct (RateScope.owners w !! owner) as [i|];
    [destruct (RateScope.limiters w !! i) as [p|]; [|done]|]; injection H as <-;
    eexists _, _; split_and!; unfold RateScope.get_owner; cbn; try apply lookup_insert_eq;
    [apply carryover_caps|apply envelope_caps_of].
Qed.

Lemma update_owner_total w owner rl now : RateScope.wf_world w -> is_Some (RateScope.update_owner w owner rl now).
Proof.
  intros Hw. unfold RateScope.update_owner. destruct (RateScope.owners w !! owner) as [i|] eqn:E, rl; try by eexists.
  destruct (RateScope.ww_owners _ Hw _ _ E) as [p ->]. by eexists.
Qed.

Lemma owners_moved w w' owner i o rl :
  same_caps w w' -> o <> owner -> enforces w o rl -> enforces (RateScope.set_owners w' (<[owner := i]> (RateScope.owners w'))) o rl.
Proof.
  intros Hs Hne (lid & l & Hg & Hl & Hc)%(same_caps_enforces w w' o rl Hs). exists lid, l.
  unfold RateScope.get_owner in *. cbn. by rewrite lookup_insert_ne.
Qed.

Lemma owners_dropped w owner o rl : o <> owner -> enforces w o rl -> enforces (RateScope.remove_owner w owner) o rl.
Proof.
  intros Hne (lid & l & Hg & Hl & Hc). exists lid, l. unfold RateScope.get_owner in *. cbn. by rewrite lookup_delete_ne.
Qed.

Lemma update_other_enforces w owner rl now w' o e :
  RateScope.wf_world w -> o <> owner -> RateScope.update_owner w owner rl now = Some w' -> enforces w o e -> enforces w' o e.
Proof.
  intros Hw Hne. unfold RateScope.update_owner. intros H He.
  destruct (RateScope.owners w !! owner) as [i|], rl as [rl|];
    [destruct (RateScope.limiters w !! i) as [p|]; [|done]|..]; injection H as <-; try by apply owners_dropped.
  - apply (owners_moved w (RateScope.alloc_limiter w (RateScope.with_carryover p rl now)).2); [by apply same_caps_alloc|done..].
  - refine (owners_moved w _ owner _ o e _ Hne He). exact (same_caps_fresh w rl now Hw).
Qed.

(** ** The whole path *)

(** What a frame says of an owner's cap. *)
Definition verdict (owner : list Z) (u : OwnerRateLimitUpdate) : option (option RateLimit.RateLimit) :=
  if decide (u_owner_id u = owner) then
    match u_action u with SetCap => Some (u_rate_limit u) | RemoveCap => Some None | Unspecified => None end
  else None.

(** The last word of a queue on it. *)
Fixpoint outcome (owner : list Z) (q : list OwnerRateLimitUpdate) : option (option RateLimit.RateLimit) :=
  match q with
  | [] => None
  | u :: q => match outcome owner q with Some o => Some o | None => verdict owner u end
  end.

Definition valid_update (u : OwnerRateLimitUpdate) : Prop :=
  forall rl, u_rate_limit u = Some rl -> RateScope.valid_envelope rl.

(** Once the queue is consumed the cap is enforced. *)
Definition promised (q : list OwnerRateLimitUpdate) (w : RateScope.World) (owner : list Z) (rl : RateLimit.RateLimit) : Prop :=
  match outcome owner q with Some o => o = Some rl | None => enforces w owner rl end.

Lemma outcome_app owner q q' :
  outcome owner (q ++ q') = match outcome owner q' with Some o => Some o | None => outcome owner q end.
Proof. induction q as [|u q IH]; cbn; [by destruct (outcome owner q')|]. rewrite IH. by destruct (outcome owner q'). Qed.

Lemma consume_wf c u now :
  valid_update u -> RateScope.wf_world (ClientControl.limits c) -> RateScope.wf_world (ClientControl.limits (consume c u now)).
Proof.
  intros Hv Hw. unfold consume, ClientControl.apply_owner_rate_limit_update.
  destruct (u_action u); cbn; [done| |by apply RateScope.remove_owner_wf].
  destruct (update_owner_total (ClientControl.limits c) (u_owner_id u) (u_rate_limit u) now Hw) as [w' Hw']. rewrite Hw'.
  exact (RateScope.op_wf _ _ (RateScope.op_update_owner _ _ _ _ _ Hv Hw') Hw).
Qed.

Lemma consume_promised c u q now owner rl :
  RateScope.wf_world (ClientControl.limits c) -> promised (u :: q) (ClientControl.limits c) owner rl ->
  promised q (ClientControl.limits (consume c u now)) owner rl.
Proof.
  intros Hw. unfold promised. cbn. destruct (outcome owner q) as [o|]; [done|]. unfold verdict, consume.
  case_decide as Ho; destruct (u_action u); cbn; try done.
  - intros ->. subst owner. destruct (update_owner_total (ClientControl.limits c) (u_owner_id u) (Some rl) now Hw) as [w' Hw'].
    rewrite Hw'. cbn. by eapply set_owner_enforces.
  - intros He. destruct (update_owner_total (ClientControl.limits c) (u_owner_id u) (u_rate_limit u) now Hw) as [w' Hw'].
    rewrite Hw'. cbn. by eapply update_other_enforces.
  - intros He. by apply owners_dropped.
Qed.

(** The client takes the frames of a queue, one at each instant. *)
Fixpoint drain (c : ClientControl.Client) (q : list OwnerRateLimitUpdate) (nows : list Z) : ClientControl.Client :=
  match q, nows with
  | u :: q, now :: nows => drain (consume c u now) q nows
  | _, _ => c
  end.

Lemma drain_promised c q nows owner rl :
  RateScope.wf_world (ClientControl.limits c) -> Forall valid_update q -> length nows = length q ->
  promised q (ClientControl.limits c) owner rl -> enforces (ClientControl.limits (drain c q nows)) owner rl.
Proof.
  revert c nows. induction q as [|u q IH]; intros c nows Hw; [by destruct nows|].
  intros [Hu Hq]%Forall_cons. destruct nows as [|now nows]; [done|]. intros [= Hl] Hp. cbn.
  apply IH; [by apply consume_wf|done..|by apply consume_promised].
Qed.

(** The server, one client process with the id [me], and the session it has. *)
Record Sys : Type := mkSys { srv : Server; edge : ClientControl.Client; session : option Z }.

Definition set_srv (x : Sys) (s : Server) : Sys := mkSys s (edge x) (session x).

(** A connection up to the end of the replay: the channel, the registry, the
    [Hello], the frames. *)
Definition connect (s : Server) (id : Z) (name : list Z) (t sid : Z) (protocols : list Clients.Protocol)
  (version : list Z) : Server :=
  let c := Sessions.hello (Clients.register (clients s) id name t sid) id sid protocols version in
  replay_owner_caps_for_client (mkServer (caps s) (tokens s) c (<[t := []]> (queues s)) (closed s)) id name t.

Definition unused (s : Server) (t : Z) : Prop := queues s !! t = None /\ t ∉ closed s.

Section System.
Context (me : Z) (cid_text : Z -> list Z).

Inductive sys_step : Sys -> Sys -> Prop :=
| x_put x identity raw owner body now : RateLimit.wf (b_limit body) -> 0 <= now <= i64_max ->
    sys_step x (set_srv x (put_owner_rate_limit (srv x) identity raw owner body now).2)
| x_delete x identity raw owner :
    sys_step x (set_srv x (delete_owner_rate_limit cid_text (srv x) identity raw owner).2)
| x_gc x client owner remaining :
    sys_step x (set_srv x (set_caps (srv x) (gc_after_rule_removed (caps (srv x)) client owner remaining).2))
| x_credentials x d :
    sys_step x (set_srv x (mkServer (caps (srv x)) d (clients (srv x)) (queues (srv x)) (closed (srv x))))
| x_connect x id name t sid protocols version : unused (srv x) t ->
    sys_step x (set_srv x (connect (srv x) id name t sid protocols version))
| x_connect_me x name t sid protocols version : unused (srv x) t ->
    sys_step x (mkSys (connect (srv x) me name t sid protocols version) (edge x) (Some t))
| x_unregister x id sid :
    sys_step x (set_srv x (mkServer (caps (srv x)) (tokens (srv x)) (Clients.unregister (clients (srv x)) id sid)
      (queues (srv x)) (closed (srv x))))
| x_close x t :
    sys_step x (set_srv x (mkServer (caps (srv x)) (tokens (srv x)) (clients (srv x)) (queues (srv x)) ({[t]} ∪ closed (srv x))))
| x_deliver x t u q now : session x = Some t -> queues (srv x) !! t = Some (u :: q) ->
    sys_step x (mkSys (set_queue (srv x) t q) (consume (edge x) u now) (session x))
| x_traffic x w : traffic (ClientControl.limits (edge x)) w ->
    sys_step x (mkSys (srv x) (ClientControl.set_limits (edge x) w) (session x))
| x_restart x c : ClientControl.limits c = RateScope.empty_world -> sys_step x (mkSys (srv x) c None).

(** The server starts over its table; nobody is connected. *)
Definition sys_start (x : Sys) : Prop :=
  (exists d, caps (srv x) = open d /\ map_Forall (fun _ v => RateScope.valid_envelope v.1) d) /\
  clients (srv x) = Clients.empty /\ queues (srv x) = ∅ /\ session x = None /\
  ClientControl.limits (edge x) = RateScope.empty_world.

(** The client's session is the one in the registry, its channel is open, and
    it takes owner caps. *)
Definition served (x : Sys) (t : Z) : Prop :=
  session x = Some t /\ t ∉ closed (srv x) /\ Clients.handles (clients (srv x)) me = Some t /\
  RulePush.version_at_least (Clients.client_version_of (clients (srv x)) me) 0 11 = true.

Record inv (x : Sys) : Prop := mkInv {
  i_coherent : coherent (caps (srv x));
  i_rows : forall client owner r, get (caps (srv x)) client owner = Some r -> RateScope.valid_envelope (row_limit r);
  i_queues : map_Forall (fun _ q => Forall valid_update q) (queues (srv x));
  i_world : RateScope.wf_world (ClientControl.limits (edge x));
  i_tokens : forall id t, Clients.handles (clients (srv x)) id = Some t -> is_Some (queues (srv x) !! t);
  i_owner : forall id id' t, Clients.handles (clients (srv x)) id = Some t -> Clients.handles (clients (srv x)) id' = Some t -> id = id';
  i_session : forall t, session x = Some t -> is_Some (queues (srv x) !! t);
  i_caps : forall t owner r, served x t -> get (caps (srv x)) me owner = Some r ->
    promised (queue (srv x) t) (ClientControl.limits (edge x)) owner (row_limit r);
}.

Lemma set_queue_lookup s t q t' : queues (set_queue s t q) !! t' = if decide (t' = t) then Some q else queues s !! t'.
Proof. cbn. case_decide as Hd; [subst; apply lookup_insert_eq|by apply lookup_insert_ne]. Qed.

Lemma set_queue_some s t q t' : is_Some (queues s !! t') -> is_Some (queues (set_queue s t q) !! t').
Proof. rewrite set_queue_lookup. by case_decide; [eexists|]. Qed.

Lemma set_queue_valid s t q :
  Forall valid_update q -> map_Forall (fun _ q => Forall valid_update q) (queues s) ->
  map_Forall (fun _ q => Forall valid_update q) (queues (set_queue s t q)).
Proof. intros Hq Hs. by apply map_Forall_insert_2. Qed.

Lemma queue_valid s t : map_Forall (fun _ q => Forall valid_update q) (queues s) -> Forall valid_update (queue s t).
Proof. intros H. unfold queue. destruct (queues s !! t) eqn:E; [by apply (H _ _ E)|constructor]. Qed.

Lemma queue_set s t q t' : queue (set_queue s t q) t' = if decide (t' = t) then q else queue s t'.
Proof. unfold queue. rewrite set_queue_lookup. by case_decide. Qed.

(** A frame for [cid] goes to its session, or nowhere. *)
Lemma push_update_cases s cid u :
  push_update s cid u = s \/
  exists t, Clients.handles (clients s) cid = Some t /\ t ∉ closed s /\ push_update s cid u = set_queue s t (queue s t ++ [u]).
Proof.
  unfold push_update, send. destruct (Clients.handles (clients s) cid) as [t|]; [|by left].
  case_bool_decide; [by left|]. right. by exists t.
Qed.

Lemma inv_push x c cid u :
  inv x -> coherent c -> (forall client owner r, get c client owner = Some r -> RateScope.valid_envelope (row_limit r)) ->
  valid_update u ->
  (forall owner r, get c me owner = Some r ->
    get (caps (srv x)) me owner = Some r /\ (cid = me -> verdict owner u = None) \/
    cid = me /\ verdict owner u = Some (Some (row_limit r))) ->
  inv (set_srv x (push_update (set_caps (srv x) c) cid u)).
Proof.
  intros [] Hc Hr Hu Ho. set (s := set_caps (srv x) c).
  destruct (push_update_cases s cid u) as [E|(t & Ht & Hcl & E)].
  - rewrite E. split; try done. intros t owner r (Hs & Hop & Hh & Hv) Hg. destruct (Ho _ _ Hg) as [[Hold _]|[-> _]].
    + by apply i_caps0.
    + exfalso. assert (push_update s me u <> s) as []; [|done]. unfold push_update. cbn in Hh. cbn [s set_caps clients].
      rewrite Hh. cbn. unfold send. rewrite bool_decide_false by done. cbn. intros Es.
      apply (f_equal (fun z => length (queue z t))) in Es. rewrite queue_set, decide_True, length_app in Es by done.
      cbn in Es. lia.
  - rewrite E. split; cbn [set_srv srv edge session]; try done.
    + apply set_queue_valid; [|done]. apply Forall_app. split; [by apply queue_valid|by apply Forall_singleton].
    + intros id t' H. apply set_queue_some. by apply (i_tokens0 id).
    + intros t' H. apply set_queue_some. by apply i_session0.
    + intros t' owner r (Hs & Hop & Hh & Hv) Hg. rewrite queue_set. case_decide as Hd.
      * subst t'. assert (cid = me) as -> by (by apply (i_owner0 cid me t)). unfold promised. rewrite outcome_app. cbn [outcome].
        destruct (Ho _ _ Hg) as [[Hold Hn]|[_ ->]]; [|done]. rewrite Hn by done. by apply (i_caps0 t owner r).
      * destruct (Ho _ _ Hg) as [[Hold _]|[-> _]]; [by apply (i_caps0 t' owner r)|].
        cbn in Hh, Ht. congruence.
Qed.

(** Only rows go away: no frame is needed. *)
Lemma inv_fewer x c :
  inv x -> coherent c -> (forall client owner r, get c client owner = Some r -> get (caps (srv x)) client owner = Some r) ->
  inv (set_srv x (set_caps (srv x) c)).
Proof.
  intros [] Hc Hr. split; try done; [by eauto|]. intros t owner r Hs Hg. by apply i_caps0; [|apply Hr].
Qed.

Lemma cap_upsert_ok_inv s client owner rl now r s' :
  upsert s client owner rl now = (Ok r, s') ->
  r = mkOwnerRow client owner rl now /\ RateLimit.validate rl = Ok tt /\
  forall c o, get s' c o = if decide (c = client /\ o = owner) then Some r else get s c o.
Proof.
  unfold upsert, upsert_write. intros H. destruct (RateLimit.validate rl) as [[]|]; [|done].
  destruct (store_upsert (store s) client owner rl now) as [d|]; [|done]. injection H as <- <-.
  split_and!; [done..|]. intros c o. exact (look_insert (cache s) (mkOwnerRow client owner rl now) c o).
Qed.

Lemma proto_limit_same rl : RulePush.rate_limit_to_proto rl = rl.
Proof. by destruct rl. Qed.

Lemma set_message_verdict name r : verdict (row_owner r) (set_message name r) = Some (Some (row_limit r)).
Proof. unfold verdict. cbn. by rewrite decide_True, proto_limit_same. Qed.

Lemma set_message_valid name r : RateScope.valid_envelope (row_limit r) -> valid_update (set_message name r).
Proof. intros Hr rl. cbn. rewrite proto_limit_same. by intros [= <-]. Qed.

Lemma inv_put x identity raw owner body now :
  inv x -> RateLimit.wf (b_limit body) -> 0 <= now <= i64_max ->
  inv (set_srv x (put_owner_rate_limit (srv x) identity raw owner body now).2).
Proof.
  intros Hi Hw Hn. assert (set_srv x (srv x) = x) as Hx by by destruct x.
  unfold put_owner_rate_limit. destruct (put_checks (srv x) identity raw body) as [[cid name]|]; [|cbn; by rewrite Hx].
  destruct (upsert (caps (srv x)) cid owner (b_limit body) now) as [[r|] c] eqn:E; [|cbn; by rewrite Hx].
  destruct (cap_upsert_ok_inv _ _ _ _ _ _ _ E) as (-> & Hval & Hget). cbn [snd].
  assert (RateScope.valid_envelope (b_limit body)) as Hve by by split.
  apply inv_push; [done| |..].
  - pose proof (upsert_coherent (caps (srv x)) cid owner (b_limit body) now Hn (i_coherent _ Hi)) as H. by rewrite E in H.
  - intros client o r. rewrite Hget. case_decide; [by intros [= <-]|by apply i_rows].
  - by apply set_message_valid.
  - intros o r. rewrite Hget. case_decide as Hd.
    + destruct Hd as [-> ->]. intros [= <-]. right. split; [done|]. exact (set_message_verdict name (mkOwnerRow cid owner (b_limit body) now)).
    + intros Hg. left. split; [done|]. intros ->. unfold verdict. cbn. rewrite decide_False by naive_solver. done.
Qed.

Lemma inv_delete x identity raw owner :
  inv x -> inv (set_srv x (delete_owner_rate_limit cid_text (srv x) identity raw owner).2).
Proof.
  intros Hi. assert (set_srv x (srv x) = x) as Hx by by destruct x. unfold delete_owner_rate_limit.
  destruct (Rbac.require_role identity Rbac.Superadmin); [|cbn; by rewrite Hx].
  destruct (parse_client_id raw) as [cid|]; [|cbn; by rewrite Hx].
  pose proof (delete_coherent (caps (srv x)) cid owner (i_coherent _ Hi)) as Hc.
  pose proof (fun c o => delete_get (caps (srv x)) cid owner c o (i_coherent _ Hi)) as Hget.
  destruct (delete_cap (caps (srv x)) cid owner) as [b c]. cbn [snd] in *. apply inv_push; [done..| |by intros ? ?|].
  - intros client o r. rewrite Hget. case_decide; [done|by apply i_rows].
  - intros o r. rewrite Hget. case_decide as Hd; [done|]. intros Hg. left. split; [done|].
    intros ->. unfold verdict. cbn. by rewrite decide_False by naive_solver.
Qed.

Lemma hello_handles c id sid ps version id' :
  Clients.handles (Sessions.hello c id sid ps version) id' = Clients.handles c id'.
Proof.
  unfold Clients.handles. destruct (Sessions.hello_inner c id sid ps version) as [->|(e & e' & He & _ & -> & Ht & _)]; [done|].
  destruct (decide (id' = id)) as [->|]; [|by rewrite lookup_insert_ne]. rewrite lookup_insert_eq, He. cbn. by rewrite Ht.
Qed.

Lemma hello_other_version c id sid ps version id' : id' <> id ->
  Clients.client_version_of (Sessions.hello c id sid ps version) id' = Clients.client_version_of c id'.
Proof.
  intros Hne. unfold Clients.client_version_of.
  destruct (Sessions.hello_inner c id sid ps version) as [->|(e & e' & He & _ & -> & Ht & _)]; [done|].
  by rewrite lookup_insert_ne.
Qed.

Lemma register_entry c id name t sid id' :
  Clients.inner (Clients.register c id name t sid) !! id' =
  if decide (id' = id) then Some (Clients.mkConnected name t sid [Clients.Tcp] None) else Clients.inner c !! id'.
Proof.
  assert (Clients.inner (Clients.register c id name t sid) = <[id := Clients.mkConnected name t sid [Clients.Tcp] None]> (Clients.inner c)) as ->
    by (unfold Clients.register; by destruct (Clients.inner c !! id)).
  case_decide; [subst; apply lookup_insert_eq|by apply lookup_insert_ne].
Qed.

(** The replay adds one frame for each row, in order, to an open channel. *)
Lemma replay_caps_frame s t name rs : t ∉ closed s -> is_Some (queues s !! t) ->
  let s' := replay_caps s t name rs in
  caps s' = caps s /\ clients s' = clients s /\ closed s' = closed s /\
  queues s' !! t = Some (queue s t ++ (set_message name <$> rs)) /\ (forall t', t' <> t -> queues s' !! t' = queues s !! t').
Proof.
  revert s. induction rs as [|r rs IH]; intros s Ht Hq; cbn.
  - split_and!; try done. destruct Hq as [q Hq]. unfold queue. rewrite Hq. cbn. by rewrite app_nil_r.
  - unfold send. rewrite bool_decide_false by done.
    destruct (IH (set_queue s t (queue s t ++ [set_message name r])) Ht) as (-> & -> & -> & -> & Ho).
    { rewrite set_queue_lookup, decide_True by done. by eexists. }
    split_and!; try done.
    + by rewrite queue_set, decide_True, <- app_assoc.
    + intros t' Hne. by rewrite Ho, set_queue_lookup, decide_False.
Qed.

Definition replay_frames (s : Server) (id : Z) (name : list Z) (version : option (list Z)) : list OwnerRateLimitUpdate :=
  if RulePush.version_at_least version 0 11 then set_message name <$> list_for_client (caps s) id else [].

Lemma connect_frame s id name t sid ps version : unused s t ->
  let s' := connect s id name t sid ps version in
  caps s' = caps s /\ closed s' = closed s /\
  clients s' = Sessions.hello (Clients.register (clients s) id name t sid) id sid ps version /\
  queues s' !! t = Some (replay_frames s id name (Clients.client_version_of (clients s') id)) /\
  (forall t', t' <> t -> queues s' !! t' = queues s !! t').
Proof.
  intros [Hq Hc]. unfold connect, replay_owner_caps_for_client, replay_frames. cbn [clients].
  set (c := Sessions.hello _ _ _ _ _). set (s0 := mkServer _ _ c _ _).
  assert (queues s0 !! t = Some []) as H0 by apply lookup_insert_eq.
  assert (forall t', t' <> t -> queues s0 !! t' = queues s !! t') as Hne by (intros; by apply lookup_insert_ne).
  destruct (RulePush.version_at_least (Clients.client_version_of c id) 0 11) eqn:Ev; cbn zeta.
  - destruct (replay_caps_frame s0 t name (list_for_client (caps s0) id)) as (Ec & Ecl & Ecd & Eq & Eo); [done|by eexists|].
    rewrite Ec, Ecl, Ecd, Eq. unfold queue. rewrite H0. change (clients s0) with c. rewrite Ev. split_and!; [done..|].
    intros t' Ht'. by rewrite Eo, Hne.
  - cbn [clients s0]. rewrite Ev. by split_and!.
Qed.

Lemma list_for_client_spec s client : tidy (cache s) ->
  NoDup (row_owner <$> list_for_client s client) /\
  forall r, r ∈ list_for_client s client <-> get s client (row_owner r) = Some r.
Proof.
  intros [_ Hk]. unfold list_for_client, get. destruct (cache s !! client) as [m|] eqn:E; cbn.
  - assert (forall o r, m !! o = Some r -> row_owner r = o) as Hm.
    { intros o r Hr. apply (Hk client o r). unfold look. by rewrite E. }
    split.
    + rewrite <- list_fmap_compose. assert (row_owner ∘ snd <$> map_to_list m = (map_to_list m).*1) as ->.
      { apply list_fmap_ext. intros ? [o r] Hin. apply Hm, elem_of_map_to_list. by eapply list_elem_of_lookup_2. }
      apply NoDup_fst_map_to_list.
    + intros r. rewrite list_elem_of_fmap. split.
      * intros ([o r'] & -> & Hin%elem_of_map_to_list). cbn. by rewrite (Hm _ _ Hin).
      * intros Hr. exists (row_owner r, r). split; [done|]. by apply elem_of_map_to_list.
  - split; [apply NoDup_nil_2|]. intros r. by rewrite elem_of_nil.
Qed.

Lemma outcome_messages name rs r :
  NoDup (row_owner <$> rs) -> r ∈ rs -> outcome (row_owner r) (set_message name <$> rs) = Some (Some (row_limit r)).
Proof.
  induction rs as [|x rs IH]; cbn [fmap list_fmap outcome]; [by intros _ ?%elem_of_nil|].
  intros [Hx Hrs]%NoDup_cons [->|Hr]%elem_of_cons; [|by rewrite IH].
  assert (outcome (row_owner x) (set_message name <$> rs) = None) as ->; [|apply set_message_verdict].
  clear -Hx. induction rs as [|y rs IH]; [done|]. cbn [fmap list_fmap outcome] in *. rewrite elem_of_cons in Hx.
  rewrite IH by naive_solver. unfold verdict. cbn. rewrite decide_False by naive_solver. done.
Qed.

Lemma connect_handles s id name t sid ps version id' : unused s t ->
  Clients.handles (clients (connect s id name t sid ps version)) id' =
  if decide (id' = id) then Some t else Clients.handles (clients s) id'.
Proof.
  intros Hu. destruct (connect_frame s id name t sid ps version Hu) as (_ & _ & -> & _). rewrite hello_handles.
  unfold Clients.handles. rewrite register_entry. by case_decide.
Qed.

Lemma replay_valid x id name version : inv x -> Forall valid_update (replay_frames (srv x) id name version).
Proof.
  intros Hi. unfold replay_frames. destruct (RulePush.version_at_least version 0 11); [|constructor].
  apply Forall_fmap, Forall_forall. intros r Hr. apply set_message_valid.
  apply (list_for_client_spec (caps (srv x)) id) in Hr; [|apply (i_coherent _ Hi)]. by apply (i_rows _ Hi _ _ _ Hr).
Qed.

Lemma inv_connect x id name t sid ps version (mine : bool) :
  inv x -> unused (srv x) t -> (mine = true -> id = me) ->
  inv (mkSys (connect (srv x) id name t sid ps version) (edge x) (if mine then Some t else session x)).
Proof.
  intros Hi Hu Hm. pose proof (replay_valid x id name) as Hrv.
  pose proof (connect_handles (srv x) id name t sid ps version) as Hh.
  destruct (connect_frame (srv x) id name t sid ps version Hu) as (Ec & Ecd & Ecl & Eq & Eo).
  set (s' := connect (srv x) id name t sid ps version) in *. pose proof Hi as [].
  assert (forall t', is_Some (queues (srv x) !! t') -> t' <> t) as Hne by (intros t' [q Hq] ->; destruct Hu; congruence).
  assert (forall t', is_Some (queues (srv x) !! t') -> is_Some (queues s' !! t')) as Hin
    by (intros t' Ht'; rewrite Eo by auto; done).
  split; cbn [srv edge session]; rewrite ?Ec; try done.
  - intros t' q Hq. destruct (decide (t' = t)) as [->|Ht']; [|rewrite Eo in Hq by done; by apply (i_queues0 _ _ Hq)].
    rewrite Eq in Hq. simplify_eq. by apply Hrv.
  - intros id' t'. rewrite Hh by done. case_decide; [intros [= <-]; rewrite Eq; by eexists|]. intros Hid. by eapply Hin, i_tokens0.
  - intros id1 id2 t'. rewrite !Hh by done. repeat case_decide; subst; try done.
    + intros [= <-] Hid. by destruct (Hne t); [eapply i_tokens0|].
    + intros Hid [= <-]. by destruct (Hne t); [eapply i_tokens0|].
    + apply i_owner0.
  - intros t'. destruct mine; [intros [= <-]; rewrite Eq; by eexists|]. intros H. by apply Hin, i_session0.
  - intros t' owner r (Hs & Hop & Hha & Hv) Hg. cbn in Hs, Hop, Hha, Hv. rewrite Hh in Hha by done. case_decide as Hd.
    + injection Hha as <-. subst id. unfold promised, queue. rewrite Eq. unfold replay_frames. rewrite Hv. cbn [default id].
      destruct (list_for_client_spec (caps (srv x)) me (proj1 i_coherent0)) as [Hnd Hl].
      destruct (tidy_keys _ (proj1 i_coherent0) _ _ _ Hg) as [_ Ho]. subst owner.
      rewrite (outcome_messages name _ r); [done..|]. by apply Hl.
    + destruct mine; [naive_solver|]. unfold queue. rewrite Eo by (by apply Hne, i_session0).
      apply (i_caps0 t'); [|done]. split_and!; [done|by rewrite <- Ecd|done|].
      rewrite Ecl, hello_other_version in Hv by done. unfold Clients.client_version_of in *. rewrite register_entry, decide_False in Hv by done. done.
Qed.

Lemma unregister_entry c id sid id' e :
  Clients.inner (Clients.unregister c id sid) !! id' = Some e -> Clients.inner c !! id' = Some e.
Proof.
  unfold Clients.unregister. destruct (Clients.inner c !! id); [|done]. case_match; [|done]. cbn.
  by intros [_ ?]%lookup_delete_Some.
Qed.

Lemma inv_unregister x id sid : inv x ->
  inv (set_srv x (mkServer (caps (srv x)) (tokens (srv x)) (Clients.unregister (clients (srv x)) id sid)
      (queues (srv x)) (closed (srv x)))).
Proof.
  intros [].
  assert (forall id' t, Clients.handles (Clients.unregister (clients (srv x)) id sid) id' = Some t ->
    Clients.handles (clients (srv x)) id' = Some t /\
    Clients.client_version_of (Clients.unregister (clients (srv x)) id sid) id' = Clients.client_version_of (clients (srv x)) id') as Hh.
  { intros id' t. unfold Clients.handles, Clients.client_version_of. intros (e & He & ->)%fmap_Some.
    rewrite He, (unregister_entry _ _ _ _ _ He). done. }
  split; cbn [set_srv srv edge session queues clients]; try done.
  - intros id' t [H _]%Hh. by eapply i_tokens0.
  - intros id1 id2 t [H1 _]%Hh [H2 _]%Hh. by eapply i_owner0.
  - intros t owner r (Hs & Hop & Hha & Hv) Hg. cbn in *. destruct (Hh _ _ Hha) as [H1 H2]. apply (i_caps0 t); [|done].
    split_and!; [done..|]. by rewrite <- H2.
Qed.

Lemma inv_step x y : sys_step x y -> inv x -> inv y.
Proof.
  intros [] Hi.
  - by apply inv_put.
  - by apply inv_delete.
  - unfold gc_after_rule_removed. destruct (0 <? remaining)%nat; [by destruct x0 as [[]]|].
    apply inv_fewer; [done|by apply delete_coherent, (i_coherent _ Hi)|].
    intros c o r. rewrite delete_get by apply (i_coherent _ Hi). by case_decide.
  - destruct Hi. by split.
  - exact (inv_connect x0 id name t sid protocols version false Hi H (fun e => ltac:(done))).
  - exact (inv_connect x0 me name t sid protocols version true Hi H (fun _ => eq_refl)).
  - by apply inv_unregister.
  - destruct Hi. split; try done. intros t' owner r (Hs & Hop & Hh & Hv) Hg. apply (i_caps0 t'); [|done].
    split_and!; [done| |done..]. cbn in Hop. set_solver.
  - destruct Hi. pose proof (i_queues0 _ _ H0) as [Hu Hq]%Forall_cons. split; cbn [srv edge session]; try done.
    + by apply set_queue_valid.
    + by apply consume_wf.
    + intros id t' Hh. apply set_queue_some. by eapply i_tokens0.
    + intros t' Hs. apply set_queue_some. by apply i_session0.
    + intros t' owner r (Hs & Hop & Hh & Hv) Hg. cbn in Hs. assert (t' = t) as -> by congruence.
      rewrite queue_set, decide_True by done. apply consume_promised; [done|].
      specialize (i_caps0 t owner r). unfold queue in i_caps0. rewrite H0 in i_caps0. by apply i_caps0.
  - destruct Hi. pose proof (traffic_same _ _ H i_world0) as Hsame. split; cbn [srv edge session]; try done.
    + exact (RateScope.op_wf _ _ (traffic_op _ _ H) i_world0).
    + intros t owner r Hs Hg. specialize (i_caps0 t owner r Hs Hg). unfold promised in *.
      destruct (outcome owner (queue (srv x0) t)); [done|]. by eapply same_caps_enforces.
  - destruct Hi. split; cbn [srv edge session]; try done; [rewrite H; apply RateScope.empty_world_wf|].
    by intros t owner r (? & _).
Qed.

Lemma inv_start x : sys_start x -> inv x.
Proof.
  intros ((d & Hd & Hv) & Hc & Hq & Hs & Hl). split.
  - rewrite Hd. apply open_coherent.
  - intros client owner r. rewrite Hd. destruct (open_coherent d) as [_ ->]. unfold store_get. cbn.
    intros (v & Hlk & ->)%fmap_Some. exact (Hv _ _ Hlk).
  - rewrite Hq. apply map_Forall_empty.
  - rewrite Hl. apply RateScope.empty_world_wf.
  - intros id t. rewrite Hc. unfold Clients.handles. cbn. by rewrite lookup_empty.
  - intros id id' t. rewrite Hc. unfold Clients.handles. cbn. by rewrite lookup_empty.
  - intros t. by rewrite Hs.
  - intros t owner r (H & _). by rewrite Hs in H.
Qed.


Lemma drain_silent c q nows owner rl :
  RateScope.wf_world (ClientControl.limits c) -> Forall valid_update q -> length nows = length q ->
  outcome owner q = None -> enforces (ClientControl.limits c) owner rl ->
  enforces (ClientControl.limits (drain c q nows)) owner rl.
Proof. intros Hw Hv Hl Ho He. apply drain_promised; [done..|]. unfold promised. by rewrite Ho. Qed.

Lemma outcome_absent owner name rs : owner ∉ row_owner <$> rs -> outcome owner (set_message name <$> rs) = None.
Proof.
  induction rs as [|r rs IH]; [done|]. cbn [fmap list_fmap outcome]. rewrite elem_of_cons. intros Hn.
  rewrite IH by naive_solver. unfold verdict. cbn. rewrite decide_False by naive_solver. done.
Qed.

Lemma replay_silent s id name version owner :
  tidy (cache (caps s)) -> get (caps s) id owner = None -> outcome owner (replay_frames s id name version) = None.
Proof.
  intros Ht Hg. unfold replay_frames. destruct (RulePush.version_at_least version 0 11); [|done].
  apply outcome_absent. intros (r & -> & Hr)%list_elem_of_fmap. apply list_for_client_spec in Hr; [congruence|done].
Qed.

(** The server without the cap, and the client on a new session, every frame
    of which it has taken. *)
Definition after_reconnect (x : Sys) (s : Server) (name : list Z) (t sid : Z) (protocols : list Clients.Protocol)
  (version : list Z) (nows : list Z) : RateScope.World :=
  ClientControl.limits (drain (edge x) (queue (connect s me name t sid protocols version) t) nows).

Lemma unsent_removal x c owner rl name t sid protocols version nows :
  inv x -> inv (set_srv x (set_caps (srv x) c)) -> get c me owner = None -> unused (srv x) t ->
  enforces (ClientControl.limits (edge x)) owner rl ->
  length nows = length (queue (connect (set_caps (srv x) c) me name t sid protocols version) t) ->
  enforces (after_reconnect x (set_caps (srv x) c) name t sid protocols version nows) owner rl.
Proof.
  intros Hi Hi' Hg Hu He Hl.
  assert (inv (mkSys (connect (set_caps (srv x) c) me name t sid protocols version) (edge x) (Some t))) as Hi2
    by exact (inv_connect _ me name t sid protocols version true Hi' Hu (fun _ => eq_refl)).
  apply drain_silent; [apply (i_world _ Hi)|exact (queue_valid _ t (i_queues _ Hi2))|done| |done].
  destruct (connect_frame (set_caps (srv x) c) me name t sid protocols version Hu) as (_ & _ & _ & Eq & _).
  unfold queue. rewrite Eq. apply (replay_silent (set_caps (srv x) c)); [apply (i_coherent _ Hi')|done].
Qed.

(** A cap that is gone from the server stays on the client.  When the
    sweep after the owner's last rule drops the row, or an operator deletes it
    while the client is away, no frame says so; a client that enforced the cap
    still does after it reconnects and takes everything the server replays, for
    every later rule of that owner. *)
Theorem removed_cap_stays_enforced (x y : Sys) (owner : list Z) (rl : RateLimit.RateLimit)
  (identity : Rbac.OperatorIdentity) (name : list Z) (t sid : Z) (protocols : list Clients.Protocol) (version : list Z)
  (nows : list Z) :
  sys_start x -> rtc sys_step x y -> unused (srv y) t -> enforces (ClientControl.limits (edge y)) owner rl ->
  let swept := set_caps (srv y) (gc_after_rule_removed (caps (srv y)) me owner 0).2 in
  let deleted := (delete_owner_rate_limit cid_text (srv y) identity (Some me) owner).2 in
  (length nows = length (queue (connect swept me name t sid protocols version) t) ->
   get (caps swept) me owner = None /\
   enforces (after_reconnect y swept name t sid protocols version nows) owner rl) /\
  (Rbac.role identity = Rbac.Superadmin -> Clients.handles (clients (srv y)) me = None ->
   length nows = length (queue (connect deleted me name t sid protocols version) t) ->
   get (caps deleted) me owner = None /\
   enforces (after_reconnect y deleted name t sid protocols version nows) owner rl).
Proof.
  intros Hx Hr Hu He. assert (inv y) as Hi
    by exact (rtc_preserves sys_step inv _ _ inv_step Hr (inv_start x Hx)).
  assert (get (delete_cap (caps (srv y)) me owner).2 me owner = None) as Hg
    by by rewrite delete_get, decide_True by (done || apply (i_coherent _ Hi)).
  assert (inv (set_srv y (set_caps (srv y) (delete_cap (caps (srv y)) me owner).2))) as Hi'
    by exact (inv_step _ _ (x_gc y me owner 0) Hi).
  split.
  - intros Hl. split; [exact Hg|]. by apply unsent_removal.
  - intros Hrole Hh. assert ((delete_owner_rate_limit cid_text (srv y) identity (Some me) owner).2 =
      set_caps (srv y) (delete_cap (caps (srv y)) me owner).2) as ->.
    { unfold delete_owner_rate_limit, Rbac.require_role. rewrite Hrole. cbn. unfold push_update. cbn. by rewrite Hh. }
    intros Hl. split; [exact Hg|]. by apply unsent_removal.
Qed.

(** The replay reads the rows first and sends them afterwards.  A cap set
    in between reaches the client before the old row does: the last frame the
    client takes is the old cap, while the server reports the new one. *)
Theorem replay_overwrites_newer_cap (s : Server) (identity : Rbac.OperatorIdentity) (owner name : list Z)
  (body : OwnerRateLimitPutBody) (now t : Z) (r : OwnerRateLimitRow) (v : OwnerRateLimitView) (s1 : Server) :
  coherent (caps s) -> Clients.handles (clients s) me = Some t -> t ∉ closed s ->
  get (caps s) me owner = Some r ->
  put_owner_rate_limit s identity (Some me) owner body now = (Ok v, s1) ->
  let s2 := replay_caps s1 t name (list_for_client (caps s) me) in
  (exists q, queue s2 t = q ++ (set_message name <$> list_for_client (caps s) me)) /\
  outcome owner (queue s2 t) = Some (Some (row_limit r)) /\
  row_limit <$> get (caps s2) me owner = Some (b_limit body).
Proof.
  intros Hc Hh Ht Hg Hput. unfold put_owner_rate_limit in Hput.
  destruct (put_checks s identity (Some me) body) as [[cid n]|] eqn:Ep; [|done].
  assert (cid = me) as ->.
  { unfold put_checks in Ep. cbn in Ep. repeat (case_match; try done). all: by simplify_eq. }
  destruct (upsert (caps s) me owner (b_limit body) now) as [[r'|] c] eqn:E; [|done].
  destruct (cap_upsert_ok_inv _ _ _ _ _ _ _ E) as (-> & _ & Hget).
  assert (s1 = set_queue (set_caps s c) t (queue s t ++ [set_message n (mkOwnerRow me owner (b_limit body) now)])) as ->.
  { unfold push_update, send in Hput. cbn [set_caps clients] in Hput. rewrite Hh, bool_decide_false in Hput by done. by simplify_eq. }
  set (q := queue s t ++ _). set (s1 := set_queue (set_caps s c) t q).
  destruct (replay_caps_frame s1 t name (list_for_client (caps s) me)) as (Ec & _ & _ & Eq & _); [done|unfold s1; by rewrite set_queue_lookup, decide_True; eexists|].
  assert (queue s1 t = q) as Hq by (unfold s1; by rewrite queue_set, decide_True). rewrite Hq in Eq.
  destruct (list_for_client_spec (caps s) me (proj1 Hc)) as [Hnd Hl].
  destruct (tidy_keys _ (proj1 Hc) _ _ _ Hg) as [_ Ho]. subst owner.
  cbn zeta. assert (queue (replay_caps s1 t name (list_for_client (caps s) me)) t = q ++ (set_message name <$> list_for_client (caps s) me)) as ->
    by (unfold queue; by rewrite Eq).
  split_and!; [by eexists| |].
  - rewrite outcome_app, (outcome_messages name _ r); [done..|]. by apply Hl.
  - rewrite Ec. cbn. rewrite Hget, decide_True by done. done.
Qed.

End System.

(** ** The listing of the owners *)

Lemma str_compare_eq a b : str_compare a b = Eq <-> a = b.
Proof.
  revert b. induction a as [|x a IH]; intros [|y b]; cbn; try done.
  destruct (Z.compare_spec x y) as [->|Hlt|Hgt]; [rewrite IH; naive_solver|split; [done|intros [= -> _]; lia]..].
Qed.

Lemma str_compare_opp a b : str_compare b a = CompOpp (str_compare a b).
Proof.
  revert b. induction a as [|x a IH]; intros [|y b]; cbn; try done. rewrite IH, (Z.compare_antisym x y).
  by destruct (x ?= y).
Qed.

Lemma str_compare_trans a b c : str_compare a b = Lt -> str_compare b c = Lt -> str_compare a c = Lt.
Proof.
  revert b c. induction a as [|x a IH]; intros [|y b] [|z c]; cbn; try done.
  destruct (Z.compare_spec x y) as [->|Hxy|Hxy], (Z.compare_spec y z) as [->|Hyz|Hyz]; try done.
  1: apply IH.
  all: by rewrite (proj2 (Z.compare_lt_iff x z)) by lia.
Qed.

Notation in_order := (StronglySorted (fun a b : list Z * nat => str_compare a.1 b.1 = Lt)).

Definition as_map (m : list (list Z * nat)) : gmap (list Z) nat := list_to_map m.

Lemma in_order_above k n m : Forall (fun b : list Z * nat => str_compare k b.1 = Lt) m -> as_map ((k, n) :: m) !! k = Some n /\ as_map m !! k = None.
Proof.
  intros Hf. unfold as_map. cbn. split; [apply lookup_insert_eq|]. apply not_elem_of_list_to_map_1.
  intros ([k' n'] & Hk & Hin)%list_elem_of_fmap. cbn in Hk. subst k'. rewrite Forall_forall in Hf.
  specialize (Hf _ Hin). cbn in Hf. by rewrite (proj2 (str_compare_eq k k)) in Hf.
Qed.

Lemma in_order_keys m : in_order m -> NoDup m.*1.
Proof.
  induction 1 as [|[k n] m Hm IH Hf]; [apply NoDup_nil_2|]. cbn. apply NoDup_cons. split; [|done].
  intros ([k' n'] & Hk & Hin)%list_elem_of_fmap. cbn in Hk. subst k'. rewrite Forall_forall in Hf.
  specialize (Hf _ Hin). cbn in Hf. by rewrite (proj2 (str_compare_eq k k)) in Hf.
Qed.

Lemma entry_or_zero_below k f m (P : list Z -> Prop) :
  P k -> Forall (fun b : list Z * nat => P b.1) m -> Forall (fun b : list Z * nat => P b.1) (entry_or_zero k f m).
Proof.
  intros Hk. induction 1 as [|[k' n] m Hn Hm IH]; cbn; [by repeat constructor|].
  destruct (str_compare k k'); by repeat constructor.
Qed.

Lemma entry_or_zero_spec k f m : in_order m ->
  in_order (entry_or_zero k f m) /\ as_map (entry_or_zero k f m) = <[k := f (default 0%nat (as_map m !! k))]> (as_map m).
Proof.
  induction 1 as [|[k' n] m Hm [IH1 IH2] Hf]; cbn [entry_or_zero].
  - split; [by repeat constructor|done].
  - destruct (str_compare k k') eqn:E.
    + apply str_compare_eq in E as ->. split; [by constructor|]. destruct (in_order_above k' n m Hf) as [-> _].
      unfold as_map. cbn. by rewrite insert_insert_eq.
    + assert (Forall (fun b : list Z * nat => str_compare k b.1 = Lt) ((k', n) :: m)) as Hb.
      { constructor; [done|]. eapply Forall_impl; [exact Hf|]. intros b Hb. by eapply str_compare_trans. }
      split; [constructor; [by constructor|done]|]. by destruct (in_order_above k (f 0%nat) _ Hb) as [_ ->].
    + assert (str_compare k' k = Lt) as E' by (by rewrite str_compare_opp, E). split.
      * constructor; [done|]. by apply (entry_or_zero_below k f m (fun x => str_compare k' x = Lt)).
      * assert (k <> k') as Hne by (intros ->; by rewrite (proj2 (str_compare_eq k' k')) in E).
        change (<[k' := n]> (as_map (entry_or_zero k f m)) = <[k := f (default 0%nat (<[k' := n]> (as_map m) !! k))]> (<[k' := n]> (as_map m))).
        rewrite IH2, lookup_insert_ne by done. by rewrite insert_insert_ne.
Qed.

Definition owned (o : list Z) (rs : list RuleStore.Rule) : nat := length (filter (fun r => RuleStore.owner_user_id r = o) rs).

Lemma count_rules_spec rs m : in_order m ->
  in_order (foldl count_rule m rs) /\
  forall o, as_map (foldl count_rule m rs) !! o =
    if decide (owned o rs = 0%nat) then as_map m !! o else Some (default 0%nat (as_map m !! o) + owned o rs)%nat.
Proof.
  revert m. induction rs as [|r rs IH]; intros m Hm; cbn [foldl]; [by split|].
  destruct (entry_or_zero_spec (RuleStore.owner_user_id r) S m Hm) as [H1 H2].
  destruct (IH (count_rule m r) H1) as [H3 H4]. split; [done|]. intros o. rewrite H4. unfold count_rule. rewrite H2.
  unfold owned. rewrite filter_cons. destruct (decide (RuleStore.owner_user_id r = o)) as [->|Hne]; cbn [length].
  - rewrite lookup_insert_eq. rewrite (decide_False (P := (S _ = 0)%nat)) by lia. case_decide as Hz; cbn.
    + rewrite Hz. f_equal. lia.
    + f_equal. lia.
  - by rewrite !lookup_insert_ne.
Qed.

Lemma count_caps_spec rs m : in_order m ->
  in_order (foldl count_cap m rs) /\
  forall o, as_map (foldl count_cap m rs) !! o =
    if decide (o ∈ row_owner <$> rs) then Some (default 0%nat (as_map m !! o)) else as_map m !! o.
Proof.
  revert m. induction rs as [|r rs IH]; intros m Hm; cbn [foldl fmap list_fmap].
  { split; [done|]. intros o. by rewrite decide_False by apply not_elem_of_nil. }
  destruct (entry_or_zero_spec (row_owner r) (fun n => n) m Hm) as [H1 H2].
  destruct (IH (count_cap m r) H1) as [H3 H4]. split; [done|]. intros o. rewrite H4. unfold count_cap. rewrite H2.
  destruct (decide (o = row_owner r)) as [->|Hne].
  - rewrite lookup_insert_eq. rewrite (decide_True (P := row_owner r ∈ _ :: _)) by by left. by case_decide.
  - rewrite lookup_insert_ne by done. destruct (decide (o ∈ row_owner <$> rs)) as [Hin|Hin].
    + by rewrite decide_True by by right.
    + by rewrite decide_False by by rewrite elem_of_cons; naive_solver.
Qed.

Lemma sorted_entries (g : list Z * nat -> OwnerListEntry) m :
  (forall kv, e_owner_id (g kv) = kv.1) -> in_order m ->
  stable_sort (fun a b => str_leb (e_owner_id a) (e_owner_id b)) (g <$> m) = g <$> m.
Proof.
  intros Hg. induction 1 as [|kv m Hm IH Hf]; [done|]. cbn [fmap list_fmap stable_sort]. rewrite IH.
  destruct m as [|kv' m]; [done|]. cbn. rewrite !Hg. apply Forall_cons in Hf as [Hf _]. unfold str_leb. by rewrite Hf.
Qed.

(** The listing of a client's owners has one entry for each owner with a
    rule or a cap on the client and no other, in the order of their names, with
    the number of the owner's rules there and whether there is a cap. *)
Theorem owners_listing_exact (s : Server) (mem : RuleStore.Store) (identity : Rbac.OperatorIdentity) (cid : Z)
  (out : list OwnerListEntry) :
  tidy (cache (caps s)) -> get_owners_under_client s mem identity (Some cid) = Ok out ->
  StronglySorted (fun a b => str_compare (e_owner_id a) (e_owner_id b) = Lt) out /\
  (forall e, e ∈ out <->
    has_rate_limit e = bool_decide (is_Some (get (caps s) cid (e_owner_id e))) /\
    rule_count e = owned (e_owner_id e) (RuleStore.list_rules mem (Some cid)) /\
    (rule_count e <> 0%nat \/ has_rate_limit e = true)).
Proof.
  intros Ht. unfold get_owners_under_client. destruct (Rbac.require_role identity Rbac.Superadmin); [|done]. cbn.
  destruct (resolve_client_name s cid); [|done]. cbn.
  destruct (list_for_client_spec (caps s) cid Ht) as [_ Hl]. set (rs := RuleStore.list_rules mem (Some cid)).
  set (cs := list_for_client (caps s) cid) in *.
  destruct (count_rules_spec rs [] ltac:(constructor)) as [H1 H2].
  destruct (count_caps_spec cs _ H1) as [H3 H4]. set (m := foldl count_cap _ cs) in *.
  rewrite sorted_entries by done. intros [= <-].
  assert (forall o, o ∈ row_owner <$> cs <-> is_Some (get (caps s) cid o)) as Hcap.
  { intros o. rewrite list_elem_of_fmap. split; [intros (r & -> & Hr%Hl); by eexists|].
    intros [r Hr]. destruct (tidy_keys _ Ht _ _ _ Hr) as [_ <-]. exists r. split; [done|]. by apply Hl. }
  assert (forall o n, (o, n) ∈ m <-> n = owned o rs /\ (n <> 0%nat \/ is_Some (get (caps s) cid o))) as Hm.
  { intros o n. rewrite (elem_of_list_to_map (M := gmap (list Z))) by by apply in_order_keys.
    change (list_to_map m !! o) with (as_map m !! o). rewrite H4, H2. change (as_map [] !! o) with (@None nat). cbn.
    destruct (decide (o ∈ row_owner <$> cs)) as [Hc|Hc]; rewrite Hcap in Hc; case_decide as Hz; cbn;
      (split; [intros H; first [discriminate H|injection H as <-; split; [lia|tauto]]|
               intros [-> Ho]; first [f_equal; lia|tauto]]). }
  split.
  - clear -H3. induction H3 as [|kv m Hm IH Hf]; cbn; constructor; [done|]. apply Forall_fmap. exact Hf.
  - assert (forall o, bool_decide (o ∈ (list_to_set (row_owner <$> cs) : gset (list Z))) = bool_decide (is_Some (get (caps s) cid o))) as Hb
      by (intros o; apply bool_decide_ext; by rewrite elem_of_list_to_set).
    intros [o b n]. rewrite list_elem_of_fmap. cbn. split.
    + intros ([o' n'] & [= -> -> ->] & [-> Hin]%Hm). cbn. rewrite Hb, bool_decide_eq_true. done.
    + intros (-> & -> & Hor). rewrite bool_decide_eq_true in Hor. exists (o, owned o rs). cbn. rewrite Hb. split; [done|]. by apply Hm.
Qed.

(** ** Examples *)

Definition demo_limit (n : Z) : RateLimit.RateLimit := RateLimit.mkRateLimit (Some n) None None (Some 5) None None None.

Definition demo_text (cid : Z) : list Z := dec cid.

(** Client 7, enrolled as [edge], is not connected. *)
Definition demo_sys : Sys :=
  mkSys
    (mkServer (open ∅)
       (ClientTokens.mkDb {[7 := ClientTokens.mkToken (lit "edge") (lit "h") 0 None None]} ∅ 0 ∅) Clients.empty ∅ ∅)
    ClientControl.demo_client None.

Definition demo_connected : Sys :=
  mkSys (connect (srv demo_sys) 7 (lit "edge") 1 0 [Clients.Tcp] (lit "1.4.0")) (edge demo_sys) (Some 1).

Definition demo_body (n : Z) : OwnerRateLimitPutBody := mkBody (demo_limit n) None.

Definition demo_put (x : Sys) (n : Z) : Sys :=
  set_srv x (put_owner_rate_limit (srv x) RulePush.demo_identity (Some 7) (lit "alice") (demo_body n) 1000).2.

Definition demo_row (n : Z) : OwnerRateLimitRow := mkOwnerRow 7 (lit "alice") (demo_limit n) 1000.

Definition demo_capped : Sys := demo_put demo_connected 4096.

(** The client has taken the frame. *)
Definition demo_delivered : Sys :=
  mkSys (set_queue (srv demo_capped) 1 []) (consume (edge demo_capped) (set_message (lit "edge") (demo_row 4096)) 5) (Some 1).

Lemma demo_limit_wf n : 0 <= n <= u64_max -> RateLimit.wf (demo_limit n).
Proof. intros Hn. split; cbn; unfold_ints; lia. Qed.

Lemma demo_sys_starts : sys_start demo_sys.
Proof. split_and!; [exists ∅; by split; [|apply map_Forall_empty]|done..]. Qed.

Lemma demo_reaches : rtc (sys_step 7 demo_text) demo_sys demo_capped.
Proof.
  eapply rtc_l; [exact (x_connect_me 7 demo_text demo_sys (lit "edge") 1 0 [Clients.Tcp] (lit "1.4.0") ltac:(split; [done|set_solver]))|].
  apply rtc_once. refine (x_put 7 demo_text demo_connected _ _ _ (demo_body 4096) 1000 _ _); [|unfold_ints; lia].
  apply demo_limit_wf. unfold_ints; lia.
Qed.

Lemma demo_reaches_delivered : rtc (sys_step 7 demo_text) demo_sys demo_delivered.
Proof.
  eapply rtc_r; [exact demo_reaches|]. exact (x_deliver 7 demo_text demo_capped 1 _ [] 5 eq_refl ltac:(by vm_compute)).
Qed.

Lemma owner_caps_durable_witness :
  let s := foldl cap_op (open ∅) [OpUpsert 7 (lit "alice") (demo_limit 4096) 1000; OpRestart; OpGc 7 (lit "alice") 2] in
  store_get (store s) 7 (lit "alice") = Some (demo_row 4096) /\ cache (open (store s)) = cache s.
Proof.
  pose proof (owner_caps_durable ∅ [OpUpsert 7 (lit "alice") (demo_limit 4096) 1000; OpRestart; OpGc 7 (lit "alice") 2]) as H.
  split; [by vm_compute|]. apply H. by repeat constructor.
Defined.

Definition demo_written : Service :=
  mkService (<[(7, lit "alice") := (demo_limit 4096, 1000)]> ∅) (cache (open ∅)).

Lemma interleaved_cap_writes_diverge_witness :
  upsert_write (open ∅) 7 (lit "alice") (demo_limit 4096) 1000 = Ok (demo_row 4096, demo_written) /\
  let (removed, s2) := delete_write demo_written 7 (lit "alice") in
  let s3 := upsert_publish (delete_publish s2 removed 7 (lit "alice")) (demo_row 4096) in
  removed = true /\ get s3 7 (lit "alice") = Some (demo_row 4096) /\ store_get (store s3) 7 (lit "alice") = None /\
  get (open (store s3)) 7 (lit "alice") = None.
Proof.
  assert (upsert_write (open ∅) 7 (lit "alice") (demo_limit 4096) 1000 = Ok (demo_row 4096, demo_written)) as Hw by by vm_compute.
  split; [exact Hw|].
  exact (interleaved_cap_writes_diverge (open ∅) 7 (lit "alice") (demo_limit 4096) 1000 (demo_row 4096) demo_written (open_coherent ∅) Hw).
Defined.

Lemma demo_channel_open t : t ∉ closed (srv demo_capped).
Proof. assert (closed (srv demo_capped) = ∅) as -> by by vm_compute. apply not_elem_of_empty. Qed.


Lemma removed_cap_stays_enforced_witness :
  get (gc_after_rule_removed (caps (srv demo_delivered)) 7 (lit "alice") 0).2 7 (lit "alice") = None /\
  enforces (after_reconnect 7 demo_delivered (set_caps (srv demo_delivered)
    (gc_after_rule_removed (caps (srv demo_delivered)) 7 (lit "alice") 0).2) (lit "edge") 2 1 [Clients.Tcp] (lit "1.4.0") [])
    (lit "alice") (demo_limit 4096).
Proof.
  refine (proj1 (removed_cap_stays_enforced 7 demo_text demo_sys demo_delivered (lit "alice") (demo_limit 4096) RulePush.demo_identity
    (lit "edge") 2 1 [Clients.Tcp] (lit "1.4.0") [] demo_sys_starts demo_reaches_delivered _ _) _).
  - split; [by vm_compute|exact (demo_channel_open 2)].
  - eexists _, _. by vm_compute.
  - by vm_compute.
Defined.

Lemma replay_overwrites_newer_cap_witness :
  let s := srv demo_capped in
  let s1 := srv (demo_put demo_capped 8192) in
  outcome (lit "alice") (queue (replay_caps s1 1 (lit "edge") (list_for_client (caps s) 7)) 1) =
    Some (Some (demo_limit 4096)) /\
  row_limit <$> get (caps (replay_caps s1 1 (lit "edge") (list_for_client (caps s) 7))) 7 (lit "alice") =
    Some (demo_limit 8192).
Proof.
  assert (coherent (caps (srv demo_capped))) as Hc
    by exact (i_coherent _ _ (rtc_preserves _ _ _ _ (inv_step 7 demo_text) demo_reaches (inv_start 7 _ demo_sys_starts))).
  apply (replay_overwrites_newer_cap 7 (srv demo_capped) RulePush.demo_identity (lit "alice") (lit "edge") (demo_body 8192) 1000 1
    (demo_row 4096) (mkView (lit "edge") (lit "alice") (demo_limit 8192) 1000)).
  - exact Hc.
  - by vm_compute.
  - apply demo_channel_open.
  - by vm_compute.
  - by vm_compute.
Defined.

Lemma owners_listing_exact_witness :
  get_owners_under_client (srv demo_capped) RuleStore.empty_store RulePush.demo_identity (Some 7) =
    Ok [mkEntry (lit "alice") true 0] /\
  mkEntry (lit "alice") true 0 ∈ [mkEntry (lit "alice") true 0].
Proof.
  assert (get_owners_under_client (srv demo_capped) RuleStore.empty_store RulePush.demo_identity (Some 7) =
    Ok [mkEntry (lit "alice") true 0]) as He by by vm_compute.
  split; [exact He|]. assert (coherent (caps (srv demo_capped))) as Hc
    by exact (i_coherent _ _ (rtc_preserves _ _ _ _ (inv_step 7 demo_text) demo_reaches (inv_start 7 _ demo_sys_starts))).
  apply (owners_listing_exact (srv demo_capped) RuleStore.empty_store RulePush.demo_identity 7 _ (proj1 Hc) He).
  split_and!; [by vm_compute..|by right].
Defined.

End OwnerCaps.
