(* ===== verification/AppState.v ===== *)
(** * The server's state and the operations that span it

    [AppState] of [crates/portunus-server/src/state.rs]: the rules with the
    sessions ([RulePush]), the identity store ([Identity]), the owner caps
    ([OwnerCaps]), the statistics cache, collectors and per-port detail
    ([Metrics]) and the traffic aggregator ([TrafficQuota]); and the
    operations that touch several of them: [remove_rule] of [operator/cli.rs],
    the handlers [delete_rule] ([operator/http.rs]), [delete_grant]
    ([operator/grants.rs]) and [delete_user] ([operator/users.rs]), and the
    messages of a client ([handle_client_message] of [grpc/service.rs]).

    [cid_text] is the text of a client id, [hash_token] the token hash. *)

From S2P Require Import Prelude Text RateLimit RuleStore Rbac Identity TrafficPeriod TrafficQuota.
From S2P Require Import ClientTokens ClientSessions RulePersist RulePush Metrics OwnerCaps.

Local Open Scope Z_scope.

Module AppState.

Record AppState : Type := mkState {
  push : RulePush.App;
  operators : Identity.Tables;
  caps : OwnerCaps.Service;
  stats : Metrics.RuleStatsCache;
  metrics : Metrics.Metrics;
  per_port : gmap Z (gmap Z Metrics.PerPortSnapshot);
  traffic : TrafficQuota.Aggregator;
}.

Definition set_push (s : AppState) (p : RulePush.App) : AppState :=
  mkState p (operators s) (caps s) (stats s) (metrics s) (per_port s) (traffic s).

Definition set_stats (s : AppState) (cm : Metrics.RuleStatsCache * Metrics.Metrics) : AppState :=
  mkState (push s) (operators s) (caps s) cm.1 cm.2 (per_port s) (traffic s).

(** ** Removing a rule *)

(** The rules of an owner on a client. *)
Definition rules_remaining (m : RuleStore.Store) (owner : list Z) (client : Z) : nat :=
  length (filter (fun r => RuleStore.client_id r = client) (RuleStore.list_owned_by m owner)).

Definition remove_rule (s : AppState) (i req : Z) : Result RuleStore.Rule RulePush.OperatorError * AppState :=
  match RulePush.remove_rule (push s) i req with
  | (Err e, _) => (Err e, s)
  | (Ok r, p) =>
    let owner := RuleStore.owner_user_id r in
    let cm := Metrics.drop_rule (stats s) (metrics s) i (RuleStore.client_name r) owner in
    let (_, c) := OwnerCaps.gc_after_rule_removed (caps s) (RuleStore.client_id r) owner
                    (rules_remaining (RulePush.mem p) owner (RuleStore.client_id r)) in
    (Ok r, mkState p (operators s) c cm.1 cm.2 (Metrics.per_port_drop_rule (per_port s) i) (traffic s))
  end.

Inductive HttpError : Type := Forbidden (e : Rbac.RbacError) | Operator (e : RulePush.OperatorError).

Definition delete_rule (s : AppState) (identity : Rbac.OperatorIdentity) (i req : Z) :
  Result unit HttpError * AppState :=
  let allowed := match RuleStore.get (RulePush.mem (push s)) i with
                 | Some r => Rbac.enforce_read identity (RuleStore.owner_user_id r)
                 | None => Ok tt
                 end in
  match allowed with
  | Err e => (Err (Forbidden e), s)
  | Ok _ =>
    match remove_rule s i req with
    | (Ok _, s) => (Ok tt, s)
    | (Err e, s) => (Err (Operator e), s)
    end
  end.

(** ** The cascades *)

(** What the identity handlers see: the tables, the rules in memory, and the
    persisted rules with their owner. *)
Definition identity_view (s : AppState) : Identity.App Identity.Tables :=
  Identity.mkApp (operators s) (RulePush.mem (push s))
    (RulePersist.c_owner_user_id <$> RulePersist.rows (RulePush.disk (push s))).

Definition set_identity (s : AppState) (t : Identity.Tables) (m : RuleStore.Store) (d : RulePersist.Disk) : AppState :=
  mkState (RulePush.set_rules (push s) m d) t (caps s) (stats s) (metrics s) (per_port s) (traffic s).

Definition delete_grant (hash_token : list Z -> list Z) (s : AppState) (identity : Rbac.OperatorIdentity)
  (gid : option Z) : Result (list Z * AppState) Identity.ApiError :=
  match Identity.delete_grant hash_token identity gid (identity_view s) with
  | Err e => Err e
  | Ok (removed, a) =>
    Ok (removed, set_identity s (Identity.operator_store a) (Identity.rules a)
                   (foldl RulePersist.delete_rule (RulePush.disk (push s)) removed))
  end.

(** The deletion of the user's row cascades to the rows of the rules. *)
Definition without_user (d : RulePersist.Disk) (u : list Z) : RulePersist.Disk :=
  let d := RulePersist.delete_rules_owned_by d u in
  RulePersist.mkDisk (RulePersist.rows d) (RulePersist.target_rows d) (RulePersist.users d ∖ {[u]}).

Definition delete_user (s : AppState) (identity : Rbac.OperatorIdentity) (raw : list Z) :
  Result (list Z * AppState) Identity.ApiError :=
  match Identity.delete_user_check identity raw (identity_view s) with
  | Err e => Err e
  | Ok target =>
    match Identity.delete_user_commit target (identity_view s) with
    | Err e => Err e
    | Ok (_, removed, a) =>
      Ok (removed, set_identity s (Identity.operator_store a) (Identity.rules a)
                     (without_user (RulePush.disk (push s)) target))
    end
  end.

(** ** The messages of a client *)

(** [RateLimitStats]: reject totals by the wire's reason. *)
Record WireRate : Type := mkWireRate {
  wr_rejects : list (Z * Z);
  wr_micros_in : Z;
  wr_micros_out : Z;
  wr_active : Z;
}.

Record WirePort : Type := mkWirePort {
  wp_port : Z;
  wp_bytes_in : Z;
  wp_bytes_out : Z;
  wp_active : Z;
  wp_datagrams_in : Z;
  wp_datagrams_out : Z;
}.

(** [v1::RuleStats]. *)
Record RuleEntry : Type := mkRuleEntry {
  re_rule : Z;
  re_reading : Metrics.Reading;
  re_sni : Z * Z * Z;
  re_rate : option WireRate;
  re_ports : list WirePort;
}.

Record StatsReport : Type := mkStatsReport {
  sr_stats : list RuleEntry;
  sr_owners : list (list Z * option WireRate);
  sr_listeners : list Metrics.ListenerReading;
}.

(** The six totals in the order of the metric labels; an unspecified or unknown
    reason is skipped, the last entry of a reason counts. *)
Definition reject_totals (l : list (Z * Z)) : list Z :=
  foldl (fun acc x => if (1 <=? x.1) && (x.1 <=? 6) then <[Z.to_nat (x.1 - 1) := x.2]> acc else acc) (replicate 6 0) l.

Definition rate_reading (w : WireRate) : Metrics.RateReading :=
  Metrics.mkRate (reject_totals (wr_rejects w)) (wr_micros_in w) (wr_micros_out w) (wr_active w).

Definition port_snapshot (now : Z) (p : WirePort) : option Metrics.PerPortSnapshot :=
  if (0 <=? wp_port p) && (wp_port p <=? u16_max)
  then Some (Metrics.mkPort (wp_port p) (wp_bytes_in p) (wp_bytes_out p) (wp_active p) (wp_datagrams_in p)
               (wp_datagrams_out p) now)
  else None.

Definition UNKNOWN : list Z := lit "_unknown".

(** The rule is looked up by its id alone. *)
Definition owner_of (s : AppState) (i : Z) : list Z :=
  match RuleStore.get (RulePush.mem (push s)) i with
  | Some r => RuleStore.owner_user_id r
  | None => UNKNOWN
  end.

Section Messages.
Context (cid_text : Z -> list Z).

Definition observe_entry (s : AppState) (client : Z) (name : list Z) (now now_secs : Z) (e : RuleEntry) : AppState :=
  let i := re_rule e in
  let owner := owner_of s i in
  let r := re_reading e in
  let t := TrafficQuota.record (traffic s)
             (TrafficQuota.mkReport (cid_text client) i owner (Metrics.bytes_in r) (Metrics.bytes_out r) now_secs) in
  let '(c, m) := Metrics.observe_with_targets (stats s) (metrics s) name i owner r now in
  let '(exact, wildcard, fallback) := re_sni e in
  let '(c, m) := Metrics.observe_sni_per_rule c m name i owner exact wildcard fallback in
  let '(c, m) := match re_rate e with
                 | Some w => Metrics.observe_rate_limit_per_rule c m name i owner (rate_reading w)
                 | None => (c, m)
                 end in
  let p := match re_ports e with
           | [] => per_port s
           | ps => Metrics.per_port_update (per_port s) i (omap (port_snapshot now) ps)
           end in
  mkState (push s) (operators s) (caps s) c m p t.

Definition observe_owner (s : AppState) (client : Z) (name : list Z) (o : list Z * option WireRate) : AppState :=
  match o.2 with
  | Some w =>
    set_stats s (Metrics.observe_rate_limit_per_owner (stats s) (metrics s) client name o.1 (rate_reading w))
  | None => s
  end.

Definition observe_listener (s : AppState) (client : Z) (name : list Z) (l : Metrics.ListenerReading) : AppState :=
  if (0 <=? Metrics.l_port l) && (Metrics.l_port l <=? u16_max)
  then set_stats s (Metrics.observe_sni_listener (stats s) (metrics s) client name l)
  else s.

Definition handle_stats_report (s : AppState) (client : Z) (name : list Z) (now now_secs : Z) (rep : StatsReport) :
  AppState :=
  let s := foldl (fun s e => observe_entry s client name now now_secs e) s (sr_stats rep) in
  let s := foldl (fun s o => observe_owner s client name o) s (sr_owners rep) in
  foldl (fun s l => observe_listener s client name l) s (sr_listeners rep).

Inductive Payload : Type :=
| Hello
| RuleStatus (st : RulePush.Status)
| Stats (rep : StatsReport)
| NoPayload.

(** [t] is the session, [client] and [name] its identity. *)
Definition handle_client_message (s : AppState) (t client : Z) (name : list Z) (now now_secs : Z) (p : Payload) :
  AppState :=
  match p with
  | Hello | NoPayload => s
  | RuleStatus st => set_push s (RulePush.handle_rule_status (push s) t client st now)
  | Stats rep => handle_stats_report s client name now now_secs rep
  end.

End Messages.

(** ** Removal *)

Lemma remove_rule_inv s i req r s' :
  remove_rule s i req = (Ok r, s') ->
  RuleStore.get (RulePush.mem (push s)) i = Some r /\
  RulePush.mem (push s') = RuleStore.drop_rule (RulePush.mem (push s)) i r /\
  RulePush.disk (push s') = RulePersist.delete_rule (RulePush.disk (push s)) i /\
  (stats s', metrics s') = Metrics.drop_rule (stats s) (metrics s) i (RuleStore.client_name r) (RuleStore.owner_user_id r) /\
  per_port s' = Metrics.per_port_drop_rule (per_port s) i /\
  caps s' = (OwnerCaps.gc_after_rule_removed (caps s) (RuleStore.client_id r) (RuleStore.owner_user_id r)
    (rules_remaining (RulePush.mem (push s')) (RuleStore.owner_user_id r) (RuleStore.client_id r))).2 /\
  RulePush.outbox (push s') = RulePush.outbox (push s) ++
    match Clients.handles_by_name (RulePush.clients (push s)) (RuleStore.client_name r) with
    | Some t => if decide (t ∈ RulePush.closed (push s)) then [] else [(t, (RulePush.Remove, req, RulePush.remove_message r))]
    | None => []
    end.
Proof.
  unfold remove_rule, RulePush.remove_rule, RuleStore.remove, RuleStore.get.
  destruct (RuleStore.rules (RulePush.mem (push s)) !! i) as [r'|] eqn:Er; [|done].
  set (a := RulePush.set_rules _ _ _).
  set (p := match Clients.handles_by_name _ _ with Some t => default a (RulePush.send a t _) | None => a end).
  assert (RulePush.mem p = RulePush.mem a /\ RulePush.disk p = RulePush.disk a /\
    RulePush.outbox p = RulePush.outbox (push s) ++
      match Clients.handles_by_name (RulePush.clients (push s)) (RuleStore.client_name r') with
      | Some t => if decide (t ∈ RulePush.closed (push s)) then [] else [(t, (RulePush.Remove, req, RulePush.remove_message r'))]
      | None => []
      end) as (Hm & Hd & Ho).
  { unfold p. cbn [a RulePush.set_rules RulePush.clients]. destruct (Clients.handles_by_name _ _) as [t|]; [|by rewrite app_nil_r].
    unfold RulePush.send. cbn. destruct (decide (t ∈ RulePush.closed (push s))) as [Ht|Ht].
    - rewrite bool_decide_true by done. cbn. by rewrite app_nil_r.
    - rewrite bool_decide_false by done. done. }
  destruct (OwnerCaps.gc_after_rule_removed _ _ _ _) as [b c] eqn:Eg. intros [= <- <-]. cbn [push stats metrics per_port caps].
  rewrite Eg. split_and!; [done|by rewrite Hm|by rewrite Hd|by destruct (Metrics.drop_rule _ _ _ _ _)|done|done|done].
Qed.


(** ** The cascades *)

Lemma remove_steps_gone l s acc i :
  (forall j, j ∈ acc -> RuleStore.rules s !! j = None) ->
  i ∈ (foldl RuleStore.remove_step (s, acc) l).2 -> RuleStore.rules (foldl RuleStore.remove_step (s, acc) l).1 !! i = None.
Proof.
  revert s acc. induction l as [|k l IH]; intros s acc Ha; cbn [foldl]; [apply Ha|].
  unfold RuleStore.remove_step at 2 4. cbn [fst snd]. destruct (RuleStore.rules s !! k) as [r|] eqn:Ek; [|by apply IH].
  apply IH. intros j. rewrite elem_of_app, list_elem_of_singleton. cbn. intros [Hj|Hj].
  - destruct (decide (j = k)) as [->|]; [apply lookup_delete_eq|rewrite lookup_delete_ne by done; by apply Ha].
  - subst. apply lookup_delete_eq.
Qed.

Lemma cascade_steps_gone {St} identity remaining l (a : Identity.App St) acc i :
  (forall j, j ∈ acc -> RuleStore.rules (Identity.rules a) !! j = None) ->
  i ∈ (foldl (Identity.cascade_step identity remaining) (a, acc) l).2 ->
  RuleStore.rules (Identity.rules (foldl (Identity.cascade_step identity remaining) (a, acc) l).1) !! i = None.
Proof.
  revert a acc. induction l as [|r l IH]; intros a acc Ha; cbn [foldl]; [apply Ha|].
  unfold Identity.cascade_step at 2 4. cbn [fst snd]. destruct (Identity.is_err _); [|by apply IH].
  assert (forall j, RuleStore.rules (Identity.remove_rule (Identity.rules a) (RuleStore.id r)) !! j =
    if decide (j = RuleStore.id r) then None else RuleStore.rules (Identity.rules a) !! j) as Hr.
  { intros j. unfold Identity.remove_rule, RuleStore.remove.
    destruct (RuleStore.rules (Identity.rules a) !! RuleStore.id r) as [x|] eqn:E; cbn.
    - case_decide; [subst; apply lookup_delete_eq|by apply lookup_delete_ne].
    - case_decide; [by subst|done]. }
  apply IH. intros j. cbn. rewrite elem_of_app, list_elem_of_singleton, Hr. intros [Hj|Hj]; case_decide; auto; done.
Qed.

(** Both cascades: which rules are gone, and that nothing but the identities
    and the rule stores changed. *)
Definition cascaded (hash_token : list Z -> list Z) (s : AppState) (identity : Rbac.OperatorIdentity)
  (removed : list Z) (s' : AppState) : Prop :=
  (exists gid, delete_grant hash_token s identity gid = Ok (removed, s')) \/
  (exists raw, delete_user s identity raw = Ok (removed, s')).

Lemma cascaded_frame hash_token s identity removed s' :
  cascaded hash_token s identity removed s' ->
  (forall i, i ∈ removed -> RuleStore.get (RulePush.mem (push s')) i = None) /\
  exists t m d, s' = set_identity s t m d.
Proof.
  intros [[gid H]|[raw H]].
  - unfold delete_grant in H. destruct (Identity.delete_grant hash_token identity gid (identity_view s)) as [[rm a]|] eqn:E; [|done].
    injection H as <- <-. split; [|by do 3 eexists]. unfold Identity.delete_grant in E. intros i Hi.
    repeat (case_match; try done). unfold Identity.cascade in *. simplify_eq.
    match goal with H : foldl (Identity.cascade_step ?id ?rem) (?a0, []) ?l = _ |- _ =>
      pose proof (cascade_steps_gone id rem l a0 [] i ltac:(intros j Hj; by apply elem_of_nil in Hj)) as Hg; rewrite H in Hg end.
    by apply Hg.
  - unfold delete_user in H. destruct (Identity.delete_user_check identity raw (identity_view s)) as [target|]; [|done].
    destruct (Identity.delete_user_commit target (identity_view s)) as [[[sm rm] a]|] eqn:E; [|done].
    injection H as <- <-. split; [|by do 3 eexists]. unfold Identity.delete_user_commit in E. intros i Hi.
    repeat (case_match; try done). unfold RuleStore.remove_owned_by in *. simplify_eq.
    match goal with H : foldl RuleStore.remove_step (?m0, []) ?l = _ |- _ =>
      pose proof (remove_steps_gone l m0 [] i ltac:(intros j Hj; by apply elem_of_nil in Hj)) as Hg; rewrite H in Hg end.
    by apply Hg.
Qed.

Lemma owner_of_absent s i : RuleStore.get (RulePush.mem (push s)) i = None -> owner_of s i = UNKNOWN.
Proof. unfold owner_of. by intros ->. Qed.

Lemma observe_entry_traffic cid_text s client name now secs e :
  traffic (observe_entry cid_text s client name now secs e) =
  TrafficQuota.record (traffic s)
    (TrafficQuota.mkReport (cid_text client) (re_rule e) (owner_of s (re_rule e)) (Metrics.bytes_in (re_reading e))
       (Metrics.bytes_out (re_reading e)) secs).
Proof. unfold observe_entry. repeat case_match; done. Qed.

Lemma observe_entry_push cid_text s client name now secs e :
  push (observe_entry cid_text s client name now secs e) = push s.
Proof. unfold observe_entry. repeat case_match; done. Qed.

Lemma record_unknown a client i bin bout secs :
  TrafficQuota.record a (TrafficQuota.mkReport client i UNKNOWN bin bout secs) = a.
Proof. unfold TrafficQuota.record. cbn [TrafficQuota.rep_owner]. by replace (TrafficQuota.unowned UNKNOWN) with true by by vm_compute. Qed.

(** C37. A rule that a revoked grant or a deleted user takes along is removed
    from the server's stores only.  No session gets a removal, so its client
    keeps forwarding; an operator cannot remove it any more, the id is not
    found; whatever traffic its client reports is billed to nobody; and its
    statistics and the owner's caps stay. *)
Theorem cascaded_rule_keeps_running (hash_token : list Z -> list Z) (cid_text : Z -> list Z) (s : AppState)
  (identity : Rbac.OperatorIdentity) (removed : list Z) (s' : AppState) (i : Z) :
  cascaded hash_token s identity removed s' -> i ∈ removed ->
  RulePush.outbox (push s') = RulePush.outbox (push s) /\
  (forall req, remove_rule s' i req = (Err RulePush.RuleNotFound, s')) /\
  (forall client name now secs e, re_rule e = i ->
    traffic (observe_entry cid_text s' client name now secs e) = traffic s') /\
  stats s' = stats s /\ metrics s' = metrics s /\ per_port s' = per_port s /\ caps s' = caps s.
Proof.
  intros H Hi. destruct (cascaded_frame _ _ _ _ _ H) as (Hgone & t & m & d & Hs). specialize (Hgone i Hi).
  split_and!; [by rewrite Hs| | |by rewrite Hs..].
  - intros req. unfold remove_rule, RulePush.remove_rule, RuleStore.remove. unfold RuleStore.get in Hgone. by rewrite Hgone.
  - intros client name now secs e He. rewrite observe_entry_traffic, He, owner_of_absent by done. apply record_unknown.
Qed.

(** ** Billing *)

Lemma accumulate_other q k delta now j : TrafficQuota.coherent q -> j <> k ->
  TrafficQuota.table (TrafficQuota.accumulate q k delta now).2 !! j = TrafficQuota.table q !! j /\
  TrafficQuota.cache (TrafficQuota.accumulate q k delta now).2 !! j = TrafficQuota.cache q !! j.
Proof.
  intros Hc Hne. unfold TrafficQuota.accumulate, TrafficQuota.accumulate_bytes_used.
  destruct (TrafficQuota.table q !! k) as [st|] eqn:Hk; [|by cbn].
  rewrite TrafficQuota.select_insert. set (st' := TrafficQuota.mkStored _ _).
  destruct (TrafficQuota.row_to_quota st') as [row|] eqn:Er; cbn; rewrite lookup_insert_ne by done; [|done].
  split; [done|]. apply lookup_insert_ne. pose proof (TrafficQuota.row_key _ _ Er) as Hr.
  specialize (Hc k). rewrite Hk in Hc. destruct Hc as [Hb _]. intros Hj. apply Hne. rewrite <- Hj, <- Hb. exact Hr.
Qed.

Lemma record_quotas a r :
  TrafficQuota.quotas (TrafficQuota.record a r) = TrafficQuota.quotas a \/
  exists delta, TrafficQuota.quotas (TrafficQuota.record a r) =
    (TrafficQuota.accumulate (TrafficQuota.quotas a) (TrafficQuota.rep_key r) delta (TrafficQuota.rep_now r)).2.
Proof.
  unfold TrafficQuota.record. destruct (TrafficQuota.unowned _); [by left|]. destruct (TrafficQuota.delta_of _ _ _) as [din dout].
  destruct (_ && _); [by left|]. destruct (TrafficQuota.get _ _); [|by left]. right. exists (TrafficQuota.to_i64_or_max (sat_add_u64 din dout)).
  destruct (TrafficQuota.accumulate _ _ _ _) as [[[[row []]|]|] q]; done.
Qed.

Lemma record_coherent a r : TrafficQuota.coherent (TrafficQuota.quotas a) -> TrafficQuota.coherent (TrafficQuota.quotas (TrafficQuota.record a r)).
Proof. intros Hc. destruct (record_quotas a r) as [->|[d ->]]; [done|by apply TrafficQuota.accumulate_coherent]. Qed.

Lemma record_other a r k : TrafficQuota.coherent (TrafficQuota.quotas a) -> TrafficQuota.rep_key r <> k ->
  TrafficQuota.table (TrafficQuota.quotas (TrafficQuota.record a r)) !! k = TrafficQuota.table (TrafficQuota.quotas a) !! k /\
  TrafficQuota.cache (TrafficQuota.quotas (TrafficQuota.record a r)) !! k = TrafficQuota.cache (TrafficQuota.quotas a) !! k.
Proof. intros Hc Hne. destruct (record_quotas a r) as [->|[d ->]]; [done|by apply accumulate_other]. Qed.

Lemma quota_at_frame a a' k u limit ex :
  TrafficQuota.table (TrafficQuota.quotas a') !! k = TrafficQuota.table (TrafficQuota.quotas a) !! k ->
  TrafficQuota.cache (TrafficQuota.quotas a') !! k = TrafficQuota.cache (TrafficQuota.quotas a) !! k ->
  TrafficQuota.quota_at a k u limit ex -> TrafficQuota.quota_at a' k u limit ex.
Proof. intros Ht Hc (st & r & H). exists st, r. by rewrite Ht, Hc. Qed.

Lemma record_prev a r : TrafficQuota.unowned (TrafficQuota.rep_owner r) = false ->
  TrafficQuota.prev (TrafficQuota.record a r) =
  <[TrafficQuota.rep_rule r := (TrafficQuota.rep_in r, TrafficQuota.rep_out r)]> (TrafficQuota.prev a).
Proof.
  intros Ho. unfold TrafficQuota.record. rewrite Ho. destruct (TrafficQuota.delta_of _ _ _) as [din dout].
  destruct (_ && _); [done|]. destruct (TrafficQuota.get _ _); [|done].
  destruct (TrafficQuota.accumulate _ _ _ _) as [[[[row []]|]|] q]; done.
Qed.

Lemma bills_local p p' reps : (forall r, r ∈ reps -> p !! TrafficQuota.rep_rule r = p' !! TrafficQuota.rep_rule r) ->
  TrafficQuota.bills p reps = TrafficQuota.bills p' reps.
Proof.
  revert p p'. induction reps as [|r reps IH]; intros p p' H; [done|]. rewrite !TrafficQuota.bills_cons.
  rewrite (H r) by by left. destruct (TrafficQuota.delta_of _ _ _) as [din dout]. cbv zeta.
  rewrite (IH (<[_ := _]> p) (<[TrafficQuota.rep_rule r := (TrafficQuota.rep_in r, TrafficQuota.rep_out r)]> p')); [done|].
  intros x Hx. destruct (decide (TrafficQuota.rep_rule x = TrafficQuota.rep_rule r)) as [->|].
  - by rewrite !lookup_insert_eq.
  - rewrite !lookup_insert_ne by done. apply H. by right.
Qed.

(** The reports that count for a pair. *)
Definition billable (k : TrafficQuota.Key) (r : TrafficQuota.Report) : Prop :=
  TrafficQuota.rep_key r = k /\ TrafficQuota.unowned (TrafficQuota.rep_owner r) = false.

#[global] Instance billable_dec k r : Decision (billable k r).
Proof. unfold billable. apply _. Defined.

(** Reports of many pairs, where each rule belongs to one pair. *)
Lemma mixed_reports_exact (K : Z -> TrafficQuota.Key) reps : forall a k u limit ex,
  TrafficQuota.coherent (TrafficQuota.quotas a) -> TrafficQuota.quota_at a k u limit ex -> 0 <= u ->
  Forall (fun r => TrafficQuota.unowned (TrafficQuota.rep_owner r) = true \/ TrafficQuota.rep_key r = K (TrafficQuota.rep_rule r)) reps ->
  let bs := TrafficQuota.bills (TrafficQuota.prev a) (filter (billable k) reps) in
  u + sum_of fst bs <= i64_max ->
  TrafficQuota.quota_at (foldl TrafficQuota.record a reps) k (u + sum_of fst bs) limit
    (match ex with Some _ => ex | None => TrafficQuota.first_crossing u limit bs end).
Proof.
  induction reps as [|r reps IH]; intros a k u limit ex Hc Hq Hu Hall bs Hmax.
  { subst bs. cbn. unfold sum_of. cbn. rewrite Z.add_0_r. by destruct ex. }
  apply Forall_cons in Hall as [Hr Hall]. subst bs. rewrite filter_cons in *. cbn [foldl].
  pose proof (record_coherent a r Hc) as Hc'. destruct (decide (billable k r)) as [[Hk Hown]|Hn].
  - rewrite TrafficQuota.bills_cons in *. pose proof (TrafficQuota.record_exact a k r u limit ex Hq Hk Hown) as He.
    pose proof (TrafficQuota.bills_nonneg (<[TrafficQuota.rep_rule r := (TrafficQuota.rep_in r, TrafficQuota.rep_out r)]>
      (TrafficQuota.prev a)) (filter (billable k) reps)) as Hnn. apply (sum_of_nonneg_Forall fst) in Hnn.
    destruct (TrafficQuota.delta_of _ _ _) as [din dout] eqn:Hd. injection Hd as Hdin Hdout. cbv zeta in *.
    destruct ((din =? 0) && (dout =? 0)) eqn:Hz.
    + apply andb_true_iff in Hz as [Hz1%Z.eqb_eq Hz2%Z.eqb_eq]. destruct He as (a' & Ea & Hp & Hq' & _); [lia|done|].
      rewrite Ea in *. rewrite <- Hp in *. by apply IH.
    + rewrite TrafficQuota.sum_cons in *. cbn [fst TrafficQuota.first_crossing] in *.
      destruct He as (a' & Ea & Hp & Hq' & _); [lia|done|]. rewrite Ea in *. rewrite <- Hp in *.
      rewrite Z.add_assoc. pose proof (IH a' k _ limit _ Hc' Hq' ltac:(lia) Hall ltac:(lia)) as IHq.
      destruct ex; [done|]. destruct (limit <=? u + (din + dout)); done.
  - assert (TrafficQuota.quota_at (TrafficQuota.record a r) k u limit ex) as Hq'.
    { destruct (TrafficQuota.unowned (TrafficQuota.rep_owner r)) eqn:Ho.
      - unfold TrafficQuota.record. by rewrite Ho.
      - destruct (record_other a r k Hc) as [H1 H2]; [intros Hk; apply Hn; by split|]. by eapply quota_at_frame. }
    assert (TrafficQuota.bills (TrafficQuota.prev (TrafficQuota.record a r)) (filter (billable k) reps) =
            TrafficQuota.bills (TrafficQuota.prev a) (filter (billable k) reps)) as Hb.
    { destruct (TrafficQuota.unowned (TrafficQuota.rep_owner r)) eqn:Ho; [unfold TrafficQuota.record; by rewrite Ho|].
      apply bills_local. intros x [[Hxk Hxo] Hx]%list_elem_of_filter. rewrite record_prev by done.
      rewrite lookup_insert_ne; [done|]. intros Heq. rewrite Forall_forall in Hall.
      destruct (Hall x Hx) as [?|Hx']; [congruence|]. destruct Hr as [?|Hr]; [congruence|]. apply Hn. split; [|done]. congruence. }
    rewrite <- Hb in *. by apply IH.
Qed.

(** ** Messages and bills *)

(** A message as the server gets it: the session, the identity, the clock. *)
Record Msg : Type := mkMsg {
  m_session : Z;
  m_client : Z;
  m_name : list Z;
  m_now : Z;
  m_secs : Z;
  m_payload : Payload;
}.

Definition stands_for (r : RuleStore.Rule) : list Z * Z := (RuleStore.owner_user_id r, RuleStore.client_id r).

(** Owner and client of every rule are the same. *)
Definition same_rules (s s' : AppState) : Prop :=
  forall i, stands_for <$> RuleStore.get (RulePush.mem (push s')) i = stands_for <$> RuleStore.get (RulePush.mem (push s)) i.

#[global] Instance same_rules_preorder : PreOrder same_rules.
Proof. split; [by intros s i|]. intros s1 s2 s3 H1 H2 i. by rewrite H2, H1. Qed.

Lemma upsert_ignoring_mem a i : RulePush.mem (RulePush.upsert_ignoring a i) = RulePush.mem a.
Proof. unfold RulePush.upsert_ignoring. repeat case_match; done. Qed.

Lemma mark_same st m i now m' j :
  RuleStore.mark st m i now = Ok m' -> stands_for <$> RuleStore.get m' j = stands_for <$> RuleStore.get m j.
Proof.
  unfold RuleStore.mark, RuleStore.get. destruct (RuleStore.rules m !! i) as [r|] eqn:E; [|done].
  intros H. assert (m' = RuleStore.with_rules m (<[i := RuleStore.set_state st now r]> (RuleStore.rules m))) as ->
    by (destruct (RuleStore.state r); by simplify_eq).
  cbn. destruct (decide (j = i)) as [->|]; [by rewrite lookup_insert_eq, E|by rewrite lookup_insert_ne].
Qed.

Lemma mark_and_store_same a i st m now j :
  stands_for <$> RuleStore.get (RulePush.mem (RulePush.mark_and_store a i (RuleStore.mark st (RulePush.mem a) m now))) j =
  stands_for <$> RuleStore.get (RulePush.mem a) j.
Proof.
  unfold RulePush.mark_and_store. destruct (RuleStore.mark st (RulePush.mem a) m now) as [m'|] eqn:E; rewrite upsert_ignoring_mem; [|done].
  by eapply mark_same.
Qed.

Lemma rule_status_same a t client st now j :
  stands_for <$> RuleStore.get (RulePush.mem (RulePush.handle_rule_status a t client st now)) j =
  stands_for <$> RuleStore.get (RulePush.mem a) j.
Proof.
  unfold RulePush.handle_rule_status, RulePush.apply_unsolicited_rule_status.
  destruct (RulePush.waiters a !! _) as [b|]; [done|]. destruct (RuleStore.get (RulePush.mem a) (RulePush.st_rule st)) as [r|]; [|done].
  destruct (negb _); [done|]. destruct (_ =? RulePush.ACTIVATED); [apply mark_and_store_same|].
  destruct (_ =? RulePush.FAILED); [apply mark_and_store_same|done].
Qed.

Lemma owner_of_same s s' i : same_rules s s' -> owner_of s' i = owner_of s i.
Proof.
  intros H. specialize (H i). unfold owner_of.
  destruct (RuleStore.get (RulePush.mem (push s')) i) as [r'|], (RuleStore.get (RulePush.mem (push s)) i) as [r|]; cbn in H; try done.
  unfold stands_for in H. congruence.
Qed.

Section Bills.
Context (cid_text : Z -> list Z).

Definition receive (s : AppState) (m : Msg) : AppState :=
  handle_client_message cid_text s (m_session m) (m_client m) (m_name m) (m_now m) (m_secs m) (m_payload m).

Definition report_of (s : AppState) (client secs : Z) (e : RuleEntry) : TrafficQuota.Report :=
  TrafficQuota.mkReport (cid_text client) (re_rule e) (owner_of s (re_rule e)) (Metrics.bytes_in (re_reading e))
    (Metrics.bytes_out (re_reading e)) secs.

(** What the messages report, in order, under the owners the rules have. *)
Definition reports (s : AppState) (msgs : list Msg) : list TrafficQuota.Report :=
  msgs ≫= fun m => match m_payload m with
                   | Stats rep => report_of s (m_client m) (m_secs m) <$> sr_stats rep
                   | _ => []
                   end.

(** Each client reports its own rules, or rules that are gone. *)
Definition honest (s : AppState) (m : Msg) : Prop :=
  match m_payload m with
  | Stats rep => Forall (fun e => forall r, RuleStore.get (RulePush.mem (push s)) (re_rule e) = Some r ->
                           RuleStore.client_id r = m_client m) (sr_stats rep)
  | _ => True
  end.

Lemma entries_traffic es s client name now secs :
  push (foldl (fun s e => observe_entry cid_text s client name now secs e) s es) = push s /\
  traffic (foldl (fun s e => observe_entry cid_text s client name now secs e) s es) =
  foldl TrafficQuota.record (traffic s) (report_of s client secs <$> es).
Proof.
  revert s. induction es as [|e es IH]; intros s; [done|]. cbn [foldl fmap list_fmap].
  destruct (IH (observe_entry cid_text s client name now secs e)) as [-> ->]. rewrite observe_entry_push. split; [done|].
  rewrite observe_entry_traffic. f_equal. apply list_fmap_ext. intros _ x _. unfold report_of, owner_of. by rewrite observe_entry_push.
Qed.

Lemma owners_frame os s client name :
  push (foldl (fun s o => observe_owner s client name o) s os) = push s /\
  traffic (foldl (fun s o => observe_owner s client name o) s os) = traffic s.
Proof.
  revert s. induction os as [|o os IH]; intros s; [done|]. cbn [foldl]. destruct (IH (observe_owner s client name o)) as [-> ->].
  unfold observe_owner. by destruct o.2.
Qed.

Lemma listeners_frame ls s client name :
  push (foldl (fun s l => observe_listener s client name l) s ls) = push s /\
  traffic (foldl (fun s l => observe_listener s client name l) s ls) = traffic s.
Proof.
  revert s. induction ls as [|l ls IH]; intros s; [done|]. cbn [foldl]. destruct (IH (observe_listener s client name l)) as [-> ->].
  unfold observe_listener. by case_match.
Qed.

Lemma report_traffic s client name now secs rep :
  push (handle_stats_report cid_text s client name now secs rep) = push s /\
  traffic (handle_stats_report cid_text s client name now secs rep) =
  foldl TrafficQuota.record (traffic s) (report_of s client secs <$> sr_stats rep).
Proof.
  unfold handle_stats_report. destruct (listeners_frame (sr_listeners rep) (foldl (fun s o => observe_owner s client name o)
    (foldl (fun s e => observe_entry cid_text s client name now secs e) s (sr_stats rep)) (sr_owners rep)) client name) as [-> ->].
  destruct (owners_frame (sr_owners rep) (foldl (fun s e => observe_entry cid_text s client name now secs e) s (sr_stats rep))
    client name) as [-> ->]. apply entries_traffic.
Qed.

Lemma receive_effect s m :
  same_rules s (receive s m) /\ traffic (receive s m) = foldl TrafficQuota.record (traffic s) (reports s [m]).
Proof.
  unfold receive, handle_client_message, reports. cbn [mbind list_bind]. rewrite app_nil_r.
  destruct (m_payload m) as [|st|rep|]; cbn [foldl]; try done.
  - split; [|done]. intros i. apply rule_status_same.
  - destruct (report_traffic s (m_client m) (m_name m) (m_now m) (m_secs m) rep) as [Hp Ht]. split; [|exact Ht].
    intros i. by rewrite Hp.
Qed.

Lemma reports_same s s' msgs : same_rules s s' -> reports s' msgs = reports s msgs.
Proof.
  intros Hs. unfold reports. induction msgs as [|m msgs IH]; [done|]. cbn [mbind list_bind]. rewrite IH. f_equal.
  destruct (m_payload m); try done. apply list_fmap_ext. intros _ e _. unfold report_of. by rewrite (owner_of_same s s').
Qed.

Lemma receive_all msgs s :
  same_rules s (foldl receive s msgs) /\ traffic (foldl receive s msgs) = foldl TrafficQuota.record (traffic s) (reports s msgs).
Proof.
  revert s. induction msgs as [|m msgs IH]; intros s; [done|]. cbn [foldl].
  destruct (receive_effect s m) as [Hs Ht], (IH (receive s m)) as [Hs' Ht']. split; [by etransitivity|].
  rewrite Ht', Ht, (reports_same s (receive s m)), <- foldl_app by done. f_equal. unfold reports. cbn [mbind list_bind]. by rewrite app_nil_r.
Qed.

(** C8. Traffic of many clients is billed to the right pair, exactly.
    Whatever messages the clients send, in any order, statuses of rules and
    reports of statistics, as long as each client reports its own rules: the
    quota of an owner on a client is charged what the readings of that owner's
    rules on that client added, each over the one before it, and nothing else;
    and it is marked exhausted at the first report that reaches the limit. *)
Theorem interleaved_traffic_billed (s : AppState) (msgs : list Msg) (owner : list Z) (client : Z) (u limit : Z) :
  (forall a b, cid_text a = cid_text b -> a = b) ->
  TrafficQuota.coherent (TrafficQuota.quotas (traffic s)) ->
  TrafficQuota.quota_at (traffic s) (owner, cid_text client) u limit None -> 0 <= u ->
  Forall (honest s) msgs ->
  let mine := filter (billable (owner, cid_text client)) (reports s msgs) in
  let bs := TrafficQuota.bills (TrafficQuota.prev (traffic s)) mine in
  u + sum_of fst bs <= i64_max ->
  Forall (fun r => exists rule, RuleStore.get (RulePush.mem (push s)) (TrafficQuota.rep_rule r) = Some rule /\
    stands_for rule = (owner, client)) mine /\
  exists row, TrafficQuota.get (TrafficQuota.quotas (traffic (foldl receive s msgs))) (owner, cid_text client) = Some row /\
    TrafficQuota.current_period_bytes_used row = u + sum_of fst bs /\
    TrafficQuota.exhausted_at row = TrafficQuota.first_crossing u limit bs.
Proof.
  intros Hinj Hc Hq Hu Hh mine bs Hmax.
  assert (Forall (fun r => TrafficQuota.unowned (TrafficQuota.rep_owner r) = true \/
    exists rule, RuleStore.get (RulePush.mem (push s)) (TrafficQuota.rep_rule r) = Some rule /\
      TrafficQuota.rep_key r = (RuleStore.owner_user_id rule, cid_text (RuleStore.client_id rule))) (reports s msgs)) as Hrep.
  { rewrite Forall_forall. intros r (m & Hr & Hm)%list_elem_of_bind. rewrite Forall_forall in Hh. specialize (Hh m Hm). unfold honest in Hh.
    destruct (m_payload m) as [|st|rep|]; try (exfalso; exact (not_elem_of_nil r Hr)).
    apply list_elem_of_fmap in Hr as (e & -> & He). rewrite Forall_forall in Hh. specialize (Hh e He).
    unfold report_of, TrafficQuota.rep_key, owner_of. cbn.
    destruct (RuleStore.get (RulePush.mem (push s)) (re_rule e)) as [rule|] eqn:Eg; [right|left; by vm_compute].
    exists rule. split; [exact Eg|]. by rewrite (Hh rule eq_refl). }
  split.
  - unfold mine. rewrite Forall_forall in *. intros r [[Hk Ho] Hr]%list_elem_of_filter.
    destruct (Hrep r Hr) as [?|(rule & Hg & Hkey)]; [congruence|]. exists rule. split; [done|].
    rewrite Hkey in Hk. injection Hk as H1 H2. unfold stands_for. by rewrite H1, (Hinj _ _ H2).
  - destruct (receive_all msgs s) as [_ ->].
    set (K := fun i => match RuleStore.get (RulePush.mem (push s)) i with
      | Some rule => (RuleStore.owner_user_id rule, cid_text (RuleStore.client_id rule)) | None => ([], []) end : TrafficQuota.Key).
    destruct (mixed_reports_exact K (reports s msgs) (traffic s) (owner, cid_text client) u limit None Hc Hq Hu) as
      (st & row & _ & Hus & _ & Hex & _ & Hca & Hrow); [|done|].
    { eapply Forall_impl; [exact Hrep|]. intros r [?|(rule & Hg & Hkey)]; [by left|right]. unfold K. by rewrite Hg. }
    exists row. split; [exact Hca|]. unfold TrafficQuota.row_to_quota in Hrow. rewrite Hus in Hrow. by simplify_eq/=.
Qed.

(** The server does not check that a reported rule is the reporter's.  One
    report of a client about a rule of another client moves the reading the
    aggregator compares with: until the rule's own counters pass it, the
    reports of its client are billed to nobody. *)
Theorem foreign_report_stops_billing (s : AppState) (i : Z) (rule : RuleStore.Rule) (m m' : Msg) (e e' : RuleEntry) :
  TrafficQuota.coherent (TrafficQuota.quotas (traffic s)) ->
  RuleStore.get (RulePush.mem (push s)) i = Some rule -> TrafficQuota.unowned (RuleStore.owner_user_id rule) = false ->
  cid_text (m_client m) <> cid_text (RuleStore.client_id rule) ->
  m_payload m = Stats (mkStatsReport [e] [] []) -> re_rule e = i ->
  m_payload m' = Stats (mkStatsReport [e'] [] []) -> re_rule e' = i -> m_client m' = RuleStore.client_id rule ->
  Metrics.bytes_in (re_reading e') <= Metrics.bytes_in (re_reading e) ->
  Metrics.bytes_out (re_reading e') <= Metrics.bytes_out (re_reading e) ->
  let k := (RuleStore.owner_user_id rule, cid_text (RuleStore.client_id rule)) in
  TrafficQuota.get (TrafficQuota.quotas (traffic (receive (receive s m) m'))) k = TrafficQuota.get (TrafficQuota.quotas (traffic s)) k.
Proof.
  intros Hc Hr Ho Hne Hm He Hm' He' Hcl Hin Hout k. destruct (receive_effect s m) as [Hs Ht].
  destruct (receive_effect (receive s m) m') as [_ Ht']. rewrite Ht', (reports_same s (receive s m)) by done.
  rewrite Ht. unfold reports. cbn [mbind list_bind]. rewrite Hm, Hm'. cbn [fmap list_fmap sr_stats foldl app].
  assert (owner_of s i = RuleStore.owner_user_id rule) as Hown by (unfold owner_of; by rewrite Hr).
  set (r1 := report_of s (m_client m) (m_secs m) e). set (r2 := report_of s (m_client m') (m_secs m') e').
  assert (TrafficQuota.rep_key r1 <> k) as Hk1 by (unfold r1, k, report_of, TrafficQuota.rep_key; cbn; congruence).
  assert (TrafficQuota.quotas (TrafficQuota.record (TrafficQuota.record (traffic s) r1) r2) =
          TrafficQuota.quotas (TrafficQuota.record (traffic s) r1)) as ->.
  { unfold TrafficQuota.record at 1. cbn [r2 report_of TrafficQuota.rep_owner TrafficQuota.rep_rule TrafficQuota.rep_in TrafficQuota.rep_out].
    rewrite He', Hown, Ho. rewrite record_prev by (cbn; by rewrite He, Hown). cbn [r1 report_of TrafficQuota.rep_rule TrafficQuota.rep_in TrafficQuota.rep_out].
    rewrite He, lookup_insert_eq. unfold TrafficQuota.delta_of. cbn [default fst snd].
    rewrite !Z.max_r by (cbn; lia). done. }
  by destruct (record_other (traffic s) r1 k Hc Hk1).
Qed.

End Bills.

(** ** Examples *)

(** The rules 0 and 1 of [bob] on client 1, [edge], connected as session 0,
    where [bob] has a cap and a quota of 500 bytes with 100 used. *)
Definition demo_row : TrafficQuota.TrafficQuotaRow :=
  TrafficQuota.mkRow (lit "bob") [1] (lit "edge") 500 0 0 100 None 0 0.

Definition demo_key : TrafficQuota.Key := (lit "bob", [1]).

Definition demo_quotas : TrafficQuota.Quotas :=
  TrafficQuota.mkQuotas {[ demo_key := TrafficQuota.mkStored demo_row (TrafficQuota.Integer 100) ]} {[ demo_key := demo_row ]}.

Definition demo_text (c : Z) : list Z := [c].

Definition demo_state : AppState :=
  mkState
    (RulePush.mkApp (Identity.ex_rules (lit "bob")) (RulePersist.mkDisk ∅ ∅ {[lit "bob"]})
       (Clients.mkClients {[1 := Clients.mkConnected (lit "edge") 0 0 [Clients.Tcp] (Some (lit "1.4.0"))]} 1 ∅ false)
       ∅ ∅ [] ∅)
    (Identity.operator_store Identity.bob_app)
    (OwnerCaps.open {[(1, lit "bob") := (OwnerCaps.demo_limit 4096, 1000)]})
    Metrics.no_cache Metrics.no_metrics ∅ (TrafficQuota.mkAgg ∅ demo_quotas ∅ []).

Definition demo_entry (i bin bout : Z) : RuleEntry :=
  mkRuleEntry i (Metrics.mkReading bin bout 1 0 0 0 0 0 0 []) (0, 0, 0) None [].

Definition demo_msg (client : Z) (es : list RuleEntry) : Msg :=
  mkMsg 0 client (lit "edge") 9000 9 (Stats (mkStatsReport es [] [])).

Lemma demo_coherent : TrafficQuota.coherent demo_quotas.
Proof.
  intros k. simpl. destruct (decide (demo_key = k)) as [<-|Hne].
  - rewrite !lookup_singleton_eq. split; [done|]. exists demo_row. by split_and!; [..|left].
  - by rewrite !lookup_singleton_ne.
Qed.

Lemma demo_quota_at : TrafficQuota.quota_at (traffic demo_state) (lit "bob", demo_text 1) 100 500 None.
Proof. eexists _, demo_row. split; [by apply lookup_singleton_eq|]. by split_and!. Qed.

Definition demo_bob_rule : option RuleStore.Rule := RuleStore.get (RulePush.mem (push demo_state)) 0.

Definition demo_removed : AppState := (remove_rule demo_state 0 77).2.


Definition demo_revoke : Result (list Z * AppState) Identity.ApiError :=
  delete_grant (fun b => b) demo_state Identity.root_id (Some 1).

Lemma cascaded_rule_keeps_running_witness :
  match demo_revoke with
  | Ok (removed, s') =>
    0 ∈ removed /\ RulePush.outbox (push s') = [] /\ remove_rule s' 0 77 = (Err RulePush.RuleNotFound, s') /\
    traffic (observe_entry demo_text s' 1 (lit "edge") 9000 9 (demo_entry 0 10 20)) = traffic s'
  | Err _ => False
  end.
Proof.
  assert (match demo_revoke with Ok (removed, _) => removed | Err _ => [] end = [0]) as Hr by by vm_compute.
  destruct demo_revoke as [[removed s']|] eqn:E; [|done]. cbn in Hr. subst removed.
  destruct (cascaded_rule_keeps_running (fun b => b) demo_text demo_state Identity.root_id [0] s' 0
    (or_introl (ex_intro _ (Some 1) E)) (list_elem_of_here _ _)) as (Ho & Hrm & Ht & _).
  split; [apply list_elem_of_here|]. split; [by rewrite Ho|]. split; [apply Hrm|]. by apply Ht.
Defined.

(** Two rules of [bob], another client's report in between. *)
Definition demo_msgs : list Msg :=
  [demo_msg 1 [demo_entry 0 100 20; demo_entry 1 30 0]; demo_msg 2 [demo_entry 5 7 7];
   mkMsg 0 1 (lit "edge") 9000 9 (RuleStatus (RulePush.mkStatus 3 0 RulePush.ACTIVATED []));
   demo_msg 1 [demo_entry 0 200 120]].

Lemma interleaved_traffic_billed_witness :
  exists row, TrafficQuota.get (TrafficQuota.quotas (traffic (foldl (receive demo_text) demo_state demo_msgs))) (lit "bob", demo_text 1) = Some row /\
    TrafficQuota.current_period_bytes_used row = 450 /\ TrafficQuota.exhausted_at row = None.
Proof.
  assert (forall a b, demo_text a = demo_text b -> a = b) as Hinj by (intros a b; unfold demo_text; congruence).
  assert (Forall (honest demo_state) demo_msgs) as Hh.
  { repeat constructor; intros r Hr; vm_compute in Hr; by simplify_eq. }
  destruct (interleaved_traffic_billed demo_text demo_state demo_msgs (lit "bob") 1 100 500 Hinj demo_coherent demo_quota_at
    ltac:(lia) Hh) as (_ & row & H1 & H2 & H3); [by vm_compute|].
  exists row. split; [exact H1|]. rewrite H2, H3. split; by vm_compute.
Defined.

Lemma foreign_report_stops_billing_witness :
  TrafficQuota.get (TrafficQuota.quotas (traffic (receive demo_text (receive demo_text demo_state (demo_msg 2 [demo_entry 0 1000000 1000000]))
    (demo_msg 1 [demo_entry 0 500 500])))) (lit "bob", demo_text 1) = Some demo_row.
Proof.
  destruct demo_bob_rule as [rule|] eqn:Hr; [|by vm_compute in Hr].
  assert (RuleStore.owner_user_id rule = lit "bob" /\ RuleStore.client_id rule = 1) as [Ho Hc] by (vm_compute in Hr; by simplify_eq).
  pose proof (foreign_report_stops_billing demo_text demo_state 0 rule (demo_msg 2 [demo_entry 0 1000000 1000000])
    (demo_msg 1 [demo_entry 0 500 500]) (demo_entry 0 1000000 1000000) (demo_entry 0 500 500) demo_coherent Hr) as H.
  rewrite Ho, Hc in H. cbv zeta in H. rewrite H; [by vm_compute|by vm_compute|done..|cbn; lia|cbn; lia].
Defined.

End AppState.
