(* ===== verification/RuleHttp.v ===== *)
(** * The operator's rule endpoints

    The handlers of [crates/portunus-server/src/operator/http.rs] on
    [/v1/rules]: the request body and its validation ([validate_sni_pattern],
    [parse_rate_limit_body], [parse_proxy_protocol_version], [build_range]),
    [post_rules] with its two request shapes, [put_rule], [get_rules] and
    [get_rule_stats], with [list_rules] and [rule_stats] of
    [operator/cli.rs], over [AppState]. A handler that panics is a value of
    [Outcome]; the wait for the client's answer is [RulePush.push_finish]. *)

From S2P Require Import Prelude Text Target PortRange RateLimit RuleStore Rbac Identity RouteTable AuthLayer.
From S2P Require Import ClientTokens ClientSessions RulePersist RulePush ClientControl Metrics OwnerCaps AppState.

Local Open Scope Z_scope.

Module RuleHttp.

Import PortRange.
Import AppState.

#[local] Existing Instances RuleStore.Protocol_eq_dec Rbac.OperatorRole_eq_dec.

(** ** The request *)

Record TargetBody : Type := mkTargetBody {
  tb_host : list Z;
  tb_port : Z;
  tb_priority : option Z;
  tb_proxy_protocol : option (list Z);
}.

Record RateLimitBody : Type := mkRateLimitBody {
  rb_limit : RateLimit.RateLimit;
  rb_concurrent_connections_burst : option Z;
}.

Record PushRuleBody : Type := mkPushRuleBody {
  b_client : list Z;
  b_listen_port : Z;
  b_listen_port_end : option Z;
  b_target_host : option (list Z);
  b_target_port : option Z;
  b_target_port_end : option Z;
  b_protocol : list Z;
  b_prefer_ipv6 : option bool;
  b_targets : option (list TargetBody);
  b_health_check_interval_secs : option Z;
  b_sni_pattern : option (list Z);
  b_rate_limit : option RateLimitBody;
}.

Inductive ApiError : Type :=
| RuleShapeConflict
| RuleShapeMissing
| MismatchedRange
| RangeRefused (e : PortRangeError)
| SniValidation (code : list Z)
| RateLimitValidation (code : list Z)
| HealthCheckIntervalOutOfRange (value : Z)
| TargetsInvalid (e : RuleTarget.RuleTargetError)
| ProxyProtocolValidation (code : list Z)
| MultiTargetUnsupportedByClient (version : list Z)
| SniUnsupportedByClient (version : list Z)
| ProxyProtocolUnsupportedByClient (version : list Z)
| RateLimitUnsupportedByClient (version : list Z)
| RuleUpdateShapeMismatch
| Operator (e : RulePush.OperatorError).

(** The status of a store error, as [OperatorError] takes it over. *)
Definition store_status (e : RuleStore.RuleStoreError) : Z :=
  match e with
  | RuleStore.PortInUse _ | RuleStore.SniRouteDuplicate _ _ _ | RuleStore.SniFallbackDuplicate _ _
  | RuleStore.LegacyToSniUnsupported _ _ => 409
  | RuleStore.ExceedsCap _ _ | RuleStore.RangeInvalid _ => 400
  | RuleStore.InvalidTransition => 422
  | RuleStore.NotFound => 404
  end.

(** The status of a refusal: 400 the request is wrong, 403 it is not allowed,
    409 it conflicts with another rule, 422 the client cannot take it, 504 the
    client did not answer. *)
Definition api_status (e : ApiError) : Z :=
  match e with
  | RuleShapeConflict | RuleShapeMissing | MismatchedRange | RangeRefused _ | SniValidation _ | RateLimitValidation _
  | HealthCheckIntervalOutOfRange _ | TargetsInvalid _ | ProxyProtocolValidation _ | RuleUpdateShapeMismatch => 400
  | MultiTargetUnsupportedByClient _ | SniUnsupportedByClient _ | ProxyProtocolUnsupportedByClient _
  | RateLimitUnsupportedByClient _ => 422
  | Operator e =>
    match e with
    | RulePush.InvalidClientName _ | RulePush.InvalidProtocol | RulePush.InvalidTargetHost => 400
    | RulePush.Forbidden e => AuthLayer.http_status_for e
    | RulePush.ClientNotConnected | RulePush.UnsupportedProtocol | RulePush.ActivationFailed _ => 422
    | RulePush.StoreRefused e => store_status e
    | RulePush.RuleNotFound => 404
    | RulePush.AckTimeout => 504
    end
  end.

(** ** Validation *)

Definition build_range (start : Z) (e : option Z) : Result PortRange ApiError :=
  match new start (default start e) with Ok r => Ok r | Err e => Err (RangeRefused e) end.

Definition MALFORMED : ApiError := SniValidation (lit "validation.sni_pattern_malformed").
Definition UNSUPPORTED_RULE : ApiError := SniValidation (lit "validation.sni_on_unsupported_rule").

Definition HYPHEN : Z := 45.
Definition label_char (c : Z) : bool := is_ascii_lowercase c || is_ascii_digit c || (c =? HYPHEN).

(** One iteration of the loop over the labels. *)
Definition label_ok (label : list Z) : bool :=
  negb (bool_decide (label = [])) && (str_len label <=? 63)%nat &&
  negb (starts_with_char HYPHEN label || ends_with_char HYPHEN label) && forallb label_char label.

Definition validate_sni_pattern (raw : list Z) : Result (list Z) ApiError :=
  let trimmed := trim raw in
  if bool_decide (trimmed = []) then Err MALFORMED
  else if (253 <? str_len trimmed)%nat then Err MALFORMED
  else
    let lower := lower trimmed in
    let (is_wildcard, body) :=
      match strip_prefix (lit "*.") lower with Some rest => (true, rest) | None => (false, lower) end in
    if bool_decide (body = []) then Err MALFORMED
    else if is_wildcard && negb (contains_char 46 body) then Err MALFORMED
    else if negb (forallb label_ok (split_char 46 body)) then Err MALFORMED
    else Ok (if is_wildcard : bool then lit "*." ++ body else body).

Definition rate_limit_code (e : RateLimit.RateLimitError) : list Z :=
  match e with
  | RateLimit.CapZero _ => lit "validation.rate_limit_cap_zero"
  | RateLimit.BurstWithoutRate _ => lit "validation.rate_limit_burst_without_rate"
  | RateLimit.BurstRange _ _ _ _ _ => lit "validation.rate_limit_burst_range"
  end.

Definition parse_rate_limit_body (body : option RateLimitBody) : Result (option RateLimit.RateLimit) ApiError :=
  match body with
  | None => Ok None
  | Some b =>
    if bool_decide (is_Some (rb_concurrent_connections_burst b))
    then Err (RateLimitValidation (lit "validation.rate_limit_burst_unsupported"))
    else match RateLimit.validate (rb_limit b) with
         | Err e => Err (RateLimitValidation (rate_limit_code e))
         | Ok _ => Ok (Some (rb_limit b))
         end
  end.

Definition parse_proxy_protocol_version (raw : option (list Z)) :
  Result (option RuleTarget.ProxyProtocolVersion) ApiError :=
  match raw with
  | None => Ok None
  | Some raw =>
    let trimmed := trim raw in
    if bool_decide (trimmed = []) then Ok None
    else if bool_decide (lower trimmed = lit "v1") then Ok (Some RuleTarget.V1)
    else if bool_decide (lower trimmed = lit "v2") then Ok (Some RuleTarget.V2)
    else Err (ProxyProtocolValidation (lit "validation.proxy_protocol_invalid"))
  end.

(** [parse_protocol_str]: the test of [RulePush.parse_protocol]. *)
Definition parse_protocol_str (s : list Z) : Result RuleStore.Protocol ApiError :=
  match RulePush.parse_protocol s with Ok p => Ok p | Err e => Err (Operator e) end.

(** The targets with their defaults: the row index is the default priority. *)
Fixpoint typed_targets (i : Z) (raw : list TargetBody) : Result (list RuleTarget.RuleTarget) ApiError :=
  match raw with
  | [] => Ok []
  | t :: raw =>
    let? v := parse_proxy_protocol_version (tb_proxy_protocol t) in
    let? ts := typed_targets (i + 1) raw in
    Ok (RuleTarget.mkRuleTarget (tb_host t) (tb_port t) (default i (tb_priority t)) v :: ts)
  end.

Definition has_legacy (b : PushRuleBody) : bool :=
  bool_decide (is_Some (b_target_host b)) || bool_decide (is_Some (b_target_port b)).

Definition has_new (b : PushRuleBody) : bool := bool_decide (is_Some (b_targets b)).

(** The checks [post_rules] and [put_rule] share: the shape, the pairing of
    the range ends, the listen range. *)
Definition shape_checks (b : PushRuleBody) : Result PortRange ApiError :=
  if has_legacy b && has_new b then Err RuleShapeConflict
  else if negb (has_legacy b) && negb (has_new b) then Err RuleShapeMissing
  else if negb (Bool.eqb (bool_decide (is_Some (b_listen_port_end b))) (bool_decide (is_Some (b_target_port_end b))))
  then Err MismatchedRange
  else build_range (b_listen_port b) (b_listen_port_end b).

(** The selector, where the rule may carry one. *)
Definition sni_checks (b : PushRuleBody) (listen : PortRange) : Result (option (list Z)) ApiError :=
  match b_sni_pattern b with
  | None => Ok None
  | Some raw =>
    if negb (eq_ignore_ascii_case (b_protocol b) (lit "tcp")) then Err UNSUPPORTED_RULE
    else if 1 <? len listen then Err UNSUPPORTED_RULE
    else let? p := validate_sni_pattern raw in Ok (Some p)
  end.

(** ** The push *)

Definition version_of (s : AppState) (name : list Z) : option (list Z) :=
  Clients.client_version_by_name (RulePush.clients (push s)) name.

(** A gate that lets an unknown version through. *)
Definition gate_known (needed : bool) (version : option (list Z)) (minor : Z) (e : list Z -> ApiError) :
  Result unit ApiError :=
  match needed, version with
  | true, Some v => if RulePush.version_at_least (Some v) 0 minor then Ok tt else Err (e v)
  | _, _ => Ok tt
  end.

(** A gate that refuses an unknown version. *)
Definition gate_strict (needed : bool) (version : option (list Z)) (minor : Z) (e : list Z -> ApiError) :
  Result unit ApiError :=
  match needed, version with
  | false, _ => Ok tt
  | true, None => Err (e (lit "unknown"))
  | true, Some v => if RulePush.version_at_least (Some v) 0 minor then Ok tt else Err (e v)
  end.

Definition uses_proxy (ts : list RuleTarget.RuleTarget) : bool :=
  existsb (fun t => bool_decide (is_Some (RuleTarget.proxy_protocol t))) ts.

Definition enforce (s : AppState) (identity : Rbac.OperatorIdentity) (name : list Z) (listen : PortRange)
  (proto : RuleStore.Protocol) : Result unit ApiError :=
  match Rbac.enforce_push identity (Rbac.mkPush name (start listen) (end_ listen) proto)
          (Identity.grants_for (operators s) (Rbac.who identity)) with
  | Err e => Err (Operator (RulePush.Forbidden e))
  | Ok _ => Ok tt
  end.

Definition client_name_of (raw : list Z) : Result (list Z) ApiError :=
  match ClientName.new raw with Ok n => Ok n | Err e => Err (Operator (RulePush.InvalidClientName e)) end.

(** The checks of [push_multi_target] before it stores anything, in order. *)
Definition multi_checks (s : AppState) (identity : Rbac.OperatorIdentity) (b : PushRuleBody)
  (raw : list TargetBody) (listen : PortRange) (sni : option (list Z)) (rl : option RateLimit.RateLimit) :
  Result (list RuleTarget.RuleTarget * list Z * RuleStore.Protocol) ApiError :=
  let? _ := match b_health_check_interval_secs b with
            | Some h => if (h =? 0) || (3600 <? h) then Err (HealthCheckIntervalOutOfRange h) else Ok tt
            | None => Ok tt
            end in
  let? _ := if bool_decide (raw = []) then Err (TargetsInvalid RuleTarget.Empty) else Ok tt in
  let? typed := typed_targets 0 raw in
  let? _ := match RuleTarget.validate typed with Err e => Err (TargetsInvalid e) | Ok u => Ok u end in
  let? name := client_name_of (b_client b) in
  let? proto := parse_protocol_str (b_protocol b) in
  let? _ := enforce s identity name listen proto in
  let? _ := if bool_decide (proto = RuleStore.Udp) && uses_proxy typed
            then Err (ProxyProtocolValidation (lit "validation.proxy_protocol_on_unsupported_rule")) else Ok tt in
  let v := version_of s name in
  let? _ := gate_known (2 <=? length typed)%nat v 7 MultiTargetUnsupportedByClient in
  let? _ := gate_known (bool_decide (is_Some sni)) v 9 SniUnsupportedByClient in
  let? _ := gate_strict (uses_proxy typed) v 10 ProxyProtocolUnsupportedByClient in
  let? _ := gate_strict (bool_decide (is_Some rl)) v 11 RateLimitUnsupportedByClient in
  Ok (typed, name, proto).

Definition lift (s : AppState) (x : Result (Z * RuleStore.Rule) RulePush.OperatorError * RulePush.App) :
  Result (Z * RuleStore.Rule) ApiError * AppState :=
  (match x.1 with Ok y => Ok y | Err e => Err (Operator e) end, set_push s x.2).

(** [cli::push_rule_multi_target] on a list of targets. *)
Definition push_targets (s : AppState) (identity : Rbac.OperatorIdentity) (name : list Z) (listen : PortRange)
  (ts : list RuleTarget.RuleTarget) (health : option Z) (proto : RuleStore.Protocol) (ipv6 : option bool) (cap : Z)
  (sni : option (list Z)) (rl : option RateLimit.RateLimit) (req now : Z) :
  Outcome (Result (Z * RuleStore.Rule) ApiError * AppState) :=
  match ts with
  | [] => Panics
  | first :: rest =>
    Returns (lift s (RulePush.push_rule_multi_target (push s) identity name listen first rest health proto ipv6 cap
      sni rl req now))
  end.

Definition push_multi_target (s : AppState) (identity : Rbac.OperatorIdentity) (b : PushRuleBody)
  (listen : PortRange) (sni : option (list Z)) (rl : option RateLimit.RateLimit) (cap req now : Z) :
  Outcome (Result (Z * RuleStore.Rule) ApiError * AppState) :=
  match b_targets b with
  | None => Panics
  | Some raw =>
    match multi_checks s identity b raw listen sni rl with
    | Err e => Returns (Err e, s)
    | Ok (typed, name, proto) =>
      push_targets s identity name listen typed (b_health_check_interval_secs b) proto (b_prefer_ipv6 b) cap sni rl
        req now
    end
  end.

(** The [debug_assert!] on the protocol is a panic. *)
Definition push_legacy_with_sni (s : AppState) (identity : Rbac.OperatorIdentity) (b : PushRuleBody)
  (listen : PortRange) (host : list Z) (target : PortRange) (pat : list Z) (cap req now : Z) :
  Outcome (Result (Z * RuleStore.Rule) ApiError * AppState) :=
  let synth := [RuleTarget.mkRuleTarget host (start target) 0 None] in
  let checked :=
    let? name := client_name_of (b_client b) in
    let? proto := parse_protocol_str (b_protocol b) in
    let? _ := enforce s identity name listen proto in
    Ok (name, proto) in
  match checked with
  | Err e => Returns (Err e, s)
  | Ok (name, proto) =>
    if negb (bool_decide (proto = RuleStore.Tcp)) then Panics
    else
      match gate_known true (version_of s name) 9 SniUnsupportedByClient with
      | Err e => Returns (Err e, s)
      | Ok _ =>
        match RuleTarget.validate synth with
        | Err e => Returns (Err (TargetsInvalid e), s)
        | Ok _ =>
          push_targets s identity name listen synth None proto (b_prefer_ipv6 b) cap (Some pat) None req now
        end
      end
  end.

(** What [post_rules] has checked before it looks at the shape. *)
Definition post_checks (b : PushRuleBody) :
  Result (PortRange * option (list Z) * option RateLimit.RateLimit) ApiError :=
  let? listen := shape_checks b in
  let? sni := sni_checks b listen in
  let? rl := parse_rate_limit_body (b_rate_limit b) in
  if has_legacy b && bool_decide (is_Some rl)
  then Err (RateLimitValidation (lit "validation.rate_limit_on_legacy_shape"))
  else Ok (listen, sni, rl).

Definition push_legacy (s : AppState) (identity : Rbac.OperatorIdentity) (b : PushRuleBody)
  (listen : PortRange) (sni : option (list Z)) (cap req now : Z) :
  Outcome (Result (Z * RuleStore.Rule) ApiError * AppState) :=
  match b_target_host b, b_target_port b with
  | Some host, Some port =>
    match build_range port (b_target_port_end b) with
    | Err e => Returns (Err e, s)
    | Ok target =>
      match sni with
      | Some pat => push_legacy_with_sni s identity b listen host target pat cap req now
      | None =>
        Returns (lift s (RulePush.push_rule (push s) identity (Identity.grants_for (operators s) (Rbac.who identity))
          (b_client b) listen host target (b_protocol b) (b_prefer_ipv6 b) cap req now))
      end
    end
  | _, _ => Panics
  end.

Definition post_rules (s : AppState) (identity : Rbac.OperatorIdentity) (b : PushRuleBody) (cap req now : Z) :
  Outcome (Result (Z * RuleStore.Rule) ApiError * AppState) :=
  match post_checks b with
  | Err e => Returns (Err e, s)
  | Ok (listen, sni, rl) =>
    if has_new b then push_multi_target s identity b listen sni rl cap req now
    else push_legacy s identity b listen sni cap req now
  end.

(** ** The response *)

Record PushRuleResponse : Type := mkResponse {
  rule_id : Z;
  status : list Z;
  target_host : list Z;
  prefer_ipv6 : bool;
  protocol : list Z;
  owner : list Z;
  sni_pattern : option (list Z);
  rate_limit : option RateLimit.RateLimit;
}.

Definition status_text (st : RuleStore.RuleState) : list Z :=
  match st with
  | RuleStore.Pending => lit "Pending"
  | RuleStore.Active => lit "Active"
  | RuleStore.Failed reason => lit "Failed:" ++ reason
  | RuleStore.Removed => lit "Removed"
  end.

Definition protocol_str (p : RuleStore.Protocol) : list Z :=
  match p with RuleStore.Tcp => lit "tcp" | RuleStore.Udp => lit "udp" end.

Definition response (r : RuleStore.Rule) : PushRuleResponse :=
  mkResponse (RuleStore.id r) (status_text (RuleStore.state r)) (RuleStore.target_host r)
    (default false (RuleStore.prefer_ipv6 r)) (protocol_str (RuleStore.protocol r)) (RuleStore.owner_user_id r)
    (RuleStore.sni_pattern r) (RuleStore.rate_limit r).

(** The end of the handler, once the client answered or the wait ended. *)
Definition post_reply (s : AppState) (t req i : Z) (ack : RulePush.Ack) (now : Z) :
  Result PushRuleResponse ApiError * AppState :=
  let (res, p) := RulePush.push_finish (push s) t req i ack now in
  (match res with Ok r => Ok (response r) | Err e => Err (Operator e) end, set_push s p).

(** ** The update *)

Definition same_target (incoming : TargetBody) (current : RuleTarget.RuleTarget) : bool :=
  bool_decide (tb_host incoming = RuleTarget.host current) && (tb_port incoming =? RuleTarget.port current) &&
  (default 0 (tb_priority incoming) =? RuleTarget.priority current).

Definition same_targets (raw : list TargetBody) (view : list RuleTarget.RuleTarget) : bool :=
  (length raw =? length view)%nat && forallb (fun p => same_target p.1 p.2) (zip raw view).

(** What [put_rule] checks of the body against the stored rule. *)
Definition put_checks (b : PushRuleBody) (existing : RuleStore.Rule) : Result (option RateLimit.RateLimit) ApiError :=
  let? listen := shape_checks b in
  let? rl := parse_rate_limit_body (b_rate_limit b) in
  if negb (bool_decide (b_client b = RuleStore.client_name existing)) ||
     negb (eq_ignore_ascii_case (b_protocol b) (protocol_str (RuleStore.protocol existing))) ||
     negb (bool_decide (listen = RuleStore.listen_range existing))
  then Err RuleUpdateShapeMismatch
  else if has_legacy b then
    if negb (bool_decide (default [] (b_target_host b) = RuleStore.target_host existing)) ||
       negb (default 0 (b_target_port b) =? RuleStore.target_port existing)
    then Err RuleUpdateShapeMismatch
    else if bool_decide (is_Some rl) then Err (RateLimitValidation (lit "validation.rate_limit_on_legacy_shape"))
    else Ok rl
  else if negb (same_targets (default [] (b_targets b)) (RuleStore.targets_view existing))
  then Err RuleUpdateShapeMismatch
  else Ok rl.

Definition put_rule (s : AppState) (identity : Rbac.OperatorIdentity) (i : Z) (b : PushRuleBody) (req : Z) :
  Result Z ApiError * AppState :=
  match RuleStore.get (RulePush.mem (push s)) i with
  | None => (Err (Operator RulePush.RuleNotFound), s)
  | Some existing =>
    match Rbac.enforce_read identity (RuleStore.owner_user_id existing) with
    | Err e => (Err (Operator (RulePush.Forbidden e)), s)
    | Ok _ =>
      match put_checks b existing with
      | Err e => (Err e, s)
      | Ok rl =>
        let (res, p) := RulePush.update_rule_rate_limit (push s) i rl req in
        (match res with Ok t => Ok t | Err e => Err (Operator e) end, set_push s p)
      end
    end
  end.

(** ** The reads *)

Definition list_rules (s : AppState) (raw_client : option (list Z)) : list RuleStore.Rule :=
  let all := RuleStore.list_rules (RulePush.mem (push s)) None in
  match trim <$> raw_client with
  | Some (c :: name) => filter (fun r => RuleStore.client_name r = c :: name) all
  | _ => all
  end.

(** The rules of a listing, before the health of their targets is added. *)
Definition visible_rules (s : AppState) (identity : Rbac.OperatorIdentity) (client owner : option (list Z)) :
  list RuleStore.Rule :=
  let all := list_rules s client in
  if negb (bool_decide (Rbac.role identity = Rbac.Superadmin))
  then filter (fun r => RuleStore.owner_user_id r = Rbac.who identity) all
  else match owner with
       | Some o => filter (fun r => RuleStore.owner_user_id r = o) all
       | None => all
       end.

Record TargetView : Type := mkTargetView {
  tv_target : RuleTarget.RuleTarget;
  tv_health : option (bool * Z * Z * Z);
}.

Definition health_view (p : Metrics.PerTargetSnapshot) : bool * Z * Z * Z :=
  (Metrics.pt_health p =? 0, Metrics.pt_consecutive_failures p, Metrics.pt_last_failure_at_unix_ms p,
   Metrics.pt_last_success_at_unix_ms p).

(** The first per-target entry of an index. *)
Definition health_at (s : AppState) (i : Z) (idx : nat) : option (bool * Z * Z * Z) :=
  snap ← Metrics.get (stats s) i;
  health_view <$> find (fun p => Metrics.pt_index p =? Z.of_nat idx) (Metrics.per_target (Metrics.reading snap)).

Definition rule_with_health (s : AppState) (r : RuleStore.Rule) : RuleStore.Rule * list TargetView :=
  (r, imap (fun idx t => mkTargetView t (health_at s (RuleStore.id r) idx)) (RuleStore.targets_view r)).

Definition get_rules (s : AppState) (identity : Rbac.OperatorIdentity) (client owner : option (list Z)) :
  list (RuleStore.Rule * list TargetView) :=
  rule_with_health s <$> visible_rules s identity client owner.

Record StatsView : Type := mkStatsView {
  sv_snapshot : Metrics.RuleStatsSnapshot;
  sv_protocol : list Z;
  sv_per_port : option (list Metrics.PerPortSnapshot);
  sv_per_target : option (list Metrics.PerTargetSnapshot);
}.

Definition rule_stats (s : AppState) (i : Z) : Result Metrics.RuleStatsSnapshot RulePush.OperatorError :=
  match Metrics.get (stats s) i with Some snap => Ok snap | None => Err RulePush.RuleNotFound end.

Definition requested (v : option (list Z)) : bool :=
  match v with
  | Some v => bool_decide (v = lit "true") || bool_decide (v = lit "1") || bool_decide (v = lit "yes")
  | None => false
  end.

(** The entry's own targets are serialised when there are any; the query
    parameter adds the empty list. *)
Definition get_rule_stats (s : AppState) (identity : Rbac.OperatorIdentity) (i : Z)
  (per_port_param per_target_param : option (list Z)) : Result StatsView ApiError :=
  let rule := RuleStore.get (RulePush.mem (push s)) i in
  let? _ := match rule with
            | Some r => match Rbac.enforce_read identity (RuleStore.owner_user_id r) with
                        | Ok u => Ok u
                        | Err e => Err (Operator (RulePush.Forbidden e))
                        end
            | None => Ok tt
            end in
  let? snap := match rule_stats s i with Ok x => Ok x | Err e => Err (Operator e) end in
  Ok (mkStatsView snap
        (match rule with Some r => protocol_str (RuleStore.protocol r) | None => lit "tcp" end)
        (if requested per_port_param then Metrics.per_port_get (per_port s) i else None)
        (let ts := Metrics.per_target (Metrics.reading snap) in
         if requested per_target_param || negb (length ts =? 0)%nat then Some ts else None)).
(** ** Lemmas *)

(** The numbers of a body are at their widths. *)
Definition typed_body (b : PushRuleBody) : Prop :=
  in_u16 (b_listen_port b) /\ (forall e, b_listen_port_end b = Some e -> in_u16 e) /\
  (forall p, b_target_port b = Some p -> in_u16 p) /\ (forall e, b_target_port_end b = Some e -> in_u16 e) /\
  (forall ts, b_targets b = Some ts -> Forall (fun t => in_u16 (tb_port t)) ts).

Definition new_rule (i c : Z) (name : list Z) (listen : PortRange) (host : list Z) (target : PortRange)
  (proto : RuleStore.Protocol) (ipv6 : option bool) (now : Z) (owner : list Z) (ts : list RuleTarget.RuleTarget)
  (health : option Z) (sni : option (list Z)) (rl : option RateLimit.RateLimit) : RuleStore.Rule :=
  RuleStore.mkRule i c name (start listen) (if 1 <? len listen then Some (end_ listen) else None)
    host (start target) (if 1 <? len target then Some (end_ target) else None)
    ipv6 proto RuleStore.Pending now now owner ts health sni rl.

Lemma session_supports a name c :
  Clients.client_id_by_name a name = Some c ->
  default false (Clients.supports_by_name a name Clients.Udp) = true ->
  exists h, Clients.inner a !! c = Some h /\ Clients.Udp ∈ Clients.supported_protocols h.
Proof.
  unfold Clients.client_id_by_name, Clients.supports_by_name.
  destruct (Clients.by_name a name) as [|[k h] l] eqn:E; simpl; [done|]. intros [= ->] Hs.
  exists h. split.
  - assert (Hin : (c, h) ∈ Clients.by_name a name) by (rewrite E; left).
    unfold Clients.by_name in Hin. apply list_elem_of_filter in Hin as [_ Hin]. by apply elem_of_map_to_list in Hin.
  - unfold Clients.client_supports in Hs. by apply bool_decide_eq_true in Hs.
Qed.

(** Every accepted push ends in [push_stored]; this is what it leaves. *)
Lemma push_stored_rule a name proto req listen host target ipv6 cap owner ts health sni rl now message t r a' :
  RulePush.push_stored a name proto req
    (fun cid => RuleStore.push_range_with_targets (RulePush.mem a) cid name listen host target proto ipv6 cap owner
                  ts health sni rl now) message = (Ok (t, r), a') ->
  (exists i c, r = new_rule i c name listen host target proto ipv6 now owner ts health sni rl) /\
  RuleStore.get (RulePush.mem a') (RuleStore.id r) = Some r /\
  RulePush.outbox a' = RulePush.outbox a ++ [(t, (RulePush.Push, req, message r))] /\
  (proto = RuleStore.Udp -> Clients.Udp ∈ RulePush.session_caps a (RuleStore.client_id r)) /\
  len listen = len target.
Proof.
  intros H. pose proof (RulePush.push_stored_sent _ _ _ _ _ _ _ _ _ H) as (c & m & Hc & _ & Hp & Hm & Ho & _).
  unfold RuleStore.push_range_with_targets in Hp. destruct (pair listen target) as [[l tg]|] eqn:Ep; [|done].
  apply pair_ok_inv in Ep as (-> & -> & El).
  destruct (cap <? len listen); [done|]. destruct (RuleStore.find_conflict _ _ _ _ _ _); [done|].
  injection Hp as <- <-. split_and!; try done.
  - eauto.
  - unfold RuleStore.get. rewrite Hm. simpl. by rewrite lookup_insert_eq.
  - intros ->. unfold RulePush.push_stored in H. destruct (Clients.handles_by_name _ _); [|done]. rewrite Hc in H.
    destruct (default false (Clients.supports_by_name (RulePush.clients a) name Clients.Udp)) eqn:Es; [|done].
    destruct (session_supports _ _ _ Hc Es) as (h & Hi & Hu). unfold RulePush.session_caps. simpl. by rewrite Hi.
Qed.

Lemma new_rule_decodable i c name listen host target proto ipv6 now owner ts health sni rl :
  1 <= start listen -> wf listen -> 1 <= start target -> wf target ->
  is_ok (Target.parse host) = true -> health <> Some 0 ->
  Forall (fun t => is_ok (Target.parse (RuleTarget.host t)) = true /\ 1 <= RuleTarget.port t <= u16_max) ts ->
  ClientControl.decodable (new_rule i c name listen host target proto ipv6 now owner ts health sni rl).
Proof.
  intros Hl (? & ? & ?) Ht (? & ? & ?) Hh Hc Hts. unfold new_rule, len.
  split; simpl; try done; try lia; intros e; case_match eqn:E; intros [= <-]; apply Z.ltb_lt in E; lia.
Qed.

Lemma build_range_ok p e r : build_range p e = Ok r -> in_u16 p -> (forall x, e = Some x -> in_u16 x) ->
  1 <= start r /\ wf r.
Proof.
  unfold build_range. destruct (new p (default p e)) as [q|] eqn:E; [|done]. intros [= <-] Hp He.
  unfold new in E. destruct (p =? 0) eqn:E0; [done|]. destruct (default p e <? p) eqn:E1; [done|]. injection E as <-.
  assert (in_u16 (default p e)) by (destruct e; simpl; auto). unfold wf, in_u16 in *. simpl.
  apply Z.eqb_neq in E0. apply Z.ltb_ge in E1. lia.
Qed.

Lemma new_rule_ranges i c name listen host target proto ipv6 now owner ts health sni rl :
  1 <= start listen -> wf listen ->
  RuleStore.listen_range (new_rule i c name listen host target proto ipv6 now owner ts health sni rl) = listen.
Proof.
  intros H0 (H1 & H2 & H3). unfold new_rule, RuleStore.listen_range, RuleStore.range_of, len. simpl.
  destruct listen as [a e]. simpl in *. destruct (1 <? e - a + 1) eqn:E.
  - apply Z.ltb_lt in E. unfold new. rewrite (proj2 (Z.ltb_lt a e)), (proj2 (Z.eqb_neq a 0)),
      (proj2 (Z.ltb_ge e a)) by lia. done.
  - apply Z.ltb_ge in E. unfold single. f_equal. lia.
Qed.

Lemma validate_good ts : RuleTarget.validate ts = Ok tt -> ts <> [] /\ Forall RuleTarget.good_target ts.
Proof.
  unfold RuleTarget.validate. destruct (length ts =? 0)%nat eqn:E; [done|]. destruct (_ <? _)%nat; [done|].
  destruct (RuleTarget.check_each 0 ts) as [[]|] eqn:Ec; [|done]. intros _. split; [by intros ->|].
  by apply (check_each_ok 0).
Qed.

Lemma typed_ports i raw ts :
  typed_targets i raw = Ok ts -> Forall (fun t => in_u16 (tb_port t)) raw ->
  Forall (fun t => in_u16 (RuleTarget.port t)) ts.
Proof.
  revert i ts. induction raw as [|t raw IH]; simpl; intros i ts H Hf; [by injection H as <-|].
  apply Forall_cons in Hf as [? ?]. destruct (parse_proxy_protocol_version _); [|done].
  destruct (typed_targets (i + 1) raw) as [us|] eqn:E; [|done]. injection H as <-. constructor; [done|eauto].
Qed.

Lemma good_targets_decode ts :
  Forall RuleTarget.good_target ts -> Forall (fun t => in_u16 (RuleTarget.port t)) ts ->
  Forall (fun t => is_ok (Target.parse (RuleTarget.host t)) = true /\ 1 <= RuleTarget.port t <= u16_max) ts.
Proof.
  rewrite !Forall_forall. intros Hg Hp t Ht. destruct (Hg t Ht) as (_ & ? & ?). specialize (Hp t Ht).
  unfold in_u16 in Hp. split; [done|lia].
Qed.
(** *** Selectors *)

(** The name a selector stands for, and whether it is a wildcard. *)
Definition sni_split (p : list Z) : bool * list Z :=
  match strip_prefix (lit "*.") p with Some rest => (true, rest) | None => (false, p) end.

(** What an accepted selector satisfies, on its normal form. *)
Record sni_canonical (p : list Z) : Prop := mkCanonical {
  can_lower : lower p = p;
  can_len : (1 <= str_len p <= 253)%nat;
  can_body : (sni_split p).2 <> [];
  can_wild : (sni_split p).1 = true -> 46 ∈ (sni_split p).2;
  can_labels : Forall (fun l => label_ok l = true) (split_char 46 (sni_split p).2);
}.

Lemma sni_split_glue p : (if (sni_split p).1 then lit "*." ++ (sni_split p).2 else (sni_split p).2) = p.
Proof.
  unfold sni_split. destruct (strip_prefix (lit "*.") p) as [rest|] eqn:E; [|done].
  apply strip_prefix_spec in E. by rewrite E.
Qed.

Lemma str_len_nonnil s : s <> [] -> (1 <= str_len s)%nat.
Proof.
  destruct s as [|c s]; [done|]. intros _. unfold str_len. cbn.
  assert (1 <= utf8_len c)%nat by (unfold utf8_len; repeat case_match; lia). lia.
Qed.

Lemma validate_sni_iff raw p :
  validate_sni_pattern raw = Ok p <-> p = lower (trim raw) /\ sni_canonical p.
Proof.
  unfold validate_sni_pattern. change (match strip_prefix (lit "*.") (lower (trim raw)) with
    | Some rest => (true, rest) | None => (false, lower (trim raw)) end) with (sni_split (lower (trim raw))).
  pose proof (sni_split_glue (lower (trim raw))) as Hg. pose proof (str_len_lower (trim raw)) as Hlen.
  destruct (sni_split (lower (trim raw))) as [w body] eqn:Es. cbn [fst snd] in Hg.
  rewrite Hg.
  split.
  - case_bool_decide as Hn; [done|]. destruct (253 <? str_len (trim raw))%nat eqn:El; [done|].
    case_bool_decide as Hb; [done|]. destruct (w && negb (contains_char 46 body)) eqn:Ew; [done|].
    destruct (forallb label_ok (split_char 46 body)) eqn:Ef; cbn [negb]; [|discriminate].
    intros [= <-]. split; [done|]. apply Nat.ltb_ge in El.
    split; rewrite ?Es; cbn [fst snd].
    + apply lower_idem.
    + rewrite Hlen. split; [by apply str_len_nonnil|done].
    + done.
    + intros ->. apply negb_false_iff in Ew. by apply RouteTable.contains_char_spec.
    + apply Is_true_eq_left, forallb_True in Ef. eapply Forall_impl; [exact Ef|]. intros l. apply Is_true_eq_true.
  - intros [-> [_ Hl Hb Hw Hf]]. rewrite Es in Hb, Hw, Hf. cbn [fst snd] in *. rewrite Hlen in Hl.
    rewrite bool_decide_eq_false_2 by (intros E; rewrite E in Hl; cbn in Hl; lia).
    rewrite (proj2 (Nat.ltb_ge _ _)) by lia. rewrite bool_decide_eq_false_2 by done.
    assert (w && negb (contains_char 46 body) = false) as ->.
    { destruct w; [|done]. by rewrite (proj2 (RouteTable.contains_char_spec _ _) (Hw eq_refl)). }
    assert (forallb label_ok (split_char 46 body) = true) as ->; [|done].
    apply Is_true_eq_true, forallb_True. eapply Forall_impl; [exact Hf|]. intros l ->. done.
Qed.

Lemma join_char_Forall (P : Z -> Prop) c ls :
  P c -> Forall (Forall P) ls -> Forall P (join_char c ls).
Proof.
  intros Hc. induction 1 as [|l ls Hl Hls IH]; [constructor|]. cbn. destruct ls; [done|].
  apply Forall_app. split; [done|]. by constructor.
Qed.

Lemma label_ok_chars l : label_ok l = true -> Forall (fun c => label_char c = true) l.
Proof.
  unfold label_ok. rewrite !andb_true_iff. intros [_ H]. apply Is_true_eq_left, forallb_True in H.
  eapply Forall_impl; [exact H|]. intros c. apply Is_true_eq_true.
Qed.

Lemma canonical_chars p :
  sni_canonical p -> Forall (fun c => label_char c = true \/ c = 46) (sni_split p).2.
Proof.
  intros [_ _ _ _ Hl]. rewrite <- (join_split_char 46 (sni_split p).2). apply join_char_Forall; [by right|].
  eapply Forall_impl; [exact Hl|]. intros l H%label_ok_chars. eapply Forall_impl; [exact H|]. by left.
Qed.

Lemma label_char_not_whitespace c : label_char c = true \/ c = 46 -> is_whitespace c = false.
Proof.
  intros [H| ->]; [|done]. unfold label_char, is_ascii_lowercase, is_ascii_digit, HYPHEN in H.
  unfold is_whitespace. bool_prop. repeat case_match; bool_prop; lia.
Qed.

Lemma canonical_trim p : sni_canonical p -> trim p = p.
Proof.
  intros H. assert (Forall (fun c => is_whitespace c = false) p) as Hp.
  { rewrite <- (sni_split_glue p). pose proof (canonical_chars p H) as Hc.
    assert (Forall (fun c => is_whitespace c = false) (sni_split p).2)
      by (eapply Forall_impl; [exact Hc|apply label_char_not_whitespace]).
    destruct (sni_split p).1; [|done]. apply Forall_app. split; [|done]. by repeat constructor. }
  unfold trim. by rewrite trim_start_id, trim_end_id.
Qed.

Lemma validate_sni_idem p : sni_canonical p -> validate_sni_pattern p = Ok p.
Proof.
  intros H. apply validate_sni_iff. split; [|done]. by rewrite (canonical_trim p H), (can_lower p H).
Qed.
(** *** What the checks establish *)

Lemma gate_known_pass needed v minor e :
  gate_known needed (Some v) minor e = Ok tt -> needed && negb (RulePush.version_at_least (Some v) 0 minor) = false.
Proof. destruct needed; [|done]. unfold gate_known. by destruct (RulePush.version_at_least _ _ _). Qed.

Lemma gate_strict_pass needed v minor e :
  gate_strict needed v minor e = Ok tt -> needed && negb (RulePush.version_at_least v 0 minor) = false.
Proof. destruct needed; [|done]. unfold gate_strict. destruct v; [|done]. by destruct (RulePush.version_at_least _ _ _). Qed.

Lemma client_name_of_ok raw n : client_name_of raw = Ok n -> n = raw.
Proof.
  unfold client_name_of. destruct (ClientName.new raw) eqn:E; [|done]. intros [= <-]. by apply ClientName.new_same.
Qed.

Lemma enforce_ok s identity name listen proto :
  enforce s identity name listen proto = Ok tt ->
  Rbac.enforce_push identity (Rbac.mkPush name (start listen) (end_ listen) proto)
    (Identity.grants_for (operators s) (Rbac.who identity)) = Ok tt.
Proof. unfold enforce. by destruct (Rbac.enforce_push _ _ _) as [[]|]. Qed.

(** The checks a rule has been through, whichever way it was asked for. *)
Record vetted (s : AppState) (identity : Rbac.OperatorIdentity) (listen : PortRange) (name : list Z)
  (proto : RuleStore.Protocol) (ts : list RuleTarget.RuleTarget) (sni : option (list Z))
  (rl : option RateLimit.RateLimit) : Prop := mkVetted {
  vet_allowed : Rbac.enforce_push identity (Rbac.mkPush name (start listen) (end_ listen) proto)
    (Identity.grants_for (operators s) (Rbac.who identity)) = Ok tt;
  vet_listen : 1 <= start listen /\ wf listen;
  vet_gates : forall v, version_of s name = Some v ->
    (2 <=? length ts)%nat && negb (RulePush.version_at_least (Some v) 0 7) = false /\
    bool_decide (is_Some sni) && negb (RulePush.version_at_least (Some v) 0 9) = false /\
    uses_proxy ts && negb (RulePush.version_at_least (Some v) 0 10) = false /\
    bool_decide (is_Some rl) && negb (RulePush.version_at_least (Some v) 0 11) = false;
  vet_sni : forall p, sni = Some p -> proto = RuleStore.Tcp /\ len listen = 1 /\ sni_canonical p;
  vet_rl : forall l, rl = Some l -> RateLimit.validate l = Ok tt;
}.

Lemma parse_protocol_str_ok x p : parse_protocol_str x = Ok p -> lower x = protocol_str p.
Proof.
  unfold parse_protocol_str, RulePush.parse_protocol.
  case_bool_decide; [by intros [= <-]|]. case_bool_decide; [by intros [= <-]|done].
Qed.

Lemma sni_checks_ok b listen sni p :
  sni_checks b listen = Ok sni -> sni = Some p ->
  lower (b_protocol b) = lit "tcp" /\ len listen <= 1 /\ sni_canonical p.
Proof.
  unfold sni_checks. intros H ->. destruct (b_sni_pattern b) as [raw|]; [|done].
  destruct (eq_ignore_ascii_case _ _) eqn:Ep; cbn [negb] in H; [|done].
  destruct (1 <? len listen) eqn:El; [done|]. destruct (validate_sni_pattern raw) as [q|] eqn:Ev; [|done].
  injection H as ->. apply validate_sni_iff in Ev as [_ Hc]. apply Z.ltb_ge in El.
  unfold eq_ignore_ascii_case in Ep. apply bool_decide_eq_true in Ep. done.
Qed.

Lemma parse_rate_limit_ok body l : parse_rate_limit_body body = Ok (Some l) -> RateLimit.validate l = Ok tt.
Proof.
  unfold parse_rate_limit_body. destruct body as [rb|]; [|done]. case_bool_decide; [done|].
  destruct (RateLimit.validate (rb_limit rb)) as [[]|] eqn:E; [|done]. by intros [= <-].
Qed.

Lemma tcp_only proto x sni p (listen : PortRange) :
  lower x = protocol_str proto -> sni = Some p ->
  (forall q, sni = Some q -> lower x = lit "tcp" /\ len listen <= 1 /\ sni_canonical q) -> wf listen ->
  proto = RuleStore.Tcp /\ len listen = 1 /\ sni_canonical p.
Proof.
  intros Hx Hs H Hw. destruct (H p Hs) as (Ht & Hl & Hc). pose proof (len_pos _ Hw). split_and!; [|lia|done].
  rewrite Ht in Hx. by destruct proto.
Qed.

Lemma multi_checks_ok s identity b raw listen sni rl typed name proto :
  multi_checks s identity b raw listen sni rl = Ok (typed, name, proto) ->
  1 <= start listen -> wf listen ->
  (forall p, sni = Some p -> lower (b_protocol b) = lit "tcp" /\ len listen <= 1 /\ sni_canonical p) ->
  (forall l, rl = Some l -> RateLimit.validate l = Ok tt) ->
  vetted s identity listen name proto typed sni rl /\ name = b_client b /\
  typed_targets 0 raw = Ok typed /\ RuleTarget.validate typed = Ok tt /\ b_health_check_interval_secs b <> Some 0.
Proof.
  intros H Hl Hw Hsni Hrl. unfold multi_checks in H.
  destruct (match b_health_check_interval_secs b with Some _ => _ | None => _ end) eqn:Eh; [|done].
  case_bool_decide; [done|]. destruct (typed_targets 0 raw) as [ts|] eqn:Et; [|done].
  destruct (RuleTarget.validate ts) as [[]|] eqn:Ev; [|done].
  destruct (client_name_of _) as [n|] eqn:En; [|done]. destruct (parse_protocol_str _) as [p|] eqn:Ep; [|done].
  destruct (enforce _ _ _ _ _) as [[]|] eqn:Ee; [|done]. destruct (bool_decide _ && _); [done|].
  destruct (gate_known (2 <=? _)%nat _ _ _) as [[]|] eqn:G1; [|done].
  destruct (gate_known (bool_decide _) _ _ _) as [[]|] eqn:G2; [|done].
  destruct (gate_strict (uses_proxy _) _ _ _) as [[]|] eqn:G3; [|done].
  destruct (gate_strict (bool_decide _) _ _ _) as [[]|] eqn:G4; [|done]. injection H as -> -> ->.
  apply parse_protocol_str_ok in Ep. split_and!; try done.
  - split; try done; [by apply enforce_ok| |].
    + intros ver Hv. rewrite Hv in *. split_and!; eauto using gate_known_pass, gate_strict_pass.
    + intros q Hq. exact (tcp_only _ _ _ _ _ Ep Hq Hsni Hw).
  - by apply client_name_of_ok.
  - by intros E0; rewrite E0 in Eh.
Qed.

(** A stored and vetted rule is fit for the client and for the replay. *)
Definition fit (s : AppState) (identity : Rbac.OperatorIdentity) (b : PushRuleBody) (r : RuleStore.Rule) : Prop :=
  ClientControl.decodable r /\ RuleStore.client_name r = b_client b /\
  RuleStore.owner_user_id r = Rbac.who identity /\
  Rbac.enforce_push identity
    (Rbac.mkPush (b_client b) (start (RuleStore.listen_range r)) (end_ (RuleStore.listen_range r)) (RuleStore.protocol r))
    (Identity.grants_for (operators s) (Rbac.who identity)) = Ok tt /\
  (forall v, version_of s (b_client b) = Some v ->
     RulePush.replay_gate_reason r (RulePush.session_caps (push s) (RuleStore.client_id r)) (Some v) = None) /\
  (forall p, RuleStore.sni_pattern r = Some p ->
     RuleStore.protocol r = RuleStore.Tcp /\ len (RuleStore.listen_range r) = 1 /\ validate_sni_pattern p = Ok p) /\
  (forall l, RuleStore.rate_limit r = Some l -> RateLimit.validate l = Ok tt).

Lemma vetted_fit s identity b listen proto ts sni rl i c host target ipv6 now health :
  vetted s identity listen (b_client b) proto ts sni rl ->
  (proto = RuleStore.Udp -> Clients.Udp ∈ RulePush.session_caps (push s) c) ->
  let r := new_rule i c (b_client b) listen host target proto ipv6 now (Rbac.who identity) ts health sni rl in
  ClientControl.decodable r -> fit s identity b r.
Proof.
  intros [Ha [Hl Hw] Hg Hs Hr] Hu r Hd. subst r. unfold fit. rewrite new_rule_ranges by done. split_and!; try done.
  - intros v Hv. destruct (Hg v Hv) as (G1 & G2 & G3 & G4). unfold RulePush.replay_gate_reason, uses_proxy in *.
    cbn [new_rule RuleStore.protocol RuleStore.client_id RuleStore.targets RuleStore.sni_pattern RuleStore.rate_limit].
    rewrite G1, G2, G3, G4. destruct proto; [done|]. rewrite (bool_decide_eq_true_2 (Clients.Udp ∈ _)) by auto.
    by rewrite andb_false_r.
  - intros p Hp. destruct (Hs p Hp) as (? & ? & ?). split_and!; [done..|]. by apply validate_sni_idem.
Qed.
(** What an accepted request leaves: a fit rule in the store, and its message,
    which is the one the replay would send. *)
Definition delivered (s : AppState) (t req : Z) (r : RuleStore.Rule) (s' : AppState) : Prop :=
  RuleStore.get (RulePush.mem (push s')) (RuleStore.id r) = Some r /\
  RulePush.outbox (push s') =
    RulePush.outbox (push s) ++ [(t, (RulePush.Push, req, RulePush.proto_rule_from_rule r))] /\
  operators s' = operators s.

Lemma lift_ok s x t r s' :
  Returns (lift s x) = Returns (Ok (t, r), s') -> x = (Ok (t, r), push s') /\ operators s' = operators s.
Proof. destruct x as [[|] p]; unfold lift; cbn; [|done]. by intros [= -> <-]. Qed.

Lemma push_targets_fit s identity b listen ts health proto cap sni rl req now t r s' :
  push_targets s identity (b_client b) listen ts health proto (b_prefer_ipv6 b) cap sni rl req now =
    Returns (Ok (t, r), s') ->
  vetted s identity listen (b_client b) proto ts sni rl -> Forall RuleTarget.good_target ts ->
  Forall (fun t => in_u16 (RuleTarget.port t)) ts -> health <> Some 0 ->
  fit s identity b r /\ RuleStore.targets r = ts /\ delivered s t req r s'.
Proof.
  unfold push_targets. destruct ts as [|first rest]; [done|]. intros [H Ho]%lift_ok Hv Hg Hp Hh.
  pose proof (good_targets_decode _ Hg Hp) as Hd. pose proof (vet_listen _ _ _ _ _ _ _ _ Hv) as [Hl Hw].
  apply push_stored_rule in H as ((i & c & ->) & Hget & Hout & Hu & Hlen). rewrite len_single in Hlen.
  pose proof (proj1 (proj1 (Forall_cons _ _ _) Hd)) as [Hhost Hport].
  split; [|split; [done|split; [done|split; [|done]]]].
  - apply vetted_fit; [done|exact Hu|]. apply new_rule_decodable; try done; [cbn; lia|].
    split_and!; cbn; lia.
  - rewrite Hout. do 4 f_equal.
    unfold RulePush.push_multi_message, RulePush.proto_rule_from_rule, new_rule. cbn. by rewrite Hlen, len_single.
Qed.
Lemma post_checks_ok b listen sni rl :
  post_checks b = Ok (listen, sni, rl) -> typed_body b ->
  1 <= start listen /\ wf listen /\
  (forall p, sni = Some p -> lower (b_protocol b) = lit "tcp" /\ len listen <= 1 /\ sni_canonical p) /\
  (forall l, rl = Some l -> RateLimit.validate l = Ok tt) /\
  (has_new b = false -> rl = None).
Proof.
  unfold post_checks, shape_checks. intros H (Hlp & Hle & _). destruct (has_legacy b && has_new b) eqn:E1; [done|].
  destruct (negb (has_legacy b) && negb (has_new b)) eqn:E2; [done|]. destruct (negb _) in H; [done|].
  destruct (build_range _ _) as [l|] eqn:Eb; [|done]. destruct (sni_checks b l) as [sn|] eqn:Es; [|done].
  destruct (parse_rate_limit_body _) as [q|] eqn:Er; [|done].
  destruct (has_legacy b && bool_decide (is_Some q)) eqn:E3; [done|]. cbn in H. injection H as -> -> ->.
  destruct (build_range_ok _ _ _ Eb Hlp Hle) as [? ?]. split_and!; try done.
  - intros p. by apply sni_checks_ok.
  - intros q ->. by apply parse_rate_limit_ok in Er.
  - intros Hn. rewrite Hn, andb_true_r in E2. apply negb_false_iff in E2. rewrite E2 in E3. cbn in E3.
    apply bool_decide_eq_false in E3. destruct rl; [|done]. by destruct E3.
Qed.

Lemma legacy_plain_fit s identity b listen host target cap req now t r s' :
  Returns (lift s (RulePush.push_rule (push s) identity (Identity.grants_for (operators s) (Rbac.who identity))
    (b_client b) listen host target (b_protocol b) (b_prefer_ipv6 b) cap req now)) = Returns (Ok (t, r), s') ->
  1 <= start listen -> wf listen -> 1 <= start target -> wf target ->
  fit s identity b r /\ RuleStore.targets r = [] /\ delivered s t req r s'.
Proof.
  intros [H Ho]%lift_ok Hl Hw Ht Htw. unfold RulePush.push_rule in H.
  destruct (ClientName.new _) as [n|] eqn:En; [|done]. apply ClientName.new_same in En as ->.
  destruct (RulePush.parse_protocol _) as [proto|]; [|done].
  destruct (Rbac.enforce_push _ _ _) as [[]|] eqn:Ee; [|done].
  destruct (Target.parse host) as [h|] eqn:Eh; [|done]. unfold RuleStore.push_range in H.
  apply push_stored_rule in H as ((i & c & ->) & Hget & Hout & Hu & Hlen).
  split; [|split; [done|split; [done|split; [|done]]]].
  - apply vetted_fit; [|exact Hu|].
    + by split.
    + apply new_rule_decodable; try done. by rewrite Eh.
  - rewrite Hout. do 4 f_equal. unfold RulePush.push_message, RulePush.proto_rule_from_rule, new_rule. cbn.
    rewrite <- Hlen. by destruct (1 <? len listen).
Qed.

Lemma legacy_sni_fit s identity b listen host target pat cap req now t r s' :
  push_legacy_with_sni s identity b listen host target pat cap req now = Returns (Ok (t, r), s') ->
  1 <= start listen -> wf listen -> wf target ->
  lower (b_protocol b) = lit "tcp" /\ len listen <= 1 /\ sni_canonical pat ->
  fit s identity b r /\ RuleStore.targets r = [RuleTarget.mkRuleTarget host (start target) 0 None] /\
  delivered s t req r s'.
Proof.
  unfold push_legacy_with_sni. intros H Hl Hw Htw Hs.
  destruct (client_name_of _) as [n|] eqn:En; [|done]. apply client_name_of_ok in En as ->.
  destruct (parse_protocol_str _) as [proto|] eqn:Ep; [|done]. apply parse_protocol_str_ok in Ep.
  destruct (enforce _ _ _ _ _) as [[]|] eqn:Ee; [|done]. case_bool_decide as Hp; [|done]. cbn [negb] in H. subst proto.
  destruct (gate_known _ _ _ _) as [[]|] eqn:Eg; [|done].
  destruct (RuleTarget.validate _) as [[]|] eqn:Ev; [|done]. apply validate_good in Ev as [_ Hg].
  apply push_targets_fit in H; [done| |done| |done].
  - split; try done; [by apply enforce_ok| |].
    + intros v Hv. rewrite Hv in Eg. split_and!; try done. by apply (gate_known_pass true) in Eg.
    + intros p [= <-]. pose proof (len_pos _ Hw). destruct Hs as (_ & ? & ?). split_and!; [done|lia|done].
  - repeat constructor; destruct Htw as (? & ? & ?); cbn; lia.
Qed.

Lemma post_fit s identity b cap req now t r s' :
  typed_body b -> post_rules s identity b cap req now = Returns (Ok (t, r), s') ->
  fit s identity b r /\ delivered s t req r s' /\
  (forall raw, b_targets b = Some raw -> typed_targets 0 raw = Ok (RuleStore.targets r)).
Proof.
  intros Hb H. unfold post_rules in H. destruct (post_checks b) as [[[listen sni] rl]|] eqn:Ec; [|done].
  destruct (post_checks_ok _ _ _ _ Ec Hb) as (Hl & Hw & Hs & Hr & _). destruct (has_new b) eqn:En.
  - unfold push_multi_target in H. destruct (b_targets b) as [raw|] eqn:Er; [|done].
    destruct (multi_checks _ _ _ _ _ _ _) as [[[typed name] proto]|] eqn:Em; [|done].
    apply multi_checks_ok in Em as (Hv & -> & Ht & Hval & Hh); try done. apply validate_good in Hval as [_ Hg].
    apply push_targets_fit in H as (Hf & <- & Hd); try done; [|eapply typed_ports; [done|]; by apply Hb].
    split_and!; try done. by intros ? [= <-].
  - assert (b_targets b = None) as Hn.
    { unfold has_new in En. apply bool_decide_eq_false, eq_None_not_Some in En. done. }
    unfold push_legacy in H. destruct Hb as (_ & _ & Hp & He & _).
    destruct (b_target_host b) as [host|]; [|done]. destruct (b_target_port b) as [port|]; [|done].
    destruct (build_range port _) as [target|] eqn:Et; [|done].
    destruct (build_range_ok _ _ _ Et (Hp _ eq_refl) He) as [Ht Htw]. rewrite Hn.
    destruct sni as [pat|].
    + apply legacy_sni_fit in H as (? & _ & ?); auto. done.
    + apply legacy_plain_fit in H as (? & _ & ?); auto. done.
Qed.
(** *** Panics *)

Lemma push_targets_returns s identity name listen ts health proto ipv6 cap sni rl req now :
  push_targets s identity name listen ts health proto ipv6 cap sni rl req now = Panics <-> ts = [].
Proof. by destruct ts. Qed.

Lemma multi_returns s identity b listen sni rl cap req now :
  push_multi_target s identity b listen sni rl cap req now = Panics <-> b_targets b = None.
Proof.
  unfold push_multi_target. destruct (b_targets b) as [raw|]; [|done]. split; [|done].
  destruct (multi_checks _ _ _ _ _ _ _) as [[[typed name] proto]|] eqn:Em; [|done].
  rewrite push_targets_returns. intros ->. unfold multi_checks in Em.
  destruct (match b_health_check_interval_secs b with Some _ => _ | None => _ end); [|done].
  case_bool_decide as Hn; [done|]. destruct raw as [|tb raw]; [done|].
  destruct (typed_targets 0 (tb :: raw)) as [ts|] eqn:Et; [|done].
  destruct (RuleTarget.validate ts) as [[]|] eqn:Ev; [|done]. apply validate_good in Ev as [Hts _].
  repeat (case_match; try done). by simplify_eq.
Qed.

Lemma legacy_sni_returns s identity b listen host target pat cap req now :
  lower (b_protocol b) = lit "tcp" -> push_legacy_with_sni s identity b listen host target pat cap req now <> Panics.
Proof.
  unfold push_legacy_with_sni. intros Hp. destruct (client_name_of _); [|done].
  destruct (parse_protocol_str _) as [proto|] eqn:Ep; [|done]. apply parse_protocol_str_ok in Ep. rewrite Hp in Ep.
  destruct (enforce _ _ _ _ _); [|done]. rewrite bool_decide_eq_true_2 by (by destruct proto). cbn [negb].
  destruct (gate_known _ _ _ _); [|done]. by destruct (RuleTarget.validate _).
Qed.

(** ** Theorems *)

(** C22. A rule the operator's request gets accepted runs: it decodes at the
    client, is stored under the operator's own name with their grants covering
    its ports, its message is the one a replay sends, a client of the version
    that was checked is never refused it at a replay, a selector is only on a
    single TCP port and is in normal form, and its caps passed validation. *)
Theorem accepted_push_fit (s : AppState) (identity : Rbac.OperatorIdentity) (b : PushRuleBody) (cap req now t : Z)
  (r : RuleStore.Rule) (s' : AppState) :
  typed_body b -> post_rules s identity b cap req now = Returns (Ok (t, r), s') ->
  fit s identity b r /\ delivered s t req r s'.
Proof. intros Hb H. by destruct (post_fit _ _ _ _ _ _ _ _ _ Hb H) as (? & ? & _). Qed.

(** What a refusal that is not a 422 leaves of the state. *)
Lemma push_stored_refused a name proto req put message e a' :
  RulePush.push_stored a name proto req put message = (Err e, a') -> api_status (Operator e) <> 422 -> a' = a.
Proof.
  unfold RulePush.push_stored. intros H He. destruct (Clients.handles_by_name _ _); [|by simplify_eq].
  destruct (Clients.client_id_by_name _ _) as [cid|]; [|by simplify_eq]. destruct (_ && _); [by simplify_eq|].
  destruct (put cid) as [[r m]|]; [|by simplify_eq].
  destruct (RulePersist.upsert_rule _ _); [|by simplify_eq]. destruct (RulePush.send _ _ _); by simplify_eq.
Qed.

Lemma set_push_same s : set_push s (push s) = s.
Proof. by destruct s. Qed.

Lemma lift_refused s x e s' :
  Returns (lift s x) = Returns (Err e, s') -> (forall e', x.1 = Err e' -> api_status (Operator e') <> 422 -> x.2 = push s) ->
  api_status e <> 422 -> s' = s.
Proof.
  destruct x as [[|e'] p]; unfold lift; cbn; [done|]. intros [= <- <-] Hx He. rewrite (Hx e' eq_refl He). apply set_push_same.
Qed.

Lemma push_targets_refused s identity name listen ts health proto ipv6 cap sni rl req now e s' :
  push_targets s identity name listen ts health proto ipv6 cap sni rl req now = Returns (Err e, s') ->
  api_status e <> 422 -> s' = s.
Proof.
  unfold push_targets. destruct ts as [|first rest]; [done|]. intros H. eapply lift_refused; [exact H|].
  intros e' He'. unfold RulePush.push_rule_multi_target in *. destruct (RulePush.push_stored _ _ _ _ _ _) as [x p] eqn:E.
  cbn in He'. subst x. by eapply push_stored_refused.
Qed.


(** C38. The handler panics if and only if the body passes every check made before
    its shape is used and names only one of the target's host and port: the
    shape is "legacy" when either is there, and both are then unwrapped. No
    other request makes it panic. *)
Theorem post_rules_panics_iff (s : AppState) (identity : Rbac.OperatorIdentity) (b : PushRuleBody) (cap req now : Z) :
  post_rules s identity b cap req now = Panics <->
  is_ok (post_checks b) = true /\ b_targets b = None /\ ~ (is_Some (b_target_host b) /\ is_Some (b_target_port b)).
Proof.
  unfold post_rules. destruct (post_checks b) as [[[listen sni] rl]|] eqn:Ec; [|naive_solver].
  unfold has_new. case_bool_decide as Hn.
  - rewrite multi_returns. destruct Hn as [? Hn]. rewrite Hn. naive_solver.
  - apply eq_None_not_Some in Hn. rewrite Hn. unfold push_legacy.
    destruct (b_target_host b) as [host|]; [|split; [naive_solver|done]; intros _; split_and!; try done; by intros [[? ?] ?]].
    destruct (b_target_port b) as [port|]; [|split; [naive_solver|done]; intros _; split_and!; try done; by intros [? [? ?]]].
    split; [|intros (_ & _ & []); eauto]. destruct (build_range port _); [|done].
    destruct sni as [pat|] eqn:Es; [|done]. intros H. exfalso. revert H. apply legacy_sni_returns.
    unfold post_checks in Ec. destruct (shape_checks b) as [l|]; [|done].
    destruct (sni_checks b l) as [sn|] eqn:Esn; [|done]. destruct (parse_rate_limit_body _); [|done].
    destruct (_ && _); [done|]. cbn in Ec. injection Ec as -> -> ->.
    by destruct (sni_checks_ok _ _ _ pat Esn eq_refl).
Qed.

(** An accepted selector is routed as written: its normal form is the trimmed
    lower-case text, normalising again changes nothing, the routing table
    takes it, and the hosts it captures are the host itself or, for a
    wildcard, those with one more label above a name of at least two labels. *)
Theorem accepted_pattern_routes (raw p : list Z) (i : RouteTable.RuleId) :
  validate_sni_pattern raw = Ok p ->
  p = lower (trim raw) /\ validate_sni_pattern p = Ok p /\
  exists t, RouteTable.from_members [(Some p, i)] = Ok t /\
    forall host, RouteTable.lookup t (Some host) <> RouteTable.Miss <->
      match strip_prefix (lit "*.") p with
      | None => lower host = p
      | Some suffix => RouteTable.one_label_above (lower host) suffix /\ 46 ∈ suffix
      end.
Proof.
  intros [-> Hc]%validate_sni_iff. set (p := lower (trim raw)) in *.
  split; [done|]. split; [by apply validate_sni_idem|].
  destruct (RouteTable.from_members_ok [(Some p, i)]) as [t Ht].
  { unfold RouteTable.patterns. apply NoDup_singleton. }
  exists t. split; [done|]. intros host. rewrite (RouteTable.lookup_represents _ _ _ Ht).
  pose proof (can_wild p Hc) as Hw. unfold sni_split in Hw.
  assert (RouteTable.pattern_of (Some p) = match strip_prefix (lit "*.") p with
    | Some suffix => RouteTable.PWildcard suffix | None => RouteTable.PExact p end) as Hp
    by (unfold RouteTable.pattern_of; by rewrite (can_lower p Hc)).
  unfold RouteTable.spec_lookup. rewrite !RouteTable.rule_for_single. cbn [fst snd].
  destruct (strip_prefix (lit "*.") p) as [suffix|]; cbn [fst snd] in Hw; rewrite Hp.
  - rewrite !decide_False by done. rewrite RouteTable.one_label_above_wildcard_for.
    destruct (RouteTable.wildcard_for (lower host)) as [q|] eqn:Eq; cbn [mbind option_bind];
      [|split; [done|by intros [? _]]].
    rewrite RouteTable.rule_for_single. cbn [fst snd]. rewrite Hp.
    case_decide as Hq; split; intros; naive_solver.
  - case_decide as Hh; [split; [intros _; congruence|done]|]. rewrite decide_False by done.
    assert (RouteTable.wildcard_for (lower host) ≫= RouteTable.rule_for [(Some p, i)] = None) as ->.
    { unfold RouteTable.wildcard_for. repeat case_match; try done. cbn [mbind option_bind].
      rewrite RouteTable.rule_for_single. cbn [fst snd]. by rewrite Hp, decide_False. }
    split; [done|]. intros <-. done.
Qed.
Lemma typed_lookup i raw ts k t :
  typed_targets i raw = Ok ts -> raw !! k = Some t ->
  exists u, ts !! k = Some u /\ RuleTarget.priority u = default (i + Z.of_nat k) (tb_priority t).
Proof.
  revert i ts k. induction raw as [|x raw IH]; intros i ts k H Hk; [done|]. cbn in H.
  destruct (parse_proxy_protocol_version _); [|done]. destruct (typed_targets (i + 1) raw) as [us|] eqn:E; [|done].
  cbn in H. injection H as <-. destruct k as [|k]; cbn in *.
  - injection Hk as ->. eexists. split; [done|]. cbn. by rewrite Z.add_0_r.
  - destruct (IH _ _ _ E Hk) as (u & Hu & Hp). exists u. split; [done|]. rewrite Hp. f_equal. lia.
Qed.

(** The selector and the rate limit apart, [post_rules] and [put_rule] check a
    body of the new shape alike. *)
Lemma post_put_checks b raw x :
  post_checks b = Ok x -> b_targets b = Some raw ->
  is_ok (shape_checks b) = true /\ is_ok (parse_rate_limit_body (b_rate_limit b)) = true /\ has_legacy b = false.
Proof.
  unfold post_checks, shape_checks, has_new. intros H Hr. rewrite Hr in *. rewrite bool_decide_eq_true_2 in * by eauto.
  destruct (has_legacy b); [done|]. cbn in *. destruct (negb _); [done|]. destruct (build_range _ _); [|done].
  cbn in *. destruct (sni_checks _ _); [|done]. by destruct (parse_rate_limit_body _).
Qed.

(** The update refuses the very body the push accepted: a target list that
    leaves a priority out, after its first target, is stored with the row
    index as priority and compared at the update with priority 0. *)
Theorem put_refuses_posted_body (s : AppState) (identity : Rbac.OperatorIdentity) (b : PushRuleBody)
  (cap req now t req' : Z) (r : RuleStore.Rule) (s' : AppState) (raw : list TargetBody) (k : nat) (tb : TargetBody) :
  typed_body b -> post_rules s identity b cap req now = Returns (Ok (t, r), s') ->
  b_targets b = Some raw -> raw !! S k = Some tb -> tb_priority tb = None ->
  put_rule s' identity (RuleStore.id r) b req' = (Err RuleUpdateShapeMismatch, s').
Proof.
  intros Hb H Hr Hk Hp. destruct (post_fit _ _ _ _ _ _ _ _ _ Hb H) as ((_ & _ & Ho & _) & (Hg & _) & Ht).
  specialize (Ht _ Hr). destruct (typed_lookup _ _ _ _ _ Ht Hk) as (u & Hu & Hpu). rewrite Hp in Hpu. cbn in Hpu.
  unfold put_rule. rewrite Hg. unfold Rbac.enforce_read. rewrite Ho, (bool_decide_eq_true_2 (Rbac.who _ = _)) by done.
  assert (put_checks b r = Err RuleUpdateShapeMismatch) as ->; [|by case_bool_decide].
  unfold post_rules in H. destruct (post_checks b) as [x|] eqn:Ec; [|done].
  destruct (post_put_checks _ _ _ Ec Hr) as (Hs & Hl & Hn). unfold put_checks.
  destruct (shape_checks b); [|done]. destruct (parse_rate_limit_body _); [|done]. cbn.
  destruct (_ || _ || _); [done|]. rewrite Hn, Hr. cbn [default from_option id].
  assert (same_targets raw (RuleStore.targets_view r) = false) as ->; [|done].
  unfold RuleStore.targets_view. rewrite bool_decide_eq_false_2 by (intros E; by rewrite E in Hu).
  unfold same_targets. apply andb_false_iff. right. apply not_true_iff_false. rewrite forallb_forall. intros Hf.
  assert (Hz : zip raw (RuleStore.targets r) !! S k = Some (tb, u)) by (apply lookup_zip_with_Some; eauto).
  apply list_elem_of_lookup_2, list_elem_of_In, Hf in Hz. unfold same_target in Hz. cbn in Hz. rewrite Hp, Hpu in Hz.
  rewrite !andb_true_iff in Hz. destruct Hz as [_ Hz%Z.eqb_eq]. cbn in Hz. lia.
Qed.

Lemma put_ok_inv (s : AppState) (identity : Rbac.OperatorIdentity) (i : Z) (b : PushRuleBody) (req t : Z)
  (s' : AppState) :
  put_rule s identity i b req = (Ok t, s') ->
  exists r rl, RuleStore.get (RulePush.mem (push s)) i = Some r /\
    Rbac.enforce_read identity (RuleStore.owner_user_id r) = Ok tt /\ parse_rate_limit_body (b_rate_limit b) = Ok rl /\
    RuleStore.rules (RulePush.mem (push s')) = <[i := RuleStore.set_rate_limit rl r]> (RuleStore.rules (RulePush.mem (push s))) /\
    (exists first, head (RuleStore.targets_view r) = Some first /\
      RulePush.outbox (push s') = RulePush.outbox (push s) ++
        [(t, (RulePush.Push, req, RulePush.update_message (RuleStore.set_rate_limit rl r) first))]) /\
    stats s' = stats s /\ caps s' = caps s /\ traffic s' = traffic s /\ operators s' = operators s.
Proof.
  unfold put_rule. destruct (RuleStore.get _ i) as [r|] eqn:Hr; [|done].
  destruct (Rbac.enforce_read _ _) as [[]|] eqn:He; [|done]. destruct (put_checks b r) as [rl|] eqn:Hc; [|done].
  destruct (RulePush.update_rule_rate_limit (push s) i rl req) as [res p] eqn:Hu. destruct res as [t'|]; [|done].
  intros [= -> <-]. exists r, rl.
  assert (parse_rate_limit_body (b_rate_limit b) = Ok rl) as ->.
  { unfold put_checks in Hc. destruct (shape_checks b); [|done]. destruct (parse_rate_limit_body _) as [q|]; [|done].
    cbn in Hc. repeat (case_match; try done); by simplify_eq. }
  unfold RulePush.update_rule_rate_limit in Hu. rewrite Hr in Hu. destruct (Clients.handles_by_name _ _); [|done].
  unfold RuleStore.update_rate_limit in Hu. unfold RuleStore.get in Hr. rewrite Hr in Hu.
  destruct (RulePersist.upsert_rule _ _); [|done].
  destruct (head (RuleStore.targets_view _)) as [first|] eqn:Hf; [|done]. unfold RulePush.send in Hu.
  case_bool_decide; [done|]. injection Hu as <- <-. split_and!; try done. by exists first.
Qed.

(** An accepted update changes the cap of the one rule the operator may see
    and nothing else of the rules, and sends its client the rule with the new
    cap. *)
Theorem put_changes_only_cap (s : AppState) (identity : Rbac.OperatorIdentity) (i : Z) (b : PushRuleBody) (req t : Z)
  (s' : AppState) :
  put_rule s identity i b req = (Ok t, s') ->
  exists r rl, RuleStore.get (RulePush.mem (push s)) i = Some r /\
    Rbac.enforce_read identity (RuleStore.owner_user_id r) = Ok tt /\ parse_rate_limit_body (b_rate_limit b) = Ok rl /\
    RuleStore.rules (RulePush.mem (push s')) = <[i := RuleStore.set_rate_limit rl r]> (RuleStore.rules (RulePush.mem (push s))) /\
    (exists first, head (RuleStore.targets_view r) = Some first /\
      RulePush.outbox (push s') = RulePush.outbox (push s) ++
        [(t, (RulePush.Push, req, RulePush.update_message (RuleStore.set_rate_limit rl r) first))]) /\
    stats s' = stats s /\ caps s' = caps s /\ traffic s' = traffic s /\ operators s' = operators s.
Proof. apply put_ok_inv. Qed.

(** The update has no version gate: a cap it accepts goes to a client too old
    to know the field, which the replay then refuses the rule for. *)
Theorem put_skips_version_gate (s : AppState) (identity : Rbac.OperatorIdentity) (i : Z) (b : PushRuleBody) (req t : Z)
  (s' : AppState) (body : RateLimitBody) (version : option (list Z)) (protocols : list Clients.Protocol) :
  put_rule s identity i b req = (Ok t, s') -> b_rate_limit b = Some body ->
  RulePush.version_at_least version 0 11 = false ->
  exists r, RuleStore.get (RulePush.mem (push s')) i = Some r /\ RuleStore.rate_limit r = Some (rb_limit body) /\
    RulePush.replay_gate_reason r protocols version <> None.
Proof.
  intros (r & rl & _ & _ & Hrl & Hm & _)%put_ok_inv Hb Hv. rewrite Hb in Hrl. unfold parse_rate_limit_body in Hrl.
  case_bool_decide; [done|]. destruct (RateLimit.validate _); [|done]. injection Hrl as <-.
  exists (RuleStore.set_rate_limit (Some (rb_limit body)) r). unfold RuleStore.get. rewrite Hm.
  split; [apply lookup_insert_eq|]. split; [done|]. unfold RulePush.replay_gate_reason.
  cbn [RuleStore.set_rate_limit RuleStore.rate_limit]. rewrite Hv, (bool_decide_eq_true_2 (is_Some (Some _))) by eauto.
  by repeat case_match.
Qed.

(** The statistics of a rule are for its owner and the superadmins, while the
    rule is there. A rule that a revoked grant or a deleted user takes along
    leaves its statistics behind, and with no rule to name an owner they are
    given to every operator who asks, whoever they are. *)
Theorem cascaded_stats_open (hash_token : list Z -> list Z) (s s' : AppState) (identity : Rbac.OperatorIdentity)
  (removed : list Z) (i : Z) (r : RuleStore.Rule) (snap : Metrics.RuleStatsSnapshot) :
  cascaded hash_token s identity removed s' -> i ∈ removed ->
  RuleStore.get (RulePush.mem (push s)) i = Some r -> Metrics.get (stats s) i = Some snap ->
  forall reader ports targets,
    (is_ok (get_rule_stats s reader i ports targets) = true <->
      Rbac.role reader = Rbac.Superadmin \/ Rbac.who reader = RuleStore.owner_user_id r) /\
    exists view, get_rule_stats s' reader i ports targets = Ok view /\ sv_snapshot view = snap.
Proof.
  intros H Hi Hr Hs reader ports targets. destruct (cascaded_frame _ _ _ _ _ H) as (Hgone & t & m & d & Hs').
  specialize (Hgone i Hi). split.
  - unfold get_rule_stats, rule_stats. rewrite Hr, Hs. unfold Rbac.enforce_read.
    case_bool_decide; [naive_solver|]. case_bool_decide; [naive_solver|]. cbn. naive_solver.
  - unfold get_rule_stats, rule_stats. rewrite Hgone, Hs'. cbn [set_identity stats].
    rewrite Hs. cbn. eauto.
Qed.

Lemma stored_values m x : x ∈ RuleStore.values m <-> exists i, RuleStore.rules m !! i = Some x.
Proof.
  unfold RuleStore.values. rewrite list_elem_of_fmap. split.
  - intros ([i y] & -> & Hy%elem_of_map_to_list). eauto.
  - intros [i Hi]. exists (i, x). split; [done|]. by apply elem_of_map_to_list.
Qed.

(** The listing shows a plain user exactly their own rules, and a superadmin
    exactly the rules of the owner asked for, or all of them; of these, those
    of the client asked for, where the filter is not blank. *)
Theorem listing_exact (s : AppState) (identity : Rbac.OperatorIdentity) (client owner : option (list Z))
  (r : RuleStore.Rule) :
  r ∈ (get_rules s identity client owner).*1 <->
  (exists i, RuleStore.rules (RulePush.mem (push s)) !! i = Some r) /\
  (forall name, trim <$> client = Some name -> name <> [] -> RuleStore.client_name r = name) /\
  (Rbac.role identity <> Rbac.Superadmin -> RuleStore.owner_user_id r = Rbac.who identity) /\
  (Rbac.role identity = Rbac.Superadmin -> forall o, owner = Some o -> RuleStore.owner_user_id r = o).
Proof.
  unfold get_rules. rewrite <- list_fmap_compose. change (fst ∘ rule_with_health s) with (fun x : RuleStore.Rule => x).
  rewrite list_fmap_id.
  assert (r ∈ list_rules s client <-> (exists i, RuleStore.rules (RulePush.mem (push s)) !! i = Some r) /\
    (forall name, trim <$> client = Some name -> name <> [] -> RuleStore.client_name r = name)) as Hl.
  { unfold list_rules, RuleStore.list_rules. rewrite <- stored_values.
    destruct (trim <$> client) as [[|c name]|]; rewrite ?list_elem_of_filter, stable_sort_perm, list_elem_of_filter;
      cbn; naive_solver. }
  unfold visible_rules. case_bool_decide as Hi; cbn [negb].
  - destruct owner as [o|]; rewrite ?list_elem_of_filter, Hl; naive_solver.
  - rewrite list_elem_of_filter, Hl. naive_solver.
Qed.
(** ** Examples *)

Definition demo_target (host : string) (port : Z) : TargetBody := mkTargetBody (lit host) port None None.

(** Two targets without priorities. *)
Definition demo_body (rl : option RateLimitBody) : PushRuleBody :=
  mkPushRuleBody (lit "edge") 9443 None None None None (lit "TCP") None
    (Some [demo_target "10.0.0.1" 443; demo_target "10.0.0.2" 443]) (Some 30) (Some (lit " *.Example.COM ")) rl.

Definition demo_who : Rbac.OperatorIdentity := Rbac.mkIdentity (lit "bob") Rbac.Superadmin.

Definition demo_post : Outcome (Result (Z * RuleStore.Rule) ApiError * AppState) :=
  post_rules demo_state demo_who (demo_body None) 16 50 1000.

Definition demo_posted : AppState := match demo_post with Returns (_, s) => s | Panics => demo_state end.

Definition demo_http_rule : RuleStore.Rule :=
  new_rule 2 1 (lit "edge") (single 9443) (lit "10.0.0.1") (single 443) RuleStore.Tcp None 1000 (lit "bob")
    [RuleTarget.mkRuleTarget (lit "10.0.0.1") 443 0 None; RuleTarget.mkRuleTarget (lit "10.0.0.2") 443 1 None]
    (Some 30) (Some (lit "*.example.com")) None.

Lemma demo_typed rl : typed_body (demo_body rl).
Proof. unfold typed_body, in_u16. cbn. split_and!; try done. intros ? [= <-].
  apply Forall_cons_2; [by split|]. apply Forall_cons_2; [by split|]. apply Forall_nil_2. Qed.

Lemma demo_post_ok : demo_post = Returns (Ok (0, demo_http_rule), demo_posted).
Proof.
  assert (match demo_post with Returns (x, _) => Some x | Panics => None end = Some (Ok (0, demo_http_rule))) as H
    by by vm_compute.
  unfold demo_posted. destruct demo_post as [[x s]|]; [|done]. by injection H as ->.
Qed.

Lemma accepted_push_fit_witness :
  fit demo_state demo_who (demo_body None) demo_http_rule /\ delivered demo_state 0 50 demo_http_rule demo_posted.
Proof. exact (accepted_push_fit demo_state demo_who (demo_body None) 16 50 1000 0 _ _ (demo_typed None) demo_post_ok). Defined.

(** An operator without grants. *)
Definition demo_stranger : Rbac.OperatorIdentity := Rbac.mkIdentity (lit "eve") Rbac.User.

Definition demo_denied : Outcome (Result (Z * RuleStore.Rule) ApiError * AppState) :=
  post_rules demo_state demo_stranger (demo_body None) 16 50 1000.


Lemma accepted_pattern_routes_witness :
  validate_sni_pattern (lit " *.Example.COM ") = Ok (lit "*.example.com") /\
  validate_sni_pattern (lit "*.example.com") = Ok (lit "*.example.com").
Proof.
  assert (validate_sni_pattern (lit " *.Example.COM ") = Ok (lit "*.example.com")) as H by by vm_compute.
  split; [exact H|]. by destruct (accepted_pattern_routes _ _ 3 H) as (_ & ? & _).
Defined.

Lemma put_refuses_posted_body_witness :
  put_rule demo_posted demo_who 2 (demo_body None) 51 = (Err RuleUpdateShapeMismatch, demo_posted).
Proof.
  exact (put_refuses_posted_body demo_state demo_who (demo_body None) 16 50 1000 0 51 demo_http_rule demo_posted _ 0
    (demo_target "10.0.0.2" 443) (demo_typed None) demo_post_ok eq_refl eq_refl eq_refl).
Defined.

(** Rule 0 of [bob] with a cap, asked for with its own shape. *)
Definition demo_cap_body : RateLimitBody :=
  mkRateLimitBody (RateLimit.mkRateLimit (Some 4096) None None None None None None) None.

Definition demo_put_body : PushRuleBody :=
  match demo_bob_rule with
  | Some r =>
    mkPushRuleBody (RuleStore.client_name r) (RuleStore.listen_port r) None None None None (lit "tcp") None
      (Some [mkTargetBody (RuleStore.target_host r) (RuleStore.target_port r) None None]) None None (Some demo_cap_body)
  | None => demo_body None
  end.

Definition demo_put : Result Z ApiError * AppState := put_rule demo_state demo_who 0 demo_put_body 52.

Lemma demo_put_ok : demo_put = (Ok 0, demo_put.2).
Proof. assert (demo_put.1 = Ok 0) as H by by vm_compute. rewrite <- H. apply surjective_pairing. Qed.

Lemma put_changes_only_cap_witness :
  exists r, RuleStore.rules (RulePush.mem (push demo_put.2)) !! 0 = Some r /\
    RuleStore.rate_limit r = Some (rb_limit demo_cap_body).
Proof.
  destruct (put_changes_only_cap demo_state demo_who 0 demo_put_body 52 0 demo_put.2 demo_put_ok)
    as (r & rl & _ & _ & Hrl & Hm & _).
  exists (RuleStore.set_rate_limit rl r). split; [by rewrite Hm, lookup_insert_eq|]. cbn [RuleStore.set_rate_limit RuleStore.rate_limit].
  assert (parse_rate_limit_body (b_rate_limit demo_put_body) = Ok (Some (rb_limit demo_cap_body))) as E by by vm_compute.
  congruence.
Defined.

Lemma put_skips_version_gate_witness :
  RulePush.version_at_least (Some (lit "0.10.2")) 0 11 = false /\
  exists r, RuleStore.get (RulePush.mem (push demo_put.2)) 0 = Some r /\
    RulePush.replay_gate_reason r [Clients.Tcp] (Some (lit "0.10.2")) <> None.
Proof.
  split; [reflexivity|].
  destruct (put_skips_version_gate demo_state demo_who 0 demo_put_body 52 0 demo_put.2 demo_cap_body
    (Some (lit "0.10.2")) [Clients.Tcp] demo_put_ok eq_refl eq_refl) as (r & Hr & _ & Hg). by exists r.
Defined.

(** A snapshot of rule 0, and the revocation that takes the rule along. *)
Definition demo_snapshot : Metrics.RuleStatsSnapshot :=
  Metrics.mkSnapshot (lit "edge") (Metrics.mkReading 10 20 1 0 0 0 0 0 0 []) 9000.

Definition demo_reported : AppState :=
  set_stats demo_state
    (Metrics.set_inner Metrics.no_cache {[0 := Metrics.mkEntry demo_snapshot (fun _ => 0) (0, 0, 0) ([], 0, 0)]}, Metrics.no_metrics).

Definition demo_revoked : Result (list Z * AppState) Identity.ApiError :=
  delete_grant (fun b => b) demo_reported Identity.root_id (Some 1).

Lemma cascaded_stats_open_witness :
  match demo_revoked with
  | Ok (_, s') => exists view, get_rule_stats s' demo_stranger 0 None None = Ok view /\ sv_snapshot view = demo_snapshot
  | Err _ => False
  end /\ is_ok (get_rule_stats demo_reported demo_stranger 0 None None) = false.
Proof.
  assert (match demo_revoked with Ok (removed, _) => removed | Err _ => [] end = [0]) as Hr by by vm_compute.
  split; [|by vm_compute]. destruct demo_revoked as [[removed s']|] eqn:E; [|done]. cbn in Hr. subst removed.
  assert (exists r, RuleStore.get (RulePush.mem (push demo_reported)) 0 = Some r) as [r Hg] by (by vm_compute; eexists).
  exact (proj2 (cascaded_stats_open (fun b => b) demo_reported s' Identity.root_id [0] 0 r demo_snapshot
    (or_introl (ex_intro _ (Some 1) E)) (list_elem_of_here _ _) Hg eq_refl demo_stranger None None)).
Defined.

(** A body with a host and no port gets through every check and panics. *)
Example half_legacy_body_panics :
  post_rules demo_state demo_who
    (mkPushRuleBody (lit "edge") 9443 None (Some (lit "10.0.0.1")) None None (lit "tcp") None None None None None)
    16 50 1000 = Panics.
Proof. reflexivity. Qed.

(** A client that never told its version is given two targets by the push,
    and the replay refuses the rule. *)
Example unknown_version_gates_differ :
  gate_known true None 7 MultiTargetUnsupportedByClient = Ok tt /\
  RulePush.replay_gate_reason demo_http_rule [Clients.Tcp] None = Some (lit "multi_target_unsupported_by_client").
Proof. split; reflexivity. Qed.

End RuleHttp.
