(* ===== verification/AuditLog.v ===== *)
(** * The audit log

    [operator/audit.rs] (the entry and the ring), [store/audit_writer.rs] (the
    queue and the task that writes it to the table), [store/audit_query.rs]
    (the reads, the cursor and the pruning), [operator/audit_http.rs] (the
    endpoint) and [operator/audit_retention.rs] of [crates/portunus-server].

    The writer is a state machine that runs beside the operators' requests;
    its step relation interleaves them. Timestamps are nanoseconds; the text
    of a timestamp ([chrono]), of a JSON object ([serde_json]) and of a cursor
    ([base64]) are arguments, and what the code relies on of them are the
    fields of [Codecs]. *)

From S2P Require Import Prelude Text RouteTable Rbac.

Local Open Scope Z_scope.

Module AuditLog.

#[local] Existing Instance Rbac.OperatorRole_eq_dec.

(** ** Entries *)

Inductive AuditOutcome : Type := Allow | Deny.

#[export] Instance AuditOutcome_eq_dec : EqDecision AuditOutcome.
Proof. solve_decision. Defined.

Definition as_str (o : AuditOutcome) : list Z := match o with Allow => lit "allow" | Deny => lit "deny" end.

Definition parse (s : list Z) : option AuditOutcome :=
  if bool_decide (s = lit "allow") then Some Allow
  else if bool_decide (s = lit "deny") then Some Deny
  else None.

(** A JSON value, as far as the log looks into it: what is neither null, nor a
    string, nor an object stays as its text. *)
Inductive Json : Type := JNull | JStr (s : list Z) | JRaw (text : list Z).

Notation Object := (gmap (list Z) Json).

Inductive Value : Type := VObject (m : Object) | VOther (j : Json).

Record AuditEntry : Type := mkEntry {
  timestamp : Z;
  actor : list Z;
  role : option Rbac.OperatorRole;
  method : list Z;
  path : list Z;
  outcome : AuditOutcome;
  reason : option (list Z);
  action : option (list Z);
  resource_kind : option (list Z);
  resource_value : option (list Z);
  details : option Value;
}.

(** A row of the table [audit]. *)
Record Row : Type := mkRow {
  seq : Z;
  ts : list Z;
  user_id : option (list Z);
  outcome_text : list Z;
  action_text : list Z;
  kind : option (list Z);
  value : option (list Z);
  details_json : list Z;
}.

Record Table : Type := mkTable { rows : list Row; next_seq : Z }.

(** The order SQLite gives texts. *)
Fixpoint text_leb (a b : list Z) : bool :=
  match a, b with
  | [], _ => true
  | _ :: _, [] => false
  | x :: a, y :: b => (x <? y) || ((x =? y) && text_leb a b)
  end.

(** 9999-12-31T23:59:59.999999999Z; later years print with a sign. *)
Definition LAST_TS : Z := 253402300799999999999.
Definition ts_ok (t : Z) : Prop := 0 <= t <= LAST_TS.

(** [DateTime::to_rfc3339] and [parse_from_rfc3339], [Value::to_string] and
    [from_str] on objects, and the URL-safe base64 of bytes. *)
Class Codecs : Type := {
  rfc3339 : Z -> list Z;
  parse_rfc3339 : list Z -> option Z;
  json_text : Object -> list Z;
  json_parse : list Z -> option Value;
  b64_encode : list Z -> list Z;
  b64_decode : list Z -> option (list Z);
  rfc_order : forall a b, ts_ok a -> ts_ok b -> text_leb (rfc3339 a) (rfc3339 b) = (a <=? b);
  rfc_parse : forall t, ts_ok t -> parse_rfc3339 (rfc3339 t) = Some t;
  json_roundtrip : forall m, json_parse (json_text m) = Some (VObject m);
  b64_roundtrip : forall bs, b64_decode (b64_encode bs) = Some bs;
}.

(** ** The ring and the hand-off queue *)

Definition AUDIT_RING_CAPACITY : Z := 1000.
Definition HANDOFF_CAPACITY : Z := 1024.
Definition BATCH_MAX_ENTRIES : Z := 256.

Definition len {A} (l : list A) : Z := Z.of_nat (length l).

(** Where the writer task is: at the first [select!], in the loop that fills a
    batch, draining after the cancellation, about to write what it drained,
    returned (the receiver is gone). *)
Inductive Phase : Type := Waiting | Filling | Draining | LastFlush | Done.

#[export] Instance Phase_eq_dec : EqDecision Phase.
Proof. solve_decision. Defined.

(** [flushed] is what left the queue through a flush, with its success. *)
Record Writer : Type := mkWriter {
  queue : list AuditEntry;
  batch : list AuditEntry;
  phase : Phase;
  cancelled : bool;
  drops : Z;
  flushed : list (AuditEntry * bool);
}.

(** [Handle::record]. *)
Definition record (w : Writer) (e : AuditEntry) : Writer :=
  match phase w with
  | Done => mkWriter (queue w) (batch w) Done (cancelled w) (drops w + 1) (flushed w)
  | p =>
    if HANDOFF_CAPACITY <=? len (queue w)
    then mkWriter (queue w) (batch w) p (cancelled w) (drops w + 1) (flushed w)
    else mkWriter (queue w ++ [e]) (batch w) p (cancelled w) (drops w) (flushed w)
  end.

(** [flush], with the result of its transaction: the batch is gone either way. *)
Definition flush (w : Writer) (ok : bool) (next : Phase) : Writer :=
  mkWriter (queue w) [] next (cancelled w) (drops w) (flushed w ++ ((fun e => (e, ok)) <$> batch w)).

(** [rx.recv()] or [rx.try_recv()] of the first entry. *)
Definition receive (w : Writer) (e : AuditEntry) (q : list AuditEntry) (next : Phase) : Writer :=
  mkWriter q (batch w ++ [e]) next (cancelled w) (drops w) (flushed w).

Definition goto (w : Writer) (next : Phase) : Writer :=
  mkWriter (queue w) (batch w) next (cancelled w) (drops w) (flushed w).

Definition cancel (w : Writer) : Writer :=
  mkWriter (queue w) (batch w) (phase w) true (drops w) (flushed w).

(** What [drain_remaining] does next: stop, or take one more. *)
Definition drain_stops (w : Writer) : bool := BATCH_MAX_ENTRIES * 4 <=? len (batch w).

(** The steps of [run_writer]; the selects are biased towards the
    cancellation. The deadline may fire at any point of the filling. The
    senders live as long as the server, so the channel is not closed from
    their side; the lag gauge is left out. *)
Inductive writer_step : Writer -> Writer -> Prop :=
| w_cancelled w : phase w = Waiting -> cancelled w = true -> writer_step w (goto w Draining)
| w_first w e q : phase w = Waiting -> cancelled w = false -> queue w = e :: q ->
    writer_step w (receive w e q Filling)
| w_fill w e q : phase w = Filling -> len (batch w) < BATCH_MAX_ENTRIES -> cancelled w = false -> queue w = e :: q ->
    writer_step w (receive w e q Filling)
| w_full w ok : phase w = Filling -> BATCH_MAX_ENTRIES <= len (batch w) -> writer_step w (flush w ok Waiting)
| w_break w ok : phase w = Filling -> cancelled w = true -> writer_step w (flush w ok Waiting)
| w_deadline w ok : phase w = Filling -> cancelled w = false -> writer_step w (flush w ok Waiting)
| w_drain w e q : phase w = Draining -> drain_stops w = false -> queue w = e :: q ->
    writer_step w (receive w e q Draining)
| w_drained w : phase w = Draining -> drain_stops w = true \/ queue w = [] -> writer_step w (goto w LastFlush)
| w_return w ok : phase w = LastFlush -> writer_step w (flush w ok Done).

(** ** The ring, with the queue behind it

    The counter of the ring's evictions is the writer's counter of drops. *)

Record AuditRing : Type := mkRing {
  ring : list AuditEntry;
  evictions : Z;
  durable : Writer;
}.

Definition count_drop (w : Writer) : Writer :=
  mkWriter (queue w) (batch w) (phase w) (cancelled w) (drops w + 1) (flushed w).

Definition push (a : AuditRing) (e : AuditEntry) : AuditRing :=
  let w := record (durable a) e in
  if len (ring a) =? AUDIT_RING_CAPACITY
  then mkRing (tail (ring a) ++ [e]) (evictions a + 1) (count_drop w)
  else mkRing (ring a ++ [e]) (evictions a) w.

Definition wanted (filter : option AuditOutcome) (e : AuditEntry) : bool :=
  match filter with Some o => bool_decide (outcome e = o) | None => true end.

(** The loop of [snapshot], over the reversed ring. *)
Fixpoint snapshot_loop (limit : Z) (filter : option AuditOutcome) (q out : list AuditEntry) : list AuditEntry :=
  match q with
  | [] => out
  | e :: q =>
    if negb (wanted filter e)
    then snapshot_loop limit filter q out
    else let out := out ++ [e] in
         if len out =? limit then out else snapshot_loop limit filter q out
  end.

Definition snapshot (a : AuditRing) (limit : Z) (filter : option AuditOutcome) : list AuditEntry :=
  snapshot_loop limit filter (reverse (ring a)) [].

Section Rows.

Context `{Codecs}.

(** ** Writing a row *)

Definition role_json (r : option Rbac.OperatorRole) : Json :=
  match r with
  | Some Rbac.Superadmin => JStr (lit "superadmin")
  | Some Rbac.User => JStr (lit "user")
  | None => JNull
  end.

Definition reason_json (r : option (list Z)) : Json := match r with Some s => JStr s | None => JNull end.

(** The details of a row: the envelope, and the entry's own over it. *)
Definition details_of (e : AuditEntry) : Object :=
  let base := {[ lit "role" := role_json (role e); lit "reason" := reason_json (reason e) ]} in
  match details e with
  | Some (VObject extra) => extra ∪ base
  | _ => base
  end.

Definition row_of (n : Z) (e : AuditEntry) : Row :=
  mkRow n (rfc3339 (timestamp e)) (match actor e with [] => None | a => Some a end) (as_str (outcome e))
    (default (method e ++ lit " " ++ path e) (action e)) (resource_kind e) (resource_value e) (json_text (details_of e)).

Definition insert_row (t : Table) (e : AuditEntry) : Table :=
  mkTable (rows t ++ [row_of (next_seq t) e]) (next_seq t + 1).

(** The transaction of [flush]. *)
Definition write_batch (t : Table) (es : list AuditEntry) : Table := foldl insert_row t es.

(** The table behind a writer: what the flushes that succeeded put there. *)
Definition table_of (t : Table) (w : Writer) : Table :=
  write_batch t (filter (fun x => x.2 = true) (flushed w)).*1.

(** ** Reading a row *)

Definition split_action (a : list Z) : list Z * list Z :=
  match split_once 32 a with Some mp => mp | None => ([], a) end.

Definition json_role (j : option Json) : option Rbac.OperatorRole :=
  match j with
  | Some (JStr s) =>
    if bool_decide (s = lit "superadmin") then Some Rbac.Superadmin
    else if bool_decide (s = lit "user") then Some Rbac.User
    else None
  | _ => None
  end.

Definition json_str (j : option Json) : option (list Z) :=
  match j with Some (JStr s) => Some s | _ => None end.

Definition parse_details (s : list Z) : option Rbac.OperatorRole * option (list Z) * option Value :=
  match default (VOther JNull) (json_parse s) with
  | VObject m =>
    let rest := delete (lit "reason") (delete (lit "role") m) in
    (json_role (m !! lit "role"), json_str (m !! lit "reason"),
     if bool_decide (rest = ∅) then None else Some (VObject rest))
  | v => (None, None, Some v)
  end.

(** The row mapper of both reads; [now] is for a timestamp that does not
    parse. *)
Definition read_row (now : Z) (r : Row) : AuditEntry :=
  let '(method, path) := split_action (action_text r) in
  let '(role, reason, details) := parse_details (details_json r) in
  mkEntry (default now (parse_rfc3339 (ts r))) (default [] (user_id r)) role method path
    (default Allow (parse (outcome_text r))) reason
    (if contains_char 32 (action_text r) then None else Some (action_text r)) (kind r) (value r) details.

(** ** Queries *)

(** [ORDER BY ts DESC, seq DESC]. *)
Definition newer (a b : Row) : bool :=
  negb (text_leb (ts a) (ts b)) || (bool_decide (ts a = ts b) && (seq b <=? seq a)).

Definition outcome_is (o : option AuditOutcome) (r : Row) : bool :=
  match o with Some o => bool_decide (outcome_text r = as_str o) | None => true end.

Definition query_audit_recent (t : Table) (limit : nat) (o : option AuditOutcome) (now : Z) : list AuditEntry :=
  read_row now <$>
    take limit (stable_sort newer
      (filter (fun r => outcome_is o r = true) (rows t))).

Record AuditQuery : Type := mkQuery {
  q_limit : nat;
  q_outcome : option AuditOutcome;
  since : option Z;
  until : option Z;
  before_seq : option Z;
}.

(** The [WHERE] clause. *)
Definition selects (q : AuditQuery) (r : Row) : bool :=
  outcome_is (q_outcome q) r &&
  match since q with Some s => text_leb (rfc3339 s) (ts r) | None => true end &&
  match until q with Some u => text_leb (ts r) (rfc3339 u) | None => true end &&
  match before_seq q with Some n => seq r <? n | None => true end.

(** [i64::to_string]. *)
Definition show_i64 (z : Z) : list Z := if z <? 0 then 45 :: dec (- z) else dec z.

(** [str::parse::<i64>]. *)
Definition parse_i64 (s : list Z) : option Z :=
  match s with
  | c :: r =>
    if c =? 45
    then match r with
         | [] => None
         | _ => n ← dec_digits r 0; if n <=? - i64_min then Some (- n) else None
         end
    else parse_uint i64_max s
  | [] => None
  end.

Definition encode_cursor (n : Z) : list Z := b64_encode (as_bytes (show_i64 n)).

Definition decode_cursor (s : list Z) : option Z :=
  bytes ← b64_decode s; txt ← from_utf8 bytes; parse_i64 txt.

Record AuditPage : Type := mkPage {
  p_rows : list AuditEntry;
  next_cursor : option (list Z);
  last_seq : option Z;
}.

(** The rows of a page, and whether there are more. *)
Definition page_rows (t : Table) (q : AuditQuery) : list Row * bool :=
  let limit := Nat.max (q_limit q) 1 in
  let found := take (S limit) (stable_sort newer (filter (fun r => selects q r = true) (rows t))) in
  (take limit found, (limit <? length found)%nat).

Definition query_audit_envelope (t : Table) (q : AuditQuery) (now : Z) : AuditPage :=
  let (page, has_more) := page_rows t q in
  let last_seq := seq <$> last page in
  mkPage (read_row now <$> page) (if has_more then encode_cursor <$> last_seq else None) last_seq.

(** ** Pruning *)

Definition audit_prune_count (t : Table) (before : Z) : Z :=
  len (filter (fun r => text_leb (rfc3339 before) (ts r) = false) (rows t)).

Definition audit_prune_apply (t : Table) (before : Z) : Table * Z :=
  let kept := filter (fun r => text_leb (rfc3339 before) (ts r) = true) (rows t) in
  (mkTable kept (next_seq t), len (rows t) - len kept).

(** The subquery is the row after the [max] newest, if there is one. *)
Definition audit_prune_to_max_rows (t : Table) (max : nat) : Table * Z :=
  match stable_sort (fun a b => seq b <=? seq a) (rows t) !! max with
  | None => (t, 0)
  | Some r =>
    let kept := filter (fun x => seq x <=? seq r = false) (rows t) in
    (mkTable kept (next_seq t), len (rows t) - len kept)
  end.

Definition RETENTION : Z := 90 * 24 * 3600 * 1000000000.
Definition MAX_ROWS : nat := 50 * 1000.

(** [run_once] of the reaper. *)
Definition run_once (t : Table) (now : Z) : Table * (Z * Z) :=
  let (t, deleted_age) := audit_prune_apply t (now - RETENTION) in
  let (t, deleted_overflow) := audit_prune_to_max_rows t MAX_ROWS in
  (t, (deleted_age, deleted_overflow)).

(** ** The endpoint *)

Inductive AuditError : Type :=
| RoleRequired | InvalidLimit | InvalidOutcome | InvalidTimestamp | InvalidCursor | InvalidTimeRange.

Record AuditParams : Type := mkParams {
  p_limit : option (list Z);
  p_outcome : option (list Z);
  p_since : option (list Z);
  p_until : option (list Z);
  p_cursor : option (list Z);
}.

Inductive AuditReply : Type :=
| Entries (es : list AuditEntry)
| Envelope (es : list AuditEntry) (cursor : option (list Z)) (count : nat).

Definition parse_limit (raw : option (list Z)) : Result nat AuditError :=
  match raw with
  | None => Ok 100%nat
  | Some raw =>
    match parse_uint u64_max raw with
    | None => Err InvalidLimit
    | Some n => if (1 <=? n) && (n <=? 1000) then Ok (Z.to_nat n) else Err InvalidLimit
    end
  end.

(** An absent parameter is none; a present one has to parse. *)
Definition optional {A} (f : list Z -> option A) (e : AuditError) (raw : option (list Z)) :
  Result (option A) AuditError :=
  match raw with
  | None => Ok None
  | Some raw => match f raw with Some x => Ok (Some x) | None => Err e end
  end.

Definition get_audit (t : Table) (identity : Rbac.OperatorIdentity) (p : AuditParams) (now : Z) :
  Result AuditReply AuditError :=
  let? _ := if bool_decide (Rbac.role identity = Rbac.Superadmin) then Ok tt else Err RoleRequired in
  let? limit := parse_limit (p_limit p) in
  let? o := optional parse InvalidOutcome (p_outcome p) in
  let? s := optional parse_rfc3339 InvalidTimestamp (p_since p) in
  let? u := optional parse_rfc3339 InvalidTimestamp (p_until p) in
  let? b := optional decode_cursor InvalidCursor (p_cursor p) in
  let? _ := match s, u with
            | Some s, Some u => if u <? s then Err InvalidTimeRange else Ok tt
            | _, _ => Ok tt
            end in
  match s, u, b with
  | None, None, None => Ok (Entries (query_audit_recent t limit o now))
  | _, _, _ =>
    let page := query_audit_envelope t (mkQuery limit o s u b) now in
    Ok (Envelope (p_rows page) (next_cursor page) (length (p_rows page)))
  end.

End Rows.
(** ** The writer beside its requests *)

Definition accepts (w : Writer) : bool := negb (bool_decide (phase w = Done)) && (len (queue w) <? HANDOFF_CAPACITY).

(** The writer, the entries it accepted, and the number it was given. *)
Record Sys : Type := mkSys { writer : Writer; accepted : list AuditEntry; given : Z }.

Inductive step : Sys -> Sys -> Prop :=
| s_record s e :
    step s (mkSys (record (writer s) e) (if accepts (writer s) then accepted s ++ [e] else accepted s) (given s + 1))
| s_cancel s : step s (mkSys (cancel (writer s)) (accepted s) (given s))
| s_writer s w : writer_step (writer s) w -> step s (mkSys w (accepted s) (given s)).

Definition start_writer : Writer := mkWriter [] [] Waiting false 0 [].
Definition start_sys : Sys := mkSys start_writer [] 0.

(** What the batch may hold in each phase. *)
Definition batch_ok (w : Writer) : Prop :=
  match phase w with
  | Waiting | Done => batch w = []
  | Filling => 1 <= len (batch w) <= BATCH_MAX_ENTRIES
  | Draining | LastFlush => len (batch w) <= BATCH_MAX_ENTRIES * 4 /\ cancelled w = true
  end.

Record inv (s : Sys) : Prop := mkInv {
  i_order : accepted s = (flushed (writer s)).*1 ++ batch (writer s) ++ queue (writer s);
  i_count : given s = len (accepted s) + drops (writer s);
  i_queue : len (queue (writer s)) <= HANDOFF_CAPACITY;
  i_batch : batch_ok (writer s);
}.

Lemma len_app {A} (a b : list A) : len (a ++ b) = len a + len b.
Proof. unfold len. rewrite length_app. lia. Qed.

Lemma len_cons {A} (x : A) (l : list A) : len (x :: l) = len l + 1.
Proof. unfold len. simpl. lia. Qed.

Lemma len_nonneg {A} (l : list A) : 0 <= len l.
Proof. unfold len. lia. Qed.

Lemma record_spec w e :
  record w e =
    if accepts w then mkWriter (queue w ++ [e]) (batch w) (phase w) (cancelled w) (drops w) (flushed w)
    else mkWriter (queue w) (batch w) (phase w) (cancelled w) (drops w + 1) (flushed w).
Proof.
  unfold record, accepts. rewrite Z.leb_antisym. destruct (phase w); simpl; by destruct (len (queue w) <? HANDOFF_CAPACITY).
Qed.

Lemma fst_flag (ok : bool) (es : list AuditEntry) : ((fun e => (e, ok)) <$> es).*1 = es.
Proof. rewrite <- list_fmap_compose. apply list_fmap_id. Qed.

(** The flushes and the receptions keep the order of what was accepted. *)
Lemma writer_step_order w w' :
  writer_step w w' ->
  (flushed w').*1 ++ batch w' ++ queue w' = (flushed w).*1 ++ batch w ++ queue w /\ drops w' = drops w /\
  len (queue w') <= len (queue w) /\ cancelled w' = cancelled w.
Proof.
  destruct 1; simpl; rewrite ?fmap_app, ?fst_flag, ?app_nil_l, <- ?app_assoc;
    repeat match goal with Hq : queue _ = _ :: _ |- _ => rewrite Hq; clear Hq end;
    split_and!; try done; rewrite ?(len_cons e q); lia.
Qed.

Lemma writer_step_batch w w' : batch_ok w -> writer_step w w' -> batch_ok w'.
Proof.
  unfold batch_ok. intros Hb Hs.
  destruct Hs; unfold drain_stops, BATCH_MAX_ENTRIES in *; simpl; repeat match goal with Hp : phase _ = _ |- _ => rewrite Hp in * end; try done.
  - by rewrite Hb.
  - rewrite Hb. by vm_compute.
  - rewrite len_app, len_cons. change (len []) with 0. lia.
  - rewrite len_app, len_cons. change (len []) with 0. destruct Hb. split; [|done].
    match goal with Hx : _ = false |- _ => apply Z.leb_gt in Hx; lia end.
Qed.

Lemma audit_inv_step s s' : step s s' -> inv s -> inv s'.
Proof.
  intros Hs [Ho Hc Hq Hb]. destruct Hs as [s e|s|s w Hw].
  - rewrite record_spec. unfold accepts in *. destruct (_ && _) eqn:E; split; simpl; try done.
    + by rewrite Ho, <- !app_assoc.
    + rewrite len_app. unfold len at 2. simpl. lia.
    + apply andb_true_iff in E as [_ E%Z.ltb_lt]. rewrite len_app. unfold len at 2. simpl. lia.
    + lia.
  - split; simpl; try done. unfold batch_ok in *. simpl. by destruct (phase (writer s)); naive_solver.
  - destruct (writer_step_order _ _ Hw) as (He & Hd & Hl & _).
    split; simpl; [by rewrite He|lia|lia|by eapply writer_step_batch].
Qed.

Lemma audit_start_inv : inv start_sys.
Proof. by split. Qed.

(** ** The shutdown *)

Definition rank (p : Phase) : Z := match p with Filling => 4 | Waiting => 3 | Draining => 2 | LastFlush => 1 | Done => 0 end.

Definition work (w : Writer) : Z := len (queue w) + rank (phase w).

Lemma cancelled_step_works w w' : writer_step w w' -> cancelled w = true -> work w' < work w.
Proof.
  intros Hs Hc. unfold work. destruct Hs; simpl; try congruence;
    repeat match goal with Hx : phase _ = _ |- _ => rewrite Hx | Hq : queue _ = _ :: _ |- _ => rewrite Hq end;
    unfold len; simpl; lia.
Qed.

Lemma cancelled_progress w : cancelled w = true -> phase w <> Done -> exists w', writer_step w w'.
Proof.
  intros Hc Hp. destruct (phase w) eqn:E; try done.
  - eexists. by apply w_cancelled.
  - eexists. by apply (w_break w true).
  - destruct (drain_stops w) eqn:Es; [eexists; apply w_drained; auto|].
    destruct (queue w) as [|e q] eqn:Eq; [eexists; apply w_drained; auto|eexists; by eapply w_drain].
  - eexists. by apply (w_return w true).
Qed.

(** With nothing recorded meanwhile, the drain takes everything: the queue
    holds at most what the drain may take. *)
Definition drains_all (w : Writer) : Prop :=
  match phase w with
  | Waiting | Filling => len (queue w) <= HANDOFF_CAPACITY
  | Draining => len (batch w) + len (queue w) <= HANDOFF_CAPACITY
  | LastFlush | Done => queue w = []
  end.

Lemma drains_all_step w w' : writer_step w w' -> batch_ok w -> cancelled w = true -> drains_all w -> drains_all w'.
Proof.
  unfold drains_all, batch_ok. intros Hs Hb Hc Hd.
  destruct Hs; unfold drain_stops, BATCH_MAX_ENTRIES, HANDOFF_CAPACITY in *; simpl; repeat match goal with Hp : phase _ = _ |- _ => rewrite Hp in * end; try done; try congruence.
  - rewrite Hb. unfold len at 1. simpl. lia.
  - rewrite len_app. repeat match goal with Hq : queue _ = _ :: _ |- _ => rewrite Hq in * end.
    unfold len in *. simpl in *. lia.
  - destruct (queue w) as [|e q]; [done|]. exfalso. unfold len in *. simpl in Hd.
    match goal with Hx : _ \/ _ |- _ => destruct Hx as [Hx%Z.leb_le|Hx]; [lia|done] end.
Qed.

(** ** Theorems *)


(** A shutdown writes what was accepted: once cancelled, and with no further
    requests, the writer stops after a bounded number of steps, cannot stop
    before it returned, and has then put every accepted entry through a
    flush, in order. *)
Theorem audit_shutdown_drains (s : Sys) (k : nat) (w : Writer) :
  rtc step start_sys s -> cancelled (writer s) = true ->
  phase (writer s) = Waiting \/ phase (writer s) = Filling ->
  nsteps writer_step k (writer s) w ->
  Z.of_nat k <= work (writer s) /\
  ((forall w', ~ writer_step w w') ->
   phase w = Done /\ queue w = [] /\ (flushed w).*1 = accepted s).
Proof.
  intros Hr Hc Hp Hn. destruct (rtc_preserves _ _ _ _ audit_inv_step Hr audit_start_inv) as [Ho _ Hq Hb].
  assert (Hd : drains_all (writer s)) by (unfold drains_all; by destruct Hp as [->| ->]).
  rewrite Ho. clear Ho Hq Hp Hr. induction Hn as [w|k w1 w2 w3 Hs Hn IH].
  - split; [unfold work, rank, len; destruct (phase w); lia|]. intros Hstuck.
    destruct (decide (phase w = Done)) as [E|E]; [|by destruct (cancelled_progress _ Hc E) as [w' ?%Hstuck]].
    unfold drains_all in Hd. unfold batch_ok in Hb. rewrite E in Hd, Hb. by rewrite Hd, Hb, !app_nil_r.
  - pose proof (cancelled_step_works _ _ Hs Hc). destruct (writer_step_order _ _ Hs) as (He & _ & _ & Hc').
    rewrite <- He. destruct IH as [IHk IHd]; [congruence|by eapply writer_step_batch|by eapply drains_all_step|].
    split; [lia|done].
Qed.
(** The log can lose an entry without a trace: an entry that is recorded after
    the drain saw an empty queue and before the task returned is accepted, not
    counted, and never written, whatever happens afterwards. *)
Theorem audit_late_entry_vanishes (w : Writer) (e : AuditEntry) (ok : bool) (acc : list AuditEntry) (n : Z) :
  phase w = LastFlush -> queue w = [] ->
  let w' := flush (record w e) ok Done in
  writer_step (record w e) w' /\ drops w' = drops w /\
  forall s, rtc step (mkSys w' acc n) s -> flushed (writer s) = flushed w' /\ e ∈ queue (writer s).
Proof.
  intros Hp Hq w'.
  assert (Hr : record w e = mkWriter [e] (batch w) LastFlush (cancelled w) (drops w) (flushed w)).
  { rewrite record_spec. unfold accepts. by rewrite Hp, Hq. }
  split; [apply w_return; by rewrite Hr|]. split; [unfold w'; by rewrite Hr|]. intros s Hs.
  set (P := fun s : Sys => phase (writer s) = Done /\ flushed (writer s) = flushed w' /\ e ∈ queue (writer s)).
  assert (Hstep : forall s1 s2, step s1 s2 -> P s1 -> P s2).
  { intros s1 s2 Hst (Hd & Hf & He). destruct Hst as [s1 x|s1|s1 w1 Hw]; unfold P; simpl; [|done|].
    - rewrite record_spec. unfold accepts. by rewrite Hd.
    - destruct Hw; congruence. }
  assert (P s) as (_ & ? & ?); [|done]. apply (rtc_preserves _ _ _ _ Hstep Hs).
  unfold P, w'. rewrite Hr. split_and!; [done|done|]. apply list_elem_of_here.
Qed.

(** *** The ring *)

Lemma len_tail {A} (l : list A) : l <> [] -> len (tail l) = len l - 1.
Proof. destruct l; [done|]. intros _. simpl. rewrite len_cons. lia. Qed.

Lemma ring_push a e :
  len (ring a) <= AUDIT_RING_CAPACITY ->
  ring (push a e) = (if len (ring a) =? AUDIT_RING_CAPACITY then tail (ring a) else ring a) ++ [e] /\
  len (ring (push a e)) <= AUDIT_RING_CAPACITY.
Proof.
  unfold push. intros Hl. destruct (_ =? _) eqn:E; simpl; (split; [done|]); rewrite len_app, len_cons; change (len []) with 0.
  - apply Z.eqb_eq in E. rewrite len_tail by (intros Hn; rewrite Hn in E; by vm_compute in E). lia.
  - apply Z.eqb_neq in E. lia.
Qed.

Lemma snapshot_loop_spec limit f q out :
  1 <= limit -> len out < limit ->
  snapshot_loop limit f q out =
    take (Z.to_nat limit) (out ++ filter (fun e => wanted f e = true) q).
Proof.
  intros H1. revert out. induction q as [|e q IH]; intros out Hl; simpl.
  - rewrite app_nil_r, take_ge; [done|]. unfold len in Hl. lia.
  - rewrite filter_cons. destruct (wanted f e); simpl; [|by apply IH].
    destruct (len (out ++ [e]) =? limit) eqn:E.
    + apply Z.eqb_eq in E. symmetry.
      match goal with |- take _ (_ ++ _ :: ?x) = _ => change (e :: x) with ([e] ++ x) end.
      rewrite (app_assoc out). apply take_app_length'. unfold len in E. lia.
    + apply Z.eqb_neq in E. rewrite IH; [by rewrite <- app_assoc|]. rewrite len_app in *. unfold len in *. simpl in *. lia.
Qed.

(** The ring holds the last thousand entries in order and counts the rest. *)
Definition ring_of (es : list AuditEntry) : list AuditEntry := drop (length es - Z.to_nat AUDIT_RING_CAPACITY) es.
Definition empty_ring : AuditRing := mkRing [] 0 start_writer.

Lemma ring_of_snoc es e :
  ring_of (es ++ [e]) = (if len (ring_of es) =? AUDIT_RING_CAPACITY then tail (ring_of es) else ring_of es) ++ [e].
Proof.
  unfold ring_of. set (c := Z.to_nat AUDIT_RING_CAPACITY). assert (Hc : (1 <= c)%nat) by (unfold c, AUDIT_RING_CAPACITY; lia).
  rewrite length_app. cbn [length].
  assert (Hl : len (drop (length es - c) es) = Z.of_nat (length es - (length es - c))) by (unfold len; by rewrite length_drop).
  destruct (_ =? _) eqn:E.
  - apply Z.eqb_eq in E. rewrite Hl in E. assert (length es - (length es - c) = c)%nat as Ek by (unfold c; lia).
    replace (length es + 1 - c)%nat with (S (length es - c)) by lia.
    rewrite drop_app_le by lia. f_equal.
    destruct (drop (length es - c) es) as [|x l] eqn:Ed; [apply (f_equal length) in Ed; rewrite length_drop in Ed; simpl in Ed; lia|].
    change (S (length es - c)) with (1 + (length es - c))%nat. by rewrite Nat.add_comm, <- drop_drop, Ed.
  - apply Z.eqb_neq in E. rewrite Hl in E. assert (length es < c)%nat by (unfold c in *; lia).
    replace (length es + 1 - c)%nat with 0%nat by lia. replace (length es - c)%nat with 0%nat by lia. done.
Qed.

(** The ring keeps the newest thousand entries in order, and counts every
    entry that fell out; its snapshot is the newest [limit] of an outcome,
    newest first. *)
Theorem audit_ring_exact (es : list AuditEntry) (limit : Z) (f : option AuditOutcome) :
  1 <= limit ->
  let a := foldl push empty_ring es in
  ring a = ring_of es /\ evictions a = Z.max 0 (len es - AUDIT_RING_CAPACITY) /\
  snapshot a limit f =
    take (Z.to_nat limit)
      (filter (fun e => wanted f e = true) (reverse (ring_of es))).
Proof.
  intros Hl a.
  assert (ring a = ring_of es /\ evictions a = Z.max 0 (len es - AUDIT_RING_CAPACITY)) as [Hr He].
  { unfold a. induction es as [|e es IH] using rev_ind; [done|]. rewrite foldl_app. cbn [foldl].
    destruct IH as [IHr IHe]. unfold push at 1 3. rewrite !IHr, !IHe, ring_of_snoc, len_app, len_cons. change (len []) with 0.
    assert (len (ring_of es) = Z.min (len es) AUDIT_RING_CAPACITY) as Hlen.
    { unfold ring_of, len. rewrite length_drop. unfold AUDIT_RING_CAPACITY. lia. }
    destruct (_ =? _) eqn:E; simpl; (split; [done|]); [apply Z.eqb_eq in E|apply Z.eqb_neq in E]; lia. }
  split_and!; [done|done|]. unfold snapshot. rewrite Hr, snapshot_loop_spec; [done|done|]. unfold len. simpl. lia.
Qed.

(** The drop counter cries wolf: once the ring is full, an entry the writer
    accepts is still counted as dropped, because the ring's evictions are
    counted on the writer's counter. *)
Theorem audit_counter_counts_kept (a : AuditRing) (e : AuditEntry) :
  len (ring a) = AUDIT_RING_CAPACITY -> accepts (durable a) = true ->
  let a' := push a e in
  queue (durable a') = queue (durable a) ++ [e] /\ drops (durable a') = drops (durable a) + 1.
Proof.
  intros Hf Ha. unfold push. rewrite Hf, Z.eqb_refl, record_spec, Ha. done.
Qed.
(** ** Rows *)

Section RowTheorems.

Context `{Codecs}.

Definition ROLE : list Z := lit "role".
Definition REASON : list Z := lit "reason".

(** Entries whose row says everything: a request (its method has no space) or
    an event that is its own path, and details that are an object with keys of
    their own. *)
Definition plain_action (e : AuditEntry) : Prop :=
  (action e = None /\ 32 ∉ method e) \/
  (exists a, action e = Some a /\ 32 ∉ a /\ method e = [] /\ path e = a).

Definition plain_details (e : AuditEntry) : Prop :=
  details e = None \/
  exists m, details e = Some (VObject m) /\ m <> ∅ /\ m !! ROLE = None /\ m !! REASON = None.

Lemma role_json_roundtrip r : json_role (Some (role_json r)) = r.
Proof. by destruct r as [[|]|]. Qed.

Lemma reason_json_roundtrip r : json_str (Some (reason_json r)) = r.
Proof. by destruct r. Qed.

Lemma details_roundtrip e :
  plain_details e -> parse_details (json_text (details_of e)) = (role e, reason e, details e).
Proof.
  intros Hd. unfold parse_details, details_of. rewrite json_roundtrip. cbn [default from_option id].
  set (base := {[ _ := _; _ := _ ]}). assert (lit "role" <> lit "reason") as Hne by done.
  assert (Hr : base !! lit "role" = Some (role_json (role e))) by (unfold base; apply lookup_insert_eq).
  assert (Hs : base !! lit "reason" = Some (reason_json (reason e)))
    by (unfold base; rewrite lookup_insert_ne by done; apply lookup_singleton_eq).
  destruct Hd as [Hd|(m & Hd & Hne' & Hmr & Hms)]; rewrite Hd.
  - rewrite Hr, Hs, role_json_roundtrip, reason_json_roundtrip, bool_decide_eq_true_2; [done|].
    apply map_eq. intros k. rewrite lookup_empty. unfold base.
    destruct (decide (k = lit "reason")) as [->|Hk]; [apply lookup_delete_eq|]. rewrite lookup_delete_ne by done.
    destruct (decide (k = lit "role")) as [->|Hk']; [apply lookup_delete_eq|]. rewrite lookup_delete_ne by done.
    rewrite lookup_insert_ne by done. by apply lookup_singleton_ne.
  - rewrite !lookup_union_r, Hr, Hs, role_json_roundtrip, reason_json_roundtrip by done.
    assert (delete (lit "reason") (delete (lit "role") (m ∪ base)) = m) as ->; [|by rewrite bool_decide_eq_false_2].
    apply map_eq. intros k.
    destruct (decide (k = lit "reason")) as [->|Hk]; [by rewrite lookup_delete_eq|]. rewrite lookup_delete_ne by done.
    destruct (decide (k = lit "role")) as [->|Hk']; [by rewrite lookup_delete_eq|]. rewrite lookup_delete_ne by done.
    assert (base !! k = None) by (unfold base; rewrite lookup_insert_ne by done; by apply lookup_singleton_ne).
    destruct (m !! k) as [v|] eqn:Em; [by apply lookup_union_Some_l|]. by rewrite lookup_union_r.
Qed.

Lemma action_roundtrip e :
  plain_action e ->
  let a := default (method e ++ lit " " ++ path e) (action e) in
  split_action a = (method e, path e) /\ (if contains_char 32 a then None else Some a) = action e.
Proof.
  unfold split_action. intros [[Ha Hm]|(a & Ha & Hn & Hm & Hp)]; rewrite Ha; cbn [default from_option id].
  - change (lit " " ++ path e) with (32 :: path e). rewrite (proj2 (split_once_spec _ _ _ _) (conj eq_refl Hm)). split; [done|].
    assert (contains_char 32 (method e ++ 32 :: path e) = true) as ->; [|done].
    apply RouteTable.contains_char_spec, elem_of_app. right. apply list_elem_of_here.
  - rewrite split_once_none by done. rewrite Hm, Hp. split; [done|].
    destruct (contains_char 32 a) eqn:E; [by apply RouteTable.contains_char_spec in E|done].
Qed.

(** A flush adds the rows of its batch, or, when its transaction failed, none. *)
Lemma table_of_flush t w ok next :
  table_of t (flush w ok next) = write_batch (table_of t w) (if ok then batch w else []).
Proof.
  unfold table_of, write_batch. cbn [flush flushed]. rewrite filter_app, fmap_app, foldl_app. f_equal.
  destruct ok; induction (batch w) as [|e es IH]; cbn [fmap list_fmap]; try done.
  rewrite filter_cons_True by done. cbn [fmap list_fmap fst]. by rewrite IH.
Qed.

(** What is read back is what was logged: for a request, or an event that is
    its own path, with details of its own, the row of an entry gives the entry
    back, whatever its number and the time of the reading. *)
Theorem audit_row_roundtrip (e : AuditEntry) (n now : Z) :
  ts_ok (timestamp e) -> plain_action e -> plain_details e -> read_row now (row_of n e) = e.
Proof.
  intros Ht Ha Hd. unfold read_row, row_of. cbn [action_text details_json ts user_id outcome_text kind value].
  destruct (action_roundtrip e Ha) as [Hs Hc]. rewrite Hs, (details_roundtrip e Hd), Hc, (rfc_parse _ Ht).
  assert (parse (as_str (outcome e)) = Some (outcome e)) as -> by (by destruct (outcome e)).
  destruct e as [t act ro me pa ou re ac ki va de]. cbn in *. by destruct act.
Qed.

(** An event with a request of its own loses it: a row holds the action in
    the place of the request, and reads back with the action as its path and
    no method. *)
Theorem audit_event_loses_request (e : AuditEntry) (a : list Z) (n now : Z) :
  action e = Some a -> 32 ∉ a ->
  method (read_row now (row_of n e)) = [] /\ path (read_row now (row_of n e)) = a.
Proof.
  intros Ha Hn. unfold read_row, row_of. cbn [action_text details_json]. rewrite Ha. cbn [default from_option id].
  unfold split_action. rewrite split_once_none by done. by destruct (parse_details _) as [[? ?] ?].
Qed.


(** *** Order of the rows *)

(** A table whose rows were numbered in the order of their timestamps. *)
Definition in_order (a b : Row) : Prop := seq a < seq b /\ text_leb (ts a) (ts b) = true.
Definition chronological (t : Table) : Prop := StronglySorted in_order (rows t).
Definition numbered (t : Table) : Prop := StronglySorted (fun a b => seq a < seq b) (rows t).

Lemma insert_sorted_last {A} (le : A -> A -> bool) x l :
  Forall (fun y => le x y = false) l -> insert_sorted le x l = l ++ [x].
Proof. induction 1 as [|y l Hy _ IH]; simpl; [done|]. by rewrite Hy, IH. Qed.

(** Sorting a list that is the wrong way round reverses it. *)
Lemma stable_sort_reverse {A} (le : A -> A -> bool) l :
  StronglySorted (fun a b => le a b = false) l -> stable_sort le l = reverse l.
Proof.
  induction 1 as [|x l _ IH Hx]; simpl; [done|]. rewrite IH, reverse_cons, insert_sorted_last; [done|].
  by apply Forall_reverse.
Qed.

Lemma StronglySorted_impl {A} (R S : A -> A -> Prop) l :
  (forall a b, R a b -> S a b) -> StronglySorted R l -> StronglySorted S l.
Proof. intros HRS. induction 1 as [|x l _ IH Hx]; constructor; [done|]. eapply Forall_impl; eauto. Qed.

Lemma StronglySorted_filter_sub {A} (R : A -> A -> Prop) (P : A -> Prop) `{forall x, Decision (P x)} l :
  StronglySorted R l -> StronglySorted R (filter P l).
Proof.
  induction 1 as [|x l _ IH Hx]; [constructor|]. rewrite filter_cons. case_decide; [|done]. constructor; [done|].
  rewrite Forall_forall in *. intros y [_ Hy]%list_elem_of_filter. auto.
Qed.

Lemma chronological_numbered t : chronological t -> numbered t.
Proof. apply StronglySorted_impl. by intros a b [? _]. Qed.

Lemma newest_first l : StronglySorted in_order l -> stable_sort newer l = reverse l.
Proof.
  intros Hl. apply stable_sort_reverse. eapply StronglySorted_impl; [|exact Hl]. intros a b [Hs Ht]. unfold newer.
  rewrite Ht, (proj2 (Z.leb_gt _ _)) by lia. by rewrite andb_false_r.
Qed.

Lemma by_number l : StronglySorted (fun a b => seq a < seq b) l -> stable_sort (fun a b => seq b <=? seq a) l = reverse l.
Proof.
  intros Hl. apply stable_sort_reverse. eapply StronglySorted_impl; [|exact Hl]. intros a b Hs. by apply Z.leb_gt.
Qed.

(** Where a list that is sorted by number is cut at one of its rows. *)
Lemma sorted_app_inv {A} (R : A -> A -> Prop) l1 x l2 :
  StronglySorted R (l1 ++ x :: l2) -> Forall (fun y => R y x) l1 /\ Forall (R x) l2.
Proof.
  induction l1 as [|y l1 IH]; simpl; intros Hs.
  - by apply StronglySorted_inv in Hs as [_ ?].
  - apply StronglySorted_inv in Hs as [Hs Hy]. destruct (IH Hs) as [? ?]. split; [|done]. constructor; [|done].
    apply Forall_app in Hy as [_ Hy]. by apply Forall_cons in Hy as [? _].
Qed.

Lemma filter_all {A} (P : A -> Prop) `{forall x, Decision (P x)} l : Forall P l -> filter P l = l.
Proof. induction 1 as [|x l Hx _ IH]; [done|]. by rewrite filter_cons_True, IH. Qed.

Lemma filter_none {A} (P : A -> Prop) `{forall x, Decision (P x)} l : Forall (fun x => ~ P x) l -> filter P l = [].
Proof. induction 1 as [|x l Hx _ IH]; [done|]. by rewrite filter_cons_False. Qed.

(** *** Retention *)

Lemma prune_to_max_spec t max :
  numbered t ->
  rows (audit_prune_to_max_rows t max).1 = drop (length (rows t) - max) (rows t) /\
  (audit_prune_to_max_rows t max).2 = len (rows t) - len (drop (length (rows t) - max) (rows t)) /\
  next_seq (audit_prune_to_max_rows t max).1 = next_seq t.
Proof.
  intros Hn. unfold audit_prune_to_max_rows. rewrite (by_number _ Hn).
  destruct (reverse (rows t) !! max) as [r|] eqn:Er; simpl.
  - pose proof (lookup_lt_Some _ _ _ Er) as Hl. rewrite length_reverse in Hl.
    rewrite reverse_lookup in Er by done.
    assert (Hc : rows t = take (length (rows t) - S max) (rows t) ++ r :: drop (length (rows t) - max) (rows t)).
    { rewrite <- (take_drop (length (rows t) - S max) (rows t)) at 1. f_equal.
      replace (length (rows t) - max)%nat with (S (length (rows t) - S max)) by lia. by apply drop_S. }
    unfold numbered in Hn. rewrite Hc in Hn. apply sorted_app_inv in Hn as [H1 H2].
    assert (filter (fun x => (seq x <=? seq r) = false) (rows t) = drop (length (rows t) - max) (rows t)) as ->; [|done].
    rewrite Hc at 1. rewrite filter_app, filter_none, filter_cons_False, filter_all; [done| | |].
    + eapply Forall_impl; [exact H2|]. intros x Hx. apply Z.leb_gt. exact Hx.
    + rewrite Z.leb_refl. done.
    + eapply Forall_impl; [exact H1|]. intros x Hx. rewrite (proj2 (Z.leb_le _ _)) by (cbn in Hx; lia). done.
  - apply lookup_ge_None in Er. rewrite length_reverse in Er.
    replace (length (rows t) - max)%nat with 0%nat by lia. rewrite drop_0. split_and!; [done|lia|done].
Qed.

(** One sweep of the reaper leaves exactly the newest fifty thousand of the
    rows that are not older than ninety days, in their order, and says how
    many it took for either reason; numbers are never given out again. *)
Theorem audit_retention_exact (t : Table) (now : Z) :
  numbered t ->
  let fresh := filter (fun r => text_leb (rfc3339 (now - RETENTION)) (ts r) = true) (rows t) in
  let t' := (run_once t now).1 in
  rows t' = drop (length fresh - MAX_ROWS) fresh /\
  (run_once t now).2 = (len (rows t) - len fresh, len fresh - len (rows t')) /\ next_seq t' = next_seq t /\
  (ts_ok (now - RETENTION) -> forall r time, r ∈ rows t' -> ts_ok time -> ts r = rfc3339 time -> now - RETENTION <= time).
Proof.
  intros Hn fresh t'. unfold t', run_once, audit_prune_apply. fold fresh.
  destruct (prune_to_max_spec (mkTable fresh (next_seq t)) MAX_ROWS) as (Hr & Hc & Hs).
  { by apply StronglySorted_filter_sub. }
  destruct (audit_prune_to_max_rows (mkTable fresh (next_seq t)) MAX_ROWS) as [t2 d]. cbn [fst snd rows next_seq] in *.
  rewrite Hr, Hc. split_and!; try done. intros Hok r time Hin Htime Hts.
  assert (Hf : r ∈ fresh) by (rewrite <- (take_drop (length fresh - MAX_ROWS) fresh); apply elem_of_app; by right).
  apply list_elem_of_filter in Hf as [Hf _]. clear Hin. rename Hf into Hin.
  rewrite Hts, rfc_order in Hin by done. by apply Z.leb_le.
Qed.

(** *** Pages *)

Definition with_cursor (q : AuditQuery) (n : Z) : AuditQuery :=
  mkQuery (q_limit q) (q_outcome q) (since q) (until q) (Some n).

(** A reader that follows the cursors. *)
Fixpoint walk (fuel : nat) (t : Table) (q : AuditQuery) (now : Z) : list AuditEntry :=
  match fuel with
  | O => []
  | S fuel =>
    let page := query_audit_envelope t q now in
    p_rows page ++
      match next_cursor page ≫= decode_cursor with
      | Some n => walk fuel t (with_cursor q n) now
      | None => []
      end
  end.

Lemma cursor_roundtrip n : 0 <= n <= i64_max -> decode_cursor (encode_cursor n) = Some n.
Proof.
  intros Hn. unfold decode_cursor, encode_cursor, show_i64. rewrite b64_roundtrip, (proj2 (Z.ltb_ge n 0)) by lia.
  cbn [mbind option_bind]. rewrite from_utf8_as_bytes.
  2: { eapply Forall_impl; [apply dec_digit|]. intros c Hc. unfold is_ascii_digit, is_scalar in *. bool_prop.
       apply orb_true_iff. left. apply andb_true_iff. split; [apply Z.leb_le|apply Z.ltb_lt]; lia. }
  cbn [mbind option_bind]. unfold parse_i64. pose proof (dec_digit n) as Hd. pose proof (parse_uint_dec i64_max n Hn) as Hp.
  destruct (dec n) as [|c r]; [done|]. apply Forall_cons in Hd as [Hc _].
  rewrite (proj2 (Z.eqb_neq c 45)); [done|]. intros ->. done.
Qed.

(** What a query with a cursor selects of what the query before it did. *)
Lemma selects_cursor q r r0 :
  selects q r0 = true ->
  selects (with_cursor q (seq r0)) r = true <-> selects q r = true /\ seq r < seq r0.
Proof.
  unfold selects, with_cursor. cbn [q_outcome since until before_seq]. rewrite !andb_true_iff, Z.ltb_lt.
  intros [_ Hb]. split; [|naive_solver]. intros [[[? ?] ?] Hl]. split_and!; try done.
  destruct (before_seq q) as [n|]; [|done]. apply Z.ltb_lt in Hb. apply Z.ltb_lt. lia.
Qed.

Lemma page_rows_in_order t q :
  chronological t ->
  let found := filter (fun r => selects q r = true) (rows t) in
  let limit := Nat.max (q_limit q) 1 in
  page_rows t q = (take limit (reverse found), (limit <? length found)%nat).
Proof.
  intros Hc found limit. unfold page_rows. fold found limit. rewrite newest_first by (by apply StronglySorted_filter_sub).
  rewrite take_take, length_take, length_reverse. replace (Nat.min limit (S limit)) with limit by lia. f_equal.
  destruct (limit <? length found)%nat eqn:E; [apply Nat.ltb_lt in E; apply Nat.ltb_lt; lia|].
  apply Nat.ltb_ge in E. apply Nat.ltb_ge. lia.
Qed.

Lemma next_page_rows t q r0 S P :
  chronological t -> filter (fun r => selects q r = true) (rows t) = S ++ r0 :: P ->
  filter (fun r => selects (with_cursor q (seq r0)) r = true) (rows t) = S.
Proof.
  intros Hc Hf.
  assert (Hs : selects q r0 = true).
  { assert (r0 ∈ filter (fun r => selects q r = true) (rows t)) as [? _]%list_elem_of_filter; [|done].
    rewrite Hf. apply elem_of_app. right. apply list_elem_of_here. }
  rewrite (list_filter_iff _ (fun r => seq r < seq r0 /\ selects q r = true)) by (intros r; rewrite selects_cursor by done; tauto).
  rewrite <- list_filter_filter, Hf.
  assert (Hn : StronglySorted (fun a b => seq a < seq b) (S ++ r0 :: P)).
  { rewrite <- Hf. apply StronglySorted_filter_sub. by apply chronological_numbered. }
  apply sorted_app_inv in Hn as [H1 H2]. rewrite filter_app, filter_all, filter_none; [by rewrite app_nil_r| |done].
  constructor; [lia|]. eapply Forall_impl; [exact H2|]. cbn. intros. lia.
Qed.

(** C34. Following the cursors gives every selected row exactly once, newest
    first, whatever the size of the pages, on a table whose rows were numbered
    in the order of their timestamps. *)
Theorem audit_pages_complete (t : Table) (q : AuditQuery) (now : Z) (fuel : nat) :
  chronological t -> Forall (fun r => 0 <= seq r <= i64_max) (rows t) -> (length (rows t) < fuel)%nat ->
  walk fuel t q now = read_row now <$> reverse (filter (fun r => selects q r = true) (rows t)).
Proof.
  intros Hc Hseq Hfuel.
  assert (Hlen : (length (filter (fun r => selects q r = true) (rows t)) < fuel)%nat)
    by (pose proof (length_filter (fun r => selects q r = true) (rows t)); lia).
  clear Hfuel. revert q Hlen. induction fuel as [|fuel IH]; intros q Hlen; [lia|]. cbn [walk].
  unfold query_audit_envelope. rewrite page_rows_in_order by done.
  set (found := filter _ (rows t)) in *. set (limit := Nat.max (q_limit q) 1). assert (1 <= limit)%nat by (unfold limit; lia).
  destruct (limit <? length found)%nat eqn:E.
  2: { apply Nat.ltb_ge in E. cbn [p_rows next_cursor mbind option_bind]. rewrite app_nil_r, take_ge; [done|]. by rewrite length_reverse. }
  apply Nat.ltb_lt in E. cbn [p_rows next_cursor].
  destruct (take limit (reverse found)) as [|x l _] eqn:Et using rev_ind.
  { apply (f_equal length) in Et. rewrite length_take, length_reverse in Et. simpl in Et. lia. }
  rewrite last_snoc. cbn [fmap option_fmap option_map mbind option_bind].
  assert (Hcut : found = reverse (drop limit (reverse found)) ++ x :: reverse l).
  { rewrite <- (reverse_involutive found) at 1. rewrite <- (take_drop limit (reverse found)) at 1.
    rewrite reverse_app, Et, reverse_snoc. done. }
  assert (Hx : 0 <= seq x <= i64_max).
  { rewrite Forall_forall in Hseq. apply Hseq. assert (x ∈ found) as Hin by (rewrite Hcut; set_solver).
    by apply list_elem_of_filter in Hin as [_ ?]. }
  rewrite (cursor_roundtrip _ Hx), IH; rewrite (next_page_rows t q x _ _ Hc Hcut), ?reverse_involutive.
  - rewrite <- Et, <- fmap_app, take_drop. done.
  - rewrite length_reverse, length_drop, length_reverse. lia.
Qed.

(** Two entries written in the order opposite to their timestamps: a reader
    with pages of one gets the first and never the second, because the pages
    are sorted by timestamp and continued by number. *)
Theorem audit_cursor_skips (a b : Row) (n now : Z) (fuel : nat) :
  0 <= seq a <= i64_max -> seq a < seq b -> text_leb (ts a) (ts b) = false ->
  walk (S (S fuel)) (mkTable [a; b] n) (mkQuery 1 None None None None) now = [read_row now a].
Proof.
  intros Ha Hs Ht. set (q := mkQuery 1 None None None None). set (t := mkTable [a; b] n).
  assert (page_rows t q = ([a], true)) as H1.
  { unfold page_rows. rewrite filter_all by (by repeat constructor). cbn [rows t stable_sort insert_sorted].
    assert (newer a b = true) as -> by (unfold newer; by rewrite Ht). done. }
  assert (page_rows t (with_cursor q (seq a)) = ([], false)) as H2.
  { unfold page_rows. rewrite filter_none; [done|]. repeat constructor; cbn; rewrite not_true_iff_false; apply Z.ltb_ge; lia. }
  cbn [walk]. unfold query_audit_envelope at 1 2. rewrite H1. cbn [p_rows next_cursor last fmap option_fmap option_map mbind option_bind].
  rewrite cursor_roundtrip by done. unfold query_audit_envelope. by rewrite H2.
Qed.

End RowTheorems.
(** ** Examples *)

Definition demo_entry (time : Z) (who : string) : AuditEntry :=
  mkEntry time (lit who) (Some Rbac.User) (lit "POST") (lit "/v1/rules") Allow None None None None None.

Definition demo_one : Sys := mkSys (record start_writer (demo_entry 5 "ann")) [demo_entry 5 "ann"] 1.

Definition demo_cancelled : Sys := mkSys (cancel (writer demo_one)) (accepted demo_one) 1.

Lemma demo_reach : rtc step start_sys demo_cancelled.
Proof.
  apply (rtc_l _ _ demo_one); [exact (s_record start_sys (demo_entry 5 "ann"))|]. apply rtc_once. exact (s_cancel demo_one).
Qed.


(** Cancelled with one entry in the queue: drained, written, returned. *)
Definition demo_draining : Writer := goto (writer demo_cancelled) Draining.
Definition demo_taken : Writer := receive demo_draining (demo_entry 5 "ann") [] Draining.
Definition demo_last : Writer := goto demo_taken LastFlush.
Definition demo_done : Writer := flush demo_last true Done.

Lemma demo_run : nsteps writer_step 4 (writer demo_cancelled) demo_done.
Proof.
  apply (nsteps_l _ 3 _ demo_draining); [by apply w_cancelled|].
  apply (nsteps_l _ 2 _ demo_taken); [by apply w_drain|].
  apply (nsteps_l _ 1 _ demo_last); [apply w_drained; [done|by right]|].
  apply (nsteps_l _ 0 _ demo_done); [by apply w_return|]. constructor.
Qed.

Lemma audit_shutdown_drains_witness :
  4 <= work (writer demo_cancelled) /\ (flushed demo_done).*1 = [demo_entry 5 "ann"].
Proof.
  destruct (audit_shutdown_drains demo_cancelled 4 demo_done demo_reach eq_refl (or_introl eq_refl) demo_run) as [Hk Hd].
  split; [exact Hk|]. apply Hd. intros w' Hs. by inversion Hs.
Defined.

Lemma audit_late_entry_vanishes_witness :
  let w' := flush (record demo_last (demo_entry 9 "bob")) true Done in
  drops w' = 0 /\ flushed w' = [(demo_entry 5 "ann", true)] /\ demo_entry 9 "bob" ∈ queue w'.
Proof.
  destruct (audit_late_entry_vanishes demo_last (demo_entry 9 "bob") true [] 0 eq_refl eq_refl) as (_ & Hd & Hv).
  split; [exact Hd|]. split; [done|]. exact (proj2 (Hv _ (rtc_refl _ _))).
Defined.

Lemma audit_ring_exact_witness :
  snapshot (foldl push empty_ring [demo_entry 1 "ann"; demo_entry 2 "bob"]) 1 None = [demo_entry 2 "bob"].
Proof.
  destruct (audit_ring_exact [demo_entry 1 "ann"; demo_entry 2 "bob"] 1 None ltac:(lia)) as (_ & _ & Hs). exact Hs.
Defined.

(** A full ring over an idle writer. *)
Definition demo_full : AuditRing := mkRing (replicate 1000 (demo_entry 1 "ann")) 0 start_writer.

Lemma audit_counter_counts_kept_witness :
  queue (durable (push demo_full (demo_entry 2 "bob"))) = [demo_entry 2 "bob"] /\
  drops (durable (push demo_full (demo_entry 2 "bob"))) = 1.
Proof.
  apply (audit_counter_counts_kept demo_full (demo_entry 2 "bob")); [|reflexivity].
  unfold len, demo_full. cbn [ring]. by rewrite length_replicate.
Defined.

(** Codecs that keep what they are given: a timestamp is one character, an
    object is its fields with their lengths. *)
Definition demo_field (kv : list Z * Json) : list Z :=
  match kv.2 with
  | JNull => [0; len kv.1] ++ kv.1
  | JStr s => [1; len kv.1] ++ kv.1 ++ [len s] ++ s
  | JRaw s => [2; len kv.1] ++ kv.1 ++ [len s] ++ s
  end.

Definition demo_json (m : Object) : list Z := mjoin (demo_field <$> map_to_list m).

Fixpoint demo_parse (fuel : nat) (s : list Z) : option (list (list Z * Json)) :=
  match fuel, s with
  | _, [] => Some []
  | S fuel, tag :: n :: s =>
    let k := take (Z.to_nat n) s in
    let s := drop (Z.to_nat n) s in
    if tag =? 0 then l ← demo_parse fuel s; Some ((k, JNull) :: l)
    else match s with
         | m :: s =>
           let v := take (Z.to_nat m) s in
           l ← demo_parse fuel (drop (Z.to_nat m) s);
           Some ((k, if tag =? 1 then JStr v else JRaw v) :: l)
         | [] => None
         end
  | _, _ => None
  end.

Lemma demo_parse_one kv fuel s :
  demo_parse (S fuel) (demo_field kv ++ s) = (fun l => kv :: l) <$> demo_parse fuel s.
Proof.
  destruct kv as [k v]. unfold demo_field, len. cbn [fst snd]. destruct v as [|x|x]; cbn [app demo_parse Z.eqb Pos.eqb];
    rewrite ?Nat2Z.id, <- ?app_assoc, ?take_app_length, ?drop_app_length; cbn [app];
    rewrite ?Nat2Z.id, ?take_app_length, ?drop_app_length; by destruct (demo_parse fuel s).
Qed.

Lemma demo_parse_all l fuel :
  (length (mjoin (demo_field <$> l)) < fuel)%nat -> demo_parse fuel (mjoin (demo_field <$> l)) = Some l.
Proof.
  revert fuel. induction l as [|kv l IH]; intros [|fuel] Hf; [lia|done|lia|].
  change (mjoin (demo_field <$> kv :: l)) with (demo_field kv ++ mjoin (demo_field <$> l)) in *.
  rewrite demo_parse_one, IH; [done|]. rewrite length_app in Hf.
  assert (1 <= length (demo_field kv))%nat by (destruct kv as [k []]; cbn; lia). lia.
Qed.

Lemma demo_json_roundtrip m : list_to_map <$> demo_parse (S (length (demo_json m))) (demo_json m) = Some m.
Proof. unfold demo_json. rewrite demo_parse_all by lia. cbn. by rewrite list_to_map_to_list. Qed.

Lemma demo_order a b : ts_ok a -> ts_ok b -> text_leb [a] [b] = (a <=? b).
Proof.
  intros _ _. cbn. rewrite andb_true_r. destruct (a <? b) eqn:E1, (a =? b) eqn:E2; cbn; bool_prop; symmetry;
    [apply Z.leb_le|apply Z.leb_le|apply Z.leb_le|apply Z.leb_gt]; lia.
Qed.

Definition demo_parse_object (s : list Z) : option Value :=
  (fun l => VObject (list_to_map l)) <$> demo_parse (S (length s)) s.

Lemma demo_object_roundtrip m : demo_parse_object (demo_json m) = Some (VObject m).
Proof.
  pose proof (demo_json_roundtrip m) as Hm. unfold demo_parse_object.
  destruct (demo_parse _ _) as [l|]; [|done]. cbn in *. by injection Hm as ->.
Qed.

#[local] Instance demo_codecs : Codecs := {|
  rfc3339 t := [t];
  parse_rfc3339 s := head s;
  json_text := demo_json;
  json_parse := demo_parse_object;
  b64_encode bs := bs;
  b64_decode s := Some s;
  rfc_order := demo_order;
  rfc_parse _ _ := eq_refl;
  json_roundtrip := demo_object_roundtrip;
  b64_roundtrip _ := eq_refl;
|}.

Definition demo_event : AuditEntry :=
  mkEntry 7 (lit "ann") (Some Rbac.Superadmin) (lit "POST") (lit "/v1/users/bob/password") Allow None
    (Some (lit "operator.password_reset")) (Some (lit "user")) (Some (lit "bob")) None.

Lemma demo_ts_ok t : (0 <=? t) && (t <=? LAST_TS) = true -> ts_ok t.
Proof. intros [?%Z.leb_le ?%Z.leb_le]%andb_true_iff. by split. Qed.

Lemma audit_row_roundtrip_witness : read_row 0 (row_of 3 (demo_entry 5 "ann")) = demo_entry 5 "ann".
Proof.
  refine (audit_row_roundtrip (demo_entry 5 "ann") 3 0 (demo_ts_ok 5 eq_refl) _ _).
  - left. split; [done|]. by apply (bool_decide_unpack (32 ∉ lit "POST")).
  - by left.
Defined.

Lemma audit_event_loses_request_witness :
  method demo_event = lit "POST" /\ method (read_row 0 (row_of 3 demo_event)) = [].
Proof.
  split; [done|].
  refine (proj1 (audit_event_loses_request demo_event (lit "operator.password_reset") 3 0 eq_refl _)).
  by apply (bool_decide_unpack (32 ∉ lit "operator.password_reset")).
Defined.

Definition demo_table : Table := write_batch (mkTable [] 1) [demo_entry 5 "ann"; demo_entry 6 "bob"; demo_entry 6 "eve"].

Lemma demo_chronological : chronological demo_table.
Proof. unfold chronological, demo_table. cbn. repeat constructor; cbn; try lia; done. Qed.

Lemma audit_retention_exact_witness : next_seq (run_once demo_table (RETENTION + 6)).1 = 4.
Proof.
  exact (proj1 (proj2 (proj2 (audit_retention_exact demo_table (RETENTION + 6)
    (chronological_numbered _ demo_chronological))))).
Defined.

Lemma audit_pages_complete_witness :
  walk 4 demo_table (mkQuery 2 None None None None) 0 = read_row 0 <$> reverse (rows demo_table).
Proof.
  refine (audit_pages_complete demo_table (mkQuery 2 None None None None) 0 4 demo_chronological _ _).
  - unfold demo_table, i64_max. cbn. repeat constructor; cbn; lia.
  - cbn. lia.
Defined.

Lemma audit_cursor_skips_witness :
  let a := row_of 1 (demo_entry 9 "ann") in
  let b := row_of 2 (demo_entry 8 "bob") in
  walk 5 (mkTable [a; b] 3) (mkQuery 1 None None None None) 0 = [read_row 0 a].
Proof.
  refine (audit_cursor_skips (row_of 1 (demo_entry 9 "ann")) (row_of 2 (demo_entry 8 "bob")) 3 0 3 _ _ eq_refl);
    cbn; unfold i64_max; lia.
Defined.

End AuditLog.
