(* ===== verification/TrafficSamples.v ===== *)
(** * Traffic history

    [crates/portunus-server/src/traffic_quotas/samples.rs] and [rollup.rs], and
    the traffic endpoints of [operator/quota_http.rs]: the tables of one-minute
    and one-hour samples, the hourly rollup with its watermark and retention,
    the queries, and the responses built from them.

    A table maps (user, client) and the start of the bucket to the two byte
    columns; the display name stored beside them is left out.  [SUM] follows
    SQLite: a real input makes the sum real, integers that overflow make the
    statement fail, and a failed statement changes nothing.  The database itself
    answers. *)

From S2P Require Import Prelude Text Rbac Quota TrafficPeriod TrafficQuota.

Import TrafficQuota.TrafficQuota.

Local Open Scope Z_scope.

Module TrafficSamples.

#[local] Existing Instance Rbac.OperatorRole_eq_dec.

Notation Cell := (Column * Column)%type.
Notation Samples := (gmap (Key * Z) Cell).

Definition HOUR : Z := 3600.
Definition RETENTION_1M_SECS : Z := 7 * 24 * HOUR.
Definition RETENTION_1H_SECS : Z := 90 * 24 * HOUR.

Inductive SampleBucket : Type := M1 | H1.

Definition retention_seconds (b : SampleBucket) : Z :=
  match b with M1 => 7 * 24 * 3600 | H1 => 90 * 24 * 3600 end.

(** [last_rolled_up_hour] is the single row of [traffic_rollup_state]. *)
Record Db : Type := mkDb {
  minutes : Samples;
  hours : Samples;
  last_rolled_up_hour : Z;
}.

Inductive QueryError : Type := IntegerOverflow | NotAnInteger.

Definition is_integer (c : Column) : bool := match c with Integer _ => true | Real => false end.

Definition amount (c : Column) : Z := match c with Integer z => z | Real => 0 end.

Definition sql_sum (cs : list Column) : Result Column QueryError :=
  if forallb is_integer cs then
    let s := sum_of amount cs in
    if i64_max <? s then Err IntegerOverflow else Ok (Integer s)
  else Ok Real.

Definition cell_sum (cells : list Cell) : Result Cell QueryError :=
  let? i := sql_sum cells.*1 in
  let? o := sql_sum cells.*2 in
  Ok (i, o).

(** The rows a [WHERE] clause on the key selects. *)
Definition where_key (p : Key * Z -> bool) (s : Samples) : Samples :=
  filter (fun kv => p kv.1 = true) s.

Definition cells (s : Samples) : list Cell := (map_to_list s).*2.

Fixpoint collect {A B E} (f : A -> Result B E) (l : list A) : Result (list B) E :=
  match l with
  | [] => Ok []
  | x :: l => let? y := f x in let? ys := collect f l in Ok (y :: ys)
  end.

(** ** The rollup *)

Definition in_hour (h : Z) (x : Key * Z) : bool := (h <=? x.2) && (x.2 <? h + 3600).

Definition of_pair (k : Key) (h : Z) (x : Key * Z) : bool := bool_decide (x.1 = k) && in_hour h x.

(** [GROUP BY user_id, client_id] over the minutes of one hour. *)
Definition rollup_rows (m : Samples) (h : Z) : Result (list ((Key * Z) * Cell)) QueryError :=
  collect (fun k => let? c := cell_sum (cells (where_key (of_pair k h) m)) in Ok ((k, h), c))
    (remove_dups (fst <$> (map_to_list (where_key (in_hour h) m)).*1)).

(** [ON CONFLICT DO UPDATE]: the new rows win. *)
Definition rollup_hour (d : Db) (ts_hour : Z) : Result Db QueryError :=
  let? rows := rollup_rows (minutes d) ts_hour in
  Ok (mkDb (minutes d) (list_to_map rows ∪ hours d) (last_rolled_up_hour d)).

Definition set_last_rolled_up_hour (d : Db) (h : Z) : Db := mkDb (minutes d) (hours d) h.

Definition older_than (threshold : Z) (s : Samples) : nat * Samples :=
  (size (where_key (fun x => x.2 <? threshold) s), where_key (fun x => threshold <=? x.2) s).

Definition delete_1m_older_than (d : Db) (threshold : Z) : nat * Db :=
  let (n, m) := older_than threshold (minutes d) in (n, mkDb m (hours d) (last_rolled_up_hour d)).

Definition delete_1h_older_than (d : Db) (threshold : Z) : nat * Db :=
  let (n, h) := older_than threshold (hours d) in (n, mkDb (minutes d) h (last_rolled_up_hour d)).

Record RollupStats : Type := mkStats {
  rolled_up_hours : Z;
  deleted_1m : nat;
  deleted_1h : nat;
}.

(** The [while] loop; it breaks by itself after [MAX_ROLLED + 1] hours. *)
Definition MAX_ROLLED : Z := 24 * 90.

Fixpoint roll_hours (fuel : nat) (d : Db) (next now_hour rolled : Z) : Result Z QueryError * Db :=
  match fuel with
  | O => (Ok rolled, d)
  | S fuel =>
    if next <? now_hour then
      match rollup_hour d next with
      | Err e => (Err e, d)
      | Ok d =>
        let d := set_last_rolled_up_hour d next in
        let rolled := rolled + 1 in
        if MAX_ROLLED <? rolled then (Ok rolled, d)
        else roll_hours fuel d (next + HOUR) now_hour rolled
      end
    else (Ok rolled, d)
  end.

Definition hour_of (t : Z) : Z := t - t mod HOUR.

Definition run_once (d : Db) (now_unix_sec : Z) : Result RollupStats QueryError * Db :=
  let now_hour := hour_of now_unix_sec in
  let last := last_rolled_up_hour d in
  let next := if last =? 0 then now_hour - HOUR else last + HOUR in
  match roll_hours (Z.to_nat (MAX_ROLLED + 1)) d next now_hour 0 with
  | (Err e, d) => (Err e, d)
  | (Ok rolled, d) =>
    let (deleted_1m, d) := delete_1m_older_than d (now_unix_sec - RETENTION_1M_SECS) in
    let (deleted_1h, d) := delete_1h_older_than d (now_unix_sec - RETENTION_1H_SECS) in
    (Ok (mkStats rolled deleted_1m deleted_1h), d)
  end.

(** How long [run_forever] sleeps before its next tick. *)
Definition sleep_secs (now : Z) : Z :=
  let into_hour := now mod HOUR in
  if into_hour <? 60 then 60 - into_hour else HOUR - into_hour + 60.

(** ** Queries *)

Record TrafficSample : Type := mkSample { ts : Z; bytes_in : Z; bytes_out : Z }.

Definition read_i64 (c : Column) : Result Z QueryError :=
  match c with Integer z => Ok z | Real => Err NotAnInteger end.

Definition bucket_table (d : Db) (b : SampleBucket) : Samples :=
  match b with M1 => minutes d | H1 => hours d end.

Definition matches (u c : option (list Z)) (from to : Z) (x : Key * Z) : bool :=
  (from <=? x.2) && (x.2 <? to) &&
  match u with Some u => bool_decide (x.1.1 = u) | None => true end &&
  match c with Some c => bool_decide (x.1.2 = c) | None => true end.

Definition at_ts (t : Z) (x : Key * Z) : bool := x.2 =? t.

(** [GROUP BY ts ORDER BY ts ASC]. *)
Definition query_samples (d : Db) (b : SampleBucket) (user_id client_id : option (list Z)) (from to : Z) :
  Result (list TrafficSample) QueryError :=
  let rows := where_key (matches user_id client_id from to) (bucket_table d b) in
  collect (fun t =>
      let? c := cell_sum (cells (where_key (at_ts t) rows)) in
      let? i := read_i64 c.1 in
      let? o := read_i64 c.2 in
      Ok (mkSample t i o))
    (stable_sort Z.leb (remove_dups (snd <$> (map_to_list rows).*1))).

Inductive TrafficError : Type :=
| Denied (e : Rbac.RbacError)
| NotOwner
| ClientNotFound
| InvalidTimeRange
| InvalidBucket
| BucketOutOfRetention
| TooManyRows
| StoreFailed (e : QueryError).

Record TrafficResponse : Type := mkResponse {
  bucket : SampleBucket;
  samples : list TrafficSample;
  total_bytes_in : Z;
  total_bytes_out : Z;
}.

Definition choose_bucket (bucket : option (list Z)) (span : Z) : Result SampleBucket TrafficError :=
  match bucket with
  | Some b =>
    if bool_decide (b = lit "1m") then Ok M1
    else if bool_decide (b = lit "1h") then Ok H1
    else Err InvalidBucket
  | None => Ok (if span <=? 24 * 3600 then M1 else H1)
  end.

(** The totals of a release build wrap. *)
Definition serve_traffic (d : Db) (now : Z) (client_id user_id : option (list Z)) (from to : Z)
  (bucket : option (list Z)) : Result TrafficResponse TrafficError :=
  if (from <? 0) || (to <=? from) then Err InvalidTimeRange
  else
    let span := to - from in
    let? chosen := choose_bucket bucket span in
    let oldest_allowed := now - retention_seconds chosen in
    if from <? oldest_allowed then Err BucketOutOfRetention
    else
      match query_samples d chosen user_id client_id from to with
      | Err e => Err (StoreFailed e)
      | Ok rows =>
        if 10000 <? Z.of_nat (length rows) then Err TooManyRows
        else Ok (mkResponse chosen rows (Quota.wrap_i64 (sum_of bytes_in rows))
                   (Quota.wrap_i64 (sum_of bytes_out rows)))
      end.

(** ** The endpoints *)

Record TrafficQuery : Type := mkQuery {
  q_client_id : option (list Z);
  q_user_id : option (list Z);
  q_from : Z;
  q_to : Z;
  q_bucket : option (list Z);
}.

Definition denied {A} (r : Result A Rbac.RbacError) : Result A TrafficError :=
  match r with Ok a => Ok a | Err e => Err (Denied e) end.

Definition require_self_or_superadmin (identity : Rbac.OperatorIdentity) (user_id : list Z) :
  Result unit TrafficError :=
  if bool_decide (Rbac.role identity = Rbac.Superadmin) then Ok tt
  else if bool_decide (Rbac.who identity = user_id) then Ok tt
  else Err NotOwner.

Section Endpoints.

(** [ClientId::from_str] and [to_string] of the [ulid] crate. *)
Context (client_id_of : list Z -> option Z) (cid_text : Z -> list Z).

Definition parse_client_id (raw : list Z) : Result Z TrafficError :=
  match client_id_of raw with Some c => Ok c | None => Err ClientNotFound end.

Definition get_user_traffic (d : Db) (now : Z) (identity : Rbac.OperatorIdentity) (user_id : list Z)
  (q : TrafficQuery) : Result TrafficResponse TrafficError :=
  let? _ := require_self_or_superadmin identity user_id in
  let? client_id := match q_client_id q with
                    | Some raw => let? c := parse_client_id raw in Ok (Some (cid_text c))
                    | None => Ok None
                    end in
  serve_traffic d now client_id (Some user_id) (q_from q) (q_to q) (q_bucket q).

Definition get_client_traffic (d : Db) (now : Z) (identity : Rbac.OperatorIdentity) (client_id : list Z)
  (q : TrafficQuery) : Result TrafficResponse TrafficError :=
  let? _ := denied (Rbac.require_role identity Rbac.Superadmin) in
  let? cid := parse_client_id client_id in
  serve_traffic d now (Some (cid_text cid)) (q_user_id q) (q_from q) (q_to q) (q_bucket q).

End Endpoints.

Definition get_global_traffic (d : Db) (now : Z) (identity : Rbac.OperatorIdentity) (q : TrafficQuery) :
  Result TrafficResponse TrafficError :=
  let? _ := denied (Rbac.require_role identity Rbac.Superadmin) in
  serve_traffic d now None None (q_from q) (q_to q) (q_bucket q).

(** ** Sums *)

(** One of the two byte columns. *)
Definition side (i : bool) (c : Cell) : Column := if i then c.1 else c.2.

Definition total (i : bool) (s : Samples) : Z := sum_of (fun kv => amount (side i kv.2)) (map_to_list s).

Lemma sql_sum_integer cs z : sql_sum cs = Ok (Integer z) -> z = sum_of amount cs.
Proof. unfold sql_sum. repeat case_match; naive_solver. Qed.

Lemma cell_sum_side i s c z : cell_sum (cells s) = Ok c -> side i c = Integer z -> z = total i s.
Proof.
  unfold cell_sum, cells, total. intros Hc Hz.
  destruct (sql_sum (map_to_list s).*2.*1) as [ci|] eqn:Ei; [|done]. simpl in Hc.
  destruct (sql_sum (map_to_list s).*2.*2) as [co|] eqn:Eo; [|done]. simplify_eq/=.
  destruct i; simpl in Hz; subst.
  - apply sql_sum_integer in Ei. by rewrite Ei, !sum_of_fmap.
  - apply sql_sum_integer in Eo. by rewrite Eo, !sum_of_fmap.
Qed.

Lemma collect_ok {A B E} (f : A -> Result B E) l ys :
  collect f l = Ok ys -> Forall2 (fun x y => f x = Ok y) l ys.
Proof.
  revert ys. induction l as [|x l IH]; simpl; intros ys Hc; [by simplify_eq|].
  destruct (f x) as [y|] eqn:Hf; [|done]. simpl in Hc.
  destruct (collect f l) as [zs|]; [|done]. simplify_eq/=. constructor; [done|by apply IH].
Qed.

Lemma total_filter (i : bool) (p : Key * Z -> bool) (s : Samples) :
  total i (where_key p s) = sum_of (fun kv => amount (side i kv.2)) (filter (fun kv => p kv.1 = true) (map_to_list s)).
Proof.
  unfold total, where_key. apply sum_of_perm. rewrite map_filter_alt. apply map_to_list_to_map.
  apply NoDup_fmap_fst; [|apply NoDup_filter, NoDup_map_to_list].
  intros x c c' [_ Hc]%list_elem_of_filter [_ Hc']%list_elem_of_filter.
  apply elem_of_map_to_list in Hc, Hc'. congruence.
Qed.

Lemma where_key_lookup (p : Key * Z -> bool) (s : Samples) x c :
  where_key p s !! x = Some c <-> s !! x = Some c /\ p x = true.
Proof. unfold where_key. apply map_lookup_filter_Some. Qed.

Lemma where_key_none (p : Key * Z -> bool) (s : Samples) x : s !! x = None -> where_key p s !! x = None.
Proof.
  intros Hn. destruct (where_key p s !! x) eqn:E; [|done]. apply where_key_lookup in E as [E _]. congruence.
Qed.

Lemma where_key_ext (p q : Key * Z -> bool) (s s' : Samples) :
  (forall x c, s !! x = Some c /\ p x = true <-> s' !! x = Some c /\ q x = true) -> where_key p s = where_key q s'.
Proof. intros H. apply map_filter_strong_ext_1. intros x c. simpl. specialize (H x c). naive_solver. Qed.

Definition sample_side (i : bool) (s : TrafficSample) : Z := if i then bytes_in s else bytes_out s.

(** What a query returns adds up to the rows it selected. *)
Lemma query_total (i : bool) d b u c from to rows :
  query_samples d b u c from to = Ok rows ->
  sum_of (sample_side i) rows = total i (where_key (matches u c from to) (bucket_table d b)).
Proof.
  unfold query_samples. set (R := where_key _ _). intros Hq%collect_ok.
  set (f := fun kv : Key * Z * Cell => amount (side i kv.2)).
  transitivity (sum_of (fun t => sum_of f (filter (fun kv => kv.1.2 = t) (map_to_list R)))
    (stable_sort Z.leb (remove_dups (snd <$> (map_to_list R).*1)))).
  - symmetry. apply sum_of_Forall2. eapply Forall2_impl; [exact Hq|]. cbn beta. intros t s Ht.
    destruct (cell_sum _) as [cl|] eqn:Ec; [|done]. cbn in Ht.
    destruct cl as [ci co]. destruct ci as [zi|]; [|done]. destruct co as [zo|]; [|done]. cbn in Ht. simplify_eq.
    transitivity (total i (where_key (at_ts t) R)).
    + rewrite total_filter. f_equal. apply list_filter_iff. intros kv. unfold at_ts. by rewrite Z.eqb_eq.
    + symmetry. destruct i; by eapply cell_sum_side.
  - apply (sum_of_group f (fun kv => kv.1.2)).
    + rewrite stable_sort_perm. apply NoDup_remove_dups.
    + intros kv Hkv. rewrite stable_sort_perm. apply elem_of_remove_dups.
      apply list_elem_of_fmap. exists kv.1. split; [done|]. by apply list_elem_of_fmap_2.
Qed.

(** ** The hourly row of a pair *)

(** What the minutes say of the hour [h]. *)
Definition hour_row (m : Samples) (k : Key) (h : Z) : Result (option Cell) QueryError :=
  let s := where_key (of_pair k h) m in
  if bool_decide (s = ∅) then Ok None else let? c := cell_sum (cells s) in Ok (Some c).

Lemma of_pair_spec k h x : of_pair k h x = true <-> x.1 = k /\ h <= x.2 < h + 3600.
Proof.
  unfold of_pair, in_hour. rewrite !andb_true_iff, bool_decide_eq_true, Z.leb_le, Z.ltb_lt. done.
Qed.

Lemma hour_of_aligned t : hour_of t mod 3600 = 0.
Proof. unfold hour_of, HOUR. by rewrite Zminus_mod_idemp_r, Z.sub_diag. Qed.

Lemma hour_of_eq h t : h mod 3600 = 0 -> hour_of t = h <-> h <= t < h + 3600.
Proof.
  unfold hour_of, HOUR. intros. pose proof (Z.div_mod h 3600). pose proof (Z.div_mod t 3600).
  pose proof (Z.mod_pos_bound t 3600). lia.
Qed.

Lemma of_pair_class h x : h.2 mod 3600 = 0 -> of_pair h.1 h.2 x = true <-> (x.1, hour_of x.2) = h.
Proof.
  intros Hh. rewrite of_pair_spec, <- (hour_of_eq h.2) by done. destruct h. simpl. naive_solver.
Qed.

(** The hourly table agrees with the minutes on the window of a query. *)
Lemma hours_total (i : bool) (hs ms : Samples) (p : Key * Z -> bool) :
  (forall x c, hs !! x = Some c -> p x = true -> x.2 mod 3600 = 0) ->
  (forall x, p (x.1, hour_of x.2) = p x) ->
  (forall x, p x = true -> x.2 mod 3600 = 0 -> hour_row ms x.1 x.2 = Ok (hs !! x)) ->
  (forall x c, hs !! x = Some c -> p x = true -> is_integer (side i c) = true) ->
  total i (where_key p hs) = total i (where_key p ms).
Proof.
  intros Hal Hp Hrow Hint. set (f := fun kv : Key * Z * Cell => amount (side i kv.2)).
  set (g := fun kv : Key * Z * Cell => (kv.1.1, hour_of kv.1.2)).
  set (M := where_key p ms). set (H := where_key p hs).
  transitivity (sum_of (fun y => sum_of f (filter (fun kv => g kv = y) (map_to_list M))) (map_to_list H).*1).
  - unfold total. rewrite sum_of_fmap. apply sum_of_Forall2, Forall_Forall2_diag, Forall_forall.
    intros [x c] Hx%elem_of_map_to_list. apply where_key_lookup in Hx as [Hx Hpx].
    pose proof (Hal x c Hx Hpx) as Hmod. specialize (Hint x c Hx Hpx). specialize (Hrow x Hpx Hmod).
    unfold hour_row in Hrow. rewrite Hx in Hrow. case_bool_decide; [done|].
    destruct (cell_sum _) as [c'|] eqn:Ec; [|done]. cbn in Hrow. simplify_eq.
    destruct (side i c) as [z|] eqn:Ez; [|done]. pose proof (cell_sum_side i _ _ _ Ec Ez) as ->.
    simpl. rewrite Ez. simpl.
    transitivity (total i (where_key (of_pair x.1 x.2) M)).
    + f_equal. apply where_key_ext. intros y c'. unfold M. rewrite where_key_lookup, of_pair_class by done.
      split; [|naive_solver]. intros (Hy & <-). split; [|done]. split; [done|]. by rewrite <- Hp.
    + rewrite total_filter. f_equal. apply list_filter_iff. intros [y c']. by apply of_pair_class.
  - apply sum_of_group; [apply NoDup_fst_map_to_list|]. intros [y c] Hy%elem_of_map_to_list.
    apply where_key_lookup in Hy as [Hy Hpy]. unfold g. simpl.
    set (h := (y.1, hour_of y.2)). assert (Hph : p h = true) by (unfold h; by rewrite Hp).
    assert (Hmh : h.2 mod 3600 = 0) by apply hour_of_aligned.
    specialize (Hrow h Hph Hmh). unfold hour_row in Hrow. case_bool_decide as He.
    + exfalso. apply (f_equal (lookup y)) in He. rewrite lookup_empty in He.
      rewrite (proj2 (where_key_lookup (of_pair h.1 h.2) ms y c)) in He; [done|]. split; [done|].
      by apply of_pair_class.
    + destruct (cell_sum _) as [c'|]; [|done]. cbn in Hrow. simplify_eq.
      apply list_elem_of_fmap. exists (h, c'). split; [done|]. apply elem_of_map_to_list.
      apply where_key_lookup. split; [congruence|done].
Qed.

(** ** What one rollup writes *)

Lemma in_rollup_keys (m : Samples) k h :
  k ∈ remove_dups (fst <$> (map_to_list (where_key (in_hour h) m)).*1) <-> where_key (of_pair k h) m <> ∅.
Proof.
  rewrite elem_of_remove_dups, list_elem_of_fmap. setoid_rewrite list_elem_of_fmap. split.
  - intros ([k' t] & -> & [y c] & -> & [Hy Hin]%elem_of_map_to_list%where_key_lookup) He.
    apply (f_equal (lookup y)) in He. rewrite lookup_empty in He.
    rewrite (proj2 (where_key_lookup _ m y c)) in He; [done|]. split; [done|]. unfold of_pair.
    by rewrite bool_decide_true.
  - intros [y [c Hy]]%map_choose. apply where_key_lookup in Hy as [Hy Hp]. unfold of_pair in Hp.
    apply andb_true_iff in Hp as [Hk%bool_decide_eq_true Hp]. exists y. split; [done|]. exists (y, c).
    split; [done|]. apply elem_of_map_to_list, where_key_lookup. done.
Qed.

Lemma rollup_rows_lookup (m : Samples) h rows : rollup_rows m h = Ok rows ->
  (forall k, hour_row m k h = Ok ((list_to_map rows : Samples) !! (k, h))) /\
  forall x, x.2 <> h -> (list_to_map rows : Samples) !! x = None.
Proof.
  intros Hr%collect_ok. set (ks := remove_dups _) in Hr.
  assert (Hf : forall k row, (let? c := cell_sum (cells (where_key (of_pair k h) m)) in Ok (k, h, c)) = Ok row ->
    row.1 = (k, h) /\ cell_sum (cells (where_key (of_pair k h) m)) = Ok row.2).
  { intros k row. destruct (cell_sum _); simpl; [|done]. by intros [= <-]. }
  assert (Hk : rows.*1 = (fun k => (k, h)) <$> ks).
  { clear -Hr Hf. induction Hr as [|k row ks rows Hx _ IH]; [done|]. rewrite !fmap_cons, IH.
    by rewrite (proj1 (Hf _ _ Hx)). }
  split.
  - intros k. unfold hour_row. case_bool_decide as He.
    + rewrite not_elem_of_list_to_map_1; [done|]. rewrite Hk. intros (k' & [= <-] & Hin)%list_elem_of_fmap.
      by apply in_rollup_keys in Hin.
    + apply in_rollup_keys, list_elem_of_lookup in He as [j Hj].
      destruct (Forall2_lookup_l _ _ _ _ _ Hr Hj) as ([x c] & Hrow & Hx). apply Hf in Hx as [Hx1 Hx2]. simpl in *. subst x.
      rewrite Hx2. simpl. erewrite elem_of_list_to_map_1; [done| |by eapply list_elem_of_lookup_2].
      rewrite Hk. apply NoDup_fmap_2; [|apply NoDup_remove_dups]. by intros ?? [= ->].
  - intros x Hx. apply not_elem_of_list_to_map_1. rewrite Hk. by intros (k' & -> & _)%list_elem_of_fmap.
Qed.

Lemma rollup_hour_ok d h d' : rollup_hour d h = Ok d' ->
  minutes d' = minutes d /\ last_rolled_up_hour d' = last_rolled_up_hour d /\
  (forall x, x.2 <> h -> hours d' !! x = hours d !! x) /\
  forall k, exists r, hour_row (minutes d) k h = Ok r /\ hours d' !! (k, h) = r ∪ hours d !! (k, h).
Proof.
  unfold rollup_hour. destruct (rollup_rows _ _) as [rows|] eqn:Er; [|done]. simpl. intros [= <-]. simpl.
  apply rollup_rows_lookup in Er as [H1 H2]. split_and!; [done..| |].
  - intros x Hx. rewrite lookup_union, H2 by done. by destruct (hours d !! x).
  - intros k. eexists. split; [apply H1|]. apply lookup_union.
Qed.

(** ** The life of the tables *)

(** The aggregator adds to the minute of its clock; the background task ticks. *)
Inductive Step : Db * Z -> Db * Z -> Prop :=
| S_record d t t' k delta_in delta_out : t <= t' -> 0 <= delta_in -> 0 <= delta_out ->
  Step (d, t) (mkDb (upsert_1m_delta (minutes d) k (align_minute t') delta_in delta_out) (hours d)
    (last_rolled_up_hour d), t')
| S_tick d t t' : t <= t' -> Step (d, t) ((run_once d t').2, t').

(** Hours rolled up after [w] and still covered by the minutes are exact. *)
Definition exact (w : Z) (d : Db) (t : Z) : Prop := forall k h, h mod 3600 = 0 ->
  w < h <= last_rolled_up_hour d -> t - RETENTION_1M_SECS <= h ->
  hour_row (minutes d) k h = Ok (hours d !! (k, h)).

Record Rolling (w : Z) (d : Db) (t : Z) : Prop := mkRolling {
  roll_start : 0 < w /\ w <= last_rolled_up_hour d;
  roll_aligned : last_rolled_up_hour d mod 3600 = 0;
  roll_closed : last_rolled_up_hour d < hour_of t;
  roll_keys : forall x c, hours d !! x = Some c -> x.2 <= last_rolled_up_hour d /\ (w < x.2 -> x.2 mod 3600 = 0);
  roll_exact : exact w d t;
}.

Lemma hour_of_le t t' : t <= t' -> hour_of t <= hour_of t' <= t'.
Proof.
  unfold hour_of, HOUR. intros. pose proof (Z.div_mod t 3600). pose proof (Z.div_mod t' 3600).
  pose proof (Z.mod_pos_bound t 3600). pose proof (Z.mod_pos_bound t' 3600).
  pose proof (Z.div_le_mono t t' 3600). lia.
Qed.

Lemma aligned_gap a b : a mod 3600 = 0 -> b mod 3600 = 0 -> a < b -> a + 3600 <= b.
Proof. intros. pose proof (Z.div_mod a 3600). pose proof (Z.div_mod b 3600). lia. Qed.

Lemma rolling_later w d t t' : t <= t' -> Rolling w d t -> Rolling w d t'.
Proof.
  intros Ht [Hs Ha Hc Hk He]. pose proof (hour_of_le t t' Ht). split; [done|done|lia|done|].
  intros k h Hh Hw Hr. apply He; [done|done|lia].
Qed.

Lemma align_minute_hour t : 0 <= t -> hour_of t <= align_minute t.
Proof.
  intros Ht. unfold hour_of, align_minute, HOUR. rewrite Z.rem_mod_nonneg by lia.
  rewrite (Znumtheory.Zmod_div_mod 60 3600 t) by (lia || by exists 60).
  pose proof (Z.mod_pos_bound t 3600). pose proof (Z.mod_le (t mod 3600) 60). lia.
Qed.

Lemma rolling_record w d t k di do_ : Rolling w d t ->
  Rolling w (mkDb (upsert_1m_delta (minutes d) k (align_minute t) di do_) (hours d) (last_rolled_up_hour d)) t.
Proof.
  intros [Hs Ha Hc Hk He]. split; [done..|]. intros j h Hh Hw Hr. simpl in *. rewrite <- He by done.
  unfold hour_row, upsert_1m_delta. destruct (default _ _) as [i o].
  assert (Heq : where_key (of_pair j h) (<[(k, align_minute t) := (sql_add i di, sql_add o do_)]> (minutes d)) =
    where_key (of_pair j h) (minutes d)); [|by rewrite Heq].
  apply map_filter_insert_not. intros c [_ Hb]%of_pair_spec. simpl in Hb.
  pose proof (aligned_gap (last_rolled_up_hour d) (hour_of t) Ha (hour_of_aligned t) Hc).
  pose proof (hour_of_le t t). pose proof (align_minute_hour t). lia.
Qed.

Lemma rolling_rollup w d t d' : Rolling w d t -> last_rolled_up_hour d + HOUR < hour_of t ->
  rollup_hour d (last_rolled_up_hour d + HOUR) = Ok d' ->
  Rolling w (set_last_rolled_up_hour d' (last_rolled_up_hour d + HOUR)) t.
Proof.
  intros [Hs Ha Hc Hk He] Hn (Hm & Hl & Ho & Hr)%rollup_hour_ok. unfold HOUR in *.
  set (n := last_rolled_up_hour d + 3600) in *.
  assert (Hn0 : n mod 3600 = 0). { unfold n. rewrite <- Zplus_mod_idemp_l, Ha. done. }
  assert (Hnew : forall k, hour_row (minutes d) k n = Ok (hours d' !! (k, n))).
  { intros k. destruct (Hr k) as (r & Hrow & ->). rewrite Hrow.
    destruct (hours d !! (k, n)) as [c|] eqn:Ec; [|by destruct r]. apply Hk in Ec as [Ec _]. simpl in Ec. lia. }
  split; simpl; [lia|done|done| |].
  - intros x c Hx. destruct (decide (x.2 = n)) as [->|Hne]; [by split|]. rewrite Ho in Hx by done.
    apply Hk in Hx. split; [lia|naive_solver].
  - intros k h Hh Hw Hret. simpl in *. rewrite Hm. destruct (decide (h = n)) as [->|Hne]; [apply Hnew|].
    rewrite Ho by done. apply He; [done| |done]. pose proof (aligned_gap h n Hh Hn0). lia.
Qed.

Lemma rolling_hours w fuel d t r : Rolling w d t ->
  Rolling w (roll_hours fuel d (last_rolled_up_hour d + HOUR) (hour_of t) r).2 t.
Proof.
  revert d r. induction fuel as [|fuel IH]; intros d r HR; simpl; [done|]. case_test; [|done].
  destruct (rollup_hour _ _) as [d'|] eqn:Er; [|done].
  pose proof (rolling_rollup w d t d' HR ltac:(lia) Er) as HR'. case_test; [done|].
  by apply (IH (set_last_rolled_up_hour d' (last_rolled_up_hour d + HOUR))).
Qed.
Lemma rolling_prune w d t : Rolling w d t ->
  Rolling w (mkDb (older_than (t - RETENTION_1M_SECS) (minutes d)).2
    (older_than (t - RETENTION_1H_SECS) (hours d)).2 (last_rolled_up_hour d)) t.
Proof.
  intros [Hs Ha Hc Hk He]. split; simpl; [done..| |].
  - intros x c [Hx _]%where_key_lookup. by apply (Hk x c).
  - intros k h Hh Hw Hret. simpl in *. assert (RETENTION_1M_SECS <= RETENTION_1H_SECS) by done.
    assert (Hrow : forall s, where_key (of_pair k h) (where_key (fun x => t - RETENTION_1M_SECS <=? x.2) s) =
      where_key (of_pair k h) s).
    { intros s. apply where_key_ext. intros x c. rewrite where_key_lookup, of_pair_spec, Z.leb_le.
      split; [naive_solver|]. intros (Hx & Hp & Hb). split_and!; [done|lia|done|lia..]. }
    unfold hour_row. rewrite Hrow. fold (hour_row (minutes d) k h). rewrite He by done. f_equal.
    symmetry. destruct (hours d !! (k, h)) as [c|] eqn:Ec.
    + apply where_key_lookup. split; [done|]. simpl. apply Z.leb_le. lia.
    + by apply where_key_none.
Qed.

Lemma rolling_tick w d t : Rolling w d t -> Rolling w (run_once d t).2 t.
Proof.
  intros HR. unfold run_once. pose proof (roll_start _ _ _ HR). case_test; [lia|].
  pose proof (rolling_hours w (Z.to_nat (MAX_ROLLED + 1)) d t 0 HR) as HR'.
  destruct (roll_hours _ _ _ _ _) as [[n|e] d']; [|done]. by apply (rolling_prune w d').
Qed.

Lemma rolling_step w x y : Step x y -> Rolling w x.1 x.2 -> Rolling w y.1 y.2.
Proof.
  intros [d t t' k di do_ Ht Hi Ho|d t t' Ht] HR; simpl in *; apply (rolling_later w d t t') in HR; [|done| |done].
  - by apply rolling_record.
  - by apply rolling_tick.
Qed.

(** A database whose hourly table holds nothing past its watermark [w]. *)
Definition closed_at (w : Z) (d : Db) (t : Z) : Prop :=
  last_rolled_up_hour d = w /\ 0 < w /\ w mod 3600 = 0 /\ w < hour_of t /\
  forall x c, hours d !! x = Some c -> x.2 <= w.

Lemma closed_rolling w d t : closed_at w d t -> Rolling w d t.
Proof.
  intros (Hl & Hw & Ha & Hc & Hk). subst w. split; [lia|done|done| |].
  - intros x c Hx. apply Hk in Hx. lia.
  - intros k h _ Hb. lia.
Qed.

(** Whatever the aggregator records and however the rollup task ticks, fails
    part way or falls behind, as long as the clock does not go back: every hour
    past the starting watermark that is rolled up and not yet older than the
    minutes kept holds exactly the sum of its minutes, for every user and
    client, and no row where there was no traffic. *)
Theorem hourly_table_exact (w : Z) (d d' : Db) (t t' : Z) (k : Key) (h : Z) :
  closed_at w d t -> rtc Step (d, t) (d', t') ->
  h mod 3600 = 0 -> w < h <= last_rolled_up_hour d' -> t' - RETENTION_1M_SECS <= h ->
  hour_row (minutes d') k h = Ok (hours d' !! (k, h)).
Proof.
  intros Hc Hr. pose proof (rtc_preserves Step (fun x => Rolling w x.1 x.2) _ _ (rolling_step w) Hr
    (closed_rolling w d t Hc)) as HR. by apply HR.
Qed.

(** ** The two views of the history *)

Lemma serve_ok d now c u from to b r : serve_traffic d now c u from to b = Ok r ->
  0 <= from < to /\ choose_bucket b (to - from) = Ok (bucket r) /\
  query_samples d (bucket r) u c from to = Ok (samples r) /\
  total_bytes_in r = Quota.wrap_i64 (sum_of bytes_in (samples r)) /\
  total_bytes_out r = Quota.wrap_i64 (sum_of bytes_out (samples r)).
Proof.
  unfold serve_traffic. case_test; [done|]. destruct (choose_bucket _ _) as [ch|]; [|done]. simpl.
  case_test; [done|]. destruct (query_samples _ _ _ _ _ _) as [rows|] eqn:Hq; [|done]. case_test; [done|].
  intros [= <-]. simpl. split_and!; [|lia|done..]. lia.
Qed.

Lemma matches_spec u c from to x : matches u c from to x = true <->
  from <= x.2 < to /\ (forall u', u = Some u' -> x.1.1 = u') /\ (forall c', c = Some c' -> x.1.2 = c').
Proof.
  unfold matches. rewrite !andb_true_iff, Z.leb_le, Z.ltb_lt.
  destruct u, c; rewrite ?bool_decide_eq_true; naive_solver.
Qed.

(** A window of whole hours cuts no hour in two. *)
Lemma matches_hour u c from to x : from mod 3600 = 0 -> to mod 3600 = 0 ->
  matches u c from to (x.1, hour_of x.2) = matches u c from to x.
Proof.
  intros Hf Ht. apply eq_iff_eq_true. rewrite !matches_spec. simpl.
  assert (from <= hour_of x.2 < to <-> from <= x.2 < to); [|tauto].
  unfold hour_of, HOUR. pose proof (Z.div_mod from 3600). pose proof (Z.div_mod to 3600).
  pose proof (Z.div_mod x.2 3600). pose proof (Z.mod_pos_bound x.2 3600). lia.
Qed.

Lemma sql_sum_all cs z c : sql_sum cs = Ok (Integer z) -> c ∈ cs -> is_integer c = true.
Proof.
  unfold sql_sum. case_match eqn:Hf; [|done]. intros _ Hc. rewrite forallb_forall in Hf.
  by apply Hf, list_elem_of_In.
Qed.

(** A query that answers met no overflowed column. *)
Lemma query_integer (i : bool) d b u c from to rows x cl :
  query_samples d b u c from to = Ok rows -> bucket_table d b !! x = Some cl ->
  matches u c from to x = true -> is_integer (side i cl) = true.
Proof.
  unfold query_samples. set (R := where_key _ _). intros Hq%collect_ok Hx Hm.
  assert (HR : R !! x = Some cl) by by apply where_key_lookup.
  assert (Hin : x.2 ∈ stable_sort Z.leb (remove_dups (snd <$> (map_to_list R).*1))).
  { rewrite stable_sort_perm. apply elem_of_remove_dups, list_elem_of_fmap. exists x. split; [done|].
    apply list_elem_of_fmap. exists (x, cl). by split; [|apply elem_of_map_to_list]. }
  apply list_elem_of_lookup in Hin as [j Hj].
  destruct (Forall2_lookup_l _ _ _ _ _ Hq Hj) as (s & _ & Hs). unfold cell_sum, cells in Hs.
  assert (Hcl : cl ∈ (map_to_list (where_key (at_ts x.2) R)).*2).
  { apply list_elem_of_fmap. exists (x, cl). split; [done|]. apply elem_of_map_to_list, where_key_lookup.
    split; [done|]. apply Z.eqb_refl. }
  destruct (sql_sum _.*1) as [ci|] eqn:Ei; [|done]. cbn in Hs.
  destruct (sql_sum _.*2) as [co|] eqn:Eo; [|done]. cbn in Hs.
  destruct ci as [zi|]; [|done]. destruct co as [zo|]; [|done].
  destruct i; simpl; [eapply sql_sum_all; [exact Ei|]|eapply sql_sum_all; [exact Eo|]]; by apply list_elem_of_fmap_2.
Qed.

(** C23. Over whole hours that are rolled up and still covered by the minutes, the
    one-minute and the one-hour view of a user, a client, a pair or the whole
    server report the same totals. *)
Theorem traffic_views_agree (w : Z) (d d' : Db) (t t' now : Z) (u c : option (list Z)) (from to : Z)
  (rm rh : TrafficResponse) :
  closed_at w d t -> rtc Step (d, t) (d', t') ->
  from mod 3600 = 0 -> to mod 3600 = 0 -> w < from -> to <= last_rolled_up_hour d' + HOUR ->
  t' - RETENTION_1M_SECS <= from ->
  serve_traffic d' now c u from to (Some (lit "1m")) = Ok rm ->
  serve_traffic d' now c u from to (Some (lit "1h")) = Ok rh ->
  total_bytes_in rh = total_bytes_in rm /\ total_bytes_out rh = total_bytes_out rm.
Proof.
  intros Hc Hr Hf Ht Hw Hto Hret (_ & Bm & Qm & Im & Om)%serve_ok (_ & Bh & Qh & Ih & Oh)%serve_ok.
  pose proof (rtc_preserves Step (fun x => Rolling w x.1 x.2) _ _ (rolling_step w) Hr
    (closed_rolling w d t Hc)) as HR. simpl in HR.
  cbn in Bm, Bh. injection Bm as Bm. injection Bh as Bh. rewrite <- Bm in Qm. rewrite <- Bh in Qh.
  assert (Hall : forall i : bool, sum_of (sample_side i) (samples rh) = sum_of (sample_side i) (samples rm)).
  { intros i. rewrite (query_total i _ _ _ _ _ _ _ Qm), (query_total i _ _ _ _ _ _ _ Qh). simpl.
    apply hours_total.
    - intros x cl Hx (Hb & _)%matches_spec. apply (roll_keys _ _ _ HR) in Hx. apply Hx. lia.
    - intros x. by apply matches_hour.
    - intros x (Hb & _)%matches_spec Hx. destruct x as [k h]. simpl in *. apply (roll_exact _ _ _ HR); [done| |lia].
      pose proof (aligned_gap h to Hx Ht). unfold HOUR in *. lia.
    - intros x cl Hx Hm. by eapply (query_integer i d' H1). }
  rewrite Im, Om, Ih, Oh. pose proof (Hall true) as Hi. pose proof (Hall false) as Ho. simpl in Hi, Ho.
  change (sum_of bytes_in (samples rh) = sum_of bytes_in (samples rm)) in Hi.
  change (sum_of bytes_out (samples rh) = sum_of bytes_out (samples rm)) in Ho. by rewrite Hi, Ho.
Qed.

(** ** The watermark *)

(** Where the loop leaves the watermark: the last closed hour, or as many hours
    further as one tick may roll up. *)
Lemma roll_hours_watermark fuel d next now_hour r n d' :
  last_rolled_up_hour d = next - HOUR -> next mod 3600 = 0 -> now_hour mod 3600 = 0 -> next <= now_hour ->
  Z.of_nat fuel = MAX_ROLLED + 1 - r ->
  roll_hours fuel d next now_hour r = (Ok n, d') ->
  last_rolled_up_hour d' = Z.min (now_hour - HOUR) (next - HOUR + (MAX_ROLLED + 1 - r) * HOUR).
Proof.
  revert d next r. unfold HOUR. induction fuel as [|fuel IH]; intros d next r Hl Hn Hh Hle Hf; simpl.
  - intros [= <- <-]. lia.
  - case_test; [|intros [= <- <-]; lia]. destruct (rollup_hour _ _) as [d1|]; [|done].
    pose proof (aligned_gap next now_hour Hn Hh ltac:(lia)).
    case_test; [intros [= <- <-]; simpl; lia|]. intros Hrun.
    apply IH in Hrun; simpl; unfold HOUR in *; [lia|lia| |done|lia|lia].
    rewrite <- Zplus_mod_idemp_l, Hn. done.
Qed.

Lemma run_once_ok d now st d' : run_once d now = (Ok st, d') ->
  exists d1, roll_hours (Z.to_nat (MAX_ROLLED + 1)) d
      (if last_rolled_up_hour d =? 0 then hour_of now - HOUR else last_rolled_up_hour d + HOUR) (hour_of now) 0 =
      (Ok (rolled_up_hours st), d1) /\
    d' = mkDb (where_key (fun x => now - RETENTION_1M_SECS <=? x.2) (minutes d1))
           (where_key (fun x => now - RETENTION_1H_SECS <=? x.2) (hours d1)) (last_rolled_up_hour d1).
Proof.
  unfold run_once. destruct (roll_hours _ _ _ _ _) as [[n|e] d1]; [|done]. simpl. intros [= <- <-].
  exists d1. done.
Qed.

(** A tick that succeeds brings the watermark to the last closed hour, or 2161
    hours further when the server was down for longer than that. *)
Theorem tick_catches_up (d d' : Db) (now : Z) (st : RollupStats) :
  last_rolled_up_hour d <> 0 -> last_rolled_up_hour d mod 3600 = 0 -> last_rolled_up_hour d < hour_of now ->
  run_once d now = (Ok st, d') ->
  last_rolled_up_hour d' = Z.min (hour_of now - HOUR) (last_rolled_up_hour d + (MAX_ROLLED + 1) * HOUR).
Proof.
  intros H0 Ha Hl (d1 & Hr & ->)%run_once_ok. simpl. rewrite (proj2 (Z.eqb_neq _ _) H0) in Hr.
  pose proof (aligned_gap _ _ Ha (hour_of_aligned now) Hl). unfold HOUR in *.
  apply roll_hours_watermark in Hr; unfold HOUR in *; [lia|lia| |apply hour_of_aligned|lia|done].
  rewrite <- Zplus_mod_idemp_l, Ha. done.
Qed.

(** Rolling an hour up twice is rolling it up once. *)
Theorem rollup_hour_idempotent (d d' : Db) (h : Z) : rollup_hour d h = Ok d' -> rollup_hour d' h = Ok d'.
Proof.
  unfold rollup_hour. destruct (rollup_rows (minutes d) h) as [rows|] eqn:Er; [|done]. simpl.
  intros [= <-]. simpl. rewrite Er. simpl. do 2 f_equal. rewrite (assoc_L (∪)). by rewrite (idemp_L (∪)).
Qed.

(** The task wakes a minute after the full hour. *)
Theorem wakes_after_the_hour (now : Z) :
  (now + sleep_secs now) mod HOUR = 60 /\ 0 < sleep_secs now <= HOUR.
Proof.
  unfold sleep_secs, HOUR. pose proof (Z.div_mod now 3600). pose proof (Z.mod_pos_bound now 3600). case_test.
  - split; [|lia]. symmetry. apply (Z.mod_unique _ _ (now / 3600)); lia.
  - split; [|lia]. symmetry. apply (Z.mod_unique _ _ (now / 3600 + 1)); lia.
Qed.

(** ** The first tick *)

Lemma roll_hours_past fuel d next now_hour r x : x.2 < next ->
  hours (roll_hours fuel d next now_hour r).2 !! x = hours d !! x.
Proof.
  revert d next r. induction fuel as [|fuel IH]; intros d next r Hx; simpl; [done|]. case_test; [|done].
  destruct (rollup_hour _ _) as [d'|] eqn:Er; [|done]. apply rollup_hour_ok in Er as (_ & _ & Ho & _).
  rewrite <- Ho by lia. case_test; [done|]. rewrite IH by (unfold HOUR; lia). done.
Qed.

Lemma roll_hours_forward fuel d next now_hour r : last_rolled_up_hour d <= next ->
  last_rolled_up_hour d <= last_rolled_up_hour (roll_hours fuel d next now_hour r).2.
Proof.
  revert d next r. induction fuel as [|fuel IH]; intros d next r Hx; simpl; [done|]. case_test; [|done].
  destruct (rollup_hour _ _) as [d'|] eqn:Er; [|done]. case_test; [done|].
  pose proof (IH (set_last_rolled_up_hour d' next) (next + HOUR) (r + 1)) as H'. simpl in H'. unfold HOUR in *. lia.
Qed.

Lemma roll_hours_minutes fuel d next now_hour r : minutes (roll_hours fuel d next now_hour r).2 = minutes d.
Proof.
  revert d next r. induction fuel as [|fuel IH]; intros d next r; simpl; [done|]. case_test; [|done].
  destruct (rollup_hour _ _) as [d'|] eqn:Er; [|done]. apply rollup_hour_ok in Er as (Hm & _).
  case_test; [done|]. by rewrite IH.
Qed.

(** The first tick rolls up one hour. *)
Lemma roll_hours_once fuel d now_hour n d' :
  roll_hours (S (S fuel)) d (now_hour - HOUR) now_hour 0 = (Ok n, d') -> last_rolled_up_hour d' = now_hour - HOUR.
Proof.
  simpl. rewrite (proj2 (Z.ltb_lt _ _)) by (unfold HOUR; lia). destruct (rollup_hour _ _) as [d1|]; [|done].
  simpl. replace (now_hour - HOUR + HOUR) with now_hour by lia. rewrite Z.ltb_irrefl. by intros [= <- <-].
Qed.

(** No row of the hourly table for [x], and the watermark is past it. *)
Definition passed (x : Key * Z) (s : Db * Z) : Prop :=
  0 < last_rolled_up_hour s.1 /\ x.2 < last_rolled_up_hour s.1 /\ hours s.1 !! x = None.

Lemma passed_step x s s' : Step s s' -> passed x s -> passed x s'.
Proof.
  intros [d t t' k di do_ Ht Hi Ho|d t t' Ht] (H0 & Hl & Hn); [done|]. unfold passed. simpl in *.
  unfold run_once. case_test; [lia|].
  pose proof (roll_hours_past (Z.to_nat (MAX_ROLLED + 1)) d (last_rolled_up_hour d + HOUR) (hour_of t') 0 x
    ltac:(unfold HOUR; lia)) as Hp.
  pose proof (roll_hours_forward (Z.to_nat (MAX_ROLLED + 1)) d (last_rolled_up_hour d + HOUR) (hour_of t') 0
    ltac:(unfold HOUR; lia)) as Hf.
  destruct (roll_hours _ _ _ _ _) as [[n|e] d']; simpl in *; [|split_and!; [lia|lia|congruence]].
  split_and!; [lia|lia|]. apply where_key_none. congruence.
Qed.

(** The first tick of a database starts one hour back: traffic recorded before
    that hour never reaches the hourly table, although its minutes are kept
    for a week. *)
Theorem first_tick_forgets (d d1 d' : Db) (now t' : Z) (st : RollupStats) (k : Key) (h : Z) :
  last_rolled_up_hour d = 0 -> hours d !! (k, h) = None -> 2 * HOUR <= now -> h < hour_of now - HOUR ->
  run_once d now = (Ok st, d1) -> rtc Step (d1, now) (d', t') ->
  hours d' !! (k, h) = None /\
  forall x, now - RETENTION_1M_SECS <= x -> minutes d1 !! (k, x) = minutes d !! (k, x).
Proof.
  intros H0 Hn Hnow Hh (d2 & Hr & ->)%run_once_ok Hrtc. rewrite H0, Z.eqb_refl in Hr.
  pose proof (hour_of_le (2 * HOUR) now Hnow) as Hle. change (hour_of (2 * HOUR)) with (2 * HOUR) in Hle.
  split.
  - refine (proj2 (proj2 (rtc_preserves Step (passed (k, h)) _ _ (passed_step (k, h)) Hrtc _))).
    pose proof (roll_hours_past (Z.to_nat (MAX_ROLLED + 1)) d (hour_of now - HOUR) (hour_of now) 0 (k, h) Hh) as Hp.
    rewrite Hr in Hp. simpl in Hp. unfold passed. simpl.
    apply (roll_hours_once (Z.to_nat (MAX_ROLLED - 1))) in Hr.
    unfold HOUR in *. split_and!; [lia|lia|]. apply where_key_none. congruence.
  - intros x Hx. simpl.
    pose proof (roll_hours_minutes (Z.to_nat (MAX_ROLLED + 1)) d (hour_of now - HOUR) (hour_of now) 0) as Hm.
    rewrite Hr in Hm. simpl in Hm. rewrite <- Hm. destruct (minutes d2 !! (k, x)) as [c|] eqn:Ec.
    + apply where_key_lookup. split; [done|]. apply Z.leb_le. done.
    + by apply where_key_none.
Qed.

(** ** Who sees what *)

Lemma serve_traffic_own (d d' : Db) now c u from to b :
  (forall b x, x.1.1 = u -> bucket_table d b !! x = bucket_table d' b !! x) ->
  serve_traffic d now c (Some u) from to b = serve_traffic d' now c (Some u) from to b.
Proof.
  intros Hd. unfold serve_traffic. case_test; [done|]. destruct (choose_bucket _ _) as [ch|]; [|done]. simpl.
  case_test; [done|]. unfold query_samples.
  assert (Hw : where_key (matches (Some u) c from to) (bucket_table d ch) =
    where_key (matches (Some u) c from to) (bucket_table d' ch)); [|by rewrite Hw].
  apply where_key_ext. intros x cl. rewrite matches_spec. split; intros (Hx & Hb & Hu & Hc);
    [rewrite <- Hd by by apply Hu|rewrite Hd by by apply Hu]; naive_solver.
Qed.

(** What an ordinary user is answered, whatever they ask for, depends on no row
    of another user. *)
Theorem user_traffic_isolated (client_id_of : list Z -> option Z) (cid_text : Z -> list Z) (d d' : Db) (now : Z)
  (identity : Rbac.OperatorIdentity) (user_id : list Z) (q : TrafficQuery) :
  Rbac.role identity = Rbac.User ->
  (forall b x, x.1.1 = Rbac.who identity -> bucket_table d b !! x = bucket_table d' b !! x) ->
  get_user_traffic client_id_of cid_text d now identity user_id q =
    get_user_traffic client_id_of cid_text d' now identity user_id q /\
  get_client_traffic client_id_of cid_text d now identity user_id q = Err (Denied Rbac.RoleRequired) /\
  get_global_traffic d now identity q = Err (Denied Rbac.RoleRequired).
Proof.
  intros Hrole Hd. split_and!.
  - unfold get_user_traffic, require_self_or_superadmin. rewrite Hrole, bool_decide_false by done.
    case_bool_decide as Hu; [|done]. subst user_id. simpl. pose proof (serve_traffic_own d d') as Hown.
    destruct (q_client_id q) as [raw|]; simpl; [|by apply Hown].
    destruct (parse_client_id _ raw); simpl; [by apply Hown|done].
  - unfold get_client_traffic, Rbac.require_role. by rewrite Hrole.
  - unfold get_global_traffic, Rbac.require_role. by rewrite Hrole.
Qed.

(** ** Witnesses *)

Definition demo_pair : Key := (lit "a", [1]).

(** Nothing recorded, the hours up to ten o'clock rolled up. *)
Definition demo_db : Db := mkDb ∅ ∅ 36000.

Definition demo_recorded : Db :=
  mkDb (upsert_1m_delta (upsert_1m_delta ∅ demo_pair (align_minute 43262) 5 7) demo_pair (align_minute 43325) 10 20)
    ∅ 36000.

Definition demo_rolled : Db := (run_once demo_recorded 46860).2.

Lemma demo_steps : rtc Step (demo_db, 43200) (demo_rolled, 46860).
Proof.
  eapply rtc_l; [apply (S_record demo_db 43200 43262 demo_pair 5 7); lia|].
  eapply rtc_l; [apply (S_record _ 43262 43325 demo_pair 10 20); lia|].
  eapply rtc_l; [apply (S_tick demo_recorded 43325 46860); lia|]. apply rtc_refl.
Qed.

Lemma demo_closed : closed_at 36000 demo_db 43200.
Proof. split_and!; [done..|]. intros x c. simpl. by rewrite lookup_empty. Qed.

Lemma hourly_table_exact_witness :
  hours demo_rolled !! (demo_pair, 43200) = Some (Integer 15, Integer 27) /\
  hour_row (minutes demo_rolled) demo_pair 43200 = Ok (hours demo_rolled !! (demo_pair, 43200)).
Proof.
  split; [vm_compute; reflexivity|].
  apply (hourly_table_exact 36000 demo_db demo_rolled 43200 46860 demo_pair 43200 demo_closed demo_steps);
    vm_compute; (done || by split).
Defined.

Definition demo_view (b : string) : Result TrafficResponse TrafficError :=
  serve_traffic demo_rolled 46900 None (Some (lit "a")) 39600 46800 (Some (lit b)).

Definition demo_minutes : TrafficResponse := mkResponse M1 [mkSample 43260 5 7; mkSample 43320 10 20] 15 27.
Definition demo_hours : TrafficResponse := mkResponse H1 [mkSample 43200 15 27] 15 27.

Lemma traffic_views_agree_witness :
  total_bytes_in demo_hours = total_bytes_in demo_minutes /\ total_bytes_out demo_hours = total_bytes_out demo_minutes.
Proof.
  apply (traffic_views_agree 36000 demo_db demo_rolled 43200 46860 46900 (Some (lit "a")) None 39600 46800
    demo_minutes demo_hours demo_closed demo_steps); vm_compute; done.
Defined.

Lemma tick_catches_up_witness :
  last_rolled_up_hour demo_rolled =
    Z.min (hour_of 46860 - HOUR) (last_rolled_up_hour demo_recorded + (MAX_ROLLED + 1) * HOUR).
Proof.
  apply (tick_catches_up demo_recorded demo_rolled 46860 (mkStats 2 0 0)); [done|done|done|].
  vm_compute. reflexivity.
Defined.

Lemma rollup_hour_idempotent_witness :
  rollup_hour (mkDb (minutes demo_rolled) (hours demo_rolled) 36000) 43200 =
    Ok (mkDb (minutes demo_rolled) (hours demo_rolled) 36000).
Proof. apply (rollup_hour_idempotent demo_recorded). vm_compute. reflexivity. Defined.

(** Traffic at noon, the server down until the evening, its first tick after
    nineteen. *)
Definition demo_fresh : Db := mkDb (minutes demo_recorded) ∅ 0.
Definition demo_first : Db := (run_once demo_fresh 68460).2.

Lemma first_tick_forgets_witness :
  minutes demo_first !! (demo_pair, 43260) = Some (Integer 5, Integer 7) /\
  hours demo_first !! (demo_pair, 43200) = None.
Proof.
  split; [vm_compute; reflexivity|].
  refine (proj1 (first_tick_forgets demo_fresh demo_first demo_first 68460 68460 (mkStats 1 0 0) demo_pair 43200
    eq_refl eq_refl _ _ _ (rtc_refl _ _))); [done|done|].
  vm_compute. reflexivity.
Defined.

Definition demo_user : Rbac.OperatorIdentity := Rbac.mkIdentity (lit "b") Rbac.User.

Definition demo_alice : Db := mkDb {[(demo_pair, 43260) := (Integer 5, Integer 7)]} ∅ 36000.

Lemma user_traffic_isolated_witness :
  get_user_traffic (fun _ => Some 1) (fun c => [c]) demo_alice 46900 demo_user (lit "b")
      (mkQuery None None 39600 46800 None) =
    get_user_traffic (fun _ => Some 1) (fun c => [c]) demo_db 46900 demo_user (lit "b")
      (mkQuery None None 39600 46800 None).
Proof.
  refine (proj1 (user_traffic_isolated (fun _ => Some 1) (fun c => [c]) demo_alice demo_db 46900 demo_user (lit "b")
    (mkQuery None None 39600 46800 None) eq_refl _)).
  intros b x Hx. simpl in Hx. destruct b; [|done]. simpl.
  rewrite lookup_singleton_ne, lookup_empty; [done|]. intros <-. discriminate Hx.
Defined.

End TrafficSamples.
