(* ===== verification/QuotaHttp.v ===== *)
(** * Quota endpoints and the quota messages to clients

    The quota handlers of [crates/portunus-server/src/operator/quota_http.rs],
    the messages of [traffic_quotas/mod.rs], the pushes of the period rollover
    ([traffic_quotas/rollover.rs]) and the task of [serve.rs] that relays the
    exhaustion events of the aggregator, over the server's state, and what the
    messages do to the registry of a client.

    A message sent to a live session is an entry of [outbox] under the token of
    the session; a closed session drops it.  Calendar arithmetic can panic, so
    handlers return an [Outcome] beside the state they leave.  [patch_quota]
    reads the cached row and writes it back in two steps, between which another
    thread may bill traffic. *)

From S2P Require Import Prelude Text Rbac Identity Quota TrafficPeriod TrafficQuota.
From S2P Require Import ClientTokens ClientSessions RulePersist RulePush ClientControl Metrics OwnerCaps AppState.

Import TrafficPeriod.TrafficPeriod TrafficQuota.TrafficQuota.

Local Open Scope Z_scope.

Module QuotaHttp.

#[local] Existing Instance Rbac.OperatorRole_eq_dec.

(** ** Messages *)

(** [TrafficQuotaUpdate]; [SET] carries the state and the bounds of its period. *)
Inductive QuotaFrame : Type :=
| SetQuota (user client name : list Z) (st : Quota.QuotaState) (started ends : Z)
| RemoveQuota (user client name : list Z).

Record Server : Type := mkServer {
  app : AppState.AppState;
  tokens : ClientTokens.Db;
  outbox : list (Z * QuotaFrame);
}.

Definition aggregator (s : Server) : Aggregator := AppState.traffic (app s).

Definition quotas_of (s : Server) : Quotas := quotas (aggregator s).

Definition clients_of (s : Server) : Clients.ConnectedClients := RulePush.clients (AppState.push (app s)).

Definition set_traffic (s : Server) (a : Aggregator) : Server :=
  let p := app s in
  mkServer (AppState.mkState (AppState.push p) (AppState.operators p) (AppState.caps p) (AppState.stats p)
    (AppState.metrics p) (AppState.per_port p) a) (tokens s) (outbox s).

Definition set_quotas (s : Server) (q : Quotas) : Server :=
  let a := aggregator s in set_traffic s (mkAgg (prev a) q (samples a) (events a)).

(** [outbound.send]: a closed channel drops the message. *)
Definition send (s : Server) (session : Z) (f : QuotaFrame) : Server :=
  if bool_decide (session ∈ RulePush.closed (AppState.push (app s))) then s
  else mkServer (app s) (tokens s) (outbox s ++ [(session, f)]).

Definition state_of (r : TrafficQuotaRow) : Quota.QuotaState :=
  Quota.mkState (monthly_bytes r) (budget_remaining r) (is_exhausted r).

Inductive QuotaError : Type :=
| Denied (e : Rbac.RbacError)
| InvalidQuotaSize
| ClientNotFound
| InternalError
| QuotaTargetNotFound
| QuotaUnsupportedByClient
| InvalidBillingAnchor
| StoreFailed (e : StoreError)
| QuotaNotFound
| NotOwner.

Record QuotaView : Type := mkView {
  v_user_id : list Z;
  v_client_id : list Z;
  v_client_name : list Z;
  v_monthly_bytes : Z;
  v_billing_anchor : Z;
  v_current_period_started_at : Z;
  v_current_period_ends_at : Z;
  v_current_period_bytes_used : Z;
  v_budget_remaining_bytes : Z;
  v_exhausted_at : option Z;
  v_exhausted : bool;
  v_created_at : Z;
  v_updated_at : Z;
}.

Record PutQuotaBody : Type := mkPut { put_monthly_bytes : Z; put_billing_anchor : option Z }.

Record PatchQuotaBody : Type := mkPatch {
  patch_monthly_bytes : option Z;
  patch_clear_period_usage : option bool;
}.

Definition lift_rbac {A} (r : Result A Rbac.RbacError) : Result A QuotaError :=
  match r with Ok a => Ok a | Err e => Err (Denied e) end.

Definition map_store_error {A} (r : Result A StoreError) : Result A QuotaError :=
  match r with Ok a => Ok a | Err e => Err (StoreFailed e) end.

Definition with_limit (r : TrafficQuotaRow) (mb now : Z) : TrafficQuotaRow :=
  mkRow (user_id r) (client_id r) (client_name r) mb (billing_anchor r) (current_period_started_at r)
    (current_period_bytes_used r) (exhausted_at r) (created_at r) now.

Definition list_for_user (q : Quotas) (u : list Z) : list TrafficQuotaRow :=
  filter (fun r => user_id r = u) (map_to_list (cache q)).*2.

Definition list_all (q : Quotas) : list TrafficQuotaRow := (map_to_list (cache q)).*2.

(** ** Checks *)

Definition require_self_or_superadmin (identity : Rbac.OperatorIdentity) (u : list Z) : Result unit QuotaError :=
  if bool_decide (Rbac.role identity = Rbac.Superadmin) then Ok tt
  else if bool_decide (Rbac.who identity = u) then Ok tt
  else Err NotOwner.

Definition resolve_client_name (s : Server) (cid : Z) : Result (list Z) QuotaError :=
  match ClientTokens.get_by_id (tokens s) cid with
  | Ok (Some p) => Ok (ClientTokens.p_name p)
  | Ok None => Err ClientNotFound
  | Err _ => Err InternalError
  end.

(** [list_grants] answers nothing when a row does not decode; a user id that
    does not parse is looked up as it is. *)
Definition require_grant (s : Server) (u client : list Z) : Result unit QuotaError :=
  let grants := default [] (Identity.decode_rows (Identity.rows_of (AppState.operators (app s)) u)) in
  if existsb (fun g => match Rbac.client g with
                       | Rbac.Any => true
                       | Rbac.Named c => bool_decide (c = client)
                       end) grants
  then Ok tt else Err QuotaTargetNotFound.

Definition require_client_supports_quota (s : Server) (cid : Z) : Result unit QuotaError :=
  if RulePush.version_at_least (Clients.client_version_of (clients_of s) cid) 1 4 then Ok tt
  else Err QuotaUnsupportedByClient.

Section Handlers.
Context `{Chrono}.

(** [ClientId::from_str] and [to_string] of the [ulid] crate. *)
Context (client_id_of : list Z -> option Z) (cid_text : Z -> list Z).

Notation Reply A := (Outcome (Result A QuotaError) * Server)%type.

Definition parse_client_id (raw : list Z) : Result Z QuotaError :=
  match client_id_of raw with Some c => Ok c | None => Err ClientNotFound end.

Definition from_row (r : TrafficQuotaRow) : Outcome QuotaView :=
  obind (compute_period_end (billing_anchor r) (current_period_started_at r)) (fun ends_at =>
  Returns (mkView (user_id r) (client_id r) (client_name r) (monthly_bytes r) (billing_anchor r)
    (current_period_started_at r) ends_at (current_period_bytes_used r) (budget_remaining r)
    (exhausted_at r) (is_exhausted r) (created_at r) (updated_at r))).

Definition make_traffic_quota_set_msg (r : TrafficQuotaRow) : Outcome QuotaFrame :=
  obind (compute_period_end (billing_anchor r) (current_period_started_at r)) (fun ends_at =>
  Returns (SetQuota (user_id r) (client_id r) (client_name r) (state_of r) (current_period_started_at r) ends_at)).

(** The message is built only for a connected client. *)
Definition push_quota_set (s : Server) (cid : Z) (r : TrafficQuotaRow) : Outcome Server :=
  match Clients.handles (clients_of s) cid with
  | None => Returns s
  | Some session => obind (make_traffic_quota_set_msg r) (fun msg => Returns (send s session msg))
  end.

Definition push_quota_remove (s : Server) (u : list Z) (cid : Z) (name : list Z) : Server :=
  match Clients.handles (clients_of s) cid with
  | None => s
  | Some session => send s session (RemoveQuota u (cid_text cid) name)
  end.

(** ** Writes *)

(** The push and the answer that end [put_quota] and [patch_quota]. *)
Definition push_and_show (s : Server) (cid : Z) (r : TrafficQuotaRow) : Reply QuotaView :=
  match push_quota_set s cid r with
  | Panics => (Panics, s)
  | Returns s => (obind (from_row r) (fun v => Returns (Ok v)), s)
  end.

Definition put_checks (s : Server) (identity : Rbac.OperatorIdentity) (u raw : list Z) (body : PutQuotaBody) :
  Result (Z * list Z) QuotaError :=
  let? _ := lift_rbac (Rbac.require_role identity Rbac.Superadmin) in
  if put_monthly_bytes body <? 0 then Err InvalidQuotaSize
  else
    let? cid := parse_client_id raw in
    let? client := resolve_client_name s cid in
    let? _ := require_grant s u client in
    let? _ := require_client_supports_quota s cid in
    Ok (cid, client).

Definition put_quota (s : Server) (identity : Rbac.OperatorIdentity) (u raw : list Z) (body : PutQuotaBody)
  (now : Z) : Reply QuotaView :=
  match put_checks s identity u raw body with
  | Err e => (Returns (Err e), s)
  | Ok (cid, client) =>
    let anchor := default now (put_billing_anchor body) in
    match timestamp_opt anchor with
    | None => (Returns (Err InvalidBillingAnchor), s)
    | Some anchor_dt =>
      match period_start_at anchor_dt 0 with
      | Panics => (Panics, s)
      | Returns started =>
        let row := mkRow u (cid_text cid) client (put_monthly_bytes body) anchor (timestamp started) 0 None now now in
        match upsert (quotas_of s) row with
        | (Err e, _) => (Returns (Err (StoreFailed e)), s)
        | (Ok saved, q) => push_and_show (set_quotas s q) cid saved
        end
      end
    end
  end.

(** What [patch_quota] does up to and including its read of the cache. *)
Definition patch_read (s : Server) (identity : Rbac.OperatorIdentity) (u raw : list Z) :
  Result (Z * TrafficQuotaRow) QuotaError :=
  let? _ := lift_rbac (Rbac.require_role identity Rbac.Superadmin) in
  let? cid := parse_client_id raw in
  match get (quotas_of s) (u, cid_text cid) with
  | Some row => Ok (cid, row)
  | None => Err QuotaNotFound
  end.

Definition patch_limit (s : Server) (row : TrafficQuotaRow) (body : PatchQuotaBody) (now : Z) :
  Result TrafficQuotaRow QuotaError * Server :=
  match patch_monthly_bytes body with
  | None => (Ok row, s)
  | Some mb =>
    if mb <? 0 then (Err InvalidQuotaSize, s)
    else
      let (r, q) := upsert (quotas_of s) (with_limit row mb now) in
      (map_store_error r, set_quotas s q)
  end.

Definition patch_clear (s : Server) (k : Key) (row : TrafficQuotaRow) (body : PatchQuotaBody) (now : Z) :
  Result TrafficQuotaRow QuotaError * Server :=
  if default false (patch_clear_period_usage body) then
    let (r, q) := clear_period_usage (quotas_of s) k now in
    (match r with
     | Ok (Some updated) => Ok updated
     | Ok None => Ok row
     | Err e => Err (StoreFailed e)
     end, set_quotas s q)
  else (Ok row, s).

(** The rest of [patch_quota], with the row it read. *)
Definition patch_write (s : Server) (u : list Z) (cid : Z) (row : TrafficQuotaRow) (body : PatchQuotaBody)
  (now : Z) : Reply QuotaView :=
  match patch_limit s row body now with
  | (Err e, s) => (Returns (Err e), s)
  | (Ok row, s) =>
    match patch_clear s (u, cid_text cid) row body now with
    | (Err e, s) => (Returns (Err e), s)
    | (Ok row, s) => push_and_show s cid row
    end
  end.

Definition patch_quota (s : Server) (identity : Rbac.OperatorIdentity) (u raw : list Z) (body : PatchQuotaBody)
  (now : Z) : Reply QuotaView :=
  match patch_read s identity u raw with
  | Err e => (Returns (Err e), s)
  | Ok (cid, row) => patch_write s u cid row body now
  end.

Definition delete_checks (identity : Rbac.OperatorIdentity) (raw : list Z) : Result Z QuotaError :=
  let? _ := lift_rbac (Rbac.require_role identity Rbac.Superadmin) in
  parse_client_id raw.

Definition delete_quota (s : Server) (identity : Rbac.OperatorIdentity) (u raw : list Z) : Reply unit :=
  match delete_checks identity raw with
  | Err e => (Returns (Err e), s)
  | Ok cid =>
    let display_name := match resolve_client_name s cid with Ok c => c | Err _ => cid_text cid end in
    match TrafficQuota.delete_quota (quotas_of s) (u, cid_text cid) with
    | (Err e, q) => (Returns (Err (StoreFailed e)), set_quotas s q)
    | (Ok false, q) => (Returns (Err QuotaNotFound), set_quotas s q)
    | (Ok true, q) => (Returns (Ok tt), push_quota_remove (set_quotas s q) u cid display_name)
    end
  end.

(** ** Reads *)

Fixpoint views (rows : list TrafficQuotaRow) : Outcome (list QuotaView) :=
  match rows with
  | [] => Returns []
  | r :: rows => obind (from_row r) (fun v => obind (views rows) (fun vs => Returns (v :: vs)))
  end.

Definition show {A} (r : Outcome A) : Outcome (Result A QuotaError) := obind r (fun a => Returns (Ok a)).

Definition get_quota_status (s : Server) (identity : Rbac.OperatorIdentity) (u raw : list Z) :
  Outcome (Result QuotaView QuotaError) :=
  match (let? _ := require_self_or_superadmin identity u in parse_client_id raw) with
  | Err e => Returns (Err e)
  | Ok cid =>
    match get (quotas_of s) (u, cid_text cid) with
    | Some r => show (from_row r)
    | None => Returns (Err QuotaNotFound)
    end
  end.

Definition list_user_quotas (s : Server) (identity : Rbac.OperatorIdentity) (u : list Z) :
  Outcome (Result (list QuotaView) QuotaError) :=
  match require_self_or_superadmin identity u with
  | Err e => Returns (Err e)
  | Ok _ => show (views (list_for_user (quotas_of s) u))
  end.

Definition list_client_quotas (s : Server) (identity : Rbac.OperatorIdentity) (raw : list Z) :
  Outcome (Result (list QuotaView) QuotaError) :=
  match (let? cid := delete_checks identity raw in
         let? _ := resolve_client_name s cid in Ok cid) with
  | Err e => Returns (Err e)
  | Ok cid => show (views (list_for_client (quotas_of s) (cid_text cid)))
  end.

(** ** Background pushes *)

Definition push_reset (s : Server) (r : TrafficQuotaRow) : Outcome Server :=
  match client_id_of (client_id r) with
  | None => Returns s
  | Some cid => push_quota_set s cid r
  end.

(** [rollover::run_once] over the rows it listed; [n] rows advanced so far. *)
Fixpoint rollover_rows (rows : list TrafficQuotaRow) (now : DateTime) (s : Server) (n : nat) :
  Outcome (Result nat StoreError) * Server :=
  match rows with
  | [] => (Returns (Ok n), s)
  | r :: rows =>
    match due r now with
    | Panics => (Panics, s)
    | Returns None => rollover_rows rows now s n
    | Returns (Some new_start) =>
      match reset_period (quotas_of s) (key_of r) new_start (timestamp now) with
      | (Err e, q) => (Returns (Err e), set_quotas s q)
      | (Ok None, q) => rollover_rows rows now (set_quotas s q) n
      | (Ok (Some updated), q) =>
        match push_reset (set_quotas s q) updated with
        | Panics => (Panics, set_quotas s q)
        | Returns s => rollover_rows rows now s (S n)
        end
      end
    end
  end.

Definition rollover (s : Server) (now : DateTime) : Outcome (Result nat StoreError) * Server :=
  rollover_rows (list_all (quotas_of s)) now s 0.

(** The task that relays exhaustion events takes the oldest one. *)
Definition relay_exhausted (s : Server) : Outcome Server :=
  match events (aggregator s) with
  | [] => Returns s
  | k :: evs =>
    let a := aggregator s in
    let s := set_traffic s (mkAgg (prev a) (quotas a) (samples a) evs) in
    match get (quotas_of s) k, client_id_of k.2 with
    | Some row, Some cid => push_quota_set s cid row
    | _, _ => Returns s
    end
  end.

End Handlers.

(** ** The client *)

(** The client of a session takes its messages in order. *)
Definition apply_frame (c : ClientControl.Client) (f : QuotaFrame) : ClientControl.Client :=
  match f with
  | SetQuota u _ _ st _ _ => ClientControl.apply_traffic_quota_update c true u (Some st)
  | RemoveQuota u _ _ => ClientControl.apply_traffic_quota_update c false u None
  end.
(** The handle of a user, and that its budget admits nothing. *)
Definition handle_of (c : ClientControl.Client) (u : list Z) : option Quota.QuotaHandle :=
  Quota.lookup (ClientControl.quotas c) u ≫= fun i => Quota.handles (ClientControl.quotas c) !! i.

Definition blocked (c : ClientControl.Client) (u : list Z) : Prop :=
  exists h, handle_of c u = Some h /\ forall n, Quota.consume h n = (h, Quota.Exhausted).

(** Every user of the registry has a handle. *)
Definition handles_ok (c : ClientControl.Client) : Prop :=
  forall u i, Quota.lookup (ClientControl.quotas c) u = Some i -> is_Some (Quota.handles (ClientControl.quotas c) !! i).

Lemma apply_set_handle c u cl name st a b : handles_ok c ->
  handle_of (apply_frame c (SetQuota u cl name st a b)) u = Some (Quota.new st).
Proof.
  intros Hok. unfold handle_of, apply_frame, ClientControl.apply_traffic_quota_update, Quota.install.
  unfold Quota.lookup. destruct (Quota.users (ClientControl.quotas c) !! u) as [i|] eqn:Hu.
  - destruct (Hok u i Hu) as [h Hh]. rewrite Hh. simpl. rewrite Hu. simpl. apply lookup_insert_eq.
  - simpl. rewrite lookup_insert_eq. simpl. apply lookup_insert_eq.
Qed.

(** ** State lemmas *)

Lemma quotas_of_set s q : quotas_of (set_quotas s q) = q.
Proof. done. Qed.

Lemma set_quotas_id s : set_quotas s (quotas_of s) = s.
Proof. by destruct s as [[? ? ? ? ? ? []] ? ?]. Qed.

(** What reaches a client of a message sent now. *)
Definition delivered (s : Server) (cid : Z) (f : QuotaFrame) : list (Z * QuotaFrame) :=
  match Clients.handles (clients_of s) cid with
  | Some t => if bool_decide (t ∈ RulePush.closed (AppState.push (app s))) then [] else [(t, f)]
  | None => []
  end.

Definition add_frames (s : Server) (fs : list (Z * QuotaFrame)) : Server :=
  mkServer (app s) (tokens s) (outbox s ++ fs).

Lemma add_no_frames s : add_frames s [] = s.
Proof. destruct s. unfold add_frames. simpl. by rewrite app_nil_r. Qed.

Definition period_end_args (r : TrafficQuotaRow) : Z * Z := (billing_anchor r, current_period_started_at r).

Lemma push_remove_delivers cid_text s u cid name :
  push_quota_remove cid_text s u cid name = add_frames s (delivered s cid (RemoveQuota u (cid_text cid) name)).
Proof.
  unfold push_quota_remove, delivered, send. destruct (Clients.handles _ _); [|by rewrite add_no_frames].
  case_bool_decide; [by rewrite add_no_frames|done].
Qed.

Section Pushes.
Context `{Chrono}.
Context (client_id_of : list Z -> option Z) (cid_text : Z -> list Z).

Definition period_end (r : TrafficQuotaRow) : Outcome Z :=
  compute_period_end (billing_anchor r) (current_period_started_at r).

Definition set_frame (r : TrafficQuotaRow) (ends : Z) : QuotaFrame :=
  SetQuota (user_id r) (client_id r) (client_name r) (state_of r) (current_period_started_at r) ends.

Lemma set_frame_handle c r ends : handles_ok c ->
  handle_of (apply_frame c (set_frame r ends)) (user_id r) = Some (Quota.new (state_of r)).
Proof. apply apply_set_handle. Qed.

Lemma set_frame_blocks c r ends : handles_ok c -> is_exhausted r = true ->
  blocked (apply_frame c (set_frame r ends)) (user_id r).
Proof.
  intros Hok He. eexists. split; [by apply set_frame_handle|]. intros n. unfold Quota.consume, Quota.new. simpl.
  by rewrite He.
Qed.

Lemma push_set_delivers s cid r ends : period_end r = Returns ends ->
  push_quota_set s cid r = Returns (add_frames s (delivered s cid (set_frame r ends))).
Proof.
  intros He. unfold push_quota_set, delivered, make_traffic_quota_set_msg. fold (period_end r). rewrite He. simpl.
  destruct (Clients.handles _ _); [|by rewrite add_no_frames]. unfold send.
  case_bool_decide; [by rewrite add_no_frames|done].
Qed.

(** A write ends with the message of the row and its view, unless the end of
    the period cannot be computed. *)
Lemma push_and_show_spec s cid r :
  match period_end r with
  | Returns ends => exists v, push_and_show s cid r =
      (Returns (Ok v), add_frames s (delivered s cid (set_frame r ends))) /\ v_exhausted v = is_exhausted r /\
      v_budget_remaining_bytes v = budget_remaining r /\ v_monthly_bytes v = monthly_bytes r
  | Panics => (push_and_show s cid r).1 = Panics
  end.
Proof.
  unfold push_and_show. destruct (period_end r) as [ends|] eqn:He.
  - rewrite (push_set_delivers s cid r ends He). unfold from_row. fold (period_end r). rewrite He. simpl. eauto.
  - unfold push_quota_set, make_traffic_quota_set_msg, from_row. fold (period_end r). rewrite He.
    by destruct (Clients.handles _ _).
Qed.

Lemma push_and_show_quotas s cid r : quotas_of (push_and_show s cid r).2 = quotas_of s.
Proof.
  unfold push_and_show, push_quota_set. destruct (Clients.handles _ _) as [t|]; [|done].
  destruct (make_traffic_quota_set_msg r); [|done]. simpl. unfold send. by case_bool_decide.
Qed.

Lemma push_and_show_no_err s cid r e : (push_and_show s cid r).1 <> Returns (Err e).
Proof.
  pose proof (push_and_show_spec s cid r) as Hs. destruct (period_end r).
  - destruct Hs as (v & -> & _). done.
  - by rewrite Hs.
Qed.

End Pushes.

Lemma put_checks_size client_id_of s identity u raw body x :
  put_checks client_id_of s identity u raw body = Ok x -> 0 <= put_monthly_bytes body.
Proof.
  unfold put_checks. destruct (lift_rbac _); [|done]. simpl. case_test; [done|]. lia.
Qed.

Lemma upsert_ok q r : 0 <= monthly_bytes r -> 0 <= current_period_bytes_used r ->
  upsert q r = (Ok r, mkQuotas (<[key_of r := mkStored r (Integer (current_period_bytes_used r))]> (table q))
    (<[key_of r := r]> (cache q))).
Proof.
  intros Hm Hu. unfold upsert, insert_or_replace. rewrite !(proj2 (Z.ltb_ge _ _)) by lia. done.
Qed.

(** An accepted quota starts a full budget on the server and on the client,
    whatever was used and exhausted before: the row is replaced in the table
    and the cache, no other row changes, the connected client is sent the new
    state, and its handle admits the whole limit. *)
Theorem put_starts_full_budget `{Chrono} (client_id_of : list Z -> option Z) (cid_text : Z -> list Z) (s : Server)
  (identity : Rbac.OperatorIdentity) (u raw : list Z) (body : PutQuotaBody) (now cid ends : Z) (client : list Z)
  (anchor_dt start_dt : DateTime) :
  put_checks client_id_of s identity u raw body = Ok (cid, client) ->
  put_monthly_bytes body <= i64_max ->
  timestamp_opt (default now (put_billing_anchor body)) = Some anchor_dt ->
  period_start_at anchor_dt 0 = Returns start_dt ->
  compute_period_end (default now (put_billing_anchor body)) (timestamp start_dt) = Returns ends ->
  exists v row, put_quota client_id_of cid_text s identity u raw body now =
      (Returns (Ok v),
       add_frames (set_quotas s (mkQuotas (<[(u, cid_text cid) := mkStored row (Integer 0)]> (table (quotas_of s)))
         (<[(u, cid_text cid) := row]> (cache (quotas_of s))))) (delivered s cid (set_frame row ends))) /\
    monthly_bytes row = put_monthly_bytes body /\ exhausted_at row = None /\
    forall c, handles_ok c -> handle_of (apply_frame c (set_frame row ends)) u =
      Some (Quota.mkHandle (put_monthly_bytes body) (put_monthly_bytes body =? 0)).
Proof.
  intros Hc Hmax Ha Hp He. pose proof (put_checks_size _ _ _ _ _ _ _ Hc) as Hmin.
  unfold put_quota. rewrite Hc, Ha, Hp. set (row := mkRow _ _ _ _ _ _ _ _ _ _).
  rewrite (upsert_ok (quotas_of s) row) by (simpl; lia).
  pose proof (push_and_show_spec (set_quotas s (mkQuotas (<[key_of row := mkStored row (Integer 0)]> (table (quotas_of s)))
    (<[key_of row := row]> (cache (quotas_of s))))) cid row) as Hs.
  change (period_end row) with (compute_period_end (default now (put_billing_anchor body)) (timestamp start_dt)) in Hs.
  rewrite He in Hs. destruct Hs as (v & Hv & _). exists v, row. split_and!; [exact Hv|done|done|].
  intros c Hok. unfold set_frame. rewrite apply_set_handle by done. unfold Quota.new. simpl.
  unfold budget_remaining, clamp_i64. simpl. unfold_ints. do 2 f_equal; [lia|]. f_equal. lia.
Qed.

(** ** Refusals *)

Lemma clear_no_err q k now e q' : clear_period_usage q k now <> (Err e, q').
Proof.
  unfold clear_period_usage, store_clear_period_usage, update_usage, write_through, select. simpl.
  rewrite lookup_alter_eq. by destruct (table q !! k).
Qed.

Lemma put_refused `{Chrono} client_id_of cid_text s identity u raw body now e s' :
  put_quota client_id_of cid_text s identity u raw body now = (Returns (Err e), s') -> s' = s.
Proof.
  unfold put_quota. destruct (put_checks _ _ _ _ _ _) as [[cid client]|]; [|by intros [= _ <-]].
  destruct (timestamp_opt _); [|by intros [= _ <-]]. destruct (period_start_at _ _); [|done].
  destruct (upsert _ _) as [[saved|e'] q]; [|by intros [= _ <-]]. intros Hp.
  exfalso. eapply push_and_show_no_err. by rewrite Hp.
Qed.

Lemma patch_refused `{Chrono} client_id_of cid_text s identity u raw body now e s' :
  patch_quota client_id_of cid_text s identity u raw body now = (Returns (Err e), s') -> s' = s.
Proof.
  unfold patch_quota. destruct (patch_read _ _ _ _ _ _) as [[cid row]|]; [|by intros [= _ <-]].
  unfold patch_write. destruct (patch_limit _ _ _ _) as [[row'|e'] s1] eqn:Hl.
  - destruct (patch_clear _ _ _ _ _) as [[row2|e2] s2] eqn:Hc; intros Hp.
    + exfalso. eapply push_and_show_no_err. by rewrite Hp.
    + unfold patch_clear in Hc. destruct (default false _); [|done].
      destruct (clear_period_usage _ _ _) as [[[r|]|e3] q] eqn:Hq; [done|done|]. by apply clear_no_err in Hq.
  - intros [= _ <-]. unfold patch_limit in Hl. destruct (patch_monthly_bytes body) as [mb|]; [|done].
    destruct (mb <? 0); [by simplify_eq|]. unfold upsert in Hl. destruct (insert_or_replace _ _); simplify_eq/=.
    apply set_quotas_id.
Qed.

Lemma delete_refused cido cid_text s identity u raw e s' : coherent (quotas_of s) ->
  delete_quota cido cid_text s identity u raw = (Returns (Err e), s') -> s' = s.
Proof.
  intros Hco. unfold delete_quota. destruct (delete_checks _ _ _) as [cid|]; [|by intros [= _ <-]].
  unfold TrafficQuota.delete_quota. case_bool_decide as Hk; [done|]. intros [= _ <-].
  specialize (Hco (u, cid_text cid)). destruct (table _ !! _) eqn:Ht in Hco; [destruct Hk; by eexists|].
  rewrite !delete_id by done. etransitivity; [|apply set_quotas_id]. by destruct (quotas_of s).
Qed.

(** A quota request that is refused, for whatever reason, changes nothing: no
    row, no message, no statistic. *)
Theorem refused_quota_request_changes_nothing `{Chrono} (client_id_of : list Z -> option Z)
  (cid_text : Z -> list Z) (s s' : Server) (identity : Rbac.OperatorIdentity) (u raw : list Z) (put : PutQuotaBody)
  (patch : PatchQuotaBody) (now : Z) (e : QuotaError) :
  coherent (quotas_of s) ->
  put_quota client_id_of cid_text s identity u raw put now = (Returns (Err e), s') \/
  patch_quota client_id_of cid_text s identity u raw patch now = (Returns (Err e), s') \/
  delete_quota client_id_of cid_text s identity u raw = (Returns (Err e), s') -> s' = s.
Proof.
  intros Hco [Hp|[Hp|Hd]]; [by eapply put_refused|by eapply patch_refused|by eapply delete_refused].
Qed.

(** ** Changing a quota *)

Lemma patch_read_ok cido cid_text s identity u raw cid row :
  patch_read cido cid_text s identity u raw = Ok (cid, row) -> get (quotas_of s) (u, cid_text cid) = Some row.
Proof.
  unfold patch_read. destruct (lift_rbac _); [|done]. simpl. destruct (parse_client_id _ _) as [c|]; [|done]. simpl.
  destruct (get _ _) eqn:Hg; [|done]. by intros [= <- <-].
Qed.

(** C35. Raising the limit of an exhausted quota above what was used does not let
    traffic through again: the row stays exhausted, the client is told so
    although there is budget, and it goes on refusing every byte. *)
Theorem raised_limit_stays_blocked `{Chrono} (client_id_of : list Z -> option Z) (cid_text : Z -> list Z)
  (s : Server) (identity : Rbac.OperatorIdentity) (u raw : list Z) (mb now cid ends : Z) (row : TrafficQuotaRow) :
  coherent (quotas_of s) ->
  patch_read client_id_of cid_text s identity u raw = Ok (cid, row) -> period_end row = Returns ends ->
  is_exhausted row = true -> 0 <= current_period_bytes_used row < mb -> mb <= i64_max ->
  exists v s', patch_quota client_id_of cid_text s identity u raw (mkPatch (Some mb) None) now = (Returns (Ok v), s') /\
    0 < v_budget_remaining_bytes v /\ v_exhausted v = true /\
    outbox s' = outbox s ++ delivered s cid (set_frame (with_limit row mb now) ends) /\
    forall c, handles_ok c -> blocked (apply_frame c (set_frame (with_limit row mb now) ends)) u.
Proof.
  intros Hco Hread He Hex Hu Hmax. unfold patch_quota. rewrite Hread. unfold patch_write, patch_limit. simpl.
  rewrite (proj2 (Z.ltb_ge _ _)) by lia. rewrite (upsert_ok _ (with_limit row mb now)) by (simpl; lia). simpl.
  unfold patch_clear. simpl. set (q := mkQuotas _ _).
  pose proof (push_and_show_spec (set_quotas s q) cid (with_limit row mb now)) as Hs.
  change (period_end (with_limit row mb now)) with (period_end row) in Hs. rewrite He in Hs.
  destruct Hs as (v & -> & Hve & Hvb & _). eexists v, _. split; [done|]. rewrite Hve, Hvb.
  split_and!; [|exact Hex|done|].
  - unfold budget_remaining, clamp_i64. simpl. unfold_ints. lia.
  - intros c Hok. apply patch_read_ok in Hread. unfold get in Hread. apply (cached_key _ _ _ Hco) in Hread.
    injection Hread as <- _. by apply (set_frame_blocks c (with_limit row mb now) ends).
Qed.

Lemma clear_present q k now r : coherent q -> cache q !! k = Some r -> exists r' q',
  clear_period_usage q k now = (Ok (Some r'), q') /\ key_of r' = k /\ current_period_bytes_used r' = 0 /\
  exhausted_at r' = None /\
  exists st, table q !! k = Some st /\ monthly_bytes r' = monthly_bytes (base st) /\
    period_end_args r' = period_end_args (base st).
Proof.
  intros Hco Hc. specialize (Hco k). destruct (table q !! k) as [st|] eqn:Ht; [|congruence].
  destruct Hco as (Hk & _). unfold clear_period_usage, store_clear_period_usage, update_usage, write_through, select.
  rewrite lookup_alter_eq, Ht. simpl. eexists _, _. split; [reflexivity|]. split_and!; [exact Hk|done|done|].
  exists st. done.
Qed.

(** Clearing the usage does: the whole limit is available again on the server
    and on the client. *)
Theorem cleared_usage_unblocks `{Chrono} (client_id_of : list Z -> option Z) (cid_text : Z -> list Z) (s : Server)
  (identity : Rbac.OperatorIdentity) (u raw : list Z) (now cid ends : Z) (row : TrafficQuotaRow) (st : Stored) :
  coherent (quotas_of s) ->
  patch_read client_id_of cid_text s identity u raw = Ok (cid, row) ->
  table (quotas_of s) !! (u, cid_text cid) = Some st -> period_end (base st) = Returns ends ->
  0 < monthly_bytes (base st) <= i64_max ->
  exists v s' row', patch_quota client_id_of cid_text s identity u raw (mkPatch None (Some true)) now =
      (Returns (Ok v), s') /\
    v_budget_remaining_bytes v = monthly_bytes (base st) /\ v_exhausted v = false /\
    outbox s' = outbox s ++ delivered s cid (set_frame row' ends) /\
    forall c, handles_ok c -> handle_of (apply_frame c (set_frame row' ends)) u =
      Some (Quota.mkHandle (monthly_bytes (base st)) false).
Proof.
  intros Hco Hread Hst He Hm. pose proof (patch_read_ok _ _ _ _ _ _ _ _ Hread) as Hget.
  destruct (clear_present _ _ now _ Hco Hget) as (r' & q' & Hcl & Hk & Hu & Hex & st' & Hst' & Hm' & Hp).
  rewrite Hst in Hst'. injection Hst' as <-.
  unfold patch_quota. rewrite Hread. unfold patch_write, patch_limit. simpl. unfold patch_clear. simpl. rewrite Hcl.
  pose proof (push_and_show_spec (set_quotas s q') cid r') as Hs. injection Hp as Hp1 Hp2.
  assert (Hpe : period_end r' = period_end (base st)) by (unfold period_end; congruence).
  rewrite Hpe, He in Hs. destruct Hs as (v & -> & Hve & Hvb & _). exists v. eexists _, r'. split; [done|].
  assert (Hb : budget_remaining r' = monthly_bytes (base st)).
  { unfold budget_remaining, clamp_i64. rewrite Hm', Hu. unfold_ints. lia. }
  rewrite Hve, Hvb. unfold is_exhausted. rewrite Hex, Hb. split_and!; [done..|].
  intros c Hok. injection Hk as <- _. etransitivity; [by apply (set_frame_handle c r' ends)|].
  unfold Quota.new, state_of. simpl. rewrite Hb. unfold is_exhausted. rewrite Hex.
  do 2 f_equal; [lia|]. simpl. lia.
Qed.

(** The bytes billed to a pair while a change of its limit is between its read
    and its write are lost: the usage the change read is written back, and with
    it the quota may be open that the traffic had exhausted. *)
Theorem patch_loses_traffic `{Chrono} (client_id_of : list Z -> option Z) (cid_text : Z -> list Z) (s : Server)
  (identity : Rbac.OperatorIdentity) (u raw : list Z) (mb now cid delta t u0 limit : Z) (row : TrafficQuotaRow) :
  coherent (quotas_of s) ->
  patch_read client_id_of cid_text s identity u raw = Ok (cid, row) ->
  quota_at (aggregator s) (u, cid_text cid) u0 limit None ->
  0 <= u0 -> 0 < delta -> limit <= u0 + delta <= i64_max -> 0 <= mb ->
  let billed := (accumulate (quotas_of s) (u, cid_text cid) delta t).2 in
  let s' := (patch_write cid_text (set_quotas s billed) u cid row (mkPatch (Some mb) None) now).2 in
  (exists r, get billed (u, cid_text cid) = Some r /\ current_period_bytes_used r = u0 + delta /\ is_exhausted r = true) /\
  exists r, get (quotas_of s') (u, cid_text cid) = Some r /\ current_period_bytes_used r = u0 /\ is_exhausted r = false.
Proof.
  intros Hco Hread Hq Hu0 Hd Hl Hmb billed s'. pose proof (patch_read_ok _ _ _ _ _ _ _ _ Hread) as Hget.
  pose proof (cached_key _ _ _ Hco Hget) as Hkey.
  destruct (accumulate_exact (aggregator s) _ u0 limit None delta t ∅ ∅ Hq ltac:(lia) ltac:(lia))
    as (r1 & q1 & Hacc & _ & Hq1). specialize (Hq1 []). rewrite (proj2 (Z.leb_le _ _)) in Hq1 by lia. split.
  - unfold billed. fold (quotas_of s) in Hacc. rewrite Hacc. simpl.
    destruct Hq1 as (st & r & _ & Hu & _ & Hex & _ & Hc & Hr). exists r. split; [exact Hc|].
    unfold row_to_quota in Hr. rewrite Hu in Hr. injection Hr as <-. unfold is_exhausted. simpl. by rewrite Hex.
  - destruct Hq as (st & r & _ & Hu & _ & Hex & _ & Hc & Hr). unfold get in Hget. fold (quotas_of s) in Hc.
    rewrite Hget in Hc. injection Hc as <-. unfold row_to_quota in Hr. rewrite Hu in Hr. injection Hr as Hrow.
    assert (Hused : current_period_bytes_used row = u0 /\ exhausted_at row = None) by (rewrite <- Hrow; done).
    destruct Hused as [Hused Hexr]. unfold s', patch_write, patch_limit. simpl.
    rewrite (proj2 (Z.ltb_ge _ _)) by lia. rewrite (upsert_ok _ (with_limit row mb now)) by (simpl; lia). simpl.
    unfold patch_clear. simpl. exists (with_limit row mb now). unfold is_exhausted. simpl. rewrite Hexr.
    split_and!; [|done|done]. unfold get. rewrite push_and_show_quotas. simpl.
    change (key_of (with_limit row mb now)) with (key_of row). rewrite Hkey. apply lookup_insert_eq.
Qed.

(** ** Exhaustion *)

Lemma first_crossing_reached bs : forall u limit, Forall (fun b => 0 <= b.1) bs -> u < limit ->
  limit <= u + sum_of fst bs -> is_Some (first_crossing u limit bs).
Proof.
  induction bs as [|[d t] bs IH]; intros u limit Hall Hu Hl.
  - change (sum_of fst (@nil (Z * Z))) with 0 in Hl. lia.
  - apply Forall_cons in Hall as [Hd Hall]. rewrite sum_cons in Hl. simpl in *. case_test; [done|].
    apply IH; [done|lia|lia].
Qed.

(** C9. When the readings of a client use up the quota of a pair, the event the
    aggregator emits reaches the client as the state of the row, and from then
    on its handle refuses every byte.  The relay fails only where the end of
    the billing period cannot be computed. *)
Theorem exhaustion_blocks_client `{Chrono} (client_id_of : list Z -> option Z) (s : Server) (k : Key)
  (u limit cid : Z) (reps : list Report) :
  quota_at (aggregator s) k u limit None -> 0 <= u < limit -> events (aggregator s) = [] ->
  Forall (fun r => rep_key r = k /\ unowned (rep_owner r) = false) reps ->
  limit <= u + sum_of fst (bills (prev (aggregator s)) reps) <= i64_max ->
  client_id_of k.2 = Some cid ->
  let s1 := set_traffic s (foldl record (aggregator s) reps) in
  exists row, get (quotas_of s1) k = Some row /\ is_exhausted row = true /\
    match period_end row with
    | Returns ends => exists s2, relay_exhausted client_id_of s1 = Returns s2 /\
        outbox s2 = outbox s ++ delivered s cid (set_frame row ends) /\
        forall c, handles_ok c -> blocked (apply_frame c (set_frame row ends)) k.1
    | Panics => relay_exhausted client_id_of s1 = Panics \/ Clients.handles (clients_of s) cid = None
    end.
Proof.
  intros Hq Hu Hev Hall Hsum Hcid s1.
  destruct (record_all_exact reps _ k u limit None Hq ltac:(lia) Hall ltac:(lia)) as [Hq' Hev'].
  destruct (first_crossing_reached (bills (prev (aggregator s)) reps) u limit (bills_nonneg _ _) ltac:(lia) ltac:(lia))
    as [at_ Hat].
  rewrite Hat in Hq', Hev'. rewrite Hev in Hev'. destruct Hq' as (st & row & _ & Hus & _ & Hex & Hk & Hc & Hr).
  exists row. assert (Hrow : is_exhausted row = true /\ key_of row = k).
  { rewrite (row_key _ _ Hr). unfold row_to_quota in Hr. rewrite Hus in Hr. injection Hr as <-.
    unfold is_exhausted. simpl. by rewrite Hex. }
  destruct Hrow as [Hre Hrk]. split_and!; [exact Hc|done|].
  unfold relay_exhausted. change (aggregator s1) with (foldl record (aggregator s) reps). rewrite Hev'. simpl.
  unfold get, quotas_of. simpl. rewrite Hc, Hcid. destruct (period_end row) as [ends|] eqn:He.
  - rewrite (push_set_delivers _ cid row ends He). eexists. split; [done|]. split; [done|].
    intros c Hok. rewrite <- Hrk. by apply (set_frame_blocks c row ends).
  - unfold push_quota_set, make_traffic_quota_set_msg. fold (period_end row). rewrite He.
    change (clients_of (set_traffic s1 _)) with (clients_of s).
    destruct (Clients.handles _ _); [by left|by right].
Qed.

(** ** The rollover with its messages *)

Lemma reset_period_row q k start now r q' : reset_period q k start now = (Ok (Some r), q') ->
  current_period_bytes_used r = 0 /\ exhausted_at r = None /\ current_period_started_at r = start.
Proof.
  unfold reset_period, store_reset_period, update_usage, write_through, select. simpl. rewrite lookup_alter_eq.
  destruct (table q !! k); simpl; [|done]. by intros [= <- <-].
Qed.

(** A message that opens a new period. *)
Definition fresh_frame (f : QuotaFrame) : Prop :=
  exists r ends, f = set_frame r ends /\ current_period_bytes_used r = 0 /\ exhausted_at r = None.

Lemma push_reset_delivers `{Chrono} client_id_of s r s' : push_reset client_id_of s r = Returns s' ->
  current_period_bytes_used r = 0 -> exhausted_at r = None ->
  exists fs, s' = add_frames s fs /\ Forall (fun f => fresh_frame f.2) fs.
Proof.
  intros Hp Hu He. unfold push_reset in Hp.
  destruct (client_id_of (client_id r)) as [cid|]; [|injection Hp as <-; exists []; by rewrite add_no_frames].
  destruct (period_end r) as [ends|] eqn:Hend.
  - rewrite (push_set_delivers s cid r ends Hend) in Hp. injection Hp as <-. eexists. split; [done|].
    unfold delivered. destruct (Clients.handles _ _); [|done]. case_bool_decide; [done|].
    constructor; [|done]. by exists r, ends.
  - unfold push_quota_set, make_traffic_quota_set_msg in Hp. fold (period_end r) in Hp. rewrite Hend in Hp.
    destruct (Clients.handles _ _); [done|]. injection Hp as <-. exists []. by rewrite add_no_frames.
Qed.

Lemma rollover_rows_refines `{Chrono} client_id_of now rows : forall s n res s',
  rollover_rows client_id_of rows now s n = (Returns res, s') ->
  run_rows rows now (quotas_of s) n = (Returns res, quotas_of s') /\
  exists fs, outbox s' = outbox s ++ fs /\ Forall (fun f => fresh_frame f.2) fs.
Proof.
  assert (Hnil : forall s : Server, exists fs, outbox s = outbox s ++ fs /\ Forall (fun f => fresh_frame f.2) fs).
  { intros s. exists []. by rewrite app_nil_r. }
  induction rows as [|r rows IH]; intros s n res s'; cbn [rollover_rows run_rows].
  { intros [= <- <-]. split; [done|apply Hnil]. }
  destruct (due r now) as [[start|]|]; [|apply IH|done].
  destruct (reset_period _ _ _ _) as [[[row|]|e] q] eqn:Hreset.
  - destruct (push_reset _ _ _) as [s1|] eqn:Hp; [|done]. intros Hrest.
    apply reset_period_row in Hreset as (Hu & He & _).
    destruct (push_reset_delivers _ _ _ _ Hp Hu He) as (fs & -> & Hfs).
    apply IH in Hrest as (Hrun & fs' & Ho & Hfs'). split; [exact Hrun|]. exists (fs ++ fs').
    rewrite Ho. simpl. rewrite (assoc_L (++)). split; [done|]. by apply Forall_app.
  - intros Hrest. by apply IH in Hrest.
  - intros [= <- <-]. split; [done|apply (Hnil (set_quotas s q))].
Qed.

(** The rollover with its messages does to the quotas what the rollover of the
    tables does, and every message it sends opens a new period: nothing used,
    not exhausted. *)
Theorem rollover_refines_tables `{Chrono} (client_id_of : list Z -> option Z) (s s' : Server) (now : DateTime)
  (res : Result nat StoreError) :
  rollover client_id_of s now = (Returns res, s') ->
  run_rows (list_all (quotas_of s)) now (quotas_of s) 0 = (Returns res, quotas_of s') /\
  exists fs, outbox s' = outbox s ++ fs /\ Forall (fun f => fresh_frame f.2) fs.
Proof. apply rollover_rows_refines. Qed.

(** ** Witnesses *)

(** The quota of [bob] on client 1, connected as session 0: 500 bytes from
    31 January on. *)
Definition demo_row (used : Z) (ex : option Z) : TrafficQuotaRow :=
  mkRow (lit "bob") [1] (lit "edge") 500 (secs (`jan31)) (secs (`jan31)) used ex 0 0.

Definition demo_key : Key := (lit "bob", [1]).

Definition demo_quotas (r : TrafficQuotaRow) : Quotas :=
  mkQuotas {[demo_key := mkStored r (Integer (current_period_bytes_used r))]} {[demo_key := r]}.

Definition demo_tokens : ClientTokens.Db :=
  ClientTokens.mkDb {[1 := ClientTokens.mkToken (lit "edge") [] 0 None None]} ∅ 0 ∅.

Definition demo_server (r : TrafficQuotaRow) : Server :=
  set_traffic (mkServer AppState.demo_state demo_tokens []) (mkAgg ∅ (demo_quotas r) ∅ []).

Definition demo_root : Rbac.OperatorIdentity := Rbac.mkIdentity (lit "root") Rbac.Superadmin.

Definition demo_text (c : Z) : list Z := [c].

Lemma demo_row_coherent r : key_of r = demo_key -> coherent (demo_quotas r).
Proof.
  intros Hr k. unfold demo_quotas. simpl. destruct (decide (k = demo_key)) as [->|Hne].
  - rewrite !lookup_singleton_eq. simpl. split; [done|]. exists r. split_and!; [done|done|left]. by destruct r.
  - by rewrite !lookup_singleton_ne.
Qed.

Lemma demo_period used ex : period_end (demo_row used ex) = Returns (secs (`feb28)).
Proof. reflexivity. Qed.

Lemma demo_client_ok : handles_ok ClientControl.demo_running.
Proof. intros u i. vm_compute. done. Qed.

Lemma put_starts_full_budget_witness : exists v row,
  (put_quota head demo_text (demo_server (demo_row 500 (Some 7))) demo_root (lit "bob") [1]
     (mkPut 900 (Some (secs (`jan31)))) 50).1 = Returns (Ok v) /\
  handle_of (apply_frame ClientControl.demo_running (set_frame row (secs (`feb28)))) (lit "bob") =
    Some (Quota.mkHandle 900 false).
Proof.
  destruct (put_starts_full_budget head demo_text (demo_server (demo_row 500 (Some 7))) demo_root (lit "bob") [1]
    (mkPut 900 (Some (secs (`jan31)))) 50 1 (secs (`feb28)) (lit "edge") jan31 jan31) as (v & row & Hv & _ & _ & Hh);
    [vm_compute; reflexivity|done|reflexivity|reflexivity|reflexivity|].
  exists v, row. split; [rewrite Hv; reflexivity|]. exact (Hh _ demo_client_ok).
Defined.

Lemma refused_quota_request_changes_nothing_witness :
  (put_quota head demo_text (demo_server (demo_row 500 (Some 7))) demo_root (lit "bob") [2] (mkPut 900 None) 50).2 =
    demo_server (demo_row 500 (Some 7)).
Proof.
  apply (refused_quota_request_changes_nothing head demo_text (demo_server (demo_row 500 (Some 7))) _ demo_root
    (lit "bob") [2] (mkPut 900 None)
    (mkPatch None None) 50 ClientNotFound (demo_row_coherent (demo_row 500 (Some 7)) eq_refl)).
  left. reflexivity.
Defined.

Lemma raised_limit_stays_blocked_witness : exists v s',
  patch_quota head demo_text (demo_server (demo_row 500 (Some 7))) demo_root (lit "bob") [1] (mkPatch (Some 900) None) 50 =
    (Returns (Ok v), s') /\ 0 < v_budget_remaining_bytes v /\ v_exhausted v = true.
Proof.
  destruct (raised_limit_stays_blocked head demo_text (demo_server (demo_row 500 (Some 7))) demo_root (lit "bob") [1]
    900 50 1 (secs (`feb28)) (demo_row 500 (Some 7))
    (demo_row_coherent (demo_row 500 (Some 7)) eq_refl) eq_refl (demo_period _ _) eq_refl)
    as (v & s' & Hp & Hb & He & _); [simpl; lia|done|].
  exists v, s'. exact (conj Hp (conj Hb He)).
Defined.

Lemma cleared_usage_unblocks_witness : exists v s',
  patch_quota head demo_text (demo_server (demo_row 500 (Some 7))) demo_root (lit "bob") [1] (mkPatch None (Some true)) 50 =
    (Returns (Ok v), s') /\ v_budget_remaining_bytes v = 500 /\ v_exhausted v = false.
Proof.
  destruct (cleared_usage_unblocks head demo_text (demo_server (demo_row 500 (Some 7))) demo_root (lit "bob") [1]
    50 1 (secs (`feb28)) (demo_row 500 (Some 7)) (mkStored (demo_row 500 (Some 7)) (Integer 500))
    (demo_row_coherent (demo_row 500 (Some 7)) eq_refl) eq_refl eq_refl (demo_period _ _))
    as (v & s' & row' & Hp & Hb & He & _); [simpl; unfold i64_max; lia|].
  exists v, s'. exact (conj Hp (conj Hb He)).
Defined.

Lemma demo_row_quota : quota_at (aggregator (demo_server (demo_row 100 None))) demo_key 100 500 None.
Proof. by exists (mkStored (demo_row 100 None) (Integer 100)), (demo_row 100 None). Qed.

Lemma patch_loses_traffic_witness :
  let s := demo_server (demo_row 100 None) in
  exists r, get (quotas_of (patch_write demo_text (set_quotas s (accumulate (quotas_of s) demo_key 450 9).2)
    (lit "bob") 1 (demo_row 100 None) (mkPatch (Some 600) None) 50).2) demo_key = Some r /\
    current_period_bytes_used r = 100 /\ is_exhausted r = false.
Proof.
  refine (proj2 (patch_loses_traffic head demo_text (demo_server (demo_row 100 None)) demo_root (lit "bob") [1]
    600 50 1 450 9 100 500 (demo_row 100 None) (demo_row_coherent (demo_row 100 None) eq_refl) eq_refl demo_row_quota _ _ _ _));
    unfold i64_max; lia.
Defined.

Definition demo_report : Report := mkReport [1] 4 (lit "bob") 300 200 9.

Lemma exhaustion_blocks_client_witness : exists row s2,
  relay_exhausted head (set_traffic (demo_server (demo_row 100 None))
    (foldl record (aggregator (demo_server (demo_row 100 None))) [demo_report])) = Returns s2 /\
  blocked (apply_frame ClientControl.demo_running (set_frame row (secs (`feb28)))) (lit "bob").
Proof.
  destruct (exhaustion_blocks_client head (demo_server (demo_row 100 None)) demo_key 100 500 1 [demo_report]
    demo_row_quota) as (row & Hg & _ & Hm); [lia|done|by repeat constructor|vm_compute; by split|done|].
  assert (Hp : period_end row = Returns (secs (`feb28))).
  { vm_compute in Hg. injection Hg as <-. reflexivity. }
  rewrite Hp in Hm. destruct Hm as (s2 & Hr & _ & Hb). exists row, s2. split; [exact Hr|].
  exact (Hb _ demo_client_ok).
Defined.

Lemma rollover_refines_tables_witness : exists s' fs,
  rollover head (demo_server (demo_row 500 (Some 7))) mar31 = (Returns (Ok 1%nat), s') /\
  outbox s' = fs /\ length fs = 1%nat /\ Forall (fun f => fresh_frame f.2) fs.
Proof.
  destruct (rollover head (demo_server (demo_row 500 (Some 7))) mar31) as [o s'] eqn:Hr.
  assert (Ho : o = Returns (Ok 1%nat) /\ length (outbox s') = 1%nat) by (vm_compute in Hr; by simplify_eq).
  destruct Ho as [-> Hl].
  destruct (rollover_refines_tables head (demo_server (demo_row 500 (Some 7))) s' mar31 _ Hr) as (_ & fs & Hf & Hall).
  exists s', fs. change (outbox s' = fs) in Hf. rewrite Hf in Hl. exact (conj eq_refl (conj Hf (conj Hl Hall))).
Defined.


End QuotaHttp.
