(* ===== verification/Advertised.v ===== *)
(** * The endpoint the server advertises

    [crates/portunus-server/src/advertised]: the grammar of an authority
    ([grammar.rs]), the candidate taken from a request's [Host] header
    ([host_header.rs]), the names of the server certificate and what they cover
    ([san.rs]) and the tiered resolution ([resolve.rs]); the stored override
    ([store/settings_store.rs]) and its endpoints ([operator/http.rs]).

    A certificate is the list of its subject alternative names, as the
    [x509_parser] crate returns them.  The database itself answers. *)

From S2P Require Import Prelude Text IpAddr Hostname Rbac.

Local Open Scope Z_scope.

Module Advertised.

#[local] Existing Instances IpAddr.IpAddr_eq_dec Rbac.OperatorRole_eq_dec.

(** [str::contains] of a string. *)
Fixpoint contains_str (p s : list Z) : bool :=
  match strip_prefix p s with
  | Some _ => true
  | None => match s with [] => false | _ :: s => contains_str p s end
  end.

(** ** The grammar *)

Inductive GrammarError : Type :=
| EmptyAuthority
| TooLong
| HasScheme
| HasPath
| HasQuery
| HasUserinfo
| Ipv6Literal
| HasBlank
| MissingPort
| EmptyHost
| BadPort
| ZeroPort
| BadHost.

Definition blank (c : Z) : bool := is_whitespace c || is_control c.

Definition is_ipv4 (host : list Z) : bool := bool_decide (is_Some (IpAddr.parse_ipv4 host)).

Definition is_rfc1123_hostname (host : list Z) : bool :=
  if (253 <? str_len host)%nat then false
  else if forallb (fun l => negb (bool_decide (l = [])) && forallb is_ascii_digit (as_bytes l)) (split_char 46 host)
  then false
  else
    forallb (fun l => negb (bool_decide (l = [])) && (str_len l <=? 63)%nat &&
        forallb (fun c => is_ascii_alphanumeric c || (c =? 45)) l &&
        negb (starts_with_char 45 l) && negb (ends_with_char 45 l))
      (split_char 46 host).

Definition bad_port (port_str : list Z) : bool :=
  bool_decide (port_str = []) || negb (forallb is_ascii_digit (as_bytes port_str)) ||
  ((1 <? str_len port_str)%nat && starts_with_char 48 port_str).

Definition validate_authority (s : list Z) : Result (list Z * Z) GrammarError :=
  if bool_decide (s = []) then Err EmptyAuthority
  else if (263 <? str_len s)%nat then Err TooLong
  else if contains_str (lit "://") s then Err HasScheme
  else if contains_char 47 s then Err HasPath
  else if contains_char 63 s || contains_char 35 s then Err HasQuery
  else if contains_char 64 s then Err HasUserinfo
  else if contains_char 91 s || contains_char 93 s then Err Ipv6Literal
  else if existsb blank s then Err HasBlank
  else
    match rsplit_once 58 s with
    | None => Err MissingPort
    | Some (host, port_str) =>
      if bool_decide (host = []) then Err EmptyHost
      else if bad_port port_str then Err BadPort
      else
        match parse_uint u16_max port_str with
        | None => Err BadPort
        | Some port =>
          if port =? 0 then Err ZeroPort
          else if negb (is_ipv4 host) && negb (is_rfc1123_hostname host) then Err BadHost
          else Ok (host, port)
        end
    end.

(** ** The [Host] header *)

Definition host_from_header (raw : list Z) (control_port : Z) : option (list Z) :=
  let raw := trim raw in
  if bool_decide (raw = []) || (255 <? str_len raw)%nat then None
  else if contains_str (lit "://") raw || contains_char 47 raw || contains_char 64 raw || contains_char 91 raw ||
    contains_char 93 raw || existsb blank raw then None
  else
    match match rsplit_once 58 raw with
          | Some (h, p) => if forallb is_ascii_digit p && negb (bool_decide (p = [])) then Some h else None
          | None => Some raw
          end with
    | None => None
    | Some host =>
      if bool_decide (host = []) then None
      else
        let candidate := host ++ lit ":" ++ dec control_port in
        match validate_authority candidate with Ok _ => Some candidate | Err _ => None end
    end.

(** ** Names of the certificate *)

Inductive GeneralName : Type :=
| DNSName (d : list Z)
| IPAddress (bytes : list Z)
| OtherName.

Record CertSanSet : Type := mkSan { dns : list (list Z); ips : list IpAddr.IpAddr }.

(** Pairs of bytes, most significant first. *)
Fixpoint groups (bs : list Z) : list Z :=
  match bs with
  | hi :: lo :: bs => hi * 256 + lo :: groups bs
  | _ => []
  end.

Definition bytes_to_ip (bs : list Z) : option IpAddr.IpAddr :=
  match bs with
  | [a; b; c; d] => Some (IpAddr.V4 (IpAddr.mkIpv4 a b c d))
  | _ => if (length bs =? 16)%nat then Some (IpAddr.V6 (IpAddr.mkIpv6 (groups bs))) else None
  end.

(** The loop of [from_pem] over the names the parser found. *)
Definition from_names (names : list GeneralName) : CertSanSet :=
  foldl (fun san name =>
    match name with
    | DNSName d => mkSan (dns san ++ [lower d]) (ips san)
    | IPAddress bs => match bytes_to_ip bs with Some ip => mkSan (dns san) (ips san ++ [ip]) | None => san end
    | OtherName => san
    end) (mkSan [] []) names.

Definition dns_matches (san host : list Z) : bool :=
  match strip_prefix (lit "*.") san with
  | Some suffix =>
    if negb (contains_char 46 suffix) then false
    else
      match split_once 46 host with
      | Some (label, rest) => negb (bool_decide (label = [])) && bool_decide (rest = suffix)
      | None => false
      end
  | None => bool_decide (san = host)
  end.

Definition parse_ip (s : list Z) : option IpAddr.IpAddr :=
  match IpAddr.parse_ipv4 s with
  | Some a => Some (IpAddr.V4 a)
  | None => IpAddr.V6 <$> IpAddr.parse_ipv6 s
  end.

Definition covers (san : CertSanSet) (host : list Z) : bool :=
  match parse_ip host with
  | Some ip => bool_decide (ip ∈ ips san)
  | None => existsb (fun d => dns_matches d (lower host)) (dns san)
  end.

(** ** Resolution *)

Inductive EndpointSource : Type := Override | Seed | Derived | Loopback.

Record ResolvedAdvertisedEndpoint : Type := mkResolved { endpoint : list Z; source : EndpointSource }.

Inductive ConfigTier : Type := OverrideTier | SeedTier.

Inductive ResolveEndpointError : Type :=
| ConfiguredEndpointInvalid (tier : ConfigTier) (reason : GrammarError)
| ConfiguredEndpointNotCovered (tier : ConfigTier) (host : list Z)
| NoSanCoveredCandidate.

Record ResolveInputs : Type := mkInputs {
  override_value : option (list Z);
  seed : option (list Z);
  req_host : option (list Z);
  control_port : Z;
  san : CertSanSet;
}.

Definition finalize_explicit (value : list Z) (tier : ConfigTier) (src : EndpointSource) (san : CertSanSet) :
  Result ResolvedAdvertisedEndpoint ResolveEndpointError :=
  match validate_authority value with
  | Err reason => Err (ConfiguredEndpointInvalid tier reason)
  | Ok (host, _) =>
    if negb (covers san host) then Err (ConfiguredEndpointNotCovered tier host)
    else Ok (mkResolved value src)
  end.

Definition try_derive_from_host (i : ResolveInputs) : option ResolvedAdvertisedEndpoint :=
  match req_host i with
  | None => None
  | Some raw =>
    match host_from_header raw (control_port i) with
    | None => None
    | Some candidate =>
      match validate_authority candidate with
      | Err _ => None
      | Ok (host, _) => if covers (san i) host then Some (mkResolved candidate Derived) else None
      end
    end
  end.

Definition resolve_advertised_endpoint (i : ResolveInputs) :
  Result ResolvedAdvertisedEndpoint ResolveEndpointError :=
  match override_value i with
  | Some v => finalize_explicit v OverrideTier Override (san i)
  | None =>
    match seed i with
    | Some v => finalize_explicit v SeedTier Seed (san i)
    | None =>
      match try_derive_from_host i with
      | Some resolved => Ok resolved
      | None =>
        let loopback := lit "127.0.0.1:" ++ dec (control_port i) in
        match validate_authority loopback with
        | Ok (host, _) =>
          if covers (san i) host then Ok (mkResolved loopback Loopback) else Err NoSanCoveredCandidate
        | Err _ => Err NoSanCoveredCandidate
        end
      end
    end
  end.

Definition http_code (e : ResolveEndpointError) : list Z :=
  match e with
  | ConfiguredEndpointInvalid _ _ => lit "endpoint_invalid"
  | ConfiguredEndpointNotCovered _ _ | NoSanCoveredCandidate => lit "endpoint_not_in_cert_san"
  end.

(** ** The stored override and its endpoints *)

(** The part of the server's state the endpoint depends on; [row] is the
    column of the single row of [server_settings]. *)
Record Server : Type := mkServer {
  row : option (list Z);
  advertised_seed : option (list Z);
  listen_port : Z;
  cert_san : CertSanSet;
}.

Definition nonempty (v : option (list Z)) : option (list Z) :=
  match v with Some [] => None | v => v end.

Definition get_setting (s : Server) : option (list Z) := nonempty (row s).

Definition set_setting (s : Server) (value : option (list Z)) : Result Server GrammarError :=
  let normalized := nonempty value in
  let? _ := match normalized with Some v => validate_authority v | None => Ok ([], 0) end in
  Ok (mkServer normalized (advertised_seed s) (listen_port s) (cert_san s)).

(** The inputs every caller gathers; only a request for an enrolment has a
    [Host] header. *)
Definition inputs (s : Server) (host : option (list Z)) : ResolveInputs :=
  mkInputs (get_setting s) (advertised_seed s) host (listen_port s) (cert_san s).

Inductive SettingsError : Type :=
| RoleRequired
| EndpointInvalid (reason : GrammarError)
| EndpointNotInCertSan (host : list Z)
| StoreFailed (reason : GrammarError).

Record AdvertisedEndpointView : Type := mkView {
  v_override : option (list Z);
  v_effective : option (list Z);
  v_source : option EndpointSource;
  v_diagnostic : option ResolveEndpointError;
}.

Definition superadmin (identity : Rbac.OperatorIdentity) : Result unit SettingsError :=
  match Rbac.require_role identity Rbac.Superadmin with Ok _ => Ok tt | Err _ => Err RoleRequired end.

Definition get_advertised_endpoint (s : Server) (identity : Rbac.OperatorIdentity) :
  Result AdvertisedEndpointView SettingsError :=
  let? _ := superadmin identity in
  Ok (match resolve_advertised_endpoint (inputs s None) with
      | Ok r => mkView (get_setting s) (Some (endpoint r)) (Some (source r)) None
      | Err e => mkView (get_setting s) None None (Some e)
      end).

Definition put_advertised_endpoint (s : Server) (identity : Rbac.OperatorIdentity) (body : option (list Z)) :
  Result AdvertisedEndpointView SettingsError * Server :=
  match (let? _ := superadmin identity in
         match nonempty body with
         | None => Ok tt
         | Some v =>
           match validate_authority v with
           | Err reason => Err (EndpointInvalid reason)
           | Ok (host, _) => if negb (covers (cert_san s) host) then Err (EndpointNotInCertSan host) else Ok tt
           end
         end) with
  | Err e => (Err e, s)
  | Ok _ =>
    match set_setting s (nonempty body) with
    | Err reason => (Err (StoreFailed reason), s)
    | Ok s => (get_advertised_endpoint s identity, s)
    end
  end.

(** ** Decimal numbers without leading zeros *)

Notation digit c := (is_ascii_digit c = true).

Lemma dec_digits_snoc s c a : dec_digits (s ++ [c]) a =
  match dec_digits s a with
  | Some v => if is_ascii_digit c then Some (v * 10 + (c - 48)) else None
  | None => None
  end.
Proof. revert a. induction s as [|x s IH]; intros a; simpl; [done|]. case_test; [apply IH|done]. Qed.

Lemma dec_digits_grows s : forall a z, 0 <= a -> dec_digits s a = Some z -> a * 10 ^ Z.of_nat (length s) <= z.
Proof.
  induction s as [|c s IH]; intros a z Ha; cbn [dec_digits length].
  - intros [= <-]. change (10 ^ Z.of_nat 0) with 1. lia.
  - destruct (is_ascii_digit c) eqn:Hc; [|done]. unfold is_ascii_digit in Hc. bool_prop. intros Hz.
    apply IH in Hz; [|lia]. rewrite Nat2Z.inj_succ, Z.pow_succ_r by lia.
    pose proof (Z.pow_pos_nonneg 10 (Z.of_nat (length s))). nia.
Qed.

Lemma canonical_positive c s z : digit c -> c <> 48 -> dec_digits (c :: s) 0 = Some z ->
  10 ^ Z.of_nat (length s) <= z.
Proof.
  intros Hc Hn. cbn [dec_digits]. rewrite Hc. intros Hz. unfold is_ascii_digit in Hc. bool_prop.
  apply dec_digits_grows in Hz; [|lia]. pose proof (Z.pow_pos_nonneg 10 (Z.of_nat (length s))). nia.
Qed.

(** No leading zero. *)
Definition canonical (s : list Z) : Prop := match s with c :: _ => c <> 48 | [] => False end.

Lemma canonical_unique s : forall t z, Forall (fun c => digit c) s -> Forall (fun c => digit c) t ->
  (s = [] \/ canonical s) -> (t = [] \/ canonical t) -> dec_digits s 0 = Some z -> dec_digits t 0 = Some z -> s = t.
Proof.
  assert (Hzero : forall t, Forall (fun c => digit c) t -> t = [] \/ canonical t -> dec_digits t 0 = Some 0 -> t = []).
  { intros [|c t] Hd [?|Hc] Hz; [done..|]. apply Forall_cons in Hd as [Hd _].
    apply canonical_positive in Hz; [|done|done]. pose proof (Z.pow_pos_nonneg 10 (Z.of_nat (length t))). lia. }
  assert (Hinit : forall s (c : Z), s ++ [c] = [] \/ canonical (s ++ [c]) -> s = [] \/ canonical s).
  { intros [|x s'] c [H|H]; [by left..|by destruct s'|by right]. }
  induction s as [|c s IH] using rev_ind; intros t z Hs Ht Cs Ct Vs Vt.
  - injection Vs as <-. symmetry. by apply Hzero.
  - destruct t as [|d t _] using rev_ind.
    { injection Vt as <-. apply (Hzero (s ++ [c])); [done|done|]. done. }
    rewrite dec_digits_snoc in Vs, Vt. apply Forall_app in Hs as [Hs [Hc _]%Forall_cons].
    apply Forall_app in Ht as [Ht [Hd _]%Forall_cons]. rewrite Hc in Vs. rewrite Hd in Vt.
    destruct (dec_digits s 0) as [v|] eqn:Ev; [|done]. destruct (dec_digits t 0) as [w|] eqn:Ew; [|done].
    injection Vs as Vs. injection Vt as Vt. unfold is_ascii_digit in Hc, Hd. bool_prop.
    assert (v = w /\ c = d) as [-> ->] by lia. f_equal.
    apply (IH t w); [done|done|by eapply Hinit|by eapply Hinit|done|done].
Qed.

Lemma dec_go_head fuel : forall z acc, 0 < z < 10 ^ Z.of_nat fuel -> canonical (dec_go fuel z acc).
Proof.
  induction fuel as [|fuel IH]; intros z acc Hz; [cbn in Hz; lia|]. cbn [dec_go].
  destruct (z <? 10) eqn:E; bool_prop; [simpl; rewrite Z.mod_small by lia; lia|].
  apply IH. rewrite Nat2Z.inj_succ, Z.pow_succ_r in Hz by lia.
  split; [apply Z.div_str_pos; lia|apply Z.div_lt_upper_bound; lia].
Qed.

Lemma dec_canonical z : 0 < z -> canonical (dec z).
Proof.
  intros Hz. apply dec_go_head. split; [done|]. rewrite Nat2Z.inj_succ, Z2Nat.id by apply Z.log2_nonneg.
  eapply Z.lt_le_trans; [apply Z.log2_spec; lia|]. apply Z.pow_le_mono_l. lia.
Qed.

(** A positive number has one text without leading zeros. *)
Lemma canonical_dec s z : 0 < z -> Forall (fun c => digit c) s -> canonical s -> dec_digits s 0 = Some z -> s = dec z.
Proof.
  intros Hz Hs Hc Hv. apply (canonical_unique s (dec z) z); [done|apply dec_digit|by right| |done|].
  { right. by apply dec_canonical. }
  apply dec_value. lia.
Qed.

Lemma dec_short z n : 0 < z < 10 ^ Z.of_nat n -> (length (dec z) <= n)%nat.
Proof.
  intros Hz. pose proof (dec_canonical z ltac:(lia)) as Hc. pose proof (dec_digit z) as Hd.
  pose proof (dec_value z ltac:(lia)) as Hv. destruct (dec z) as [|c s]; [done|].
  apply Forall_cons in Hd as [Hd _]. pose proof (canonical_positive c s z Hd Hc Hv) as Hl. simpl.
  destruct (decide (S (length s) <= n)%nat); [done|exfalso].
  pose proof (Z.pow_le_mono_r 10 (Z.of_nat n) (Z.of_nat (length s)) ltac:(lia) ltac:(lia)). lia.
Qed.

(** ** Characters of a host *)

Definition host_char (c : Z) : Prop := is_ascii_alphanumeric c = true \/ c = 45 \/ c = 46.

Lemma digit_host_char c : digit c -> host_char c.
Proof. intros Hc. left. unfold is_ascii_alphanumeric. rewrite Hc. by rewrite ?orb_true_r. Qed.

Lemma read_digits_host max s : forall acc n v m r, IpAddr.read_digits 10 max s acc n = Some (v, m, r) ->
  Forall host_char r -> Forall host_char s.
Proof.
  induction s as [|c s IH]; intros acc n v m r; cbn [IpAddr.read_digits]; [by intros [= _ _ <-]|].
  unfold IpAddr.to_digit. destruct (is_ascii_digit c) eqn:Hc.
  - case_test; [|by intros [= _ _ <-]]. case_test; [done|]. intros Hr Hall. constructor; [by apply digit_host_char|].
    by eapply IH.
  - destruct ((97 <=? c) && (c <=? 102)) eqn:E1; [rewrite (proj2 (Z.ltb_ge _ _)) by lia; by intros [= _ _ <-]|].
    destruct ((65 <=? c) && (c <=? 70)) eqn:E2; [rewrite (proj2 (Z.ltb_ge _ _)) by lia; by intros [= _ _ <-]|].
    by intros [= _ _ <-].
Qed.

Lemma read_octet_host first s v r : IpAddr.read_octet first s = Some (v, r) -> Forall host_char r -> Forall host_char s.
Proof.
  unfold IpAddr.read_octet, IpAddr.read_separator, IpAddr.read_number.
  assert (Hn : forall s, match IpAddr.read_digits 10 3 s 0 0 with
    | Some (v, n, r) => if n =? 0 then None else if negb false && starts_with_char 48 s && (1 <? n) then None
        else if 255 <? v then None else Some (v, r)
    | None => None end = Some (v, r) -> Forall host_char r -> Forall host_char s).
  { clear s. intros s. destruct (IpAddr.read_digits 10 3 s 0 0) as [[[w n] r']|] eqn:E; [|done].
    repeat case_test; try done. intros [= <- <-]. by eapply read_digits_host. }
  destruct first; [apply Hn|]. destruct s as [|c s]; [done|]. simpl. destruct (c =? 46) eqn:E; [|done].
  bool_prop. subst. intros Hs Hr. constructor; [by right; right|by apply Hn].
Qed.

Lemma read_ipv4_host s a r : IpAddr.read_ipv4_addr s = Some (a, r) -> Forall host_char r -> Forall host_char s.
Proof.
  unfold IpAddr.read_ipv4_addr. intros ([v0 r0] & E0 & H)%bind_Some Hr.
  apply bind_Some in H as ([v1 r1] & E1 & H). apply bind_Some in H as ([v2 r2] & E2 & H).
  apply bind_Some in H as ([v3 r3] & E3 & [= _ ->]).
  eapply read_octet_host; [exact E0|]. eapply read_octet_host; [exact E1|]. eapply read_octet_host; [exact E2|].
  by eapply read_octet_host.
Qed.

Lemma ipv4_host h : is_ipv4 h = true -> Forall host_char h /\ (str_len h <= 15)%nat /\ h <> [].
Proof.
  unfold is_ipv4, IpAddr.parse_ipv4, IpAddr.parse_with. rewrite bool_decide_eq_true. intros [a Ha].
  destruct (15 <? length (as_bytes h))%nat eqn:El; [done|]. bool_prop. rewrite length_as_bytes in El.
  destruct (IpAddr.read_ipv4_addr (as_bytes h)) as [[a' r]|] eqn:E; [|done]. destruct r; [|done].
  split_and!; [|done|by intros ->]. apply (as_bytes_ascii host_char h); [|by eapply read_ipv4_host].
  unfold host_char, is_ascii_alphanumeric, is_ascii_digit, is_ascii_lowercase, is_ascii_uppercase. lia.
Qed.

Lemma Forall_split_char (P : Z -> Prop) c s : P c -> Forall (Forall P) (split_char c s) -> Forall P s.
Proof.
  intros Hc. induction s as [|x s IH]; [done|]. cbn [split_char]. pose proof (split_char_nonnil c s) as Hn.
  destruct (x =? c) eqn:E; bool_prop.
  - subst. intros [_ Hs]%Forall_cons. constructor; [done|by apply IH].
  - destruct (split_char c s) as [|l ls]; [done|]. intros [[Hx Hl]%Forall_cons Hs]%Forall_cons.
    constructor; [done|]. apply IH. by constructor.
Qed.

Lemma name_host h : Hostname.valid_name h -> Forall host_char h /\ (str_len h <= 253)%nat /\ h <> [].
Proof.
  intros [Hn Hs Hl _]. split_and!; [|done|done]. apply (Forall_split_char host_char 46); [by right; right|].
  eapply Forall_impl; [exact Hl|]. intros l []. eapply Forall_impl; [done|]. intros c [?| ->]; [by left|by right; left].
Qed.

Lemma as_bytes_digits_iff l : forallb is_ascii_digit (as_bytes l) = forallb is_ascii_digit l.
Proof.
  apply eq_iff_eq_true. split; intros H; [|by rewrite IpAddr.as_bytes_digits].
  assert (Hd : Forall (fun c => digit c) (as_bytes l)) by by apply forallb_true_Forall.
  apply as_bytes_ascii in Hd as [_ Heq]; [by rewrite Heq in H|]. unfold is_ascii_digit. lia.
Qed.

(** ** What the grammar accepts *)

Lemma rfc1123_valid h : h <> [] -> is_rfc1123_hostname h = true <-> Hostname.valid_name h.
Proof.
  intros Hne. unfold is_rfc1123_hostname. destruct (253 <? str_len h)%nat eqn:El; bool_prop.
  { split; [done|]. intros [_ Hs _ _]. lia. }
  assert (Hlab : forall l, (negb (bool_decide (l = [])) && (str_len l <=? 63)%nat &&
        forallb (fun c => is_ascii_alphanumeric c || (c =? 45)) l &&
        negb (starts_with_char 45 l) && negb (ends_with_char 45 l)) = true <-> Hostname.valid_label l).
  { intros l. rewrite !andb_true_iff, !negb_true_iff, bool_decide_eq_false, Nat.leb_le, forallb_forall. split.
    - intros ((((H1 & H2) & H3) & H4) & H5). split; [done..|]. apply Forall_forall. intros c Hc%list_elem_of_In.
      apply H3 in Hc. apply orb_true_iff in Hc as [?|Hc%Z.eqb_eq]; [by left|by right].
    - intros [H1 H2 H3 H4 H5]. split_and!; [done..| |done|done]. intros c Hc%list_elem_of_In.
      rewrite Forall_forall in H5. destruct (H5 c Hc) as [->| ->]; [done|]. by rewrite orb_true_r. }
  set (num := forallb _ (split_char 46 h)).
  assert (Hnum : Forall Hostname.valid_label (split_char 46 h) ->
    num = forallb (forallb is_ascii_digit) (split_char 46 h)).
  { intros Hv. unfold num. clear -Hv. induction Hv as [|l ls Hl _ IH]; [done|]. simpl. rewrite IH. f_equal.
    rewrite as_bytes_digits_iff, bool_decide_false by apply Hl. done. }
  split.
  - destruct num eqn:En; [done|]. intros Hv.
    assert (Hls : Forall Hostname.valid_label (split_char 46 h)).
    { apply Forall_forall. intros l Hl%list_elem_of_In. apply Hlab. by eapply (proj1 (forallb_forall _ _) Hv). }
    split; [done|lia|done|]. apply Hostname.split_numeric. change Hostname.DOT with 46. by rewrite <- Hnum.
  - intros [_ _ Hls Hx]. rewrite Hnum by done. apply Hostname.split_numeric in Hx. change Hostname.DOT with 46 in Hx.
    rewrite Hx. apply forallb_forall. intros l Hl%list_elem_of_In. apply Hlab. rewrite Forall_forall in Hls. by apply Hls.
Qed.

(** Characters of an authority: the ones the earlier tests refuse are not
    among them. *)
Lemma authority_char c : host_char c \/ c = 58 -> c <> 47 /\ c <> 63 /\ c <> 35 /\ c <> 64 /\ c <> 91 /\ c <> 93 /\
  blank c = false.
Proof.
  unfold host_char, is_ascii_alphanumeric, is_ascii_digit, is_ascii_lowercase, is_ascii_uppercase, blank,
    is_whitespace, is_control. intros H.
  assert (c = 45 \/ c = 46 \/ c = 58 \/ 48 <= c <= 57 \/ 65 <= c <= 90 \/ 97 <= c <= 122) as Hc by lia. clear H.
  split_and!; lia || idtac.
Qed.

Lemma contains_char_false c s : contains_char c s = false <-> c ∉ s.
Proof.
  unfold contains_char. rewrite <- not_true_iff_false, existsb_exists. split.
  - intros H Hin. apply H. exists c. split; [by apply list_elem_of_In|apply Z.eqb_refl].
  - intros H (x & Hx%list_elem_of_In & E%Z.eqb_eq). by subst.
Qed.

Lemma contains_str_elem p c s : c ∈ p -> contains_str p s = true -> c ∈ s.
Proof.
  intros Hc. induction s as [|x s IH]; cbn [contains_str].
  - destruct (strip_prefix p []) eqn:E; [|done]. apply strip_prefix_spec in E. intros _.
    destruct p; [done|]. by simplify_eq/=.
  - destruct (strip_prefix p (x :: s)) eqn:E; [|set_solver]. apply strip_prefix_spec in E. rewrite E. set_solver.
Qed.

Lemma str_len_ascii s : Forall (fun c => c < 128) s -> str_len s = length s.
Proof.
  induction 1 as [|c s Hc _ IH]; [done|]. unfold str_len in *. cbn. rewrite IH. unfold utf8_len.
  by rewrite (proj2 (Z.ltb_lt c 0x80)) by lia.
Qed.

Lemma str_len_app a b : str_len (a ++ b) = (str_len a + str_len b)%nat.
Proof. rewrite <- !length_as_bytes, as_bytes_app. apply length_app. Qed.

Lemma dec_str_len z : str_len (dec z) = length (dec z).
Proof.
  apply str_len_ascii. eapply Forall_impl; [apply dec_digit|]. intros c. unfold is_ascii_digit. lia.
Qed.

(** The text of a host and a port. *)
Definition authority (h : list Z) (p : Z) : list Z := h ++ lit ":" ++ dec p.

Definition valid_host (h : list Z) : Prop := is_ipv4 h = true \/ Hostname.valid_name h.

Lemma valid_host_chars h : valid_host h -> Forall host_char h /\ (str_len h <= 253)%nat /\ h <> [].
Proof. intros [H%ipv4_host|H%name_host]; [|done]. destruct H as (? & ? & ?). split_and!; [done|lia|done]. Qed.

Lemma authority_chars h p : valid_host h -> Forall (fun c => host_char c \/ c = 58) (authority h p).
Proof.
  intros (Hh & _)%valid_host_chars. unfold authority. apply Forall_app. split; [by eapply Forall_impl; [|by left]|].
  apply Forall_app. split; [apply Forall_singleton; by right|]. eapply Forall_impl; [apply dec_digit|].
  intros c Hc. left. by apply digit_host_char.
Qed.

Lemma bad_port_dec p : 0 < p -> bad_port (dec p) = false.
Proof.
  intros Hp. unfold bad_port. rewrite bool_decide_false by apply dec_nonnil. rewrite as_bytes_digits_iff.
  pose proof (dec_canonical p Hp) as Hc. pose proof (dec_digit p) as Hd.
  rewrite (proj2 (forallb_true_Forall _ _) Hd). simpl. destruct (dec p) as [|c s]; [done|]. simpl in *. rewrite (proj2 (Z.eqb_neq _ _)) by done.
  by rewrite andb_false_r.
Qed.

Lemma good_port ps p : bad_port ps = false -> parse_uint u16_max ps = Some p -> p <> 0 ->
  1 <= p <= 65535 /\ ps = dec p.
Proof.
  intros Hb Hp Hn. pose proof (parse_uint_in _ _ _ Hp) as Hr. unfold u16_max in *. split; [lia|].
  unfold bad_port in Hb. rewrite as_bytes_digits_iff in Hb. apply orb_false_iff in Hb as [[He Hd]%orb_false_iff Hz].
  apply negb_false_iff in Hd. apply bool_decide_eq_false in He.
  apply forallb_true_Forall in Hd as Hall.
  assert (Hv : dec_digits ps 0 = Some p).
  { unfold parse_uint in Hp. destruct ps as [|c s]; [done|]. apply Forall_cons in Hall as [Hc _].
    unfold is_ascii_digit in Hc. bool_prop. rewrite (proj2 (Z.eqb_neq c 43)) in Hp by lia.
    destruct (dec_digits (c :: s) 0); [|done]. case_test_in Hp; [done|done]. }
  rewrite str_len_ascii in Hz by (eapply Forall_impl; [exact Hall|]; unfold is_ascii_digit; lia).
  destruct ps as [|c s]; [done|]. apply canonical_dec; [lia|done| |done]. simpl. intros ->.
  destruct s as [|d s]; [simpl in Hv; injection Hv as <-; lia|done].
Qed.

Lemma authority_sound s h p : validate_authority s = Ok (h, p) ->
  s = authority h p /\ 1 <= p <= 65535 /\ valid_host h.
Proof.
  unfold validate_authority. repeat (case_test; [done|]).
  destruct (rsplit_once 58 s) as [[host ps]|] eqn:Hs; [|done].
  destruct (bool_decide (host = [])) eqn:Hh; [done|]. destruct (bad_port ps) eqn:Hb; [done|].
  destruct (parse_uint u16_max ps) as [port|] eqn:Hp; [|done]. destruct (port =? 0) eqn:H0; [done|].
  destruct (negb (is_ipv4 host) && negb (is_rfc1123_hostname host)) eqn:Hhost; [done|]. intros [= <- <-].
  bool_prop. destruct (good_port ps port Hb Hp H0) as [Hr ->]. apply rsplit_once_Some in Hs.
  split_and!; [done|lia|lia|]. destruct Hhost as [Hi%negb_false_iff|Hn%negb_false_iff]; [left|right].
  - done.
  - by apply rfc1123_valid.
Qed.

Lemma authority_complete h p : 1 <= p <= 65535 -> valid_host h -> validate_authority (authority h p) = Ok (h, p).
Proof.
  intros Hp Hv. pose proof (authority_chars h p Hv) as Hc.
  destruct (valid_host_chars h Hv) as (_ & Hlen & Hne).
  assert (Hnot : forall c, (host_char c \/ c = 58 -> False) -> c ∉ authority h p).
  { intros c Hn Hin. rewrite Forall_forall in Hc. by apply Hn, Hc. }
  assert (Hchar : forall c, In c [47; 63; 35; 64; 91; 93] -> contains_char c (authority h p) = false).
  { intros c Hin. apply contains_char_false, Hnot. intros Ha%authority_char. simpl in Hin. lia. }
  unfold validate_authority. rewrite bool_decide_false by (unfold authority; by destruct h).
  assert (Hl : (str_len (authority h p) <= 263)%nat).
  { unfold authority. rewrite !str_len_app, dec_str_len. pose proof (dec_short p 5). simpl.
    change (str_len (lit ":")) with 1%nat. lia. }
  rewrite (proj2 (Nat.ltb_ge _ _)) by done.
  destruct (contains_str (lit "://") (authority h p)) eqn:Hss.
  { exfalso. apply (contains_str_elem _ 47) in Hss; [|by vm_compute; set_solver].
    by apply (proj1 (contains_char_false 47 (authority h p)) (Hchar 47 ltac:(simpl; lia))). }
  rewrite !Hchar by (simpl; lia). simpl.
  destruct (existsb blank (authority h p)) eqn:Hbl.
  { apply existsb_exists in Hbl as (c & Hin%list_elem_of_In & Hb). rewrite Forall_forall in Hc.
    apply Hc, authority_char in Hin. destruct Hin as (_ & _ & _ & _ & _ & _ & Hb'). congruence. }
  unfold authority at 1. change (lit ":" ++ dec p) with (58 :: dec p).
  rewrite rsplit_once_app by (apply not_elem_of_dec; done). rewrite bool_decide_false by done.
  rewrite bad_port_dec by lia. rewrite parse_uint_dec by (unfold u16_max; lia).
  rewrite (proj2 (Z.eqb_neq _ _)) by lia.
  destruct Hv as [->|Hv]; [done|]. rewrite (proj2 (rfc1123_valid h Hne) Hv). by rewrite andb_false_r.
Qed.

(** The grammar accepts exactly the texts [host:port] of an IPv4 address or an
    RFC 1123 name and a port from 1 to 65535 in canonical decimal, and returns
    the two parts. *)
Theorem authority_exact (s h : list Z) (p : Z) :
  validate_authority s = Ok (h, p) <-> s = authority h p /\ 1 <= p <= 65535 /\ valid_host h.
Proof. split; [apply authority_sound|]. intros (-> & Hp & Hv). by apply authority_complete. Qed.
Lemma authority_inj h p h' p' : authority h p = authority h' p' -> 0 <= p -> 0 <= p' -> h = h' /\ p = p'.
Proof.
  unfold authority. change (lit ":") with [58]. simpl. intros Heq Hp Hp'.
  pose proof (rsplit_once_app 58 h (dec p) ltac:(by apply not_elem_of_dec)) as H1.
  rewrite Heq, rsplit_once_app in H1 by by apply not_elem_of_dec. injection H1 as -> Hdec. split; [done|].
  pose proof (dec_value p Hp) as V1. rewrite <- Hdec, dec_value in V1 by done. by injection V1.
Qed.

(** ** Resolution *)

Lemma finalize_ok v tier src sn r : finalize_explicit v tier src sn = Ok r ->
  r = mkResolved v src /\ exists h p, validate_authority v = Ok (h, p) /\ covers sn h = true.
Proof.
  unfold finalize_explicit. destruct (validate_authority v) as [[h p]|] eqn:Hv; [|done].
  destruct (covers sn h) eqn:Hc; [|done]. intros [= <-]. split; [done|]. by exists h, p.
Qed.

Lemma header_candidate raw port c : host_from_header raw port = Some c -> 0 <= port ->
  exists h, c = authority h port /\ valid_host h /\ 1 <= port <= 65535 /\
    (trim raw = h \/ exists ds, trim raw = h ++ lit ":" ++ ds /\ Forall (fun c => digit c) ds).
Proof.
  unfold host_from_header. case_test; [done|]. case_test; [done|]. set (r := trim raw). intros Hh Hport.
  assert (Hhost : exists h, (r = h \/ exists ds, r = h ++ lit ":" ++ ds /\ Forall (fun c => digit c) ds) /\
    c = authority h port /\ is_ok (validate_authority (authority h port)) = true).
  { destruct (rsplit_once 58 r) as [[h ps]|] eqn:Hr.
    - destruct (forallb is_ascii_digit ps && _) eqn:Hd; [|done]. destruct (bool_decide (h = [])); [done|].
      fold (authority h port) in Hh. destruct (validate_authority (authority h port)) eqn:Hv; [|done]. injection Hh as <-.
      exists h. rewrite Hv. split_and!; [|done|done]. right. exists ps. split; [by apply rsplit_once_Some|].
      apply andb_true_iff in Hd as [Hd _]. by apply forallb_true_Forall.
    - destruct (bool_decide (r = [])); [done|]. fold (authority r port) in Hh.
      destruct (validate_authority (authority r port)) eqn:Hv; [|done]. injection Hh as <-.
      exists r. rewrite Hv. split_and!; [by left|done|done]. }
  destruct Hhost as (h & Hraw & -> & Hv). exists h.
  destruct (validate_authority (authority h port)) as [[h' p']|] eqn:Hva; [|done].
  pose proof (authority_sound _ _ _ Hva) as (Heq & Hp' & Hv').
  apply authority_inj in Heq as [<- <-]; [|lia|lia]. split_and!; [done|done|lia|lia|done].
Qed.

Lemma resolved_spec (i : ResolveInputs) (r : ResolvedAdvertisedEndpoint) :
  0 <= control_port i -> resolve_advertised_endpoint i = Ok r ->
  exists h p, endpoint r = authority h p /\ 1 <= p <= 65535 /\ valid_host h /\ covers (san i) h = true /\
    match override_value i, seed i with
    | Some v, _ => r = mkResolved v Override
    | None, Some v => r = mkResolved v Seed
    | None, None => p = control_port i /\ (source r = Derived \/ source r = Loopback)
    end.
Proof.
  intros Hport. unfold resolve_advertised_endpoint.
  destruct (override_value i) as [v|].
  { intros (-> & h & p & (He & Hp & Hv)%authority_sound & Hc)%finalize_ok. by exists h, p. }
  destruct (seed i) as [v|].
  { intros (-> & h & p & (He & Hp & Hv)%authority_sound & Hc)%finalize_ok. by exists h, p. }
  destruct (try_derive_from_host i) as [r'|] eqn:Hd.
  - intros [= <-]. unfold try_derive_from_host in Hd. destruct (req_host i) as [raw|]; [|done].
    destruct (host_from_header raw (control_port i)) as [c|] eqn:Hh; [|done].
    destruct (header_candidate _ _ _ Hh Hport) as (h & -> & Hv & Hp & _).
    rewrite authority_complete in Hd by done. destruct (covers (san i) h) eqn:Hc; [|done]. injection Hd as <-.
    exists h, (control_port i). split_and!; try (done || lia). by left.
  - destruct (validate_authority _) as [[h p]|] eqn:Hv; [|done]. destruct (covers (san i) h) eqn:Hc; [|done].
    intros [= <-]. pose proof (authority_sound _ _ _ Hv) as (He & Hp & Hvh).
    change (lit "127.0.0.1:" ++ dec (control_port i)) with (authority (lit "127.0.0.1") (control_port i)) in He.
    apply authority_inj in He as [<- <-]; [|done|lia].
    exists (lit "127.0.0.1"), (control_port i). split_and!; try (done || lia). by right.
Qed.

Lemma resolved_authority i r : 0 <= control_port i -> resolve_advertised_endpoint i = Ok r ->
  exists h p, validate_authority (endpoint r) = Ok (h, p).
Proof.
  intros Hp Hr. destruct (resolved_spec i r Hp Hr) as (h & p & -> & Hrange & Hv & _). exists h, p.
  by apply authority_complete.
Qed.

(** Whatever tier it comes from, an endpoint that is resolved is a well-formed
    authority whose host the certificate covers; what is derived or falls back
    to loopback carries the control port; what the operator configured is
    returned as it is or refused, and never replaced by a lower tier. *)
Theorem resolved_endpoint_usable (i : ResolveInputs) (r : ResolvedAdvertisedEndpoint) :
  0 <= control_port i -> resolve_advertised_endpoint i = Ok r ->
  exists h p, endpoint r = authority h p /\ 1 <= p <= 65535 /\ valid_host h /\ covers (san i) h = true /\
    match override_value i, seed i with
    | Some v, _ => r = mkResolved v Override
    | None, Some v => r = mkResolved v Seed
    | None, None => p = control_port i /\ (source r = Derived \/ source r = Loopback)
    end.
Proof. apply resolved_spec. Qed.

(** A wildcard name covers exactly the hosts with one more label in front of
    its suffix, which itself has at least two labels. *)
Theorem wildcard_covers_one_label (suffix host : list Z) :
  dns_matches (lit "*." ++ suffix) host = true <->
  46 ∈ suffix /\ exists label, host = label ++ lit "." ++ suffix /\ label <> [] /\ 46 ∉ label.
Proof.
  unfold dns_matches. rewrite (proj2 (strip_prefix_spec (lit "*.") _ suffix)) by done.
  destruct (contains_char 46 suffix) eqn:Hc; simpl.
  - assert (Hin : 46 ∈ suffix).
    { destruct (decide (46 ∈ suffix)) as [|Hn]; [done|]. apply contains_char_false in Hn. congruence. }
    destruct (split_once 46 host) as [[label rest]|] eqn:Hs.
    + apply split_once_spec in Hs as [Hs Hl]. rewrite andb_true_iff, negb_true_iff.
      rewrite bool_decide_eq_false, bool_decide_eq_true. split.
      * intros [Hne ->]. split; [done|]. by exists label.
      * intros (_ & l' & Hh & Hne & Hl').
        assert (H1 : split_once 46 host = Some (label, rest)) by by apply split_once_spec.
        assert (H2 : split_once 46 host = Some (l', suffix)) by by apply split_once_spec.
        rewrite H1 in H2. by injection H2 as -> ->.
    + split; [done|]. intros (_ & l' & Hh & Hne & Hl').
      assert (H2 : split_once 46 host = Some (l', suffix)) by by apply split_once_spec. congruence.
  - split; [done|]. intros [Hin _]. by apply contains_char_false in Hc.
Qed.

(** An override that is accepted is what every later enrolment gets, whatever
    [Host] its request names and whatever the command line says. *)
Theorem accepted_override_effective (s s' : Server) (identity : Rbac.OperatorIdentity) (v : list Z)
  (view : AdvertisedEndpointView) (host : option (list Z)) :
  v <> [] -> put_advertised_endpoint s identity (Some v) = (Ok view, s') ->
  resolve_advertised_endpoint (inputs s' host) = Ok (mkResolved v Override) /\
  view = mkView (Some v) (Some v) (Some Override) None.
Proof.
  intros Hv. unfold put_advertised_endpoint.
  assert (Hne : nonempty (Some v) = Some v) by by destruct v. rewrite Hne.
  destruct (superadmin identity) as [[]|] eqn:Hsa; [|done].
  destruct (validate_authority v) as [[h p]|] eqn:Ha; [|done]. destruct (covers (cert_san s) h) eqn:Hc; [|done]. simpl.
  unfold set_setting. rewrite Hne, Ha. simpl. unfold get_advertised_endpoint. rewrite Hsa.
  assert (Hres : forall host, resolve_advertised_endpoint
    (inputs (mkServer (Some v) (advertised_seed s) (listen_port s) (cert_san s)) host) = Ok (mkResolved v Override)).
  { intros ho. unfold resolve_advertised_endpoint, inputs, get_setting. cbn [row override_value san cert_san]. rewrite Hne.
    unfold finalize_explicit. by rewrite Ha, Hc. }
  rewrite Hres. unfold get_setting. cbn [row]. rewrite Hne. intros [= <- <-]. split; [apply Hres|done].
Qed.

(** A refused setting is not stored. *)
Theorem refused_override_changes_nothing (s s' : Server) (identity : Rbac.OperatorIdentity) (body : option (list Z))
  (e : SettingsError) : put_advertised_endpoint s identity body = (Err e, s') -> s' = s.
Proof.
  unfold put_advertised_endpoint. set (checks := let? _ := superadmin identity in _).
  destruct checks as [u|e'] eqn:Hck; [|by intros [= _ <-]].
  assert (Hsa : superadmin identity = Ok tt) by (unfold checks in Hck; by destruct (superadmin identity) as [[]|]).
  destruct (set_setting s (nonempty body)) as [s1|]; [|by intros [= _ <-]].
  unfold get_advertised_endpoint. by rewrite Hsa.
Qed.

(** ** Witnesses *)

Definition demo_san : CertSanSet := from_names [DNSName (lit "*.Example.org"); IPAddress [127; 0; 0; 1]; OtherName].

Definition demo_server : Server := mkServer None None 7443 demo_san.

Definition demo_root : Rbac.OperatorIdentity := Rbac.mkIdentity (lit "root") Rbac.Superadmin.

(** The names of a host: derived from the request, with the control port. *)
Lemma resolved_endpoint_usable_witness : exists h p,
  authority h p = lit "a.example.org:7443" /\ 1 <= p <= 65535 /\ valid_host h.
Proof.
  destruct (resolved_endpoint_usable (inputs demo_server (Some (lit "a.example.org:8080")))
    (mkResolved (lit "a.example.org:7443") Derived)) as (h & p & He & Hp & Hv & _);
    [done|vm_compute; reflexivity|]. exists h, p. exact (conj (eq_sym He) (conj Hp Hv)).
Defined.

Lemma accepted_override_effective_witness :
  resolve_advertised_endpoint
    (inputs (put_advertised_endpoint demo_server demo_root (Some (lit "b.example.org:443"))).2 (Some (lit "evil.org"))) =
  Ok (mkResolved (lit "b.example.org:443") Override).
Proof.
  refine (proj1 (accepted_override_effective demo_server _ demo_root (lit "b.example.org:443")
    (mkView (Some (lit "b.example.org:443")) (Some (lit "b.example.org:443")) (Some Override) None) _ _ _));
    [discriminate|vm_compute; reflexivity].
Defined.

Lemma refused_override_changes_nothing_witness :
  (put_advertised_endpoint demo_server demo_root (Some (lit "b.other.org:443"))).2 = demo_server.
Proof.
  apply (refused_override_changes_nothing demo_server _ demo_root (Some (lit "b.other.org:443"))
    (EndpointNotInCertSan (lit "b.other.org"))). vm_compute. reflexivity.
Defined.

(** Authorities longer than the 255 bytes the grammar documents are accepted. *)
Definition long_name : list Z :=
  join_char 46 [replicate 63 97; replicate 63 97; replicate 63 97; replicate 61 97].

Example long_authority_accepted :
  str_len (authority long_name 65535) = 259%nat /\
  validate_authority (authority long_name 65535) = Ok (long_name, 65535).
Proof. split; vm_compute; reflexivity. Qed.

End Advertised.
