(* ===== verification/Enroll.v ===== *)
(** * Enrolment, from the operator's command to the client's bundle

    The command an operator is given ([create_enrollment_command] and
    [enrollment_uri] of [crates/portunus-server/src/operator/cli.rs]), the call
    that redeems its code ([grpc/enrollment.rs]), and the client's side in
    [crates/portunus-client/src]: the reading of the URI ([enroll.rs]), the
    pinned certificate ([tls.rs]) and the bundle with its search path
    ([bundle.rs]).

    The hashes, the random code and token, and what chrono makes of a
    time-to-live are arguments; so are the environment and the test whether a
    path is a file. *)

From S2P Require Import Prelude Text Fingerprint IpAddr Hostname Rbac ClientTokens Advertised.

Local Open Scope Z_scope.

Module Enroll.

(** ** The server *)

(** [pin] is [server_cert_sha256]. *)
Record Server : Type := mkServer {
  adv : Advertised.Server;
  creds : ClientTokens.Db;
  pin : list Z;
}.

Definition enrollment_uri (s : Server) (ep code : list Z) : list Z :=
  lit "portunus://" ++ ep ++ lit "/enroll?pin=sha256:" ++ pin s ++ lit "&code=" ++ code.

Record EnrollmentCommand : Type := mkCommand {
  cmd_name : list Z;
  cmd_expires : Z;
  command : list Z;
  uri : list Z;
}.

Inductive CommandError : Type :=
| InvalidTtl
| NoEndpoint (e : Advertised.ResolveEndpointError)
| NotCreated (e : ClientTokens.CreateEnrollmentError).

(** [WireCredentialBundle]; the client id is that of the credential. *)
Record WireBundle : Type := mkWire {
  w_version : Z;
  w_name : list Z;
  w_endpoint : list Z;
  w_pin : list Z;
  w_token : list Z;
  w_client : Z;
}.

Section Server.
Variable hash_token : list Z -> list Z.

(** [ttl] is [None] where chrono refuses the duration. *)
Definition create_enrollment_command (s : Server) (name : list Z) (client : option Z) (minted : Z)
  (target : ClientTokens.EnrollmentTarget) (ttl : option Z) (now : Z) (host : option (list Z)) (code : list Z) :
  Result EnrollmentCommand CommandError * Server :=
  match ttl with
  | None => (Err InvalidTtl, s)
  | Some ttl =>
    match Advertised.resolve_advertised_endpoint (Advertised.inputs (adv s) host) with
    | Err e => (Err (NoEndpoint e), s)
    | Ok resolved =>
      let ep := Advertised.endpoint resolved in
      let (r, db) := ClientTokens.create hash_token (creds s)
        (ClientTokens.mkCreate name client minted target (now + ttl) now ep) code in
      let s' := mkServer (adv s) db (pin s) in
      match r with
      | Err e => (Err (NotCreated e), s')
      | Ok _ =>
        let u := enrollment_uri s ep code in
        (Ok (mkCommand name (now + ttl) (lit "portunus-client enroll '" ++ u ++ lit "'") u), s')
      end
    end
  end.

(** [resolve_legacy]: no request header to derive an endpoint from. *)
Definition resolve_legacy (s : Server) : Result (list Z) ClientTokens.RedeemError :=
  match Advertised.resolve_advertised_endpoint (Advertised.inputs (adv s) None) with
  | Ok r => Ok (Advertised.endpoint r)
  | Err _ => Err ClientTokens.AdvertisedEndpoint
  end.

Definition enroll_rpc (s : Server) (code : list Z) (now : Z) (token : list Z) (minted : Z) :
  Result WireBundle ClientTokens.RedeemError * Server :=
  let (r, db) := ClientTokens.redeem hash_token (creds s) code now token minted (resolve_legacy s) in
  (match r with
   | Err e => Err e
   | Ok issued =>
     Ok (mkWire 1 (ClientTokens.out_name issued) (ClientTokens.out_endpoint issued) (pin s)
           (ClientTokens.out_token issued) (ClientTokens.out_client issued))
   end, mkServer (adv s) db (pin s)).

End Server.

(** ** The URI on the client *)

Inductive EnrollmentUriError : Type :=
| BadScheme
| MissingQuery
| BadPath
| MissingField (field : list Z)
| MalformedQueryPair
| BadPin.

Record EnrollmentUri : Type := mkUri {
  endpoint : list Z;
  pin_sha256 : list Z;
  code : list Z;
}.

Fixpoint read_pairs (pairs : list (list Z)) (pin code : option (list Z)) :
  Result (option (list Z) * option (list Z)) EnrollmentUriError :=
  match pairs with
  | [] => Ok (pin, code)
  | kv :: pairs =>
    match split_once 61 kv with
    | None => Err MalformedQueryPair
    | Some (key, value) =>
      if bool_decide (key = lit "pin") then
        match strip_prefix (lit "sha256:") value with
        | None => Err BadPin
        | Some value =>
          if negb (Fingerprint.is_valid_sha256_hex value) then Err BadPin
          else read_pairs pairs (Some (lower value)) code
        end
      else if bool_decide (key = lit "code") then
        if bool_decide (value = []) then Err (MissingField (lit "code"))
        else read_pairs pairs pin (Some value)
      else read_pairs pairs pin code
    end
  end.

Definition ok_or {A E} (o : option A) (e : E) : Result A E := match o with Some a => Ok a | None => Err e end.

Definition parse (raw : list Z) : Result EnrollmentUri EnrollmentUriError :=
  let? rest := ok_or (strip_prefix (lit "portunus://") raw) BadScheme in
  let? aq := ok_or (split_once 63 rest) MissingQuery in
  let? ep := ok_or (strip_suffix (lit "/enroll") aq.1) BadPath in
  if bool_decide (ep = []) then Err (MissingField (lit "endpoint"))
  else if contains_char 47 ep then Err BadPath
  else
    let? pc := read_pairs (split_char 38 aq.2) None None in
    let? p := ok_or pc.1 (MissingField (lit "pin")) in
    let? c := ok_or pc.2 (MissingField (lit "code")) in
    Ok (mkUri ep p c).

(** ** The pinned certificate *)

Section Pin.
(** The SHA-256 digest, of the [sha2] crate. *)
Variable sha256 : list Z -> list Z.

Definition sha256_hex (der : list Z) : list Z := Fingerprint.hex (sha256 der).

(** [PinnedCertVerifier::new]: the expected fingerprint. *)
Definition new_verifier (pin : list Z) : option (list Z) :=
  if negb (Fingerprint.is_valid_sha256_hex pin) then None else Some (lower pin).

Definition verify_server_cert (expected_sha256 end_entity : list Z) : bool :=
  eq_ignore_ascii_case (sha256_hex end_entity) expected_sha256.

End Pin.

(** ** The bundle *)

Record CredentialBundle : Type := mkBundle {
  version : Z;
  client_name : list Z;
  client_id : option Z;
  server_endpoint : list Z;
  server_cert_sha256 : list Z;
  token : list Z;
}.

Inductive BundleError : Type := UnsupportedVersion | MalformedPin.

Definition validate_pin (b : CredentialBundle) : Result CredentialBundle BundleError :=
  if negb (Fingerprint.is_valid_sha256_hex (server_cert_sha256 b)) then Err MalformedPin else Ok b.

Definition from_enrollment (version : Z) (name : list Z) (client : option Z) (ep sha tok : list Z) :
  Result CredentialBundle BundleError :=
  if negb (version =? 1) then Err UnsupportedVersion
  else validate_pin (mkBundle version name client ep sha tok).

(** [read_from], after the file was decoded. *)
Definition read_from (b : CredentialBundle) : Result CredentialBundle BundleError :=
  if negb (version b =? 1) then Err UnsupportedVersion else validate_pin b.

(** *** Where it lies *)

(** [PathBuf::join] of a relative component. *)
Definition join (p c : list Z) : list Z :=
  if bool_decide (p = []) || ends_with_char 47 p then p ++ c else p ++ lit "/" ++ c.

Definition BUNDLE : list Z := lit "client.bundle.json".

Definition xdg_path (xdg : list Z) : list Z := join (join xdg (lit "portunus")) BUNDLE.

Definition home_path (home : list Z) : list Z := join (join (join home (lit ".config")) (lit "portunus")) BUNDLE.

Definition cwd_path : list Z := lit "./client.bundle.json".

Section Paths.
Context (env : list Z -> option (list Z)) (is_file : list Z -> bool).

Definition default_bundle_write_path : list Z :=
  match env (lit "XDG_CONFIG_HOME") with
  | Some xdg => xdg_path xdg
  | None =>
    match env (lit "HOME") with
    | Some home => home_path home
    | None => cwd_path
    end
  end.

(** The first candidate that is a file, or all that were tried. *)
Fixpoint search (candidates attempted : list (list Z)) : Result (list Z) (list (list Z)) :=
  match candidates with
  | [] => Err attempted
  | p :: ps => if is_file p then Ok p else search ps (attempted ++ [p])
  end.

Definition candidates : list (list Z) :=
  match env (lit "PORTUNUS_CLIENT_BUNDLE") with Some p => [p] | None => [] end ++
  match env (lit "XDG_CONFIG_HOME") with Some xdg => [xdg_path xdg] | None => [] end ++
  match env (lit "HOME") with Some home => [home_path home] | None => [] end ++ [cwd_path].

Definition resolve_bundle_path_with (override_path : option (list Z)) : Result (list Z) (list (list Z)) :=
  match override_path with
  | Some p => Ok p
  | None => search candidates []
  end.

End Paths.

(** ** The URI round trip *)

Lemma sha256_pin_chars s : Fingerprint.is_valid_sha256_hex s = true ->
  Forall (fun c => Fingerprint.is_ascii_hexdigit c = true) s.
Proof.
  unfold Fingerprint.is_valid_sha256_hex. rewrite andb_true_iff, forallb_forall. intros [_ H].
  apply (as_bytes_ascii (fun c => Fingerprint.is_ascii_hexdigit c = true)).
  - apply Fingerprint.hexdigit_ascii.
  - apply Forall_forall. intros c Hc%list_elem_of_In. by apply H.
Qed.

Lemma pin_no_sep s c : Fingerprint.is_valid_sha256_hex s = true -> Fingerprint.is_ascii_hexdigit c = false -> c ∉ s.
Proof. intros Hs%sha256_pin_chars Hc Hin. rewrite Forall_forall in Hs. rewrite (Hs c Hin) in Hc. done. Qed.

(** A well-formed endpoint has none of the characters that delimit it. *)
Lemma endpoint_no_sep ep h p c : Advertised.validate_authority ep = Ok (h, p) ->
  (Advertised.host_char c \/ c = 58 -> False) -> c ∉ ep.
Proof.
  intros (-> & _ & Hv)%Advertised.authority_sound Hc Hin. pose proof (Advertised.authority_chars h p Hv) as Hall.
  rewrite Forall_forall in Hall. by apply Hc, Hall.
Qed.

Lemma parse_uri_of ep pin_ code_ h p :
  Advertised.validate_authority ep = Ok (h, p) -> Fingerprint.is_valid_sha256_hex pin_ = true ->
  code_ <> [] -> 38 ∉ code_ ->
  parse (lit "portunus://" ++ ep ++ lit "/enroll?pin=sha256:" ++ pin_ ++ lit "&code=" ++ code_) =
    Ok (mkUri ep (lower pin_) code_).
Proof.
  intros Ha Hp Hc Hamp. unfold parse.
  set (rest := ep ++ lit "/enroll?pin=sha256:" ++ pin_ ++ lit "&code=" ++ code_).
  rewrite (proj2 (strip_prefix_spec (lit "portunus://") _ rest)) by done. cbn [ok_or].
  assert (Hno : forall c, (Advertised.host_char c \/ c = 58 -> False) -> c ∉ ep) by (intros c; by eapply endpoint_no_sep).
  set (q := lit "pin=sha256:" ++ pin_ ++ lit "&code=" ++ code_).
  assert (Hq : split_once 63 rest = Some (ep ++ lit "/enroll", q)).
  { apply split_once_spec. split; [unfold q, rest; by rewrite <- app_assoc|].
    rewrite elem_of_app. intros [Hin|Hin]; [|by vm_compute in Hin; set_solver].
    revert Hin. apply Hno. intros Hx%Advertised.authority_char. tauto. }
  rewrite Hq. cbn [ok_or fst snd]. rewrite (proj2 (strip_suffix_spec (lit "/enroll") _ ep)) by done. cbn [ok_or].
  assert (Hep : ep <> []).
  { intros ->. vm_compute in Ha. done. }
  rewrite bool_decide_false by done.
  rewrite (proj2 (Advertised.contains_char_false 47 ep)) by (apply Hno; intros Hx%Advertised.authority_char; tauto).
  assert (Hs : split_char 38 q = [lit "pin=sha256:" ++ pin_; lit "code=" ++ code_]).
  { unfold q. change (lit "&code=" ++ code_) with (38 :: (lit "code=" ++ code_)). rewrite app_assoc, split_char_app.
    - f_equal. apply split_char_none. rewrite elem_of_app. intros [Hin|Hin]; [|done]. by vm_compute in Hin; set_solver.
    - rewrite elem_of_app. intros [Hin|Hin]; [by vm_compute in Hin; set_solver|]. revert Hin. by apply pin_no_sep. }
  rewrite Hs. cbn [read_pairs].
  rewrite (proj2 (split_once_spec 61 (lit "pin=sha256:" ++ pin_) (lit "pin") (lit "sha256:" ++ pin_)))
    by (split; [done|vm_compute; set_solver]).
  rewrite bool_decide_true by done. rewrite (proj2 (strip_prefix_spec (lit "sha256:") _ pin_)) by done.
  rewrite Hp. cbn [negb].
  rewrite (proj2 (split_once_spec 61 (lit "code=" ++ code_) (lit "code") code_)) by (split; [done|vm_compute; set_solver]).
  rewrite (bool_decide_false (lit "code" = lit "pin")) by done. rewrite bool_decide_true by done.
  rewrite bool_decide_false by done. done.
Qed.

(** What the server prints is what the client reads: the endpoint, the pin in
    lower case and the code. *)
Theorem enrollment_uri_roundtrip (s : Server) (ep h code_ : list Z) (p : Z) :
  Advertised.validate_authority ep = Ok (h, p) -> Fingerprint.is_valid_sha256_hex (pin s) = true ->
  code_ <> [] -> 38 ∉ code_ -> parse (enrollment_uri s ep code_) = Ok (mkUri ep (lower (pin s)) code_).
Proof. apply parse_uri_of. Qed.

(** ** From the command to the bundle *)

Lemma create_ok_resolve hash_token db i c addr db' : ClientTokens.create hash_token db i c = (Ok addr, db') ->
  exists id, ClientTokens.resolve_client db i = Some (id, addr).
Proof.
  unfold ClientTokens.create.
  change (ClientTokens.resolve_client (ClientTokens.prune_stale_enrollments db (ClientTokens.in_now i)) i)
    with (ClientTokens.resolve_client db i).
  destruct (ClientTokens.resolve_client db i) as [[id a]|]; [|done]. case_bool_decide; [|done].
  intros [= <- _]. by exists id.
Qed.

Lemma command_ok hash_token s name client minted target ttl now host c cmd s' :
  0 <= Advertised.listen_port (adv s) ->
  create_enrollment_command hash_token s name client minted target (Some ttl) now host c = (Ok cmd, s') ->
  exists ep h p addr db, Advertised.validate_authority ep = Ok (h, p) /\
    ClientTokens.create hash_token (creds s) (ClientTokens.mkCreate name client minted target (now + ttl) now ep) c =
      (Ok addr, db) /\ uri cmd = enrollment_uri s ep c /\ s' = mkServer (adv s) db (pin s).
Proof.
  intros Hport. unfold create_enrollment_command.
  destruct (Advertised.resolve_advertised_endpoint _) as [r|] eqn:Hr; [|done].
  destruct (Advertised.resolved_authority (Advertised.inputs (adv s) host) r Hport Hr) as (h & p & Hv).
  destruct (ClientTokens.create _ _ _ _) as [[addr|e] db] eqn:Hc; [|done]. intros [= <- <-].
  by exists (Advertised.endpoint r), h, p, addr, db.
Qed.

(** The command of an operator enrols the client: within its time-to-live the
    client that reads the URI and calls the server with the code gets a bundle
    for the endpoint in the URI, with the token the server stored, and trusts
    afterwards the same certificate it enrolled with. *)
Theorem enrolment_end_to_end (hash_token : list Z -> list Z) (s s' : Server) (name : list Z) (client : option Z)
  (minted : Z) (target : ClientTokens.EnrollmentTarget) (ttl now : Z) (host : option (list Z)) (c : list Z)
  (cmd : EnrollmentCommand) (now' : Z) (tok : list Z) (minted' : Z) :
  create_enrollment_command hash_token s name client minted target (Some ttl) now host c = (Ok cmd, s') ->
  0 <= Advertised.listen_port (adv s) -> Fingerprint.is_valid_sha256_hex (pin s) = true ->
  ClientTokens.wf (creds s) -> (1 <= str_len c <= 256)%nat -> 38 ∉ c -> now' < now + ttl ->
  ClientName.new name = Ok name ->
  map_Forall (fun _ r => ClientName.new (ClientTokens.client_name r) = Ok (ClientTokens.client_name r))
    (ClientTokens.tokens (creds s)) ->
  map_Forall (fun _ r => ClientTokens.token_hash r <> ClientTokens.hash_hex hash_token tok)
    (ClientTokens.tokens (creds s)) ->
  exists u w b, parse (uri cmd) = Ok u /\ (enroll_rpc hash_token s' (code u) now' tok minted').1 = Ok w /\
    from_enrollment (w_version w) (w_name w) (Some (w_client w)) (w_endpoint w) (w_pin w) (w_token w) = Ok b /\
    server_endpoint b = endpoint u /\ token b = tok /\
    new_verifier (server_cert_sha256 b) = Some (pin_sha256 u).
Proof.
  intros Hcmd Hport Hpin Hwf Hlen Hamp Hnow Hname Hnames Hfree.
  destruct (command_ok _ _ _ _ _ _ _ _ _ _ _ _ Hport Hcmd) as (ep & h & p & addr & db & Hv & Hc & Hu & ->).
  destruct (create_ok_resolve _ _ _ _ _ _ Hc) as (id & Hid).
  assert (Hne : c <> []) by (intros ->; simpl in Hlen; unfold str_len in Hlen; simpl in Hlen; lia).
  exists (mkUri ep (lower (pin s)) c). rewrite Hu. unfold enrollment_uri. rewrite (parse_uri_of ep (pin s) c h p) by done.
  destruct (ClientTokens.create_then_redeem hash_token _ _ _ _ _ now' tok minted' id
    (resolve_legacy (mkServer (adv s) db (pin s))) Hwf Hc Hid Hlen Hnow Hname Hnames Hfree) as [Hr _].
  unfold enroll_rpc. cbn [code creds pin].
  destruct (ClientTokens.redeem _ _ _ _ _ _ _) as [r db'']. cbn [fst] in Hr. subst r. cbn [fst].
  eexists _, _. split; [done|]. split; [reflexivity|]. split.
  { unfold from_enrollment, validate_pin. cbn. rewrite Hpin. reflexivity. }
  cbn. unfold new_verifier. by rewrite Hpin.
Qed.

(** ** The pin *)

(** The client trusts a certificate exactly when its fingerprint is the pin,
    case aside; a text that is not a fingerprint makes no verifier. *)
Theorem pin_is_the_whole_trust (sha256 : list Z -> list Z) (pin_ : list Z) :
  match new_verifier pin_ with
  | Some expected => forall der, verify_server_cert sha256 expected der = true <->
      lower (sha256_hex sha256 der) = lower pin_
  | None => Fingerprint.is_valid_sha256_hex pin_ = false
  end.
Proof.
  unfold new_verifier. destruct (Fingerprint.is_valid_sha256_hex pin_); [|done]. simpl. intros der.
  unfold verify_server_cert, eq_ignore_ascii_case. rewrite bool_decide_eq_true. by rewrite lower_idem.
Qed.

(** ** The search path *)

Lemma search_prefix is_file ps : forall q qs att, Forall (fun p => is_file p = false) ps -> is_file q = true ->
  search is_file (ps ++ q :: qs) att = Ok q.
Proof.
  induction ps as [|p ps IH]; intros q qs att Hps Hq; simpl; [by rewrite Hq|].
  apply Forall_cons in Hps as [Hp Hps]. rewrite Hp. by apply IH.
Qed.

(** A bundle written to the default path is the one found later, unless the
    environment names another existing one: that file shadows a fresh
    enrolment. *)
Theorem enrolled_bundle_found (env : list Z -> option (list Z)) (is_file : list Z -> bool) :
  is_file (default_bundle_write_path env) = true ->
  resolve_bundle_path_with env is_file None =
    Ok (match env (lit "PORTUNUS_CLIENT_BUNDLE") with
        | Some p => if is_file p then p else default_bundle_write_path env
        | None => default_bundle_write_path env
        end).
Proof.
  intros Hw. unfold resolve_bundle_path_with, candidates.
  assert (Hrest : forall att, search is_file
    (match env (lit "XDG_CONFIG_HOME") with Some xdg => [xdg_path xdg] | None => [] end ++
     match env (lit "HOME") with Some home => [home_path home] | None => [] end ++ [cwd_path]) att =
    Ok (default_bundle_write_path env)).
  { intros att. unfold default_bundle_write_path in *.
    destruct (env (lit "XDG_CONFIG_HOME")); [by apply (search_prefix is_file [])|].
    destruct (env (lit "HOME")); by apply (search_prefix is_file []). }
  destruct (env (lit "PORTUNUS_CLIENT_BUNDLE")) as [p|]; [|apply Hrest]. simpl.
  destruct (is_file p); [done|apply Hrest].
Qed.

(** ** Witnesses *)

Definition demo_pin : list Z := replicate 64 97.

Definition demo_server : Server := mkServer Advertised.demo_server (ClientTokens.mkDb ∅ ∅ 0 ∅) demo_pin.

Lemma enrollment_uri_roundtrip_witness :
  parse (enrollment_uri demo_server (lit "a.example.org:7443") (lit "c0de")) =
    Ok (mkUri (lit "a.example.org:7443") (lower demo_pin) (lit "c0de")).
Proof.
  apply (enrollment_uri_roundtrip demo_server (lit "a.example.org:7443") (lit "a.example.org") (lit "c0de") 7443);
    [vm_compute; reflexivity|vm_compute; reflexivity|discriminate|vm_compute; set_solver].
Defined.

Definition demo_command : Result EnrollmentCommand CommandError * Server :=
  create_enrollment_command ClientTokens.plain demo_server (lit "edge") None 7
    (ClientTokens.New None) (Some 1000) 100 (Some (lit "a.example.org:8080")) (lit "c0de").

Lemma enrolment_end_to_end_witness : exists cmd s' u w,
  demo_command = (Ok cmd, s') /\ parse (uri cmd) = Ok u /\
  (enroll_rpc ClientTokens.plain s' (code u) 200 (lit "t0ken") 9).1 = Ok w.
Proof.
  destruct demo_command as [[cmd|e] s'] eqn:Hc; [|vm_compute in Hc; discriminate].
  destruct (enrolment_end_to_end ClientTokens.plain demo_server s' (lit "edge") None 7 (ClientTokens.New None) 1000 100
    (Some (lit "a.example.org:8080")) (lit "c0de") cmd 200 (lit "t0ken") 9 Hc) as (u & w & b & Hp & He & _);
    [done|vm_compute; reflexivity|apply ClientTokens.credentials_wf_empty
    |split; apply Nat.leb_le; reflexivity|vm_compute; set_solver|done|reflexivity
    |apply map_Forall_empty|apply map_Forall_empty|].
  exists cmd, s', u, w. exact (conj eq_refl (conj Hp He)).
Defined.

Definition demo_env (k : list Z) : option (list Z) :=
  if bool_decide (k = lit "HOME") then Some (lit "/root") else None.

Lemma enrolled_bundle_found_witness :
  resolve_bundle_path_with demo_env (fun _ => true) None = Ok (lit "/root/.config/portunus/client.bundle.json").
Proof. apply (enrolled_bundle_found demo_env (fun _ => true)). reflexivity. Defined.


End Enroll.
